(* ===== verification/_CoqProject ===== *)
-Q . S2P
Prelude.v
Redundancy.v
Gf256.v
Parity.v
ParityKernels.v
ParityRecover.v
Stripe.v
StripeGauss.v
StripeProofs.v
GemData.v
ExtTable.v
ExtMap.v
Gem.v
GemProofs.v
GemLaws.v
PersistV2.v
PersistProofs.v
PersistLaws.v
ExtTableProofs.v
ExtTableLaws.v
FreeMap.v
SlabFormat.v
SlabFormatProofs.v
SlotStore.v
SlotTable.v
SlotTableProofs.v
SlabState.v
SlabCrash.v
SlabCrashProofs.v
SlabCrashSteps.v
SlotStoreSlab.v
SlabCrashTraces.v
SlabMeta.v
SlabMetaProofs.v
RaidLayout.v
IntentBitmap.v
IntentLaws.v
RaidSuper.v
RaidArray.v
RaidFrame.v
RaidModel.v
RaidStripe.v
RaidWrite.v
RaidParity.v
RaidMirror.v
RaidRebuild.v
RaidHistory.v
RaidAnswers.v
RaidCreate.v
RaidLaws.v
StripeLog.v
Fence.v
FenceLaws.v
GemRebuild.v
MetaPage.v
MetaPageProofs.v
MetaTree.v
MetaTreePages.v
MetaTreeApply.v
MetaTreeWrite.v
MetaLog.v
MetaRecord.v
MetaChain.v
MetaLogDisk.v
MetaOpen.v
MetaCheckpoint.v
MetaAppend.v
MetaStoreSpec.v
MetaLaws.v
Registry.v
Thin.v
ThinInv.v
ThinAlloc.v
ThinRepr.v
ThinOps.v
ThinDisks.v
Volumes.v
Resync.v
Health.v
ThinLaws.v
