(* ===== verification/Prelude.v ===== *)
(** * Stormblock: a verification of the storage engine's core

    Stormblock is a block-storage engine.  Consumers see volumes; a volume's extents are
    slots of slabs; a slab is a region of a device, often a RAID set of drives; what maps
    extents to slots is kept in memory, persisted to a metadata store, and can be rebuilt
    from the slabs' own tables.  This library models those layers as they are written in
    Rust and proves what makes each correct.  File names below are under [src/src/].

    ** How the parts fit

      volume (Thin, Volumes)
        |
        +--->  extent map (Gem, ExtTable)  --->  slots of slabs (SlotStore, SlabState)
        |                 |                                 |
        |                 +--> persists (PersistV2)         +--> slot table (SlotTable),
        |                        |                          |    records (SlabFormat, SlabMeta)
        |                        v                          v
        |                 metadata store (MetaLog)    RAID set (RaidArray)
        +--> stripes (Stripe, StripeLog), fence (Fence)     +--> parity (Parity, Gf256)

    ** Files, what they model and what they show

    - [Prelude]: results, machine integers, byte strings, the automation and the generic
      lemmas every other file uses.
    - [Gf256], [Parity], [ParityKernels], [ParityRecover]: [raid/parity.rs].  Both GF(2^8)
      implementations are one field; the AVX2 and NEON routines compute what the portable
      ones do; [StripeStrips::recover] gives back any loss P, or P and Q, can cover;
      a scrub's [locate_raid6_fault] names the strip whose repair makes both parities
      right; a partial update is a recompute.
    - [Stripe], [StripeGauss], [StripeProofs]: [volume/stripe.rs], parity of volumes with
      one to four legs (Cauchy Reed-Solomon from three): what [compute_parity] protects,
      [reconstruct_legs] returns.
    - [RaidLayout]: [raid/layout.rs].  Strips never share a place, and a
      range splits into its pieces.
    - [IntentBitmap], [IntentLaws]: [raid/bitmap.rs] and its writers in [raid/mod.rs] as a
      step relation: every write under way has its bit on every member's disk.
    - [RaidSuper]: [raid/superblock.rs], read back as written.
    - [RaidArray] to [RaidLaws]: [raid/mod.rs], a set of any level on drives whose every
      operation may fail ([faults] of a [Device]; a failed write leaves any of its bytes).
      [RaidLaws.raid_stands_for_a_disk]: whatever is read, written, flushed, failed,
      replaced or rebuilt, in any order that leaves the slots of a running rebuild alone
      ([ops_ok]), an answered read is what a disk would say.  A degraded set answers; a
      rebuild ends; a new set is well made.
    - [FreeMap], [SlabFormat], [SlabFormatProofs], [SlotTable], [SlotTableProofs],
      [SlabMeta], [SlabMetaProofs]: [drive/freemap.rs], the records and geometry of
      [drive/slab.rs], [drive/slottable.rs], the two metadata copies of format 1.
    - [SlabState]: the slab as a state machine, [drive/slab.rs], over the interface
      [TableDev] (a slot table on a device).  [SlabCrash] gives that interface a device with
      a write-back cache; [SlabCrashProofs], [SlabCrashSteps], [SlabCrashTraces] prove the
      write-ordering rule of #171 on a device whose table writes succeed: whatever a power
      cut keeps, no entry names data that is not its tenant's, and no slot is handed out
      twice.  Lemmas of [SlabCrashTraces] run four interleavings, a failed table write among
      them, that break it.  [SlotTableProofs] has what a failed write of the table leaves:
      at most one page in doubt.  The geometry of [format_header] is in wrapping [u64].
    - [GemData], [ExtTable], [ExtMap], [Gem], [GemProofs], [GemLaws], [ExtTableProofs],
      [ExtTableLaws]: [volume/gem.rs] and [volume/extable.rs].  The packed table implements
      a finite map; every change of the extent map is recorded for the next persist.
    - [GemRebuild]: the extent map rebuilt from slot tables names the
      newest generation of each extent.
    - [PersistV2], [PersistProofs], [PersistLaws]: [volume/persist_v2.rs]: a map with extents
      that leaves memory comes back as it left (one of parity groups only does not).
    - [MetaPage] to [MetaLaws]: [volume/metav2.rs] on the crash device of
      [drive/crashdev.rs]: pages, a copy-on-write B-tree, a log of records, checkpoints.
      [MetaStoreSpec] is the contract (a map that changes by whole groups);
      [MetaLaws.history_refines] is its refinement, with power cuts anywhere and failures
      used on from, those of a log or superblock write apart: the store is opened again
      after them.  An operation of the device that fails did nothing or all its work, and a
      cut leaves any part of what was cached.
    - [StripeLog]: [volume/stripelog.rs] and its use in [volume/thin.rs]: every stripe in the
      middle of a write is named on disk while three disciplines hold, none of which the
      code sees to: marks one at a time, no clear during a write, no write of the file that
      fails; each is shown to be needed.
    - [Fence], [FenceLaws]: [volume/fence.rs], tasks as a step relation: a move excludes I/O,
      and some task can always go on.
    - [Redundancy]: [volume/redundancy.rs] and [placement/domain.rs], policies and failure
      domains with the strings they are read from: a policy reads back as it is spelled, but
      one of no copies at the default rung.
    - [SlotStore], [SlotStoreSlab]: what a volume relies on of a slab, a class of operations
      and one of laws (shares, bytes, what an error may leave), and that the slab engine of
      [SlabState] keeps them.  The errors of [drive/mod.rs].
    - [Registry]: [drive/slab_registry.rs] over any slot store, with its choices of a slab.
    - [Thin]: [volume/thin.rs] and [volume/target.rs] over any slot store: allocation, reads
      and writes on legs, copy on write, release, moves, discards, zeroes, resizes.
      [Volumes]: snapshots and deletes, [volume/snapshot.rs] and [volume/mod.rs].
    - [ThinInv], [ThinAlloc], [ThinRepr], [ThinOps], [ThinDisks]: what volumes keep,
      [repr]: each stands for a disk, its trusted legs hold its bytes, and no slot has more
      holders than shares.  [ThinLaws]: any history of requests, whatever fails, does to
      the disks what it may and no more; a snapshot reads as its source did; what was
      written is read; the legs of an extent are apart.
    - [Resync], [Health]: the resync and the health of [volume/thin.rs].  A resync of a
      mirror keeps every disk, whatever fails, and one that reports no error leaves it
      healthy; the margin health reports is a number of slabs that can be lost.

    ** How the code is modelled

    Machine integers are [Z] with the wrap, the saturation or the check the code has
    ([wrap], [sat_sub], [fits]); bytes are [list Z].  State is passed explicitly, and an
    error keeps what was changed before it, as [?] does; a panic is a value of its own.
    Functions of crates (checksums, UUIDs, clocks) are parameters of the Sections that use
    them, with what is relied on as hypotheses.  Devices carry the outcomes of the
    operations to come as streams, so a theorem over all devices is one over all failures.
    Locks: an operation runs alone unless the locking is the point (fence, bitmap, dirty
    log, syncs), where the steps between lock acquisitions are the steps of a relation.

    Recursion that is not structural has fuel, and theorems say it suffices: the tree's
    depth ([DEPTH] 256; a level that would overflow is the code's panic), a replay of the log
    (the slots of the log), the segments of a range (its length), the slots of a superblock
    ([MAX_SLOTS] and one more round), a stripe's attempts (three: each loses a member), the
    mirror read (one try per member), the rebuild loop (one turn per unit and one more), the
    search of a tier for a slab ([tier_fuel]: each turn rules a slab out), the pieces of a
    volume's read or write (its length).

    Discipline hypotheses name what the code's callers keep: a range within the device,
    buffers of the length they are said to have, ids that are sixteen bytes, operations a
    history may hold ([ops_ok], [fits]).  Each has a witness.

    ** Not modelled

    Thin volumes run one request at a time: their locks and fences, the live mirror, FUA
    writes, flush, resets to a source and snapshots of a group are not here; extents of a
    parity volume are a parameter of theirs ([ParityPath]), as is the parity half of a
    resync, stripes being modelled on their own.  A resync runs with no throttle, cancel or
    checkpoint; [ThinLaws] resyncs volumes none of whose extents is shared, since the code
    undercounts the holders of a leg it makes for several ([resync_undercounts_shares]).  A
    mirror whose policy becomes none is left out of the histories of [ThinLaws], where the
    code trusts a leg that missed a write, and so are drives that fail a write in range with
    an error neither of the medium nor of the transport.  Worlds of [repr] have no parity
    volume and no map out of memory.  [SlotStoreSlab] takes I/O of the slot table not to
    fail, where [SlabState] lets it.

    The management plane, command line, network targets, pallets, images, file systems,
    clustering and placement policy are glue, foreign formats or third-party protocols;
    the back ends under a device are system calls.  Of the slab engine the
    background eraser's pacing and the open's warnings, and of the RAID engine assembling
    from superblocks, spares, discards, growth and release, are left out; of the crash
    device only what the store uses is kept.  The manifest lists each with its reason. *)

From Stdlib Require Export ZArith Lia Bool Sorting.Sorted.
From stdpp Require Export base tactics option list gmap fin_maps sets.

#[global] Set Default Proof Using "Type".
#[global] Set Warnings "-clear-no-such-hyp".
Declare Scope storm_scope.
Delimit Scope storm_scope with storm.
Open Scope storm_scope.
#[global] Open Scope Z_scope.

(** * Tactics *)

(** Case analysis on the boolean comparisons of the model. *)
Ltac bool_cases :=
  repeat match goal with
  | H : context [Z.eqb ?a ?b] |- _ => destruct (Z.eqb_spec a b)
  | |- context [Z.eqb ?a ?b] => destruct (Z.eqb_spec a b)
  | H : context [Z.ltb ?a ?b] |- _ => destruct (Z.ltb_spec a b)
  | |- context [Z.ltb ?a ?b] => destruct (Z.ltb_spec a b)
  | H : context [Z.leb ?a ?b] |- _ => destruct (Z.leb_spec a b)
  | |- context [Z.leb ?a ?b] => destruct (Z.leb_spec a b)
  end.

(** Turn boolean conjunctions and comparisons in the context into [Prop]. *)
Ltac bprop :=
  repeat match goal with
  | H : _ && _ = true |- _ => apply andb_true_iff in H; destruct H
  | H : (_ =? _) = true |- _ => apply Z.eqb_eq in H
  | H : (_ <? _) = true |- _ => apply Z.ltb_lt in H
  | H : (_ <=? _) = true |- _ => apply Z.leb_le in H
  | H : (_ =? _) = false |- _ => apply Z.eqb_neq in H
  | H : (_ <? _) = false |- _ => apply Z.ltb_ge in H
  | H : (_ <=? _) = false |- _ => apply Z.leb_gt in H
  end.

(** Close a decidable goal on concrete data by running its decision procedure. *)
Ltac by_decide := apply (bool_decide_unpack _); vm_compute; exact I.

(** * Results of fallible code: Rust's [Result] *)

Inductive result (E A : Type) : Type :=
| Ok (a : A)
| Err (e : E).
Arguments Ok {E A} a.
Arguments Err {E A} e.

Definition rbind {E A B} (m : result E A) (k : A -> result E B) : result E B :=
  match m with Ok a => k a | Err e => Err e end.

Notation "'let?' x ':=' m 'in' k" := (rbind m (fun x => k))
  (at level 10, x name, m at level 200, k at level 200) : storm_scope.
Lemma rbind_ok {E A B} (m : result E A) (k : A -> result E B) b : rbind m k = Ok b -> exists a, m = Ok a /\ k a = Ok b.
Proof. destruct m as [a|e]; [|done]. intros H. by exists a. Qed.

(** * Machine integers *)

Definition wrap (w z : Z) : Z := z mod 2 ^ w.
Definition fits (w z : Z) : bool := (0 <=? z) && (z <? 2 ^ w).
Definition u8max : Z := 255.
Definition u32max : Z := 4294967295.
Definition u64max : Z := 18446744073709551615.
(** [saturating_sub] on unsigned integers. *)
Definition sat_sub (a b : Z) : Z := Z.max 0 (a - b).
(** [div_ceil] on unsigned integers. *)
Definition div_ceil (a b : Z) : Z := (a + b - 1) / b.

Lemma fits_spec w z : fits w z = true <-> 0 <= z < 2 ^ w.
Proof. unfold fits. rewrite andb_true_iff, Z.leb_le, Z.ltb_lt. done. Qed.

Lemma wrap_small w z : 0 <= z < 2 ^ w -> wrap w z = z.
Proof. apply Z.mod_small. Qed.

Lemma wrap_range w z : 0 <= w -> 0 <= wrap w z < 2 ^ w.
Proof. intros. apply Z.mod_pos_bound. lia. Qed.

Lemma div_ceil_le a b k : 0 < b -> a <= b * k -> div_ceil a b <= k.
Proof.
  intros Hb Ha. unfold div_ceil.
  assert ((a + b - 1) / b < k + 1); [|lia]. apply Z.div_lt_upper_bound; lia.
Qed.

Lemma div_ceil_mul a b : 0 < b -> a <= b * div_ceil a b < a + b.
Proof.
  intros Hb. unfold div_ceil.
  pose proof (Z.div_mod (a + b - 1) b ltac:(lia)).
  pose proof (Z.mod_pos_bound (a + b - 1) b Hb). lia.
Qed.

(** [(h << k) | s] for [s] of [k] bits, and taking it apart again. *)
Lemma lor_cat k h s : 0 <= k -> 0 <= s < 2 ^ k -> Z.lor (h * 2 ^ k) s = h * 2 ^ k + s.
Proof.
  intros Hk Hs. symmetry. rewrite Z.add_nocarry_lxor; [apply Z.lxor_lor|].
  all: apply Z.bits_inj'; intros n Hn; rewrite Z.land_spec, Z.bits_0; destruct (Z.ltb_spec n k) as [|Hge];
    [rewrite Z.mul_pow2_bits_low by lia; reflexivity|].
  all: rewrite <- (Z.mod_small s (2 ^ k)) by lia; rewrite Z.mod_pow2_bits_high by lia; apply andb_false_r.
Qed.
Lemma div_cat k h s : 0 <= k -> 0 <= s < 2 ^ k -> (h * 2 ^ k + s) / 2 ^ k = h.
Proof. intros. rewrite Z.div_add_l by lia. rewrite Z.div_small by done. lia. Qed.
Lemma mod_cat k h s : 0 <= k -> 0 <= s < 2 ^ k -> (h * 2 ^ k + s) mod 2 ^ k = s.
Proof. intros. rewrite Z.add_comm, Z.mod_add by lia. by apply Z.mod_small. Qed.

(** * Sequences of numbers, folds *)

(** The integers [lo, lo+1, .., lo+n-1]: Rust's [lo..lo+n]. *)
Fixpoint zseq (lo : Z) (n : nat) : list Z :=
  match n with
  | O => []
  | S n => lo :: zseq (lo + 1) n
  end.
(** Rust's [lo..hi]. *)
Definition zrange (lo hi : Z) : list Z := zseq lo (Z.to_nat (hi - lo)).

Lemma elem_of_zseq lo n x : x ∈ zseq lo n <-> lo <= x < lo + Z.of_nat n.
Proof.
  revert lo. induction n as [|n IH]; intros lo; cbn [zseq].
  - split; [intros []%not_elem_of_nil | lia].
  - rewrite elem_of_cons, IH. lia.
Qed.

Lemma elem_of_zrange lo hi x : x ∈ zrange lo hi <-> lo <= x < hi.
Proof. unfold zrange. rewrite elem_of_zseq. lia. Qed.

Lemma length_zseq lo n : length (zseq lo n) = n.
Proof. revert lo. induction n; intros; cbn; auto. Qed.

Lemma lookup_zseq lo n (i : nat) : (i < n)%nat -> zseq lo n !! i = Some (lo + Z.of_nat i).
Proof.
  revert lo i. induction n as [|n IH]; intros lo i Hi; [lia|].
  destruct i as [|i]; cbn; [f_equal; lia|].
  rewrite IH by lia. f_equal. lia.
Qed.

Lemma NoDup_zseq lo n : NoDup (zseq lo n).
Proof.
  revert lo. induction n as [|n IH]; intros lo; constructor; [|apply IH].
  rewrite elem_of_zseq. lia.
Qed.

Lemma zseq_app lo a b : zseq lo (a + b) = zseq lo a ++ zseq (lo + Z.of_nat a) b.
Proof.
  revert lo. induction a as [|a IH]; intros lo; cbn [zseq Nat.add app].
  - by rewrite Z.add_0_r.
  - rewrite IH. do 3 f_equal. lia.
Qed.
Lemma zrange_split i m n : i <= m -> m <= n -> zrange i n = zrange i m ++ zrange m n.
Proof.
  intros. unfold zrange. replace (Z.to_nat (n - i)) with (Z.to_nat (m - i) + Z.to_nat (n - m))%nat by lia.
  rewrite zseq_app. do 2 f_equal. lia.
Qed.

(** Exhaustive check over a range of integers, by evaluation. *)
Definition all_in (lo : Z) (n : nat) (p : Z -> bool) : bool := forallb p (zseq lo n).

Lemma all_in_spec lo n p x :
  all_in lo n p = true -> lo <= x < lo + Z.of_nat n -> p x = true.
Proof.
  unfold all_in. rewrite forallb_forall. intros H Hx. apply H.
  apply list_elem_of_In, elem_of_zseq. done.
Qed.

(** * Bytes and byte buffers *)

(** A byte is a [Z] in [0, 256); a buffer ([Vec<u8>], [&[u8]]) a list of them. *)
Abbreviation bytes := (list Z).
Definition byte (b : Z) : Prop := 0 <= b < 256.
Definition is_byte (b : Z) : bool := (0 <=? b) && (b <? 256).
Definition all_bytes (l : bytes) : Prop := Forall byte l.

Lemma is_byte_spec b : is_byte b = true <-> byte b.
Proof. unfold is_byte, byte. rewrite andb_true_iff, Z.leb_le, Z.ltb_lt. done. Qed.

#[export] Instance byte_dec b : Decision (byte b).
Proof. unfold byte. apply _. Defined.

Definition zlen {A} (l : list A) : Z := Z.of_nat (length l).
Definition zsum (l : list Z) : Z := foldr Z.add 0 l.
Definition zeros (n : Z) : bytes := replicate (Z.to_nat n) 0.

(** [l[at .. at+n]]. *)
Definition slice {A} (at_ n : Z) (l : list A) : list A := take (Z.to_nat n) (drop (Z.to_nat at_) l).
(** [l[at .. at+src.len()].copy_from_slice(src)]. *)
Definition splice {A} (l : list A) (at_ : Z) (src : list A) : list A :=
  take (Z.to_nat at_) l ++ src ++ drop (Z.to_nat (at_ + zlen src)) l.

Lemma zlen_nonneg {A} (l : list A) : 0 <= zlen l.
Proof. unfold zlen. lia. Qed.

Lemma zlen_app {A} (l k : list A) : zlen (l ++ k) = zlen l + zlen k.
Proof. unfold zlen. rewrite length_app. lia. Qed.

Lemma zlen_cons {A} (x : A) (l : list A) : zlen (x :: l) = 1 + zlen l.
Proof. unfold zlen. cbn. lia. Qed.

Lemma zlen_zeros n : 0 <= n -> zlen (zeros n) = n.
Proof. intros. unfold zlen, zeros. rewrite length_replicate. lia. Qed.

Lemma zlen_splice {A} (l : list A) at_ src :
  0 <= at_ -> at_ + zlen src <= zlen l -> zlen (splice l at_ src) = zlen l.
Proof.
  intros Ha Hb. unfold splice, zlen in *.
  rewrite !length_app, length_take, length_drop. lia.
Qed.

Lemma zlen_slice {A} at_ n (l : list A) :
  0 <= at_ -> 0 <= n -> at_ + n <= zlen l -> zlen (slice at_ n l) = n.
Proof.
  intros. unfold slice, zlen in *. rewrite length_take, length_drop. lia.
Qed.

(** A read of exactly what was written. *)
Lemma slice_splice_same {A} (l : list A) at_ n src :
  0 <= at_ -> n = zlen src -> at_ + n <= zlen l -> slice at_ n (splice l at_ src) = src.
Proof.
  intros Ha -> Hb. unfold slice, splice, zlen in *.
  rewrite drop_app_length' by (rewrite length_take; lia).
  rewrite take_app_length' by lia. done.
Qed.

(** A read that ends before what was written. *)
Lemma slice_splice_before {A} (l : list A) at1 n at2 src :
  0 <= at1 -> 0 <= n -> at1 + n <= at2 -> at2 <= zlen l ->
  slice at1 n (splice l at2 src) = slice at1 n l.
Proof.
  intros. unfold slice, splice, zlen in *.
  rewrite drop_app_le by (rewrite length_take; lia).
  rewrite take_app_le by (rewrite length_drop, length_take; lia).
  rewrite skipn_firstn_comm, take_take. f_equal. lia.
Qed.

(** A read that starts after what was written. *)
Lemma slice_splice_after {A} (l : list A) at1 n at2 src :
  0 <= at2 -> at2 + zlen src <= at1 -> at2 + zlen src <= zlen l ->
  slice at1 n (splice l at2 src) = slice at1 n l.
Proof.
  intros. unfold slice, splice, zlen in *. f_equal.
  rewrite drop_app_ge by (rewrite length_take; lia).
  rewrite drop_app_ge by (rewrite length_take; lia).
  rewrite length_take, drop_drop. f_equal. lia.
Qed.

(** A slice within a slice-sized prefix. *)
Lemma slice_all {A} (l : list A) n : n = zlen l -> slice 0 n l = l.
Proof. intros ->. unfold slice, zlen. rewrite drop_0, take_ge; [done|lia]. Qed.

Lemma all_bytes_slice at_ n l : all_bytes l -> all_bytes (slice at_ n l).
Proof. intros. unfold slice. apply Forall_take, Forall_drop. done. Qed.

Lemma all_bytes_zeros n : all_bytes (zeros n).
Proof. apply Forall_replicate. unfold byte. lia. Qed.

Lemma all_bytes_splice l at_ src : all_bytes l -> all_bytes src -> all_bytes (splice l at_ src).
Proof.
  intros Hl Hs. unfold splice. apply Forall_app. split; [by apply Forall_take|].
  apply Forall_app. split; [done|by apply Forall_drop].
Qed.

Lemma slice_zeros at_ n m :
  0 <= at_ -> 0 <= n -> at_ + n <= m -> slice at_ n (zeros m) = zeros n.
Proof.
  intros. unfold slice, zeros. rewrite drop_replicate, take_replicate. f_equal. lia.
Qed.

(** ** Little- and big-endian integers *)

(** [z.to_le_bytes()] for an [8 * n]-bit integer. *)
Fixpoint le_bytes (n : nat) (z : Z) : bytes :=
  match n with
  | O => []
  | S n => z mod 256 :: le_bytes n (z / 256)
  end.
(** [from_le_bytes]. *)
Fixpoint le_val (b : bytes) : Z :=
  match b with
  | [] => 0
  | x :: r => x + 256 * le_val r
  end.
Definition be_bytes (n : nat) (z : Z) : bytes := rev (le_bytes n z).
Definition be_val (b : bytes) : Z := le_val (rev b).

Definition rd_u16 (b : bytes) (o : Z) : Z := le_val (slice o 2 b).
Definition rd_u32 (b : bytes) (o : Z) : Z := le_val (slice o 4 b).
Definition rd_u64 (b : bytes) (o : Z) : Z := le_val (slice o 8 b).
(** [b[i]] (callers are in range; 0 stands for the panic the source would take). *)
Definition at_byte (b : bytes) (i : Z) : Z := nth (Z.to_nat i) b 0.

Lemma length_le_bytes n z : length (le_bytes n z) = n.
Proof. revert z. induction n; intros; cbn; auto. Qed.

Lemma zlen_le_bytes n z : zlen (le_bytes n z) = Z.of_nat n.
Proof. unfold zlen. by rewrite length_le_bytes. Qed.

Lemma all_bytes_le_bytes n z : all_bytes (le_bytes n z).
Proof.
  revert z. induction n as [|n IH]; intros z; cbn; constructor; [|apply IH].
  unfold byte. apply Z.mod_pos_bound. lia.
Qed.

Lemma le_val_le_bytes n z : 0 <= z < 256 ^ Z.of_nat n -> le_val (le_bytes n z) = z.
Proof.
  revert z. induction n as [|n IH]; intros z Hz; cbn [le_bytes le_val].
  - cbn in Hz. lia.
  - rewrite Nat2Z.inj_succ, Z.pow_succ_r in Hz by lia.
    rewrite IH.
    + pose proof (Z.div_mod z 256 ltac:(lia)). lia.
    + split; [apply Z.div_pos; lia|]. apply Z.div_lt_upper_bound; lia.
Qed.

Lemma le_val_range b : all_bytes b -> 0 <= le_val b < 256 ^ zlen b.
Proof.
  induction 1 as [|x r Hx _ IH]; [unfold zlen; cbn; lia|].
  rewrite zlen_cons, Z.pow_add_r by (pose proof (zlen_nonneg r); lia).
  cbn [le_val]. unfold byte in Hx. change (256 ^ 1) with 256.
  generalize dependent (256 ^ zlen r). lia.
Qed.

Lemma le_bytes_le_val b : all_bytes b -> le_bytes (length b) (le_val b) = b.
Proof.
  induction 1 as [|x r Hx _ IH]; [done|]. unfold byte in Hx. cbn [length le_bytes le_val].
  replace (x + 256 * le_val r) with (le_val r * 256 + x) by lia. f_equal.
  - rewrite Z.add_comm, Z.mod_add by lia. apply Z.mod_small. lia.
  - rewrite Z.div_add_l by lia. rewrite (Z.div_small x) by lia. by rewrite Z.add_0_r.
Qed.

(** ** Reading a buffer that was built by successive writes *)

(** Offsets and lengths are literals in the formats of this code base, so every
    read of a chain of [splice]s resolves by [lia]: the read is of the last
    write, or passes it by. *)
Create Rewrite HintDb storm_len.
#[export] Hint Rewrite @zlen_app @zlen_cons zlen_le_bytes : storm_len.

(** What happens to an operation of a device: [None], it succeeds; [Some kept], it fails,
    and of a write the bytes [kept] marks are written. *)
Abbreviation op_fault := (option (list bool)).
(** The bytes a failed write leaves of a range. *)
Definition partly (kept : list bool) (old new : bytes) : bytes :=
  imap (fun j o => if default false (kept !! j) then default o (new !! j) else o) old.
Lemma zlen_partly kept old new : zlen (partly kept old new) = zlen old.
Proof. unfold zlen, partly. by rewrite length_imap. Qed.
Lemma partly_byte kept old new j : zlen new = zlen old -> 0 <= j < zlen old ->
  at_byte (partly kept old new) j = at_byte old j \/ at_byte (partly kept old new) j = at_byte new j.
Proof.
  unfold at_byte, partly, zlen. intros Hz Hj. rewrite !nth_lookup, list_lookup_imap.
  destruct (lookup_lt_is_Some_2 old (Z.to_nat j) ltac:(lia)) as [o Eo]. destruct (lookup_lt_is_Some_2 new (Z.to_nat j) ltac:(lia)) as [w Ew].
  rewrite Eo, Ew. cbn. destruct (default false (kept !! Z.to_nat j)); auto.
Qed.

Lemma at_byte_slice b i n j :
  0 <= i -> 0 <= j < n -> at_byte (slice i n b) j = at_byte b (i + j).
Proof.
  intros. unfold at_byte, slice. rewrite !nth_lookup.
  rewrite lookup_take_lt by lia. rewrite lookup_drop. do 2 f_equal. lia.
Qed.

Lemma at_byte_as_slice b i : 0 <= i < zlen b -> slice i 1 b = [at_byte b i].
Proof.
  intros. unfold at_byte, slice, zlen in *. rewrite nth_lookup.
  destruct (lookup_lt_is_Some_2 b (Z.to_nat i)) as [x Hx]; [lia|].
  rewrite (drop_S _ _ _ Hx). cbn. by rewrite Hx.
Qed.

Lemma at_byte_of_slice b i : 0 <= i -> at_byte b i = at_byte (slice i 1 b) 0.
Proof. intros. rewrite at_byte_slice by lia. f_equal. lia. Qed.

(** ** Bytewise operations on buffers of one length *)

(** [for d, s in dst.iter_mut().zip(src)] setting [d] to [f d s] (the longer
    tail of [dst], if any, is left as it was). *)
Fixpoint zip_into (f : Z -> Z -> Z) (dst src : bytes) : bytes :=
  match dst, src with
  | d :: dst, s :: src => f d s :: zip_into f dst src
  | _, _ => dst
  end.

Lemma length_zip_into f d s : length (zip_into f d s) = length d.
Proof. revert s. induction d; intros [|? ?]; cbn; auto. Qed.

Lemma zip_into_lookup f d s (i : nat) :
  length d = length s ->
  zip_into f d s !! i = (x ← d !! i; y ← s !! i; Some (f x y)).
Proof.
  revert s i. induction d as [|x d IH]; intros [|y s] i Hl; try discriminate; [done|].
  destruct i; cbn; [done|]. apply IH. cbn in Hl. lia.
Qed.

(** ** Records laid out in a buffer *)

(** Successive [buf[o..o+n].copy_from_slice(src)]. *)
Definition write_all (buf : bytes) (ws : list (Z * bytes)) : bytes :=
  foldl (fun b w => splice b (fst w) (snd w)) buf ws.

(** Offsets and lengths of the writes. *)
Definition shape (ws : list (Z * bytes)) : list (Z * Z) := map (fun w => (fst w, zlen (snd w))) ws.
Definition in_bounds (size : Z) (sh : list (Z * Z)) : bool :=
  forallb (fun w => (0 <=? fst w) && (0 <=? snd w) && (fst w + snd w <=? size)) sh.
Definition apart (o n : Z) (sh : list (Z * Z)) : bool :=
  forallb (fun w => (fst w + snd w <=? o) || (o + n <=? fst w)) sh.

Lemma zlen_write_all size buf ws :
  zlen buf = size -> in_bounds size (shape ws) = true -> zlen (write_all buf ws) = size.
Proof.
  unfold write_all. revert buf. induction ws as [|[o s] ws IH]; intros buf Hb Hi; [done|].
  cbn in Hi. bprop. cbn [foldl fst snd]. apply IH; [|done]. rewrite zlen_splice; lia.
Qed.

Lemma read_untouched size buf ws o n :
  zlen buf = size -> in_bounds size (shape ws) = true -> 0 <= o -> 0 <= n ->
  apart o n (shape ws) = true -> slice o n (write_all buf ws) = slice o n buf.
Proof.
  unfold write_all. revert buf. induction ws as [|[o' s] ws IH]; intros buf Hb Hi Ho Hn Ha; [done|].
  cbn in Hi, Ha. bprop. cbn [foldl fst snd].
  rewrite IH; [|rewrite zlen_splice; lia|done..].
  apply orb_true_iff in H as [H|H]; bprop.
  - apply slice_splice_after; lia.
  - apply slice_splice_before; lia.
Qed.

(** A field is read back as it was written, if nothing later overlaps it.  The
    layout conditions are closed booleans once the field lengths are known. *)
Lemma read_written size buf ws sh k o n s :
  zlen buf = size -> shape ws = sh -> in_bounds size sh = true -> ws !! k = Some (o, s) ->
  sh !! k = Some (o, n) -> apart o n (drop (S k) sh) = true ->
  slice o n (write_all buf ws) = s.
Proof.
  intros Hb <-. unfold write_all. revert buf Hb k.
  induction ws as [|[o' s'] ws IH]; intros buf Hb [|k] Hi Hk Hn Ha; try discriminate; cbn in Hi; bprop.
  - cbn in Hk, Hn. injection Hk as -> ->. injection Hn as <-. cbn [foldl fst snd].
    rewrite (read_untouched size); [|rewrite zlen_splice; lia|done|lia|lia|done].
    apply slice_splice_same; lia.
  - cbn [foldl fst snd]. eapply (IH _ _ k); [done|exact Hk|exact Hn|exact Ha].
    Unshelve. rewrite zlen_splice; lia.
Qed.

Lemma all_bytes_write_all buf ws :
  all_bytes buf -> Forall (fun w => all_bytes (snd w)) ws -> all_bytes (write_all buf ws).
Proof.
  intros Hb Hw. unfold write_all. revert buf Hb. induction Hw; intros; cbn [foldl]; [done|].
  by apply IHHw, all_bytes_splice.
Qed.

Lemma slice_1_at b i x : slice i 1 b = [x] -> 0 <= i -> at_byte b i = x.
Proof. intros H Hi. rewrite at_byte_of_slice, H by done. done. Qed.

Lemma write_all_app buf ws ws' : write_all buf (ws ++ ws') = write_all (write_all buf ws) ws'.
Proof. apply foldl_app. Qed.

Lemma write_all_snoc buf ws o s : splice (write_all buf ws) o s = write_all buf (ws ++ [(o, s)]).
Proof. by rewrite write_all_app. Qed.

(** A sixteen-byte identifier ([uuid::Uuid]) and the nil one. *)
Definition uuid_ok (u : bytes) : Prop := zlen u = 16 /\ all_bytes u.
Definition nil_uuid : bytes := zeros 16.
#[export] Instance uuid_ok_dec u : Decision (uuid_ok u).
Proof. unfold uuid_ok, all_bytes. apply _. Defined.
Definition u64_ok (z : Z) : Prop := 0 <= z < 2 ^ 64.
Definition u32_ok (z : Z) : Prop := 0 <= z < 2 ^ 32.
#[export] Instance u64_ok_dec z : Decision (u64_ok z).
Proof. unfold u64_ok. apply _. Defined.
#[export] Instance u32_ok_dec z : Decision (u32_ok z).
Proof. unfold u32_ok. apply _. Defined.

Lemma le_val_u64 z : u64_ok z -> le_val (le_bytes 8 z) = z.
Proof. intros. by apply le_val_le_bytes. Qed.
Lemma le_val_u32 z : u32_ok z -> le_val (le_bytes 4 z) = z.
Proof. intros. by apply le_val_le_bytes. Qed.

(** A read inside what was written. *)
Lemma slice_splice_inside {A} (l : list A) a src o n :
  0 <= a -> 0 <= o -> 0 <= n -> o + n <= zlen src -> a + zlen src <= zlen l ->
  slice (a + o) n (splice l a src) = slice o n src.
Proof.
  intros. unfold slice, splice, zlen in *.
  rewrite drop_app_ge by (rewrite length_take; lia).
  rewrite length_take. replace (Z.to_nat (a + o) - Z.to_nat a `min` length l)%nat with (Z.to_nat o) by lia.
  rewrite drop_app_le by lia. rewrite take_app_le by (rewrite length_drop; lia). done.
Qed.

Lemma slice_slice {A} (l : list A) a n o m :
  0 <= a -> 0 <= o -> 0 <= m -> o + m <= n -> slice o m (slice a n l) = slice (a + o) m l.
Proof.
  intros. unfold slice. rewrite skipn_firstn_comm, drop_drop, take_take. do 2 f_equal; lia.
Qed.

(** ** Sorted lists without repeats: [sort_unstable] then [dedup] *)

Fixpoint insert_sorted (x : Z) (l : list Z) : list Z :=
  match l with
  | [] => [x]
  | y :: r => if x <? y then x :: l else if x =? y then l else y :: insert_sorted x r
  end.
Definition sort_dedup (l : list Z) : list Z := foldr insert_sorted [] l.

Lemma elem_of_insert_sorted x y l : y ∈ insert_sorted x l <-> y = x \/ y ∈ l.
Proof.
  induction l as [|z l IH]; cbn [insert_sorted]; [set_solver|].
  destruct (Z.ltb_spec x z); [set_solver|]. destruct (Z.eqb_spec x z) as [->|]; set_solver.
Qed.

Lemma elem_of_sort_dedup x l : x ∈ sort_dedup l <-> x ∈ l.
Proof.
  induction l as [|y l IH]; cbn [sort_dedup foldr]; [done|].
  fold (sort_dedup l). rewrite elem_of_insert_sorted, IH. set_solver.
Qed.

(** Strictly increasing. *)
Definition increasing (l : list Z) : Prop := StronglySorted Z.lt l.

Lemma insert_sorted_increasing x l : increasing l -> increasing (insert_sorted x l).
Proof.
  induction 1 as [|y l Hl IH Hy]; cbn [insert_sorted]; [repeat constructor|].
  destruct (Z.ltb_spec x y).
  - constructor; [by constructor|]. constructor; [done|]. eapply Forall_impl; [exact Hy|]. cbn. lia.
  - destruct (Z.eqb_spec x y) as [->|]; [by constructor|]. constructor; [done|].
    apply Forall_forall. intros z [->|Hz]%elem_of_insert_sorted; [lia|].
    by apply (proj1 (Forall_forall _ _) Hy).
Qed.

Lemma sort_dedup_increasing l : increasing (sort_dedup l).
Proof.
  induction l as [|x l IH]; cbn [sort_dedup foldr]; [constructor|]. by apply insert_sorted_increasing.
Qed.

Lemma increasing_NoDup l : increasing l -> NoDup l.
Proof.
  induction 1 as [|x l Hl IH Hx]; constructor; [|done].
  intros Hin. pose proof (proj1 (Forall_forall _ _) Hx x Hin). lia.
Qed.

Lemma sort_dedup_NoDup l : NoDup (sort_dedup l).
Proof. apply increasing_NoDup, sort_dedup_increasing. Qed.
