(* ===== verification/Redundancy.v ===== *)
(** Redundancy policies and failure domains: [volume/redundancy.rs] and
    [placement/domain.rs], with what they read and write of strings.  Characters are
    ASCII; a [u8] is a [Z]. *)

From Stdlib Require Import Ascii String.
From stdpp Require Import strings.
From S2P Require Import Prelude.
#[local] Open Scope Z_scope.

(** ** Strings *)

Definition is_space (c : ascii) : bool :=
  let n := nat_of_ascii c in (n =? 32)%nat || ((9 <=? n)%nat && (n <=? 13)%nat).
Fixpoint trim_start (s : string) : string :=
  match s with String c r => if is_space c then trim_start r else s | EmptyString => s end.
(** Of a string of spaces nothing is left. *)
Fixpoint trim_end (s : string) : string :=
  match s with
  | EmptyString => EmptyString
  | String c r => match trim_end r with
                  | EmptyString => if is_space c then EmptyString else String c EmptyString
                  | r' => String c r'
                  end
  end.
Definition trim (s : string) : string := trim_end (trim_start s).
Definition split_cons (c : ascii) (ab : string * string) : string * string := (String c (fst ab), snd ab).
Fixpoint split_once (d : ascii) (s : string) : option (string * string) :=
  match s with
  | EmptyString => None
  | String c r => if Ascii.eqb c d then Some (EmptyString, r) else split_cons c <$> split_once d r
  end.
(** [s.split(d)]: one part more than there are delimiters. *)
Fixpoint split_on (d : ascii) (s : string) : list string :=
  match s with
  | EmptyString => [EmptyString]
  | String c r =>
      if Ascii.eqb c d then EmptyString :: split_on d r
      else match split_on d r with p :: ps => String c p :: ps | [] => [String c EmptyString] end
  end.
Definition lower (c : ascii) : ascii :=
  let n := nat_of_ascii c in if (65 <=? n)%nat && (n <=? 90)%nat then ascii_of_nat (n + 32) else c.
Fixpoint to_ascii_lowercase (s : string) : string :=
  match s with String c r => String (lower c) (to_ascii_lowercase r) | EmptyString => s end.
Fixpoint contains (d : ascii) (s : string) : bool :=
  match s with String c r => Ascii.eqb c d || contains d r | EmptyString => false end.

(** [str::parse::<u8>]: digits, at least one, after a [+] if there is one. *)
Definition digit (c : ascii) : option Z :=
  let n := Z.of_nat (nat_of_ascii c) in if (48 <=? n) && (n <=? 57) then Some (n - 48) else None.
Fixpoint digits (acc : Z) (s : string) : option Z :=
  match s with
  | EmptyString => Some acc
  | String c r => d ← digit c; let v := acc * 10 + d in if 255 <? v then None else digits v r
  end.
Definition parse_u8 (s : string) : option Z :=
  let s := match s with String "+" r => r | _ => s end in
  match s with EmptyString => None | _ => digits 0 s end.
(** [format!("{n}")] of a [u8]. *)
Definition digit_char (d : Z) : ascii := ascii_of_nat (Z.to_nat (48 + d)).
Definition show_u8 (n : Z) : string :=
  if n <? 10 then String (digit_char n) ""
  else if n <? 100 then String (digit_char (n / 10)) (String (digit_char (n mod 10)) "")
  else String (digit_char (n / 100)) (String (digit_char (n / 10 mod 10)) (String (digit_char (n mod 10)) "")).

(** ** Failure domains *)

Definition RUNGS : list string :=
  ["site"; "building"; "room"; "row"; "rack"; "node"; "hba"; "shelf"; "set"; "bay"; "drive"]%string.
Definition DEFAULT_RUNG : string := "drive".

Record Label := mkLabel { rung : string; value : string }.
#[export] Instance Label_eq : EqDecision Label.
Proof. solve_decision. Defined.
Abbreviation FailureDomain := (list Label).

Definition rung_rank (r : string) : Z :=
  match list_find (fun x => x = r) RUNGS with Some (i, _) => Z.of_nat i | None => zlen RUNGS end.
(** [sort_by_key]: stable. *)
Fixpoint insert_label (l : Label) (c : FailureDomain) : FailureDomain :=
  match c with
  | [] => [l]
  | h :: r => if rung_rank (rung l) <=? rung_rank (rung h) then l :: c else h :: insert_label l r
  end.
Definition sort_labels (c : list Label) : FailureDomain := foldr insert_label [] c.

(** What [from_device] looks at. *)
Record DeviceId := mkDeviceId { di_serial : string; di_wwn : string; di_path : string; di_uuid : string }.
Definition from_device (id : DeviceId) : FailureDomain :=
  let s := di_serial id in
  let generic := bool_decide (s = EmptyString) || bool_decide (s = "unknown"%string) || bool_decide (s = "file"%string) in
  [mkLabel "drive"
    (if negb generic then s
     else if negb (bool_decide (di_wwn id = EmptyString)) then di_wwn id
     else if bool_decide (di_path id = EmptyString) then di_uuid id else di_path id)].
Definition from_labels (ls : list (string * string)) : FailureDomain :=
  sort_labels (map (fun kv => mkLabel (fst kv) (snd kv)) ls).

Inductive DomainError := NotRungValue | EmptySide.
Fixpoint domain_labels (parts : list string) : result DomainError (list (string * string)) :=
  match parts with
  | [] => Ok []
  | p :: r =>
      match split_once "=" p with
      | None => Err NotRungValue
      | Some (k, v) =>
          if bool_decide (trim k = EmptyString) || bool_decide (trim v = EmptyString) then Err EmptySide
          else let? ls := domain_labels r in Ok ((trim k, trim v) :: ls)
      end
  end.
Definition parse_domain (s : string) : result DomainError FailureDomain :=
  let? ls := domain_labels (filter (fun p => p <> EmptyString) (map trim (split_on "/" s))) in
  Ok (from_labels ls).

(** [FailureDomain::with]: the rung replaced, the chain in order. *)
Definition with_label (r v : string) (c : FailureDomain) : FailureDomain :=
  sort_labels (filter (fun l => rung l <> r) c ++ [mkLabel r v]).
Definition merged_under (c outer : FailureDomain) : FailureDomain :=
  foldl (fun out l => with_label (rung l) (value l) out) outer c.
Definition domain_get (r : string) (c : FailureDomain) : option string :=
  value <$> hd_error (filter (fun l => rung l = r) c).
Definition key_at (r : string) (c : FailureDomain) : list Label :=
  match list_find (fun l => rung l = r) c with Some (i, _) => take (S i) c | None => c end.
Definition same_at (a b : FailureDomain) (r : string) : bool :=
  let ka := key_at r a in let kb := key_at r b in
  bool_decide (ka = []) || bool_decide (kb = []) || bool_decide (ka = kb).

Fixpoint show_domain (c : FailureDomain) : string :=
  match c with
  | [] => ""
  | [l] => rung l +:+ "=" +:+ value l
  | l :: r => rung l +:+ "=" +:+ value l +:+ "/" +:+ show_domain r
  end.

(** ** Policies *)

(** [u8] counts. *)
Inductive Redundancy := RNone | RMirror (copies : Z) | RParity (data parity : Z).
#[export] Instance Redundancy_eq : EqDecision Redundancy.
Proof. solve_decision. Defined.
Record RedundancyPolicy := mkPolicy { scheme : Redundancy; spread : string }.
#[export] Instance RedundancyPolicy_eq : EqDecision RedundancyPolicy.
Proof. solve_decision. Defined.

Definition MAX_PARITY : Z := 4.
Definition MAX_EC_WIDTH : Z := 24.

Definition width (r : Redundancy) : Z :=
  match r with RNone => 1 | RMirror c => c | RParity d p => d + p end.
Definition copies (r : Redundancy) : Z := match r with RMirror c => c | _ => 1 end.
Definition is_parity (r : Redundancy) : bool := match r with RParity _ _ => true | _ => false end.
(** [copies as usize - 1]: [None] where it underflows. *)
Definition tolerates (r : Redundancy) : option Z :=
  match r with
  | RNone => Some 0
  | RMirror c => if c <? 1 then None else Some (c - 1)
  | RParity _ p => Some p
  end.

Definition policy_none : RedundancyPolicy := mkPolicy RNone DEFAULT_RUNG.
Definition policy_mirror (n : Z) : RedundancyPolicy := mkPolicy (RMirror n) DEFAULT_RUNG.
Definition policy_parity (d p : Z) : RedundancyPolicy := mkPolicy (RParity d p) DEFAULT_RUNG.
Definition policy_at (r : string) (p : RedundancyPolicy) : RedundancyPolicy := mkPolicy (scheme p) r.
Definition is_none (p : RedundancyPolicy) : bool := bool_decide (scheme p = RNone).
Definition is_erasure (p : RedundancyPolicy) : bool :=
  match scheme p with RParity _ m => 3 <=? m | _ => false end.

Inductive PolicyError :=
| EmptyRung | BadMirrorCount | TooFewCopies | NeedsWidth | BadDataWidth | BadParityWidth | BadMemberCount
| NoDataMembers | ParityNeedsOne | Raid5HasOne | Raid6HasTwo | TooFewData | TooManyParity
| EcNeedsWidth | EcBadParity | EcTooFewData | EcTooWide | UnknownScheme | TwoRungs.

Definition or_err {A} (e : PolicyError) (o : option A) : result PolicyError A :=
  match o with Some a => Ok a | None => Err e end.

Definition parse_mirror (arg : option string) : result PolicyError Redundancy :=
  let? n := match arg with None => Ok 2 | Some a => or_err BadMirrorCount (parse_u8 a) end in
  if n <? 2 then Err TooFewCopies else Ok (RMirror n).

Definition parse_parity (kind : string) (arg : option string) : result PolicyError Redundancy :=
  let dflt := if contains "6" kind then 2 else 1 in
  let? dp := match arg with
             | None => Err NeedsWidth
             | Some a =>
                 match split_once "+" a with
                 | Some (d, p) =>
                     let? d := or_err BadDataWidth (parse_u8 (trim d)) in
                     let? p := or_err BadParityWidth (parse_u8 (trim p)) in Ok (d, p)
                 | None =>
                     let? m := or_err BadMemberCount (parse_u8 a) in
                     if m <=? dflt then Err NoDataMembers else Ok (m - dflt, dflt)
                 end
             end in
  let '(d, p) := dp in
  if bool_decide (kind = "parity"%string) && (p =? 0) then Err ParityNeedsOne
  else if contains "5" kind && negb (p =? 1) then Err Raid5HasOne
  else if contains "6" kind && negb (p =? 2) then Err Raid6HasTwo
  else if d <? 2 then Err TooFewData
  else if 2 <? p then Err TooManyParity
  else Ok (RParity d p).

Definition parse_ec (arg : option string) : result PolicyError Redundancy :=
  let? dp := match arg with
             | None => Ok (8, 3)
             | Some a =>
                 match split_once "+" a with
                 | Some (d, p) =>
                     let? d := or_err BadDataWidth (parse_u8 (trim d)) in
                     let? p := or_err BadParityWidth (parse_u8 (trim p)) in Ok (d, p)
                 | None => Err EcNeedsWidth
                 end
             end in
  let '(d, p) := dp in
  if negb ((3 <=? p) && (p <=? MAX_PARITY)) then Err EcBadParity
  else if d <? 2 then Err EcTooFewData
  else if MAX_EC_WIDTH <? d + p then Err EcTooWide
  else Ok (RParity d p).

Definition parse_scheme (kind : string) (arg : option string) : result PolicyError Redundancy :=
  if decide (kind ∈ [""; "none"; "single"]%string) then Ok RNone
  else if decide (kind ∈ ["mirror"; "raid1"; "raid10"; "raid-1"; "raid-10"]%string) then parse_mirror arg
  else if decide (kind ∈ ["raid5"; "raid-5"; "raid6"; "raid-6"; "parity"]%string) then parse_parity kind arg
  else if decide (kind = "ec"%string) then parse_ec arg
  else Err UnknownScheme.

Definition parse_policy (s : string) : result PolicyError RedundancyPolicy :=
  let s := trim s in
  let '(scheme_str, r) := match split_once "@" s with Some (a, r) => (trim a, trim r) | None => (s, DEFAULT_RUNG) end in
  if bool_decide (r = EmptyString) then Err EmptyRung
  else
    let low := to_ascii_lowercase scheme_str in
    let '(kind, arg) := match split_once ":" low with Some (k, a) => (trim k, Some (trim a)) | None => (low, None) end in
    let? sc := parse_scheme kind arg in
    Ok (mkPolicy sc r).

Definition base_spelling (r : Redundancy) : string :=
  match r with
  | RNone => "none"
  | RMirror c => "mirror:" +:+ show_u8 c
  | RParity d p =>
      if p =? 1 then "raid5:" +:+ show_u8 d +:+ "+1"
      else if p =? 2 then "raid6:" +:+ show_u8 d +:+ "+2"
      else "ec:" +:+ show_u8 d +:+ "+" +:+ show_u8 p
  end.
Definition spelling (p : RedundancyPolicy) : string :=
  if bool_decide (spread p = DEFAULT_RUNG) || is_none p then base_spelling (scheme p)
  else base_spelling (scheme p) +:+ "@" +:+ spread p.

(** A rung said on its own and with [@] has to be the same. *)
Definition from_request (redundancy sprd : option string) : result PolicyError RedundancyPolicy :=
  let? policy := match redundancy with Some r => parse_policy r | None => Ok policy_none end in
  match sprd with
  | None => Ok policy
  | Some r =>
      let r := trim r in
      if bool_decide (r = EmptyString) then Ok policy
      else if match redundancy with Some q => contains "@" q | None => false end && negb (bool_decide (spread policy = r))
      then Err TwoRungs
      else Ok (policy_at r policy)
  end.
Definition rung_is_known (p : RedundancyPolicy) : bool := bool_decide (spread p ∈ RUNGS).

(** [ThinVolumeHandle::check_transition] of [volume/thin.rs]. *)
Definition check_transition (current policy : Redundancy) : bool :=
  match current, policy with
  | RParity _ _, _ | _, RParity _ _ => bool_decide (current = policy)
  | _, _ => true
  end.

Example parse_mirror3 : parse_policy " Mirror:3 @ shelf " = Ok (mkPolicy (RMirror 3) "shelf").
Proof. reflexivity. Qed.
Example parse_raid6 : parse_policy "raid6:6" = Ok (policy_parity 4 2).
Proof. reflexivity. Qed.
Example parse_plus : parse_policy "raid5:+4+1" = Err BadDataWidth.
Proof. reflexivity. Qed.

(** ** What is printed is read back *)

Definition trimmed (s : string) : Prop := trim s = s /\ s <> EmptyString.

Lemma app_cons c a b : String c a +:+ b = String c (a +:+ b).
Proof. done. Qed.
Lemma app_nil b : "" +:+ b = b.
Proof. done. Qed.

Lemma app_app a b c : a +:+ b +:+ c = (a +:+ b) +:+ c.
Proof. induction a as [|x a IH]; [done|]. by rewrite !app_cons, IH. Qed.

Lemma trim_end_app a b : trim_end b = b -> b <> EmptyString -> trim_end (a +:+ b) = a +:+ b.
Proof.
  intros Hb Hne. induction a as [|c a IH]; [done|]. rewrite app_cons. cbn. rewrite IH.
  destruct (a +:+ b) eqn:E; [|done]. destruct a; [by rewrite app_nil in E; subst|done].
Qed.

Lemma trim_start_app a b : trim_start a = a -> a <> EmptyString -> trim_start (a +:+ b) = a +:+ b.
Proof.
  destruct a as [|c a]; [done|]. rewrite app_cons. cbn. destruct (is_space c) eqn:E; [|done]. intros H. exfalso.
  assert (forall s, (String.length (trim_start s) <= String.length s)%nat) as Hl.
  { intros s. induction s as [|x s IH]; cbn; [lia|]. destruct (is_space x); cbn; lia. }
  pose proof (Hl a) as Ha. rewrite H in Ha. cbn in Ha. lia.
Qed.

Lemma trim_end_start s : trim_end s = EmptyString -> trim_start s = EmptyString.
Proof.
  induction s as [|c s IH]; [done|]. cbn. destruct (trim_end s) eqn:E; [|done]. destruct (is_space c); [|done]. auto.
Qed.

(** A string that [trim] leaves starts with no space and ends with none. *)
Lemma trimmed_start s : trimmed s -> trim_start s = s.
Proof.
  intros [H Hne]. destruct s as [|c s]; [done|]. unfold trim in H. cbn in *. destruct (is_space c) eqn:E; [|done].
  assert (forall t, (String.length (trim_end (trim_start t)) <= String.length t)%nat) as Hl.
  { intros t. assert (forall u, (String.length (trim_end u) <= String.length u)%nat) as He.
    { intros u. induction u as [|x u IH]; cbn; [lia|]. destruct (trim_end u); cbn in *; [destruct (is_space x)|]; cbn; lia. }
    induction t as [|x t IH]; [cbn; lia|]. cbn [trim_start]. destruct (is_space x); [cbn; lia|apply He]. }
  pose proof (Hl s) as Hs. rewrite H in Hs. cbn in Hs. lia.
Qed.
Lemma trimmed_end s : trimmed s -> trim_end s = s.
Proof. intros H. pose proof (trimmed_start s H) as Hs. destruct H as [H _]. unfold trim in H. by rewrite Hs in H. Qed.

Lemma trimmed_app a b : trimmed a -> trimmed b -> trimmed (a +:+ b).
Proof.
  intros Ha Hb. split; [|destruct a; [by destruct Ha|done]]. unfold trim.
  rewrite trim_start_app by (by apply trimmed_start || apply Ha). apply trim_end_app; [by apply trimmed_end|apply Hb].
Qed.
Lemma trimmed_ends a m b : trimmed a -> trimmed b -> trimmed (a +:+ m +:+ b).
Proof.
  intros Ha Hb. split; [|destruct a; [by destruct Ha|done]]. unfold trim.
  rewrite trim_start_app by (by apply trimmed_start || apply Ha). rewrite app_app.
  apply trim_end_app; [by apply trimmed_end|apply Hb].
Qed.

Lemma contains_app d a b : contains d (a +:+ b) = contains d a || contains d b.
Proof. induction a as [|c a IH]; [done|]. rewrite app_cons. cbn. by rewrite IH, orb_assoc. Qed.

Lemma split_once_none d s : contains d s = false -> split_once d s = None.
Proof. induction s as [|c s IH]; [done|]. cbn. intros [-> H]%orb_false_iff. by rewrite IH. Qed.

Lemma split_once_at d a b : contains d a = false -> split_once d (a +:+ String d b) = Some (a, b).
Proof.
  induction a as [|c a IH]; [rewrite app_nil|rewrite app_cons]; cbn; [by rewrite Ascii.eqb_refl|].
  intros [-> H]%orb_false_iff. by rewrite IH.
Qed.

Lemma lowercase_app a b : to_ascii_lowercase (a +:+ b) = to_ascii_lowercase a +:+ to_ascii_lowercase b.
Proof. induction a as [|c a IH]; [done|]. rewrite app_cons. cbn. by rewrite IH. Qed.

(** A number as it is printed: read back, and nothing of it is a delimiter. *)
Record shown (n : Z) (s : string) : Prop := {
  sh_parse : parse_u8 s = Some n;
  sh_trim : trimmed s;
  sh_lower : to_ascii_lowercase s = s;
  sh_plain : contains "@" s = false /\ contains ":" s = false /\ contains "+" s = false }.

Definition shown_b (n : Z) (s : string) : bool :=
  bool_decide (parse_u8 s = Some n) && bool_decide (trim s = s) && bool_decide (s <> EmptyString)
  && bool_decide (to_ascii_lowercase s = s) && negb (contains "@" s || contains ":" s || contains "+" s).

Lemma show_u8_shown n : 0 <= n < 256 -> shown n (show_u8 n).
Proof.
  intros Hn. assert (all_in 0 256 (fun n => shown_b n (show_u8 n)) = true) as H by (vm_compute; reflexivity).
  pose proof (all_in_spec 0 256 _ n H ltac:(lia)) as H'. clear H. rename H' into H. unfold shown_b in H.
  repeat match goal with H : _ && _ = true |- _ => apply andb_true_iff in H as [H ?] end.
  repeat match goal with H : bool_decide _ = true |- _ => apply bool_decide_eq_true in H end.
  match goal with H : negb _ = true |- _ => apply negb_true_iff in H; apply orb_false_iff in H as [[? ?]%orb_false_iff ?] end.
  by constructor.
Qed.

Definition scheme_ok (r : Redundancy) : Prop :=
  match r with
  | RNone => True
  | RMirror c => 2 <= c < 256
  | RParity d p => 2 <= d < 256 /\ (p = 1 \/ p = 2 \/ (p = 3 \/ p = 4) /\ d + p <= MAX_EC_WIDTH)
  end.
Definition policy_ok (p : RedundancyPolicy) : Prop :=
  scheme_ok (scheme p) /\ trimmed (spread p).

Definition parse_base (low : string) : result PolicyError Redundancy :=
  let '(kind, arg) := match split_once ":" low with Some (k, a) => (trim k, Some (trim a)) | None => (low, None) end in
  parse_scheme kind arg.

(** The spelling of a scheme: what [parse_policy] makes of it, and what it has of
    spaces and delimiters. *)
Record spelled (r : Redundancy) (s : string) : Prop := {
  sp_base : parse_base (to_ascii_lowercase s) = Ok r;
  sp_trimmed : trimmed s;
  sp_plain : contains "@" s = false }.

Lemma trimmed_by s : bool_decide (trim s = s /\ s <> EmptyString) = true -> trimmed s.
Proof. apply bool_decide_eq_true. Qed.

Lemma spelled_with r k kind arg : trimmed kind -> contains "@" kind = false -> contains ":" kind = false ->
  to_ascii_lowercase kind = kind -> trimmed arg -> contains "@" arg = false -> to_ascii_lowercase arg = arg ->
  k = kind +:+ String ":" arg -> parse_scheme kind (Some arg) = Ok r -> spelled r k.
Proof.
  intros Hk Hk1 Hk2 Hkl Ha Ha1 Hal -> Hp. constructor.
  - rewrite lowercase_app, Hkl. cbn [to_ascii_lowercase]. change (lower ":") with ":"%char. rewrite Hal.
    unfold parse_base. rewrite split_once_at by done. by rewrite (proj1 Hk), (proj1 Ha).
  - replace (kind +:+ String ":" arg) with (kind +:+ ":" +:+ arg) by by rewrite app_cons, app_nil.
    by apply trimmed_ends.
  - rewrite contains_app, Hk1. cbn. done.
Qed.

Lemma shown_pair d p sd sp : shown d sd -> shown p sp ->
  let a := sd +:+ "+" +:+ sp in
  trimmed a /\ contains "@" a = false /\ to_ascii_lowercase a = a /\ split_once "+" a = Some (sd, sp).
Proof.
  intros [P1 T1 L1 (A1 & B1 & C1)] [P2 T2 L2 (A2 & B2 & C2)] a. unfold a. rewrite (app_cons "+"), app_nil. split_and!.
  - replace (sd +:+ String "+" sp) with (sd +:+ "+" +:+ sp) by by rewrite app_cons, app_nil. by apply trimmed_ends.
  - rewrite contains_app, A1. exact A2.
  - rewrite lowercase_app, L1. cbn [to_ascii_lowercase]. by rewrite L2.
  - by apply split_once_at.
Qed.

Lemma shown_small p c : (p, c) ∈ [(1, "1"); (2, "2"); (3, "3"); (4, "4")]%string -> shown p c.
Proof.
  intros H. repeat (apply elem_of_cons in H as [[= -> ->]|H]; [match goal with |- shown ?n _ => by apply (show_u8_shown n) end|]). by apply elem_of_nil in H.
Qed.

Lemma base_spelling_spelled r : scheme_ok r -> spelled r (base_spelling r).
Proof.
  destruct r as [|c|d p]; cbn [scheme_ok base_spelling].
  - intros _. constructor; try reflexivity. by apply trimmed_by.
  - intros Hc. pose proof (show_u8_shown c ltac:(lia)) as [P T L (A & B & _)].
    eapply (spelled_with _ _ "mirror"); try reflexivity; try eassumption; [by apply trimmed_by|].
    change (parse_mirror (Some (show_u8 c)) = Ok (RMirror c)). unfold parse_mirror. rewrite P. cbn.
    by destruct (Z.ltb_spec c 2); [lia|].
  - unfold MAX_EC_WIDTH. intros [Hd Hp]. pose proof (show_u8_shown d ltac:(lia)) as Sd.
    destruct Hp as [->|[->|[Hp Hw]]]; cbn [Z.eqb Pos.eqb].
    + destruct (shown_pair d 1 _ "1" Sd (shown_small 1 "1" ltac:(by_decide))) as (T & A & L & S).
      eapply (spelled_with _ _ "raid5" (show_u8 d +:+ "+" +:+ "1")); try reflexivity; try eassumption; [by apply trimmed_by|].
      change (parse_parity "raid5" (Some (show_u8 d +:+ "+" +:+ "1")) = Ok (RParity d 1)). unfold parse_parity.
      rewrite S, (proj1 (sh_trim _ _ Sd)), (sh_parse _ _ Sd). change (trim "1") with "1"%string.
      change (parse_u8 "1") with (Some 1). cbn [or_err rbind]. by replace (d <? 2) with false by lia.
    + destruct (shown_pair d 2 _ "2" Sd (shown_small 2 "2" ltac:(by_decide))) as (T & A & L & S).
      eapply (spelled_with _ _ "raid6" (show_u8 d +:+ "+" +:+ "2")); try reflexivity; try eassumption; [by apply trimmed_by|].
      change (parse_parity "raid6" (Some (show_u8 d +:+ "+" +:+ "2")) = Ok (RParity d 2)). unfold parse_parity.
      rewrite S, (proj1 (sh_trim _ _ Sd)), (sh_parse _ _ Sd). change (trim "2") with "2"%string.
      change (parse_u8 "2") with (Some 2). cbn [or_err rbind]. by replace (d <? 2) with false by lia.
    + assert (shown p (show_u8 p)) as Sp by (apply show_u8_shown; lia).
      destruct (shown_pair d p _ _ Sd Sp) as (T & A & L & S).
      replace (p =? 1) with false by lia. replace (p =? 2) with false by lia.
      eapply (spelled_with _ _ "ec" (show_u8 d +:+ "+" +:+ show_u8 p)); try reflexivity; try eassumption; [by apply trimmed_by|].
      change (parse_scheme "ec" ?a) with (parse_ec a). unfold parse_ec. rewrite S, (proj1 (sh_trim _ _ Sd)), (sh_parse _ _ Sd).
      rewrite (proj1 (sh_trim _ _ Sp)), (sh_parse _ _ Sp). cbn. unfold MAX_PARITY, MAX_EC_WIDTH.
      bool_cases; cbn; try lia; done.
Qed.

(** ** Every policy that is parsed can be held *)

Lemma trim_end_idem s : trim_end (trim_end s) = trim_end s.
Proof.
  induction s as [|c s IH]; [done|]. cbn. destruct (trim_end s) as [|d t] eqn:E.
  - destruct (is_space c) eqn:Ec; [done|]. cbn. by rewrite Ec.
  - cbn in *. by rewrite IH.
Qed.
Lemma trim_start_head s : trim_start s = EmptyString \/ exists c r, trim_start s = String c r /\ is_space c = false.
Proof. induction s as [|c s IH]; [by left|]. cbn. destruct (is_space c) eqn:E; [done|]. right. by exists c, s. Qed.
Lemma trim_idem s : trim (trim s) = trim s.
Proof.
  unfold trim. destruct (trim_start_head s) as [->|(c & r & -> & Hc)]; [done|]. cbn. destruct (trim_end r) as [|d t] eqn:E.
  - by repeat (rewrite Hc; cbn).
  - pose proof (trim_end_idem r) as Ei. rewrite E in Ei. cbn [trim_start]. rewrite Hc. remember (String d t) as u eqn:Eu. cbn [trim_end]. rewrite Ei. by subst u.
Qed.
Lemma trim_trimmed s : trim s <> EmptyString -> trimmed (trim s).
Proof. split; [apply trim_idem|done]. Qed.

Lemma digits_range s : forall acc n, 0 <= acc < 256 -> digits acc s = Some n -> 0 <= n < 256.
Proof.
  induction s as [|c s IH]; intros acc n Ha; cbn; [by intros [= <-]|]. destruct (digit c) as [d|] eqn:Ed; [|done]. cbn.
  destruct (Z.ltb_spec 255 (acc * 10 + d)); [done|]. apply IH. unfold digit in Ed. destruct (_ && _) eqn:E in Ed; [|done].
  apply andb_true_iff in E as [E _]. apply Z.leb_le in E. injection Ed as <-. lia.
Qed.
Lemma parse_u8_range s n : parse_u8 s = Some n -> 0 <= n < 256.
Proof. unfold parse_u8. set (t := match s with String "+" r => r | _ => s end). destruct t; [done|]. apply digits_range. lia. Qed.
Lemma or_err_ok {A} e (o : option A) x : or_err e o = Ok x -> o = Some x.
Proof. destruct o; [by intros [= ->]|done]. Qed.
Lemma parse_mirror_ok arg r : parse_mirror arg = Ok r -> scheme_ok r.
Proof.
  unfold parse_mirror. intros (n & Hn & E)%rbind_ok. destruct (Z.ltb_spec n 2); [done|]. injection E as <-. cbn. destruct arg as [a|].
  - apply or_err_ok, parse_u8_range in Hn. lia.
  - injection Hn as <-. lia.
Qed.
(** Two widths said as [d+p]. *)
Lemma parse_pair_ok d p x y : (let? d := or_err BadDataWidth (parse_u8 d) in let? p := or_err BadParityWidth (parse_u8 p) in Ok (d, p)) = Ok (x, y) ->
  0 <= x < 256 /\ 0 <= y < 256.
Proof. intros (d' & Hd%or_err_ok%parse_u8_range & (p' & Hp%or_err_ok%parse_u8_range & [= <- <-])%rbind_ok)%rbind_ok. done. Qed.
Lemma parse_parity_ok kind arg r : kind ∈ ["raid5"; "raid-5"; "raid6"; "raid-6"; "parity"]%string -> parse_parity kind arg = Ok r -> scheme_ok r.
Proof.
  unfold parse_parity. cbv zeta. intros Hk ([d p] & Hdp & E)%rbind_ok. assert (d < 256 /\ 0 <= p) as [Hd Hp].
  { destruct arg as [a|]; [|done]. destruct (split_once "+" a) as [[x y]|]; [apply parse_pair_ok in Hdp; lia|].
    apply rbind_ok in Hdp as (m & Hm%or_err_ok%parse_u8_range & E'). destruct (contains "6" kind); destruct (m <=? _); (done || injection E' as <- <-; lia). }
  clear Hdp. destruct (_ && _) eqn:E0 in E; [done|]. destruct (_ && _) eqn:E5 in E; [done|]. destruct (_ && _) eqn:E6 in E; [done|].
  destruct (Z.ltb_spec d 2); [done|]. destruct (Z.ltb_spec 2 p); [done|]. injection E as <-. cbn. split; [lia|].
  assert (p <> 0); [|lia]. intros ->. repeat (apply elem_of_cons in Hk as [->|Hk]; [done|]). by apply elem_of_nil in Hk.
Qed.
Lemma parse_ec_ok arg r : parse_ec arg = Ok r -> scheme_ok r.
Proof.
  unfold parse_ec. intros ([d p] & Hdp & E)%rbind_ok. assert (d < 256) as Hd.
  { destruct arg as [a|]; [|by injection Hdp as <- <-]. destruct (split_once "+" a) as [[x y]|]; [|done]. apply parse_pair_ok in Hdp. lia. }
  clear Hdp. destruct (negb _) eqn:E0 in E; [done|]. apply negb_false_iff, andb_true_iff in E0 as [? ?]. unfold MAX_PARITY in *.
  destruct (Z.ltb_spec d 2); [done|]. destruct (Z.ltb_spec MAX_EC_WIDTH (d + p)); [done|]. injection E as <-. cbn. lia.
Qed.
Lemma parse_scheme_ok kind arg r : parse_scheme kind arg = Ok r -> scheme_ok r.
Proof.
  unfold parse_scheme. destruct (decide _); [by intros [= <-]|]. destruct (decide _); [apply parse_mirror_ok|].
  destruct (decide _); [by apply parse_parity_ok|]. destruct (decide _); [apply parse_ec_ok|done].
Qed.
Lemma parse_policy_ok s p : parse_policy s = Ok p -> policy_ok p.
Proof.
  unfold parse_policy. set (sr := match split_once "@" (trim s) with Some _ => _ | None => _ end).
  assert (snd sr <> EmptyString -> trimmed (snd sr)) as Ht.
  { unfold sr. destruct (split_once "@" (trim s)) as [[a r]|]; cbn; [apply trim_trimmed|done]. }
  destruct sr as [a r]. cbn [snd] in Ht. destruct (bool_decide (r = EmptyString)) eqn:Er; [done|]. apply bool_decide_eq_false in Er.
  destruct (match split_once ":" _ with Some _ => _ | None => _ end) as [kind arg].
  intros (sc & Hsc%parse_scheme_ok & [= <-])%rbind_ok. split; [done|by apply Ht].
Qed.
Lemma from_request_ok a b p : from_request a b = Ok p -> policy_ok p.
Proof.
  unfold from_request. intros (q & Hq & E)%rbind_ok. assert (policy_ok q) as [Hs Ht].
  { destruct a as [a|]; [by apply parse_policy_ok in Hq|]. by injection Hq as <-. }
  destruct b as [b|]; [|by injection E as <-]. destruct (bool_decide (trim b = EmptyString)) eqn:Eb; [by injection E as <-|].
  apply bool_decide_eq_false in Eb. destruct (_ && _); [done|]. injection E as <-. split; [done|by apply trim_trimmed].
Qed.

(** What a spelling says: of a policy of one copy it leaves the rung out. *)
Definition spelled_policy (p : RedundancyPolicy) : RedundancyPolicy := if is_none p then policy_none else p.

(** C34. Spellings read back.  Of every policy a request can ask for, in words and with a
    rung of its own or not, and of every policy with widths in their bounds and a trimmed
    rung, the spelling, what the records and the API say of a volume, is parsed back to
    that policy, rung included; but a policy of one copy comes back at the default rung. *)
Theorem policy_spelling_roundtrip p : policy_ok p \/ (exists a b, from_request a b = Ok p) -> parse_policy (spelling p) = Ok (spelled_policy p).
Proof.
  intros Hp. assert (policy_ok p) as [Hs Ht] by (destruct Hp as [|(a & b & Hr)]; [done|by eapply from_request_ok]). clear Hp.
  destruct p as [r sp]. cbn [scheme spread] in *. pose proof (base_spelling_spelled r Hs) as [Hb HT Ha].
  unfold parse_policy, spelling. cbn [scheme spread]. unfold parse_base in Hb.
  destruct (bool_decide (sp = DEFAULT_RUNG) || is_none (mkPolicy r sp)) eqn:E.
  - replace (spelled_policy (mkPolicy r sp)) with (mkPolicy r DEFAULT_RUNG).
    + rewrite (proj1 HT), split_once_none by done. destruct (match split_once ":" _ with Some _ => _ | None => _ end) as [kind arg]. by rewrite Hb.
    + unfold spelled_policy. destruct (is_none (mkPolicy r sp)) eqn:En; [apply bool_decide_eq_true in En; cbn in En; by subst r|].
      rewrite orb_false_r in E. apply bool_decide_eq_true in E. by subst sp.
  - apply orb_false_iff in E as [_ En]. unfold spelled_policy. rewrite En.
    assert (trimmed (base_spelling r +:+ "@" +:+ sp)) as Hw by by apply trimmed_ends.
    rewrite (proj1 Hw), (app_cons "@"), app_nil, split_once_at by done. rewrite (proj1 HT), (proj1 Ht).
    rewrite bool_decide_false by apply Ht.
    destruct (match split_once ":" _ with Some _ => _ | None => _ end) as [kind arg]. by rewrite Hb.
Qed.

Lemma policy_spelling_roundtrip_witness :
  parse_policy (spelling (mkPolicy (RParity 8 3) "shelf")) = Ok (mkPolicy (RParity 8 3) "shelf")
  /\ parse_policy (spelling (policy_at "shelf" policy_none)) = Ok policy_none.
Proof.
  split.
  - apply (policy_spelling_roundtrip (mkPolicy (RParity 8 3) "shelf")). right. exists (Some " EC : 8+3 "%string), (Some "shelf"%string). reflexivity.
  - apply (policy_spelling_roundtrip (policy_at "shelf" policy_none)). right. exists (Some "none@shelf"%string), None. reflexivity.
Defined.
