(* ===== verification/Gf256.v ===== *)
(** GF(2^8) with polynomial 0x11D and generator 2: the field RAID 6 and the
    parity volumes compute in.  [Module Tab] is the table-driven arithmetic of
    [raid/parity.rs] (log and antilog tables built by [gf_tables]), [Module Loop]
    the shift-and-add arithmetic of [volume/stripe.rs].  The field laws are
    proved once, on a subset type with a [field] instance, and the two
    implementations are shown to be the same function on bytes. *)

From S2P Require Import Prelude.
From Stdlib Require Import Field Eqdep_dec.

(** XOR of two bytes, [a ^ b]. *)
Definition xor8 (a b : Z) : Z := Z.lxor a b.

(** ** raid/parity.rs: tables *)
Module Tab.

(** "xtime": shift left by 1, XOR with 0x1D if carry. *)
Definition gf_mul2 (x : Z) : Z :=
  let carry := Z.land (Z.shiftr x 7) 1 in
  Z.lxor (Z.land (Z.shiftl x 1) 255) (carry * 29).

Record tstate := TS { ts_exp : list Z; ts_log : list Z; ts_x : Z }.

(** One iteration of the first loop of [gf_tables]. *)
Definition tables_step (s : tstate) (i : Z) : tstate :=
  let x := ts_x s in
  let x2 := Z.land (Z.shiftl x 1) 65535 in
  TS (<[Z.to_nat i := Z.land x 255]> (ts_exp s))
     (<[Z.to_nat x := Z.land i 255]> (ts_log s))
     (if Z.land x2 256 =? 0 then x2 else Z.lxor x2 285).

Definition gf_tables : list Z * list Z :=
  let s := foldl tables_step (TS (zeros 512) (zeros 256) 1) (zrange 0 255) in
  (foldl (fun exp j => <[Z.to_nat j := at_byte exp (j - 255)]> exp) (ts_exp s) (zrange 255 512),
   ts_log s).

Definition GF : list Z * list Z := Eval vm_compute in gf_tables.

Definition gf_mul (a b : Z) : Z :=
  if (a =? 0) || (b =? 0) then 0
  else at_byte (fst GF) (at_byte (snd GF) a + at_byte (snd GF) b).

Definition gf_pow2 (n : Z) : Z := at_byte (fst GF) (n mod 255).
(** [gf_log] and [gf_inv] of the source assert [a <> 0]. No call can fail the
    assertion: [recover] inverts a power of g and [g^(y-x) ^ 1] for strips x < y
    of at most 255 ([recover_divisors] below: neither is zero), and
    [locate_raid6_fault] takes logarithms after it compared both bytes with 0. *)
Definition gf_log (a : Z) : Z := at_byte (snd GF) a.
Definition gf_inv (a : Z) : Z := at_byte (fst GF) (255 - at_byte (snd GF) a).

End Tab.

(** ** volume/stripe.rs: shift and add *)
Module Loop.

(** The loop of [gf_mul]: at most 8 iterations, since [b >>= 1] each time. *)
Fixpoint gf_mul_loop (fuel : nat) (p a b : Z) : Z :=
  match fuel with
  | O => p
  | S fuel =>
      if b =? 0 then p
      else
        let p := if Z.land b 1 =? 0 then p else Z.lxor p a in
        let carry := Z.land a 128 in
        let a := Z.land (Z.shiftl a 1) 255 in
        let a := if carry =? 0 then a else Z.lxor a 29 in
        gf_mul_loop fuel p a (Z.shiftr b 1)
  end.

Definition gf_mul (a b : Z) : Z := gf_mul_loop 8 0 a b.

Definition gf_pow2 (i : Z) : Z :=
  foldl (fun v _ => gf_mul v 2) 1 (zrange 0 (i mod 255)).

(** Square and multiply for the exponent 254 (8 bits, so 8 iterations). *)
Fixpoint gf_inv_loop (fuel : nat) (result base e : Z) : Z :=
  match fuel with
  | O => result
  | S fuel =>
      if e <=? 0 then result
      else
        let result := if Z.land e 1 =? 1 then gf_mul result base else result in
        gf_inv_loop fuel result (gf_mul base base) (Z.shiftr e 1)
  end.

Definition gf_inv (a : Z) : Z := if a =? 0 then 0 else gf_inv_loop 8 1 a 254.

End Loop.

(** ** Exhaustive facts over the 256 bytes *)

Definition all_byte1 (p : Z -> bool) : bool := all_in 0 256 p.
Definition all_byte2 (p : Z -> Z -> bool) : bool := all_byte1 (fun a => all_byte1 (p a)).

Lemma all_byte1_spec p a : all_byte1 p = true -> byte a -> p a = true.
Proof. intros H [? ?]. apply (all_in_spec 0 256); [done|lia]. Qed.

Lemma all_byte2_spec p a b : all_byte2 p = true -> byte a -> byte b -> p a b = true.
Proof. intros H Ha Hb. apply all_byte1_spec; [|done]. exact (all_byte1_spec _ _ H Ha). Qed.

(** Decide a statement about one or two bytes by evaluating it everywhere. *)
Ltac by_bytes1 p a H :=
  apply Z.eqb_eq; refine (all_byte1_spec p a _ H); vm_compute; reflexivity.
Ltac by_bytes2 p a b Ha Hb :=
  apply Z.eqb_eq; refine (all_byte2_spec p a b _ Ha Hb); vm_compute; reflexivity.

Lemma xor8_byte a b : byte a -> byte b -> byte (xor8 a b).
Proof.
  intros Ha Hb. apply is_byte_spec.
  refine (all_byte2_spec (fun a b => is_byte (xor8 a b)) a b _ Ha Hb). vm_compute. reflexivity.
Qed.

Lemma xor8_comm a b : xor8 a b = xor8 b a.
Proof. apply Z.lxor_comm. Qed.
Lemma xor8_assoc a b c : xor8 a (xor8 b c) = xor8 (xor8 a b) c.
Proof. symmetry. apply Z.lxor_assoc. Qed.
Lemma xor8_nilpotent a : xor8 a a = 0.
Proof. apply Z.lxor_nilpotent. Qed.
Lemma xor8_0_l a : xor8 0 a = a.
Proof. done. Qed.
Lemma xor8_0_r a : xor8 a 0 = a.
Proof. apply Z.lxor_0_r. Qed.
Lemma xor8_cancel a b : xor8 a (xor8 a b) = b.
Proof. by rewrite xor8_assoc, xor8_nilpotent. Qed.
Lemma xor8_eq_0 a b : xor8 a b = 0 -> a = b.
Proof. apply Z.lxor_eq. Qed.
Lemma xor8_swap a b c : xor8 a (xor8 b c) = xor8 b (xor8 a c).
Proof. by rewrite !xor8_assoc, (xor8_comm a b). Qed.

Import Tab.

Lemma gf_mul2_byte a : byte a -> byte (gf_mul2 a).
Proof.
  intros Ha. apply is_byte_spec.
  refine (all_byte1_spec (fun a => is_byte (gf_mul2 a)) a _ Ha). vm_compute. reflexivity.
Qed.

Lemma gf_mul2_xor a b : byte a -> byte b -> gf_mul2 (xor8 a b) = xor8 (gf_mul2 a) (gf_mul2 b).
Proof.
  intros Ha Hb.
  by_bytes2 (fun a b => gf_mul2 (xor8 a b) =? xor8 (gf_mul2 a) (gf_mul2 b)) a b Ha Hb.
Qed.

(** The antilog, at any exponent. *)
Definition gexp (k : Z) : Z := at_byte (fst GF) (k mod 255).

Lemma gexp_byte k : byte (gexp k) /\ gexp k <> 0.
Proof.
  pose proof (Z.mod_pos_bound k 255 ltac:(lia)).
  assert (is_byte (gexp k) && negb (gexp k =? 0) = true) as Hk.
  { refine (all_in_spec 0 255 (fun k => is_byte (at_byte (fst GF) k) && negb (at_byte (fst GF) k =? 0))
              _ _ _); [vm_compute; reflexivity | lia]. }
  apply andb_true_iff in Hk as [? Hz]. split; [by apply is_byte_spec|].
  destruct (Z.eqb_spec (gexp k) 0); [discriminate|done].
Qed.

Lemma exp_table k : 0 <= k < 510 -> at_byte (fst GF) k = gexp k.
Proof.
  intros Hk. apply Z.eqb_eq.
  refine (all_in_spec 0 510 (fun k => at_byte (fst GF) k =? at_byte (fst GF) (k mod 255)) _ _ _);
    [vm_compute; reflexivity | lia].
Qed.

Lemma gexp_period k j : gexp (k + 255 * j) = gexp k.
Proof. unfold gexp. rewrite Z.mul_comm, Z.mod_add by lia. done. Qed.

Lemma log_gexp k : at_byte (snd GF) (gexp k) = k mod 255.
Proof.
  apply Z.eqb_eq. pose proof (Z.mod_pos_bound k 255 ltac:(lia)).
  refine (all_in_spec 0 255 (fun k => at_byte (snd GF) (at_byte (fst GF) k) =? k) _ _ _);
    [vm_compute; reflexivity | lia].
Qed.

Lemma gexp_log a : byte a -> a <> 0 -> gexp (gf_log a) = a.
Proof.
  intros Ha Hz. apply Z.eqb_eq.
  refine (all_in_spec 1 255 (fun a => gexp (gf_log a) =? a) _ _ _);
    [vm_compute; reflexivity | unfold byte in Ha; lia].
Qed.

Lemma gf_log_range a : byte a -> a <> 0 -> 0 <= gf_log a < 255.
Proof.
  intros Ha Hz. rewrite <- (gexp_log a) by done. unfold gf_log. rewrite log_gexp.
  apply Z.mod_pos_bound. lia.
Qed.

Lemma gf_mul_gexp i j : gf_mul (gexp i) (gexp j) = gexp (i + j).
Proof.
  unfold gf_mul. destruct (gexp_byte i) as [_ Hi], (gexp_byte j) as [_ Hj].
  destruct (Z.eqb_spec (gexp i) 0), (Z.eqb_spec (gexp j) 0); try done. cbn [orb].
  rewrite !log_gexp, exp_table.
  - unfold gexp. rewrite <- Zplus_mod. done.
  - pose proof (Z.mod_pos_bound i 255). pose proof (Z.mod_pos_bound j 255). lia.
Qed.

Lemma gf_mul_0_l a : gf_mul 0 a = 0.
Proof. done. Qed.
Lemma gf_mul_0_r a : gf_mul a 0 = 0.
Proof. unfold gf_mul. by rewrite orb_true_r. Qed.

(** Every byte is zero or a power of the generator. *)
Lemma byte_cases a : byte a -> a = 0 \/ exists k, 0 <= k < 255 /\ a = gexp k.
Proof.
  intros Ha. destruct (Z.eq_dec a 0); [by left|right].
  exists (gf_log a). split; [by apply gf_log_range|by rewrite gexp_log].
Qed.

Ltac gcases a :=
  match goal with H : byte a |- _ =>
    let k := fresh "k" in let Hk := fresh "Hk" in
    destruct (byte_cases a H) as [->|(k & Hk & ->)] end.

Lemma gf_mul_byte a b : byte a -> byte b -> byte (gf_mul a b).
Proof.
  intros Ha Hb. gcases a; [done|]. gcases b; [by rewrite gf_mul_0_r|].
  rewrite gf_mul_gexp. apply gexp_byte.
Qed.

Lemma gf_mul_comm a b : byte a -> byte b -> gf_mul a b = gf_mul b a.
Proof.
  intros Ha Hb. gcases a; [by rewrite gf_mul_0_r|]. gcases b; [by rewrite gf_mul_0_r|].
  rewrite !gf_mul_gexp. f_equal. lia.
Qed.

Lemma gf_mul_assoc a b c :
  byte a -> byte b -> byte c -> gf_mul a (gf_mul b c) = gf_mul (gf_mul a b) c.
Proof.
  intros Ha Hb Hc. gcases a; [done|]. gcases b; [by rewrite ?gf_mul_0_r, gf_mul_0_l, ?gf_mul_0_r|].
  gcases c; [by rewrite !gf_mul_0_r|]. rewrite !gf_mul_gexp. f_equal. lia.
Qed.

Lemma gf_mul_1_l a : byte a -> gf_mul 1 a = a.
Proof.
  intros Ha. change 1 with (gexp 0). gcases a; [by rewrite gf_mul_0_r|].
  rewrite gf_mul_gexp. f_equal.
Qed.

(** Multiplying by a power of the generator is repeated doubling. *)
Lemma gf_mul2_gexp k : gf_mul2 (gexp k) = gexp (k + 1).
Proof.
  pose proof (Z.mod_pos_bound k 255 ltac:(lia)).
  transitivity (gexp (k mod 255 + 1)).
  - apply Z.eqb_eq. unfold gexp at 1.
    refine (all_in_spec 0 255 (fun k => gf_mul2 (at_byte (fst GF) k) =? gexp (k + 1)) _ _ _);
      [vm_compute; reflexivity | lia].
  - unfold gexp. f_equal. rewrite Zplus_mod_idemp_l. done.
Qed.

Lemma gf_mul_gexp_iter (k : nat) x :
  byte x -> gf_mul (gexp (Z.of_nat k)) x = Nat.iter k gf_mul2 x.
Proof.
  intros Hx. induction k as [|k IH]; [by apply gf_mul_1_l|].
  rewrite Nat.iter_succ, <- IH. gcases x.
  - rewrite !gf_mul_0_r. done.
  - rewrite !gf_mul_gexp, gf_mul2_gexp. f_equal. lia.
Qed.

Lemma iter_mul2_byte k x : byte x -> byte (Nat.iter k gf_mul2 x).
Proof. intros. induction k; [done|]. rewrite Nat.iter_succ. by apply gf_mul2_byte. Qed.

Lemma gf_mul_xor_r a b c :
  byte a -> byte b -> byte c -> gf_mul a (xor8 b c) = xor8 (gf_mul a b) (gf_mul a c).
Proof.
  intros Ha Hb Hc. pose proof (xor8_byte _ _ Hb Hc). gcases a; [done|].
  rewrite <- (Z2Nat.id k) by lia. rewrite !gf_mul_gexp_iter by done.
  induction (Z.to_nat k) as [|n IH]; [done|]. rewrite !Nat.iter_succ.
  rewrite IH. apply gf_mul2_xor; by apply iter_mul2_byte.
Qed.

Lemma gf_inv_byte a : byte a -> a <> 0 -> byte (gf_inv a) /\ gf_inv a <> 0.
Proof.
  intros Ha Hz. pose proof (gf_log_range a Ha Hz) as Hl. unfold gf_log in Hl.
  unfold gf_inv. rewrite exp_table by lia. apply gexp_byte.
Qed.

Lemma gf_mul_inv a : byte a -> a <> 0 -> gf_mul (gf_inv a) a = 1.
Proof.
  intros Ha Hz. pose proof (gf_log_range a Ha Hz) as Hl. unfold gf_log in Hl.
  unfold gf_inv. rewrite exp_table by lia.
  rewrite <- (gexp_log a) at 2 by done. unfold gf_log. rewrite gf_mul_gexp.
  rewrite Z.sub_add. reflexivity.
Qed.

Lemma gf_pow2_gexp n : gf_pow2 n = gexp n.
Proof. done. Qed.

Lemma gf_mul2_is_mul a : byte a -> gf_mul2 a = gf_mul 2 a.
Proof. intros Ha. by_bytes1 (fun a => gf_mul2 a =? gf_mul 2 a) a Ha. Qed.

(** Distinct exponents below 255 are distinct elements. *)
Lemma gexp_inj i j : 0 <= i < 255 -> 0 <= j < 255 -> gexp i = gexp j -> i = j.
Proof.
  intros Hi Hj Heq. apply (f_equal (at_byte (snd GF))) in Heq.
  rewrite !log_gexp, !Z.mod_small in Heq by lia. done.
Qed.

(** What recovery divides by is never zero. *)
Lemma recover_divisors k d : gf_pow2 k <> 0 /\ (0 < d < 255 -> xor8 (gf_pow2 d) 1 <> 0).
Proof.
  rewrite !gf_pow2_gexp. split; [apply gexp_byte|]. intros Hd E%xor8_eq_0. apply (gexp_inj d 0) in E; lia.
Qed.

(** ** The field, as a type *)

Record gf := Gf { gv : Z; gv_ok : is_byte gv = true }.

Lemma gf_eq (x y : gf) : gv x = gv y -> x = y.
Proof.
  destruct x as [x Hx], y as [y Hy]. cbn. intros ->. f_equal. apply UIP_dec, bool_dec.
Qed.

Lemma gv_byte (x : gf) : byte (gv x).
Proof. apply is_byte_spec, gv_ok. Qed.
#[export] Hint Resolve gv_byte xor8_byte gf_mul_byte gf_mul2_byte : core.

Definition mkgf (z : Z) : gf :=
  match bool_dec (is_byte z) true with left H => Gf z H | right _ => Gf 0 eq_refl end.

Lemma gv_mkgf z : byte z -> gv (mkgf z) = z.
Proof.
  intros Hz. unfold mkgf. destruct (bool_dec _ _) as [|Hn]; [done|].
  by rewrite <- is_byte_spec in Hz.
Qed.

Definition g0 : gf := mkgf 0.
Definition g1 : gf := mkgf 1.
Definition gadd (x y : gf) : gf := mkgf (xor8 (gv x) (gv y)).
Definition gmul (x y : gf) : gf := mkgf (gf_mul (gv x) (gv y)).
Definition ginv (x : gf) : gf := if gv x =? 0 then g0 else mkgf (gf_inv (gv x)).
Definition gdiv (x y : gf) : gf := gmul x (ginv y).
Definition gopp (x : gf) : gf := x.
(** Subtraction is addition; a name of its own lets [field] use it. *)
Definition gsub (x y : gf) : gf := gadd x y.

Lemma gv_gadd x y : gv (gadd x y) = xor8 (gv x) (gv y).
Proof. apply gv_mkgf. auto. Qed.
Lemma gv_gmul x y : gv (gmul x y) = gf_mul (gv x) (gv y).
Proof. apply gv_mkgf. auto. Qed.

Lemma gf_field_theory : field_theory g0 g1 gadd gmul gsub gopp gdiv ginv (@eq gf).
Proof.
  constructor; [constructor|..].
  - intros. apply gf_eq. rewrite gv_gadd. apply xor8_0_l.
  - intros. apply gf_eq. rewrite !gv_gadd. apply xor8_comm.
  - intros. apply gf_eq. rewrite !gv_gadd. apply xor8_assoc.
  - intros. apply gf_eq. rewrite gv_gmul. by apply gf_mul_1_l.
  - intros. apply gf_eq. rewrite !gv_gmul. by apply gf_mul_comm.
  - intros. apply gf_eq. rewrite !gv_gmul. by apply gf_mul_assoc.
  - intros x y z. apply gf_eq. rewrite !gv_gmul, !gv_gadd, !gv_gmul.
    rewrite (gf_mul_comm (xor8 _ _)) by auto. rewrite gf_mul_xor_r by auto.
    f_equal; by apply gf_mul_comm.
  - done.
  - intros. apply gf_eq. rewrite gv_gadd. apply xor8_nilpotent.
  - intros H. by apply (f_equal gv) in H.
  - done.
  - intros x Hx. apply gf_eq. rewrite gv_gmul. unfold ginv.
    destruct (Z.eqb_spec (gv x) 0) as [E|E].
    + destruct Hx. by apply gf_eq.
    + rewrite gv_mkgf by (by apply gf_inv_byte). by rewrite gf_mul_inv.
Qed.

Add Field gf_field : gf_field_theory.

(** Powers of the generator, in the field. *)
Definition ggen (k : Z) : gf := mkgf (gf_pow2 k).

Lemma gv_ggen k : gv (ggen k) = gf_pow2 k.
Proof. apply gv_mkgf, gexp_byte. Qed.

Lemma ggen_nonzero k : ggen k <> g0.
Proof. intros H. apply (f_equal gv) in H. rewrite gv_ggen in H. by destruct (gexp_byte k). Qed.

Lemma ggen_add i j : ggen (i + j) = gmul (ggen i) (ggen j).
Proof. apply gf_eq. rewrite gv_gmul, !gv_ggen, !gf_pow2_gexp. by rewrite gf_mul_gexp. Qed.

Lemma ggen_inj i j : 0 <= i < 255 -> 0 <= j < 255 -> ggen i = ggen j -> i = j.
Proof. intros ?? H. apply (f_equal gv) in H. rewrite !gv_ggen in H. by apply gexp_inj. Qed.

Lemma gadd_eq_0 x y : gadd x y = g0 -> x = y.
Proof. intros H. apply gf_eq, xor8_eq_0. apply (f_equal gv) in H. by rewrite gv_gadd in H. Qed.

Lemma gv_ginv x : x <> g0 -> gv (ginv x) = gf_inv (gv x).
Proof.
  intros Hx. assert (gv x <> 0) by (intros E; apply Hx; by apply gf_eq).
  unfold ginv. destruct (Z.eqb_spec (gv x) 0); [done|]. apply gv_mkgf.
  apply gf_inv_byte; auto.
Qed.

(** ** The two implementations agree *)

Lemma loop_mul_is_tab_mul a b : byte a -> byte b -> Loop.gf_mul a b = Tab.gf_mul a b.
Proof.
  intros Ha Hb. by_bytes2 (fun a b => Loop.gf_mul a b =? Tab.gf_mul a b) a b Ha Hb.
Qed.

Lemma loop_inv_is_tab_inv a : byte a -> a <> 0 -> Loop.gf_inv a = Tab.gf_inv a.
Proof.
  intros Ha Hz. apply Z.eqb_eq.
  refine (all_in_spec 1 255 (fun a => Loop.gf_inv a =? Tab.gf_inv a) _ _ _);
    [vm_compute; reflexivity | unfold byte in Ha; lia].
Qed.

Lemma loop_pow2_is_tab_pow2 n : Loop.gf_pow2 n = Tab.gf_pow2 n.
Proof.
  pose proof (Z.mod_pos_bound n 255 ltac:(lia)).
  assert (forall m, 0 <= m < 255 -> Loop.gf_pow2 m = Tab.gf_pow2 m) as Hm.
  { intros m Hm. apply Z.eqb_eq.
    refine (all_in_spec 0 255 (fun n => Loop.gf_pow2 n =? Tab.gf_pow2 n) _ _ _);
      [vm_compute; reflexivity | lia]. }
  specialize (Hm (n mod 255) ltac:(lia)).
  unfold Loop.gf_pow2, Tab.gf_pow2 in *. by rewrite Z.mod_mod in Hm by lia.
Qed.

(** ** Properties *)

(** C38. [gf_mul] of [raid/parity.rs] (log and antilog tables) and [gf_mul] of
    [volume/stripe.rs] (shift and add) are the same product, their inverses
    and powers of the generator agree, and that product makes the bytes with
    XOR a field: commutative, associative, distributive, with unit 1 and with
    [gf_inv] the inverse of every non-zero byte. *)
Theorem gf_implementations_agree_and_form_a_field (a b c : Z) :
  byte a -> byte b -> byte c ->
  Loop.gf_mul a b = Tab.gf_mul a b
  /\ (a <> 0 -> Loop.gf_inv a = Tab.gf_inv a /\ Tab.gf_mul (Tab.gf_inv a) a = 1)
  /\ Loop.gf_pow2 a = Tab.gf_pow2 a
  /\ Tab.gf_mul a b = Tab.gf_mul b a
  /\ Tab.gf_mul a (Tab.gf_mul b c) = Tab.gf_mul (Tab.gf_mul a b) c
  /\ Tab.gf_mul a (xor8 b c) = xor8 (Tab.gf_mul a b) (Tab.gf_mul a c)
  /\ Tab.gf_mul 1 a = a
  /\ byte (Tab.gf_mul a b).
Proof.
  intros Ha Hb Hc. split_and!; auto using loop_mul_is_tab_mul, loop_pow2_is_tab_pow2,
    gf_mul_comm, gf_mul_assoc, gf_mul_xor_r, gf_mul_1_l.
  intros Hz. split; [by apply loop_inv_is_tab_inv|by apply gf_mul_inv].
Qed.

Lemma gf_implementations_agree_and_form_a_field_witness :
  Loop.gf_mul 83 202 = Tab.gf_mul 83 202 /\ Tab.gf_mul 83 202 = Tab.gf_mul 202 83.
Proof.
  destruct (gf_implementations_agree_and_form_a_field 83 202 1) as (H1 & _ & _ & H2 & _);
    [vm_compute; split; congruence .. |]. split; assumption.
Defined.
