(* ===== verification/Parity.v ===== *)
(** RAID parity: [raid/parity.rs].  The portable routines, eight bytes at a
    time in a [u64]; the AVX2 and NEON routines, a vector of bytes at a time;
    the dispatch between them; single-fault location; and the recovery of a
    stripe ([StripeStrips::recover]).  A vector register is modelled as the list
    of its bytes, and each intrinsic the code uses by its documented per-lane
    meaning.  The [from_ne_bytes] lanes are little-endian, as on both supported
    targets. *)

From S2P Require Import Prelude Gf256.
Import Tab.

(** ** Chunked loops *)

(** [while i + w <= len { fv } ; tail]: vectors of [w] bytes through [fv], and
    what is left through [ft].  [fuel] is the buffer's length, which is more
    than the number of iterations. *)
Fixpoint chunk_loop (w : nat) (fv ft : bytes -> bytes -> bytes) (fuel : nat) (dst src : bytes) : bytes :=
  match fuel with
  | O => ft dst src
  | S fuel =>
      if (w <=? length dst)%nat
      then fv (take w dst) (take w src) ++ chunk_loop w fv ft fuel (drop w dst) (drop w src)
      else ft dst src
  end.

Definition lanes_u64 (f : Z -> Z -> Z) (d s : bytes) : bytes :=
  le_bytes 8 (f (le_val d) (le_val s)).

(** ** Portable routines *)

Definition xor_in_place_generic (dst src : bytes) : bytes :=
  chunk_loop 8 (lanes_u64 Z.lxor) (zip_into xor8) (length dst) dst src.

Definition xor_parity_generic (data_strips : list bytes) : bytes :=
  match data_strips with
  | [] => []
  | s0 :: rest => foldl xor_in_place_generic s0 rest
  end.

(** Eight independent [gf_mul2]s in one [u64]. *)
Definition gf_mul2_x8 (x : Z) : Z :=
  let high := Z.land x 9259542123273814144 in
  let shifted := Z.land (wrap 64 (Z.shiftl x 1)) 18374403900871474942 in
  Z.lxor shifted (Z.shiftr high 7 * 29).

Definition q_step_generic (q d : bytes) : bytes :=
  chunk_loop 8 (lanes_u64 (fun x s => Z.lxor (gf_mul2_x8 x) s))
    (zip_into (fun q d => xor8 (gf_mul2 q) d)) (length q) q d.

Definition compute_q_syndrome_generic (len : Z) (data_strips : list bytes) : bytes :=
  foldl q_step_generic (zeros len) (rev data_strips).

(** The 256-entry product table of the portable multiply. *)
Definition mul_table (c : Z) : list Z := map (gf_mul c) (zrange 0 256).

Definition gf_mul_xor_generic (dst src : bytes) (c : Z) : bytes :=
  if c =? 1 then xor_in_place_generic dst src
  else let table := mul_table c in
       zip_into (fun d s => xor8 d (at_byte table s)) dst src.

Definition gf_scale_generic (buf : bytes) (c : Z) : bytes :=
  let table := mul_table c in map (at_byte table) buf.

Definition nibble_tables (c : Z) : list Z * list Z :=
  (map (fun n => gf_mul c n) (zrange 0 16),
   map (fun n => gf_mul c (Z.land (Z.shiftl n 4) 255)) (zrange 0 16)).

(** ** Vector routines *)

(** [_mm256_cmpgt_epi8(0, x)] and [vshrq_n_s8::<7>]: all ones where the byte's
    sign bit is set. *)
Definition sign_mask (x : Z) : Z := if x <? 128 then 0 else 255.

Definition mul2_avx2 (x : bytes) : bytes :=
  map (fun b => xor8 ((b + b) mod 256) (Z.land (sign_mask b) 29)) x.
Definition mul2_neon (x : bytes) : bytes :=
  map (fun b => xor8 (Z.land (Z.shiftl b 1) 255) (Z.land (sign_mask b) 29)) x.

(** [pshufb] / [vqtbl1q_u8] of one 16-entry table by one index byte. *)
Definition shuffle1 (t : list Z) (i : Z) : Z := if i <? 128 then at_byte t (Z.land i 15) else 0.

(** [_mm256_srli_epi16(x, 4)]: 16-bit lanes. *)
Fixpoint srli_epi16_4 (x : bytes) : bytes :=
  match x with
  | b0 :: b1 :: r => le_bytes 2 (Z.shiftr (le_val [b0; b1]) 4) ++ srli_epi16_4 r
  | r => r
  end.

Definition nibbles_avx2 (t : list Z * list Z) (x : bytes) : bytes :=
  zip_into xor8 (map (fun b => shuffle1 (fst t) (Z.land b 15)) x)
                (map (fun b => shuffle1 (snd t) (Z.land b 15)) (srli_epi16_4 x)).
Definition nibbles_neon (t : list Z * list Z) (x : bytes) : bytes :=
  zip_into xor8 (map (fun b => shuffle1 (fst t) (Z.land b 15)) x)
                (map (fun b => shuffle1 (snd t) (Z.shiftr b 4)) x).

(** One byte through the nibble tables, in the scalar tail. *)
Definition nibble1 (t : list Z * list Z) (x : Z) : Z :=
  xor8 (at_byte (fst t) (Z.land x 15)) (at_byte (snd t) (Z.shiftr x 4)).

(** [gf_mul_tail]; [src = None] scales [dst] in place. *)
Definition gf_mul_tail (t : list Z * list Z) (src : option bytes) (dst : bytes) : bytes :=
  match src with
  | Some s => zip_into (fun d x => xor8 d (nibble1 t x)) dst s
  | None => map (nibble1 t) dst
  end.

(** [gf_mul_avx2] / [gf_mul_neon], by the vector's nibble product. *)
Definition gf_mul_vec (w : nat) (nib : list Z * list Z -> bytes -> bytes)
    (t : list Z * list Z) (src : option bytes) (dst : bytes) : bytes :=
  match src with
  | Some s => chunk_loop w (fun d x => zip_into xor8 (nib t x) d)
                (fun d x => gf_mul_tail t (Some x) d) (length dst) dst s
  | None => chunk_loop w (fun d _ => nib t d) (fun d _ => gf_mul_tail t None d) (length dst) dst dst
  end.
Definition gf_mul_avx2 := gf_mul_vec 32 nibbles_avx2.
Definition gf_mul_neon := gf_mul_vec 16 nibbles_neon.

Definition xor_in_place_avx2 (dst src : bytes) : bytes :=
  chunk_loop 32 (zip_into xor8) (zip_into xor8) (length dst) dst src.
Definition xor_in_place_neon (dst src : bytes) : bytes :=
  chunk_loop 16 (zip_into xor8) (zip_into xor8) (length dst) dst src.

Definition xor_parity_vec (xip : bytes -> bytes -> bytes) (data_strips : list bytes) : bytes :=
  match data_strips with
  | [] => []
  | s0 :: rest => foldl xip s0 rest
  end.
Definition xor_parity_avx2 := xor_parity_vec xor_in_place_avx2.
Definition xor_parity_neon := xor_parity_vec xor_in_place_neon.

Definition q_step_avx2 (q d : bytes) : bytes :=
  chunk_loop 32 (fun x s => zip_into xor8 (mul2_avx2 x) s) q_step_generic (length q) q d.
Definition q_step_neon (q d : bytes) : bytes :=
  chunk_loop 16 (fun x s => zip_into xor8 (mul2_neon x) s) q_step_generic (length q) q d.

(** The bytes of P and Q past the last whole vector, one at a time. *)
Definition pq_tail_byte (strips : list bytes) (j : Z) : Z * Z :=
  match rev strips with
  | [] => (0, 0)
  | last :: rest =>
      foldl (fun '(pa, qa) s => (xor8 pa (at_byte s j), xor8 (gf_mul2 qa) (at_byte s j)))
        (at_byte last j, at_byte last j) rest
  end.
Definition pq_tail (strips : list bytes) (from len : Z) : bytes * bytes :=
  (map (fun j => fst (pq_tail_byte strips j)) (zrange from len),
   map (fun j => snd (pq_tail_byte strips j)) (zrange from len)).

(** One vector-wide column: P and Q kept in registers. *)
Definition pq_column (mul2v : bytes -> bytes) (w i : Z) (strips : list bytes) : bytes * bytes :=
  match rev strips with
  | [] => ([], [])
  | last :: rest =>
      foldl (fun '(pa, qa) s =>
               (zip_into xor8 pa (slice i w s), zip_into xor8 (mul2v qa) (slice i w s)))
        (slice i w last, slice i w last) rest
  end.

Fixpoint pq_vec (mul2v : bytes -> bytes) (w : Z) (fuel : nat) (strips : list bytes) (i len : Z) : bytes * bytes :=
  match fuel with
  | O => pq_tail strips i len
  | S fuel =>
      if i + w <=? len then
        let '(pa, qa) := pq_column mul2v w i strips in
        let '(p, q) := pq_vec mul2v w fuel strips (i + w) len in
        (pa ++ p, qa ++ q)
      else pq_tail strips i len
  end.
Definition pq_avx2 (strips : list bytes) (len : Z) : bytes * bytes :=
  pq_vec mul2_avx2 32 (Z.to_nat len) strips 0 len.
Definition pq_neon (strips : list bytes) (len : Z) : bytes * bytes :=
  pq_vec mul2_neon 16 (Z.to_nat len) strips 0 len.

(** ** Dispatch *)

Inductive SimdLevel := Avx512 | Avx2 | Neon | Generic.
(** The architecture the crate is compiled for ([cfg(target_arch)]). *)
Inductive arch := X86_64 | Aarch64 | OtherArch.

Inductive kernel := KAvx2 | KNeon | KGeneric.
(** Which arm of the [match level] a build for [a] takes. *)
Definition kernel_of (a : arch) (level : SimdLevel) : kernel :=
  match a, level with
  | X86_64, (Avx2 | Avx512) => KAvx2
  | Aarch64, Neon => KNeon
  | _, _ => KGeneric
  end.

(** What [is_x86_feature_detected!] answers is the machine's. *)
Definition detect_simd (a : arch) (avx512f avx2 : bool) : SimdLevel :=
  match a with
  | X86_64 => if avx512f then Avx512 else if avx2 then Avx2 else Generic
  | Aarch64 => Neon
  | OtherArch => Generic
  end.

Section Engine.
Context (a : arch).

Definition xor_parity_at (level : SimdLevel) (strips : list bytes) : bytes :=
  match kernel_of a level with
  | KAvx2 => xor_parity_avx2 strips
  | KNeon => xor_parity_neon strips
  | KGeneric => xor_parity_generic strips
  end.

(** The asserts: [None] is the panic. *)
Definition compute_xor_parity (level : SimdLevel) (data_strips : list bytes) (len : Z) : option bytes :=
  if (0 <? zlen data_strips) && forallb (fun s => zlen s =? len) data_strips
  then Some (xor_parity_at level data_strips) else None.

Definition reconstruct_xor := compute_xor_parity.

Definition xor_in_place_at (level : SimdLevel) (dst src : bytes) : bytes :=
  match kernel_of a level with
  | KAvx2 => xor_in_place_avx2 dst src
  | KNeon => xor_in_place_neon dst src
  | KGeneric => xor_in_place_generic dst src
  end.

(** P (its value is dropped by callers that do not ask for it) and Q. *)
Definition pq_at (level : SimdLevel) (strips : list bytes) (len : Z) : bytes * bytes :=
  match kernel_of a level with
  | KAvx2 => pq_avx2 strips len
  | KNeon => pq_neon strips len
  | KGeneric => (xor_parity_generic strips, compute_q_syndrome_generic len strips)
  end.

Definition compute_raid6_parity (level : SimdLevel) (data_strips : list bytes) (len : Z) : option (bytes * bytes) :=
  if (0 <? zlen data_strips) && forallb (fun s => zlen s =? len) data_strips
  then Some (pq_at level data_strips len) else None.

Definition q_step_at (level : SimdLevel) (q d : bytes) : bytes :=
  match kernel_of a level with
  | KAvx2 => q_step_avx2 q d
  | KNeon => q_step_neon q d
  | KGeneric => q_step_generic q d
  end.

Definition gf_mul_xor_at (level : SimdLevel) (dst src : bytes) (c : Z) : bytes :=
  if c =? 0 then dst else
  match kernel_of a level with
  | KAvx2 => if c =? 1 then xor_in_place_avx2 dst src
             else gf_mul_avx2 (nibble_tables c) (Some src) dst
  | KNeon => if c =? 1 then xor_in_place_neon dst src
             else gf_mul_neon (nibble_tables c) (Some src) dst
  | KGeneric => gf_mul_xor_generic dst src c
  end.

Definition gf_scale_at (level : SimdLevel) (buf : bytes) (c : Z) : bytes :=
  match kernel_of a level with
  | KAvx2 => gf_mul_avx2 (nibble_tables c) None buf
  | KNeon => gf_mul_neon (nibble_tables c) None buf
  | KGeneric => gf_scale_generic buf c
  end.

Definition q_update (level : SimdLevel) (q delta : bytes) (index : Z) : bytes :=
  gf_mul_xor_at level q delta (gf_pow2 index).
End Engine.

(** ** Locating a single bad strip *)

Inductive Raid6Fault := FNone | FP | FQ | FData (z : Z) | FSeveral.

(** The loop over the byte pairs, carrying the index seen so far. *)
Fixpoint locate_loop (z : option Z) (pq : list (Z * Z)) : option (option Z) :=
  match pq with
  | [] => Some z
  | (p, q) :: r =>
      if (p =? 0) && (q =? 0) then locate_loop z r
      else if (p =? 0) || (q =? 0) then None
      else
        let zi := (gf_log q + 255 - gf_log p) mod 255 in
        match z with
        | Some z0 => if z0 =? zi then locate_loop (Some zi) r else None
        | None => locate_loop (Some zi) r
        end
  end.

Definition locate_raid6_fault (pd qd : bytes) (data_count : Z) : Raid6Fault :=
  let p_bad := existsb (fun b => negb (b =? 0)) pd in
  let q_bad := existsb (fun b => negb (b =? 0)) qd in
  match p_bad, q_bad with
  | false, false => FNone
  | true, false => FP
  | false, true => FQ
  | true, true =>
      match locate_loop None (zip pd qd) with
      | Some (Some z) => if z <? data_count then FData z else FSeveral
      | _ => FSeveral
      end
  end.

(** ** Recovery of a stripe *)

Record Unrecoverable := { un_missing : Z; un_tolerated : Z }.

(** [ss_q = None] is RAID-5; [Some None] a RAID-6 stripe whose Q is lost. *)
Record StripeStrips := SS { ss_data : list (option bytes); ss_p : option bytes; ss_q : option (option bytes) }.

(** [iter().enumerate().filter(is_none).map(index)]. *)
Fixpoint missing_from {A} (i : nat) (l : list (option A)) : list nat :=
  match l with
  | [] => []
  | None :: r => i :: missing_from (S i) r
  | Some _ :: r => missing_from (S i) r
  end.

Definition or_zero (len : Z) (d : option bytes) : bytes := default (zeros len) d.
(** [d.as_ref().unwrap()]: never taken on [None] by [recover]. *)
Definition unwrap (d : option bytes) : bytes := default [] d.

Section Recover.
Context (a : arch) (simd : SimdLevel).

(** XOR every strip but [x] into [out]. *)
Definition xor_others (x : nat) (data : list (option bytes)) (out : bytes) : bytes :=
  foldl (fun out '(i, d) => if decide (i = x) then out else xor_in_place_at a simd out (unwrap d))
    out (imap pair data).

(** The data strips filled in, or [None] on the [unreachable!] arm. *)
Definition recover_data (len : Z) (s : StripeStrips) : option (list (option bytes)) :=
  let data := ss_data s in
  match missing_from 0 data, bool_decide (ss_p s = None), bool_decide (ss_q s = Some None) with
  | [], _, _ => Some data
  | [x], false, _ =>
      Some (<[x := Some (xor_others x data (unwrap (ss_p s)))]> data)
  | [x], true, false =>
      let qx := foldl (q_step_at a simd) (zeros len) (rev (map (or_zero len) data)) in
      let qx := xor_in_place_at a simd qx (unwrap (default None (ss_q s))) in
      let qx := gf_scale_at a simd qx (gf_inv (gf_pow2 (Z.of_nat x))) in
      Some (<[x := Some qx]> data)
  | [x; y], false, false =>
      let '(pxy, qxy) := pq_at a simd (map (or_zero len) data) len in
      let pxy := xor_in_place_at a simd pxy (unwrap (ss_p s)) in
      let qxy := xor_in_place_at a simd qxy (unwrap (default None (ss_q s))) in
      let gyx := gf_pow2 (Z.of_nat (y - x)) in
      let denom := gf_inv (xor8 gyx 1) in
      let ca := gf_mul gyx denom in
      let cb := gf_mul (gf_inv (gf_pow2 (Z.of_nat x))) denom in
      let dx := gf_mul_xor_at a simd (zeros len) pxy ca in
      let dx := gf_mul_xor_at a simd dx qxy cb in
      let dy := xor_in_place_at a simd pxy dx in
      Some (<[y := Some dy]> (<[x := Some dx]> data))
  | _, _, _ => None
  end.

Definition recover (len : Z) (s : StripeStrips) : result Unrecoverable (option StripeStrips) :=
  let raid6 := bool_decide (ss_q s <> None) in
  let tolerated := if raid6 then 2 else 1 in
  let p_lost := bool_decide (ss_p s = None) in
  let q_lost := bool_decide (ss_q s = Some None) in
  let missing := zlen (missing_from 0 (ss_data s)) + (if p_lost then 1 else 0) + (if q_lost then 1 else 0) in
  if tolerated <? missing then Err {| un_missing := missing; un_tolerated := tolerated |}
  else
    match recover_data len s with
    | None => Ok None
    | Some data =>
        let refs := map unwrap data in
        Ok (Some (SS data
          (if p_lost then compute_xor_parity a simd refs len else ss_p s)
          (if q_lost then Some (Some (snd (pq_at a simd refs len))) else ss_q s)))
    end.
End Recover.
