(* ===== verification/ParityKernels.v ===== *)
(** The vector routines of [raid/parity.rs] compute what the portable ones do,
    and the portable eight-lane arithmetic is the byte arithmetic of the field. *)

From S2P Require Import Prelude Gf256 Parity.
Import Tab.

(** ** Bits of a number split at its low byte *)

Lemma testbit_cat x a i :
  byte x -> 0 <= i ->
  Z.testbit (x + 256 * a) i = if i <? 8 then Z.testbit x i else Z.testbit a (i - 8).
Proof.
  intros [? ?] Hi. destruct (Z.ltb_spec i 8).
  - rewrite <- (Z.mod_pow2_bits_low _ 8) by done. f_equal.
    change (2 ^ 8) with 256. rewrite Z.mul_comm, Z.mod_add by lia. by apply Z.mod_small.
  - replace i with ((i - 8) + 8) at 1 by lia. rewrite <- Z.div_pow2_bits by lia. f_equal.
    change (2 ^ 8) with 256. rewrite Z.mul_comm, Z.div_add by lia.
    rewrite (Z.div_small x) by lia. lia.
Qed.

Lemma lxor_cat x y a b :
  byte x -> byte y -> Z.lxor (x + 256 * a) (y + 256 * b) = xor8 x y + 256 * Z.lxor a b.
Proof.
  intros Hx Hy. apply Z.bits_inj'. intros i Hi.
  rewrite Z.lxor_spec, !testbit_cat by auto.
  destruct (i <? 8); [unfold xor8|]; by rewrite Z.lxor_spec.
Qed.

Lemma land_byte x y : byte x -> 0 <= y -> byte (Z.land x y).
Proof.
  intros [? ?] ?. assert (0 <= Z.land x y) by (apply Z.land_nonneg; lia). split; [done|].
  assert (Z.land x y <= x); [|lia]. apply Z.ldiff_le; [done|].
  rewrite Z.ldiff_land, (Z.land_comm x), <- Z.land_assoc.
  by rewrite Z.land_lnot_diag, Z.land_0_r.
Qed.

Lemma land_cat x y a b :
  byte x -> byte y -> Z.land (x + 256 * a) (y + 256 * b) = Z.land x y + 256 * Z.land a b.
Proof.
  intros Hx Hy. apply Z.bits_inj'. intros i Hi.
  pose proof (land_byte x y Hx ltac:(unfold byte in Hy; lia)).
  rewrite Z.land_spec, !testbit_cat by auto.
  destruct (i <? 8); by rewrite Z.land_spec.
Qed.

(** ** Lists of bytes *)

Lemma zip_into_app f d1 d2 s1 s2 :
  length d1 = length s1 ->
  zip_into f (d1 ++ d2) (s1 ++ s2) = zip_into f d1 s1 ++ zip_into f d2 s2.
Proof.
  revert s1. induction d1 as [|x d1 IH]; intros [|y s1] Hl; try discriminate; [done|].
  cbn. f_equal. apply IH. cbn in Hl. lia.
Qed.

Lemma zip_into_bytes f d s :
  (forall x y, byte x -> byte y -> byte (f x y)) ->
  all_bytes d -> all_bytes s -> all_bytes (zip_into f d s).
Proof.
  intros Hf Hd. revert s. induction Hd as [|x d Hx Hd IH]; intros s Hs; [constructor|].
  destruct Hs as [|y s Hy Hs]; cbn; constructor; auto. by apply IH.
Qed.

Lemma zip_into_ext f g d s :
  (forall x y, byte x -> byte y -> f x y = g x y) ->
  all_bytes d -> all_bytes s -> zip_into f d s = zip_into g d s.
Proof.
  intros Hf Hd. revert s. induction Hd as [|x d Hx Hd IH]; intros s Hs; [done|].
  destruct Hs as [|y s Hy Hs]; cbn; [done|]. f_equal; auto.
Qed.

Lemma zip_into_map_l f g d s :
  length d = length s -> zip_into f (map g d) s = zip_into (fun x y => f (g x) y) d s.
Proof.
  revert s. induction d as [|x d IH]; intros [|y s] Hl; try discriminate; [done|].
  cbn. f_equal. apply IH. cbn in Hl. lia.
Qed.

Lemma zip_into_map_lr f (g h : Z -> Z) (l : bytes) :
  zip_into f (map g l) (map h l) = map (fun x => f (g x) (h x)) l.
Proof. induction l; cbn; [done|]. by f_equal. Qed.

Lemma zip_into_swap f g d s :
  (forall x y, f x y = g y x) -> length d = length s -> zip_into f d s = zip_into g s d.
Proof.
  intros Hf. revert s. induction d as [|x d IH]; intros [|y s] Hl; try discriminate; [done|].
  cbn. f_equal; [done|]. apply IH. cbn in Hl. lia.
Qed.

(** ** Chunked loops are bytewise loops *)

Section Chunks.
Context (w : nat) (fv ft : bytes -> bytes -> bytes) (f : Z -> Z -> Z).
Context (Hfv : forall d s, length d = w -> length s = w -> all_bytes d -> all_bytes s ->
                           fv d s = zip_into f d s).
Context (Hft : forall d s, length d = length s -> all_bytes d -> all_bytes s ->
                           ft d s = zip_into f d s).

Lemma chunk_loop_zip fuel d s :
  length d = length s -> all_bytes d -> all_bytes s ->
  chunk_loop w fv ft fuel d s = zip_into f d s.
Proof using Hft Hfv.
  revert d s. induction fuel as [|fuel IH]; intros d s Hl Hd Hs; cbn [chunk_loop]; [auto|].
  destruct (Nat.leb_spec w (length d)); [|auto].
  rewrite Hfv, IH; try (by apply Forall_take); try (by apply Forall_drop);
    rewrite ?length_take, ?length_drop; try lia.
  rewrite <- zip_into_app by (rewrite !length_take; lia). by rewrite !take_drop.
Qed.
End Chunks.

(** ** The u64 lanes *)

Lemma le_val_lxor d s :
  length d = length s -> all_bytes d -> all_bytes s ->
  Z.lxor (le_val d) (le_val s) = le_val (zip_into xor8 d s).
Proof.
  intros Hl Hd. revert s Hl. induction Hd as [|x d Hx Hd IH]; intros [|y s] Hl Hs; try discriminate; [done|].
  inversion Hs; subst. cbn [le_val zip_into]. rewrite lxor_cat by done.
  rewrite IH; [done| |done]. cbn in Hl. lia.
Qed.

Lemma lanes_xor_ok d s :
  length d = 8%nat -> length s = 8%nat -> all_bytes d -> all_bytes s ->
  lanes_u64 Z.lxor d s = zip_into xor8 d s.
Proof.
  intros Hd Hs Bd Bs. unfold lanes_u64. rewrite le_val_lxor by (auto; lia).
  rewrite <- Hd, <- (length_zip_into xor8 d s). apply le_bytes_le_val.
  by apply zip_into_bytes; auto.
Qed.

Lemma le_val_map_mul k l : le_val (map (Z.mul k) l) = k * le_val l.
Proof. induction l as [|x l IH]; cbn [map le_val]; [lia|]. rewrite IH. lia. Qed.

Lemma le_val_land_const m l :
  byte m -> all_bytes l ->
  Z.land (le_val l) (le_val (replicate (length l) m)) = le_val (map (fun b => Z.land b m) l).
Proof.
  intros Hm. induction 1 as [|x l Hx Hl IH]; [done|].
  cbn [length replicate le_val map]. rewrite land_cat by done. by rewrite IH.
Qed.

Lemma land_even_carry k r m :
  (k = 0 \/ k = 1) -> Z.testbit m 0 = false -> Z.land (k + 2 * r) m = Z.land (2 * r) m.
Proof.
  intros Hk Hm. apply Z.bits_inj'. intros i Hi. rewrite !Z.land_spec.
  destruct (Z.eq_dec i 0) as [->|Hi0]; [by rewrite Hm, !andb_false_r|]. f_equal.
  replace i with (Z.succ (i - 1)) by lia. rewrite Z.testbit_even_succ by lia.
  destruct Hk as [->| ->]; [by rewrite Z.add_0_l, Z.testbit_even_succ by lia|].
  by rewrite Z.add_comm, Z.testbit_odd_succ by lia.
Qed.

Lemma le_val_double_land l :
  all_bytes l ->
  Z.land (2 * le_val l) (le_val (replicate (length l) 254)) = le_val (map (fun b => Z.land (2 * b mod 256) 254) l).
Proof.
  induction 1 as [|x l Hx Hl IH]; [done|].
  cbn [length replicate le_val map]. unfold byte in Hx.
  pose proof (Z.div_mod (2 * x) 256 ltac:(lia)) as Hdm.
  pose proof (Z.mod_pos_bound (2 * x) 256 ltac:(lia)).
  assert (2 * x / 256 = 0 \/ 2 * x / 256 = 1) as Hk.
  { assert (0 <= 2 * x / 256 < 2); [|lia].
    split; [apply Z.div_pos; lia | apply Z.div_lt_upper_bound; lia]. }
  replace (2 * (x + 256 * le_val l)) with (2 * x mod 256 + 256 * (2 * x / 256 + 2 * le_val l)) by lia.
  rewrite land_cat by (unfold byte; lia).
  rewrite land_even_carry; [by rewrite IH|done|].
  destruct (length l) as [|n]; [done|]. cbn [replicate le_val].
  rewrite testbit_cat by (unfold byte; lia). done.
Qed.

Lemma gf_mul2_x8_lanes d :
  length d = 8%nat -> all_bytes d -> gf_mul2_x8 (le_val d) = le_val (map gf_mul2 d).
Proof.
  intros Hl Hd. unfold gf_mul2_x8, wrap.
  assert (Z.land ((Z.shiftl (le_val d) 1) mod 2 ^ 64) 18374403900871474942
          = Z.land (2 * le_val d) (le_val (replicate (length d) 254))) as ->.
  { rewrite <- Z.land_ones, <- Z.land_assoc by lia. rewrite Hl. cbn -[le_val Z.land Z.mul Z.shiftl].
    rewrite Z.shiftl_mul_pow2 by lia. f_equal. lia. }
  assert (9259542123273814144 = le_val (replicate (length d) 128)) as -> by (by rewrite Hl).
  rewrite le_val_land_const, le_val_double_land by (done || (unfold byte; lia)).
  rewrite Z.shiftr_div_pow2 by lia. change (2 ^ 7) with 128.
  assert (map (fun b => Z.land b 128) d = map (Z.mul 128) (map (fun b => Z.land (Z.shiftr b 7) 1) d)) as ->.
  { rewrite map_map. apply map_ext_Forall. eapply Forall_impl; [exact Hd|]. intros b Hb. cbn beta.
    by_bytes1 (fun b => Z.land b 128 =? 128 * Z.land (Z.shiftr b 7) 1) b Hb. }
  rewrite le_val_map_mul, (Z.mul_comm 128), Z.div_mul by lia.
  rewrite (Z.mul_comm _ 29), <- le_val_map_mul, map_map.
  rewrite le_val_lxor; [|by rewrite !length_map| |].
  - rewrite zip_into_map_lr. f_equal. apply map_ext_Forall. eapply Forall_impl; [exact Hd|].
    intros b Hb. cbn beta.
    by_bytes1 (fun b => xor8 (Z.land (2 * b mod 256) 254) (29 * Z.land (Z.shiftr b 7) 1) =? gf_mul2 b) b Hb.
  - apply Forall_map. eapply Forall_impl; [exact Hd|]. intros b Hb. cbn.
    apply land_byte; [|lia]. apply Z.mod_pos_bound. lia.
  - apply Forall_map. eapply Forall_impl; [exact Hd|]. intros b Hb. cbn beta. apply is_byte_spec.
    refine (all_byte1_spec (fun b => is_byte (29 * Z.land (Z.shiftr b 7) 1)) b _ Hb). vm_compute. reflexivity.
Qed.

(** ** Every routine as a bytewise one *)

(** [q = g·q ^ d] on one byte. *)
Definition q1 (q d : Z) : Z := xor8 (gf_mul2 q) d.

Lemma q1_byte q d : byte q -> byte d -> byte (q1 q d).
Proof. unfold q1. auto. Qed.
#[local] Hint Resolve q1_byte : core.

Section Bytewise.
Context (dst src : bytes) (Hl : length dst = length src) (Hd : all_bytes dst) (Hs : all_bytes src).

Lemma xor_generic_zip : xor_in_place_generic dst src = zip_into xor8 dst src.
Proof using Hl Hd Hs. apply chunk_loop_zip; auto using lanes_xor_ok. Qed.

Lemma xor_avx2_zip : xor_in_place_avx2 dst src = zip_into xor8 dst src.
Proof using Hl Hd Hs. by apply chunk_loop_zip. Qed.

Lemma xor_neon_zip : xor_in_place_neon dst src = zip_into xor8 dst src.
Proof using Hl Hd Hs. by apply chunk_loop_zip. Qed.
End Bytewise.

Lemma lanes_q_ok d s :
  length d = 8%nat -> length s = 8%nat -> all_bytes d -> all_bytes s ->
  lanes_u64 (fun x s => Z.lxor (gf_mul2_x8 x) s) d s = zip_into q1 d s.
Proof.
  intros Hd Hs Bd Bs. unfold lanes_u64. rewrite gf_mul2_x8_lanes by done.
  assert (all_bytes (map gf_mul2 d)) as Bm.
  { apply Forall_map. eapply Forall_impl; [exact Bd|]. intros. by apply gf_mul2_byte. }
  rewrite le_val_lxor by (rewrite ?length_map; auto; lia).
  rewrite zip_into_map_l by lia.
  rewrite <- Hd, <- (length_zip_into q1 d s). apply le_bytes_le_val.
  by apply zip_into_bytes; auto.
Qed.

Lemma q_generic_zip q d :
  length q = length d -> all_bytes q -> all_bytes d -> q_step_generic q d = zip_into q1 q d.
Proof. intros. apply chunk_loop_zip; auto using lanes_q_ok. Qed.

Lemma mul2_avx2_map x : all_bytes x -> mul2_avx2 x = map gf_mul2 x.
Proof.
  intros Hx. apply map_ext_Forall. eapply Forall_impl; [exact Hx|]. intros b Hb. cbn beta.
  by_bytes1 (fun b => xor8 ((b + b) mod 256) (Z.land (sign_mask b) 29) =? gf_mul2 b) b Hb.
Qed.

Lemma mul2_neon_map x : all_bytes x -> mul2_neon x = map gf_mul2 x.
Proof.
  intros Hx. apply map_ext_Forall. eapply Forall_impl; [exact Hx|]. intros b Hb. cbn beta.
  by_bytes1 (fun b => xor8 (Z.land (Z.shiftl b 1) 255) (Z.land (sign_mask b) 29) =? gf_mul2 b) b Hb.
Qed.

Lemma q_avx2_zip q d :
  length q = length d -> all_bytes q -> all_bytes d -> q_step_avx2 q d = zip_into q1 q d.
Proof.
  intros. apply chunk_loop_zip; auto using q_generic_zip.
  intros. rewrite mul2_avx2_map, zip_into_map_l by (done || lia). done.
Qed.

Lemma q_neon_zip q d :
  length q = length d -> all_bytes q -> all_bytes d -> q_step_neon q d = zip_into q1 q d.
Proof.
  intros. apply chunk_loop_zip; auto using q_generic_zip.
  intros. rewrite mul2_neon_map, zip_into_map_l by (done || lia). done.
Qed.

(** ** Multiplying by a constant *)

Lemma nth_map_zrange f n i : 0 <= i < n -> at_byte (map f (zrange 0 n)) i = f i.
Proof.
  intros Hi. unfold at_byte, zrange. rewrite nth_lookup, list_lookup_fmap.
  rewrite lookup_zseq by lia. cbn. f_equal. lia.
Qed.

Lemma mul_table_at c b : byte b -> at_byte (mul_table c) b = gf_mul c b.
Proof. intros Hb. by apply nth_map_zrange. Qed.

Lemma low_nibble b : byte b -> 0 <= Z.land b 15 < 16.
Proof.
  intros Hb. assert ((0 <=? Z.land b 15) && (Z.land b 15 <? 16) = true) as H; [|bprop; lia].
  refine (all_byte1_spec (fun b => (0 <=? Z.land b 15) && (Z.land b 15 <? 16)) b _ Hb). vm_compute. done.
Qed.

Lemma high_nibble b : byte b -> 0 <= Z.shiftr b 4 < 16.
Proof.
  intros Hb. assert ((0 <=? Z.shiftr b 4) && (Z.shiftr b 4 <? 16) = true) as H; [|bprop; lia].
  refine (all_byte1_spec (fun b => (0 <=? Z.shiftr b 4) && (Z.shiftr b 4 <? 16)) b _ Hb). vm_compute. done.
Qed.

Lemma nibble1_mul c b : byte c -> byte b -> nibble1 (nibble_tables c) b = gf_mul c b.
Proof.
  intros Hc Hb. pose proof (low_nibble b Hb). pose proof (high_nibble b Hb).
  unfold nibble1, nibble_tables. cbn [fst snd]. rewrite !nth_map_zrange by lia.
  rewrite <- gf_mul_xor_r; [f_equal|done|unfold byte; lia|].
  - by_bytes1 (fun b => xor8 (Z.land b 15) (Z.land (Z.shiftl (Z.shiftr b 4) 4) 255) =? b) b Hb.
  - apply is_byte_spec.
    refine (all_byte1_spec (fun b => is_byte (Z.land (Z.shiftl (Z.shiftr b 4) 4) 255)) b _ Hb).
    vm_compute. done.
Qed.

Lemma shuffle_low t b : byte b -> shuffle1 t (Z.land b 15) = at_byte t (Z.land b 15).
Proof.
  intros Hb. pose proof (low_nibble b Hb). unfold shuffle1.
  destruct (Z.ltb_spec (Z.land b 15) 128); [|lia].
  by rewrite <- Z.land_assoc, Z.land_diag.
Qed.

Lemma shuffle_high t b : byte b -> shuffle1 t (Z.shiftr b 4) = at_byte t (Z.shiftr b 4).
Proof.
  intros Hb. pose proof (high_nibble b Hb). unfold shuffle1.
  destruct (Z.ltb_spec (Z.shiftr b 4) 128); [|lia]. f_equal.
  by_bytes1 (fun b => Z.land (Z.shiftr b 4) 15 =? Z.shiftr b 4) b Hb.
Qed.

Lemma srli_pairs x (n : nat) :
  length x = (2 * n)%nat -> all_bytes x ->
  map (fun b => Z.land b 15) (srli_epi16_4 x) = map (fun b => Z.shiftr b 4) x.
Proof.
  revert x. induction n as [|n IH]; intros x Hl Hx.
  - destruct x; [done|]. cbn in Hl. lia.
  - destruct x as [|b0 [|b1 r]]; cbn in Hl; try lia.
    inversion Hx as [|? ? H0 Hx1]; subst. inversion Hx1 as [|? ? H1 Hr]; subst.
    cbn [srli_epi16_4]. rewrite map_app, IH by (done || lia).
    cbn [le_bytes app map le_val]. f_equal; [|f_equal].
    + by_bytes2 (fun b0 b1 => Z.land (Z.shiftr (b0 + 256 * (b1 + 256 * 0)) 4 mod 256) 15 =? Z.shiftr b0 4) b0 b1 H0 H1.
    + by_bytes2 (fun b0 b1 => Z.land ((Z.shiftr (b0 + 256 * (b1 + 256 * 0)) 4 / 256) mod 256) 15 =? Z.shiftr b1 4) b0 b1 H0 H1.
Qed.

Lemma nibbles_neon_map c x :
  byte c -> all_bytes x -> nibbles_neon (nibble_tables c) x = map (gf_mul c) x.
Proof.
  intros Hc Hx. unfold nibbles_neon. rewrite zip_into_map_lr. apply map_ext_Forall.
  eapply Forall_impl; [exact Hx|]. intros b Hb. cbn beta.
  rewrite shuffle_low, shuffle_high by done. by apply nibble1_mul.
Qed.

Lemma nibbles_avx2_map c x (n : nat) :
  length x = (2 * n)%nat -> byte c -> all_bytes x -> nibbles_avx2 (nibble_tables c) x = map (gf_mul c) x.
Proof.
  intros Hl Hc Hx. unfold nibbles_avx2.
  rewrite <- (map_map (fun b => Z.land b 15) (shuffle1 (snd (nibble_tables c))) (srli_epi16_4 x)).
  rewrite (srli_pairs _ n), map_map by done. by apply nibbles_neon_map.
Qed.

(** [d ^= c·s] and [c·d] on one byte. *)
Definition mx1 (c d s : Z) : Z := xor8 d (gf_mul c s).

Section MulVec.
Context (w : nat) (nib : list Z * list Z -> bytes -> bytes) (c : Z) (Hc : byte c).
Context (Hnib : forall x, length x = w -> all_bytes x -> nib (nibble_tables c) x = map (gf_mul c) x).

Lemma gf_mul_vec_some dst src :
  length dst = length src -> all_bytes dst -> all_bytes src ->
  gf_mul_vec w nib (nibble_tables c) (Some src) dst = zip_into (mx1 c) dst src.
Proof using Hc Hnib.
  intros Hl Hd Hs. cbn [gf_mul_vec]. apply chunk_loop_zip; try done.
  - intros d s Ld Ls Bd Bs. rewrite Hnib by done. rewrite zip_into_map_l by lia.
    apply zip_into_swap; [|lia]. intros. apply xor8_comm.
  - intros d s Ls Bd Bs. cbn [gf_mul_tail]. apply zip_into_ext; [|done..].
    intros x y ? ?. unfold mx1. by rewrite nibble1_mul.
Qed.

Lemma gf_mul_vec_none dst :
  all_bytes dst -> gf_mul_vec w nib (nibble_tables c) None dst = map (gf_mul c) dst.
Proof using Hc Hnib.
  intros Hd. cbn [gf_mul_vec]. rewrite (chunk_loop_zip w _ _ (fun x _ => gf_mul c x)); try done.
  - clear Hd. induction dst as [|x l IH]; cbn; [done|]. by rewrite IH.
  - intros d s Ld Ls Bd Bs. rewrite Hnib by done. clear -Ld Ls. subst w.
    revert s Ls. induction d as [|x d IH]; intros [|y s] Ls; try discriminate; [done|].
    cbn. f_equal. apply IH. cbn in Ls. lia.
  - intros d s Ls Bd Bs. cbn [gf_mul_tail].
    revert s Ls Bs. induction Bd as [|x d Hx Bd IH]; intros [|y s] Ls Bs; try discriminate; [done|].
    cbn [map zip_into]. f_equal; [by apply nibble1_mul|]. inversion Bs. apply IH; [|done]. cbn in Ls. lia.
Qed.
End MulVec.

Lemma gf_mul_xor_generic_zip c dst src :
  byte c -> length dst = length src -> all_bytes dst -> all_bytes src ->
  gf_mul_xor_generic dst src c = zip_into (mx1 c) dst src.
Proof.
  intros Hc Hl Hd Hs. unfold gf_mul_xor_generic.
  destruct (Z.eqb_spec c 1) as [->|_].
  - rewrite xor_generic_zip by done. apply zip_into_ext; [|done..].
    intros. unfold mx1. by rewrite gf_mul_1_l.
  - apply zip_into_ext; [|done..]. intros. unfold mx1. by rewrite mul_table_at.
Qed.

Lemma zip_mx0 dst src : all_bytes dst -> all_bytes src -> zip_into (mx1 0) dst src = dst.
Proof.
  intros Hd. revert src. induction Hd as [|x d Hx Hd IH]; intros [|y s] Hs; cbn; [done..|].
  inversion Hs. unfold mx1 at 1. rewrite gf_mul_0_l, xor8_0_r. f_equal. auto.
Qed.

Lemma zip_mx1 dst src : all_bytes dst -> all_bytes src -> zip_into (mx1 1) dst src = zip_into xor8 dst src.
Proof. intros. apply zip_into_ext; [|done..]. intros. unfold mx1. by rewrite gf_mul_1_l. Qed.

(** ** The dispatched routines *)

Section Dispatch.
Context (a : arch) (level : SimdLevel).

Lemma xor_in_place_at_zip dst src :
  length dst = length src -> all_bytes dst -> all_bytes src ->
  xor_in_place_at a level dst src = zip_into xor8 dst src.
Proof.
  intros. unfold xor_in_place_at.
  destruct (kernel_of a level); auto using xor_avx2_zip, xor_neon_zip, xor_generic_zip.
Qed.

Lemma q_step_at_zip q d :
  length q = length d -> all_bytes q -> all_bytes d -> q_step_at a level q d = zip_into q1 q d.
Proof.
  intros. unfold q_step_at.
  destruct (kernel_of a level); auto using q_avx2_zip, q_neon_zip, q_generic_zip.
Qed.

Lemma gf_mul_xor_at_zip c dst src :
  byte c -> length dst = length src -> all_bytes dst -> all_bytes src ->
  gf_mul_xor_at a level dst src c = zip_into (mx1 c) dst src.
Proof.
  intros Hc Hl Hd Hs. unfold gf_mul_xor_at.
  destruct (Z.eqb_spec c 0) as [->|_]; [by rewrite zip_mx0|].
  destruct (kernel_of a level); [| |by apply gf_mul_xor_generic_zip];
    (destruct (Z.eqb_spec c 1) as [->|_];
     [rewrite zip_mx1 by done; by (apply xor_avx2_zip || apply xor_neon_zip)|]);
    apply gf_mul_vec_some; auto.
  - intros. by apply (nibbles_avx2_map _ _ 16).
  - intros. by apply nibbles_neon_map.
Qed.

Lemma gf_scale_at_map c buf :
  byte c -> all_bytes buf -> gf_scale_at a level buf c = map (gf_mul c) buf.
Proof.
  intros Hc Hb. unfold gf_scale_at. destruct (kernel_of a level).
  - apply gf_mul_vec_none; auto. intros. by apply (nibbles_avx2_map _ _ 16).
  - apply gf_mul_vec_none; auto. intros. by apply nibbles_neon_map.
  - apply map_ext_Forall. eapply Forall_impl; [exact Hb|]. intros b Hbb. by apply mul_table_at.
Qed.
End Dispatch.
