(* ===== verification/ParityRecover.v ===== *)
(** What P and Q are, byte column by byte column, and that [recover] and
    [locate_raid6_fault] of [raid/parity.rs] undo the loss or the damage they are
    meant for, at every SIMD level. *)

From Stdlib Require Import Field.
From S2P Require Import Prelude Gf256 Parity ParityKernels.
Import Tab.

(** ** Columns *)

(** Byte [j] of every strip. *)
Definition col (strips : list bytes) (j : Z) : list Z := map (fun s => at_byte s j) strips.
(** The XOR of a column. *)
Definition xsum (c : list Z) : Z := foldr xor8 0 c.
(** Horner's [q = g·q ^ d], from the last strip down. *)
Definition horner (c : list Z) : Z := foldr (fun d acc => q1 acc d) 0 c.
(** The textbook sum [Σ g^(k+i) · c_i]. *)
Fixpoint weighted (k : Z) (c : list Z) : Z :=
  match c with
  | [] => 0
  | d :: c => xor8 (gf_mul (gf_pow2 k) d) (weighted (k + 1) c)
  end.

(** A buffer given byte by byte. *)
Definition tab (len : Z) (f : Z -> Z) : bytes := map f (zrange 0 len).

Definition strips_ok (len : Z) (D : list bytes) : Prop :=
  Forall (fun s => zlen s = len /\ all_bytes s) D.

#[export] Instance all_bytes_dec l : Decision (all_bytes l).
Proof. unfold all_bytes. apply _. Defined.
#[export] Instance strips_ok_dec len D : Decision (strips_ok len D).
Proof. unfold strips_ok. apply _. Defined.

Lemma xsum_byte c : Forall byte c -> byte (xsum c).
Proof. induction 1; [done|]. cbn. by apply xor8_byte. Qed.
Lemma horner_byte c : Forall byte c -> byte (horner c).
Proof. induction 1; [done|]. cbn. by apply q1_byte. Qed.
#[local] Hint Resolve xsum_byte horner_byte : core.

Lemma length_tab len f : 0 <= len -> length (tab len f) = Z.to_nat len.
Proof. intros. unfold tab, zrange. rewrite length_map, length_zseq. lia. Qed.

Lemma zlen_tab len f : 0 <= len -> zlen (tab len f) = len.
Proof. intros. unfold zlen. rewrite length_tab; lia. Qed.

Lemma tab_ext len f g : (forall j, 0 <= j < len -> f j = g j) -> tab len f = tab len g.
Proof.
  intros H. apply map_ext_Forall, Forall_forall. intros j Hj%elem_of_zrange. auto.
Qed.

Lemma tab_bytes len f : (forall j, 0 <= j < len -> byte (f j)) -> all_bytes (tab len f).
Proof. intros H. apply Forall_map, Forall_forall. intros j Hj%elem_of_zrange. auto. Qed.

Lemma at_tab len f j : 0 <= j < len -> at_byte (tab len f) j = f j.
Proof. apply nth_map_zrange. Qed.

Lemma zip_tab len h f g : zip_into h (tab len f) (tab len g) = tab len (fun j => h (f j) (g j)).
Proof. apply zip_into_map_lr. Qed.

Lemma map_tab len h f : map h (tab len f) = tab len (fun j => h (f j)).
Proof. apply map_map. Qed.

Lemma tab_zeros len : zeros len = tab len (fun _ => 0).
Proof.
  unfold zeros, tab, zrange. rewrite Z.sub_0_r.
  enough (forall n z, replicate n 0 = map (fun _ => 0) (zseq z n)) by auto.
  induction n as [|n IH]; intros z; cbn; [done|]. by rewrite <- IH.
Qed.

Lemma slice_as_map s i w :
  0 <= i -> 0 <= w -> i + w <= zlen s -> slice i w s = map (at_byte s) (zrange i (i + w)).
Proof.
  intros Hi Hw Hl. apply list_eq. intros k. unfold slice, zrange, zlen in *.
  destruct (decide (k < Z.to_nat w)%nat).
  - rewrite lookup_take_lt, lookup_drop, list_lookup_fmap, lookup_zseq by lia. cbn.
    unfold at_byte. rewrite nth_lookup. replace (Z.to_nat (i + Z.of_nat k)) with (Z.to_nat i + k)%nat by lia.
    destruct (lookup_lt_is_Some_2 s (Z.to_nat i + k)) as [x Hx]; [lia|]. by rewrite Hx.
  - rewrite (lookup_ge_None_2 (take _ _)) by (rewrite length_take; lia).
    rewrite (lookup_ge_None_2 (map _ _)); [done|]. rewrite length_map, length_zseq. lia.
Qed.

Lemma bytes_as_tab s len : zlen s = len -> s = tab len (at_byte s).
Proof.
  intros <-. rewrite <- (slice_all s (zlen s)) at 1 by done.
  rewrite slice_as_map by (pose proof (zlen_nonneg s); lia). done.
Qed.

Lemma at_byte_byte s j : all_bytes s -> byte (at_byte s j).
Proof.
  intros Hs. unfold at_byte. rewrite nth_lookup.
  destruct (s !! Z.to_nat j) as [x|] eqn:E; cbn; [|done].
  by apply (Forall_lookup_1 _ _ _ _ Hs E).
Qed.
#[local] Hint Resolve at_byte_byte : core.

Lemma col_bytes len D j : strips_ok len D -> Forall byte (col D j).
Proof. intros H. apply Forall_map. eapply Forall_impl; [exact H|]. intros s [_ Hs]. cbn. auto. Qed.
#[local] Hint Resolve col_bytes : core.

Lemma foldl_rev {A B} (f : A -> B -> A) a l : foldl f a (rev l) = foldr (fun x acc => f acc x) a l.
Proof. induction l as [|x l IH]; [done|]. cbn [rev foldr]. by rewrite foldl_app, IH. Qed.

Lemma foldl_xor c x : foldl xor8 x c = xor8 x (xsum c).
Proof.
  revert x. induction c as [|d c IH]; intros x; cbn; [by rewrite xor8_0_r|].
  rewrite IH. by rewrite <- xor8_assoc.
Qed.

Lemma xsum_cons x c : xsum (x :: c) = xor8 x (xsum c).
Proof. done. Qed.

Lemma xsum_app c d : xsum (c ++ d) = xor8 (xsum c) (xsum d).
Proof. induction c as [|x c IH]; [done|]. cbn [app]. by rewrite !xsum_cons, IH, xor8_assoc. Qed.

Lemma xsum_rev c : xsum (rev c) = xsum c.
Proof.
  induction c as [|x c IH]; [done|]. cbn [rev]. rewrite xsum_app, IH, !xsum_cons.
  change (xsum []) with 0. by rewrite (xor8_0_r x), xor8_comm.
Qed.

(** A fold of a bytewise in-place operation over strips, column by column. *)
Lemma foldl_zip_tab len (f : bytes -> bytes -> bytes) (h : Z -> Z -> Z) D (g : Z -> Z) :
  (forall x y, byte x -> byte y -> byte (h x y)) ->
  (forall d s, length d = length s -> all_bytes d -> all_bytes s -> f d s = zip_into h d s) ->
  0 <= len -> strips_ok len D -> (forall j, 0 <= j < len -> byte (g j)) ->
  foldl f (tab len g) D = tab len (fun j => foldl h (g j) (col D j)).
Proof.
  intros Hb Hf Hlen HD. revert g. induction HD as [|s D [Hs Bs] HD IH]; intros g Hg; [done|].
  cbn [foldl]. rewrite Hf.
  - rewrite (bytes_as_tab s len Hs), zip_tab, IH by auto. apply tab_ext. intros j Hj. cbn.
    by rewrite at_tab.
  - rewrite length_tab by done. unfold zlen in Hs. lia.
  - by apply tab_bytes.
  - done.
Qed.

(** ** P and Q *)

Section PQ.
Context (len : Z) (Hlen : 0 <= len).

Definition P_of (D : list bytes) : bytes := tab len (fun j => xsum (col D j)).
Definition Q_of (D : list bytes) : bytes := tab len (fun j => horner (col D j)).

Lemma P_of_ok D : strips_ok len D -> zlen (P_of D) = len /\ all_bytes (P_of D).
Proof using Hlen. intros. split; [by apply zlen_tab|]. apply tab_bytes. eauto. Qed.
Lemma Q_of_ok D : strips_ok len D -> zlen (Q_of D) = len /\ all_bytes (Q_of D).
Proof using Hlen. intros. split; [by apply zlen_tab|]. apply tab_bytes. eauto. Qed.

Lemma xor_parity_with f D :
  (forall d s, length d = length s -> all_bytes d -> all_bytes s -> f d s = zip_into xor8 d s) ->
  D <> [] -> strips_ok len D -> xor_parity_vec f D = P_of D.
Proof using Hlen.
  intros Hf Hne HD. destruct HD as [|s D [Hs Bs] HD]; [done|]. cbn [xor_parity_vec].
  rewrite (bytes_as_tab s len Hs) at 1.
  rewrite (foldl_zip_tab len f xor8) by auto using xor8_byte.
  apply tab_ext. intros j Hj. cbn. apply foldl_xor.
Qed.

Lemma xor_parity_generic_P D : D <> [] -> strips_ok len D -> xor_parity_generic D = P_of D.
Proof using Hlen. apply xor_parity_with, xor_generic_zip. Qed.

Lemma q_syndrome_with f D :
  (forall d s, length d = length s -> all_bytes d -> all_bytes s -> f d s = zip_into q1 d s) ->
  strips_ok len D -> foldl f (zeros len) (rev D) = Q_of D.
Proof using Hlen.
  intros Hf HD. rewrite tab_zeros.
  assert (strips_ok len (rev D)) by (by apply Forall_rev).
  rewrite (foldl_zip_tab len f q1) by (auto using q1_byte; done).
  apply tab_ext. intros j Hj. unfold col. rewrite map_rev. by rewrite foldl_rev.
Qed.

Lemma pq_tail_byte_spec D j : D <> [] -> pq_tail_byte D j = (xsum (col D j), horner (col D j)).
Proof.
  intros Hne. unfold pq_tail_byte. destruct (rev D) as [|last rest] eqn:E.
  { apply (f_equal length) in E. rewrite length_rev in E. by destruct D. }
  assert (D = rev rest ++ [last]) as ->.
  { rewrite <- (rev_involutive D), E. done. }
  clear E Hne. unfold col. rewrite map_app. cbn [map].
  assert (forall r pa qa, foldl (fun '(pa, qa) s => (xor8 pa (at_byte s j), xor8 (gf_mul2 qa) (at_byte s j))) (pa, qa) r
          = (foldl xor8 pa (map (fun s => at_byte s j) r), foldl q1 qa (map (fun s => at_byte s j) r))) as Hf.
  { induction r as [|s r IH]; intros; [done|]. cbn. by rewrite IH. }
  rewrite Hf. f_equal.
  - rewrite foldl_xor, xsum_app, map_rev, xsum_rev, xsum_cons.
    change (xsum []) with 0. by rewrite (xor8_0_r (at_byte last j)), xor8_comm.
  - unfold horner. rewrite foldr_app. cbn. unfold q1 at 3. rewrite xor8_0_l.
    rewrite map_rev. by rewrite <- foldl_rev, rev_involutive.
Qed.

(** The vector columns of [pq_avx2] and [pq_neon]. *)
Definition pq_acc (j : Z) (acc : Z * Z) (s : bytes) : Z * Z :=
  (xor8 (fst acc) (at_byte s j), xor8 (gf_mul2 (snd acc)) (at_byte s j)).

Lemma pq_tail_byte_acc D j :
  pq_tail_byte D j = match rev D with
                     | [] => (0, 0)
                     | last :: rest => foldl (pq_acc j) (at_byte last j, at_byte last j) rest
                     end.
Proof.
  unfold pq_tail_byte. destruct (rev D) as [|last rest]; [done|].
  generalize (at_byte last j, at_byte last j). induction rest as [|s rest IH]; intros [pa qa]; [done|].
  cbn. apply IH.
Qed.

Lemma pq_column_fold mul2v (w i : Z) rest (f g : Z -> Z) :
  (forall x, all_bytes x -> mul2v x = map gf_mul2 x) ->
  0 <= i -> 0 <= w -> i + w <= len -> strips_ok len rest -> (forall j, byte (g j)) ->
  foldl (fun '(pa, qa) s =>
           (zip_into xor8 pa (slice i w s), zip_into xor8 (mul2v qa) (slice i w s)))
    (map f (zrange i (i + w)), map g (zrange i (i + w))) rest
  = (map (fun j => fst (foldl (pq_acc j) (f j, g j) rest)) (zrange i (i + w)),
     map (fun j => snd (foldl (pq_acc j) (f j, g j) rest)) (zrange i (i + w))).
Proof using Hlen.
  intros Hm Hi Hw Hiw HR. revert f g. induction HR as [|s rest [Hs Bs] HR IH]; intros f g Hg; [done|].
  cbn [foldl]. rewrite slice_as_map, Hm by (lia || (apply Forall_map, Forall_forall; auto)).
  rewrite map_map, !zip_into_map_lr, IH by auto. done.
Qed.

Lemma pq_column_spec mul2v (w i : Z) D :
  (forall x, all_bytes x -> mul2v x = map gf_mul2 x) ->
  0 <= i -> 0 <= w -> i + w <= len -> D <> [] -> strips_ok len D ->
  pq_column mul2v w i D = (map (fun j => fst (pq_tail_byte D j)) (zrange i (i + w)),
                           map (fun j => snd (pq_tail_byte D j)) (zrange i (i + w))).
Proof using Hlen.
  intros Hm Hi Hw Hiw Hne HD. unfold pq_column.
  assert (strips_ok len (rev D)) as HR by (by apply Forall_rev).
  rewrite (map_ext (fun j => fst (pq_tail_byte D j)) _ (fun j => f_equal fst (pq_tail_byte_acc D j))).
  rewrite (map_ext (fun j => snd (pq_tail_byte D j)) _ (fun j => f_equal snd (pq_tail_byte_acc D j))).
  destruct (rev D) as [|last rest] eqn:E.
  { apply (f_equal length) in E. rewrite length_rev in E. by destruct D. }
  apply Forall_cons in HR as [[Hl Bl] HR'].
  rewrite (slice_as_map last) by lia. rewrite pq_column_fold by auto. done.
Qed.

Lemma pq_vec_spec mul2v w fuel i D :
  (forall x, all_bytes x -> mul2v x = map gf_mul2 x) ->
  0 < w -> 0 <= i <= len -> D <> [] -> strips_ok len D ->
  pq_vec mul2v w fuel D i len = pq_tail D i len.
Proof using Hlen.
  intros Hm Hw. revert i. induction fuel as [|fuel IH]; intros i Hi Hne HD; [done|].
  cbn [pq_vec]. destruct (Z.leb_spec (i + w) len); [|done].
  rewrite pq_column_spec, IH by (done || lia). unfold pq_tail.
  by rewrite <- !map_app, <- !zrange_split by lia.
Qed.

Lemma pq_tail_PQ D : D <> [] -> strips_ok len D -> pq_tail D 0 len = (P_of D, Q_of D).
Proof using Hlen.
  intros Hne HD. unfold pq_tail, P_of, Q_of, tab. f_equal; apply map_ext; intros j;
    by rewrite pq_tail_byte_spec.
Qed.

(** P and Q of a stripe, whatever computes them. *)
Lemma pq_at_PQ a level D : D <> [] -> strips_ok len D -> pq_at a level D len = (P_of D, Q_of D).
Proof using Hlen.
  intros Hne HD. unfold pq_at. destruct (kernel_of a level).
  - unfold pq_avx2. rewrite pq_vec_spec by (auto using mul2_avx2_map; lia). by apply pq_tail_PQ.
  - unfold pq_neon. rewrite pq_vec_spec by (auto using mul2_neon_map; lia). by apply pq_tail_PQ.
  - f_equal; [by apply xor_parity_generic_P|]. apply q_syndrome_with; auto using q_generic_zip.
Qed.

Lemma xor_parity_at_P a level D : D <> [] -> strips_ok len D -> xor_parity_at a level D = P_of D.
Proof using Hlen.
  intros Hne HD. unfold xor_parity_at. destruct (kernel_of a level).
  - apply xor_parity_with; auto using xor_avx2_zip.
  - apply xor_parity_with; auto using xor_neon_zip.
  - by apply xor_parity_generic_P.
Qed.

Lemma strips_ok_forallb D : strips_ok len D -> forallb (fun s => zlen s =? len) D = true.
Proof using Hlen.
  intros HD. apply forallb_forall. intros s Hs%list_elem_of_In.
  apply Z.eqb_eq. by apply (proj1 (Forall_forall _ _) HD s Hs).
Qed.
End PQ.

(** ** Horner's rule and the weighted sum *)

Lemma gf_pow2_add1 k c : byte c -> gf_mul2 (gf_mul (gf_pow2 k) c) = gf_mul (gf_pow2 (k + 1)) c.
Proof.
  intros Hc. rewrite !gf_pow2_gexp. gcases c; [by rewrite !gf_mul_0_r|].
  rewrite !gf_mul_gexp, gf_mul2_gexp. f_equal. lia.
Qed.

Lemma gf_pow2_byte k : byte (gf_pow2 k).
Proof. apply gexp_byte. Qed.
#[local] Hint Resolve gf_pow2_byte : core.

Lemma weighted_byte k c : Forall byte c -> byte (weighted k c).
Proof. intros H. revert k. induction H; intros k; [done|]. cbn [weighted]. auto. Qed.
#[local] Hint Resolve weighted_byte : core.

Lemma weighted_succ k c : Forall byte c -> weighted (k + 1) c = gf_mul2 (weighted k c).
Proof.
  intros H. revert k. induction H as [|d c Hd Hc IH]; intros k; [done|].
  cbn [weighted]. rewrite IH, gf_mul2_xor by auto. by rewrite gf_pow2_add1.
Qed.

Lemma horner_weighted c : Forall byte c -> horner c = weighted 0 c.
Proof.
  induction 1 as [|d c Hd Hc IH]; [done|]. cbn [weighted].
  change (horner (d :: c)) with (q1 (horner c) d). unfold q1. rewrite IH.
  rewrite <- weighted_succ by done. rewrite xor8_comm. f_equal.
  change (gf_pow2 0) with 1. by rewrite gf_mul_1_l.
Qed.

(** Taking one entry out of a column. *)
Lemma xsum_insert c x v :
  c !! x = Some v -> xsum c = xor8 (xsum (<[x := 0]> c)) v.
Proof.
  revert x. induction c as [|d c IH]; intros [|x] Hx; try discriminate; cbn in Hx.
  - injection Hx as ->. cbn [insert list_insert]. rewrite !xsum_cons. apply xor8_comm.
  - change (<[S x := 0]> (d :: c)) with (d :: <[x := 0]> c). rewrite !xsum_cons, (IH x) by done.
    apply xor8_assoc.
Qed.

Lemma horner_insert c x v :
  Forall byte c -> c !! x = Some v ->
  horner c = xor8 (horner (<[x := 0]> c)) (gf_mul (gf_pow2 (Z.of_nat x)) v).
Proof.
  intros Hc. revert x. induction Hc as [|d c Hd Hc IH]; intros x Hx; [by destruct x|].
  assert (byte 0) by done.
  destruct x as [|x]; cbn in Hx.
  - injection Hx as ->. change (<[0%nat := 0]> (v :: c)) with (0 :: c).
    change (horner (v :: c)) with (q1 (horner c) v). change (horner (0 :: c)) with (q1 (horner c) 0).
    unfold q1. change (gf_pow2 (Z.of_nat 0)) with 1. by rewrite xor8_0_r, gf_mul_1_l.
  - change (<[S x := 0]> (d :: c)) with (d :: <[x := 0]> c).
    change (horner (d :: c)) with (q1 (horner c) d).
    change (horner (d :: <[x := 0]> c)) with (q1 (horner (<[x := 0]> c)) d).
    assert (byte v) by (by apply (Forall_lookup_1 _ _ _ _ Hc Hx)).
    assert (Forall byte (<[x := 0]> c)) by (by apply Forall_insert).
    rewrite (IH x Hx). unfold q1. rewrite gf_mul2_xor by auto. rewrite gf_pow2_add1 by done.
    replace (Z.of_nat (S x)) with (Z.of_nat x + 1) by lia.
    rewrite <- !xor8_assoc. f_equal. apply xor8_comm.
Qed.

(** ** Solving for lost strips, one column at a time *)

(** One lost strip from Q: [g^x · v], divided by [g^x]. *)
Lemma solve_one k v : byte v -> gf_mul (gf_inv (gf_pow2 k)) (gf_mul (gf_pow2 k) v) = v.
Proof.
  intros Hv. destruct (gexp_byte k) as [Hb Hz]. rewrite <- gf_pow2_gexp in *.
  destruct (gf_inv_byte _ Hb Hz). rewrite gf_mul_assoc by done.
  rewrite gf_mul_inv by done. by apply gf_mul_1_l.
Qed.

(** The field identity behind the two-strip recovery. *)
Lemma solve_two_field (d gx a b : gf) :
  gadd d g1 <> g0 -> gx <> g0 ->
  gadd (gadd g0 (gmul (gmul d (ginv (gadd d g1))) (gadd a b)))
       (gmul (gmul (ginv gx) (ginv (gadd d g1))) (gadd (gmul gx a) (gmul (gmul d gx) b))) = a.
Proof.
  intros Hne Hgx.
  transitivity (gmul (gsub d g1) (gmul (ginv (gadd d g1)) a)); [|unfold gsub; field; done].
  change (gadd (gadd g0 ?u) ?v) with (gsub (gadd g0 u) v). field. done.
Qed.

(** Two lost strips from P and Q. *)
Lemma solve_two (x y : nat) vx vy :
  byte vx -> byte vy -> (x < y)%nat -> (y - x < 255)%nat ->
  let gyx := gf_pow2 (Z.of_nat (y - x)) in
  let denom := gf_inv (xor8 gyx 1) in
  xor8 (xor8 0 (gf_mul (gf_mul gyx denom) (xor8 vx vy)))
       (gf_mul (gf_mul (gf_inv (gf_pow2 (Z.of_nat x))) denom)
               (xor8 (gf_mul (gf_pow2 (Z.of_nat x)) vx) (gf_mul (gf_pow2 (Z.of_nat y)) vy)))
  = vx.
Proof.
  intros Hvx Hvy Hxy Hd. cbv zeta.
  set (gx := ggen (Z.of_nat x)). set (d := ggen (Z.of_nat (y - x))).
  assert (ggen (Z.of_nat y) = gmul d gx) as Hy.
  { unfold d, gx. rewrite <- ggen_add. f_equal. lia. }
  assert (gadd d g1 <> g0) as Hne.
  { intros E%gadd_eq_0. apply ggen_inj with (j := 0) in E; lia. }
  assert (gx <> g0) as Hgx by apply ggen_nonzero.
  rewrite <- !gv_ggen, Hy. fold gx d. rewrite <- (gv_mkgf vx), <- (gv_mkgf vy) by done.
  set (a := mkgf vx). set (b := mkgf vy). change 1 with (gv g1). change 0 with (gv g0).
  rewrite <- gv_gadd, <- !gv_ginv by done.
  rewrite <- ?gv_gmul, <- ?gv_gadd, <- ?gv_gmul, <- ?gv_gadd, <- ?gv_gmul, <- ?gv_gadd. f_equal.
  by apply solve_two_field.
Qed.

(** ** The lost strips of a stripe *)

Lemma elem_of_missing_from {A} k (l : list (option A)) i :
  i ∈ missing_from k l <-> exists j, i = (k + j)%nat /\ l !! j = Some None.
Proof.
  revert k. induction l as [|[v|] l IH]; intros k; cbn [missing_from].
  - split; [intros []%not_elem_of_nil | intros (j & _ & ?); by destruct j].
  - rewrite IH. split.
    + intros (j & -> & Hj). exists (S j). split; [lia|done].
    + intros ([|j] & -> & Hj); [done|]. exists j. split; [lia|done].
  - rewrite elem_of_cons, IH. split.
    + intros [->|(j & -> & Hj)]; [exists 0%nat|exists (S j)]; (split; [lia|done]).
    + intros ([|j] & -> & Hj); [left; lia|]. right. exists j. split; [lia|done].
Qed.

Lemma missing_from_lt {A} k (l : list (option A)) x r :
  missing_from k l = x :: r -> Forall (fun y => x < y)%nat r.
Proof.
  revert k. induction l as [|[v|] l IH]; intros k; cbn [missing_from]; [done|apply IH|].
  intros [= <- <-]. apply Forall_forall. intros y (j & -> & _)%elem_of_missing_from. lia.
Qed.

(** [data] is the stripe [D] with some strips lost. *)
Definition lost_of (data : list (option bytes)) (D : list bytes) : Prop :=
  Forall2 (fun o d => o = None \/ o = Some d) data D.

#[export] Instance lost_of_dec data D : Decision (lost_of data D).
Proof. unfold lost_of. apply _. Defined.

Lemma lost_lookup data D i :
  lost_of data D ->
  data !! i = if decide (i ∈ missing_from 0 data) then Some None else Some <$> D !! i.
Proof.
  intros H. destruct (data !! i) as [o|] eqn:E.
  - destruct (Forall2_lookup_l _ _ _ _ _ H E) as (d & Hd & Hod). rewrite Hd.
    case_decide as Hi.
    + apply elem_of_missing_from in Hi as (j & -> & Hj). cbn in E. congruence.
    + destruct Hod as [->| ->]; [|done]. destruct Hi. apply elem_of_missing_from. eauto.
  - pose proof (Forall2_length _ _ _ H). apply lookup_ge_None in E. rewrite decide_False.
    + rewrite lookup_ge_None_2 by lia. done.
    + intros (j & -> & Hj)%elem_of_missing_from. apply lookup_lt_Some in Hj. cbn in *. lia.
Qed.

Lemma lost_none data D : lost_of data D -> missing_from 0 data = [] -> data = map Some D.
Proof.
  intros H E. apply list_eq. intros i. rewrite (lost_lookup data D i H), E, list_lookup_fmap.
  rewrite decide_False by apply not_elem_of_nil. done.
Qed.

Lemma missing_bound data D x :
  lost_of data D -> x ∈ missing_from 0 data -> (x < length D)%nat.
Proof.
  intros H (j & -> & Hj)%elem_of_missing_from. rewrite <- (Forall2_length _ _ _ H).
  by apply lookup_lt_Some in Hj.
Qed.

Lemma lost_one data D x :
  lost_of data D -> missing_from 0 data = [x] ->
  data = <[x := None]> (map Some D) /\ (x < length D)%nat.
Proof.
  intros H E.
  assert (x < length D)%nat as Hx.
  { apply (missing_bound data D x H). rewrite E. set_solver. }
  split; [|done]. apply list_eq. intros i. rewrite (lost_lookup data D i H), E.
  destruct (decide (i = x)) as [->|Hi].
  - rewrite decide_True by set_solver. rewrite list_lookup_insert_eq; [done|by rewrite length_map].
  - rewrite decide_False, list_lookup_insert_ne, list_lookup_fmap by set_solver. done.
Qed.

Lemma lost_two data D x y :
  lost_of data D -> missing_from 0 data = [x; y] ->
  data = <[y := None]> (<[x := None]> (map Some D)) /\ (x < y < length D)%nat.
Proof.
  intros H E. pose proof (missing_from_lt _ _ _ _ E) as Hlt. rewrite Forall_singleton in Hlt.
  assert (y < length D)%nat as Hy.
  { apply (missing_bound data D y H). rewrite E. set_solver. }
  split; [|lia]. apply list_eq. intros i. rewrite (lost_lookup data D i H), E.
  destruct (decide (i = y)) as [->|Hi].
  - rewrite decide_True by set_solver. rewrite list_lookup_insert_eq; [done|].
    by rewrite length_insert, length_map.
  - rewrite list_lookup_insert_ne by done. destruct (decide (i = x)) as [->|Hix].
    + rewrite decide_True by set_solver. rewrite list_lookup_insert_eq; [done|]. rewrite length_map. lia.
    + rewrite decide_False, list_lookup_insert_ne, list_lookup_fmap by set_solver. done.
Qed.

Lemma lookup_default {A} (l : list A) x d : (x < length l)%nat -> exists v, l !! x = Some v /\ nth x l d = v.
Proof.
  intros Hx. destruct (lookup_lt_is_Some_2 l x Hx) as [v Hv]. exists v. split; [done|].
  by rewrite nth_lookup, Hv.
Qed.

Lemma col_lookup D j (x : nat) d : D !! x = Some d -> col D j !! x = Some (at_byte d j).
Proof. intros H. unfold col. by rewrite list_lookup_fmap, H. Qed.

Lemma col_insert D j x s : col (<[x := s]> D) j = <[x := at_byte s j]> (col D j).
Proof. unfold col. apply (list_fmap_insert (fun s => at_byte s j)). Qed.

Lemma at_zeros len j : at_byte (zeros len) j = 0.
Proof.
  unfold at_byte, zeros. rewrite nth_lookup.
  destruct (replicate _ _ !! _) eqn:E; [|done]. by apply lookup_replicate in E as [-> _].
Qed.

Lemma map_or_zero_insert len x (o : list (option bytes)) :
  map (or_zero len) (<[x := None]> o) = <[x := zeros len]> (map (or_zero len) o).
Proof. apply (list_fmap_insert (or_zero len)). Qed.

Lemma map_or_zero_all len D : map (or_zero len) (map Some D) = D.
Proof. rewrite map_map. apply map_id. Qed.

Lemma map_unwrap_all D : map unwrap (map Some D) = D.
Proof. rewrite map_map. apply map_id. Qed.

Lemma strips_ok_insert len D x : 0 <= len -> strips_ok len D -> strips_ok len (<[x := zeros len]> D).
Proof.
  intros Hlen H. apply Forall_insert; [done|]. split; [by apply zlen_zeros|apply all_bytes_zeros].
Qed.

Section RecoverProofs.
Context (a : arch) (simd : SimdLevel) (len : Z) (Hlen : 0 <= len).
Context (D : list bytes) (Hne : D <> []) (HD : strips_ok len D).

Lemma xor_others_skip_none k x E g :
  (x < k)%nat -> strips_ok len E -> (forall j, 0 <= j < len -> byte (g j)) ->
  foldl (fun out '(i, d) => if decide (i = x) then out else xor_in_place_at a simd out (unwrap d))
    (tab len g) (imap (fun i d => ((k + i)%nat, d)) (map Some E))
  = tab len (fun j => foldl xor8 (g j) (col E j)).
Proof using Hlen.
  intros Hk HE. revert k g Hk. induction HE as [|s E [Hs Bs] HE IH]; intros k g Hk Hg; [done|].
  cbn [map imap foldl]. rewrite decide_False by lia. change (unwrap (Some s)) with s.
  rewrite xor_in_place_at_zip; [|unfold zlen in Hs; rewrite length_tab by done; lia|by apply tab_bytes|done].
  rewrite (bytes_as_tab s len Hs), zip_tab.
  rewrite (imap_ext _ (fun i d => ((S k + i)%nat, d))) by (intros; cbn; f_equal; lia).
  rewrite IH by (auto; lia). apply tab_ext. intros j Hj. cbn. by rewrite at_tab.
Qed.

Lemma xor_others_fold k x E g :
  (x < length E)%nat -> strips_ok len E -> (forall j, 0 <= j < len -> byte (g j)) ->
  foldl (fun out '(i, d) => if decide (i = (k + x)%nat) then out else xor_in_place_at a simd out (unwrap d))
    (tab len g) (imap (fun i d => ((k + i)%nat, d)) (<[x := None]> (map Some E)))
  = tab len (fun j => foldl xor8 (g j) (<[x := 0]> (col E j))).
Proof using Hlen.
  intros Hx HE. revert k x g Hx. induction HE as [|s E [Hs Bs] HE IH]; intros k x g Hx Hg; [cbn in Hx; lia|].
  destruct x as [|x]; cbn [map insert list_insert imap foldl].
  - rewrite decide_True by lia.
    rewrite (imap_ext _ (fun i d => ((S k + i)%nat, d))) by (intros; cbn; f_equal; lia).
    rewrite xor_others_skip_none by (auto; lia). apply tab_ext. intros j Hj. cbn. by rewrite xor8_0_r.
  - rewrite decide_False by lia. change (unwrap (Some s)) with s.
    rewrite xor_in_place_at_zip; [|unfold zlen in Hs; rewrite length_tab by done; lia|by apply tab_bytes|done].
    rewrite (bytes_as_tab s len Hs), zip_tab.
    rewrite (imap_ext _ (fun i d => ((S k + i)%nat, d))) by (intros; cbn; f_equal; lia).
    replace (k + S x)%nat with (S k + x)%nat by lia. cbn in Hx.
    rewrite IH by (auto; lia). apply tab_ext. intros j Hj. cbn. by rewrite at_tab.
Qed.

Lemma restore_one x d :
  D !! x = Some d -> <[x := Some d]> (<[x := None]> (map Some D)) = map Some D.
Proof using Type.
  intros Hd. rewrite list_insert_insert_eq. apply list_insert_id. by rewrite list_lookup_fmap, Hd.
Qed.

(** One lost strip, from P. *)
Lemma xor_others_recovers x d :
  D !! x = Some d -> xor_others a simd x (<[x := None]> (map Some D)) (P_of len D) = d.
Proof using Hlen HD.
  intros Hd. unfold xor_others, P_of.
  rewrite (imap_ext pair (fun i d => ((0 + i)%nat, d))) by done.
  rewrite (xor_others_fold 0 x D) by (eauto using lookup_lt_Some).
  destruct (Forall_lookup_1 _ _ _ _ HD Hd) as [Hs Bs].
  rewrite (bytes_as_tab d len Hs). apply tab_ext. intros j Hj.
  rewrite foldl_xor, (xsum_insert _ x (at_byte d j)) by (by apply col_lookup).
  rewrite (xor8_comm (xor8 _ _)). apply xor8_cancel.
Qed.

(** What Q says of the strips that are left. *)
Lemma P_zeroed x d :
  D !! x = Some d ->
  P_of len D = tab len (fun j => xor8 (xsum (col (<[x := zeros len]> D) j)) (at_byte d j)).
Proof using Type.
  intros Hd. apply tab_ext. intros j Hj. rewrite col_insert, at_zeros.
  apply xsum_insert. by apply col_lookup.
Qed.

Lemma Q_zeroed x d :
  D !! x = Some d ->
  Q_of len D = tab len (fun j => xor8 (horner (col (<[x := zeros len]> D) j))
                                      (gf_mul (gf_pow2 (Z.of_nat x)) (at_byte d j))).
Proof using HD.
  intros Hd. apply tab_ext. intros j Hj. rewrite col_insert, at_zeros.
  apply horner_insert; [eauto|]. by apply col_lookup.
Qed.
End RecoverProofs.

(** Closes [byte _] side conditions. *)
Ltac byte_tac :=
  intros; cbv beta;
  repeat first
    [ assumption
    | match goal with
      | |- byte 0 => done
      | |- byte 1 => done
      | |- byte (xor8 _ _) => apply xor8_byte
      | |- byte (gf_mul _ _) => apply gf_mul_byte
      | |- byte (gf_pow2 _) => apply gf_pow2_byte
      | |- byte (at_byte _ _) => apply at_byte_byte
      | |- byte (horner _) => apply horner_byte; eapply col_bytes; eassumption
      | |- byte (xsum _) => apply xsum_byte; eapply col_bytes; eassumption
      | H : forall c, byte c -> c <> 0 -> byte (gf_inv c) |- byte (gf_inv _) => apply H
      end ].

Section RecoverCases.
Context (a : arch) (simd : SimdLevel) (len : Z) (Hlen : 0 <= len).
Context (D : list bytes) (Hne : D <> []) (HD : strips_ok len D).

Lemma xor_tab g h :
  (forall j, 0 <= j < len -> byte (g j)) -> (forall j, 0 <= j < len -> byte (h j)) ->
  xor_in_place_at a simd (tab len g) (tab len h) = tab len (fun j => xor8 (g j) (h j)).
Proof using Hlen.
  intros Hg Hh. rewrite xor_in_place_at_zip, zip_tab; [done|by rewrite !length_tab|by apply tab_bytes..].
Qed.

Lemma mul_xor_tab g h c :
  byte c -> (forall j, 0 <= j < len -> byte (g j)) -> (forall j, 0 <= j < len -> byte (h j)) ->
  gf_mul_xor_at a simd (tab len g) (tab len h) c = tab len (fun j => xor8 (g j) (gf_mul c (h j))).
Proof using Hlen.
  intros Hc Hg Hh. rewrite gf_mul_xor_at_zip, zip_tab; [done|done|by rewrite !length_tab|by apply tab_bytes..].
Qed.

Lemma scale_tab g c :
  byte c -> (forall j, 0 <= j < len -> byte (g j)) ->
  gf_scale_at a simd (tab len g) c = tab len (fun j => gf_mul c (g j)).
Proof using Type.
  intros Hc Hg. rewrite gf_scale_at_map by (auto using tab_bytes). apply map_tab.
Qed.

Lemma q_fold_Q E : strips_ok len E -> foldl (q_step_at a simd) (zeros len) (rev E) = Q_of len E.
Proof using Hlen. intros. apply q_syndrome_with; auto using q_step_at_zip. Qed.

(** One lost strip, from Q. *)
Lemma q_recovers x d :
  D !! x = Some d ->
  gf_scale_at a simd
    (xor_in_place_at a simd (foldl (q_step_at a simd) (zeros len) (rev (<[x := zeros len]> D))) (Q_of len D))
    (gf_inv (gf_pow2 (Z.of_nat x))) = d.
Proof using Hlen HD.
  intros Hd. pose proof (strips_ok_insert len D x Hlen HD) as HE.
  destruct (Forall_lookup_1 _ _ _ _ HD Hd) as [Hs Bs].
  assert (byte (gf_inv (gf_pow2 (Z.of_nat x)))).
  { destruct (gexp_byte (Z.of_nat x)). by apply gf_inv_byte. }
  rewrite q_fold_Q, (Q_zeroed len D HD x d Hd) by done. unfold Q_of.
  rewrite xor_tab; [|byte_tac..]. rewrite scale_tab; [|byte_tac..].
  transitivity (tab len (at_byte d)); [apply tab_ext|symmetry; by apply bytes_as_tab]. intros j Hj.
  rewrite xor8_cancel. apply solve_one. byte_tac.
Qed.

(** Two lost strips, from P and Q. *)
Lemma pq_recovers x y dx dy :
  D !! x = Some dx -> D !! y = Some dy -> (x < y)%nat -> (y - x < 255)%nat ->
  let E := <[y := zeros len]> (<[x := zeros len]> D) in
  let pxy := xor_in_place_at a simd (fst (pq_at a simd E len)) (P_of len D) in
  let qxy := xor_in_place_at a simd (snd (pq_at a simd E len)) (Q_of len D) in
  let gyx := gf_pow2 (Z.of_nat (y - x)) in
  let denom := gf_inv (xor8 gyx 1) in
  let ca := gf_mul gyx denom in
  let cb := gf_mul (gf_inv (gf_pow2 (Z.of_nat x))) denom in
  let rx := gf_mul_xor_at a simd (gf_mul_xor_at a simd (zeros len) pxy ca) qxy cb in
  rx = dx /\ xor_in_place_at a simd pxy rx = dy.
Proof using Hlen HD Hne.
  intros Hx Hy Hxy Hlt. cbv zeta.
  pose proof (strips_ok_insert len D x Hlen HD) as HE1.
  pose proof (strips_ok_insert len _ y Hlen HE1) as HE.
  destruct (Forall_lookup_1 _ _ _ _ HD Hx) as [Lx Bx], (Forall_lookup_1 _ _ _ _ HD Hy) as [Ly By].
  assert (<[x := zeros len]> D !! y = Some dy) as Hy1 by (rewrite list_lookup_insert_ne; [done|lia]).
  set (E := <[y := zeros len]> (<[x := zeros len]> D)) in *.
  assert (E <> []) by (intros EE; apply (f_equal length) in EE; unfold E in EE;
                       rewrite !length_insert in EE; by destruct D).
  rewrite pq_at_PQ by done. cbn [fst snd].
  assert (forall c, byte c -> c <> 0 -> byte (gf_inv c)) by (intros; by apply gf_inv_byte).
  destruct (gexp_byte (Z.of_nat x)) as [Bgx Zgx], (gexp_byte (Z.of_nat (y - x))) as [Bgy Zgy].
  assert (xor8 (gf_pow2 (Z.of_nat (y - x))) 1 <> 0).
  { intros E0%xor8_eq_0. change 1 with (gexp 0) in E0. rewrite gf_pow2_gexp in E0. apply gexp_inj in E0; lia. }
  assert (byte 1) by done.
  assert (xor_in_place_at a simd (P_of len E) (P_of len D)
          = tab len (fun j => xor8 (at_byte dx j) (at_byte dy j))) as HP.
  { rewrite (P_zeroed len D x dx Hx). fold (P_of len (<[x := zeros len]> D)).
    unfold P_of at 1. rewrite xor_tab; [|byte_tac..]. apply tab_ext.
    intros j Hj. rewrite (xsum_insert (col (<[x:=zeros len]> D) j) y (at_byte dy j)) by (by apply col_lookup).
    unfold E. rewrite (col_insert (<[x := _]> D)), at_zeros, <- !xor8_assoc, xor8_cancel. apply xor8_comm. }
  assert (xor_in_place_at a simd (Q_of len E) (Q_of len D)
          = tab len (fun j => xor8 (gf_mul (gf_pow2 (Z.of_nat x)) (at_byte dx j))
                                   (gf_mul (gf_pow2 (Z.of_nat y)) (at_byte dy j)))) as HQ.
  { rewrite (Q_zeroed len D HD x dx Hx).
    unfold Q_of at 1. rewrite xor_tab; [|byte_tac..]. apply tab_ext.
    intros j Hj. rewrite (horner_insert (col (<[x:=zeros len]> D) j) y (at_byte dy j));
      [|eauto|by apply col_lookup].
    unfold E. rewrite (col_insert (<[x := _]> D)), at_zeros, <- !xor8_assoc, xor8_cancel. apply xor8_comm. }
  rewrite HP, HQ, tab_zeros.
  assert (gf_mul_xor_at a simd (gf_mul_xor_at a simd (tab len (fun _ => 0))
            (tab len (fun j => xor8 (at_byte dx j) (at_byte dy j)))
            (gf_mul (gf_pow2 (Z.of_nat (y - x))) (gf_inv (xor8 (gf_pow2 (Z.of_nat (y - x))) 1))))
            (tab len (fun j => xor8 (gf_mul (gf_pow2 (Z.of_nat x)) (at_byte dx j))
                                   (gf_mul (gf_pow2 (Z.of_nat y)) (at_byte dy j))))
            (gf_mul (gf_inv (gf_pow2 (Z.of_nat x))) (gf_inv (xor8 (gf_pow2 (Z.of_nat (y - x))) 1))) = dx) as Hdx.
  { do 2 (rewrite mul_xor_tab; [|byte_tac..]).
    transitivity (tab len (at_byte dx)); [apply tab_ext|symmetry; by apply bytes_as_tab]. intros j Hj. apply solve_two; (lia || byte_tac). }
  rewrite Hdx. split; [done|].
  transitivity (xor_in_place_at a simd (tab len (fun j => xor8 (at_byte dx j) (at_byte dy j))) (tab len (at_byte dx)));
    [by rewrite <- bytes_as_tab|]. rewrite xor_tab; [|byte_tac..].
  transitivity (tab len (at_byte dy)); [apply tab_ext|symmetry; by apply bytes_as_tab]. intros j Hj.
  rewrite xor8_comm. apply xor8_cancel.
Qed.
End RecoverCases.

(** How many of a stripe's strips are lost, and how many its level survives. *)
Definition lost_count (s : StripeStrips) : Z :=
  zlen (missing_from 0 (ss_data s)) + (if bool_decide (ss_p s = None) then 1 else 0)
  + (if bool_decide (ss_q s = Some None) then 1 else 0).
Definition level_tolerates (s : StripeStrips) : Z := if bool_decide (ss_q s <> None) then 2 else 1.

(** [s] is what is left of the stripe that holds [D], its P and its Q. *)
Record remains_of (len : Z) (D : list bytes) (s : StripeStrips) : Prop := {
  rem_data : lost_of (ss_data s) D;
  rem_p : ss_p s = None \/ ss_p s = Some (P_of len D);
  rem_q : ss_q s = None \/ ss_q s = Some None \/ ss_q s = Some (Some (Q_of len D)) }.

Lemma recover_data_restores a simd len D s :
  0 <= len -> D <> [] -> zlen D <= 255 -> strips_ok len D -> remains_of len D s ->
  lost_count s <= level_tolerates s ->
  recover_data a simd len s = Some (map Some D).
Proof.
  intros Hlen Hne Hn HD [Hd Hp Hq] Hlost. destruct s as [data p q]. cbn [ss_data ss_p ss_q] in *.
  unfold lost_count, level_tolerates, recover_data in *. cbn [ss_data ss_p ss_q] in *.
  destruct (missing_from 0 data) as [|x [|y [|z r]]] eqn:E.
  - f_equal. by apply lost_none.
  - destruct (lost_one data D x Hd E) as [-> Hx].
    destruct (lookup_lt_is_Some_2 D x Hx) as [d Hdx].
    destruct Hp as [->| ->].
    + destruct Hq as [->|[->| ->]]; try (by exfalso; unfold zlen in Hlost; cbn [length] in Hlost; repeat case_bool_decide; try congruence; lia).
      rewrite bool_decide_true, bool_decide_false by done. f_equal.
      rewrite map_or_zero_insert, map_or_zero_all. change (unwrap (default None (Some (Some ?q)))) with q.
      rewrite (q_recovers a simd len Hlen D HD x d Hdx). by apply restore_one.
    + rewrite (bool_decide_false (Some _ = None)) by done. f_equal.
      change (unwrap (Some ?q)) with q. rewrite (xor_others_recovers a simd len Hlen D HD x d Hdx).
      by apply restore_one.
  - destruct (lost_two data D x y Hd E) as [-> Hxy].
    destruct (lookup_lt_is_Some_2 D x ltac:(lia)) as [dx Hdx].
    destruct (lookup_lt_is_Some_2 D y ltac:(lia)) as [dy Hdy].
    destruct Hp as [->| ->]; [destruct Hq as [->|[->| ->]]; exfalso; unfold zlen in Hlost; cbn [length] in Hlost; repeat case_bool_decide; try congruence; lia|].
    destruct Hq as [->|[->| ->]]; try (by exfalso; unfold zlen in Hlost; cbn [length] in Hlost; repeat case_bool_decide; try congruence; lia).
    rewrite !bool_decide_false by done.
    rewrite !map_or_zero_insert, map_or_zero_all.
    change (unwrap (default None (Some (Some ?q)))) with q. change (unwrap (Some ?q)) with q.
    unfold zlen in Hn.
    pose proof (pq_recovers a simd len Hlen D Hne HD x y dx dy Hdx Hdy ltac:(lia) ltac:(lia)) as Hr.
    cbv zeta in Hr. destruct (pq_at a simd _ len) as [pxy qxy]. cbn [fst snd] in Hr.
    destruct Hr as [Hr1 Hr2]. rewrite Hr1 in Hr2. rewrite Hr1, Hr2. f_equal.
    rewrite (list_insert_insert_ne _ x y) by lia. rewrite restore_one, list_insert_insert_eq by done.
    apply list_insert_id. by rewrite list_lookup_fmap, Hdy.
  - exfalso. rewrite !zlen_cons in Hlost. pose proof (zlen_nonneg r).
    repeat case_bool_decide; lia.
Qed.

Lemma recover_exact a simd len D s :
  0 <= len -> D <> [] -> zlen D <= 255 -> strips_ok len D -> remains_of len D s ->
  recover a simd len s =
    if level_tolerates s <? lost_count s
    then Err {| un_missing := lost_count s; un_tolerated := level_tolerates s |}
    else Ok (Some (SS (map Some D) (Some (P_of len D))
                      (match ss_q s with None => None | Some _ => Some (Some (Q_of len D)) end))).
Proof.
  intros Hlen Hne Hn HD Hrem. unfold recover. fold (lost_count s). fold (level_tolerates s).
  destruct (Z.ltb_spec (level_tolerates s) (lost_count s)) as [|Hle]; [done|].
  rewrite (recover_data_restores a simd len D s) by done. rewrite map_unwrap_all.
  destruct Hrem as [_ Hp Hq]. do 3 f_equal.
  - case_bool_decide as Hpl; [|by destruct Hp].
    unfold compute_xor_parity. rewrite (strips_ok_forallb len), xor_parity_at_P with (len := len) by done.
    destruct D; [done|]. rewrite zlen_cons. pose proof (zlen_nonneg D).
    destruct (Z.ltb_spec 0 (1 + zlen D)); [done|lia].
  - case_bool_decide as Hql; [rewrite Hql; by rewrite pq_at_PQ|].
    by destruct Hq as [->|[?| ->]].
Qed.

(** C7. [StripeStrips::recover] is exact: with no more strips lost than the RAID
    level tolerates (one without Q, two with it) it returns the stripe as it
    was written, data, P and Q, whichever strips were lost and whatever SIMD
    level computes it; with more lost it is refused, with the counts. *)
Theorem recover_is_exact a simd len D s :
  0 <= len -> D <> [] -> zlen D <= 255 -> strips_ok len D -> remains_of len D s ->
  recover a simd len s =
    if level_tolerates s <? lost_count s
    then Err {| un_missing := lost_count s; un_tolerated := level_tolerates s |}
    else Ok (Some (SS (map Some D) (Some (P_of len D))
                      (match ss_q s with None => None | Some _ => Some (Some (Q_of len D)) end))).
Proof. apply recover_exact. Qed.

(** Two data strips of three lost from a RAID-6 stripe, and then three. *)
Lemma recover_is_exact_witness :
  let D := [[1; 2; 3]; [255; 128; 7]; [9; 0; 77]] in
  recover X86_64 Avx2 3 (SS [None; Some [255; 128; 7]; None] (Some (P_of 3 D)) (Some (Some (Q_of 3 D))))
  = Ok (Some (SS (map Some D) (Some (P_of 3 D)) (Some (Some (Q_of 3 D)))))
  /\ recover X86_64 Avx2 3 (SS [None; Some [255; 128; 7]; None] (Some (P_of 3 D)) (Some None))
  = Err {| un_missing := 3; un_tolerated := 2 |}.
Proof.
  cbv zeta. split.
  - rewrite (recover_is_exact X86_64 Avx2 3 [[1; 2; 3]; [255; 128; 7]; [9; 0; 77]]);
      [reflexivity|lia|done|done| |].
    + by_decide.
    + constructor; [by_decide|auto|auto].
  - rewrite (recover_is_exact X86_64 Avx2 3 [[1; 2; 3]; [255; 128; 7]; [9; 0; 77]]);
      [reflexivity|lia|done|done| |].
    + by_decide.
    + constructor; [by_decide|auto|auto].
Defined.

(** ** P and Q as the textbook defines them, and partial updates *)

Lemma compute_raid6_parity_PQ a level D len :
  0 <= len -> D <> [] -> strips_ok len D -> compute_raid6_parity a level D len = Some (P_of len D, Q_of len D).
Proof.
  intros Hlen Hne HD. unfold compute_raid6_parity. rewrite (strips_ok_forallb len), pq_at_PQ by done.
  destruct D as [|s D']; [done|]. rewrite zlen_cons. pose proof (zlen_nonneg D'). by destruct (Z.ltb_spec 0 (1 + zlen D')); [|lia].
Qed.

(** Whatever the build and the SIMD level, the pair [compute_raid6_parity]
    returns is, byte by byte, the XOR of the strips and the sum [Σ g^i · D_i]
    over GF(2^8). *)
Lemma raid6_parity_is_weighted_sum a level D len :
  0 <= len -> D <> [] -> strips_ok len D ->
  compute_raid6_parity a level D len =
    Some (tab len (fun j => xsum (col D j)), tab len (fun j => weighted 0 (col D j))).
Proof.
  intros Hlen Hne HD. rewrite compute_raid6_parity_PQ by done. do 2 f_equal.
  apply tab_ext. intros j Hj. apply horner_weighted. eauto.
Qed.

Lemma raid6_parity_is_weighted_sum_witness :
  compute_raid6_parity Aarch64 Neon [[1; 2]; [3; 128]] 2 = Some ([2; 130], [7; 31]).
Proof.
  rewrite (raid6_parity_is_weighted_sum Aarch64 Neon [[1; 2]; [3; 128]] 2);
    [reflexivity|lia|done|by_decide].
Defined.

(** C25. Every SIMD level computes what the portable code computes: XOR in place,
    P, Q's Horner step, multiply-and-add and scaling by a constant, and the
    P/Q pair. *)
Theorem every_simd_level_matches_the_portable_code a level dst src c D len :
  byte c -> length dst = length src -> all_bytes dst -> all_bytes src ->
  0 <= len -> D <> [] -> strips_ok len D ->
  xor_in_place_at a level dst src = xor_in_place_generic dst src
  /\ q_step_at a level dst src = q_step_generic dst src
  /\ gf_mul_xor_at a level dst src c = gf_mul_xor_at a Generic dst src c
  /\ gf_scale_at a level dst c = gf_scale_generic dst c
  /\ xor_parity_at a level D = xor_parity_generic D
  /\ pq_at a level D len = (xor_parity_generic D, compute_q_syndrome_generic len D).
Proof.
  intros Hc Hl Hd Hs Hlen Hne HD.
  assert (gf_scale_generic dst c = map (gf_mul c) dst) as Hscale.
  { apply map_ext_Forall. eapply Forall_impl; [exact Hd|]. intros b Hb. by apply mul_table_at. }
  repeat split.
  - by rewrite xor_in_place_at_zip, xor_generic_zip.
  - by rewrite q_step_at_zip, q_generic_zip.
  - by rewrite !gf_mul_xor_at_zip.
  - by rewrite gf_scale_at_map.
  - by rewrite (xor_parity_at_P len), (xor_parity_generic_P len).
  - rewrite pq_at_PQ, (xor_parity_generic_P len) by done. f_equal.
    symmetry. apply q_syndrome_with; auto using q_generic_zip.
Qed.

Lemma every_simd_level_matches_the_portable_code_witness :
  xor_in_place_at X86_64 Avx512 [1; 2] [3; 4] = [2; 6]
  /\ gf_scale_at X86_64 Avx2 [1; 2] 142 = gf_scale_generic [1; 2] 142.
Proof.
  destruct (every_simd_level_matches_the_portable_code X86_64 Avx512 [1; 2] [3; 4] 142 [[1; 2]] 2)
    as (H1 & _); [by_decide|done|by_decide|by_decide|lia|done|by_decide|].
  destruct (every_simd_level_matches_the_portable_code X86_64 Avx2 [1; 2] [3; 4] 142 [[1; 2]] 2)
    as (_ & _ & _ & H2 & _); [by_decide|done|by_decide|by_decide|lia|done|by_decide|].
  split; [exact H1|exact H2].
Defined.

(** Bytewise XOR of two buffers: the delta of a write. *)
Definition delta_of (old new : bytes) : bytes := zip_into xor8 old new.

Lemma delta_exact a level len D i old new :
  0 <= len -> strips_ok len D -> D !! i = Some old -> zlen new = len -> all_bytes new ->
  xor_in_place_at a level (P_of len D) (delta_of old new) = P_of len (<[i := new]> D)
  /\ q_update a level (Q_of len D) (delta_of old new) (Z.of_nat i) = Q_of len (<[i := new]> D).
Proof.
  intros Hlen HD Hi Hn Bn. destruct (Forall_lookup_1 _ _ _ _ HD Hi) as [Ho Bo].
  assert (delta_of old new = tab len (fun j => xor8 (at_byte old j) (at_byte new j))) as ->.
  { unfold delta_of. rewrite (bytes_as_tab old len Ho) at 1. rewrite (bytes_as_tab new len Hn) at 1.
    by rewrite zip_tab. }
  assert (strips_ok len (<[i := new]> D)) as HD' by (by apply Forall_insert).
  assert (<[i := new]> D !! i = Some new) as Hi' by (apply list_lookup_insert_eq; eauto using lookup_lt_Some).
  split.
  - unfold P_of. rewrite xor_tab; [|done|byte_tac..]. apply tab_ext. intros j Hj.
    rewrite (xsum_insert (col D j) i (at_byte old j)), (xsum_insert (col (<[i := new]> D) j) i (at_byte new j))
      by (by apply col_lookup).
    rewrite col_insert, list_insert_insert_eq, <- xor8_assoc. f_equal. by rewrite xor8_cancel.
  - unfold q_update, Q_of. rewrite mul_xor_tab; [|done|byte_tac..]. apply tab_ext. intros j Hj.
    assert (Forall byte (col D j)) by eauto. assert (Forall byte (col (<[i := new]> D) j)) by eauto.
    rewrite (horner_insert (col D j) i (at_byte old j)),
      (horner_insert (col (<[i := new]> D) j) i (at_byte new j)) by (done || by apply col_lookup).
    rewrite col_insert, list_insert_insert_eq, gf_mul_xor_r by byte_tac.
    rewrite <- xor8_assoc. f_equal. by rewrite xor8_cancel.
Qed.

(** ** Locating a damaged strip *)

(** The residues of one byte column blame strip [k]. *)
Definition blames (k : Z) (pq : Z * Z) : Prop := snd pq = gf_mul (gf_pow2 k) (fst pq).

Definition some_nonzero (b : bytes) : bool := existsb (fun x => negb (x =? 0)) b.

Lemma some_nonzero_false b : some_nonzero b = false <-> Forall (fun x => x = 0) b.
Proof.
  induction b as [|x b IH]; [by split; [constructor|]|].
  cbn. rewrite orb_false_iff, Forall_cons, negb_false_iff, Z.eqb_eq. by rewrite <- IH.
Qed.

Lemma gf_mul_eq_0 a b : byte a -> byte b -> gf_mul a b = 0 -> a = 0 \/ b = 0.
Proof.
  intros Ha Hb. gcases a; [auto|]. gcases b; [auto|]. rewrite gf_mul_gexp.
  intros E. by destruct (gexp_byte (k + k0)).
Qed.

(** Exactly one exponent relates two nonzero bytes, and it is [log q - log p]. *)
Lemma log_quotient p q k :
  byte p -> p <> 0 -> byte q -> q <> 0 -> 0 <= k < 255 ->
  (gf_log q + 255 - gf_log p) mod 255 = k <-> blames k (p, q).
Proof.
  intros Hp Zp Hq Zq Hk. unfold blames. cbn [fst snd].
  pose proof (gf_log_range p Hp Zp). pose proof (gf_log_range q Hq Zq).
  assert (p = gexp (gf_log p)) as Ep by (by rewrite gexp_log).
  assert (q = gexp (gf_log q)) as Eq by (by rewrite gexp_log).
  revert Ep Eq. generalize dependent (gf_log p). generalize dependent (gf_log q).
  intros lq Hlq lp Hlp -> ->. change (gf_pow2 k) with (gexp k). rewrite gf_mul_gexp.
  split.
  - intros <-. unfold gexp. f_equal. rewrite Zplus_mod_idemp_l, Z.sub_add. symmetry. by apply (Z.mod_add lq 1 255).

  - intros E. apply (f_equal (at_byte (snd GF))) in E. rewrite !log_gexp in E.
    rewrite (Z.mod_small lq) in E by done. rewrite E.
    replace ((k + lp) mod 255 + 255 - lp) with ((k + lp) mod 255 + (255 - lp)) by lia.
    rewrite Zplus_mod_idemp_l. replace (k + lp + (255 - lp)) with (k + 1 * 255) by lia.
    rewrite Z.mod_add by done. by apply Z.mod_small.
Qed.

Lemma blames_zero k p q :
  byte p -> byte q -> blames k (p, q) -> (p = 0 <-> q = 0).
Proof.
  unfold blames. cbn. intros Hp Hq ->. split; [intros ->; apply gf_mul_0_r|].
  destruct (gexp_byte k) as [Hb Hz]. change (gf_pow2 k) with (gexp k). intros [E|E]%gf_mul_eq_0; done.
Qed.

#[export] Instance blames_dec k pq : Decision (blames k pq).
Proof. unfold blames. apply _. Defined.

Lemma locate_loop_complete k pq z :
  0 <= k < 255 -> Forall (fun '(p, q) => byte p /\ byte q) pq -> Forall (blames k) pq ->
  (z = None \/ z = Some k) ->
  locate_loop z pq = Some (if existsb (fun pq => negb (fst pq =? 0)) pq then Some k else z).
Proof.
  intros Hk Hb Hbl. revert z. induction Hbl as [|[p q] pq Hpq Hbl IH]; intros z Hz; [done|].
  apply Forall_cons in Hb as [[Hp Hq] Hb]. cbn [locate_loop existsb fst].
  pose proof (blames_zero k p q Hp Hq Hpq).
  destruct (Z.eqb_spec p 0), (Z.eqb_spec q 0); cbn [andb orb negb]; try tauto; [by apply IH|].
  rewrite (proj2 (log_quotient p q k Hp n Hq n0 Hk) Hpq).
  assert (forall b : bool, (if b then Some k else Some k) = Some k) as Hif by (by intros []).
  destruct Hz as [->| ->]; [|rewrite Z.eqb_refl]; rewrite IH by auto; by rewrite Hif.
Qed.

Lemma locate_loop_sound pq z r :
  Forall (fun '(p, q) => byte p /\ byte q) pq -> locate_loop z pq = Some r ->
  (forall k, z = Some k -> r = Some k) /\
  (forall k, r = Some k -> 0 <= k < 255 -> Forall (blames k) pq).
Proof.
  intros Hb. revert z r. induction pq as [|[p q] pq IH]; intros z r; cbn [locate_loop].
  { intros [= ->]. split; [done|constructor]. }
  apply Forall_cons in Hb as [[Hp Hq] Hb]. specialize (IH Hb).
  destruct (Z.eqb_spec p 0), (Z.eqb_spec q 0); cbn [andb orb]; try discriminate.
  - intros [H1 H2]%IH. split; [done|]. intros k Hr Hk. constructor; [|by apply H2].
    subst. unfold blames. cbn. by rewrite gf_mul_0_r.
  - set (zi := (gf_log q + 255 - gf_log p) mod 255).
    assert (0 <= zi < 255) by (apply Z.mod_pos_bound; lia).
    assert (forall r, locate_loop (Some zi) pq = Some r ->
            r = Some zi /\ (forall k, r = Some k -> 0 <= k < 255 -> Forall (blames k) ((p, q) :: pq))) as Hgo.
    { intros r' [H1 H2]%IH. split; [by apply H1|]. intros k Hr Hk. constructor; [|by apply H2].
      rewrite (H1 zi eq_refl) in Hr. injection Hr as <-. by apply log_quotient. }
    destruct z as [z0|]; [destruct (Z.eqb_spec z0 zi) as [->|]; [|done]|];
      intros [-> H2]%Hgo; (split; [intros; congruence|done]).
Qed.

Lemma locate_loop_nonneg pq z k :
  (forall z0, z = Some z0 -> 0 <= z0) -> locate_loop z pq = Some (Some k) -> 0 <= k.
Proof.
  revert z. induction pq as [|[p q] pq IH]; intros z Hz; cbn [locate_loop].
  { intros [= ->]. auto. }
  assert (forall z0, Some ((gf_log q + 255 - gf_log p) mod 255) = Some z0 -> 0 <= z0).
  { intros z0 [= <-]. apply Z.mod_pos_bound. lia. }
  repeat case_match; try done; by apply IH.
Qed.

Lemma zip_bytes pd qd :
  all_bytes pd -> all_bytes qd -> Forall (fun '(p, q) => byte p /\ byte q) (zip pd qd).
Proof.
  intros Hp. revert qd. induction Hp as [|p pd Hp Hpd IH]; intros [|q qd] Hq; try constructor.
  - by inversion Hq.
  - apply IH. by inversion Hq.
Qed.

Lemma zip_fst_nonzero pd qd :
  length pd = length qd -> existsb (fun pq : Z * Z => negb (fst pq =? 0)) (zip pd qd) = some_nonzero pd.
Proof.
  revert qd. induction pd as [|p pd IH]; intros [|q qd] Hl; try discriminate; [done|].
  cbn in *. by rewrite IH by lia.
Qed.

Lemma blames_both_bad k pd qd :
  length pd = length qd -> all_bytes pd -> all_bytes qd -> Forall (blames k) (zip pd qd) ->
  some_nonzero pd = some_nonzero qd.
Proof.
  intros Hl Hp. revert qd Hl. induction Hp as [|p pd Hp Hpd IH]; intros [|q qd] Hl Hq Hb; try discriminate; [done|].
  apply Forall_cons in Hq as [Hq Hqd]. cbn [zip zip_with] in Hb. apply Forall_cons in Hb as [Hb Hbd].
  cbn [length] in Hl. unfold some_nonzero. cbn [existsb]. fold (some_nonzero pd) (some_nonzero qd).
  rewrite (IH qd) by (done || lia). f_equal. f_equal.
  pose proof (blames_zero k p q Hp Hq Hb). bool_cases; tauto.
Qed.

(** [locate_raid6_fault] blames data strip [z] exactly when the residue of
    P is not zero and the residue of Q is, in every byte, [g^z] times it, which
    is what a fault confined to strip [z] leaves; so a strip it names is
    repaired by XORing P's residue into it, for both parities at once. *)
Lemma locate_blames_exactly pd qd n z :
  length pd = length qd -> all_bytes pd -> all_bytes qd -> 0 <= n <= 255 ->
  locate_raid6_fault pd qd n = FData z <->
  some_nonzero pd = true /\ 0 <= z < n /\ Forall (blames z) (zip pd qd).
Proof.
  intros Hl Hp Hq Hn. unfold locate_raid6_fault. fold (some_nonzero pd) (some_nonzero qd).
  pose proof (zip_bytes pd qd Hp Hq) as Hb. split.
  - destruct (some_nonzero pd) eqn:Ep, (some_nonzero qd) eqn:Eq; try discriminate.
    destruct (locate_loop None (zip pd qd)) as [[z'|]|] eqn:E; try discriminate.
    destruct (Z.ltb_spec z' n); [|discriminate]. intros [= ->].
    destruct (locate_loop_sound _ _ _ Hb E) as [_ Hall].
    assert (0 <= z) by (by apply (locate_loop_nonneg (zip pd qd) None)). split; [done|]. split; [lia|].
    apply Hall; [done|lia].
  - intros (Ep & Hz & Hall). rewrite <- (blames_both_bad z pd qd) by done. rewrite Ep.
    rewrite (locate_loop_complete z); [|lia|done|done|by left]. rewrite zip_fst_nonzero, Ep by done.
    destruct (Z.ltb_spec z n); [done|lia].
Qed.


(** Changing one entry of a column changes its sums by the difference. *)
Lemma xsum_change c x v v' :
  c !! x = Some v -> xsum (<[x := v']> c) = xor8 (xsum c) (xor8 v v').
Proof.
  intros Hx. rewrite (xsum_insert _ x v'), list_insert_insert_eq
    by (rewrite list_lookup_insert_eq; [done|by eapply lookup_lt_Some]).
  rewrite (xsum_insert c x v) by done. by rewrite <- xor8_assoc, xor8_cancel.
Qed.

Lemma horner_change c x v v' :
  Forall byte c -> byte v' -> c !! x = Some v ->
  horner (<[x := v']> c) = xor8 (horner c) (gf_mul (gf_pow2 (Z.of_nat x)) (xor8 v v')).
Proof.
  intros Hc Hv' Hx. assert (byte v) by (by apply (Forall_lookup_1 _ _ _ _ Hc Hx)). pose proof (gf_pow2_byte (Z.of_nat x)).
  rewrite (horner_insert _ x v'), list_insert_insert_eq;
    [|by apply Forall_insert|rewrite list_lookup_insert_eq; [done|by eapply lookup_lt_Some]].
  rewrite (horner_insert c x v) by done. by rewrite gf_mul_xor_r, <- xor8_assoc, xor8_cancel by done.
Qed.

Lemma tab_inj len f g : tab len f = tab len g <-> forall j, 0 <= j < len -> f j = g j.
Proof.
  split; [|apply tab_ext]. intros E j Hj. by rewrite <- (at_tab len f j), E, at_tab.
Qed.

(** Equations between XORs of the same bytes. *)
Ltac xor_bits :=
  unfold xor8; apply Z.bits_inj'; intros ? _; rewrite ?Z.lxor_spec, ?Z.bits_0;
  repeat match goal with |- context [Z.testbit ?x ?n] => destruct (Z.testbit x n) end; reflexivity.

Lemma zip_tab_Forall (R : Z * Z -> Prop) len f g :
  Forall R (zip (tab len f) (tab len g)) <-> forall j, 0 <= j < len -> R (f j, g j).
Proof.
  assert (forall l, zip (map f l) (map g l) = map (fun j => (f j, g j)) l) as Hz
    by (induction l as [|x l IH]; cbn; congruence).
  unfold tab. rewrite Hz, Forall_map, Forall_forall. split; intros H j Hj; [by apply H, elem_of_zrange|].
  apply elem_of_zrange in Hj. by apply H.
Qed.

Lemma bytes_as_tab_of s len : zlen s = len -> all_bytes s -> exists f, s = tab len f /\ forall j, byte (f j).
Proof. intros Hl Hb. exists (at_byte s). split; [by apply bytes_as_tab|]. intros j. by apply at_byte_byte. Qed.

Section Scrub.
Context (len : Z) (Hlen : 0 <= len).

(** What one changed strip explains: the parities read back are those of the
    strips with [s] at [z] exactly when [s] differs from what was read there by the
    residue of P and the residue of Q is [g^z] times that of P. *)
Lemma one_strip_explains D P Q (z : nat) d s :
  strips_ok len D -> D !! z = Some d -> zlen s = len -> all_bytes s ->
  zlen P = len -> all_bytes P -> zlen Q = len -> all_bytes Q ->
  let pd := zip_into xor8 P (P_of len D) in
  let qd := zip_into xor8 Q (Q_of len D) in
  P_of len (<[z := s]> D) = P /\ Q_of len (<[z := s]> D) = Q
  <-> s = zip_into xor8 d pd /\ Forall (blames (Z.of_nat z)) (zip pd qd).
Proof using Hlen.
  intros HD Hd Hs Hsb HP HPb HQ HQb pd qd. destruct (proj1 (Forall_lookup _ _) HD z d Hd) as [Hdl Hdb].
  pose proof (fun j => col_bytes len D j HD) as Hc. pose proof (fun j => col_lookup D j z d Hd) as Hcd.
  destruct (bytes_as_tab_of s len Hs Hsb) as (fs & -> & Hfs), (bytes_as_tab_of d len Hdl Hdb) as (fd & -> & Hfd).
  destruct (bytes_as_tab_of P len HP HPb) as (fp & -> & Hfp), (bytes_as_tab_of Q len HQ HQb) as (fq & -> & Hfq).
  subst pd qd. unfold P_of, Q_of. rewrite !zip_tab, !tab_inj, zip_tab_Forall. unfold blames. cbn [fst snd].
  assert (forall j, 0 <= j < len ->
    (xsum (col (<[z := tab len fs]> D) j) = fp j <-> fs j = xor8 (fd j) (xor8 (fp j) (xsum (col D j))))
    /\ horner (col (<[z := tab len fs]> D) j) = xor8 (horner (col D j)) (gf_mul (gf_pow2 (Z.of_nat z)) (xor8 (fd j) (fs j)))) as Hj.
  { intros j Hj. rewrite col_insert. specialize (Hcd j). rewrite at_tab in * by done.
    rewrite (xsum_change _ _ _ _ Hcd), horner_change with (v := fd j) by done. split; [|done].
    generalize (xsum (col D j)) (fp j) (fd j) (fs j). intros x p e s. split; [intros <-|intros ->]; xor_bits. }
  split.
  - intros [H1 H2]. split.
    + intros j Hr. by apply Hj, H1.
    + intros j Hr. destruct (Hj j Hr) as [_ E2]. rewrite <- H2, E2, (proj1 (proj1 (Hj j Hr)) (H1 j Hr)) by done.
      generalize (xsum (col D j)) (horner (col D j)). intros x q.
      replace (xor8 (fd j) (xor8 (fd j) (xor8 (fp j) x))) with (xor8 (fp j) x) by xor_bits. xor_bits.
  - intros [H1 H2]. split; intros j Hr; destruct (Hj j Hr) as [E E2]; [by apply E, H1|].
    rewrite E2, H1, xor8_cancel, <- H2 by done. xor_bits.
Qed.

(** The residue of a parity is zero exactly when it is as computed. *)
Lemma residue_zero A B : zlen A = len -> zlen B = len -> some_nonzero (zip_into xor8 A B) = false <-> A = B.
Proof using Hlen.
  intros HA HB. rewrite some_nonzero_false. rewrite (bytes_as_tab A len HA), (bytes_as_tab B len HB) at 1.
  rewrite zip_tab. unfold tab. rewrite Forall_map, Forall_forall. split.
  - intros H. rewrite (bytes_as_tab A len HA), (bytes_as_tab B len HB). apply tab_ext. intros j Hj.
    by apply xor8_eq_0, H, elem_of_zrange.
  - intros -> j _. apply xor8_nilpotent.
Qed.

Lemma change_explains a level D P Q k s d :
  D <> [] -> strips_ok len D -> strips_ok len [P; Q] -> D !! k = Some d -> strips_ok len [s] ->
  compute_raid6_parity a level (<[k := s]> D) len = Some (P, Q)
  <-> s = zip_into xor8 d (zip_into xor8 P (P_of len D))
      /\ Forall (blames (Z.of_nat k)) (zip (zip_into xor8 P (P_of len D)) (zip_into xor8 Q (Q_of len D))).
Proof using Hlen.
  intros Hne HD [[HP HPb] [[HQ HQb] _]%Forall_cons]%Forall_cons Hd [[Hs Hsb] _]%Forall_cons.
  rewrite <- (one_strip_explains D P Q k d s) by done. rewrite compute_raid6_parity_PQ; [|done| |apply Forall_insert; [done|by split]].
  - split; [by intros [= -> ->]|by intros [-> ->]].
  - intros E. apply (f_equal length) in E. rewrite length_insert in E. by destruct D.
Qed.
End Scrub.

(** C37. What a scrub of a RAID-6 stripe names is what is bad. Let [D] be the data
    strips and [P], [Q] the parities read back, whatever happened to them, and let
    the computed parities of [D] be [P1], [Q1]. [locate_raid6_fault] on the residues
    answers "none", P or Q exactly as the parities agree; it names strip [z] when
    changing [z] explains what was read, and then the only change of one strip that
    makes both parities right is XORing P's residue into [z], which is the repair;
    and it answers "several" only when P and Q both disagree and no change of one
    data strip explains them. *)
Theorem scrub_names_the_bad_strip a level len D P Q P1 Q1 :
  0 <= len -> D <> [] -> zlen D <= 255 -> strips_ok len D -> strips_ok len [P; Q] ->
  compute_raid6_parity a level D len = Some (P1, Q1) ->
  let pd := zip_into xor8 P P1 in
  let explains k s := compute_raid6_parity a level (<[k := s]> D) len = Some (P, Q) in
  match locate_raid6_fault pd (zip_into xor8 Q Q1) (zlen D) with
  | FNone => P = P1 /\ Q = Q1
  | FP => P <> P1 /\ Q = Q1
  | FQ => P = P1 /\ Q <> Q1
  | FData z => P <> P1 /\ Q <> Q1 /\ exists d, 0 <= z /\ D !! Z.to_nat z = Some d
      /\ forall k s, (k < length D)%nat -> strips_ok len [s] ->
           explains k s <-> k = Z.to_nat z /\ s = zip_into xor8 d pd
  | FSeveral => P <> P1 /\ Q <> Q1
      /\ forall k s, (k < length D)%nat -> strips_ok len [s] -> ~ explains k s
  end.
Proof.
  intros Hlen Hne Hn HD HPQ E. rewrite compute_raid6_parity_PQ in E by done. injection E as <- <-. cbv zeta.
  pose proof (fun k s d => change_explains len Hlen a level D P Q k s d Hne HD HPQ) as Hex.
  apply Forall_cons in HPQ as [[HP HPb] [[HQ HQb] _]%Forall_cons].
  destruct (P_of_ok len Hlen D HD) as [HP1 HP1b], (Q_of_ok len Hlen D HD) as [HQ1 HQ1b].
  pose proof (residue_zero len Hlen P _ HP HP1) as ZP. pose proof (residue_zero len Hlen Q _ HQ HQ1) as ZQ.
  set (pd := zip_into xor8 P (P_of len D)) in *. set (qd := zip_into xor8 Q (Q_of len D)) in *.
  pose proof (locate_blames_exactly pd qd (zlen D)) as Hloc. specialize (fun z Hl Hp Hq => Hloc z Hl Hp Hq (conj (zlen_nonneg D) Hn)).
  assert (forall z, locate_raid6_fault pd qd (zlen D) = FData z <->
    some_nonzero pd = true /\ 0 <= z < zlen D /\ Forall (blames z) (zip pd qd)) as Hloc'.
  { intros z. apply Hloc; [unfold pd, qd; rewrite !length_zip_into; unfold zlen in *; lia|by apply zip_into_bytes; auto using xor8_byte..]. }
  clear Hloc. destruct (locate_raid6_fault pd qd (zlen D)) as [| | |z|] eqn:E.
  4: { destruct (proj1 (Hloc' z) eq_refl) as (Hp & Hz & Hb).
    destruct (lookup_lt_is_Some_2 D (Z.to_nat z)) as [d Hd]; [unfold zlen in Hz; lia|].
    unfold locate_raid6_fault in E. fold (some_nonzero pd) (some_nonzero qd) in E. rewrite Hp in E.
    destruct (some_nonzero qd) eqn:Eq; [|done]. split; [intros ?%ZP; congruence|]. split; [intros ?%ZQ; congruence|]. exists d. split; [lia|]. split; [done|].
    intros k s Hk Hs. destruct (lookup_lt_is_Some_2 D k Hk) as [dk Hdk]. rewrite (Hex k s dk) by done. split.
    - intros [-> Hbk]. assert (FData z = FData (Z.of_nat k)) as [= ->] by (apply Hloc'; unfold zlen; repeat split; done || lia).
      rewrite Nat2Z.id in *. split; [done|congruence].
    - intros [-> ->]. split; [congruence|by rewrite Z2Nat.id by lia]. }
  all: unfold locate_raid6_fault in E; fold (some_nonzero pd) (some_nonzero qd) in E.
  all: destruct (some_nonzero pd) eqn:Ep, (some_nonzero qd) eqn:Eq; try done.
  all: rewrite <- ?ZP, <- ?ZQ; try done.
  all: try by (repeat case_match).
  split; [done|]. split; [done|]. intros k s Hk Hs. destruct (lookup_lt_is_Some_2 D k Hk) as [dk Hdk].
  rewrite (Hex k s dk) by done. intros [_ Hb].
  assert (FSeveral = FData (Z.of_nat k)); [|done]. apply Hloc'. split; [done|]. split; [unfold zlen; lia|done].
Qed.

(** Strips [1; 2], [3; 128] and [7; 77], read back with the second damaged. *)
Lemma scrub_names_the_bad_strip_witness :
  let pd := zip_into xor8 [5; 207] [15; 70] in
  locate_raid6_fault pd (zip_into xor8 [27; 54] [15; 57]) 3 = FData 1
  /\ zip_into xor8 [9; 9] pd = [3; 128]
  /\ forall k s, (k < 3)%nat -> strips_ok 2 [s] ->
       compute_raid6_parity X86_64 Avx2 (<[k := s]> [[1; 2]; [9; 9]; [7; 77]]) 2 = Some ([5; 207], [27; 54])
       <-> k = 1%nat /\ s = [3; 128].
Proof.
  cbv zeta. assert (strips_ok 2 [[1; 2]; [9; 9]; [7; 77]]) as HD by by_decide. assert (strips_ok 2 [[5; 207]; [27; 54]]) as HPQ by by_decide.
  split; [reflexivity|]. split; [reflexivity|].
  destruct (scrub_names_the_bad_strip X86_64 Avx2 2 [[1; 2]; [9; 9]; [7; 77]] [5; 207] [27; 54] [15; 70] [15; 57])
    as (_ & _ & d & _ & [= <-] & H); [lia|done|done|exact HD|exact HPQ|reflexivity|]. exact H.
Defined.
