(* ===== verification/Stripe.v ===== *)
(** Parity of parity-protected volumes: [volume/stripe.rs].  P and P+Q for one or two
    legs, Cauchy Reed-Solomon rows for three or four, over whole slots; whole-buffer
    multiplies are the RAID engine's ([Parity]). *)

From S2P Require Import Prelude Gf256 Parity.
Import Loop.

Section Stripe.
Context (a : arch) (simd : SimdLevel).

Definition xor_into (dst src : bytes) : bytes := zip_into xor8 dst src.
Definition mul_xor_into (dst src : bytes) (coef : Z) : bytes :=
  if coef =? 1 then xor_into dst src else gf_mul_xor_at a simd dst src coef.

Definition MAX_PARITY : Z := 4.
Definition MAX_EC_WIDTH : Z := 24.

(** [x = leg as u8], [y = parity.wrapping_add(member as u8)]. *)
Definition coef (parity leg member : Z) : Z :=
  if parity <=? 2 then (if leg =? 0 then 1 else gf_pow2 member)
  else gf_inv (xor8 (wrap 8 leg) (wrap 8 (parity + wrap 8 member))).

(** Leg [j] of [compute_parity]: member [i]'s slot folded in for each [i] that has one. *)
Fixpoint leg_of (parity j i : Z) (members : list (option bytes)) (acc : bytes) : bytes :=
  match members with
  | [] => acc
  | m :: r =>
      leg_of parity j (i + 1) r
        (match m with Some d => mul_xor_into acc d (coef (Z.max parity 1) j i) | None => acc end)
  end.
Definition compute_parity (members : list (option bytes)) (slot_len parity : Z) : list bytes :=
  map (fun j => leg_of parity j 0 members (zeros slot_len)) (zrange 0 (Z.max parity 1)).

Definition apply_delta_leg (leg_buf : bytes) (parity leg member : Z) (delta : bytes) : bytes :=
  mul_xor_into leg_buf delta (coef parity leg member).
Definition apply_delta (p : bytes) (q : option bytes) (member_idx : Z) (delta : bytes) : bytes * option bytes :=
  (xor_into p delta, (fun q => mul_xor_into q delta (gf_pow2 member_idx)) <$> q).

Record StripeError := mkUnrec { se_missing : Z; se_parity_available : Z }.

(** ** P and P+Q *)

(** XOR every member but those lost into a buffer, with the coefficients [c]. *)
Fixpoint fold_others (c : Z -> Z) (lost : list nat) (i : nat) (members : list (option bytes)) (acc : bytes) : bytes :=
  match members with
  | [] => acc
  | m :: r =>
      fold_others c lost (S i) r
        (if decide (i ∈ lost) then acc else mul_xor_into acc (unwrap m) (c (Z.of_nat i)))
  end.

Definition reconstruct (members : list (option bytes)) (p q : option bytes) (slot_len : Z)
    : result StripeError (list (option bytes)) :=
  let missing := missing_from 0 members in
  let available := (if p is Some _ then 1 else 0) + (if q is Some _ then 1 else 0) in
  match missing with
  | [] => Ok members
  | [x] =>
      match p, q with
      | Some p, _ => Ok (<[x := Some (fold_others (fun _ => 1) [x] 0 members p)]> members)
      | None, Some q =>
          let acc := fold_others gf_pow2 [x] 0 members q in
          let inv := gf_inv (gf_pow2 (Z.of_nat x)) in
          Ok (<[x := Some (map (gf_mul inv) acc)]> members)
      | None, None => Err (mkUnrec 1 available)
      end
  | [x; y] =>
      match p, q with
      | Some p, Some q =>
          let pxy := fold_others (fun _ => 1) [x; y] 0 members p in
          let qxy := fold_others gf_pow2 [x; y] 0 members q in
          let gx := gf_pow2 (Z.of_nat x) in
          let gy := gf_pow2 (Z.of_nat y) in
          let denom_inv := gf_inv (xor8 gx gy) in
          let dx := map (fun i => gf_mul denom_inv (xor8 (gf_mul gy (at_byte pxy i)) (at_byte qxy i))) (zrange 0 slot_len) in
          let dy := xor_into pxy dx in
          Ok (<[y := Some dy]> (<[x := Some dx]> members))
      | _, _ => Err (mkUnrec 2 available)
      end
  | _ => Err (mkUnrec (zlen missing) available)
  end.

(** ** Gauss-Jordan over the field *)

Definition cell (m : list (list Z)) (r c : nat) : Z := nth c (nth r m []) 0.
Definition swap_rows (m : list (list Z)) (i j : nat) : list (list Z) :=
  <[i := nth j m []]> (<[j := nth i m []]> m).
Definition scale_row (k : Z) (row : list Z) : list Z := map (fun x => gf_mul x k) row.
Definition sub_row (f : Z) (row piv : list Z) : list Z := zip_into (fun x y => xor8 x (gf_mul f y)) row piv.

(** [for r in 0..n]: clear column [col] of every row but [col]. *)
Definition clear_rows (n col : nat) (m : list (list Z) * list (list Z)) : list (list Z) * list (list Z) :=
  foldl (fun '(a, inv) r =>
    if decide (r = col) then (a, inv)
    else if cell a r col =? 0 then (a, inv)
    else let f := cell a r col in
         (<[r := sub_row f (nth r a []) (nth col a [])]> a,
          <[r := sub_row f (nth r inv []) (nth col inv [])]> inv))
    m (seq 0 n).

Definition pivot_of (n col : nat) (a : list (list Z)) : option nat :=
  hd_error (filter (fun r => cell a r col <> 0) (seq col (n - col))).

Definition gauss_col (n col : nat) (m : list (list Z) * list (list Z)) : option (list (list Z) * list (list Z)) :=
  let '(a, inv) := m in
  match pivot_of n col a with
  | None => None
  | Some p =>
      let a := swap_rows a col p in
      let inv := swap_rows inv col p in
      let k := gf_inv (cell a col col) in
      let a := <[col := scale_row k (nth col a [])]> a in
      let inv := <[col := scale_row k (nth col inv [])]> inv in
      Some (clear_rows n col (a, inv))
  end.
Definition identity (n : nat) : list (list Z) :=
  map (fun r => map (fun c => if decide (r = c) then 1 else 0) (seq 0 n)) (seq 0 n).
Fixpoint gauss_cols (n : nat) (cols : list nat) (m : list (list Z) * list (list Z)) : option (list (list Z)) :=
  match cols with
  | [] => Some (snd m)
  | col :: r => match gauss_col n col m with Some m => gauss_cols n r m | None => None end
  end.
Definition invert (n : nat) (a : list (list Z)) : option (list (list Z)) := gauss_cols n (seq 0 n) (a, identity n).

(** ** Any number of legs *)

Fixpoint present_from {A} (i : nat) (l : list (option A)) : list nat :=
  match l with
  | [] => []
  | None :: r => present_from (S i) r
  | Some _ :: r => i :: present_from (S i) r
  end.

(** A leg with every present member's share taken out. *)
Fixpoint residue (parity j : Z) (i : Z) (members : list (option bytes)) (acc : bytes) : bytes :=
  match members with
  | [] => acc
  | m :: r =>
      residue parity j (i + 1) r
        (match m with Some d => mul_xor_into acc d (coef parity j i) | None => acc end)
  end.

Definition combine (slot_len : Z) (row : list Z) (rhs : list bytes) : bytes :=
  foldl (fun x bk => mul_xor_into x (fst bk) (snd bk)) (zeros slot_len) (zip rhs row).

Definition reconstruct_legs (members legs : list (option bytes)) (parity slot_len : Z)
    : result StripeError (list (option bytes)) :=
  if parity <=? 2 then
    reconstruct members (default None (legs !! 0%nat)) (default None (legs !! 1%nat)) slot_len
  else
    let missing := missing_from 0 members in
    let rows := present_from 0 legs in
    match missing with
    | [] => Ok members
    | _ =>
        if (length rows <? length missing)%nat then Err (mkUnrec (zlen missing) (zlen rows))
        else
          let n := length missing in
          let rows := take n rows in
          let rhs := map (fun j => residue parity (Z.of_nat j) 0 members (unwrap (default None (legs !! j)))) rows in
          let m := map (fun j => map (fun x => coef parity (Z.of_nat j) (Z.of_nat x)) missing) rows in
          match invert n m with
          | None => Err (mkUnrec (Z.of_nat n) (zlen rows))
          | Some inv =>
              let solved := map (fun row => combine slot_len row rhs) inv in
              Ok (foldl (fun ms cx => <[fst cx := Some (snd cx)]> ms) members (zip missing solved))
          end
    end.
End Stripe.
