(* ===== verification/StripeGauss.v ===== *)
(** The linear algebra behind [reconstruct_legs], over the field of [Gf256]: Gauss-Jordan
    as the source does it gives the inverse when every pivot is found, and on a Cauchy
    matrix every pivot is. *)

From Stdlib Require Import Field.
From S2P Require Import Prelude Gf256.

Lemma gf_field_laws : field_theory g0 g1 gadd gmul gsub gopp gdiv ginv (@eq gf).
Proof. exact gf_field_theory. Qed.
Add Field gf_field_here : gf_field_laws.

#[export] Instance gf_eq_dec : EqDecision gf.
Proof.
  intros x y. destruct (Z.eq_dec (gv x) (gv y)) as [E|E]; [left; by apply gf_eq|right; by intros ->].
Defined.

Lemma gsub_0 x y : gsub x y = g0 -> x = y.
Proof. apply gadd_eq_0. Qed.
Lemma gsub_ne x y : x <> y -> gsub x y <> g0.
Proof. intros Hne H. by apply Hne, gsub_0. Qed.
Lemma gadd_self x : gadd x x = g0.
Proof. apply gf_eq. rewrite gv_gadd. apply xor8_nilpotent. Qed.
Lemma gmul_0_l x : gmul g0 x = g0.
Proof. ring. Qed.
Lemma gmul_0_r x : gmul x g0 = g0.
Proof. ring. Qed.
Lemma gmul_integral x y : gmul x y = g0 -> x <> g0 -> y = g0.
Proof.
  intros H Hx. assert (y = gmul (ginv x) (gmul x y)) as -> by (field; done). rewrite H. ring.
Qed.

(** ** Sums *)

Fixpoint gsum (n : nat) (f : nat -> gf) : gf :=
  match n with O => g0 | S n => gadd (gsum n f) (f n) end.

Lemma gsum_ext n f g : (forall i, (i < n)%nat -> f i = g i) -> gsum n f = gsum n g.
Proof. intros H. induction n as [|n IH]; [done|]. cbn [gsum]. rewrite IH, H by auto. done. Qed.
Lemma gsum_add n f g : gsum n (fun i => gadd (f i) (g i)) = gadd (gsum n f) (gsum n g).
Proof. induction n as [|n IH]; cbn [gsum]; [ring|]. rewrite IH. ring. Qed.
Lemma gsum_sub n f g : gsum n (fun i => gsub (f i) (g i)) = gsub (gsum n f) (gsum n g).
Proof. apply gsum_add. Qed.
Lemma gsum_scale n k f : gsum n (fun i => gmul k (f i)) = gmul k (gsum n f).
Proof. induction n as [|n IH]; cbn [gsum]; [ring|]. rewrite IH. ring. Qed.
Lemma gsum_0 n f : (forall i, (i < n)%nat -> f i = g0) -> gsum n f = g0.
Proof. intros H. induction n as [|n IH]; [done|]. cbn [gsum]. rewrite IH, H by auto. ring. Qed.
Lemma gsum_swap n m f : gsum n (fun i => gsum m (f i)) = gsum m (fun j => gsum n (fun i => f i j)).
Proof.
  induction n as [|n IH]; cbn [gsum]; [by rewrite gsum_0|]. by rewrite IH, <- gsum_add.
Qed.

Definition delta (i j : nat) : gf := if decide (i = j) then g1 else g0.
Lemma delta_eq i : delta i i = g1.
Proof. unfold delta. by rewrite decide_True. Qed.
Lemma delta_ne i j : i <> j -> delta i j = g0.
Proof. intros. unfold delta. by rewrite decide_False. Qed.

Lemma gsum_delta n i f : (i < n)%nat -> gsum n (fun k => gmul (delta i k) (f k)) = f i.
Proof.
  intros Hi. induction n as [|n IH]; [lia|]. cbn [gsum]. destruct (decide (i = n)) as [->|Hne].
  - rewrite gsum_0, delta_eq by (intros k Hk; rewrite delta_ne by lia; ring). ring.
  - rewrite IH, (delta_ne i n) by lia. ring.
Qed.

(** ** A Cauchy matrix has a trivial kernel *)

Section Cauchy.
Context (x y : nat -> gf).

Lemma cauchy_step (xj xn yk yn v : gf) :
  gsub xj yk <> g0 -> gsub xn yk <> g0 ->
  gsub (gmul (gsub xj yn) (gmul v (ginv (gsub xj yk)))) (gmul (gsub xn yn) (gmul v (ginv (gsub xn yk))))
  = gmul (gsub xj xn) (gmul (gmul (gmul v (gsub yn yk)) (ginv (gsub xn yk))) (ginv (gsub xj yk))).
Proof. intros. field. done. Qed.

Lemma cauchy_kernel n v :
  (forall i j, (i < n)%nat -> (j < n)%nat -> x i = x j -> i = j) ->
  (forall i j, (i < n)%nat -> (j < n)%nat -> y i = y j -> i = j) ->
  (forall i j, (i < n)%nat -> (j < n)%nat -> x i <> y j) ->
  (forall j, (j < n)%nat -> gsum n (fun k => gmul (v k) (ginv (gsub (x j) (y k)))) = g0) ->
  forall k, (k < n)%nat -> v k = g0.
Proof.
  revert v. induction n as [|n IH]; intros v Hx Hy Hxy Hv k Hk; [lia|].
  assert (forall i j, (i < S n)%nat -> (j < S n)%nat -> gsub (x i) (y j) <> g0) as Hd by (intros; by apply gsub_ne, Hxy).
  (* each row times x_j - y_n *)
  assert (forall j, (j < S n)%nat ->
    gadd (gsum n (fun k => gmul (gsub (x j) (y n)) (gmul (v k) (ginv (gsub (x j) (y k)))))) (v n) = g0) as Hrow.
  { intros j Hj. rewrite gsum_scale. specialize (Hv j Hj). cbn [gsum] in Hv. specialize (Hd j n Hj ltac:(lia)).
    replace (v n) with (gmul (gsub (x j) (y n)) (gmul (v n) (ginv (gsub (x j) (y n))))) at 1 by (field; done).
    transitivity (gmul (gsub (x j) (y n)) g0); [|ring]. rewrite <- Hv. ring. }
  set (w k := gmul (gmul (v k) (gsub (y n) (y k))) (ginv (gsub (x n) (y k)))).
  assert (forall k, (k < n)%nat -> w k = g0) as Hw.
  { apply IH; [intros; apply Hx; auto; lia|intros; apply Hy; auto; lia|intros; apply Hxy; lia|].
    intros j Hj. apply (gmul_integral (gsub (x j) (x n))).
    - rewrite <- gsum_scale.
      rewrite (gsum_ext n _ (fun k => gsub (gmul (gsub (x j) (y n)) (gmul (v k) (ginv (gsub (x j) (y k)))))
                                       (gmul (gsub (x n) (y n)) (gmul (v k) (ginv (gsub (x n) (y k)))))))
        by (intros; symmetry; apply cauchy_step; apply Hd; lia).
      rewrite gsum_sub. pose proof (Hrow j ltac:(lia)) as H1. pose proof (Hrow n ltac:(lia)) as H2.
      apply gadd_eq_0 in H1, H2. rewrite H1, H2. apply gadd_self.
    - apply gsub_ne. intros E. apply Hx in E; lia. }
  assert (forall k, (k < n)%nat -> v k = g0) as Hlow.
  { intros k' Hk'. specialize (Hw k' Hk'). unfold w in Hw.
    apply (gmul_integral (gmul (gsub (y n) (y k')) (ginv (gsub (x n) (y k'))))).
    - rewrite <- Hw. ring.
    - intros E. specialize (Hd n k' ltac:(lia) ltac:(lia)).
      assert (gsub (y n) (y k') = g0) as E'.
      { transitivity (gmul (gsub (x n) (y k')) (gmul (gsub (y n) (y k')) (ginv (gsub (x n) (y k'))))); [field; done|].
        rewrite E. ring. }
      apply gsub_0, Hy in E'; lia. }
  destruct (decide (k = n)) as [->|]; [|apply Hlow; lia].
  specialize (Hrow n ltac:(lia)). rewrite gsum_0 in Hrow; [rewrite <- Hrow; ring|].
  intros i Hi. rewrite Hlow by done. ring.
Qed.
End Cauchy.

(** ** Gauss-Jordan, on matrices as functions *)

Definition matrix := nat -> nat -> gf.

Definition transposed (i j r : nat) : nat := if decide (r = i) then j else if decide (r = j) then i else r.
Definition fswap (i j : nat) (m : matrix) : matrix := fun r => m (transposed i j r).
Definition fscale (i : nat) (k : gf) (m : matrix) : matrix :=
  fun r c => if decide (r = i) then gmul (m r c) k else m r c.
Definition fclear (i : nat) (f : nat -> gf) (m : matrix) : matrix :=
  fun r c => if decide (r = i) then m r c else gadd (m r c) (gmul (f r) (m i c)).

(** One column: both matrices through the same steps. *)
Definition fcolumn (col p : nat) (s : matrix * matrix) : matrix * matrix :=
  let m := fswap col p (fst s) in
  let k := ginv (m col col) in
  let m := fscale col k m in
  (fclear col (fun r => m r col) m, fclear col (fun r => m r col) (fscale col k (fswap col p (snd s)))).

(** A row against a vector. *)
Definition apply_row (n : nat) (v : nat -> gf) (m : matrix) (r : nat) : gf := gsum n (fun k => gmul (m r k) (v k)).

Lemma transposed_involutive i j r : transposed i j (transposed i j r) = r.
Proof. unfold transposed. repeat case_decide; congruence. Qed.
Lemma transposed_lt i j r n : (i < n)%nat -> (j < n)%nat -> (r < n)%nat -> (transposed i j r < n)%nat.
Proof. intros. unfold transposed. repeat case_decide; done. Qed.

Lemma apply_row_swap n v i j m r : apply_row n v (fswap i j m) r = apply_row n v m (transposed i j r).
Proof. done. Qed.
Lemma apply_row_scale n v i k m r :
  apply_row n v (fscale i k m) r = if decide (r = i) then gmul (apply_row n v m r) k else apply_row n v m r.
Proof.
  unfold apply_row, fscale. case_decide; [|done].
  transitivity (gmul k (gsum n (fun c => gmul (m r c) (v c)))); [|ring]. rewrite <- gsum_scale.
  apply gsum_ext. intros. ring.
Qed.
Lemma apply_row_clear n v i f m r :
  apply_row n v (fclear i f m) r
  = if decide (r = i) then apply_row n v m r else gadd (apply_row n v m r) (gmul (f r) (apply_row n v m i)).
Proof.
  unfold apply_row, fclear. case_decide; [done|]. rewrite <- gsum_scale, <- gsum_add. apply gsum_ext. intros. ring.
Qed.

Section Gauss.
Context (n : nat) (m0 : matrix).

(** What the columns done so far have achieved. *)
Record gauss_inv (col : nat) (s : matrix * matrix) : Prop := {
  gi_product r k : (r < n)%nat -> (k < n)%nat -> apply_row n (fun c => m0 c k) (snd s) r = fst s r k;
  gi_kernel v : (forall r, (r < n)%nat -> apply_row n v (fst s) r = g0) -> forall r, (r < n)%nat -> apply_row n v m0 r = g0;
  gi_unit r c : (r < n)%nat -> (c < col)%nat -> fst s r c = delta r c }.

Lemma gauss_start : gauss_inv 0 (m0, delta).
Proof.
  split; [|done|lia]. intros r k Hr Hk. exact (gsum_delta n r (fun c => m0 c k) Hr).
Qed.

Lemma gauss_column col p s :
  gauss_inv col s -> (col <= p < n)%nat -> fst s p col <> g0 -> gauss_inv (S col) (fcolumn col p s).
Proof.
  intros [Hp Hk Hu] Hcp Hne. destruct s as [m inv]. cbn [fst snd] in *. unfold fcolumn. cbn [fst snd].
  set (m1 := fswap col p m). set (i1 := fswap col p inv). set (k := ginv (m1 col col)).
  assert (m1 col col = m p col) as Hpiv by (unfold m1, fswap, transposed; by rewrite decide_True by done).
  assert (k <> g0) as Hknz.
  { unfold k. rewrite Hpiv. intros E. assert (gmul (ginv (m p col)) (m p col) = g1) as E1 by (field; done).
    rewrite E in E1. revert E1. rewrite gmul_0_l. intros E1. by apply (f_equal gv) in E1. }
  set (m2 := fscale col k m1). split; cbn [fst snd].
  - intros r c Hr Hc. rewrite apply_row_clear, !apply_row_scale. unfold i1. rewrite !apply_row_swap.
    rewrite !Hp by (done || apply transposed_lt; lia). unfold fclear, m2, fscale.
    destruct (decide (r = col)) as [->|Hrc]; by destruct (decide (col = col)).
  - intros v Hv. apply Hk. intros r Hr.
    assert (forall r, (r < n)%nat -> apply_row n v m2 r = g0) as H2.
    { assert (apply_row n v m2 col = g0) as Hcol.
      { specialize (Hv col ltac:(lia)). by rewrite apply_row_clear, decide_True in Hv by done. }
      intros r' Hr'. specialize (Hv r' Hr'). rewrite apply_row_clear in Hv. case_decide; [done|].
      rewrite Hcol in Hv. rewrite <- Hv. ring. }
    assert (forall r, (r < n)%nat -> apply_row n v m1 r = g0) as H1.
    { intros r' Hr'. specialize (H2 r' Hr'). unfold m2 in H2. rewrite apply_row_scale in H2. case_decide; [|done].
      apply (gmul_integral k); [|done]. rewrite <- H2. ring. }
    specialize (H1 (transposed col p r) ltac:(apply transposed_lt; lia)). unfold m1 in H1.
    by rewrite apply_row_swap, transposed_involutive in H1.
  - intros r c Hr Hc.
    assert (forall r c, (r < n)%nat -> (c < col)%nat -> m1 r c = delta r c) as Hu1.
    { intros r' c' Hr' Hc'. unfold m1, fswap. rewrite Hu by (done || apply transposed_lt; lia).
      unfold transposed. repeat case_decide; subst; rewrite ?delta_ne by lia; done. }
    assert (forall r c, (r < n)%nat -> (c < col)%nat -> m2 r c = delta r c) as Hu2.
    { intros r' c' Hr' Hc'. unfold m2, fscale. rewrite Hu1 by done. case_decide; [|done].
      subst. rewrite delta_ne by lia. ring. }
    assert (m2 col col = g1) as Hone.
    { unfold m2, fscale. rewrite decide_True by done. unfold k. field. by rewrite Hpiv. }
    unfold fclear. case_decide as Er.
    + subst r. destruct (decide (c = col)) as [->|]; [by rewrite delta_eq|]. apply Hu2; lia.
    + destruct (decide (c = col)) as [->|].
      * rewrite Hone, (delta_ne r col) by done. transitivity (gadd (m2 r col) (m2 r col)); [ring|apply gadd_self].
      * rewrite (Hu2 r c), (Hu2 col c), (delta_ne col c) by lia. ring.
Qed.

(** While the matrix has a trivial kernel, no column lacks a pivot. *)
Lemma pivot_exists col s :
  (forall v, (forall r, (r < n)%nat -> apply_row n v m0 r = g0) -> forall k, (k < n)%nat -> v k = g0) ->
  gauss_inv col s -> (col < n)%nat -> exists p, (col <= p < n)%nat /\ fst s p col <> g0.
Proof.
  intros Hker [_ Hk Hu] Hcol. set (m := fst s) in *.
  destruct (decide (Exists (fun p => m p col <> g0) (seq col (n - col)))) as [He|Hno].
  { apply Exists_exists in He as (p & Hin & Hp). apply elem_of_seq in Hin. exists p. split; [lia|done]. }
  exfalso. assert (forall r, (col <= r < n)%nat -> m r col = g0) as Hz.
  { intros r Hr. apply dec_stable. intros Hne. apply Hno, Exists_exists. exists r. split; [apply elem_of_seq; lia|done]. }
  set (low k := if decide (k < col)%nat then m k col else g0).
  set (v k := gadd (low k) (delta col k)).
  assert (v col = g0) as Hv.
  { apply Hker; [|done]. apply Hk. intros r Hr. unfold apply_row.
    rewrite (gsum_ext n _ (fun k => gadd (gmul (delta r k) (low k)) (gmul (delta col k) (m r k)))).
    - rewrite gsum_add, !gsum_delta by done. unfold low. case_decide; [apply gadd_self|]. rewrite Hz by lia. apply gadd_self.
    - intros k Hkn. unfold v, low. case_decide; [rewrite Hu by done; ring|]. rewrite !gmul_0_r. ring. }
  unfold v, low in Hv. rewrite decide_False, delta_eq in Hv by lia. by apply (f_equal gv) in Hv.
Qed.

(** All columns done, the second matrix is the inverse of [m0]. *)
Lemma gauss_done s :
  gauss_inv n s -> forall r k, (r < n)%nat -> (k < n)%nat -> gsum n (fun c => gmul (snd s r c) (m0 c k)) = delta r k.
Proof. intros [Hp _ Hu] r k Hr Hk. rewrite <- (Hu r k Hr Hk). by rewrite <- Hp. Qed.
End Gauss.
