(* ===== verification/StripeProofs.v ===== *)
(** Parity volumes recover what they lose: [compute_parity] then [reconstruct_legs], for one
    to four legs, and the parity update by delta. What a parity volume relies on from
    [volume/stripe.rs]: whatever [compute_parity] protects, [reconstruct_legs] gives back
    while as many legs as members survive, and a write's delta keeps every leg current. *)

From Stdlib Require Import Field.
From S2P Require Import Prelude Gf256 Parity ParityKernels ParityRecover Stripe StripeGauss.

Import Loop.

Lemma gf_field_laws_too : field_theory g0 g1 gadd gmul gsub gopp gdiv ginv (@eq gf).
Proof. exact gf_field_theory. Qed.
Add Field gf_field_there : gf_field_laws_too.

(** ** The source's matrices are the functions of [StripeGauss] *)

Definition row_of (n : nat) (f : nat -> gf) : list Z := map (fun c => gv (f c)) (seq 0 n).
Definition lift (n : nat) (m : matrix) : list (list Z) := map (fun r => row_of n (m r)) (seq 0 n).

Lemma lookup_map_seq {A} (f : nat -> A) n i : (i < n)%nat -> map f (seq 0 n) !! i = Some (f i).
Proof. intros Hi. rewrite list_lookup_fmap, lookup_seq_lt by done. done. Qed.
Lemma nth_map_seq {A} (f : nat -> A) n i d : (i < n)%nat -> nth i (map f (seq 0 n)) d = f i.
Proof. intros Hi. rewrite nth_lookup, lookup_map_seq by done. done. Qed.

Lemma lift_row n m r : (r < n)%nat -> nth r (lift n m) [] = row_of n (m r).
Proof. apply (nth_map_seq (fun r => row_of n (m r))). Qed.
Lemma lift_cell n m r c : (r < n)%nat -> (c < n)%nat -> cell (lift n m) r c = gv (m r c).
Proof. intros. unfold cell. rewrite lift_row by done. by apply (nth_map_seq (fun c => gv (m r c))). Qed.

Lemma row_ext n f g : (forall c, (c < n)%nat -> f c = g c) -> row_of n f = row_of n g.
Proof. intros H. apply map_ext_in. intros c Hc%in_seq. by rewrite H by lia. Qed.
Lemma lift_ext n m m' : (forall r c, (r < n)%nat -> (c < n)%nat -> m r c = m' r c) -> lift n m = lift n m'.
Proof. intros H. apply map_ext_in. intros r Hr%in_seq. apply row_ext. intros. apply H; lia. Qed.

Lemma lift_insert n m r f :
  (r < n)%nat -> <[r := row_of n f]> (lift n m) = lift n (fun r' => if decide (r' = r) then f else m r').
Proof.
  intros Hr. apply list_eq. intros j. unfold lift. destruct (decide (j < n)%nat) as [Hj|Hj].
  - rewrite lookup_map_seq by done. destruct (decide (j = r)) as [->|Hne].
    + rewrite list_lookup_insert_eq; [done|]. by rewrite length_map, length_seq.
    + by rewrite list_lookup_insert_ne, lookup_map_seq by done.
  - rewrite !lookup_ge_None_2; [done|..]; rewrite ?length_insert, length_map, length_seq; lia.
Qed.

Lemma lift_identity n : identity n = lift n delta.
Proof.
  unfold identity, lift, row_of. apply map_ext. intros r. apply map_ext. intros c. unfold delta. by case_decide.
Qed.

Lemma lift_swap n m i j : (i < n)%nat -> (j < n)%nat -> swap_rows (lift n m) i j = lift n (fswap i j m).
Proof.
  intros Hi Hj. unfold swap_rows. rewrite !lift_row, !lift_insert by done. apply lift_ext. intros r c Hr Hc.
  unfold fswap, transposed. repeat case_decide; subst; done.
Qed.

Lemma loop_mul_gv x y : Loop.gf_mul (gv x) (gv y) = gv (gmul x y).
Proof. rewrite gv_gmul. by apply loop_mul_is_tab_mul. Qed.
Lemma loop_inv_gv x : Loop.gf_inv (gv x) = gv (ginv x).
Proof.
  destruct (decide (gv x = 0)) as [E|E].
  - unfold ginv. by rewrite E.
  - rewrite loop_inv_is_tab_inv by auto. rewrite gv_ginv; [done|]. intros ->. by apply E.
Qed.

Lemma scale_row_of n k f : scale_row (gv k) (row_of n f) = row_of n (fun c => gmul (f c) k).
Proof. unfold scale_row, row_of. rewrite map_map. apply map_ext. intros c. apply loop_mul_gv. Qed.
Lemma sub_row_of n x f g : sub_row (gv x) (row_of n f) (row_of n g) = row_of n (fun c => gadd (f c) (gmul x (g c))).
Proof.
  unfold sub_row, row_of. generalize (seq 0 n) as l. induction l as [|c l IH]; [done|]. cbn [map zip_into].
  by rewrite IH, loop_mul_gv, gv_gadd.
Qed.

Lemma lift_scale n i k m :
  (i < n)%nat -> <[i := scale_row (gv k) (nth i (lift n m) [])]> (lift n m) = lift n (fscale i k m).
Proof.
  intros Hi. rewrite lift_row, scale_row_of, lift_insert by done. apply lift_ext. intros r c _ _.
  unfold fscale. case_decide; by subst.
Qed.

(** Rows before [t] cleared. *)
Definition cleared_to (t i : nat) (f : nat -> gf) (m : matrix) : matrix :=
  fun r c => if decide (r < t)%nat then fclear i f m r c else m r c.

Lemma clear_rows_lift n col m inv :
  (col < n)%nat ->
  clear_rows n col (lift n m, lift n inv) = (lift n (fclear col (fun r => m r col) m), lift n (fclear col (fun r => m r col) inv)).
Proof.
  intros Hcol. set (f r := m r col). unfold clear_rows.
  assert (forall t, (t <= n)%nat ->
    foldl (fun '(a, inv) r =>
      if decide (r = col) then (a, inv)
      else if cell a r col =? 0 then (a, inv)
      else (<[r := sub_row (cell a r col) (nth r a []) (nth col a [])]> a,
            <[r := sub_row (cell a r col) (nth r inv []) (nth col inv [])]> inv)) (lift n m, lift n inv) (seq 0 t)
    = (lift n (cleared_to t col f m), lift n (cleared_to t col f inv))) as Ht.
  { induction t as [|t IH]; intros Hle.
    - cbn [seq foldl]. f_equal; apply lift_ext; intros; unfold cleared_to; by rewrite decide_False by lia.
    - rewrite seq_S, foldl_app, IH by lia. cbn [foldl Nat.add].
      assert (forall x r c, cleared_to t col f x r c = if decide (r < t)%nat then fclear col f x r c else x r c) as Hc by done.
      assert (forall x, cleared_to t col f x col = x col) as Hpiv.
      { intros x. unfold cleared_to, fclear. destruct (decide (col < t)%nat), (decide (col = col)); done. }
      destruct (decide (t = col)) as [->|Hne].
      + f_equal; apply lift_ext; intros r c _ _; unfold cleared_to, fclear;
          destruct (decide (r = col)) as [->|]; repeat case_decide; try done; lia.
      + rewrite lift_cell, Hc, decide_False by lia. fold (f t).
        destruct (Z.eqb_spec (gv (f t)) 0) as [E|E].
        * assert (f t = g0) as Hz by (by apply gf_eq).
          f_equal; apply lift_ext; intros r c _ _; unfold cleared_to, fclear;
            repeat case_decide; try done; try lia; replace r with t by lia; rewrite Hz, gmul_0_l; ring.
        * rewrite !lift_row, !sub_row_of, !lift_insert by lia.
          f_equal; apply lift_ext; intros r c _ _; rewrite Hpiv; unfold cleared_to, fclear;
            repeat case_decide; subst; try done; lia. }
  specialize (Ht n ltac:(lia)). unfold f in Ht |- *. etransitivity; [exact Ht|].
  f_equal; apply lift_ext; intros r c Hr _; unfold cleared_to; by rewrite decide_True.
Qed.

Lemma pivot_of_lift n col m p :
  (col < n)%nat -> pivot_of n col (lift n m) = Some p -> (col <= p < n)%nat /\ m p col <> g0.
Proof.
  unfold pivot_of. intros Hcol Hp.
  assert (p ∈ filter (fun r => cell (lift n m) r col <> 0) (seq col (n - col))) as Hin.
  { destruct (filter _ _) as [|p' l]; [done|]. injection Hp as <-. by left. }
  apply list_elem_of_filter in Hin as [Hc Hin%elem_of_seq]. split; [lia|].
  rewrite lift_cell in Hc by lia. intros E. by rewrite E in Hc.
Qed.

Lemma pivot_of_some n col m p :
  (col <= p < n)%nat -> m p col <> g0 -> is_Some (pivot_of n col (lift n m)).
Proof.
  intros Hp Hne. unfold pivot_of.
  assert (p ∈ filter (fun r => cell (lift n m) r col <> 0) (seq col (n - col))) as Hin.
  { apply list_elem_of_filter. split; [|apply elem_of_seq; lia]. rewrite lift_cell by lia.
    intros E. apply Hne. by apply gf_eq. }
  destruct (filter _ _) as [|p' l]; [by apply elem_of_nil in Hin|by eexists].
Qed.

Lemma gauss_col_lift n col m inv :
  (col < n)%nat ->
  match gauss_col n col (lift n m, lift n inv) with
  | Some s => exists p, (col <= p < n)%nat /\ m p col <> g0
                /\ s = (lift n (fst (fcolumn col p (m, inv))), lift n (snd (fcolumn col p (m, inv))))
  | None => pivot_of n col (lift n m) = None
  end.
Proof.
  intros Hcol. unfold gauss_col. destruct (pivot_of n col (lift n m)) as [p|] eqn:Hp; [|done].
  apply pivot_of_lift in Hp as [Hp Hne]; [|done]. exists p. split; [done|]. split; [done|].
  rewrite !lift_swap, lift_cell, loop_inv_gv, !lift_scale by lia. apply clear_rows_lift. done.
Qed.

(** [invert] gives the inverse of any matrix with a trivial kernel. *)
Lemma invert_lift n m0 :
  (forall v, (forall r, (r < n)%nat -> apply_row n v m0 r = g0) -> forall k, (k < n)%nat -> v k = g0) ->
  exists inv, invert n (lift n m0) = Some (lift n inv)
    /\ forall r k, (r < n)%nat -> (k < n)%nat -> gsum n (fun c => gmul (inv r c) (m0 c k)) = delta r k.
Proof.
  intros Hker. unfold invert. rewrite lift_identity.
  assert (forall t col s, (col + t = n)%nat -> gauss_inv n m0 col s ->
    exists s', gauss_cols n (seq col t) (lift n (fst s), lift n (snd s)) = Some (lift n (snd s')) /\ gauss_inv n m0 n s') as Hrun.
  { induction t as [|t IH]; intros col s Hct Hs; cbn [seq gauss_cols].
    - exists s. split; [done|]. assert (col = n) as -> by lia. done.
    - destruct s as [m inv]. cbn [fst snd]. pose proof (gauss_col_lift n col m inv ltac:(lia)) as Hg.
      destruct (gauss_col n col (lift n m, lift n inv)) as [s'|].
      + destruct Hg as (p & Hp & Hne & ->). apply (IH (S col) (fcolumn col p (m, inv))); [lia|].
        by apply gauss_column.
      + exfalso. destruct (pivot_exists n m0 col (m, inv) Hker Hs ltac:(lia)) as (p & Hp & Hne).
        destruct (pivot_of_some n col m p Hp Hne) as [x Hx]. congruence. }
  destruct (Hrun n 0%nat (m0, delta)) as (s' & Hr & Hi); [lia|apply gauss_start|].
  exists (snd s'). split; [exact Hr|]. by apply gauss_done.
Qed.

(** ** Buffers of field elements *)

Definition tabg (len : Z) (f : Z -> gf) : bytes := tab len (fun b => gv (f b)).
Definition elem (s : bytes) (b : Z) : gf := mkgf (at_byte s b).

Lemma tabg_ext len f g : (forall b, f b = g b) -> tabg len f = tabg len g.
Proof. intros H. apply tab_ext. intros b _. by rewrite H. Qed.
Lemma tabg_bytes len f : all_bytes (tabg len f).
Proof. apply tab_bytes. auto. Qed.
Lemma bytes_as_tabg s len : zlen s = len -> all_bytes s -> s = tabg len (elem s).
Proof.
  intros Hl Hs. rewrite (bytes_as_tab s len Hl) at 1. apply tab_ext. intros b _. unfold elem.
  rewrite gv_mkgf; [done|]. by apply at_byte_byte.
Qed.
Lemma zeros_tabg len : zeros len = tabg len (fun _ => g0).
Proof. apply tab_zeros. Qed.

Section Volumes.
Context (a : arch) (simd : SimdLevel) (len : Z) (Hlen : 0 <= len).

Lemma xor_into_tabg f g : xor_into (tabg len f) (tabg len g) = tabg len (fun b => gadd (f b) (g b)).
Proof using Type. unfold xor_into, tabg. rewrite zip_tab. apply tab_ext. intros b _. by rewrite gv_gadd. Qed.

Lemma mul_xor_into_tabg f g k :
  mul_xor_into a simd (tabg len f) (tabg len g) (gv k) = tabg len (fun b => gadd (f b) (gmul k (g b))).
Proof using Hlen.
  unfold mul_xor_into. destruct (Z.eqb_spec (gv k) 1) as [E|E].
  - assert (k = g1) as -> by (by apply gf_eq). rewrite xor_into_tabg. apply tabg_ext. intros b. ring.
  - unfold tabg. rewrite gf_mul_xor_at_zip, zip_tab; [|auto|by rewrite !length_tab|apply tabg_bytes..].
    apply tab_ext. intros b _. unfold mx1. by rewrite gv_gadd, gv_gmul.
Qed.

(** Sums over a list of member indices. *)
Definition lsum (l : list nat) (f : nat -> gf) : gf := foldr (fun x acc => gadd (f x) acc) g0 l.

Lemma lsum_split {A} i (ms : list (option A)) f :
  lsum (seq i (length ms)) f = gadd (lsum (present_from i ms) f) (lsum (missing_from i ms) f).
Proof using Type.
  revert i. induction ms as [|[d|] ms IH]; intros i; cbn [length seq present_from missing_from lsum foldr]; [ring|..];
    fold (lsum (seq (S i) (length ms)) f); rewrite IH; unfold lsum; ring.
Qed.

Lemma lsum_gsum l f : lsum l f = gsum (length l) (fun t => f (nth t l 0%nat)).
Proof using Type.
  induction l as [|x l IH] using rev_ind; [done|]. rewrite length_app. cbn [length]. rewrite Nat.add_1_r. cbn [gsum].
  unfold lsum. rewrite foldr_app. cbn [foldr].
  assert (forall z, foldr (fun x acc => gadd (f x) acc) z l = gadd (lsum l f) z) as Hz.
  { intros z. unfold lsum. clear IH. induction l as [|y l IH]; cbn [foldr]; [ring|]. rewrite IH. ring. }
  rewrite Hz, IH. rewrite app_nth2, Nat.sub_diag by lia. cbn [nth].
  rewrite (gsum_ext (length l) _ (fun t => f (nth t (l ++ [x]) 0%nat))); [ring|].
  intros t Ht. by rewrite app_nth1 by lia.
Qed.

(** What [residue], [leg_of] and [fold_others] have in common. *)
Context (D : nat -> Z -> gf).
Definition strip (k : nat) : bytes := tabg len (D k).
(** Each member is its own strip, or lost. *)
Definition members_ok (i : nat) (ms : list (option bytes)) : Prop :=
  forall k d, ms !! k = Some (Some d) -> d = strip (i + k).

Lemma members_ok_tail i m ms : members_ok i (m :: ms) -> members_ok (S i) ms.
Proof using Type. intros H k d Hk. rewrite (H (S k) d Hk). f_equal. lia. Qed.

Lemma residue_tabg parity j cg i ms acc :
  (forall k, (i <= k < i + length ms)%nat -> coef parity j (Z.of_nat k) = gv (cg k)) -> members_ok i ms ->
  residue a simd parity j (Z.of_nat i) ms (tabg len acc)
  = tabg len (fun b => gadd (acc b) (lsum (present_from i ms) (fun k => gmul (cg k) (D k b)))).
Proof using Hlen.
  revert i acc. induction ms as [|m ms IH]; intros i acc Hc Hms; cbn [residue present_from].
  { apply tabg_ext. intros b. unfold lsum. cbn [foldr]. ring. }
  replace (Z.of_nat i + 1) with (Z.of_nat (S i)) by lia. cbn [length] in Hc.
  pose proof (members_ok_tail i m ms Hms) as Hms'. destruct m as [d|].
  - rewrite (Hms 0%nat d eq_refl), Nat.add_0_r, (Hc i) by lia. unfold strip. rewrite mul_xor_into_tabg.
    rewrite IH by (done || (intros; apply Hc; lia)). apply tabg_ext. intros b. unfold lsum. cbn [foldr]. ring.
  - apply IH; [intros; apply Hc; lia|done].
Qed.

Lemma leg_of_residue parity j i ms acc : leg_of a simd parity j i ms acc = residue a simd (Z.max parity 1) j i ms acc.
Proof using Type. revert i acc. induction ms as [|m ms IH]; intros i acc; [done|]. cbn [leg_of residue]. apply IH. Qed.

(** With the lost members exactly those given, [fold_others] takes the present ones. *)
Lemma fold_others_tabg c cg lost i ms acc :
  (forall k, (i <= k < i + length ms)%nat -> c (Z.of_nat k) = gv (cg k)) -> members_ok i ms ->
  (forall k, (i <= k < i + length ms)%nat -> (k ∈ lost <-> ms !! (k - i)%nat = Some None)) ->
  fold_others a simd c lost i ms (tabg len acc)
  = tabg len (fun b => gadd (acc b) (lsum (present_from i ms) (fun k => gmul (cg k) (D k b)))).
Proof using Hlen.
  revert i acc. induction ms as [|m ms IH]; intros i acc Hc Hms Hl; cbn [fold_others present_from].
  { apply tabg_ext. intros b. unfold lsum. cbn [foldr]. ring. }
  cbn [length] in Hc, Hl. pose proof (members_ok_tail i m ms Hms) as Hms'.
  assert (forall acc, fold_others a simd c lost (S i) ms (tabg len acc)
    = tabg len (fun b => gadd (acc b) (lsum (present_from (S i) ms) (fun k => gmul (cg k) (D k b))))) as IH'.
  { intros acc'. apply IH; [intros; apply Hc; lia|done|]. intros k Hk. rewrite Hl by lia.
    replace (k - i)%nat with (S (k - S i)) by lia. done. }
  specialize (Hl i ltac:(lia)). rewrite Nat.sub_diag in Hl. cbn [lookup list_lookup] in Hl.
  destruct m as [d|].
  - rewrite decide_False by (intros Hin; by apply Hl in Hin). change (unwrap (Some d)) with d.
    rewrite (Hms 0%nat d eq_refl), Nat.add_0_r, (Hc i) by lia. unfold strip. rewrite mul_xor_into_tabg, IH'.
    apply tabg_ext. intros b. unfold lsum. cbn [foldr]. ring.
  - rewrite decide_True by (by apply Hl). apply IH'.
Qed.

Lemma lsum_lost {A} (ms : list (option A)) f :
  gadd (lsum (seq 0 (length ms)) f) (lsum (present_from 0 ms) f) = lsum (missing_from 0 ms) f.
Proof using Type.
  rewrite lsum_split. transitivity (gadd (lsum (missing_from 0 ms) f) (gadd (lsum (present_from 0 ms) f) (lsum (present_from 0 ms) f)));
    [ring|]. rewrite gadd_self. ring.
Qed.

(** *** Filling in *)

Lemma lookup_fill (l : list nat) : forall ms (k : nat),
  (k < length ms)%nat ->
  foldl (fun ms x => <[x := Some (strip x)]> ms) ms l !! k = if decide (k ∈ l) then Some (Some (strip k)) else ms !! k.
Proof using Type.
  induction l as [|x l IH]; intros ms k Hk; cbn [foldl].
  { by rewrite decide_False by (by apply not_elem_of_nil). }
  rewrite IH by (by rewrite length_insert). destruct (decide (k ∈ l)) as [Hin|Hin].
  - by rewrite decide_True by (by right).
  - destruct (decide (k = x)) as [->|Hne].
    + rewrite list_lookup_insert_eq, decide_True by (done || by left). done.
    + rewrite list_lookup_insert_ne by done. by rewrite decide_False by (rewrite elem_of_cons; tauto).
Qed.

Definition whole (w : nat) : list (option bytes) := map (fun k => Some (strip k)) (seq 0 w).

Lemma fill_whole ms :
  members_ok 0 ms -> foldl (fun ms x => <[x := Some (strip x)]> ms) ms (missing_from 0 ms) = whole (length ms).
Proof using Type.
  intros Hms. apply list_eq. intros k.
  assert (forall l ms, length (foldl (fun ms x => <[x := Some (strip x)]> ms) ms l) = length ms) as Hl.
  { clear. induction l as [|x l IH]; intros ms; [done|]. cbn [foldl]. by rewrite IH, length_insert. }
  destruct (decide (k < length ms)%nat) as [Hk|Hk].
  - rewrite lookup_fill by done. unfold whole. rewrite lookup_map_seq by done.
    destruct (lookup_lt_is_Some_2 ms k Hk) as [[d|] Hd].
    + rewrite decide_False; [rewrite Hd; by rewrite (Hms k d Hd)|].
      rewrite elem_of_missing_from. intros (j & -> & Hj). cbn in Hd. congruence.
    + rewrite decide_True; [done|]. rewrite elem_of_missing_from. by exists k.
  - rewrite !lookup_ge_None_2; [done|unfold whole; rewrite length_map, length_seq; lia|rewrite Hl; lia].
Qed.

(** *** P and P+Q *)

Definition p_leg (w : nat) : bytes := tabg len (fun b => lsum (seq 0 w) (fun k => D k b)).
Definition q_leg (w : nat) : bytes := tabg len (fun b => lsum (seq 0 w) (fun k => gmul (ggen (Z.of_nat k)) (D k b))).

Lemma pow2_gv k : gf_pow2 k = gv (ggen k).
Proof using Type. rewrite gv_ggen. apply loop_pow2_is_tab_pow2. Qed.

Lemma lost_members_iff {A} (ms : list (option A)) k :
  (k ∈ missing_from 0 ms <-> ms !! (k - 0)%nat = Some None).
Proof using Type.
  rewrite elem_of_missing_from, Nat.sub_0_r. split; [by intros (j & -> & Hj)|intros Hj; by exists k].
Qed.

Lemma p_residue ms :
  members_ok 0 ms ->
  fold_others a simd (fun _ => 1) (missing_from 0 ms) 0 ms (p_leg (length ms))
  = tabg len (fun b => lsum (missing_from 0 ms) (fun k => D k b)).
Proof using Hlen.
  intros Hms. unfold p_leg. rewrite (fold_others_tabg _ (fun _ => g1)); [|done|done|intros; apply lost_members_iff].
  apply tabg_ext. intros b. rewrite <- lsum_lost. f_equal.
  induction (present_from 0 ms) as [|x l IH]; [done|]. cbn [lsum foldr]. fold (lsum l). unfold lsum in *. rewrite IH. ring.
Qed.
Lemma q_residue ms :
  members_ok 0 ms ->
  fold_others a simd gf_pow2 (missing_from 0 ms) 0 ms (q_leg (length ms))
  = tabg len (fun b => lsum (missing_from 0 ms) (fun k => gmul (ggen (Z.of_nat k)) (D k b))).
Proof using Hlen.
  intros Hms. unfold q_leg. rewrite (fold_others_tabg _ (fun k => ggen (Z.of_nat k)));
    [|intros; apply pow2_gv|done|intros; apply lost_members_iff].
  apply tabg_ext. intros b. by rewrite <- lsum_lost.
Qed.

(** One member from Q. *)
Lemma one_from_q x :
  map (gf_mul (gf_inv (gf_pow2 (Z.of_nat x)))) (tabg len (fun b => lsum [x] (fun k => gmul (ggen (Z.of_nat k)) (D k b)))) = strip x.
Proof using Type.
  rewrite pow2_gv, loop_inv_gv. unfold tabg, strip. rewrite map_tab. apply tab_ext. intros b _.
  rewrite loop_mul_gv. f_equal. unfold lsum. cbn [foldr]. field. apply ggen_nonzero.
Qed.

(** Two members from P and Q. *)
Lemma first_of_two x y :
  (x < 255)%nat -> (y < 255)%nat -> x <> y ->
  map (fun i => gf_mul (gf_inv (xor8 (gf_pow2 (Z.of_nat x)) (gf_pow2 (Z.of_nat y))))
         (xor8 (gf_mul (gf_pow2 (Z.of_nat y)) (at_byte (tabg len (fun b => lsum [x; y] (fun k => D k b))) i))
               (at_byte (tabg len (fun b => lsum [x; y] (fun k => gmul (ggen (Z.of_nat k)) (D k b)))) i)))
    (zrange 0 len) = strip x.
Proof using Type.
  intros Hx Hy Hne. apply tab_ext. intros b Hb. unfold tabg. rewrite !at_tab by done.
  rewrite !pow2_gv, <- gv_gadd, loop_inv_gv, loop_mul_gv, <- gv_gadd, loop_mul_gv. f_equal. unfold lsum. cbn [foldr].
  set (gx := ggen (Z.of_nat x)). set (gy := ggen (Z.of_nat y)).
  assert (gsub gx gy <> g0) as Hd by (apply gsub_ne; intros E; apply ggen_inj in E; lia).
  transitivity (gmul (ginv (gsub gx gy)) (gsub (gadd (gmul gx (D x b)) (gmul gy (D y b))) (gmul gy (gadd (D x b) (D y b)))));
    [|field; done].
  change (gadd gx gy) with (gsub gx gy). f_equal. change (gsub ?u ?v) with (gadd u v). ring.
Qed.

Lemma second_of_two x y :
  xor_into (tabg len (fun b => lsum [x; y] (fun k => D k b))) (strip x) = strip y.
Proof using Type.
  unfold strip. rewrite xor_into_tabg. apply tabg_ext. intros b. unfold lsum. cbn [foldr].
  transitivity (gadd (D y b) (gadd (D x b) (D x b))); [ring|]. rewrite gadd_self. ring.
Qed.

Lemma reconstruct_spec ms p q :
  members_ok 0 ms -> (length ms <= 255)%nat ->
  (forall d, p = Some d -> d = p_leg (length ms)) -> (forall d, q = Some d -> d = q_leg (length ms)) ->
  let available := (if p is Some _ then 1 else 0) + (if q is Some _ then 1 else 0) in
  reconstruct a simd ms p q len
  = if zlen (missing_from 0 ms) <=? available then Ok (whole (length ms))
    else Err (mkUnrec (zlen (missing_from 0 ms)) available).
Proof using Hlen.
  intros Hms Hw Hp Hq available. unfold reconstruct. fold available.
  pose proof (fill_whole ms Hms) as Hfill. pose proof (p_residue ms Hms) as Hpr. pose proof (q_residue ms Hms) as Hqr.
  assert (forall x, x ∈ missing_from 0 ms -> (x < length ms)%nat) as Hlt.
  { intros x Hx. apply elem_of_missing_from in Hx as (j & -> & Hj). by apply lookup_lt_Some in Hj. }
  destruct (missing_from 0 ms) as [|x [|y [|z l]]] eqn:Em; cbn [foldl] in Hfill.
  - assert (0 <= available) by (unfold available; by destruct p, q). change (zlen []) with 0.
    destruct (Z.leb_spec 0 available); [|lia]. by rewrite <- Hfill.
  - change (zlen [x]) with 1. rewrite <- Hfill. unfold available. destruct p as [p|]; [|destruct q as [q|]].
    + rewrite (Hp p eq_refl), Hpr. destruct (Z.leb_spec 1 (1 + (if q is Some _ then 1 else 0))); [|destruct q; lia].
      do 3 f_equal. unfold strip. apply tabg_ext. intros b. unfold lsum. cbn [foldr]. ring.
    + rewrite (Hq q eq_refl), Hqr, one_from_q. done.
    + done.
  - change (zlen [x; y]) with 2. rewrite <- Hfill. unfold available. destruct p as [p|], q as [q|]; try done.
    rewrite (Hp p eq_refl), (Hq q eq_refl), Hpr, Hqr. cbn [Z.add Z.leb Z.compare Pos.add Pos.compare Pos.compare_cont].
    pose proof (missing_from_lt 0 ms x [y] Em) as Hxy. apply Forall_cons in Hxy as [Hxy _].
    assert (x < length ms)%nat by (apply Hlt; by left). assert (y < length ms)%nat by (apply Hlt; by right; left).
    rewrite first_of_two, second_of_two by lia. done.
  - destruct (Z.leb_spec (zlen (x :: y :: z :: l)) available) as [Hle|]; [|done]. exfalso. revert Hle.
    unfold available. rewrite !zlen_cons. pose proof (zlen_nonneg l). destruct p, q; lia.
Qed.

(** *** Erasure coding *)

Definition coefg (parity : Z) (j k : nat) : gf :=
  if parity <=? 2 then (if (j =? 0)%nat then g1 else ggen (Z.of_nat k))
  else ginv (gsub (mkgf (Z.of_nat j)) (mkgf (parity + Z.of_nat k))).
Definition leg (parity : Z) (w j : nat) : bytes :=
  tabg len (fun b => lsum (seq 0 w) (fun k => gmul (coefg parity j k) (D k b))).

Lemma coef_gv parity (j k : nat) :
  0 < parity -> Z.of_nat j < parity -> parity + Z.of_nat k <= 255 ->
  coef parity (Z.of_nat j) (Z.of_nat k) = gv (coefg parity j k).
Proof using Type.
  intros H0 Hj Hk. unfold coef, coefg. destruct (Z.leb_spec parity 2).
  - destruct (Z.eqb_spec (Z.of_nat j) 0), (Nat.eqb_spec j 0); try lia; [done|apply pow2_gv].
  - rewrite (wrap_small 8 (Z.of_nat k)), !wrap_small by (change (2 ^ 8) with 256; lia).
    rewrite <- loop_inv_gv. f_equal. change gsub with gadd. rewrite gv_gadd, !gv_mkgf by (unfold byte; lia). done.
Qed.

Lemma leg_pq parity w : (parity = 1 \/ parity = 2) -> leg parity w 0 = p_leg w /\ leg parity w 1 = q_leg w.
Proof using Type.
  intros Hp. unfold leg, p_leg, q_leg, coefg. destruct (Z.leb_spec parity 2); [|lia]. split; [|done].
  apply tabg_ext. intros b. unfold lsum. induction (seq 0 w) as [|k l IH]; cbn [foldr]; [done|].
  cbn [Nat.eqb] in *. rewrite IH. ring.
Qed.

(** What is left of a leg once the present members are taken out. *)
Lemma residue_leg parity j ms :
  0 < parity -> Z.of_nat j < parity -> parity + zlen ms <= 256 -> members_ok 0 ms ->
  residue a simd parity (Z.of_nat j) 0 ms (leg parity (length ms) j)
  = tabg len (fun b => lsum (missing_from 0 ms) (fun k => gmul (coefg parity j k) (D k b))).
Proof using Hlen.
  intros H0 Hj Hw Hms. unfold leg, zlen in *. change 0 with (Z.of_nat 0) at 1.
  rewrite (residue_tabg _ _ (coefg parity j)); [|intros k Hk; apply coef_gv; lia|done].
  apply tabg_ext. intros b. by rewrite <- lsum_lost.
Qed.

Lemma nth_in (l : list nat) t : (t < length l)%nat -> nth t l 0%nat ∈ l.
Proof using Type. intros Ht. apply list_elem_of_In. by apply nth_In. Qed.

Lemma map_nth {A} (f : nat -> A) (l : list nat) : map f l = map (fun t => f (nth t l 0%nat)) (seq 0 (length l)).
Proof using Type.
  apply list_eq. intros t. destruct (decide (t < length l)%nat) as [Ht|Ht].
  - rewrite lookup_map_seq by done. rewrite list_lookup_fmap, nth_lookup.
    destruct (lookup_lt_is_Some_2 l t Ht) as [x ->]. done.
  - rewrite !lookup_ge_None_2; [done|rewrite length_map, length_seq; lia|rewrite length_map; lia].
Qed.

Lemma NoDup_nth_inj (l : list nat) i j :
  NoDup l -> (i < length l)%nat -> (j < length l)%nat -> nth i l 0%nat = nth j l 0%nat -> i = j.
Proof using Type.
  intros Hnd Hi Hj E. rewrite !nth_lookup in E.
  destruct (lookup_lt_is_Some_2 l i Hi) as [x Hx], (lookup_lt_is_Some_2 l j Hj) as [y Hy].
  rewrite Hx, Hy in E. cbn in E. subst y. by eapply NoDup_lookup.
Qed.

Lemma mkgf_inj u v : byte u -> byte v -> mkgf u = mkgf v -> u = v.
Proof using Type. intros Hu Hv E. apply (f_equal gv) in E. by rewrite !gv_mkgf in E. Qed.

(** The system of the lost members and the surviving rows. *)
Section System.
Context (parity : Z) (rows ms : list nat) (n : nat).
Context (Hr : length rows = n) (Hm : length ms = n) (Hp : 2 < parity).
Context (Hrows : NoDup rows) (Hms : NoDup ms).
Context (Hrange : Forall (fun j => Z.of_nat j < parity) rows) (Hwide : Forall (fun k => parity + Z.of_nat k <= 255) ms).

Definition system : matrix := fun r c => coefg parity (nth r rows 0%nat) (nth c ms 0%nat).

Lemma system_lift : map (fun j => map (fun x => coef parity (Z.of_nat j) (Z.of_nat x)) ms) rows = lift n system.
Proof using Hr Hm Hp Hrange Hwide.
  rewrite map_nth, Hr. unfold lift. apply map_ext_in. intros r Hin%in_seq. rewrite map_nth, Hm.
  apply map_ext_in. intros c Hc%in_seq. unfold system.
  rewrite Forall_forall in Hrange, Hwide. apply coef_gv; [lia|apply Hrange, nth_in; lia|apply Hwide, nth_in; lia].
Qed.

Lemma system_kernel v :
  (forall r, (r < n)%nat -> apply_row n v system r = g0) -> forall k, (k < n)%nat -> v k = g0.
Proof using Hr Hm Hp Hrows Hms Hrange Hwide.
  rewrite Forall_forall in Hrange, Hwide.
  assert (forall i, (i < n)%nat -> byte (Z.of_nat (nth i rows 0%nat)) /\ Z.of_nat (nth i rows 0%nat) < parity) as Hx.
  { intros i Hi. assert (nth i rows 0%nat ∈ rows) as Hin by (apply nth_in; lia). pose proof (Hrange _ Hin).
    assert (nth i ms 0%nat ∈ ms) as Hin' by (apply nth_in; lia). pose proof (Hwide _ Hin'). unfold byte. lia. }
  assert (forall i, (i < n)%nat -> byte (parity + Z.of_nat (nth i ms 0%nat))) as Hy.
  { intros i Hi. assert (nth i ms 0%nat ∈ ms) as Hin by (apply nth_in; lia). pose proof (Hwide _ Hin). unfold byte. lia. }
  intros Hv. apply (cauchy_kernel (fun i => mkgf (Z.of_nat (nth i rows 0%nat))) (fun i => mkgf (parity + Z.of_nat (nth i ms 0%nat))) n v).
  - intros i j Hi Hj E. apply mkgf_inj in E; [|by apply Hx..]. apply (NoDup_nth_inj rows); lia || done.
  - intros i j Hi Hj E. apply mkgf_inj in E; [|by apply Hy..]. apply (NoDup_nth_inj ms); lia || done.
  - intros i j Hi Hj E. apply mkgf_inj in E; [|by apply Hx|by apply Hy]. destruct (Hx i Hi). lia.
  - intros j Hj. rewrite <- (Hv j Hj). unfold apply_row. apply gsum_ext. intros k Hk. unfold system, coefg.
    destruct (Z.leb_spec parity 2); [lia|]. ring.
Qed.
End System.

Lemma combine_tabg n (R : nat -> Z -> gf) f :
  combine a simd len (row_of n f) (map (fun r => tabg len (R r)) (seq 0 n))
  = tabg len (fun b => gsum n (fun r => gmul (f r) (R r b))).
Proof using Hlen.
  unfold combine, row_of.
  assert (zip (map (fun r => tabg len (R r)) (seq 0 n)) (map (fun c => gv (f c)) (seq 0 n))
          = map (fun r => (tabg len (R r), gv (f r))) (seq 0 n)) as ->.
  { generalize (seq 0 n) as l. induction l as [|x l IH]; [done|]. cbn [map zip_with]. by rewrite <- IH. }
  induction n as [|n IH]; [apply zeros_tabg|]. rewrite seq_S, map_app, foldl_app, IH. cbn [map foldl fst snd Nat.add].
  rewrite mul_xor_into_tabg. apply tabg_ext. intros b. cbn [gsum]. ring.
Qed.

Lemma present_elem (ls : list (option bytes)) j i :
  j ∈ present_from i ls <-> exists k d, j = (i + k)%nat /\ ls !! k = Some (Some d).
Proof using Type.
  revert i. induction ls as [|[d|] ls IH]; intros i; cbn [present_from].
  - split; [by intros ?%elem_of_nil|]. intros (k & d & _ & Hk). by destruct k.
  - rewrite elem_of_cons, IH. split.
    + intros [->|(k & d' & -> & Hk)]; [exists 0%nat, d; by rewrite Nat.add_0_r|exists (S k), d'; split; [lia|done]].
    + intros ([|k] & d' & -> & Hk); [left; lia|]. right. exists k, d'. split; [lia|done].
  - rewrite IH. split.
    + intros (k & d' & -> & Hk). exists (S k), d'. split; [lia|done].
    + intros ([|k] & d' & -> & Hk); [done|]. exists k, d'. split; [lia|done].
Qed.

Lemma present_NoDup {A} (ls : list (option A)) i : NoDup (present_from i ls) /\ Forall (fun j => i <= j)%nat (present_from i ls).
Proof using Type.
  revert i. induction ls as [|[d|] ls IH]; intros i; cbn [present_from]; [by split; constructor|..]; destruct (IH (S i)) as [H1 H2].
  - split.
    + constructor; [|done]. intros Hin. rewrite Forall_forall in H2. specialize (H2 i Hin). lia.
    + constructor; [lia|]. eapply Forall_impl; [exact H2|]. cbn. lia.
  - split; [done|]. eapply Forall_impl; [exact H2|]. cbn. lia.
Qed.
Lemma missing_NoDup {A} (ls : list (option A)) i : NoDup (missing_from i ls) /\ Forall (fun j => i <= j)%nat (missing_from i ls).
Proof using Type.
  revert i. induction ls as [|[d|] ls IH]; intros i; cbn [missing_from]; [by split; constructor|..]; destruct (IH (S i)) as [H1 H2].
  - split; [done|]. eapply Forall_impl; [exact H2|]. cbn. lia.
  - split.
    + constructor; [|done]. intros Hin. rewrite Forall_forall in H2. specialize (H2 i Hin). lia.
    + constructor; [lia|]. eapply Forall_impl; [exact H2|]. cbn. lia.
Qed.

Definition legs_ok (parity : Z) (w : nat) (ls : list (option bytes)) : Prop :=
  zlen ls = parity /\ forall j d, ls !! j = Some (Some d) -> d = leg parity w j.

Lemma foldl_zip_fill l : forall ms : list (option bytes),
  foldl (fun (ms : list (option bytes)) cx => <[fst cx := Some (snd cx)]> ms) ms (zip l (map strip l))
  = foldl (fun (ms : list (option bytes)) x => <[x := Some (strip x)]> ms) ms l.
Proof using Type. induction l as [|x l IH]; intros ms; [done|]. cbn [map zip_with foldl fst snd]. apply IH. Qed.

Lemma zlen_present_missing {A} (l : list (option A)) i : zlen (present_from i l) + zlen (missing_from i l) = zlen l.
Proof using Type.
  revert i. induction l as [|[d|] l IH]; intros i; cbn [present_from missing_from]; [done|..];
    rewrite !zlen_cons; specialize (IH (S i)); lia.
Qed.

Lemma reconstruct_ec ms ls parity :
  2 < parity -> parity + zlen ms <= 256 -> members_ok 0 ms -> legs_ok parity (length ms) ls ->
  reconstruct_legs a simd ms ls parity len
  = if zlen (missing_from 0 ms) <=? zlen (present_from 0 ls) then Ok (whole (length ms))
    else Err (mkUnrec (zlen (missing_from 0 ms)) (zlen (present_from 0 ls))).
Proof using Hlen.
  intros Hp Hw Hms [Hls Hleg]. unfold reconstruct_legs. destruct (Z.leb_spec parity 2); [lia|].
  pose proof (fill_whole ms Hms) as Hfill. pose proof (missing_NoDup ms 0) as [Hmd _].
  pose proof (present_NoDup ls 0) as [Hpd _].
  assert (forall k, k ∈ missing_from 0 ms -> (k < length ms)%nat) as Hlt.
  { intros x Hx. apply elem_of_missing_from in Hx as (j & -> & Hj). by apply lookup_lt_Some in Hj. }
  destruct (missing_from 0 ms) as [|m0 ml] eqn:Em.
  { pose proof (zlen_nonneg (present_from 0 ls)). change (zlen []) with 0.
    destruct (Z.leb_spec 0 (zlen (present_from 0 ls))); [|lia]. cbn [foldl] in Hfill. by rewrite <- Hfill. }
  rewrite <- Em in *. clear Em m0 ml. set (missing := missing_from 0 ms) in *. set (n := length missing).
  destruct (Nat.ltb_spec (length (present_from 0 ls)) n) as [Hfew|Henough].
  { unfold zlen in *. destruct (Z.leb_spec (Z.of_nat (length missing)) (Z.of_nat (length (present_from 0 ls)))); [lia|done]. }
  destruct (Z.leb_spec (zlen missing) (zlen (present_from 0 ls))) as [_|]; [|unfold zlen in *; lia].
  set (rows := take n (present_from 0 ls)).
  assert (length rows = n) as Hrn by (unfold rows; rewrite length_take; lia).
  assert (forall j, j ∈ rows -> Z.of_nat j < parity /\ ls !! j = Some (Some (leg parity (length ms) j))) as Hrow.
  { intros j Hj. unfold rows in Hj. apply elem_of_take in Hj as (t & Hj & _). apply list_elem_of_lookup_2 in Hj.
    apply present_elem in Hj as (k & d & -> & Hk). cbn. split; [apply lookup_lt_Some in Hk; unfold zlen in *; lia|].
    rewrite Hk. by rewrite (Hleg k d Hk). }
  assert (Forall (fun j => Z.of_nat j < parity) rows) as Hrange by (apply Forall_forall; intros; by apply Hrow).
  assert (Forall (fun k => parity + Z.of_nat k <= 255) missing) as Hwide.
  { apply Forall_forall. intros k Hk%Hlt. unfold zlen in *. lia. }
  assert (NoDup rows) as Hrd by (by eapply sublist_NoDup, sublist_take).
  rewrite (system_lift parity rows missing n Hrn eq_refl Hp Hrange Hwide).
  destruct (invert_lift n (system parity rows missing)) as (inv & Hinv & Hid).
  { by apply (system_kernel parity rows missing n). }
  rewrite Hinv. f_equal. rewrite <- Hfill, <- foldl_zip_fill. do 2 f_equal.
  (* the right-hand sides *)
  assert (map (fun j => residue a simd parity (Z.of_nat j) 0 ms (unwrap (default None (ls !! j)))) rows
          = map (fun r => tabg len (fun b => gsum n (fun c => gmul (system parity rows missing r c) (D (nth c missing 0%nat) b)))) (seq 0 n)) as ->.
  { rewrite (map_nth _ rows), Hrn. apply map_ext_in. intros r Hr%in_seq.
    destruct (Hrow (nth r rows 0%nat)) as [Hjp Hjl]; [apply nth_in; lia|]. rewrite Hjl.
    change (unwrap (default None (Some (Some ?x)))) with x. rewrite residue_leg by (done || lia).
    apply tabg_ext. intros b. fold missing. rewrite lsum_gsum. done. }
  unfold lift. rewrite map_map, (map_nth strip missing). fold n. apply map_ext_in. intros t Ht%in_seq.
  rewrite (combine_tabg n (fun r b => gsum n (fun c => gmul (system parity rows missing r c) (D (nth c missing 0%nat) b)))).
  apply tabg_ext. intros b.
  transitivity (gsum n (fun c => gmul (delta t c) (D (nth c missing 0%nat) b)));
    [|exact (gsum_delta n t (fun c => D (nth c missing 0%nat) b) ltac:(lia))].
  rewrite (gsum_ext n _ (fun r => gsum n (fun c => gmul (gmul (inv t r) (system parity rows missing r c)) (D (nth c missing 0%nat) b)))).
  2: { intros r _. rewrite <- gsum_scale. apply gsum_ext. intros c _. ring. }
  rewrite gsum_swap. apply gsum_ext. intros c Hc. rewrite <- (Hid t c) by lia.
  transitivity (gmul (D (nth c missing 0%nat) b) (gsum n (fun r => gmul (inv t r) (system parity rows missing r c)))); [|ring].
  rewrite <- gsum_scale. apply gsum_ext. intros r _. ring.
Qed.

Lemma reconstruct_all ms ls parity :
  1 <= parity -> (parity <= 2 -> zlen ms <= 255) -> (2 < parity -> parity + zlen ms <= 256) ->
  members_ok 0 ms -> legs_ok parity (length ms) ls ->
  reconstruct_legs a simd ms ls parity len
  = if zlen (missing_from 0 ms) <=? zlen (present_from 0 ls) then Ok (whole (length ms))
    else Err (mkUnrec (zlen (missing_from 0 ms)) (zlen (present_from 0 ls))).
Proof using Hlen.
  intros Hp1 Hpq Hec Hms Hls. destruct (Z.leb_spec parity 2) as [Hle|]; [|apply reconstruct_ec; auto].
  unfold reconstruct_legs. destruct (Z.leb_spec parity 2); [|lia]. destruct Hls as [Hll Hleg].
  destruct (leg_pq parity (length ms) ltac:(lia)) as [Hp Hq]. specialize (Hpq ltac:(lia)).
  rewrite (reconstruct_spec ms (default None (ls !! 0%nat)) (default None (ls !! 1%nat))); [|done|unfold zlen in Hpq; lia|..].
  - assert ((if default None (ls !! 0%nat) is Some _ then 1 else 0) + (if default None (ls !! 1%nat) is Some _ then 1 else 0)
            = zlen (present_from 0 ls)) as ->; [|done].
    unfold zlen in Hll. destruct ls as [|l0 [|l1 [|]]]; cbn in Hll; try lia; [destruct l0; done|destruct l0, l1; done].
  - intros d Hd. rewrite <- Hp. apply Hleg. by destruct (ls !! 0%nat) as [[]|]; simplify_eq/=.
  - intros d Hd. rewrite <- Hq. apply Hleg. by destruct (ls !! 1%nat) as [[]|]; simplify_eq/=.
Qed.
End Volumes.

Import Loop.

(** What can be read of a set of buffers: each is itself or cannot be read. *)
Definition readable (stored : list bytes) (got : list (option bytes)) : Prop :=
  length got = length stored /\ forall k d, got !! k = Some (Some d) -> stored !! k = Some d.

(** Buffers of one slot. *)
Definition slots_ok (len : Z) (alloc : list (option bytes)) : Prop :=
  Forall (fun m => forall d, m = Some d -> zlen d = len /\ all_bytes d) alloc.

(** Widths the coefficients are distinct for. *)
Definition width_ok (parity w : Z) : Prop :=
  1 <= parity /\ (parity <= 2 -> w <= 255) /\ (2 < parity -> parity + w <= 256).

(** Changing one term of a sum changes it by the difference. *)
Lemma gsum_update n i f (g : nat -> gf) :
  (i < n)%nat -> (forall k, (k < n)%nat -> k <> i -> f k = g k) -> gadd (gsum n f) (gadd (f i) (g i)) = gsum n g.
Proof.
  intros Hi Hne. rewrite <- (gsum_delta n i (fun k => gadd (f k) (g k)) Hi), <- gsum_add. apply gsum_ext.
  intros k Hk. destruct (decide (k = i)) as [->|Hki].
  - rewrite delta_eq. transitivity (gadd (g i) (gadd (f i) (f i))); [ring|]. rewrite gadd_self. ring.
  - rewrite delta_ne, Hne by done. ring.
Qed.

Section Laws.
Context (a : arch) (simd : SimdLevel) (len : Z) (Hlen : 0 <= len).

(** Member [k]'s bytes as field elements; an unallocated member is zeros. *)
Definition content (alloc : list (option bytes)) (k : nat) (b : Z) : gf :=
  elem (or_zero len (default None (alloc !! k))) b.

Lemma or_zero_ok m : (forall d, m = Some d -> zlen d = len /\ all_bytes d) -> zlen (or_zero len m) = len /\ all_bytes (or_zero len m).
Proof using Hlen. destruct m as [d|]; cbn; [by intros H; apply H|]. split; [by apply zlen_zeros|apply all_bytes_zeros]. Qed.

Lemma strip_content alloc k m :
  slots_ok len alloc -> alloc !! k = Some m -> strip len (content alloc) k = or_zero len m.
Proof using Hlen.
  intros Hok Hk. symmetry. unfold strip. destruct (or_zero_ok m) as [Hl Hb].
  { apply (Forall_lookup_1 _ _ _ _ Hok Hk). }
  rewrite (bytes_as_tabg _ len Hl Hb). apply tabg_ext. intros b. unfold content. by rewrite Hk.
Qed.

Lemma leg_of_leg alloc parity j :
  slots_ok len alloc -> width_ok parity (zlen alloc) -> Z.of_nat j < parity ->
  leg_of a simd parity (Z.of_nat j) 0 alloc (zeros len) = leg len (content alloc) parity (length alloc) j.
Proof using Hlen.
  intros Hok (Hp & Hpq & Hec) Hj.
  assert (forall k, (k < length alloc)%nat -> coef (Z.max parity 1) (Z.of_nat j) (Z.of_nat k) = gv (coefg parity j k)) as Hc.
  { intros k Hk. replace (Z.max parity 1) with parity by lia. unfold zlen in *.
    destruct (Z.leb_spec parity 2) as [Hle|Hgt]; [|apply coef_gv; lia].
    unfold coef, coefg. destruct (Z.leb_spec parity 2); [|lia].
    destruct (Z.eqb_spec (Z.of_nat j) 0), (Nat.eqb_spec j 0); try lia; [done|apply pow2_gv]. }
  assert (members_ok len (content alloc) 0 alloc) as Hms.
  { intros k d Hk. symmetry. exact (strip_content alloc k (Some d) Hok Hk). }
  rewrite leg_of_residue, zeros_tabg. change 0 with (Z.of_nat 0) at 1.
  rewrite (residue_tabg a simd len Hlen (content alloc) _ _ (coefg parity j)); [|intros; apply Hc; lia|done].
  unfold leg. apply tabg_ext. intros b. rewrite (lsum_split 0 alloc).
  transitivity (gadd (lsum (present_from 0 alloc) (fun k => gmul (coefg parity j k) (content alloc k b))) g0); [ring|]. f_equal. symmetry.
  assert (forall k, k ∈ missing_from 0 alloc -> content alloc k b = g0) as Hz.
  { intros k (t & -> & Ht)%elem_of_missing_from. unfold content, elem. cbn. rewrite Ht. cbn. unfold at_byte, zeros.
    rewrite nth_lookup. destruct (replicate _ _ !! _) as [x|] eqn:E; cbn; [|done].
    by apply lookup_replicate in E as [-> _]. }
  induction (missing_from 0 alloc) as [|k l IH]; [done|]. unfold lsum in *. cbn [foldr].
  rewrite IH by (intros; apply Hz; by right). rewrite Hz by left. ring.
Qed.

Lemma compute_parity_lookup alloc parity j d :
  1 <= parity -> compute_parity a simd alloc len parity !! j = Some d ->
  Z.of_nat j < parity /\ d = leg_of a simd parity (Z.of_nat j) 0 alloc (zeros len).
Proof using Type.
  intros Hp Hj. unfold compute_parity in Hj. replace (Z.max parity 1) with parity in Hj by lia.
  unfold zrange in Hj. rewrite list_lookup_fmap in Hj. destruct (zseq _ _ !! j) as [x|] eqn:E; [|done].
  pose proof (lookup_lt_Some _ _ _ E) as Hl. rewrite length_zseq in Hl. rewrite lookup_zseq in E by done.
  cbn in Hj. simplify_eq. split; [lia|]. done.
Qed.

Lemma length_compute_parity alloc parity : 1 <= parity -> zlen (compute_parity a simd alloc len parity) = parity.
Proof using Type.
  intros Hp. unfold compute_parity, zlen, zrange. rewrite length_map, length_zseq. lia.
Qed.

Lemma compute_parity_at alloc parity j :
  1 <= parity -> Z.of_nat j < parity ->
  compute_parity a simd alloc len parity !! j = Some (leg_of a simd parity (Z.of_nat j) 0 alloc (zeros len)).
Proof using Type.
  intros Hp Hj. pose proof (length_compute_parity alloc parity Hp) as Hl. unfold zlen in Hl.
  destruct (lookup_lt_is_Some_2 (compute_parity a simd alloc len parity) j) as [d Hd]; [lia|].
  rewrite Hd. f_equal. by apply compute_parity_lookup in Hd as [_ ->].
Qed.

Lemma recovers alloc members legs parity :
  slots_ok len alloc -> width_ok parity (zlen alloc) ->
  readable (map (or_zero len) alloc) members -> readable (compute_parity a simd alloc len parity) legs ->
  reconstruct_legs a simd members legs parity len
  = if zlen (missing_from 0 members) <=? zlen (present_from 0 legs) then Ok (map (fun m => Some (or_zero len m)) alloc)
    else Err (mkUnrec (zlen (missing_from 0 members)) (zlen (present_from 0 legs))).
Proof using Hlen.
  intros Hok (Hp & Hpq & Hec) [Hml Hm] [Hll Hl]. rewrite length_map in Hml.
  assert (whole len (content alloc) (length members) = map (fun m => Some (or_zero len m)) alloc) as <-.
  { apply list_eq. intros k. unfold whole. rewrite Hml. destruct (decide (k < length alloc)%nat) as [Hk|Hk].
    - rewrite lookup_map_seq, list_lookup_fmap by done. destruct (lookup_lt_is_Some_2 alloc k Hk) as [m Hmk].
      rewrite Hmk. cbn. do 2 f_equal. by apply strip_content.
    - rewrite !lookup_ge_None_2; [done|rewrite length_map; lia|rewrite length_map, length_seq; lia]. }
  assert (zlen members = zlen alloc) as Hz by (unfold zlen; lia).
  apply reconstruct_all; rewrite ?Hz; auto.
  - intros k d Hk. apply Hm in Hk. rewrite list_lookup_fmap in Hk. cbn [Nat.add].
    destruct (alloc !! k) as [m|] eqn:E; [|done]. cbn in Hk. simplify_eq. symmetry. by apply strip_content.
  - split.
    + rewrite <- (length_compute_parity alloc parity Hp). unfold zlen. by rewrite Hll.
    + intros j d Hj. apply Hl, compute_parity_lookup in Hj as [Hj ->]; [|done]. rewrite Hml. apply leg_of_leg; [done|split; auto|done].
Qed.


Lemma delta_keeps alloc parity i old new j :
  slots_ok len alloc -> width_ok parity (zlen alloc) -> alloc !! i = Some old ->
  zlen new = len -> all_bytes new -> Z.of_nat j < parity ->
  apply_delta_leg a simd (leg_of a simd parity (Z.of_nat j) 0 alloc (zeros len)) parity (Z.of_nat j) (Z.of_nat i)
    (xor_into (or_zero len old) new)
  = leg_of a simd parity (Z.of_nat j) 0 (<[i := Some new]> alloc) (zeros len).
Proof using Hlen.
  intros Hok Hw Hi Hn Hnb Hj. pose proof (lookup_lt_Some _ _ _ Hi) as Hil.
  assert (slots_ok len (<[i := Some new]> alloc)) as Hok'.
  { apply Forall_insert; [done|]. intros d [= <-]. done. }
  assert (zlen (<[i := Some new]> alloc) = zlen alloc) as Hz by (unfold zlen; by rewrite length_insert).
  rewrite !leg_of_leg by (rewrite ?Hz; done). rewrite length_insert.
  unfold apply_delta_leg, leg. rewrite <- (strip_content alloc i old) by done.
  assert (coef parity (Z.of_nat j) (Z.of_nat i) = gv (coefg parity j i)) as ->.
  { destruct Hw as (Hp & Hpq & Hec). unfold zlen in *. destruct (Z.leb_spec parity 2); [|apply coef_gv; lia].
    unfold coef, coefg. destruct (Z.leb_spec parity 2); [|lia].
    destruct (Z.eqb_spec (Z.of_nat j) 0), (Nat.eqb_spec j 0); try lia; [done|apply pow2_gv]. }
  assert (tabg len (content (<[i := Some new]> alloc) i) = new) as Hnew.
  { rewrite (bytes_as_tabg new len) at 2 by done. apply tabg_ext. intros b. unfold content.
    by rewrite list_lookup_insert_eq by done. }
  rewrite <- Hnew at 1. unfold strip. rewrite xor_into_tabg, mul_xor_into_tabg by done. apply tabg_ext. intros b.
  rewrite !lsum_gsum, !length_seq.
  etransitivity; [|apply (gsum_update (length alloc) i (fun t => gmul (coefg parity j (nth t (seq 0 (length alloc)) 0%nat))
    (content alloc (nth t (seq 0 (length alloc)) 0%nat) b))); [done|]].
  - cbv beta. rewrite seq_nth by done. cbn [Nat.add]. ring.
  - intros k Hk Hne. rewrite seq_nth by done. cbn [Nat.add]. unfold content. by rewrite list_lookup_insert_ne by done.
Qed.
End Laws.

(** C12. Whatever the members of a stripe held (allocated or not), however many
    legs it has, and whichever members and legs can still be read,
    [reconstruct_legs] rebuilds every lost member exactly as it was as long as no
    more members are lost than legs survive, and otherwise reports both counts. *)
Theorem stripe_recovers a simd len parity alloc members legs :
  0 <= len -> width_ok parity (zlen alloc) -> slots_ok len alloc ->
  readable (map (or_zero len) alloc) members -> readable (compute_parity a simd alloc len parity) legs ->
  reconstruct_legs a simd members legs parity len
  = if zlen (missing_from 0 members) <=? zlen (present_from 0 legs) then Ok (map (fun m => Some (or_zero len m)) alloc)
    else Err (mkUnrec (zlen (missing_from 0 members)) (zlen (present_from 0 legs))).
Proof. intros. by apply recovers. Qed.

(** C26. A write that folds [old ^ new] into the legs ([apply_delta_leg], or
    [apply_delta] for P and Q together) leaves exactly the legs
    [compute_parity] makes of the new contents. *)
Theorem delta_update_is_recompute a simd len parity alloc i old new :
  0 <= len -> width_ok parity (zlen alloc) -> slots_ok len alloc ->
  alloc !! i = Some old -> zlen new = len -> all_bytes new ->
  let delta := xor_into (or_zero len old) new in
  let legs := compute_parity a simd alloc len parity in
  let legs' := compute_parity a simd (<[i := Some new]> alloc) len parity in
  legs' = imap (fun j leg => apply_delta_leg a simd leg parity (Z.of_nat j) (Z.of_nat i) delta) legs
  /\ (parity = 1 -> exists p p', legs = [p] /\ legs' = [p'] /\ apply_delta a simd p None (Z.of_nat i) delta = (p', None))
  /\ (parity = 2 -> exists p q p' q', legs = [p; q] /\ legs' = [p'; q']
                   /\ apply_delta a simd p (Some q) (Z.of_nat i) delta = (p', Some q')).
Proof.
  intros Hlen Hw Hok Hi Hn Hnb delta legs legs'. pose proof (delta_keeps a simd len Hlen alloc parity i old new) as Hd.
  destruct Hw as (Hp & Hpq & Hec).
  assert (legs' = imap (fun j leg => apply_delta_leg a simd leg parity (Z.of_nat j) (Z.of_nat i) delta) legs) as E.
  { apply list_eq. intros j. rewrite list_lookup_imap. unfold legs, legs'.
    destruct (decide (Z.of_nat j < parity)) as [Hj|Hj].
    - rewrite !compute_parity_at by done. cbn. f_equal. symmetry. apply Hd; auto. split; auto.
    - rewrite !lookup_ge_None_2; [done|..]; pose proof (length_compute_parity a simd len alloc parity Hp);
        pose proof (length_compute_parity a simd len (<[i := Some new]> alloc) parity Hp); unfold zlen in *; lia. }
  split; [done|]. pose proof (length_compute_parity a simd len alloc parity Hp) as Hl. fold legs in Hl. unfold zlen in Hl.
  split; intros ->; rewrite E; destruct legs as [|p [|q [|]]]; cbn in Hl; try lia; repeat eexists.
Qed.

(** Three members of a four-wide [ec] stripe lost, one member never allocated. *)
Lemma stripe_recovers_witness :
  let alloc := [Some [1; 2]; None; Some [7; 250]; Some [9; 9]] in
  match compute_parity X86_64 Generic alloc 2 4 with
  | [l0; l1; l2; l3] =>
      reconstruct_legs X86_64 Generic [None; Some [0; 0]; None; None] [Some l0; None; Some l2; Some l3] 4 2
      = Ok [Some [1; 2]; Some [0; 0]; Some [7; 250]; Some [9; 9]]
  | _ => False
  end.
Proof.
  cbv zeta. pose (al := [Some [1; 2]; None; Some [7; 250]; Some [9; 9]]).
  destruct (compute_parity X86_64 Generic al 2 4) as [|l0 [|l1 [|l2 [|l3 [|]]]]] eqn:E; try (vm_compute in E; discriminate).
  fold al. rewrite E.
  refine (stripe_recovers X86_64 Generic 2 4 al [None; Some [0; 0]; None; None] [Some l0; None; Some l2; Some l3] _ _ _ _ _).
  - lia.
  - unfold width_ok. change (zlen al) with 4. lia.
  - unfold slots_ok; try unfold al. repeat (apply Forall_cons_2; [intros d [=]; subst; (split; [done|by_decide])|]); apply Forall_nil_2.
  - split; [done|]. unfold al. intros [|[|[|[|]]]] d; vm_compute; congruence.
  - rewrite E. clear E. split; [done|]. intros [|[|[|[|]]]] d [=]; by subst.
Defined.

Lemma delta_update_is_recompute_witness :
  compute_parity X86_64 Generic (<[1%nat := Some [5; 6]]> [Some [1; 2]; None; Some [7; 250]]) 2 3
  = imap (fun j leg => apply_delta_leg X86_64 Generic leg 3 (Z.of_nat j) 1 [5; 6])
      (compute_parity X86_64 Generic [Some [1; 2]; None; Some [7; 250]] 2 3).
Proof.
  refine (proj1 (delta_update_is_recompute X86_64 Generic 2 3 [Some [1; 2]; None; Some [7; 250]] 1%nat None [5; 6] _ _ _ _ _ _)).
  - lia.
  - unfold width_ok. change (zlen _) with 3. lia.
  - unfold slots_ok; try unfold al. repeat (apply Forall_cons_2; [intros d [=]; subst; (split; [done|by_decide])|]); apply Forall_nil_2.
  - done.
  - done.
  - by_decide.
Defined.
