(* ===== verification/GemData.v ===== *)
(** Legs, extent locations and parity groups of the extent map, and the tag under
    which a parity slot is recorded: the data of [volume/gem.rs] that
    [volume/extable.rs] packs and the map itself holds. *)

From S2P Require Import Prelude.

Abbreviation SlabId := bytes.
Abbreviation VolumeId := bytes.

(** One physical slot. *)
Record Leg := mkLeg { lg_slab : SlabId; lg_slot : Z }.
#[export] Instance Leg_eq : EqDecision Leg.
Proof. solve_decision. Defined.
#[export] Instance Leg_countable : Countable Leg.
Proof. refine (inj_countable' (fun l => (lg_slab l, lg_slot l)) (fun p => mkLeg (fst p) (snd p)) _). by intros []. Defined.

Record ExtentLocation := mkLoc {
  loc_slab : SlabId; loc_slot : Z; ref_count : Z; generation : Z; mirrors : list Leg }.
#[export] Instance ExtentLocation_eq : EqDecision ExtentLocation.
Proof. solve_decision. Defined.

Definition new_location (slab : SlabId) (slot : Z) : ExtentLocation := mkLoc slab slot 1 1 [].
Definition with_legs (p : Leg) (ms : list Leg) : ExtentLocation := mkLoc (lg_slab p) (lg_slot p) 1 1 ms.
Definition primary (l : ExtentLocation) : Leg := mkLeg (loc_slab l) (loc_slot l).
(** Every leg, primary first. *)
Definition legs (l : ExtentLocation) : list Leg := primary l :: mirrors l.
Definition leg_count (l : ExtentLocation) : Z := 1 + zlen (mirrors l).
Definition leg_on (l : ExtentLocation) (slab : SlabId) : option Leg :=
  hd_error (filter (fun g => lg_slab g = slab) (legs l)).
Definition same_slots (l o : ExtentLocation) : bool :=
  if negb (leg_count l =? leg_count o) then false
  else forallb (fun g => existsb (fun h => bool_decide (h = g)) (legs o)) (legs l).

Definition set_primary (g : Leg) (l : ExtentLocation) : ExtentLocation :=
  mkLoc (lg_slab g) (lg_slot g) (ref_count l) (generation l) (mirrors l).
Definition set_refs (n : Z) (l : ExtentLocation) : ExtentLocation :=
  mkLoc (loc_slab l) (loc_slot l) n (generation l) (mirrors l).
Definition set_mirrors (ms : list Leg) (l : ExtentLocation) : ExtentLocation :=
  mkLoc (loc_slab l) (loc_slot l) (ref_count l) (generation l) ms.
(** [generation += 1]. *)
Definition next_generation (l : ExtentLocation) : ExtentLocation :=
  mkLoc (loc_slab l) (loc_slot l) (ref_count l) (wrap 64 (generation l + 1)) (mirrors l).
(** [ref_count.saturating_add(n)]. *)
Definition share (n : Z) (l : ExtentLocation) : ExtentLocation := set_refs (Z.min u32max (ref_count l + n)) l.

(** The P and Q legs of a stripe. *)
Record ParityGroup := mkGroup { pg_legs : list Leg; pg_refs : Z; pg_generation : Z; data_width : Z }.
#[export] Instance ParityGroup_eq : EqDecision ParityGroup.
Proof. solve_decision. Defined.
Definition new_group (ls : list Leg) (width : Z) : ParityGroup := mkGroup ls 1 1 width.
(** The virtual extents a stripe covers, first and past the last. *)
Definition members (g : ParityGroup) (stripe : Z) : Z * Z :=
  let w := Z.max (data_width g) 1 in (stripe * w, (stripe + 1) * w).
Definition set_group_refs (n : Z) (g : ParityGroup) : ParityGroup :=
  mkGroup (pg_legs g) n (pg_generation g) (data_width g).
(** [ref_count += 1] on a [u32]. *)
Definition share_group (g : ParityGroup) : ParityGroup := set_group_refs (wrap 32 (pg_refs g + 1)) g.

Definition PARITY_TAG : Z := Z.shiftl 1 63.
Definition PARITY_LEG_SHIFT : Z := 56.
Definition PARITY_STRIPE_MASK : Z := Z.shiftl 1 PARITY_LEG_SHIFT - 1.

Definition parity_vext (leg stripe : Z) : Z :=
  Z.lor (Z.lor PARITY_TAG (wrap 64 (Z.shiftl (Z.land leg 127) PARITY_LEG_SHIFT))) (Z.land stripe PARITY_STRIPE_MASK).
Definition parse_parity_vext (v : Z) : option (Z * Z) :=
  if Z.land v PARITY_TAG =? 0 then None
  else Some (wrap 8 (Z.land (Z.shiftr v PARITY_LEG_SHIFT) 127), Z.land v PARITY_STRIPE_MASK).

(** ** The tag *)

Lemma parity_vext_split leg stripe :
  0 <= leg < 256 -> 0 <= stripe ->
  parity_vext leg stripe = (1 * 2 ^ 7 + leg mod 2 ^ 7) * 2 ^ 56 + stripe mod 2 ^ 56.
Proof.
  intros Hl Hs. unfold parity_vext, PARITY_TAG, PARITY_STRIPE_MASK, PARITY_LEG_SHIFT.
  change (Z.shiftl 1 56 - 1) with (Z.ones 56). change 127 with (Z.ones 7). rewrite !Z.land_ones by lia.
  pose proof (Z.mod_pos_bound leg (2 ^ 7) ltac:(lia)) as Hb. pose proof (Z.mod_pos_bound stripe (2 ^ 56) ltac:(lia)).
  rewrite (Z.shiftl_mul_pow2 (leg mod 2 ^ 7)), wrap_small by lia. change (Z.shiftl 1 63) with (1 * 2 ^ 7 * 2 ^ 56).
  rewrite <- !Z.shiftl_mul_pow2, <- Z.shiftl_lor, !Z.shiftl_mul_pow2 by lia.
  rewrite (lor_cat 7) by lia. by rewrite lor_cat by lia.
Qed.

(** The high bit of a [u64] is the tag. *)
Lemma land_tag v : 0 <= v < 2 ^ 64 -> (Z.land v PARITY_TAG =? 0) = (v <? 2 ^ 63).
Proof.
  intros Hv. change PARITY_TAG with (2 ^ 63). rewrite (Z.land_comm v).
  assert (Z.testbit v 63 = negb (v <? 2 ^ 63)) as Hb.
  { rewrite Z.testbit_eqb by lia. destruct (Z.ltb_spec v (2 ^ 63)); cbn [negb].
    - by rewrite Z.div_small by lia.
    - assert (v / 2 ^ 63 = 1) as ->; [|done]. symmetry. apply (Z.div_unique_pos v (2 ^ 63) 1 (v - 2 ^ 63)); lia. }
  destruct (Z.ltb_spec v (2 ^ 63)); cbn [negb] in Hb.
  - apply Z.eqb_eq. apply Z.bits_inj'. intros n Hn. rewrite Z.land_spec, Z.bits_0.
    destruct (decide (n = 63)) as [->|]; [by rewrite Hb, andb_false_r|by rewrite Z.pow2_bits_false by lia].
  - apply Z.eqb_neq. intros E. apply (f_equal (fun z => Z.testbit z 63)) in E.
    rewrite Z.land_spec, Hb, Z.pow2_bits_true, Z.bits_0 in E by lia. done.
Qed.

Lemma data_vext_unparsed v : 0 <= v < 2 ^ 63 -> parse_parity_vext v = None.
Proof. intros Hv. unfold parse_parity_vext. rewrite land_tag by lia. by destruct (Z.ltb_spec v (2 ^ 63)); [|lia]. Qed.

Lemma parity_vext_range leg stripe : 0 <= leg < 256 -> 0 <= stripe -> 2 ^ 63 <= parity_vext leg stripe < 2 ^ 64.
Proof.
  intros Hl Hs. rewrite parity_vext_split by done.
  pose proof (Z.mod_pos_bound leg (2 ^ 7) ltac:(lia)). pose proof (Z.mod_pos_bound stripe (2 ^ 56) ltac:(lia)). lia.
Qed.

Lemma parse_parity_vext_tagged leg stripe :
  0 <= leg < 256 -> 0 <= stripe -> parse_parity_vext (parity_vext leg stripe) = Some (leg mod 2 ^ 7, stripe mod 2 ^ 56).
Proof.
  intros Hl Hs. pose proof (parity_vext_range leg stripe Hl Hs). unfold parse_parity_vext. rewrite land_tag by lia.
  destruct (Z.ltb_spec (parity_vext leg stripe) (2 ^ 63)); [lia|].
  unfold PARITY_STRIPE_MASK, PARITY_LEG_SHIFT. change (Z.shiftl 1 56 - 1) with (Z.ones 56). change 127 with (Z.ones 7).
  rewrite !Z.land_ones, Z.shiftr_div_pow2, parity_vext_split by lia.
  pose proof (Z.mod_pos_bound leg (2 ^ 7) ltac:(lia)). pose proof (Z.mod_pos_bound stripe (2 ^ 56) ltac:(lia)).
  rewrite div_cat, mod_cat, mod_cat by lia. by rewrite wrap_small by lia.
Qed.
