(* ===== verification/ExtTable.v ===== *)
(** A volume's extent map as the engine keeps it in memory: [volume/extable.rs].
    Extents are packed in chunks of 64, the slab replaced by an ordinal of the
    process-wide interner, mirrors kept out of line. *)

From S2P Require Import Prelude GemData.

Definition CHUNK_SHIFT : Z := 6.
Definition CHUNK_MASK : Z := Z.shiftl 1 CHUNK_SHIFT - 1.

(** ** Slab ids by ordinal *)

Record Interner := mkInterner { ids : list SlabId; ords : gmap SlabId Z }.
Definition interner0 : Interner := mkInterner [] ∅.

(** [None]: the panic at more than 4 G slab ids. *)
Definition slab_ordinal (I : Interner) (id : SlabId) : option (Interner * Z) :=
  match ords I !! id with
  | Some o => Some (I, o)
  | None =>
      if zlen (ids I) <=? u32max then
        let o := zlen (ids I) in Some (mkInterner (ids I ++ [id]) (<[id := o]> (ords I)), o)
      else None
  end.
(** Ordinals held in a table are in range; [[]] stands for the panic. *)
Definition slab_of (I : Interner) (ord : Z) : SlabId := nth (Z.to_nat ord) (ids I) [].

(** ** Packed extents *)

Record Packed := mkPacked { p_off : Z; p_slab : Z; p_slot : Z; p_refs : Z; p_gen : Z }.

Definition pack (I : Interner) (off : Z) (loc : ExtentLocation) : option (Interner * Packed) :=
  '(I, o) ← slab_ordinal I (loc_slab loc);
  Some (I, mkPacked off o (loc_slot loc) (ref_count loc) (generation loc)).
Definition location (I : Interner) (p : Packed) (ms : list Leg) : ExtentLocation :=
  mkLoc (slab_of I (p_slab p)) (p_slot p) (p_refs p) (p_gen p) ms.

Record ExtentTable := mkTable { chunks : gmap Z (list Packed); tmirrors : gmap Z (list Leg); tlen : Z }.
Definition new_table : ExtentTable := mkTable ∅ ∅ 0.
Definition is_empty (t : ExtentTable) : bool := tlen t =? 0.

Definition split (vext : Z) : Z * Z := (Z.shiftr vext CHUNK_SHIFT, Z.land vext CHUNK_MASK).
(** [(c << CHUNK_SHIFT) | off]. *)
Definition join (c off : Z) : Z := Z.lor (wrap 64 (Z.shiftl c CHUNK_SHIFT)) off.

(** [slice::binary_search_by_key] on a chunk sorted by [p_off]. *)
Fixpoint bsearch (off : Z) (chunk : list Packed) : result nat nat :=
  match chunk with
  | [] => Err 0%nat
  | p :: r =>
      if p_off p <? off then match bsearch off r with Ok i => Ok (S i) | Err i => Err (S i) end
      else if p_off p =? off then Ok 0%nat else Err 0%nat
  end.
(** [Vec::insert] and [Vec::remove]. *)
Definition vec_insert {A} (i : nat) (x : A) (l : list A) : list A := take i l ++ x :: drop i l.
Definition vec_remove {A} (i : nat) (l : list A) : list A := take i l ++ drop (S i) l.

Definition find (t : ExtentTable) (vext : Z) : option Packed :=
  let '(c, off) := split vext in
  chunk ← chunks t !! c;
  match bsearch off chunk with Ok i => chunk !! i | Err _ => None end.
Definition mirrors_of (t : ExtentTable) (vext : Z) : list Leg := default [] (tmirrors t !! vext).
Definition get (I : Interner) (t : ExtentTable) (vext : Z) : option ExtentLocation :=
  (fun p => location I p (mirrors_of t vext)) <$> find t vext.
Definition contains_key (t : ExtentTable) (vext : Z) : bool := if find t vext is Some _ then true else false.

Definition insert (I : Interner) (t : ExtentTable) (vext : Z) (loc : ExtentLocation)
    : option (Interner * ExtentTable * option ExtentLocation) :=
  let '(c, off) := split vext in
  let old_mirrors := tmirrors t !! vext in
  let ms := match mirrors loc with [] => delete vext (tmirrors t) | _ => <[vext := mirrors loc]> (tmirrors t) end in
  '(I, packed) ← pack I off loc;
  let chunk := default [] (chunks t !! c) in
  match bsearch off chunk with
  | Ok i =>
      Some (I, mkTable (<[c := <[i := packed]> chunk]> (chunks t)) ms (tlen t),
            (fun old => location I old (default [] old_mirrors)) <$> chunk !! i)
  | Err i => Some (I, mkTable (<[c := vec_insert i packed chunk]> (chunks t)) ms (tlen t + 1), None)
  end.

Definition remove (I : Interner) (t : ExtentTable) (vext : Z) : ExtentTable * option ExtentLocation :=
  let '(c, off) := split vext in
  match chunks t !! c with
  | None => (t, None)
  | Some chunk =>
      match bsearch off chunk with
      | Err _ => (t, None)
      | Ok i =>
          match chunk !! i with
          | None => (t, None)
          | Some p =>
              let chunk := vec_remove i chunk in
              let cs := match chunk with [] => delete c (chunks t) | _ => <[c := chunk]> (chunks t) end in
              (mkTable cs (delete vext (tmirrors t)) (tlen t - 1), Some (location I p (default [] (tmirrors t !! vext))))
          end
      end
  end.

(** [update]: [f] changes the location and answers. *)
Definition update {R} (I : Interner) (t : ExtentTable) (vext : Z) (f : ExtentLocation -> ExtentLocation * R)
    : option (Interner * ExtentTable * option R) :=
  match get I t vext with
  | None => Some (I, t, None)
  | Some loc => let '(loc, r) := f loc in '(I, t, _) ← insert I t vext loc; Some (I, t, Some r)
  end.

(** ** Walks, in the order of the B-tree's keys *)

Definition chunk_keys (t : ExtentTable) : list Z := sort_dedup (map fst (map_to_list (chunks t))).
Definition flat (t : ExtentTable) : list (Z * Packed) :=
  flat_map (fun c => map (fun p => (c, p)) (default [] (chunks t !! c))) (chunk_keys t).
Definition vext_of (cp : Z * Packed) : Z := join (fst cp) (p_off (snd cp)).
Definition keys (t : ExtentTable) : list Z := map vext_of (flat t).

(** [iter] looks a slab up once per change of slab: [last] is the closure's memo. *)
Fixpoint iter_from (I : Interner) (t : ExtentTable) (last : option (Z * SlabId)) (l : list (Z * Packed))
    : list (Z * ExtentLocation) :=
  match l with
  | [] => []
  | (c, p) :: r =>
      let vext := join c (p_off p) in
      let ord := p_slab p in
      let slow := let id := slab_of I ord in (id, Some (ord, id)) in
      let '(id, last) := match last with Some (o, id) => if o =? ord then (id, last) else slow | None => slow end in
      (vext, mkLoc id (p_slot p) (p_refs p) (p_gen p) (mirrors_of t vext)) :: iter_from I t last r
  end.
Definition iter (I : Interner) (t : ExtentTable) : list (Z * ExtentLocation) := iter_from I t None (flat t).
Definition values (I : Interner) (t : ExtentTable) : list ExtentLocation := map snd (iter I t).
Definition ref_counts (t : ExtentTable) : list Z := map (fun cp => p_refs (snd cp)) (flat t).
Definition to_btree (I : Interner) (t : ExtentTable) : gmap Z ExtentLocation := list_to_map (iter I t).

(** [chunks.range(a..b)] visits the keys of [[a, b)] in order. *)
Definition keys_in (t : ExtentTable) (lo hi : Z) : list Z :=
  let first := Z.shiftr lo CHUNK_SHIFT in
  let last := if hi =? 0 then 0 else Z.shiftr (hi - 1) CHUNK_SHIFT + 1 in
  let cs := filter (fun c => first <= c < Z.max last first) (chunk_keys t) in
  let vs := flat_map (fun c => map (fun p => vext_of (c, p)) (default [] (chunks t !! c))) cs in
  filter (fun v => lo <= v < hi) vs.

(** [f] threads what its closure captured, and says whether it changed anything. *)
Definition for_each_mut {S} (f : Z -> ExtentLocation -> S -> ExtentLocation * bool * S)
    (I : Interner) (t : ExtentTable) (s : S) : option (Interner * ExtentTable * S) :=
  foldl (fun acc vext =>
    '(I, t, s) ← acc;
    match get I t vext with
    | None => Some (I, t, s)
    | Some loc =>
        let '(loc, changed, s) := f vext loc s in
        if changed : bool then '(I, t, _) ← insert I t vext loc; Some (I, t, s) else Some (I, t, s)
    end) (Some (I, t, s)) (keys t).

Definition share_packed (n : Z) (p : Packed) : Packed :=
  mkPacked (p_off p) (p_slab p) (p_slot p) (Z.min u32max (p_refs p + n)) (p_gen p).
Definition add_refs (n : Z) (t : ExtentTable) : ExtentTable :=
  mkTable (map (share_packed n) <$> chunks t) (tmirrors t) (tlen t).

(** [self.insert(v, l)] for each: [FromIterator] from the empty table, [extend_from]. *)
Definition insert_all (I : Interner) (t : ExtentTable) (vls : list (Z * ExtentLocation)) : option (Interner * ExtentTable) :=
  foldl (fun acc vl => '(I, t) ← acc; '(I, t, _) ← insert I t (fst vl) (snd vl); Some (I, t)) (Some (I, t)) vls.
Definition extend_from (I : Interner) (t other : ExtentTable) : option (Interner * ExtentTable) :=
  insert_all I t (iter I other).
Definition from_iter (I : Interner) (vls : list (Z * ExtentLocation)) : option (Interner * ExtentTable) :=
  insert_all I new_table vls.

Definition move_keys {A} (d : Z) (m : gmap Z A) : gmap Z A :=
  list_to_map (map (fun kv => (wrap 64 (fst kv + d), snd kv)) (map_to_list m)).
Definition shifted (I : Interner) (t : ExtentTable) (base : Z) : option (Interner * ExtentTable) :=
  if Z.land base CHUNK_MASK =? 0 then
    Some (I, mkTable (move_keys (Z.shiftr base CHUNK_SHIFT) (chunks t)) (move_keys base (tmirrors t)) (tlen t))
  else from_iter I (map (fun vl => (wrap 64 (fst vl + base), snd vl)) (iter I t)).
