(* ===== verification/ExtMap.v ===== *)
(** What a client of the extent table sees: a finite map from virtual extents to
    locations, with the table's operations said once on maps.  [ExtTableLaws]
    proves the packed table implements them; [Gem] is written on them. *)

From S2P Require Import Prelude GemData.

Abbreviation extmap := (gmap Z ExtentLocation).

Definition sorted_keys {A} (m : gmap Z A) : list Z := sort_dedup (map fst (map_to_list m)).
(** Entries in the order of their keys. *)
Definition entries {A} (m : gmap Z A) : list (Z * A) :=
  omap (fun k => (fun x => (k, x)) <$> m !! k) (sorted_keys m).

Definition em_update {R} (v : Z) (f : ExtentLocation -> ExtentLocation * R) (m : extmap) : extmap * option R :=
  match m !! v with
  | None => (m, None)
  | Some l => (<[v := fst (f l)]> m, Some (snd (f l)))
  end.
Definition each_step {S} (f : Z -> ExtentLocation -> S -> ExtentLocation * bool * S) (ms : extmap * S) (v : Z) : extmap * S :=
  match fst ms !! v with
  | None => ms
  | Some l => let '(l', changed, s) := f v l (snd ms) in (if changed : bool then <[v := l']> (fst ms) else fst ms, s)
  end.
Definition em_each {S} (f : Z -> ExtentLocation -> S -> ExtentLocation * bool * S) (m : extmap) (s : S) : extmap * S :=
  foldl (each_step f) (m, s) (sorted_keys m).
Definition em_share (n : Z) (m : extmap) : extmap := share n <$> m.
(** Every key moved up by [d]. *)
Definition shift_keys {A} (d : Z) (m : gmap Z A) : gmap Z A := kmap (fun v => v + d) m.
(** [u64] keys: they wrap. *)
Definition em_shift (d : Z) (m : extmap) : extmap := list_to_map (map (fun kv => (wrap 64 (fst kv + d), snd kv)) (map_to_list m)).

Lemma elem_of_sorted_keys {A} (m : gmap Z A) k : k ∈ sorted_keys m <-> is_Some (m !! k).
Proof.
  unfold sorted_keys. rewrite elem_of_sort_dedup, list_elem_of_fmap. split.
  - intros ([k' x] & -> & Hin%elem_of_map_to_list). by exists x.
  - intros [x Hx]. exists (k, x). split; [done|]. by apply elem_of_map_to_list.
Qed.

Lemma increasing_ext l l' : increasing l -> increasing l' -> (forall x, x ∈ l <-> x ∈ l') -> l = l'.
Proof.
  intros Hl. revert l'. induction Hl as [|x l Hl IH Hx]; intros l' Hl' He.
  - destruct l' as [|y l']; [done|]. destruct (not_elem_of_nil y). apply He. by left.
  - destruct l' as [|y l']; [destruct (not_elem_of_nil x); apply He; by left|].
    inversion Hl' as [|? ? Hl'' Hy]; subst.
    rewrite Forall_forall in Hx, Hy.
    assert (x = y) as <-.
    { assert (x ∈ y :: l') as Hxl by (apply He; by left). assert (y ∈ x :: l) as Hyl by (apply He; by left).
      rewrite elem_of_cons in Hxl, Hyl. destruct Hxl as [|Hxl]; [done|]. destruct Hyl as [|Hyl]; [done|].
      pose proof (Hx y Hyl). pose proof (Hy x Hxl). lia. }
    f_equal. apply IH; [done|]. intros z. split; intros Hz.
    + assert (z ∈ x :: l') as [->|]%elem_of_cons by (apply He; by right); [|done]. pose proof (Hx x Hz). lia.
    + assert (z ∈ x :: l) as [->|]%elem_of_cons by (apply He; by right); [|done]. pose proof (Hy x Hz). lia.
Qed.

Lemma elem_of_entries {A} (m : gmap Z A) k x : (k, x) ∈ entries m <-> m !! k = Some x.
Proof.
  unfold entries. rewrite list_elem_of_omap. split.
  - intros (k' & _ & E). destruct (m !! k') as [y|] eqn:Ey; [|done]. cbn in E. by simplify_eq.
  - intros Hx. exists k. split; [apply elem_of_sorted_keys; by exists x|]. by rewrite Hx.
Qed.

Lemma map_fst_entries {A} (m : gmap Z A) : map fst (entries m) = sorted_keys m.
Proof.
  unfold entries. assert (forall k, k ∈ sorted_keys m -> is_Some (m !! k)) as H by (intros k; apply elem_of_sorted_keys).
  induction (sorted_keys m) as [|k l IH]; [done|]. cbn [omap list_omap].
  destruct (H k ltac:(by left)) as [x Hx]. rewrite Hx. cbn [fmap option_fmap option_map map fst]. f_equal. apply IH.
  intros; apply H; by right.
Qed.

Lemma entries_NoDup {A} (m : gmap Z A) : NoDup (map fst (entries m)).
Proof. rewrite map_fst_entries. apply sort_dedup_NoDup. Qed.

Lemma list_to_map_entries {A} (m : gmap Z A) : list_to_map (entries m) = m.
Proof.
  apply map_eq. intros k. apply option_eq. intros x.
  rewrite <- elem_of_list_to_map by exact (entries_NoDup m). apply elem_of_entries.
Qed.

(** One sweep of [em_each], for an [f] that only looks at its own entry. *)
Section Each.
Context {S : Type} (f : Z -> ExtentLocation -> S -> ExtentLocation * bool * S).
Context (g : Z -> ExtentLocation -> ExtentLocation).
Context (Hg : forall v l s, (if snd (fst (f v l s)) then fst (fst (f v l s)) else l) = g v l).

Lemma each_sweep_lookup ks : forall m s v,
  NoDup ks -> fst (foldl (each_step f) (m, s) ks) !! v = (if decide (v ∈ ks) then g v else id) <$> m !! v.
Proof using Hg.
  induction ks as [|k ks IH]; intros m s v Hnd; cbn [foldl].
  { rewrite decide_False by (by apply not_elem_of_nil). cbn [fst]. by destruct (m !! v). }
  apply NoDup_cons in Hnd as [Hk Hnd]. unfold each_step at 2. cbn [fst snd].
  destruct (m !! k) as [l|] eqn:El.
  - pose proof (Hg k l s) as Hgl. destruct (f k l s) as [[l' changed] s']. cbn [fst snd] in Hgl. rewrite IH by done.
    destruct (decide (v = k)) as [->|Hvk].
    + destruct (decide (k ∈ ks)) as [|_]; [done|].
      destruct (decide (k ∈ k :: ks)) as [_|Hn]; [|destruct Hn; by left].
      rewrite El. cbn. destruct changed; rewrite ?lookup_insert_eq, ?El; cbn; f_equal; exact Hgl.
    + assert ((if changed then <[k := l']> m else m) !! v = m !! v) as -> by (destruct changed; by rewrite ?lookup_insert_ne by done).
      destruct (decide (v ∈ ks)), (decide (v ∈ k :: ks)) as [Hin|Hin]; try done.
      * by destruct Hin; right.
      * by rewrite elem_of_cons in Hin; destruct Hin as [|].
  - rewrite IH by done. destruct (decide (v = k)) as [->|Hvk]; [by rewrite El|].
    destruct (decide (v ∈ ks)), (decide (v ∈ k :: ks)) as [Hin|Hin]; try done.
    + by destruct Hin; right.
    + by rewrite elem_of_cons in Hin; destruct Hin as [|].
Qed.

Lemma each_lookup m s v : fst (em_each f m s) !! v = g v <$> m !! v.
Proof using Hg.
  unfold em_each. rewrite each_sweep_lookup by apply sort_dedup_NoDup.
  case_decide as E; [done|]. destruct (m !! v) as [l|] eqn:El; [|done].
  destruct E. apply elem_of_sorted_keys. by exists l.
Qed.
End Each.

(** ** Moving keys *)

#[export] Instance add_inj d : Inj (=) (=) (fun v : Z => v + d).
Proof. intros x y. lia. Qed.

Lemma shift_keys_lookup {A} d (m : gmap Z A) w : shift_keys d m !! w = m !! (w - d).
Proof. unfold shift_keys. rewrite <- (lookup_kmap (fun v => v + d) m (w - d)). f_equal. lia. Qed.

Lemma em_shift_room d (m : extmap) : (forall k x, m !! k = Some x -> 0 <= k + d < 2 ^ 64) -> em_shift d m = shift_keys d m.
Proof.
  intros H. unfold em_shift, shift_keys, kmap. f_equal. apply map_ext_in. intros [k x] Hin%list_elem_of_In%elem_of_map_to_list.
  cbn. f_equal. unfold wrap. apply Z.mod_small. by eapply H.
Qed.
Lemma em_shift_nonempty d (m : extmap) : m <> ∅ -> em_shift d m <> ∅.
Proof.
  intros Hm E. unfold em_shift in E. destruct (map_to_list m) as [|kx l] eqn:El; [by apply map_to_list_empty_iff in El|].
  cbn in E. by apply insert_non_empty in E.
Qed.
Lemma size_shift_keys {A} d (m : gmap Z A) : size (shift_keys d m) = size m.
Proof.
  rewrite <- !length_map_to_list. unfold shift_keys. rewrite (map_to_list_kmap (fun v => v + d) m). apply length_fmap.
Qed.

(** What a sweep carries depends on the map as it was: no turn sees another's change. *)
Section EachState.
Context {S : Type} (f : Z -> ExtentLocation -> S -> ExtentLocation * bool * S).

Lemma each_sweep_state ks : forall m s,
  NoDup ks ->
  snd (foldl (each_step f) (m, s) ks)
  = foldl (fun s vl => snd (f (fst vl) (snd vl) s)) s (omap (fun k => (fun x => (k, x)) <$> m !! k) ks).
Proof using Type.
  induction ks as [|k ks IH]; intros m s Hnd; cbn [foldl omap list_omap]; [done|].
  apply NoDup_cons in Hnd as [Hk Hnd]. unfold each_step at 2. cbn [fst snd].
  destruct (m !! k) as [l|] eqn:El; cbn [fmap option_fmap option_map]; [|by apply IH].
  destruct (f k l s) as [[l' changed] s'] eqn:Ef. cbn [foldl fst snd]. rewrite Ef, IH by done. cbn [snd]. f_equal.
  destruct changed; [|done]. clear IH Ef El. induction ks as [|j ks IH]; [done|]. rewrite elem_of_cons in Hk.
  apply NoDup_cons in Hnd as [_ Hnd]. cbn [omap list_omap]. rewrite lookup_insert_ne by (intros ->; tauto).
  rewrite IH by tauto. done.
Qed.

Lemma each_state m s : snd (em_each f m s) = foldl (fun s vl => snd (f (fst vl) (snd vl) s)) s (entries m).
Proof using Type. apply each_sweep_state, sort_dedup_NoDup. Qed.
End EachState.
