(* ===== verification/Gem.v ===== *)
(** The global extent map, [volume/gem.rs]: which slots hold each volume's extents
    and parity, which maps are in memory, and what changed since the last persist.
    A volume's extents are the map of [ExtMap], which [ExtTableLaws] shows the
    packed table to be. *)

From S2P Require Import Prelude GemData ExtMap.

(** ** A volume's map *)

Record VolumeExtentMap := mkVmap { extents : extmap; parity : gmap Z ParityGroup }.
Definition vmap0 : VolumeExtentMap := mkVmap ∅ ∅.
Definition vmap_len (m : VolumeExtentMap) : Z := Z.of_nat (size (extents m)).
Definition vmap_is_empty (m : VolumeExtentMap) : bool := bool_decide (extents m = ∅).

Definition locations (m : VolumeExtentMap) : list ExtentLocation := map snd (entries (extents m)).
Definition groups (m : VolumeExtentMap) : list ParityGroup := map snd (entries (parity m)).
Definition count_if {A} (p : A -> bool) (l : list A) : Z := zlen (filter (fun x => p x = true) l).
(** Extents this volume is the only holder of, and those it shares. *)
Definition exclusive (m : VolumeExtentMap) : Z := count_if (fun l => ref_count l <=? 1) (locations m).
Definition shared (m : VolumeExtentMap) : Z := count_if (fun l => 1 <? ref_count l) (locations m).
Definition exclusive_legs (m : VolumeExtentMap) : Z :=
  zsum (map leg_count (filter (fun l => ref_count l <= 1) (locations m)))
  + zsum (map (fun g => zlen (pg_legs g)) (filter (fun g => pg_refs g <= 1) (groups m))).
Definition all_legs (m : VolumeExtentMap) : list Leg :=
  flat_map legs (locations m) ++ flat_map pg_legs (groups m).

(** ** State *)

Record ColdMap := mkCold {
  cm_extents : Z; cm_exclusive : Z; cm_shared : Z; cm_exclusive_legs : Z; cm_slabs : list SlabId }.
Record Changes := mkChanges {
  ch_whole : gset VolumeId; ch_extents : gmap VolumeId (gset Z); ch_parity : gmap VolumeId (gset Z) }.
Definition no_changes : Changes := mkChanges ∅ ∅ ∅.

(** [pager] is whether one is set; its [load] is an argument where it is called. *)
Record GlobalExtentMap := mkGem {
  volumes : gmap VolumeId VolumeExtentMap; cold : gmap VolumeId ColdMap; pager : bool;
  pins : Z; track : bool; changes : Changes }.
Definition new_gem : GlobalExtentMap := mkGem ∅ ∅ false 0 false no_changes.

Definition with_volumes (vs : gmap VolumeId VolumeExtentMap) (g : GlobalExtentMap) : GlobalExtentMap :=
  mkGem vs (cold g) (pager g) (pins g) (track g) (changes g).
Definition with_cold (c : gmap VolumeId ColdMap) (g : GlobalExtentMap) : GlobalExtentMap :=
  mkGem (volumes g) c (pager g) (pins g) (track g) (changes g).
Definition with_changes (c : Changes) (g : GlobalExtentMap) : GlobalExtentMap :=
  mkGem (volumes g) (cold g) (pager g) (pins g) (track g) c.

(** A map was touched that is not in memory: the panic of [check] and [check_all]. *)
Inductive Panic := NotInMemory.

Definition check (g : GlobalExtentMap) (id : VolumeId) : result Panic unit :=
  if cold g !! id is Some _ then Err NotInMemory else Ok tt.
Definition check_all (g : GlobalExtentMap) : result Panic unit :=
  if decide (cold g = ∅) then Ok tt else Err NotInMemory.

Definition ch_is_empty (c : Changes) : bool :=
  bool_decide (ch_whole c = ∅) && bool_decide (ch_extents c = ∅) && bool_decide (ch_parity c = ∅).
Definition ch_volumes (c : Changes) : gset VolumeId := ch_whole c ∪ dom (ch_extents c) ∪ dom (ch_parity c).

Definition is_cold (g : GlobalExtentMap) (id : VolumeId) : bool := if cold g !! id is Some _ then true else false.
Definition resident_ids (g : GlobalExtentMap) : list VolumeId := map fst (map_to_list (volumes g)).
Definition cold_ids (g : GlobalExtentMap) : list VolumeId := map fst (map_to_list (cold g)).
Definition has_changes (g : GlobalExtentMap) (id : VolumeId) : bool :=
  let c := changes g in
  bool_decide (id ∈ ch_whole c) || bool_decide (id ∈ dom (ch_extents c)) || bool_decide (id ∈ dom (ch_parity c)).

(** ** In and out of memory *)

Definition pin (g : GlobalExtentMap) : GlobalExtentMap :=
  mkGem (volumes g) (cold g) (pager g) (pins g + 1) (track g) (changes g).
Definition unpin (g : GlobalExtentMap) : GlobalExtentMap :=
  mkGem (volumes g) (cold g) (pager g) (pins g - 1) (track g) (changes g).

(** [sort_by_key] then [dedup] on ids of equal slabs: one of each, whatever the order. *)
Definition evict (id : VolumeId) (g : GlobalExtentMap) : bool * GlobalExtentMap :=
  if (0 <? pins g) || has_changes g id || is_cold g id then (false, g)
  else
    match volumes g !! id with
    | None => (false, g)
    | Some m =>
        let c := mkCold (vmap_len m) (exclusive m) (shared m) (exclusive_legs m) (remove_dups (map lg_slab (all_legs m))) in
        (true, with_cold (<[id := c]> (cold g)) (with_volumes (delete id (volumes g)) g))
    end.
Definition install (id : VolumeId) (m : VolumeExtentMap) (g : GlobalExtentMap) : GlobalExtentMap :=
  let g := with_cold (delete id (cold g)) g in
  if vmap_is_empty m then g else with_volumes (<[id := m]> (volumes g)) g.

Definition track_changes (on : bool) (g : GlobalExtentMap) : GlobalExtentMap :=
  mkGem (volumes g) (cold g) (pager g) (pins g) on (if on then changes g else no_changes).
Definition set_pager (p : bool) (g : GlobalExtentMap) : GlobalExtentMap :=
  mkGem (volumes g) (cold g) p (pins g) (track g) (changes g).
Definition take_changes (g : GlobalExtentMap) : Changes * GlobalExtentMap := (changes g, with_changes no_changes g).

(** [ensure_resident] holds no lock while it loads: what it decides before the load,
    and what it does with the map once loaded, are two steps. *)
Inductive LoadPlan := NothingToDo | NoPager | Load.
Definition ensure_resident_plan (id : VolumeId) (g : GlobalExtentMap) : LoadPlan :=
  if negb (is_cold g id) then NothingToDo else if pager g then Load else NoPager.
Definition ensure_resident_finish (id : VolumeId) (m : VolumeExtentMap) (g : GlobalExtentMap) : GlobalExtentMap :=
  if is_cold g id then install id m g else g.

(** ** Recording changes *)

Definition add_to (v : VolumeId) (k : Z) (m : gmap VolumeId (gset Z)) : gmap VolumeId (gset Z) :=
  <[v := {[k]} ∪ default ∅ (m !! v)]> m.
Definition touch (v : VolumeId) (vext : Z) (g : GlobalExtentMap) : GlobalExtentMap :=
  if track g then with_changes (mkChanges (ch_whole (changes g)) (add_to v vext (ch_extents (changes g))) (ch_parity (changes g))) g else g.
Definition touch_parity (v : VolumeId) (stripe : Z) (g : GlobalExtentMap) : GlobalExtentMap :=
  if track g then with_changes (mkChanges (ch_whole (changes g)) (ch_extents (changes g)) (add_to v stripe (ch_parity (changes g)))) g else g.
Definition touch_whole (v : VolumeId) (g : GlobalExtentMap) : GlobalExtentMap :=
  if track g then with_changes (mkChanges ({[v]} ∪ ch_whole (changes g)) (ch_extents (changes g)) (ch_parity (changes g))) g else g.

(** [self.volumes.entry(id).or_default()], changed by [f]. *)
Definition entry_or_default (id : VolumeId) (f : VolumeExtentMap -> VolumeExtentMap) (g : GlobalExtentMap) : GlobalExtentMap :=
  with_volumes (<[id := f (default vmap0 (volumes g !! id))]> (volumes g)) g.
Definition set_extents (f : extmap -> extmap) (m : VolumeExtentMap) : VolumeExtentMap := mkVmap (f (extents m)) (parity m).
Definition set_parity (f : gmap Z ParityGroup -> gmap Z ParityGroup) (m : VolumeExtentMap) : VolumeExtentMap :=
  mkVmap (extents m) (f (parity m)).

(** ** One extent, one stripe *)

Definition insert (id : VolumeId) (vext : Z) (l : ExtentLocation) (g : GlobalExtentMap) : result Panic GlobalExtentMap :=
  let? _ := check g id in
  Ok (touch id vext (entry_or_default id (set_extents <[vext := l]>) g)).
Definition restore_mapping := insert.

Definition insert_parity (id : VolumeId) (stripe : Z) (p : ParityGroup) (g : GlobalExtentMap) : result Panic GlobalExtentMap :=
  let? _ := check g id in
  Ok (touch_parity id stripe (entry_or_default id (set_parity <[stripe := p]>) g)).
Definition restore_parity := insert_parity.

Definition lookup (g : GlobalExtentMap) (id : VolumeId) (vext : Z) : result Panic (option ExtentLocation) :=
  let? _ := check g id in Ok (m ← volumes g !! id; extents m !! vext).
Definition lookup_parity (g : GlobalExtentMap) (id : VolumeId) (stripe : Z) : result Panic (option ParityGroup) :=
  let? _ := check g id in Ok (m ← volumes g !! id; parity m !! stripe).
Definition mapped_in (g : GlobalExtentMap) (id : VolumeId) (lo hi : Z) : result Panic (list Z) :=
  let? _ := check g id in
  Ok (if volumes g !! id is Some m then filter (fun v => lo <= v < hi) (sorted_keys (extents m)) else []).

(** A map left with nothing in it is dropped. *)
Definition put_or_drop (id : VolumeId) (m : VolumeExtentMap) (g : GlobalExtentMap) : GlobalExtentMap :=
  if bool_decide (extents m = ∅) && bool_decide (parity m = ∅) then with_volumes (delete id (volumes g)) g
  else with_volumes (<[id := m]> (volumes g)) g.
Definition remove (id : VolumeId) (vext : Z) (g : GlobalExtentMap) : result Panic (option ExtentLocation * GlobalExtentMap) :=
  let? _ := check g id in
  match volumes g !! id with
  | None => Ok (None, g)
  | Some m =>
      match extents m !! vext with
      | None => Ok (None, g)
      | Some l => Ok (Some l, touch id vext (put_or_drop id (set_extents (delete vext) m) g))
      end
  end.
Definition remove_parity (id : VolumeId) (stripe : Z) (g : GlobalExtentMap) : result Panic (option ParityGroup * GlobalExtentMap) :=
  let? _ := check g id in
  match volumes g !! id with
  | None => Ok (None, g)
  | Some m =>
      match parity m !! stripe with
      | None => Ok (None, g)
      | Some p => Ok (Some p, touch_parity id stripe (put_or_drop id (set_parity (delete stripe) m) g))
      end
  end.

(** [m.extents.update(vext, f)], recording a change when [hit] says so of the answer. *)
Definition update_extent {R} (id : VolumeId) (vext : Z) (f : ExtentLocation -> ExtentLocation * R) (hit : option R -> bool)
    (g : GlobalExtentMap) : bool * GlobalExtentMap :=
  match volumes g !! id with
  | None => (false, g)
  | Some m =>
      let '(e, r) := em_update vext f (extents m) in
      let g := with_volumes (<[id := mkVmap e (parity m)]> (volumes g)) g in
      if hit r then (true, touch id vext g) else (false, g)
  end.
Definition found {R} (r : option R) : bool := if r is Some _ then true else false.
Definition said_yes (r : option bool) : bool := default false r.

Definition inc_extent_ref (id : VolumeId) (vext : Z) (g : GlobalExtentMap) : result Panic GlobalExtentMap :=
  let? _ := check g id in
  Ok (snd (update_extent id vext (fun l => (set_refs (wrap 32 (ref_count l + 1)) l, tt)) found g)).
Definition set_extent_ref (id : VolumeId) (vext n : Z) (g : GlobalExtentMap) : result Panic GlobalExtentMap :=
  let? _ := check g id in Ok (snd (update_extent id vext (fun l => (set_refs n l, tt)) found g)).

Definition update_group (id : VolumeId) (stripe : Z) (f : ParityGroup -> ParityGroup) (g : GlobalExtentMap) : GlobalExtentMap :=
  match volumes g !! id with
  | None => g
  | Some m =>
      match parity m !! stripe with
      | None => g
      | Some p => touch_parity id stripe (with_volumes (<[id := set_parity <[stripe := f p]> m]> (volumes g)) g)
      end
  end.
Definition inc_parity_ref (id : VolumeId) (stripe : Z) (g : GlobalExtentMap) : result Panic GlobalExtentMap :=
  let? _ := check g id in Ok (update_group id stripe share_group g).
Definition set_parity_ref (id : VolumeId) (stripe n : Z) (g : GlobalExtentMap) : result Panic GlobalExtentMap :=
  let? _ := check g id in Ok (update_group id stripe (set_group_refs n) g).

Definition names (leg : Leg) (l : ExtentLocation) : bool := bool_decide (leg ∈ legs l).

Definition set_owner_ref (owner : VolumeId) (tagged : Z) (leg : Leg) (n : Z) (g : GlobalExtentMap) : GlobalExtentMap :=
  if is_cold g owner then g
  else
    match parse_parity_vext tagged with
    | Some (_, stripe) =>
        match m ← volumes g !! owner; parity m !! stripe with
        | Some p => if bool_decide (leg ∈ pg_legs p) then update_group owner stripe (set_group_refs n) g else g
        | None => g
        end
    | None => snd (update_extent owner tagged (fun l => if names leg l then (set_refs n l, true) else (l, false)) said_yes g)
    end.

(** ** Legs *)

(** The first mirror that is [old], replaced. *)
Fixpoint replace_first (old new : Leg) (ms : list Leg) : option (list Leg) :=
  match ms with
  | [] => None
  | m :: r => if decide (m = old) then Some (new :: r) else (cons m) <$> replace_first old new r
  end.
Definition replace_leg_in (old new : Leg) (l : ExtentLocation) : ExtentLocation * bool :=
  if decide (primary l = old) then (next_generation (set_primary new l), true)
  else match replace_first old new (mirrors l) with
       | Some ms => (next_generation (set_mirrors ms l), true)
       | None => (l, false)
       end.
Definition replace_leg (id : VolumeId) (vext : Z) (old new : Leg) (g : GlobalExtentMap) : result Panic (bool * GlobalExtentMap) :=
  let? _ := check g id in Ok (update_extent id vext (replace_leg_in old new) said_yes g).

Definition push_mirror (leg : Leg) (l : ExtentLocation) : ExtentLocation := set_mirrors (mirrors l ++ [leg]) l.
Definition add_leg (id : VolumeId) (vext : Z) (leg : Leg) (g : GlobalExtentMap) : result Panic (bool * GlobalExtentMap) :=
  let? _ := check g id in
  Ok (update_extent id vext (fun l => (if names leg l then l else push_mirror leg l, tt)) found g).

(** Drop [leg] from a location, never its last; whether it was there to drop. *)
Definition drop_leg_in (leg : Leg) (l : ExtentLocation) : ExtentLocation * bool :=
  if decide (primary l = leg) then
    match mirrors l with
    | [] => (l, false)
    | next :: r => (set_primary next (set_mirrors r l), true)
    end
  else
    let ms := filter (fun m => m <> leg) (mirrors l) in
    if (length ms =? length (mirrors l))%nat then (l, false) else (set_mirrors ms l, true).
Definition drop_leg (id : VolumeId) (vext : Z) (leg : Leg) (g : GlobalExtentMap) : result Panic (bool * GlobalExtentMap) :=
  let? _ := check g id in Ok (update_extent id vext (drop_leg_in leg) said_yes g).

Definition position (leg : Leg) (ls : list Leg) : option nat := fst <$> list_find (fun l => l = leg) ls.
Definition set_legs (ls : list Leg) (p : ParityGroup) : ParityGroup := mkGroup ls (pg_refs p) (pg_generation p) (data_width p).
Definition next_group (p : ParityGroup) : ParityGroup := mkGroup (pg_legs p) (pg_refs p) (wrap 64 (pg_generation p + 1)) (data_width p).
Definition replace_parity_leg (id : VolumeId) (stripe : Z) (old new : Leg) (g : GlobalExtentMap) : result Panic (bool * GlobalExtentMap) :=
  let? _ := check g id in
  Ok match m ← volumes g !! id; parity m !! stripe with
     | None => (false, g)
     | Some p =>
         match position old (pg_legs p) with
         | None => (false, g)
         | Some i => (true, update_group id stripe (fun p => next_group (set_legs (<[i := new]> (pg_legs p)) p)) g)
         end
     end.

(** ** Sweeps of every map *)

(** [for (vid, vmap) in self.volumes.iter_mut()], [h] threading what the loop carries. *)
Definition sweep {S} (h : VolumeId -> VolumeExtentMap -> S -> VolumeExtentMap * S)
    (vs : gmap VolumeId VolumeExtentMap) (s : S) : gmap VolumeId VolumeExtentMap * S :=
  foldl (fun vss vm => let '(m, s) := h (fst vm) (snd vm) (snd vss) in (<[fst vm := m]> (fst vss), s)) (vs, s) (map_to_list vs).
Definition sweep_extents {S} (f : VolumeId -> Z -> ExtentLocation -> S -> ExtentLocation * bool * S)
    (vs : gmap VolumeId VolumeExtentMap) (s : S) : gmap VolumeId VolumeExtentMap * S :=
  sweep (fun id m s => let '(e, s) := em_each (f id) (extents m) s in (mkVmap e (parity m), s)) vs s.

Definition touch_all (ts : list (VolumeId * Z)) (g : GlobalExtentMap) : GlobalExtentMap :=
  foldl (fun g t => touch (fst t) (snd t) g) g ts.
Definition touch_all_parity (ts : list (VolumeId * Z)) (g : GlobalExtentMap) : GlobalExtentMap :=
  foldl (fun g t => touch_parity (fst t) (snd t) g) g ts.

(** References rewritten so far, and what to record. *)
Record Rewritten := mkRewritten { rw_count : Z; rw_extents : list (VolumeId * Z); rw_parity : list (VolumeId * Z) }.

Definition moved (moves : gmap Leg Leg) (l : Leg) : Leg := default l (moves !! l).
Definition is_moved (moves : gmap Leg Leg) (l : Leg) : bool := bool_decide (is_Some (moves !! l)).
Definition rewrite_loc (moves : gmap Leg Leg) (tr : bool) (id : VolumeId) (vext : Z) (l : ExtentLocation) (s : Rewritten)
    : ExtentLocation * bool * Rewritten :=
  let '(l', n) := match moves !! primary l with
                  | Some new => (next_generation (set_primary new l), 1)
                  | None => (l, 0)
                  end in
  let n := n + count_if (is_moved moves) (mirrors l) in
  let l' := set_mirrors (map (moved moves) (mirrors l)) l' in
  (l', negb (n =? 0), mkRewritten (rw_count s + n) (if tr && negb (n =? 0) then rw_extents s ++ [(id, vext)] else rw_extents s) (rw_parity s)).
(** One stripe: each leg in its turn, the generation raised with each that moved. *)
Definition moved_legs (moves : gmap Leg Leg) (p : ParityGroup) : list Leg := filter (fun l => is_moved moves l = true) (pg_legs p).
Definition rewrite_group (moves : gmap Leg Leg) (p : ParityGroup) : ParityGroup :=
  mkGroup (map (moved moves) (pg_legs p)) (pg_refs p)
    (Nat.iter (length (moved_legs moves p)) (fun n => wrap 64 (n + 1)) (pg_generation p)) (data_width p).
Definition rewrite_parity (moves : gmap Leg Leg) (tr : bool) (id : VolumeId) (s : Rewritten) (sp : Z * ParityGroup) : Rewritten :=
  let hits := moved_legs moves (snd sp) in
  mkRewritten (rw_count s + zlen hits) (rw_extents s) (if tr then rw_parity s ++ map (fun _ => (id, fst sp)) hits else rw_parity s).
Definition rewrite_volume (moves : gmap Leg Leg) (tr : bool) (id : VolumeId) (m : VolumeExtentMap) (s : Rewritten)
    : VolumeExtentMap * Rewritten :=
  let '(e, s) := em_each (rewrite_loc moves tr id) (extents m) s in
  (mkVmap e (rewrite_group moves <$> parity m), foldl (rewrite_parity moves tr id) s (entries (parity m))).
Definition rewrite_legs (moves : gmap Leg Leg) (g : GlobalExtentMap) : result Panic (Z * GlobalExtentMap) :=
  let? _ := check_all g in
  if decide (moves = ∅) then Ok (0, g)
  else
    let '(vs, s) := sweep (rewrite_volume moves (track g)) (volumes g) (mkRewritten 0 [] []) in
    Ok (rw_count s, touch_all_parity (rw_parity s) (touch_all (rw_extents s) (with_volumes vs g))).

(** A sweep of the extents that counts and records each one it changes. *)
Definition tally (f : ExtentLocation -> ExtentLocation * bool) (id : VolumeId) (vext : Z) (l : ExtentLocation)
    (s : Z * list (VolumeId * Z)) : ExtentLocation * bool * (Z * list (VolumeId * Z)) :=
  let '(l', done) := f l in
  (l', done, if done : bool then (fst s + 1, snd s ++ [(id, vext)]) else s).
Definition sweep_tally (f : ExtentLocation -> ExtentLocation * bool) (g : GlobalExtentMap) : result Panic (Z * GlobalExtentMap) :=
  let? _ := check_all g in
  let '(vs, s) := sweep_extents (tally f) (volumes g) (0, []) in
  Ok (fst s, touch_all (snd s) (with_volumes vs g)).
Definition beside (existing new : Leg) (l : ExtentLocation) : ExtentLocation * bool :=
  if names existing l && negb (names new l) then (push_mirror new l, true) else (l, false).
Definition add_leg_beside (existing new : Leg) := sweep_tally (beside existing new).
Definition drop_leg_everywhere (leg : Leg) := sweep_tally (drop_leg_in leg).

(** Slots named by something other than a lone extent, and the extents that name one alone. *)
Definition unmap_scan (ls : gset Leg) (s : gset Leg * list (VolumeId * Z * Leg)) (vm : VolumeId * VolumeExtentMap)
    : gset Leg * list (VolumeId * Z * Leg) :=
  let m := snd vm in
  let protected := bool_decide (parity m <> ∅) in
  let keep := fst s ∪ (list_to_set (flat_map pg_legs (groups m)) ∩ ls) in
  foldl (fun s vl =>
    let '(vext, l) := (vl : Z * ExtentLocation) in
    let s := if decide (primary l ∈ ls) then
               (if protected || negb (bool_decide (mirrors l = [])) then ({[primary l]} ∪ fst s, snd s)
                else (fst s, snd s ++ [(fst vm, vext, primary l)]))
             else s in
    (fst s ∪ (list_to_set (mirrors l) ∩ ls), snd s)) (keep, snd s) (entries (extents m)).
Definition unmap_legs_everywhere (ls : gset Leg) (g : GlobalExtentMap) : result Panic (gset Leg * GlobalExtentMap) :=
  let? _ := check_all g in
  if decide (ls = ∅) then Ok (∅, g)
  else
    let '(keep, hits) := foldl (unmap_scan ls) (∅, []) (map_to_list (volumes g)) in
    foldl (fun acc hit =>
      let? dg := acc in
      let '(v, e, leg) := hit in
      if decide (leg ∈ keep) then Ok dg
      else let? rg := remove v e (snd dg) in Ok ({[leg]} ∪ fst dg, snd rg)) (Ok (∅, g)) hits.

(** ** Whole maps *)

(** [absorb]: [others] is the other map's resident volumes. *)
Definition absorb (others : gmap VolumeId VolumeExtentMap) (ids : list VolumeId) (g : GlobalExtentMap) : GlobalExtentMap :=
  snd (foldl (fun og id =>
    match fst og !! id with
    | None => og
    | Some m =>
        let g := snd og in
        (delete id (fst og), touch_whole id (with_volumes (<[id := m]> (volumes g)) (with_cold (delete id (cold g)) g)))
    end) (others, g) ids).

Definition rename_volume (from to_ : VolumeId) (g : GlobalExtentMap) : result Panic (option VolumeExtentMap * GlobalExtentMap) :=
  let? _ := check g to_ in
  let? _ := check g from in
  match volumes g !! from with
  | None => Ok (None, g)
  | Some m =>
      let vs := delete from (volumes g) in
      let old := vs !! to_ in
      let vs := <[to_ := m]> (delete to_ vs) in
      Ok (old, touch_whole to_ (touch_whole from (with_volumes vs g)))
  end.
Definition remove_volume (id : VolumeId) (g : GlobalExtentMap) : result Panic (option VolumeExtentMap * GlobalExtentMap) :=
  let? _ := check g id in
  let g := touch_whole id g in
  Ok (volumes g !! id, with_volumes (delete id (volumes g)) g).
Definition get_volume_map (g : GlobalExtentMap) (id : VolumeId) : result Panic (option VolumeExtentMap) :=
  let? _ := check g id in Ok (volumes g !! id).

Definition share_map (m : VolumeExtentMap) : VolumeExtentMap := mkVmap (em_share 1 (extents m)) (share_group <$> parity m).
(** Raise the counts of [id]'s own map, if it has one. *)
Definition share_source (id : VolumeId) (g : GlobalExtentMap) : GlobalExtentMap :=
  with_volumes (alter share_map id (volumes g)) g.
Definition clone_volume_map (source dest : VolumeId) (g : GlobalExtentMap) : result Panic (option VolumeExtentMap * GlobalExtentMap) :=
  let? _ := check g dest in
  let? _ := check g source in
  match volumes g !! source with
  | None => Ok (None, g)
  | Some m =>
      let d := share_map m in
      let g := share_source source g in
      let g := with_volumes (<[dest := d]> (volumes g)) g in
      Ok (Some d, touch_whole dest (touch_whole source g))
  end.

Definition gather_into (source dest : VolumeId) (base : Z) (g : GlobalExtentMap) : result Panic (list Leg * GlobalExtentMap) :=
  let? _ := check g dest in
  let? _ := check g source in
  match volumes g !! source with
  | None => Ok ([], g)
  | Some m =>
      let sh := em_share 1 (em_shift base (extents m)) in
      let ls := flat_map (fun vl => legs (snd vl)) (entries sh) in
      let p := foldl (fun p sp => <[wrap 64 (base + fst sp) := share_group (snd sp)]> p) in
      let g := entry_or_default dest (fun d => mkVmap (sh ∪ extents d) (p (parity d) (entries (parity m)))) g in
      let g := share_source source g in
      Ok (ls, touch_whole dest (touch_whole source g))
  end.

(** [None]: the panic on an extent [place] does not name. *)
Definition placed (place : gmap Z Z) (m : extmap) : option extmap :=
  foldl (fun acc vl => e ← acc; at_ ← place !! fst vl; Some (<[at_ := snd vl]> e)) (Some ∅) (entries m).
Inductive GatherPanic := GatherNotInMemory | NotPlaced.
Definition in_gather {A} (r : result Panic A) : result GatherPanic A :=
  match r with Ok a => Ok a | Err NotInMemory => Err GatherNotInMemory end.
Definition gather_remapped (source dest : VolumeId) (place : gmap Z Z) (g : GlobalExtentMap)
    : result GatherPanic (option (list Leg) * GlobalExtentMap) :=
  let? _ := in_gather (check g dest) in
  let? _ := in_gather (check g source) in
  match volumes g !! source with
  | None => Ok (Some [], g)
  | Some m =>
      if bool_decide (parity m <> ∅) then Ok (None, g)
      else
        match placed place (extents m) with
        | None => Err NotPlaced
        | Some sh =>
            let sh := em_share 1 sh in
            let ls := flat_map (fun vl => legs (snd vl)) (entries sh) in
            let g := entry_or_default dest (set_extents (fun e => sh ∪ e)) g in
            let g := with_volumes (alter (set_extents (em_share 1)) source (volumes g)) g in
            Ok (Some ls, touch_whole dest (touch_whole source g))
        end
  end.

(** ** Walks *)

Definition volume_count (g : GlobalExtentMap) : Z := Z.of_nat (size (volumes g)) + Z.of_nat (size (cold g)).
Definition total_extents (g : GlobalExtentMap) : Z :=
  zsum (map (fun vm => vmap_len (snd vm)) (map_to_list (volumes g))) + zsum (map (fun vc => cm_extents (snd vc)) (map_to_list (cold g))).
(** The legs every resident map names, data and parity. *)
Definition every_leg (g : GlobalExtentMap) : list Leg := flat_map (fun vm => all_legs (snd vm)) (map_to_list (volumes g)).
Definition reverse_entries (g : GlobalExtentMap) : result Panic Z :=
  let? _ := check_all g in Ok (zlen (remove_dups (every_leg g))).
Definition volume_ids (g : GlobalExtentMap) : result Panic (list VolumeId) :=
  let? _ := check_all g in Ok (resident_ids g).

Definition parity_hit (leg : Leg) (id : VolumeId) (sp : Z * ParityGroup) : option (VolumeId * Z) :=
  (fun i => (id, parity_vext (Z.of_nat i) (fst sp))) <$> position leg (pg_legs (snd sp)).
(** What a map answers for a slot: its extents first, then its parity. *)
Definition volume_hit (leg : Leg) (vm : VolumeId * VolumeExtentMap) : option (VolumeId * Z) :=
  match list_find (fun vl : Z * ExtentLocation => names leg (snd vl) = true) (entries (extents (snd vm))) with
  | Some (_, vl) => Some (fst vm, fst vl)
  | None => hd_error (omap (parity_hit leg (fst vm)) (entries (parity (snd vm))))
  end.
Definition reverse_lookup (slab : SlabId) (slot : Z) (g : GlobalExtentMap) : result Panic (option (VolumeId * Z)) :=
  let? _ := check_all g in Ok (hd_error (omap (volume_hit (mkLeg slab slot)) (map_to_list (volumes g)))).

(** One entry per slot of the slab: the first map walked that names it. *)
Definition first_per_slot {A} (slot_of : A -> option Z) (l : list A) : list A :=
  snd (foldl (fun so x =>
    match slot_of x with
    | Some s => if decide (s ∈ fst so) then so else ({[s]} ∪ fst so, snd so ++ [x])
    | None => so
    end) ((∅ : gset Z), []) l).
Definition slab_extents (slab : SlabId) (g : GlobalExtentMap) : result Panic (list (VolumeId * Z * ExtentLocation)) :=
  let? _ := check_all g in
  Ok (first_per_slot (fun x : VolumeId * Z * ExtentLocation => lg_slot <$> leg_on (snd x) slab)
        (flat_map (fun vm => map (fun vl => (fst vm, fst vl, snd vl)) (entries (extents (snd vm)))) (map_to_list (volumes g)))).
Definition slab_parity (slab : SlabId) (g : GlobalExtentMap) : result Panic (list (VolumeId * Z * ParityGroup)) :=
  let? _ := check_all g in
  Ok (first_per_slot (fun x : VolumeId * Z * ParityGroup => lg_slot <$> hd_error (filter (fun l => lg_slab l = slab) (pg_legs (snd x))))
        (flat_map (fun vm => map (fun sp => (fst vm, fst sp, snd sp)) (entries (parity (snd vm)))) (map_to_list (volumes g)))).
Definition slab_in_use (slab : SlabId) (g : GlobalExtentMap) : bool :=
  existsb (fun vc => bool_decide (slab ∈ cm_slabs (snd vc))) (map_to_list (cold g))
  || existsb (fun l => bool_decide (lg_slab l = slab)) (every_leg g).
Definition volume_extents (g : GlobalExtentMap) (id : VolumeId) : result Panic (option (list (Z * ExtentLocation))) :=
  let? _ := check g id in Ok ((fun m => entries (extents m)) <$> volumes g !! id).
