(* ===== verification/GemProofs.v ===== *)
(** What every operation of the extent map keeps: no map is both in and out of memory, none
    is empty, and whatever an operation changed it recorded. The sweeps of every map and the
    operations on whole maps keep what [GemProofs] states; with them, every operation of the
    extent map does. *)

From S2P Require Import Prelude GemData ExtMap Gem.
Definition ext_at (vs : gmap VolumeId VolumeExtentMap) (v : VolumeId) (k : Z) : option ExtentLocation :=
  m ← vs !! v; extents m !! k.
Definition par_at (vs : gmap VolumeId VolumeExtentMap) (v : VolumeId) (k : Z) : option ParityGroup :=
  m ← vs !! v; parity m !! k.

Definition recorded_ext (c : Changes) (v : VolumeId) (k : Z) : Prop :=
  v ∈ ch_whole c \/ k ∈ default ∅ (ch_extents c !! v).
Definition recorded_par (c : Changes) (v : VolumeId) (k : Z) : Prop :=
  v ∈ ch_whole c \/ k ∈ default ∅ (ch_parity c !! v).

Definition vmap_nonempty (m : VolumeExtentMap) : Prop := extents m <> ∅ \/ parity m <> ∅.

(** The invariant of the state. *)
Record gwf (g : GlobalExtentMap) : Prop := mkGwf {
  gwf_nonempty : map_Forall (fun _ m => vmap_nonempty m) (volumes g);
  gwf_cold : forall v c, cold g !! v = Some c -> volumes g !! v = None /\ v ∉ ch_volumes (changes g) }.

(** What is recorded of what an operation did. *)
Record step_ok (g g' : GlobalExtentMap) : Prop := mkStep {
  so_track : track g' = track g;
  so_cold : forall v c, cold g' !! v = Some c -> cold g !! v = Some c;
  so_whole : forall v, v ∈ ch_whole (changes g) -> v ∈ ch_whole (changes g');
  so_uncold : track g = true -> forall v c, cold g !! v = Some c -> cold g' !! v = None -> v ∈ ch_whole (changes g');
  so_mono_ext : forall v k, recorded_ext (changes g) v k -> recorded_ext (changes g') v k;
  so_mono_par : forall v k, recorded_par (changes g) v k -> recorded_par (changes g') v k;
  so_ext : track g = true -> forall v k, ext_at (volumes g') v k <> ext_at (volumes g) v k -> recorded_ext (changes g') v k;
  so_par : track g = true -> forall v k, par_at (volumes g') v k <> par_at (volumes g) v k -> recorded_par (changes g') v k }.

#[export] Instance step_ok_preorder : PreOrder step_ok.
Proof.
  split; [intros g; split; try done; congruence|].
  intros g g1 g2 [T1 C1 W1 U1 Me1 Mp1 E1 P1] [T2 C2 W2 U2 Me2 Mp2 E2 P2]. split; auto; [congruence|..].
  - intros Ht v c Hc Hc2. destruct (cold g1 !! v) as [c1|] eqn:Hc1; [eapply U2; [congruence|exact Hc1|done]|by eapply W2, U1].
  - intros Ht v k Hne. destruct (decide (ext_at (volumes g1) v k = ext_at (volumes g) v k)) as [E|E].
    + apply E2; congruence.
    + apply Me2. by apply E1.
  - intros Ht v k Hne. destruct (decide (par_at (volumes g1) v k = par_at (volumes g) v k)) as [E|E].
    + apply P2; congruence.
    + apply Mp2. by apply P1.
Qed.

Definition good_step (g g' : GlobalExtentMap) : Prop := gwf g' /\ step_ok g g'.

Lemma good_refl g : gwf g -> good_step g g.
Proof. intros H. split; [done|reflexivity]. Qed.
Lemma good_trans g g1 g2 : good_step g g1 -> (gwf g1 -> good_step g1 g2) -> good_step g g2.
Proof. intros [H1 S1] H. destruct (H H1) as [H2 S2]. split; [done|by transitivity g1]. Qed.

Lemma check_ok g id u : check g id = Ok u -> cold g !! id = None.
Proof. unfold check. by destruct (cold g !! id). Qed.
Lemma check_all_ok g u : check_all g = Ok u -> cold g = ∅.
Proof. unfold check_all. by destruct (decide (cold g = ∅)). Qed.

(** Peel the checks off an operation that succeeded. *)
Ltac peel H :=
  let u := fresh "u" in let Hc := fresh "Hc" in
  apply rbind_ok in H as (u & Hc & H); first [apply check_ok in Hc | apply check_all_ok in Hc | idtac].

(** ** Recording *)

Lemma recorded_add c v k w j :
  recorded_ext c w j -> recorded_ext (mkChanges (ch_whole c) (add_to v k (ch_extents c)) (ch_parity c)) w j.
Proof.
  unfold recorded_ext, add_to. cbn. intros [H|H]; [by left|]. right. destruct (decide (w = v)) as [->|].
  - rewrite lookup_insert_eq. cbn. set_solver.
  - by rewrite lookup_insert_ne.
Qed.
Lemma recorded_add_par c v k w j :
  recorded_par c w j -> recorded_par (mkChanges (ch_whole c) (ch_extents c) (add_to v k (ch_parity c))) w j.
Proof.
  unfold recorded_par, add_to. cbn. intros [H|H]; [by left|]. right. destruct (decide (w = v)) as [->|].
  - rewrite lookup_insert_eq. cbn. set_solver.
  - by rewrite lookup_insert_ne.
Qed.

(** The three ways of recording, as what they do to the recorded set. *)
Inductive mark := MExt (v : VolumeId) (k : Z) | MPar (v : VolumeId) (k : Z) | MWhole (v : VolumeId).
Definition put_mark (m : mark) (g : GlobalExtentMap) : GlobalExtentMap :=
  match m with MExt v k => touch v k g | MPar v k => touch_parity v k g | MWhole v => touch_whole v g end.
Definition mark_volume (m : mark) : VolumeId := match m with MExt v _ | MPar v _ | MWhole v => v end.
Definition marks_ext (m : mark) (v : VolumeId) (k : Z) : Prop :=
  match m with MExt w j => w = v /\ j = k | MPar _ _ => False | MWhole w => w = v end.
Definition marks_par (m : mark) (v : VolumeId) (k : Z) : Prop :=
  match m with MPar w j => w = v /\ j = k | MExt _ _ => False | MWhole w => w = v end.

Lemma mark_volumes m g : volumes (put_mark m g) = volumes g.
Proof. destruct m; cbn; unfold touch, touch_parity, touch_whole; by destruct (track g). Qed.
Lemma mark_cold m g : cold (put_mark m g) = cold g.
Proof. destruct m; cbn; unfold touch, touch_parity, touch_whole; by destruct (track g). Qed.
Lemma mark_track m g : track (put_mark m g) = track g.
Proof. destruct m; cbn; unfold touch, touch_parity, touch_whole; by destruct (track g) eqn:E. Qed.

Lemma mark_recorded m g :
  track g = true ->
  (forall v k, marks_ext m v k -> recorded_ext (changes (put_mark m g)) v k)
  /\ (forall v k, marks_par m v k -> recorded_par (changes (put_mark m g)) v k).
Proof.
  intros Ht. destruct m as [w j|w j|w]; cbn; unfold touch, touch_parity, touch_whole; rewrite Ht; cbn; split; intros v k.
  - intros [-> ->]. right. unfold add_to. cbn. rewrite lookup_insert_eq. cbn. set_solver.
  - done.
  - done.
  - intros [-> ->]. right. unfold add_to. cbn. rewrite lookup_insert_eq. cbn. set_solver.
  - intros ->. left. cbn. set_solver.
  - intros ->. left. cbn. set_solver.
Qed.

Lemma mark_mono m g v k :
  (recorded_ext (changes g) v k -> recorded_ext (changes (put_mark m g)) v k)
  /\ (recorded_par (changes g) v k -> recorded_par (changes (put_mark m g)) v k).
Proof.
  destruct m as [w j|w j|w]; cbn; unfold touch, touch_parity, touch_whole; destruct (track g); try done; split.
  - apply recorded_add.
  - done.
  - done.
  - apply recorded_add_par.
  - intros [H|H]; [left; cbn; set_solver|by right].
  - intros [H|H]; [left; cbn; set_solver|by right].
Qed.

Lemma mark_whole m g v : v ∈ ch_whole (changes g) -> v ∈ ch_whole (changes (put_mark m g)).
Proof. destruct m as [w j|w j|w]; cbn; unfold touch, touch_parity, touch_whole; destruct (track g); cbn; set_solver. Qed.

Lemma mark_names m g v : v ∈ ch_volumes (changes (put_mark m g)) -> v = mark_volume m \/ v ∈ ch_volumes (changes g).
Proof.
  destruct m as [w j|w j|w]; cbn; unfold touch, touch_parity, touch_whole; destruct (track g); try (by right);
    unfold ch_volumes, add_to; cbn; rewrite ?dom_insert_L; set_solver.
Qed.

Definition put_marks (ms : list mark) (g : GlobalExtentMap) : GlobalExtentMap := foldl (fun g m => put_mark m g) g ms.

Lemma marks_fields ms : forall g,
  volumes (put_marks ms g) = volumes g /\ cold (put_marks ms g) = cold g /\ track (put_marks ms g) = track g.
Proof.
  induction ms as [|m ms IH]; intros g; [done|]. cbn [put_marks foldl]. fold (put_marks ms (put_mark m g)).
  destruct (IH (put_mark m g)) as (-> & -> & ->). by rewrite mark_volumes, mark_cold, mark_track.
Qed.

Lemma marks_mono ms : forall g v k,
  (recorded_ext (changes g) v k -> recorded_ext (changes (put_marks ms g)) v k)
  /\ (recorded_par (changes g) v k -> recorded_par (changes (put_marks ms g)) v k).
Proof.
  induction ms as [|m ms IH]; intros g v k; [done|]. cbn [put_marks foldl]. fold (put_marks ms (put_mark m g)).
  destruct (IH (put_mark m g) v k) as [He Hp], (mark_mono m g v k) as [He' Hp']. split; auto.
Qed.

Lemma marks_whole ms : forall g v,
  v ∈ ch_whole (changes g) \/ (track g = true /\ MWhole v ∈ ms) -> v ∈ ch_whole (changes (put_marks ms g)).
Proof.
  induction ms as [|m ms IH]; intros g v H; [by destruct H as [H|[_ H%elem_of_nil]]|].
  cbn [put_marks foldl]. fold (put_marks ms (put_mark m g)). apply IH. destruct H as [H|[Ht H]]; [left; by apply mark_whole|].
  rewrite elem_of_cons in H. destruct H as [<-|H]; [left|right; by rewrite mark_track].
  cbn. unfold touch_whole. rewrite Ht. cbn. set_solver.
Qed.

Lemma marks_recorded ms : forall g v k,
  track g = true ->
  ((exists m, m ∈ ms /\ marks_ext m v k) -> recorded_ext (changes (put_marks ms g)) v k)
  /\ ((exists m, m ∈ ms /\ marks_par m v k) -> recorded_par (changes (put_marks ms g)) v k).
Proof.
  induction ms as [|m ms IH]; intros g v k Ht; [split; intros (m & []%elem_of_nil & _)|].
  cbn [put_marks foldl]. fold (put_marks ms (put_mark m g)).
  destruct (IH (put_mark m g) v k ltac:(by rewrite mark_track)) as [He Hp].
  destruct (marks_mono ms (put_mark m g) v k) as [He' Hp'], (mark_recorded m g Ht) as [Hme Hmp].
  split; intros (m' & Hin & Hm); rewrite elem_of_cons in Hin; destruct Hin as [->|Hin]; eauto.
Qed.

Lemma marks_names ms : forall g v,
  v ∈ ch_volumes (changes (put_marks ms g)) -> (exists m, m ∈ ms /\ v = mark_volume m) \/ v ∈ ch_volumes (changes g).
Proof.
  induction ms as [|m ms IH]; intros g v; [by right|]. cbn [put_marks foldl]. fold (put_marks ms (put_mark m g)).
  intros [(m' & Hin & ->)|H]%IH; [left; exists m'; split; [by right|done]|].
  apply mark_names in H as [->|]; [left; exists m; split; [by left|done]|by right].
Qed.

(** The one step every operation is made of: new maps for volumes that are in
    memory (or come into it, marked whole), and marks that name every difference. *)
Lemma marked_step_cold g vs c' ms :
  gwf g ->
  map_Forall (fun _ m => vmap_nonempty m) vs ->
  (forall v c, c' !! v = Some c -> cold g !! v = Some c /\ vs !! v = None) ->
  (forall m, m ∈ ms -> c' !! mark_volume m = None) ->
  (track g = true -> forall v c, cold g !! v = Some c -> c' !! v = None -> MWhole v ∈ ms) ->
  (track g = true -> forall v k, ext_at vs v k <> ext_at (volumes g) v k -> exists m, m ∈ ms /\ marks_ext m v k) ->
  (track g = true -> forall v k, par_at vs v k <> par_at (volumes g) v k -> exists m, m ∈ ms /\ marks_par m v k) ->
  good_step g (put_marks ms (with_volumes vs (with_cold c' g))).
Proof.
  intros [Hne Hcold] Hne' Hc Hm Hu He Hp. set (g1 := with_volumes vs (with_cold c' g)).
  destruct (marks_fields ms g1) as (Ev & Ec & Et).
  split; split; rewrite ?Ev, ?Ec; cbn [volumes cold with_volumes with_cold g1].
  - done.
  - intros v c Hv. destruct (Hc v c Hv) as [Hv' Hvs]. split; [done|]. intros [(m & Hin & ->)|Hin]%marks_names.
    + apply Hm in Hin. cbn in Hv. congruence.
    + by apply (Hcold _ _ Hv').
  - by rewrite Et.
  - intros v c Hv. by apply Hc.
  - intros v Hv. apply marks_whole. by left.
  - intros Ht v c Hv Hv'. apply marks_whole. right. split; [done|]. by eapply Hu.
  - intros v k H. by apply (marks_mono ms g1).
  - intros v k H. by apply (marks_mono ms g1).
  - intros Ht v k Hd. apply (marks_recorded ms g1); [done|]. by apply He.
  - intros Ht v k Hd. apply (marks_recorded ms g1); [done|]. by apply Hp.
Qed.

Lemma with_same_cold g vs : with_volumes vs g = with_volumes vs (with_cold (cold g) g).
Proof. done. Qed.

Lemma marked_step g vs ms :
  gwf g ->
  map_Forall (fun _ m => vmap_nonempty m) vs ->
  (forall v c, cold g !! v = Some c -> vs !! v = None) ->
  (forall m, m ∈ ms -> cold g !! mark_volume m = None) ->
  (track g = true -> forall v k, ext_at vs v k <> ext_at (volumes g) v k -> exists m, m ∈ ms /\ marks_ext m v k) ->
  (track g = true -> forall v k, par_at vs v k <> par_at (volumes g) v k -> exists m, m ∈ ms /\ marks_par m v k) ->
  good_step g (put_marks ms (with_volumes vs g)).
Proof.
  intros Hg Hne' Hc Hm He Hp. rewrite with_same_cold. apply marked_step_cold; [done|done| |done| |done|done].
  - intros v c Hv. split; [done|]. by eapply Hc.
  - intros _ v c Hv Hn. congruence.
Qed.

(** ** One volume changed *)

Definition set_volume (id : VolumeId) (om : option VolumeExtentMap) (g : GlobalExtentMap) : GlobalExtentMap :=
  with_volumes (partial_alter (fun _ => om) id (volumes g)) g.

Lemma set_volume_lookup (id : VolumeId) (om : option VolumeExtentMap) (vs : gmap VolumeId VolumeExtentMap) v :
  partial_alter (fun _ => om) id vs !! v = if decide (v = id) then om else vs !! v.
Proof. destruct (decide (v = id)) as [->|]; [apply lookup_partial_alter_eq|by apply lookup_partial_alter_ne]. Qed.

Lemma one_volume g id om ms :
  gwf g -> cold g !! id = None -> (forall m, om = Some m -> vmap_nonempty m) ->
  (forall m, m ∈ ms -> mark_volume m = id) ->
  (track g = true -> forall k, (m ← om; extents m !! k) <> ext_at (volumes g) id k -> exists m, m ∈ ms /\ marks_ext m id k) ->
  (track g = true -> forall k, (m ← om; parity m !! k) <> par_at (volumes g) id k -> exists m, m ∈ ms /\ marks_par m id k) ->
  good_step g (put_marks ms (set_volume id om g)).
Proof.
  intros Hg Hc Hn Hm He Hp. apply marked_step; [done|..].
  - intros v m. rewrite set_volume_lookup. destruct (decide (v = id)); [by apply Hn|by apply (gwf_nonempty _ Hg)].
  - intros v c Hv. rewrite set_volume_lookup, decide_False by congruence. by apply (gwf_cold _ Hg _ _ Hv).
  - intros m ->%Hm. done.
  - intros Ht v k. unfold ext_at at 1. rewrite set_volume_lookup. destruct (decide (v = id)) as [->|]; [by apply He|done].
  - intros Ht v k. unfold par_at at 1. rewrite set_volume_lookup. destruct (decide (v = id)) as [->|]; [by apply Hp|done].
Qed.

Lemma marked_one m : forall P : mark -> Prop, (exists m', m' ∈ [m] /\ P m') <-> P m.
Proof. intros P. split; [by intros (m' & ->%list_elem_of_singleton & H)|]. intros H. exists m. split; [by left|done]. Qed.

(** Only extent [k] of [id] changed. *)
Lemma one_extent g id om k :
  gwf g -> cold g !! id = None -> (forall m, om = Some m -> vmap_nonempty m) ->
  (forall j, j <> k -> (m ← om; extents m !! j) = ext_at (volumes g) id j) ->
  (forall j, (m ← om; parity m !! j) = par_at (volumes g) id j) ->
  good_step g (touch id k (set_volume id om g)).
Proof.
  intros Hg Hc Hn He Hp. apply (one_volume g id om [MExt id k]); [done|done|done|by intros m ->%list_elem_of_singleton| |].
  - intros _ j Hj. apply marked_one. split; [done|]. destruct (decide (k = j)); [done|]. by rewrite He in Hj.
  - intros _ j Hj. by rewrite Hp in Hj.
Qed.
Lemma one_stripe g id om k :
  gwf g -> cold g !! id = None -> (forall m, om = Some m -> vmap_nonempty m) ->
  (forall j, (m ← om; extents m !! j) = ext_at (volumes g) id j) ->
  (forall j, j <> k -> (m ← om; parity m !! j) = par_at (volumes g) id j) ->
  good_step g (touch_parity id k (set_volume id om g)).
Proof.
  intros Hg Hc Hn He Hp. apply (one_volume g id om [MPar id k]); [done|done|done|by intros m ->%list_elem_of_singleton| |].
  - intros _ j Hj. by rewrite He in Hj.
  - intros _ j Hj. apply marked_one. split; [done|]. destruct (decide (k = j)); [done|]. by rewrite Hp in Hj.
Qed.

Lemma insert_nonempty {A} (m : gmap Z A) k x : <[k := x]> m <> ∅.
Proof. apply insert_non_empty. Qed.

Lemma insert_good g id k l g' : gwf g -> insert id k l g = Ok g' -> good_step g g'.
Proof.
  intros Hg H. unfold insert in H. peel H. injection H as <-. unfold entry_or_default.
  apply (one_extent g id (Some (set_extents <[k := l]> (default vmap0 (volumes g !! id))))); [done|done|..].
  - intros m [= <-]. left. apply insert_nonempty.
  - intros j Hj. cbn. rewrite lookup_insert_ne by done. unfold ext_at. by destruct (volumes g !! id).
  - intros j. cbn. unfold par_at. by destruct (volumes g !! id).
Qed.
Lemma insert_parity_good g id k p g' : gwf g -> insert_parity id k p g = Ok g' -> good_step g g'.
Proof.
  intros Hg H. unfold insert_parity in H. peel H. injection H as <-. unfold entry_or_default.
  apply (one_stripe g id (Some (set_parity <[k := p]> (default vmap0 (volumes g !! id))))); [done|done|..].
  - intros m [= <-]. right. apply insert_nonempty.
  - intros j. cbn. unfold ext_at. by destruct (volumes g !! id).
  - intros j Hj. cbn. rewrite lookup_insert_ne by done. unfold par_at. by destruct (volumes g !! id).
Qed.

(** A map left empty is dropped, and reads the same either way. *)
Lemma put_or_drop_set id m g :
  exists om, put_or_drop id m g = set_volume id om g
    /\ (forall m', om = Some m' -> vmap_nonempty m')
    /\ (forall k, (m' ← om; extents m' !! k) = extents m !! k) /\ (forall k, (m' ← om; parity m' !! k) = parity m !! k).
Proof.
  unfold put_or_drop. destruct (decide (extents m = ∅)) as [He|He], (decide (parity m = ∅)) as [Hp|Hp].
  - exists None. rewrite !bool_decide_true by done. cbn. split_and!; [done|done|..]; intros k; by rewrite ?He, ?Hp, lookup_empty.
  - exists (Some m). rewrite (bool_decide_false (parity m = ∅)), andb_false_r by done. split_and!; [done| |done|done]. intros m' [= <-]. by right.
  - exists (Some m). rewrite (bool_decide_false (extents m = ∅)) by done. split_and!; [done| |done|done]. intros m' [= <-]. by left.
  - exists (Some m). rewrite (bool_decide_false (extents m = ∅)) by done. split_and!; [done| |done|done]. intros m' [= <-]. by left.
Qed.

Lemma remove_good g id k r g' : gwf g -> remove id k g = Ok (r, g') -> good_step g g'.
Proof.
  intros Hg H. unfold remove in H. peel H. destruct (volumes g !! id) as [m|] eqn:Em; [|injection H as _ <-; by apply good_refl].
  destruct (extents m !! k) as [l|] eqn:El; injection H as _ <-; [|by apply good_refl].
  destruct (put_or_drop_set id (set_extents (delete k) m) g) as (om & -> & Hn & He & Hp).
  apply one_extent; [done|done|done|..].
  - intros j Hj. rewrite He. cbn. rewrite lookup_delete_ne by done. unfold ext_at. by rewrite Em.
  - intros j. rewrite Hp. unfold par_at. by rewrite Em.
Qed.
Lemma remove_parity_good g id k r g' : gwf g -> remove_parity id k g = Ok (r, g') -> good_step g g'.
Proof.
  intros Hg H. unfold remove_parity in H. peel H. destruct (volumes g !! id) as [m|] eqn:Em; [|injection H as _ <-; by apply good_refl].
  destruct (parity m !! k) as [l|] eqn:El; injection H as _ <-; [|by apply good_refl].
  destruct (put_or_drop_set id (set_parity (delete k) m) g) as (om & -> & Hn & He & Hp).
  apply one_stripe; [done|done|done|..].
  - intros j. rewrite He. unfold ext_at. by rewrite Em.
  - intros j Hj. rewrite Hp. cbn. rewrite lookup_delete_ne by done. unfold par_at. by rewrite Em.
Qed.

(** [update_extent]: a change the answer does not report must be none. *)
Lemma update_extent_good {R} g id k (f : ExtentLocation -> ExtentLocation * R) hit :
  gwf g -> cold g !! id = None -> (forall l, hit (Some (snd (f l))) = false -> fst (f l) = l) ->
  good_step g (snd (update_extent id k f hit g)).
Proof.
  intros Hg Hc Hhit. unfold update_extent, em_update. destruct (volumes g !! id) as [m|] eqn:Em; [|by apply good_refl].
  assert (vmap_nonempty m) as Hne by by apply (gwf_nonempty _ Hg id).
  destruct (extents m !! k) as [l|] eqn:El.
  - assert (vmap_nonempty (mkVmap (<[k := fst (f l)]> (extents m)) (parity m))) as Hne' by (left; apply insert_nonempty).
    destruct (hit (Some (snd (f l)))) eqn:Eh; cbn [snd].
    + apply (one_extent g id (Some (mkVmap (<[k := fst (f l)]> (extents m)) (parity m)))); [done|done|by intros ? [= <-]|..].
      * intros j Hj. cbn. rewrite lookup_insert_ne by done. unfold ext_at. by rewrite Em.
      * intros j. cbn. unfold par_at. by rewrite Em.
    + rewrite (Hhit l Eh), (insert_id (extents m)) by done.
      apply (one_volume g id (Some (mkVmap (extents m) (parity m))) []); [done|done|by intros ? [= <-]|by intros ? ?%elem_of_nil|..];
        intros _ j Hj; destruct Hj; cbn; unfold ext_at, par_at; by rewrite Em.
  - destruct (hit None); cbn [snd].
    + apply (one_extent g id (Some (mkVmap (extents m) (parity m)))); [done|done|by intros ? [= <-]|..]; intros; cbn; unfold ext_at, par_at; by rewrite Em.
    + apply (one_volume g id (Some (mkVmap (extents m) (parity m))) []); [done|done|by intros ? [= <-]|by intros ? ?%elem_of_nil|..];
        intros _ j Hj; destruct Hj; cbn; unfold ext_at, par_at; by rewrite Em.
Qed.

Lemma update_group_good g id k f : gwf g -> cold g !! id = None -> good_step g (update_group id k f g).
Proof.
  intros Hg Hc. unfold update_group. destruct (volumes g !! id) as [m|] eqn:Em; [|by apply good_refl].
  destruct (parity m !! k) as [p|] eqn:Ep; [|by apply good_refl].
  apply (one_stripe g id (Some (set_parity <[k := f p]> m))); [done|done|..].
  - intros ? [= <-]. right. apply insert_nonempty.
  - intros j. cbn. unfold ext_at. by rewrite Em.
  - intros j Hj. cbn. rewrite lookup_insert_ne by done. unfold par_at. by rewrite Em.
Qed.

Lemma replace_leg_in_hit old new l : snd (replace_leg_in old new l) = false -> fst (replace_leg_in old new l) = l.
Proof. unfold replace_leg_in. case_decide; [|destruct (replace_first old new (mirrors l))]; cbn; congruence. Qed.
Lemma drop_leg_in_hit leg l : snd (drop_leg_in leg l) = false -> fst (drop_leg_in leg l) = l.
Proof. unfold drop_leg_in. case_decide; [destruct (mirrors l)|destruct (_ =? _)%nat]; cbn; congruence. Qed.
Lemma beside_hit e n l : snd (beside e n l) = false -> fst (beside e n l) = l.
Proof. unfold beside. destruct (names e l && negb (names n l)); cbn; congruence. Qed.

Lemma set_owner_ref_good g o t leg n : gwf g -> good_step g (set_owner_ref o t leg n g).
Proof.
  intros Hg. unfold set_owner_ref, is_cold. destruct (cold g !! o) as [c|] eqn:Hc; [by apply good_refl|].
  destruct (parse_parity_vext t) as [[? s]|].
  - destruct (m ← volumes g !! o; parity m !! s) as [p|]; [|by apply good_refl].
    destruct (bool_decide _); [by apply update_group_good|by apply good_refl].
  - apply update_extent_good; [done|done|]. intros l. destruct (names leg l); cbn; congruence.
Qed.

(** ** What a sweep records *)

(** Whatever every turn of the loop keeps, the loop keeps. *)
Lemma each_keeps {S} (F : Z -> ExtentLocation -> S -> ExtentLocation * bool * S) (P : S -> Prop) m s :
  (forall v l s, P s -> P (snd (F v l s))) -> P s -> P (snd (em_each F m s)).
Proof.
  intros Hmono. unfold em_each. generalize (sorted_keys m) as ks. intros ks. revert m s.
  induction ks as [|k ks IH]; intros m s Hs; cbn [foldl]; [done|].
  unfold each_step at 2. cbn [fst snd]. destruct (m !! k) as [l|]; [|by apply IH].
  specialize (Hmono k l s Hs). destruct (F k l s) as [[l' changed] s']. by apply IH.
Qed.

(** [rec s k]: what the loop carries, [s], has a note of extent [k]. *)
Lemma each_records {S} (F : Z -> ExtentLocation -> S -> ExtentLocation * bool * S) (rec : S -> Z -> Prop) m s :
  (forall v l s k, rec s k -> rec (snd (F v l s)) k) ->
  (forall v l s, snd (fst (F v l s)) = true -> rec (snd (F v l s)) v) ->
  let r := em_each F m s in
  (forall k, fst r !! k <> m !! k -> rec (snd r) k) /\ (forall k, rec s k -> rec (snd r) k) /\ (m <> ∅ -> fst r <> ∅).
Proof.
  intros Hmono Hrec. unfold em_each. generalize (sorted_keys m) as ks. intros ks. revert m s.
  induction ks as [|k ks IH]; intros m s; cbn [foldl]; [by split_and!|].
  unfold each_step at 2 4 6 8. cbn [fst snd]. destruct (m !! k) as [l|] eqn:El; [|apply IH].
  specialize (Hmono k l s). specialize (Hrec k l s). destruct (F k l s) as [[l' changed] s']. cbn [fst snd] in *.
  destruct changed; cycle 1.
  { destruct (IH m s') as (H1 & H2 & H3). split; [done|]. split; [|done]. intros j Hj. by apply H2, Hmono. }
  destruct (IH (<[k := l']> m) s') as (H1 & H2 & H3).
  split; [|split; [intros j Hj; by apply H2, Hmono|intros _; apply H3, insert_nonempty]].
  intros j Hj. destruct (decide (j = k)) as [->|Hne]; [by apply H2, Hrec|].
  apply H1. by rewrite lookup_insert_ne by done.
Qed.

Section Sweep.
Context {S : Type} (h : VolumeId -> VolumeExtentMap -> S -> VolumeExtentMap * S) (rece recp : S -> VolumeId -> Z -> Prop).
Context (He : forall v m s k, extents (fst (h v m s)) !! k <> extents m !! k -> rece (snd (h v m s)) v k).
Context (Hp : forall v m s k, parity (fst (h v m s)) !! k <> parity m !! k -> recp (snd (h v m s)) v k).
Context (Hme : forall v m s w k, rece s w k -> rece (snd (h v m s)) w k).
Context (Hmp : forall v m s w k, recp s w k -> recp (snd (h v m s)) w k).
Context (Hn : forall v m s, vmap_nonempty m -> vmap_nonempty (fst (h v m s))).

Definition sweep_step (vss : gmap VolumeId VolumeExtentMap * S) (vm : VolumeId * VolumeExtentMap) : gmap VolumeId VolumeExtentMap * S :=
  let '(m, s) := h (fst vm) (snd vm) (snd vss) in (<[fst vm := m]> (fst vss), s).

Lemma sweep_steps L : forall vs s,
  NoDup (map fst L) -> (forall v m, (v, m) ∈ L -> vs !! v = Some m) ->
  let r := foldl sweep_step (vs, s) L in
  (forall v k, ext_at (fst r) v k <> ext_at vs v k -> rece (snd r) v k)
  /\ (forall v k, par_at (fst r) v k <> par_at vs v k -> recp (snd r) v k)
  /\ (map_Forall (fun _ m => vmap_nonempty m) vs -> map_Forall (fun _ m => vmap_nonempty m) (fst r))
  /\ (forall v k, rece s v k -> rece (snd r) v k) /\ (forall v k, recp s v k -> recp (snd r) v k).
Proof using He Hp Hme Hmp Hn.
  induction L as [|[v m] L IH]; intros vs s Hnd Hin; cbn [foldl]; [by split_and!|].
  cbn [map fst] in Hnd. apply NoDup_cons in Hnd as [Hv Hnd]. pose proof (Hin v m ltac:(by left)) as Hvm.
  unfold sweep_step at 2 4 6 8 10 12 14. cbn [fst snd].
  specialize (He v m s). specialize (Hp v m s). specialize (Hme v m s). specialize (Hmp v m s). specialize (Hn v m s).
  destruct (h v m s) as [m' s']. cbn [fst snd] in *.
  destruct (IH (<[v := m']> vs) s') as (H1 & H2 & H3 & H4 & H5); [done| |].
  { intros w x Hw. rewrite lookup_insert_ne; [apply Hin; by right|]. intros ->. apply Hv, list_elem_of_fmap. by exists (w, x). }
  split; [|split; [|split; [|split; [intros w j Hw; by apply H4, Hme|intros w j Hw; by apply H5, Hmp]]]].
  - intros w k Hw. destruct (decide (ext_at (<[v := m']> vs) w k = ext_at vs w k)) as [E|E]; [apply H1; by rewrite E|].
    apply H4. unfold ext_at in E. destruct (decide (w = v)) as [->|]; [|by rewrite lookup_insert_ne in E by done].
    apply He. rewrite lookup_insert_eq, Hvm in E. exact E.
  - intros w k Hw. destruct (decide (par_at (<[v := m']> vs) w k = par_at vs w k)) as [E|E]; [apply H2; by rewrite E|].
    apply H5. unfold par_at in E. destruct (decide (w = v)) as [->|]; [|by rewrite lookup_insert_ne in E by done].
    apply Hp. rewrite lookup_insert_eq, Hvm in E. exact E.
  - intros Hne. apply H3. intros w x. destruct (decide (w = v)) as [->|].
    + rewrite lookup_insert_eq. intros [= <-]. apply Hn. by apply (Hne v).
    + rewrite lookup_insert_ne by done. apply Hne.
Qed.

Lemma sweep_records vs s :
  let r := sweep h vs s in
  (forall v k, ext_at (fst r) v k <> ext_at vs v k -> rece (snd r) v k)
  /\ (forall v k, par_at (fst r) v k <> par_at vs v k -> recp (snd r) v k)
  /\ (map_Forall (fun _ m => vmap_nonempty m) vs -> map_Forall (fun _ m => vmap_nonempty m) (fst r)).
Proof using He Hp Hme Hmp Hn.
  destruct (sweep_steps (map_to_list vs) vs s) as (H1 & H2 & H3 & _);
    [apply NoDup_fst_map_to_list|by intros v m ?%elem_of_map_to_list|done].
Qed.
End Sweep.

(** ** Recording the lists a sweep gathered *)

Lemma touch_all_marks ts g : touch_all ts g = put_marks (map (fun t => MExt (fst t) (snd t)) ts) g.
Proof. revert g. induction ts as [|t ts IH]; intros g; [done|]. apply IH. Qed.
Lemma touch_all_parity_marks ts g : touch_all_parity ts g = put_marks (map (fun t => MPar (fst t) (snd t)) ts) g.
Proof. revert g. induction ts as [|t ts IH]; intros g; [done|]. apply IH. Qed.
Lemma put_marks_app ms ms' g : put_marks (ms ++ ms') g = put_marks ms' (put_marks ms g).
Proof. apply foldl_app. Qed.

(** With every map in memory, any marks will do. *)
Lemma swept g vs es ps :
  gwf g -> cold g = ∅ -> map_Forall (fun _ m => vmap_nonempty m) vs ->
  (track g = true -> forall v k, ext_at vs v k <> ext_at (volumes g) v k -> (v, k) ∈ es) ->
  (track g = true -> forall v k, par_at vs v k <> par_at (volumes g) v k -> (v, k) ∈ ps) ->
  good_step g (touch_all_parity ps (touch_all es (with_volumes vs g))).
Proof.
  intros Hg Hc Hn He Hp. rewrite touch_all_marks, touch_all_parity_marks, <- put_marks_app. apply marked_step; [done|done|..].
  - intros v c. by rewrite Hc, lookup_empty.
  - intros m _. by rewrite Hc, lookup_empty.
  - intros Ht v k Hd. exists (MExt v k). split; [|done]. apply elem_of_app. left. apply list_elem_of_fmap. exists (v, k). auto.
  - intros Ht v k Hd. exists (MPar v k). split; [|done]. apply elem_of_app. right. apply list_elem_of_fmap. exists (v, k). auto.
Qed.

Lemma tally_keeps f id w k l (s : Z * list (VolumeId * Z)) : w ∈ snd s -> w ∈ snd (snd (tally f id k l s)).
Proof. unfold tally. destruct (f l) as [l' [|]]; cbn; [intros; apply elem_of_app; by left|done]. Qed.
Lemma tally_records f id k l s : snd (fst (tally f id k l s)) = true -> (id, k) ∈ snd (snd (tally f id k l s)).
Proof. unfold tally. destruct (f l) as [l' [|]]; cbn; [intros _; apply elem_of_app; right; by left|done]. Qed.

Lemma sweep_tally_good f g n g' : gwf g -> sweep_tally f g = Ok (n, g') -> good_step g g'.
Proof.
  intros Hg H. unfold sweep_tally in H. peel H. unfold sweep_extents in H.
  set (h := fun id m s => let '(e, s) := em_each (tally f id) (extents m) s in (mkVmap e (parity m), s)) in H.
  assert (forall v m s, let r := em_each (tally f v) (extents m) s in
    (forall k, fst r !! k <> extents m !! k -> (v, k) ∈ snd (snd r)) /\ (forall w, w ∈ snd s -> w ∈ snd (snd r)) /\ (extents m <> ∅ -> fst r <> ∅)) as Hh.
  { intros v m s. destruct (each_records (tally f v) (fun s k => (v, k) ∈ snd s) (extents m) s) as (H1 & _ & H3);
      [intros; by apply tally_keeps|intros; by apply tally_records|].
    split; [done|]. split; [|done]. intros w. apply (each_keeps (tally f v) (fun s => w ∈ snd s)). intros k l s0. apply tally_keeps. }
  destruct (sweep_records h (fun s v k => (v, k) ∈ snd s) (fun _ _ _ => False)) with (vs := volumes g) (s := (0, [] : list (VolumeId * Z)))
    as (H1 & H2 & H3).
  - intros v m s k. destruct (Hh v m s) as (Hx & _). unfold h. destruct (em_each _ _ s). apply Hx.
  - intros v m s k []. unfold h. by destruct (em_each _ _ s).
  - intros v m s w k. destruct (Hh v m s) as (_ & Hx & _). unfold h. destruct (em_each _ _ s). apply Hx.
  - done.
  - intros v m s [Hne|Hne]; destruct (Hh v m s) as (_ & _ & Hx); unfold h; destruct (em_each _ _ s); [left; by apply Hx|by right].
  - destruct (sweep h (volumes g) (0, [])) as [vs s]. injection H as _ <-.
    apply (swept g vs (snd s) []); [done|done|by apply H3, Hg|by intros _ v k ?%H1|by intros _ v k []%H2].
Qed.

Lemma rewrite_loc_keeps moves tr id k l s w :
  (w ∈ rw_extents s -> w ∈ rw_extents (snd (rewrite_loc moves tr id k l s)))
  /\ rw_parity (snd (rewrite_loc moves tr id k l s)) = rw_parity s.
Proof.
  unfold rewrite_loc. destruct (moves !! primary l); cbn [snd rw_extents rw_parity];
    (split; [|done]); intros Hw; (destruct (tr && _); [apply elem_of_app; by left|done]).
Qed.
Lemma rewrite_loc_records moves id k l s :
  snd (fst (rewrite_loc moves true id k l s)) = true -> (id, k) ∈ rw_extents (snd (rewrite_loc moves true id k l s)).
Proof.
  unfold rewrite_loc. destruct (moves !! primary l); cbn [fst snd rw_extents]; intros ->; cbn; apply elem_of_app; right; by left.
Qed.

Lemma rewrite_parity_keeps moves tr id L : forall s,
  rw_extents (foldl (rewrite_parity moves tr id) s L) = rw_extents s
  /\ (forall w, w ∈ rw_parity s -> w ∈ rw_parity (foldl (rewrite_parity moves tr id) s L)).
Proof.
  induction L as [|sp L IH]; intros s; cbn [foldl]; [done|]. destruct (IH (rewrite_parity moves tr id s sp)) as [-> H].
  split; [done|]. intros w Hw. apply H. unfold rewrite_parity. cbn. destruct tr; [apply elem_of_app; by left|done].
Qed.

Lemma rewrite_group_same moves p : moved_legs moves p = [] -> rewrite_group moves p = p.
Proof.
  unfold rewrite_group. intros Hf. rewrite Hf. cbn [length Nat.iter].
  assert (map (moved moves) (pg_legs p) = pg_legs p) as ->; [|by destruct p].
  unfold moved_legs in Hf. induction (pg_legs p) as [|l r IH]; [done|]. rewrite filter_cons in Hf. cbn [map].
  destruct (decide (is_moved moves l = true)) as [|Hn]; [done|]. rewrite IH by done. f_equal.
  unfold moved. destruct (moves !! l) eqn:E; [|done]. exfalso. apply Hn. unfold is_moved. rewrite E. by apply bool_decide_eq_true_2.
Qed.

Lemma rewrite_parity_records moves id k p L : forall s,
  (k, p) ∈ L -> rewrite_group moves p <> p -> (id, k) ∈ rw_parity (foldl (rewrite_parity moves true id) s L).
Proof.
  induction L as [|sp L IH]; intros s Hin Hne; [by apply elem_of_nil in Hin|]. cbn [foldl].
  rewrite elem_of_cons in Hin. destruct Hin as [<-|Hin]; [|by apply IH].
  apply rewrite_parity_keeps. unfold rewrite_parity. cbn [rw_parity fst snd]. apply elem_of_app. right.
  destruct (moved_legs moves p) as [|l r] eqn:E; [by destruct Hne; apply rewrite_group_same|]. cbn [map]. by left.
Qed.

Lemma rewrite_legs_good moves g n g' : gwf g -> rewrite_legs moves g = Ok (n, g') -> good_step g g'.
Proof.
  intros Hg H. unfold rewrite_legs in H. peel H. destruct (decide (moves = ∅)); [injection H as _ <-; by apply good_refl|].
  set (tr := track g) in *.
  destruct (sweep_records (rewrite_volume moves tr) (fun s v k => tr = true -> (v, k) ∈ rw_extents s)
              (fun s v k => tr = true -> (v, k) ∈ rw_parity s)) with (vs := volumes g) (s := mkRewritten 0 [] []) as (H1 & H2 & H3).
  - intros v m s k. unfold rewrite_volume.
    destruct (each_records (rewrite_loc moves tr v) (fun s k => tr = true -> (v, k) ∈ rw_extents s) (extents m) s) as (Hx & _).
    + intros w l s0 j Hj Ht. apply rewrite_loc_keeps. auto.
    + intros w l s0 Hch ->. by apply rewrite_loc_records.
    + destruct (em_each _ _ s) as [e s']. cbn [fst snd extents] in *. intros Hk Ht.
      destruct (rewrite_parity_keeps moves tr v (entries (parity m)) s') as [-> _]. by apply Hx.
  - intros v m s k. unfold rewrite_volume. destruct (em_each _ _ s) as [e s']. cbn [fst snd parity]. rewrite lookup_fmap.
    intros Hk ->. destruct (parity m !! k) as [p|] eqn:Ep; [|done]. apply (rewrite_parity_records moves v k p); [by apply elem_of_entries|].
    intros E. apply Hk. cbn. by rewrite E.
  - intros v m s w k Hk Ht. unfold rewrite_volume. specialize (Hk Ht).
    pose proof (each_keeps (rewrite_loc moves tr v) (fun s => (w, k) ∈ rw_extents s) (extents m) s) as Hx.
    destruct (em_each _ _ s) as [e s']. cbn [fst snd] in *.
    destruct (rewrite_parity_keeps moves tr v (entries (parity m)) s') as [-> _]. apply Hx; [|done]. intros. by apply rewrite_loc_keeps.
  - intros v m s w k Hk Ht. unfold rewrite_volume. specialize (Hk Ht).
    pose proof (each_keeps (rewrite_loc moves tr v) (fun s => (w, k) ∈ rw_parity s) (extents m) s) as Hx.
    destruct (em_each _ _ s) as [e s']. cbn [fst snd] in *. apply rewrite_parity_keeps. apply Hx; [|done].
    intros j l s0 Hs. by rewrite (proj2 (rewrite_loc_keeps moves tr v j l s0 (w, k))).
  - intros v m s Hn. unfold rewrite_volume.
    destruct (each_records (rewrite_loc moves tr v) (fun _ _ => True) (extents m) s) as (_ & _ & Hx); [done|done|].
    destruct (em_each _ _ s) as [e s']. cbn [fst snd] in *. destruct Hn as [Hn|Hn]; [left; by apply Hx|right]. cbn.
    by rewrite fmap_empty_iff.
  - destruct (sweep _ _ _) as [vs s]. injection H as _ <-. cbn [fst snd] in *.
    apply swept; [done|done|by apply H3, Hg| |]; intros Ht v k Hd; [by apply H1|by apply H2].
Qed.

Lemma fold_err {E A B} (f : A -> B -> result E A) (L : list B) e :
  foldl (fun acc b => rbind acc (fun a => f a b)) (Err e) L = Err e.
Proof. by induction L. Qed.

(** A loop of fallible steps, each good, is good. *)
Lemma fold_good {E X B} (f : X * GlobalExtentMap -> B -> result E (X * GlobalExtentMap)) L : forall g x x' g',
  (forall g x b x' g', gwf g -> f (x, g) b = Ok (x', g') -> good_step g g') ->
  gwf g -> foldl (fun acc b => rbind acc (fun a => f a b)) (Ok (x, g)) L = Ok (x', g') -> good_step g g'.
Proof.
  induction L as [|b L IH]; intros g x x' g' Hf Hg; cbn [foldl]; [intros [= _ <-]; by apply good_refl|].
  cbn [rbind]. destruct (f (x, g) b) as [[x1 g1]|e] eqn:E1; [|by rewrite fold_err].
  intros H. apply Hf in E1; [|done]. apply (good_trans g g1); [done|]. intros Hg1. by apply (IH g1 x1 x' g').
Qed.

Lemma unmap_good ls g d g' : gwf g -> unmap_legs_everywhere ls g = Ok (d, g') -> good_step g g'.
Proof.
  intros Hg H. unfold unmap_legs_everywhere in H. peel H. destruct (decide (ls = ∅)); [injection H as _ <-; by apply good_refl|].
  destruct (foldl (unmap_scan ls) _ _) as [keep hits].
  refine (fold_good (fun dg hit => let '(v, e, leg) := (hit : VolumeId * Z * Leg) in
      if decide (leg ∈ keep) then Ok dg else let? rg := remove v e (snd dg) in Ok ({[leg]} ∪ fst dg, snd rg)) hits g ∅ d g' _ Hg H).
  clear. intros g x [[v e] leg] x' g' Hg H. case_decide; [injection H as _ <-; by apply good_refl|].
  cbn [snd fst] in H. apply rbind_ok in H as ([r g1] & Hr & H). injection H as _ <-. by eapply remove_good.
Qed.

Lemma absorb_good others ids g :
  gwf g -> map_Forall (fun _ m => vmap_nonempty m) others -> good_step g (absorb others ids g).
Proof.
  unfold absorb. revert others g. induction ids as [|id ids IH]; intros others g Hg Ho; cbn [foldl fst snd]; [by apply good_refl|].
  destruct (others !! id) as [m|] eqn:Em; [|by apply IH].
  set (g2 := touch_whole id _).
  assert (good_step g g2) as H2.
  { assert (forall v, v <> id -> <[id := m]> (volumes g) !! v = volumes g !! v) as Hother by (intros; by apply lookup_insert_ne).
    apply (marked_step_cold g (<[id := m]> (volumes g)) (delete id (cold g)) [MWhole id]); [done|..].
    - intros v x. destruct (decide (v = id)) as [->|]; [rewrite lookup_insert_eq; intros [= <-]; by apply (Ho id)|].
      rewrite Hother by done. apply (gwf_nonempty _ Hg v).
    - intros v c [Hne Hv]%lookup_delete_Some. split; [done|]. rewrite Hother by done. by apply (gwf_cold _ Hg v c).
    - intros x ->%list_elem_of_singleton. apply lookup_delete_eq.
    - intros _ v c Hv Hv'. destruct (decide (v = id)) as [->|]; [by left|]. rewrite lookup_delete_ne in Hv' by done. congruence.
    - intros _ v k Hd. exists (MWhole id). split; [by left|]. destruct (decide (v = id)) as [->|]; [done|]. destruct Hd. unfold ext_at. by rewrite Hother.
    - intros _ v k Hd. exists (MWhole id). split; [by left|]. destruct (decide (v = id)) as [->|]; [done|]. destruct Hd. unfold par_at. by rewrite Hother. }
  apply (good_trans g g2); [done|]. intros Hg2. apply IH; [done|]. intros v x [_ Hv]%lookup_delete_Some. by apply (Ho v).
Qed.

(** Whole-map operations: everything they may change is named whole. *)
Lemma whole_good g vs ids :
  gwf g -> map_Forall (fun _ m => vmap_nonempty m) vs -> (forall v, v ∈ ids -> cold g !! v = None) ->
  (forall v, v ∉ ids -> vs !! v = volumes g !! v) ->
  good_step g (put_marks (map MWhole ids) (with_volumes vs g)).
Proof.
  intros Hg Hn Hc Hsame. apply marked_step; [done|done|..].
  - intros v c Hv. rewrite Hsame; [by apply (gwf_cold _ Hg v c)|]. intros Hin%Hc. congruence.
  - intros m (v & -> & Hv)%list_elem_of_fmap. by apply Hc.
  - intros _ v k Hd. destruct (decide (v ∈ ids)) as [Hv|Hv].
    + exists (MWhole v). split; [apply list_elem_of_fmap; by exists v|done].
    + destruct Hd. unfold ext_at. by rewrite Hsame.
  - intros _ v k Hd. destruct (decide (v ∈ ids)) as [Hv|Hv].
    + exists (MWhole v). split; [apply list_elem_of_fmap; by exists v|done].
    + destruct Hd. unfold par_at. by rewrite Hsame.
Qed.

Lemma remove_volume_good id g r g' : gwf g -> remove_volume id g = Ok (r, g') -> good_step g g'.
Proof.
  intros Hg H. unfold remove_volume in H. peel H. injection H as _ <-.
  assert (forall vs, with_volumes vs (touch_whole id g) = put_marks (map MWhole [id]) (with_volumes vs g)) as ->.
  { intros vs. change (put_marks _ _) with (touch_whole id (with_volumes vs g)). unfold touch_whole. cbn [track with_volumes]. by destruct (track g). }
  assert (volumes (touch_whole id g) = volumes g) as -> by (apply (mark_volumes (MWhole id))).
  apply whole_good; [done|..].
  - intros v m [_ Hv]%lookup_delete_Some. by apply (gwf_nonempty _ Hg v).
  - intros v Hv. rewrite list_elem_of_singleton in Hv. by rewrite Hv.
  - intros v Hv. rewrite lookup_delete_ne; [done|]. intros <-. apply Hv. by left.
Qed.

Lemma rename_good from to_ g r g' : gwf g -> rename_volume from to_ g = Ok (r, g') -> good_step g g'.
Proof.
  intros Hg H. unfold rename_volume in H. apply rbind_ok in H as ([] & Hc1%check_ok & H). apply rbind_ok in H as ([] & Hc2%check_ok & H).
  destruct (volumes g !! from) as [m|] eqn:Em; injection H as _ <-; [|by apply good_refl].
  apply (whole_good g _ [from; to_]); [done|..].
  - intros v x. destruct (decide (v = to_)) as [->|Hne].
    + rewrite lookup_insert_eq. intros [= <-]. by apply (gwf_nonempty _ Hg from).
    + rewrite lookup_insert_ne by done. intros [_ [_ Hv]%lookup_delete_Some]%lookup_delete_Some. by apply (gwf_nonempty _ Hg v).
  - intros v. rewrite elem_of_cons, list_elem_of_singleton. by intros [->| ->].
  - intros v Hv. rewrite elem_of_cons, list_elem_of_singleton in Hv.
    rewrite lookup_insert_ne, !lookup_delete_ne by (intros ->; tauto). done.
Qed.

Lemma share_map_nonempty m : vmap_nonempty m -> vmap_nonempty (share_map m).
Proof. intros [H|H]; [left|right]; cbn; unfold em_share; by rewrite fmap_empty_iff. Qed.

Lemma clone_good s d g r g' : gwf g -> clone_volume_map s d g = Ok (r, g') -> good_step g g'.
Proof.
  intros Hg H. unfold clone_volume_map in H. apply rbind_ok in H as ([] & Hc1%check_ok & H). apply rbind_ok in H as ([] & Hc2%check_ok & H).
  destruct (volumes g !! s) as [m|] eqn:Em; injection H as _ <-; [|by apply good_refl].
  assert (vmap_nonempty m) as Hm by by apply (gwf_nonempty _ Hg s).
  apply (whole_good g _ [s; d]); [done|..].
  - intros v x. destruct (decide (v = d)) as [->|Hne].
    + rewrite lookup_insert_eq. intros [= <-]. by apply share_map_nonempty.
    + rewrite lookup_insert_ne by done. cbn [share_source volumes with_volumes]. destruct (decide (v = s)) as [->|Hne'].
      * rewrite lookup_alter_eq, Em. intros [= <-]. by apply share_map_nonempty.
      * rewrite lookup_alter_ne by done. apply (gwf_nonempty _ Hg v).
  - intros v. rewrite elem_of_cons, list_elem_of_singleton. by intros [->| ->].
  - intros v Hv. rewrite elem_of_cons, list_elem_of_singleton in Hv. cbn [share_source volumes with_volumes].
    rewrite lookup_insert_ne, lookup_alter_ne by (intros ->; tauto). done.
Qed.

Lemma foldl_insert_nonempty {A B} (key : A -> Z) (val : A -> B) (L : list A) : forall m : gmap Z B,
  L <> [] \/ m <> ∅ -> foldl (fun m x => <[key x := val x]> m) m L <> ∅.
Proof.
  induction L as [|x L IH]; intros m H; cbn [foldl]; [by destruct H|]. apply IH. right. apply insert_nonempty.
Qed.
Lemma entries_nonempty {A} (m : gmap Z A) : m <> ∅ -> entries m <> [].
Proof.
  intros Hm E. apply Hm, map_eq. intros k. rewrite lookup_empty. destruct (m !! k) as [x|] eqn:Ex; [|done].
  apply elem_of_entries in Ex. rewrite E in Ex. by apply elem_of_nil in Ex.
Qed.
Lemma union_nonempty (a b : extmap) : a <> ∅ -> a ∪ b <> ∅.
Proof.
  intros Ha E. apply Ha, map_eq. intros k. rewrite lookup_empty. destruct (a !! k) as [x|] eqn:Ex; [|done].
  assert ((a ∪ b) !! k = Some x) as H by (by apply lookup_union_Some_l). by rewrite E, lookup_empty in H.
Qed.
(** [dest] given a map, then [source]'s own counts raised: both whole. *)
Lemma gathered g s d dm f :
  gwf g -> cold g !! s = None -> cold g !! d = None -> vmap_nonempty dm -> (forall m, vmap_nonempty m -> vmap_nonempty (f m)) ->
  good_step g (touch_whole d (touch_whole s (with_volumes (alter f s (<[d := dm]> (volumes g))) g))).
Proof.
  intros Hg Hs Hd Hn Hf. apply (whole_good g _ [s; d]); [done|..].
  - intros v x. destruct (decide (v = s)) as [->|Hne].
    + rewrite lookup_alter_eq. destruct (<[d := dm]> (volumes g) !! s) as [y|] eqn:Ey; [|done]. intros [= <-]. apply Hf.
      destruct (decide (s = d)) as [->|Hsd]; [rewrite lookup_insert_eq in Ey; by injection Ey as <-|].
      rewrite lookup_insert_ne in Ey by done. by apply (gwf_nonempty _ Hg s).
    + rewrite lookup_alter_ne by done. destruct (decide (v = d)) as [->|Hvd].
      * rewrite lookup_insert_eq. by intros [= <-].
      * rewrite lookup_insert_ne by done. apply (gwf_nonempty _ Hg v).
  - intros v. rewrite elem_of_cons, list_elem_of_singleton. by intros [->| ->].
  - intros v Hv. rewrite elem_of_cons, list_elem_of_singleton in Hv.
    rewrite lookup_alter_ne, lookup_insert_ne by (intros ->; tauto). done.
Qed.

Lemma gather_into_good s d b g ls g' : gwf g -> gather_into s d b g = Ok (ls, g') -> good_step g g'.
Proof.
  intros Hg H. unfold gather_into in H. apply rbind_ok in H as ([] & Hc1%check_ok & H). apply rbind_ok in H as ([] & Hc2%check_ok & H).
  destruct (volumes g !! s) as [m|] eqn:Em; [|injection H as _ <-; by apply good_refl].
  assert (vmap_nonempty m) as Hm by by apply (gwf_nonempty _ Hg s).
  injection H as _ <-. unfold entry_or_default. set (dm := mkVmap _ _).
  apply (gathered g s d dm share_map); [done|done|done| |apply share_map_nonempty]. unfold dm.
  destruct Hm as [Hm|Hm]; [left|right]; cbn.
  - apply union_nonempty. unfold em_share. rewrite fmap_empty_iff. by apply em_shift_nonempty.
  - apply (foldl_insert_nonempty (fun sp => wrap 64 (b + fst sp)) (fun sp => share_group (snd sp))). left. by apply entries_nonempty.
Qed.

Lemma placed_nonempty place m e : placed place m = Some e -> m <> ∅ -> e <> ∅.
Proof.
  intros H Hm. unfold placed in H.
  assert (forall L o, foldl (fun acc vl => e ← acc; at_ ← place !! fst vl; Some (<[at_ := snd vl]> e)) o L = Some e ->
            (L <> [] \/ (forall x, o = Some x -> x <> ∅)) -> e <> ∅) as Hgen.
  { clear H Hm. induction L as [|vl L IH]; intros o; cbn [foldl]; [intros -> [|H]; [done|by apply H]|].
    intros H _. apply IH in H; [done|]. right. intros x. destruct o as [y|]; [|done]. cbn. destruct (place !! fst vl); [|done].
    intros [= <-]. apply insert_nonempty. }
  apply Hgen in H; [done|]. left. by apply entries_nonempty.
Qed.

Lemma in_gather_ok {A} (r : result Panic A) a : in_gather r = Ok a -> r = Ok a.
Proof. destruct r as [x|[]]; cbn; congruence. Qed.

Lemma gather_remapped_good s d p g ls g' : gwf g -> gather_remapped s d p g = Ok (ls, g') -> good_step g g'.
Proof.
  intros Hg H. unfold gather_remapped in H.
  apply rbind_ok in H as ([] & Hc1%in_gather_ok%check_ok & H). apply rbind_ok in H as ([] & Hc2%in_gather_ok%check_ok & H).
  destruct (volumes g !! s) as [m|] eqn:Em; [|injection H as _ <-; by apply good_refl].
  case_bool_decide as Hp; [injection H as _ <-; by apply good_refl|].
  destruct (placed p (extents m)) as [sh|] eqn:Epl; [|done]. injection H as _ <-.
  assert (extents m <> ∅) as Hm.
  { assert (vmap_nonempty m) as [?|?] by (by apply (gwf_nonempty _ Hg s)); [done|by destruct Hp]. }
  apply (gathered g s d (set_extents (fun e => em_share 1 sh ∪ e) (default vmap0 (volumes g !! d)))); [done|done|done| |].
  - left. cbn. apply union_nonempty. unfold em_share. rewrite fmap_empty_iff. by eapply placed_nonempty.
  - intros x [Hx|Hx]; [left|right]; cbn; [unfold em_share; by rewrite fmap_empty_iff|done].
Qed.
