(* ===== verification/GemLaws.v ===== *)
(** What the rest of the engine relies on from the extent map: nothing it changes
    escapes the record of changes, moving a slot moves every reference to it, and
    a clone shares everything. *)

From S2P Require Import Prelude GemData ExtMap Gem GemProofs.

(** ** Every operation *)

(** One completed operation; [absorb] takes maps another extent map held. *)
Inductive gstep : GlobalExtentMap -> GlobalExtentMap -> Prop :=
| GInsert id k l g g' : insert id k l g = Ok g' -> gstep g g'
| GInsertParity id k p g g' : insert_parity id k p g = Ok g' -> gstep g g'
| GRemove id k g r g' : remove id k g = Ok (r, g') -> gstep g g'
| GRemoveParity id k g r g' : remove_parity id k g = Ok (r, g') -> gstep g g'
| GIncExtent id k g g' : inc_extent_ref id k g = Ok g' -> gstep g g'
| GSetExtent id k n g g' : set_extent_ref id k n g = Ok g' -> gstep g g'
| GIncParity id k g g' : inc_parity_ref id k g = Ok g' -> gstep g g'
| GSetParity id k n g g' : set_parity_ref id k n g = Ok g' -> gstep g g'
| GSetOwner o t leg n g : gstep g (set_owner_ref o t leg n g)
| GReplaceLeg id k a b g r g' : replace_leg id k a b g = Ok (r, g') -> gstep g g'
| GAddLeg id k a g r g' : add_leg id k a g = Ok (r, g') -> gstep g g'
| GDropLeg id k a g r g' : drop_leg id k a g = Ok (r, g') -> gstep g g'
| GReplaceParityLeg id k a b g r g' : replace_parity_leg id k a b g = Ok (r, g') -> gstep g g'
| GRewriteLegs moves g n g' : rewrite_legs moves g = Ok (n, g') -> gstep g g'
| GAddBeside a b g n g' : add_leg_beside a b g = Ok (n, g') -> gstep g g'
| GDropEverywhere a g n g' : drop_leg_everywhere a g = Ok (n, g') -> gstep g g'
| GUnmap ls g d g' : unmap_legs_everywhere ls g = Ok (d, g') -> gstep g g'
| GAbsorb others ids g : map_Forall (fun _ m => vmap_nonempty m) others -> gstep g (absorb others ids g)
| GRename a b g r g' : rename_volume a b g = Ok (r, g') -> gstep g g'
| GRemoveVolume id g r g' : remove_volume id g = Ok (r, g') -> gstep g g'
| GClone a b g r g' : clone_volume_map a b g = Ok (r, g') -> gstep g g'
| GGather a b base g ls g' : gather_into a b base g = Ok (ls, g') -> gstep g g'
| GGatherRemapped a b p g ls g' : gather_remapped a b p g = Ok (ls, g') -> gstep g g'.

Lemma gstep_good g g' : gwf g -> gstep g g' -> good_step g g'.
Proof.
  intros Hg H. destruct H as [id k l g g' H|id k p g g' H|id k g r g' H|id k g r g' H|id k g g' H|id k n g g' H|id k g g' H|id k n g g' H
    |o t leg n g|id k a b g r g' H|id k a g r g' H|id k a g r g' H|id k a b g r g' H|moves g n g' H|a b g n g' H|a g n g' H|ls g d g' H
    |others ids g Ho|a b g r g' H|id g r g' H|a b g r g' H|a b base g ls g' H|a b p g ls g' H].
  - by eapply insert_good.
  - by eapply insert_parity_good.
  - by eapply remove_good.
  - by eapply remove_parity_good.
  - unfold inc_extent_ref in H. peel H. injection H as <-. by apply update_extent_good.
  - unfold set_extent_ref in H. peel H. injection H as <-. by apply update_extent_good.
  - unfold inc_parity_ref in H. peel H. injection H as <-. by apply update_group_good.
  - unfold set_parity_ref in H. peel H. injection H as <-. by apply update_group_good.
  - by apply set_owner_ref_good.
  - unfold replace_leg in H. peel H. injection H as H. apply (f_equal snd) in H; cbn [snd] in H; subst g'. apply update_extent_good; [done|done|apply replace_leg_in_hit].
  - unfold add_leg in H. peel H. injection H as H. apply (f_equal snd) in H; cbn [snd] in H; subst g'. by apply update_extent_good.
  - unfold drop_leg in H. peel H. injection H as H. apply (f_equal snd) in H; cbn [snd] in H; subst g'. apply update_extent_good; [done|done|apply drop_leg_in_hit].
  - unfold replace_parity_leg in H. peel H. destruct (m ← volumes g !! id; parity m !! k) as [p|]; [|injection H as _ <-; by apply good_refl].
    destruct (position a (pg_legs p)); injection H as _ <-; [by apply update_group_good|by apply good_refl].
  - by eapply rewrite_legs_good.
  - by eapply sweep_tally_good.
  - by eapply sweep_tally_good.
  - by eapply unmap_good.
  - by apply absorb_good.
  - by eapply rename_good.
  - by eapply remove_volume_good.
  - by eapply clone_good.
  - by eapply gather_into_good.
  - by eapply gather_remapped_good.
Qed.

Lemma gsteps_good g g' : gwf g -> rtc gstep g g' -> good_step g g'.
Proof.
  intros Hg H. induction H as [g|g g1 g' H1 _ IH]; [by apply good_refl|].
  apply (good_trans g g1); [by apply gstep_good|]. intros. by apply IH.
Qed.

(** C15. Change tracking misses nothing and the map's shape holds: after any
    sequence of operations on a tracked map, every extent and every stripe that
    differs from what it was is named by the recorded changes (by itself or with its
    whole volume); no volume is both in and out of memory, none is kept empty, and
    no recorded change names a volume that is out of memory. *)
Theorem every_change_is_recorded g g' :
  gwf g -> track g = true -> rtc gstep g g' ->
  gwf g' /\ track g' = true
  /\ (forall v k, ext_at (volumes g') v k <> ext_at (volumes g) v k -> recorded_ext (changes g') v k)
  /\ (forall v k, par_at (volumes g') v k <> par_at (volumes g) v k -> recorded_par (changes g') v k).
Proof.
  intros Hg Ht H. destruct (gsteps_good g g' Hg H) as [Hg' [St _ _ _ _ _ Se Sp]].
  split; [done|]. split; [congruence|]. split; intros; [by apply Se|by apply Sp].
Qed.

(** ** Two volumes, one a clone of the other *)

Definition vol_a : VolumeId := [1].
Definition vol_b : VolumeId := [2].
Definition leg1 : Leg := mkLeg [7] 1.
Definition leg2 : Leg := mkLeg [7] 2.
Definition leg3 : Leg := mkLeg [8] 3.
Definition demo_gem : GlobalExtentMap :=
  mkGem {[ vol_a := mkVmap {[ 0 := with_legs leg1 [leg2] ]} {[ 0 := new_group [leg2] 2 ]} ]} ∅ true 0 true no_changes.

Lemma demo_gwf : gwf demo_gem.
Proof.
  split; [|by intros v c Hv].
  intros v m Hv. cbn in Hv. apply lookup_singleton_Some in Hv as [_ <-]. left. apply map_non_empty_singleton.
Qed.

Lemma every_change_is_recorded_witness :
  exists g', rtc gstep demo_gem g' /\ recorded_ext (changes g') vol_b 0.
Proof.
  destruct (clone_volume_map vol_a vol_b demo_gem) as [[r g']|] eqn:E; [|vm_compute in E; discriminate].
  exists g'. assert (rtc gstep demo_gem g') as Hs by (by apply rtc_once, (GClone _ _ _ _ _ E)). split; [done|].
  destruct (every_change_is_recorded demo_gem g' demo_gwf eq_refl Hs) as (_ & _ & He & _).
  apply He. revert E. vm_compute. intros [= _ <-]. discriminate.
Defined.

(** ** Moving slots *)

(** A location with its legs moved: the primary's generation moves with it. *)
Definition move_loc (moves : gmap Leg Leg) (l : ExtentLocation) : ExtentLocation :=
  set_mirrors (map (moved moves) (mirrors l))
    (match moves !! primary l with Some new => next_generation (set_primary new l) | None => l end).
Definition move_vmap (moves : gmap Leg Leg) (m : VolumeExtentMap) : VolumeExtentMap :=
  mkVmap (move_loc moves <$> extents m) (rewrite_group moves <$> parity m).

Lemma legs_move_loc moves l : legs (move_loc moves l) = map (moved moves) (legs l).
Proof.
  unfold legs, move_loc, moved. cbn [map mirrors set_mirrors]. f_equal. unfold primary. cbn.
  destruct (moves !! _) as [[]|]; done.
Qed.

Lemma count_if_cons {A} (p : A -> bool) x l : count_if p (x :: l) = (if p x then 1 else 0) + count_if p l.
Proof.
  unfold count_if. rewrite filter_cons. destruct (p x); [rewrite decide_True by done; by rewrite zlen_cons|by rewrite decide_False].
Qed.
Lemma count_if_app {A} (p : A -> bool) l l' : count_if p (l ++ l') = count_if p l + count_if p l'.
Proof. unfold count_if. by rewrite filter_app, zlen_app. Qed.
Lemma count_if_flat_map {A B} (p : B -> bool) (f : A -> list B) l :
  count_if p (flat_map f l) = zsum (map (fun x => count_if p (f x)) l).
Proof. induction l as [|x l IH]; [done|]. cbn [flat_map map zsum foldr]. by rewrite count_if_app, IH. Qed.

Lemma map_moved_none moves ls : count_if (is_moved moves) ls = 0 -> map (moved moves) ls = ls.
Proof.
  induction ls as [|l ls IH]; [done|]. rewrite count_if_cons. intros H.
  assert (0 <= count_if (is_moved moves) ls) by apply zlen_nonneg. destruct (is_moved moves l) eqn:E; [lia|].
  cbn [map]. rewrite IH by lia. f_equal. unfold is_moved in E. apply bool_decide_eq_false in E. unfold moved.
  destruct (moves !! l); [|done]. destruct E. by eexists.
Qed.

Lemma move_vmap_empty m : move_vmap ∅ m = m.
Proof.
  assert (forall ls, map (moved ∅) ls = ls) as Hid.
  { induction ls as [|l ls IH]; [done|]. cbn [map]. rewrite IH. unfold moved. by rewrite lookup_empty. }
  destruct m as [e p]. unfold move_vmap. cbn [extents parity]. f_equal.
  - rewrite <- (map_fmap_id e) at 2. apply map_fmap_ext. intros k l _. unfold move_loc. rewrite lookup_empty, Hid. by destruct l.
  - rewrite <- (map_fmap_id p) at 2. apply map_fmap_ext. intros k q _. apply rewrite_group_same. unfold moved_legs.
    change (id q) with q. induction (pg_legs q) as [|l ls IH]; [done|]. rewrite filter_cons. destruct (decide _) as [E|]; [|exact IH].
    unfold is_moved in E. by rewrite lookup_empty in E.
Qed.

(** Whatever the loop carries, a location ends as [move_loc] says and is counted leg by leg. *)
Lemma rewrite_loc_spec moves tr id k l s :
  let r := rewrite_loc moves tr id k l s in
  (if snd (fst r) then fst (fst r) else l) = move_loc moves l
  /\ rw_count (snd r) = rw_count s + count_if (is_moved moves) (legs l).
Proof.
  unfold rewrite_loc, move_loc, legs. rewrite count_if_cons.
  assert (0 <= count_if (is_moved moves) (mirrors l)) by apply zlen_nonneg.
  assert (is_moved moves (primary l) = if moves !! primary l is Some _ then true else false) as ->.
  { unfold is_moved. destruct (moves !! primary l); [apply bool_decide_eq_true_2; by eexists|]. apply bool_decide_eq_false_2. by intros []. }
  destruct (moves !! primary l) as [new|]; cbn [fst snd rw_count].
  - destruct (Z.eqb_spec (1 + count_if (is_moved moves) (mirrors l)) 0); [lia|]. cbn [negb]. split; [done|lia].
  - destruct (Z.eqb_spec (0 + count_if (is_moved moves) (mirrors l)) 0) as [E|]; cbn [negb]; [|split; [done|lia]].
    split; [|lia]. rewrite map_moved_none by lia. by destruct l.
Qed.

Lemma rewrite_parity_count moves tr id L : forall s,
  rw_count (foldl (rewrite_parity moves tr id) s L) = rw_count s + count_if (is_moved moves) (flat_map pg_legs (map snd L)).
Proof.
  induction L as [|sp L IH]; intros s; cbn [foldl map flat_map]; [unfold count_if, zlen; cbn; lia|].
  rewrite IH, count_if_app. unfold rewrite_parity. cbn [rw_count]. unfold moved_legs, count_if. lia.
Qed.

Lemma rewrite_volume_spec moves tr id m s :
  let r := rewrite_volume moves tr id m s in
  fst r = move_vmap moves m /\ rw_count (snd r) = rw_count s + count_if (is_moved moves) (all_legs m).
Proof.
  unfold rewrite_volume, move_vmap.
  assert (fst (em_each (rewrite_loc moves tr id) (extents m) s) = move_loc moves <$> extents m) as He.
  { apply map_eq. intros k. rewrite (each_lookup _ (fun _ => move_loc moves)), lookup_fmap; [done|].
    intros v l s0. apply rewrite_loc_spec. }
  assert (rw_count (snd (em_each (rewrite_loc moves tr id) (extents m) s))
          = rw_count s + count_if (is_moved moves) (flat_map legs (locations m))) as Hs.
  { rewrite each_state. unfold locations. generalize (entries (extents m)) as L. clear He. intros L. revert s.
    induction L as [|vl L IH]; intros s; cbn [foldl map flat_map]; [unfold count_if, zlen; cbn; lia|].
    rewrite IH, count_if_app. rewrite (proj2 (rewrite_loc_spec moves tr id (fst vl) (snd vl) s)). lia. }
  destruct (em_each _ _ s) as [e s']. cbn [fst snd] in *. rewrite He. split; [done|].
  rewrite rewrite_parity_count, Hs. unfold all_legs, groups. rewrite count_if_app. lia.
Qed.

(** A sweep that treats each volume alike, whatever it carries. *)
Lemma sweep_uniform {S} (h : VolumeId -> VolumeExtentMap -> S -> VolumeExtentMap * S) (H : VolumeExtentMap -> VolumeExtentMap)
    (count : S -> Z) (n : VolumeExtentMap -> Z) vs s :
  (forall v m s, fst (h v m s) = H m /\ count (snd (h v m s)) = count s + n m) ->
  fst (sweep h vs s) = H <$> vs /\ count (snd (sweep h vs s)) = count s + zsum (map (fun vm => n (snd vm)) (map_to_list vs)).
Proof.
  intros Hh. unfold sweep.
  assert (forall L (vs0 : gmap VolumeId VolumeExtentMap) s, NoDup (map fst L) ->
    let r := foldl (fun vss vm => let '(m, s) := h (fst vm) (snd vm) (snd vss) in (<[fst vm := m]> (fst vss), s)) (vs0, s) L in
    (forall v, fst r !! v = match (list_to_map L : gmap VolumeId VolumeExtentMap) !! v with Some m => Some (H m) | None => vs0 !! v end)
    /\ count (snd r) = count s + zsum (map (fun vm => n (snd vm)) L)) as Hgen.
  { induction L as [|[v m] L IH]; intros vs0 s0 Hnd; cbn [foldl map zsum foldr fst snd]; [split; [done|lia]|].
    cbn [map fst] in Hnd. apply NoDup_cons in Hnd as [Hv Hnd]. pose proof (Hh v m s0) as [Hm Hc].
    destruct (h v m s0) as [m' s']. cbn [fst snd] in *. subst m'. destruct (IH (<[v := H m]> vs0) s' Hnd) as [H1 H2]. split.
    - intros w. rewrite H1. rewrite list_to_map_cons. destruct (decide (w = v)) as [->|].
      + assert ((list_to_map L : gmap VolumeId VolumeExtentMap) !! v = None) as Hno by (by apply not_elem_of_list_to_map_1).
        rewrite Hno, !lookup_insert_eq. done.
      + by rewrite !lookup_insert_ne by done.
    - rewrite H2, Hc. fold (zsum (map (fun vm => n (snd vm)) L)). lia. }
  destruct (Hgen (map_to_list vs) vs s) as [H1 H2]; [apply NoDup_fst_map_to_list|]. split; [|done].
  apply map_eq. intros v. rewrite H1, list_to_map_to_list, lookup_fmap. by destruct (vs !! v).
Qed.

Lemma volumes_touch_all ts g : volumes (touch_all ts g) = volumes g.
Proof. rewrite touch_all_marks. apply marks_fields. Qed.
Lemma volumes_touch_all_parity ts g : volumes (touch_all_parity ts g) = volumes g.
Proof. rewrite touch_all_parity_marks. apply marks_fields. Qed.

Lemma every_leg_moved moves g vs :
  volumes g = move_vmap moves <$> vs -> forall l, l ∈ every_leg g ->
  exists v m l0, vs !! v = Some m /\ l0 ∈ all_legs m /\ l = moved moves l0.
Proof.
  intros Hv l Hl. unfold every_leg in Hl. rewrite Hv in Hl. apply list_elem_of_In, in_flat_map in Hl as ([v m'] & Hin & Hl).
  apply list_elem_of_In, elem_of_map_to_list in Hin. rewrite lookup_fmap in Hin. destruct (vs !! v) as [m|] eqn:Em; [|done].
  cbn in Hin. injection Hin as <-. exists v, m. cbn in Hl. unfold all_legs in *. apply in_app_iff in Hl as [Hl|Hl].
  - apply in_flat_map in Hl as (loc' & Hloc & Hl). unfold locations in Hloc. apply in_map_iff in Hloc as ([k loc] & <- & Hin).
    apply list_elem_of_In, elem_of_entries in Hin. cbn in Hin. rewrite lookup_fmap in Hin.
    destruct (extents m !! k) as [loc0|] eqn:E0; [|done]. cbn in Hin. injection Hin as <-. cbn [snd pg_legs rewrite_group] in Hl. rewrite legs_move_loc in Hl.
    apply in_map_iff in Hl as (l0 & <- & Hl0). exists l0. split; [done|]. split; [|done]. apply elem_of_app. left.
    apply list_elem_of_In, in_flat_map. exists loc0. split; [|done]. apply in_map_iff. exists (k, loc0). split; [done|].
    by apply list_elem_of_In, elem_of_entries.
  - apply in_flat_map in Hl as (p' & Hp & Hl). unfold groups in Hp. apply in_map_iff in Hp as ([k p] & <- & Hin).
    apply list_elem_of_In, elem_of_entries in Hin. cbn in Hin. rewrite lookup_fmap in Hin.
    destruct (parity m !! k) as [p0|] eqn:E0; [|done]. cbn in Hin. injection Hin as <-. cbn [snd pg_legs rewrite_group] in Hl.
    apply in_map_iff in Hl as (l0 & <- & Hl0). exists l0. split; [done|]. split; [|done]. apply elem_of_app. right.
    apply list_elem_of_In, in_flat_map. exists p0. split; [|done]. apply in_map_iff. exists (k, p0). split; [done|].
    by apply list_elem_of_In, elem_of_entries.
Qed.

(** [rewrite_legs] moves every reference and only references: each location
    and each parity group of every volume names the replacement of every leg that
    moved, in place; the number returned is the number of references there were; and
    no map names a moved slot any more, unless the moves themselves lead back to one. *)
Lemma rewrite_legs_moves_every_reference moves g n g' :
  rewrite_legs moves g = Ok (n, g') ->
  volumes g' = move_vmap moves <$> volumes g
  /\ n = count_if (is_moved moves) (every_leg g)
  /\ ((forall a b, moves !! a = Some b -> moves !! b = None) -> forall l, l ∈ every_leg g' -> moves !! l = None).
Proof.
  intros H. unfold rewrite_legs in H. peel H.
  assert (volumes g' = move_vmap moves <$> volumes g /\ n = count_if (is_moved moves) (every_leg g)) as [Hv Hn].
  { destruct (decide (moves = ∅)) as [->|Hne].
    - injection H as <- <-. split.
      + symmetry. rewrite <- (map_fmap_id (volumes g)) at 2. apply map_fmap_ext. intros v m _. apply move_vmap_empty.
      + unfold count_if. induction (every_leg g) as [|l ls IH]; [done|]. rewrite filter_cons. by rewrite decide_False.
    - destruct (sweep_uniform (rewrite_volume moves (track g)) (move_vmap moves) rw_count
                  (fun m => count_if (is_moved moves) (all_legs m)) (volumes g) (mkRewritten 0 [] [])) as [H1 H2].
      { intros v m s. apply rewrite_volume_spec. }
      destruct (sweep _ _ _) as [vs s]. injection H as <- <-. cbn [fst snd rw_count] in *.
      rewrite volumes_touch_all_parity, volumes_touch_all. split; [done|]. rewrite H2. unfold every_leg.
      rewrite count_if_flat_map. lia. }
  split; [done|]. split; [done|]. intros Hback l Hl.
  destruct (every_leg_moved moves g' (volumes g) Hv l Hl) as (v & m & l0 & _ & _ & ->).
  unfold moved. destruct (moves !! l0) as [b|] eqn:E; cbn; [by eapply Hback|done].
Qed.

(** ** The tag of parity slots *)

(** The value a parity slot records names its leg and stripe exactly: parsing
    gives back any leg below 128 and stripe below 2^56, a data extent's index
    (below 2^63) is never taken for parity, and every tagged 64-bit value is the
    tag of what it parses to. *)
Lemma parity_tag_roundtrip :
  (forall leg stripe, 0 <= leg < 128 -> 0 <= stripe < 2 ^ 56 -> parse_parity_vext (parity_vext leg stripe) = Some (leg, stripe))
  /\ (forall v, 0 <= v < 2 ^ 63 -> parse_parity_vext v = None)
  /\ (forall v leg stripe, 0 <= v < 2 ^ 64 -> parse_parity_vext v = Some (leg, stripe) -> parity_vext leg stripe = v).
Proof.
  split; [|split; [apply data_vext_unparsed|]].
  - intros leg stripe Hl Hs. rewrite parse_parity_vext_tagged by lia. by rewrite !Z.mod_small by lia.
  - intros v leg stripe Hv. unfold parse_parity_vext. rewrite land_tag by done. destruct (Z.ltb_spec v (2 ^ 63)) as [|Hge]; [done|].
    unfold PARITY_STRIPE_MASK, PARITY_LEG_SHIFT. change (Z.shiftl 1 56 - 1) with (Z.ones 56). change 127 with (Z.ones 7).
    rewrite !Z.land_ones, Z.shiftr_div_pow2 by lia. intros [= <- <-].
    pose proof (Z.mod_pos_bound (v / 2 ^ 56) (2 ^ 7) ltac:(lia)). pose proof (Z.mod_pos_bound v (2 ^ 56) ltac:(lia)).
    rewrite wrap_small, parity_vext_split by lia. rewrite !Z.mod_mod by lia.
    pose proof (Z.div_mod v (2 ^ 56) ltac:(lia)). pose proof (Z.div_mod (v / 2 ^ 56) (2 ^ 7) ltac:(lia)).
    assert (v / 2 ^ 56 / 2 ^ 7 = 1) as E by (rewrite Z.div_div by lia; symmetry; apply (Z.div_unique_pos v _ 1 (v - 2 ^ 63)); lia).
    lia.
Qed.
