(* ===== verification/PersistV2.v ===== *)
(** Persisting the extent maps to a format v2 store: [volume/persist_v2.rs], and the
    entries of [volume/metav2.rs].  One sink: what a persist takes for it, and the
    order in which what was taken is written. *)

From S2P Require Import Prelude GemData ExtMap Gem.

(** ** Keys and entries *)

Definition DOC : Z := 0.
Definition HEADER : Z := 1.
Definition EXTENT : Z := 2.
Definition PARITY : Z := 3.
Definition MAX_VALUE : Z := 1536.
Definition KEY_LEN : Z := 25.

(** A key by its parts; [key_bytes] are the bytes [Key::new] lays it out in, and
    [key_of_bytes] is what [vol], [kind] and [idx] read. *)
Record Key := mkKey { k_vol : VolumeId; k_kind : Z; k_idx : Z }.
#[export] Instance Key_eq : EqDecision Key.
Proof. solve_decision. Defined.
#[export] Instance Key_countable : Countable Key.
Proof.
  refine (inj_countable' (fun k => (k_vol k, k_kind k, k_idx k)) (fun p => mkKey (fst (fst p)) (snd (fst p)) (snd p)) _). by intros [].
Defined.
Definition key_bytes (k : Key) : bytes := k_vol k ++ [k_kind k] ++ be_bytes 8 (k_idx k).
Definition key_of_bytes (b : bytes) : Key := mkKey (slice 0 16 b) (at_byte b 16) (be_val (slice 17 8 b)).

(** What a store holds. *)
Abbreviation Store := (gmap Key bytes).
Inductive Op := Put (k : Key) (v : bytes) | Del (k : Key) | DropVolume (v : VolumeId).
Definition drop_volume (v : VolumeId) (s : Store) : Store := filter (fun kv => k_vol (fst kv) <> v) s.
Definition apply_op (s : Store) (op : Op) : Store :=
  match op with
  | Put k v => <[k := v]> s
  | Del k => delete k s
  | DropVolume v => drop_volume v s
  end.
Definition apply_ops (s : Store) (ops : list Op) : Store := foldl apply_op s ops.
(** [replace_all]: the entries and nothing else.  Their keys are distinct, so the order
    they come in (the code sorts them) does not matter. *)
Definition replace_all (entries : list (Key * bytes)) : Store := foldl (fun s e => <[fst e := snd e]> s) ∅ entries.
Definition scan_volume (v : VolumeId) (s : Store) : list (Key * bytes) :=
  filter (fun kv => k_vol (fst kv) = v) (map_to_list s).

Section Persist.
(** The serializer ([bincode]) and the standard hasher. *)
Context (enc_loc : ExtentLocation -> bytes) (dec_loc : bytes -> option ExtentLocation).
Context (enc_group : ParityGroup -> bytes) (dec_group : bytes -> option ParityGroup).
Context (hash : bytes -> Z).

Definition doc_key : Key := mkKey nil_uuid DOC 0.
Definition header_chunks (len : Z) : Z := len / MAX_VALUE + 1.
Definition header_entries (vol : VolumeId) (b : bytes) : list (Key * bytes) :=
  map (fun i => let lo := Z.min (i * MAX_VALUE) (zlen b) in
                let hi := Z.min ((i + 1) * MAX_VALUE) (zlen b) in
                (mkKey vol HEADER i, slice lo (hi - lo) b)) (zrange 0 (zlen b / MAX_VALUE + 1)).
Definition extent_entry (vol : VolumeId) (vext : Z) (l : ExtentLocation) : Key * bytes := (mkKey vol EXTENT vext, enc_loc l).
Definition parity_entry (vol : VolumeId) (stripe : Z) (p : ParityGroup) : Key * bytes := (mkKey vol PARITY stripe, enc_group p).

(** [None]: an entry that does not decode. *)
Definition read_entry (acc : option (bool * VolumeExtentMap)) (kv : Key * bytes) : option (bool * VolumeExtentMap) :=
  hm ← acc;
  if k_kind (fst kv) =? HEADER then Some (true, snd hm)
  else if k_kind (fst kv) =? EXTENT then
    l ← dec_loc (snd kv); Some (fst hm, set_extents <[k_idx (fst kv) := l]> (snd hm))
  else if k_kind (fst kv) =? PARITY then
    p ← dec_group (snd kv); Some (fst hm, set_parity <[k_idx (fst kv) := p]> (snd hm))
  else Some hm.
(** [map_of]: [Some None] when the entries hold no header. *)
Definition map_of (es : list (Key * bytes)) : option (option VolumeExtentMap) :=
  hm ← foldl read_entry (Some (false, vmap0)) es;
  Some (if fst hm : bool then Some (snd hm) else None).

(** ** What a persist takes *)

Record SinkState := mkSink {
  held : gmap VolumeId (Z * Z); doc : option Z; need_full : bool; epoch : Z; is_dir : bool }.
Definition new_sink (dir : bool) : SinkState := mkSink ∅ None true 0 dir.
Record Batch := mkBatch { b_epoch : Z; full : option (list (Key * bytes) * Z); ops : list Op }.

(** [all_of]: a volume's entries, whole. *)
Definition all_of (g : GlobalExtentMap) (id : VolumeId) (b : bytes) : result Panic (list (Key * bytes)) :=
  let? om := get_volume_map g id in
  Ok (header_entries id b ++
      match om with
      | Some m => map (fun vl => extent_entry id (fst vl) (snd vl)) (entries (extents m))
                  ++ map (fun sp => parity_entry id (fst sp) (snd sp)) (entries (parity m))
      | None => []
      end).

Fixpoint collect {A B} (f : A -> result Panic (list B)) (l : list A) : result Panic (list B) :=
  match l with
  | [] => Ok []
  | x :: r => let? a := f x in let? b := collect f r in Ok (a ++ b)
  end.

Definition extent_op (g : GlobalExtentMap) (id : VolumeId) (v : Z) : result Panic (list Op) :=
  let? ol := lookup g id v in
  Ok [match ol with Some l => Put (mkKey id EXTENT v) (enc_loc l) | None => Del (mkKey id EXTENT v) end].
Definition parity_op (g : GlobalExtentMap) (id : VolumeId) (s : Z) : result Panic (list Op) :=
  let? op := lookup_parity g id s in
  Ok [match op with Some p => Put (mkKey id PARITY s) (enc_group p) | None => Del (mkKey id PARITY s) end].

Definition put_all (es : list (Key * bytes)) : list Op := map (fun e => Put (fst e) (snd e)) es.
Definition header_ops (id : VolumeId) (b : bytes) (old : Z * Z) : list Op :=
  if fst old =? hash b then []
  else put_all (header_entries id b) ++ map (fun i => Del (mkKey id HEADER i)) (zrange (header_chunks (zlen b)) (snd old)).

(** A volume the sink holds, changed extent by extent, or any other, whole. *)
Definition member_ops (g : GlobalExtentMap) (ch : Changes) (h : gmap VolumeId (Z * Z)) (m : VolumeId * bytes) : result Panic (list Op) :=
  let '(id, b) := m in
  match h !! id with
  | Some old =>
      if decide (id ∈ ch_whole ch) then
        let? es := all_of g id b in Ok (DropVolume id :: put_all es)
      else
        let? eo := collect (extent_op g id) (elements (default ∅ (ch_extents ch !! id))) in
        let? po := collect (parity_op g id) (elements (default ∅ (ch_parity ch !! id))) in
        Ok (header_ops id b old ++ eo ++ po)
  | None => let? es := all_of g id b in Ok (DropVolume id :: put_all es)
  end.
Definition hold (m : VolumeId * bytes) (h : gmap VolumeId (Z * Z)) : gmap VolumeId (Z * Z) :=
  <[fst m := (hash (snd m), header_chunks (zlen (snd m)))]> h.
Fixpoint members_ops (g : GlobalExtentMap) (ch : Changes) (h : gmap VolumeId (Z * Z)) (ms : list (VolumeId * bytes))
    : result Panic (list Op * gmap VolumeId (Z * Z)) :=
  match ms with
  | [] => Ok ([], h)
  | m :: r =>
      let? o := member_ops g ch h m in
      let? p := members_ops g ch (hold m h) r in
      Ok (o ++ fst p, snd p)
  end.

(** One sink's part of [take]; [members] are the volumes it carries, with their
    header bytes.  No batch when nothing changed. *)
Definition take_sink (g : GlobalExtentMap) (ch : Changes) (doc_val : bytes) (ms : list (VolumeId * bytes)) (s : SinkState)
    : result Panic (SinkState * option Batch) :=
  let doc_hash := hash doc_val in
  if need_full s then
    let? es := collect (fun m => all_of g (fst m) (snd m)) ms in
    let h := foldl (fun h m => hold m h) ∅ ms in
    Ok (mkSink h (Some doc_hash) false (epoch s) (is_dir s),
        Some (mkBatch (epoch s) (Some ((doc_key, doc_val) :: es, zlen ms)) []))
  else
    let doc_ops := if decide (doc s = Some doc_hash) then [] else [Put doc_key doc_val] in
    let gone := filter (fun id => id ∉ map fst ms) (map fst (map_to_list (held s))) in
    let h := foldr delete (held s) gone in
    let? oh := members_ops g ch h ms in
    let os := doc_ops ++ map DropVolume gone ++ fst oh in
    let s' := mkSink (snd oh) (Some doc_hash) false (epoch s) (is_dir s) in
    Ok (s', match os with [] => None | _ => Some (mkBatch (epoch s) None os) end).

(** ** Writing what was taken *)

(** [away] is a history variable: each map out of memory as it left it.  The sink, and the batches on their way to the
    store: [taken] waiting for their turn, [queue] joined and waiting to be written,
    [unmarked] failures whose [sink_failed] has not run yet. *)
Record System := mkSystem {
  gem : GlobalExtentMap; sink : SinkState; taken : list Batch; queue : list Batch; unmarked : nat;
  store : Store; away : gmap VolumeId VolumeExtentMap }.

Definition mark_failed (s : SinkState) : SinkState := mkSink (held s) (doc s) true (epoch s + 1) (is_dir s).

(** What one record writes of the queue: the batches of the sink's epoch. *)
Definition record_ops (e : Z) (q : list Batch) : list Op := flat_map ops (filter (fun b => b_epoch b = e) q).
(** A whole write of no volumes never goes over a directory's record that names some. *)
Definition refuses (s : SinkState) (volumes : Z) (st : Store) : bool :=
  (volumes =? 0) && is_dir s && negb (bool_decide (filter (fun kv => k_kind (fst kv) = HEADER /\ k_idx (fst kv) = 0) (map_to_list st) = [])).
Definition apply_full (s : SinkState) (f : list (Key * bytes) * Z) (st : Store) : SinkState * Store :=
  if refuses s (snd f) st then (mkSink (held s) (doc s) true (epoch s) (is_dir s), st) else (s, replace_all (fst f)).

(** [V2State::quiet] and [V2State::held]: a map may leave memory. *)
Definition quiet (y : System) : bool :=
  bool_decide (taken y = []) && negb (need_full (sink y)) && bool_decide (queue y = []).
Definition holds (y : System) (v : VolumeId) : bool := if held (sink y) !! v is Some _ then true else false.
(** [StorePager::load]. *)
Definition load (y : System) (v : VolumeId) : option VolumeExtentMap :=
  if holds y v then m ← map_of (scan_volume v (store y)); m else None.

(** A write that failed: its sink is marked ([sink_failed]) by the task that took the
    batch, once every sink of its persist has ended.  [late]: whether that may come
    after other steps of the sink, as it may in the code. *)
Definition failed (late : bool) (y : System) : SinkState * nat :=
  if late then (sink y, S (unmarked y)) else (mark_failed (sink y), unmarked y).

Definition away_of (g : GlobalExtentMap) (aw : gmap VolumeId VolumeExtentMap) : gmap VolumeId VolumeExtentMap :=
  filter (fun vm => is_cold g (fst vm) = true) aw.

(** A map [install] puts back: it takes one with no extents for an empty one, so one of
    parity groups only is lost by the code ([PersistLaws.parity_only_map_is_lost]).
    [PEvict] leaves that one out: the laws are about the maps the code does not lose. *)
Definition whole_map (m : VolumeExtentMap) : Prop := extents m = ∅ -> parity m = ∅.

(** The steps of a persist and of paging, [change] those of the extent map. *)
Inductive pstep (change : GlobalExtentMap -> GlobalExtentMap -> Prop) (late : bool) : System -> System -> Prop :=
| PChange y g' : change (gem y) g' ->
    pstep change late y (mkSystem g' (sink y) (taken y) (queue y) (unmarked y) (store y) (away_of g' (away y)))
| PTake y doc_val ms s' ob : NoDup (map fst ms) ->
    take_sink (gem y) (fst (take_changes (gem y))) doc_val ms (sink y) = Ok (s', ob) ->
    pstep change late y (mkSystem (snd (take_changes (gem y))) s' (taken y ++ (if ob is Some b then [b] else [])) (queue y)
                    (unmarked y) (store y) (away y))
| PJoin y b r : taken y = b :: r -> full b = None ->
    pstep change late y (mkSystem (gem y) (sink y) r (queue y ++ [b]) (unmarked y) (store y) (away y))
| PWrite y : queue y <> [] ->
    pstep change late y (mkSystem (gem y) (sink y) (taken y) [] (unmarked y)
                    (apply_ops (store y) (record_ops (epoch (sink y)) (queue y))) (away y))
| PWriteFails y st : queue y <> [] ->
    st = store y \/ st = apply_ops (store y) (record_ops (epoch (sink y)) (queue y)) ->
    pstep change late y (mkSystem (gem y) (fst (failed late y)) (taken y) [] (snd (failed late y)) st (away y))
| PWhole y b r f : taken y = b :: r -> full b = Some f -> queue y = [] ->
    pstep change late y (mkSystem (gem y) (fst (apply_full (sink y) f (store y))) r [] (unmarked y)
                    (snd (apply_full (sink y) f (store y))) (away y))
| PWholeFails y b r f st : taken y = b :: r -> full b = Some f -> queue y = [] ->
    st = store y \/ st = replace_all (fst f) ->
    pstep change late y (mkSystem (gem y) (mark_failed (sink y)) r [] (unmarked y) st (away y))
| PDrop y l b r : taken y = l ++ b :: r ->
    pstep change late y (mkSystem (gem y) (mark_failed (sink y)) (l ++ r) (queue y) (unmarked y) (store y) (away y))
| PMark y n : unmarked y = S n ->
    pstep change late y (mkSystem (gem y) (mark_failed (sink y)) (taken y) (queue y) n (store y) (away y))
| PEvict y v m g' : quiet y = true -> holds y v = true -> volumes (gem y) !! v = Some m -> whole_map m ->
    evict v (gem y) = (true, g') ->
    pstep change late y (mkSystem g' (sink y) (taken y) (queue y) (unmarked y) (store y) (<[v := m]> (away y)))
| PPageIn y v m : ensure_resident_plan v (gem y) = Load -> load y v = Some m ->
    pstep change late y (mkSystem (ensure_resident_finish v m (gem y)) (sink y) (taken y) (queue y) (unmarked y) (store y)
                    (delete v (away y))).

Definition start (g : GlobalExtentMap) (dir : bool) (st : Store) : System := mkSystem g (new_sink dir) [] [] 0 st ∅.
End Persist.
