(* ===== verification/PersistProofs.v ===== *)
(** What the operations a persist takes do to a store: each volume it carries ends with
    exactly the entries of its map. What a persist takes for a sink: with it written, every
    volume the sink holds has exactly the entries of its map; and it never touches the
    entries of a map that is out of memory. *)

From S2P Require Import Prelude GemData ExtMap Gem GemProofs PersistV2.
Section Proofs.
Context (enc_loc : ExtentLocation -> bytes) (dec_loc : bytes -> option ExtentLocation).
Context (enc_group : ParityGroup -> bytes) (dec_group : bytes -> option ParityGroup).
Context (hash : bytes -> Z).

Abbreviation all_of' := (all_of enc_loc enc_group).
Abbreviation member_ops' := (member_ops enc_loc enc_group hash).
Abbreviation members_ops' := (members_ops enc_loc enc_group hash).

(** ** Lists of puts *)

Lemma apply_ops_app (st : Store) a b : apply_ops st (a ++ b) = apply_ops (apply_ops st a) b.
Proof using Type. apply foldl_app. Qed.

Lemma apply_put_all es : forall st : Store, NoDup (map fst es) -> apply_ops st (put_all es) = (list_to_map es : Store) ∪ st.
Proof using Type.
  induction es as [|[k b] es IH]; intros st Hnd; [symmetry; apply (left_id_L ∅ (∪))|].
  cbn [map fst] in Hnd. apply NoDup_cons in Hnd as [Hk Hnd]. cbn [put_all map apply_ops foldl apply_op fst snd].
  fold (put_all es). fold (apply_ops (<[k := b]> st) (put_all es)). rewrite IH by done. rewrite list_to_map_cons.
  rewrite <- insert_union_r by (by apply not_elem_of_list_to_map_1). by rewrite insert_union_l.
Qed.

Lemma replace_all_puts es : replace_all es = apply_ops ∅ (put_all es).
Proof using Type.
  unfold replace_all, apply_ops, put_all. generalize (∅ : Store) as st. induction es as [|e es IH]; intros st; [done|].
  cbn [foldl map apply_op]. apply IH.
Qed.

Lemma put_all_app a b : put_all (a ++ b) = put_all a ++ put_all b.
Proof using Type. apply map_app. Qed.

(** An operation on another volume's keys. *)
Definition op_vol (op : Op) : VolumeId := match op with Put k _ | Del k => k_vol k | DropVolume v => v end.
Lemma apply_other (os : list Op) : forall (st : Store) k,
  Forall (fun op => op_vol op <> k_vol k) os -> apply_ops st os !! k = st !! k.
Proof using Type.
  induction os as [|op os IH]; intros st k Hos; [done|]. apply Forall_cons in Hos as [Hop Hos].
  cbn [apply_ops foldl]. fold (apply_ops (apply_op st op) os). rewrite IH by done. destruct op as [k' b|k'|v]; cbn [op_vol apply_op] in *.
  - apply lookup_insert_ne. congruence.
  - apply lookup_delete_ne. congruence.
  - unfold drop_volume. destruct (st !! k) as [b|] eqn:E.
    + apply map_lookup_filter_Some. split; [done|]. cbn. congruence.
    + apply map_lookup_filter_None. by left.
Qed.

Lemma drop_volume_own v (st : Store) k : k_vol k = v -> drop_volume v st !! k = None.
Proof using Type. intros Hk. apply map_lookup_filter_None. right. intros b _. cbn. intros Hne. by apply Hne. Qed.

(** ** A volume's entries *)

(** The store holds volume [v] with the extents [e] and stripes [p]. *)
Definition holds_map (st : Store) (v : VolumeId) (e : Z -> option ExtentLocation) (p : Z -> option ParityGroup) : Prop :=
  is_Some (st !! mkKey v HEADER 0)
  /\ (forall k, st !! mkKey v EXTENT k = enc_loc <$> e k)
  /\ (forall k, st !! mkKey v PARITY k = enc_group <$> p k).

Definition map_entries (v : VolumeId) (om : option VolumeExtentMap) : list (Key * bytes) :=
  match om with
  | Some m => map (fun vl => extent_entry enc_loc v (fst vl) (snd vl)) (entries (extents m))
              ++ map (fun sp => parity_entry enc_group v (fst sp) (snd sp)) (entries (parity m))
  | None => []
  end.

Lemma all_of_ok g id b es : all_of' g id b = Ok es -> cold g !! id = None /\ es = header_entries id b ++ map_entries id (volumes g !! id).
Proof using Type.
  unfold all_of, get_volume_map. intros H. apply rbind_ok in H as (om & Hom & [= <-]).
  apply rbind_ok in Hom as ([] & Hc%check_ok & [= <-]). split; [done|]. by destruct (volumes g !! id).
Qed.

Lemma header_keys id b : map fst (header_entries id b) = map (mkKey id HEADER) (zrange 0 (zlen b / MAX_VALUE + 1)).
Proof using Type. unfold header_entries. rewrite map_map. done. Qed.

Lemma header_count (b : bytes) : 0 < zlen b / MAX_VALUE + 1.
Proof using Type. assert (0 <= zlen b / MAX_VALUE); [|lia]. apply Z.div_pos; [apply zlen_nonneg|done]. Qed.

Lemma map_entries_keys v m :
  map fst (map_entries v (Some m)) = map (mkKey v EXTENT) (sorted_keys (extents m)) ++ map (mkKey v PARITY) (sorted_keys (parity m)).
Proof using Type.
  cbn [map_entries]. rewrite map_app, !map_map. cbn [extent_entry parity_entry fst].
  rewrite <- !map_fst_entries, !map_map. done.
Qed.

Lemma NoDup_keys v kd l : NoDup l -> NoDup (map (mkKey v kd) l).
Proof using Type. intros H. apply NoDup_fmap_2; [|done]. intros x y [= ->]. done. Qed.

Lemma all_of_NoDup v b om : NoDup (map fst (header_entries v b ++ map_entries v om)).
Proof using Type.
  rewrite map_app, header_keys. apply NoDup_app. split; [apply NoDup_keys, NoDup_zseq|]. split.
  - intros k Hk Hk'. apply list_elem_of_fmap in Hk as (i & -> & _). destruct om as [m|]; [|by apply elem_of_nil in Hk'].
    rewrite map_entries_keys in Hk'. apply elem_of_app in Hk' as [Hk'|Hk']; apply list_elem_of_fmap in Hk' as (j & Hj & _); discriminate Hj.
  - destruct om as [m|]; [|constructor]. rewrite map_entries_keys. apply NoDup_app. split; [apply NoDup_keys, sort_dedup_NoDup|].
    split; [|apply NoDup_keys, sort_dedup_NoDup]. intros k Hk Hk'.
    apply list_elem_of_fmap in Hk as (i & -> & _). apply list_elem_of_fmap in Hk' as (j & Hj & _). discriminate Hj.
Qed.

Lemma elem_of_map_entries v om kb :
  kb ∈ map_entries v om <-> exists m, om = Some m /\
    ((exists k l, extents m !! k = Some l /\ kb = extent_entry enc_loc v k l) \/ (exists k p, parity m !! k = Some p /\ kb = parity_entry enc_group v k p)).
Proof using Type.
  destruct om as [m|]; cbn [map_entries]; [|split; [by intros ?%elem_of_nil|by intros (? & ? & _)]].
  rewrite elem_of_app, !list_elem_of_fmap. split.
  - intros [([k l] & -> & Hin%elem_of_entries)|([k p] & -> & Hin%elem_of_entries)]; exists m; (split; [done|]); [left|right]; eauto.
  - intros (? & [= <-] & [(k & l & Hl & ->)|(k & p & Hp & ->)]); [left; exists (k, l)|right; exists (k, p)];
      (split; [done|by apply elem_of_entries]).
Qed.

(** Written whole over a store with nothing of the volume. *)
Lemma whole_holds v b om st :
  (forall k, k_vol k = v -> k_kind k <> DOC -> st !! k = None) ->
  holds_map (apply_ops st (put_all (header_entries v b ++ map_entries v om))) v
    (fun k => m ← om; extents m !! k) (fun k => m ← om; parity m !! k).
Proof using Type.
  intros Hst. set (es := header_entries v b ++ map_entries v om).
  pose proof (all_of_NoDup v b om) as Hnd. fold es in Hnd. rewrite apply_put_all by done.
  assert (forall k bs, k_vol k = v -> k_kind k <> DOC -> ((list_to_map es : Store) ∪ st) !! k = Some bs <-> (k, bs) ∈ es) as Hl.
  { intros k bs Hk Hd. rewrite lookup_union, (Hst k Hk Hd), (right_id_L None union). by rewrite elem_of_list_to_map. }
  assert (forall i bs, (mkKey v HEADER i, bs) ∉ map_entries v om) as Hmh.
  { intros i bs (m & _ & [(k & l & _ & E)|(k & p & _ & E)])%elem_of_map_entries; discriminate E. }
  split; [|split].
  - assert (mkKey v HEADER 0 ∈ map fst es) as Hin.
    { unfold es. rewrite map_app, elem_of_app, header_keys. left. apply list_elem_of_fmap. exists 0. split; [done|].
      apply elem_of_zrange. pose proof (header_count b). lia. }
    apply list_elem_of_fmap in Hin as ([k bs] & Ek & Hin). cbn in Ek. subst k. exists bs. by apply Hl.
  - intros k. apply option_eq. intros bs. rewrite Hl by done. unfold es. rewrite elem_of_app, elem_of_map_entries, fmap_Some. split.
    + intros [Hh|(m & -> & [(k' & l & Hl' & [= <- ->])|(k' & p & _ & E)])]; [|by exists l|discriminate E].
      apply list_elem_of_fmap in Hh as (i & E & _). discriminate E.
    + intros (l & El & ->). right. destruct om as [m|]; [|done]. exists m. split; [done|]. left. by exists k, l.
  - intros k. apply option_eq. intros bs. rewrite Hl by done. unfold es. rewrite elem_of_app, elem_of_map_entries, fmap_Some. split.
    + intros [Hh|(m & -> & [(k' & l & _ & E)|(k' & p & Hp' & [= <- ->])])]; [|discriminate E|by exists p].
      apply list_elem_of_fmap in Hh as (i & E & _). discriminate E.
    + intros (p & Ep & ->). right. destruct om as [m|]; [|done]. exists m. split; [done|]. right. by exists k, p.
Qed.

Lemma all_of_vols v b om : Forall (fun op => op_vol op = v) (put_all (header_entries v b ++ map_entries v om)).
Proof using Type.
  apply Forall_forall. intros op Hop. apply list_elem_of_fmap in Hop as ([k bs] & -> & Hin). cbn. apply elem_of_app in Hin as [Hin|Hin].
  - apply list_elem_of_fmap in Hin as (i & [= -> _] & _). done.
  - by apply elem_of_map_entries in Hin as (m & _ & [(? & ? & _ & [= -> _])|(? & ? & _ & [= -> _])]).
Qed.

(** ** A volume's changes *)

Lemma collect_cons {A B} (f : A -> result Panic (list B)) x l os :
  collect f (x :: l) = Ok os -> exists a b, f x = Ok a /\ collect f l = Ok b /\ os = a ++ b.
Proof using Type.
  cbn [collect]. intros H. apply rbind_ok in H as (a & Ha & H). apply rbind_ok in H as (b & Hb & [= <-]). by exists a, b.
Qed.

(** One kind of key of a volume set to what [val] says, or deleted. *)
Definition set_op (id : VolumeId) (kd : Z) (val : Z -> option bytes) (v : Z) : Op :=
  match val v with Some b => Put (mkKey id kd v) b | None => Del (mkKey id kd v) end.

Lemma set_op_vol id kd val v : op_vol (set_op id kd val v) = id.
Proof using Type. unfold set_op. by destruct (val v). Qed.

Lemma set_ops_lookup id kd val l : forall st k,
  apply_ops st (map (set_op id kd val) l) !! k
  = if decide (k_vol k = id /\ k_kind k = kd /\ k_idx k ∈ l) then val (k_idx k) else st !! k.
Proof using Type.
  clear enc_loc dec_loc enc_group dec_group hash. induction l as [|v l IH]; intros st k.
  { rewrite decide_False; [done|]. by intros (_ & _ & ?%elem_of_nil). }
  cbn [map apply_ops foldl]. fold (apply_ops (apply_op st (set_op id kd val v)) (map (set_op id kd val) l)). rewrite IH.
  assert (apply_op st (set_op id kd val v) !! k = if decide (k = mkKey id kd v) then val v else st !! k) as ->.
  { unfold set_op. destruct (val v); cbn; destruct (decide (k = mkKey id kd v)) as [->|];
      rewrite ?lookup_insert_eq, ?lookup_delete_eq, ?lookup_insert_ne, ?lookup_delete_ne by done; done. }
  assert (k_vol k = id /\ k_kind k = kd /\ k_idx k ∈ v :: l <-> k = mkKey id kd v \/ (k_vol k = id /\ k_kind k = kd /\ k_idx k ∈ l)) as Hiff.
  { rewrite elem_of_cons. destruct k as [a b c]. cbn. split; [|naive_solver]. intros (-> & -> & [->|Hin]); [by left|by right]. }
  destruct (decide (k_vol k = id /\ k_kind k = kd /\ k_idx k ∈ v :: l)) as [Hd|Hd], (decide (k_vol k = id /\ k_kind k = kd /\ k_idx k ∈ l)) as [Hd'|Hd'],
    (decide (k = mkKey id kd v)) as [->|Hne]; try done; tauto.
Qed.

Lemma extent_ops_map g id l : forall os,
  collect (extent_op enc_loc g id) l = Ok os -> os = map (set_op id EXTENT (fun v => enc_loc <$> ext_at (volumes g) id v)) l.
Proof using Type.
  induction l as [|v l IH]; intros os H; [by injection H as <-|].
  apply collect_cons in H as (a & b & Ha & Hb & ->). rewrite (IH b Hb). unfold extent_op in Ha.
  apply rbind_ok in Ha as (ol & Hol & [= <-]). unfold lookup in Hol. apply rbind_ok in Hol as (_ & _ & [= <-]).
  fold (ext_at (volumes g) id v). cbn [map app]. unfold set_op. by destruct (ext_at (volumes g) id v).
Qed.
Lemma parity_ops_map g id l : forall os,
  collect (parity_op enc_group g id) l = Ok os -> os = map (set_op id PARITY (fun v => enc_group <$> par_at (volumes g) id v)) l.
Proof using Type.
  induction l as [|v l IH]; intros os H; [by injection H as <-|].
  apply collect_cons in H as (a & b & Ha & Hb & ->). rewrite (IH b Hb). unfold parity_op in Ha.
  apply rbind_ok in Ha as (ol & Hol & [= <-]). unfold lookup_parity in Hol. apply rbind_ok in Hol as (_ & _ & [= <-]).
  fold (par_at (volumes g) id v). cbn [map app]. unfold set_op. by destruct (par_at (volumes g) id v).
Qed.

Lemma header_ops_spec id b old :
  Forall (fun op => op_vol op = id) (header_ops hash id b old)
  /\ forall st, (forall k, k_kind k <> HEADER -> apply_ops st (header_ops hash id b old) !! k = st !! k)
           /\ (is_Some (st !! mkKey id HEADER 0) -> is_Some (apply_ops st (header_ops hash id b old) !! mkKey id HEADER 0)).
Proof using Type.
  clear enc_loc dec_loc enc_group dec_group. unfold header_ops. destruct (fst old =? hash b); [split; [constructor|done]|].
  set (dels := map _ (zrange (header_chunks (zlen b)) (snd old))).
  assert (dels = map (set_op id HEADER (fun _ => None)) (zrange (header_chunks (zlen b)) (snd old))) as -> by done.
  assert (NoDup (map fst (header_entries id b))) as Hnd by (rewrite header_keys; apply NoDup_keys, NoDup_zseq).
  split.
  - apply Forall_app. split; apply Forall_forall; intros op Hop; apply list_elem_of_fmap in Hop as (x & -> & Hx); [|apply set_op_vol].
    apply list_elem_of_fmap in Hx as (i & -> & _). done.
  - intros st. split.
    + intros k Hk. rewrite apply_ops_app, set_ops_lookup, decide_False by tauto. rewrite apply_put_all by done. apply lookup_union_r.
      apply not_elem_of_list_to_map_1. change (k ∉ map fst (header_entries id b)). rewrite header_keys. intros (i & -> & _)%list_elem_of_fmap. done.
    + intros [x Hx]. rewrite apply_ops_app, set_ops_lookup. rewrite decide_False.
      2: { intros (_ & _ & Hin%elem_of_zrange). cbn in Hin. pose proof (header_count b). unfold header_chunks in Hin. lia. }
      rewrite apply_put_all by done. apply lookup_union_is_Some. right. by exists x.
Qed.

(** ** A volume a persist carries *)

Definition good (g : GlobalExtentMap) (aw : gmap VolumeId VolumeExtentMap) (ch : Changes) (st : Store) (v : VolumeId) : Prop :=
  is_Some (st !! mkKey v HEADER 0)
  /\ (forall k, ~ recorded_ext ch v k -> st !! mkKey v EXTENT k = enc_loc <$> ext_at (volumes g ∪ aw) v k)
  /\ (forall k, ~ recorded_par ch v k -> st !! mkKey v PARITY k = enc_group <$> par_at (volumes g ∪ aw) v k).

(** Maps out of memory: exactly the cold ones, and nothing recorded of them. *)
Definition away_ok (g : GlobalExtentMap) (aw : gmap VolumeId VolumeExtentMap) : Prop :=
  forall v, is_Some (aw !! v) <-> is_Some (cold g !! v).

Lemma at_resident g aw v :
  away_ok g aw -> cold g !! v = None -> (volumes g ∪ aw) !! v = volumes g !! v.
Proof using Type.
  intros Ha Hc. rewrite lookup_union. destruct (aw !! v) eqn:E; [|by rewrite (right_id_L None union)].
  destruct (proj1 (Ha v)) as [c Hc']; [by eexists|congruence].
Qed.

Lemma member_spec g aw h m os :
  gwf g -> away_ok g aw -> member_ops' g (changes g) h m = Ok os ->
  Forall (fun op => op_vol op = fst m) os
  /\ forall st, (forall old, h !! fst m = Some old -> good g aw (changes g) st (fst m)) -> good g aw no_changes (apply_ops st os) (fst m).
Proof using Type.
  clear dec_loc dec_group. intros Hg Ha H. destruct m as [id b]. unfold member_ops in H. cbn [fst].
  assert (forall es, all_of' g id b = Ok es -> os = DropVolume id :: put_all es ->
    Forall (fun op => op_vol op = id) os /\ forall st, good g aw no_changes (apply_ops st os) id) as Hwhole.
  { intros es [Hc ->]%all_of_ok ->. split; [constructor; [done|apply all_of_vols]|]. intros st.
    cbn [apply_ops foldl apply_op]. fold (apply_ops (drop_volume id st) (put_all (header_entries id b ++ map_entries id (volumes g !! id)))).
    destruct (whole_holds id b (volumes g !! id) (drop_volume id st)) as (H1 & H2 & H3); [intros k Hk _; by apply drop_volume_own|].
    unfold good, ext_at, par_at. rewrite (at_resident g aw id Ha Hc). split; [done|]. by split; intros k _. }
  destruct (h !! id) as [old|] eqn:Eh; [|apply rbind_ok in H as (es & Hes & [= <-]); destruct (Hwhole es Hes eq_refl) as [? ?]; by split].
  destruct (decide (id ∈ ch_whole (changes g))) as [Hw|Hw].
  { apply rbind_ok in H as (es & Hes & [= <-]). destruct (Hwhole es Hes eq_refl) as [? ?]. by split. }
  apply rbind_ok in H as (eo & Heo & H). apply rbind_ok in H as (po & Hpo & [= <-]).
  assert (cold g !! id = None \/ (ch_extents (changes g) !! id = None /\ ch_parity (changes g) !! id = None)) as Hcold.
  { destruct (cold g !! id) as [c|] eqn:Ec; [right|by left]. destruct (gwf_cold _ Hg _ _ Ec) as [_ Hn].
    unfold ch_volumes in Hn. rewrite !not_elem_of_union, !not_elem_of_dom in Hn. tauto. }
  apply extent_ops_map in Heo as ->. apply parity_ops_map in Hpo as ->.
  destruct (header_ops_spec id b old) as [Hhv Hh]. split.
  { apply Forall_app. split; [done|]. apply Forall_app. split; apply Forall_forall; intros op (v & -> & _)%list_elem_of_fmap; apply set_op_vol. }
  intros st Hst. destruct (Hst old eq_refl) as (G1 & G2 & G3). clear Hst. destruct (Hh st) as [Hh1 Hh2].
  unfold good. rewrite !apply_ops_app. split; [|split; intros k _].
  - rewrite !set_ops_lookup, !decide_False by (by intros (_ & E & _)). by apply Hh2.
  - rewrite set_ops_lookup, decide_False by (by intros (_ & E & _)). rewrite set_ops_lookup. cbn [k_vol k_kind k_idx].
    destruct (decide (k ∈ elements (default ∅ (ch_extents (changes g) !! id)))) as [Hk|Hk].
    + rewrite decide_True by done. destruct Hcold as [Hc|[E _]]; [|rewrite E in Hk; by apply elem_of_nil in Hk].
      unfold ext_at. by rewrite (at_resident g aw id Ha Hc).
    + rewrite decide_False by tauto. rewrite Hh1 by done. apply G2. unfold recorded_ext. rewrite elem_of_elements in Hk. tauto.
  - rewrite set_ops_lookup. cbn [k_vol k_kind k_idx].
    destruct (decide (k ∈ elements (default ∅ (ch_parity (changes g) !! id)))) as [Hk|Hk].
    + rewrite decide_True by done. destruct Hcold as [Hc|[_ E]]; [|rewrite E in Hk; by apply elem_of_nil in Hk].
      unfold par_at. by rewrite (at_resident g aw id Ha Hc).
    + rewrite decide_False by tauto. rewrite set_ops_lookup, decide_False by (by intros (_ & E & _)). rewrite Hh1 by done. apply G3.
      unfold recorded_par. rewrite elem_of_elements in Hk. tauto.
Qed.
End Proofs.

(** An operation that leaves the map of volume [v] in the store as it is. *)
Definition harmless (v : VolumeId) (op : Op) : Prop :=
  match op with
  | Put k _ => k_vol k = v -> k_kind k <> EXTENT /\ k_kind k <> PARITY
  | Del k => k_vol k = v -> k_kind k = HEADER /\ k_idx k <> 0
  | DropVolume w => w <> v
  end.

Lemma harmless_other v op : op_vol op <> v -> harmless v op.
Proof. destruct op; cbn; [done|done|done]. Qed.

Lemma harmless_keeps v (os : list Op) : forall st : Store,
  Forall (harmless v) os ->
  (is_Some (st !! mkKey v HEADER 0) -> is_Some (apply_ops st os !! mkKey v HEADER 0))
  /\ forall kd k, kd = EXTENT \/ kd = PARITY -> apply_ops st os !! mkKey v kd k = st !! mkKey v kd k.
Proof.
  induction os as [|op os IH]; intros st Hos; [done|]. apply Forall_cons in Hos as [Hop Hos].
  cbn [apply_ops foldl]. fold (apply_ops (apply_op st op) os). destruct (IH (apply_op st op) Hos) as [H1 H2].
  assert (forall k, k_vol k = v -> forall w, w <> v -> drop_volume w st !! k = st !! k) as Hdrop.
  { intros k Hk w Hw. apply (apply_other [DropVolume w] st k). constructor; [cbn; congruence|constructor]. }
  split.
  - intros [x Hx]. apply H1. destruct op as [k b|k|w]; cbn [apply_op harmless] in *.
    + destruct (decide (k = mkKey v HEADER 0)) as [->|]; [rewrite lookup_insert_eq; by eexists|].
      rewrite lookup_insert_ne by done. by eexists.
    + rewrite lookup_delete_ne; [by eexists|]. intros ->. by destruct Hop as [_ Hop].
    + rewrite Hdrop by done. by eexists.
  - intros kd k Hkd. rewrite H2 by done. destruct op as [k' b|k'|w]; cbn [apply_op harmless] in *.
    + apply lookup_insert_ne. intros ->. destruct Hop as [He Hp]; [done|]. cbn in *. by destruct Hkd.
    + apply lookup_delete_ne. intros ->. destruct Hop as [Hh _]; [done|]. cbn in Hh. subst kd. by destruct Hkd.
    + by rewrite Hdrop.
Qed.

Section Take.
Context (enc_loc : ExtentLocation -> bytes) (enc_group : ParityGroup -> bytes) (hash : bytes -> Z).

Abbreviation all_of' := (all_of enc_loc enc_group).
Abbreviation member_ops' := (member_ops enc_loc enc_group hash).
Abbreviation members_ops' := (members_ops enc_loc enc_group hash).
Abbreviation good' := (good enc_loc enc_group).

(** [good] reads only the volume's own entries. *)
Lemma good_same_store g aw ch (st st' : Store) v :
  (forall k, k_vol k = v -> st' !! k = st !! k) -> good' g aw ch st v -> good' g aw ch st' v.
Proof using Type.
  intros Heq (H1 & H2 & H3). split; [by rewrite Heq|]. split; intros k Hk; rewrite Heq by done; auto.
Qed.

Lemma good_others g aw ch st os v :
  Forall (fun op => op_vol op <> v) os -> good' g aw ch st v -> good' g aw ch (apply_ops st os) v.
Proof using Type.
  intros Hos. apply good_same_store. intros k Hk. apply apply_other. by rewrite Hk.
Qed.

(** What is recorded may grow and maps may move in and out of memory: [good] follows. *)
Lemma good_change g aw ch g' aw' ch' st v :
  (forall k, recorded_ext ch v k -> recorded_ext ch' v k) -> (forall k, recorded_par ch v k -> recorded_par ch' v k) ->
  (forall k, ~ recorded_ext ch' v k -> ext_at (volumes g' ∪ aw') v k = ext_at (volumes g ∪ aw) v k) ->
  (forall k, ~ recorded_par ch' v k -> par_at (volumes g' ∪ aw') v k = par_at (volumes g ∪ aw) v k) ->
  good' g aw ch st v -> good' g' aw' ch' st v.
Proof using Type.
  intros Me Mp He Hp (H1 & H2 & H3). split; [done|]. split; intros k Hk; [rewrite He by done|rewrite Hp by done]; auto.
Qed.

(** ** One volume out of memory *)

Lemma header_ops_harmless v b old : Forall (harmless v) (header_ops hash v b old).
Proof using Type.
  clear enc_loc enc_group. unfold header_ops. destruct (fst old =? hash b); [constructor|]. apply Forall_app. split; apply Forall_forall; intros op Hop.
  - apply list_elem_of_fmap in Hop as (x & -> & Hx). apply list_elem_of_fmap in Hx as (i & -> & _). done.
  - apply list_elem_of_fmap in Hop as (i & -> & Hi%elem_of_zrange). cbn. intros _. split; [done|].
    pose proof (header_count b). unfold header_chunks in Hi. lia.
Qed.

Lemma member_vols g ch h m os : member_ops' g ch h m = Ok os -> gwf g -> ch = changes g -> Forall (fun op => op_vol op = fst m) os.
Proof using Type.
  intros H Hg ->. set (aw := (fun _ => vmap0) <$> cold g : gmap VolumeId VolumeExtentMap).
  apply (member_spec enc_loc enc_group hash g aw h m os Hg); [|done]. intros v. unfold aw. rewrite lookup_fmap. apply fmap_is_Some.
Qed.

Lemma cold_member g h v b os c :
  gwf g -> cold g !! v = Some c -> member_ops' g (changes g) h (v, b) = Ok os -> is_Some (h !! v) /\ Forall (harmless v) os.
Proof using Type.
  intros Hg Hc H. unfold member_ops in H.
  assert (forall es, all_of' g v b = Ok es -> False) as Hno by (intros es [Hn _]%all_of_ok; congruence).
  destruct (gwf_cold _ Hg _ _ Hc) as [_ Hn]. unfold ch_volumes in Hn. rewrite !not_elem_of_union, !not_elem_of_dom in Hn.
  destruct Hn as [[Hw He] Hp].
  destruct (h !! v) as [old|] eqn:Eh; [|apply rbind_ok in H as (es & Hes & _); by destruct (Hno es)]. split; [by eexists|].
  rewrite decide_False, He, Hp in H by done. change (elements (default ∅ None)) with (@nil Z) in H. change (elements (∅ : gset Z)) with (@nil Z) in H. cbn [collect rbind] in H.
  injection H as <-. rewrite app_nil_r. apply header_ops_harmless.
Qed.

(** ** All of them *)

Lemma members_spec g aw ms : forall h os h',
  gwf g -> away_ok g aw -> NoDup (map fst ms) -> members_ops' g (changes g) h ms = Ok (os, h') ->
  (forall v, is_Some (h' !! v) <-> v ∈ map fst ms \/ is_Some (h !! v))
  /\ Forall (fun op => op_vol op ∈ map fst ms) os
  /\ (forall st v, v ∈ map fst ms -> (is_Some (h !! v) -> good' g aw (changes g) st v) -> good' g aw no_changes (apply_ops st os) v)
  /\ (forall v, is_Some (cold g !! v) -> (v ∈ map fst ms -> is_Some (h !! v)) /\ Forall (harmless v) os).
Proof using Type.
  induction ms as [|m ms IH]; intros h os h' Hg Ha Hnd H; cbn [members_ops map] in *.
  { injection H as <- <-. split; [intros v; rewrite elem_of_nil; tauto|]. split; [constructor|].
    split; [by intros st v ?%elem_of_nil|]. intros v _. split; [by intros ?%elem_of_nil|constructor]. }
  apply NoDup_cons in Hnd as [Hm Hnd]. apply rbind_ok in H as (o & Ho & H). apply rbind_ok in H as ([os2 h2] & H2 & [= <- <-]). cbn [fst snd].
  destruct (IH _ _ _ Hg Ha Hnd H2) as (Hh & Hv & Hgood & Hcold).
  destruct (member_spec enc_loc enc_group hash g aw h m o Hg Ha Ho) as [Hov Hog].
  assert (forall v, v <> fst m -> hold hash m h !! v = h !! v) as Hne by (intros v Hne; by apply lookup_insert_ne).
  assert (hold hash m h !! fst m = Some (hash (snd m), header_chunks (zlen (snd m)))) as Heq by apply lookup_insert_eq.
  split; [|split; [|split]].
  - intros v. rewrite Hh, elem_of_cons. destruct (decide (v = fst m)) as [->|E]; [|rewrite Hne by done; tauto].
    rewrite Heq. split; [by left; left|]. intros _. right. by eexists.
  - apply Forall_app. split; [eapply Forall_impl; [exact Hov|intros op ->; by left]|].
    eapply Forall_impl; [exact Hv|]. intros op Hop. by right.
  - intros st v Hin Hst. rewrite apply_ops_app. rewrite elem_of_cons in Hin. destruct (decide (v = fst m)) as [->|E].
    + apply good_others; [|apply Hog; intros old Hold; apply Hst; by eexists]. eapply Forall_impl; [exact Hv|]. intros op Hop E. apply Hm. rewrite <- E. exact Hop.
    + apply Hgood; [by destruct Hin|]. intros Hs. rewrite Hne in Hs by done. apply good_others; [|by apply Hst].
      eapply Forall_impl; [exact Hov|]. intros op E'; congruence.
  - intros v [c Hc]. destruct (Hcold v ltac:(by eexists)) as [Hc1 Hc2]. destruct (decide (v = fst m)) as [->|E].
    + destruct m as [w b]. cbn [fst] in *. destruct (cold_member g h w b o c Hg Hc Ho) as [Hs Hharm]. split; [done|].
      apply Forall_app. by split.
    + split; [intros Hin; rewrite elem_of_cons in Hin; destruct Hin as [->|Hin]; [done|]; rewrite <- (Hne v E); by apply Hc1|].
      apply Forall_app. split; [|done]. eapply Forall_impl; [exact Hov|]. intros op Hop. apply harmless_other. congruence.
Qed.

(** ** The whole store *)

Lemma full_spec g aw ms : forall st es,
  away_ok g aw -> NoDup (map fst ms) -> collect (fun m => all_of' g (fst m) (snd m)) ms = Ok es ->
  (forall k, k_vol k ∈ map fst ms -> k_kind k <> DOC -> st !! k = None) ->
  (forall v, v ∈ map fst ms -> cold g !! v = None /\ good' g aw no_changes (apply_ops st (put_all es)) v).
Proof using Type.
  clear hash. induction ms as [|m ms IH]; intros st es Ha Hnd H Hst v Hv; [by apply elem_of_nil in Hv|].
  cbn [map] in Hnd, Hst. apply NoDup_cons in Hnd as [Hm Hnd]. apply collect_cons in H as (a & b & Hcold & Hb & ->).
  apply all_of_ok in Hcold as [Hcold ->]. rewrite put_all_app, apply_ops_app.
  set (st1 := apply_ops st _). cbn [map] in Hv. rewrite elem_of_cons in Hv.
  assert (forall k, k_vol k <> fst m -> st1 !! k = st !! k) as Hother.
  { intros k Hk. apply apply_other. eapply Forall_impl; [apply all_of_vols|]. intros op ->. congruence. }
  assert (forall w, w ∈ map fst ms -> cold g !! w = None /\ good' g aw no_changes (apply_ops st1 (put_all b)) w) as Hrest.
  { apply IH; [done|done|done|]. intros k Hk Hd. rewrite Hother by (intros E; apply Hm; by rewrite <- E).
    apply Hst; [by right|done]. }
  destruct (decide (v ∈ map fst ms)) as [Hin|Hout]; [by apply Hrest|]. destruct Hv as [->|]; [|done]. split; [done|].
  assert (Forall (fun op => op_vol op <> fst m) (put_all b)) as Hbv.
  { clear -Hb Hm. revert b Hb. induction ms as [|m' ms IH]; intros b Hb; [by injection Hb as <-; constructor|].
    apply collect_cons in Hb as (a' & b' & Ha' & Hb' & ->). apply all_of_ok in Ha' as [_ ->]. rewrite put_all_app. apply Forall_app.
    cbn [map] in Hm. rewrite not_elem_of_cons in Hm. destruct Hm as [Hne Hm].
    split; [|by apply IH]. eapply Forall_impl; [apply all_of_vols|]. intros op ->. congruence. }
  apply good_others; [done|].
  destruct (whole_holds enc_loc enc_group (fst m) (snd m) (volumes g !! fst m) st) as (H1 & H2 & H3).
  { intros k Hk Hd. apply Hst; [rewrite Hk; by left|done]. }
  unfold good, ext_at, par_at. rewrite (at_resident g aw (fst m) Ha Hcold). split; [done|]. by split; intros k _.
Qed.

Lemma held_all ms : forall (h : gmap VolumeId (Z * Z)) v,
  is_Some (foldl (fun h m => hold hash m h) h ms !! v) <-> v ∈ map fst ms \/ is_Some (h !! v).
Proof using Type.
  clear enc_loc enc_group. induction ms as [|m ms IH]; intros h v; cbn [foldl map]; [rewrite elem_of_nil; tauto|].
  rewrite IH, elem_of_cons. unfold hold. destruct (decide (v = fst m)) as [->|E].
  - rewrite lookup_insert_eq. split; [by left; left|]. intros _. right. by eexists.
  - rewrite lookup_insert_ne by done. tauto.
Qed.

Lemma held_less (gone : list VolumeId) (h : gmap VolumeId (Z * Z)) v :
  foldr delete h gone !! v = if decide (v ∈ gone) then None else h !! v.
Proof using Type.
  clear enc_loc enc_group hash. induction gone as [|w gone IH]; cbn [foldr]; [by rewrite decide_False by apply not_elem_of_nil|].
  destruct (decide (v = w)) as [->|E]; [rewrite lookup_delete_eq, decide_True by (by left); done|].
  rewrite lookup_delete_ne, IH by done. destruct (decide (v ∈ gone)) as [Hi|Hi].
  - by rewrite decide_True by (by right).
  - by rewrite decide_False by (rewrite elem_of_cons; tauto).
Qed.

(** ** A sink's part of a persist *)

(** What a batch does to the store when it is written in its turn. *)
Definition run_batch (e : Z) (st : Store) (b : Batch) : Store :=
  match full b with
  | Some f => replace_all (fst f)
  | None => if decide (b_epoch b = e) then apply_ops st (ops b) else st
  end.

Record taken_ok (g : GlobalExtentMap) (aw : gmap VolumeId VolumeExtentMap) (ms : list (VolumeId * bytes)) (s s' : SinkState)
    (new : list Batch) : Prop := mkTaken {
  to_epoch : epoch s' = epoch s;
  to_held : forall v, is_Some (held s' !! v) <-> v ∈ map fst ms;
  to_good : forall st v, v ∈ map fst ms ->
    (need_full s = false -> is_Some (held s !! v) -> good' g aw (changes g) st v) ->
    good' g aw no_changes (foldl (run_batch (epoch s)) st new) v;
  to_cold : forall v, is_Some (cold g !! v) -> v ∈ map fst ms ->
    is_Some (held s !! v) /\ Forall (fun b => full b = None /\ Forall (harmless v) (ops b)) new }.

Definition new_batches (ob : option Batch) : list Batch := if ob is Some b then [b] else [].

Lemma take_full_ok g aw doc_val ms s s' ob :
  away_ok g aw -> NoDup (map fst ms) -> need_full s = true ->
  take_sink enc_loc enc_group hash g (changes g) doc_val ms s = Ok (s', ob) -> taken_ok g aw ms s s' (new_batches ob).
Proof using Type.
  intros Ha Hnd Hf H. unfold take_sink in H. rewrite Hf in H. apply rbind_ok in H as (es & Hes & [= <- <-]).
  split; cbn [epoch held new_batches foldl].
  - done.
  - intros v. rewrite held_all, lookup_empty. split; [intros [|[? ?]]; done|by left].
  - intros st v Hv _. cbn [run_batch full fst]. rewrite replace_all_puts. cbn [put_all map apply_ops foldl apply_op fst snd].
    fold (put_all es). fold (apply_ops (<[doc_key := doc_val]> ∅) (put_all es)).
    apply (full_spec g aw ms); [done|done|done| |done]. intros k _ Hk. rewrite lookup_insert_ne; [by apply lookup_empty|].
    intros <-. done.
  - intros v [c Hc] Hv. exfalso. destruct (full_spec g aw ms ∅ es Ha Hnd Hes) with (v := v) as [Hn _]; [|done|congruence].
    intros. apply lookup_empty.
Qed.

Lemma take_changes_ok g aw doc_val ms s s' ob :
  gwf g -> away_ok g aw -> NoDup (map fst ms) -> need_full s = false ->
  take_sink enc_loc enc_group hash g (changes g) doc_val ms s = Ok (s', ob) -> taken_ok g aw ms s s' (new_batches ob).
Proof using Type.
  intros Hg Ha Hnd Hf H. unfold take_sink in H. rewrite Hf in H.
  set (docs := if decide _ then _ else _) in H. set (gone := filter _ _) in H. apply rbind_ok in H as ([os h'] & Hms & [= <- Hob]).
  cbn [fst snd] in *. set (all := docs ++ map DropVolume gone ++ os) in Hob.
  assert (forall v, v ∈ gone <-> is_Some (held s !! v) /\ v ∉ map fst ms) as Hgone.
  { intros v. unfold gone. rewrite list_elem_of_filter. split.
    - intros [Hn Hin]. apply list_elem_of_fmap in Hin as ([w x] & -> & Hin%elem_of_map_to_list). split; [by eexists|done].
    - intros [[x Hx] Hn]. split; [done|]. apply list_elem_of_fmap. exists (v, x). split; [done|by apply elem_of_map_to_list]. }
  assert (forall v, is_Some (foldr delete (held s) gone !! v) <-> v ∈ map fst ms /\ is_Some (held s !! v)) as Hkept.
  { intros v. rewrite held_less. specialize (Hgone v). destruct (decide (v ∈ gone)) as [Hi|Hi].
    - split; [by intros [? ?]|]. intros [Hin _]. by apply Hgone in Hi as [_ Hn].
    - split; [|by intros [_ ?]]. intros Hs. split; [|done]. destruct (decide (v ∈ map fst ms)) as [|Hn]; [done|]. by destruct Hi; apply Hgone. }
  destruct (members_spec g aw ms _ _ _ Hg Ha Hnd Hms) as (Hh & _ & Hgood & Hcold).
  assert (Forall (fun op => exists b, op = Put doc_key b) docs) as Hdocs by (unfold docs; destruct (decide _); repeat constructor; by eexists).
  assert (forall v, v ∉ gone -> Forall (fun op => op_vol op <> v) (map DropVolume gone)) as Hdrops.
  { intros v Hv. apply Forall_forall. intros op (w & -> & Hw)%list_elem_of_fmap. cbn. intros ->. done. }
  assert (forall st, foldl (run_batch (epoch s)) st (new_batches ob) = apply_ops st all) as Hrun.
  { intros st. assert (ob = match all with [] => None | _ => Some (mkBatch (epoch s) None all) end) as -> by (by rewrite <- Hob).
    destruct all; [done|]. cbn [new_batches foldl run_batch full b_epoch ops]. by rewrite decide_True. }
  split; cbn [epoch held].
  - done.
  - intros v. rewrite Hh, Hkept. tauto.
  - intros st v Hv Hst. rewrite Hrun. unfold all. rewrite !apply_ops_app. apply Hgood; [done|]. intros [_ Hs]%Hkept.
    apply good_others; [apply Hdrops; rewrite Hgone; tauto|]. specialize (Hst Hf Hs).
    destruct Hst as (G1 & G2 & G3). destruct (harmless_keeps v docs st) as [K1 K2].
    { eapply Forall_impl; [exact Hdocs|]. intros op [b ->]. done. }
    split; [by apply K1|]. split; intros k Hk; rewrite K2 by tauto; auto.
  - intros v Hc Hv. destruct (Hcold v Hc) as [Hs Hharm]. specialize (Hs Hv). apply Hkept in Hs as [_ Hs]. split; [done|].
    assert (Forall (harmless v) all) as Hall.
    { apply Forall_app. split; [eapply Forall_impl; [exact Hdocs|]; intros op [b ->]; done|]. apply Forall_app. split; [|done].
      eapply Forall_impl; [apply (Hdrops v); rewrite Hgone; tauto|]. intros op Hop. by apply harmless_other. }
    assert (ob = match all with [] => None | _ => Some (mkBatch (epoch s) None all) end) as -> by (by rewrite <- Hob).
    clearbody all. destruct all as [|op all]; [apply Forall_nil_2|]. by apply Forall_singleton.
Qed.

Lemma take_ok g aw doc_val ms s s' ob :
  gwf g -> away_ok g aw -> NoDup (map fst ms) ->
  take_sink enc_loc enc_group hash g (changes g) doc_val ms s = Ok (s', ob) -> taken_ok g aw ms s s' (new_batches ob).
Proof using Type.
  intros Hg Ha Hnd H. destruct (need_full s) eqn:Hf; [by eapply take_full_ok|by eapply take_changes_ok].
Qed.
End Take.
