(* ===== verification/PersistLaws.v ===== *)
(** A map that left memory comes back as it left: the invariant of one sink, over every
    order of persists, writes, failures and paging, when a failed write is marked before
    anything else is written; and what happens when it is not. Runs of one sink, evaluated:
    a map that leaves memory and comes back; a batch written over a failure that is marked
    too late; a map of parity groups alone. *)

From S2P Require Import Prelude GemData ExtMap Gem GemProofs GemLaws PersistV2 PersistProofs.
Section Exact.
Context (enc_loc : ExtentLocation -> bytes) (enc_group : ParityGroup -> bytes).
(** The store's entries of volume [v] say [m], and its header is there. *)
Definition exact (st : Store) (v : VolumeId) (m : VolumeExtentMap) : Prop :=
  is_Some (st !! mkKey v HEADER 0)
  /\ (forall k, st !! mkKey v EXTENT k = enc_loc <$> extents m !! k)
  /\ (forall k, st !! mkKey v PARITY k = enc_group <$> parity m !! k).

End Exact.

(** ** Reading a volume back *)

Section Read.
Context (enc_loc : ExtentLocation -> bytes) (dec_loc : bytes -> option ExtentLocation).
Context (enc_group : ParityGroup -> bytes) (dec_group : bytes -> option ParityGroup).
Hypothesis dec_enc_loc : forall l, dec_loc (enc_loc l) = Some l.
Hypothesis dec_enc_group : forall p, dec_group (enc_group p) = Some p.

Abbreviation exact := (exact enc_loc enc_group).
Abbreviation read_entry' := (read_entry dec_loc dec_group).
Definition entry_ok (v : VolumeId) (kb : Key * bytes) : Prop :=
  k_vol (fst kb) = v
  /\ (k_kind (fst kb) = EXTENT -> is_Some (dec_loc (snd kb)))
  /\ (k_kind (fst kb) = PARITY -> is_Some (dec_group (snd kb))).

Lemma read_entries v L : forall h m,
  NoDup (map fst L) -> Forall (entry_ok v) L ->
  exists h' m', foldl read_entry' (Some (h, m)) L = Some (h', m')
    /\ (h = true \/ (exists kb, kb ∈ L /\ k_kind (fst kb) = HEADER) -> h' = true)
    /\ (forall i, extents m' !! i = match (list_to_map L : Store) !! mkKey v EXTENT i with Some b => dec_loc b | None => extents m !! i end)
    /\ (forall i, parity m' !! i = match (list_to_map L : Store) !! mkKey v PARITY i with Some b => dec_group b | None => parity m !! i end).
Proof using Type.
  induction L as [|[k b] L IH]; intros h m Hnd Hok.
  { exists h, m. split; [done|]. split; [intros [|(? & ?%elem_of_nil & _)]; done|]. by split; intros i. }
  cbn [map fst] in Hnd. apply NoDup_cons in Hnd as [Hk Hnd]. apply Forall_cons in Hok as [(Hv & He & Hp) Hok]. cbn [fst snd] in *.
  assert ((list_to_map L : Store) !! k = None) as Hno by (by apply not_elem_of_list_to_map_1).
  assert (exists h1 m1, read_entry' (Some (h, m)) (k, b) = Some (h1, m1) /\ (h = true \/ k_kind k = HEADER -> h1 = true)
    /\ (forall i, extents m1 !! i = if decide (k = mkKey v EXTENT i) then dec_loc b else extents m !! i)
    /\ (forall i, parity m1 !! i = if decide (k = mkKey v PARITY i) then dec_group b else parity m !! i)) as (h1 & m1 & E1 & Hh & Hext & Hpar).
  { destruct k as [w kd idx]. cbn [k_vol k_kind k_idx] in *. subst w. unfold read_entry'. cbn [mbind option_bind fst snd k_kind k_idx].
    destruct (Z.eqb_spec kd HEADER) as [->|]; [exists true, m; split; [done|]; split; [done|]; by split; intros i; rewrite decide_False|].
    destruct (Z.eqb_spec kd EXTENT) as [->|].
    - destruct (He eq_refl) as [l El]. rewrite El. cbn [mbind option_bind]. do 2 eexists. split; [done|]. split; [by intros [|]|].
      split; intros i; [|by rewrite decide_False]. cbn [set_extents extents]. destruct (decide (idx = i)) as [->|Hne].
      + by rewrite lookup_insert_eq, decide_True.
      + rewrite lookup_insert_ne, decide_False by congruence. done.
    - destruct (Z.eqb_spec kd PARITY) as [->|].
      + destruct (Hp eq_refl) as [p Ep]. rewrite Ep. cbn [mbind option_bind]. do 2 eexists. split; [done|]. split; [by intros [|]|].
        split; intros i; [by rewrite decide_False|]. cbn [set_parity parity]. destruct (decide (idx = i)) as [->|Hne].
        * by rewrite lookup_insert_eq, decide_True.
        * rewrite lookup_insert_ne, decide_False by congruence. done.
      + exists h, m. split; [done|]. split; [by intros [|]|]. by split; intros i; rewrite decide_False by congruence. }
  destruct (IH h1 m1 Hnd Hok) as (h' & m' & E & Hh' & He' & Hp'). exists h', m'. cbn [foldl]. rewrite E1. split; [done|]. split.
  { intros [Hh1|(kb & Hin & Hkb)]; [apply Hh'; left; by apply Hh; left|]. rewrite elem_of_cons in Hin. destruct Hin as [->|Hin].
    - apply Hh'. left. apply Hh. by right.
    - apply Hh'. right. by exists kb. }
  rewrite list_to_map_cons. split; intros i; [rewrite He', Hext|rewrite Hp', Hpar]; destruct (decide (k = mkKey v _ i)) as [->|Hne];
    rewrite ?lookup_insert_eq, ?lookup_insert_ne by done; try rewrite Hno; done.
Qed.

Lemma read_exact st v m : exact st v m -> map_of dec_loc dec_group (scan_volume v st) = Some (Some m).
Proof using dec_enc_loc dec_enc_group.
  intros ([hb Hh] & He & Hp). set (L := scan_volume v st).
  assert ((list_to_map L : Store) = filter (fun kv => k_vol (fst kv) = v) st) as HL by (symmetry; apply map_filter_alt).
  assert (forall kb, kb ∈ L <-> k_vol (fst kb) = v /\ st !! fst kb = Some (snd kb)) as Hin.
  { intros [k b]. unfold L, scan_volume. rewrite list_elem_of_filter, elem_of_map_to_list. done. }
  destruct (read_entries v L false vmap0) as (h' & m' & E & Ht & Hext & Hpar).
  - apply (sublist_NoDup _ (map fst (map_to_list st))); [apply NoDup_fst_map_to_list|]. apply fmap_sublist, sublist_filter.
  - apply Forall_forall. intros [[w kd i] b] [Hv Hst]%Hin. cbn [fst snd k_vol] in *. subst w. split; [done|].
    split; cbn; intros ->; [rewrite He in Hst|rewrite Hp in Hst]; apply fmap_Some in Hst as (x & _ & ->); by eexists.
  - unfold map_of. rewrite E. cbn [mbind option_bind fst snd].
    assert (h' = true) as ->.
    { apply Ht. right. exists (mkKey v HEADER 0, hb). split; [by apply Hin|done]. }
    assert (m' = m) as ->; [|done]. destruct m as [me mp], m' as [me' mp']. cbn [extents parity] in *. f_equal; apply map_eq; intros i.
    + rewrite Hext, HL. specialize (He i). destruct (me !! i) as [l|] eqn:El; cbn in He.
      * rewrite (map_lookup_filter_Some_2 _ _ _ _ He) by done. apply dec_enc_loc.
      * rewrite map_lookup_filter_None_2 by (by left). done.
    + rewrite Hpar, HL. specialize (Hp i). destruct (mp !! i) as [l|] eqn:El; cbn in Hp.
      * rewrite (map_lookup_filter_Some_2 _ _ _ _ Hp) by done. apply dec_enc_group.
      * rewrite map_lookup_filter_None_2 by (by left). done.
Qed.

End Read.

(** ** The invariant *)

Section Invariant.
Context (enc_loc : ExtentLocation -> bytes) (enc_group : ParityGroup -> bytes).
Abbreviation exact := (exact enc_loc enc_group).
Abbreviation good' := (good enc_loc enc_group).

(** The store once every batch on its way is written in its turn. *)
Definition pend (y : System) : Store := foldl (run_batch (epoch (sink y))) (store y) (queue y ++ taken y).

Record inv (y : System) : Prop := mkInv {
  i_gwf : gwf (gem y);
  i_track : track (gem y) = true;
  i_away : away_ok (gem y) (away y);
  i_queue : Forall (fun b => full b = None) (queue y);
  i_good : need_full (sink y) = false -> forall v, is_Some (held (sink y) !! v) ->
    good' (gem y) (away y) (changes (gem y)) (pend y) v;
  i_cold : forall v m, away y !! v = Some m -> is_Some (held (sink y) !! v) ->
    exact (store y) v m /\ Forall (fun b => full b = None /\ Forall (harmless v) (ops b)) (queue y ++ taken y);
  i_whole : forall v m, away y !! v = Some m -> whole_map m }.

Lemma exact_harmless st v m os : Forall (harmless v) os -> exact st v m -> exact (apply_ops st os) v m.
Proof using Type.
  intros Hos (H1 & H2 & H3). destruct (harmless_keeps v os st Hos) as [K1 K2].
  split; [by apply K1|]. split; intros k; rewrite K2 by tauto; auto.
Qed.

Lemma record_harmless e v q : Forall (fun b => full b = None /\ Forall (harmless v) (ops b)) q -> Forall (harmless v) (record_ops e q).
Proof using Type.
  clear. unfold record_ops. intros Hq. apply Forall_flat_map, Forall_forall. intros b Hb. apply list_elem_of_filter in Hb as [_ Hb].
  rewrite Forall_forall in Hq. by apply Hq.
Qed.

Lemma run_record e q : forall st, Forall (fun b => full b = None) q -> foldl (run_batch e) st q = apply_ops st (record_ops e q).
Proof using Type.
  clear. induction q as [|b q IH]; intros st Hq; [done|]. apply Forall_cons in Hq as [Hb Hq]. cbn [foldl]. rewrite IH by done.
  unfold run_batch, record_ops. rewrite Hb, filter_cons. destruct (decide (b_epoch b = e)); [|done].
  cbn [flat_map]. by rewrite apply_ops_app.
Qed.

Lemma at_ext_eq (u u' : gmap VolumeId VolumeExtentMap) v k : u' !! v = u !! v -> ext_at u' v k = ext_at u v k /\ par_at u' v k = par_at u v k.
Proof using Type. unfold ext_at, par_at. by intros ->. Qed.

(** A new failure: the sink is written whole next. *)
Lemma inv_failed y st q t n :
  inv y -> Forall (fun b => full b = None) q -> (forall b, b ∈ q ++ t -> b ∈ queue y ++ taken y) ->
  (forall v m, away y !! v = Some m -> is_Some (held (sink y) !! v) -> exact (store y) v m -> exact st v m) ->
  inv (mkSystem (gem y) (mark_failed (sink y)) t q n st (away y)).
Proof using Type.
  intros [I1 I2 I3 I4 I5 I6 I7] Hq Hsub Hst. split; cbn [gem sink taken queue store away mark_failed need_full held]; try done.
  intros v m Hv Hh. destruct (I6 v m Hv Hh) as [He Hb]. split; [by eapply Hst|].
  apply Forall_forall. intros b Hin. rewrite Forall_forall in Hb. by apply Hb, Hsub.
Qed.

Lemma inv_change y g' :
  inv y -> good_step (gem y) g' ->
  inv (mkSystem g' (sink y) (taken y) (queue y) (unmarked y) (store y) (away_of g' (away y))).
Proof using Type.
  intros [I1 I2 I3 I4 I5 I6 I7] [Hg' [St Sc _ Su Me Mp Se Sp]].
  assert (forall v m, away_of g' (away y) !! v = Some m <-> away y !! v = Some m /\ is_Some (cold g' !! v)) as Haw.
  { intros v m. unfold away_of. rewrite map_lookup_filter_Some. cbn [fst]. unfold is_cold. destruct (cold g' !! v) eqn:E.
    - split; [intros [? _]; split; [done|by eexists]|by intros [? _]].
    - split; [by intros [_ ?]|by intros [_ [? ?]]]. }
  assert (forall v, v ∉ ch_whole (changes g') -> away_of g' (away y) !! v = away y !! v) as Hsame.
  { intros v Hv. apply option_eq. intros m. rewrite Haw. split; [by intros [? _]|]. intros Hm. split; [done|].
    destruct (proj1 (I3 v)) as [c Hc]; [by eexists|]. destruct (cold g' !! v) eqn:E; [by eexists|]. destruct Hv. by eapply Su. }
  assert (forall v, v ∉ ch_whole (changes g') -> away y !! v <> None -> volumes g' !! v = None /\ volumes (gem y) !! v = None) as Hout.
  { intros v Hv Hm. destruct (away y !! v) as [m|] eqn:Em; [|done]. rewrite <- Hsame in Em by done. apply Haw in Em as [Em [c Hc]].
    split; [by apply (gwf_cold _ Hg' _ _ Hc)|]. destruct (proj1 (I3 v)) as [c' Hc']; [by eexists|]. by apply (gwf_cold _ I1 _ _ Hc'). }
  split; cbn [gem sink taken queue store away].
  - done.
  - congruence.
  - intros v. split.
    + intros [m [_ Hm]%Haw]. done.
    + intros [c Hc]. pose proof (Sc v c Hc) as Hc0. destruct (proj2 (I3 v)) as [m Hm]; [by eexists|]. exists m. apply Haw. split; [done|by eexists].
  - done.
  - intros Hf v Hh. eapply good_change; [apply Me|apply Mp| | |by apply I5].
    + intros k Hk. unfold ext_at. rewrite !lookup_union, Hsame by (intros ?; apply Hk; by left). destruct (away y !! v) as [m|] eqn:Em.
      * destruct (Hout v) as [-> ->]; [intros ?; apply Hk; by left|congruence|done].
      * rewrite !(right_id_L None union). destruct (decide (ext_at (volumes g') v k = ext_at (volumes (gem y)) v k)) as [E|E]; [done|].
        destruct Hk. by apply Se.
    + intros k Hk. unfold par_at. rewrite !lookup_union, Hsame by (intros ?; apply Hk; by left). destruct (away y !! v) as [m|] eqn:Em.
      * destruct (Hout v) as [-> ->]; [intros ?; apply Hk; by left|congruence|done].
      * rewrite !(right_id_L None union). destruct (decide (par_at (volumes g') v k = par_at (volumes (gem y)) v k)) as [E|E]; [done|].
        destruct Hk. by apply Sp.
  - intros v m [Hm _]%Haw. by apply I6.
  - intros v m [Hm _]%Haw. by eapply I7.
Qed.

Lemma pend_next y new e st : e = epoch (sink y) -> st = store y ->
  foldl (run_batch e) st (queue y ++ taken y ++ new) = foldl (run_batch e) (pend y) new.
Proof using Type. intros -> ->. unfold pend. by rewrite <- foldl_app, app_assoc. Qed.

Lemma inv_take y hash doc_val ms s' ob :
  inv y -> NoDup (map fst ms) ->
  take_sink enc_loc enc_group hash (gem y) (changes (gem y)) doc_val ms (sink y) = Ok (s', ob) ->
  inv (mkSystem (with_changes no_changes (gem y)) s' (taken y ++ new_batches ob) (queue y) (unmarked y) (store y) (away y)).
Proof using Type.
  intros [I1 I2 I3 I4 I5 I6 I7] Hnd H.
  pose proof (take_ok enc_loc enc_group hash (gem y) (away y) doc_val ms (sink y) s' ob I1 I3 Hnd H) as [T1 T2 T3 T4].
  split; cbn [gem sink taken queue store away]; try done.
  - split; [apply (gwf_nonempty _ I1)|]. intros v c Hc. split; [by apply (gwf_cold _ I1 _ _ Hc)|]. cbn. unfold ch_volumes. cbn. set_solver.
  - intros _ v Hv%T2. unfold pend. cbn [sink store queue taken]. rewrite T1, (pend_next y) by done.
    change (good' (gem y) (away y) no_changes (foldl (run_batch (epoch (sink y))) (pend y) (new_batches ob)) v). apply T3; [done|].
    intros Hf Hh. by apply I5.
  - intros v m Hm Hv%T2. destruct (T4 v) as [Hh Hnew]; [apply I3; by eexists|done|]. destruct (I6 v m Hm Hh) as [He Hb]. split; [done|].
    rewrite app_assoc. apply Forall_app. by split.
Qed.

Lemma inv_join y b r :
  inv y -> taken y = b :: r -> full b = None ->
  inv (mkSystem (gem y) (sink y) r (queue y ++ [b]) (unmarked y) (store y) (away y)).
Proof using Type.
  intros [I1 I2 I3 I4 I5 I6 I7] Ht Hb.
  assert ((queue y ++ [b]) ++ r = queue y ++ taken y) as E by (by rewrite Ht, <- app_assoc).
  split; cbn [gem sink taken queue store away]; try done.
  - apply Forall_app. split; [done|by apply Forall_singleton].
  - intros Hf v Hv. unfold pend. cbn [sink store queue taken]. rewrite E. by apply I5.
  - intros v m Hm Hv. rewrite E. by apply I6.
Qed.

(** The queue written, and what is left on its way. *)
Lemma queue_written y v m : inv y -> away y !! v = Some m -> is_Some (held (sink y) !! v) ->
  exact (apply_ops (store y) (record_ops (epoch (sink y)) (queue y))) v m.
Proof using Type.
  intros HI Hm Hv. destruct (i_cold _ HI v m Hm Hv) as [He Hb]. apply exact_harmless; [|done].
  apply record_harmless. by apply Forall_app in Hb as [Hb _].
Qed.

Lemma inv_write y :
  inv y -> inv (mkSystem (gem y) (sink y) (taken y) [] (unmarked y) (apply_ops (store y) (record_ops (epoch (sink y)) (queue y))) (away y)).
Proof using Type.
  intros HI. pose proof HI as [I1 I2 I3 I4 I5 I6 I7]. split; cbn [gem sink taken queue store away]; try done.
  - intros Hf v Hv. unfold pend. cbn [sink store queue taken app]. rewrite <- run_record by done. rewrite <- foldl_app. by apply I5.
  - intros v m Hm Hv. split; [by apply queue_written|]. destruct (I6 v m Hm Hv) as [_ Hb]. by apply Forall_app in Hb as [_ Hb].
Qed.

Lemma inv_whole y b r f :
  inv y -> taken y = b :: r -> full b = Some f -> queue y = [] ->
  inv (mkSystem (gem y) (fst (apply_full (sink y) f (store y))) r [] (unmarked y) (snd (apply_full (sink y) f (store y))) (away y)).
Proof using Type.
  intros [I1 I2 I3 I4 I5 I6 I7] Ht Hf Hq.
  assert (forall v m, away y !! v = Some m -> is_Some (held (sink y) !! v) -> False) as Hno.
  { intros v m Hm Hv. destruct (I6 v m Hm Hv) as [_ Hb]. rewrite Hq, Ht in Hb. apply Forall_cons in Hb as [[Hb _] _]. congruence. }
  unfold apply_full. destruct (refuses _ _ _); split; cbn [gem sink taken queue store away need_full held fst snd]; try done;
    try (intros v m Hm Hv; by destruct (Hno v m Hm Hv)).
  intros Hn v Hv. specialize (I5 Hn v Hv). unfold pend in *. rewrite Hq, Ht in I5. cbn [app foldl] in I5. cbn [sink store queue taken app].
  unfold run_batch in I5 at 2. by rewrite Hf in I5.
Qed.

(** ** A map leaves memory and comes back *)

Lemma union_moved (u a : gmap VolumeId VolumeExtentMap) v m :
  u !! v = Some m -> a !! v = None -> delete v u ∪ <[v := m]> a = u ∪ a.
Proof using Type.
  clear. intros Hu Ha. apply map_eq. intros w. rewrite !lookup_union. destruct (decide (w = v)) as [->|].
  - by rewrite lookup_delete_eq, lookup_insert_eq, Hu, Ha.
  - by rewrite lookup_delete_ne, lookup_insert_ne.
Qed.

Lemma inv_evict y v m g' :
  inv y -> quiet y = true -> holds y v = true -> volumes (gem y) !! v = Some m -> whole_map m -> evict v (gem y) = (true, g') ->
  inv (mkSystem g' (sink y) (taken y) (queue y) (unmarked y) (store y) (<[v := m]> (away y))).
Proof using Type.
  intros [I1 I2 I3 I4 I5 I6 I7] Hqu Hho Hm Hw He.
  unfold quiet in Hqu. apply andb_true_iff in Hqu as [[Ht Hn]%andb_true_iff Hq]. apply bool_decide_eq_true in Ht, Hq. apply negb_true_iff in Hn.
  unfold evict in He. destruct ((0 <? pins (gem y)) || has_changes (gem y) v || is_cold (gem y) v) eqn:Eg; [discriminate He|].
  apply orb_false_iff in Eg as [[_ Hc]%orb_false_iff Hcold]. rewrite Hm in He. set (c := mkCold _ _ _ _ _) in He. injection He as <-.
  assert (away y !! v = None) as Ha.
  { destruct (away y !! v) eqn:E; [|done]. destruct (proj1 (I3 v)) as [c' Hc']; [by eexists|]. unfold is_cold in Hcold. by rewrite Hc' in Hcold. }
  unfold has_changes in Hc. apply orb_false_iff in Hc as [[Hc1 Hc2]%orb_false_iff Hc3]. rewrite !bool_decide_eq_false in Hc1, Hc2, Hc3.
  unfold holds in Hho. destruct (held (sink y) !! v) as [hh|] eqn:Eh; [|done].
  split; cbn [gem sink taken queue store away with_cold with_volumes volumes cold changes track]; try done.
  - split; cbn [with_cold with_volumes volumes cold changes].
    + intros w x Hx. apply lookup_delete_Some in Hx as [_ Hx]. by apply (gwf_nonempty _ I1 w).
    + intros w x Hx. destruct (decide (w = v)) as [->|Hne].
      * split; [apply lookup_delete_eq|]. unfold ch_volumes. set_solver.
      * rewrite lookup_insert_ne in Hx by done. rewrite lookup_delete_ne by done. by apply (gwf_cold _ I1 w x).
  - intros w. cbn [cold with_cold]. destruct (decide (w = v)) as [->|Hne]; [rewrite !lookup_insert_eq; split; intros _; by eexists|]. rewrite !lookup_insert_ne by done. apply I3.
  - intros _ w Hh. unfold good. cbn [volumes with_cold with_volumes]. rewrite union_moved by done. by apply I5.
  - intros w x Hx Hh. rewrite Hq, Ht. split; [|constructor]. destruct (decide (w = v)) as [->|Hne].
    + rewrite lookup_insert_eq in Hx. injection Hx as <-. destruct (I5 Hn v ltac:(by eexists)) as (G1 & G2 & G3).
      unfold pend in G1, G2, G3. rewrite Hq, Ht in G1, G2, G3. cbn [app foldl] in G1, G2, G3.
      assert ((volumes (gem y) ∪ away y) !! v = Some m) as Hu by (by rewrite lookup_union, Hm, Ha).
      split; [done|]. unfold ext_at, par_at in G2, G3. rewrite Hu in G2, G3. rewrite !not_elem_of_dom in Hc2, Hc3.
      split; intros k; [apply G2|apply G3]; intros [|Hin]; [done| |done|]; [rewrite Hc2 in Hin|rewrite Hc3 in Hin]; cbn in Hin; set_solver.
    + rewrite lookup_insert_ne in Hx by done. by apply I6.
  - intros w x Hx. destruct (decide (w = v)) as [->|Hne]; [rewrite lookup_insert_eq in Hx; by injection Hx as <-|].
    rewrite lookup_insert_ne in Hx by done. by eapply I7.
Qed.

End Invariant.

Section Paging.
Context (enc_loc : ExtentLocation -> bytes) (dec_loc : bytes -> option ExtentLocation).
Context (enc_group : ParityGroup -> bytes) (dec_group : bytes -> option ParityGroup).
Hypothesis dec_enc_loc : forall l, dec_loc (enc_loc l) = Some l.
Hypothesis dec_enc_group : forall p, dec_group (enc_group p) = Some p.

Abbreviation exact := (exact enc_loc enc_group).
Abbreviation inv := (inv enc_loc enc_group).

Lemma load_away y v m : inv y -> holds y v = true -> away y !! v = Some m -> load dec_loc dec_group y v = Some m.
Proof using dec_enc_loc dec_enc_group.
  intros HI Hh Hm. unfold load. rewrite Hh. unfold holds in Hh. destruct (held (sink y) !! v) eqn:E; [|done].
  destruct (i_cold _ _ _ HI v m Hm) as [He _]; [by eexists|].
  by rewrite (read_exact _ _ _ _ dec_enc_loc dec_enc_group _ _ _ He).
Qed.

Lemma inv_page_in y v m :
  inv y -> ensure_resident_plan v (gem y) = Load -> load dec_loc dec_group y v = Some m ->
  inv (mkSystem (ensure_resident_finish v m (gem y)) (sink y) (taken y) (queue y) (unmarked y) (store y) (delete v (away y))).
Proof using dec_enc_loc dec_enc_group.
  intros HI Hp Hl. pose proof HI as [I1 I2 I3 I4 I5 I6 I7].
  unfold ensure_resident_plan, is_cold in Hp. destruct (cold (gem y) !! v) as [c|] eqn:Hc; [|done].
  destruct (gwf_cold _ I1 v c Hc) as [Hv Hch]. destruct (proj2 (I3 v)) as [m0 Hm0]; [by eexists|].
  assert (m0 = m) as ->.
  { assert (holds y v = true) as Hh by (unfold load in Hl; by destruct (holds y v)).
    rewrite (load_away y v m0 HI Hh Hm0) in Hl. by injection Hl. }
  pose proof (I7 v m Hm0) as Hw. unfold ensure_resident_finish, is_cold. rewrite Hc. unfold install.
  set (u := if vmap_is_empty m then volumes (gem y) else <[v := m]> (volumes (gem y))).
  assert (forall w, w <> v -> u !! w = volumes (gem y) !! w) as Hu.
  { intros w Hne. unfold u. destruct (vmap_is_empty m); [done|]. by apply lookup_insert_ne. }
  assert (forall k, ext_at (u ∪ delete v (away y)) v k = extents m !! k /\ par_at (u ∪ delete v (away y)) v k = parity m !! k) as Hat.
  { intros k. unfold ext_at, par_at, u. rewrite lookup_union, lookup_delete_eq, (right_id_L None union).
    unfold vmap_is_empty. destruct (decide (extents m = ∅)) as [E|E].
    - rewrite bool_decide_true, Hv, E, Hw, !lookup_empty by done. done.
    - rewrite bool_decide_false, lookup_insert_eq by done. done. }
  set (g1 := if vmap_is_empty m then _ else _).
  assert (volumes g1 = u /\ cold g1 = delete v (cold (gem y)) /\ changes g1 = changes (gem y) /\ track g1 = track (gem y)) as (Ev & Ec & Ech & Et).
  { unfold g1, u. by destruct (vmap_is_empty m). }
  clearbody g1. split; cbn [gem sink taken queue store away]; rewrite ?Et; try done.
  - split; rewrite ?Ev, ?Ec, ?Ech.
    + intros w x Hx. destruct (decide (w = v)) as [->|Hne]; [|rewrite Hu in Hx by done; by apply (gwf_nonempty _ I1 w)].
      unfold u, vmap_is_empty in Hx. destruct (decide (extents m = ∅)) as [E|E]; [by rewrite bool_decide_true, Hv in Hx|].
      rewrite bool_decide_false, lookup_insert_eq in Hx by done. injection Hx as <-. by left.
    + intros w x Hx. apply lookup_delete_Some in Hx as [Hne Hx]. rewrite Hu by done. by apply (gwf_cold _ I1 w x).
  - intros w. rewrite Ec. destruct (decide (w = v)) as [->|Hne]; [by rewrite !lookup_delete_eq|]. rewrite !lookup_delete_ne by done. apply I3.
  - intros Hf w Hh. specialize (I5 Hf w Hh). rewrite Ech. eapply good_change; [done|done| | |exact I5]; intros k Hk; rewrite Ev.
    + destruct (decide (w = v)) as [->|Hne].
      * rewrite (proj1 (Hat k)). unfold ext_at. by rewrite lookup_union, Hv, Hm0.
      * apply at_ext_eq. by rewrite !lookup_union, Hu, lookup_delete_ne.
    + destruct (decide (w = v)) as [->|Hne].
      * rewrite (proj2 (Hat k)). unfold par_at. by rewrite lookup_union, Hv, Hm0.
      * apply at_ext_eq. by rewrite !lookup_union, Hu, lookup_delete_ne.
  - intros w x [_ Hx]%lookup_delete_Some. by apply I6.
  - intros w x [_ Hx]%lookup_delete_Some. by eapply I7.
Qed.

(** ** Every step *)

Context (hash : bytes -> Z).
Abbreviation step := (pstep enc_loc dec_loc enc_group dec_group hash).

Lemma inv_step y y' : inv y -> step gstep false y y' -> inv y'.
Proof using dec_enc_loc dec_enc_group.
  intros HI H. pose proof HI as [I1 I2 I3 I4 I5 I6 I7].
  destruct H as [y g' H|y doc_val ms s' ob Hnd H|y b r Ht Hb|y _|y st _ Hst|y b r f Ht Hf Hq|y b r f st Ht Hf Hq Hst|y l b r Ht|y n Hn
    |y v m g' Hq Hh Hm Hw He|y v m Hp Hl]; cbn [failed fst snd].
  - apply inv_change; [done|]. by apply gstep_good.
  - by eapply inv_take.
  - by apply inv_join.
  - by apply inv_write.
  - apply inv_failed; [done|constructor| |].
    + intros b Hb. apply elem_of_app. by right.
    + intros v m Hm Hh He. destruct Hst as [->| ->]; [done|by apply queue_written].
  - by eapply inv_whole.
  - apply inv_failed; [done|constructor| |].
    + intros b' Hb. apply elem_of_app. right. rewrite Ht. by right.
    + intros v m Hm Hh _. destruct (I6 v m Hm Hh) as [_ Hb]. rewrite Hq, Ht in Hb. apply Forall_cons in Hb as [[Hb _] _]. congruence.
  - apply inv_failed; [done|done| |done]. intros b' Hb. rewrite Ht. rewrite !elem_of_app in Hb. rewrite !elem_of_app, elem_of_cons. tauto.
  - apply inv_failed; [done|done|done|done].
  - by eapply inv_evict.
  - by apply inv_page_in.
Qed.

Lemma start_inv g dir st : gwf g -> track g = true -> cold g = ∅ -> inv (start g dir st).
Proof using Type.
  clear. intros Hg Ht Hc. split; cbn; try done.
  - intros v. rewrite Hc, !lookup_empty. done.
Qed.

(** C14. No map with extents is lost or stale on its way through the store, when a failed
    write is marked before the sink does anything else: after any order of changes, persists,
    writes that succeed, fail or half fail, whole writes, evictions of maps with extents or
    nothing at all ([whole_map]: one of parity groups only is lost, [parity_only_map_is_lost])
    and loads, a map that is out of memory, of a volume the sink still holds, loads as exactly
    the map that left; and whenever the sink is quiet, what it holds of any volume with no
    recorded change is exactly its map in memory. *)
Theorem pages_in_what_left g dir st y :
  gwf g -> track g = true -> cold g = ∅ -> rtc (step gstep false) (start g dir st) y ->
  (forall v m, away y !! v = Some m -> holds y v = true -> load dec_loc dec_group y v = Some m)
  /\ (forall v, is_Some (away y !! v) <-> is_Some (cold (gem y) !! v))
  /\ (quiet y = true -> forall v, holds y v = true -> has_changes (gem y) v = false -> is_cold (gem y) v = false ->
      load dec_loc dec_group y v = Some (default vmap0 (volumes (gem y) !! v))).
Proof using dec_enc_loc dec_enc_group.
  intros Hg Ht Hc H. assert (inv y) as HI.
  { pose proof (start_inv g dir st Hg Ht Hc) as H0. clear -H H0 dec_enc_loc dec_enc_group.
    induction H as [|y1 y2 y3 H1 _ IH]; [done|]. apply IH. by eapply inv_step. }
  split; [intros v m Hm Hh; by apply load_away|]. split; [apply (i_away _ _ _ HI)|].
  intros Hq v Hh Hn Hcold. unfold quiet in Hq. apply andb_true_iff in Hq as [[Htk Hf]%andb_true_iff Hq].
  apply bool_decide_eq_true in Htk, Hq. apply negb_true_iff in Hf.
  unfold load. rewrite Hh. unfold holds in Hh. destruct (held (sink y) !! v) eqn:E; [|done].
  assert (exact (store y) v (default vmap0 (volumes (gem y) !! v))) as He; [|by rewrite (read_exact _ _ _ _ dec_enc_loc dec_enc_group _ _ _ He)].
  destruct (i_good _ _ _ HI Hf v) as (G1 & G2 & G3); [by eexists|]. unfold pend in G1, G2, G3. rewrite Hq, Htk in G1, G2, G3.
  cbn [app foldl] in G1, G2, G3. unfold has_changes in Hn. apply orb_false_iff in Hn as [[Hn1 Hn2]%orb_false_iff Hn3].
  rewrite !bool_decide_eq_false in Hn1, Hn2, Hn3. rewrite !not_elem_of_dom in Hn2, Hn3.
  assert ((volumes (gem y) ∪ away y) !! v = volumes (gem y) !! v) as Hu.
  { apply at_resident; [apply (i_away _ _ _ HI)|]. unfold is_cold in Hcold. by destruct (cold (gem y) !! v). }
  unfold ext_at, par_at in G2, G3. rewrite Hu in G2, G3. split; [done|]. split; intros k; [rewrite G2|rewrite G3].
  - by destruct (volumes (gem y) !! v).
  - intros [|Hin]; [done|]. rewrite Hn2 in Hin. by apply elem_of_empty in Hin.
  - by destruct (volumes (gem y) !! v).
  - intros [|Hin]; [done|]. rewrite Hn3 in Hin. by apply elem_of_empty in Hin.
Qed.
End Paging.

(** A serializer, and a hash, to run with. *)
Definition leg_of (l : Leg) : bytes * Z := (lg_slab l, lg_slot l).
Definition of_leg (p : bytes * Z) : Leg := mkLeg (fst p) (snd p).
Definition toy_enc_loc (l : ExtentLocation) : bytes :=
  [Zpos (encode (leg_of (primary l), (ref_count l, generation l), map leg_of (mirrors l)))].
Definition toy_dec_loc (b : bytes) : option ExtentLocation :=
  match b with
  | [Zpos p] => t ← (decode p : option (bytes * Z * (Z * Z) * list (bytes * Z)));
      Some (mkLoc (fst (fst (fst t))) (snd (fst (fst t))) (fst (snd (fst t))) (snd (snd (fst t))) (map of_leg (snd t)))
  | _ => None
  end.
Definition toy_enc_group (g : ParityGroup) : bytes := [Zpos (encode (map leg_of (pg_legs g), (pg_refs g, pg_generation g), data_width g))].
Definition toy_dec_group (b : bytes) : option ParityGroup :=
  match b with
  | [Zpos p] => t ← (decode p : option (list (bytes * Z) * (Z * Z) * Z));
      Some (mkGroup (map of_leg (fst (fst t))) (fst (snd (fst t))) (snd (snd (fst t))) (snd t))
  | _ => None
  end.
Definition toy_hash (b : bytes) : Z := zsum b.

Lemma legs_back ls : map of_leg (map leg_of ls) = ls.
Proof. rewrite map_map. rewrite <- (map_id ls) at 2. apply map_ext. by intros []. Qed.
Lemma toy_dec_enc_loc l : toy_dec_loc (toy_enc_loc l) = Some l.
Proof. unfold toy_dec_loc, toy_enc_loc. rewrite decode_encode. cbn. rewrite legs_back. by destruct l. Qed.
Lemma toy_dec_enc_group g : toy_dec_group (toy_enc_group g) = Some g.
Proof. unfold toy_dec_group, toy_enc_group. rewrite decode_encode. cbn. rewrite legs_back. by destruct g. Qed.

(** ** Runs *)

Abbreviation run late := (rtc (pstep toy_enc_loc toy_dec_loc toy_enc_group toy_dec_group toy_hash gstep late)).
Abbreviation loads := (load toy_dec_loc toy_dec_group).

Definition carried : list (VolumeId * bytes) := [(vol_a, [5; 6])].
Definition takes (y : System) : result Panic (SinkState * option Batch) :=
  take_sink toy_enc_loc toy_enc_group toy_hash (gem y) (changes (gem y)) [9] carried (sink y).
Definition took (y : System) : System :=
  match takes y with
  | Ok (s', ob) => mkSystem (with_changes no_changes (gem y)) s' (taken y ++ new_batches ob) (queue y) (unmarked y) (store y) (away y)
  | Err _ => y
  end.
Definition wrote_whole (y : System) : System :=
  match taken y with
  | b :: r => match full b with
              | Some f => mkSystem (gem y) (fst (apply_full (sink y) f (store y))) r [] (unmarked y)
                            (snd (apply_full (sink y) f (store y))) (away y)
              | None => y
              end
  | [] => y
  end.
Definition changed (y : System) (vext : Z) (l : ExtentLocation) : System :=
  match insert vol_a vext l (gem y) with
  | Ok g' => mkSystem g' (sink y) (taken y) (queue y) (unmarked y) (store y) (away_of g' (away y))
  | Err _ => y
  end.
Definition joined (y : System) : System :=
  match taken y with b :: r => mkSystem (gem y) (sink y) r (queue y ++ [b]) (unmarked y) (store y) (away y) | [] => y end.
Definition wrote (y : System) : System :=
  mkSystem (gem y) (sink y) (taken y) [] (unmarked y) (apply_ops (store y) (record_ops (epoch (sink y)) (queue y))) (away y).
Definition write_failed (y : System) : System :=
  mkSystem (gem y) (sink y) (taken y) [] (S (unmarked y)) (store y) (away y).
Definition evicted (y : System) (m : VolumeExtentMap) : System :=
  mkSystem (snd (evict vol_a (gem y))) (sink y) (taken y) (queue y) (unmarked y) (store y) (<[vol_a := m]> (away y)).

Lemma run_took late y p : takes y = Ok p -> run late y (took y).
Proof.
  intros H. apply rtc_once. unfold took. rewrite H. destruct p as [s' ob].
  apply (PTake toy_enc_loc toy_dec_loc toy_enc_group toy_dec_group toy_hash gstep late y [9] carried s' ob); [|exact H].
  apply NoDup_singleton.
Qed.
Lemma run_changed late y k l g' : insert vol_a k l (gem y) = Ok g' -> run late y (changed y k l).
Proof. intros H. apply rtc_once. unfold changed. rewrite H. constructor. by eapply GInsert. Qed.
Lemma run_whole late y b r f : taken y = b :: r -> full b = Some f -> queue y = [] -> run late y (wrote_whole y).
Proof. intros Ht Hf Hq. apply rtc_once. unfold wrote_whole. rewrite Ht, Hf. by eapply PWhole. Qed.
Lemma run_joined late y b r : taken y = b :: r -> full b = None -> run late y (joined y).
Proof. intros Ht Hf. apply rtc_once. unfold joined. rewrite Ht. by eapply PJoin. Qed.
Lemma run_wrote late y : queue y <> [] -> run late y (wrote y).
Proof. intros Hq. apply rtc_once. by apply PWrite. Qed.
Lemma run_write_failed y : queue y <> [] -> run true y (write_failed y).
Proof. intros Hq. apply rtc_once. apply (PWriteFails _ _ _ _ _ gstep true y (store y)); [done|by left]. Qed.
Lemma run_evicted late y m : quiet y = true -> holds y vol_a = true -> volumes (gem y) !! vol_a = Some m -> whole_map m ->
  fst (evict vol_a (gem y)) = true -> run late y (evicted y m).
Proof.
  intros Hq Hh Hm Hw He. apply rtc_once. apply PEvict; [done|done|done|done|]. destruct (evict vol_a (gem y)) as [b g']. cbn in He. by subst b.
Qed.

Definition demo_map : VolumeExtentMap := mkVmap {[ 0 := with_legs leg1 [leg2] ]} {[ 0 := new_group [leg2] 2 ]}.
Definition y0 : System := start demo_gem false ∅.
Definition y_full : System := wrote_whole (took y0).
Definition y_cold : System := evicted y_full demo_map.

Lemma run_full late : run late y0 y_full.
Proof.
  transitivity (took y0); [destruct (takes y0) as [p|] eqn:E; [by eapply run_took|vm_compute in E; discriminate]|].
  destruct (taken (took y0)) as [|b r] eqn:E; [vm_compute in E; discriminate|]. 
  destruct (full b) as [f|] eqn:Ef; [by eapply run_whole|]. exfalso. vm_compute in E. injection E as <- _. vm_compute in Ef. discriminate.
Qed.
Lemma run_cold late : run late y0 y_cold.
Proof.
  transitivity y_full; [apply run_full|]. apply run_evicted; [by vm_compute|by vm_compute|by vm_compute| |by vm_compute].
  intros H. vm_compute in H. discriminate H.
Qed.

Lemma pages_in_what_left_witness : loads y_cold vol_a = Some demo_map.
Proof.
  destruct (pages_in_what_left toy_enc_loc toy_dec_loc toy_enc_group toy_dec_group toy_dec_enc_loc toy_dec_enc_group toy_hash
              demo_gem false ∅ y_cold demo_gwf eq_refl eq_refl (run_cold false)) as (H & _).
  apply H; vm_compute; reflexivity.
Defined.

(** ** A failure marked too late *)

Definition y_one : System := joined (took (changed y_full 1 (with_legs leg3 []))).
Definition y_two : System := joined (took (changed (write_failed y_one) 2 (with_legs leg3 []))).
Definition y_late : System := wrote y_two.

(** The write of one persist fails; before its task marks the sink, a second persist
    is written and succeeds.  The store then holds the second's change and not the
    first's, nothing is queued, no change is recorded, and the sink counts as
    current: a map loaded from it is not the one in memory. *)
Lemma late_mark_skips_a_record :
  run true y0 y_late
  /\ quiet y_late = true /\ holds y_late vol_a = true /\ has_changes (gem y_late) vol_a = false
  /\ is_Some (store y_late !! mkKey vol_a EXTENT 2)
  /\ store y_late !! mkKey vol_a EXTENT 1 = None
  /\ is_Some (ext_at (volumes (gem y_late)) vol_a 1).
Proof.
  split; [|by vm_compute; eauto 10].
  assert (run true y_full y_one) as H1.
  { unfold y_one. etransitivity; [eapply (run_changed _ _ 1 (with_legs leg3 [])); vm_compute; reflexivity|].
    etransitivity; [eapply run_took; vm_compute; reflexivity|]. eapply run_joined; vm_compute; reflexivity. }
  transitivity y_full; [apply run_full|]. transitivity y_one; [exact H1|].
  transitivity (write_failed y_one); [apply run_write_failed; by vm_compute|].
  unfold y_late, y_two. etransitivity; [eapply (run_changed _ _ 2 (with_legs leg3 [])); vm_compute; reflexivity|].
  etransitivity; [eapply run_took; vm_compute; reflexivity|].
  etransitivity; [eapply run_joined; vm_compute; reflexivity|]. apply run_wrote. by vm_compute.
Qed.

(** A map with parity groups and no extents leaves memory, and comes back as none:
    [install] asks only whether it has extents. *)
Definition parity_only : VolumeExtentMap := mkVmap ∅ {[ 0 := new_group [leg2] 2 ]}.
Definition parity_gem : GlobalExtentMap := mkGem {[ vol_a := parity_only ]} ∅ true 0 true no_changes.
Theorem parity_only_map_is_lost :
  exists g', gwf parity_gem /\ evict vol_a parity_gem = (true, g')
  /\ par_at (volumes parity_gem) vol_a 0 = Some (new_group [leg2] 2)
  /\ ensure_resident_plan vol_a g' = Load
  /\ par_at (volumes (ensure_resident_finish vol_a parity_only g')) vol_a 0 = None.
Proof.
  eexists. split; [|split; [reflexivity|by vm_compute]].
  split; [|by intros v c Hv]. intros v m Hv. cbn in Hv. apply lookup_singleton_Some in Hv as [_ <-]. right. apply map_non_empty_singleton.
Qed.
