(* ===== verification/ExtTableProofs.v ===== *)
(** The packed table is a map: every operation of [ExtTable] does to it what the
    same operation does to a finite map from virtual extents to locations. *)

From S2P Require Import Prelude GemData ExtTable.

(** ** Splitting a virtual extent *)

Definition vext_ok (v : Z) : Prop := 0 <= v < 2 ^ 64.
Definition chunk_no (v : Z) : Z := v / 2 ^ 6.
Definition chunk_off (v : Z) : Z := v mod 2 ^ 6.

Lemma split_div v : split v = (chunk_no v, chunk_off v).
Proof.
  unfold split, CHUNK_MASK, CHUNK_SHIFT. change (Z.shiftl 1 6 - 1) with (Z.ones 6).
  by rewrite Z.shiftr_div_pow2, Z.land_ones by lia.
Qed.

Lemma join_cat c off : 0 <= c < 2 ^ 58 -> 0 <= off < 2 ^ 6 -> join c off = c * 2 ^ 6 + off.
Proof.
  intros Hc Ho. unfold join, CHUNK_SHIFT. rewrite Z.shiftl_mul_pow2, wrap_small by lia. by apply lor_cat.
Qed.

Lemma chunk_no_join c off : 0 <= c < 2 ^ 58 -> 0 <= off < 2 ^ 6 -> chunk_no (join c off) = c.
Proof. intros. rewrite join_cat by done. apply div_cat; lia. Qed.
Lemma chunk_off_join c off : 0 <= c < 2 ^ 58 -> 0 <= off < 2 ^ 6 -> chunk_off (join c off) = off.
Proof. intros. rewrite join_cat by done. apply mod_cat; lia. Qed.
Lemma chunk_no_range v : vext_ok v -> 0 <= chunk_no v < 2 ^ 58.
Proof. unfold vext_ok, chunk_no. intros. split; [apply Z.div_pos; lia|apply Z.div_lt_upper_bound; lia]. Qed.
Lemma chunk_off_range v : 0 <= chunk_off v < 2 ^ 6.
Proof. apply Z.mod_pos_bound. lia. Qed.
Lemma join_parts v : vext_ok v -> join (chunk_no v) (chunk_off v) = v.
Proof.
  intros Hv. rewrite join_cat by (by apply chunk_no_range || by apply chunk_off_range).
  unfold chunk_no, chunk_off. pose proof (Z.div_mod v (2 ^ 6) ltac:(lia)). lia.
Qed.
Lemma join_ok c off : 0 <= c < 2 ^ 58 -> 0 <= off < 2 ^ 6 -> vext_ok (join c off).
Proof. intros. unfold vext_ok. rewrite join_cat by done. lia. Qed.
Lemma parts_inj v w : vext_ok v -> vext_ok w -> chunk_no v = chunk_no w -> chunk_off v = chunk_off w -> v = w.
Proof. intros Hv Hw Hc Ho. rewrite <- (join_parts v), <- (join_parts w), Hc, Ho by done. done. Qed.

(** ** The interner *)

Definition interner_ok (I : Interner) : Prop :=
  forall id o, ords I !! id = Some o <-> 0 <= o /\ ids I !! Z.to_nat o = Some id.
Definition grows (I I' : Interner) : Prop := ids I `prefix_of` ids I'.
(** An id the process has no room left for. *)
Definition no_room (I : Interner) (id : SlabId) : Prop := ords I !! id = None /\ u32max < zlen (ids I).

#[export] Instance grows_preorder : PreOrder grows.
Proof. unfold grows. split; [intros I; done|intros I J K; apply transitivity]. Qed.

Lemma slab_of_grows I I' o : grows I I' -> 0 <= o < zlen (ids I) -> slab_of I' o = slab_of I o.
Proof.
  unfold grows, slab_of, zlen. intros [l ->] Ho. by rewrite app_nth1 by lia.
Qed.

Lemma slab_ordinal_spec I id :
  interner_ok I ->
  match slab_ordinal I id with
  | Some (I', o) => interner_ok I' /\ grows I I' /\ 0 <= o < zlen (ids I') /\ slab_of I' o = id
  | None => no_room I id
  end.
Proof.
  intros Hok. unfold slab_ordinal. destruct (ords I !! id) as [o|] eqn:E.
  - apply Hok in E as [Ho Hid]. split; [done|]. split; [done|]. pose proof (lookup_lt_Some _ _ _ Hid).
    split; [unfold zlen; lia|]. unfold slab_of. by rewrite nth_lookup, Hid.
  - destruct (Z.leb_spec (zlen (ids I)) u32max); [|by split]. cbn [ids ords].
    assert (forall o, ids I !! o = Some id -> False) as Hnew.
    { intros o Ho. assert (ords I !! id = Some (Z.of_nat o)); [|congruence]. apply Hok. rewrite Nat2Z.id. split; [lia|done]. }
    split_and!.
    + intros id' o'. cbn [ids ords]. destruct (decide (id' = id)) as [->|Hne].
      * rewrite lookup_insert_eq. split.
        -- intros [= <-]. unfold zlen. rewrite Nat2Z.id. split; [lia|]. by rewrite lookup_app_r, Nat.sub_diag by lia.
        -- intros [Ho' Hl]. apply lookup_app_Some in Hl as [Hl|[Hge Hl]]; [by apply Hnew in Hl|].
           destruct (Z.to_nat o' - length (ids I))%nat eqn:En; [|done]. f_equal. unfold zlen. lia.
      * rewrite lookup_insert_ne by done. rewrite (Hok id' o'). split; intros [Ho' Hl]; (split; [done|]).
        -- by apply lookup_app_l_Some.
        -- apply lookup_app_Some in Hl as [Hl|[Hge Hl]]; [done|].
           destruct (Z.to_nat o' - length (ids I))%nat eqn:En; [|done]. cbn in Hl. congruence.
    + by exists [id].
    + apply zlen_nonneg.
    + cbn [ids]. rewrite zlen_app. unfold zlen. cbn [length]. lia.
    + cbn [ids]. unfold slab_of, zlen. cbn [ids]. rewrite Nat2Z.id. by rewrite nth_middle.
Qed.

(** ** A chunk *)

Definition offs (chunk : list Packed) : list Z := map p_off chunk.

Lemma increasing_cons_inv x l : increasing (x :: l) -> increasing l /\ Forall (Z.lt x) l.
Proof. intros H. by inversion H. Qed.
Lemma increasing_cons x l : increasing l -> Forall (Z.lt x) l -> increasing (x :: l).
Proof. intros. by constructor. Qed.

Lemma Forall_offs (P : Z -> Prop) chunk : Forall P (offs chunk) <-> forall p, p ∈ chunk -> P (p_off p).
Proof.
  unfold offs. rewrite Forall_map, Forall_forall. done.
Qed.

(** Where the search lands, by induction once for all its uses. *)
Lemma bsearch_ok off chunk :
  increasing (offs chunk) ->
  match bsearch off chunk with
  | Ok i =>
      exists p, chunk !! i = Some p /\ p_off p = off
        /\ (forall q, q ∈ chunk -> p_off q = off -> q = p)
        /\ (forall x q, q ∈ <[i := x]> chunk <-> q = x \/ (q ∈ chunk /\ p_off q <> off))
        /\ (forall q, q ∈ vec_remove i chunk <-> q ∈ chunk /\ p_off q <> off)
        /\ increasing (offs (vec_remove i chunk))
  | Err i =>
      (forall q, q ∈ chunk -> p_off q <> off)
      /\ (forall x q, q ∈ vec_insert i x chunk <-> q = x \/ q ∈ chunk)
      /\ (forall x, p_off x = off -> increasing (offs (vec_insert i x chunk)))
  end.
Proof.
  induction chunk as [|p r IH]; intros Hs; cbn [bsearch].
  { split; [by intros q ?%elem_of_nil|]. split.
    - intros x q. change (vec_insert 0 x []) with [x]. rewrite list_elem_of_singleton, elem_of_nil. tauto.
    - intros x _. apply increasing_cons; [constructor|by constructor]. }
  cbn [offs map] in Hs. fold (offs r) in Hs. apply increasing_cons_inv in Hs as [Hr Hall]. specialize (IH Hr).
  pose proof (proj1 (Forall_offs _ _) Hall) as Hlt.
  destruct (Z.ltb_spec (p_off p) off) as [Hp|Hp]; [|destruct (Z.eqb_spec (p_off p) off) as [He|Hne]].
  - destruct (bsearch off r) as [i|i].
    + destruct IH as (p' & Hi & Hp' & Hu & Hins & Hrem & Hinc). exists p'. cbn. split_and!; [done|done|..].
      * intros q [->|Hq]%elem_of_cons Hqo; [lia|by apply Hu].
      * intros x q. rewrite !elem_of_cons, Hins. split; [intros [->|[->|[? ?]]]; [right; split; [by left|lia]|by left|right; split; [by right|done]]|].
        intros [->|[[->|Hq] Hqo]]; [by right; left|by left|by right; right].
      * intros q. change (vec_remove (S i) (p :: r)) with (p :: vec_remove i r). rewrite !elem_of_cons, Hrem.
        split; [intros [->|[? ?]]; [split; [by left|lia]|split; [by right|done]]|]. intros [[->|?] ?]; [by left|by right].
      * change (vec_remove (S i) (p :: r)) with (p :: vec_remove i r). cbn [offs map]. apply increasing_cons; [done|].
        apply Forall_offs. intros q [Hq _]%Hrem. by apply Hlt.
    + destruct IH as (Hno & Hins & Hinc). split_and!.
      * intros q [->|Hq]%elem_of_cons; [lia|by apply Hno].
      * intros x q. change (vec_insert (S i) x (p :: r)) with (p :: vec_insert i x r). rewrite !elem_of_cons, Hins. tauto.
      * intros x Hx. change (vec_insert (S i) x (p :: r)) with (p :: vec_insert i x r). cbn [offs map].
        apply increasing_cons; [by apply Hinc|]. apply Forall_offs. intros q [->|Hq]%Hins; [lia|by apply Hlt].
  - assert (forall q, q ∈ r -> p_off q <> off) as Hno by (intros q Hq%Hlt; lia).
    exists p. split_and!; [done|done|..].
    + intros q [->|Hq]%elem_of_cons Hqo; [done|]. by apply Hno in Hq.
    + intros x q. change (<[0%nat := x]> (p :: r)) with (x :: r). rewrite !elem_of_cons. split.
      * intros [->|Hq]; [by left|]. right. split; [by right|by apply Hno].
      * intros [->|[[->|Hq] Hqo]]; [by left|done|by right].
    + intros q. change (vec_remove 0 (p :: r)) with r. rewrite elem_of_cons. split.
      * intros Hq. split; [by right|by apply Hno].
      * by intros [[->|Hq] Hqo].
    + done.
  - assert (forall q, q ∈ p :: r -> off < p_off q) as Hgt.
    { intros q [->|Hq%Hlt]%elem_of_cons; lia. }
    split_and!.
    + intros q Hq%Hgt. lia.
    + intros x q. change (vec_insert 0 x (p :: r)) with (x :: p :: r). by rewrite elem_of_cons.
    + intros x Hx. change (vec_insert 0 x (p :: r)) with (x :: p :: r). cbn [offs map].
      apply increasing_cons; [by apply increasing_cons|]. rewrite Hx. apply (Forall_offs _ (p :: r)). exact Hgt.
Qed.

(** ** The table *)

Definition packed_ok (I : Interner) (p : Packed) : Prop := 0 <= p_off p < 2 ^ 6 /\ 0 <= p_slab p < zlen (ids I).
Definition chunk_ok (I : Interner) (c : Z) (chunk : list Packed) : Prop :=
  0 <= c < 2 ^ 58 /\ chunk <> [] /\ increasing (offs chunk) /\ Forall (packed_ok I) chunk.

(** Well-formed but for the count. *)
Record wf0 (I : Interner) (t : ExtentTable) : Prop := mkWf {
  wf_int : interner_ok I;
  wf_chunks : map_Forall (chunk_ok I) (chunks t);
  wf_mirrors : map_Forall (fun v ms => vext_ok v /\ ms <> [] /\ is_Some (find t v)) (tmirrors t) }.

Lemma chunk_ok_grows I I' c chunk : grows I I' -> chunk_ok I c chunk -> chunk_ok I' c chunk.
Proof.
  intros Hg (Hc & Hn & Hs & Hf). split_and!; try apply Hc; [done..|]. eapply Forall_impl; [exact Hf|].
  intros p [Ho Hp]. split; [done|]. destruct Hg as [l Hl]. rewrite Hl, zlen_app. pose proof (zlen_nonneg l). lia.
Qed.

Lemma wf0_grows I I' t : grows I I' -> interner_ok I' -> wf0 I t -> wf0 I' t.
Proof.
  intros Hg Hi [_ Hc Hm]. split; [done| |done]. intros c chunk Hl. eapply chunk_ok_grows; [done|by apply Hc].
Qed.

(** What the entry of [v] is, without the search. *)
Definition entry (t : ExtentTable) (v : Z) (p : Packed) : Prop :=
  exists chunk, chunks t !! chunk_no v = Some chunk /\ p ∈ chunk /\ p_off p = chunk_off v.

Section Table.
Context (I : Interner) (t : ExtentTable) (Hwf : wf0 I t).

Lemma entry_spec v p : find t v = Some p <-> entry t v p.
Proof using Hwf.
  unfold find, entry. rewrite split_div. split.
  - intros Hf. destruct (chunks t !! chunk_no v) as [chunk|] eqn:Hc; [|done]. cbn in Hf. exists chunk. split; [done|].
    destruct (wf_chunks _ _ Hwf _ _ Hc) as (_ & _ & Hs & _). pose proof (bsearch_ok (chunk_off v) chunk Hs) as Hb.
    destruct (bsearch _ chunk) as [i|i]; [|done]. destruct Hb as (p' & Hi & Ho & _). rewrite Hi in Hf. injection Hf as <-.
    split; [by eapply list_elem_of_lookup_2|done].
  - intros (chunk & Hc & Hp & Ho). rewrite Hc. cbn.
    destruct (wf_chunks _ _ Hwf _ _ Hc) as (_ & _ & Hs & _). pose proof (bsearch_ok (chunk_off v) chunk Hs) as Hb.
    destruct (bsearch _ chunk) as [i|i]; [|by destruct Hb as [Hno _]; destruct (Hno p Hp)].
    destruct Hb as (p' & Hi & Ho' & Hu & _). rewrite Hi. f_equal. symmetry. by apply Hu.
Qed.

Lemma elem_of_chunk_keys c : c ∈ chunk_keys t <-> is_Some (chunks t !! c).
Proof using Type.
  unfold chunk_keys. rewrite elem_of_sort_dedup, list_elem_of_fmap. split.
  - intros ([c' chunk] & -> & Hin%elem_of_map_to_list). by exists chunk.
  - intros [chunk Hc]. exists (c, chunk). split; [done|]. by apply elem_of_map_to_list.
Qed.

Lemma elem_of_flat c p : (c, p) ∈ flat t <-> exists chunk, chunks t !! c = Some chunk /\ p ∈ chunk.
Proof using Type.
  unfold flat. rewrite list_elem_of_In, in_flat_map. split.
  - intros (c' & Hc%list_elem_of_In%elem_of_chunk_keys & Hin). destruct Hc as [chunk Hc]. rewrite Hc in Hin.
    apply in_map_iff in Hin as (p' & [= -> ->] & Hp). exists chunk. split; [done|]. by apply list_elem_of_In.
  - intros (chunk & Hc & Hp). exists c. split; [apply list_elem_of_In, elem_of_chunk_keys; by exists chunk|].
    rewrite Hc. apply in_map_iff. exists p. split; [done|]. by apply list_elem_of_In.
Qed.

Lemma flat_ok c p : (c, p) ∈ flat t -> 0 <= c < 2 ^ 58 /\ packed_ok I p.
Proof using Hwf.
  intros (chunk & Hc & Hp)%elem_of_flat. destruct (wf_chunks _ _ Hwf _ _ Hc) as (Hr & _ & _ & Hf).
  split; [done|]. by apply (proj1 (Forall_forall _ _) Hf).
Qed.

Lemma flat_entry v p : vext_ok v -> (exists c, (c, p) ∈ flat t /\ vext_of (c, p) = v) <-> entry t v p.
Proof using Hwf.
  intros Hv. split.
  - intros (c & Hin & <-). destruct (flat_ok _ _ Hin) as [Hc [Ho _]]. unfold entry, vext_of. cbn [fst snd].
    rewrite chunk_no_join, chunk_off_join by done. apply elem_of_flat in Hin as (chunk & Hl & Hp). by exists chunk.
  - intros (chunk & Hl & Hp & Ho). exists (chunk_no v). split; [apply elem_of_flat; by exists chunk|].
    unfold vext_of. cbn [fst snd]. rewrite Ho. by apply join_parts.
Qed.

Lemma increasing_app l l' : increasing l -> increasing l' -> (forall x y, x ∈ l -> y ∈ l' -> x < y) -> increasing (l ++ l').
Proof using Type.
  intros Hl Hl' Hlt. induction l as [|x l IH]; [done|]. apply increasing_cons_inv in Hl as [Hl Hx]. cbn [app].
  apply increasing_cons; [apply IH; [done|]; intros; apply Hlt; [by right|done]|]. apply Forall_app. split; [done|].
  apply Forall_forall. intros y Hy. apply Hlt; [by left|done].
Qed.

Lemma chunk_increasing c chunk : chunk_ok I c chunk -> increasing (map (fun p => vext_of (c, p)) chunk).
Proof using Type.
  intros (Hc & _ & Hs & Hf). induction chunk as [|p r IH]; cbn [map]; [constructor|].
  apply Forall_cons in Hf as [[Hp _] Hf]. cbn [offs map] in Hs. apply increasing_cons_inv in Hs as [Hs Hlt].
  apply increasing_cons; [by apply IH|]. apply Forall_map, Forall_forall. intros q Hq.
  pose proof (proj1 (Forall_offs _ _) Hlt q Hq). pose proof (proj1 (Forall_forall _ _) Hf q Hq) as [Hqo _].
  unfold vext_of. cbn [fst snd]. rewrite !join_cat by done. lia.
Qed.

Lemma keys_flat_map (cs : list Z) :
  increasing cs -> (forall c, c ∈ cs -> is_Some (chunks t !! c)) ->
  increasing (flat_map (fun c => map (fun p => vext_of (c, p)) (default [] (chunks t !! c))) cs).
Proof using Hwf.
  intros Hs. induction cs as [|c cs IH]; intros Hin; cbn [flat_map]; [constructor|].
  apply increasing_cons_inv in Hs as [Hs Hall].
  destruct (Hin c ltac:(by left)) as [chunk Hc]. rewrite Hc. cbn [default from_option id].
  pose proof (wf_chunks _ _ Hwf _ _ Hc) as Hok.
  apply increasing_app; [by apply chunk_increasing|apply IH; [done|]; intros; apply Hin; by right|].
  intros x y Hx Hy. apply list_elem_of_fmap in Hx as (p & -> & Hp).
  apply list_elem_of_In, in_flat_map in Hy as (c' & Hc' & Hy). apply list_elem_of_In in Hc'.
  destruct (Hin c' ltac:(by right)) as [chunk' Hl']. rewrite Hl' in Hy. apply in_map_iff in Hy as (q & <- & Hq%list_elem_of_In).
  destruct Hok as (Hr & _ & _ & Hf). destruct (wf_chunks _ _ Hwf _ _ Hl') as (Hr' & _ & _ & Hf').
  pose proof (proj1 (Forall_forall _ _) Hf p Hp) as [Hpo _]. pose proof (proj1 (Forall_forall _ _) Hf' q Hq) as [Hqo _].
  pose proof (proj1 (Forall_forall _ _) Hall c' Hc') as Hlt. cbn in Hlt.
  unfold vext_of. cbn [fst snd]. rewrite !join_cat by done. lia.
Qed.

Lemma keys_as_flat_map :
  keys t = flat_map (fun c => map (fun p => vext_of (c, p)) (default [] (chunks t !! c))) (chunk_keys t).
Proof using Type.
  unfold keys, flat. induction (chunk_keys t) as [|c cs IH]; [done|]. cbn [flat_map]. by rewrite map_app, map_map, IH.
Qed.

Lemma keys_increasing : increasing (keys t).
Proof using Hwf.
  rewrite keys_as_flat_map. apply keys_flat_map; [apply sort_dedup_increasing|]. intros c. by rewrite elem_of_chunk_keys.
Qed.

Definition item (cp : Z * Packed) : Z * ExtentLocation :=
  (vext_of cp, location I (snd cp) (mirrors_of t (vext_of cp))).

(** The memo of [iter] is never stale. *)
Lemma iter_from_items last l :
  (forall o id, last = Some (o, id) -> id = slab_of I o) -> iter_from I t last l = map item l.
Proof using Type.
  revert last. induction l as [|[c p] l IH]; intros last Hl; [done|]. cbn [iter_from map].
  destruct last as [[o id]|]; [destruct (Z.eqb_spec o (p_slab p)) as [->|Hne]|]; rewrite IH.
  - by rewrite (Hl _ _ eq_refl).
  - intros ? ? [= <- <-]. by apply Hl.
  - done.
  - by intros ? ? [= <- <-].
  - done.
  - by intros ? ? [= <- <-].
Qed.
Lemma iter_items : iter I t = map item (flat t).
Proof using Type. by apply iter_from_items. Qed.

Lemma iter_keys : map fst (iter I t) = keys t.
Proof using Type. rewrite iter_items, map_map. done. Qed.

Lemma get_entry v l :
  get I t v = Some l <-> exists p, entry t v p /\ l = location I p (mirrors_of t v).
Proof using Hwf.
  unfold get. rewrite fmap_Some. by setoid_rewrite entry_spec.
Qed.

Lemma to_btree_lookup v : vext_ok v -> to_btree I t !! v = get I t v.
Proof using Hwf.
  intros Hv. apply option_eq. intros l. unfold to_btree.
  rewrite <- elem_of_list_to_map by (change (NoDup (map fst (iter I t))); rewrite iter_keys; apply increasing_NoDup, keys_increasing).
  rewrite iter_items, list_elem_of_fmap, get_entry. split.
  - intros ([c p] & [= Ev El] & Hin). exists p. split; [apply flat_entry; [done|]; by exists c|]. cbn [snd] in El. by rewrite <- Ev in El.
  - intros (p & Hp & ->). apply flat_entry in Hp as (c & Hin & Hc); [|done]. exists (c, p). split; [|done].
    unfold item. by rewrite Hc.
Qed.

Lemma to_btree_range v l : to_btree I t !! v = Some l -> vext_ok v.
Proof using Hwf.
  unfold to_btree. intros Hl%elem_of_list_to_map_2. rewrite iter_items in Hl.
  apply list_elem_of_fmap in Hl as ([c p] & [= -> _] & Hin). destruct (flat_ok _ _ Hin) as [Hc [Ho _]]. by apply join_ok.
Qed.

Lemma size_flat : zlen (flat t) = Z.of_nat (size (to_btree I t)).
Proof using Hwf.
  unfold to_btree. rewrite map_size_list_to_map; [|change (NoDup (map fst (iter I t))); rewrite iter_keys; apply increasing_NoDup, keys_increasing].
  unfold zlen. by rewrite iter_items, length_map.
Qed.
End Table.

(** ** The table as a map *)

(** [t] holds the map [m] (and counts it). *)
Definition Rep (I : Interner) (t : ExtentTable) (m : gmap Z ExtentLocation) : Prop :=
  wf0 I t /\ to_btree I t = m /\ tlen t = Z.of_nat (size m).

Lemma rep_get I t m v : Rep I t m -> vext_ok v -> get I t v = m !! v.
Proof. intros (Hwf & <- & _) Hv. symmetry. by apply to_btree_lookup. Qed.
Lemma rep_range I t m v l : Rep I t m -> m !! v = Some l -> vext_ok v.
Proof. intros (Hwf & <- & _). by apply to_btree_range. Qed.
Lemma rep_interner I t m : Rep I t m -> interner_ok I.
Proof. intros ([Hi _ _] & _). done. Qed.

Lemma rep_intro I t m :
  wf0 I t -> (forall v, vext_ok v -> get I t v = m !! v) -> (forall v l, m !! v = Some l -> vext_ok v) ->
  tlen t = Z.of_nat (size m) -> Rep I t m.
Proof.
  intros Hwf Hg Hr Hl. split; [done|]. split; [|done]. apply map_eq. intros v.
  destruct (decide (0 <= v < 2 ^ 64)) as [Hv|Hv]; [by rewrite to_btree_lookup, Hg|].
  destruct (to_btree I t !! v) as [l|] eqn:E; [by apply to_btree_range in E|].
  destruct (m !! v) as [l|] eqn:E'; [by apply Hr in E'|done].
Qed.

Lemma location_grows I I' p ms : grows I I' -> packed_ok I p -> location I' p ms = location I p ms.
Proof. intros Hg [_ Hp]. unfold location. by rewrite (slab_of_grows I I'). Qed.

Lemma entry_packed_ok I t v p : wf0 I t -> entry t v p -> packed_ok I p.
Proof.
  intros Hwf (chunk & Hc & Hp & _). destruct (wf_chunks _ _ Hwf _ _ Hc) as (_ & _ & _ & Hf).
  by apply (proj1 (Forall_forall _ _) Hf).
Qed.

Lemma get_grows I I' t v : grows I I' -> interner_ok I' -> wf0 I t -> get I' t v = get I t v.
Proof.
  intros Hg Hi Hwf. unfold get. destruct (find t v) as [p|] eqn:E; [|done]. cbn. f_equal.
  apply location_grows; [done|]. eapply entry_packed_ok; [done|]. by apply (entry_spec I t Hwf).
Qed.

(** A table is the same map after the interner grew for another one. *)
Lemma rep_grows I I' t m : grows I I' -> interner_ok I' -> Rep I t m -> Rep I' t m.
Proof.
  intros Hg Hi HR. pose proof HR as (Hwf & _ & Hl). apply rep_intro; [by eapply wf0_grows| | |done].
  - intros v Hv. rewrite get_grows with (I := I) by done. by apply rep_get.
  - intros v l. by eapply rep_range.
Qed.

Lemma rep_empty I : interner_ok I -> Rep I new_table ∅.
Proof.
  intros Hi. apply rep_intro; [|done|done|done]. split; [done|..]; intros ? ? [=].
Qed.

Definition put_mirrors (v : Z) (ms : list Leg) (m : gmap Z (list Leg)) : gmap Z (list Leg) :=
  match ms with [] => delete v m | _ => <[v := ms]> m end.
Lemma put_mirrors_lookup v ms m w :
  put_mirrors v ms m !! w = if decide (w = v) then (match ms with [] => None | _ => Some ms end) else m !! w.
Proof.
  unfold put_mirrors. destruct (decide (w = v)) as [->|Hne], ms;
    rewrite ?lookup_delete_eq, ?lookup_insert_eq, ?lookup_delete_ne, ?lookup_insert_ne by done; done.
Qed.

(** The search answers by the entries alone: one entry changed, one answer changed. *)
Lemma find_of_entries I I' t t' v new :
  wf0 I t -> interner_ok I' -> map_Forall (chunk_ok I') (chunks t') ->
  (forall w q, vext_ok w -> entry t' w q <-> if decide (w = v) then new = Some q else entry t w q) ->
  forall w, vext_ok w -> find t' w = if decide (w = v) then new else find t w.
Proof.
  intros Hwf Hi Hchunks Hent w Hw. apply option_eq. intros q.
  assert (wf0 I' (mkTable (chunks t') ∅ 0)) as Hwf1 by (split; [done|done|intros ? ? [=]]).
  change (find t' w) with (find (mkTable (chunks t') ∅ 0) w). rewrite (entry_spec I' _ Hwf1).
  change (entry (mkTable (chunks t') ∅ 0) w q) with (entry t' w q). rewrite Hent by done.
  case_decide; [done|]. by rewrite (entry_spec I t Hwf).
Qed.

(** Replacing the chunk of [v] by one with [v]'s entry set. *)
Lemma put_spec I t I' t' v loc packed chunk' :
  wf0 I t -> vext_ok v -> grows I I' -> interner_ok I' ->
  chunks t' = <[chunk_no v := chunk']> (chunks t) -> tmirrors t' = put_mirrors v (mirrors loc) (tmirrors t) ->
  p_off packed = chunk_off v -> packed_ok I' packed -> location I' packed (mirrors loc) = loc ->
  increasing (offs chunk') ->
  (forall q, q ∈ chunk' <-> q = packed \/ (q ∈ default [] (chunks t !! chunk_no v) /\ p_off q <> chunk_off v)) ->
  wf0 I' t' /\ forall w, vext_ok w -> get I' t' w = if decide (w = v) then Some loc else get I t w.
Proof.
  intros Hwf Hv Hg Hi Hcs Hms Hoff Hpok Hloc Hinc Hel.
  assert (map_Forall (chunk_ok I') (chunks t')) as Hchunks.
  { rewrite Hcs. intros c chunk Hl. destruct (decide (c = chunk_no v)) as [->|Hne].
    - rewrite lookup_insert_eq in Hl. injection Hl as <-. split_and!; try apply chunk_no_range; [done|done| |done|].
      + intros ->. apply (not_elem_of_nil packed). apply Hel. by left.
      + apply Forall_forall. intros q [->|[Hq _]]%Hel; [done|]. destruct (chunks t !! chunk_no v) as [chunk|] eqn:Ec; [|by apply elem_of_nil in Hq].
        destruct (chunk_ok_grows I I' _ _ Hg (wf_chunks _ _ Hwf _ _ Ec)) as (_ & _ & _ & Hf). by apply (proj1 (Forall_forall _ _) Hf).
    - rewrite lookup_insert_ne in Hl by done. eapply chunk_ok_grows; [done|]. by apply (wf_chunks _ _ Hwf). }
  assert (forall w, vext_ok w -> find t' w = if decide (w = v) then Some packed else find t w) as Hfind.
  { apply (find_of_entries I I'); [done..|]. intros w q Hw. unfold entry. rewrite Hcs. destruct (decide (w = v)) as [->|Hne].
    - rewrite lookup_insert_eq. split; [by intros (? & [= <-] & [->|[_ Hno]]%Hel & Ho)|].
      intros [= <-]. exists chunk'. rewrite Hel. tauto.
    - destruct (decide (chunk_no w = chunk_no v)) as [Ec|Ec]; [|by rewrite lookup_insert_ne by done].
      assert (chunk_off w <> chunk_off v) as Hne' by (intros Eo; apply Hne; by apply parts_inj).
      rewrite Ec, lookup_insert_eq. split.
      + intros (? & [= <-] & [->|[Hq Hqo]]%Hel & Ho); [congruence|].
        destruct (chunks t !! chunk_no v) as [chunk|]; [|by apply elem_of_nil in Hq]. by exists chunk.
      + intros (chunk & Hc & Hq & Ho). exists chunk'. rewrite Hel, Hc. cbn. split; [done|]. split; [right; split; [done|congruence]|done]. }
  split.
  - split; [done|done|]. rewrite Hms. intros w ms Hl. rewrite put_mirrors_lookup in Hl. destruct (decide (w = v)) as [->|Hne].
    + destruct (mirrors loc) as [|g l]; [done|]. injection Hl as <-. rewrite Hfind, decide_True by done. split_and!; by try apply Hv.
    + destruct (wf_mirrors _ _ Hwf _ _ Hl) as (Hw & Hn & Hs). rewrite Hfind, decide_False by done. done.
  - intros w Hw. unfold get, mirrors_of. rewrite Hfind, Hms, put_mirrors_lookup by done. destruct (decide (w = v)) as [->|Hne].
    + cbn. f_equal. rewrite <- Hloc at 2. f_equal. by destruct (mirrors loc).
    + destruct (find t w) as [q|] eqn:Eq; [|done]. cbn. f_equal. apply location_grows; [done|].
      eapply entry_packed_ok; [done|]. by apply (entry_spec I t Hwf).
Qed.

Lemma insert_rep I t m v loc :
  Rep I t m -> vext_ok v ->
  match insert I t v loc with
  | Some (I', t', old) => Rep I' t' (<[v := loc]> m) /\ old = m !! v /\ grows I I'
  | None => no_room I (loc_slab loc)
  end.
Proof.
  intros HR Hv. pose proof HR as (Hwf & Hm & Hlen). unfold insert. rewrite split_div. unfold pack.
  pose proof (slab_ordinal_spec I (loc_slab loc) (wf_int _ _ Hwf)) as Ho.
  destruct (slab_ordinal I (loc_slab loc)) as [[I' o]|]; [|done]. destruct Ho as (Hi & Hg & Hor & Hos). cbn [mbind option_bind].
  set (packed := mkPacked (chunk_off v) o (loc_slot loc) (ref_count loc) (generation loc)).
  set (chunk := default [] (chunks t !! chunk_no v)).
  assert (increasing (offs chunk)) as Hinc.
  { unfold chunk. destruct (chunks t !! chunk_no v) as [ch|] eqn:E; [|constructor]. by destruct (wf_chunks _ _ Hwf _ _ E) as (_ & _ & ? & _). }
  pose proof (bsearch_ok (chunk_off v) chunk Hinc) as Hb.
  assert (packed_ok I' packed) as Hpok by (split; [apply chunk_off_range|done]).
  assert (location I' packed (mirrors loc) = loc) as Hloc by (unfold location; cbn; rewrite Hos; by destruct loc).
  assert (forall t' chunk', chunks t' = <[chunk_no v := chunk']> (chunks t) -> tmirrors t' = put_mirrors v (mirrors loc) (tmirrors t) ->
    increasing (offs chunk') -> (forall q, q ∈ chunk' <-> q = packed \/ (q ∈ chunk /\ p_off q <> chunk_off v)) ->
    tlen t' = Z.of_nat (size (<[v := loc]> m)) -> Rep I' t' (<[v := loc]> m)) as Hput.
  { intros t' chunk' Hcs Hms Hinc' Hel Hlen'. destruct (put_spec I t I' t' v loc packed chunk') as [Hwf' Hget]; try done.
    apply rep_intro; [done| | |done].
    - intros w Hw. rewrite Hget by done. case_decide as E; [by rewrite E, lookup_insert_eq|]. rewrite lookup_insert_ne by done. by apply rep_get.
    - intros w l. destruct (decide (w = v)) as [->|]; [done|]. rewrite lookup_insert_ne by done. by eapply rep_range. }
  assert (mirrors_match : match mirrors loc with [] => delete v (tmirrors t) | _ => <[v := mirrors loc]> (tmirrors t) end
          = put_mirrors v (mirrors loc) (tmirrors t)) by done.
  pose proof (rep_get I t m v HR Hv) as Hgv. unfold get, find in Hgv. rewrite split_div in Hgv.
  destruct (bsearch (chunk_off v) chunk) as [i|i] eqn:Eb.
  - destruct Hb as (p & Hp & Hpo & Hu & Hins & _). rewrite Hp. cbn [fmap option_fmap option_map].
    assert (m !! v = Some (location I p (default [] (tmirrors t !! v)))) as Hmv.
    { rewrite <- Hgv. unfold chunk in Eb, Hp. destruct (chunks t !! chunk_no v) as [ch|]; [|done]. cbn in *. by rewrite Eb, Hp. }
    split_and!; [|rewrite Hmv; f_equal; symmetry|done].
    + apply (Hput _ (<[i := packed]> chunk)); [done|done| |by intros q; apply Hins|].
      * unfold offs. rewrite list_fmap_insert. cbn. rewrite list_insert_id; [done|]. by rewrite list_lookup_fmap, Hp, <- Hpo.
      * cbn [tlen]. rewrite map_size_insert_Some by (by eexists). done.
    + symmetry. apply location_grows; [done|]. apply (entry_packed_ok I t v); [done|]. unfold entry. unfold chunk in Hp.
      destruct (chunks t !! chunk_no v) as [ch|]; [|done]. exists ch. split; [done|]. split; [by eapply list_elem_of_lookup_2|done].
  - destruct Hb as (Hno & Hins & Hsort).
    assert (m !! v = None) as Hmv.
    { rewrite <- Hgv. unfold chunk in Eb. destruct (chunks t !! chunk_no v) as [ch|]; [|done]. cbn in *. by rewrite Eb. }
    split_and!; [|by rewrite Hmv|done]. apply (Hput _ (vec_insert i packed chunk)); [done|done|by apply Hsort| |].
    + intros q. rewrite Hins. split; [intros [->|Hq]; [by left|right; split; [done|by apply Hno]]|tauto].
    + cbn [tlen]. rewrite map_size_insert_None by done. lia.
Qed.

(** An id already interned costs nothing and cannot fail. *)
Lemma insert_known I t m v loc o :
  Rep I t m -> vext_ok v -> ords I !! loc_slab loc = Some o ->
  exists t', insert I t v loc = Some (I, t', m !! v) /\ Rep I t' (<[v := loc]> m).
Proof.
  intros HR Hv Ho. pose proof (insert_rep I t m v loc HR Hv) as Hi.
  assert (forall x, insert I t v loc = Some x -> fst (fst x) = I) as Hsame.
  { intros x. unfold insert, pack, slab_ordinal. rewrite split_div, Ho. cbn [mbind option_bind].
    destruct (bsearch _ _); intros [= <-]; done. }
  destruct (insert I t v loc) as [[[I' t'] old]|]; [|by destruct Hi as [? _]; congruence].
  specialize (Hsame _ eq_refl). cbn in Hsame. subst I'. destruct Hi as (HR' & -> & _). by exists t'.
Qed.

Lemma slab_known I o : interner_ok I -> 0 <= o < zlen (ids I) -> ords I !! slab_of I o = Some o.
Proof.
  intros Hi Ho. apply Hi. split; [lia|]. unfold slab_of, zlen in *. rewrite nth_lookup.
  by destruct (lookup_lt_is_Some_2 (ids I) (Z.to_nat o)) as [x ->]; [lia|].
Qed.

Lemma rep_slab_known I t m v l : Rep I t m -> m !! v = Some l -> exists o, ords I !! loc_slab l = Some o.
Proof.
  intros HR Hl. pose proof HR as (Hwf & _). rewrite <- (rep_get I t m v) in Hl by (done || by eapply rep_range).
  unfold get in Hl. apply fmap_Some in Hl as (p & Hp & ->). apply (entry_spec I t Hwf) in Hp.
  destruct (entry_packed_ok I t v p Hwf Hp) as [_ Ho]. exists (p_slab p). cbn. apply slab_known; [apply Hwf|done].
Qed.

Lemma rep_iter_known I t m : Rep I t m -> Forall (fun vl => vext_ok (fst vl) /\ exists o, ords I !! loc_slab (snd vl) = Some o) (iter I t).
Proof.
  intros HR. pose proof HR as (Hwf & Hm & _). apply Forall_forall. intros [v l] Hin. cbn.
  assert (m !! v = Some l) as Hl.
  { rewrite <- Hm. unfold to_btree. apply elem_of_list_to_map_1; [|done].
    change (NoDup (map fst (iter I t))). rewrite iter_keys. by apply increasing_NoDup, (keys_increasing I). }
  split; [by eapply rep_range|by eapply rep_slab_known].
Qed.

Lemma insert_all_known I vls : forall t m,
  Rep I t m -> Forall (fun vl => vext_ok (fst vl) /\ exists o, ords I !! loc_slab (snd vl) = Some o) vls ->
  exists t', insert_all I t vls = Some (I, t') /\ Rep I t' (foldl (fun m vl => <[fst vl := snd vl]> m) m vls).
Proof.
  induction vls as [|[v l] vls IH]; intros t m HR Hk; [by exists t|].
  apply Forall_cons in Hk as [[Hv [o Ho]] Hk]. cbn in Hv, Ho.
  destruct (insert_known I t m v l o HR Hv Ho) as (t' & Hins & HR'). destruct (IH t' _ HR' Hk) as (t'' & Hall & HR'').
  exists t''. split; [|exact HR'']. unfold insert_all in *. cbn [foldl fst snd mbind option_bind]. rewrite Hins. cbn [mbind option_bind]. exact Hall.
Qed.

Lemma foldl_insert_union (vls : list (Z * ExtentLocation)) : forall m,
  NoDup (map fst vls) -> foldl (fun m vl => <[fst vl := snd vl]> m) m vls = (list_to_map vls : gmap Z ExtentLocation) ∪ m.
Proof.
  induction vls as [|[v l] vls IH]; intros m Hnd; cbn [foldl list_to_map]; [symmetry; apply (left_id_L ∅ (∪))|].
  cbn [map] in Hnd. apply NoDup_cons in Hnd as [Hnot Hnd]. rewrite IH by done. cbn [fst snd].
  assert ((list_to_map vls : gmap Z ExtentLocation) !! v = None) as Hn by (by apply not_elem_of_list_to_map_1).
  rewrite <- insert_union_r by done. by rewrite insert_union_l.
Qed.

Lemma extend_from_rep I t m o mo :
  Rep I t m -> Rep I o mo -> exists t', extend_from I t o = Some (I, t') /\ Rep I t' (mo ∪ m).
Proof.
  intros HR HRo. destruct (insert_all_known I (iter I o) t m HR (rep_iter_known I o mo HRo)) as (t' & Ht & HR').
  exists t'. split; [done|]. destruct HRo as (Hwf & Hmo & _). rewrite foldl_insert_union in HR'.
  - change (list_to_map (iter I o)) with (to_btree I o) in HR'. by rewrite Hmo in HR'.
  - rewrite iter_keys. by apply increasing_NoDup, (keys_increasing I).
Qed.

(** Taking [v]'s entry out of its chunk, and the chunk with its last entry. *)
Lemma del_spec I t t' v p chunk chunk' :
  wf0 I t -> vext_ok v -> chunks t !! chunk_no v = Some chunk -> p ∈ chunk -> p_off p = chunk_off v ->
  (forall q, q ∈ chunk' <-> q ∈ chunk /\ p_off q <> chunk_off v) -> increasing (offs chunk') ->
  chunks t' = (match chunk' with [] => delete (chunk_no v) (chunks t) | _ => <[chunk_no v := chunk']> (chunks t) end) ->
  map_Forall (chunk_ok I) (chunks t')
  /\ forall w, vext_ok w -> find t' w = if decide (w = v) then None else find t w.
Proof.
  intros Hwf Hv Hc Hp Hpo Hrem Hrinc Hcs.
  assert (forall c, chunks t' !! c = if decide (c = chunk_no v) then (match chunk' with [] => None | _ => Some chunk' end) else chunks t !! c) as Hl.
  { intros c. rewrite Hcs. destruct (decide (c = chunk_no v)) as [->|], chunk';
      rewrite ?lookup_delete_eq, ?lookup_insert_eq, ?lookup_delete_ne, ?lookup_insert_ne by done; done. }
  assert (map_Forall (chunk_ok I) (chunks t')) as Hchunks.
  { intros c ch. rewrite Hl. destruct (decide (c = chunk_no v)) as [->|]; [|by apply (wf_chunks _ _ Hwf)].
    destruct (wf_chunks _ _ Hwf _ _ Hc) as (Hcr & _ & _ & Hf). intros E.
    assert (chunk' = ch /\ ch <> []) as [<- Hn] by (destruct chunk'; by simplify_eq).
    split_and!; try apply Hcr; [done|done|]. apply Forall_forall. intros q [Hq _]%Hrem. by apply (proj1 (Forall_forall _ _) Hf). }
  split; [done|]. apply (find_of_entries I I); [done|apply Hwf|done|]. intros w q Hw. unfold entry. rewrite Hl.
  destruct (decide (w = v)) as [->|Hne]; [rewrite decide_True by done|].
  - split; [|done]. intros (ch & E & Hq & Ho). assert (chunk' = ch) as <- by (destruct chunk'; by simplify_eq).
    by apply Hrem in Hq as [_ []].
  - destruct (decide (chunk_no w = chunk_no v)) as [Ec|]; [|done].
    assert (chunk_off w <> chunk_off v) as Hne' by (intros Eo; apply Hne; by apply parts_inj).
    rewrite Ec, Hc. split.
    + intros (ch & E & Hq & Ho). assert (chunk' = ch) as <- by (destruct chunk'; by simplify_eq).
      apply Hrem in Hq as [Hq _]. by exists chunk.
    + intros (? & [= <-] & Hq & Ho). assert (q ∈ chunk') as Hq' by (apply Hrem; split; [done|congruence]).
      exists chunk'. split; [|done]. destruct chunk'; [by apply elem_of_nil in Hq'|done].
Qed.

Lemma remove_rep I t m v :
  Rep I t m -> vext_ok v -> Rep I (fst (remove I t v)) (delete v m) /\ snd (remove I t v) = m !! v.
Proof.
  intros HR Hv. pose proof HR as (Hwf & Hm & Hlen). pose proof (rep_get I t m v HR Hv) as Hgv.
  unfold get, find in Hgv. rewrite split_div in Hgv. unfold remove. rewrite split_div.
  destruct (chunks t !! chunk_no v) as [chunk|] eqn:Hc; cbn in Hgv.
  2: { cbn. rewrite <- Hgv. split; [|done]. rewrite delete_id; done. }
  destruct (wf_chunks _ _ Hwf _ _ Hc) as (_ & _ & Hinc & _).
  pose proof (bsearch_ok (chunk_off v) chunk Hinc) as Hb. destruct (bsearch (chunk_off v) chunk) as [i|i].
  2: { cbn. rewrite <- Hgv. split; [|done]. rewrite delete_id; done. }
  destruct Hb as (p & Hp & Hpo & _ & _ & Hrem & Hrinc). rewrite Hp in Hgv |- *. cbn in Hgv. cbn [fst snd].
  split; [|by rewrite <- Hgv]. set (t' := mkTable _ _ _).
  destruct (del_spec I t t' v p chunk (vec_remove i chunk)) as [Hchunks Hfind]; try done; [by eapply list_elem_of_lookup_2|].
  apply rep_intro.
  - split; [apply Hwf|done|]. intros w ms. unfold t' at 1. cbn [tmirrors]. intros [Hwv Hl]%lookup_delete_Some.
    destruct (wf_mirrors _ _ Hwf _ _ Hl) as (Hw & Hn & Hs). rewrite Hfind, decide_False by (done || congruence). done.
  - intros w Hw. unfold get. rewrite Hfind by done. case_decide as E; [by rewrite E, lookup_delete_eq|].
    rewrite lookup_delete_ne by done. rewrite <- (rep_get I t m w HR Hw). unfold get, mirrors_of, t'. cbn [tmirrors].
    by rewrite lookup_delete_ne by done.
  - intros w l [_ Hl]%lookup_delete_Some. by eapply rep_range.
  - unfold t'. cbn [tlen]. rewrite Hlen, map_size_delete_Some by (by eexists).
    assert (size m <> 0%nat); [|lia]. intros ->%map_size_empty_iff. done.
Qed.
