(* ===== verification/ExtTableLaws.v ===== *)
(** The contract of the packed extent table: it implements the maps of [ExtMap],
    operation by operation, with its walks in key order. *)

From S2P Require Import Prelude GemData ExtTable ExtMap ExtTableProofs.

(** The only failure: the process has seen four billion slabs. *)
Definition exhausted (I : Interner) : Prop := exists I' id, grows I I' /\ no_room I' id.

Lemma exhausted_grows I I' : grows I I' -> exhausted I' -> exhausted I.
Proof. intros Hg (I2 & id & Hg2 & Hn). exists I2, id. split; [by transitivity I'|done]. Qed.

Section Laws.
Context (I : Interner) (t : ExtentTable) (m : extmap) (HR : Rep I t m).

Lemma flat_count : zlen (flat t) = Z.of_nat (size m).
Proof using HR. destruct HR as (Hwf & <- & _). by apply size_flat. Qed.

Lemma rep_keys : keys t = sorted_keys m.
Proof using HR.
  destruct HR as (Hwf & Hm & _). apply increasing_ext; [by apply (keys_increasing I)|apply sort_dedup_increasing|].
  intros v. rewrite elem_of_sorted_keys, <- Hm, <- (iter_keys I t), list_elem_of_fmap. unfold to_btree. split.
  - intros ([v' l] & -> & Hin). exists l. cbn. apply elem_of_list_to_map_1; [|done].
    change (NoDup (map fst (iter I t))). rewrite iter_keys. by apply increasing_NoDup, (keys_increasing I).
  - intros [l Hl%elem_of_list_to_map_2]. by exists (v, l).
Qed.

Lemma rep_iter : iter I t = entries m.
Proof using HR.
  assert (forall l l' : list (Z * ExtentLocation), map fst l = map fst l' -> NoDup (map fst l) ->
            (forall v x, (v, x) ∈ l -> (v, x) ∈ l') -> NoDup (map fst l') -> l = l') as Hext.
  { clear. induction l as [|[v x] l IH]; intros [|[v' x'] l'] He Hnd Hin Hnd'; try done. cbn in He, Hnd, Hnd'.
    injection He as <- He. apply NoDup_cons in Hnd as [Hv Hnd]. apply NoDup_cons in Hnd' as [Hv' Hnd'].
    assert (x = x') as <-.
    { assert ((v, x) ∈ (v, x') :: l') as Hx by (apply Hin; by left). rewrite elem_of_cons in Hx. destruct Hx as [[= ->]|Hx]; [done|].
      destruct Hv'. apply list_elem_of_fmap. by exists (v, x). }
    f_equal. apply IH; [done|done| |done]. intros w y Hy.
    assert ((w, y) ∈ (v, x) :: l') as Hw by (apply Hin; by right). rewrite elem_of_cons in Hw. destruct Hw as [[= -> ->]|]; [|done].
    destruct Hv. apply list_elem_of_fmap. by exists (v, x). }
  apply Hext; [|rewrite iter_keys, rep_keys; apply sort_dedup_NoDup| |rewrite map_fst_entries; apply sort_dedup_NoDup].
  - by rewrite iter_keys, map_fst_entries, rep_keys.
  - intros v l Hin. apply elem_of_entries. destruct HR as (Hwf & <- & _). apply elem_of_list_to_map_1; [|done].
    change (NoDup (map fst (iter I t))). rewrite iter_keys. by apply increasing_NoDup, (keys_increasing I).
Qed.

Lemma rep_ref_counts : ref_counts t = map (fun vl => ref_count (snd vl)) (entries m).
Proof using HR. rewrite <- rep_iter, iter_items, map_map. done. Qed.

Lemma update_rep {R} v (f : ExtentLocation -> ExtentLocation * R) :
  vext_ok v ->
  match update I t v f with
  | Some (I', t', r) => Rep I' t' (fst (em_update v f m)) /\ r = snd (em_update v f m) /\ grows I I'
  | None => exhausted I
  end.
Proof using HR.
  intros Hv. unfold update, em_update. rewrite (rep_get I t m v HR Hv). destruct (m !! v) as [l|] eqn:El; [|done].
  destruct (f l) as [l' r]. pose proof (insert_rep I t m v l' HR Hv) as Hi.
  destruct (insert I t v l') as [[[I' t'] old]|]; cbn; [by destruct Hi as (? & _ & ?)|by exists I, (loc_slab l')].
Qed.

Lemma keys_in_spec lo hi :
  0 <= lo -> 0 <= hi < 2 ^ 64 -> keys_in t lo hi = filter (fun v => lo <= v < hi) (sorted_keys m).
Proof using HR.
  intros Hlo Hhi. destruct HR as (Hwf & _). rewrite <- rep_keys, (keys_as_flat_map t). unfold keys_in, CHUNK_SHIFT.
  rewrite !Z.shiftr_div_pow2 by lia. set (first := lo / 2 ^ 6).
  set (last := if hi =? 0 then 0 else (hi - 1) / 2 ^ 6 + 1).
  assert (forall c, c ∈ chunk_keys t -> is_Some (chunks t !! c)) as Hcs by (intros c; by rewrite elem_of_chunk_keys).
  induction (chunk_keys t) as [|c cs IH]; [done|]. cbn [flat_map]. rewrite filter_cons, filter_app.
  rewrite <- IH by (intros; apply Hcs; by right). case_decide as Hc; cbn [flat_map]; [by rewrite filter_app|].
  destruct (Hcs c ltac:(by left)) as [chunk Hl]. rewrite Hl. cbn [default from_option id].
  destruct (wf_chunks _ _ Hwf _ _ Hl) as (Hcr & _ & _ & Hf).
  assert (filter (fun v => lo <= v < hi) (map (fun p => vext_of (c, p)) chunk) = []) as ->; [|done].
  clear IH Hl Hcs. induction chunk as [|p r IH]; [done|]. apply Forall_cons in Hf as [[Ho _] Hf]. cbn [map].
  rewrite filter_cons, IH by done. rewrite decide_False; [done|]. unfold vext_of. cbn [fst snd]. rewrite join_cat by done.
  intros [H1 H2]. apply Hc. split.
  - unfold first. assert (lo / 2 ^ 6 < c + 1); [apply Z.div_lt_upper_bound|]; lia.
  - assert (c < last); [|lia]. unfold last. destruct (Z.eqb_spec hi 0); [lia|].
    assert (c <= (hi - 1) / 2 ^ 6); [apply Z.div_le_lower_bound|]; lia.
Qed.
End Laws.

(** One sweep, step by step. *)
Lemma for_each_rep {S} (f : Z -> ExtentLocation -> S -> ExtentLocation * bool * S) I t m s :
  Rep I t m ->
  match for_each_mut f I t s with
  | Some (I', t', s') => Rep I' t' (fst (em_each f m s)) /\ s' = snd (em_each f m s) /\ grows I I'
  | None => exhausted I
  end.
Proof.
  intros HR. unfold for_each_mut, em_each. rewrite (rep_keys I t m HR).
  assert (forall v, v ∈ sorted_keys m -> vext_ok v) as Hok by (intros v [l Hl]%elem_of_sorted_keys; by eapply rep_range).
  revert I t m s HR Hok. assert (forall ks I t m (s : S), Rep I t m -> (forall v, v ∈ ks -> vext_ok v) ->
    match foldl (fun acc vext =>
      '(I, t, s) ← acc;
      match get I t vext with
      | None => Some (I, t, s)
      | Some loc =>
          let '(loc, changed, s) := f vext loc s in
          if changed : bool then '(I, t, _) ← insert I t vext loc; Some (I, t, s) else Some (I, t, s)
      end) (Some (I, t, s)) ks with
    | Some (I', t', s') => Rep I' t' (fst (foldl (each_step f) (m, s) ks)) /\ s' = snd (foldl (each_step f) (m, s) ks) /\ grows I I'
    | None => exhausted I
    end) as Hgen; [|intros; by apply Hgen].
  induction ks as [|v ks IH]; intros I t m s HR Hok; cbn [foldl]; [done|].
  unfold each_step at 2 4. cbn [mbind option_bind fst snd]. rewrite (rep_get I t m v HR) by (apply Hok; by left).
  destruct (m !! v) as [l|]; [|apply IH; [done|]; intros; apply Hok; by right].
  destruct (f v l s) as [[l' changed] s']. destruct changed; [|apply IH; [done|]; intros; apply Hok; by right].
  pose proof (insert_rep I t m v l' HR (Hok v ltac:(by left))) as Hi.
  destruct (insert I t v l') as [[[I' t'] old]|]; cbn [mbind option_bind].
  - destruct Hi as (HR' & _ & Hg). specialize (IH I' t' _ s' HR' ltac:(intros; apply Hok; by right)).
    destruct (foldl _ _ ks) as [[[I2 t2] s2]|]; [|by eapply exhausted_grows].
    destruct IH as (HR2 & Hs & Hg2). split; [exact HR2|]. split; [exact Hs|by transitivity I'].
  - assert (forall (l0 : list Z) (g : option (Interner * ExtentTable * S) -> Z -> option (Interner * ExtentTable * S)),
              (forall v, g None v = None) -> foldl g None l0 = None) as Hnone.
    { intros l0 g Hn. induction l0 as [|w l0 IH0]; [done|]. cbn [foldl]. by rewrite Hn. }
    rewrite Hnone by done. by exists I, (loc_slab l').
Qed.

Lemma share_packed_offs n chunk : offs (map (share_packed n) chunk) = offs chunk.
Proof. unfold offs. by rewrite map_map. Qed.

Lemma bsearch_share n off chunk : bsearch off (map (share_packed n) chunk) = bsearch off chunk.
Proof. induction chunk as [|p r IH]; [done|]. cbn [map bsearch]. by rewrite IH. Qed.

Lemma add_refs_rep I t m n : Rep I t m -> Rep I (add_refs n t) (em_share n m).
Proof.
  intros HR. pose proof HR as (Hwf & Hm & Hl).
  assert (forall v, find (add_refs n t) v = share_packed n <$> find t v) as Hf.
  { intros v. unfold find, add_refs. destruct (split v) as [c off]. cbn [chunks]. rewrite lookup_fmap.
    destruct (chunks t !! c) as [chunk|]; [|done]. cbn. rewrite bsearch_share.
    destruct (bsearch off chunk); [|done]. apply list_lookup_fmap. }
  apply rep_intro.
  - split; [apply Hwf| |].
    + intros c chunk. unfold add_refs. cbn [chunks]. rewrite lookup_fmap.
      destruct (chunks t !! c) as [ch|] eqn:E; [|done]. cbn. intros [= <-].
      destruct (wf_chunks _ _ Hwf _ _ E) as (Hc & Hn & Hs & Hall). split_and!; try apply Hc; [by destruct ch|by rewrite share_packed_offs|].
      apply Forall_map. eapply Forall_impl; [exact Hall|]. done.
    + intros v ms Hv. destruct (wf_mirrors _ _ Hwf _ _ Hv) as (Hvo & Hn & [p Hp]). split; [done|]. split; [done|]. rewrite Hf, Hp. by eexists.
  - intros v Hv. unfold get, em_share. rewrite Hf, lookup_fmap, <- (rep_get I t m v HR Hv). unfold get. by destruct (find t v).
  - intros v l. unfold em_share. rewrite lookup_fmap. destruct (m !! v) eqn:E; [|done]. intros _. by eapply rep_range.
  - unfold em_share. by rewrite map_size_fmap.
Qed.

(** ** Moving a map up *)

Lemma move_keys_kmap {A} d (m : gmap Z A) :
  (forall k x, m !! k = Some x -> vext_ok (k + d)) -> move_keys d m = shift_keys d m.
Proof.
  intros H. unfold move_keys, shift_keys, kmap. f_equal. apply map_ext_in. intros [k x] Hin%list_elem_of_In%elem_of_map_to_list.
  cbn. f_equal. apply wrap_small. by eapply H.
Qed.

Lemma shifted_aligned I t m b :
  Rep I t m -> 0 <= b -> (forall v l, m !! v = Some l -> v + b * 2 ^ 6 < 2 ^ 64) ->
  Rep I (mkTable (move_keys b (chunks t)) (move_keys (b * 2 ^ 6) (tmirrors t)) (tlen t)) (em_shift (b * 2 ^ 6) m).
Proof.
  intros HR Hb Hroom. pose proof HR as (Hwf & Hm & Hl).
  rewrite em_shift_room by (intros k x Hk; pose proof (Hroom _ _ Hk); apply (rep_range I t m _ _ HR) in Hk; unfold vext_ok in Hk; lia).
  assert (forall c chunk p, chunks t !! c = Some chunk -> p ∈ chunk -> c + b < 2 ^ 58) as Hcroom.
  { intros c chunk p Hc Hp. assert ((c, p) ∈ flat t) as Hin by (apply elem_of_flat; by exists chunk).
    destruct (flat_ok I t Hwf _ _ Hin) as [Hcr [Ho _]].
    assert (get I t (join c (p_off p)) = Some (location I p (mirrors_of t (join c (p_off p))))) as Hg.
    { apply (get_entry I t Hwf). exists p. split; [|done]. exists chunk. by rewrite chunk_no_join, chunk_off_join by done. }
    rewrite (rep_get I t m _ HR (join_ok _ _ Hcr Ho)) in Hg. apply Hroom in Hg. rewrite join_cat in Hg by done. lia. }
  assert (forall c chunk, chunks t !! c = Some chunk -> 0 <= c + b < 2 ^ 58) as Hcok.
  { intros c chunk Hc. destruct (wf_chunks _ _ Hwf _ _ Hc) as (Hcr & Hn & _). destruct chunk as [|p r]; [done|].
    pose proof (Hcroom c (p :: r) p Hc ltac:(by left)). lia. }
  rewrite (move_keys_kmap b) by (intros c chunk Hc; apply Hcok in Hc; unfold vext_ok; lia).
  assert (forall v ms, tmirrors t !! v = Some ms -> vext_ok (v + b * 2 ^ 6)) as Hmok.
  { intros v ms Hv. destruct (wf_mirrors _ _ Hwf _ _ Hv) as (Hvo & _ & [p Hp]).
    pose proof (rep_get I t m v HR Hvo) as Hg. unfold get in Hg. rewrite Hp in Hg. symmetry in Hg. apply Hroom in Hg.
    unfold vext_ok in *. lia. }
  rewrite (move_keys_kmap (b * 2 ^ 6)) by done. set (t' := mkTable _ _ _).
  assert (forall w, find t' w = find t (w - b * 2 ^ 6)) as Hfind.
  { intros w. unfold find. rewrite !split_div. cbn [t' chunks]. unfold t'. cbn [chunks]. rewrite shift_keys_lookup.
    assert (chunk_no (w - b * 2 ^ 6) = chunk_no w - b) as ->.
    { unfold chunk_no. replace (w - b * 2 ^ 6) with (w + - b * 2 ^ 6) by lia. rewrite Z.div_add by lia. lia. }
    assert (chunk_off (w - b * 2 ^ 6) = chunk_off w) as ->; [|done].
    unfold chunk_off. replace (w - b * 2 ^ 6) with (w + - b * 2 ^ 6) by lia. by rewrite Z.mod_add by lia. }
  apply rep_intro.
  - split; [apply Hwf| |].
    + intros c chunk. unfold t'. cbn [chunks]. rewrite shift_keys_lookup. intros Hc. pose proof (Hcok _ _ Hc).
      destruct (wf_chunks _ _ Hwf _ _ Hc) as (_ & Hrest). split; [lia|done].
    + intros v ms. unfold t' at 1. cbn [tmirrors]. rewrite shift_keys_lookup. intros Hv.
      destruct (wf_mirrors _ _ Hwf _ _ Hv) as (_ & Hn & Hs). apply Hmok in Hv. replace (v - b * 2 ^ 6 + b * 2 ^ 6) with v in Hv by lia.
      split; [done|]. split; [done|]. by rewrite Hfind.
  - intros v Hv. unfold get, mirrors_of. rewrite Hfind, shift_keys_lookup. unfold t'. cbn [tmirrors]. rewrite shift_keys_lookup.
    destruct (decide (vext_ok (v - b * 2 ^ 6))) as [Hv'|Hv'].
    + rewrite <- (rep_get I t m _ HR Hv'). done.
    + destruct (m !! (v - b * 2 ^ 6)) as [l|] eqn:E; [by apply (rep_range I t m) in E|].
      destruct (find t (v - b * 2 ^ 6)) as [p|] eqn:Ef; [|done]. exfalso. apply Hv'.
      unfold find in Ef. rewrite split_div in Ef. destruct (chunks t !! chunk_no (v - b * 2 ^ 6)) as [chunk|] eqn:Ec; [|done].
      destruct (wf_chunks _ _ Hwf _ _ Ec) as (Hcr & _). unfold chunk_no in Hcr. unfold vext_ok in *.
      pose proof (Z.div_mod (v - b * 2 ^ 6) (2 ^ 6) ltac:(lia)). pose proof (Z.mod_pos_bound (v - b * 2 ^ 6) (2 ^ 6) ltac:(lia)). lia.
  - intros v l. rewrite shift_keys_lookup. intros Hv. pose proof (Hroom _ _ Hv).
    apply (rep_range I t m) in Hv; [|done]. unfold vext_ok in *. lia.
  - unfold t'. cbn [tlen]. by rewrite size_shift_keys.
Qed.

(** Both ways of moving a map agree with the moved map; the fast one never packs again. *)
Lemma shifted_rep I t m base :
  Rep I t m -> 0 <= base < 2 ^ 64 -> (forall v l, m !! v = Some l -> v + base < 2 ^ 64) ->
  exists t', shifted I t base = Some (I, t') /\ Rep I t' (em_shift base m).
Proof.
  intros HR Hb Hroom. unfold shifted, CHUNK_MASK, CHUNK_SHIFT. change (Z.shiftl 1 6 - 1) with (Z.ones 6).
  rewrite Z.land_ones, Z.shiftr_div_pow2 by lia. destruct (Z.eqb_spec (base mod 2 ^ 6) 0) as [E|E].
  - pose proof (Z.div_mod base (2 ^ 6) ltac:(lia)) as Hd. pose proof (Z.div_pos base (2 ^ 6) ltac:(lia) ltac:(lia)).
    generalize dependent (base / 2 ^ 6). intros b Hd Hb0. assert (base = b * 2 ^ 6) as -> by lia.
    eexists. split; [done|]. by apply shifted_aligned.
  - unfold from_iter. pose proof (rep_iter_known I t m HR) as Hk. rewrite (rep_iter I t m HR) in *.
    assert (Forall (fun vl => vext_ok (fst vl + base)) (entries m)) as Hok.
    { apply Forall_forall. intros [v l] Hin. rewrite elem_of_entries in Hin. pose proof (Hroom _ _ Hin).
      apply (rep_range I t m) in Hin; [|done]. unfold vext_ok in *. cbn. lia. }
    assert (map (fun vl : Z * ExtentLocation => (wrap 64 (fst vl + base), snd vl)) (entries m)
            = map (fun vl => (fst vl + base, snd vl)) (entries m)) as ->.
    { apply map_ext_in. intros vl Hin%list_elem_of_In. rewrite wrap_small; [done|]. by apply (proj1 (Forall_forall _ _) Hok). }
    destruct (insert_all_known I (map (fun vl => (fst vl + base, snd vl)) (entries m)) new_table ∅) as (t' & Ht & HR').
    + apply rep_empty. by eapply rep_interner.
    + apply Forall_map. apply Forall_forall. intros vl Hin. cbn. split; [by apply (proj1 (Forall_forall _ _) Hok)|].
      by apply (proj1 (Forall_forall _ _) Hk) in Hin as [_ ?].
    + exists t'. split; [done|]. rewrite foldl_insert_union, (right_id_L ∅ (∪)) in HR'.
      2: { rewrite map_map. cbn. rewrite <- (map_map fst (fun v => v + base)). apply NoDup_fmap_2; [apply _|]. apply entries_NoDup. }
      rewrite em_shift_room by (intros k x Hkx; pose proof (Hroom _ _ Hkx); apply (rep_range I t m _ _ HR) in Hkx; unfold vext_ok in Hkx; lia).
      rewrite <- (list_to_map_entries m). unfold shift_keys. rewrite kmap_list_to_map by apply _. exact HR'.
Qed.

(** ** The contract *)

Definition extmap_same (I : Interner) (t : ExtentTable) (m : extmap) : Prop :=
  (forall v, vext_ok v -> get I t v = m !! v /\ contains_key t v = bool_decide (is_Some (m !! v)))
  /\ tlen t = Z.of_nat (size m) /\ is_empty t = bool_decide (m = ∅)
  /\ to_btree I t = m.

(** C20. The packed table is a map from virtual extents to locations: whatever map
    it holds, every lookup answers as the map does, and [insert], [remove],
    [update], [for_each_mut], [add_refs], [extend_from] and [shifted] (aligned to
    a chunk or not) return what the same operation on the map returns and leave
    the table holding its result; nothing fails but the interner, at 4 G slabs. *)
Theorem extent_table_is_a_map I t m :
  Rep I t m ->
  extmap_same I t m
  /\ (forall v loc, vext_ok v ->
        match insert I t v loc with
        | Some (I', t', old) => Rep I' t' (<[v := loc]> m) /\ old = m !! v
        | None => no_room I (loc_slab loc)
        end)
  /\ (forall v, vext_ok v -> Rep I (fst (remove I t v)) (delete v m) /\ snd (remove I t v) = m !! v)
  /\ (forall v (f : ExtentLocation -> ExtentLocation * bool), vext_ok v ->
        match update I t v f with
        | Some (I', t', r) => Rep I' t' (fst (em_update v f m)) /\ r = snd (em_update v f m)
        | None => exhausted I
        end)
  /\ (forall (f : Z -> ExtentLocation -> Z -> ExtentLocation * bool * Z) s,
        match for_each_mut f I t s with
        | Some (I', t', s') => Rep I' t' (fst (em_each f m s)) /\ s' = snd (em_each f m s)
        | None => exhausted I
        end)
  /\ (forall n, Rep I (add_refs n t) (em_share n m))
  /\ (forall o mo, Rep I o mo -> exists t', extend_from I t o = Some (I, t') /\ Rep I t' (mo ∪ m))
  /\ (forall base, 0 <= base < 2 ^ 64 -> (forall v l, m !! v = Some l -> v + base < 2 ^ 64) ->
        exists t', shifted I t base = Some (I, t') /\ Rep I t' (em_shift base m)).
Proof.
  intros HR. split_and!.
  - split_and!.
    + intros v Hv. rewrite <- (rep_get I t m v HR Hv). split; [done|]. unfold contains_key, get.
      by destruct (find t v).
    + apply HR.
    + unfold is_empty. destruct HR as (_ & _ & ->). case_bool_decide as E.
      * rewrite E, map_size_empty. done.
      * apply Z.eqb_neq. intros E0. apply E, map_size_empty_iff. lia.
    + apply HR.
  - intros v loc Hv. pose proof (insert_rep I t m v loc HR Hv) as H. destruct (insert I t v loc) as [[[]]|]; [by destruct H as (? & ? & _)|done].
  - intros v Hv. by apply remove_rep.
  - intros v f Hv. pose proof (update_rep I t m HR v f Hv) as H. destruct (update I t v f) as [[[]]|]; [by destruct H as (? & ? & _)|done].
  - intros f s. pose proof (for_each_rep f I t m s HR) as H. destruct (for_each_mut f I t s) as [[[]]|]; [by destruct H as (? & ? & _)|done].
  - intros n. by apply add_refs_rep.
  - intros o mo Ho. by apply extend_from_rep.
  - intros base Hb Hroom. by apply shifted_rep.
Qed.

(** Walks visit every mapped extent once, in ascending order, and
    [keys_in] exactly those of its range, although it only visits the chunks that
    meet the range and [iter] remembers the last slab it looked up. *)
Lemma extent_table_walks_in_order I t m :
  Rep I t m ->
  iter I t = entries m /\ keys t = sorted_keys m
  /\ ref_counts t = map (fun vl => ref_count (snd vl)) (entries m)
  /\ forall lo hi, 0 <= lo -> 0 <= hi < 2 ^ 64 -> keys_in t lo hi = filter (fun v => lo <= v < hi) (sorted_keys m).
Proof.
  intros HR. split_and!; [by apply rep_iter|by eapply rep_keys|by eapply rep_ref_counts|by apply (keys_in_spec I t m)].
Qed.

(** A table of two slabs and a mirror, built by the operations. *)
Definition demo_locs : list (Z * ExtentLocation) :=
  [(70, mkLoc [1] 5 1 1 []); (3, mkLoc [2] 9 2 4 [mkLeg [1] 7]); (65, mkLoc [1] 6 1 1 [])].

Lemma demo_rep : exists I t, from_iter interner0 demo_locs = Some (I, t) /\ Rep I t (list_to_map demo_locs).
Proof.
  assert (interner_ok interner0) as Hi.
  { intros id o. cbn. rewrite lookup_empty, lookup_nil. by split; [|intros []]. }
  pose proof (rep_empty interner0 Hi) as H0. unfold from_iter, insert_all, demo_locs. cbn [foldl fst snd mbind option_bind].
  assert (forall I t m v l, Rep I t m -> vext_ok v -> zlen (ids I) <= u32max ->
    exists I' t', (exists o, insert I t v l = Some (I', t', o)) /\ Rep I' t' (<[v := l]> m) /\ zlen (ids I') <= zlen (ids I) + 1) as Hstep.
  { intros I t m v l HR Hv Hroom. pose proof (insert_rep I t m v l HR Hv) as H.
    destruct (insert I t v l) as [[[I' t'] o]|] eqn:E; [|destruct H; lia].
    exists I', t'. split; [by exists o|]. split; [apply H|]. revert E. unfold insert, pack, slab_ordinal. rewrite split_div.
    destruct (ords I !! loc_slab l); [|destruct (Z.leb_spec (zlen (ids I)) u32max); [|done]]; cbn [mbind option_bind];
      destruct (bsearch _ _); intros [= <- _ _]; cbn [ids]; rewrite ?zlen_app; unfold zlen; cbn [length]; lia. }
  destruct (Hstep interner0 new_table ∅ 70 (mkLoc [1] 5 1 1 []) H0) as (I1 & t1 & [o1 E1] & R1 & L1); [unfold vext_ok; lia|done|]. change (zlen (ids interner0)) with 0 in L1.
  destruct (Hstep I1 t1 _ 3 (mkLoc [2] 9 2 4 [mkLeg [1] 7]) R1) as (I2 & t2 & [o2 E2] & R2 & L2); [unfold vext_ok; lia|unfold u32max; lia|].
  destruct (Hstep I2 t2 _ 65 (mkLoc [1] 6 1 1 []) R2) as (I3 & t3 & [o3 E3] & R3 & L3); [unfold vext_ok; lia|unfold u32max; lia|].
  exists I3, t3. rewrite E1. cbn [mbind option_bind]. rewrite E2. cbn [mbind option_bind]. rewrite E3. split; [done|].
  replace (list_to_map _ : extmap) with (<[65 := mkLoc [1] 6 1 1 []]> (<[3 := mkLoc [2] 9 2 4 [mkLeg [1] 7]]> (<[70 := mkLoc [1] 5 1 1 []]> (∅ : extmap)))); [done|].
  by vm_compute.
Qed.

Lemma extent_table_is_a_map_witness :
  exists I t, Rep I t (list_to_map demo_locs) /\ get I t 3 = Some (mkLoc [2] 9 2 4 [mkLeg [1] 7])
    /\ exists t', shifted I t 5 = Some (I, t') /\ Rep I t' (em_shift 5 (list_to_map demo_locs)).
Proof.
  destruct demo_rep as (I & t & _ & HR). exists I, t. split; [exact HR|].
  destruct (extent_table_is_a_map I t _ HR) as ((Hget & _) & _ & _ & _ & _ & _ & _ & Hshift). split.
  - destruct (Hget 3) as [Hg _]; [unfold vext_ok; lia|]. rewrite Hg. reflexivity.
  - apply Hshift; [lia|]. intros v l Hl. apply elem_of_list_to_map_2 in Hl. unfold demo_locs in Hl.
    repeat (rewrite elem_of_cons in Hl; destruct Hl as [[= -> _]|Hl]; [lia|]). by apply elem_of_nil in Hl.
Defined.

Lemma extent_table_walks_in_order_witness :
  exists I t, Rep I t (list_to_map demo_locs) /\ keys t = [3; 65; 70] /\ keys_in t 4 70 = [65].
Proof.
  destruct demo_rep as (I & t & _ & HR). exists I, t. split; [exact HR|].
  destruct (extent_table_walks_in_order I t _ HR) as (_ & Hk & _ & Hin). split.
  - rewrite Hk. reflexivity.
  - rewrite Hin by lia. reflexivity.
Defined.
