(* ===== verification/FreeMap.v ===== *)
(** A slab's free-slot map: [drive/freemap.rs].  A bitmap and, for each chunk of
    [CHUNK] slots, how many of its bits are set, so the first free slot is found
    without walking the bitmap.  The summary is an optimisation: every operation
    is shown to be the plain bitmap operation, and the answer the first-fit one. *)

From S2P Require Import Prelude.

Definition CHUNK : Z := 65536.

Record FreeMap := FM { bits : list bool; free_in : list Z }.

(** [BitSlice::count_ones] and [first_one]. *)
Fixpoint count_ones (l : list bool) : Z :=
  match l with
  | [] => 0
  | b :: l => (if b then 1 else 0) + count_ones l
  end.
Fixpoint first_one (l : list bool) : option Z :=
  match l with
  | [] => None
  | true :: _ => Some 0
  | false :: l => (fun i => i + 1) <$> first_one l
  end.
(** [iter().position(|n| *n > 0)]. *)
Fixpoint position_pos (l : list Z) : option Z :=
  match l with
  | [] => None
  | n :: l => if 0 <? n then Some 0 else (fun i => i + 1) <$> position_pos l
  end.

Definition fm_len (m : FreeMap) : Z := zlen (bits m).
Definition is_empty (m : FreeMap) : bool := fm_len m =? 0.

Definition chunk_end (m : FreeMap) (c : Z) : Z := Z.min ((c + 1) * CHUNK) (fm_len m).

Definition recount (m : FreeMap) : FreeMap :=
  FM (bits m)
     (map (fun c => count_ones (slice (c * CHUNK) (chunk_end m c - c * CHUNK) (bits m)))
          (zrange 0 (div_ceil (fm_len m) CHUNK))).

Definition fm_new (n : Z) (free : bool) : FreeMap :=
  recount (FM (replicate (Z.to_nat n) free) []).

Definition is_free (m : FreeMap) (i : Z) : bool := default false (bits m !! Z.to_nat i).

Definition fm_set (m : FreeMap) (i : Z) (free : bool) : FreeMap :=
  if (fm_len m <=? i) || eqb (is_free m i) free then m
  else
    let c := Z.to_nat (i / CHUNK) in
    let n := default 0 (free_in m !! c) in
    FM (<[Z.to_nat i := free]> (bits m))
       (<[c := if free then n + 1 else n - 1]> (free_in m)).

Definition first_free (m : FreeMap) : option Z :=
  match position_pos (free_in m) with
  | None => None
  | Some c =>
      let start := c * CHUNK in
      let stop := Z.min (start + CHUNK) (fm_len m) in
      (fun i => start + i) <$> first_one (slice start (stop - start) (bits m))
  end.

(** [BitVec::resize]. *)
Definition resize_bits (l : list bool) (n : Z) (free : bool) : list bool :=
  take (Z.to_nat n) l ++ replicate (Z.to_nat n - length l) free.
Definition fm_resize (m : FreeMap) (n : Z) (free : bool) : FreeMap :=
  recount (FM (resize_bits (bits m) n free) (free_in m)).

Definition count_free (m : FreeMap) : Z := foldr Z.add 0 (free_in m).

(** The summary tells the truth. *)
Definition fm_ok (m : FreeMap) : Prop := m = recount m.

#[export] Instance FreeMap_eq_dec : EqDecision FreeMap.
Proof. solve_decision. Defined.
#[export] Instance fm_ok_dec m : Decision (fm_ok m).
Proof. unfold fm_ok. apply _. Defined.

(** ** Bit lists *)

Lemma CHUNK_pos : 0 < CHUNK.
Proof. reflexivity. Qed.
#[local] Opaque CHUNK.
#[local] Hint Resolve CHUNK_pos : core.

Lemma count_ones_nonneg l : 0 <= count_ones l.
Proof. induction l as [|[] l IH]; cbn; lia. Qed.

Lemma count_ones_app l k : count_ones (l ++ k) = count_ones l + count_ones k.
Proof. induction l as [|[] l IH]; cbn [app count_ones]; lia. Qed.

Lemma count_ones_insert l (i : nat) b :
  l !! i = Some (negb b) -> count_ones (<[i := b]> l) = count_ones l + (if b then 1 else -1).
Proof.
  revert i. induction l as [|x l IH]; intros [|i] Hi; try discriminate; cbn in Hi |- *.
  - injection Hi as ->. destruct b; cbn; lia.
  - rewrite IH by done. lia.
Qed.

Lemma count_ones_0 l (i : nat) : count_ones l = 0 -> l !! i <> Some true.
Proof.
  revert i. induction l as [|x l IH]; intros i H; [done|]. cbn [count_ones] in H.
  pose proof (count_ones_nonneg l). destruct x; [lia|].
  destruct i as [|i]; [done|]. apply IH. lia.
Qed.

Lemma count_ones_pos l : 0 < count_ones l -> exists i, l !! i = Some true.
Proof.
  induction l as [|[] l IH]; cbn [count_ones]; intros H; [lia|by exists 0%nat|].
  destruct IH as [i Hi]; [lia|]. by exists (S i).
Qed.

(** [first_one] is the least set index. *)
Lemma first_one_spec l i :
  first_one l = Some i <->
  0 <= i /\ l !! Z.to_nat i = Some true /\ forall j, (j < Z.to_nat i)%nat -> l !! j <> Some true.
Proof.
  revert i. induction l as [|x l IH]; intros i.
  { cbn. split; [done|]. intros (_ & H & _). done. }
  destruct x; cbn [first_one].
  - split.
    + intros [= <-]. split; [lia|]. split; [done|]. intros j Hj. lia.
    + intros (Hi & _ & Hmin). f_equal. destruct (decide (i = 0)) as [|Hne]; [done|].
      destruct (Hmin 0%nat ltac:(lia)). done.
  - rewrite fmap_Some. split.
    + intros (k & Hk & ->). apply IH in Hk as (H1 & H2 & H3).
      replace (Z.to_nat (k + 1)) with (S (Z.to_nat k)) by lia.
      split; [lia|]. split; [done|]. intros [|j] Hj; [done|]. apply H3. lia.
    + intros (H1 & H2 & H3). exists (i - 1).
      destruct (decide (i = 0)) as [->|Hne]; [done|].
      replace (Z.to_nat i) with (S (Z.to_nat (i - 1))) in H2, H3 by lia.
      split; [|lia]. apply IH. split; [lia|]. split; [done|].
      intros j Hj. apply (H3 (S j)). lia.
Qed.

Lemma first_one_exists l (i : nat) : l !! i = Some true -> exists k, first_one l = Some k.
Proof.
  revert i. induction l as [|[] l IH]; intros i Hi; [done|by exists 0|].
  destruct i as [|i]; [done|]. destruct (IH i Hi) as [k Hk]. exists (k + 1). cbn. by rewrite Hk.
Qed.

Lemma position_pos_spec l c :
  position_pos l = Some c <->
  0 <= c /\ (exists n, l !! Z.to_nat c = Some n /\ 0 < n)
  /\ forall j n, (j < Z.to_nat c)%nat -> l !! j = Some n -> n <= 0.
Proof.
  revert c. induction l as [|x l IH]; intros c.
  { cbn. split; [done|]. by intros (_ & (n & H & _) & _). }
  cbn [position_pos]. destruct (Z.ltb_spec 0 x) as [Hx|Hx].
  - split.
    + intros [= <-]. split; [lia|]. split; [by exists x|]. intros j n Hj. lia.
    + intros (Hc & _ & Hmin). f_equal. destruct (decide (c = 0)); [done|].
      specialize (Hmin 0%nat x ltac:(lia) eq_refl). lia.
  - rewrite fmap_Some. split.
    + intros (k & Hk & ->). apply IH in Hk as (H1 & H2 & H3).
      replace (Z.to_nat (k + 1)) with (S (Z.to_nat k)) by lia.
      split; [lia|]. split; [done|]. intros [|j] n Hj Hn; [by injection Hn as ->|].
      apply (H3 j n); [lia|done].
    + intros (H1 & (n & Hn & Hpos) & H3). exists (c - 1).
      destruct (decide (c = 0)) as [->|Hne]; [cbn in Hn; injection Hn as ->; lia|].
      replace (Z.to_nat c) with (S (Z.to_nat (c - 1))) in Hn, H3 by lia.
      split; [|lia]. apply IH. split; [lia|]. split; [by exists n|].
      intros j m Hj Hm. apply (H3 (S j) m); [lia|done].
Qed.

Lemma lookup_slice {A} (l : list A) a n (i : nat) :
  0 <= a -> 0 <= n ->
  slice a n l !! i = if decide (Z.of_nat i < n) then l !! (Z.to_nat a + i)%nat else None.
Proof.
  intros Ha Hn. unfold slice. case_decide.
  - rewrite lookup_take_lt by lia. apply lookup_drop.
  - apply lookup_take_ge. lia.
Qed.

Lemma slice_insert_in {A} (l : list A) a n (i : nat) x :
  0 <= a <= Z.of_nat i -> Z.of_nat i < a + n ->
  slice a n (<[i := x]> l) = <[(i - Z.to_nat a)%nat := x]> (slice a n l).
Proof.
  intros. unfold slice. rewrite drop_insert_ge by lia. by rewrite take_insert_lt by lia.
Qed.

Lemma slice_insert_out {A} (l : list A) a n (i : nat) x :
  0 <= a -> 0 <= n -> Z.of_nat i < a \/ a + n <= Z.of_nat i ->
  slice a n (<[i := x]> l) = slice a n l.
Proof.
  intros Ha Hn [H|H]; unfold slice.
  - by rewrite drop_insert_lt by lia.
  - rewrite drop_insert_ge by lia. by rewrite take_insert_ge by lia.
Qed.

(** ** The invariant, and every operation against the plain bitmap *)

Lemma recount_ok m : fm_ok (recount m).
Proof. done. Qed.

Lemma fm_new_ok n free : fm_ok (fm_new n free).
Proof. apply recount_ok. Qed.

Lemma fm_resize_ok m n free : fm_ok (fm_resize m n free).
Proof. apply recount_ok. Qed.

(** The chunk an index lies in. *)
Lemma chunk_bounds i : i / CHUNK * CHUNK <= i < (i / CHUNK + 1) * CHUNK.
Proof.
  pose proof (Z.div_mod i CHUNK ltac:(by apply not_eq_sym, Z.lt_neq)).
  pose proof (Z.mod_pos_bound i CHUNK CHUNK_pos). lia.
Qed.

Lemma lookup_free_in m (c : nat) :
  fm_ok m -> Z.of_nat c < div_ceil (fm_len m) CHUNK ->
  free_in m !! c = Some (count_ones (slice (Z.of_nat c * CHUNK)
    (chunk_end m (Z.of_nat c) - Z.of_nat c * CHUNK) (bits m))).
Proof.
  intros Hok Hc. unfold fm_ok in Hok. rewrite Hok at 1. unfold recount, zrange. cbn [free_in].
  rewrite list_lookup_fmap, lookup_zseq by lia. done.
Qed.

Lemma chunk_exists m i : 0 <= i < fm_len m -> 0 <= i / CHUNK < div_ceil (fm_len m) CHUNK.
Proof.
  intros Hi. pose proof (div_ceil_mul (fm_len m) CHUNK CHUNK_pos). pose proof CHUNK_pos.
  split; [apply Z.div_pos; lia|]. apply Z.div_lt_upper_bound; lia.
Qed.

Lemma chunk_lt_end c m i :
  0 <= c -> c * CHUNK <= i -> i < fm_len m -> i / CHUNK = c -> i < chunk_end m c.
Proof. intros Hc H1 H2 <-. unfold chunk_end. pose proof (chunk_bounds i). lia. Qed.

Lemma fm_set_bits m i free :
  0 <= i -> bits (fm_set m i free) = <[Z.to_nat i := free]> (bits m).
Proof.
  intros Hi. unfold fm_set, fm_len, zlen. destruct (Z.leb_spec (Z.of_nat (length (bits m))) i); cbn [orb].
  { rewrite list_insert_ge; [done|lia]. }
  unfold is_free. destruct (lookup_lt_is_Some_2 (bits m) (Z.to_nat i)) as [b Hb]; [lia|].
  rewrite Hb. cbn. destruct (eqb_spec b free) as [->|]; [|done]. by rewrite list_insert_id.
Qed.

Lemma fm_set_len m i free : 0 <= i -> fm_len (fm_set m i free) = fm_len m.
Proof. intros. unfold fm_len, zlen. by rewrite fm_set_bits, length_insert. Qed.

Lemma length_free_in m : fm_ok m -> length (free_in m) = Z.to_nat (div_ceil (fm_len m) CHUNK).
Proof.
  intros Hok. unfold fm_ok in Hok. rewrite Hok at 1. unfold recount, zrange. cbn [free_in]. rewrite length_map, length_zseq. f_equal. lia.
Qed.

Lemma fm_set_ok m i free : 0 <= i -> fm_ok m -> fm_ok (fm_set m i free).
Proof.
  intros Hi Hok. pose proof (fm_set_len m i free Hi) as Hlen.
  pose proof (fm_set_bits m i free Hi) as Hbits. revert Hlen Hbits. unfold fm_set.
  destruct (Z.leb_spec (fm_len m) i) as [|Hlt]; cbn [orb]; [done|].
  destruct (eqb_spec (is_free m i) free) as [|Hne]; [done|]. intros Hlen _.
  set (m' := FM _ _) in *. unfold fm_ok, recount. rewrite Hlen. unfold m' at 1. f_equal.
  pose proof (chunk_exists m i ltac:(lia)) as Hc. pose proof CHUNK_pos.
  apply list_eq. intros k. unfold zrange.
  destruct (decide (Z.of_nat k < div_ceil (fm_len m) CHUNK)) as [Hk|Hk].
  - rewrite list_lookup_fmap, lookup_zseq by lia. cbn [fmap option_fmap option_map]. rewrite Z.add_0_l.
    assert (chunk_end m' (Z.of_nat k) = chunk_end m (Z.of_nat k)) as He by (unfold chunk_end; by rewrite Hlen).
    rewrite He. cbn [bits m'].
    destruct (decide (k = Z.to_nat (i / CHUNK))) as [->|Hki].
    + rewrite list_lookup_insert_eq by (rewrite length_free_in by done; lia). f_equal.
      rewrite Z2Nat.id by lia. pose proof (chunk_bounds i).
      pose proof (chunk_lt_end (i / CHUNK) m i ltac:(lia) ltac:(lia) ltac:(lia) eq_refl) as Hend.
      rewrite lookup_free_in by (done || lia). cbn [default from_option id]. rewrite Z2Nat.id by lia.
      rewrite slice_insert_in by lia.
      rewrite count_ones_insert; [destruct free; lia|].
      rewrite lookup_slice, decide_True by lia.
      replace (Z.to_nat (i / CHUNK * CHUNK) + (Z.to_nat i - Z.to_nat (i / CHUNK * CHUNK)))%nat
        with (Z.to_nat i) by lia.
      unfold is_free in Hne. unfold fm_len, zlen in Hlt.
      destruct (lookup_lt_is_Some_2 (bits m) (Z.to_nat i)) as [b Hb]; [lia|].
      rewrite Hb in Hne |- *. cbn in Hne. by destruct b, free.
    + rewrite list_lookup_insert_ne by done. rewrite lookup_free_in by done.
      f_equal. f_equal. symmetry. pose proof (chunk_bounds i). unfold chunk_end.
      assert (Z.of_nat k * CHUNK <= fm_len m).
      { pose proof (div_ceil_mul (fm_len m) CHUNK CHUNK_pos). nia. }
      apply slice_insert_out; [nia|lia|].
      assert (Z.of_nat k < i / CHUNK \/ i / CHUNK < Z.of_nat k) as [|] by lia; [right|left]; nia.
  - rewrite (lookup_ge_None_2 (map _ _)) by (rewrite length_map, length_zseq; lia).
    apply lookup_ge_None_2. rewrite length_insert, length_free_in by done. lia.
Qed.

(** The answer through the summary is the one a walk of the bitmap gives. *)
Lemma first_free_first_one m : fm_ok m -> first_free m = first_one (bits m).
Proof.
  intros Hok. unfold first_free. pose proof CHUNK_pos.
  pose proof (div_ceil_mul (fm_len m) CHUNK CHUNK_pos) as Hceil.
  pose proof (zlen_nonneg (bits m)) as Hnn. fold (fm_len m) in Hnn.
  assert (forall (k : nat) i, free_in m !! k = Some 0 -> 0 <= i < fm_len m -> i / CHUNK = Z.of_nat k ->
          bits m !! Z.to_nat i <> Some true) as Hempty.
  { intros k i Hk Hi Hik. pose proof (chunk_bounds i). pose proof (chunk_exists m i Hi).
    pose proof (chunk_lt_end (i / CHUNK) m i ltac:(lia) ltac:(lia) ltac:(lia) eq_refl).
    rewrite lookup_free_in in Hk by (done || lia). injection Hk as Hk. rewrite <- Hik in Hk.
    intros Ht. apply (count_ones_0 _ (Z.to_nat (i - i / CHUNK * CHUNK)) Hk).
    rewrite lookup_slice, decide_True by lia.
    replace (Z.to_nat (i / CHUNK * CHUNK) + Z.to_nat (i - i / CHUNK * CHUNK))%nat with (Z.to_nat i) by nia.
    done. }
  assert (forall (k : nat) n, free_in m !! k = Some n -> n <= 0 -> n = 0) as Hzero.
  { intros k n Hk Hn. assert (Z.of_nat k < div_ceil (fm_len m) CHUNK) as Hlt.
    { apply lookup_lt_Some in Hk. rewrite length_free_in in Hk by done. lia. }
    rewrite lookup_free_in in Hk by done. injection Hk as <-.
    pose proof (count_ones_nonneg (slice (Z.of_nat k * CHUNK)
      (chunk_end m (Z.of_nat k) - Z.of_nat k * CHUNK) (bits m))). lia. }
  destruct (position_pos (free_in m)) as [c|] eqn:Ep.
  - apply position_pos_spec in Ep as (Hc & (n & Hn & Hpos) & Hmin).
    assert (c < div_ceil (fm_len m) CHUNK) as Hcl.
    { apply lookup_lt_Some in Hn. rewrite length_free_in in Hn by done. lia. }
    rewrite lookup_free_in in Hn by (done || lia). injection Hn as Hn. rewrite Z2Nat.id in Hn by lia.
    replace (Z.min (c * CHUNK + CHUNK) (fm_len m)) with (chunk_end m c) by (unfold chunk_end; lia).
    destruct (count_ones_pos _ ltac:(rewrite Hn; done)) as [i0 Hi0].
    destruct (first_one_exists _ _ Hi0) as [k Hk]. rewrite Hk. cbn. symmetry.
    apply first_one_spec in Hk as (Hk0 & Hk1 & Hk2).
    assert (0 <= chunk_end m c - c * CHUNK) by (unfold chunk_end; nia).
    rewrite lookup_slice in Hk1 by lia. case_decide as Hkc; [|done].
    apply first_one_spec. split; [lia|]. split.
    { replace (Z.to_nat (c * CHUNK + k)) with (Z.to_nat (c * CHUNK) + Z.to_nat k)%nat by lia. done. }
    intros j Hj. destruct (decide (Z.of_nat j < c * CHUNK)) as [Hjc|Hjc].
    + assert (Z.of_nat j / CHUNK < c) by (apply Z.div_lt_upper_bound; lia).
      pose proof (Z.div_pos (Z.of_nat j) CHUNK). rewrite <- (Nat2Z.id j).
      assert (Z.of_nat j < fm_len m) by (unfold chunk_end in Hkc; lia).
      pose proof (chunk_exists m (Z.of_nat j) ltac:(lia)).
      eapply (Hempty (Z.to_nat (Z.of_nat j / CHUNK))); [|lia|lia].
      destruct (lookup_lt_is_Some_2 (free_in m) (Z.to_nat (Z.of_nat j / CHUNK))) as [n' Hn'];
        [rewrite length_free_in by done; lia|].
      rewrite Hn'. f_equal. eapply Hzero; [exact Hn'|]. eapply Hmin; [|exact Hn']. lia.
    + specialize (Hk2 (j - Z.to_nat (c * CHUNK))%nat ltac:(lia)).
      rewrite lookup_slice, decide_True in Hk2 by lia.
      by replace (Z.to_nat (c * CHUNK) + (j - Z.to_nat (c * CHUNK)))%nat with j in Hk2 by lia.
  - symmetry. destruct (first_one (bits m)) as [i|] eqn:Ei; [|done]. exfalso.
    apply first_one_spec in Ei as (Hi & Ht & _).
    assert (i < fm_len m) by (apply lookup_lt_Some in Ht; unfold fm_len, zlen; lia).
    pose proof (chunk_exists m i ltac:(lia)).
    destruct (lookup_lt_is_Some_2 (free_in m) (Z.to_nat (i / CHUNK))) as [n Hn];
      [rewrite length_free_in by done; lia|].
    destruct (decide (0 < n)) as [Hp|Hp].
    + assert (exists c, position_pos (free_in m) = Some c) as [c Hc]; [|congruence].
      clear -Hn Hp. revert Hn. generalize (Z.to_nat (i / CHUNK)). generalize (free_in m).
      intros l. induction l as [|x l IH]; intros [|k] Hk; try discriminate; cbn [position_pos].
      * injection Hk as ->. destruct (Z.ltb_spec 0 n); [eauto|lia].
      * destruct (IH k Hk) as [c Hc]. rewrite Hc. cbn. case_match; eauto.
    + assert (n = 0) as -> by (eapply Hzero; [done|lia]).
      eapply (Hempty _ i Hn); [lia|lia|done].
Qed.

Lemma sum_app l k : foldr Z.add 0 (l ++ k) = foldr Z.add 0 l + foldr Z.add 0 k.
Proof. induction l as [|x l IH]; cbn [app foldr]; lia. Qed.

Lemma take_app_slice {A} (l : list A) a n :
  0 <= a -> 0 <= n -> take (Z.to_nat (a + n)) l = take (Z.to_nat a) l ++ slice a n l.
Proof.
  intros Ha Hn. unfold slice. replace (Z.to_nat (a + n)) with (Z.to_nat a + Z.to_nat n)%nat by lia.
  rewrite <- (take_drop (Z.to_nat a) l) at 1. rewrite take_app, take_take, length_take.
  destruct (decide (Z.to_nat a <= length l)%nat).
  - f_equal; [f_equal; lia|]. f_equal. lia.
  - rewrite (drop_ge l) by lia. rewrite !take_nil, !app_nil_r. f_equal. lia.
Qed.

(** The chunks' counts add up. *)
Lemma chunk_counts_sum m (k : nat) :
  Z.of_nat k <= div_ceil (fm_len m) CHUNK ->
  foldr Z.add 0 (map (fun c => count_ones (slice (c * CHUNK) (chunk_end m c - c * CHUNK) (bits m))) (zseq 0 k))
  = count_ones (take (Z.to_nat (Z.min (Z.of_nat k * CHUNK) (fm_len m))) (bits m)).
Proof.
  pose proof CHUNK_pos. pose proof (div_ceil_mul (fm_len m) CHUNK CHUNK_pos).
  pose proof (zlen_nonneg (bits m)) as Hnn. fold (fm_len m) in Hnn.
  induction k as [|k IH]; intros Hk; [rewrite Z.min_l by lia; done|].
  replace (S k) with (k + 1)%nat by lia. rewrite zseq_app, map_app, sum_app, IH by lia. cbn [zseq map foldr].
  rewrite Z.add_0_r, Z.add_0_l.
  assert (Z.of_nat k * CHUNK <= fm_len m) by nia. rewrite (Z.min_l (Z.of_nat k * CHUNK)) by lia.
  rewrite <- count_ones_app, <- take_app_slice by (unfold chunk_end; nia).
  do 3 f_equal. unfold chunk_end. lia.
Qed.

Lemma count_free_ones m : fm_ok m -> count_free m = count_ones (bits m).
Proof.
  intros Hok. unfold count_free. unfold fm_ok in Hok. rewrite Hok at 1.
  unfold recount, zrange. cbn [free_in].
  pose proof CHUNK_pos. pose proof (div_ceil_mul (fm_len m) CHUNK CHUNK_pos).
  pose proof (zlen_nonneg (bits m)) as Hnn. fold (fm_len m) in Hnn.
  assert (0 <= div_ceil (fm_len m) CHUNK) by nia.
  rewrite Z.sub_0_r, chunk_counts_sum by lia. f_equal. apply take_ge. unfold fm_len, zlen in *. lia.
Qed.

(** ** The map against its specification, a plain bitmap *)

Inductive fm_op := FSet (i : Z) (free : bool) | FResize (n : Z) (free : bool).

Definition fm_op_valid (o : fm_op) : Prop := match o with FSet i _ => 0 <= i | FResize _ _ => True end.
#[export] Instance fm_op_valid_dec o : Decision (fm_op_valid o).
Proof. destruct o; apply _. Defined.

Definition fm_apply (m : FreeMap) (o : fm_op) : FreeMap :=
  match o with FSet i b => fm_set m i b | FResize n b => fm_resize m n b end.
Definition bits_apply (l : list bool) (o : fm_op) : list bool :=
  match o with FSet i b => <[Z.to_nat i := b]> l | FResize n b => resize_bits l n b end.

Lemma fm_run_ok ops m :
  Forall fm_op_valid ops -> fm_ok m ->
  fm_ok (foldl fm_apply m ops) /\ bits (foldl fm_apply m ops) = foldl bits_apply (bits m) ops.
Proof.
  intros Hops. revert m. induction Hops as [|o ops Ho Hops IH]; intros m Hm; [done|]. cbn [foldl].
  destruct o as [i b|n b]; cbn [fm_apply bits_apply].
  - destruct (IH (fm_set m i b)) as [H1 H2]; [by apply fm_set_ok|]. rewrite H2.
    by rewrite fm_set_bits.
  - destruct (IH (fm_resize m n b)) as [H1 H2]; [apply fm_resize_ok|]. by rewrite H2.
Qed.

(** C39. After any sequence of sets and resizes the free map answers as a plain
    bitmap would: the first free slot is the lowest set bit, whatever the
    chunk summary went through, and the free count is the number of set bits. *)
Theorem freemap_refines_bitmap n free ops :
  Forall fm_op_valid ops ->
  let m := foldl fm_apply (fm_new n free) ops in
  let l := foldl bits_apply (replicate (Z.to_nat n) free) ops in
  first_free m = first_one l /\ count_free m = count_ones l
  /\ (forall i, is_free m i = default false (l !! Z.to_nat i)) /\ fm_len m = zlen l.
Proof.
  intros Hops m l. destruct (fm_run_ok ops (fm_new n free) Hops (fm_new_ok n free)) as [Hok Hb].
  change (bits (fm_new n free)) with (replicate (Z.to_nat n) free) in Hb. fold m in Hok, Hb. fold l in Hb.
  rewrite first_free_first_one, count_free_ones by done. unfold is_free, fm_len. by rewrite Hb.
Qed.

Lemma freemap_refines_bitmap_witness :
  first_free (foldl fm_apply (fm_new 5 true) [FSet 0 false; FSet 1 false; FSet 0 true; FSet 0 false; FResize 7 true])
  = Some 2.
Proof.
  destruct (freemap_refines_bitmap 5 true [FSet 0 false; FSet 1 false; FSet 0 true; FSet 0 false; FResize 7 true])
    as [H _]; [by_decide|]. rewrite H. reflexivity.
Defined.
