(* ===== verification/SlabFormat.v ===== *)
(** The on-disk format of a slab: [drive/slab.rs], its slot entries, its header in
    both versions, the sizing of its regions, and [format_with]'s geometry.  The
    checksum function of the [crc32c] crate is a parameter: all the code relies
    on is that it is a function into 32 bits. *)

From S2P Require Import Prelude.

Definition SLAB_MAGIC : bytes := [83; 84; 82; 77; 83; 76; 65; 66].
Definition SLAB_VERSION : Z := 1.
Definition SLAB_VERSION_2 : Z := 2.
Definition HEADER_SIZE : Z := 4096.
Definition SLOT_ENTRY_SIZE : Z := 64.
Definition COMMIT_STEP : Z := 2 ^ 20.
Definition META_ALIGN : Z := 4096.
Definition META_BYTES_PER_SLOT : Z := 256.
Definition META_MIN : Z := 64 * 1024.
Definition META_MAX : Z := 256 * 1024 * 1024.

(** ** Slots *)

Inductive SlotState := Free | Allocated | Moving | Erasing.

#[export] Instance SlotState_eq_dec : EqDecision SlotState.
Proof. solve_decision. Defined.

Definition is_owned (s : SlotState) : bool :=
  match s with Allocated | Moving => true | Free | Erasing => false end.

(** [self as u8] and [SlotState::from]. *)
Definition state_u8 (s : SlotState) : Z :=
  match s with Free => 0 | Allocated => 1 | Moving => 2 | Erasing => 3 end.
Definition state_from (v : Z) : SlotState :=
  if v =? 1 then Allocated else if v =? 2 then Moving else if v =? 3 then Erasing else Free.

(** A volume's id is its UUID's sixteen bytes. *)
Abbreviation VolumeId := bytes (only parsing).

Record Slot := mkSlot {
  state : SlotState;
  volume_id : VolumeId;
  virtual_extent_idx : Z;
  ref_count : Z;
  generation : Z }.

#[export] Instance Slot_eq_dec : EqDecision Slot.
Proof. solve_decision. Defined.

Definition slot_free : Slot := mkSlot Free nil_uuid 0 0 0.

Inductive StorageTier := Hot | Warm | Cool | Cold.
Definition tier_u8 (t : StorageTier) : Z := match t with Hot => 0 | Warm => 1 | Cool => 2 | Cold => 3 end.
Definition tier_from (v : Z) : StorageTier :=
  if v =? 0 then Hot else if v =? 1 then Warm else if v =? 2 then Cool else Cold.

Inductive SlabRole := System | Data.
Definition role_u8 (r : SlabRole) : Z := match r with System => 0 | Data => 1 end.
Definition role_from (v : Z) : SlabRole := if v =? 1 then Data else System.

Record SlabHeader := mkHeader {
  slab_uuid : bytes; device_uuid : bytes;
  slot_size : Z; total_slots : Z; free_slots : Z; data_offset : Z; table_offset : Z;
  create_time : Z; update_time : Z;
  tier : StorageTier; flags : Z; role : SlabRole;
  meta_offset : Z; meta_size : Z;
  table_capacity : Z; table_room : Z; span : Z;
  partner : bytes; moved_to : bytes;
  checksum : Z; version : Z }.

(** [DriveError], by what it says. *)
Inductive HeaderError :=
| HeaderTooShort | BadMagic | BadVersion (v : Z) | CrcMismatch.

Section Codec.
Context (crc32c : bytes -> Z).

(** [Slot::to_bytes]: the writes in their order, then the checksum. *)
Definition slot_fields (s : Slot) : list (Z * bytes) :=
  [(0, [state_u8 (state s)]);
   (4, volume_id s);
   (20, le_bytes 8 (virtual_extent_idx s));
   (28, le_bytes 4 (ref_count s));
   (32, le_bytes 8 (generation s))].
Definition slot_to_bytes (s : Slot) : bytes :=
  let buf := write_all (zeros SLOT_ENTRY_SIZE) (slot_fields s) in
  splice buf 60 (le_bytes 4 (crc32c (slice 0 60 buf))).

Definition slot_from_bytes (data : bytes) : option Slot :=
  if zlen data <? SLOT_ENTRY_SIZE then None
  else if negb (rd_u32 data 60 =? crc32c (slice 0 60 data)) then None
  else Some (mkSlot (state_from (at_byte data 0)) (slice 4 16 data)
               (rd_u64 data 20) (rd_u32 data 28) (rd_u64 data 32)).

(** [SlabHeader::to_bytes]. *)
Definition header_fields (h : SlabHeader) : list (Z * bytes) :=
  [(0, SLAB_MAGIC);
   (8, le_bytes 4 (version h));
   (12, slab_uuid h);
   (28, device_uuid h);
   (44, le_bytes 8 (slot_size h));
   (52, le_bytes 8 (total_slots h));
   (60, le_bytes 8 (free_slots h));
   (68, le_bytes 8 (data_offset h));
   (76, le_bytes 8 (table_offset h));
   (84, le_bytes 8 (create_time h));
   (92, le_bytes 8 (update_time h));
   (100, [tier_u8 (tier h)]);
   (101, [flags h]);
   (102, [role_u8 (role h)]);
   (104, le_bytes 8 (meta_offset h));
   (112, le_bytes 8 (meta_size h))].
Definition header_cap (h : SlabHeader) : Z :=
  if total_slots h <? table_capacity h then table_capacity h else 0.
Definition header_fields_v2 (h : SlabHeader) : list (Z * bytes) :=
  [(128, le_bytes 8 (header_cap h));
   (136, le_bytes 8 (if Z.max (table_capacity h) (total_slots h) <? table_room h then table_room h else 0));
   (144, le_bytes 8 (if total_slots h <? span h then span h else 0));
   (152, partner h);
   (168, moved_to h)].

Definition crc_v2 (buf : bytes) : Z := crc32c (slice 0 124 buf ++ slice 128 128 buf).

Definition header_to_bytes (h : SlabHeader) : bytes :=
  let buf := write_all (zeros HEADER_SIZE) (header_fields h) in
  if version h =? SLAB_VERSION_2 then
    let buf := write_all buf (header_fields_v2 h) in
    splice buf 124 (le_bytes 4 (crc_v2 buf))
  else
    let buf := splice buf 120 (le_bytes 4 (Z.min (header_cap h) u32max)) in
    splice buf 124 (le_bytes 4 (crc32c (slice 0 124 buf))).

(** [SlabHeader::from_bytes]. *)
Definition header_from_bytes (data : bytes) : result HeaderError SlabHeader :=
  if zlen data <? 128 then Err HeaderTooShort
  else if negb (bool_decide (slice 0 8 data = SLAB_MAGIC)) then Err BadMagic
  else
    let version := rd_u32 data 8 in
    if negb (version =? SLAB_VERSION) && negb (version =? SLAB_VERSION_2) then Err (BadVersion version)
    else if (version =? SLAB_VERSION_2) && (zlen data <? 256) then Err HeaderTooShort
    else
      let stored_crc := rd_u32 data 124 in
      let computed := if version =? SLAB_VERSION_2 then crc_v2 data else crc32c (slice 0 124 data) in
      if negb (stored_crc =? computed) then Err CrcMismatch
      else
        let total_slots := rd_u64 data 52 in
        let table_capacity :=
          if version =? SLAB_VERSION_2 then Z.max (rd_u64 data 128) total_slots
          else Z.max (rd_u32 data 120) total_slots in
        let v2 := version =? SLAB_VERSION_2 in
        Ok (mkHeader (slice 12 16 data) (slice 28 16 data)
              (rd_u64 data 44) total_slots (rd_u64 data 60) (rd_u64 data 68) (rd_u64 data 76)
              (rd_u64 data 84) (rd_u64 data 92)
              (tier_from (at_byte data 100)) (at_byte data 101) (role_from (at_byte data 102))
              (rd_u64 data 104) (rd_u64 data 112)
              table_capacity
              (if v2 then Z.max (rd_u64 data 136) table_capacity else table_capacity)
              (if v2 then Z.max (rd_u64 data 144) total_slots else total_slots)
              (if v2 then slice 152 16 data else nil_uuid)
              (if v2 then slice 168 16 data else nil_uuid)
              stored_crc version).

End Codec.

(** ** Sizing and geometry *)

(** [u64] sums and products, here and in [format_header]: they wrap. *)
Definition align_up (value alignment : Z) : Z :=
  if alignment =? 0 then value
  else
    let remainder := value mod alignment in
    if remainder =? 0 then value else wrap 64 (value + alignment - remainder).

(** [saturating_mul] and [saturating_add] on [u64], and [clamp]. *)
Definition sat_mul64 (a b : Z) : Z := Z.min (a * b) u64max.
Definition sat_add64 (a b : Z) : Z := Z.min (a + b) u64max.
Definition clamp (x lo hi : Z) : Z := Z.min (Z.max x lo) hi.

Definition auto_metadata_bytes (capacity slot_size : Z) : Z :=
  let per_slot := wrap 64 (SLOT_ENTRY_SIZE + Z.max slot_size 1) in
  let slots := sat_sub capacity HEADER_SIZE / per_slot in
  let want := sat_mul64 slots META_BYTES_PER_SLOT in
  let ceiling := clamp (capacity / 8) (2 * META_ALIGN) META_MAX in
  align_up (clamp want (Z.min META_MIN ceiling) ceiling) (2 * META_ALIGN).

Definition auto_metadata_bytes_v2 (capacity slot_size : Z) : Z :=
  let per_slot := wrap 64 (SLOT_ENTRY_SIZE + Z.max slot_size 1) in
  let slots := sat_sub capacity HEADER_SIZE / per_slot in
  let tree := sat_mul64 slots 48 in
  let want := sat_add64 (sat_add64 tree (Z.min (tree / 7) (64 * 2 ^ 20))) (2 ^ 20) in
  let ceiling := Z.max (capacity / 8) (2 * META_ALIGN) in
  align_up (Z.min want ceiling) (2 * META_ALIGN).

Record SlabFormat := mkFormat {
  f_slot_size : Z; f_tier : StorageTier; f_metadata_bytes : Z; f_role : SlabRole;
  f_grow_to : Z; f_dedicated : bool; f_version : Z; f_commit_step : Z }.

(** [SlabFormat::new], its default format an argument, and the builders that compute. *)
Definition format_new (slot_size : Z) (tier : StorageTier) (default_format : Z) : SlabFormat :=
  mkFormat slot_size tier 0 System 0 false default_format COMMIT_STEP.
Definition with_commit_step (f : SlabFormat) (entries : Z) : SlabFormat :=
  mkFormat (f_slot_size f) (f_tier f) (f_metadata_bytes f) (f_role f) (f_grow_to f) (f_dedicated f)
    (f_version f) (Z.max (div_ceil entries 64) 1 * 64).
Definition with_auto_metadata (f : SlabFormat) (capacity : Z) : SlabFormat :=
  mkFormat (f_slot_size f) (f_tier f)
    (if f_version f =? SLAB_VERSION_2 then auto_metadata_bytes_v2 capacity (f_slot_size f)
     else auto_metadata_bytes capacity (f_slot_size f))
    (f_role f) (f_grow_to f) (f_dedicated f) (f_version f) (f_commit_step f).

Definition FLAG_DEDICATED : Z := 1.

Inductive FormatError := TooSmall | NoSlot | TooManySlots.

(** [Slab::format_with] up to the writes: the header it lays down, given the
    device's capacity and UUID, the new slab's UUID and the clock. *)
Definition format_header (capacity : Z) (new_uuid device_uuid : bytes) (now : Z) (opts : SlabFormat)
    : result FormatError SlabHeader :=
  let slot_size := f_slot_size opts in
  let v2 := f_version opts =? SLAB_VERSION_2 in
  let wanted :=
    if v2 && (0 <? f_metadata_bytes opts)
    then Z.max (f_metadata_bytes opts) (auto_metadata_bytes_v2 capacity slot_size)
    else f_metadata_bytes opts in
  let meta_size := align_up wanted (2 * META_ALIGN) in
  let meta_offset := if 0 <? meta_size then HEADER_SIZE else 0 in
  let table_offset := wrap 64 (HEADER_SIZE + meta_size) in
  let usable := sat_sub capacity table_offset in
  let per_slot := wrap 64 (SLOT_ENTRY_SIZE + slot_size) in
  if (per_slot =? 0) || (usable <? per_slot) then Err TooSmall
  else
    let total_slots := usable / per_slot in
    let table_capacity := Z.max total_slots (f_grow_to opts / Z.max slot_size 1) in
    let table_size := wrap 64 (table_capacity * SLOT_ENTRY_SIZE) in
    let data_offset := align_up (wrap 64 (table_offset + table_size)) slot_size in
    let data_region := sat_sub capacity data_offset in
    let total_slots := Z.min total_slots (data_region / slot_size) in
    if total_slots =? 0 then Err NoSlot
    else if negb v2 && (u32max <? table_capacity) then Err TooManySlots
    else
      let room := Z.max table_capacity total_slots in
      let committed_cap :=
        if v2 then Z.min (sat_mul64 (div_ceil (Z.min total_slots (f_commit_step opts)) 64) 64) room
        else room in
      Ok (mkHeader new_uuid device_uuid slot_size (Z.min total_slots committed_cap) total_slots
            data_offset table_offset now now (f_tier opts)
            (if f_dedicated opts then FLAG_DEDICATED else 0) (f_role opts) meta_offset meta_size
            committed_cap room total_slots nil_uuid nil_uuid 0
            (if v2 then SLAB_VERSION_2 else SLAB_VERSION)).

(** The bytes of table zeroed by the format, padded to whole device blocks. *)
Definition padded_table (committed_cap block_size : Z) : Z :=
  let table_bytes := committed_cap * SLOT_ENTRY_SIZE in
  if (1 <? block_size) && negb (table_bytes mod block_size =? 0)
  then div_ceil table_bytes block_size * block_size else table_bytes.

(** [Slab::slot_device_and_offset]: the device address of an offset in a slot. *)
Inductive AddrError := SlotOutOfRange | OffsetPastSlot.
Definition slot_address (h : SlabHeader) (committed slot_idx offset_in_slot : Z) : result AddrError Z :=
  if committed <=? slot_idx then Err SlotOutOfRange
  else if slot_size h <=? offset_in_slot then Err OffsetPastSlot
  else Ok (data_offset h + slot_idx * slot_size h + offset_in_slot).
