(* ===== verification/SlabFormatProofs.v ===== *)
(** The slab format is read back as it was written, and the geometry a format
    lays down keeps its regions apart and inside the device. *)

From S2P Require Import Prelude SlabFormat.

(** ** Well-formed values *)

Record slot_ok (s : Slot) : Prop := {
  slot_ok_volume : uuid_ok (volume_id s);
  slot_ok_vext : u64_ok (virtual_extent_idx s);
  slot_ok_refs : u32_ok (ref_count s);
  slot_ok_gen : u64_ok (generation s) }.

Record header_ok (h : SlabHeader) : Prop := {
  ho_uuid : uuid_ok (slab_uuid h); ho_dev : uuid_ok (device_uuid h);
  ho_slot : u64_ok (slot_size h); ho_total : u64_ok (total_slots h); ho_free : u64_ok (free_slots h);
  ho_data : u64_ok (data_offset h); ho_table : u64_ok (table_offset h);
  ho_create : u64_ok (create_time h); ho_update : u64_ok (update_time h);
  ho_flags : byte (flags h); ho_moff : u64_ok (meta_offset h); ho_msize : u64_ok (meta_size h);
  ho_cap : u64_ok (table_capacity h); ho_room : u64_ok (table_room h); ho_span : u64_ok (span h);
  ho_partner : uuid_ok (partner h); ho_moved : uuid_ok (moved_to h);
  ho_version : version h = SLAB_VERSION \/ version h = SLAB_VERSION_2 }.

(** What a header reads back as: the growth fields in their canonical form, the
    fields a version 1 header has no room for left at their defaults, and the
    checksum it carries. *)
Definition as_read (h : SlabHeader) (crc : Z) : SlabHeader :=
  let v2 := version h =? SLAB_VERSION_2 in
  let cap := if v2 then Z.max (table_capacity h) (total_slots h)
             else Z.max (Z.min (header_cap h) u32max) (total_slots h) in
  mkHeader (slab_uuid h) (device_uuid h) (slot_size h) (total_slots h) (free_slots h)
    (data_offset h) (table_offset h) (create_time h) (update_time h) (tier h) (flags h) (role h)
    (meta_offset h) (meta_size h) cap
    (if v2 then Z.max (table_room h) cap else cap)
    (if v2 then Z.max (span h) (total_slots h) else total_slots h)
    (if v2 then partner h else nil_uuid) (if v2 then moved_to h else nil_uuid)
    crc (version h).

Lemma state_from_u8 s : state_from (state_u8 s) = s.
Proof. by destruct s. Qed.
Lemma tier_from_u8 t : tier_from (tier_u8 t) = t.
Proof. by destruct t. Qed.
Lemma role_from_u8 r : role_from (role_u8 r) = r.
Proof. by destruct r. Qed.

(** Reads field [k] of a [write_all]; what is left is [shape]'s equation. *)
Ltac read_field size sh k :=
  eapply (read_written size _ _ sh k); [reflexivity| |reflexivity|reflexivity|reflexivity|reflexivity].

Section Roundtrip.
Context (crc32c : bytes -> Z) (crc_u32 : forall b, u32_ok (crc32c b)).

Definition slot_shape : list (Z * Z) := [(0, 1); (4, 16); (20, 8); (28, 4); (32, 8)].

Lemma slot_shape_ok s : slot_ok s -> shape (slot_fields s) = slot_shape.
Proof. intros [[Hv _] _ _ _]. unfold shape, slot_fields. cbn [map fst snd]. by rewrite Hv. Qed.

Lemma slot_to_bytes_fields s :
  slot_to_bytes crc32c s = write_all (zeros SLOT_ENTRY_SIZE)
    (slot_fields s ++ [(60, le_bytes 4 (crc32c (slice 0 60 (write_all (zeros SLOT_ENTRY_SIZE) (slot_fields s)))))]).
Proof. by rewrite write_all_app. Qed.

Lemma slot_full_shape s c :
  slot_ok s -> shape (slot_fields s ++ [(60, le_bytes 4 c)]) = slot_shape ++ [(60, 4)].
Proof. intros Hs. unfold shape. rewrite map_app. by rewrite <- (slot_shape_ok s Hs). Qed.

Lemma zlen_slot_to_bytes s : slot_ok s -> zlen (slot_to_bytes crc32c s) = SLOT_ENTRY_SIZE.
Proof.
  intros Hs. rewrite slot_to_bytes_fields. apply zlen_write_all; [done|].
  by rewrite slot_full_shape.
Qed.

Lemma slot_bytes_ok s : slot_ok s -> all_bytes (slot_to_bytes crc32c s).
Proof.
  intros [[_ Hv] _ _ _]. rewrite slot_to_bytes_fields. apply all_bytes_write_all; [apply all_bytes_zeros|].
  unfold slot_fields. cbn [app]. rewrite !Forall_cons, Forall_nil. cbn [snd].
  split_and!; auto using all_bytes_le_bytes. apply Forall_singleton. by destruct (state s).
Qed.

Lemma slot_roundtrip s : slot_ok s -> slot_from_bytes crc32c (slot_to_bytes crc32c s) = Some s.
Proof using crc_u32.
  intros Hs. pose proof (zlen_slot_to_bytes s Hs) as Hlen. revert Hlen.
  rewrite slot_to_bytes_fields. set (buf := write_all (zeros SLOT_ENTRY_SIZE) (slot_fields s)).
  set (crc := crc32c (slice 0 60 buf)). set (out := write_all _ _). intros Hlen.
  pose proof (slot_full_shape s crc Hs) as Hsh.
  unfold slot_from_bytes. rewrite Hlen. change (SLOT_ENTRY_SIZE <? SLOT_ENTRY_SIZE) with false. cbv iota.
  assert (slice 60 4 out = le_bytes 4 crc) as H60 by (read_field 64 (slot_shape ++ [(60, 4)]) 5%nat; exact Hsh).
  assert (slice 0 60 out = slice 0 60 buf) as H0.
  { unfold out. rewrite write_all_app. apply slice_splice_before; try done.
    fold buf. unfold buf. rewrite (zlen_write_all 64); [done|done|by rewrite slot_shape_ok]. }
  unfold rd_u32, rd_u64. rewrite H60, H0. rewrite le_val_u32 by apply crc_u32.
  fold crc. rewrite Z.eqb_refl. cbn [negb].
  assert (slice 0 1 out = [state_u8 (state s)]) as F0 by (read_field 64 (slot_shape ++ [(60, 4)]) 0%nat; exact Hsh).
  assert (slice 4 16 out = volume_id s) as F4 by (read_field 64 (slot_shape ++ [(60, 4)]) 1%nat; exact Hsh).
  assert (slice 20 8 out = le_bytes 8 (virtual_extent_idx s)) as F20
    by (read_field 64 (slot_shape ++ [(60, 4)]) 2%nat; exact Hsh).
  assert (slice 28 4 out = le_bytes 4 (ref_count s)) as F28 by (read_field 64 (slot_shape ++ [(60, 4)]) 3%nat; exact Hsh).
  assert (slice 32 8 out = le_bytes 8 (generation s)) as F32 by (read_field 64 (slot_shape ++ [(60, 4)]) 4%nat; exact Hsh).
  rewrite (slice_1_at out 0 _ F0), F4, F20, F28, F32 by done.
  destruct Hs as [Hv He Hr Hg]. rewrite !le_val_u64, le_val_u32, state_from_u8 by done.
  by destruct s.
Qed.
End Roundtrip.

Section HeaderRoundtrip.
Context (crc32c : bytes -> Z) (crc_u32 : forall b, u32_ok (crc32c b)).

Definition header_shape : list (Z * Z) :=
  [(0, 8); (8, 4); (12, 16); (28, 16); (44, 8); (52, 8); (60, 8); (68, 8); (76, 8); (84, 8); (92, 8);
   (100, 1); (101, 1); (102, 1); (104, 8); (112, 8)].
Definition header_shape_v1 := header_shape ++ [(120, 4); (124, 4)].
Definition header_shape_v2 := header_shape ++ [(128, 8); (136, 8); (144, 8); (152, 16); (168, 16); (124, 4)].

Definition v1_fields h c := header_fields h ++ [(120, le_bytes 4 (Z.min (header_cap h) u32max)); (124, le_bytes 4 c)].
Definition v2_fields h c := header_fields h ++ header_fields_v2 h ++ [(124, le_bytes 4 c)].

Lemma v1_shape h c : header_ok h -> shape (v1_fields h c) = header_shape_v1.
Proof.
  intros []. destruct ho_uuid0 as [Hu _], ho_dev0 as [Hd _].
  unfold shape, v1_fields, header_fields. cbn [app map fst snd]. by rewrite Hu, Hd.
Qed.

Lemma v2_shape h c : header_ok h -> shape (v2_fields h c) = header_shape_v2.
Proof.
  intros []. destruct ho_uuid0 as [Hu _], ho_dev0 as [Hd _], ho_partner0 as [Hp _], ho_moved0 as [Hm _].
  unfold shape, v2_fields, header_fields, header_fields_v2. cbn [app map fst snd]. by rewrite Hu, Hd, Hp, Hm.
Qed.

(** Both versions' buffers as one sequence of writes, and what their checksums cover. *)
Lemma header_v1_bytes h :
  header_ok h -> version h = SLAB_VERSION ->
  exists c, u32_ok c /\ header_to_bytes crc32c h = write_all (zeros HEADER_SIZE) (v1_fields h c)
    /\ crc32c (slice 0 124 (header_to_bytes crc32c h)) = c.
Proof using crc_u32.
  intros Hok Hv. unfold header_to_bytes. rewrite Hv. change (SLAB_VERSION =? SLAB_VERSION_2) with false.
  cbv iota zeta. rewrite write_all_snoc. set (fs := header_fields h ++ _).
  exists (crc32c (slice 0 124 (write_all (zeros HEADER_SIZE) fs))).
  assert (in_bounds HEADER_SIZE (shape fs) = true) as Hin.
  { pose proof (v1_shape h 0 Hok) as Hsh. unfold v1_fields, header_shape_v1, shape in *.
    change [(120, ?x); (124, ?y)] with ([(120, x)] ++ [(124, y)]) in Hsh.
    rewrite app_assoc, map_app, (app_assoc header_shape) in Hsh.
    apply app_inj_2 in Hsh as [Hsh _]; [|reflexivity]. unfold fs. by rewrite Hsh. }
  split; [apply crc_u32|]. split.
  - rewrite write_all_snoc. unfold fs, v1_fields. by rewrite <- app_assoc.
  - f_equal. apply slice_splice_before; rewrite ?(zlen_write_all HEADER_SIZE) by done; by vm_compute.
Qed.

Lemma header_v2_bytes h :
  header_ok h -> version h = SLAB_VERSION_2 ->
  exists c, u32_ok c /\ header_to_bytes crc32c h = write_all (zeros HEADER_SIZE) (v2_fields h c)
    /\ crc_v2 crc32c (header_to_bytes crc32c h) = c.
Proof using crc_u32.
  intros Hok Hv. unfold header_to_bytes. rewrite Hv, Z.eqb_refl. cbv zeta.
  rewrite <- write_all_app. set (fs := header_fields h ++ _).
  exists (crc_v2 crc32c (write_all (zeros HEADER_SIZE) fs)).
  assert (in_bounds HEADER_SIZE (shape fs) = true) as Hin.
  { pose proof (v2_shape h 0 Hok) as Hsh. unfold v2_fields, header_shape_v2, shape in *.
    rewrite app_assoc, map_app in Hsh.
    change [(128, 8); (136, 8); (144, 8); (152, 16); (168, 16); (124, 4)]
      with ([(128, 8); (136, 8); (144, 8); (152, 16); (168, 16)] ++ [(124, 4)]) in Hsh.
    rewrite (app_assoc header_shape) in Hsh. apply app_inj_2 in Hsh as [Hsh _]; [|reflexivity].
    unfold fs. by rewrite Hsh. }
  split; [apply crc_u32|]. split.
  - rewrite write_all_snoc. unfold fs, v2_fields. by rewrite <- app_assoc.
  - unfold crc_v2. f_equal. f_equal.
    + apply slice_splice_before; rewrite ?(zlen_write_all HEADER_SIZE) by done; by vm_compute.
    + apply slice_splice_after; rewrite ?(zlen_write_all HEADER_SIZE) by done; by vm_compute.
Qed.

(** The fields both versions share, read from any buffer that holds them. *)
Record base_fields (out : bytes) (h : SlabHeader) : Prop := {
  bf_magic : slice 0 8 out = SLAB_MAGIC;
  bf_version : slice 8 4 out = le_bytes 4 (version h);
  bf_uuid : slice 12 16 out = slab_uuid h;
  bf_dev : slice 28 16 out = device_uuid h;
  bf_slot : slice 44 8 out = le_bytes 8 (slot_size h);
  bf_total : slice 52 8 out = le_bytes 8 (total_slots h);
  bf_free : slice 60 8 out = le_bytes 8 (free_slots h);
  bf_data : slice 68 8 out = le_bytes 8 (data_offset h);
  bf_table : slice 76 8 out = le_bytes 8 (table_offset h);
  bf_create : slice 84 8 out = le_bytes 8 (create_time h);
  bf_update : slice 92 8 out = le_bytes 8 (update_time h);
  bf_tier : slice 100 1 out = [tier_u8 (tier h)];
  bf_flags : slice 101 1 out = [flags h];
  bf_role : slice 102 1 out = [role_u8 (role h)];
  bf_moff : slice 104 8 out = le_bytes 8 (meta_offset h);
  bf_msize : slice 112 8 out = le_bytes 8 (meta_size h) }.

Lemma base_fields_of ws sh h :
  shape (header_fields h ++ ws) = header_shape ++ sh -> in_bounds HEADER_SIZE (header_shape ++ sh) = true ->
  apart 0 120 sh = true ->
  base_fields (write_all (zeros HEADER_SIZE) (header_fields h ++ ws)) h.
Proof using Type.
  intros Hsh Hin Hap.
  assert (forall k o n s, header_fields h !! k = Some (o, s) -> header_shape !! k = Some (o, n) ->
          apart o n (drop (S k) header_shape) = true -> 0 <= o -> o + n <= 120 ->
          slice o n (write_all (zeros HEADER_SIZE) (header_fields h ++ ws)) = s) as Hrd.
  { intros k o n s Hk Hk' Ha Ho Hn. pose proof (lookup_lt_Some _ _ _ Hk) as Hlt.
    eapply (read_written HEADER_SIZE _ _ (header_shape ++ sh) k); try done.
    - by rewrite lookup_app_l by done.
    - rewrite lookup_app_l; [done|by eapply lookup_lt_Some].
    - rewrite drop_app_le by (eapply Nat.le_succ_l, lookup_lt_Some; exact Hk').
      unfold apart in *. rewrite forallb_app, Ha. cbn [andb]. rewrite forallb_forall in Hap |- *.
      intros w Hw. specialize (Hap w Hw). apply orb_true_iff in Hap as [H|H]; bprop; apply orb_true_iff;
        [left|right]; apply Z.leb_le; [|lia].
      assert (In w (header_shape ++ sh)) as Hw' by (apply in_or_app; by right).
      unfold in_bounds in Hin. rewrite forallb_forall in Hin. specialize (Hin w Hw'). bprop. lia. }
  constructor; match goal with |- slice ?o ?n _ = _ => idtac end.
  all: [> eapply (Hrd 0%nat) | eapply (Hrd 1%nat) | eapply (Hrd 2%nat) | eapply (Hrd 3%nat) | eapply (Hrd 4%nat)
        | eapply (Hrd 5%nat) | eapply (Hrd 6%nat) | eapply (Hrd 7%nat) | eapply (Hrd 8%nat) | eapply (Hrd 9%nat)
        | eapply (Hrd 10%nat) | eapply (Hrd 11%nat) | eapply (Hrd 12%nat) | eapply (Hrd 13%nat)
        | eapply (Hrd 14%nat) | eapply (Hrd 15%nat) ]; try reflexivity; lia.
Qed.

Lemma header_from_base out h :
  header_ok h -> base_fields out h -> zlen out = HEADER_SIZE ->
  forall c, u32_ok c -> slice 124 4 out = le_bytes 4 c ->
  (if version h =? SLAB_VERSION_2 then crc_v2 crc32c out else crc32c (slice 0 124 out)) = c ->
  (if version h =? SLAB_VERSION_2
   then rd_u64 out 128 = header_cap h
        /\ rd_u64 out 136 = (if Z.max (table_capacity h) (total_slots h) <? table_room h then table_room h else 0)
        /\ rd_u64 out 144 = (if total_slots h <? span h then span h else 0)
        /\ slice 152 16 out = partner h /\ slice 168 16 out = moved_to h
   else rd_u32 out 120 = Z.min (header_cap h) u32max) ->
  header_from_bytes crc32c out = Ok (as_read h c).
Proof using Type.
  intros Hok [] Hlen c Hc Hcrc Hcomp Hrest. destruct Hok. unfold header_from_bytes. rewrite Hlen.
  change (HEADER_SIZE <? 128) with false. change (HEADER_SIZE <? 256) with false. cbv iota.
  rewrite bf_magic0, bool_decide_true by done. cbn [negb]. cbv zeta.
  assert (rd_u32 out 8 = version h) as ->.
  { unfold rd_u32. rewrite bf_version0. apply le_val_u32. by destruct ho_version0 as [-> | ->]. }
  assert (rd_u32 out 124 = c) as -> by (unfold rd_u32; rewrite Hcrc; by apply le_val_u32).
  assert (negb (version h =? SLAB_VERSION) && negb (version h =? SLAB_VERSION_2) = false) as ->
    by (destruct ho_version0 as [-> | ->]; done).
  rewrite andb_false_r, Hcomp, Z.eqb_refl. cbn [negb]. unfold as_read.
  unfold rd_u64 in *. rewrite bf_uuid0, bf_dev0, bf_slot0, bf_total0, bf_free0, bf_data0, bf_table0, bf_create0,
    bf_update0, bf_moff0, bf_msize0.
  rewrite (slice_1_at _ _ _ bf_tier0), (slice_1_at _ _ _ bf_flags0), (slice_1_at _ _ _ bf_role0) by lia.
  rewrite !le_val_u64, tier_from_u8, role_from_u8 by done.
  f_equal. destruct (Z.eqb_spec (version h) SLAB_VERSION_2) as [Hv|Hv].
  - destruct Hrest as (-> & -> & -> & -> & ->). unfold header_cap.
    unfold u64_ok in *. f_equal; bool_cases; lia.
  - rewrite Hrest. f_equal.
Qed.

Lemma header_roundtrip h :
  header_ok h -> exists c, header_from_bytes crc32c (header_to_bytes crc32c h) = Ok (as_read h c).
Proof using crc_u32.
  intros Hok. destruct (ho_version h Hok) as [Hv|Hv].
  - destruct (header_v1_bytes h Hok Hv) as (c & Hc & Hb & Hcrc). exists c. rewrite Hb in *.
    pose proof (v1_shape h c Hok) as Hsh.
    apply header_from_base; try done.
    + by apply (base_fields_of _ [(120, 4); (124, 4)]).
    + apply zlen_write_all; [done|by rewrite Hsh].
    + read_field HEADER_SIZE header_shape_v1 17%nat; exact Hsh.
    + by rewrite Hv.
    + rewrite Hv. cbn [Z.eqb SLAB_VERSION SLAB_VERSION_2 Pos.eqb]. unfold rd_u32.
      assert (slice 120 4 (write_all (zeros HEADER_SIZE) (v1_fields h c))
              = le_bytes 4 (Z.min (header_cap h) u32max)) as -> by
        (read_field HEADER_SIZE header_shape_v1 16%nat; exact Hsh).
      apply le_val_u32. unfold header_cap, u32_ok, u32max. destruct (ho_cap h Hok). case_match; lia.
  - destruct (header_v2_bytes h Hok Hv) as (c & Hc & Hb & Hcrc). exists c. rewrite Hb in *.
    pose proof (v2_shape h c Hok) as Hsh.
    apply header_from_base; try done.
    + by apply (base_fields_of _ [(128, 8); (136, 8); (144, 8); (152, 16); (168, 16); (124, 4)]).
    + apply zlen_write_all; [done|by rewrite Hsh].
    + read_field HEADER_SIZE header_shape_v2 21%nat; exact Hsh.
    + by rewrite Hv.
    + rewrite Hv, Z.eqb_refl. unfold rd_u64. destruct Hok.
      set (out := write_all _ _) in *.
      assert (slice 128 8 out = le_bytes 8 (header_cap h)) as ->
        by (read_field HEADER_SIZE header_shape_v2 16%nat; exact Hsh).
      assert (slice 136 8 out = le_bytes 8 (if Z.max (table_capacity h) (total_slots h) <? table_room h then table_room h else 0)) as ->
        by (read_field HEADER_SIZE header_shape_v2 17%nat; exact Hsh).
      assert (slice 144 8 out = le_bytes 8 (if total_slots h <? span h then span h else 0)) as ->
        by (read_field HEADER_SIZE header_shape_v2 18%nat; exact Hsh).
      unfold header_cap. split_and!.
      * apply le_val_u64. case_match; [done|by split].
      * apply le_val_u64. case_match; [done|by split].
      * apply le_val_u64. case_match; [done|by split].
      * read_field HEADER_SIZE header_shape_v2 19%nat; exact Hsh.
      * read_field HEADER_SIZE header_shape_v2 20%nat; exact Hsh.
Qed.
End HeaderRoundtrip.

(** A slab's records survive the trip to the device: a slot entry is read back
    as it was written, and a header of either version as its canonical form
    (the growth fields a version 1 header cannot carry at their defaults, the
    others untouched), whatever checksum function is used. *)
Lemma slab_records_roundtrip crc32c s h :
  (forall b, u32_ok (crc32c b)) -> slot_ok s -> header_ok h ->
  slot_from_bytes crc32c (slot_to_bytes crc32c s) = Some s
  /\ exists c, header_from_bytes crc32c (header_to_bytes crc32c h) = Ok (as_read h c).
Proof.
  intros Hcrc Hs Hh. split; [by apply slot_roundtrip|by apply header_roundtrip].
Qed.

(** A checksum to evaluate with: the sum of the bytes. *)
Definition sum_crc (b : bytes) : Z := wrap 32 (foldr Z.add 0 b).

Lemma sum_crc_u32 b : u32_ok (sum_crc b).
Proof. apply wrap_range. lia. Qed.

Definition sample_uuid : bytes := map (fun i => 16 * i + 5) (zrange 0 16).
Definition sample_header : SlabHeader :=
  mkHeader sample_uuid sample_uuid 1048576 100 100 1048576 12288 7 9 Warm 1 Data 4096 8192 128 640 500
    sample_uuid nil_uuid 0 SLAB_VERSION_2.

(** ** Geometry *)

Lemma align_up_spec v a : 0 <= v -> 0 < a -> v + a < 2 ^ 64 -> v <= align_up v a < v + a /\ align_up v a mod a = 0.
Proof.
  intros Hv Ha Hu. unfold align_up. destruct (Z.eqb_spec a 0); [lia|].
  pose proof (Z.mod_pos_bound v a Ha). destruct (Z.eqb_spec (v mod a) 0) as [E|E]; [lia|]. rewrite wrap_small by lia.
  split; [lia|]. replace (v + a - v mod a) with (a * (v / a + 1)) by (pose proof (Z.div_mod v a ltac:(lia)); lia).
  by rewrite Z.mul_comm, Z.mod_mul by lia.
Qed.

Lemma align_up_le v a b : 0 <= v -> 0 < a -> v + a < 2 ^ 64 -> v <= b -> b mod a = 0 -> align_up v a <= b.
Proof.
  intros Hv Ha Hu Hb Hm. destruct (align_up_spec v a Hv Ha Hu) as [[_ H1] H2].
  pose proof (Z.div_mod b a ltac:(lia)). pose proof (Z.div_mod (align_up v a) a ltac:(lia)).
  assert (align_up v a / a < b / a + 1) by (apply (Z.mul_lt_mono_pos_l a); lia). nia.
Qed.

(** Sizes below 4 EiB, and a table for what the slab may grow to that takes no more. *)
Record format_ok (f : SlabFormat) : Prop := {
  fo_slot : 0 < f_slot_size f <= 2 ^ 62; fo_meta : 0 <= f_metadata_bytes f <= 2 ^ 61;
  fo_grow : 0 <= f_grow_to f; fo_table : f_grow_to f / f_slot_size f * SLOT_ENTRY_SIZE <= 2 ^ 62;
  fo_step : 0 < f_commit_step f }.

Lemma div_pos_iff a b : 0 < b -> b <= a -> 0 < a / b.
Proof. intros Hb Ha. apply Z.div_str_pos. lia. Qed.

Lemma auto_slots_nonneg capacity ss : 0 <= sat_sub capacity HEADER_SIZE / wrap 64 (SLOT_ENTRY_SIZE + Z.max ss 1).
Proof.
  pose proof (wrap_range 64 (SLOT_ENTRY_SIZE + Z.max ss 1) ltac:(lia)). destruct (Z.eq_dec (wrap 64 (SLOT_ENTRY_SIZE + Z.max ss 1)) 0) as [->|].
  - by rewrite Z.div_0_r.
  - apply Z.div_pos; [unfold sat_sub|]; lia.
Qed.
Lemma auto_v2_range capacity ss : 0 <= capacity <= 2 ^ 62 -> 0 <= auto_metadata_bytes_v2 capacity ss <= 2 ^ 61.
Proof.
  intros Hc. unfold auto_metadata_bytes_v2. cbv zeta. set (slots := sat_sub _ _ / _). assert (0 <= slots) by apply auto_slots_nonneg.
  set (t := sat_mul64 slots 48). assert (0 <= t) by (unfold t, sat_mul64, u64max; lia).
  assert (0 <= t / 7) by (apply Z.div_pos; lia). assert (capacity / 8 <= 2 ^ 59) by (apply Z.div_le_upper_bound; lia).
  set (w := Z.min (sat_add64 _ _) _). assert (0 <= w <= 2 ^ 60) by (unfold w, sat_add64, u64max, META_ALIGN; lia).
  destruct (align_up_spec w (2 * META_ALIGN)) as [Hup _]; [lia|done|unfold META_ALIGN; lia|]. unfold META_ALIGN in *. lia.
Qed.

(** C40. [format_with] lays the regions down in order and apart (header, metadata,
    slot table with the room it may grow into, data aligned to a slot), every
    slot of the span lies inside the device, at least one slot is committed, and
    the committed part of the table is within its room; for a device, a slot and a table
    to grow into of at most 4 EiB, which keep the sums of [u64] from wrapping. *)
Theorem format_regions_fit capacity uuid dev now f h :
  0 <= capacity <= 2 ^ 62 -> format_ok f -> format_header capacity uuid dev now f = Ok h ->
  table_offset h = HEADER_SIZE + meta_size h
  /\ (meta_size h = 0 \/ meta_offset h = HEADER_SIZE) /\ meta_size h mod (2 * META_ALIGN) = 0
  /\ table_offset h + table_room h * SLOT_ENTRY_SIZE <= data_offset h
  /\ data_offset h mod slot_size h = 0
  /\ data_offset h + span h * slot_size h <= capacity
  /\ 0 < total_slots h <= span h /\ span h <= table_room h
  /\ total_slots h = Z.min (span h) (table_capacity h)
  /\ 0 < table_capacity h <= table_room h.
Proof.
  intros Hcap [Hss Hmb Hgr Htab Hst]. unfold format_header. cbv zeta.
  set (ss := f_slot_size f) in *. set (v2 := f_version f =? SLAB_VERSION_2).
  set (wanted := if v2 && _ then _ else _).
  assert (0 <= wanted <= 2 ^ 61) as Hw by (unfold wanted; pose proof (auto_v2_range capacity ss Hcap); case_match; lia).
  set (ms := align_up wanted (2 * META_ALIGN)).
  destruct (align_up_spec wanted (2 * META_ALIGN) ltac:(lia) ltac:(done) ltac:(unfold META_ALIGN; lia)) as [Hms1 Hms2]. fold ms in Hms1, Hms2.
  assert (ms < 2 ^ 61 + 8192) as Hms3 by (unfold META_ALIGN in Hms1; lia). assert (0 <= HEADER_SIZE + ms < 2 ^ 62) by (unfold HEADER_SIZE; lia).
  rewrite !(wrap_small 64 (HEADER_SIZE + ms)) by lia. rewrite !(wrap_small 64 (SLOT_ENTRY_SIZE + ss)) by (unfold SLOT_ENTRY_SIZE; lia).
  set (toff := HEADER_SIZE + ms) in *. set (usable := sat_sub capacity toff).
  destruct (Z.eqb_spec (SLOT_ENTRY_SIZE + ss) 0) as [|_]; [unfold SLOT_ENTRY_SIZE in *; lia|]. cbn [orb].
  destruct (Z.ltb_spec usable (SLOT_ENTRY_SIZE + ss)) as [|Hu]; [discriminate|].
  set (tot := usable / (SLOT_ENTRY_SIZE + ss)).
  assert (0 < tot) by (apply div_pos_iff; unfold SLOT_ENTRY_SIZE in *; lia).
  set (tc := Z.max tot (f_grow_to f / Z.max ss 1)).
  assert (0 <= tc * SLOT_ENTRY_SIZE <= 2 ^ 62) as Htc.
  { assert (tot * SLOT_ENTRY_SIZE <= 2 ^ 62).
    { pose proof (Z.div_mod usable (SLOT_ENTRY_SIZE + ss) ltac:(unfold SLOT_ENTRY_SIZE; lia)) as Hdm. fold tot in Hdm.
      pose proof (Z.mod_pos_bound usable (SLOT_ENTRY_SIZE + ss) ltac:(unfold SLOT_ENTRY_SIZE; lia)). assert (usable <= 2 ^ 62) by (unfold usable, sat_sub; lia).
      unfold SLOT_ENTRY_SIZE in *. nia. }
    unfold tc. replace (Z.max ss 1) with ss by lia. unfold SLOT_ENTRY_SIZE in *. lia. }
  rewrite !(wrap_small 64 (tc * SLOT_ENTRY_SIZE)) by lia. rewrite !(wrap_small 64 (toff + tc * SLOT_ENTRY_SIZE)) by lia.
  set (doff := align_up (toff + tc * SLOT_ENTRY_SIZE) ss).
  assert (0 <= toff + tc * SLOT_ENTRY_SIZE) by (unfold toff, SLOT_ENTRY_SIZE, HEADER_SIZE in *; lia).
  destruct (align_up_spec (toff + tc * SLOT_ENTRY_SIZE) ss ltac:(done) ltac:(lia) ltac:(lia)) as [Hd1 Hd2]. fold doff in Hd1, Hd2.
  set (spn := Z.min tot (sat_sub capacity doff / ss)).
  destruct (Z.eqb_spec spn 0) as [|Hspn]; [discriminate|].
  assert (0 <= sat_sub capacity doff / ss) by (apply Z.div_pos; [unfold sat_sub|]; lia).
  assert (0 < spn) by lia.
  assert (doff + spn * ss <= capacity).
  { pose proof (Z.div_mod (sat_sub capacity doff) ss ltac:(lia)).
    pose proof (Z.mod_pos_bound (sat_sub capacity doff) ss ltac:(lia)).
    assert (spn * ss <= sat_sub capacity doff) by nia. unfold sat_sub in *. nia. }
  destruct (negb v2 && (u32max <? tc)) eqn:E; [discriminate|]. clear E.
  set (room := Z.max tc spn). set (cc := if v2 then _ else room).
  assert (0 < cc <= room) as Hcc.
  { unfold cc. destruct v2; [|lia]. unfold sat_mul64, u64max.
    assert (0 < Z.min spn (f_commit_step f)) by lia.
    pose proof (div_ceil_mul (Z.min spn (f_commit_step f)) 64 ltac:(lia)). lia. }
  intros [= <-]. cbn [table_offset meta_size meta_offset table_room data_offset slot_size span total_slots table_capacity].
  split; [done|]. split; [destruct (Z.ltb_spec 0 ms); [by right|left; lia]|].
  split; [done|]. split; [|split; [done|split; [done|lia]]].
  assert (room = tc) as -> by lia. lia.
Qed.

Definition sample_format : SlabFormat := mkFormat 1048576 Hot 65536 System (2 ^ 31) true 2 64.

Lemma format_regions_fit_witness :
  match format_header (2 ^ 30) nil_uuid nil_uuid 0 sample_format with
  | Ok h => data_offset h + span h * slot_size h <= 2 ^ 30
  | Err _ => False
  end.
Proof.
  destruct (format_header (2 ^ 30) nil_uuid nil_uuid 0 sample_format) as [h|e] eqn:E; [|by vm_compute in E].
  apply (format_regions_fit (2 ^ 30) nil_uuid nil_uuid 0 sample_format h); [lia|constructor; by_decide|exact E].
Defined.

(** A slab to grow to 2^58 slots of a byte: the size of its table wraps, and its data
    begins where the table does. *)
Definition huge_growth : SlabFormat := mkFormat 1 Hot 65536 System (2 ^ 58) true 2 64.
Lemma growth_past_u64_overlaps : match format_header (2 ^ 30) nil_uuid nil_uuid 0 huge_growth with
  | Ok h => data_offset h = table_offset h /\ 0 < total_slots h
  | Err _ => False
  end.
Proof. vm_compute. by split. Qed.

(** [slot_device_and_offset] is refused exactly for a slot past the committed
    ones or an offset past the slot, and otherwise no two (slot, offset) pairs
    share a device address and every address is inside the span's data. *)
Lemma slot_addresses_never_alias h committed i o :
  0 < slot_size h -> 0 <= i -> 0 <= o -> committed <= span h ->
  (slot_address h committed i o = Err SlotOutOfRange <-> committed <= i)
  /\ (slot_address h committed i o = Err OffsetPastSlot <-> i < committed /\ slot_size h <= o)
  /\ (forall a, slot_address h committed i o = Ok a ->
      data_offset h <= a < data_offset h + span h * slot_size h
      /\ forall i' o', 0 <= i' -> 0 <= o' -> slot_address h committed i' o' = Ok a -> i' = i /\ o' = o).
Proof.
  intros Hs Hi Ho Hc. unfold slot_address. split_and!.
  - bool_cases; split; (done || lia).
  - bool_cases; split; (done || lia).
  - intros a. destruct (Z.leb_spec committed i); [done|]. destruct (Z.leb_spec (slot_size h) o); [done|].
    intros [= <-]. split; [nia|]. intros i' o' Hi' Ho'.
    destruct (Z.leb_spec committed i'); [done|]. destruct (Z.leb_spec (slot_size h) o'); [done|].
    intros [= E].
    assert (i' * slot_size h + o' = i * slot_size h + o) as E' by lia.
    assert (i' = i) as -> by nia. lia.
Qed.

(** The size of an auto-sized region: whole pairs of aligned copies, at most an
    eighth of the device (or one pair, on a device too small for that) before
    the rounding up. *)
Lemma auto_metadata_bounds capacity ss :
  0 <= capacity < 2 ^ 64 ->
  auto_metadata_bytes capacity ss mod (2 * META_ALIGN) = 0
  /\ 0 < auto_metadata_bytes capacity ss < Z.max (capacity / 8) (2 * META_ALIGN) + 2 * META_ALIGN
  /\ auto_metadata_bytes capacity ss <= META_MAX
  /\ auto_metadata_bytes_v2 capacity ss mod (2 * META_ALIGN) = 0
  /\ 0 <= auto_metadata_bytes_v2 capacity ss < Z.max (capacity / 8) (2 * META_ALIGN) + 2 * META_ALIGN.
Proof.
  intros Hcap. unfold auto_metadata_bytes, auto_metadata_bytes_v2. cbv zeta.
  set (ceil := clamp (capacity / 8) (2 * META_ALIGN) META_MAX). set (slots := sat_sub _ _ / _).
  assert (0 <= slots) as Hs by apply auto_slots_nonneg.
  assert (capacity / 8 < 2 ^ 61) by (apply Z.div_lt_upper_bound; lia).
  assert (2 * META_ALIGN <= ceil <= META_MAX) by (unfold ceil, clamp, META_ALIGN, META_MAX; lia).
  assert (ceil <= Z.max (capacity / 8) (2 * META_ALIGN)) by (unfold ceil, clamp; lia).
  set (w := clamp (sat_mul64 slots META_BYTES_PER_SLOT) _ _).
  assert (0 < w <= ceil) as Hw by (unfold w, clamp, META_MIN, META_ALIGN in *; lia).
  destruct (align_up_spec w (2 * META_ALIGN) ltac:(lia) ltac:(done) ltac:(unfold META_ALIGN, META_MAX in *; lia)) as [Hu3 Hu4].
  pose proof (align_up_le w (2 * META_ALIGN) META_MAX ltac:(lia) ltac:(done) ltac:(unfold META_ALIGN, META_MAX in *; lia) ltac:(lia) ltac:(done)).
  set (t := sat_mul64 slots 48). assert (0 <= t) by (unfold t, sat_mul64, u64max; lia).
  assert (0 <= t / 7) by (apply Z.div_pos; lia).
  set (w2 := Z.min (sat_add64 _ _) _).
  assert (0 <= w2 <= Z.max (capacity / 8) (2 * META_ALIGN)) as Hw2.
  { unfold w2, sat_add64, u64max, META_ALIGN. lia. }
  destruct (align_up_spec w2 (2 * META_ALIGN) ltac:(lia) ltac:(done) ltac:(unfold META_ALIGN in *; lia)) as [Hu1 Hu2].
  split_and!; try done; lia.
Qed.
