(* ===== verification/SlotStore.v ===== *)
(** What a slab is to the volumes on it: the interface [SlotStore], the operations of
    [drive/slab.rs] a volume calls, and [SlotStoreLaws], what it may rely on.  A slot has a
    share count, zero when nobody holds it, and bytes.  [SlotStoreSlab] shows the slab
    engine to be one.  With it, the errors of the drive layer, [drive/mod.rs]. *)

From S2P Require Import Prelude SlabFormat.

(** ** Errors of the drive layer *)

Inductive IoKind :=
| TimedOut | ConnectionRefused | ConnectionReset | ConnectionAborted | NotConnected | BrokenPipe | Interrupted
| UnexpectedEof | WouldBlock | AddrNotAvailable | NetworkUnreachable | HostUnreachable | NetworkDown
| InvalidInput | InvalidData | OtherKind.
(** [retry::classify_io]. *)
Inductive RetryClass := Transient | Permanent.
#[export] Instance RetryClass_eq : EqDecision RetryClass.
Proof. solve_decision. Defined.
Definition classify_io (k : IoKind) : RetryClass :=
  match k with InvalidInput | InvalidData | OtherKind => Permanent | _ => Transient end.

Inductive DriveError :=
| DIo (k : IoKind) | DNotAligned | DOutOfRange | DBufferTooSmall | DNoSpace | DReadOnly | DNotReady | DOther.

Definition is_transport (e : DriveError) : bool :=
  match e with DIo k => bool_decide (classify_io k = Transient) | _ => false end.
Definition is_media_failure (e : DriveError) : bool :=
  match e with
  | DIo k => if is_transport (DIo k) then false else match k with InvalidInput | InvalidData => false | _ => true end
  | DNotAligned | DOutOfRange | DBufferTooSmall | DNoSpace | DReadOnly => false
  | _ => true
  end.
Definition is_no_space (e : DriveError) : bool := match e with DNoSpace => true | _ => false end.

(** ** The interface *)

Class SlotStore (S : Type) := {
  ss_slot_size : S -> Z;
  ss_tier : S -> StorageTier;
  ss_role : S -> SlabRole;
  ss_dedicated : S -> bool;
  ss_block_size : S -> Z;
  ss_free_slots : S -> Z;
  ss_unpublished : S -> Z -> bool;
  (** [slot_device_and_offset]: where an offset of a slot is. *)
  ss_address : S -> Z -> Z -> result DriveError Z;
  ss_alloc : VolumeId -> Z -> Z -> S -> result DriveError Z * S;
  ss_confirm : Z -> S -> S;
  ss_free : Z -> S -> result DriveError () * S;
  ss_dec_ref : Z -> S -> result DriveError bool * S;
  ss_inc_ref : Z -> S -> result DriveError () * S;
  ss_inc_ref_batch : list Z -> S -> result DriveError () * S;
  (** How many were freed, and how many turned down. *)
  ss_dec_ref_batch : list Z -> S -> result DriveError (Z * Z) * S;
  ss_shares : Z -> S -> Z * S;
  ss_owner : Z -> S -> option (VolumeId * Z) * S;
  ss_sync : S -> result DriveError () * S;
  (** The device's [read], [write] and [write_zeroes] at an offset of a slot: what was read,
      how many bytes were written. *)
  ss_read : Z -> Z -> Z -> S -> result DriveError bytes * S;
  ss_write : Z -> Z -> bytes -> S -> result DriveError Z * S;
  ss_zero : Z -> Z -> Z -> S -> result DriveError () * S }.

(** ** The laws *)

Section laws.
Context {S : Type} (size : S -> Z) (wf : S -> Prop) (refs : S -> Z -> Z) (byte_at : S -> Z -> Z -> Z).

(** Slots held before and after have their bytes. *)
Record keeps_held (s s' : S) : Prop := {
  kh_wf : wf s';
  kh_size : size s' = size s;
  kh_bytes : forall i p, 0 < refs s i -> 0 < refs s' i -> 0 <= p < size s -> byte_at s' i p = byte_at s i p }.
(** Nothing a volume can see changed. *)
Record keeps_all (s s' : S) : Prop := {
  ka_held : keeps_held s s';
  ka_refs : forall i, refs s' i = refs s i }.
(** A range of slot [i] was written, or may have been; nothing else was. *)
Record writes (i o n : Z) (s s' : S) : Prop := {
  wr_wf : wf s';
  wr_size : size s' = size s;
  wr_refs : forall j, refs s' j = refs s j;
  wr_bytes : forall j p, 0 < refs s j -> 0 <= p < size s -> j <> i \/ p < o \/ o + n <= p ->
             byte_at s' j p = byte_at s j p }.
Definition slot_bytes (s : S) (i o n : Z) : bytes := map (byte_at s i) (zrange o (o + n)).
Definition times (j : Z) (l : list Z) : Z := zlen (filter (fun i => i = j) l).
End laws.

Class SlotStoreLaws (S : Type) `{SlotStore S} := {
  ss_wf : S -> Prop;
  ss_refs : S -> Z -> Z;
  ss_byte : S -> Z -> Z -> Z;
  ss_refs_nonneg s i : ss_wf s -> 0 <= ss_refs s i;
  ss_held_index s i : ss_wf s -> 0 < ss_refs s i -> 0 <= i;
  ss_read_law s i o n : ss_wf s -> 0 < ss_refs s i -> 0 <= o -> 0 <= n -> o + n <= ss_slot_size s ->
    keeps_all ss_slot_size ss_wf ss_refs ss_byte s (snd (ss_read i o n s))
    /\ forall b, fst (ss_read i o n s) = Ok b -> zlen b = n -> b = slot_bytes ss_byte s i o n;
  (** A request within a slot is never refused: an error is the medium's or the way's to it.
      After any other error the volume goes on trusting a leg that missed the write
      ([mark_failed] takes out of trust on these two kinds alone), so drives that answer a
      write in range with another are outside the laws. *)
  ss_write_law s i o b : ss_wf s -> 0 < ss_refs s i -> 0 <= o -> o + zlen b <= ss_slot_size s ->
    writes ss_slot_size ss_wf ss_refs ss_byte i o (zlen b) s (snd (ss_write i o b s))
    /\ (fst (ss_write i o b s) = Ok (zlen b) -> slot_bytes ss_byte (snd (ss_write i o b s)) i o (zlen b) = b)
    /\ (forall e, fst (ss_write i o b s) = Err e -> is_media_failure e || is_transport e = true);
  ss_zero_law s i o n : ss_wf s -> 0 < ss_refs s i -> 0 <= o -> 0 <= n -> o + n <= ss_slot_size s ->
    writes ss_slot_size ss_wf ss_refs ss_byte i o n s (snd (ss_zero i o n s))
    /\ (fst (ss_zero i o n s) = Ok () -> slot_bytes ss_byte (snd (ss_zero i o n s)) i o n = zeros n);
  ss_alloc_law v x g s : ss_wf s ->
    keeps_held ss_slot_size ss_wf ss_refs ss_byte s (snd (ss_alloc v x g s))
    /\ match fst (ss_alloc v x g s) with
       | Ok i => ss_refs s i = 0 /\ ss_refs (snd (ss_alloc v x g s)) i = 1
                 /\ forall j, j <> i -> ss_refs (snd (ss_alloc v x g s)) j = ss_refs s j
       | Err _ => forall j, ss_refs (snd (ss_alloc v x g s)) j = ss_refs s j
       end;
  ss_confirm_law i s : ss_wf s -> 0 < ss_refs s i -> keeps_all ss_slot_size ss_wf ss_refs ss_byte s (ss_confirm i s);
  ss_free_law i s : ss_wf s -> 0 < ss_refs s i ->
    keeps_held ss_slot_size ss_wf ss_refs ss_byte s (snd (ss_free i s))
    /\ forall j, j <> i -> ss_refs (snd (ss_free i s)) j = ss_refs s j;
  (** An error may come before the count moves or after. *)
  ss_dec_ref_law i s : ss_wf s -> 0 < ss_refs s i ->
    keeps_held ss_slot_size ss_wf ss_refs ss_byte s (snd (ss_dec_ref i s))
    /\ ss_refs s i - 1 <= ss_refs (snd (ss_dec_ref i s)) i
    /\ forall j, j <> i -> ss_refs (snd (ss_dec_ref i s)) j = ss_refs s j;
  ss_inc_ref_batch_law l s : ss_wf s -> Forall (fun i => 0 < ss_refs s i) l ->
    keeps_held ss_slot_size ss_wf ss_refs ss_byte s (snd (ss_inc_ref_batch l s))
    /\ match fst (ss_inc_ref_batch l s) with
       | Ok _ => forall j, ss_refs (snd (ss_inc_ref_batch l s)) j = ss_refs s j + times j l
       | Err _ => forall j, ss_refs (snd (ss_inc_ref_batch l s)) j = ss_refs s j
       end;
  ss_dec_ref_batch_law l s : ss_wf s -> Forall (fun i => 0 < ss_refs s i) l ->
    keeps_held ss_slot_size ss_wf ss_refs ss_byte s (snd (ss_dec_ref_batch l s))
    /\ (forall j, ss_refs s j - 1 <= ss_refs (snd (ss_dec_ref_batch l s)) j)
    /\ forall j, j ∉ l -> ss_refs (snd (ss_dec_ref_batch l s)) j = ss_refs s j;
  ss_shares_law i s : ss_wf s -> 0 <= i ->
    keeps_all ss_slot_size ss_wf ss_refs ss_byte s (snd (ss_shares i s))
    /\ (fst (ss_shares i s) = 0 \/ fst (ss_shares i s) = ss_refs s i);
  ss_owner_law i s : ss_wf s -> 0 <= i -> keeps_all ss_slot_size ss_wf ss_refs ss_byte s (snd (ss_owner i s));
  ss_sync_law s : ss_wf s -> keeps_all ss_slot_size ss_wf ss_refs ss_byte s (snd (ss_sync s)) }.
