(* ===== verification/SlotTable.v ===== *)
(** A slab's slot table, on the device, through a bounded page cache:
    [drive/slottable.rs].  The device is a buffer whose operations may fail, as
    the list [faults] of outcomes says; the page lock and the epoch counter are
    sequential here (one operation at a time holds [page_io]). *)

From S2P Require Import Prelude SlabFormat.

Definition PAGE : Z := 4096.
Definition ENTRIES_PER_PAGE : Z := PAGE / SLOT_ENTRY_SIZE.

(** ** The device *)

Record dev := Dev { media : bytes; faults : list op_fault }.

(** What happens to the next operation. *)
Definition tick (d : dev) : op_fault * dev := (default None (head (faults d)), Dev (media d) (tl (faults d))).

Definition dev_read (d : dev) (o n : Z) : option bytes * dev :=
  let '(f, d) := tick d in
  if bool_decide (is_Some f) || (zlen (media d) <? o + n) then (None, d) else (Some (slice o n (media d)), d).

(** A write that fails leaves any of its bytes. *)
Definition dev_write (d : dev) (o : Z) (b : bytes) : bool * dev :=
  let '(f, d) := tick d in
  if zlen (media d) <? o + zlen b then (false, d)
  else
    match f with
    | Some kept => (false, Dev (splice (media d) o (partly kept (slice o (zlen b) (media d)) b)) (faults d))
    | None => (true, Dev (splice (media d) o b) (faults d))
    end.

(** ** The page cache *)

Record PageCache := mkCache { pages : gmap Z bytes; order : list Z; cache_cap : Z }.

Fixpoint evict (cap : Z) (pages : gmap Z bytes) (order : list Z) : gmap Z bytes * list Z :=
  match order with
  | [] => (pages, [])
  | old :: r => if Z.of_nat (size pages) <=? cap then (pages, order) else evict cap (delete old pages) r
  end.

Definition cache_put (c : PageCache) (page : Z) (b : bytes) : PageCache :=
  if cache_cap c =? 0 then c
  else
    let order := if decide (pages c !! page = None) then order c ++ [page] else order c in
    let '(pages, order) := evict (cache_cap c) (<[page := b]> (pages c)) order in
    mkCache pages order (cache_cap c).

(** ** The table *)

Record SlotTable := mkTable {
  tdev : dev; t_offset : Z; t_limit : Z; cache : PageCache; epoch : Z }.

Definition table_new (d : dev) (table_offset data_offset cache_pages : Z) : SlotTable :=
  mkTable d table_offset (sat_sub data_offset table_offset) (mkCache ∅ [] cache_pages) 0.

Definition with_dev (t : SlotTable) (d : dev) : SlotTable :=
  mkTable d (t_offset t) (t_limit t) (cache t) (epoch t).
Definition with_cache (t : SlotTable) (c : PageCache) : SlotTable :=
  mkTable (tdev t) (t_offset t) (t_limit t) c (epoch t).
Definition bump (t : SlotTable) : SlotTable :=
  mkTable (tdev t) (t_offset t) (t_limit t) (cache t) (epoch t + 1).

Definition page_of (idx : Z) : Z * Z := (idx / ENTRIES_PER_PAGE, idx mod ENTRIES_PER_PAGE * SLOT_ENTRY_SIZE).
Definition page_len (t : SlotTable) (page : Z) : Z := Z.min (sat_sub (t_limit t) (page * PAGE)) PAGE.
Definition cached (t : SlotTable) (page : Z) : option bytes := pages (cache t) !! page.

Definition load (t : SlotTable) (page : Z) : option bytes * SlotTable :=
  match cached t page with
  | Some b => (Some b, t)
  | None =>
      let '(r, d) := dev_read (tdev t) (t_offset t + page * PAGE) (page_len t page) in
      let t := with_dev t d in
      match r with
      | None => (None, t)
      | Some b => (Some b, with_cache t (cache_put (cache t) page b))
      end
  end.

Section Entries.
Context (crc32c : bytes -> Z).

(** [Slot::from_bytes(..).unwrap_or_else(Slot::free)]. *)
Definition decode (b : bytes) : Slot := default slot_free (slot_from_bytes crc32c b).

(** An entry out of a page, free past the page's end. *)
Definition entry_in (b : bytes) (off : Z) : Slot :=
  if zlen b <? off + SLOT_ENTRY_SIZE then slot_free else decode (slice off SLOT_ENTRY_SIZE b).

Definition read (t : SlotTable) (idx : Z) : option Slot * SlotTable :=
  let '(page, off) := page_of idx in
  let '(r, t) := load t page in
  ((fun b => entry_in b off) <$> r, t).

Record Preread := mkPreread { pr_epoch : Z; pr_entries : gmap Z Slot }.

(** The pages of [read_many], read past the cache when it has none of them. *)
Fixpoint read_pages (t : SlotTable) (ps : list Z) : option (gmap Z bytes) * SlotTable :=
  match ps with
  | [] => (Some ∅, t)
  | page :: ps =>
      if page_len t page =? 0 then read_pages t ps
      else
        match cached t page with
        | Some b => let '(r, t) := read_pages t ps in (insert page b <$> r, t)
        | None =>
            let '(r, d) := dev_read (tdev t) (t_offset t + page * PAGE) (page_len t page) in
            let t := with_dev t d in
            match r with
            | None => (None, t)
            | Some b => let '(r, t) := read_pages t ps in (insert page b <$> r, t)
            end
        end
  end.

Definition read_many (t : SlotTable) (idxs : list Z) : option Preread * SlotTable :=
  let e := epoch t in
  let '(r, t) := read_pages t (sort_dedup (map (fun i => fst (page_of i)) idxs)) in
  ((fun got =>
      mkPreread e (foldl (fun m i => <[i := match got !! fst (page_of i) with
                                            | Some b => entry_in b (snd (page_of i))
                                            | None => slot_free
                                            end]> m) ∅ idxs)) <$> r, t).

Fixpoint prefetch_pages (t : SlotTable) (ps : list Z) : SlotTable :=
  match ps with
  | [] => t
  | page :: ps =>
      if (page_len t page =? 0) || bool_decide (is_Some (cached t page)) then prefetch_pages t ps
      else match load t page with
           | (None, t) => t
           | (Some _, t) => prefetch_pages t ps
           end
  end.
Definition prefetch (t : SlotTable) (idxs : list Z) : SlotTable :=
  prefetch_pages t (sort_dedup (map (fun i => fst (page_of i)) idxs)).

(** [write_checked]: the entries by page, in page order. *)
Definition changes_of (page : Z) (entries : list (Z * bytes)) : list (Z * bytes) :=
  omap (fun '(idx, b) => if fst (page_of idx) =? page then Some (snd (page_of idx), b) else None) entries.

Definition apply_change (buf : bytes) (c : Z * bytes) : bytes :=
  if fst c + SLOT_ENTRY_SIZE <=? zlen buf then splice buf (fst c) (snd c) else buf.

Fixpoint write_pages (t : SlotTable) (entries : list (Z * bytes)) (ps : list Z) : bool * SlotTable :=
  match ps with
  | [] => (true, t)
  | page :: ps =>
      match load t page with
      | (None, t) => (false, t)
      | (Some b, t) =>
          let buf := foldl apply_change b (changes_of page entries) in
          let '(ok, d) := dev_write (tdev t) (t_offset t + page * PAGE) buf in
          let t := with_dev t d in
          if ok then write_pages (with_cache t (cache_put (cache t) page buf)) entries ps else (false, t)
      end
  end.

(** [Some true] written, [Some false] refused by [still], [None] an I/O error. *)
Definition write_checked (t : SlotTable) (entries : list (Z * bytes)) (still : bool) : option bool * SlotTable :=
  if still then
    let '(ok, t) := write_pages (bump t) entries (sort_dedup (map (fun e => fst (page_of (fst e))) entries)) in
    (if ok then Some true else None, bump t)
  else (Some false, t).
Definition write (t : SlotTable) (entries : list (Z * bytes)) : bool * SlotTable :=
  let '(r, t) := write_checked t entries true in (bool_decide (r <> None), t).

(** [scan]: pieces of [piece] bytes (4 MiB), entries whose state byte is not 0. *)
Definition scan_piece (at_ : Z) (buf : bytes) : list (Z * Slot) :=
  omap (fun i =>
          let e := slice (i * SLOT_ENTRY_SIZE) SLOT_ENTRY_SIZE buf in
          if at_byte e 0 =? 0 then None
          else match slot_from_bytes crc32c e with
               | Some s => if decide (state s = Free) then None else Some (at_ / SLOT_ENTRY_SIZE + i, s)
               | None => None
               end)
       (zrange 0 (zlen buf / SLOT_ENTRY_SIZE)).

Fixpoint scan_loop (fuel : nat) (piece : Z) (t : SlotTable) (want at_ : Z) : option (list (Z * Slot)) * SlotTable :=
  match fuel with
  | O => (Some [], t)
  | S fuel =>
      if want <=? at_ then (Some [], t)
      else
        let n := Z.min piece (want - at_) in
        let '(r, d) := dev_read (tdev t) (t_offset t + at_) n in
        let t := with_dev t d in
        match r with
        | None => (None, t)
        | Some buf => let '(r, t) := scan_loop fuel piece t want (at_ + n) in (app (scan_piece at_ buf) <$> r, t)
        end
  end.
Definition PIECE : Z := 4 * 2 ^ 20.
Definition scan_fuel (piece want : Z) : nat := S (Z.to_nat (want / piece)).
Definition scan_by (piece : Z) (t : SlotTable) (total : Z) : option (list (Z * Slot)) * SlotTable :=
  let want := Z.min (total * SLOT_ENTRY_SIZE) (t_limit t) in
  scan_loop (scan_fuel piece want) piece t want 0.
Definition scan := scan_by PIECE.

End Entries.
