(* ===== verification/SlotTableProofs.v ===== *)
(** The cached slot table is the table on the device: reads answer what the device
    holds, writes change the entries they name and nothing else, the cache stays
    coherent and bounded. *)

From S2P Require Import Prelude SlabFormat SlotTable.

(** ** The cache *)

Record cache_ok (c : PageCache) : Prop := {
  co_order : forall p, is_Some (pages c !! p) -> p ∈ order c;
  co_cap : 0 <= cache_cap c;
  co_size : Z.of_nat (size (pages c)) <= cache_cap c }.

Lemma evict_subseteq cap ps l : fst (evict cap ps l) ⊆ ps.
Proof.
  revert ps. induction l as [|p l IH]; intros ps; cbn [evict]; [done|].
  case_match; [done|]. etrans; [apply IH|]. apply delete_subseteq.
Qed.

Lemma evict_ok cap ps l :
  0 <= cap -> (forall p, is_Some (ps !! p) -> p ∈ l) ->
  (forall p, is_Some (fst (evict cap ps l) !! p) -> p ∈ snd (evict cap ps l))
  /\ Z.of_nat (size (fst (evict cap ps l))) <= cap.
Proof.
  intros Hcap. revert ps. induction l as [|p l IH]; intros ps Hps; cbn [evict].
  - assert (ps = ∅) as ->.
    { apply map_empty. intros p. destruct (ps !! p) eqn:E; [|done].
      assert (p ∈ []) as []%not_elem_of_nil by (apply Hps; by rewrite E). }
    split; [done|]. cbn. rewrite map_size_empty. lia.
  - destruct (Z.leb_spec (Z.of_nat (size ps)) cap); [done|]. apply IH.
    intros q Hq. destruct (decide (q = p)) as [->|Hne].
    + rewrite lookup_delete_eq in Hq. by destruct Hq.
    + rewrite lookup_delete_ne in Hq by done. specialize (Hps q Hq). set_solver.
Qed.

Lemma cache_put_ok c page b : cache_ok c -> cache_ok (cache_put c page b).
Proof.
  intros [Ho Hc Hs]. unfold cache_put. destruct (Z.eqb_spec (cache_cap c) 0); [done|].
  set (order' := if decide _ then _ else _).
  destruct (evict_ok (cache_cap c) (<[page := b]> (pages c)) order' Hc) as [H1 H2].
  - intros p Hp. unfold order'. destruct (decide (p = page)) as [->|Hne].
    + case_decide as Hn; [set_solver|]. apply Ho. destruct (pages c !! page); [by eexists|done].
    + rewrite lookup_insert_ne in Hp by done. specialize (Ho p Hp). case_decide; set_solver.
  - destruct (evict _ _ _) as [ps l]. constructor; done.
Qed.

Lemma cache_put_lookup c page b p x :
  cache_ok c -> pages (cache_put c page b) !! p = Some x ->
  (p = page /\ x = b) \/ (p <> page /\ pages c !! p = Some x).
Proof.
  intros [_ _ Hs]. unfold cache_put. destruct (Z.eqb_spec (cache_cap c) 0) as [E|_].
  { intros Hx. assert (size (pages c) = 0%nat) as Hz by lia.
    apply map_size_empty_inv in Hz. by rewrite Hz, lookup_empty in Hx. }
  set (order' := if decide _ then _ else _).
  pose proof (evict_subseteq (cache_cap c) (<[page := b]> (pages c)) order') as Hsub.
  destruct (evict _ _ _) as [ps l]. cbn [pages fst] in *. intros Hx.
  apply (lookup_weaken _ _ _ _ Hx) in Hsub. destruct (decide (p = page)) as [->|Hne].
  - rewrite lookup_insert_eq in Hsub. injection Hsub as <-. by left.
  - rewrite lookup_insert_ne in Hsub by done. by right.
Qed.

(** ** The device's view *)

Definition page_bytes (t : SlotTable) (page : Z) : bytes :=
  slice (t_offset t + page * PAGE) (page_len t page) (media (tdev t)).
(** The sixty-four bytes of entry [i]. *)
Definition raw (t : SlotTable) (i : Z) : bytes :=
  slice (t_offset t + i * SLOT_ENTRY_SIZE) SLOT_ENTRY_SIZE (media (tdev t)).
Definition in_table (t : SlotTable) (i : Z) : bool :=
  (0 <=? i) && (i * SLOT_ENTRY_SIZE + SLOT_ENTRY_SIZE <=? t_limit t).

Record table_ok (t : SlotTable) : Prop := {
  to_offset : 0 <= t_offset t;
  to_limit : 0 <= t_limit t;
  to_fits : t_offset t + t_limit t <= zlen (media (tdev t));
  to_cache : cache_ok (cache t);
  to_coherent : forall p b, 0 <= p -> cached t p = Some b -> b = page_bytes t p }.

(** The same table on the same bytes: what a read may turn [t] into. *)
Definition same_table (t t' : SlotTable) : Prop :=
  media (tdev t') = media (tdev t) /\ t_offset t' = t_offset t /\ t_limit t' = t_limit t /\ epoch t' = epoch t
  /\ (faults (tdev t) = [] -> faults (tdev t') = []).

#[export] Instance same_table_preorder : PreOrder same_table.
Proof.
  split; [by intros t|]. intros t1 t2 t3 (A1 & A2 & A3 & A4 & A5) (B1 & B2 & B3 & B4 & B5).
  unfold same_table. rewrite B1, B2, B3, B4. repeat split; auto.
Qed.

Lemma page_len_range t p : 0 <= page_len t p <= PAGE.
Proof. unfold page_len, sat_sub, PAGE. lia. Qed.

Lemma page_in_table t p : 0 <= p -> page_len t p = 0 \/ p * PAGE + page_len t p <= t_limit t.
Proof. intros Hp. unfold page_len, sat_sub, PAGE. lia. Qed.

Lemma zlen_page_bytes t p : table_ok t -> 0 <= p -> zlen (page_bytes t p) = page_len t p.
Proof.
  intros [] Hp. unfold page_bytes. pose proof (page_len_range t p).
  destruct (page_in_table t p Hp) as [E|E].
  - rewrite E. unfold slice, zlen. rewrite length_take. lia.
  - apply zlen_slice; [unfold PAGE; lia|lia|lia].
Qed.

Lemma page_of_spec i :
  0 <= i -> let '(p, o) := page_of i in
  0 <= p /\ 0 <= o /\ o + SLOT_ENTRY_SIZE <= PAGE /\ p * PAGE + o = i * SLOT_ENTRY_SIZE.
Proof.
  intros Hi. unfold page_of. change ENTRIES_PER_PAGE with 64.
  pose proof (Z.div_mod i 64 ltac:(lia)). pose proof (Z.mod_pos_bound i 64 ltac:(lia)).
  unfold SLOT_ENTRY_SIZE, PAGE. pose proof (Z.div_pos i 64 Hi ltac:(lia)). lia.
Qed.

(** An entry lies in its page when it lies in the table. *)
Lemma entry_in_page t i :
  0 <= i -> (snd (page_of i) + SLOT_ENTRY_SIZE <= page_len t (fst (page_of i)) <-> in_table t i = true).
Proof.
  intros Hi. pose proof (page_of_spec i Hi) as H. destruct (page_of i) as [p o]. cbn [fst snd].
  unfold in_table. rewrite andb_true_iff, !Z.leb_le. unfold page_len, sat_sub, PAGE, SLOT_ENTRY_SIZE in *. lia.
Qed.

Lemma raw_in_page t i :
  table_ok t -> in_table t i = true -> 0 <= i ->
  slice (snd (page_of i)) SLOT_ENTRY_SIZE (page_bytes t (fst (page_of i))) = raw t i.
Proof.
  intros Ht Hin Hi. apply entry_in_page in Hin; [|done]. pose proof (page_of_spec i Hi) as H. revert Hin H.
  destruct (page_of i) as [p o]. cbn [fst snd]. intros Hin (Hp & Ho & _ & E).
  unfold page_bytes, raw. destruct Ht. rewrite slice_slice by (unfold PAGE, SLOT_ENTRY_SIZE in *; lia).
  f_equal. lia.
Qed.

Section Entries.
Context (crc32c : bytes -> Z).

(** The entry as the device has it: free outside the table or when it does not check. *)
Definition entry_at (t : SlotTable) (i : Z) : Slot :=
  if in_table t i then decode crc32c (raw t i) else slot_free.

Lemma entry_in_page_bytes t i :
  table_ok t -> 0 <= i -> entry_in crc32c (page_bytes t (fst (page_of i))) (snd (page_of i)) = entry_at t i.
Proof.
  intros Ht Hi. pose proof (page_of_spec i Hi) as Hp. pose proof (entry_in_page t i Hi) as Hin.
  pose proof (raw_in_page t i Ht) as Hraw. unfold entry_in, entry_at.
  destruct (page_of i) as [p o]. cbn [fst snd] in *. rewrite zlen_page_bytes by (done || lia).
  destruct (in_table t i); destruct (Z.ltb_spec (page_len t p) (o + SLOT_ENTRY_SIZE)) as [Hlt|Hge]; try done.
  - pose proof (proj2 Hin eq_refl). lia.
  - by rewrite Hraw.
  - pose proof (proj1 Hin ltac:(lia)). done.
Qed.

Lemma with_dev_ok t d : media d = media (tdev t) -> table_ok t -> table_ok (with_dev t d).
Proof.
  intros Hm []. constructor; cbn; auto; [by rewrite Hm|].
  intros p b Hp Hb. specialize (to_coherent0 p b Hp Hb). subst. unfold page_bytes. cbn. by rewrite Hm.
Qed.

Lemma dev_read_spec d o n :
  media (snd (dev_read d o n)) = media d
  /\ (forall b, fst (dev_read d o n) = Some b -> b = slice o n (media d))
  /\ (faults d = [] -> o + n <= zlen (media d) -> fst (dev_read d o n) <> None)
  /\ (faults d = [] -> faults (snd (dev_read d o n)) = []).
Proof.
  unfold dev_read, tick. destruct d as [m fs]. cbn [faults media].
  destruct (default None (head fs)) as [k|] eqn:Ef.
  - cbn. split_and!; try done; by intros ->.
  - cbn [orb]. destruct (Z.ltb_spec (zlen m) (o + n)); cbn; split_and!; try done; try lia; [by intros ->|by intros b [= <-]|by intros ->].
Qed.

Lemma load_spec t p r t' :
  table_ok t -> 0 <= p -> load t p = (r, t') ->
  table_ok t' /\ same_table t t' /\ (forall b, r = Some b -> b = page_bytes t p)
  /\ (faults (tdev t) = [] -> page_len t p <> 0 -> r <> None).
Proof.
  intros Ht Hp. unfold load. destruct (cached t p) as [b|] eqn:Ec.
  { intros [= <- <-]. split_and!; try done. intros b' [= <-]. by apply to_coherent. }
  pose proof (dev_read_spec (tdev t) (t_offset t + p * PAGE) (page_len t p)) as (Hm & Hb & Hok & Hf).
  destruct (dev_read _ _ _) as [rb d]. cbn [fst snd] in *.
  assert (same_table t (with_dev t d)) as Hsame by (repeat split; auto).
  pose proof (with_dev_ok t d Hm Ht) as Htd.
  destruct rb as [b|]; intros [= <- <-].
  - split_and!; [|done|by intros b' [= <-]; apply Hb|done].
    destruct Htd. constructor; cbn; auto; [by apply cache_put_ok|].
    intros q x Hq Hx. apply cache_put_lookup in Hx as [[-> ->]|[_ Hx]]; [|by apply to_coherent0|done].
    rewrite (Hb b eq_refl). unfold page_bytes. cbn. by rewrite Hm.
  - split_and!; [done|done|done|]. intros Hnf Hlen. exfalso. apply (Hok Hnf); [|done].
    destruct Ht. destruct (page_in_table t p Hp); lia.
Qed.

Lemma read_spec t i :
  table_ok t -> 0 <= i ->
  let '(r, t') := read crc32c t i in
  table_ok t' /\ same_table t t' /\ (forall s, r = Some s -> s = entry_at t i)
  /\ (faults (tdev t) = [] -> in_table t i = true -> r = Some (entry_at t i)).
Proof.
  intros Ht Hi. pose proof (entry_in_page_bytes t i Ht Hi) as He. pose proof (page_of_spec i Hi) as Hp.
  pose proof (entry_in_page t i Hi) as Hin. unfold read.
  destruct (page_of i) as [p o]. cbn [fst snd] in *. destruct (load t p) as [r t'] eqn:El.
  destruct (load_spec t p r t' Ht ltac:(lia) El) as (H1 & H2 & H3 & H4). split_and!; auto.
  - intros s Hs. destruct r as [b|]; [|done]. injection Hs as <-. by rewrite (H3 b).
  - intros Hf Hit. pose proof (proj2 Hin Hit).
    destruct r as [b|]; [cbn; by rewrite (H3 b), He|]. exfalso. apply H4; [done| |done].
    unfold SLOT_ENTRY_SIZE in *. lia.
Qed.

End Entries.

(** ** Writes *)

(** What a list of writes leaves of entry [i]: the last one that names it. *)
Definition upd (entries : list (Z * bytes)) (i : Z) (old : bytes) : bytes :=
  foldl (fun acc e => if fst e =? i then snd e else acc) old entries.

Definition entries_ok (entries : list (Z * bytes)) : Prop :=
  Forall (fun e => 0 <= fst e /\ zlen (snd e) = SLOT_ENTRY_SIZE) entries.

#[export] Instance entries_ok_dec entries : Decision (entries_ok entries).
Proof. unfold entries_ok. apply _. Defined.

Lemma zlen_apply_change b c :
  0 <= fst c -> zlen (snd c) = SLOT_ENTRY_SIZE -> zlen (apply_change b c) = zlen b.
Proof.
  intros. unfold apply_change. destruct (Z.leb_spec (fst c + SLOT_ENTRY_SIZE) (zlen b)); [|done].
  apply zlen_splice; lia.
Qed.

Lemma page_change entries b i :
  entries_ok entries -> 0 <= i -> snd (page_of i) + SLOT_ENTRY_SIZE <= zlen b ->
  slice (snd (page_of i)) SLOT_ENTRY_SIZE (foldl apply_change b (changes_of (fst (page_of i)) entries))
  = upd entries i (slice (snd (page_of i)) SLOT_ENTRY_SIZE b)
  /\ zlen (foldl apply_change b (changes_of (fst (page_of i)) entries)) = zlen b.
Proof.
  intros He Hi. revert b. induction He as [|[j x] es [Hj Hx] He IH]; intros b Hb; [done|].
  cbn [fst snd] in *. unfold changes_of. cbn [omap list_omap]. fold (changes_of (fst (page_of i)) es).
  pose proof (page_of_spec i Hi) as Hpi. pose proof (page_of_spec j Hj) as Hpj.
  destruct (Z.eqb_spec (fst (page_of j)) (fst (page_of i))) as [E|E].
  - cbn [foldl fst snd].
    change (upd ((j, x) :: es) i ?old) with (upd es i (if j =? i then x else old)).
    destruct (page_of i) as [pi oi], (page_of j) as [pj oj]. cbn [fst snd] in *. subst pj.
    assert (zlen (apply_change b (oj, x)) = zlen b) as Hl by (apply zlen_apply_change; cbn; lia).
    destruct (IH (apply_change b (oj, x))) as [H1 H2]; [by rewrite Hl|]. rewrite H1, H2. split; [|done].
    f_equal. unfold apply_change. cbn [fst snd].
    unfold SLOT_ENTRY_SIZE, PAGE in *.
    destruct (Z.eqb_spec j i) as [->|Hji].
    + assert (oj = oi) as -> by lia. destruct (Z.leb_spec (oi + 64) (zlen b)); [|lia].
      apply slice_splice_same; lia.
    + destruct (Z.leb_spec (oj + 64) (zlen b)); [|done].
      destruct (Z.lt_ge_cases oi oj).
      * apply slice_splice_before; lia.
      * apply slice_splice_after; lia.
  - change (upd ((j, x) :: es) i ?old) with (upd es i (if j =? i then x else old)).
    destruct (Z.eqb_spec j i) as [->|Hji]; [done|]. by apply IH.
Qed.

Lemma upd_not_in entries i old : (forall e, e ∈ entries -> fst e <> i) -> upd entries i old = old.
Proof.
  unfold upd. revert old. induction entries as [|e es IH]; intros old H; [done|]. cbn [foldl].
  destruct (Z.eqb_spec (fst e) i); [exfalso; apply (H e); [set_solver|done]|]. apply IH. set_solver.
Qed.

(** Bytes outside the table. *)
Definition outside_same (t t' : SlotTable) : Prop :=
  forall o n, 0 <= o -> 0 <= n -> o + n <= t_offset t \/ t_offset t + t_limit t <= o ->
  slice o n (media (tdev t')) = slice o n (media (tdev t)).

Definition same_place (t t' : SlotTable) : Prop :=
  t_offset t' = t_offset t /\ t_limit t' = t_limit t /\ zlen (media (tdev t')) = zlen (media (tdev t))
  /\ epoch t' = epoch t /\ (faults (tdev t) = [] -> faults (tdev t') = []).

(** A range some bytes of which are the old ones, some the new. *)
Definition mixed (old new got : bytes) : Prop :=
  zlen got = zlen old /\ forall j, 0 <= j < zlen old -> at_byte got j = at_byte old j \/ at_byte got j = at_byte new j.
Lemma mixed_slice old new got o n : zlen new = zlen old -> 0 <= o -> 0 <= n -> o + n <= zlen old -> mixed old new got ->
  mixed (slice o n old) (slice o n new) (slice o n got).
Proof.
  intros Hz Ho Hn Hle [Hl Hb]. split; [by rewrite !zlen_slice by lia|]. rewrite zlen_slice by lia. intros j Hj.
  rewrite !at_byte_slice by lia. apply Hb. lia.
Qed.
Lemma dev_write_spec d o b :
  0 <= o ->
  let '(ok, d') := dev_write d o b in
  (ok = true -> media d' = splice (media d) o b /\ o + zlen b <= zlen (media d))
  /\ (ok = false -> media d' = media d
      \/ o + zlen b <= zlen (media d) /\ exists left, mixed (slice o (zlen b) (media d)) b left /\ media d' = splice (media d) o left)
  /\ (faults d = [] -> faults d' = []) /\ (faults d = [] -> o + zlen b <= zlen (media d) -> ok = true).
Proof.
  intros Ho. unfold dev_write, tick. destruct d as [m fs]. cbn [faults media]. pose proof (zlen_nonneg b).
  destruct (Z.ltb_spec (zlen m) (o + zlen b)); [split_and!; try done; [by left|by intros ->|lia]|].
  destruct (default None (head fs)) as [kept|] eqn:Ef; split_and!; try done; try (by intros ->).
  intros _. right. split; [done|]. eexists. split; [|reflexivity]. split; [apply zlen_partly|].
  intros j Hj. apply partly_byte; [by rewrite zlen_slice by lia|done].
Qed.

Lemma zlen_changes_fold entries page b :
  entries_ok entries -> 0 <= page -> zlen (foldl apply_change b (changes_of page entries)) = zlen b.
Proof.
  intros He Hp. revert b. induction He as [|[j x] es [Hj Hx] He IH]; intros b; [done|].
  unfold changes_of. cbn [omap list_omap]. fold (changes_of page es). cbn [fst snd] in *.
  destruct (fst (page_of j) =? page); [|apply IH]. cbn [foldl]. rewrite IH.
  pose proof (page_of_spec j Hj). destruct (page_of j). apply zlen_apply_change; cbn in *; lia.
Qed.

Lemma splice_empty {A} (l : list A) o (s : list A) : zlen s = 0 -> splice l o s = l.
Proof.
  intros E. assert (s = []) as ->.
  { destruct s; [done|]. rewrite zlen_cons in E. pose proof (zlen_nonneg s). lia. }
  unfold splice. cbn [app]. rewrite Z.add_0_r, take_drop. done.
Qed.

(** A page of the device set to [got]. *)
Section PageSet.
Context (t : SlotTable) (Ht : table_ok t) (page : Z) (Hp : 0 <= page) (d : dev) (got : bytes).
Context (Hz : zlen got = page_len t page).
Context (Hmd : media d = splice (media (tdev t)) (t_offset t + page * PAGE) got).
Context (Hfits : t_offset t + page * PAGE + zlen got <= zlen (media (tdev t))).

Lemma page_set_len : zlen (media d) = zlen (media (tdev t)).
Proof using Ht Hp Hmd Hfits. rewrite Hmd. destruct Ht. apply zlen_splice; unfold PAGE in *; lia. Qed.

Lemma page_set_raw i : in_table t i = true ->
  raw (with_dev t d) i = if fst (page_of i) =? page then slice (snd (page_of i)) SLOT_ENTRY_SIZE got else raw t i.
Proof using Ht Hp Hz Hmd Hfits.
  intros Hi. assert (0 <= i) as Hi0 by (unfold in_table in Hi; by bprop).
  pose proof (page_of_spec i Hi0) as Hpi. pose proof (proj2 (entry_in_page t i Hi0) Hi) as Hfit. unfold raw at 1. cbn [with_dev tdev t_offset]. rewrite Hmd.
  pose proof (page_len_range t page). pose proof (page_in_table t page Hp). destruct Ht. destruct (page_of i) as [p o]. cbn [fst snd] in *.
  destruct (Z.eqb_spec p page) as [->|Hne].
  - replace (t_offset t + i * SLOT_ENTRY_SIZE) with ((t_offset t + page * PAGE) + o) by lia.
    by rewrite slice_splice_inside by (unfold SLOT_ENTRY_SIZE, PAGE in *; lia).
  - unfold raw. unfold SLOT_ENTRY_SIZE, PAGE in *. destruct (Z.eq_dec (page_len t page) 0) as [E0|E0].
    + by rewrite splice_empty by lia.
    + destruct (Z.lt_ge_cases p page).
      * apply slice_splice_before; lia.
      * apply slice_splice_after; lia.
Qed.

Lemma page_set_bytes q : 0 <= q -> page_bytes (with_dev t d) q = if decide (q = page) then got else page_bytes t q.
Proof using Ht Hp Hz Hmd Hfits.
  intros Hq. unfold page_bytes. cbn [with_dev tdev t_offset]. change (page_len (with_dev t d) q) with (page_len t q). rewrite Hmd.
  pose proof (page_len_range t q). pose proof (page_in_table t q Hq). pose proof (page_len_range t page).
  destruct Ht. unfold PAGE in *. case_decide as Hqp; [subst q; apply slice_splice_same; lia|].
  destruct (Z.lt_ge_cases q page); [apply slice_splice_before|apply slice_splice_after]; lia.
Qed.

Lemma page_set_outside : outside_same t (with_dev t d).
Proof using Ht Hp Hz Hmd Hfits.
  intros o n Ho Hn Hout. cbn. rewrite Hmd. destruct (page_in_table t page Hp) as [E|E].
  - by rewrite splice_empty by lia.
  - pose proof (page_len_range t page). destruct Ht. unfold PAGE in *. destruct Hout.
    + apply slice_splice_before; lia.
    + apply slice_splice_after; lia.
Qed.
End PageSet.

(** One page written: the table [write_pages] goes on with. *)
Definition page_written (t : SlotTable) (d : dev) (page : Z) (buf : bytes) : SlotTable :=
  with_cache (with_dev t d) (cache_put (cache t) page buf).

Section PageWritten.
Context (t : SlotTable) (Ht : table_ok t) (entries : list (Z * bytes)) (He : entries_ok entries).
Context (page : Z) (Hp : 0 <= page) (d : dev).
Let buf := foldl apply_change (page_bytes t page) (changes_of page entries).
Lemma zlen_buf : zlen buf = page_len t page.
Proof using Ht He Hp. unfold buf. rewrite zlen_changes_fold by done. by apply zlen_page_bytes. Qed.
(** The entries of the page's new bytes. *)
Lemma buf_entry i : in_table t i = true -> fst (page_of i) = page -> slice (snd (page_of i)) SLOT_ENTRY_SIZE buf = upd entries i (raw t i).
Proof using Ht He Hp.
  intros Hi <-. assert (0 <= i) as Hi0 by (unfold in_table in Hi; by bprop). pose proof (page_of_spec i Hi0) as Hpi.
  pose proof (proj2 (entry_in_page t i Hi0) Hi) as Hfit. pose proof (raw_in_page t i Ht Hi Hi0) as Hraw.
  unfold buf. rewrite (proj1 (page_change entries (page_bytes t (fst (page_of i))) i He Hi0 ltac:(rewrite zlen_page_bytes; [lia|done|destruct (page_of i); cbn in *; lia]))).
  by rewrite Hraw.
Qed.
Context (Hmd : media d = splice (media (tdev t)) (t_offset t + page * PAGE) buf).
Context (Hfits : t_offset t + page * PAGE + zlen buf <= zlen (media (tdev t))).

Lemma page_written_raw i :
  in_table t i = true ->
  raw (page_written t d page buf) i = if fst (page_of i) =? page then upd entries i (raw t i) else raw t i.
Proof using Ht He Hp Hmd Hfits.
  intros Hi. change (raw (page_written t d page buf) i) with (raw (with_dev t d) i).
  rewrite (page_set_raw t Ht page Hp d buf zlen_buf Hmd Hfits i Hi). destruct (Z.eqb_spec (fst (page_of i)) page); [by apply buf_entry|done].
Qed.

Lemma page_written_ok : table_ok (page_written t d page buf).
Proof using Ht He Hp Hmd Hfits.
  pose proof (page_set_len t Ht page Hp d buf Hmd Hfits) as Hl.
  pose proof (page_set_bytes t Ht page Hp d buf zlen_buf Hmd Hfits) as Hb. destruct Ht.
  constructor; cbn; auto; [by rewrite Hl|by apply cache_put_ok|].
  intros q x Hq Hx. change (page_bytes (page_written t d page buf) q) with (page_bytes (with_dev t d) q).
  apply cache_put_lookup in Hx as [[-> ->]|[Hne Hx]]; [| |done].
  - rewrite Hb by done. by rewrite decide_True.
  - rewrite Hb, decide_False by done. by apply to_coherent0.
Qed.
End PageWritten.

(** A table whose cache may be wrong of one page. *)
Record table_but (doubt : option Z) (t : SlotTable) : Prop := {
  tb_offset : 0 <= t_offset t;
  tb_limit : 0 <= t_limit t;
  tb_fits : t_offset t + t_limit t <= zlen (media (tdev t));
  tb_cache : cache_ok (cache t);
  tb_coherent : forall p b, 0 <= p -> doubt <> Some p -> cached t p = Some b -> b = page_bytes t p }.
Lemma table_but_none t : table_but None t <-> table_ok t.
Proof. split; intros []; constructor; auto. Qed.

(** What [write_pages] promises over the pages [ps]: [doubt] is the page a write failed on. *)
Record written_over (entries : list (Z * bytes)) (ps : list Z) (t t' : SlotTable) (ok : bool) (doubt : option Z) : Prop := {
  wo_ok : table_but doubt t';
  wo_place : same_place t t';
  wo_outside : outside_same t t';
  wo_doubt : forall p, doubt = Some p -> ok = false /\ p ∈ ps;
  wo_torn : forall i, in_table t i = true -> doubt = Some (fst (page_of i)) -> mixed (raw t i) (upd entries i (raw t i)) (raw t' i);
  wo_either : forall i, in_table t i = true -> doubt <> Some (fst (page_of i)) -> raw t' i = raw t i \/ raw t' i = upd entries i (raw t i);
  wo_others : forall i, in_table t i = true -> fst (page_of i) ∉ ps -> raw t' i = raw t i;
  wo_done : forall i, in_table t i = true -> ok = true -> fst (page_of i) ∈ ps -> raw t' i = upd entries i (raw t i);
  wo_succeeds : faults (tdev t) = [] -> Forall (fun p => page_len t p <> 0) ps -> ok = true }.

(** Nothing written, because something failed. *)
Lemma written_over_failed entries ps t t' :
  table_ok t' -> media (tdev t') = media (tdev t) -> t_offset t' = t_offset t -> t_limit t' = t_limit t ->
  epoch t' = epoch t -> (faults (tdev t) = [] -> faults (tdev t') = []) ->
  ~ (faults (tdev t) = [] /\ Forall (fun p => page_len t p <> 0) ps) ->
  written_over entries ps t t' false None.
Proof.
  intros Ht' Em Eo El Ee Ef Hbad.
  assert (forall i, raw t' i = raw t i) as Hraw by (intros i; unfold raw; by rewrite Em, Eo).
  constructor; try done; [by apply table_but_none| |intros ? ? ? ?; by rewrite Em|by left|naive_solver].
  repeat split; try done. by rewrite Em.
Qed.

(** The write of a page failed: some of its bytes are on the device. *)
Lemma written_over_torn entries page ps t t1 d left : same_table t t1 -> table_ok t1 -> entries_ok entries -> 0 <= page -> page ∉ ps ->
  mixed (page_bytes t1 page) (foldl apply_change (page_bytes t1 page) (changes_of page entries)) left ->
  media d = splice (media (tdev t1)) (t_offset t1 + page * PAGE) left -> t_offset t1 + page * PAGE + zlen left <= zlen (media (tdev t1)) ->
  (faults (tdev t1) = [] -> faults d = []) -> ~ (faults (tdev t) = [] /\ Forall (fun p => page_len t p <> 0) (page :: ps)) ->
  written_over entries (page :: ps) t (with_dev t1 d) false (Some page).
Proof.
  intros (Em & Eo & El & Ee & Ef) Ht1 He Hp Hnin Hmix Hmd Hfits Hfd Hbad.
  assert (zlen left = page_len t1 page) as Hz by (destruct Hmix as [-> _]; by apply zlen_page_bytes).
  assert (forall i, raw t1 i = raw t i) as Hraw1 by (intros i; unfold raw; by rewrite Em, Eo).
  assert (forall i, in_table t1 i = in_table t i) as Hin1 by (intros i; unfold in_table; by rewrite El).
  assert (forall i, in_table t i = true -> fst (page_of i) <> page -> raw (with_dev t1 d) i = raw t i) as Hother.
  { intros i Hi Hne. rewrite (page_set_raw t1 Ht1 page Hp d left Hz Hmd Hfits i) by by rewrite Hin1. rewrite <- Hraw1. by destruct (Z.eqb_spec (fst (page_of i)) page). }
  constructor.
  - pose proof (page_set_len t1 Ht1 page Hp d left Hmd Hfits) as Hl. pose proof (page_set_bytes t1 Ht1 page Hp d left Hz Hmd Hfits) as Hb.
    destruct Ht1. constructor; cbn; auto; [by rewrite Hl|]. intros q x Hq Hne Hx. rewrite Hb, decide_False by congruence. by apply to_coherent0.
  - repeat split; cbn; try congruence; [rewrite (page_set_len t1 Ht1 page Hp d left Hmd Hfits); congruence|auto].
  - intros o n Ho Hn Hout. rewrite (page_set_outside t1 Ht1 page Hp d left Hz Hmd Hfits o n Ho Hn) by (by rewrite Eo, El). by rewrite Em.
  - intros p [= <-]. split; [done|by left].
  - intros i Hi Hd. assert (page = fst (page_of i)) as Ei by congruence. rewrite (page_set_raw t1 Ht1 page Hp d left Hz Hmd Hfits i) by by rewrite Hin1. rewrite Ei, Z.eqb_refl.
    assert (0 <= i) as Hi0 by (unfold in_table in Hi; by bprop). assert (in_table t1 i = true) as Hi1 by by rewrite Hin1. rewrite <- Hraw1.
    rewrite <- (buf_entry t1 Ht1 entries He page Hp i Hi1) by done. rewrite <- (raw_in_page t1 i Ht1 Hi1 Hi0), <- Ei.
    assert (0 <= snd (page_of i)) as Ho by (pose proof (page_of_spec i Hi0) as Hpi; destruct (page_of i); cbn [snd]; lia).
    pose proof (proj2 (entry_in_page t1 i Hi0) Hi1) as Hfit. rewrite <- Ei in Hfit.
    assert (zlen (page_bytes t1 page) = page_len t1 page) as Hpb by by apply zlen_page_bytes.
    apply mixed_slice; [by apply zlen_changes_fold|done|done|by rewrite Hpb|done].
  - intros i Hi Hne. left. apply Hother; [done|congruence].
  - intros i Hi [Hne _]%not_elem_of_cons. by apply Hother.
  - done.
  - intros Hf Hall. by destruct Hbad.
Qed.

(** The rest of the pages after one that was written. *)
Lemma written_over_cons entries page ps t t1 t2 t' ok doubt :
  same_table t t1 -> table_ok t1 -> page ∉ ps ->
  (forall i, in_table t1 i = true ->
   raw t2 i = if fst (page_of i) =? page then upd entries i (raw t1 i) else raw t1 i) ->
  t_offset t2 = t_offset t1 -> t_limit t2 = t_limit t1 -> epoch t2 = epoch t1 ->
  zlen (media (tdev t2)) = zlen (media (tdev t1)) -> (faults (tdev t1) = [] -> faults (tdev t2) = []) ->
  outside_same t1 t2 -> written_over entries ps t2 t' ok doubt -> written_over entries (page :: ps) t t' ok doubt.
Proof.
  intros (Em & Eo & El & Ee & Ef) Ht1 Hnin Hraw2 Eo2 El2 Ee2 Hl2 Hf2 Hout [W1 (P1 & P2 & P3 & P4 & P5) W3 Wd Wt W4 W5 W6 W7].
  assert (forall i, raw t1 i = raw t i) as Hraw1 by (intros i; unfold raw; by rewrite Em, Eo).
  assert (forall i, in_table t1 i = in_table t i) as Hin1 by (intros i; unfold in_table; by rewrite El).
  assert (forall i, in_table t2 i = in_table t i) as Hin2 by (intros i; unfold in_table; by rewrite El2, El).
  assert (forall i, in_table t i = true -> raw t2 i = if fst (page_of i) =? page then upd entries i (raw t i) else raw t i) as Hr
    by (intros i Hi; rewrite <- Hraw1; apply Hraw2; by rewrite Hin1).
  constructor; [done| | | | | | | |].
  - repeat split; try congruence. auto.
  - intros o n Ho Hn Ho'. rewrite (W3 o n Ho Hn) by (by rewrite Eo2, El2, Eo, El).
    rewrite (Hout o n Ho Hn) by (by rewrite Eo, El). by rewrite Em.
  - intros p Hd. destruct (Wd p Hd). split; [done|by right].
  - intros i Hi Hd. specialize (Hr i Hi). destruct (Wd _ Hd) as [_ Hin]. destruct (Z.eqb_spec (fst (page_of i)) page) as [E|_]; [congruence|].
    rewrite <- Hr. apply Wt; [by rewrite Hin2|done].
  - intros i Hi Hd. specialize (Hr i Hi).
    destruct (Z.eqb_spec (fst (page_of i)) page) as [E|_].
    + right. rewrite W5 by (rewrite ?Hin2, ?E; done). done.
    + rewrite <- Hr. apply W4; [by rewrite Hin2|done].
  - intros i Hi [Hne Hni]%not_elem_of_cons. specialize (Hr i Hi).
    rewrite W5 by (rewrite ?Hin2; done). rewrite Hr. by destruct (Z.eqb_spec (fst (page_of i)) page).
  - intros i Hi Hok Hin. specialize (Hr i Hi).
    destruct (Z.eqb_spec (fst (page_of i)) page) as [E|Hne].
    + rewrite W5 by (rewrite ?Hin2, ?E; done). done.
    + apply elem_of_cons in Hin as [|Hin]; [done|]. rewrite W6 by (rewrite ?Hin2; done). by rewrite Hr.
  - intros Hnf [_ Hall]%Forall_cons. apply W7; [auto|]. eapply Forall_impl; [exact Hall|].
    intros q. cbn beta. unfold page_len. by rewrite El2, El.
Qed.

(** The whole of [write_pages]: each page is all or nothing but one whose write failed,
    and on success every entry is what the list of writes makes of it. *)
Lemma write_pages_spec entries ps t ok t' :
  table_ok t -> entries_ok entries -> NoDup ps -> Forall (fun p => 0 <= p) ps ->
  write_pages t entries ps = (ok, t') -> exists doubt, written_over entries ps t t' ok doubt.
Proof.
  intros Ht He Hnd Hps. revert t Ht Hnd. induction Hps as [|page ps Hp Hps IH]; intros t Ht Hnd; cbn [write_pages].
  { intros [= <- <-]. exists None. constructor; try done; [by apply table_but_none|by left|]. by intros i _ _ ?%not_elem_of_nil. }
  apply NoDup_cons in Hnd as [Hnin Hnd]. destruct (load t page) as [r t1] eqn:El.
  destruct (load_spec t page r t1 Ht Hp El) as (Ht1 & Hsame & Hb & Hok).
  pose proof Hsame as (Em & Eo & Elm & Ee & Ef).
  assert (forall q, page_len t1 q = page_len t q) as Hpl1 by (intros q; unfold page_len; by rewrite Elm).
  destruct r as [b|]; cycle 1.
  { intros [= <- <-]. exists None. apply written_over_failed; try done.
    intros [Hnf [Hpl _]%Forall_cons]. by destruct (Hok Hnf Hpl). }
  rewrite (Hb b eq_refl) in *. clear Hb Hok.
  replace (page_bytes t page) with (page_bytes t1 page) by (unfold page_bytes; by rewrite Em, Eo, Hpl1).
  set (buf := foldl apply_change (page_bytes t1 page) (changes_of page entries)).
  pose proof (zlen_buf t1 Ht1 entries He page Hp) as Hzb. fold buf in Hzb.
  pose proof (dev_write_spec (tdev t1) (t_offset t1 + page * PAGE) buf) as Hdw.
  pose proof (page_in_table t1 page Hp) as Hpit.
  destruct (dev_write _ _ _) as [wok d].
  destruct Hdw as (Hw1 & Hw0 & Hwf & Hwok); [destruct Ht1; unfold PAGE; lia|].
  destruct wok; cycle 1.
  { intros [= <- <-]. assert (~ (faults (tdev t) = [] /\ Forall (fun p => page_len t p <> 0) (page :: ps))) as Hbad.
    { intros [Hnf [Hpl _]%Forall_cons]. rewrite <- Hpl1 in Hpl.
      enough (false = true) by done. apply Hwok; [auto|]. destruct Ht1. rewrite Hzb. lia. }
    destruct (Hw0 eq_refl) as [Hm|(Hfit & left & Hmix & Hmd)].
    - exists None. apply written_over_failed; try done; [by apply with_dev_ok|cbn; congruence|cbn; auto].
    - exists (Some page). rewrite Hzb in Hmix. fold (page_bytes t1 page) in Hmix. apply (written_over_torn entries page ps t t1 d left); try done.
      destruct Hmix as [Hl _]. rewrite Hl, zlen_page_bytes by done. lia. }
  destruct (Hw1 eq_refl) as [Hmd Hfits].
  intros Hrest. destruct (IH (page_written t1 d page buf)) as [doubt HW]; [by apply page_written_ok|done|exact Hrest|]. exists doubt.
  eapply (written_over_cons _ _ _ t t1 (page_written t1 d page buf)); try done.
  - intros i. by apply page_written_raw.
  - by apply (page_set_len t1 Ht1 page Hp d buf).
  - by apply (page_set_outside t1 Ht1 page Hp d buf).
Qed.

Section WriteTheorems.
Context (crc32c : bytes -> Z).

Lemma write_spec t entries ok t' :
  table_ok t -> entries_ok entries -> write t entries = (ok, t') ->
  exists t1 doubt, written_over entries (sort_dedup (map (fun e => fst (page_of (fst e))) entries)) (bump t) t1 ok doubt
    /\ t' = bump t1.
Proof.
  intros Ht He. unfold write, write_checked.
  destruct (write_pages (bump t) entries _) as [ok1 t1] eqn:E. intros [= <- <-].
  replace (bool_decide _) with ok1 by (by destruct ok1).
  edestruct write_pages_spec as [doubt HW]; [| | | |exact E|exists t1, doubt; by split]; [by destruct Ht|done|apply sort_dedup_NoDup|].
  apply Forall_forall. intros p Hp. rewrite elem_of_sort_dedup in Hp. apply list_elem_of_fmap in Hp as ([j x] & -> & Hj).
  destruct (proj1 (Forall_forall _ _) He _ Hj) as [Hj0 _]. cbn [fst] in *.
  pose proof (page_of_spec j Hj0). destruct (page_of j). cbn [fst]. lia.
Qed.

Lemma sorted_page_elem entries i :
  fst (page_of i) ∉ sort_dedup (map (fun e => fst (page_of (fst e))) entries) ->
  forall e : Z * bytes, e ∈ entries -> fst e <> i.
Proof.
  intros Hn e He <-. apply Hn, elem_of_sort_dedup. apply list_elem_of_fmap. by exists e.
Qed.

(** C35. Writing slot table entries: on success every entry named holds the last bytes
    written to it and every other entry what it held, read back through the cache or from
    the device.  When a device operation fails, a write with any of its bytes on the
    device, at most one page is in doubt: an entry off it is as it was or as asked, one on
    it has of each byte the old or the new, and the cache may be wrong of that page alone.
    Nothing outside the table's range moves; the cache stays within its bound; and without
    a fault the write of entries inside the table succeeds. *)
Theorem slot_table_write t entries ok t' :
  table_ok t -> entries_ok entries -> write t entries = (ok, t') ->
  epoch t' = epoch t + 2
  /\ (exists doubt, table_but doubt t'
      /\ forall i, in_table t i = true ->
           if decide (doubt = Some (fst (page_of i))) then mixed (raw t i) (upd entries i (raw t i)) (raw t' i)
           else raw t' i = raw t i \/ raw t' i = upd entries i (raw t i))
  /\ (ok = true -> table_ok t' /\ forall i, in_table t i = true ->
       entry_at crc32c t' i = decode crc32c (upd entries i (raw t i)))
  /\ (forall o n, 0 <= o -> 0 <= n -> o + n <= t_offset t \/ t_offset t + t_limit t <= o ->
       slice o n (media (tdev t')) = slice o n (media (tdev t)))
  /\ (faults (tdev t) = [] -> Forall (fun e => in_table t (fst e) = true) entries -> ok = true).
Proof.
  intros Ht He Hw. destruct (write_spec t entries ok t' Ht He Hw) as (t1 & doubt & [W1 (P1 & P2 & P3 & P4 & P5) W3 Wd Wt W4 W5 W6 W7] & ->).
  change (t_limit (bump t)) with (t_limit t) in *. split_and!.
  - cbn in *. lia.
  - exists doubt. split; [by destruct W1|]. intros i Hi. case_decide as Hd; [by apply Wt|by apply W4].
  - intros Hok. split.
    { assert (doubt = None) as -> by (destruct doubt as [p|]; [by destruct (Wd p eq_refl); congruence|done]).
      apply table_but_none in W1. by destruct W1. }
    intros i Hi. unfold entry_at. replace (in_table (bump t1) i) with (in_table t i) by (unfold in_table; by cbn; rewrite P2).
    rewrite Hi. f_equal. change (raw (bump t1) i) with (raw t1 i).
    destruct (decide (fst (page_of i) ∈ sort_dedup (map (fun e => fst (page_of (fst e))) entries))) as [Hin|Hin].
    + by apply W6.
    + rewrite W5 by done. symmetry. apply upd_not_in. by apply sorted_page_elem.
  - exact W3.
  - intros Hnf Hall. apply W7; [done|]. apply Forall_forall. intros p Hp. rewrite elem_of_sort_dedup in Hp.
    apply list_elem_of_fmap in Hp as ([j x] & -> & Hj). cbn [fst].
    pose proof (proj1 (Forall_forall _ _) Hall _ Hj) as Hjin. cbn in Hjin.
    assert (0 <= j) as Hj0 by (unfold in_table in Hjin; bprop; done).
    pose proof (proj2 (entry_in_page t j Hj0) Hjin) as H. pose proof (page_of_spec j Hj0) as Hp.
    change (page_len (bump t)) with (page_len t). destruct (page_of j). cbn [fst snd] in *.
    unfold SLOT_ENTRY_SIZE in *. lia.
Qed.
End WriteTheorems.

(** ** Scans and batched reads *)

Section Scan.
Context (crc32c : bytes -> Z).

(** What a scan lists of entry [i]. *)
Definition listed (s : Slot) (i : Z) : option (Z * Slot) :=
  if decide (state s = Free) then None else Some (i, s).

Lemma scan_entry e i :
  (if at_byte e 0 =? 0 then None
   else match slot_from_bytes crc32c e with
        | Some s => if decide (state s = Free) then None else Some (i, s)
        | None => None
        end) = listed (decode crc32c e) i.
Proof.
  unfold listed, decode. destruct (Z.eqb_spec (at_byte e 0) 0) as [E|_].
  - assert (state (default slot_free (slot_from_bytes crc32c e)) = Free) as ->; [|done].
    unfold slot_from_bytes. repeat case_match; try done. cbn. by rewrite E.
  - by destruct (slot_from_bytes crc32c e) as [s|].
Qed.

Lemma omap_shift {A} (f g : Z -> option A) a b (n : nat) :
  (forall i, 0 <= i < Z.of_nat n -> f (a + i) = g (b + i)) -> omap f (zseq a n) = omap g (zseq b n).
Proof.
  revert a b. induction n as [|n IH]; intros a b H; [done|]. cbn [zseq omap list_omap].
  pose proof (H 0 ltac:(lia)) as H0. rewrite !Z.add_0_r in H0. rewrite H0. cbn.
  rewrite (IH (a + 1) (b + 1)); [done|]. intros i Hi.
  replace (a + 1 + i) with (a + (i + 1)) by lia. replace (b + 1 + i) with (b + (i + 1)) by lia. apply H. lia.
Qed.

Lemma scan_piece_spec t k n :
  0 <= k -> 0 <= n -> table_ok t -> k * SLOT_ENTRY_SIZE + n <= t_limit t ->
  scan_piece crc32c (k * SLOT_ENTRY_SIZE) (slice (t_offset t + k * SLOT_ENTRY_SIZE) n (media (tdev t)))
  = omap (fun i => listed (entry_at crc32c t i) i) (zrange k (k + n / SLOT_ENTRY_SIZE)).
Proof.
  intros Hk Hn [] Hfit. unfold scan_piece, zrange. unfold SLOT_ENTRY_SIZE in *.
  rewrite zlen_slice by lia. rewrite Z.sub_0_r. replace (k + n / 64 - k) with (n / 64) by lia.
  apply omap_shift. intros i Hi. rewrite Z.add_0_l.
  pose proof (Z.div_mod n 64 ltac:(lia)). pose proof (Z.mod_pos_bound n 64 ltac:(lia)).
  assert (0 <= n / 64) by (apply Z.div_pos; lia).
  rewrite Z.div_mul by lia. rewrite (scan_entry _ (k + i)). unfold entry_at.
  assert (in_table t (k + i) = true) as -> by (unfold in_table, SLOT_ENTRY_SIZE; apply andb_true_iff; rewrite !Z.leb_le; lia).
  unfold raw, SLOT_ENTRY_SIZE. rewrite slice_slice by lia. do 3 f_equal. lia.
Qed.

Lemma scan_loop_spec piece t want :
  0 < piece -> piece mod SLOT_ENTRY_SIZE = 0 -> table_ok t -> 0 <= want <= t_limit t -> faults (tdev t) = [] ->
  forall fuel at_, 0 <= at_ <= want -> at_ mod SLOT_ENTRY_SIZE = 0 \/ at_ = want ->
  want - at_ <= Z.of_nat fuel * piece ->
  exists t', scan_loop crc32c fuel piece t want at_
    = (Some (omap (fun i => listed (entry_at crc32c t i) i) (zrange (at_ / SLOT_ENTRY_SIZE) (want / SLOT_ENTRY_SIZE))), t')
  /\ table_ok t' /\ same_table t t'.
Proof.
  intros Hpc Hpm Ht Hw Hf fuel. revert t Ht Hw Hf. induction fuel as [|fuel IH]; intros t Ht Hw Hf at_ Ha Hal Hfuel.
  - assert (at_ = want) as -> by lia. unfold zrange. rewrite Z.sub_diag. by exists t.
  - cbn [scan_loop]. destruct (Z.leb_spec want at_).
    { assert (at_ = want) as -> by lia. unfold zrange. rewrite Z.sub_diag. by exists t. }
    destruct Hal as [Hal|Hal]; [|lia]. set (n := Z.min piece (want - at_)).
    pose proof (dev_read_spec (tdev t) (t_offset t + at_) n) as (Hm & Hb & Hok & Hff).
    destruct (dev_read _ _ _) as [r d]. cbn [fst snd] in *.
    destruct r as [b|]; [|exfalso; apply (Hok Hf); [destruct Ht; lia|done]].
    rewrite (Hb b eq_refl). pose proof (with_dev_ok t d Hm Ht) as Ht1.
    assert (same_table t (with_dev t d)) as Hs by (repeat split; auto).
    assert (forall i, entry_at crc32c (with_dev t d) i = entry_at crc32c t i) as He.
    { intros i. unfold entry_at, raw, in_table. cbn. by rewrite Hm. }
    assert (at_ = at_ / SLOT_ENTRY_SIZE * SLOT_ENTRY_SIZE) as Eat.
    { pose proof (Z.div_mod at_ SLOT_ENTRY_SIZE ltac:(done)). lia. }
    assert (0 <= at_ / SLOT_ENTRY_SIZE) by (apply Z.div_pos; [lia|done]).
    destruct (IH (with_dev t d) Ht1 ltac:(done) ltac:(auto) (at_ + n)) as (t' & E & Ht' & Hs').
    { lia. }
    { destruct (Z.le_ge_cases piece (want - at_)); [left|right; lia].
      unfold n. rewrite Z.min_l by lia. rewrite Z.add_mod, Hal, Hpm by done. done. }
    { lia. }
    rewrite E. exists t'. split; [|split; [done|by etrans]]. do 2 f_equal.
    assert (scan_piece crc32c at_ (slice (t_offset t + at_) n (media (tdev t)))
            = omap (fun i => listed (entry_at crc32c t i) i)
                (zrange (at_ / SLOT_ENTRY_SIZE) (at_ / SLOT_ENTRY_SIZE + n / SLOT_ENTRY_SIZE))) as ->.
    { rewrite Eat at 1 2. apply scan_piece_spec; (done || lia). }
    assert ((at_ + n) / SLOT_ENTRY_SIZE = at_ / SLOT_ENTRY_SIZE + n / SLOT_ENTRY_SIZE) as ->.
    { rewrite Eat at 1. by rewrite Z.div_add_l. }
    rewrite (zrange_split (at_ / SLOT_ENTRY_SIZE) (at_ / SLOT_ENTRY_SIZE + n / SLOT_ENTRY_SIZE) (want / SLOT_ENTRY_SIZE)).
    + rewrite omap_app. cbn [fmap option_fmap option_map]. do 2 f_equal. apply omap_shift. intros i _. by rewrite He.
    + pose proof (Z.div_pos n SLOT_ENTRY_SIZE ltac:(lia) ltac:(done)). lia.
    + rewrite <- (Z.div_add_l _ _ n) by done. rewrite <- Eat. apply Z.div_le_mono; [done|lia].
Qed.

(** Reading the table with a device that does not fail: [read] answers the
    entry the device holds (free when its checksum does not match, and past the
    table) whether or not its page is cached, and [scan] lists exactly the
    entries that are not free, in order, however many pieces it takes. *)
Lemma slot_table_reads t i total :
  table_ok t -> faults (tdev t) = [] -> in_table t i = true -> 0 <= total ->
  (exists t', read crc32c t i = (Some (entry_at crc32c t i), t') /\ table_ok t' /\ same_table t t')
  /\ exists t', scan crc32c t total
       = (Some (omap (fun i => listed (entry_at crc32c t i) i)
                     (zrange 0 (Z.min (total * SLOT_ENTRY_SIZE) (t_limit t) / SLOT_ENTRY_SIZE))), t')
     /\ table_ok t' /\ same_table t t'.
Proof.
  intros Ht Hf Hi Htot. split.
  - assert (0 <= i) by (unfold in_table in Hi; by bprop). pose proof (read_spec crc32c t i Ht ltac:(done)) as Hr.
    destruct (read crc32c t i) as [r t']. destruct Hr as (H1 & H2 & _ & H4). exists t'. by rewrite H4.
  - unfold scan, scan_by. apply scan_loop_spec; try done.
    + destruct Ht. unfold SLOT_ENTRY_SIZE in *. lia.
    + destruct Ht. unfold SLOT_ENTRY_SIZE in *. lia.
    + by left.
    + set (want := Z.min _ _). unfold scan_fuel. pose proof (Z.div_mod want PIECE ltac:(done)).
      pose proof (Z.mod_pos_bound want PIECE ltac:(done)).
      assert (0 <= want) by (destruct Ht; unfold want, SLOT_ENTRY_SIZE; lia).
      pose proof (Z.div_pos want PIECE ltac:(done) ltac:(done)). nia.
Qed.
End Scan.

(** A table of two pages at 64 on a small device, its cache one page. *)
Definition small_table : SlotTable := table_new (Dev (zeros 9000) []) 64 8448 1.

Lemma table_new_ok d o e cap :
  0 <= o -> o <= e -> e <= zlen (media d) -> 0 <= cap -> table_ok (table_new d o e cap).
Proof.
  intros. constructor; cbn; unfold sat_sub; try lia.
  - constructor; cbn; [|done|rewrite map_size_empty; lia]. intros p [x Hx]. by rewrite lookup_empty in Hx.
  - intros p b _. unfold cached. cbn. by rewrite lookup_empty.
Qed.

Lemma small_table_ok : table_ok small_table.
Proof. apply table_new_ok; vm_compute; congruence. Qed.

Definition sample_slot : Slot := mkSlot Allocated (replicate 16 9) 3 1 1.

Lemma slot_table_write_witness :
  let t' := snd (write small_table [(0, slot_to_bytes (fun _ => 0) sample_slot); (70, slot_to_bytes (fun _ => 0) sample_slot)]) in
  table_ok t' /\ entry_at (fun _ => 0) t' 70 = sample_slot /\ entry_at (fun _ => 0) t' 1 = slot_free.
Proof.
  cbv zeta. set (es := [(0, _); (70, _)]). destruct (write small_table es) as [ok t'] eqn:E. cbn [snd].
  destruct (slot_table_write (fun _ => 0) small_table es ok t' small_table_ok) as (_ & _ & H4 & _ & H6);
    [by_decide|exact E|].
  assert (ok = true) as -> by (apply H6; [reflexivity|by_decide]).
  clear E. destruct (H4 eq_refl) as [Ht' He]. split; [exact Ht'|]. rewrite !He by reflexivity. split; vm_compute; reflexivity.
Defined.

Lemma slot_table_reads_witness :
  exists t', read (fun _ => 0) small_table 70 = (Some slot_free, t').
Proof.
  destruct (slot_table_reads (fun _ => 0) small_table 70 100 small_table_ok) as [(t' & H & _) _];
    [reflexivity|reflexivity|lia|]. exists t'. rewrite H. f_equal.
Defined.
