(* ===== verification/SlabState.v ===== *)
(** The slab as a state machine: [drive/slab.rs], the slots it hands out and takes
    back, what it keeps in memory of entries not on the device yet ([Pending],
    the write-ordering rule of #171), reference counts, the erase queue, the
    steps its table is committed in, and a sync cut at the points where another
    task may run.  What the operations need of the device is the interface
    [TableDev]; a function returns its result and the new slab, and an error
    keeps the changes made before it, as the source's [?] does. *)

From S2P Require Import Prelude SlabFormat FreeMap.

(** ** Interface: a slot table on a device *)

Class TableDev (D : Type) := {
  (** An entry as the device has it; [None] is an I/O error. *)
  tb_read : D -> Z -> option Slot * D;
  (** [SlotTable::write]. *)
  tb_write : D -> list (Z * Slot) -> bool * D;
  (** [write_zeros] over the entries [lo, hi) of the table. *)
  tb_zero : D -> Z -> Z -> bool * D;
  tb_header : D -> SlabHeader -> bool * D;
  tb_flush : D -> bool * D;
  (** Discard the data of slots [first..=last]; best effort. *)
  tb_discard : D -> Z -> Z -> D;
  tb_epoch : D -> Z }.

(** What the client may rely on, against a view of the entries. *)
Class TableLaws (D : Type) `{TableDev D} := {
  tb_wf : D -> Prop;
  tb_entry : D -> Z -> Slot;
  tb_valid : Slot -> Prop;
  tb_slots : D -> Z;
  tb_read_law d i : tb_wf d -> 0 <= i < tb_slots d ->
    let '(r, d') := tb_read d i in
    tb_wf d' /\ tb_slots d' = tb_slots d /\ (forall j, 0 <= j < tb_slots d -> tb_entry d' j = tb_entry d j)
    /\ (forall s, r = Some s -> s = tb_entry d i);
  tb_write_law d es : tb_wf d -> Forall (fun e => 0 <= fst e < tb_slots d /\ tb_valid (snd e)) es ->
    let '(ok, d') := tb_write d es in
    tb_wf d' /\ tb_slots d' = tb_slots d
    /\ (ok = true -> forall j, 0 <= j < tb_slots d ->
        tb_entry d' j = foldl (fun acc e => if fst e =? j then snd e else acc) (tb_entry d j) es) }.

(** ** Erase levels: [drive/erase.rs] *)

Inductive EraseLevel := ENone | EOnce | EDod3 | EDod7.
#[export] Instance EraseLevel_eq_dec : EqDecision EraseLevel.
Proof. solve_decision. Defined.

Definition level_rank (l : EraseLevel) : Z := match l with ENone => 0 | EOnce => 1 | EDod3 => 2 | EDod7 => 3 end.
(** [Ord::max] of the derived order. *)
Definition level_max (a b : EraseLevel) : EraseLevel := if level_rank a <=? level_rank b then b else a.
Definition level_code (l : EraseLevel) : Z := match l with ENone => 0 | EOnce => 1 | EDod3 => 3 | EDod7 => 7 end.
Definition level_from_code (c : Z) : EraseLevel :=
  if (c =? 0) || (c =? 1) then EOnce else if c =? 3 then EDod3 else EDod7.

(** ** The slab in memory *)

Record Commit := mkCommit { cm_cap : Z; cm_span : Z; cm_room : Z; cm_ahead : bool; cm_step : Z }.
Definition commit_new (cap span room : Z) : Commit := mkCommit cap span room false COMMIT_STEP.
Definition committed (c : Commit) : Z := Z.min (cm_span c) (cm_cap c).
Definition whole (c : Commit) : bool := Z.min (cm_span c) (cm_room c) <=? cm_cap c.

Record Pending := mkPending {
  unpublished : gset Z;
  ready : gset Z;
  freeing : list Z;
  released : list Z;
  erasing : gmap Z (EraseLevel * VolumeId);
  erasing_now : gmap Z (EraseLevel * VolumeId);
  entries : gmap Z Slot;
  erasing_by_volume : gmap VolumeId Z }.
Definition pending_empty : Pending := mkPending ∅ ∅ [] [] ∅ ∅ ∅ ∅.

Definition set_unpublished (f : gset Z -> gset Z) (p : Pending) : Pending :=
  mkPending (f (unpublished p)) (ready p) (freeing p) (released p) (erasing p) (erasing_now p) (entries p) (erasing_by_volume p).
Definition set_ready (f : gset Z -> gset Z) (p : Pending) : Pending :=
  mkPending (unpublished p) (f (ready p)) (freeing p) (released p) (erasing p) (erasing_now p) (entries p) (erasing_by_volume p).
Definition set_freeing (f : list Z -> list Z) (p : Pending) : Pending :=
  mkPending (unpublished p) (ready p) (f (freeing p)) (released p) (erasing p) (erasing_now p) (entries p) (erasing_by_volume p).
Definition set_released (f : list Z -> list Z) (p : Pending) : Pending :=
  mkPending (unpublished p) (ready p) (freeing p) (f (released p)) (erasing p) (erasing_now p) (entries p) (erasing_by_volume p).
Definition set_erasing (f : gmap Z (EraseLevel * VolumeId) -> gmap Z (EraseLevel * VolumeId)) (p : Pending) : Pending :=
  mkPending (unpublished p) (ready p) (freeing p) (released p) (f (erasing p)) (erasing_now p) (entries p) (erasing_by_volume p).
Definition set_erasing_now (f : gmap Z (EraseLevel * VolumeId) -> gmap Z (EraseLevel * VolumeId)) (p : Pending) : Pending :=
  mkPending (unpublished p) (ready p) (freeing p) (released p) (erasing p) (f (erasing_now p)) (entries p) (erasing_by_volume p).
Definition set_entries (f : gmap Z Slot -> gmap Z Slot) (p : Pending) : Pending :=
  mkPending (unpublished p) (ready p) (freeing p) (released p) (erasing p) (erasing_now p) (f (entries p)) (erasing_by_volume p).
Definition set_by_volume (f : gmap VolumeId Z -> gmap VolumeId Z) (p : Pending) : Pending :=
  mkPending (unpublished p) (ready p) (freeing p) (released p) (erasing p) (erasing_now p) (entries p) (f (erasing_by_volume p)).

Record Preread := mkPre { pre_epoch : Z; pre_entries : gmap Z Slot }.

Inductive SlabErr :=
| EIo | EFull | EBitmap | EOutOfRange (i : Z) | EDoubleFree (i : Z) | ENotOwned (i : Z) | EFormat1.

Inductive DecRefReject := OutOfRange | AlreadyFree | Duplicate.
Record DecRefOutcome := mkOutcome { freed : Z; retained : Z; rejected : list (Z * DecRefReject) }.

Section Slab.
Context {D : Type} `{TableDev D}.

Record slab := mkSlab {
  sh : SlabHeader; sdev : D; free_bitmap : FreeMap; free_count : Z; commit : Commit; pend : Pending;
  erase : EraseLevel; erase_ov : option EraseLevel; retired_for_erase : Z }.

Definition upd_dev (s : slab) (d : D) : slab :=
  mkSlab (sh s) d (free_bitmap s) (free_count s) (commit s) (pend s) (erase s) (erase_ov s) (retired_for_erase s).
Definition upd_pend (f : Pending -> Pending) (s : slab) : slab :=
  mkSlab (sh s) (sdev s) (free_bitmap s) (free_count s) (commit s) (f (pend s)) (erase s) (erase_ov s) (retired_for_erase s).
Definition upd_map (s : slab) (m : FreeMap) (n : Z) : slab :=
  mkSlab (sh s) (sdev s) m n (commit s) (pend s) (erase s) (erase_ov s) (retired_for_erase s).
Definition upd_commit (s : slab) (c : Commit) : slab :=
  mkSlab (sh s) (sdev s) (free_bitmap s) (free_count s) c (pend s) (erase s) (erase_ov s) (retired_for_erase s).
Definition upd_header (s : slab) (h : SlabHeader) : slab :=
  mkSlab h (sdev s) (free_bitmap s) (free_count s) (commit s) (pend s) (erase s) (erase_ov s) (retired_for_erase s).
Definition count_retired (s : slab) : slab :=
  mkSlab (sh s) (sdev s) (free_bitmap s) (free_count s) (commit s) (pend s) (erase s) (erase_ov s) (retired_for_erase s + 1).

(** What a slot freed from now on is overwritten with; of a delete that asks for more, at
    least what it asks for. *)
Definition set_erase_level (l : EraseLevel) (s : slab) : slab :=
  mkSlab (sh s) (sdev s) (free_bitmap s) (free_count s) (commit s) (pend s) l (erase_ov s) (retired_for_erase s).
Definition set_erase_override (l : option EraseLevel) (s : slab) : slab :=
  mkSlab (sh s) (sdev s) (free_bitmap s) (free_count s) (commit s) (pend s) (erase s) l (retired_for_erase s).

(** An operation: its result, and the slab it leaves. *)
Definition M (A : Type) : Type := slab -> result SlabErr A * slab.
Definition ret {A} (a : A) : M A := fun s => (Ok a, s).
Definition fail {A} (e : SlabErr) : M A := fun s => (Err e, s).
Definition bind {A B} (m : M A) (k : A -> M B) : M B :=
  fun s => match m s with (Ok a, s) => k a s | (Err e, s) => (Err e, s) end.
Definition modify (f : slab -> slab) : M () := fun s => (Ok (), f s).
Definition gets {A} (f : slab -> A) : M A := fun s => (Ok (f s), s).

Notation "'let!' x ':=' m 'in' k" := (bind m (fun x => k)) (at level 10, x name, m at level 200, k at level 200).
Notation "m ;; k" := (bind m (fun _ => k)) (at level 100, right associativity).

Definition dev_op (f : D -> bool * D) : M () :=
  fun s => let '(ok, d) := f (sdev s) in (if ok then Ok () else Err EIo, upd_dev s d).
Definition flush : M () := dev_op tb_flush.

(** ** Reading entries *)

Definition in_range (i : Z) : M () :=
  fun s => if committed (commit s) <=? i then (Err (EOutOfRange i), s) else (Ok (), s).

Definition table_read (i : Z) : M Slot :=
  fun s => let '(r, d) := tb_read (sdev s) i in
           (match r with Some e => Ok e | None => Err EIo end, upd_dev s d).

Definition slot_now (i : Z) : M Slot :=
  fun s => match entries (pend s) !! i with Some e => (Ok e, s) | None => table_read i s end.

Definition slot_with (i : Z) (pre : option Preread) : M Slot :=
  fun s =>
    match entries (pend s) !! i with
    | Some e => (Ok e, s)
    | None =>
        match pre with
        | Some p =>
            if pre_epoch p =? tb_epoch (sdev s) then
              match pre_entries p !! i with
              | Some e => (Ok e, s)
              | None => table_read i s
              end
            else table_read i s
        | None => table_read i s
        end
    end.

Definition set_slot (i : Z) (e : Slot) : slab -> slab := upd_pend (set_entries (insert i e)).
Definition add_ready (i : Z) : slab -> slab := upd_pend (set_ready (fun r => {[i]} ∪ r)).

(** ** Writing entries *)

Definition entry_bytes (i : Z) : M Slot :=
  fun s => if decide (i ∈ unpublished (pend s)) then (Ok slot_free, s) else slot_now i s.

Fixpoint entries_of (idxs : list Z) : M (list (Z * Slot)) :=
  match idxs with
  | [] => ret []
  | i :: r => let! e := entry_bytes i in let! es := entries_of r in ret ((i, e) :: es)
  end.

(** On the device now: memory need not hold what the table says, except for a
    slot still unpublished. *)
Definition drop_written (idxs : list Z) (p : Pending) : Pending :=
  set_entries (fun m => foldl (fun m i => if decide (i ∈ unpublished p) then m else delete i m) m idxs) p.

Definition persist_slots (slot_indices : list Z) : M () :=
  match slot_indices with
  | [] => ret ()
  | _ =>
      let idxs := sort_dedup slot_indices in
      let! es := entries_of idxs in
      dev_op (fun d => tb_write d es) ;;
      modify (upd_pend (drop_written idxs))
  end.
Definition persist_slot (i : Z) : M () := persist_slots [i].

(** ** Discards *)

(** [SlotDiscarder::discard]: runs of consecutive slots, in order. *)
Fixpoint discard_runs (start stop : Z) (slots : list Z) : list (Z * Z) :=
  match slots with
  | [] => [(start, stop)]
  | i :: r => if i =? stop + 1 then discard_runs start i r else (start, stop) :: discard_runs i i r
  end.
Definition runs_of (slot_indices : list Z) : list (Z * Z) :=
  match sort_dedup slot_indices with
  | [] => []
  | first :: r => discard_runs first first r
  end.
Definition discard_slots (slot_indices : list Z) : slab -> slab :=
  fun s => upd_dev s (foldl (fun d r => tb_discard d (fst r) (snd r)) (sdev s) (runs_of slot_indices)).

(** The device range of a run, as [discard_run] computes it. *)
Definition run_range (h : SlabHeader) (r : Z * Z) : Z * Z :=
  (data_offset h + fst r * slot_size h, (snd r - fst r + 1) * slot_size h).

(** ** The committed part of the table *)

Definition header_now (s : slab) : SlabHeader :=
  let h := sh s in let c := commit s in
  mkHeader (slab_uuid h) (device_uuid h) (slot_size h) (Z.min (cm_span c) (cm_cap c)) (free_slots h)
    (data_offset h) (table_offset h) (create_time h) (update_time h) (tier h) (flags h) (role h)
    (meta_offset h) (meta_size h) (cm_cap c) (table_room h) (cm_span c) (partner h) (moved_to h)
    (checksum h) (version h).

Definition step_target (c : Commit) : Z :=
  Z.min (div_ceil (Z.min (cm_cap c + cm_step c) (Z.min (cm_span c) (cm_room c))) 64 * 64) (cm_room c).

(** [commit_step]: zero, flush, name it in the header, flush; then in memory. *)
Definition commit_step (now : Z) (h : SlabHeader) : M bool :=
  fun s =>
    let c := commit s in
    if Z.min (cm_span c) (cm_room c) <=? cm_cap c then (Ok false, s)
    else
      let target := step_target c in
      let h := mkHeader (slab_uuid h) (device_uuid h) (slot_size h) (Z.min (cm_span c) target) (free_slots h)
                 (data_offset h) (table_offset h) (create_time h) now (tier h) (flags h) (role h)
                 (meta_offset h) (meta_size h) target (table_room h) (cm_span c) (partner h) (moved_to h)
                 (checksum h) (version h) in
      (dev_op (fun d => tb_zero d (cm_cap c) target) ;;
       flush ;;
       dev_op (fun d => tb_header d h) ;;
       flush ;;
       modify (fun s => upd_commit s (mkCommit target (cm_span c) (cm_room c) (cm_ahead c) (cm_step c))) ;;
       ret true) s.

Definition take_committed (s : slab) : slab :=
  let n := committed (commit s) in
  let len := fm_len (free_bitmap s) in
  if len <? n then upd_map s (fm_resize (free_bitmap s) n true) (free_count s + (n - len)) else s.

(** [commit_ahead]: the header a step needs, when one is due and none runs. *)
Definition commit_ahead (s : slab) : option SlabHeader * slab :=
  let c := commit s in
  if whole c then (None, s)
  else
    let free_committed := free_count s + sat_sub (committed c) (fm_len (free_bitmap s)) in
    if (cm_step c / 4 <=? free_committed) && (committed c <=? free_committed * 4) then (None, s)
    else if cm_ahead c then (None, s)
    else (Some (header_now s), upd_commit s (mkCommit (cm_cap c) (cm_span c) (cm_room c) true (cm_step c))).

(** ** Taking slots *)

Definition absorb_released (s : slab) : slab :=
  let r := released (pend s) in
  let s := upd_pend (set_released (fun _ => [])) s in
  foldl (fun s i => if is_free (free_bitmap s) i then s
                    else upd_map s (fm_set (free_bitmap s) i true) (free_count s + 1)) s r.

Definition take_slot (volume_id : VolumeId) (vext_idx generation : Z) : M Z :=
  fun s =>
    if free_count s =? 0 then (Err EFull, s)
    else
      match first_free (free_bitmap s) with
      | None => (Err EBitmap, s)
      | Some i =>
          let s := upd_map s (fm_set (free_bitmap s) i false) (free_count s - 1) in
          (Ok i, set_slot i (mkSlot Allocated volume_id vext_idx 1 generation) s)
      end.

(** The flush [take_slot_or_flush] makes when only freed slots are left. *)
Definition reclaim_freeing : M () :=
  fun s =>
    let f := freeing (pend s) in
    match f with
    | [] => (Ok (), s)
    | _ =>
        let s := upd_pend (set_freeing (fun _ => [])) s in
        match flush s with
        | (Err e, s) => (Err e, upd_pend (set_freeing (fun l => l ++ f)) s)
        | (Ok _, s) => (Ok (), absorb_released (upd_pend (set_released (fun l => l ++ f)) s))
        end
    end.

Definition take_slot_or_flush (now : Z) (volume_id : VolumeId) (vext_idx generation : Z) : M Z :=
  modify take_committed ;;
  modify absorb_released ;;
  let! n := gets free_count in
  (if n =? 0 then reclaim_freeing else ret ()) ;;
  let! n := gets free_count in
  let! w := gets (fun s => whole (commit s)) in
  (if (n =? 0) && negb w
   then (let! h := gets header_now in (commit_step now h ;; modify take_committed))
   else ret ()) ;;
  take_slot volume_id vext_idx generation.

Definition allocate_gen (now : Z) (volume_id : VolumeId) (vext_idx generation : Z) : M Z :=
  let! i := take_slot_or_flush now volume_id vext_idx generation in
  persist_slot i ;; ret i.
Definition allocate (now : Z) (volume_id : VolumeId) (vext_idx : Z) : M Z := allocate_gen now volume_id vext_idx 1.

Definition allocate_deferred (now : Z) (volume_id : VolumeId) (vext_idx generation : Z) : M Z :=
  let! i := take_slot_or_flush now volume_id vext_idx generation in
  modify (upd_pend (set_unpublished (fun u => {[i]} ∪ u))) ;; ret i.

Definition is_unpublished (s : slab) (i : Z) : bool := bool_decide (i ∈ unpublished (pend s)).
Definition confirm (i : Z) (s : slab) : slab :=
  if decide (i ∈ unpublished (pend s)) then add_ready i s else s.
Definition has_ready (s : slab) : bool := bool_decide (ready (pend s) <> ∅).

(** ** Publishing and syncs *)

Definition sorted_elements (X : gset Z) : list Z := sort_dedup (elements X).

Definition publish_ready : M bool :=
  fun s =>
    let rd := sorted_elements (ready (pend s)) in
    let newly := filter (fun i => i ∈ unpublished (pend s)) rd in
    let s1 := upd_pend (fun p => set_ready (fun _ => ∅) (set_unpublished (fun u => u ∖ list_to_set newly) p)) s in
    match rd with
    | [] => (Ok false, s1)
    | _ =>
        match persist_slots rd s1 with
        | (Err e, s2) =>
            (Err e, upd_pend (fun p => set_ready (fun r => list_to_set rd ∪ r)
                                         (set_unpublished (fun u => list_to_set newly ∪ u) p)) s2)
        | (Ok _, s2) => (Ok true, s2)
        end
    end.

(** [ready_entries]: the entries to publish, read with nothing else changed but
    ready slots memory no longer holds. *)
Definition ready_entries (s : slab) : list (Z * Slot) * slab :=
  let p := pend s in
  let rd := sorted_elements (ready p) in
  let written := filter (fun i => entries p !! i = None /\ i ∉ unpublished p) rd in
  (omap (fun i => (fun e => (i, e)) <$> entries p !! i) rd,
   upd_pend (set_ready (fun r => r ∖ list_to_set written)) s).

(** [publish_unlocked]: written only if every entry is still what memory has and
    still waiting. *)
Definition publish_unlocked (es : list (Z * Slot)) : M (option bool) :=
  fun s =>
    match es with
    | [] => (Ok (Some false), s)
    | _ =>
        let p := pend s in
        if forallb (fun e => bool_decide (fst e ∈ ready p) && bool_decide (entries p !! fst e = Some (snd e))) es then
          let idxs := map fst es in
          let newly := filter (fun i => i ∈ unpublished p) idxs in
          let s := upd_pend (fun p => set_ready (fun r => r ∖ list_to_set idxs)
                                        (set_unpublished (fun u => u ∖ list_to_set idxs) p)) s in
          match dev_op (fun d => tb_write d es) s with
          | (Ok _, s) =>
              (Ok (Some true),
               upd_pend (fun p => set_entries (fun m =>
                 foldl (fun m e => if decide ((fst e ∉ unpublished p) /\ entries p !! fst e = Some (snd e))
                                   then delete (fst e) m else m) m es) p) s)
          | (Err e, s) =>
              let p := pend s in
              let back := map fst (filter (fun e => entries p !! fst e = Some (snd e)) es) in
              (Err e, upd_pend (fun p => set_ready (fun r => list_to_set back ∪ r)
                        (set_unpublished (fun u => list_to_set (filter (fun i => i ∈ newly) back) ∪ u) p)) s)
          end
        else (Ok None, s)
    end.

(** [SlabSyncHandle::run] up to the publish: the freeing list is taken, the device
    flushed, and what was taken is released. *)
Definition sync_take (s : slab) : list Z * slab :=
  (freeing (pend s), upd_pend (set_freeing (fun _ => [])) s).
Definition sync_flush (taken : list Z) : M () :=
  fun s => match flush s with
           | (Err e, s) => (Err e, upd_pend (set_freeing (fun l => l ++ taken)) s)
           | (Ok _, s) => (Ok (), upd_pend (set_released (fun l => l ++ taken)) s)
           end.
(** The rest: publish, and a second flush if anything was written. *)
Definition sync_publish : M () :=
  let! wrote := publish_ready in if wrote then flush else ret ().

(** [Slab::sync], nothing else running. *)
Definition sync : M () :=
  fun s => let '(taken, s) := sync_take s in (sync_flush taken ;; sync_publish) s.

(** ** Letting slots go *)

Definition erase_level_now (s : slab) : EraseLevel := level_max (default (erase s) (erase_ov s)) (erase s).

(** [retire]: out of use in memory; whether its entry must be written. *)
Definition retire (i : Z) : M bool :=
  fun s =>
    let level := erase_level_now s in
    if decide (level <> ENone) then
      match slot_now i s with
      | (Err e, s) => (Err e, s)
      | (Ok old, s) =>
          let fresh := bool_decide (erasing (pend s) !! i = None) in
          let s := upd_pend (fun p =>
            set_by_volume (fun m => if fresh then <[volume_id old := default 0 (m !! volume_id old) + 1]> m else m)
              (set_erasing (insert i (level, volume_id old))
                (set_unpublished (fun u => u ∖ {[i]})
                  (set_ready (fun r => r ∖ {[i]})
                    (set_entries (insert i (mkSlot Erasing (volume_id old) (virtual_extent_idx old)
                                              (level_code level) (generation old))) p))))) s in
          (Ok true, if fresh then count_retired s else s)
      end
    else
      let s := upd_pend (set_ready (fun r => r ∖ {[i]})) s in
      if decide (i ∈ unpublished (pend s)) then
        let s := upd_pend (fun p => set_entries (delete i) (set_unpublished (fun u => u ∖ {[i]}) p)) s in
        (Ok false, upd_map s (fm_set (free_bitmap s) i true) (free_count s + 1))
      else
        (Ok true, upd_pend (fun p => set_freeing (fun l => l ++ [i]) (set_entries (insert i slot_free) p)) s).

Definition is_erasing (s : slab) (i : Z) : bool :=
  bool_decide (is_Some (erasing (pend s) !! i)) || bool_decide (is_Some (erasing_now (pend s) !! i)).

Definition free (i : Z) : M () :=
  in_range i ;;
  let! e := slot_now i in
  if is_owned (state e) then
    let! w := retire i in
    (if w then persist_slot i else ret ()) ;;
    modify (fun s => if is_erasing s i then s else discard_slots [i] s)
  else fail (EDoubleFree i).

(** The slots of a batch this slab owns, and whether the caller discards them. *)
Fixpoint owned_of (slots : list Z) (pre : Preread) : M (list Z) :=
  match slots with
  | [] => ret []
  | i :: r =>
      in_range i ;;
      let! e := slot_with i (Some pre) in
      let! o := owned_of r pre in
      ret (if is_owned (state e) then i :: o else o)
  end.
Definition plan_free (slots : list Z) (pre : Preread) : M (list Z * bool) :=
  let! o := owned_of slots pre in
  gets (fun s => (o, bool_decide (erase_level_now s = ENone))).

Fixpoint free_planned_loop (slots : list Z) (pre : Preread) (write : list Z) (n : Z) : M (list Z * Z) :=
  match slots with
  | [] => ret (write, n)
  | i :: r =>
      in_range i ;;
      let! e := slot_with i (Some pre) in
      if is_owned (state e) then
        let! w := retire i in
        free_planned_loop r pre (if w then write ++ [i] else write) (n + 1)
      else free_planned_loop r pre write n
  end.
Definition free_planned (slots : list Z) (pre : Preread) : M Z :=
  let! r := free_planned_loop slots pre [] 0 in
  persist_slots (fst r) ;; ret (snd r).

(** ** Reference counts *)

Definition with_refs (e : Slot) (n : Z) : Slot :=
  mkSlot (state e) (volume_id e) (virtual_extent_idx e) n (generation e).

Definition inc_ref (i : Z) : M () :=
  in_range i ;;
  let! e := slot_now i in
  if is_owned (state e) then
    modify (set_slot i (with_refs e (ref_count e + 1))) ;; persist_slot i
  else fail (ENotOwned i).

(** Every index checked before any count moves; one named twice moves twice. *)
Fixpoint check_owned (idxs : list Z) (pre : option Preread) : M (list (Z * Slot)) :=
  match idxs with
  | [] => ret []
  | i :: r =>
      in_range i ;;
      let! e := slot_with i pre in
      if is_owned (state e) then let! es := check_owned r pre in ret ((i, e) :: es)
      else fail (ENotOwned i)
  end.
Definition bump_refs (es : list (Z * Slot)) : gmap Z Slot :=
  foldl (fun m ie => let e := default (snd ie) (m !! fst ie) in
                     <[fst ie := with_refs e (ref_count e + 1)]> m) ∅ es.
Definition inc_ref_batch (idxs : list Z) (pre : option Preread) : M () :=
  let! es := check_owned idxs pre in
  let b := bump_refs es in
  modify (upd_pend (fun p => set_ready (fun r => dom b ∪ r) (set_entries (fun m => b ∪ m) p))).

Record dec_state := mkDec { dc_seen : gset Z; dc_touched : list Z; dc_freed : list Z; dc_out : DecRefOutcome }.

Definition reject (i : Z) (why : DecRefReject) (d : dec_state) : dec_state :=
  let o := dc_out d in
  mkDec ({[i]} ∪ dc_seen d) (dc_touched d) (dc_freed d) (mkOutcome (freed o) (retained o) (rejected o ++ [(i, why)])).

(** One slot of [dec_ref_batch]. *)
Definition dec_one (i : Z) (pre : option Preread) (d : dec_state) : M dec_state :=
  if decide (i ∈ dc_seen d) then ret (reject i Duplicate d)
  else
    let d := mkDec ({[i]} ∪ dc_seen d) (dc_touched d) (dc_freed d) (dc_out d) in
    let! c := gets (fun s => committed (commit s)) in
    if c <=? i then ret (reject i OutOfRange d)
    else
      let! e := slot_with i pre in
      if negb (is_owned (state e)) || (ref_count e =? 0) then ret (reject i AlreadyFree d)
      else
        let e := with_refs e (ref_count e - 1) in
        let o := dc_out d in
        if 0 <? ref_count e then
          modify (set_slot i e) ;; modify (add_ready i) ;;
          ret (mkDec (dc_seen d) (dc_touched d) (dc_freed d) (mkOutcome (freed o) (retained o + 1) (rejected o)))
        else
          let! w := retire i in
          ret (mkDec (dc_seen d) (if w then dc_touched d ++ [i] else dc_touched d) (dc_freed d ++ [i])
                     (mkOutcome (freed o + 1) (retained o) (rejected o))).
Fixpoint dec_loop (idxs : list Z) (pre : option Preread) (d : dec_state) : M dec_state :=
  match idxs with
  | [] => ret d
  | i :: r => let! d := dec_one i pre d in dec_loop r pre d
  end.
Definition dec_ref_batch (idxs : list Z) (pre : option Preread) : M DecRefOutcome :=
  let! d := dec_loop idxs pre (mkDec ∅ [] [] (mkOutcome 0 0 [])) in
  persist_slots (dc_touched d) ;;
  modify (fun s => discard_slots (filter (fun i => is_erasing s i = false) (dc_freed d)) s) ;;
  ret (dc_out d).

Definition dec_ref (i : Z) : M bool :=
  in_range i ;;
  let! e := slot_now i in
  if negb (is_owned (state e)) || (ref_count e =? 0) then fail (ENotOwned i)
  else
    let e := with_refs e (ref_count e - 1) in
    if ref_count e =? 0 then modify (set_slot i e) ;; free i ;; ret true
    else modify (set_slot i e) ;; modify (add_ready i) ;; ret false.

Definition raise_ref (i count : Z) : slab -> bool * slab :=
  fun s =>
    if committed (commit s) <=? i then (false, s)
    else
      match slot_now i s with
      | (Ok e, s) =>
          if is_owned (state e) && (ref_count e <? count)
          then (true, add_ready i (set_slot i (with_refs e count) s)) else (false, s)
      | (Err _, s) => (false, s)
      end.

Definition reassign_slot (i : Z) (volume_id : VolumeId) (vext_idx : Z) : M () :=
  in_range i ;;
  let! e := slot_now i in
  if is_owned (state e) then
    modify (set_slot i (mkSlot (state e) volume_id vext_idx (ref_count e) (generation e + 1))) ;; persist_slot i
  else fail (ENotOwned i).

Definition owner (i : Z) : slab -> option (VolumeId * Z) * slab :=
  fun s =>
    if committed (commit s) <=? i then (None, s)
    else match slot_now i s with
         | (Ok e, s) => (if is_owned (state e) then Some (volume_id e, virtual_extent_idx e) else None, s)
         | (Err _, s) => (None, s)
         end.
Definition shares (i : Z) : slab -> Z * slab :=
  fun s =>
    if committed (commit s) <=? i then (0, s)
    else match slot_now i s with
         | (Ok e, s) => (if is_owned (state e) then ref_count e else 0, s)
         | (Err _, s) => (0, s)
         end.

(** ** The eraser's queue *)

Definition take_erasing (max : nat) (s : slab) : list (Z * (EraseLevel * VolumeId)) * slab :=
  let picked := take max (sorted_elements (dom (erasing (pend s)))) in
  (omap (fun i => pair i <$> erasing (pend s) !! i) picked,
   upd_pend (fun p =>
     foldl (fun p i => match erasing p !! i with
                       | Some j => set_erasing_now (insert i j) (set_erasing (delete i) p)
                       | None => p
                       end) p picked) s).

Definition return_erase (i : Z) (s : slab) : slab :=
  match erasing_now (pend s) !! i with
  | Some j => upd_pend (fun p => set_erasing (insert i j) (set_erasing_now (delete i) p)) s
  | None => s
  end.

Definition finish_erase (i : Z) : M () :=
  fun s =>
    let p := pend s in
    let job := match erasing_now p !! i with
               | Some j => Some (j, set_erasing_now (delete i) p)
               | None => match erasing p !! i with
                         | Some j => Some (j, set_erasing (delete i) p)
                         | None => None
                         end
               end in
    match job with
    | None => (Ok (), s)
    | Some ((_, vol), p) =>
        let p := set_by_volume (fun m => match m !! vol with
                                         | Some n => if n - 1 =? 0 then delete vol m else <[vol := n - 1]> m
                                         | None => m
                                         end) p in
        let p := set_freeing (fun l => l ++ [i]) (set_entries (insert i slot_free) p) in
        persist_slot i (upd_pend (fun _ => p) s)
    end.

Definition erasing_slots (s : slab) : Z := Z.of_nat (size (erasing (pend s))) + Z.of_nat (size (erasing_now (pend s))).
Definition erasing_for (s : slab) (v : VolumeId) : Z := default 0 (erasing_by_volume (pend s) !! v).

(** ** Counts, growth *)

Definition slab_total_slots (s : slab) : Z := cm_span (commit s).
Definition slab_free_slots (s : slab) : Z :=
  let p := pend s in
  let beyond := sat_sub (slab_total_slots s) (fm_len (free_bitmap s)) in
  free_count s + (zlen (freeing p) + zlen (released p)) + beyond.
Definition allocated_slots (s : slab) : Z := sat_sub (slab_total_slots s) (slab_free_slots s).

(** [grow], the device's capacity and the clock as arguments. *)
Definition grow (capacity now : Z) : M Z :=
  fun s =>
    let fits := sat_sub capacity (data_offset (sh s)) / slot_size (sh s) in
    let c := commit s in
    let new_total := Z.min fits (cm_room c) in
    let old_total := cm_span c in
    if new_total <=? old_total then (Ok 0, s)
    else
      let added := new_total - old_total in
      let s := upd_commit s (mkCommit (cm_cap c) new_total (cm_room c) (cm_ahead c) (cm_step c)) in
      let h := header_now s in
      let h := mkHeader (slab_uuid h) (device_uuid h) (slot_size h) (total_slots h) (free_count s + added)
                 (data_offset h) (table_offset h) (create_time h) now (tier h) (flags h) (role h)
                 (meta_offset h) (meta_size h) (table_capacity h) (table_room h) (span h) (partner h) (moved_to h)
                 (checksum h) (version h) in
      (dev_op (fun d => tb_header d h) ;;
       flush ;;
       modify (fun s => take_committed (upd_header s h)) ;;
       ret added) s.

(** [set_partner] and [set_moved_to]: the header, written with nothing else. *)
Definition write_header (h : SlabHeader) : M () :=
  dev_op (fun d => tb_header d h) ;; flush ;; modify (fun s => upd_header s h).
Definition set_links (h : SlabHeader) (p m : bytes) : SlabHeader :=
  mkHeader (slab_uuid h) (device_uuid h) (slot_size h) (total_slots h) (free_slots h) (data_offset h)
    (table_offset h) (create_time h) (update_time h) (tier h) (flags h) (role h) (meta_offset h) (meta_size h)
    (table_capacity h) (table_room h) (span h) p m (checksum h) (version h).
Definition set_partner (p : option bytes) : M () :=
  fun s => if negb (version (sh s) =? SLAB_VERSION_2) then (Err EFormat1, s)
           else let h := header_now s in write_header (set_links h (default nil_uuid p) (moved_to h)) s.
Definition set_moved_to (t : option bytes) : M () :=
  fun s => if negb (version (sh s) =? SLAB_VERSION_2) then (Err EFormat1, s)
           else let h := header_now s in
                write_header (set_links h (match t with Some _ => nil_uuid | None => partner h end) (default nil_uuid t)) s.

(** [open]: the free map and the erase queue from a scan of the committed table. *)
Definition open_scan (total : Z) (found : list (Z * Slot)) : FreeMap * Pending * Z :=
  foldl (fun '(m, p, used) '(i, e) =>
           if total <=? i then (m, p, used)
           else
             let m := fm_set m i false in
             let p := if decide (state e = Erasing)
                      then set_by_volume (fun v => <[volume_id e := default 0 (v !! volume_id e) + 1]> v)
                             (set_erasing (insert i (level_from_code (ref_count e), volume_id e)) p)
                      else p in
             (m, p, used + 1))
    (fm_new total true, pending_empty, 0) found.
Definition slab_open (d : D) (h : SlabHeader) (found : list (Z * Slot)) : slab :=
  let c := commit_new (table_capacity h) (span h) (table_room h) in
  let '(m, p, used) := open_scan (committed c) found in
  mkSlab h d m (committed c - used) c p ENone None 0.

(** A slab just formatted. *)
Definition slab_formatted (d : D) (h : SlabHeader) (step : Z) : slab :=
  let c := mkCommit (table_capacity h) (span h) (table_room h) false step in
  mkSlab h d (fm_new (committed c) true) (committed c) c pending_empty ENone None 0.

(** [ViewSource::read]: the scanned table with the entries in memory applied. *)
Definition view_of (scanned : gmap Z Slot) (p : Pending) : gmap Z Slot :=
  map_fold (fun i e m => if decide (i ∈ unpublished p \/ state e <> Free) then <[i := e]> m else delete i m)
    scanned (entries p).

End Slab.
Arguments slab D : clear implicits.
Arguments M D A : clear implicits.
