(* ===== verification/SlabCrash.v ===== *)
(** What a power cut can leave of a slab: the write-ordering rule of #171 in
    [drive/slab.rs].  The device here has a write-back cache: until a flush
    completes it may keep, of each entry and of each slot's data, any of the
    values it was sent.  Every slot has a tenancy number, bumped when the slot is
    handed out; entries and data carry the tenancy they were written under (ghost
    state: the code never reads it), which is what lets a cut be judged. *)

From S2P Require Import Prelude SlabFormat FreeMap SlabState.

(** ** A device with a write-back cache *)

Record adev := mkAdev {
  a_now : Z -> Slot * Z;         (** the entry reads answer, and its tenancy *)
  a_old : Z -> list (Slot * Z);  (** what a cut may leave instead *)
  d_now : Z -> Z;                (** the tenancy of the slot's data *)
  d_old : Z -> list Z;
  tenant : Z -> Z;               (** the slot's current tenancy *)
  a_epoch : Z;
  wfaults : list bool;           (** which table writes fail *)
  ffaults : list bool }.         (** which flushes fail *)

(** Data nobody owns: discarded, overwritten by the eraser, never written. *)
Definition WIPED : Z := -1.

Definition upd_fn {A} (f : Z -> A) (i : Z) (x : A) : Z -> A := fun j => if j =? i then x else f j.

Definition put_entry (d : adev) (ie : Z * Slot) : adev :=
  let '(i, e) := ie in
  mkAdev (upd_fn (a_now d) i (e, tenant d i)) (upd_fn (a_old d) i (a_now d i :: a_old d i))
    (d_now d) (d_old d) (tenant d) (a_epoch d) (wfaults d) (ffaults d).
Definition put_data (d : adev) (i t : Z) : adev :=
  mkAdev (a_now d) (a_old d) (upd_fn (d_now d) i t) (upd_fn (d_old d) i (d_now d i :: d_old d i))
    (tenant d) (a_epoch d) (wfaults d) (ffaults d).
Definition set_faults (d : adev) (w f : list bool) : adev :=
  mkAdev (a_now d) (a_old d) (d_now d) (d_old d) (tenant d) (a_epoch d) w f.
Definition bump_epoch (d : adev) : adev :=
  mkAdev (a_now d) (a_old d) (d_now d) (d_old d) (tenant d) (a_epoch d + 2) (wfaults d) (ffaults d).
Definition settle (d : adev) : adev :=
  mkAdev (a_now d) (fun _ => []) (d_now d) (fun _ => []) (tenant d) (a_epoch d) (wfaults d) (ffaults d).

(** A write that fails changes nothing. *)
Definition ad_write (d : adev) (es : list (Z * Slot)) : bool * adev :=
  match wfaults d with
  | true :: r => (false, bump_epoch (set_faults d r (ffaults d)))
  | w => (true, bump_epoch (foldl put_entry (set_faults d (tail w) (ffaults d)) es))
  end.
Definition ad_flush (d : adev) : bool * adev :=
  match ffaults d with
  | true :: r => (false, set_faults d (wfaults d) r)
  | f => (true, settle (set_faults d (wfaults d) (tail f)))
  end.
Definition ad_zero (d : adev) (lo hi : Z) : bool * adev :=
  (true, foldl put_entry d (map (fun i => (i, slot_free)) (zrange lo hi))).
Definition ad_discard (d : adev) (first last : Z) : adev :=
  foldl (fun d i => put_data d i WIPED) d (zrange first (last + 1)).

#[export] Instance adev_table : TableDev adev := {
  tb_read d i := (Some (fst (a_now d i)), d);
  tb_write := ad_write;
  tb_zero := ad_zero;
  tb_header d _ := (true, d);
  tb_flush := ad_flush;
  tb_discard := ad_discard;
  tb_epoch := a_epoch }.

(** ** The power cut *)

Definition entry_images (d : adev) (i : Z) : list (Slot * Z) := a_now d i :: a_old d i.
Definition data_images (d : adev) (i : Z) : list Z := d_now d i :: d_old d i.

(** The entry as the engine has it now. *)
Definition now_of (s : slab adev) (i : Z) : Slot := default (fst (a_now (sdev s) i)) (entries (pend s) !! i).
Definition live (s : slab adev) (i : Z) : bool := is_owned (state (now_of s i)).

(** The two promises of #171, for slot [i] and whatever the cut kept.  An entry
    that names a tenant never sits on another tenant's bytes; and while the slot
    is in use, the entry is there only beside its data. *)
Definition cut_safe (s : slab adev) (i : Z) : Prop :=
  forall e k t, (e, k) ∈ entry_images (sdev s) i -> t ∈ data_images (sdev s) i ->
  is_owned (state e) = true -> (t = k \/ t = WIPED) /\ (live s i = true -> t = k).

Definition cut_safe_b (s : slab adev) (i : Z) : bool :=
  forallb (fun ek => forallb (fun t =>
    if is_owned (state (fst ek))
    then ((t =? snd ek) || (t =? WIPED)) && (negb (live s i) || (t =? snd ek)) else true)
    (data_images (sdev s) i)) (entry_images (sdev s) i).

Lemma cut_safe_decides s i : cut_safe_b s i = true <-> cut_safe s i.
Proof.
  unfold cut_safe_b, cut_safe. rewrite forallb_forall. split.
  - intros Hall e k t He Ht Ho. specialize (Hall (e, k) (proj1 (list_elem_of_In _ _) He)).
    rewrite forallb_forall in Hall. specialize (Hall t (proj1 (list_elem_of_In _ _) Ht)). cbn [fst snd] in Hall.
    rewrite Ho in Hall. apply andb_true_iff in Hall as [H1 H2]. split.
    + apply orb_true_iff in H1 as [H1|H1]; apply Z.eqb_eq in H1; auto.
    + intros Hl. rewrite Hl in H2. by apply Z.eqb_eq in H2.
  - intros Hall [e k] He. rewrite forallb_forall. intros t Ht. cbn [fst snd].
    destruct (is_owned (state e)) eqn:Ho; [|done].
    destruct (Hall e k t) as [H1 H2]; [by apply list_elem_of_In..|done|].
    apply andb_true_iff. split.
    + apply orb_true_iff. destruct H1 as [->| ->]; [left|right]; apply Z.eqb_refl.
    + destruct (live s i) eqn:El; [|done]. rewrite (H2 eq_refl). cbn. apply Z.eqb_refl.
Qed.

(** ** The moves of the engine and of the consumer *)

(** The consumer's write into a slot it holds, the eraser's into a slot it took. *)
Definition write_data (i : Z) (s : slab adev) : slab adev :=
  upd_dev s (put_data (sdev s) i (tenant (sdev s) i)).
Definition wipe_data (i : Z) (s : slab adev) : slab adev := upd_dev s (put_data (sdev s) i WIPED).
(** A slot handed out starts a new tenancy. *)
Definition new_tenant (i : Z) (s : slab adev) : slab adev :=
  let d := sdev s in
  upd_dev s (mkAdev (a_now d) (a_old d) (d_now d) (d_old d) (upd_fn (tenant d) i (tenant d i + 1)) (a_epoch d)
               (wfaults d) (ffaults d)).

Definition written (s : slab adev) (i : Z) : Prop := d_now (sdev s) i = tenant (sdev s) i.

(** Entries read before the locks were taken agree with the device while the
    epoch has not moved. *)
Definition pre_ok (s : slab adev) (pre : option Preread) : Prop :=
  match pre with
  | None => True
  | Some p => pre_epoch p = a_epoch (sdev s) ->
              forall i e, pre_entries p !! i = Some e -> e = fst (a_now (sdev s) i)
  end.

(** One operation after another, none overlapping.  A consumer confirms a slot,
    or shares it, once it has written it, and frees by plan only slots the plan
    found in the table; [allocate_gen], which writes an entry
    ahead of any data, is not one of the moves, and neither is opening a slab again. *)
Inductive step : slab adev -> slab adev -> Prop :=
| StAlloc now v e g i s s' :
    allocate_deferred now v e g s = (Ok i, s') -> step s (new_tenant i s')
| StAllocFails now v e g err s s' :
    allocate_deferred now v e g s = (Err err, s') -> step s s'
| StWrite i s :
    0 <= i < committed (commit s) -> live s i = true -> step s (write_data i s)
| StConfirm i s : written s i -> step s (confirm i s)
| StSync s r s' : sync s = (r, s') -> step s s'
| StFree i s r s' : 0 <= i -> free i s = (r, s') -> step s s'
| StFreePlanned l pre s r s' :
    Forall (fun i => 0 <= i < committed (commit s)) l -> pre_ok s (Some pre) ->
    free_planned l pre s = (r, s') -> step s s'
| StIncRef i s r s' : 0 <= i -> inc_ref i s = (r, s') -> step s s'
| StIncBatch l pre s r s' :
    Forall (fun i => 0 <= i /\ (is_unpublished s i = true -> written s i)) l -> pre_ok s pre ->
    inc_ref_batch l pre s = (r, s') -> step s s'
| StDecRef i s r s' :
    0 <= i -> (is_unpublished s i = true -> written s i) -> dec_ref i s = (r, s') -> step s s'
| StDecBatch l pre s r s' :
    Forall (fun i => 0 <= i /\ (is_unpublished s i = true -> written s i)) l -> pre_ok s pre ->
    dec_ref_batch l pre s = (r, s') -> step s s'
| StReassign i v e s r s' : 0 <= i -> reassign_slot i v e s = (r, s') -> step s s'
| StTakeErasing n s : step s (snd (take_erasing n s))
| StReturnErase i s : step s (return_erase i s)
| StEraseLevel l s : step s (set_erase_level l s)
| StEraseOverride l s : step s (set_erase_override l s)
| StWipe i s : is_Some (erasing_now (pend s) !! i) -> step s (wipe_data i s)
| StFinishErase i s r s' : finish_erase i s = (r, s') -> step s s'
| StRaiseRef i n s :
    0 <= i -> (is_unpublished s i = true -> written s i) -> step s (snd (raise_ref i n s))
| StAhead s : step s (snd (commit_ahead s))
| StCommitStep now h s r s' : commit_step now h s = (r, s') -> step s s'
| StGrow capacity now s r s' : grow capacity now s = (r, s') -> step s s'.

(** Any number of moves. *)
Inductive reaches : slab adev -> slab adev -> Prop :=
| ReachHere s : reaches s s
| ReachStep s1 s2 s3 : reaches s1 s2 -> step s2 s3 -> reaches s1 s3.

(** A slab just formatted: its committed entries are zeroed and flushed; past them,
    and in the data, the device may hold anything.  Its table writes succeed (flushes may
    fail): a free whose write fails breaks the rule, see [SlabCrashTraces]. *)
Record formatted_dev (d : adev) (cap : Z) : Prop := {
  fd_entries : forall i, 0 <= i < cap -> is_owned (state (fst (a_now d i))) = false /\ a_old d i = [];
  fd_writes : wfaults d = [] }.
