(* ===== verification/SlabCrashProofs.v ===== *)
(** One slot under #171's rule: what the engine's queues, the entry in memory, the
    images on the device and the data may be together ([good]), and that each
    thing an operation does to a slot keeps it so. *)

From S2P Require Import Prelude SlabFormat FreeMap SlabState SlabCrash.

(** ** One slot, as far as the rule is concerned *)

Record view := mkView {
  v_free : bool; v_unp : bool; v_rdy : bool; v_fng : bool; v_rel : bool; v_era : bool;
  v_ent : option Slot; v_now : Slot * Z; v_old : list (Slot * Z); v_dn : Z; v_do : list Z; v_ten : Z }.

Definition in_map (m : FreeMap) (i : Z) : bool := (0 <=? i) && (i <? fm_len m).

Definition view_at (s : slab adev) (i : Z) : view :=
  let p := pend s in let d := sdev s in
  mkView (is_free (free_bitmap s) i || negb (in_map (free_bitmap s) i))
    (bool_decide (i ∈ unpublished p)) (bool_decide (i ∈ ready p)) (bool_decide (i ∈ freeing p))
    (bool_decide (i ∈ released p))
    (bool_decide (is_Some (erasing p !! i)) || bool_decide (is_Some (erasing_now p !! i)))
    (entries p !! i) (a_now d i) (a_old d i) (d_now d i) (d_old d i) (tenant d i).

Definition owned_img (ek : Slot * Z) : bool := is_owned (state (fst ek)).
Definition v_live (v : view) : bool := is_owned (state (default (fst (v_now v)) (v_ent v))).
(** Some image of the entry names a tenant. *)
Definition v_own (v : view) : Prop := Exists (fun ek => owned_img ek = true) (v_now v :: v_old v).

(** [w]: the slot was let go of and its entry is about to be written. *)
Record good (w : bool) (v : view) : Prop := {
  g_free : v_free v = true \/ v_rel v = true ->
    ~ v_own v /\ v_ent v = None /\ v_unp v = false /\ v_rdy v = false /\ v_fng v = false /\ v_era v = false;
  g_unp : v_unp v = true -> ~ v_own v /\ v_live v = true /\ v_ent v <> None;
  g_rdy : v_rdy v = true -> v_live v = true;
  g_gone : v_fng v = true \/ v_era v = true ->
    v_live v = false /\ (w = false -> owned_img (v_now v) = false /\ v_ent v = None);
  g_excl : v_fng v = true -> v_era v = false;
  g_write : w = true -> v_live v = false;
  g_pub : v_live v = true -> v_unp v = false -> owned_img (v_now v) = true;
  g_tag : Forall (fun ek => owned_img ek = true -> snd ek = v_ten v) (v_now v :: v_old v);
  g_dat : v_own v -> Forall (fun t => t = v_ten v \/ t = WIPED) (v_dn v :: v_do v);
  g_live : v_own v -> v_live v = true -> Forall (fun t => t = v_ten v) (v_dn v :: v_do v);
  g_conf : v_rdy v = true -> v_unp v = true -> v_dn v = v_ten v }.

(** *** What the moves do to one slot *)

Definition t_flush (v : view) : view :=
  mkView (v_free v) (v_unp v) (v_rdy v) (v_fng v) (v_rel v) (v_era v) (v_ent v) (v_now v) [] (v_dn v) [] (v_ten v).
(** The free map now lists a released slot. *)
Definition t_absorb (v : view) : view :=
  mkView (v_free v || v_rel v) (v_unp v) (v_rdy v) (v_fng v) false (v_era v) (v_ent v) (v_now v) (v_old v)
    (v_dn v) (v_do v) (v_ten v).
(** What was waiting for its free entry is released. *)
Definition t_release (v : view) : view :=
  mkView (v_free v) (v_unp v) (v_rdy v) false (v_rel v || v_fng v) (v_era v) (v_ent v) (v_now v) (v_old v)
    (v_dn v) (v_do v) (v_ten v).
Definition t_alloc (e : Slot) (v : view) : view :=
  mkView false true (v_rdy v) (v_fng v) (v_rel v) (v_era v) (Some e) (v_now v) (v_old v) (v_dn v) (v_do v)
    (v_ten v + 1).
Definition t_persist (v : view) : view :=
  mkView (v_free v) (v_unp v) (v_rdy v) (v_fng v) (v_rel v) (v_era v)
    (if v_unp v then v_ent v else None)
    (if v_unp v then slot_free else default (fst (v_now v)) (v_ent v), v_ten v) (v_now v :: v_old v)
    (v_dn v) (v_do v) (v_ten v).
Definition t_take_ready (v : view) : view :=
  mkView (v_free v) (v_unp v && negb (v_rdy v)) false (v_fng v) (v_rel v) (v_era v) (v_ent v) (v_now v) (v_old v)
    (v_dn v) (v_do v) (v_ten v).
Definition t_set (e : Slot) (v : view) : view :=
  mkView (v_free v) (v_unp v) (v_rdy v) (v_fng v) (v_rel v) (v_era v) (Some e) (v_now v) (v_old v)
    (v_dn v) (v_do v) (v_ten v).
Definition t_ready (v : view) : view :=
  mkView (v_free v) (v_unp v) true (v_fng v) (v_rel v) (v_era v) (v_ent v) (v_now v) (v_old v)
    (v_dn v) (v_do v) (v_ten v).
Definition t_unget (v : view) : view :=
  mkView true false false (v_fng v) (v_rel v) (v_era v) None (v_now v) (v_old v) (v_dn v) (v_do v) (v_ten v).
Definition t_let_go (v : view) : view :=
  mkView (v_free v) (v_unp v) false true (v_rel v) (v_era v) (Some slot_free) (v_now v) (v_old v)
    (v_dn v) (v_do v) (v_ten v).
Definition t_to_erase (e : Slot) (v : view) : view :=
  mkView (v_free v) false false (v_fng v) (v_rel v) true (Some e) (v_now v) (v_old v) (v_dn v) (v_do v) (v_ten v).
Definition t_erased (v : view) (still : bool) : view :=
  mkView (v_free v) (v_unp v) (v_rdy v) true (v_rel v) still (Some slot_free) (v_now v) (v_old v)
    (v_dn v) (v_do v) (v_ten v).
Definition t_data (t : Z) (v : view) : view :=
  mkView (v_free v) (v_unp v) (v_rdy v) (v_fng v) (v_rel v) (v_era v) (v_ent v) (v_now v) (v_old v)
    t (v_dn v :: v_do v) (v_ten v).

Lemma own_flush v : v_own (t_flush v) -> v_own v.
Proof. unfold v_own, t_flush. cbn. intros [H|H%Exists_nil]%Exists_cons; [by constructor|done]. Qed.

Lemma own_now v : owned_img (v_now v) = true -> v_own v.
Proof. intros. by constructor. Qed.

Lemma good_flush w v : good w v -> good w (t_flush v).
Proof.
  intros [G1 G2 G3 G4 GX G5 G6 G7 G8 G9 G10]. pose proof (own_flush v) as Ho.
  constructor; try exact G3; try exact G4; try exact GX; try exact G5; try exact G6; try exact G10.
  - intros H. destruct (G1 H) as (N & R). split; [by intros X%Ho|exact R].
  - intros H. destruct (G2 H) as (N & R). split; [by intros X%Ho|exact R].
  - cbn. apply Forall_cons in G7 as [? _]. constructor; [assumption|constructor].
  - intros Hown%Ho. specialize (G8 Hown). apply Forall_cons in G8 as [? _]. constructor; [assumption|constructor].
  - intros Hown%Ho Hl. specialize (G9 Hown Hl). apply Forall_cons in G9 as [? _]. constructor; [assumption|constructor].
Qed.

(** A slot in use is in none of the queues of those on their way out. *)
Lemma good_in_use w v : good w v -> v_live v = true ->
  v_free v = false /\ v_rel v = false /\ v_fng v = false /\ v_era v = false.
Proof.
  intros G Hl. assert (v_free v = true \/ v_rel v = true -> False) as Hf.
  { intros Hf. destruct (g_free w v G Hf) as (N & En & Hu & _). destruct N. by apply own_now, (g_pub w v G). }
  assert (v_fng v = true \/ v_era v = true -> False) as Hg.
  { intros Hg. destruct (g_gone w v G Hg). congruence. }
  split_and!; apply not_true_is_false; intros E; solve [apply Hf; auto|apply Hg; auto].
Qed.

(** A slot that is not in use is in none of the queues of those that are. *)
Lemma good_not_live w v : good w v -> v_live v = false -> v_unp v = false /\ v_rdy v = false.
Proof.
  intros G Hl. split.
  - destruct (v_unp v) eqn:E; [|done]. destruct (g_unp w v G E) as (_ & H & _). congruence.
  - destruct (v_rdy v) eqn:E; [|done]. pose proof (g_rdy w v G E). congruence.
Qed.

(** After a flush nothing is left of the entry a freed slot had. *)
Lemma good_released v : good false v -> good false (t_release (t_flush v)).
Proof.
  intros G. apply good_flush in G. pose proof (good_not_live _ _ G) as Hnl.
  destruct G as [G1 G2 G3 G4 GX G5 G6 G7 G8 G9 G10].
  constructor; try exact G2; try exact G3; try exact G5; try exact G6; try exact G7; try exact G8; try exact G9;
    try exact G10; try done.
  - cbn. intros [Hf|Hr]; [destruct (G1 (or_introl Hf)) as (N & R); split_and!; try done; apply R|].
    apply orb_true_iff in Hr as [Hr|Hf]; [destruct (G1 (or_intror Hr)) as (N & R); split_and!; try done; apply R|].
    destruct (G4 (or_introl Hf)) as [Hl Hn]. destruct (Hn eq_refl) as [Hn' He]. destruct (Hnl Hl) as [Hu Hr].
    split_and!; try done; [|by apply GX]. intros [Ho|Ho%Exists_nil]%Exists_cons; [cbn in Ho, Hn'; congruence|done].
  - intros [H|H]; [done|]. by apply G4; right.
Qed.

Lemma good_absorb w v : good w v -> good w (t_absorb v).
Proof.
  intros [G1 G2 G3 G4 GX G5 G6 G7 G8 G9 G10]. constructor; try assumption.
  cbn. intros [[Hf|Hf]%orb_true_iff|Hf]; [apply G1; by left|apply G1; by right|done].
Qed.

Lemma good_alloc e v :
  is_owned (state e) = true -> v_free v = true -> v_rel v = false -> good false v -> good false (t_alloc e v).
Proof.
  intros He Hf Hr [G1 G2 G3 G4 GX G5 G6 G7 G8 G9 G10].
  destruct (G1 (or_introl Hf)) as (Hno & Hent & Hu & Hrd & Hfn & Her).
  assert (~ v_own (t_alloc e v)) as Hno' by exact Hno.
  constructor; cbn; try done; try congruence.
  - intros [?|?]; congruence.
  - intros [?|?]; congruence.
  - apply Forall_forall. intros ek Hek Ho. destruct Hno. apply Exists_exists. eauto.
Qed.

Lemma live_persist v : (v_unp v = true -> v_ent v <> None) -> v_live (t_persist v) = v_live v.
Proof.
  intros He. unfold v_live, t_persist. cbn. destruct (v_unp v); [|done]. specialize (He eq_refl).
  by destruct (v_ent v).
Qed.

(** Writing the entry: of a slot let go of, this settles it. *)
Lemma good_persist w v : good w v -> good false (t_persist v).
Proof.
  intros [G1 G2 G3 G4 GX G5 G6 G7 G8 G9 G10].
  assert (v_live (t_persist v) = v_live v) as Hl.
  { apply live_persist. intros Hu. by destruct (G2 Hu) as (_ & _ & He). }
  assert (v_own (t_persist v) -> v_own v) as Ho.
  { unfold v_own at 1. cbn. intros [H|H]%Exists_cons; [|done]. unfold owned_img in H. cbn in H.
    destruct (v_unp v) eqn:Hu; [done|]. apply own_now, G6; [exact H|done]. }
  constructor; rewrite ?Hl; try done; try assumption.
  - intros H. destruct (G1 H) as (N & E & R & R'). rewrite R in *. split_and!; try done; try apply R'; [|cbn; by rewrite R].
    by intros X%Ho.
  - cbn. intros H. destruct (G2 H) as (N & L & E). rewrite H. split_and!; [by intros X%Ho|exact L|exact E].
  - cbn. intros H. destruct (G4 H) as [L _]. split; [exact L|]. intros _.
    assert (v_unp v = false) as Hu.
    { destruct (v_unp v) eqn:E; [|done]. destruct (G2 eq_refl) as (_ & ? & _). congruence. }
    rewrite Hu. split; [exact L|done].
  - cbn. intros L Hu. rewrite Hu. exact L.
  - cbn. constructor; [|exact G7]. done.
  - intros H%Ho. exact (G8 H).
  - intros H%Ho L. exact (G9 H L).
Qed.

(** Taking the ready slots out to publish them: the entry that follows finds the
    data durable. *)
Lemma good_publish v : good false v -> v_rdy v = true -> v_do v = [] -> good false (t_persist (t_take_ready v)).
Proof.
  intros G Hr Hd. pose proof (g_rdy _ _ G Hr) as Hl. pose proof (good_in_use _ _ G Hl) as (Hf & Hrl & Hfn & Her).
  destruct G as [G1 G2 G3 G4 GX G5 G6 G7 G8 G9 G10].
  assert (v_live (t_persist (t_take_ready v)) = true) as Hl'.
  { unfold v_live, t_persist, t_take_ready. cbn. rewrite Hr, andb_false_r. exact Hl. }
  assert (Forall (fun t => t = v_ten v) (v_dn v :: v_do v)) as Hdat.
  { rewrite Hd. destruct (v_unp v) eqn:Hu; [by repeat constructor; apply G10|].
    specialize (G9 (own_now v (G6 Hl eq_refl)) Hl). by rewrite Hd in G9. }
  constructor; rewrite ?Hl'; try done; cbn; rewrite ?Hr, ?andb_false_r; try done; try (intros [?|?]; congruence).
  - constructor; [|exact G7]. done.
  - intros _. eapply Forall_impl; [exact Hdat|]. auto.
Qed.

Lemma good_set e w v : is_owned (state e) = true -> v_live v = true -> good w v -> good w (t_set e v).
Proof.
  intros He Hl G. pose proof (good_in_use _ _ G Hl) as (Hf & Hrl & Hfn & Her).
  destruct G as [G1 G2 G3 G4 GX G5 G6 G7 G8 G9 G10].
  assert (v_live (t_set e v) = true) as Hl' by exact He.
  constructor; rewrite ?Hl'; try done; try assumption; cbn; try (intros [?|?]; congruence).
  - intros Hu. destruct (G2 Hu) as (N & _). split_and!; done.
  - intros Hw. specialize (G5 Hw). congruence.
  - intros _ Hu. by apply G6.
  - intros H _. exact (G9 H Hl).
Qed.

Lemma good_ready w v :
  v_live v = true -> (v_unp v = true -> v_dn v = v_ten v) -> good w v -> good w (t_ready v).
Proof.
  intros Hl Hd G. pose proof (good_in_use _ _ G Hl) as (Hf & Hrl & Hfn & Her).
  destruct G as [G1 G2 G3 G4 GX G5 G6 G7 G8 G9 G10].
  constructor; try assumption; cbn; auto. intros [?|?]; congruence.
Qed.

(** Let go of before it was ever published: the device already says free. *)
Lemma good_unget w v : v_unp v = true -> good w v -> good w (t_unget v).
Proof.
  intros Hu G. destruct (g_unp _ _ G Hu) as (N & L & E).
  pose proof (good_in_use _ _ G L) as (Hf & Hrl & Hfn & Her).
  destruct G as [G1 G2 G3 G4 GX G5 G6 G7 G8 G9 G10].
  assert (v_live (t_unget v) = false) as Hl.
  { unfold v_live. cbn. destruct (is_owned (state (fst (v_now v)))) eqn:F; [|done]. destruct N. by apply own_now. }
  constructor; rewrite ?Hl; try done; cbn; try (intros [?|?]; congruence).
Qed.

Lemma good_let_go v : v_live v = true -> v_unp v = false -> good false v -> good true (t_let_go v).
Proof.
  intros Hl Hu G. pose proof (good_in_use _ _ G Hl) as (Hf & Hrl & Hfn & Her).
  destruct G as [G1 G2 G3 G4 GX G5 G6 G7 G8 G9 G10].
  assert (v_live (t_let_go v) = false) as Hl' by done.
  constructor; rewrite ?Hl'; try done; try assumption; cbn; rewrite ?Hu; try done. intros [?|?]; congruence.
Qed.

Lemma good_to_erase e v :
  is_owned (state e) = false -> v_live v = true -> good false v -> good true (t_to_erase e v).
Proof.
  intros He Hl G. pose proof (good_in_use _ _ G Hl) as (Hf & Hrl & Hfn & Her).
  destruct G as [G1 G2 G3 G4 GX G5 G6 G7 G8 G9 G10].
  assert (v_live (t_to_erase e v) = false) as Hl' by exact He.
  constructor; rewrite ?Hl'; try done; try assumption; cbn; try (intros [?|?]; congruence); congruence.
Qed.

Lemma good_erased v :
  v_era v = true -> v_fng v = false -> good false v -> good true (t_erased v false).
Proof.
  intros Her Hfn G. pose proof (good_not_live _ _ G) as Hnl.
  destruct (g_gone _ _ G (or_intror Her)) as [Hl Hn]. destruct (Hnl Hl) as [Hu Hr].
  assert (~ (v_free v = true \/ v_rel v = true)) as Hfr.
  { intros X. destruct (g_free _ _ G X) as (_ & _ & _ & _ & _ & ?). congruence. }
  destruct G as [G1 G2 G3 G4 GX G5 G6 G7 G8 G9 G10].
  assert (v_live (t_erased v false) = false) as Hl' by done.
  constructor; rewrite ?Hl'; try done; try assumption; cbn; rewrite ?Hu, ?Hr; done.
Qed.

Lemma good_data t w v :
  (v_live v = true /\ t = v_ten v) \/ (v_live v = false /\ t = WIPED) -> good w v -> good w (t_data t v).
Proof.
  intros Ht [G1 G2 G3 G4 GX G5 G6 G7 G8 G9 G10].
  constructor; try assumption; cbn.
  - intros Ho. constructor; [|exact (G8 Ho)]. destruct Ht as [[_ ->]|[_ ->]]; auto.
  - intros Ho Hl. constructor; [|exact (G9 Ho Hl)]. destruct Ht as [[_ ->]|[Hl' _]]; [done|].
    change (v_live (t_data t v)) with (v_live v) in Hl. congruence.
  - intros Hr Hu. destruct Ht as [[_ ->]|[Hl' _]]; [done|]. destruct (G2 Hu) as (_ & ? & _). congruence.
Qed.
