(* ===== verification/SlabCrashSteps.v ===== *)
(** The slab keeps #171's rule: every operation moves every slot from one [good]
    state to another, so whatever a power cut keeps is safe. *)

From S2P Require Import Prelude SlabFormat FreeMap SlabState SlabCrash SlabCrashProofs.

(** ** The slab as a whole *)

(** Nothing is pending for this slot. *)
Definition idle (v : view) : Prop :=
  v_unp v = false /\ v_rdy v = false /\ v_fng v = false /\ v_rel v = false /\ v_era v = false /\ v_ent v = None.

(** [W]: slots let go of, their entries about to be written. *)
Record inv (W : gset Z) (s : slab adev) : Prop := {
  i_fm : fm_ok (free_bitmap s);
  i_len : fm_len (free_bitmap s) <= cm_cap (commit s);
  i_step : 0 <= cm_step (commit s);
  i_writes : wfaults (sdev s) = [];
  i_disj i : erasing (pend s) !! i = None \/ erasing_now (pend s) !! i = None;
  i_good i : 0 <= i < cm_cap (commit s) -> good (bool_decide (i ∈ W)) (view_at s i);
  i_idle i : ~ (0 <= i < cm_cap (commit s)) -> idle (view_at s i) }.

Lemma live_view s i : live s i = v_live (view_at s i).
Proof. done. Qed.

Lemma upd_dev_id (s : slab adev) : upd_dev s (sdev s) = s.
Proof. by destruct s. Qed.
Lemma upd_pend_id (s : slab adev) : upd_pend (fun p => p) s = s.
Proof. by destruct s. Qed.

(** On this device an entry is always read. *)
Lemma slot_now_is i (s : slab adev) : slot_now i s = (Ok (now_of s i), s).
Proof.
  unfold slot_now, now_of. destruct (entries (pend s) !! i); [done|]. cbn. by rewrite upd_dev_id.
Qed.

Lemma slot_with_is i pre s : pre_ok s pre -> slot_with i pre s = (Ok (now_of s i), s).
Proof.
  intros Hpre. unfold slot_with, now_of. destruct (entries (pend s) !! i); [done|].
  assert (table_read i s = (Ok (fst (a_now (sdev s) i)), s)) as Hr by (cbn; by rewrite upd_dev_id).
  destruct pre as [p|]; [|exact Hr]. cbn [tb_epoch adev_table].
  destruct (Z.eqb_spec (pre_epoch p) (a_epoch (sdev s))) as [E|]; [|exact Hr].
  destruct (pre_entries p !! i) as [e|] eqn:Hi; [|exact Hr]. cbn. by rewrite (Hpre E i e Hi).
Qed.

Lemma entry_bytes_is i (s : slab adev) :
  entry_bytes i s = (Ok (if decide (i ∈ unpublished (pend s)) then slot_free else now_of s i), s).
Proof. unfold entry_bytes. case_decide; [done|apply slot_now_is]. Qed.

Definition image_of (s : slab adev) (i : Z) : Z * Slot :=
  (i, if decide (i ∈ unpublished (pend s)) then slot_free else now_of s i).

Lemma entries_of_is l (s : slab adev) : entries_of l s = (Ok (map (image_of s) l), s).
Proof.
  induction l as [|i l IH]; [done|]. cbn [entries_of]. unfold bind. rewrite entry_bytes_is, IH. done.
Qed.

Lemma in_range_ok i (s : slab adev) r s' :
  in_range i s = (r, s') -> s' = s /\ (forall a, r = Ok a -> i < committed (commit s)).
Proof.
  unfold in_range. destruct (Z.leb_spec (committed (commit s)) i); intros [= <- <-]; split; try done.
Qed.

Lemma committed_le_cap c : committed c <= cm_cap c.
Proof. unfold committed. lia. Qed.

(** *** Writes to the device, slot by slot *)

Lemma foldl_put_frame es d :
  let d' := foldl put_entry d es in
  d_now d' = d_now d /\ d_old d' = d_old d /\ tenant d' = tenant d /\ a_epoch d' = a_epoch d
  /\ wfaults d' = wfaults d /\ ffaults d' = ffaults d.
Proof.
  revert d. induction es as [|[i e] es IH]; intros d; [done|]. cbn [foldl].
  destruct (IH (put_entry d (i, e))) as (-> & -> & -> & -> & -> & ->). done.
Qed.

Lemma foldl_put_other es d j :
  j ∉ map fst es -> a_now (foldl put_entry d es) j = a_now d j /\ a_old (foldl put_entry d es) j = a_old d j.
Proof.
  revert d. induction es as [|[i e] es IH]; intros d Hj; [done|]. cbn [foldl map fst] in *.
  destruct (IH (put_entry d (i, e))) as [-> ->]; [set_solver|]. cbn. unfold upd_fn.
  destruct (Z.eqb_spec j i); [set_solver|done].
Qed.

Lemma foldl_put_once (f : Z -> Slot) l d j :
  NoDup l -> j ∈ l ->
  let d' := foldl put_entry d (map (fun i => (i, f i)) l) in
  a_now d' j = (f j, tenant d j) /\ a_old d' j = a_now d j :: a_old d j.
Proof.
  revert d. induction l as [|i l IH]; intros d Hnd Hj; [set_solver|]. apply NoDup_cons in Hnd as [Hi Hnd].
  cbn [map foldl]. destruct (decide (j = i)) as [->|].
  - destruct (foldl_put_other (map (fun i => (i, f i)) l) (put_entry d (i, f i)) i) as [-> ->].
    { by rewrite map_map, map_id. }
    cbn. unfold upd_fn. by rewrite Z.eqb_refl.
  - destruct (IH (put_entry d (i, f i))) as [-> ->]; [done|set_solver|]. cbn. unfold upd_fn.
    by destruct (Z.eqb_spec j i).
Qed.

Lemma ad_write_ok d es : wfaults d = [] -> ad_write d es = (true, bump_epoch (foldl put_entry d es)).
Proof. intros Hw. unfold ad_write. rewrite Hw. destruct d. cbn in Hw. by rewrite Hw. Qed.

Lemma drop_written_entries p l j :
  entries (drop_written l p) !! j
  = if decide (j ∈ l /\ j ∉ unpublished p) then None else entries p !! j.
Proof.
  unfold drop_written. cbn. generalize (entries p). induction l as [|i l IH]; intros m; cbn [foldl].
  { rewrite decide_False by set_solver. done. }
  rewrite IH. destruct (decide (i ∈ unpublished p)) as [Hu|Hu].
  - destruct (decide (j = i)) as [->|].
    + rewrite !decide_False by set_solver. done.
    + by rewrite (decide_ext _ (j ∈ i :: l /\ j ∉ unpublished p)) by set_solver.
  - destruct (decide (j = i)) as [->|].
    + rewrite (decide_True (P := i ∈ i :: l /\ _)) by set_solver. rewrite lookup_delete_eq. by case_decide.
    + rewrite lookup_delete_ne by done. by rewrite (decide_ext _ (j ∈ i :: l /\ j ∉ unpublished p)) by set_solver.
Qed.

(** ** The whole slab, operation by operation *)

(** What an operation leaves of everything that is not per slot. *)
Record frame (s s' : slab adev) : Prop := {
  fr_fm : fm_ok (free_bitmap s) -> fm_ok (free_bitmap s');
  fr_len : fm_len (free_bitmap s') = fm_len (free_bitmap s);
  fr_commit : commit s' = commit s;
  fr_writes : wfaults (sdev s) = [] -> wfaults (sdev s') = [];
  fr_disj : (forall i, erasing (pend s) !! i = None \/ erasing_now (pend s) !! i = None) ->
            forall i, erasing (pend s') !! i = None \/ erasing_now (pend s') !! i = None }.

Lemma inv_frame W W' s s' :
  inv W s -> frame s s' ->
  (forall i, 0 <= i < cm_cap (commit s) -> good (bool_decide (i ∈ W)) (view_at s i) ->
             good (bool_decide (i ∈ W')) (view_at s' i)) ->
  (forall i, ~ (0 <= i < cm_cap (commit s)) -> idle (view_at s i) -> idle (view_at s' i)) ->
  inv W' s'.
Proof.
  intros [I1 I2 I3 I4 I5 I6 I7] [F1 F2 F3 F4 F5] Hg Hi.
  constructor; rewrite ?F2, ?F3; auto.
Qed.

(** An operation on slot [i] alone. *)
Lemma inv_one W W' i s s' :
  inv W s -> frame s s' -> 0 <= i < cm_cap (commit s) ->
  (forall j, j <> i -> view_at s' j = view_at s j) ->
  (forall j, j <> i -> (j ∈ W' <-> j ∈ W)) ->
  (good (bool_decide (i ∈ W)) (view_at s i) -> good (bool_decide (i ∈ W')) (view_at s' i)) ->
  inv W' s'.
Proof.
  intros HI HF Hi Ho HW Hg. apply (inv_frame W W' s s' HI HF).
  - intros j Hj. destruct (decide (j = i)) as [->|Hne]; [exact Hg|]. rewrite (Ho j Hne).
    by rewrite (bool_decide_ext _ _ (HW j Hne)).
  - intros j Hj. rewrite Ho; [done|]. intros ->. lia.
Qed.

Lemma persist_ok l (s : slab adev) :
  wfaults (sdev s) = [] ->
  exists s', persist_slots l s = (Ok (), s') /\ frame s s'
    /\ (forall j, view_at s' j = if decide (j ∈ l) then t_persist (view_at s j) else view_at s j)
    /\ free_bitmap s' = free_bitmap s /\ free_count s' = free_count s.
Proof.
  intros Hw. destruct l as [|i0 l0].
  { exists s. split_and!; try done. }
  set (l := i0 :: l0). set (idxs := sort_dedup l).
  assert (persist_slots l s = (Ok (), upd_pend (drop_written idxs)
            (upd_dev s (bump_epoch (foldl put_entry (sdev s) (map (image_of s) idxs)))))) as Hrun.
  { unfold persist_slots, l, bind. fold l idxs. rewrite entries_of_is. unfold dev_op, modify. cbn [tb_write adev_table].
    by rewrite ad_write_ok. }
  exists (upd_pend (drop_written idxs) (upd_dev s (bump_epoch (foldl put_entry (sdev s) (map (image_of s) idxs))))).
  split; [exact Hrun|].
  destruct (foldl_put_frame (map (image_of s) idxs) (sdev s)) as (Hdn & Hdo & Hten & Hep & Hwf & Hff).
  split_and!; try done.
  - constructor; try done. intros _.
    change (wfaults (foldl put_entry (sdev s) (map (image_of s) idxs)) = []). congruence.
  - intros j. unfold view_at. cbn [pend sdev upd_pend upd_dev free_bitmap bump_epoch a_now a_old d_now d_old tenant].
    rewrite Hdn, Hdo, Hten, drop_written_entries. cbn [unpublished ready freeing released erasing erasing_now drop_written set_entries].
    destruct (decide (j ∈ l)) as [Hj|Hj].
    + assert (j ∈ idxs) as Hj' by by apply elem_of_sort_dedup.
      assert (a_now (foldl put_entry (sdev s) (map (image_of s) idxs)) j = (snd (image_of s j), tenant (sdev s) j)
              /\ a_old (foldl put_entry (sdev s) (map (image_of s) idxs)) j = a_now (sdev s) j :: a_old (sdev s) j)
        as [-> ->].
      { apply (foldl_put_once (fun i => snd (image_of s i))); [apply sort_dedup_NoDup|done]. }
      unfold t_persist, image_of. cbn [v_free v_unp v_rdy v_fng v_rel v_era v_ent v_now v_old v_dn v_do v_ten snd]. f_equal.
      * destruct (decide (j ∈ unpublished (pend s))); [rewrite decide_False by tauto|rewrite decide_True by done];
          [by rewrite bool_decide_true|by rewrite bool_decide_false].
      * f_equal. case_decide; [by rewrite bool_decide_true|by rewrite bool_decide_false].
    + assert (j ∉ idxs) as Hj' by (unfold idxs; by rewrite elem_of_sort_dedup).
      destruct (foldl_put_other (map (image_of s) idxs) (sdev s) j) as [-> ->].
      { unfold image_of. by rewrite map_map, map_id. }
      by rewrite decide_False by tauto.
Qed.

Lemma idle_persist v : idle v -> idle (t_persist v).
Proof. intros (Hu & Hr & Hf & Hrl & He & Hen). unfold idle, t_persist. cbn. rewrite Hu. by split_and!. Qed.

Lemma inv_unp_ent W s i : inv W s -> v_unp (view_at s i) = true -> v_ent (view_at s i) <> None.
Proof.
  intros HI Hu. destruct (decide (0 <= i < cm_cap (commit s))) as [Hi|Hi].
  - by apply (g_unp _ _ (i_good _ _ HI i Hi)).
  - destruct (i_idle _ _ HI i Hi) as (? & _). congruence.
Qed.

(** Writing the entries of what was let go of settles it. *)
Lemma inv_persist W l s :
  inv W s -> (forall i, i ∈ W -> i ∈ l) ->
  exists s', persist_slots l s = (Ok (), s') /\ inv ∅ s' /\ commit s' = commit s
    /\ (forall i, live s' i = live s i) /\ (forall i, is_erasing s' i = is_erasing s i)
    /\ free_bitmap s' = free_bitmap s /\ free_count s' = free_count s.
Proof.
  intros HI HW. destruct (persist_ok l s (i_writes _ _ HI)) as (s' & Hrun & HF & Hv & Hrest).
  exists s'. split; [exact Hrun|]. split; [|split_and!; try apply Hrest; [apply (fr_commit _ _ HF)| |]].
  - apply (inv_frame W ∅ s s' HI HF).
    + intros i Hi Hg. rewrite Hv. replace (bool_decide (i ∈ ∅)) with false by by_decide.
      destruct (decide (i ∈ l)); [by eapply good_persist|].
      rewrite bool_decide_false in Hg; [done|]. auto.
    + intros i Hi Hid. rewrite Hv. destruct (decide (i ∈ l)); [by apply idle_persist|done].
  - intros i. rewrite !live_view, Hv. destruct (decide (i ∈ l)); [|done]. by eapply live_persist, inv_unp_ent.
  - intros i. change (v_era (view_at s' i) = v_era (view_at s i)). rewrite Hv. by case_decide.
Qed.

(** *** Operations on one slot in memory *)

Ltac view_cbn :=
  unfold view_at, t_set, t_ready, t_unget, t_let_go, t_to_erase, t_erased, t_data;
  cbn [pend sdev free_bitmap upd_pend upd_dev upd_map set_entries set_unpublished set_ready set_freeing set_released
       set_erasing set_erasing_now set_by_volume unpublished ready freeing released erasing erasing_now entries
       v_free v_unp v_rdy v_fng v_rel v_era v_ent v_now v_old v_dn v_do v_ten].
Ltac view_field :=
  first
  [ done
  | apply bool_decide_ext; set_solver
  | rewrite bool_decide_true by set_solver; reflexivity
  | rewrite bool_decide_false by set_solver; reflexivity
  | (by rewrite lookup_insert_eq)
  | (by rewrite lookup_insert_ne by done)
  | (by rewrite lookup_delete_eq)
  | (by rewrite lookup_delete_ne by done) ].
Ltac view_eq := view_cbn; f_equal; try view_field.

Lemma is_free_set m i b j :
  0 <= i < fm_len m -> 0 <= j -> is_free (fm_set m i b) j = if decide (j = i) then b else is_free m j.
Proof.
  intros Hi Hj. unfold is_free, fm_len, zlen in *. rewrite fm_set_bits by lia. case_decide as Hd.
  - subst. rewrite list_lookup_insert_eq; [done|lia].
  - rewrite list_lookup_insert_ne; [done|lia].
Qed.

Lemma in_map_spec m i : in_map m i = true <-> 0 <= i < fm_len m.
Proof. unfold in_map. rewrite andb_true_iff, Z.leb_le, Z.ltb_lt. done. Qed.

Lemma fm_set_map m i b j : 0 <= i < fm_len m ->
  is_free (fm_set m i b) j || negb (in_map (fm_set m i b) j)
  = if decide (j = i) then b else is_free m j || negb (in_map m j).
Proof.
  intros Hi. unfold in_map. rewrite fm_set_len by lia. destruct (Z.leb_spec 0 j); cbn.
  - rewrite is_free_set by lia. case_decide; [|done]. subst. destruct (Z.ltb_spec i (fm_len m)); [|lia].
    by rewrite orb_false_r.
  - rewrite !orb_true_r. case_decide; [lia|done].
Qed.

Lemma used_in_map s i : v_free (view_at s i) = false -> 0 <= i < fm_len (free_bitmap s).
Proof. intros [_ Hm]%orb_false_iff. apply in_map_spec. by apply negb_false_iff. Qed.

Lemma live_in_use W s i :
  inv W s -> 0 <= i < cm_cap (commit s) -> live s i = true ->
  (i ∉ W) /\ v_free (view_at s i) = false /\ v_rel (view_at s i) = false /\ v_fng (view_at s i) = false
  /\ v_era (view_at s i) = false.
Proof.
  intros HI Hi Hl. pose proof (i_good _ _ HI i Hi) as G. rewrite live_view in Hl. split.
  - intros HW. rewrite bool_decide_true in G by done. pose proof (g_write _ _ G eq_refl). congruence.
  - by eapply good_in_use.
Qed.

Lemma set_slot_ok W i e s :
  inv W s -> 0 <= i < cm_cap (commit s) -> live s i = true -> is_owned (state e) = true ->
  inv W (set_slot i e s) /\ sdev (set_slot i e s) = sdev s /\ commit (set_slot i e s) = commit s
  /\ live (set_slot i e s) i = true.
Proof.
  intros HI Hi Hl He. split_and!; try done.
  - apply (inv_one W W i s); try done.
    + intros j Hj. unfold set_slot. view_eq.
    + intros G. replace (view_at (set_slot i e s) i) with (t_set e (view_at s i)) by (unfold set_slot; view_eq).
      by apply good_set.
  - unfold live, now_of, set_slot. cbn. by rewrite lookup_insert_eq.
Qed.

Lemma add_ready_ok W i s :
  inv W s -> 0 <= i < cm_cap (commit s) -> live s i = true ->
  (is_unpublished s i = true -> written s i) -> inv W (add_ready i s).
Proof.
  intros HI Hi Hl Hw. apply (inv_one W W i s); try done.
  - intros j Hj. unfold add_ready. view_eq.
  - intros G. replace (view_at (add_ready i s) i) with (t_ready (view_at s i)) by (unfold add_ready; view_eq).
    apply good_ready; [exact Hl|exact Hw|exact G].
Qed.

(** The three ways out of [retire]. *)
Definition to_erase (i : Z) (level : EraseLevel) (v : VolumeId) (e : Slot) (by_volume : gmap VolumeId Z -> gmap VolumeId Z)
    (s : slab adev) : slab adev :=
  upd_pend (fun p => set_by_volume by_volume (set_erasing (insert i (level, v))
    (set_unpublished (fun u => u ∖ {[i]}) (set_ready (fun r => r ∖ {[i]}) (set_entries (insert i e) p))))) s.
Definition to_map (i : Z) (s : slab adev) : slab adev :=
  upd_map (upd_pend (fun p => set_entries (delete i) (set_unpublished (fun u => u ∖ {[i]}) (set_ready (fun r => r ∖ {[i]}) p))) s)
    (fm_set (free_bitmap s) i true) (free_count s + 1).
Definition to_freeing (i : Z) (s : slab adev) : slab adev :=
  upd_pend (fun p => set_freeing (fun l => l ++ [i]) (set_entries (insert i slot_free) (set_ready (fun r => r ∖ {[i]}) p))) s.

Lemma retire_cases i s :
  (exists level v e f, is_owned (state e) = false /\
     (retire i s = (Ok true, to_erase i level v e f s) \/ retire i s = (Ok true, count_retired (to_erase i level v e f s))))
  \/ (is_unpublished s i = true /\ retire i s = (Ok false, to_map i s))
  \/ (is_unpublished s i = false /\ retire i s = (Ok true, to_freeing i s)).
Proof.
  unfold retire. destruct (decide (erase_level_now s <> ENone)) as [He|He].
  - left. rewrite slot_now_is. eexists _, _, (mkSlot Erasing _ _ _ _), _. split; [reflexivity|].
    instantiate (1 := fun m => if bool_decide (erasing (pend s) !! i = None) then _ m else m).
    cbn. case_match; [right|left]; reflexivity.
  - right. unfold is_unpublished. cbn. case_decide as Hu.
    + left. split; [by apply bool_decide_true|done].
    + right. split; [by apply bool_decide_false|done].
Qed.

Section retire.
Context (W : gset Z) (i : Z) (s : slab adev).
Context (HI : inv W s) (Hi : 0 <= i < cm_cap (commit s)) (Hl : live s i = true).

Lemma to_erase_ok level v e f : is_owned (state e) = false -> inv ({[i]} ∪ W) (to_erase i level v e f s).
Proof using HI Hi Hl.
  intros He. destruct (live_in_use W s i HI Hi Hl) as (HW & Hf & Hrl & Hfn & Her).
  apply (inv_one W _ i s); try done.
  - constructor; try done. intros Hd j. cbn. destruct (decide (j = i)) as [->|Hj].
    + right. apply orb_false_iff in Her as [_ Hn]. apply bool_decide_eq_false in Hn.
      by apply eq_None_not_Some.
    + rewrite lookup_insert_ne by done. apply Hd.
  - intros j Hj. unfold to_erase. view_eq.
  - set_solver.
  - intros G. rewrite bool_decide_false in G by done. rewrite bool_decide_true by set_solver.
    replace (view_at _ i) with (t_to_erase e (view_at s i)); [by apply good_to_erase|].
    unfold to_erase. view_eq.
Qed.

Lemma to_map_ok : is_unpublished s i = true -> inv W (to_map i s).
Proof using HI Hi Hl.
  intros Hu. destruct (live_in_use W s i HI Hi Hl) as (HW & Hf & Hrl & Hfn & Her).
  pose proof (used_in_map s i Hf) as Hm.
  apply (inv_one W _ i s); try done.
  - constructor; try done; cbn; intros; [by apply fm_set_ok; [lia|]|by rewrite fm_set_len by lia].
  - intros j Hj. unfold to_map. view_eq. by rewrite fm_set_map, decide_False.
  - intros G.
    replace (view_at _ i) with (t_unget (view_at s i)); [by apply good_unget|].
    unfold to_map. view_eq. by rewrite fm_set_map, decide_True.
Qed.

Lemma to_freeing_ok : is_unpublished s i = false -> inv ({[i]} ∪ W) (to_freeing i s).
Proof using HI Hi Hl.
  intros Hu. destruct (live_in_use W s i HI Hi Hl) as (HW & Hf & Hrl & Hfn & Her).
  apply (inv_one W _ i s); try done.
  - intros j Hj. unfold to_freeing. view_eq.
  - set_solver.
  - intros G. rewrite bool_decide_false in G by done. rewrite bool_decide_true by set_solver.
    replace (view_at _ i) with (t_let_go (view_at s i)); [by apply good_let_go|].
    unfold to_freeing. view_eq.
Qed.
End retire.

Lemma inv_count_retired W s : inv W s -> inv W (count_retired s).
Proof. by intros []. Qed.

Lemma retire_ok W i s :
  inv W s -> 0 <= i < cm_cap (commit s) -> live s i = true ->
  exists b s', retire i s = (Ok b, s') /\ inv (if b then {[i]} ∪ W else W) s' /\ sdev s' = sdev s
    /\ commit s' = commit s /\ live s' i = false /\ (forall j, j <> i -> live s' j = live s j)
    /\ (forall j, is_unpublished s' j = true -> is_unpublished s j = true).
Proof.
  intros HI Hi Hl. unfold live, now_of, is_unpublished. setoid_rewrite bool_decide_eq_true.
  destruct (retire_cases i s) as [(lv & v & e & f & He & Hr)|[[Hu Hr]|[Hu Hr]]].
  - pose proof (to_erase_ok W i s HI Hi Hl lv v e f He) as HI'.
    destruct Hr as [Hr|Hr]; rewrite Hr; eexists _, _; (split; [reflexivity|]); split_and!; try done;
      try (by apply inv_count_retired); cbn; try (by rewrite lookup_insert_eq);
      intros j Hj; try (by rewrite lookup_insert_ne by done); set_solver.
  - rewrite Hr. eexists _, _. split; [reflexivity|]. split_and!; [by apply to_map_ok|done|done| | |];
      cbn; [|intros j Hj; by rewrite lookup_delete_ne by done|set_solver].
    rewrite lookup_delete_eq. cbn. apply not_true_is_false. intros Ho.
    destruct (g_unp _ _ (i_good _ _ HI i Hi) Hu) as (N & _). by apply N, own_now.
  - rewrite Hr. eexists _, _. split; [reflexivity|]. split_and!; [by apply to_freeing_ok|done|done| | |done];
      cbn; [by rewrite lookup_insert_eq|intros j Hj; by rewrite lookup_insert_ne by done].
Qed.

(** *** Data: the consumer's writes, the eraser's, discards *)

Lemma put_data_ok W i t s :
  inv W s -> (0 <= i < cm_cap (commit s) -> (live s i = true /\ t = tenant (sdev s) i) \/ (live s i = false /\ t = WIPED)) ->
  inv W (upd_dev s (put_data (sdev s) i t)).
Proof.
  intros HI Ht.
  assert (view_at (upd_dev s (put_data (sdev s) i t)) i = t_data t (view_at s i)) as Hi.
  { view_cbn. cbn. unfold upd_fn. by rewrite Z.eqb_refl. }
  assert (forall j, j <> i -> view_at (upd_dev s (put_data (sdev s) i t)) j = view_at s j) as Ho.
  { intros j Hj. view_cbn. cbn. unfold upd_fn. by rewrite (proj2 (Z.eqb_neq j i) Hj). }
  apply (inv_frame W W s); [done|by constructor|..]; intros j Hj; destruct (decide (j = i)) as [->|Hne];
    rewrite ?Hi, ?(Ho j) by done; try done.
  apply good_data. by apply Ht.
Qed.

(** The runs hold exactly the slots given. *)
Lemma discard_runs_cover start stop slots x :
  start <= stop ->
  (exists r, r ∈ discard_runs start stop slots /\ fst r <= x <= snd r) <-> start <= x <= stop \/ x ∈ slots.
Proof.
  revert start stop. induction slots as [|i slots IH]; intros start stop Hs; cbn [discard_runs].
  - split.
    + intros (r & ->%list_elem_of_singleton & Hr). left. exact Hr.
    + intros [Hx|Hx%elem_of_nil]; [|done]. exists (start, stop). split; [by left|exact Hx].
  - rewrite elem_of_cons. destruct (Z.eqb_spec i (stop + 1)) as [->|Hne].
    + rewrite IH by lia. split; intros [Hx|Hx]; try (by right; right); [|by left; lia|];
        [destruct (decide (x = stop + 1)); [by right; left|left; lia]|destruct Hx as [->|Hx]; [left; lia|by right]].
    + setoid_rewrite elem_of_cons. specialize (IH i i ltac:(lia)). split.
      * intros (r & [->|Hr] & Hx); [by left|]. destruct (proj1 IH (ex_intro _ r (conj Hr Hx))) as [Hi|Hi]; [|by right; right].
        right. left. lia.
      * intros [Hx|Hx]; [exists (start, stop); by split; [left|]|].
        destruct (proj2 IH) as (r & Hr & Hx'); [destruct Hx as [->|Hx]; [left; lia|by right]|].
        exists r. split; [by right|done].
Qed.

Lemma runs_of_cover l x : (exists r, r ∈ runs_of l /\ fst r <= x <= snd r) <-> x ∈ l.
Proof.
  rewrite <- (elem_of_sort_dedup x l). unfold runs_of. destruct (sort_dedup l) as [|i r].
  - split; [intros (r & Hr & _)|intros H]; by apply elem_of_nil in H || apply elem_of_nil in Hr.
  - rewrite discard_runs_cover, elem_of_cons by lia. split; intros [H|H]; try (by right); left; lia.
Qed.

Lemma foldl_wipe_now l d t : a_now (foldl (fun d i => put_data d i t) d l) = a_now d.
Proof. revert d. induction l as [|i l IH]; intros d; [done|]. cbn [foldl]. by rewrite IH. Qed.

Lemma wipe_list_ok W l s :
  inv W s -> (forall i, i ∈ l -> live s i = false) ->
  inv W (upd_dev s (foldl (fun d i => put_data d i WIPED) (sdev s) l)).
Proof.
  revert s. induction l as [|i l IH]; intros s HI Hl; cbn [foldl]; [by rewrite upd_dev_id|].
  apply (IH (upd_dev s (put_data (sdev s) i WIPED))).
  - apply put_data_ok; [done|]. intros _. right. split; [apply Hl; by left|done].
  - intros j Hj. apply Hl. by right.
Qed.

Lemma discard_ok W l s :
  inv W s -> (forall i, i ∈ l -> live s i = false) ->
  inv W (discard_slots l s) /\ commit (discard_slots l s) = commit s.
Proof.
  intros HI Hl. split; [|done]. unfold discard_slots. pose proof (runs_of_cover l) as Hc.
  assert (forall x, (exists r, r ∈ runs_of l /\ fst r <= x <= snd r) -> live s x = false) as Hr.
  { intros x Hx. apply Hl. by apply Hc. }
  clear Hc Hl. revert s HI Hr. induction (runs_of l) as [|r rs IH]; intros s HI Hr; cbn [foldl]; [by rewrite upd_dev_id|].
  apply (IH (upd_dev s (tb_discard (sdev s) (fst r) (snd r)))).
  - apply wipe_list_ok; [done|]. intros i Hi. apply Hr. exists r. split; [by left|].
    apply elem_of_zrange in Hi. lia.
  - intros x (r' & Hr' & Hx). unfold live, now_of. cbn [tb_discard adev_table pend sdev upd_dev].
    unfold ad_discard. rewrite foldl_wipe_now. apply Hr. exists r'. split; [by right|done].
Qed.

(** *** Letting slots go *)

(** An operation that begins by reading the entry of a slot in range. *)
Lemma read_ok {A} i (k : Slot -> M adev A) s r s' :
  0 <= i -> inv ∅ s -> (0 <= i < cm_cap (commit s) -> k (now_of s i) s = (r, s') -> inv ∅ s') ->
  bind (in_range i) (fun _ => bind (slot_now i) k) s = (r, s') -> inv ∅ s'.
Proof.
  intros Hi0 HI Hk. unfold bind at 1. destruct (in_range i s) as [r0 s0] eqn:Hin.
  destruct (in_range_ok _ _ _ _ Hin) as [-> Hc]. destruct r0 as [[]|]; [|by intros [= <- <-]].
  specialize (Hc () eq_refl). pose proof (committed_le_cap (commit s)).
  unfold bind. rewrite slot_now_is. apply Hk. lia.
Qed.

Lemma set_persist_ok i e s :
  inv ∅ s -> 0 <= i < cm_cap (commit s) -> live s i = true -> is_owned (state e) = true ->
  exists s', bind (modify (set_slot i e)) (fun _ => persist_slot i) s = (Ok (), s') /\ inv ∅ s'.
Proof.
  intros HI Hi Hl He. destruct (set_slot_ok ∅ i e s HI Hi Hl He) as (HI1 & _).
  destruct (inv_persist _ [i] _ HI1 ltac:(set_solver)) as (s2 & Hp & HI2 & _). by exists s2.
Qed.

Lemma free_ok i s r s' : 0 <= i -> inv ∅ s -> free i s = (r, s') -> inv ∅ s'.
Proof.
  intros Hi0 HI. apply read_ok; [done|done|]. intros Hi. cbv beta.
  destruct (is_owned (state (now_of s i))) eqn:Hl; [|by intros [= <- <-]].
  destruct (retire_ok ∅ i s HI Hi Hl) as (b & s1 & Hr & HI1 & _ & Hc1 & Hl1 & _).
  unfold bind at 1. rewrite Hr. intros Hrun.
  assert (exists s2, (if b then persist_slot i else ret ()) s1 = (Ok (), s2) /\ inv ∅ s2 /\ live s2 i = false)
    as (s2 & Hp & HI2 & Hl2).
  { destruct b; [|by exists s1]. destruct (inv_persist _ [i] s1 HI1 ltac:(set_solver)) as (s2 & Hp & HI2 & _ & Hlv & _).
    exists s2. by rewrite Hlv. }
  unfold bind in Hrun. rewrite Hp in Hrun. injection Hrun as <- <-.
  destruct (is_erasing s2 i); [done|]. apply discard_ok; [done|]. set_solver.
Qed.

Lemma pre_ok_dev s s' pre : sdev s' = sdev s -> pre_ok s pre -> pre_ok s' pre.
Proof. unfold pre_ok. by intros ->. Qed.

Lemma in_range_in (s : slab adev) i : i < committed (commit s) -> in_range i s = (Ok (), s).
Proof. intros Hi. unfold in_range. destruct (Z.leb_spec (committed (commit s)) i); [lia|done]. Qed.

Lemma free_planned_loop_ok l pre : forall write n W s,
  Forall (fun i => 0 <= i < committed (commit s)) l -> pre_ok s (Some pre) -> inv W s -> (forall i, i ∈ W -> i ∈ write) ->
  exists w m s' W', free_planned_loop l pre write n s = (Ok (w, m), s') /\ inv W' s' /\ (forall i, i ∈ W' -> i ∈ w).
Proof.
  induction l as [|i l IH]; intros write n W s Hl Hpre HI HW; cbn [free_planned_loop]; [by eexists _, _, _, _|].
  apply Forall_cons in Hl as [Hi Hl]. pose proof (committed_le_cap (commit s)).
  unfold bind. rewrite in_range_in, slot_with_is by (done || lia).
  destruct (is_owned (state (now_of s i))) eqn:Hlv; [|by eapply IH].
  destruct (retire_ok W i s HI ltac:(lia) Hlv) as (b & s1 & -> & HI1 & Hd & Hc & _).
  apply (IH _ _ (if b then {[i]} ∪ W else W)); [by rewrite Hc|by eapply pre_ok_dev|done|].
  destruct b; [set_solver|done].
Qed.

Lemma free_planned_ok l pre s r s' :
  Forall (fun i => 0 <= i < committed (commit s)) l -> pre_ok s (Some pre) -> inv ∅ s ->
  free_planned l pre s = (r, s') -> inv ∅ s'.
Proof.
  intros Hl Hpre HI. destruct (free_planned_loop_ok l pre [] 0 ∅ s Hl Hpre HI ltac:(set_solver)) as (w & m & s1 & W & Hr & HI1 & HW).
  destruct (inv_persist W w s1 HI1 HW) as (s2 & Hp & HI2 & _).
  unfold free_planned, bind. rewrite Hr. cbn [fst]. rewrite Hp. by intros [= <- <-].
Qed.

(** *** Reference counts *)

Lemma with_refs_state e n : state (with_refs e n) = state e.
Proof. done. Qed.

Lemma inc_ref_ok i s r s' : 0 <= i -> inv ∅ s -> inc_ref i s = (r, s') -> inv ∅ s'.
Proof.
  intros Hi0 HI. apply read_ok; [done|done|]. intros Hi. cbv beta.
  destruct (is_owned (state (now_of s i))) eqn:Hl; [|by intros [= <- <-]].
  destruct (set_persist_ok i (with_refs (now_of s i) (ref_count (now_of s i) + 1)) s HI Hi Hl Hl) as (s2 & -> & ?).
  by intros [= <- <-].
Qed.

Lemma reassign_ok i v x s r s' : 0 <= i -> inv ∅ s -> reassign_slot i v x s = (r, s') -> inv ∅ s'.
Proof.
  intros Hi0 HI. apply read_ok; [done|done|]. intros Hi. cbv beta.
  destruct (is_owned (state (now_of s i))) eqn:Hl; [|by intros [= <- <-]].
  destruct (set_persist_ok i (mkSlot (state (now_of s i)) v x (ref_count (now_of s i)) (generation (now_of s i) + 1)) s
              HI Hi Hl Hl) as (s2 & -> & ?). by intros [= <- <-].
Qed.

Lemma owned_unless e n : negb (is_owned (state e)) || (n =? 0) = false -> is_owned (state e) = true.
Proof. intros [H _]%orb_false_iff. by apply negb_false_iff. Qed.

Lemma set_ready_ok W i e s :
  inv W s -> 0 <= i < cm_cap (commit s) -> live s i = true -> is_owned (state e) = true ->
  (is_unpublished s i = true -> written s i) -> inv W (add_ready i (set_slot i e s)).
Proof.
  intros HI Hi Hl He Hw. destruct (set_slot_ok W i e s HI Hi Hl He) as (HI1 & _ & _ & Hl1). by apply add_ready_ok.
Qed.

Lemma dec_ref_ok i s r s' :
  0 <= i -> (is_unpublished s i = true -> written s i) -> inv ∅ s -> dec_ref i s = (r, s') -> inv ∅ s'.
Proof.
  intros Hi0 Hw HI. apply read_ok; [done|done|]. intros Hi. cbv beta.
  destruct (negb _ || _) eqn:Hl; [by intros [= <- <-]|]. apply owned_unless in Hl.
  cbv zeta. set (e := with_refs _ _). destruct (set_slot_ok ∅ i e s HI Hi Hl Hl) as (HI1 & _).
  destruct (ref_count e =? 0).
  - unfold bind, modify. destruct (free i (set_slot i e s)) as [r1 s1] eqn:Hf.
    pose proof (free_ok i _ _ _ Hi0 HI1 Hf) as HI2. destruct r1; unfold ret; by intros [= _ <-].
  - unfold bind, modify. intros [= <- <-]. by apply set_ready_ok.
Qed.

Lemma raise_ref_ok i n s :
  0 <= i -> (is_unpublished s i = true -> written s i) -> inv ∅ s -> inv ∅ (snd (raise_ref i n s)).
Proof.
  intros Hi0 Hw HI. unfold raise_ref. destruct (Z.leb_spec (committed (commit s)) i) as [|Hi]; [done|].
  pose proof (committed_le_cap (commit s)). rewrite slot_now_is.
  destruct (is_owned (state (now_of s i)) && _) eqn:Hl; [|done]. apply andb_true_iff in Hl as [Hl _].
  apply set_ready_ok; try done. lia.
Qed.

Lemma check_owned_is l pre : forall s r s',
  pre_ok s pre -> check_owned l pre s = (r, s') ->
  s' = s /\ forall es, r = Ok es ->
    es = map (fun i => (i, now_of s i)) l /\ Forall (fun i => i < committed (commit s) /\ live s i = true) l.
Proof.
  induction l as [|i l IH]; intros s r s' Hpre; cbn [check_owned].
  { intros [= <- <-]. split; [done|]. intros es [= <-]. by split; [|constructor]. }
  unfold bind at 1. destruct (in_range i s) as [r0 s0] eqn:Hin. destruct (in_range_ok _ _ _ _ Hin) as [-> Hc].
  destruct r0 as [[]|]; [|by intros [= <- <-]]. specialize (Hc () eq_refl).
  unfold bind at 1. rewrite slot_with_is by done. destruct (is_owned (state (now_of s i))) eqn:Hl; [|by intros [= <- <-]].
  unfold bind. destruct (check_owned l pre s) as [r1 s1] eqn:Hk. destruct (IH s r1 s1 Hpre Hk) as [-> He].
  destruct r1 as [es|]; [|by intros [= <- <-]]. destruct (He es eq_refl) as [-> Hf].
  intros [= <- <-]. split; [done|]. intros es' [= <-]. split; [done|]. by constructor.
Qed.

(** Every entry [bump_refs] makes is one of those given, its count apart. *)
Lemma bump_refs_from (P : Z -> Prop) es :
  Forall (fun ie => P (fst ie) /\ is_owned (state (snd ie)) = true) es ->
  forall i e, bump_refs es !! i = Some e -> P i /\ is_owned (state e) = true.
Proof.
  unfold bump_refs. intros Hes.
  assert (forall m : gmap Z Slot, (forall i e, m !! i = Some e -> P i /\ is_owned (state e) = true) ->
    forall i e, foldl (fun m ie => let e := default (snd ie) (m !! fst ie) in
                     <[fst ie := with_refs e (ref_count e + 1)]> m) m es !! i = Some e -> P i /\ is_owned (state e) = true) as Hg.
  { induction Hes as [|[i0 e0] es [Hp Ho] Hes IH]; intros m Hm; cbn [foldl]; [done|]. apply IH. cbn [fst snd] in *.
    intros i e He. destruct (decide (i = i0)) as [->|].
    - rewrite lookup_insert_eq in He. injection He as <-. split; [done|]. rewrite with_refs_state.
      destruct (m !! i0) as [e1|] eqn:Hm0; [by apply (Hm i0)|done].
    - rewrite lookup_insert_ne in He by done. by apply Hm. }
  apply Hg. intros i e He. by rewrite lookup_empty in He.
Qed.

Lemma inc_ref_batch_ok l pre s r s' :
  Forall (fun i => 0 <= i /\ (is_unpublished s i = true -> written s i)) l -> pre_ok s pre -> inv ∅ s ->
  inc_ref_batch l pre s = (r, s') -> inv ∅ s'.
Proof.
  intros Hl Hpre HI. unfold inc_ref_batch, bind. destruct (check_owned l pre s) as [r1 s1] eqn:Hk.
  destruct (check_owned_is l pre s r1 s1 Hpre Hk) as [-> He]. destruct r1 as [es|]; [|by intros [= <- <-]].
  destruct (He es eq_refl) as [-> Hf]. intros [= <- <-]. set (b := bump_refs _).
  assert (forall i e, b !! i = Some e ->
    (0 <= i < cm_cap (commit s) /\ live s i = true /\ (is_unpublished s i = true -> written s i)) /\ is_owned (state e) = true) as Hb.
  { apply bump_refs_from, Forall_map, Forall_forall. intros i Hi. pose proof (committed_le_cap (commit s)).
    rewrite Forall_forall in Hl, Hf. destruct (Hl i Hi), (Hf i Hi). cbn. split_and!; try done; lia. }
  assert (forall i, view_at (upd_pend (fun p => set_ready (fun r => dom b ∪ r) (set_entries (fun m => b ∪ m) p)) s) i
    = match b !! i with Some e => t_ready (t_set e (view_at s i)) | None => view_at s i end) as Hv.
  { intros i. destruct (b !! i) as [e|] eqn:Hbi; view_cbn; f_equal.
    - apply bool_decide_true, elem_of_union_l, elem_of_dom. by eexists.
    - by rewrite (lookup_union_Some_l _ _ _ _ Hbi).
    - apply bool_decide_ext. rewrite elem_of_union, elem_of_dom, Hbi. split; [intros [[]|]; done|by right].
    - by rewrite lookup_union, Hbi, (left_id_L None _). }
  apply (inv_frame ∅ ∅ s); [done|by constructor|..]; intros i Hi HG; rewrite Hv;
    destruct (b !! i) as [e|] eqn:Hbi; try done; destruct (Hb i e Hbi) as [(Hr & Hlv & Hw) Ho]; [|done].
  by apply good_ready, good_set.
Qed.

(** What [dec_ref_batch] maintains while it walks its slots. *)
Record dec_inv (pre : option Preread) (rest : list Z) (d : dec_state) (W : gset Z) (s : slab adev) : Prop := {
  di_inv : inv W s;
  di_pre : pre_ok s pre;
  di_touched i : i ∈ W -> i ∈ dc_touched d;
  di_freed i : i ∈ dc_freed d -> 0 <= i < cm_cap (commit s) /\ live s i = false;
  di_rest : Forall (fun i => 0 <= i /\ (is_unpublished s i = true -> written s i)) rest }.

Lemma rest_shrinks s s' rest :
  sdev s' = sdev s -> (forall j, is_unpublished s' j = true -> is_unpublished s j = true) ->
  Forall (fun i => 0 <= i /\ (is_unpublished s i = true -> written s i)) rest ->
  Forall (fun i => 0 <= i /\ (is_unpublished s' i = true -> written s' i)) rest.
Proof.
  intros Hd Hu H. eapply Forall_impl; [exact H|]. cbn. clear H. intros i [H0 Hw]. split; [done|]. intros H. unfold written. rewrite Hd. by apply Hw, Hu.
Qed.

Lemma dec_one_ok pre i rest d W s :
  dec_inv pre (i :: rest) d W s ->
  exists d' s' W', dec_one i pre d s = (Ok d', s') /\ dec_inv pre rest d' W' s'.
Proof.
  intros [J1 J2 J3 J4 J5]. apply Forall_cons in J5 as [[Hi0 Hw] J5]. pose proof (committed_le_cap (commit s)).
  unfold dec_one. case_decide; [by eexists _, s, W|]. unfold bind at 1, gets.
  destruct (Z.leb_spec (committed (commit s)) i) as [|Hi]; [by eexists _, s, W|].
  unfold bind at 1. rewrite slot_with_is by done. destruct (negb _ || _) eqn:Hl; [by eexists _, s, W|].
  apply owned_unless in Hl. cbv zeta. set (e := with_refs _ _). assert (0 <= i < cm_cap (commit s)) as Hic by lia.
  assert (forall j, j ∈ dc_freed d -> j <> i) as Hne by (intros j Hj ->; destruct (J4 i Hj); unfold live in *; congruence).
  destruct (0 <? ref_count e).
  - unfold bind, modify. eexists _, (add_ready i (set_slot i e s)), W. split; [reflexivity|].
    split; [by apply set_ready_ok|done|done| |done]. cbn [dc_freed]. intros j Hj. destruct (J4 j Hj) as [? Hlv]. split; [done|].
    rewrite <- Hlv. unfold live, now_of. cbn. rewrite lookup_insert_ne; [done|]. by apply not_eq_sym, Hne.
  - destruct (retire_ok W i s J1 Hic Hl) as (b & s1 & Hr & HI1 & Hd1 & Hc1 & Hl1 & Ho1 & Hu1).
    unfold bind. rewrite Hr. eexists _, s1, _. split; [reflexivity|]. split; cbn [dc_touched dc_freed].
    + exact HI1.
    + by eapply pre_ok_dev.
    + destruct b; set_solver.
    + rewrite Hc1. intros j [Hj|Hj%list_elem_of_singleton]%elem_of_app; [|by subst].
      rewrite Ho1 by auto. by apply J4.
    + by eapply rest_shrinks.
Qed.

Lemma dec_loop_ok pre l : forall d W s,
  dec_inv pre l d W s -> exists d' s' W', dec_loop l pre d s = (Ok d', s') /\ dec_inv pre [] d' W' s'.
Proof.
  induction l as [|i l IH]; intros d W s HJ; cbn [dec_loop]; [by eexists _, _, _|].
  destruct (dec_one_ok pre i l d W s HJ) as (d1 & s1 & W1 & H1 & HJ1). unfold bind. rewrite H1. by eapply IH.
Qed.

Lemma dec_ref_batch_ok l pre s :
  Forall (fun i => 0 <= i /\ (is_unpublished s i = true -> written s i)) l -> pre_ok s pre -> inv ∅ s ->
  exists out s', dec_ref_batch l pre s = (Ok out, s') /\ inv ∅ s'.
Proof.
  intros Hl Hpre HI. unfold dec_ref_batch, bind.
  destruct (dec_loop_ok pre l (mkDec ∅ [] [] (mkOutcome 0 0 [])) ∅ s) as (d & s1 & W & Hr & HJ).
  { split; try done; cbn; set_solver. }
  rewrite Hr. destruct (inv_persist W (dc_touched d) s1 (di_inv _ _ _ _ _ HJ) (di_touched _ _ _ _ _ HJ))
    as (s2 & Hp & HI2 & Hc2 & Hl2 & _).
  rewrite Hp. unfold modify. eexists _, _. split; [reflexivity|]. apply discard_ok; [done|].
  intros i Hi. rewrite Hl2. apply list_elem_of_filter in Hi as [_ Hi]. by apply (di_freed _ _ _ _ _ HJ).
Qed.

(** *** The eraser *)

Definition take_one (p : Pending) (i : Z) : Pending :=
  match erasing p !! i with
  | Some j => set_erasing_now (insert i j) (set_erasing (delete i) p)
  | None => p
  end.

Lemma take_one_ok W i s : inv W s -> inv W (upd_pend (fun p => take_one p i) s).
Proof.
  intros HI. pose proof (i_disj _ _ HI) as Hdj.
  assert (take_one (pend s) i = match erasing (pend s) !! i with
            | Some j => set_erasing_now (insert i j) (set_erasing (delete i) (pend s)) | None => pend s end) as Ht by done.
  destruct (erasing (pend s) !! i) as [j|] eqn:He.
  - assert (forall k, view_at (upd_pend (fun p => take_one p i) s) k = view_at s k) as Hv.
    { intros k. unfold view_at. cbn [pend upd_pend sdev free_bitmap]. rewrite Ht. view_cbn. f_equal.
      destruct (decide (k = i)) as [->|].
      - rewrite lookup_delete_eq, lookup_insert_eq, He. by rewrite (bool_decide_false (is_Some None)) by (by intros []).
      - by rewrite lookup_delete_ne, lookup_insert_ne by done. }
    apply (inv_frame W W s); [done| |intros k _; by rewrite Hv|intros k _; by rewrite Hv].
    constructor; try done. cbn [pend upd_pend]. rewrite Ht. cbn. intros _ k. destruct (decide (k = i)) as [->|].
    + left. apply lookup_delete_eq.
    + rewrite lookup_delete_ne, lookup_insert_ne by done. apply Hdj.
  - replace (upd_pend _ s) with s; [done|]. unfold upd_pend. rewrite Ht. by destruct s.
Qed.

Lemma take_erasing_fold l : forall (s : slab adev) W,
  inv W s -> inv W (upd_pend (fun p => foldl take_one p l) s).
Proof.
  induction l as [|i l IH]; intros s W HI; cbn [foldl]; [by rewrite upd_pend_id|].
  exact (IH (upd_pend (fun p => take_one p i) s) W (take_one_ok W i s HI)).
Qed.

Lemma take_erasing_ok n s : inv ∅ s -> inv ∅ (snd (take_erasing n s)).
Proof. intros HI. unfold take_erasing. by apply take_erasing_fold. Qed.

Lemma return_erase_ok i s : inv ∅ s -> inv ∅ (return_erase i s).
Proof.
  intros HI. unfold return_erase. destruct (erasing_now (pend s) !! i) as [j|] eqn:He; [|done].
  assert (forall k, view_at (upd_pend (fun p => set_erasing (insert i j) (set_erasing_now (delete i) p)) s) k = view_at s k) as Hv.
  { intros k. view_cbn. f_equal. destruct (decide (k = i)) as [->|].
    - rewrite lookup_delete_eq, lookup_insert_eq, He. by rewrite (bool_decide_true (is_Some (Some j))), orb_true_r by done.
    - by rewrite lookup_delete_ne, lookup_insert_ne by done. }
  apply (inv_frame ∅ ∅ s); [done| |intros k _; by rewrite Hv|intros k _; by rewrite Hv].
  constructor; try done. cbn. intros Hdj k. destruct (decide (k = i)) as [->|].
  - right. apply lookup_delete_eq.
  - rewrite lookup_delete_ne, lookup_insert_ne by done. apply Hdj.
Qed.

(** Erased: out of the queue, its free entry to be written. *)
Definition erased (i : Z) (f : gmap VolumeId Z -> gmap VolumeId Z) (p : Pending) : Pending :=
  set_freeing (fun l => l ++ [i]) (set_entries (insert i slot_free) (set_by_volume f p)).

Lemma erased_ok i f (out : Pending -> Pending) s :
  inv ∅ s -> is_erasing s i = true ->
  (out = set_erasing_now (delete i) /\ erasing (pend s) !! i = None
   \/ out = set_erasing (delete i) /\ erasing_now (pend s) !! i = None) ->
  inv {[i]} (upd_pend (fun p => erased i f (out p)) s).
Proof.
  intros HI Her Hout.
  assert (0 <= i < cm_cap (commit s)) as Hi.
  { apply dec_stable. intros Hi. destruct (i_idle _ _ HI i Hi) as (_ & _ & _ & _ & He & _).
    change (v_era (view_at s i) = true) in Her. congruence. }
  assert (v_fng (view_at s i) = false) as Hfn.
  { apply not_true_is_false. intros Hf. pose proof (g_excl _ _ (i_good _ _ HI i Hi) Hf) as He.
    change (v_era (view_at s i) = true) in Her. congruence. }
  apply (inv_one ∅ _ i s); try done.
  - constructor; try done. cbn. intros Hdj j.
    destruct Hout as [[-> Ho]|[-> Ho]]; cbn; (destruct (decide (j = i)) as [->|]; [rewrite lookup_delete_eq; auto|rewrite lookup_delete_ne by done; apply Hdj]).
  - intros j Hj. destruct Hout as [[-> _]|[-> _]]; unfold erased; view_eq; by rewrite lookup_delete_ne by done.
  - set_solver.
  - intros G. rewrite bool_decide_true by set_solver.
    replace (view_at _ i) with (t_erased (view_at s i) false); [by apply good_erased|].
    destruct Hout as [[-> Ho]|[-> Ho]]; unfold erased; view_eq; rewrite lookup_delete_eq, Ho;
      by rewrite !(bool_decide_false (is_Some None)) by (by intros []).
Qed.

Lemma finish_erase_ok i s r s' : inv ∅ s -> finish_erase i s = (r, s') -> inv ∅ s'.
Proof.
  intros HI. pose proof (i_disj _ _ HI i) as Hdj.
  assert (forall f out, is_erasing s i = true ->
    (out = set_erasing_now (delete i) /\ erasing (pend s) !! i = None
     \/ out = set_erasing (delete i) /\ erasing_now (pend s) !! i = None) ->
    persist_slot i (upd_pend (fun _ => erased i f (out (pend s))) s) = (r, s') -> inv ∅ s') as Hk.
  { intros f out Her Hout. pose proof (erased_ok i f out s HI Her Hout) as HI1.
    destruct (inv_persist _ [i] _ HI1 ltac:(set_solver)) as (s2 & Hp & HI2 & _).
    change (upd_pend (fun _ => erased i f (out (pend s))) s) with (upd_pend (fun p => erased i f (out p)) s).
    unfold persist_slot. rewrite Hp. by intros [= <- <-]. }
  unfold finish_erase, is_erasing in *.
  destruct (erasing_now (pend s) !! i) as [[lv v]|] eqn:Hn.
  - apply Hk; [by rewrite orb_true_r|]. left. split; [done|]. by destruct Hdj.
  - destruct (erasing (pend s) !! i) as [[lv v]|] eqn:He; [|by intros [= <- <-]].
    apply Hk; [done|]. by right.
Qed.

(** *** Flushes and syncs *)

Lemma flush_cases (s : slab adev) :
  (exists d, flush s = (Ok (), upd_dev s d) /\ a_now d = a_now (sdev s) /\ a_old d = (fun _ => []) /\ d_now d = d_now (sdev s)
     /\ d_old d = (fun _ => []) /\ tenant d = tenant (sdev s) /\ wfaults d = wfaults (sdev s))
  \/ (exists d, flush s = (Err EIo, upd_dev s d) /\ a_now d = a_now (sdev s) /\ a_old d = a_old (sdev s) /\ d_now d = d_now (sdev s)
     /\ d_old d = d_old (sdev s) /\ tenant d = tenant (sdev s) /\ wfaults d = wfaults (sdev s)).
Proof.
  unfold flush, dev_op. cbn [tb_flush adev_table]. unfold ad_flush.
  destruct (ffaults (sdev s)) as [|[] f]; [left|right|left]; eexists; (split; [reflexivity|]); done.
Qed.

(** After a flush the device keeps only what it was last sent. *)
Definition settled (s : slab adev) : Prop := forall i, a_old (sdev s) i = [] /\ d_old (sdev s) i = [].

Lemma flush_ok W s :
  inv W s -> exists r s', flush s = (r, s') /\ inv W s' /\ pend s' = pend s /\ free_bitmap s' = free_bitmap s
    /\ commit s' = commit s /\ (forall i, a_now (sdev s') i = a_now (sdev s) i)
    /\ (forall a, r = Ok a -> settled s' /\ forall i, view_at s' i = t_flush (view_at s i)).
Proof.
  intros HI. destruct (flush_cases s) as [(d & Hf & Hn & Ho & Hdn & Hdo & Ht & Hw)|(d & Hf & Hn & Ho & Hdn & Hdo & Ht & Hw)];
    rewrite Hf; eexists _, _; (split; [reflexivity|]).
  - assert (forall i, view_at (upd_dev s d) i = t_flush (view_at s i)) as Hv.
    { intros i. view_cbn. by rewrite Hn, Ho, Hdn, Hdo, Ht. }
    split_and!; try done; [|intros i; cbn; by rewrite Hn|intros _ _; split; [|done]; intros i; cbn; by rewrite Ho, Hdo].
    apply (inv_frame W W s); [done|by constructor; try done; cbn; rewrite Hw| |]; intros i Hi HG; rewrite Hv; [by apply good_flush|done].
  - assert (forall i, view_at (upd_dev s d) i = view_at s i) as Hv.
    { intros i. view_cbn. by rewrite Hn, Ho, Hdn, Hdo, Ht. }
    split_and!; try done; [|intros i; cbn; by rewrite Hn].
    apply (inv_frame W W s); [done|by constructor; try done; cbn; rewrite Hw| |]; intros i Hi HG; by rewrite Hv.
Qed.

Lemma idle_release v : idle v -> idle (t_release (t_flush v)).
Proof. intros (? & ? & Hf & Hr & ? & ?). unfold idle, t_release, t_flush. cbn. rewrite Hf, Hr. by split_and!. Qed.
Lemma idle_take_ready v : idle v -> idle (t_take_ready v).
Proof. intros (Hu & ? & ? & ? & ? & ?). unfold idle, t_take_ready. cbn. rewrite Hu. by split_and!. Qed.

Lemma sync_release_ok s r s' :
  inv ∅ s -> sync_flush (fst (sync_take s)) (snd (sync_take s)) = (r, s') ->
  inv ∅ s' /\ commit s' = commit s /\ free_bitmap s' = free_bitmap s /\ ready (pend s') = ready (pend s)
  /\ forall a, r = Ok a -> settled s'.
Proof.
  intros HI. unfold sync_flush, sync_take. cbn [fst snd]. set (s0 := upd_pend (set_freeing (fun _ => [])) s).
  destruct (flush_cases s0) as [(d & Hf & Hn & Ho & Hdn & Hdo & Ht & Hw)|(d & Hf & Hn & Ho & Hdn & Hdo & Ht & Hw)];
    rewrite Hf; intros [= <- <-].
  - assert (forall i, view_at (upd_pend (set_released (fun l => l ++ freeing (pend s))) (upd_dev s0 d)) i
              = t_release (t_flush (view_at s i))) as Hv.
    { intros i. unfold s0, t_release, t_flush. view_cbn. rewrite Hn, Ho, Hdn, Hdo, Ht. f_equal.
      rewrite <- bool_decide_or. apply bool_decide_ext. by rewrite elem_of_app. }
    split_and!; try done; [|intros _ _ i; cbn; by rewrite Ho, Hdo].
    apply (inv_frame ∅ ∅ s); [done|by constructor; try done; cbn; rewrite Hw| |]; intros i Hi HG; rewrite Hv.
    + by apply good_released.
    + by apply idle_release.
  - split_and!; try done.
    assert (forall i, view_at (upd_pend (set_freeing (fun l => l ++ freeing (pend s))) (upd_dev s0 d)) i = view_at s i) as Hv.
    { intros i. unfold s0. view_cbn. by rewrite Hn, Ho, Hdn, Hdo, Ht. }
    apply (inv_frame ∅ ∅ s); [done|by constructor; try done; cbn; rewrite Hw| |]; intros i Hi HG; by rewrite Hv.
Qed.

Lemma publish_ready_ok s r s' : inv ∅ s -> settled s -> publish_ready s = (r, s') -> inv ∅ s'.
Proof.
  intros HI Hs. unfold publish_ready. set (rd := sorted_elements (ready (pend s))).
  set (newly := filter _ rd). set (s1 := upd_pend _ s).
  assert (forall i, i ∈ rd <-> i ∈ ready (pend s)) as Hrd.
  { intros i. unfold rd, sorted_elements. by rewrite elem_of_sort_dedup, elem_of_elements. }
  assert (forall i, view_at s1 i = t_take_ready (view_at s i)) as Hv1.
  { intros i. unfold s1, t_take_ready. view_cbn. f_equal.
    rewrite <- bool_decide_not, <- bool_decide_and. apply bool_decide_ext. rewrite elem_of_difference, elem_of_list_to_set.
    unfold newly. rewrite list_elem_of_filter, Hrd. tauto. }
  assert (forall i, i ∉ rd -> view_at s1 i = view_at s i) as Hv0.
  { intros i Hi. rewrite Hv1. unfold t_take_ready, view_at. cbn. rewrite Hrd in Hi.
    rewrite (bool_decide_false (i ∈ ready _)) by done. by rewrite andb_true_r. }
  assert (frame s s1) as HF by by constructor.
  assert (forall i, idle (view_at s i) -> idle (view_at s1 i)) as Hidle.
  { intros i Hi. rewrite Hv1. by apply idle_take_ready. }
  destruct (persist_ok rd s1 (fr_writes _ _ HF (i_writes _ _ HI))) as (s2 & Hp & HF2 & Hv2 & _).
  assert (inv ∅ s2) as HI2.
  { apply (inv_frame ∅ ∅ s); [done|..].
    - destruct HF as [F1 F2 F3 F4 F5], HF2 as [E1 E2 E3 E4 E5].
      constructor; [auto|by rewrite E2, F2|by rewrite E3, F3|auto|auto].
    - intros i Hi HG. rewrite Hv2. destruct (decide (i ∈ rd)) as [Hir|Hir]; [|by rewrite Hv0].
      rewrite Hv1. apply good_publish; [done|by apply bool_decide_true, Hrd|apply Hs].
    - intros i Hi HG%Hidle. rewrite Hv2. case_decide; [by apply idle_persist|done]. }
  destruct rd as [|i0 rd0] eqn:Erd; [|rewrite Hp; by intros [= <- <-]].
  intros [= <- <-]. cbn in Hp. unfold ret in Hp. by injection Hp as <-.
Qed.

Lemma sync_ok s r s' : inv ∅ s -> sync s = (r, s') -> inv ∅ s'.
Proof.
  intros HI. unfold sync. destruct (sync_take s) as [taken s0] eqn:Ht. unfold bind at 1.
  destruct (sync_flush taken s0) as [r1 s1] eqn:Hf.
  destruct (sync_release_ok s r1 s1 HI) as (HI1 & _ & _ & _ & Hs); [by rewrite Ht|].
  destruct r1 as [a|]; [|by intros [= <- <-]]. specialize (Hs a eq_refl). unfold sync_publish, bind.
  destruct (publish_ready s1) as [r2 s2] eqn:Hp. pose proof (publish_ready_ok _ _ _ HI1 Hs Hp) as HI2.
  destruct r2 as [[]|]; [|by intros [= <- <-]..].
  destruct (flush_ok ∅ s2 HI2) as (r3 & s3 & -> & HI3 & _). by intros [= <- <-].
Qed.

(** *** Taking slots *)

Definition map_free (m : FreeMap) (j : Z) : bool := is_free m j || negb (in_map m j).

Lemma map_free_set m i j :
  0 <= i -> map_free (fm_set m i true) j = map_free m j || bool_decide (j = i).
Proof.
  intros Hi. destruct (decide (i < fm_len m)) as [Hlt|Hge].
  - unfold map_free. rewrite fm_set_map by lia. destruct (decide (j = i)) as [->|Hne].
    + by rewrite (bool_decide_true (i = i)), orb_true_r.
    + by rewrite bool_decide_false, orb_false_r.
  - assert (fm_set m i true = m) as -> by (unfold fm_set; destruct (Z.leb_spec (fm_len m) i); [done|lia]).
    destruct (decide (j = i)) as [->|Hne]; [|by rewrite bool_decide_false, orb_false_r].
    unfold map_free. assert (in_map m i = false) as ->; [|by rewrite orb_true_r].
    apply not_true_is_false. rewrite in_map_spec. lia.
Qed.

Lemma absorb_fold {D} `{TableDev D} r : forall s : slab D, Forall (fun i => 0 <= i) r ->
  let s' := foldl (fun s i => if is_free (free_bitmap s) i then s
                    else upd_map s (fm_set (free_bitmap s) i true) (free_count s + 1)) s r in
  (fm_ok (free_bitmap s) -> fm_ok (free_bitmap s')) /\ fm_len (free_bitmap s') = fm_len (free_bitmap s)
  /\ commit s' = commit s /\ sdev s' = sdev s /\ pend s' = pend s
  /\ forall j, map_free (free_bitmap s') j = map_free (free_bitmap s) j || bool_decide (j ∈ r).
Proof.
  induction r as [|i r IH]; intros s Hr; cbn [foldl].
  { split_and!; try done. intros j. by rewrite bool_decide_false, orb_false_r by (by apply not_elem_of_nil). }
  apply Forall_cons in Hr as [Hi Hr]. destruct (is_free (free_bitmap s) i) eqn:Hf.
  - destruct (IH s Hr) as (H1 & H2 & H3 & H4 & H5 & H6). split_and!; try done. intros j. rewrite H6.
    destruct (decide (j = i)) as [->|]; [unfold map_free; by rewrite Hf|].
    f_equal. apply bool_decide_ext. rewrite elem_of_cons. tauto.
  - destruct (IH (upd_map s (fm_set (free_bitmap s) i true) (free_count s + 1)) Hr) as (H1 & H2 & H3 & H4 & H5 & H6).
    split_and!; try done.
    + intros. apply H1. by apply fm_set_ok.
    + rewrite H2. by apply fm_set_len.
    + intros j. rewrite H6. cbn [free_bitmap upd_map]. rewrite map_free_set by done. rewrite <- orb_assoc. f_equal.
      rewrite <- bool_decide_or. apply bool_decide_ext. by rewrite elem_of_cons.
Qed.

Lemma view_map_free s i : v_free (view_at s i) = map_free (free_bitmap s) i.
Proof. done. Qed.

Lemma idle_absorb v : idle v -> idle (t_absorb v).
Proof. intros (? & ? & ? & ? & ? & ?). by split_and!. Qed.

Lemma absorb_ok W s :
  inv W s -> inv W (absorb_released s) /\ commit (absorb_released s) = commit s
  /\ released (pend (absorb_released s)) = [] /\ sdev (absorb_released s) = sdev s.
Proof.
  intros HI. unfold absorb_released. set (s0 := upd_pend (set_released (fun _ => [])) s).
  assert (Forall (fun i => 0 <= i) (released (pend s))) as Hr.
  { apply Forall_forall. intros i Hi. apply dec_stable. intros Hneg.
    destruct (i_idle _ _ HI i ltac:(lia)) as (_ & _ & _ & Hrl & _). cbn in Hrl. apply bool_decide_eq_false in Hrl. done. }
  destruct (absorb_fold (released (pend s)) s0 Hr) as (H1 & H2 & H3 & H4 & H5 & H6).
  set (s' := foldl _ s0 _) in *. split_and!; [|by rewrite H3|by rewrite H5|by rewrite H4].
  assert (forall i, view_at s' i = t_absorb (view_at s i)) as Hv.
  { intros i. unfold view_at at 1. rewrite H4, H5. change (is_free (free_bitmap s') i || negb (in_map (free_bitmap s') i))
      with (map_free (free_bitmap s') i). rewrite H6. unfold s0, t_absorb. view_cbn. done. }
  apply (inv_frame W W s); [done| |intros i Hi HG; rewrite Hv; by apply good_absorb|intros i Hi HG; rewrite Hv; by apply idle_absorb].
  constructor; [exact H1|by rewrite H2|by rewrite H3|by rewrite H4|by rewrite H5].
Qed.

Lemma reclaim_ok s r s' :
  inv ∅ s -> released (pend s) = [] -> reclaim_freeing s = (r, s') ->
  inv ∅ s' /\ released (pend s') = [] /\ commit s' = commit s.
Proof.
  intros HI Hrl. unfold reclaim_freeing. destruct (freeing (pend s)) as [|i0 f0] eqn:Hfr; [by intros [= <- <-]|].
  destruct (sync_flush (fst (sync_take s)) (snd (sync_take s))) as [r1 s1] eqn:Hsy.
  destruct (sync_release_ok s r1 s1 HI Hsy) as (HI1 & Hc1 & _). revert Hsy. unfold sync_flush, sync_take. cbn [fst snd].
  rewrite Hfr. set (s0 := upd_pend (set_freeing (fun _ => [])) s).
  destruct (flush_cases s0) as [(d & Hf & _)|(d & Hf & _)]; rewrite Hf; intros [= <- <-] [= <- <-].
  - destruct (absorb_ok ∅ _ HI1) as (HI2 & Hc2 & Hr2 & _). split_and!; [exact HI2|exact Hr2|]. by rewrite Hc2.
  - by split_and!.
Qed.

(** Grown with free slots, a map says of no slot more than it did. *)
Lemma map_free_resize m n : fm_len m <= n ->
  fm_len (fm_resize m n true) = n /\ forall i, map_free (fm_resize m n true) i = map_free m i.
Proof.
  intros Hn. pose proof (zlen_nonneg (bits m)) as Hnn. fold (fm_len m) in Hnn.
  assert (fm_len (fm_resize m n true) = n) as Hlen.
  { unfold fm_len, zlen, fm_resize, recount, resize_bits in *. cbn. rewrite length_app, length_take, length_replicate. lia. }
  split; [exact Hlen|]. intros i. unfold map_free, in_map. rewrite Hlen. destruct (Z.leb_spec 0 i); [|by rewrite !orb_true_r]. cbn [andb].
  unfold is_free, fm_resize, recount, resize_bits. cbn [bits]. unfold fm_len, zlen in *.
  destruct (Z.ltb_spec i (Z.of_nat (length (bits m)))).
  - rewrite lookup_app_l by (rewrite length_take; lia). rewrite lookup_take_lt by lia. by destruct (Z.ltb_spec i n); [|lia].
  - rewrite orb_true_r. destruct (Z.ltb_spec i n); [|by rewrite orb_true_r].
    rewrite lookup_app_r by (rewrite length_take; lia). rewrite lookup_replicate_2; [done|rewrite length_take; lia].
Qed.

Lemma take_committed_ok W s : inv W s -> inv W (take_committed s) /\ pend (take_committed s) = pend s
  /\ sdev (take_committed s) = sdev s.
Proof.
  intros HI. unfold take_committed. destruct (Z.ltb_spec (fm_len (free_bitmap s)) (committed (commit s))) as [Hlt|]; [|done].
  split_and!; try done. pose proof (committed_le_cap (commit s)).
  destruct (map_free_resize (free_bitmap s) (committed (commit s)) ltac:(lia)) as [Hlen Hm].
  assert (forall i n, view_at (upd_map s (fm_resize (free_bitmap s) (committed (commit s)) true) n) i = view_at s i) as Hv.
  { intros i n. unfold view_at. cbn [free_bitmap upd_map]. f_equal. apply Hm. }
  destruct HI as [I1 I2 I3 I4 I5 I6 I7]. constructor; try done.
  - cbn. rewrite Hlen. lia.
  - intros i Hi. rewrite Hv. by apply I6.
Qed.

(** *** Committing more of the table *)

Lemma good_fresh v : idle v -> ~ v_own v -> good false v.
Proof.
  intros (Hu & Hr & Hf & Hrl & He & Hen) Hno.
  assert (v_live v = false) as Hl.
  { unfold v_live. rewrite Hen. cbn. apply not_true_is_false. intros H. by apply Hno, own_now. }
  constructor; rewrite ?Hl, ?Hu, ?Hr, ?Hf, ?Hrl, ?He, ?Hen; try done.
  - intros [H|H]; done.
  - apply Forall_forall. intros ek Hek Ho. destruct Hno. apply Exists_exists. eauto.
Qed.

Lemma step_target_grows c :
  0 <= cm_step c -> Z.min (cm_span c) (cm_room c) > cm_cap c -> cm_cap c <= step_target c.
Proof.
  intros Hs Hc. unfold step_target. pose proof (div_ceil_mul (Z.min (cm_cap c + cm_step c) (Z.min (cm_span c) (cm_room c))) 64).
  lia.
Qed.

Lemma zero_ok W s lo hi :
  inv W s -> cm_cap (commit s) <= lo ->
  let s' := upd_dev s (foldl put_entry (sdev s) (map (fun i => (i, slot_free)) (zrange lo hi))) in
  inv W s' /\ forall i, lo <= i < hi -> fst (a_now (sdev s') i) = slot_free.
Proof.
  intros HI Hlo. set (es := map _ _). destruct (foldl_put_frame es (sdev s)) as (Hdn & Hdo & Hten & Hep & Hwf & Hff). cbv zeta. split.
  - apply (inv_frame W W s); [done| | |].
    + constructor; try done. cbn [sdev upd_dev]. by rewrite Hwf.
    + intros i Hi HG. assert (i ∉ map fst es) as Hn.
      { unfold es. rewrite map_map, map_id, elem_of_zrange. lia. }
      destruct (foldl_put_other es (sdev s) i Hn) as [Ha Hb]. unfold view_at. cbn [sdev upd_dev pend free_bitmap].
      rewrite Ha, Hb, Hdn, Hdo, Hten. exact HG.
    + intros i Hi HG. exact HG.
  - intros i Hi. cbn [sdev upd_dev]. unfold es.
    destruct (foldl_put_once (fun _ => slot_free) (zrange lo hi) (sdev s) i) as [Ha _];
      [apply NoDup_zseq|by apply elem_of_zrange|]. by rewrite Ha.
Qed.

Lemma commit_step_ok now h s r s' :
  inv ∅ s -> commit_step now h s = (r, s') -> inv ∅ s' /\ pend s' = pend s.
Proof.
  intros HI. unfold commit_step. destruct (Z.leb_spec (Z.min (cm_span (commit s)) (cm_room (commit s))) (cm_cap (commit s))) as [|Hlt];
    [by intros [= <- <-]|].
  pose proof (step_target_grows (commit s) (i_step _ _ HI) ltac:(lia)) as Hgrow.
  set (target := step_target (commit s)) in *. set (h' := mkHeader _ _ _ _ _ _ _ _ _ _ _ _ _ _ _ _ _ _ _ _ _). clearbody h'.
  destruct (zero_ok ∅ s (cm_cap (commit s)) target HI ltac:(lia)) as [HI1 Hz].
  set (s1 := upd_dev s (foldl put_entry _ _)) in *.
  unfold bind at 1. unfold dev_op at 1. cbn [tb_zero adev_table ad_zero fst snd]. fold s1.
  destruct (flush_ok ∅ s1 HI1) as (r2 & s2 & Hf2 & HI2 & Hp2 & _ & Hc2 & Hn2 & _).
  unfold bind at 1. rewrite Hf2. destruct r2; [|by intros [= <- <-]].
  unfold bind at 1. unfold dev_op at 1. cbn [tb_header adev_table]. rewrite upd_dev_id.
  destruct (flush_ok ∅ s2 HI2) as (r3 & s3 & Hf3 & HI3 & Hp3 & _ & Hc3 & Hn3 & Hst).
  unfold bind at 1. rewrite Hf3. destruct r3 as [a3|]; [|intros [= <- <-]; split; [done|by rewrite Hp3]].
  destruct (Hst a3 eq_refl) as [Hset _]. unfold bind, modify, ret. intros [= <- <-].
  split; [|by cbn; rewrite Hp3]. rewrite Hc2 in Hc3. cbn in Hc3.
  destruct HI3 as [I1 I2 I3 I4 I5 I6 I7]. rewrite Hc3 in *. constructor; cbn [commit upd_commit cm_cap cm_step]; try done.
  - cbn in *. lia.
  - intros i Hi. rewrite bool_decide_false by set_solver. change (good false (view_at s3 i)).
    destruct (decide (i < cm_cap (commit s))); [specialize (I6 i ltac:(lia)); by rewrite bool_decide_false in I6 by set_solver|].
    apply good_fresh; [apply I7; lia|]. unfold v_own. cbn [view_at v_now v_old]. rewrite (proj1 (Hset i)).
    intros [Ho|Ho%Exists_nil]%Exists_cons; [|done]. unfold owned_img in Ho. rewrite Hn3, Hn2, Hz in Ho by lia. done.
  - intros i Hi. apply (I7 i). lia.
Qed.

Lemma commit_ahead_ok s : inv ∅ s -> inv ∅ (snd (commit_ahead s)).
Proof.
  intros HI. unfold commit_ahead. destruct (whole (commit s)); [done|]. case_match; [done|]. case_match; [done|].
  destruct HI. by constructor.
Qed.

Lemma grow_ok capacity now s r s' : inv ∅ s -> grow capacity now s = (r, s') -> inv ∅ s'.
Proof.
  intros HI. unfold grow. case_match; [by intros [= <- <-]|]. set (s1 := upd_commit s _).
  assert (inv ∅ s1) as HI1 by (destruct HI; by constructor).
  set (h' := mkHeader _ _ _ _ _ _ _ _ _ _ _ _ _ _ _ _ _ _ _ _ _). clearbody h'.
  unfold bind at 1. unfold dev_op at 1. cbn [tb_header adev_table]. rewrite upd_dev_id.
  destruct (flush_ok ∅ s1 HI1) as (r2 & s2 & Hf2 & HI2 & _). unfold bind. rewrite Hf2.
  destruct r2; [|by intros [= <- <-]]. unfold modify, ret. intros [= <- <-].
  apply take_committed_ok. by destruct HI2.
Qed.

(** *** What allocation leaves of the slots in use *)

Definition keeps (s s' : slab adev) : Prop :=
  cm_cap (commit s) <= cm_cap (commit s')
  /\ forall j, 0 <= j < cm_cap (commit s) -> now_of s' j = now_of s j.

Lemma keeps_refl s : keeps s s.
Proof. by split. Qed.
Lemma keeps_trans s1 s2 s3 : keeps s1 s2 -> keeps s2 s3 -> keeps s1 s3.
Proof. intros [H1 H2] [H3 H4]. split; [lia|]. intros j Hj. rewrite H4 by lia. by apply H2. Qed.

Lemma keeps_mem s s' :
  commit s' = commit s -> entries (pend s') = entries (pend s) -> a_now (sdev s') = a_now (sdev s) -> keeps s s'.
Proof. intros Hc He Ha. split; [by rewrite Hc|]. intros j _. unfold now_of. by rewrite He, Ha. Qed.

Lemma flush_keeps s r s' : flush s = (r, s') -> keeps s s'.
Proof.
  destruct (flush_cases s) as [(d & -> & Hn & _)|(d & -> & Hn & _)]; intros [= _ <-]; by apply keeps_mem.
Qed.

Lemma absorb_keeps s : keeps s (absorb_released s).
Proof.
  unfold absorb_released. set (s0 := upd_pend _ s).
  assert (forall r s, keeps s (foldl (fun s i => if is_free (free_bitmap s) i then s
                    else upd_map s (fm_set (free_bitmap s) i true) (free_count s + 1)) s r)) as Hf.
  { clear. induction r as [|i r IH]; intros s; cbn [foldl]; [apply keeps_refl|]. eapply keeps_trans; [|apply IH].
    case_match; [apply keeps_refl|by apply keeps_mem]. }
  eapply keeps_trans; [|apply Hf]. by apply keeps_mem.
Qed.

Lemma reclaim_keeps s r s' : reclaim_freeing s = (r, s') -> keeps s s'.
Proof.
  unfold reclaim_freeing. destruct (freeing (pend s)); [intros [= _ <-]; apply keeps_refl|].
  destruct (flush _) as [r1 s1] eqn:Hf. apply flush_keeps in Hf.
  assert (keeps s s1) as Hk by (eapply keeps_trans; [|exact Hf]; by apply keeps_mem).
  destruct r1; intros [= _ <-]; [eapply keeps_trans; [|apply absorb_keeps]|]; (eapply keeps_trans; [exact Hk|]); by apply keeps_mem.
Qed.

Lemma take_committed_keeps s : keeps s (take_committed s).
Proof. unfold take_committed. case_match; [by apply keeps_mem|apply keeps_refl]. Qed.

Lemma commit_step_keeps now h s r s' : inv ∅ s -> commit_step now h s = (r, s') -> keeps s s'.
Proof.
  intros HI. unfold commit_step. destruct (Z.leb_spec (Z.min (cm_span (commit s)) (cm_room (commit s))) (cm_cap (commit s))) as [|Hlt];
    [intros [= _ <-]; apply keeps_refl|].
  pose proof (step_target_grows (commit s) (i_step _ _ HI) ltac:(lia)) as Hgrow.
  set (target := step_target (commit s)) in *. set (h' := mkHeader _ _ _ _ _ _ _ _ _ _ _ _ _ _ _ _ _ _ _ _ _). clearbody h'.
  unfold bind at 1. unfold dev_op at 1. cbn [tb_zero adev_table ad_zero fst snd]. set (s1 := upd_dev s (foldl put_entry _ _)).
  assert (keeps s s1) as Hk1.
  { split; [done|]. intros j Hj. unfold now_of, s1. cbn [sdev upd_dev pend].
    destruct (foldl_put_other (map (fun i => (i, slot_free)) (zrange (cm_cap (commit s)) target)) (sdev s) j) as [-> _]; [|done].
    rewrite map_map, map_id, elem_of_zrange. lia. }
  unfold bind at 1. destruct (flush s1) as [r2 s2] eqn:Hf2. pose proof (keeps_trans _ _ _ Hk1 (flush_keeps _ _ _ Hf2)) as Hk2.
  assert (commit s2 = commit s) as Hc2 by (destruct (flush_cases s1) as [(d & Hf & _)|(d & Hf & _)]; rewrite Hf in Hf2; by injection Hf2 as _ <-).
  destruct r2; [|by intros [= _ <-]].
  unfold bind at 1. unfold dev_op at 1. cbn [tb_header adev_table]. rewrite upd_dev_id. unfold bind at 1.
  destruct (flush s2) as [r3 s3] eqn:Hf3. pose proof (keeps_trans _ _ _ Hk2 (flush_keeps _ _ _ Hf3)) as Hk3.
  destruct r3; [|by intros [= _ <-]]. unfold bind, modify, ret. intros [= _ <-]. split; [cbn; lia|].
  intros j Hj. by apply Hk3.
Qed.

(** *** Allocation *)

Lemma take_slot_or_flush_cases now v x g s r s' :
  inv ∅ s -> take_slot_or_flush now v x g s = (r, s') ->
  (exists e, r = Err e /\ inv ∅ s')
  \/ exists s1, inv ∅ s1 /\ keeps s s1 /\ released (pend s1) = [] /\ take_slot v x g s1 = (r, s').
Proof.
  intros HI. unfold take_slot_or_flush.
  destruct (take_committed_ok ∅ s HI) as [HIa _]. destruct (absorb_ok ∅ _ HIa) as (HIb & _ & Hrl & _).
  pose proof (keeps_trans _ _ _ (take_committed_keeps s) (absorb_keeps (take_committed s))) as Hk1.
  unfold bind at 1, modify at 1, bind at 1, modify at 1. set (s1 := absorb_released (take_committed s)) in *.
  unfold bind at 1, gets at 1, bind at 1.
  destruct ((if free_count s1 =? 0 then reclaim_freeing else ret ()) s1) as [r2 s2] eqn:H2.
  assert (inv ∅ s2 /\ released (pend s2) = [] /\ keeps s s2) as (HI2 & Hrl2 & Hk2).
  { destruct (free_count s1 =? 0); [|by injection H2 as <- <-].
    destruct (reclaim_ok s1 r2 s2 HIb Hrl H2) as (? & ? & _). split_and!; try done.
    eapply keeps_trans; [exact Hk1|by eapply reclaim_keeps]. }
  destruct r2 as [[]|e2]; [|intros [= <- <-]; left; by eexists].
  unfold bind at 1, gets at 1, bind at 1, gets at 1, bind at 1.
  destruct ((if (free_count s2 =? 0) && negb (whole (commit s2)) then _ else ret ()) s2) as [r3 s3] eqn:H3.
  assert (inv ∅ s3 /\ released (pend s3) = [] /\ keeps s s3) as (HI3 & Hrl3 & Hk3).
  { destruct ((free_count s2 =? 0) && _); [|by injection H3 as <- <-].
    unfold bind, gets, modify in H3. destruct (commit_step now (header_now s2) s2) as [r4 s4] eqn:H4.
    destruct (commit_step_ok _ _ _ _ _ HI2 H4) as [HI4 Hp4]. destruct (take_committed_ok ∅ s4 HI4) as (HI5 & Hp5 & _).
    pose proof (keeps_trans _ _ _ Hk2 (commit_step_keeps _ _ _ _ _ HI2 H4)) as Hk4.
    destruct r4; injection H3 as <- <-; rewrite ?Hp5, Hp4; split_and!; try done.
    eapply keeps_trans; [exact Hk4|apply take_committed_keeps]. }
  destruct r3 as [[]|e3]; [|intros [= <- <-]; left; by eexists]. intros Ht. right. by exists s3.
Qed.

Lemma take_slot_cases v x g s r s' :
  inv ∅ s -> take_slot v x g s = (r, s') ->
  (exists e, r = Err e /\ s' = s)
  \/ exists i, r = Ok i /\ 0 <= i < fm_len (free_bitmap s) /\ is_free (free_bitmap s) i = true
     /\ s' = set_slot i (mkSlot Allocated v x 1 g) (upd_map s (fm_set (free_bitmap s) i false) (free_count s - 1)).
Proof.
  intros HI. unfold take_slot. destruct (free_count s =? 0); [intros [= <- <-]; left; by eexists|].
  rewrite first_free_first_one by apply (i_fm _ _ HI).
  destruct (first_one (bits (free_bitmap s))) as [i|] eqn:Hf; [|intros [= <- <-]; left; by eexists].
  intros [= <- <-]. right. exists i. apply first_one_spec in Hf as (H0 & Hb & _). split_and!; try done.
  - unfold fm_len, zlen. apply lookup_lt_Some in Hb. lia.
  - unfold is_free. by rewrite Hb.
Qed.

(** Handing a slot out. *)
Lemma hand_out_ok v x g i s :
  inv ∅ s -> released (pend s) = [] -> 0 <= i < fm_len (free_bitmap s) -> is_free (free_bitmap s) i = true ->
  let s1 := set_slot i (mkSlot Allocated v x 1 g) (upd_map s (fm_set (free_bitmap s) i false) (free_count s - 1)) in
  inv ∅ (new_tenant i (upd_pend (set_unpublished (fun u => {[i]} ∪ u)) s1)).
Proof.
  intros HI Hrl Hi Hf s1. pose proof (i_len _ _ HI) as Hlen.
  assert (v_free (view_at s i) = true) as Hvf by (cbn; by rewrite Hf).
  apply (inv_one ∅ ∅ i s); try done; [|lia| |].
  - constructor; try done; cbn; [intros; apply fm_set_ok; [lia|done]|by apply fm_set_len; lia].
  - intros j Hj. unfold new_tenant, s1, set_slot. view_cbn. cbn [tenant a_now a_old d_now d_old]. f_equal.
    + by rewrite fm_set_map, decide_False.
    + apply bool_decide_ext. set_solver.
    + by rewrite lookup_insert_ne.
    + unfold upd_fn. by rewrite (proj2 (Z.eqb_neq j i) Hj).
  - rewrite bool_decide_false by set_solver. intros G.
    replace (view_at _ i) with (t_alloc (mkSlot Allocated v x 1 g) (view_at s i)).
    + apply good_alloc; [done|done| |done]. cbn. rewrite Hrl. by apply bool_decide_false, not_elem_of_nil.
    + unfold new_tenant, s1, set_slot, t_alloc. view_cbn. cbn [tenant a_now a_old d_now d_old]. f_equal.
      * by rewrite fm_set_map, decide_True.
      * rewrite bool_decide_true; [done|set_solver].
      * by rewrite lookup_insert_eq.
      * unfold upd_fn. by rewrite Z.eqb_refl.
Qed.

Lemma allocate_deferred_cases now v x g s r s' :
  inv ∅ s -> allocate_deferred now v x g s = (r, s') ->
  (exists e, r = Err e /\ inv ∅ s')
  \/ exists i s1, r = Ok i /\ inv ∅ s1 /\ keeps s s1 /\ 0 <= i < cm_cap (commit s1) /\ v_free (view_at s1 i) = true
     /\ inv ∅ (new_tenant i s')
     /\ s' = upd_pend (set_unpublished (fun u => {[i]} ∪ u))
              (set_slot i (mkSlot Allocated v x 1 g) (upd_map s1 (fm_set (free_bitmap s1) i false) (free_count s1 - 1))).
Proof.
  intros HI. unfold allocate_deferred, bind at 1. destruct (take_slot_or_flush now v x g s) as [r1 s1] eqn:Ht.
  destruct (take_slot_or_flush_cases _ _ _ _ _ _ _ HI Ht) as [(e & -> & HI1)|(s0 & HI0 & Hk & Hrl & Hts)].
  { intros [= <- <-]. left. by eexists. }
  destruct (take_slot_cases _ _ _ _ _ _ HI0 Hts) as [(e & -> & ->)|(i & -> & Hi & Hf & ->)].
  { intros [= <- <-]. left. by eexists. }
  unfold bind, modify, ret. intros [= <- <-]. right. exists i, s0. pose proof (i_len _ _ HI0).
  split_and!; try done; try lia; [cbn; by rewrite Hf|]. by apply hand_out_ok.
Qed.

(** ** The theorems *)

Lemma formatted_inv d h step :
  formatted_dev d (table_capacity h) -> 0 <= table_capacity h -> 0 <= step -> inv ∅ (slab_formatted d h step).
Proof.
  intros [Hd Hw] Hcap Hstep. unfold slab_formatted. set (n := committed _).
  assert (n <= table_capacity h) as Hn by apply committed_le_cap.
  constructor; cbn [free_bitmap commit sdev pend cm_cap cm_step]; try done.
  - unfold fm_len, zlen, fm_new, recount. cbn. rewrite length_replicate. lia.
  - intros i. left. apply lookup_empty.
  - intros i Hi. rewrite bool_decide_false by set_solver. destruct (Hd i Hi) as [Ho Hold]. apply good_fresh.
    + by split_and!.
    + unfold v_own. cbn [view_at v_now v_old sdev]. rewrite Hold.
      intros [H|H%Exists_nil]%Exists_cons; [|done]. unfold owned_img in H. congruence.
Qed.

Lemma confirm_ok i s : inv ∅ s -> written s i -> inv ∅ (confirm i s).
Proof.
  intros HI Hw. unfold confirm. case_decide as Hu; [|done].
  assert (v_unp (view_at s i) = true) as Hv by by apply bool_decide_true.
  assert (0 <= i < cm_cap (commit s)) as Hi.
  { apply dec_stable. intros Hi. destruct (i_idle _ _ HI i Hi) as (? & _). congruence. }
  apply add_ready_ok; [done|done| |done]. by apply (g_unp _ _ (i_good _ _ HI i Hi) Hv).
Qed.

Lemma step_ok s s' : inv ∅ s -> step s s' -> inv ∅ s'.
Proof.
  intros HI Hst. pose proof (committed_le_cap (commit s)) as Hcc. destruct Hst as
    [now v x g i s s1 Ha|now v x g e s s1 Ha|i s Hi Hl|i s Hw|s r s' Hs|i s r s' Hi Hf|l pre s r s' Hl Hp Hf|i s r s' Hi Hf
    |l pre s r s' Hl Hp Hf|i s r s' Hi Hw Hf|l pre s r s' Hl Hp Hf|i v x s r s' Hi Hf|n s|i s|lv s|lv s|i s Hi|i s r s' Hf
    |i n s Hi Hw|s|now h s r s' Hf|cap now s r s' Hf].
  - destruct (allocate_deferred_cases _ _ _ _ _ _ _ HI Ha) as [(e & [=] & _)|(i' & s0 & [= <-] & _ & _ & _ & _ & H & _)].
    exact H.
  - by destruct (allocate_deferred_cases _ _ _ _ _ _ _ HI Ha) as [(e' & _ & H)|(i' & s0 & [=] & _)].
  - apply put_data_ok; [done|]. by left.
  - by apply confirm_ok.
  - by eapply sync_ok.
  - by eapply free_ok.
  - by eapply free_planned_ok.
  - by eapply inc_ref_ok.
  - by eapply inc_ref_batch_ok.
  - by eapply dec_ref_ok.
  - destruct (dec_ref_batch_ok l pre s Hl Hp HI) as (out & s2 & He & H). rewrite He in Hf. by injection Hf as _ <-.
  - by eapply reassign_ok.
  - by apply take_erasing_ok.
  - by apply return_erase_ok.
  - by destruct HI; constructor.
  - by destruct HI; constructor.
  - apply put_data_ok; [done|]. intros Hr. right. split; [|done].
    apply (g_gone _ _ (i_good _ _ HI i Hr)). right. cbn.
    by rewrite (bool_decide_true (is_Some (erasing_now (pend s) !! i))), orb_true_r.
  - by eapply finish_erase_ok.
  - by apply raise_ref_ok.
  - by apply commit_ahead_ok.
  - by eapply commit_step_ok.
  - by eapply grow_ok.
Qed.

Lemma reaches_inv s s' : inv ∅ s -> reaches s s' -> inv ∅ s'.
Proof. intros HI. induction 1 as [|s1 s2 s3 _ IH Hst]; [done|]. by eapply step_ok; [apply IH|]. Qed.


