(* ===== verification/SlotStoreSlab.v ===== *)
(** The slab engine of [SlabState] is a [SlotStore]: on a device with data beside the slot
    table, its operations keep the laws volumes rely on.  I/O of the data may fail, and
    flushes; that of the table does not ([SlabCrashTraces] has what a batch leaves that
    fails halfway). *)

From S2P Require Import Prelude SlabFormat FreeMap SlabState SlabCrashProofs SlabCrashSteps SlotStore.

(** ** A device with a table and data *)

(** The data region by slot and offset: what [slot_address] gives the address of. *)
Class DataDev (D : Type) := {
  dd_table :: TableDev D;
  dd_block_size : D -> Z;
  dd_read : Z -> Z -> Z -> D -> result DriveError bytes * D;
  dd_write : Z -> Z -> bytes -> D -> result DriveError Z * D;
  dd_zero : Z -> Z -> Z -> D -> result DriveError () * D }.

Section same.
Context {D : Type} (wf : D -> Prop) (entry : D -> Z -> Slot) (byte_at : D -> Z -> Z -> Z).
(** Nothing changed but what reads do not show. *)
Record dsame (d d' : D) : Prop := {
  ds_wf : wf d';
  ds_entry : forall i, entry d' i = entry d i;
  ds_byte : forall i p, byte_at d' i p = byte_at d i p }.
(** Only bytes of slot [i] from [o], [n] of them, may have. *)
Record dwrites (i o n : Z) (d d' : D) : Prop := {
  dw_wf : wf d';
  dw_entry : forall j, entry d' j = entry d j;
  dw_byte : forall j p, j <> i \/ p < o \/ o + n <= p -> byte_at d' j p = byte_at d j p }.
End same.

Class DataDevLaws (D : Type) `{DataDev D} := {
  sd_wf : D -> Prop;
  sd_entry : D -> Z -> Slot;
  sd_byte : D -> Z -> Z -> Z;
  sd_read_law d i : sd_wf d ->
    fst (tb_read d i) = Some (sd_entry d i) /\ dsame sd_wf sd_entry sd_byte d (snd (tb_read d i));
  sd_write_law d es : sd_wf d -> NoDup (map fst es) ->
    fst (tb_write d es) = true /\ sd_wf (snd (tb_write d es))
    /\ (forall i p, sd_byte (snd (tb_write d es)) i p = sd_byte d i p)
    /\ (forall i, i ∉ map fst es -> sd_entry (snd (tb_write d es)) i = sd_entry d i)
    /\ (forall i e, (i, e) ∈ es -> sd_entry (snd (tb_write d es)) i = e);
  sd_zero_law d lo hi : sd_wf d ->
    sd_wf (snd (tb_zero d lo hi)) /\ (forall i p, sd_byte (snd (tb_zero d lo hi)) i p = sd_byte d i p)
    /\ (forall i, ~ (lo <= i < hi) -> sd_entry (snd (tb_zero d lo hi)) i = sd_entry d i)
    /\ (fst (tb_zero d lo hi) = true -> forall i, lo <= i < hi -> sd_entry (snd (tb_zero d lo hi)) i = slot_free);
  sd_header_law d h : sd_wf d -> dsame sd_wf sd_entry sd_byte d (snd (tb_header d h));
  sd_flush_law d : sd_wf d -> dsame sd_wf sd_entry sd_byte d (snd (tb_flush d));
  sd_discard_law d a b : sd_wf d ->
    sd_wf (tb_discard d a b) /\ (forall i, sd_entry (tb_discard d a b) i = sd_entry d i)
    /\ forall i p, ~ (a <= i <= b) -> sd_byte (tb_discard d a b) i p = sd_byte d i p;
  sd_dread_law d i o n : sd_wf d -> dsame sd_wf sd_entry sd_byte d (snd (dd_read i o n d))
    /\ forall b, fst (dd_read i o n d) = Ok b -> zlen b = n -> b = map (sd_byte d i) (zrange o (o + n));
  sd_dwrite_law d i o b : sd_wf d -> dwrites sd_wf sd_entry sd_byte i o (zlen b) d (snd (dd_write i o b d))
    /\ (fst (dd_write i o b d) = Ok (zlen b) ->
        map (sd_byte (snd (dd_write i o b d)) i) (zrange o (o + zlen b)) = b)
    /\ forall e, fst (dd_write i o b d) = Err e -> is_media_failure e || is_transport e = true;
  sd_dzero_law d i o n : sd_wf d -> 0 <= n -> dwrites sd_wf sd_entry sd_byte i o n d (snd (dd_zero i o n d))
    /\ (fst (dd_zero i o n d) = Ok () -> map (sd_byte (snd (dd_zero i o n d)) i) (zrange o (o + n)) = zeros n) }.

(** ** The slab on it *)

(** An error of the slab as the drive layer has it: the device's own, or [Other]. *)
Definition slab_error (e : SlabErr) : DriveError := match e with EIo => DIo OtherKind | _ => DOther end.
Definition drive_result {A} (r : result SlabErr A) : result DriveError A :=
  match r with Ok a => Ok a | Err e => Err (slab_error e) end.

Section slab.
Context {D : Type} `{DataDev D}.

Definition slot_io {A} (i o : Z) (io : D -> result DriveError A * D) (s : slab D) : result DriveError A * slab D :=
  match slot_address (sh s) (committed (commit s)) i o with
  | Err _ => (Err DOther, s)
  | Ok _ => let '(r, d) := io (sdev s) in (r, upd_dev s d)
  end.
Definition on_slab {A} (m : M D A) (s : slab D) : result DriveError A * slab D :=
  let '(r, s) := m s in (drive_result r, s).
Definition dec_counts (o : DecRefOutcome) : Z * Z := (freed o, zlen (rejected o)).

(** The time a header is stamped with; volumes do not see it. *)
Context (clock : Z).
#[local] Instance slab_store : SlotStore (slab D) := {
  ss_slot_size s := slot_size (sh s);
  ss_tier s := tier (sh s);
  ss_role s := role (sh s);
  ss_dedicated s := Z.testbit (flags (sh s)) 0;
  ss_block_size s := dd_block_size (sdev s);
  ss_free_slots := slab_free_slots;
  ss_unpublished := is_unpublished;
  ss_address s i o := match slot_address (sh s) (committed (commit s)) i o with Ok a => Ok a | Err _ => Err DOther end;
  ss_alloc v x g := on_slab (allocate_deferred clock v x g);
  ss_confirm := confirm;
  ss_free i := on_slab (free i);
  ss_dec_ref i := on_slab (dec_ref i);
  ss_inc_ref i := on_slab (inc_ref i);
  ss_inc_ref_batch l := on_slab (inc_ref_batch l None);
  ss_dec_ref_batch l := on_slab (fun s => match dec_ref_batch l None s with
                                          | (Ok o, s) => (Ok (dec_counts o), s)
                                          | (Err e, s) => (Err e, s)
                                          end);
  ss_shares := shares;
  ss_owner := owner;
  ss_sync := on_slab sync;
  ss_read i o n := slot_io i o (dd_read i o n);
  ss_write i o b := slot_io i o (dd_write i o b);
  ss_zero i o n := slot_io i 0 (dd_zero i o n) }.
End slab.

(** ** One slot *)

(** A slot as the laws see it: free in the map, waiting for its free entry or for the flush
    after it, its entry in memory and on the device. *)
Record sview := mkSview { sv_free : bool; sv_unp : bool; sv_fng : bool; sv_rel : bool; sv_ent : option Slot; sv_dev : Slot }.
Definition sv_now (v : sview) : Slot := default (sv_dev v) (sv_ent v).
Definition own (e : Slot) : bool := is_owned (state e).
Definition sv_refs (v : sview) : Z := if own (sv_now v) then ref_count (sv_now v) else 0.

(** [w]: let go of, its entry about to be written. *)
Record sgood (w : bool) (v : sview) : Prop := {
  sg_free : sv_free v = true \/ sv_rel v = true ->
    sv_ent v = None /\ own (sv_dev v) = false /\ sv_unp v = false /\ sv_fng v = false;
  sg_unp : sv_unp v = true -> own (sv_now v) = true /\ own (sv_dev v) = false;
  sg_fng : sv_fng v = true -> own (sv_now v) = false /\ (w = false -> sv_ent v = None /\ own (sv_dev v) = false);
  sg_w : w = true -> own (sv_now v) = false }.
Definition sidle (v : sview) : Prop :=
  sv_unp v = false /\ sv_fng v = false /\ sv_rel v = false /\ sv_ent v = None.

(** In use, a slot is in none of the lists of those on their way out. *)
Lemma sgood_own w v : sgood w v -> own (sv_now v) = true ->
  w = false /\ sv_free v = false /\ sv_rel v = false /\ sv_fng v = false.
Proof.
  intros G Ho. assert (sv_free v = true \/ sv_rel v = true -> False) as Hf.
  { intros Hf. destruct (sg_free w v G Hf) as (He & Hd & _). unfold sv_now in Ho. rewrite He in Ho. cbn in Ho. congruence. }
  split_and!; apply not_true_is_false; intros E.
  - pose proof (sg_w w v G E). congruence.
  - auto.
  - auto.
  - destruct (sg_fng w v G E). congruence.
Qed.

(** Views an operation makes of a view, and that they are good. *)
Definition s_ent (e : option Slot) (v : sview) : sview := mkSview (sv_free v) (sv_unp v) (sv_fng v) (sv_rel v) e (sv_dev v).
Definition s_alloc (e : Slot) (v : sview) : sview := mkSview false true (sv_fng v) (sv_rel v) (Some e) (sv_dev v).
Definition s_written (e : Slot) (v : sview) : sview :=
  mkSview (sv_free v) (sv_unp v) (sv_fng v) (sv_rel v) (if sv_unp v then sv_ent v else None) e.
Definition s_unget (v : sview) : sview := mkSview true false (sv_fng v) (sv_rel v) None (sv_dev v).
Definition s_letgo (v : sview) : sview := mkSview (sv_free v) (sv_unp v) true (sv_rel v) (Some slot_free) (sv_dev v).
Definition s_erase (e : Slot) (v : sview) : sview := mkSview (sv_free v) false (sv_fng v) (sv_rel v) (Some e) (sv_dev v).
Definition s_publish (v : sview) : sview := mkSview (sv_free v) false (sv_fng v) (sv_rel v) (sv_ent v) (sv_dev v).
Definition s_release (v : sview) : sview := mkSview (sv_free v) (sv_unp v) false (sv_rel v || sv_fng v) (sv_ent v) (sv_dev v).
Definition s_absorb (v : sview) : sview := mkSview (sv_free v || sv_rel v) (sv_unp v) (sv_fng v) false (sv_ent v) (sv_dev v).
(** What [entry_bytes] gives of it. *)
Definition sv_image (v : sview) : Slot := if sv_unp v then slot_free else sv_now v.

Lemma sgood_ent e w v : own e = true -> own (sv_now v) = true -> sgood w v -> sgood w (s_ent (Some e) v).
Proof.
  intros He Ho G. destruct (sgood_own w v G Ho) as (-> & Hf & Hr & Hg). destruct G as [G1 G2 G3 G4].
  constructor; cbn; try done; [intros [?|?]; congruence| |congruence]. intros Hu. split; [exact He|]. by apply G2.
Qed.

Lemma sgood_alloc e v : own e = true -> sv_free v = true -> sv_rel v = false -> sgood false v -> sgood false (s_alloc e v).
Proof.
  intros He Hf Hr [G1 G2 G3 G4]. destruct (G1 (or_introl Hf)) as (Hent & Hd & Hu & Hg).
  constructor; cbn; try done; [intros [?|?]; congruence|congruence].
Qed.

Lemma sgood_written w v : sgood w v -> sgood false (s_written (sv_image v) v) /\ sv_now (s_written (sv_image v) v) = sv_now v.
Proof.
  intros [G1 G2 G3 G4]. unfold sv_image, s_written, sv_now. cbn. destruct (sv_unp v) eqn:Hu; cbn.
  - destruct (G2 eq_refl) as [Ho Hd]. assert (exists e, sv_ent v = Some e) as [e He].
    { unfold sv_now in Ho. destruct (sv_ent v); [by eexists|]. cbn in Ho. congruence. }
    split; [|by rewrite He]. constructor; cbn; rewrite ?Hu, ?He; cbn; try done.
    + intros Hf. destruct (G1 Hf) as (? & _). congruence.
    + intros _. unfold sv_now in *. by rewrite He in Ho.
    + intros Hg. destruct (G3 Hg) as [Hn _]. unfold sv_now in *. rewrite He in *. cbn in *. congruence.
  - split; [|done]. constructor; cbn; rewrite ?Hu; try done.
    + intros Hf. destruct (G1 Hf) as (He & Hd & _ & Hg). rewrite He. split_and!; try done.
    + intros Hg. destruct (G3 Hg) as [Hn _]. split; [exact Hn|]. done.
Qed.

Lemma sgood_unget v : sv_unp v = true -> own (sv_now v) = true -> sgood false v ->
  sgood false (s_unget v) /\ own (sv_now (s_unget v)) = false.
Proof.
  intros Hu Ho G. destruct (sgood_own _ v G Ho) as (_ & Hf & Hr & Hg). destruct G as [G1 G2 G3 G4].
  destruct (G2 Hu) as [_ Hd]. split; [|exact Hd]. constructor; cbn; try done; congruence.
Qed.

Lemma sgood_letgo v : sv_unp v = false -> own (sv_now v) = true -> sgood false v -> sgood true (s_letgo v).
Proof.
  intros Hu Ho G. destruct (sgood_own _ v G Ho) as (_ & Hf & Hr & Hg). constructor; cbn; try done; [|congruence].
  intros [?|?]; congruence.
Qed.

Lemma sgood_erase e v : own e = false -> own (sv_now v) = true -> sgood false v -> sgood true (s_erase e v).
Proof.
  intros He Ho G. destruct (sgood_own _ v G Ho) as (_ & Hf & Hr & Hg). constructor; cbn; try done; try congruence.
  intros [?|?]; congruence.
Qed.

Lemma sgood_release v : sgood false v -> sgood false (s_release v).
Proof.
  intros [G1 G2 G3 G4]. constructor; cbn; try done.
  assert (sv_fng v = true -> sv_unp v = false) as Hgu.
  { intros Hg. destruct (sv_unp v) eqn:E; [|done]. destruct (G2 eq_refl). destruct (G3 Hg). congruence. }
  intros [Hf|[Hr|Hg]%orb_true_iff]; [by destruct (G1 (or_introl Hf)) as (?&?&?&?)|by destruct (G1 (or_intror Hr)) as (?&?&?&?)|].
  destruct (G3 Hg) as [_ Hn]. destruct (Hn eq_refl). split_and!; auto.
Qed.

Lemma sgood_absorb v : sgood false v -> sgood false (s_absorb v).
Proof.
  intros [G1 G2 G3 G4]. constructor; cbn; try done. intros [[?|?]%orb_true_iff|?]; [apply G1; auto|apply G1; auto|done].
Qed.

Lemma sgood_publish v : sgood false v -> sgood false (s_publish v).
Proof. intros [G1 G2 G3 G4]. constructor; cbn; try done. intros Hf. by destruct (G1 Hf) as (?&?&?&?). Qed.

Lemma sgood_fresh v : sidle v -> own (sv_dev v) = false -> sgood false v /\ own (sv_now v) = false.
Proof.
  intros (Hu & Hg & Hr & He) Hd. unfold sv_now. rewrite He. split; [|exact Hd].
  constructor; cbn; rewrite ?Hu, ?Hg; try done.
Qed.

(** ** The whole slab *)

Ltac conjs := repeat match goal with |- _ /\ _ => split end.

Section proofs.
Context {D : Type} `{DataDevLaws D} (clock : Z).

Definition sv (s : slab D) (i : Z) : sview :=
  let p := pend s in
  mkSview (map_free (free_bitmap s) i) (bool_decide (i ∈ unpublished p)) (bool_decide (i ∈ freeing p))
    (bool_decide (i ∈ released p)) (entries p !! i) (sd_entry (sdev s) i).
Definition in_cap (s : slab D) (i : Z) : Prop := 0 <= i < cm_cap (commit s).
Definition held_refs (s : slab D) (i : Z) : Z := if bool_decide (in_cap s i) then sv_refs (sv s i) else 0.
Definition slot_byte (s : slab D) (i p : Z) : Z := sd_byte (sdev s) i p.

Record sinv (W : gset Z) (s : slab D) : Prop := {
  si_fm : fm_ok (free_bitmap s);
  si_len : fm_len (free_bitmap s) <= cm_cap (commit s);
  si_step : 0 <= cm_step (commit s);
  si_dev : sd_wf (sdev s);
  si_good i : in_cap s i -> sgood (bool_decide (i ∈ W)) (sv s i);
  si_idle i : ~ in_cap s i -> sidle (sv s i) }.
(** A slot in use is in use by someone. *)
Definition spos (s : slab D) : Prop := forall i, in_cap s i -> own (sv_now (sv s i)) = true -> 1 <= ref_count (sv_now (sv s i)).

(** What may have changed: the counts of [X], the bytes of [Y]. *)
Record chg (X Y : gset Z) (s s' : slab D) : Prop := {
  cg_size : slot_size (sh s') = slot_size (sh s);
  cg_cap : cm_cap (commit s) <= cm_cap (commit s');
  cg_refs i : i ∉ X -> held_refs s' i = held_refs s i;
  cg_bytes i p : i ∉ Y -> slot_byte s' i p = slot_byte s i p }.

Lemma chg_trans X1 Y1 X2 Y2 X Y s s1 s2 :
  chg X1 Y1 s s1 -> chg X2 Y2 s1 s2 -> X1 ⊆ X -> X2 ⊆ X -> Y1 ⊆ Y -> Y2 ⊆ Y -> chg X Y s s2.
Proof.
  intros [A1 B1 C1 D1] [A2 B2 C2 D2] ? ? ? ?. constructor; [congruence|lia| |]; intros.
  - rewrite C2, C1 by set_solver. done.
  - rewrite D2, D1 by set_solver. done.
Qed.
Lemma chg_refl X Y s : chg X Y s s.
Proof. constructor; [done|lia|done|done]. Qed.

(** *** Reads *)

Definition quiet (s s' : slab D) : Prop :=
  s' = upd_dev s (sdev s') /\ dsame sd_wf sd_entry sd_byte (sdev s) (sdev s').

Lemma quiet_refl s : sd_wf (sdev s) -> quiet s s.
Proof. intros Hw. split; [by destruct s|by constructor]. Qed.
Lemma quiet_trans s s1 s2 : quiet s s1 -> quiet s1 s2 -> quiet s s2.
Proof.
  intros [E1 [A1 B1 C1]] [E2 [A2 B2 C2]]. split; [rewrite E2, E1; by destruct s|].
  constructor; [done| |]; intros; [by rewrite B2|by rewrite C2].
Qed.
Lemma quiet_sv s s' i : quiet s s' -> sv s' i = sv s i.
Proof. intros [-> [_ He _]]. unfold sv. cbn in *. by rewrite He. Qed.
Lemma quiet_inv W s s' : quiet s s' -> sinv W s -> sinv W s'.
Proof.
  intros HQ [I1 I2 I3 I4 I5 I6]. pose proof (fun i => quiet_sv s s' i HQ) as Hv. destruct HQ as [Es [A B C]]. rewrite Es in *.
  constructor; try done; intros i Hi; rewrite Hv; by (apply I5 || apply I6).
Qed.
Lemma quiet_chg X Y s s' : quiet s s' -> chg X Y s s'.
Proof.
  intros HQ. pose proof (fun i => quiet_sv s s' i HQ) as Hv. destruct HQ as [Es [A B C]].
  constructor.
  - by rewrite Es.
  - rewrite Es. done.
  - intros i _. unfold held_refs, in_cap. rewrite Hv. by rewrite Es.
  - intros i p _. apply C.
Qed.
Lemma quiet_pos s s' : quiet s s' -> spos s -> spos s'.
Proof.
  intros HQ Hp i. unfold in_cap. rewrite (quiet_sv s s' i HQ). destruct HQ as [-> _]. apply Hp.
Qed.

Lemma slot_now_quiet i s : sd_wf (sdev s) -> exists s', slot_now i s = (Ok (sv_now (sv s i)), s') /\ quiet s s'.
Proof.
  intros Hw. unfold slot_now, sv_now, sv. cbn [sv_ent sv_dev]. destruct (entries (pend s) !! i); cbn.
  - exists s. split; [done|by apply quiet_refl].
  - destruct (sd_read_law (sdev s) i Hw) as [Hr Hs]. unfold table_read. destruct (tb_read (sdev s) i) as [r d]. cbn in *.
    subst r. exists (upd_dev s d). split; [done|]. by split.
Qed.

Lemma slot_with_quiet i s : sd_wf (sdev s) -> exists s', slot_with i None s = (Ok (sv_now (sv s i)), s') /\ quiet s s'.
Proof. intros Hw. exact (slot_now_quiet i s Hw). Qed.

Lemma entries_of_quiet l : forall s, sd_wf (sdev s) ->
  exists s', entries_of l s = (Ok (map (fun i => (i, sv_image (sv s i))) l), s') /\ quiet s s'.
Proof.
  induction l as [|i l IH]; intros s Hw; cbn [entries_of]; [exists s; split; [done|by apply quiet_refl]|].
  assert (exists s1, entry_bytes i s = (Ok (sv_image (sv s i)), s1) /\ quiet s s1) as (s1 & E1 & Q1).
  { unfold entry_bytes, sv_image, sv. cbn [sv_unp]. case_decide as Hu.
    - rewrite bool_decide_true by done. exists s. split; [done|by apply quiet_refl].
    - rewrite bool_decide_false by done. exact (slot_now_quiet i s Hw). }
  destruct (IH s1 (ds_wf _ _ _ _ _ (proj2 Q1))) as (s2 & E2 & Q2).
  exists s2. split; [|by eapply quiet_trans]. unfold bind. rewrite E1, E2. unfold ret. cbn [map].
  erewrite (map_ext _ (fun i => (i, sv_image (sv s i)))); [done|]. intros j. cbn. by rewrite (quiet_sv s s1 j Q1).
Qed.

(** *** Writes of entries *)

Lemma in_range_cap i s s' a : in_range i s = (Ok a, s') -> 0 <= i -> s' = s /\ in_cap s i.
Proof.
  unfold in_range. destruct (Z.leb_spec (committed (commit s)) i); intros [= <- <-]. intros. split; [done|].
  pose proof (committed_le_cap (commit s)). unfold in_cap. lia.
Qed.

(** The rest of the slab, that a slot's view does not show. *)
Record sframe (s s' : slab D) : Prop := {
  sf_sh : sh s' = sh s;
  sf_commit : commit s' = commit s;
  sf_fm : fm_ok (free_bitmap s) -> fm_ok (free_bitmap s');
  sf_len : fm_len (free_bitmap s') = fm_len (free_bitmap s);
  sf_wf : sd_wf (sdev s) -> sd_wf (sdev s') }.

Lemma sinv_frame W W' s s' : sinv W s -> sframe s s' ->
  (forall i, in_cap s i -> sgood (bool_decide (i ∈ W)) (sv s i) -> sgood (bool_decide (i ∈ W')) (sv s' i)) ->
  (forall i, ~ in_cap s i -> sidle (sv s i) -> sidle (sv s' i)) -> sinv W' s'.
Proof.
  intros [I1 I2 I3 I4 I5 I6] [F1 F2 F3 F4 F5] Hg Hi.
  constructor; unfold in_cap; rewrite ?F2, ?F4; auto.
Qed.
Lemma sinv_one W W' i s s' : sinv W s -> sframe s s' -> in_cap s i ->
  (forall j, j <> i -> sv s' j = sv s j) -> (forall j, j <> i -> (j ∈ W' <-> j ∈ W)) ->
  (sgood (bool_decide (i ∈ W)) (sv s i) -> sgood (bool_decide (i ∈ W')) (sv s' i)) -> sinv W' s'.
Proof.
  intros HI HF Hi Ho HW Hg. apply (sinv_frame W W' s s' HI HF).
  - intros j Hj. destruct (decide (j = i)) as [->|Hne]; [exact Hg|]. rewrite (Ho j Hne).
    by rewrite (bool_decide_ext _ _ (HW j Hne)).
  - intros j Hj. rewrite Ho; [done|]. intros ->. done.
Qed.
Lemma chg_frame X Y s s' : sframe s s' -> (forall i, i ∉ X -> sv_refs (sv s' i) = sv_refs (sv s i)) ->
  (forall i p, i ∉ Y -> slot_byte s' i p = slot_byte s i p) -> chg X Y s s'.
Proof.
  intros [F1 F2 F3 F4 F5] Hr Hb. constructor; [congruence|rewrite F2; lia| |done].
  intros i Hi. unfold held_refs, in_cap. rewrite F2. by rewrite Hr.
Qed.

Lemma persist_ok' l W s : sinv W s -> (forall i, i ∈ W -> i ∈ l) ->
  exists s', persist_slots l s = (Ok (), s') /\ sinv ∅ s' /\ sframe s s'
    /\ (forall i, sv_now (sv s' i) = sv_now (sv s i)) /\ (forall i p, slot_byte s' i p = slot_byte s i p)
    /\ (forall i, is_erasing s' i = is_erasing s i) /\ unpublished (pend s') = unpublished (pend s)
    /\ released (pend s') = released (pend s) /\ free_bitmap s' = free_bitmap s.
Proof.
  intros HI HW. destruct l as [|i0 l0].
  { exists s. split; [done|]. split_and!; try done. apply (sinv_frame W ∅ s s HI); [by constructor| |done].
    intros i _. rewrite !bool_decide_false; [done|set_solver|]. intros Hx%HW. by apply elem_of_nil in Hx. }
  set (l := i0 :: l0) in *. set (idxs := sort_dedup l).
  assert (persist_slots l = bind (entries_of idxs) (fun es => bind (dev_op (fun d => tb_write d es))
            (fun _ => modify (upd_pend (drop_written idxs))))) as -> by done.
  destruct (entries_of_quiet idxs s (si_dev _ _ HI)) as (s1 & E1 & Q1). unfold bind. rewrite E1.
  set (es := map (fun i => (i, sv_image (sv s i))) idxs).
  assert (map fst es = idxs) as Hfst by (unfold es; rewrite map_map; apply map_id).
  destruct (sd_write_law (sdev s1) es (ds_wf _ _ _ _ _ (proj2 Q1)) ltac:(rewrite Hfst; apply sort_dedup_NoDup))
    as (Hok & Hw & Hb & Ho & Hin).
  unfold dev_op. destruct (tb_write (sdev s1) es) as [ok d]. cbn [fst snd] in *. subst ok. unfold modify.
  exists (upd_pend (drop_written idxs) (upd_dev s1 d)). split; [done|].
  destruct Q1 as [Es1 [A B C]]. rewrite Es1. cbn [upd_dev upd_pend sh commit free_bitmap pend sdev] in *.
  set (s2 := upd_pend (drop_written idxs) (upd_dev (upd_dev s (sdev s1)) d)).
  assert (forall i, sv s2 i = if decide (i ∈ l) then s_written (sv_image (sv s i)) (sv s i) else sv s i) as Hv.
  { intros i. unfold sv at 1, s2. cbn [upd_pend upd_dev pend sdev free_bitmap]. rewrite drop_written_entries.
    cbn [drop_written set_entries unpublished freeing released].
    assert (i ∈ l <-> i ∈ idxs) as Hl by (symmetry; apply elem_of_sort_dedup).
    destruct (decide (i ∈ l)) as [Hi|Hi].
    - unfold s_written. cbn [sv sv_free sv_unp sv_fng sv_rel sv_ent]. f_equal.
      + destruct (decide (i ∈ unpublished (pend s))).
        * rewrite decide_False, bool_decide_true by tauto. done.
        * rewrite decide_True, bool_decide_false by tauto. done.
      + apply Hin. unfold es. apply list_elem_of_fmap. exists i. split; [done|by apply Hl].
    - rewrite decide_False by tauto. unfold sv. f_equal. rewrite Ho by (rewrite Hfst; tauto). apply B. }
  assert (sframe s s2) as HF by (constructor; try done).
  split_and!; try done.
  - apply (sinv_frame W ∅ s s2 HI HF).
    + intros i Hi Hg. rewrite Hv. rewrite (bool_decide_false (i ∈ ∅)) by set_solver. destruct (decide (i ∈ l)) as [Hl|Hl].
      * by eapply sgood_written.
      * rewrite bool_decide_false in Hg; [done|]. auto.
    + intros i Hi (Hu & Hg & Hr & He). rewrite Hv. destruct (decide (i ∈ l)); [|done]. unfold s_written, sidle. cbn in *. by rewrite Hu.
  - intros i. rewrite Hv. destruct (decide (i ∈ l)); [|done]. destruct (decide (in_cap s i)) as [Hc|Hc].
    + eapply sgood_written, (si_good _ _ HI i Hc).
    + destruct (si_idle _ _ HI i Hc) as (Hu & _ & _ & He). unfold sv_now, s_written, sv_image. cbn in *. by rewrite Hu, He.
  - intros i p. unfold slot_byte, s2. cbn. by rewrite Hb.
Qed.

Lemma quiet_frame s s' : quiet s s' -> sframe s s'.
Proof. intros [-> [A _ _]]. by constructor. Qed.
Lemma sframe_trans s s1 s2 : sframe s s1 -> sframe s1 s2 -> sframe s s2.
Proof. intros [] []. constructor; try congruence; auto. Qed.

(** *** Letting a slot go *)

Lemma discard_frame l s : sd_wf (sdev s) ->
  sframe s (discard_slots l s) /\ (forall i, sv (discard_slots l s) i = sv s i)
  /\ (forall i p, i ∉ l -> slot_byte (discard_slots l s) i p = slot_byte s i p) /\ pend (discard_slots l s) = pend s.
Proof.
  intros Hw. assert (forall rs d, sd_wf d -> let d' := foldl (fun d r => tb_discard d (fst r) (snd r)) d rs in
    sd_wf d' /\ (forall i, sd_entry d' i = sd_entry d i)
    /\ forall i p, (forall r, r ∈ rs -> ~ (fst r <= i <= snd r)) -> sd_byte d' i p = sd_byte d i p) as Hr.
  { clear. induction rs as [|r rs IH]; intros d Hd; cbn [foldl]; [done|].
    destruct (sd_discard_law d (fst r) (snd r) Hd) as (A & B & C). destruct (IH _ A) as (A' & B' & C').
    split_and!; [done|intros; by rewrite B'|]. intros i p Hi. rewrite C', C; [done|apply Hi; set_solver|].
    intros r' Hr'. apply Hi. set_solver. }
  destruct (Hr (runs_of l) (sdev s) Hw) as (A & B & C). unfold discard_slots. split_and!; try done.
  - intros i. unfold sv. cbn. by rewrite B.
  - intros i p Hi. apply C. intros r Hrr Hin. apply Hi, runs_of_cover. by exists r.
Qed.

Ltac sview_cbn :=
  unfold sv, s_ent, s_unget, s_letgo, s_erase, s_alloc;
  cbn [pend sdev free_bitmap upd_pend upd_dev upd_map count_retired set_entries set_unpublished set_ready set_freeing set_released
       set_erasing set_erasing_now set_by_volume unpublished ready freeing released erasing erasing_now entries
       sv_free sv_unp sv_fng sv_rel sv_ent sv_dev].
Ltac sview_eq := sview_cbn; f_equal; try view_field.

Lemma retire_ok' W i s : sinv W s -> in_cap s i -> own (sv_now (sv s i)) = true ->
  exists w s', retire i s = (Ok w, s') /\ sinv (if w then {[i]} ∪ W else W) s' /\ sframe s s'
    /\ (forall j, j <> i -> sv s' j = sv s j) /\ own (sv_now (sv s' i)) = false
    /\ forall j p, slot_byte s' j p = slot_byte s j p.
Proof.
  intros HI Hi Ho. pose proof (si_good _ _ HI i Hi) as G. destruct (sgood_own _ _ G Ho) as (Hw & Hf & Hr & Hg). rewrite Hw in G.
  unfold retire. destruct (decide (erase_level_now s <> ENone)).
  - destruct (slot_now_quiet i s (si_dev _ _ HI)) as (s1 & E1 & Q1). rewrite E1.
    set (e := sv_now (sv s i)) in *. set (e' := mkSlot Erasing _ _ _ _).
    match goal with |- exists w s', (Ok true, if ?b then count_retired ?x else _) = _ /\ _ => set (s2 := x); set (fresh := b) end.
    assert (forall j, j <> i -> sv s2 j = sv s j) as Hne.
    { intros j Hj. rewrite <- (quiet_sv s s1 j Q1). unfold s2. sview_eq. }
    assert (sv s2 i = s_erase e' (sv s i)) as Hei by (rewrite <- (quiet_sv s s1 i Q1); unfold s2; sview_eq).
    assert (sframe s s2) as HF.
    { apply (sframe_trans _ s1); [by apply quiet_frame|]. by constructor. }
    exists true, (if fresh then count_retired s2 else s2). split; [done|].
    assert (sinv ({[i]} ∪ W) s2) as HI2.
    { apply (sinv_one W _ i s s2 HI HF Hi Hne); [set_solver|]. intros _. rewrite Hei, bool_decide_true by set_solver.
      by apply sgood_erase. }
    assert (forall j p, slot_byte s2 j p = slot_byte s j p) as Hb by (intros; apply (ds_byte _ _ _ _ _ (proj2 Q1))).
    assert (own (sv_now (sv s2 i)) = false) as Ho2 by by rewrite Hei.
    destruct fresh; conjs; done || (by destruct HI2) || by destruct HF.
  - set (s1 := upd_pend (set_ready (fun r => r ∖ {[i]})) s).
    destruct (decide (i ∈ unpublished (pend s1))) as [Hu|Hu].
    + set (s2 := upd_pend _ s1). exists false, (upd_map s2 (fm_set (free_bitmap s2) i true) (free_count s2 + 1)). split; [done|].
      assert (0 <= i) as Hi0 by apply Hi.
      assert (i < fm_len (free_bitmap s)) as Hlen.
      { cbn in Hf. unfold map_free in Hf. apply orb_false_iff in Hf as [_ Hm]. apply negb_false_iff, in_map_spec in Hm. lia. }
      assert (forall j, j <> i -> sv (upd_map s2 (fm_set (free_bitmap s2) i true) (free_count s2 + 1)) j = sv s j) as Hne.
      { intros j Hj. unfold s2, s1. sview_eq. rewrite map_free_set by lia. by rewrite bool_decide_false, orb_false_r. }
      assert (sv (upd_map s2 (fm_set (free_bitmap s2) i true) (free_count s2 + 1)) i = s_unget (sv s i)) as Hei.
      { unfold s2, s1. sview_eq. rewrite map_free_set by lia. by rewrite bool_decide_true, orb_true_r. }
      destruct (sgood_unget (sv s i) ltac:(by apply bool_decide_true) Ho G) as [G' Ho'].
      assert (sframe s (upd_map s2 (fm_set (free_bitmap s2) i true) (free_count s2 + 1))) as HF.
      { constructor; try done; cbn; [intros; by apply fm_set_ok|by apply fm_set_len]. }
      conjs; try done; [|by rewrite Hei].
      apply (sinv_one W W i s _ HI HF Hi Hne); [done|]. by rewrite Hei, Hw.
    + set (s2 := upd_pend _ s1). exists true, s2. split; [done|].
      assert (forall j, j <> i -> sv s2 j = sv s j) as Hne by (intros j Hj; unfold s2, s1; sview_eq).
      assert (sv s2 i = s_letgo (sv s i)) as Hei by (unfold s2, s1; sview_eq).
      assert (sframe s s2) as HF by by constructor.
      conjs; try done; [|by rewrite Hei].
      apply (sinv_one W _ i s _ HI HF Hi Hne); [set_solver|]. intros _. rewrite Hei, bool_decide_true by set_solver.
      apply sgood_letgo; [by apply bool_decide_false|done|done].
Qed.

(** Every slot in use is counted, and every entry is where the lists say. *)
Definition slab_wf (s : slab D) : Prop := sinv ∅ s /\ spos s.

(** A slab just formatted, its table committed and zeroed. *)
Lemma formatted_wf d h step : sd_wf d -> (forall i, own (sd_entry d i) = false) -> 0 <= table_capacity h -> 0 <= step ->
  slab_wf (slab_formatted d h step).
Proof.
  intros Hd Ho Hcap Hstep. unfold slab_formatted. set (n := committed _).
  assert (n <= table_capacity h) as Hn by apply committed_le_cap.
  split; [constructor; cbn [free_bitmap commit sdev pend cm_cap cm_step]; try done|].
  - unfold fm_len, zlen, fm_new, recount. cbn. rewrite length_replicate. lia.
  - intros i Hi. rewrite bool_decide_false by set_solver. apply sgood_fresh; [by split_and!|apply Ho].
  - intros i _ Hown. change (own (sd_entry d i) = true) in Hown. by rewrite Ho in Hown.
Qed.
Lemma held_own s i : slab_wf s -> 0 < held_refs s i -> in_cap s i /\ own (sv_now (sv s i)) = true.
Proof.
  intros HW. unfold held_refs, sv_refs. case_bool_decide; [|lia]. destruct (own _); [done|lia].
Qed.
Lemma own_held s i : slab_wf s -> in_cap s i -> own (sv_now (sv s i)) = true -> held_refs s i = ref_count (sv_now (sv s i)).
Proof. intros HW Hi Ho. unfold held_refs, sv_refs. by rewrite bool_decide_true, Ho. Qed.
Lemma slab_refs_nonneg s i : slab_wf s -> 0 <= held_refs s i.
Proof.
  intros [_ HP]. unfold held_refs, sv_refs. case_bool_decide as Hi; [|lia]. destruct (own _) eqn:E; [|lia].
  specialize (HP i Hi E). lia.
Qed.

(** An operation on slot [i] alone that left it with [n] shares, or its counts alone moved. *)
Lemma one_pos i s s' : spos s -> sframe s s' -> (forall j, j <> i -> sv_now (sv s' j) = sv_now (sv s j)) ->
  (own (sv_now (sv s' i)) = true -> 1 <= ref_count (sv_now (sv s' i))) -> spos s'.
Proof.
  intros HP [_ F2 _ _ _] Hne Hi j. unfold in_cap. rewrite F2. intros Hj. destruct (decide (j = i)) as [->|Hn]; [exact Hi|].
  rewrite (Hne j Hn). by apply HP.
Qed.
Lemma one_chg i Y s s' : sframe s s' -> (forall j, j <> i -> sv_now (sv s' j) = sv_now (sv s j)) ->
  (forall j p, j ∉ Y -> slot_byte s' j p = slot_byte s j p) -> chg {[i]} Y s s'.
Proof.
  intros HF Hne Hb. apply (chg_frame _ _ _ _ HF); [|exact Hb]. intros j Hj. unfold sv_refs. rewrite Hne; [done|set_solver].
Qed.
Lemma gone_refs s i : own (sv_now (sv s i)) = false -> held_refs s i = 0.
Proof. intros E. unfold held_refs, sv_refs. rewrite E. by case_bool_decide. Qed.

Definition let_go (i : Z) : M D () :=
  bind (retire i) (fun w => bind (if w : bool then persist_slot i else ret ())
    (fun _ => modify (fun s => if is_erasing s i then s else discard_slots [i] s))).

Lemma let_go_ok i s : sinv ∅ s -> in_cap s i -> own (sv_now (sv s i)) = true ->
  exists s', let_go i s = (Ok (), s') /\ sinv ∅ s' /\ sframe s s' /\ own (sv_now (sv s' i)) = false
    /\ (forall j, j <> i -> sv_now (sv s' j) = sv_now (sv s j)) /\ forall j p, j <> i -> slot_byte s' j p = slot_byte s j p.
Proof.
  intros HI Hi Ho. destruct (retire_ok' ∅ i s HI Hi Ho) as (w & s1 & E1 & HI1 & F1 & Hne1 & Ho1 & Hb1).
  unfold let_go, bind. rewrite E1.
  assert (exists s2, (if w : bool then persist_slot i else ret ()) s1 = (Ok (), s2) /\ sinv ∅ s2 /\ sframe s1 s2
    /\ (forall j, sv_now (sv s2 j) = sv_now (sv s1 j)) /\ forall j p, slot_byte s2 j p = slot_byte s1 j p)
    as (s2 & E2 & HI2 & F2 & Hn2 & Hb2).
  { destruct w; [|by exists s1; conjs; [..|constructor| |]]. unfold persist_slot.
    destruct (persist_ok' [i] _ s1 HI1 ltac:(set_solver)) as (s2 & E & ? & ? & ? & ? & _). by exists s2. }
  rewrite E2. unfold modify. destruct (is_erasing s2 i).
  - exists s2. conjs; try done; [by eapply sframe_trans|by rewrite Hn2| |].
    + intros j Hj. by rewrite Hn2, Hne1.
    + intros j p Hj. by rewrite Hb2, Hb1.
  - destruct (discard_frame [i] s2 (si_dev _ _ HI2)) as (F3 & Hv3 & Hb3 & _). exists (discard_slots [i] s2). conjs; try done.
    + apply (sinv_frame ∅ ∅ s2 _ HI2 F3); intros j _; by rewrite Hv3.
    + eapply sframe_trans; [exact F1|]. by eapply sframe_trans.
    + by rewrite Hv3, Hn2.
    + intros j Hj. by rewrite Hv3, Hn2, Hne1.
    + intros j p Hj. rewrite Hb3 by set_solver. by rewrite Hb2, Hb1.
Qed.

Lemma free_let_go i s : sd_wf (sdev s) -> own (sv_now (sv s i)) = true -> i < committed (commit s) ->
  exists s1, free i s = let_go i s1 /\ quiet s s1.
Proof.
  intros Hw Ho Hi. destruct (slot_now_quiet i s Hw) as (s1 & E1 & Q1). exists s1. split; [|done].
  unfold free, bind at 1, in_range. destruct (Z.leb_spec (committed (commit s)) i); [lia|].
  unfold bind at 1. rewrite E1. change (is_owned (state (sv_now (sv s i)))) with (own (sv_now (sv s i))). by rewrite Ho.
Qed.

Lemma free_slot i s : slab_wf s -> 0 < held_refs s i ->
  slab_wf (snd (free i s)) /\ chg {[i]} {[i]} s (snd (free i s))
  /\ (held_refs (snd (free i s)) i = 0 \/ chg {[i]} ∅ s (snd (free i s))).
Proof.
  intros HW Hh. destruct (held_own s i HW Hh) as [Hc Ho]. destruct HW as [HI HP].
  destruct (decide (i < committed (commit s))) as [Hi|Hi].
  - destruct (free_let_go i s (si_dev _ _ HI) Ho Hi) as (s1 & -> & Q1).
    assert (in_cap s1 i) as Hc1 by (destruct Q1 as [-> _]; exact Hc).
    destruct (let_go_ok i s1 (quiet_inv _ _ _ Q1 HI) Hc1 ltac:(by rewrite (quiet_sv _ _ _ Q1)))
      as (s2 & E2 & HI2 & F2 & Ho2 & Hn2 & Hb2). rewrite E2. cbn [snd].
    assert (forall j, j <> i -> sv_now (sv s2 j) = sv_now (sv s j)) as Hn by (intros; by rewrite Hn2, (quiet_sv _ _ _ Q1)).
    assert (sframe s s2) as HF by (eapply sframe_trans; [by apply quiet_frame|done]).
    conjs.
    + split; [exact HI2|]. apply (one_pos i s s2 HP HF Hn). congruence.
    + apply (one_chg i _ s s2 HF Hn). intros j p Hj. rewrite Hb2 by set_solver. apply (ds_byte _ _ _ _ _ (proj2 Q1)).
    + left. by apply gone_refs.
  - assert (free i s = (Err (EOutOfRange i), s)) as ->.
    { unfold free, bind at 1, in_range. by destruct (Z.leb_spec (committed (commit s)) i); [|lia]. }
    conjs; [by split|apply chg_refl|right; apply chg_refl].
Qed.

(** *** Share counts *)

Lemma set_slot_frame i e s : sframe s (set_slot i e s).
Proof. by constructor. Qed.
Lemma set_slot_sv i e s j : sv (set_slot i e s) j = if decide (j = i) then s_ent (Some e) (sv s i) else sv s j.
Proof. unfold set_slot. case_decide; subst; sview_eq. Qed.
Lemma set_slot_inv W i e s : sinv W s -> in_cap s i -> own (sv_now (sv s i)) = true -> own e = true -> sinv W (set_slot i e s).
Proof.
  intros HI Hi Ho He. apply (sinv_one W W i s _ HI (set_slot_frame _ _ _) Hi); [|done|].
  - intros j Hj. rewrite set_slot_sv. by rewrite decide_False.
  - intros G. rewrite set_slot_sv, decide_True by done. by apply sgood_ent.
Qed.
Lemma add_ready_frame i s : sframe s (add_ready i s).
Proof. by constructor. Qed.
Lemma add_ready_inv W i s : sinv W s -> sinv W (add_ready i s).
Proof. intros HI. apply (sinv_frame W W s _ HI (add_ready_frame _ _)); by intros. Qed.

Lemma own_refs e n : own (with_refs e n) = own e.
Proof. done. Qed.

Lemma refs_with e n v : sv_refs (s_ent (Some (with_refs e n)) v) = if own e then n else 0.
Proof. done. Qed.

Lemma dec_ref_slot i s : slab_wf s -> 0 < held_refs s i ->
  slab_wf (snd (dec_ref i s)) /\ chg {[i]} {[i]} s (snd (dec_ref i s)) /\ held_refs s i - 1 <= held_refs (snd (dec_ref i s)) i
  /\ (held_refs (snd (dec_ref i s)) i = 0 \/ chg {[i]} ∅ s (snd (dec_ref i s))).
Proof.
  intros HW Hh. destruct (held_own s i HW Hh) as [Hc Ho]. pose proof (own_held s i HW Hc Ho) as Hrefs.
  destruct (decide (i < committed (commit s))) as [Hi|Hi]; cycle 1.
  { assert (dec_ref i s = (Err (EOutOfRange i), s)) as ->.
    { unfold dec_ref, bind at 1, in_range. by destruct (Z.leb_spec (committed (commit s)) i); [|lia]. }
    cbn. conjs; [done|apply chg_refl|lia|right; apply chg_refl]. }
  destruct HW as [HI HP]. destruct (slot_now_quiet i s (si_dev _ _ HI)) as (s1 & E1 & Q1).
  set (e := sv_now (sv s i)) in *. set (e' := with_refs e (ref_count e - 1)).
  pose proof (quiet_inv _ _ _ Q1 HI) as HI1. pose proof (fun j => quiet_sv s s1 j Q1) as Hv1.
  assert (in_cap s1 i) as Hc1 by (destruct Q1 as [-> _]; exact Hc).
  assert (own (sv_now (sv s1 i)) = true) as Ho1 by by rewrite Hv1.
  assert (dec_ref i s = if ref_count e - 1 =? 0
    then bind (free i) (fun _ => ret true) (set_slot i e' s1) else (Ok false, add_ready i (set_slot i e' s1))) as ->.
  { unfold dec_ref, bind at 1, in_range. destruct (Z.leb_spec (committed (commit s)) i); [lia|].
    unfold bind at 1. rewrite E1. fold e. change (is_owned (state e)) with (own e). rewrite Ho. cbn [negb orb].
    replace (ref_count e =? 0) with false by lia. change (ref_count (with_refs e (ref_count e - 1))) with (ref_count e - 1).
    fold e'. by destruct (ref_count e - 1 =? 0). }
  pose proof (set_slot_inv ∅ i e' s1 HI1 Hc1 Ho1 Ho) as HI2. set (s2 := set_slot i e' s1) in *.
  assert (forall j, sv s2 j = if decide (j = i) then s_ent (Some e') (sv s i) else sv s j) as Hv2.
  { intros j. unfold s2. rewrite set_slot_sv, !Hv1. done. }
  assert (sframe s s2) as F2 by (eapply sframe_trans; [by apply quiet_frame|apply set_slot_frame]).
  assert (forall j p, slot_byte s2 j p = slot_byte s j p) as Hb2 by (intros; apply (ds_byte _ _ _ _ _ (proj2 Q1))).
  assert (forall j, j <> i -> sv_now (sv s2 j) = sv_now (sv s j)) as Hn2 by (intros; by rewrite Hv2, decide_False).
  assert (sv_now (sv s2 i) = e') as Hi2 by by rewrite Hv2, decide_True.
  destruct (Z.eqb_spec (ref_count e - 1) 0) as [Hz|Hnz].
  - destruct (free_let_go i s2 (si_dev _ _ HI2) ltac:(by rewrite Hi2) ltac:(by rewrite (sf_commit _ _ F2))) as (s3 & E3 & Q3).
    assert (in_cap s3 i) as Hc3 by (destruct Q3 as [-> _]; change (in_cap s2 i); unfold in_cap; by rewrite (sf_commit _ _ F2)).
    destruct (let_go_ok i s3 (quiet_inv _ _ _ Q3 HI2) Hc3 ltac:(by rewrite (quiet_sv _ _ _ Q3), Hi2))
      as (s4 & E4 & HI4 & F4 & Ho4 & Hn4 & Hb4).
    unfold bind. rewrite E3, E4. cbn [ret snd].
    assert (sframe s s4) as F by (eapply sframe_trans; [exact F2|]; eapply sframe_trans; [by apply quiet_frame|done]).
    assert (forall j, j <> i -> sv_now (sv s4 j) = sv_now (sv s j)) as Hn by (intros; by rewrite Hn4, (quiet_sv _ _ _ Q3), Hn2).
    pose proof (gone_refs s4 i Ho4) as Hg. conjs; [split; [done|]|apply (one_chg i _ _ _ F Hn)|lia|by left].
    + apply (one_pos i s s4 HP F Hn). congruence.
    + intros j p Hj. rewrite Hb4 by set_solver. etransitivity; [apply (ds_byte _ _ _ _ _ (proj2 Q3))|apply Hb2].
  - cbn [snd]. assert (forall Y, chg {[i]} Y s (add_ready i s2)) as HC.
    { intros Y. apply (one_chg i); [|exact Hn2|intros j p _; apply Hb2].
      eapply sframe_trans; [exact F2|apply add_ready_frame]. }
    assert (spos (add_ready i s2)) as HP'.
    { apply (one_pos i s _ HP); [eapply sframe_trans; [exact F2|apply add_ready_frame]|done|].
      intros _. change (sv (add_ready i s2) i) with (sv s2 i). rewrite Hi2. specialize (HP i Hc Ho). fold e in HP.
      change (1 <= ref_count e - 1). lia. }
    assert (slab_wf (add_ready i s2)) as HW' by (split; [by apply add_ready_inv|done]).
    conjs; [done|apply HC| |right; apply HC].
    rewrite (own_held _ i HW'); change (sv (add_ready i s2) i) with (sv s2 i); rewrite ?Hi2; [rewrite Hrefs; reflexivity || (fold e; change (ref_count e - 1 <= ref_count e - 1); lia)| |done].
    change (in_cap s2 i). unfold in_cap. by rewrite (sf_commit _ _ F2).
Qed.

Lemma check_owned_quiet l : forall s r s', sd_wf (sdev s) -> check_owned l None s = (r, s') ->
  quiet s s' /\ forall es, r = Ok es -> es = map (fun i => (i, sv_now (sv s i))) l
    /\ Forall (fun i => i < committed (commit s) /\ own (sv_now (sv s i)) = true) l.
Proof.
  induction l as [|i l IH]; intros s r s' Hw; cbn [check_owned].
  { intros [= <- <-]. split; [by apply quiet_refl|]. by intros es [= <-]. }
  unfold bind at 1, in_range. destruct (Z.leb_spec (committed (commit s)) i).
  { intros [= <- <-]. split; [by apply quiet_refl|done]. }
  destruct (slot_with_quiet i s Hw) as (s1 & E1 & Q1). unfold bind at 1. rewrite E1.
  change (is_owned (state (sv_now (sv s i)))) with (own (sv_now (sv s i))). destruct (own (sv_now (sv s i))) eqn:Ho.
  - unfold bind. destruct (check_owned l None s1) as [r2 s2] eqn:E2.
    destruct (IH s1 r2 s2 (ds_wf _ _ _ _ _ (proj2 Q1)) E2) as [Q2 Hes]. destruct r2 as [es2|]; intros [= <- <-].
    + split; [by eapply quiet_trans|]. intros es [= <-]. destruct (Hes es2 eq_refl) as [-> Hall]. split.
      * cbn [map]. f_equal. apply map_ext. intros j. by rewrite (quiet_sv _ _ _ Q1).
      * constructor; [done|]. eapply Forall_impl; [exact Hall|]. intros j. cbn beta. rewrite (quiet_sv _ _ _ Q1).
        by destruct Q1 as [-> _].
    + split; [by eapply quiet_trans|done].
  - intros [= <- <-]. split; [done|done].
Qed.

Lemma times_cons j i l : times j (i :: l) = (if decide (i = j) then 1 else 0) + times j l.
Proof. unfold times. rewrite filter_cons. case_decide; [by rewrite zlen_cons|lia]. Qed.
Lemma times_nonneg j l : 0 <= times j l.
Proof. apply zlen_nonneg. Qed.
Lemma times_pos j l : 0 < times j l <-> j ∈ l.
Proof.
  induction l as [|i l IH]; [split; [done|by intros ?%elem_of_nil]|]. rewrite times_cons, elem_of_cons.
  pose proof (times_nonneg j l). case_decide; subst; [split; [by left|lia]|]. rewrite <- IH. split; [auto with lia|]. intros [?|?]; [done|lia].
Qed.

Lemma bump_refs_all (now : Z -> Slot) l j :
  bump_refs (map (fun i => (i, now i)) l) !! j
  = if decide (j ∈ l) then Some (with_refs (now j) (ref_count (now j) + times j l)) else None.
Proof.
  unfold bump_refs. assert (forall (m : gmap Z Slot) (n : Z -> Z), (forall j, m !! j = if decide (0 < n j) then Some (with_refs (now j) (ref_count (now j) + n j)) else None) ->
    (forall j, 0 <= n j) -> foldl (fun m ie => <[fst ie := with_refs (default (snd ie) (m !! fst ie)) (ref_count (default (snd ie) (m !! fst ie)) + 1)]> m)
      m (map (fun i => (i, now i)) l) !! j
    = if decide (0 < n j + times j l) then Some (with_refs (now j) (ref_count (now j) + (n j + times j l))) else None) as Hgen.
  { induction l as [|i l IH]; intros m n Hm Hn; cbn [map foldl fst snd].
    { rewrite Hm. unfold times. cbn. by rewrite Z.add_0_r. }
    rewrite (IH _ (fun k => if decide (i = k) then n k + 1 else n k)).
    - rewrite times_cons.
      replace ((if decide (i = j) then n j + 1 else n j) + times j l)
        with (n j + ((if decide (i = j) then 1 else 0) + times j l)) by (case_decide; lia). done.
    - intros k. destruct (decide (i = k)) as [->|Hne].
      + rewrite lookup_insert_eq, Hm. specialize (Hn k). rewrite (decide_True (P := 0 < n k + 1)) by lia. case_decide; cbn.
        * f_equal. unfold with_refs. cbn. f_equal. lia.
        * replace (n k) with 0 by lia. f_equal.
      + rewrite lookup_insert_ne by done. apply Hm.
    - intros k. specialize (Hn k). case_decide; lia. }
  rewrite (Hgen ∅ (fun _ => 0)); [|intros; by rewrite lookup_empty|done]. cbn.
  destruct (decide (j ∈ l)) as [Hj|Hj]; rewrite <- times_pos in Hj; [by rewrite decide_True|by rewrite decide_False].
Qed.

Lemma inc_batch_slots l s : slab_wf s -> Forall (fun i => 0 < held_refs s i) l ->
  slab_wf (snd (inc_ref_batch l None s))
  /\ chg (list_to_set l) ∅ s (snd (inc_ref_batch l None s))
  /\ match fst (inc_ref_batch l None s) with
     | Ok _ => forall j, held_refs (snd (inc_ref_batch l None s)) j = held_refs s j + times j l
     | Err _ => forall j, held_refs (snd (inc_ref_batch l None s)) j = held_refs s j
     end.
Proof.
  intros [HI HP] Hl. unfold inc_ref_batch, bind. destruct (check_owned l None s) as [r s1] eqn:E.
  destruct (check_owned_quiet l s r s1 (si_dev _ _ HI) E) as [Q1 Hes]. pose proof (fun j => quiet_sv s s1 j Q1) as Hv1.
  pose proof (quiet_inv _ _ _ Q1 HI) as HI1. pose proof (quiet_pos _ _ Q1 HP) as HP1.
  destruct r as [es|e]; cbn [fst snd]; cycle 1.
  { conjs; [by split|by apply quiet_chg|]. intros j. by apply (cg_refs ∅ ∅ s s1 (quiet_chg _ _ _ _ Q1)). }
  destruct (Hes es eq_refl) as [-> Hall]. set (b := bump_refs _). unfold modify. cbn [fst snd].
  set (s2 := upd_pend _ s1).
  assert (forall j, sv s2 j = if decide (j ∈ l)
    then s_ent (Some (with_refs (sv_now (sv s j)) (ref_count (sv_now (sv s j)) + times j l))) (sv s j) else sv s j) as Hv2.
  { intros j. rewrite <- Hv1. unfold sv at 1, s2. cbn [pend sdev free_bitmap upd_pend set_entries set_ready unpublished freeing released entries].
    rewrite lookup_union. unfold b. rewrite bump_refs_all, Hv1. unfold s_ent.
    destruct (decide (j ∈ l)); rewrite <- ?Hv1; unfold sv; cbn; f_equal; by destruct (entries (pend s1) !! j). }
  assert (sframe s s2) as F2 by (eapply sframe_trans; [by apply quiet_frame|]; by constructor).
  assert (forall j, in_cap s j -> own (sv_now (sv s2 j)) = own (sv_now (sv s j))) as Ho2.
  { intros j Hj. rewrite Hv2. by case_decide. }
  assert (forall j, j ∈ l -> in_cap s j /\ own (sv_now (sv s j)) = true) as Hin.
  { intros j Hj. apply held_own; [by split|]. rewrite Forall_forall in Hl. auto. }
  assert (forall j, held_refs s2 j = held_refs s j + times j l) as Hr.
  { intros j. unfold held_refs, in_cap. rewrite (sf_commit _ _ F2). fold (in_cap s j).
    rewrite Hv2. destruct (decide (j ∈ l)) as [Hj|Hj].
    - destruct (Hin j Hj) as [Hc Ho]. rewrite bool_decide_true by done. rewrite refs_with, Ho. unfold sv_refs. by rewrite Ho.
    - replace (times j l) with 0; [by rewrite Z.add_0_r|]. rewrite <- times_pos in Hj. pose proof (times_nonneg j l). lia. }
  conjs; [split|..].
  - apply (sinv_frame ∅ ∅ s s2 HI F2); intros i Hi; rewrite Hv2; destruct (decide (i ∈ l)) as [Hj|Hj]; try done.
    + intros G. destruct (Hin i Hj). by apply sgood_ent.
    + by destruct (Hin i Hj).
  - intros j. unfold in_cap. rewrite (sf_commit _ _ F2). intros Hj. rewrite Ho2 by done. intros Ho. rewrite Hv2.
    specialize (HP j Hj Ho). pose proof (times_nonneg j l). destruct (decide (j ∈ l)); [|done].
    change (1 <= ref_count (sv_now (sv s j)) + times j l). lia.
  - constructor; [by rewrite (sf_sh _ _ F2)|rewrite (sf_commit _ _ F2); lia| |intros i p _; apply (ds_byte _ _ _ _ _ (proj2 Q1))].
    intros i Hi. rewrite Hr. replace (times i l) with 0; [lia|]. pose proof (times_nonneg i l).
    rewrite elem_of_list_to_set, <- times_pos in Hi. lia.
  - exact Hr.
Qed.

(** What a batch of decrements keeps: slots let go of wait for their entries in [dc_touched]. *)
Record dec_sinv (s0 : slab D) (l : list Z) (d : dec_state) (s : slab D) : Prop := {
  dv_inv : exists W, sinv W s /\ forall i, i ∈ W -> i ∈ dc_touched d;
  dv_pos : spos s;
  dv_frame : sframe s0 s;
  dv_bytes i p : slot_byte s i p = slot_byte s0 i p;
  dv_refs i : held_refs s0 i - 1 <= held_refs s i;
  dv_todo i : i ∉ dc_seen d -> sv_now (sv s i) = sv_now (sv s0 i);
  dv_seen i : i ∈ dc_seen d -> i ∈ l;
  dv_gone i : i ∈ dc_freed d -> i ∈ dc_seen d /\ own (sv_now (sv s i)) = false }.

Lemma dec_sinv_same s0 l d d' s s' : dec_sinv s0 l d s -> quiet s s' -> dc_touched d' = dc_touched d ->
  dc_freed d' = dc_freed d -> (forall i, i ∈ dc_seen d' -> i ∈ dc_seen d \/ i ∈ l) -> dc_seen d ⊆ dc_seen d' -> dec_sinv s0 l d' s'.
Proof.
  intros [(W & HI & HW) HP HF Hb Hr Ht Hs Hg] HQ E1 E2 Hse Hmono. pose proof (fun i => quiet_sv s s' i HQ) as Hv.
  constructor.
  - exists W. rewrite E1. split; [by eapply quiet_inv|done].
  - by eapply quiet_pos.
  - eapply sframe_trans; [done|by apply quiet_frame].
  - intros. etransitivity; [apply (ds_byte _ _ _ _ _ (proj2 HQ))|apply Hb].
  - intros i. rewrite (cg_refs ∅ ∅ s s' (quiet_chg _ _ _ _ HQ)); [apply Hr|set_solver].
  - intros i Hi. rewrite Hv. auto.
  - intros i Hi. destruct (Hse i Hi); auto.
  - intros i. rewrite E2, Hv. intros Hi. destruct (Hg i Hi). auto.
Qed.

Lemma dec_one_slot s0 l i d s : slab_wf s0 -> Forall (fun i => 0 < held_refs s0 i) l -> i ∈ l -> dec_sinv s0 l d s ->
  exists d' s', dec_one i None d s = (Ok d', s') /\ dec_sinv s0 l d' s'.
Proof.
  intros HW0 Hl Hil HD. pose proof HD as [(W & HI & HW) HP HF Hb Hr Ht Hs Hg].
  assert (forall t, dec_sinv s0 l (mkDec ({[i]} ∪ dc_seen d) (dc_touched d) (dc_freed d) t) s) as Hd1.
  { intros t. apply (dec_sinv_same s0 l d _ s s HD); try done; [apply quiet_refl, (si_dev _ _ HI)|set_solver|set_solver]. }
  unfold dec_one. destruct (decide (i ∈ dc_seen d)) as [|Hns]; [by eexists _, _; split; [reflexivity|apply Hd1]|].
  unfold bind at 1, gets. destruct (Z.leb_spec (committed (commit s)) i) as [|Hci].
  { eexists _, _. split; [reflexivity|]. unfold reject. cbn. rewrite (assoc_L (∪)), union_idemp_L. apply Hd1. }
  destruct (slot_with_quiet i s (si_dev _ _ HI)) as (s1 & E1 & Q1). unfold bind at 1. rewrite E1.
  set (e := sv_now (sv s i)). change (is_owned (state e)) with (own e).
  pose proof (fun t => dec_sinv_same s0 l _ _ s s1 (Hd1 t) Q1 eq_refl eq_refl ltac:(set_solver) ltac:(done)) as Hd2. cbn in Hd2.
  destruct (negb (own e) || (ref_count e =? 0)) eqn:Ebad.
  { eexists _, _. split; [reflexivity|]. unfold reject. cbn. rewrite (assoc_L (∪)), union_idemp_L. apply Hd2. }
  apply orb_false_iff in Ebad as [Ho%negb_false_iff Hnz%Z.eqb_neq].
  assert (in_cap s i) as Hc.
  { rewrite Forall_forall in Hl. destruct (held_own s0 i HW0 (Hl i Hil)) as [Hc _]. unfold in_cap. by rewrite (sf_commit _ _ HF). }
  pose proof (quiet_inv _ _ _ Q1 HI) as HI1. pose proof (fun j => quiet_sv s s1 j Q1) as Hv1.
  assert (in_cap s1 i) as Hc1 by (destruct Q1 as [-> _]; exact Hc).
  assert (sframe s0 s1) as HF1 by (eapply sframe_trans; [exact HF|by apply quiet_frame]).
  specialize (HP i Hc Ho). fold e in HP.
  assert (held_refs s0 i = ref_count e) as Hr0.
  { unfold held_refs, sv_refs, in_cap. rewrite <- (sf_commit _ _ HF), bool_decide_true by done.
    rewrite <- (Ht i Hns). fold e. by rewrite Ho. }
  (* Whatever was done to the slot, it was to this slot. *)
  assert (forall s2 W2 d2, sinv W2 s2 -> (forall j, j ∈ W2 -> j ∈ dc_touched d2) -> sframe s1 s2 ->
    (forall j, j <> i -> sv s2 j = sv s1 j) -> (forall j p, slot_byte s2 j p = slot_byte s1 j p) ->
    (own (sv_now (sv s2 i)) = true -> 1 <= ref_count (sv_now (sv s2 i))) -> ref_count e - 1 <= sv_refs (sv s2 i) ->
    dc_seen d2 = {[i]} ∪ dc_seen d -> (forall j, j ∈ dc_freed d2 -> j ∈ dc_freed d \/ j = i /\ own (sv_now (sv s2 i)) = false) ->
    dec_sinv s0 l d2 s2) as Hfin.
  { intros s2 W2 d2 HI2 HW2 HF2 Hne Hb2 Hp2 Hr2 Hseen Hfr. destruct HD as [_ HPs _ _ _ _ _ _]. constructor.
    - by exists W2.
    - apply (one_pos i s s2 HPs); [eapply sframe_trans; [by apply quiet_frame|done]| |done]. intros j Hj. by rewrite Hne, Hv1.
    - by eapply sframe_trans.
    - intros j p. rewrite Hb2. etransitivity; [apply (ds_byte _ _ _ _ _ (proj2 Q1))|apply Hb].
    - intros j. destruct (decide (j = i)) as [->|Hj].
      + rewrite Hr0. unfold held_refs, in_cap. rewrite (sf_commit _ _ HF2). fold (in_cap s1 i). by rewrite bool_decide_true.
      + replace (held_refs s2 j) with (held_refs s j); [apply Hr|]. unfold held_refs, in_cap.
        rewrite (sf_commit _ _ HF2), (proj1 Q1). cbn. by rewrite Hne, Hv1.
    - intros j. rewrite Hseen. intros Hj. rewrite Hne, Hv1 by set_solver. apply Ht. set_solver.
    - intros j. rewrite Hseen. set_solver.
    - intros j Hj. rewrite Hseen. destruct (Hfr j Hj) as [Hj'|[-> Hg']]; [|set_solver].
      destruct (Hg j Hj') as [? ?]. split; [set_solver|]. rewrite Hne, Hv1; [done|]. intros ->. done. }
  change (ref_count (with_refs e (ref_count e - 1))) with (ref_count e - 1). destruct (Z.ltb_spec 0 (ref_count e - 1)).
  - unfold bind, modify, ret. eexists _, _. split; [reflexivity|].
    pose proof (set_slot_inv W i (with_refs e (ref_count e - 1)) s1 HI1 Hc1 ltac:(by rewrite Hv1) Ho) as HI2.
    assert (sv (add_ready i (set_slot i (with_refs e (ref_count e - 1)) s1)) i
            = s_ent (Some (with_refs e (ref_count e - 1))) (sv s1 i)) as Hi2.
    { transitivity (sv (set_slot i (with_refs e (ref_count e - 1)) s1) i); [done|]. by rewrite set_slot_sv, decide_True. }
    apply (Hfin _ W); try done.
    + by apply add_ready_inv.
    + intros j Hj. transitivity (sv (set_slot i (with_refs e (ref_count e - 1)) s1) j); [done|]. by rewrite set_slot_sv, decide_False.
    + rewrite Hi2. intros _. change (1 <= ref_count e - 1). lia.
    + rewrite Hi2, refs_with, Ho. lia.
    + intros j Hj. by left.
  - destruct (retire_ok' W i s1 HI1 Hc1 ltac:(by rewrite Hv1)) as (w & s2 & E2 & HI2 & F2 & Hne2 & Ho2 & Hb2).
    unfold bind. rewrite E2. unfold ret. eexists _, _. split; [reflexivity|].
    apply (Hfin _ (if w then {[i]} ∪ W else W)); try done; cbn [dc_touched dc_freed].
    + intros j Hj. destruct w; [|by apply HW]. apply elem_of_app. apply elem_of_union in Hj as [Hj|Hj]; [right; set_solver|left; auto].
    + congruence.
    + unfold sv_refs. rewrite Ho2. lia.
    + intros j [Hj| ->%list_elem_of_singleton]%elem_of_app; [by left|by right].
Qed.

Lemma dec_loop_slots s0 l rest : slab_wf s0 -> Forall (fun i => 0 < held_refs s0 i) l -> (forall i, i ∈ rest -> i ∈ l) ->
  forall d s, dec_sinv s0 l d s -> exists d' s', dec_loop rest None d s = (Ok d', s') /\ dec_sinv s0 l d' s'.
Proof.
  intros HW Hl. induction rest as [|i rest IH]; intros Hsub d s HD; cbn [dec_loop]; [by exists d, s|].
  destruct (dec_one_slot s0 l i d s HW Hl ltac:(apply Hsub; set_solver) HD) as (d1 & s1 & E1 & HD1). unfold bind. rewrite E1.
  apply IH; [|done]. intros j Hj. apply Hsub. set_solver.
Qed.

Lemma dec_batch_slots l s : slab_wf s -> Forall (fun i => 0 < held_refs s i) l ->
  exists s', snd (dec_ref_batch l None s) = s' /\ slab_wf s' /\ slot_size (sh s') = slot_size (sh s)
  /\ (forall i, held_refs s i - 1 <= held_refs s' i) /\ (forall i, i ∉ l -> held_refs s' i = held_refs s i)
  /\ forall i p, 0 < held_refs s' i -> slot_byte s' i p = slot_byte s i p.
Proof.
  intros HW Hl. unfold dec_ref_batch, bind at 1.
  destruct (dec_loop_slots s l l HW Hl ltac:(done) (mkDec ∅ [] [] (mkOutcome 0 0 [])) s) as (d & s1 & E1 & HD).
  { destruct HW as [HI HP]. constructor; try done; cbn; try set_solver; try (by exists ∅); try (by constructor); intros; lia. }
  rewrite E1. destruct HD as [(W & HI1 & HW1) HP1 HF1 Hb1 Hr1 Ht1 Hs1 Hg1]. unfold bind at 1.
  destruct (persist_ok' (dc_touched d) W s1 HI1 HW1) as (s2 & E2 & HI2 & F2 & Hn2 & Hb2 & _). rewrite E2.
  unfold bind, modify, ret. cbn [snd]. eexists. split; [reflexivity|]. set (gone := filter _ (dc_freed d)).
  destruct (discard_frame gone s2 (si_dev _ _ HI2)) as (F3 & Hv3 & Hb3 & _). set (s3 := discard_slots gone s2) in *.
  assert (sframe s s3) as HF by (eapply sframe_trans; [exact HF1|]; by eapply sframe_trans).
  assert (forall i, sv_now (sv s3 i) = sv_now (sv s1 i)) as Hn by (intros; by rewrite Hv3, Hn2).
  assert (forall i, held_refs s3 i = held_refs s1 i) as Hr.
  { intros i. unfold held_refs, in_cap, sv_refs. rewrite Hn, (sf_commit _ _ F3), (sf_commit _ _ F2). done. }
  conjs.
  - split.
    + apply (sinv_frame ∅ ∅ s2 s3 HI2 F3); intros i _; by rewrite Hv3.
    + intros i. rewrite Hn. unfold in_cap. rewrite (sf_commit _ _ F3), (sf_commit _ _ F2). apply HP1.
  - by rewrite (sf_sh _ _ HF).
  - intros i. rewrite Hr. apply Hr1.
  - intros i Hi. rewrite Hr. unfold held_refs, in_cap, sv_refs. rewrite (sf_commit _ _ HF1). rewrite Ht1; [done|]. auto.
  - intros i p Hh. rewrite Hb3, Hb2; [apply Hb1|]. intros [_ Hi]%list_elem_of_filter. destruct (Hg1 i Hi) as [_ Ho].
    rewrite Hr, (gone_refs s1 i Ho) in Hh. lia.
Qed.
(** *** What no volume sees *)

Record calm (s s' : slab D) : Prop := {
  cl_inv : sinv ∅ s';
  cl_size : slot_size (sh s') = slot_size (sh s);
  cl_cap : cm_cap (commit s) <= cm_cap (commit s');
  cl_now i : in_cap s i -> sv_now (sv s' i) = sv_now (sv s i);
  cl_new i : in_cap s' i -> ~ in_cap s i -> own (sv_now (sv s' i)) = false;
  cl_byte i p : slot_byte s' i p = slot_byte s i p }.

Lemma calm_trans s s1 s2 : calm s s1 -> calm s1 s2 -> calm s s2.
Proof.
  intros [_ A2 A3 A4 A5 A6] [B1 B2 B3 B4 B5 B6].
  assert (forall i, in_cap s i -> in_cap s1 i) as Hc by (unfold in_cap; lia).
  constructor; [done|congruence|lia| | |].
  - intros i Hi. rewrite B4, A4; auto.
  - intros i Hi Hn. destruct (decide (in_cap s1 i)); [rewrite B4 by done; auto|auto].
  - intros i p. by rewrite B6.
Qed.
Lemma calm_frame s s' : sinv ∅ s -> sframe s s' ->
  (forall i, in_cap s i -> sgood false (sv s i) -> sgood false (sv s' i) /\ sv_now (sv s' i) = sv_now (sv s i)) ->
  (forall i, ~ in_cap s i -> sidle (sv s i) -> sidle (sv s' i)) ->
  (forall i p, slot_byte s' i p = slot_byte s i p) -> calm s s'.
Proof.
  intros HI HF Hg Hi Hb. assert (forall i, in_cap s i -> sgood false (sv s i)) as Hgs.
  { intros i Hc. pose proof (si_good _ _ HI i Hc) as G. by rewrite bool_decide_false in G by set_solver. }
  constructor; try done.
  - apply (sinv_frame ∅ ∅ s s' HI HF); [|exact Hi]. intros i Hc _. rewrite bool_decide_false by set_solver. by apply Hg, Hgs.
  - by rewrite (sf_sh _ _ HF).
  - rewrite (sf_commit _ _ HF). lia.
  - intros i Hc. apply Hg; auto.
  - intros i. unfold in_cap. by rewrite (sf_commit _ _ HF).
Qed.
Lemma calm_quiet s s' : sinv ∅ s -> quiet s s' -> calm s s'.
Proof.
  intros HI HQ. apply calm_frame; [done|by apply quiet_frame| | |apply (ds_byte _ _ _ _ _ (proj2 HQ))];
    intros i _; by rewrite (quiet_sv _ _ _ HQ).
Qed.
Lemma calm_wf s s' : slab_wf s -> calm s s' -> slab_wf s' /\ forall i, held_refs s' i = held_refs s i.
Proof.
  intros [HI HP] HC. assert (forall i, in_cap s i -> in_cap s' i) as Hc by (pose proof (cl_cap _ _ HC); unfold in_cap; lia).
  split; [split; [apply (cl_inv _ _ HC)|]|].
  - intros i Hi Ho. destruct (decide (in_cap s i)) as [Hs|Hs].
    + rewrite (cl_now _ _ HC i Hs) in *. by apply HP.
    + rewrite (cl_new _ _ HC i Hi Hs) in Ho. done.
  - intros i. unfold held_refs, sv_refs. destruct (decide (in_cap s i)) as [Hs|Hs].
    + rewrite !bool_decide_true, (cl_now _ _ HC i Hs); auto.
    + rewrite (bool_decide_false (in_cap s i)) by done. case_bool_decide as Hi; [|done]. by rewrite (cl_new _ _ HC i Hi Hs).
Qed.

Lemma flush_quiet s r s' : sd_wf (sdev s) -> flush s = (r, s') -> quiet s s'.
Proof.
  intros Hw. unfold flush, dev_op. pose proof (sd_flush_law (sdev s) Hw) as Hl. destruct (tb_flush (sdev s)) as [ok d].
  cbn in Hl. intros [= _ <-]. by split.
Qed.

Lemma confirm_calm i s : sinv ∅ s -> calm s (confirm i s).
Proof.
  intros HI. unfold confirm. case_decide; [|apply calm_frame; try done; by constructor].
  by apply calm_frame; [|apply add_ready_frame|..].
Qed.
Lemma shares_calm i s : sinv ∅ s ->
  calm s (snd (shares i s)) /\ (i < committed (commit s) -> 0 <= i -> fst (shares i s) = held_refs s i)
  /\ (committed (commit s) <= i -> fst (shares i s) = 0).
Proof.
  intros HI. unfold shares. destruct (Z.leb_spec (committed (commit s)) i) as [|Hi].
  { cbn. split_and!; [|lia|done]. apply calm_quiet; [done|]. by apply quiet_refl, (si_dev _ _ HI). }
  destruct (slot_now_quiet i s (si_dev _ _ HI)) as (s1 & -> & Q). cbn [fst snd]. split_and!; [by apply calm_quiet| |lia].
  intros _ Hi0. unfold held_refs. rewrite bool_decide_true; [done|]. pose proof (committed_le_cap (commit s)). unfold in_cap. lia.
Qed.
Lemma owner_calm i s : sinv ∅ s -> calm s (snd (owner i s)).
Proof.
  intros HI. assert (calm s s) as Hr by (apply calm_quiet; [done|]; by apply quiet_refl, (si_dev _ _ HI)).
  unfold owner. destruct (Z.leb_spec (committed (commit s)) i); [exact Hr|].
  destruct (slot_now_quiet i s (si_dev _ _ HI)) as (s1 & -> & Q). by apply calm_quiet.
Qed.

(** *** Syncs *)

Lemma sync_flush_calm s r s' : sinv ∅ s -> sync_flush (fst (sync_take s)) (snd (sync_take s)) = (r, s') ->
  calm s s' /\ released (pend s') = released (pend s) ++ (if r is Ok _ then freeing (pend s) else []).
Proof.
  intros HI. unfold sync_flush, sync_take. cbn [fst snd]. set (s0 := upd_pend (set_freeing (fun _ => [])) s).
  destruct (flush s0) as [r1 s1] eqn:Hf. destruct (flush_quiet s0 r1 s1 (si_dev _ _ HI) Hf) as [E1 [Hw He Hb]].
  assert (forall i, sd_entry (sdev s1) i = sd_entry (sdev s) i) as He' by exact He.
  destruct r1; intros [= <- <-]; (split; [apply calm_frame; [done|rewrite E1; by constructor|..]|]).
  all: try exact Hb.
  - intros i Hi G. assert (sv (upd_pend (set_released (fun l => l ++ freeing (pend s))) s1) i = s_release (sv s i)) as ->;
      [|split; [by apply sgood_release|done]].
    rewrite E1. unfold s0, s_release. sview_cbn. rewrite He'. f_equal. rewrite <- bool_decide_or. apply bool_decide_ext.
    by rewrite elem_of_app.
  - intros i Hi (Hu & Hg & Hr & Hn). rewrite E1. unfold s0, sidle. unfold sv in Hu, Hg, Hr, Hn. cbn in *. split_and!; try done.
    apply bool_decide_eq_false. apply bool_decide_eq_false in Hg, Hr. rewrite elem_of_app. tauto.
  - by rewrite E1.
  - intros i Hi G. assert (sv (upd_pend (set_freeing (fun l => l ++ freeing (pend s))) s1) i = sv s i) as ->; [|done].
    rewrite E1. unfold s0. sview_cbn. by rewrite He'.
  - intros i Hi G. assert (sv (upd_pend (set_freeing (fun l => l ++ freeing (pend s))) s1) i = sv s i) as ->; [|done].
    rewrite E1. unfold s0. sview_cbn. by rewrite He'.
  - rewrite E1. cbn. by rewrite app_nil_r.
Qed.

Lemma publish_ready_calm s : sinv ∅ s -> exists b, fst (publish_ready s) = Ok b /\ calm s (snd (publish_ready s)).
Proof.
  intros HI. unfold publish_ready. set (rd := sorted_elements (ready (pend s))).
  set (newly := filter _ rd). set (s1 := upd_pend _ s).
  assert (forall i, sv s1 i = s_publish (sv s i) \/ sv s1 i = sv s i) as Hv1.
  { intros i. destruct (decide (i ∈ newly)) as [Hn|Hn]; [left|right]; unfold s1, s_publish; sview_cbn; f_equal.
    - apply bool_decide_eq_false. set_solver.
    - apply bool_decide_ext. set_solver. }
  assert (calm s s1) as HC1.
  { apply calm_frame; [done|by constructor| |by unfold sidle, s1; sview_cbn; intros i _ (Hu & ? & ? & ?); split_and!; [|done..];
      apply bool_decide_eq_false; apply bool_decide_eq_false in Hu; set_solver|done].
    intros i Hi G. destruct (Hv1 i) as [->| ->]; [|done]. split; [by apply sgood_publish|done]. }
  destruct (persist_ok' rd ∅ s1 (cl_inv _ _ HC1) ltac:(set_solver)) as (s2 & E2 & HI2 & F2 & Hn2 & Hb2 & _).
  destruct rd as [|i0 rd0] eqn:Erd; [by exists false|]. rewrite E2. exists true. split; [done|]. cbn [snd].
  eapply calm_trans; [exact HC1|]. constructor; try done.
  - by rewrite (sf_sh _ _ F2).
  - rewrite (sf_commit _ _ F2). lia.
  - intros i. unfold in_cap. by rewrite (sf_commit _ _ F2).
Qed.

Lemma sync_calm s : sinv ∅ s -> calm s (snd (sync s)).
Proof.
  intros HI. unfold sync. destruct (sync_take s) as [taken s0] eqn:Ht. unfold bind at 1.
  destruct (sync_flush taken s0) as [r1 s1] eqn:Hf.
  destruct (sync_flush_calm s r1 s1 HI ltac:(by rewrite Ht)) as [HC1 _]. destruct r1 as [a|]; [|exact HC1].
  unfold sync_publish, bind. destruct (publish_ready_calm s1 (cl_inv _ _ HC1)) as (b & Eb & HC2).
  destruct (publish_ready s1) as [r2 s2]. cbn in Eb, HC2. subst r2. pose proof (calm_trans _ _ _ HC1 HC2) as HC.
  destruct b; [|exact HC]. destruct (flush s2) as [r3 s3] eqn:Hf3. eapply calm_trans; [exact HC|].
  apply calm_quiet; [apply (cl_inv _ _ HC)|]. by eapply flush_quiet; [apply (si_dev _ _ (cl_inv _ _ HC))|].
Qed.

(** *** Taking slots *)

Lemma take_committed_calm s : sinv ∅ s -> calm s (take_committed s) /\ pend (take_committed s) = pend s.
Proof.
  intros HI. unfold take_committed. destruct (Z.ltb_spec (fm_len (free_bitmap s)) (committed (commit s))) as [Hlt|].
  2: { split; [|done]. apply calm_quiet; [done|]. by apply quiet_refl, (si_dev _ _ HI). }
  split; [|done]. pose proof (committed_le_cap (commit s)).
  destruct (map_free_resize (free_bitmap s) (committed (commit s)) ltac:(lia)) as [Hlen Hm].
  set (s' := upd_map _ _ _). assert (forall i, sv s' i = sv s i) as Hv.
  { intros i. unfold s', sv. cbn [free_bitmap upd_map pend sdev]. by rewrite Hm. }
  constructor; try done.
  destruct HI as [I1 I2 I3 I4 I5 I6]. constructor; try done.
  - cbn. lia.
  - intros i Hi. rewrite Hv. by apply I5.
Qed.

Lemma absorb_header r : forall s : slab D,
  sh (foldl (fun s i => if is_free (free_bitmap s) i then s else upd_map s (fm_set (free_bitmap s) i true) (free_count s + 1)) s r) = sh s.
Proof. induction r as [|i r IH]; intros s; [done|]. cbn [foldl]. rewrite IH. by destruct (is_free (free_bitmap s) i). Qed.
Lemma absorb_calm s : sinv ∅ s -> calm s (absorb_released s) /\ released (pend (absorb_released s)) = [].
Proof.
  intros HI. unfold absorb_released. set (s0 := upd_pend (set_released (fun _ => [])) s).
  assert (Forall (fun i => 0 <= i) (released (pend s))) as Hr.
  { apply Forall_forall. intros i Hi. apply dec_stable. intros Hneg.
    destruct (si_idle _ _ HI i ltac:(unfold in_cap; lia)) as (_ & _ & Hrl & _). cbn in Hrl. by apply bool_decide_eq_false in Hrl. }
  destruct (absorb_fold (released (pend s)) s0 Hr) as (H1 & H2 & H3 & H4 & H5 & H6).
  set (s' := foldl _ s0 _) in *. split; [|by rewrite H5].
  assert (sh s' = sh s) as Hsh by (etransitivity; [apply absorb_header|done]).
  assert (forall i, sv s' i = s_absorb (sv s i)) as Hv.
  { intros i. unfold sv at 1. rewrite H4, H5, H6. done. }
  apply calm_frame; [done|by constructor; rewrite ?H4| | |intros i p; unfold slot_byte; by rewrite H4]; intros i Hi HG; rewrite Hv.
  - split; [by apply sgood_absorb|done].
  - destruct HG as (? & ? & ? & ?). by split_and!.
Qed.

Lemma reclaim_calm s : sinv ∅ s -> released (pend s) = [] ->
  calm s (snd (reclaim_freeing s)) /\ released (pend (snd (reclaim_freeing s))) = [].
Proof.
  intros HI Hrl. unfold reclaim_freeing. destruct (freeing (pend s)) as [|i0 f0] eqn:Hfr.
  { split; [|done]. apply calm_quiet; [done|]. by apply quiet_refl, (si_dev _ _ HI). }
  destruct (sync_flush (fst (sync_take s)) (snd (sync_take s))) as [r1 s1] eqn:Hsy.
  destruct (sync_flush_calm s r1 s1 HI Hsy) as [HC1 Hr1]. revert Hsy. unfold sync_flush, sync_take. cbn [fst snd].
  rewrite Hfr. set (s0 := upd_pend (set_freeing (fun _ => [])) s).
  destruct (flush s0) as [[]]; intros [= <- <-]; cbn [snd].
  - destruct (absorb_calm _ (cl_inv _ _ HC1)) as [HC2 Hr2]. split; [|exact Hr2]. by eapply calm_trans.
  - split; [exact HC1|]. rewrite Hr1, Hrl. by rewrite app_nil_r.
Qed.

Lemma zero_calm s lo hi : sinv ∅ s -> cm_cap (commit s) <= lo -> let s' := upd_dev s (snd (tb_zero (sdev s) lo hi)) in
  calm s s' /\ (fst (tb_zero (sdev s) lo hi) = true -> forall i, lo <= i < hi -> sv_dev (sv s' i) = slot_free).
Proof.
  intros HI Hlo s'. destruct (sd_zero_law (sdev s) lo hi (si_dev _ _ HI)) as (Hw & Hb & He & Hz). split; [|exact Hz].
  apply calm_frame; [done|by constructor| |by intros|exact Hb].
  intros i Hi G. assert (sv s' i = sv s i) as ->; [|done]. unfold s'. sview_cbn. f_equal. apply He. unfold in_cap in Hi. lia.
Qed.

Lemma commit_step_calm now h s r s' : sinv ∅ s -> commit_step now h s = (r, s') -> calm s s' /\ pend s' = pend s.
Proof.
  intros HI. unfold commit_step. destruct (Z.leb_spec (Z.min (cm_span (commit s)) (cm_room (commit s))) (cm_cap (commit s))) as [|Hlt].
  { intros [= <- <-]. split; [|done]. apply calm_quiet; [done|]. by apply quiet_refl, (si_dev _ _ HI). }
  pose proof (step_target_grows (commit s) (si_step _ _ HI) ltac:(lia)) as Hgrow.
  set (target := step_target (commit s)) in *. set (h' := mkHeader _ _ _ _ _ _ _ _ _ _ _ _ _ _ _ _ _ _ _ _ _). clearbody h'.
  destruct (zero_calm s (cm_cap (commit s)) target HI ltac:(lia)) as [HC1 Hz].
  unfold bind at 1. unfold dev_op at 1. destruct (tb_zero (sdev s) (cm_cap (commit s)) target) as [ok1 d1]. cbn [fst snd] in *.
  set (s1 := upd_dev s d1) in *. destruct ok1; [|intros [= <- <-]; by split]. specialize (Hz eq_refl).
  unfold bind at 1. destruct (flush s1) as [r2 s2] eqn:Hf2.
  pose proof (flush_quiet s1 r2 s2 (si_dev _ _ (cl_inv _ _ HC1)) Hf2) as Q2.
  assert (pend s2 = pend s /\ commit s2 = commit s) as [Hp2 Hm2] by by rewrite (proj1 Q2).
  pose proof (calm_trans _ _ _ HC1 (calm_quiet _ _ (cl_inv _ _ HC1) Q2)) as HC2. destruct r2; [|intros [= <- <-]; by split].
  unfold bind at 1, dev_op at 1. pose proof (sd_header_law (sdev s2) h' (si_dev _ _ (cl_inv _ _ HC2))) as Hh.
  destruct (tb_header (sdev s2) h') as [ok3 d3]. cbn [snd] in Hh. set (s3 := upd_dev s2 d3).
  assert (quiet s2 s3) as Q3 by by split. pose proof (calm_trans _ _ _ HC2 (calm_quiet _ _ (cl_inv _ _ HC2) Q3)) as HC3.
  destruct ok3; [|intros [= <- <-]; by split]. unfold bind at 1. destruct (flush s3) as [r4 s4] eqn:Hf4.
  pose proof (flush_quiet s3 r4 s4 (si_dev _ _ (cl_inv _ _ HC3)) Hf4) as Q4.
  assert (pend s4 = pend s /\ commit s4 = commit s) as [Hp4 Hm4] by by rewrite (proj1 Q4).
  pose proof (calm_trans _ _ _ HC3 (calm_quiet _ _ (cl_inv _ _ HC3) Q4)) as HC4. destruct r4; [|intros [= <- <-]; by split].
  unfold bind, modify, ret. intros [= <- <-]. split; [|exact Hp4]. eapply calm_trans; [exact HC4|].
  assert (forall i, sv s4 i = sv s1 i) as Hv by (intros; by rewrite (quiet_sv _ _ _ Q4), (quiet_sv _ _ _ Q3), (quiet_sv _ _ _ Q2)).
  set (s5 := upd_commit s4 _). assert (forall i, sv s5 i = sv s4 i) as Hv5 by done.
  assert (forall i, in_cap s5 i -> ~ in_cap s4 i -> sgood false (sv s4 i) /\ own (sv_now (sv s4 i)) = false) as Hnew.
  { intros i Hi Hn. apply sgood_fresh; [by apply (si_idle _ _ (cl_inv _ _ HC4))|]. rewrite Hv, Hz; [done|].
    unfold in_cap in Hi, Hn. rewrite Hm4 in Hn. cbn in Hi. lia. }
  pose proof (cl_inv _ _ HC4) as [I1 I2 I3 I4 I5 I6]. constructor; try done.
  - constructor; try done; [cbn; rewrite Hm4 in I2; lia|cbn; by rewrite Hm4 in I3| |].
    + intros i Hi. rewrite Hv5. destruct (decide (in_cap s4 i)) as [Hc|Hc]; [by apply I5|].
      rewrite bool_decide_false by set_solver. by apply Hnew.
    + intros i Hi. rewrite Hv5. apply I6. unfold in_cap in *. rewrite Hm4. cbn in Hi. lia.
  - cbn. rewrite Hm4. lia.
  - intros i Hi Hc. rewrite Hv5. by apply Hnew.
Qed.

Lemma take_slot_or_flush_calm v x g s r s' : sinv ∅ s -> take_slot_or_flush clock v x g s = (r, s') ->
  (exists e, r = Err e /\ calm s s') \/ exists s1, calm s s1 /\ released (pend s1) = [] /\ take_slot v x g s1 = (r, s').
Proof.
  intros HI. unfold take_slot_or_flush.
  destruct (take_committed_calm s HI) as [HCa _]. destruct (absorb_calm _ (cl_inv _ _ HCa)) as [HCb Hrl].
  unfold bind at 1, modify at 1, bind at 1, modify at 1. set (s1 := absorb_released (take_committed s)) in *.
  pose proof (calm_trans _ _ _ HCa HCb) as HC1.
  unfold bind at 1, gets at 1, bind at 1.
  destruct ((if free_count s1 =? 0 then reclaim_freeing else ret ()) s1) as [r2 s2] eqn:H2.
  assert (calm s s2 /\ released (pend s2) = []) as (HC2 & Hrl2).
  { destruct (free_count s1 =? 0); [|by injection H2 as <- <-].
    destruct (reclaim_calm s1 (cl_inv _ _ HC1) Hrl) as [HC Hr]. rewrite H2 in HC, Hr. split; [by eapply calm_trans|done]. }
  destruct r2 as [[]|e2]; [|intros [= <- <-]; left; by eexists].
  unfold bind at 1, gets at 1, bind at 1, gets at 1, bind at 1.
  destruct ((if (free_count s2 =? 0) && negb (whole (commit s2)) then _ else ret ()) s2) as [r3 s3] eqn:H3.
  assert (calm s s3 /\ released (pend s3) = []) as (HC3 & Hrl3).
  { destruct ((free_count s2 =? 0) && _); [|by injection H3 as <- <-].
    unfold bind, gets, modify in H3. destruct (commit_step clock (header_now s2) s2) as [r4 s4] eqn:H4.
    destruct (commit_step_calm _ _ _ _ _ (cl_inv _ _ HC2) H4) as [HC4 Hp4]. pose proof (calm_trans _ _ _ HC2 HC4) as HC.
    destruct (take_committed_calm s4 (cl_inv _ _ HC)) as [HC5 Hp5].
    destruct r4; injection H3 as <- <-; rewrite ?Hp5, Hp4; split; try done. by eapply calm_trans. }
  destruct r3 as [[]|e3]; [|intros [= <- <-]; left; by eexists]. intros Ht. right. by exists s3.
Qed.

Lemma take_slot_cases' v x g s r s' : sinv ∅ s -> take_slot v x g s = (r, s') ->
  (exists e, r = Err e /\ s' = s)
  \/ exists i, r = Ok i /\ in_cap s i /\ i < fm_len (free_bitmap s) /\ sv_free (sv s i) = true
     /\ s' = set_slot i (mkSlot Allocated v x 1 g) (upd_map s (fm_set (free_bitmap s) i false) (free_count s - 1)).
Proof.
  intros HI. unfold take_slot. destruct (free_count s =? 0); [intros [= <- <-]; left; by eexists|].
  rewrite first_free_first_one by apply (si_fm _ _ HI).
  destruct (first_one (bits (free_bitmap s))) as [i|] eqn:Hf; [|intros [= <- <-]; left; by eexists].
  intros [= <- <-]. right. exists i. apply first_one_spec in Hf as (Hi0 & Hb & _). pose proof (si_len _ _ HI).
  assert (i < fm_len (free_bitmap s)) by (unfold fm_len, zlen; apply lookup_lt_Some in Hb; lia).
  split_and!; try done; [unfold in_cap; lia|]. cbn. unfold map_free, is_free. by rewrite Hb.
Qed.

Lemma allocate_slot v x g s : slab_wf s -> let '(r, s') := allocate_deferred clock v x g s in
  slab_wf s' /\ match r with
    | Ok i => chg {[i]} ∅ s s' /\ held_refs s i = 0 /\ held_refs s' i = 1
    | Err _ => chg ∅ ∅ s s'
    end.
Proof.
  intros HW. pose proof HW as [HI HP].
  assert (forall s1, calm s s1 -> slab_wf s1 /\ chg ∅ ∅ s s1) as Hcalm.
  { intros s1 HC. destruct (calm_wf _ _ HW HC) as [HW1 Hr]. split; [exact HW1|].
    constructor; [apply (cl_size _ _ HC)|apply (cl_cap _ _ HC)|intros; apply Hr|intros; apply (cl_byte _ _ HC)]. }
  unfold allocate_deferred, bind. destruct (take_slot_or_flush clock v x g s) as [r1 s1] eqn:Ht.
  destruct (take_slot_or_flush_calm _ _ _ _ _ _ HI Ht) as [(e & -> & HC)|(s0 & HC & Hrl & Hts)]; [by apply Hcalm|].
  destruct (Hcalm s0 HC) as [HW0 HG0]. destruct HW0 as [HI0 HP0].
  destruct (take_slot_cases' _ _ _ _ _ _ HI0 Hts) as [(e & -> & ->)|(i & -> & Hc & Hlt & Hf & ->)]; [by split|].
  unfold modify, ret. set (e := mkSlot Allocated v x 1 g). set (s1 := set_slot i e _). set (s2 := upd_pend _ s1).
  assert (0 <= i) as Hi0 by apply Hc.
  assert (forall j, j <> i -> sv s2 j = sv s0 j) as Hne.
  { intros j Hj. unfold s2, s1, set_slot. sview_eq. unfold map_free. by rewrite fm_set_map, decide_False. }
  assert (sv s2 i = s_alloc e (sv s0 i)) as Hei.
  { unfold s2, s1, set_slot. sview_eq. unfold map_free. by rewrite fm_set_map, decide_True. }
  assert (sframe s0 s2) as HF by (constructor; try done; cbn; [intros; by apply fm_set_ok|by apply fm_set_len]).
  assert (sinv ∅ s2) as HI2.
  { apply (sinv_one ∅ ∅ i s0 s2 HI0 HF Hc Hne); [done|]. rewrite Hei, bool_decide_false by set_solver.
    apply sgood_alloc; [done|done|]. cbn. rewrite Hrl. by apply bool_decide_false, not_elem_of_nil. }
  assert (slab_wf s2) as HW2.
  { split; [exact HI2|]. apply (one_pos i s0 s2 HP0 HF); [intros j Hj; by rewrite Hne|]. by rewrite Hei. }
  split; [exact HW2|]. split_and!.
  - eapply chg_trans; [exact HG0| |set_solver..]. apply (one_chg i ∅ s0 s2 HF); [intros j Hj; by rewrite Hne|done].
  - rewrite <- (cg_refs _ _ _ _ HG0 i) by set_solver. apply gone_refs. pose proof (si_good _ _ HI0 i Hc) as G.
    destruct (sg_free _ _ G (or_introl Hf)) as (He & Hd & _). unfold sv_now. by rewrite He.
  - rewrite (own_held s2 i HW2); [by rewrite Hei| |by rewrite Hei]. unfold in_cap. by rewrite (sf_commit _ _ HF).
Qed.

(** *** The laws *)

#[local] Existing Instance slab_store.
Abbreviation held := (keeps_held (fun s : slab D => slot_size (sh s)) slab_wf held_refs slot_byte).
Abbreviation all := (keeps_all (fun s : slab D => slot_size (sh s)) slab_wf held_refs slot_byte).
Abbreviation wrote := (writes (fun s : slab D => slot_size (sh s)) slab_wf held_refs slot_byte).

Lemma calm_all s s' : slab_wf s -> calm s s' -> all s s'.
Proof.
  intros HW HC. destruct (calm_wf _ _ HW HC) as [HW' Hr]. constructor; [|exact Hr].
  constructor; [done|apply (cl_size _ _ HC)|]. intros. apply (cl_byte _ _ HC).
Qed.
(** Nothing of a slot changed but its count, or the slot is let go of. *)
Lemma chg_held i s s' : slab_wf s' -> chg {[i]} {[i]} s s' -> (held_refs s' i = 0 \/ chg {[i]} ∅ s s') -> held s s'.
Proof.
  intros HW HC Hi. constructor; [done|apply (cg_size _ _ _ _ HC)|]. intros j p _ Hj _.
  destruct Hi as [Hi|Hi]; [|by apply (cg_bytes _ _ _ _ Hi)]. apply (cg_bytes _ _ _ _ HC). intros ->%elem_of_singleton. lia.
Qed.
Lemma chg_keeps X s s' : slab_wf s' -> chg X ∅ s s' -> held s s'.
Proof.
  intros HW HC. constructor; [done|apply (cg_size _ _ _ _ HC)|]. intros j p _ _ _. by apply (cg_bytes _ _ _ _ HC).
Qed.

Lemma slot_io_cases {A} i o (io : D -> result DriveError A * D) s :
  slot_io i o io s = (Err DOther, s) \/ slot_io i o io s = (fst (io (sdev s)), upd_dev s (snd (io (sdev s)))).
Proof. unfold slot_io. destruct (slot_address _ _ _ _); [|by left]. right. by destruct (io (sdev s)). Qed.

Lemma slab_writes i o n s d : slab_wf s -> dwrites sd_wf sd_entry sd_byte i o n (sdev s) d ->
  wrote i o n s (upd_dev s d).
Proof.
  intros [HI HP] [A B C]. assert (forall j, sv (upd_dev s d) j = sv s j) as Hv by (intros j; sview_eq).
  assert (sframe s (upd_dev s d)) as HF by by constructor.
  constructor; [split|done| |].
  - apply (sinv_frame ∅ ∅ s _ HI HF); intros j _; by rewrite Hv.
  - intros j. rewrite Hv. apply HP.
  - intros j. unfold held_refs. rewrite Hv. done.
  - intros j p _ _. apply C.
Qed.
Lemma writes_refl i o n s : slab_wf s -> wrote i o n s s.
Proof. intros. by constructor. Qed.

Lemma slab_read_law i o n s : slab_wf s ->
  all s (snd (slot_io i o (dd_read i o n) s))
  /\ forall b, fst (slot_io i o (dd_read i o n) s) = Ok b -> zlen b = n -> b = slot_bytes slot_byte s i o n.
Proof.
  intros HW. pose proof (proj1 HW) as HI. destruct (slot_io_cases i o (dd_read i o n) s) as [-> | ->]; cbn [fst snd].
  - split; [|done]. apply calm_all; [done|]. apply calm_quiet; [done|]. by apply quiet_refl, (si_dev _ _ HI).
  - destruct (sd_dread_law (sdev s) i o n (si_dev _ _ HI)) as [Hs Hb]. split; [|exact Hb].
    apply calm_all; [done|]. apply calm_quiet; [done|]. by split.
Qed.
Lemma slab_write_law i o b s : slab_wf s ->
  wrote i o (zlen b) s (snd (slot_io i o (dd_write i o b) s))
  /\ (fst (slot_io i o (dd_write i o b) s) = Ok (zlen b) ->
      slot_bytes slot_byte (snd (slot_io i o (dd_write i o b) s)) i o (zlen b) = b)
  /\ (forall e, fst (slot_io i o (dd_write i o b) s) = Err e -> is_media_failure e || is_transport e = true).
Proof.
  intros HW. destruct (slot_io_cases i o (dd_write i o b) s) as [-> | ->]; cbn [fst snd].
  - split_and!; [by apply writes_refl|done|]. by intros e [= <-].
  - destruct (sd_dwrite_law (sdev s) i o b (si_dev _ _ (proj1 HW))) as (Hw & Hb & He). conjs; [|exact Hb|exact He].
    by apply slab_writes.
Qed.
Lemma slab_zero_law i o n s : slab_wf s -> 0 <= n ->
  wrote i o n s (snd (slot_io i 0 (dd_zero i o n) s))
  /\ (fst (slot_io i 0 (dd_zero i o n) s) = Ok () -> slot_bytes slot_byte (snd (slot_io i 0 (dd_zero i o n) s)) i o n = zeros n).
Proof.
  intros HW Hn. destruct (slot_io_cases i 0 (dd_zero i o n) s) as [-> | ->]; cbn [fst snd].
  - split; [by apply writes_refl|done].
  - destruct (sd_dzero_law (sdev s) i o n (si_dev _ _ (proj1 HW)) Hn) as (Hw & Hb). split; [|exact Hb]. by apply slab_writes.
Qed.

Definition slab_laws : SlotStoreLaws (slab D) (H := slab_store clock).
Proof using All.
  refine (Build_SlotStoreLaws (slab D) (slab_store clock) slab_wf held_refs slot_byte _ _ _ _ _ _ _ _ _ _ _ _ _ _).
  - intros. by apply slab_refs_nonneg.
  - intros s i HW Hh. by apply (held_own s i HW Hh).
  - intros. by apply slab_read_law.
  - intros. by apply slab_write_law.
  - intros. by apply slab_zero_law.
  - intros v x g s HW. cbn. unfold on_slab. pose proof (allocate_slot v x g s HW) as Ha.
    destruct (allocate_deferred clock v x g s) as [[i|e] s']; cbn [drive_result fst snd]; destruct Ha as [HW' Ha].
    + destruct Ha as (HC & Hb & Ha). split; [by eapply chg_keeps|]. split_and!; try done. intros j Hj.
      apply (cg_refs _ _ _ _ HC). set_solver.
    + split; [by eapply chg_keeps|]. intros j. by apply (cg_refs _ _ _ _ Ha).
  - intros i s HW _. apply calm_all; [done|]. by apply confirm_calm, HW.
  - intros i s HW Hh. cbn. unfold on_slab. destruct (free_slot i s HW Hh) as (HW' & HC & Hg).
    destruct (free i s) as [r s']. cbn [snd] in *. split; [by eapply chg_held|]. intros j Hj. apply (cg_refs _ _ _ _ HC). set_solver.
  - intros i s HW Hh. cbn. unfold on_slab. destruct (dec_ref_slot i s HW Hh) as (HW' & HC & Hle & Hg).
    destruct (dec_ref i s) as [r s']. cbn [snd] in *. split_and!; [by eapply chg_held|done|].
    intros j Hj. apply (cg_refs _ _ _ _ HC). set_solver.
  - intros l s HW Hl. cbn. unfold on_slab. destruct (inc_batch_slots l s HW Hl) as (HW' & HC & Hr).
    destruct (inc_ref_batch l None s) as [r s']. cbn [fst snd] in *. split; [by eapply chg_keeps|]. by destruct r.
  - intros l s HW Hl. cbn. unfold on_slab. destruct (dec_batch_slots l s HW Hl) as (s' & E & HW' & Hsz & Hle & Ho & Hb).
    destruct (dec_ref_batch l None s) as [r s1]. cbn [fst snd] in *. subst s1. assert (forall r' : result SlabErr (Z * Z),
      snd (drive_result r', s') = s') as Hsnd by done. destruct r; cbn [snd]; split_and!; try done; constructor; try done; auto.
  - intros i s HW Hi. destruct (shares_calm i s (proj1 HW)) as (HC & Hin & Hout). split; [by apply calm_all|]. cbn.
    destruct (Z.leb_spec (committed (commit s)) i); [left; auto|right; auto].
  - intros i s HW _. apply calm_all; [done|]. by apply owner_calm, HW.
  - intros s HW. cbn. unfold on_slab. pose proof (sync_calm s (proj1 HW)) as HC. destruct (sync s) as [r s']. by apply calm_all.
Defined.
End proofs.

(** ** A device in memory *)

(** Each data request consumes a fault, if one is due. *)
Record mdev := mkMdev { md_table : gmap Z Slot; md_data : gmap (Z * Z) Z; md_faults : list bool }.
Definition md_empty : mdev := mkMdev ∅ ∅ [].
Definition md_entry (d : mdev) (i : Z) : Slot := default slot_free (md_table d !! i).
Definition md_byte (d : mdev) (i p : Z) : Z := default 0 (md_data d !! (i, p)).
Definition md_set_table (t : gmap Z Slot) (d : mdev) : mdev := mkMdev t (md_data d) (md_faults d).
Definition md_set_data (m : gmap (Z * Z) Z) (d : mdev) : mdev := mkMdev (md_table d) m (md_faults d).
Fixpoint md_put (i o : Z) (b : bytes) (m : gmap (Z * Z) Z) : gmap (Z * Z) Z :=
  match b with [] => m | x :: r => <[(i, o) := x]> (md_put i (o + 1) r m) end.
Definition md_request {A} (ok : mdev -> A * mdev) (d : mdev) : result DriveError A * mdev :=
  match md_faults d with
  | true :: r => (Err (DIo TimedOut), mkMdev (md_table d) (md_data d) r)
  | fs => let '(a, d) := ok (mkMdev (md_table d) (md_data d) (tail fs)) in (Ok a, d)
  end.

#[export] Instance mdev_table : TableDev mdev := {
  tb_read d i := (Some (md_entry d i), d);
  tb_write d es := (true, md_set_table (foldr (fun e t => <[fst e := snd e]> t) (md_table d) es) d);
  tb_zero d lo hi := (true, md_set_table (foldr (fun i t => <[i := slot_free]> t) (md_table d) (zrange lo hi)) d);
  tb_header d _ := (true, d);
  tb_flush d := (true, d);
  tb_discard d _ _ := d;
  tb_epoch _ := 0 }.
#[export] Instance mdev_data : DataDev mdev := {
  dd_table := mdev_table;
  dd_block_size _ := 1;
  dd_read i o n := md_request (fun d => (map (md_byte d i) (zrange o (o + n)), d));
  dd_write i o b := md_request (fun d => (zlen b, md_set_data (md_put i o b (md_data d)) d));
  dd_zero i o n := md_request (fun d => ((), md_set_data (md_put i o (zeros n) (md_data d)) d)) }.

Lemma md_put_other b : forall i o m j p, j <> i \/ p < o \/ o + zlen b <= p -> md_put i o b m !! (j, p) = m !! (j, p).
Proof.
  induction b as [|x b IH]; intros i o m j p Hp; [done|]. cbn [md_put]. rewrite zlen_cons in Hp. pose proof (zlen_nonneg b).
  rewrite lookup_insert_ne by (intros [= -> ->]; lia). apply IH. lia.
Qed.
Lemma md_put_read b : forall i o m d, map (md_byte (md_set_data (md_put i o b m) d) i) (zrange o (o + zlen b)) = b.
Proof.
  induction b as [|x b IH]; intros i o m d; [unfold zrange, zlen; cbn; by rewrite Z.add_0_r, Z.sub_diag|].
  rewrite zlen_cons. pose proof (zlen_nonneg b). unfold zrange. replace (Z.to_nat (o + (1 + zlen b) - o)) with (S (Z.to_nat (zlen b))) by lia.
  cbn [zseq map]. f_equal.
  - unfold md_byte, md_set_data. cbn. by rewrite lookup_insert_eq.
  - etransitivity; [|apply (IH i (o + 1) m d)]. unfold zrange. replace (Z.to_nat (o + 1 + zlen b - (o + 1))) with (Z.to_nat (zlen b)) by lia.
    apply map_ext_in. intros p Hp%list_elem_of_In%elem_of_zseq. unfold md_byte, md_set_data. cbn. rewrite lookup_insert_ne; [done|].
    intros [= ?]. lia.
Qed.
Lemma md_request_cases {A} (ok : mdev -> A * mdev) d :
  (exists r, md_request ok d = (Err (DIo TimedOut), mkMdev (md_table d) (md_data d) r))
  \/ exists d0, md_table d0 = md_table d /\ md_data d0 = md_data d /\ md_request ok d = (Ok (fst (ok d0)), snd (ok d0)).
Proof.
  unfold md_request. destruct (md_faults d) as [|[] r]; [right|left; by eexists|right].
  - exists (mkMdev (md_table d) (md_data d) []). cbn. by destruct (ok _).
  - exists (mkMdev (md_table d) (md_data d) r). cbn. by destruct (ok _).
Qed.

Lemma md_writes i o b d d0 : md_table d0 = md_table d -> md_data d0 = md_data d ->
  dwrites (fun _ => True) md_entry md_byte i o (zlen b) d (md_set_data (md_put i o b (md_data d0)) d0).
Proof.
  intros Et Ed. constructor; [done|intros; unfold md_entry; cbn; by rewrite Et|].
  intros j p Hp. unfold md_byte. cbn. by rewrite md_put_other, Ed.
Qed.

#[export] Instance mdev_laws : DataDevLaws mdev.
Proof.
  refine (Build_DataDevLaws mdev _ (fun _ => True) md_entry md_byte _ _ _ _ _ _ _ _ _); try done; cbn.
  - intros d es _ Hnd. split_and!; try done.
    + intros i Hi. unfold md_entry. cbn. induction es as [|e es IH]; [done|]. cbn in *. apply not_elem_of_cons in Hi as [Hne Hi].
      apply NoDup_cons in Hnd as [_ Hnd]. rewrite lookup_insert_ne by done. by apply IH.
    + intros i e Hi. unfold md_entry. cbn. induction es as [|e' es IH]; [by apply elem_of_nil in Hi|]. cbn in *.
      apply NoDup_cons in Hnd as [Hn Hnd]. apply elem_of_cons in Hi as [<-|Hi]; [cbn; by rewrite lookup_insert_eq|].
      rewrite lookup_insert_ne; [by apply IH|]. intros E. apply Hn, list_elem_of_fmap. exists (i, e). by rewrite E.
  - intros d lo hi _. unfold md_entry. cbn. split_and!; try done.
    + intros i Hi. rewrite <- elem_of_zrange in Hi. induction (zrange lo hi) as [|j l IH]; [done|]. cbn.
      apply not_elem_of_cons in Hi as [Hne Hi]. rewrite lookup_insert_ne by done. by apply IH.
    + intros _ i Hi. rewrite <- elem_of_zrange in Hi. induction (zrange lo hi) as [|j l IH]; [by apply elem_of_nil in Hi|]. cbn.
      destruct (decide (i = j)) as [->|]; [by rewrite lookup_insert_eq|]. rewrite lookup_insert_ne by done. apply IH.
      by apply elem_of_cons in Hi as [|].
  - intros d i o n _. destruct (md_request_cases (fun d => (map (md_byte d i) (zrange o (o + n)), d)) d) as [(r & ->)|(d0 & Et & Ed & ->)];
      cbn; (split; [constructor; [done|intros; unfold md_entry; cbn; by rewrite ?Et|intros; unfold md_byte; cbn; by rewrite ?Ed]|]); [done|].
    intros b [= <-] _. apply map_ext. intros p. unfold md_byte. by rewrite Ed.
  - intros d i o b _. destruct (md_request_cases (fun d => (zlen b, md_set_data (md_put i o b (md_data d)) d)) d) as [(r & ->)|(d0 & Et & Ed & ->)];
      cbn; split_and!; try done; [by intros e [= <-]|by apply md_writes|]. intros _. apply md_put_read.
  - intros d i o n _ Hn. assert (zlen (zeros n) = n) as Hl by (unfold zeros, zlen; rewrite length_replicate; lia).
    destruct (md_request_cases (fun d => ((), md_set_data (md_put i o (zeros n) (md_data d)) d)) d) as [(r & ->)|(d0 & Et & Ed & ->)];
      cbn; split; try done; [by apply (md_writes i o (zeros n)) in Ed; [rewrite Hl in Ed|]|].
    intros _. pose proof (md_put_read (zeros n) i o (md_data d0) d0) as Hr. by rewrite Hl in Hr.
Defined.
