(* ===== verification/SlabCrashTraces.v ===== *)
(** The crash theorems at work on a small slab, and four ways #171's rule is broken
    once operations overlap or fail halfway: each is a trace of the definitions,
    with the slot the power cut leaves unsafe. *)

From S2P Require Import Prelude SlabFormat FreeMap SlabState SlabCrash SlabCrashProofs SlabCrashSteps.

(** Sixteen slots of 1 MiB, all of the table committed. *)
Definition demo_header : SlabHeader :=
  mkHeader (replicate 16 7) (replicate 16 9) 1048576 16 16 1048576 8192 0 0 Hot 0 Data 0 0 64 64 16 nil_uuid nil_uuid 0 SLAB_VERSION.
Definition demo_dev : adev := mkAdev (fun _ => (slot_free, 0)) (fun _ => []) (fun _ => 40) (fun _ => []) (fun _ => 0) 0 [] [].
Definition demo : slab adev := slab_formatted demo_dev demo_header 8.
Definition vol : VolumeId := replicate 16 1.

Definition st {A} (r : result SlabErr A * slab adev) : slab adev := snd r.
Definition is_ok {A} (r : result SlabErr A * slab adev) : bool := match fst r with Ok _ => true | Err _ => false end.

Lemma run_eq {A} (m : result SlabErr A * slab adev) r : fst m = r -> m = (r, st m).
Proof. intros <-. apply surjective_pairing. Qed.

Lemma demo_formatted : formatted_dev demo_dev (table_capacity demo_header).
Proof. by split. Qed.

(** Allocate, write, confirm, sync. *)
Definition tr_alloc (s : slab adev) : slab adev := new_tenant 0 (st (allocate_deferred 5 vol 0 1 s)).
Definition tr_publish (s : slab adev) : slab adev := st (sync (confirm 0 (write_data 0 (tr_alloc s)))).

Lemma demo_publish : reaches demo (tr_publish demo).
Proof.
  assert (allocate_deferred 5 vol 0 1 demo = (Ok 0, st (allocate_deferred 5 vol 0 1 demo))) as Ha.
  { apply run_eq. vm_compute. reflexivity. }
  eapply ReachStep; [|exact (StSync _ _ _ (surjective_pairing _))].
  eapply ReachStep; [|apply StConfirm; vm_compute; reflexivity].
  eapply ReachStep; [|apply StWrite; [vm_compute; split; congruence|vm_compute; reflexivity]].
  eapply ReachStep; [apply ReachHere|]. exact (StAlloc _ _ _ _ _ _ _ Ha).
Qed.


(** The slot freed, its free entry flushed: the next allocation takes it again. *)
Definition tr_reuse : slab adev := st (sync (st (free 0 (tr_publish demo)))).
Lemma tr_reuse_reached : reaches demo tr_reuse.
Proof.
  eapply ReachStep; [|exact (StSync _ _ _ (surjective_pairing _))].
  eapply ReachStep; [exact demo_publish|]. eapply StFree; [|apply surjective_pairing]. lia.
Qed.


(** ** Where operations overlap *)

(** [free] cut in two: [retire] has queued the slot, and a sync on another task takes
    the queue and flushes before [persist_slot] writes the free entry. *)
Definition race_free : slab adev :=
  let s := tr_publish demo in
  let s := st (retire 0 s) in
  let '(taken, s) := sync_take s in
  let s := st (sync_flush taken s) in
  let s := st (persist_slot 0 s) in
  write_data 0 (tr_alloc s).

(** A sync that runs between a free's two halves releases the slot with its free
    entry not on the device yet.  The slot is handed out again and written, and a
    power cut can still leave the first tenant's entry beside the second's data. *)
Lemma sync_between_retire_and_persist : ~ cut_safe race_free 0.
Proof. rewrite <- cut_safe_decides. vm_compute. discriminate. Qed.

(** A slot written and confirmed while a sync is between its first flush and the
    moment it takes the ready slots. *)
Definition race_confirm : slab adev :=
  let s := tr_alloc demo in
  let '(taken, s) := sync_take s in
  let s := st (sync_flush taken s) in
  let s := confirm 0 (write_data 0 s) in
  let '(es, s) := ready_entries s in
  st (publish_unlocked es s).

(** A slot confirmed after a sync's first flush is still published by that sync,
    with its data only in the cache: a power cut before the second flush can keep
    the entry and lose the data. *)
Lemma confirm_between_flush_and_publish : live race_confirm 0 = true /\ ~ cut_safe race_confirm 0.
Proof. split; [vm_compute; reflexivity|]. rewrite <- cut_safe_decides. vm_compute. discriminate. Qed.

(** ** Where an operation fails halfway *)

Definition next_write_fails (s : slab adev) : slab adev := upd_dev s (set_faults (sdev s) [true] []).

(** [free]'s table write fails; the slot is left in the queue. *)
Definition failed_free : slab adev :=
  let s := next_write_fails (tr_publish demo) in
  let s := st (free 0 s) in
  let s := st (sync s) in
  write_data 0 (tr_alloc s).

(** A free whose table write fails is reported as an error, but leaves the slot
    waiting for a free entry that was never written: the next sync releases it, it
    is handed out again, and the device still names its first tenant. *)
Lemma free_with_failed_write :
  is_ok (free 0 (next_write_fails (tr_publish demo))) = false
  /\ fst (a_now (sdev failed_free) 0) = now_of (tr_publish demo) 0 /\ ~ cut_safe failed_free 0.
Proof.
  split; [vm_compute; reflexivity|]. split; [vm_compute; reflexivity|].
  rewrite <- cut_safe_decides. vm_compute. discriminate.
Qed.

(** [free_planned] stopped by its second slot. *)
Definition no_pre : Preread := mkPre 0 ∅.
Definition half_batch : slab adev :=
  let s := st (free_planned [0; 99] no_pre (tr_publish demo)) in
  let s := st (sync s) in
  write_data 0 (tr_alloc s).

(** [free_planned] that stops at a slot it cannot look up has already let the
    earlier ones go, and writes none of their free entries: the next sync releases
    them for reuse. *)
Lemma free_planned_stopped_halfway :
  fst (free_planned [0; 99] no_pre (tr_publish demo)) = Err (EOutOfRange 99) /\ ~ cut_safe half_batch 0.
Proof. split; [vm_compute; reflexivity|]. rewrite <- cut_safe_decides. vm_compute. discriminate. Qed.

(** Where the order that makes a power cut safe is not kept: a sync between a free's
    two halves releases a slot whose free entry is not on the device; a slot confirmed
    after a sync's first flush is published with its data only in the cache; a free whose
    table write fails, and a batch of frees that stops halfway, leave slots to be
    released with their old entries on the device.  Each slot is then handed out again
    and written, and a power cut can leave an entry beside another's data. *)
Lemma slots_released_early :
  ~ cut_safe race_free 0 /\
  (live race_confirm 0 = true /\ ~ cut_safe race_confirm 0) /\
  (is_ok (free 0 (next_write_fails (tr_publish demo))) = false /\ fst (a_now (sdev failed_free) 0) = now_of (tr_publish demo) 0 /\ ~ cut_safe failed_free 0) /\
  (fst (free_planned [0; 99] no_pre (tr_publish demo)) = Err (EOutOfRange 99) /\ ~ cut_safe half_batch 0).
Proof.
  split; [exact sync_between_retire_and_persist|]. split; [exact confirm_between_flush_and_publish|].
  split; [exact free_with_failed_write|exact free_planned_stopped_halfway].
Qed.
