(* ===== verification/SlabMeta.v ===== *)
(** The metadata a slab keeps of itself: [MetadataWriter] and [Slab::read_metadata]
    of [drive/slab.rs] (format 1).  Two copies of the volume record, written
    alternately by generation, each with a checksum.  The region is bytes of the
    device; a power cut during a write leaves any bytes in the range being written. *)

From S2P Require Import Prelude SlabFormat SlabFormatProofs.

Definition SLAB_META_MAGIC : bytes := [83; 84; 82; 77; 86; 77; 69; 84].
Definition SLAB_META_VERSION : Z := 1.
Definition META_COPY_HEADER : Z := 32.

(** The device and where the region lies on it ([MetadataWriter]'s fields). *)
Record MetadataWriter := mkMeta {
  mw_media : bytes; mw_block : Z; mw_offset : Z; mw_size : Z; mw_version : Z }.

Inductive MetaError := MetaIsV2 | MetaNoRegion | MetaTooLarge (capacity : Z) | MetaIo | MetaAllCorrupt.

Definition mw_read (w : MetadataWriter) (o n : Z) : option bytes :=
  if zlen (mw_media w) <? o + n then None else Some (slice o n (mw_media w)).
Definition mw_write (w : MetadataWriter) (o : Z) (b : bytes) : option MetadataWriter :=
  if zlen (mw_media w) <? o + zlen b then None
  else Some (mkMeta (splice (mw_media w) o b) (mw_block w) (mw_offset w) (mw_size w) (mw_version w)).

Definition has_metadata_region (w : MetadataWriter) : bool := (2 * META_ALIGN <=? mw_size w) && (0 <? mw_offset w).
Definition metadata_capacity (w : MetadataWriter) : Z :=
  if negb (has_metadata_region w) then 0 else mw_size w / 2 - META_COPY_HEADER.
Definition meta_copy_offset (w : MetadataWriter) (copy : Z) : Z := mw_offset w + copy * (mw_size w / 2).
Definition block (w : MetadataWriter) : Z := Z.max (mw_block w) 1.

(** The generation and payload length of a copy whose header is valid. *)
Definition meta_copy (w : MetadataWriter) (copy : Z) : option (Z * Z) :=
  match mw_read w (meta_copy_offset w copy) (Z.max META_COPY_HEADER (block w)) with
  | None => None
  | Some buf =>
      if negb (bool_decide (slice 0 8 buf = SLAB_META_MAGIC)) then None
      else if negb (rd_u32 buf 8 =? SLAB_META_VERSION) then None
      else
        let gen := rd_u64 buf 12 in
        let len := rd_u64 buf 20 in
        if metadata_capacity w <? len then None else Some (gen, len)
  end.

(** The copy that is invalid, or the older of the two. *)
Definition meta_target (a b : option (Z * Z)) : Z :=
  match a, b with
  | None, _ => 0
  | _, None => 1
  | Some (ga, _), Some (gb, _) => if ga <=? gb then 0 else 1
  end.
Definition gen_of (c : option (Z * Z)) : Z := match c with Some (g, _) => g | None => 0 end.
Definition next_gen (w : MetadataWriter) : Z := Z.max (gen_of (meta_copy w 0)) (gen_of (meta_copy w 1)) + 1.

Section Meta.
Context (crc32c : bytes -> Z).

Definition meta_fields (gen : Z) (payload : bytes) : list (Z * bytes) :=
  [(0, SLAB_META_MAGIC); (8, le_bytes 4 SLAB_META_VERSION); (12, le_bytes 8 gen); (20, le_bytes 8 (zlen payload));
   (META_COPY_HEADER, payload)].
Definition meta_block (w : MetadataWriter) (gen : Z) (payload : bytes) : bytes :=
  let total := META_COPY_HEADER + zlen payload in
  let buf := write_all (zeros (div_ceil total (block w) * block w)) (meta_fields gen payload) in
  splice buf 28 (le_bytes 4 (crc32c (slice 0 28 buf ++ payload))).

Definition meta_write (payload : bytes) (w : MetadataWriter) : result MetaError MetadataWriter :=
  if mw_version w =? SLAB_VERSION_2 then Err MetaIsV2
  else if negb (has_metadata_region w) then Err MetaNoRegion
  else if metadata_capacity w <? zlen payload then Err (MetaTooLarge (metadata_capacity w))
  else
    let target := meta_target (meta_copy w 0) (meta_copy w 1) in
    match mw_write w (meta_copy_offset w target) (meta_block w (next_gen w) payload) with
    | Some w' => Ok w'
    | None => Err MetaIo
    end.

(** [read_meta_copy]: the payload, or [None] when its checksum fails or it cannot
    be read. *)
Definition read_meta_copy (w : MetadataWriter) (copy len : Z) : option bytes :=
  let want := META_COPY_HEADER + len in
  match mw_read w (meta_copy_offset w copy) (div_ceil want (block w) * block w) with
  | None => None
  | Some buf =>
      if crc32c (slice 0 28 buf ++ slice META_COPY_HEADER len buf) =? rd_u32 buf 28
      then Some (slice META_COPY_HEADER len buf) else None
  end.

(** The valid copies, newest first. *)
Definition meta_copies (w : MetadataWriter) : list (Z * (Z * Z)) :=
  match meta_copy w 0, meta_copy w 1 with
  | Some a, Some b => if fst a <? fst b then [(1, b); (0, a)] else [(0, a); (1, b)]
  | Some a, None => [(0, a)]
  | None, Some b => [(1, b)]
  | None, None => []
  end.
Fixpoint first_readable (w : MetadataWriter) (copies : list (Z * (Z * Z))) : option bytes :=
  match copies with
  | [] => None
  | (copy, (_, len)) :: r =>
      match read_meta_copy w copy len with Some p => Some p | None => first_readable w r end
  end.
Definition read_metadata (w : MetadataWriter) : result MetaError (option bytes) :=
  if negb (has_metadata_region w) then Ok None
  else if mw_version w =? SLAB_VERSION_2 then Err MetaIsV2
  else match meta_copies w with
       | [] => Ok None
       | copies => match first_readable w copies with Some p => Ok (Some p) | None => Err MetaAllCorrupt end
       end.

(** ** A region on the device *)

Record region_ok (w : MetadataWriter) : Prop := {
  ro_region : has_metadata_region w = true;
  ro_size : u64_ok (mw_size w);
  ro_v1 : mw_version w <> SLAB_VERSION_2;
  ro_half : mw_size w / 2 * 2 = mw_size w;
  ro_block : (mw_size w / 2) mod block w = 0;
  ro_fits : mw_offset w + mw_size w <= zlen (mw_media w) }.

(** The bytes of one copy: all that is read of it. *)
Definition copy_bytes (w : MetadataWriter) (copy : Z) : bytes :=
  slice (meta_copy_offset w copy) (mw_size w / 2) (mw_media w).

(** What a power cut may leave of a write into [copy]: anything there, and the other
    copy as it was. *)
Definition cut_write (w w' : MetadataWriter) (copy : Z) : Prop :=
  mw_block w' = mw_block w /\ mw_offset w' = mw_offset w /\ mw_size w' = mw_size w /\ mw_version w' = mw_version w
  /\ zlen (mw_media w') = zlen (mw_media w) /\ copy_bytes w' (1 - copy) = copy_bytes w (1 - copy).

(** The checksum tells a finished copy from an unfinished one: what a cut leaves in
    the copy being written reads as the new record, as what was there before, or
    not at all. *)
Definition checksum_catches (w w' : MetadataWriter) (copy : Z) (payload : bytes) : Prop :=
  forall g len p, meta_copy w' copy = Some (g, len) -> read_meta_copy w' copy len = Some p ->
  (g = next_gen w /\ p = payload) \/ meta_copy w copy = Some (g, len).

(** The newest copy's record is readable. *)
Definition newest_intact (w : MetadataWriter) (p : bytes) : Prop :=
  exists copy g, (copy = 0 \/ copy = 1) /\ meta_copy w copy = Some (g, zlen p)
    /\ read_meta_copy w copy (zlen p) = Some p
    /\ forall g' len, meta_copy w (1 - copy) = Some (g', len) -> g' < g.
End Meta.
