(* ===== verification/SlabMetaProofs.v ===== *)
(** The two copies of a slab's metadata: a finished write is what is read next, a
    cut one leaves the old record or the new, and how two cuts in a row lose both. *)

From S2P Require Import Prelude SlabFormat SlabFormatProofs SlabMeta.

Section Proofs.
Context (crc32c : bytes -> Z).
Context (crc_u32 : forall b, u32_ok (crc32c b)).

Lemma region_half w : region_ok w -> 4096 <= mw_size w / 2 /\ mw_size w = 2 * (mw_size w / 2) /\ 0 < mw_offset w.
Proof. intros [Hr _ _ Hh _ _]. unfold has_metadata_region, META_ALIGN in Hr. bprop. lia. Qed.

Lemma block_pos w : 0 < block w.
Proof. unfold block. lia. Qed.

(** Half a region is whole blocks, so is at least one. *)
Lemma block_le_half w : region_ok w -> block w <= mw_size w / 2.
Proof.
  intros Hok. pose proof (region_half w Hok) as (Hh & _). pose proof (block_pos w). destruct Hok as [_ _ _ _ Hb _].
  pose proof (Z.div_mod (mw_size w / 2) (block w) ltac:(lia)) as Hd. rewrite Hb in Hd.
  assert (1 <= mw_size w / 2 / block w); nia.
Qed.

Lemma rounded_fits w n :
  region_ok w -> n <= mw_size w / 2 -> div_ceil n (block w) * block w <= mw_size w / 2.
Proof.
  intros Hok Hn. pose proof (block_pos w) as Hb. destruct Hok as [_ _ _ _ Hm _].
  pose proof (Z.div_mod (mw_size w / 2) (block w) ltac:(lia)) as Hd. rewrite Hm in Hd.
  pose proof (div_ceil_le n (block w) (mw_size w / 2 / block w) Hb ltac:(lia)). nia.
Qed.

Lemma rounded_ge w n : 0 <= n -> n <= div_ceil n (block w) * block w.
Proof. intros Hn. pose proof (div_ceil_mul n (block w) (block_pos w)). lia. Qed.

Lemma capacity_is w : region_ok w -> metadata_capacity w = mw_size w / 2 - 32.
Proof. intros [Hr _ _ _ _ _]. unfold metadata_capacity, META_COPY_HEADER. by rewrite Hr. Qed.

Lemma copy_range w c : region_ok w -> c = 0 \/ c = 1 ->
  0 < meta_copy_offset w c /\ meta_copy_offset w c + mw_size w / 2 <= zlen (mw_media w).
Proof.
  intros Hok Hc. pose proof (region_half w Hok) as (? & ? & ?). destruct Hok as [_ _ _ _ _ Hf].
  unfold meta_copy_offset. destruct Hc as [-> | ->]; lia.
Qed.

(** Reads of a copy, in terms of its bytes. *)
Lemma read_in_copy w c n : region_ok w -> c = 0 \/ c = 1 -> 0 <= n <= mw_size w / 2 ->
  mw_read w (meta_copy_offset w c) n = Some (slice 0 n (copy_bytes w c)).
Proof.
  intros Hok Hc Hn. pose proof (copy_range w c Hok Hc). unfold mw_read.
  destruct (Z.ltb_spec (zlen (mw_media w)) (meta_copy_offset w c + n)); [lia|].
  unfold copy_bytes. rewrite slice_slice by lia. do 2 f_equal. lia.
Qed.

(** Two regions alike in a copy read the same from it. *)
Lemma meta_copy_same w w' c :
  region_ok w -> region_ok w' -> c = 0 \/ c = 1 ->
  mw_block w' = mw_block w -> mw_offset w' = mw_offset w -> mw_size w' = mw_size w ->
  copy_bytes w' c = copy_bytes w c ->
  meta_copy w' c = meta_copy w c
  /\ forall len, 0 <= len <= metadata_capacity w -> read_meta_copy crc32c w' c len = read_meta_copy crc32c w c len.
Proof.
  intros Hok Hok' Hc Hb Ho Hs Hbytes. assert (block w' = block w) as Hbk by (unfold block; by rewrite Hb).
  pose proof (region_half w Hok) as (Hh & _). pose proof (block_le_half w Hok). pose proof (block_pos w).
  assert (metadata_capacity w' = metadata_capacity w) as Hcap by (rewrite !capacity_is by done; by rewrite Hs).
  split.
  - unfold meta_copy, META_COPY_HEADER. rewrite !read_in_copy by (done || rewrite ?Hbk, ?Hs; lia).
    by rewrite Hcap, Hbk, Hbytes.
  - intros len Hlen. rewrite capacity_is in Hlen by done. unfold read_meta_copy, META_COPY_HEADER. rewrite Hbk.
    pose proof (rounded_fits w (32 + len) Hok ltac:(lia)). pose proof (rounded_ge w (32 + len) ltac:(lia)).
    rewrite !read_in_copy by (done || rewrite ?Hs; lia). by rewrite Hbytes.
Qed.

Lemma meta_copy_len w c g len : meta_copy w c = Some (g, len) -> len <= metadata_capacity w.
Proof.
  unfold meta_copy. destruct (mw_read _ _ _) as [buf|]; [|done]. destruct (negb _); [done|]. destruct (negb _); [done|].
  destruct (Z.ltb_spec (metadata_capacity w) (rd_u64 buf 20)); [done|]. intros [= _ <-]. lia.
Qed.

(** *** The record as written *)

Lemma meta_fields_shape g p : shape (meta_fields g p) = [(0, 8); (8, 4); (12, 8); (20, 8); (32, zlen p)].
Proof. unfold shape, meta_fields. cbn [map fst snd]. by rewrite !zlen_le_bytes. Qed.

Definition block_crc (w : MetadataWriter) (g : Z) (p : bytes) : Z :=
  crc32c (slice 0 28 (write_all (zeros (div_ceil (32 + zlen p) (block w) * block w)) (meta_fields g p)) ++ p).

(** Ranges kept apart, lengths symbolic. *)
Ltac apart_tac :=
  unfold apart; cbn [drop forallb fst snd]; rewrite ?andb_true_iff, ?orb_true_iff, ?Z.leb_le; repeat split; lia.

Lemma meta_block_fields w g p :
  let b := meta_block crc32c w g p in
  let n := div_ceil (32 + zlen p) (block w) * block w in
  zlen b = n /\ slice 0 8 b = SLAB_META_MAGIC /\ slice 8 4 b = le_bytes 4 SLAB_META_VERSION /\ slice 12 8 b = le_bytes 8 g
  /\ slice 20 8 b = le_bytes 8 (zlen p) /\ slice 32 (zlen p) b = p /\ slice 28 4 b = le_bytes 4 (block_crc w g p)
  /\ slice 0 28 b = slice 0 28 (write_all (zeros n) (meta_fields g p)).
Proof.
  intros b n. pose proof (zlen_nonneg p). pose proof (rounded_ge w (32 + zlen p) ltac:(lia)) as Hn. fold n in Hn.
  assert (b = write_all (zeros n) (meta_fields g p ++ [(28, le_bytes 4 (block_crc w g p))])) as Hb.
  { unfold b, meta_block. rewrite write_all_snoc. done. }
  set (sh := [(0, 8); (8, 4); (12, 8); (20, 8); (32, zlen p); (28, 4)]).
  assert (shape (meta_fields g p ++ [(28, le_bytes 4 (block_crc w g p))]) = sh) as Hsh.
  { unfold shape. rewrite map_app. fold (shape (meta_fields g p)). by rewrite meta_fields_shape. }
  assert (zlen (zeros n) = n) as Hz by (apply zlen_zeros; lia).
  assert (in_bounds n sh = true) as Hin.
  { unfold in_bounds, sh. cbn [forallb fst snd]. rewrite !andb_true_iff, !Z.leb_le. lia. }
  assert (forall o m, 0 <= o -> 0 <= m -> apart o m [(28, 4)] = true ->
    slice o m b = slice o m (write_all (zeros n) (meta_fields g p))) as Hkeep.
  { intros o m Ho Hm Ha. rewrite Hb, write_all_app. apply (read_untouched n); try done.
    - apply (zlen_write_all n); [done|]. rewrite meta_fields_shape. unfold sh, in_bounds in Hin |- *. cbn [forallb fst snd] in *.
      rewrite !andb_true_iff in Hin |- *. tauto.
    - unfold in_bounds, shape. cbn [forallb map fst snd]. rewrite zlen_le_bytes, !andb_true_iff, !Z.leb_le. lia. }
  assert (forall k o m s, (meta_fields g p ++ [(28, le_bytes 4 (block_crc w g p))]) !! k = Some (o, s) ->
    sh !! k = Some (o, m) -> apart o m (drop (S k) sh) = true -> slice o m b = s) as Hrd.
  { intros k o m s H1 H2 H3. rewrite Hb. by apply (read_written n _ _ sh k). }
  split_and!.
  - rewrite Hb. apply (zlen_write_all n); [done|by rewrite Hsh].
  - apply (Hrd 0%nat); [done..|unfold sh; apart_tac].
  - apply (Hrd 1%nat); [done..|unfold sh; apart_tac].
  - apply (Hrd 2%nat); [done..|unfold sh; apart_tac].
  - apply (Hrd 3%nat); [done..|unfold sh; apart_tac].
  - apply (Hrd 4%nat); [done..|unfold sh; apart_tac].
  - apply (Hrd 5%nat); [done..|unfold sh; apart_tac].
  - by apply Hkeep.
Qed.

Definition rounded (w : MetadataWriter) (p : bytes) : Z := div_ceil (32 + zlen p) (block w) * block w.

(** A copy holding a finished record reads as it. *)
Lemma copy_holds w c g p :
  region_ok w -> c = 0 \/ c = 1 -> zlen p <= metadata_capacity w -> u64_ok g ->
  slice 0 (rounded w p) (copy_bytes w c) = meta_block crc32c w g p ->
  meta_copy w c = Some (g, zlen p) /\ read_meta_copy crc32c w c (zlen p) = Some p.
Proof using crc_u32.
  intros Hok Hc Hp Hg Hb. pose proof (capacity_is w Hok) as Hcap. pose proof (zlen_nonneg p).
  pose proof (region_half w Hok) as (Hh & Hh2 & _). pose proof (block_le_half w Hok). pose proof (block_pos w).
  pose proof (rounded_fits w (32 + zlen p) Hok ltac:(lia)) as Hr1. pose proof (rounded_ge w (32 + zlen p) ltac:(lia)) as Hr2.
  fold (rounded w p) in Hr1, Hr2.
  assert (block w <= rounded w p) as Hr3.
  { unfold rounded in *. assert (1 <= div_ceil (32 + zlen p) (block w)); nia. }
  pose proof (meta_block_fields w g p) as Hf. cbv zeta in Hf. rewrite <- Hb in Hf. fold (rounded w p) in Hf.
  destruct Hf as (_ & F0 & F8 & F12 & F20 & F32 & F28 & Fcrc).
  assert (forall n o m, 0 <= o -> 0 <= m -> o + m <= n -> o + m <= rounded w p ->
    slice o m (slice 0 n (copy_bytes w c)) = slice o m (slice 0 (rounded w p) (copy_bytes w c))) as Hs.
  { intros n o m Ho Hm Hn1 Hn2. by rewrite !slice_slice by lia. }
  split.
  - unfold meta_copy, META_COPY_HEADER. rewrite read_in_copy by (done || lia). unfold rd_u32, rd_u64.
    rewrite (Hs _ 0 8), (Hs _ 8 4), (Hs _ 12 8), (Hs _ 20 8) by lia. rewrite F0, F8, F12, F20, bool_decide_true by done. cbn [negb].
    rewrite le_val_u32, Z.eqb_refl by by_decide. cbn [negb].
    assert (u64_ok (zlen p)) by (pose proof (ro_size w Hok) as Hsz; unfold u64_ok in Hsz |- *; lia).
    rewrite !le_val_u64 by done. by destruct (Z.ltb_spec (metadata_capacity w) (zlen p)); [lia|].
  - unfold read_meta_copy, META_COPY_HEADER. fold (rounded w p). rewrite read_in_copy by (done || lia).
    unfold rd_u32. rewrite F28, F32, Fcrc. fold (block_crc w g p). rewrite le_val_u32 by apply crc_u32.
    by rewrite Z.eqb_refl.
Qed.

(** *** Writing *)

Definition target_of (w : MetadataWriter) : Z := meta_target (meta_copy w 0) (meta_copy w 1).

Lemma target_is w : target_of w = 0 \/ target_of w = 1.
Proof. unfold target_of, meta_target. repeat case_match; auto. Qed.

(** The copy not written is older than the record about to be, and is the newest
    of the two if either is valid. *)
Lemma target_older w c g len :
  meta_copy w c = Some (g, len) -> c = 0 \/ c = 1 ->
  (forall g' len', meta_copy w (1 - c) = Some (g', len') -> g' < g) -> target_of w = 1 - c.
Proof.
  intros Hc [-> | ->] Hother; cbn in Hother; unfold target_of, meta_target; rewrite Hc.
  - destruct (meta_copy w 1) as [[g' len']|] eqn:E; [|done].
    specialize (Hother g' len' E). by destruct (Z.leb_spec g g'); [lia|].
  - destruct (meta_copy w 0) as [[g' len']|] eqn:E; [|done].
    specialize (Hother g' len' E). by destruct (Z.leb_spec g' g); [|lia].
Qed.

Lemma next_gen_above w c g len : c = 0 \/ c = 1 -> meta_copy w c = Some (g, len) -> g < next_gen w.
Proof. unfold next_gen, gen_of. intros [-> | ->] ->; lia. Qed.

Lemma meta_write_runs w p :
  region_ok w -> zlen p <= metadata_capacity w ->
  exists w', meta_write crc32c p w = Ok w'
    /\ w' = mkMeta (splice (mw_media w) (meta_copy_offset w (target_of w)) (meta_block crc32c w (next_gen w) p))
              (mw_block w) (mw_offset w) (mw_size w) (mw_version w)
    /\ region_ok w' /\ copy_bytes w' (1 - target_of w) = copy_bytes w (1 - target_of w)
    /\ slice 0 (rounded w p) (copy_bytes w' (target_of w)) = meta_block crc32c w (next_gen w) p.
Proof using Type.
  intros Hok Hp. pose proof (target_is w) as Ht. pose proof (copy_range w _ Hok Ht) as Hrange.
  pose proof (zlen_nonneg p). pose proof (capacity_is w Hok) as Hcap. pose proof (region_half w Hok) as (Hh & Hh2 & Ho).
  destruct (meta_block_fields w (next_gen w) p) as (Hlen & _). fold (rounded w p) in Hlen.
  pose proof (rounded_fits w (32 + zlen p) Hok ltac:(lia)) as Hr1. pose proof (rounded_ge w (32 + zlen p) ltac:(lia)) as Hr2.
  fold (rounded w p) in Hr1, Hr2. set (b := meta_block crc32c w (next_gen w) p) in *.
  eexists. split; [|split; [reflexivity|]].
  - unfold meta_write. fold (target_of w) b. unfold mw_write. destruct Hok as [Hr _ Hv _ _ _].
    rewrite (proj2 (Z.eqb_neq _ _) Hv), Hr. cbn [negb].
    destruct (Z.ltb_spec (metadata_capacity w) (zlen p)); [lia|].
    destruct (Z.ltb_spec (zlen (mw_media w)) (meta_copy_offset w (target_of w) + zlen b)); [lia|]. done.
  - split_and!.
    + destruct Hok. constructor; try done. cbn. rewrite zlen_splice; lia.
    + unfold copy_bytes, meta_copy_offset in *. cbn [mw_media mw_offset mw_size]. pose proof (ro_fits w Hok). clearbody b.
      destruct Ht as [Et|Et]; rewrite Et in *; [apply slice_splice_after; lia|apply slice_splice_before; lia].
    + unfold copy_bytes. cbn [mw_media mw_offset mw_size meta_copy_offset]. fold (meta_copy_offset w (target_of w)).
      change (meta_copy_offset _ (target_of w)) with (meta_copy_offset w (target_of w)).
      rewrite slice_slice, Z.add_0_r by lia. apply slice_splice_same; lia.
Qed.

(** A record whose copy is the newer of the two is what is read. *)
Lemma read_newest w c g n p :
  region_ok w -> c = 0 \/ c = 1 -> meta_copy w c = Some (g, n) -> read_meta_copy crc32c w c n = Some p ->
  (forall g' len p', meta_copy w (1 - c) = Some (g', len) -> read_meta_copy crc32c w (1 - c) len = Some p' -> g' < g) ->
  read_metadata crc32c w = Ok (Some p).
Proof using Type.
  intros [Hr _ Hv _ _ _] Hc Hm Hp Ho. unfold read_metadata. rewrite Hr. cbn [negb]. rewrite (proj2 (Z.eqb_neq _ _) Hv).
  unfold meta_copies. destruct Hc as [-> | ->]; cbn in Ho; rewrite Hm.
  - destruct (meta_copy w 1) as [[g' len]|] eqn:E; [|cbn; by rewrite Hp]. cbn [fst].
    destruct (Z.ltb_spec g g'); cbn [first_readable]; [|by rewrite Hp].
    destruct (read_meta_copy crc32c w 1 len) as [p'|] eqn:E'; [|by rewrite Hp].
    specialize (Ho g' len p' E E'). lia.
  - destruct (meta_copy w 0) as [[g' len]|] eqn:E; [|cbn; by rewrite Hp]. cbn [fst].
    destruct (Z.ltb_spec g' g); cbn [first_readable]; [by rewrite Hp|].
    destruct (read_meta_copy crc32c w 0 len) as [p'|] eqn:E'; [|by rewrite Hp].
    specialize (Ho g' len p' E E'). lia.
Qed.

(** A metadata write that finishes is what the slab reads next, whatever its two
    copies held, and makes it the newest; a write that does not fit or has no region
    changes nothing and says so. *)
Lemma metadata_write_lands w p :
  region_ok w -> u64_ok (next_gen w) ->
  (zlen p <= metadata_capacity w ->
   exists w', meta_write crc32c p w = Ok w' /\ region_ok w' /\ read_metadata crc32c w' = Ok (Some p)
     /\ newest_intact crc32c w' p)
  /\ (metadata_capacity w < zlen p -> meta_write crc32c p w = Err (MetaTooLarge (metadata_capacity w))).
Proof using crc_u32.
  intros Hok Hg. split.
  - intros Hp. destruct (meta_write_runs w p Hok Hp) as (w' & Hrun & Hw' & Hok' & Hother & Hb). exists w'.
    pose proof (target_is w) as Ht. assert (metadata_capacity w' = metadata_capacity w) as Hcap by (by subst w').
    destruct (copy_holds w' (target_of w) (next_gen w) p) as [Hm Hr]; [done|done|by rewrite Hcap|done|by subst w'|].
    assert (1 - target_of w = 0 \/ 1 - target_of w = 1) as Ht' by lia.
    destruct (meta_copy_same w w' (1 - target_of w)) as [Hsame _]; try done; try (by subst w').
    assert (forall g' len, meta_copy w' (1 - target_of w) = Some (g', len) -> g' < next_gen w) as Hnew.
    { intros g' len Hm'. rewrite Hsame in Hm'. by eapply next_gen_above. }
    split_and!; try done; [|by exists (target_of w), (next_gen w)].
    apply (read_newest w' (target_of w) (next_gen w) (zlen p)); try done. intros g' len p' Hm' _. by eapply Hnew.
  - intros Hp. destruct Hok as [Hr _ Hv _ _ _]. unfold meta_write. rewrite (proj2 (Z.eqb_neq _ _) Hv), Hr. cbn [negb].
    by destruct (Z.ltb_spec (metadata_capacity w) (zlen p)); [|lia].
Qed.

(** C36. A power cut anywhere in a metadata write leaves the record before it or the
    one being written, never neither - provided the newest copy was readable when
    the write began, which is what the other theorem here says a finished write
    leaves.  The checksum is taken to tell finished copies from unfinished ones. *)
Theorem torn_write_keeps_a_record w w' old p :
  region_ok w -> region_ok w' -> u64_ok (next_gen w) -> zlen p <= metadata_capacity w ->
  newest_intact crc32c w old -> cut_write w w' (target_of w) -> checksum_catches crc32c w w' (target_of w) p ->
  read_metadata crc32c w' = Ok (Some old) \/ read_metadata crc32c w' = Ok (Some p).
Proof using crc_u32.
  intros Hok Hok' Hg Hp (c & g & Hc & Hm & Hr & Hold) (E1 & E2 & E3 & E4 & E5 & E6) Hcrc.
  pose proof (target_older w c g _ Hm Hc Hold) as Ht. rewrite Ht in *.
  replace (1 - (1 - c)) with c in E6 by lia.
  destruct (meta_copy_same w w' c) as [Hm' Hr']; try done. rewrite Hm in Hm'.
  assert (0 <= zlen old <= metadata_capacity w) as Hlen.
  { split; [apply zlen_nonneg|by eapply meta_copy_len]. }
  rewrite <- (Hr' _ Hlen) in Hr.
  destruct (meta_copy w' (1 - c)) as [[g' len]|] eqn:Hm2.
  - destruct (read_meta_copy crc32c w' (1 - c) len) as [p'|] eqn:Hr2.
    + destruct (Hcrc g' len p' Hm2 Hr2) as [[-> ->]|Hwas].
      * right. pose proof (next_gen_above w c g _ Hc Hm).
        apply (read_newest w' (1 - c) (next_gen w) len); try done; [lia|].
        replace (1 - (1 - c)) with c by lia. intros g2 len2 p2 Hm3. rewrite Hm' in Hm3. intros _. injection Hm3 as <- _. done.
      * left. apply (read_newest w' c g (zlen old)); try done. intros g2 len2 p2 Hm3 _. rewrite Hm2 in Hm3. injection Hm3 as <- <-.
        by eapply Hold.
    + left. apply (read_newest w' c g (zlen old)); try done. intros g2 len2 p2 Hm3 Hr3. rewrite Hm2 in Hm3. injection Hm3 as <- <-.
      congruence.
  - left. apply (read_newest w' c g (zlen old)); try done. intros g2 len2 p2 Hm3. congruence.
Qed.
End Proofs.

(** ** A small region *)

(** Two copies of 4 KiB after a 4 KiB header, never written. *)
Definition demo_region : MetadataWriter := mkMeta (zeros 12288) 512 4096 8192 SLAB_VERSION.
Definition record_a : bytes := [1; 2; 3].
Definition record_b : bytes := [4; 5].
(** Longer than a sector, so that a cut can keep one and lose the next. *)
Definition record_c : bytes := replicate 600 6.
Definition record_d : bytes := replicate 700 7.
Definition meta_after (p : bytes) (w : MetadataWriter) : MetadataWriter :=
  match meta_write sum_crc p w with Ok w' => w' | Err _ => w end.

Lemma demo_region_ok : region_ok demo_region.
Proof. split; vm_compute; repeat split; congruence. Qed.
Lemma meta_after_ok p w : region_ok w -> region_ok (meta_after p w).
Proof.
  intros Hok. unfold meta_after. destruct (meta_write sum_crc p w) as [w'|] eqn:E; [|done].
  destruct (decide (zlen p <= metadata_capacity w)) as [Hp|Hp].
  - destruct (meta_write_runs sum_crc w p Hok Hp) as (w2 & E2 & _ & Hok2 & _). rewrite E in E2. by injection E2 as <-.
  - revert E. unfold meta_write. destruct Hok as [Hr _ Hv _ _ _]. rewrite (proj2 (Z.eqb_neq _ _) Hv), Hr. cbn [negb].
    by destruct (Z.ltb_spec (metadata_capacity w) (zlen p)); [|lia].
Qed.

(** The cut that leaves the first [n] bytes of what was being written. *)
Definition cut_after (n : Z) (p : bytes) (w : MetadataWriter) : MetadataWriter :=
  mkMeta (splice (mw_media w) (meta_copy_offset w (target_of w)) (slice 0 n (meta_block sum_crc w (next_gen w) p)))
    (mw_block w) (mw_offset w) (mw_size w) (mw_version w).

Lemma torn_write_keeps_a_record_witness :
  let w := meta_after record_b (meta_after record_a demo_region) in
  read_metadata sum_crc (cut_after 512 record_c w) = Ok (Some record_b)
  \/ read_metadata sum_crc (cut_after 512 record_c w) = Ok (Some record_c).
Proof.
  intros w. apply (torn_write_keeps_a_record sum_crc sum_crc_u32 w).
  - apply meta_after_ok, meta_after_ok, demo_region_ok.
  - split; vm_compute; repeat split; congruence.
  - vm_compute. split; congruence.
  - vm_compute. congruence.
  - exists 1, 2. split_and!; [by right|vm_compute; reflexivity..|].
    intros g' len Hm. vm_compute in Hm. injection Hm as <- <-. lia.
  - split_and!; vm_compute; reflexivity.
  - assert (meta_copy (cut_after 512 record_c w) (target_of w) = Some (3, 600)) as Hc by (vm_compute; reflexivity).
    assert (read_meta_copy sum_crc (cut_after 512 record_c w) (target_of w) 600 = None) as Hn by (vm_compute; reflexivity).
    intros g len p Hm Hr. rewrite Hc in Hm. injection Hm as <- <-. rewrite Hn in Hr. discriminate.
Defined.

(** Two cuts in a row can lose the slab's metadata altogether: the first leaves
    a copy whose header is whole and newer but whose payload is not; the next write
    takes the older copy - the only readable one - for its target; cut as well, no
    copy is left that passes its checksum. *)
Lemma two_torn_writes_lose_metadata :
  let w := meta_after record_b (meta_after record_a demo_region) in
  let w1 := cut_after 512 record_c w in
  let w2 := cut_after 512 record_d w1 in
  read_metadata sum_crc w1 = Ok (Some record_b) /\ read_metadata sum_crc w2 = Err MetaAllCorrupt.
Proof. split; vm_compute; reflexivity. Qed.
