(* ===== verification/RaidLayout.v ===== *)
(** Where a byte of a RAID array lives on its members, [raid/layout.rs]: a stripe's members
    each have one part, a range splits into its pieces, and no two bytes share a place. *)

From S2P Require Import Prelude.

Module Layout.

Inductive RaidLevel := Raid1 | Raid5 | Raid6 | Raid10.
#[export] Instance RaidLevel_eq : EqDecision RaidLevel.
Proof. solve_decision. Defined.

Record Geometry := mkGeometry { level : RaidLevel; n : Z; unit_ : Z }.
Record Segment := mkSegment { stripe : Z; index : Z; offset_in_unit : Z; len : Z; buf_offset : Z }.
Inductive StripRole := Data (d : Z) | P | Q.
#[export] Instance StripRole_eq : EqDecision StripRole.
Proof. solve_decision. Defined.

Definition data_count (g : Geometry) : Z :=
  match level g with Raid1 => 1 | Raid5 => n g - 1 | Raid6 => n g - 2 | Raid10 => n g / 2 end.
Definition tolerated (g : Geometry) : Z :=
  match level g with Raid1 => sat_sub (n g) 1 | Raid5 => 1 | Raid6 => 2 | Raid10 => 1 end.
Definition is_parity (g : Geometry) : bool := match level g with Raid5 | Raid6 => true | _ => false end.

Definition p_member (g : Geometry) (stripe : Z) : Z := (n g - 1) - stripe mod n g.
Definition q_member (g : Geometry) (stripe : Z) : Z := (p_member g stripe + 1) mod n g.
Definition skip (g : Geometry) : Z := if bool_decide (level g = Raid6) then 2 else 1.
Definition data_member (g : Geometry) (stripe d : Z) : Z := (p_member g stripe + skip g + d) mod n g.
Definition role_of (g : Geometry) (stripe member : Z) : StripRole :=
  let p := p_member g stripe in
  if member =? p then P
  else if bool_decide (level g = Raid6) && (member =? q_member g stripe) then Q
  else Data ((member + n g - p - skip g) mod n g).
Definition pair_members (pair : Z) : Z * Z := (2 * pair, 2 * pair + 1).
Definition pair_of (member : Z) : Z := member / 2.

Definition stripe_bytes (g : Geometry) : Z := unit_ g * data_count g.
Definition capacity (g : Geometry) (data_size : Z) : Z :=
  match level g with Raid1 => data_size | _ => data_size / unit_ g * stripe_bytes g end.

(** One turn of the loop of [segments]; [None] when it is done. *)
Definition next_segment (g : Geometry) (offset pos end_ : Z) : option Segment :=
  if pos <? end_ then
    let within := pos mod stripe_bytes g in
    let off := within mod unit_ g in
    Some (mkSegment (pos / stripe_bytes g) (within / unit_ g) off (Z.min (unit_ g - off) (end_ - pos)) (pos - offset))
  else None.
Fixpoint segments_from (fuel : nat) (g : Geometry) (offset pos end_ : Z) : option (list Segment) :=
  match next_segment g offset pos end_ with
  | None => Some []
  | Some s =>
      match fuel with
      | O => None
      | S fuel => rest ← segments_from fuel g offset (pos + len s) end_; Some (s :: rest)
      end
  end.
(** A turn takes a byte or more, so [len] turns are enough.  [offset + length] is a sum of
    [u64] in the code: [read] and [write] have compared it with the capacity, so it is
    taken not to wrap, as for every range of a buffer in memory behind an offset below the
    capacity. *)
Definition segments (g : Geometry) (offset length : Z) : option (list Segment) :=
  segments_from (Z.to_nat length) g offset offset (offset + length).

End Layout.

(** ** Every byte has its own place *)

Import Layout.

(** A set with the members its level needs ([create] refuses others). *)
Definition enough (g : Geometry) : Prop :=
  match level g with Raid1 => 1 <= n g | Raid5 => 2 <= n g | Raid6 => 3 <= n g | Raid10 => 2 <= n g end.
Definition geo_ok (g : Geometry) : Prop := enough g /\ 0 < unit_ g.

Lemma data_count_pos g : enough g -> 0 < data_count g.
Proof. unfold enough, data_count. destruct (level g); try lia. intros. assert (1 <= n g / 2); [|lia]. apply Z.div_le_lower_bound; lia. Qed.

Lemma stripe_bytes_pos g : geo_ok g -> 0 < stripe_bytes g.
Proof. intros [He Hu]. unfold stripe_bytes. pose proof (data_count_pos g He). lia. Qed.

(** ** Splitting a range *)

(** The byte of the array a piece starts at. *)
Definition byte_of (g : Geometry) (s : Segment) : Z := stripe s * stripe_bytes g + index s * unit_ g + offset_in_unit s.

(** Pieces in order from [pos] to [end_], each inside one unit of one stripe. *)
Inductive tiles (g : Geometry) (offset : Z) : Z -> Z -> list Segment -> Prop :=
| tiles_done pos : tiles g offset pos pos []
| tiles_piece pos end_ s rest :
    0 < len s -> byte_of g s = pos -> buf_offset s = pos - offset ->
    0 <= index s < data_count g -> 0 <= offset_in_unit s -> offset_in_unit s + len s <= unit_ g ->
    tiles g offset (pos + len s) end_ rest -> tiles g offset pos end_ (s :: rest).

Lemma next_segment_ok g offset pos end_ : geo_ok g -> pos < end_ ->
  exists s, next_segment g offset pos end_ = Some s /\ 0 < len s <= end_ - pos /\ byte_of g s = pos /\ buf_offset s = pos - offset
    /\ 0 <= index s < data_count g /\ 0 <= offset_in_unit s /\ offset_in_unit s + len s <= unit_ g.
Proof.
  intros Hg Hlt. pose proof (stripe_bytes_pos g Hg) as Hs. destruct Hg as [He Hu]. unfold next_segment.
  destruct (Z.ltb_spec pos end_); [|lia]. eexists. split; [reflexivity|]. unfold byte_of. cbn [stripe index offset_in_unit len buf_offset].
  pose proof (Z.div_mod pos (stripe_bytes g) ltac:(lia)). pose proof (Z.mod_pos_bound pos (stripe_bytes g) ltac:(lia)).
  set (w := pos mod stripe_bytes g) in *. pose proof (Z.div_mod w (unit_ g) ltac:(lia)). pose proof (Z.mod_pos_bound w (unit_ g) ltac:(lia)).
  assert (w / unit_ g < data_count g) by (apply Z.div_lt_upper_bound; [lia|]; unfold stripe_bytes in *; lia).
  pose proof (Z.div_pos w (unit_ g) ltac:(lia) ltac:(lia)). split_and!; lia.
Qed.

Lemma segments_from_ok g offset : geo_ok g -> forall fuel pos end_,
  pos <= end_ -> end_ - pos <= Z.of_nat fuel ->
  exists l, segments_from fuel g offset pos end_ = Some l /\ tiles g offset pos end_ l.
Proof.
  intros Hg. induction fuel as [|fuel IH]; intros pos end_ Hle Hf.
  { assert (pos = end_) as -> by lia. exists []. split; [|constructor]. cbn [segments_from]. unfold next_segment. by rewrite Z.ltb_irrefl. }
  cbn [segments_from]. destruct (decide (pos = end_)) as [->|Hne].
  { exists []. split; [|constructor]. unfold next_segment. by rewrite Z.ltb_irrefl. }
  destruct (next_segment_ok g offset pos end_ Hg ltac:(lia)) as (s & -> & [Hl Hl2] & Hb & Ho & Hi & Hu1 & Hu2).
  destruct (IH (pos + len s) end_ ltac:(lia) ltac:(lia)) as (l & -> & Ht). exists (s :: l). split; [done|]. by constructor.
Qed.

Lemma tiles_total g offset pos end_ l : tiles g offset pos end_ l -> zsum (map len l) = end_ - pos.
Proof. induction 1 as [pos|pos end_ s rest Hl Hb Ho Hi Hu1 Hu2 Ht IH]; cbn [map zsum foldr]; [lia|]. unfold zsum in IH. lia. Qed.

(** C30. Splitting a range always ends, and splits it: the pieces follow each other
    from the first byte to the last, each inside one unit of one stripe, each at its
    place in the caller's buffer, their lengths adding up to the range's. *)
Theorem segments_split_the_range g offset length :
  geo_ok g -> 0 <= length ->
  exists l, segments g offset length = Some l /\ tiles g offset offset (offset + length) l /\ zsum (map len l) = length.
Proof.
  intros Hg Hl. destruct (segments_from_ok g offset Hg (Z.to_nat length) offset (offset + length)) as (l & E & Ht); [lia|lia|].
  exists l. split; [done|]. split; [done|]. rewrite (tiles_total _ _ _ _ _ Ht). lia.
Qed.

Definition raid6_of_5 : Geometry := mkGeometry Raid6 5 65536.
Lemma segments_split_the_range_witness :
  exists l, segments raid6_of_5 60000 10000 = Some l /\ zsum (map len l) = 10000.
Proof.
  destruct (segments_split_the_range raid6_of_5 60000 10000) as (l & E & _ & Hs); [by split|lia|].
  exists l. by split.
Defined.

(** ** Parity rotation *)

Lemma mod_add_range a b m : 0 < m -> 0 <= a < m -> 0 <= b <= m -> (a + b) mod m = if a + b <? m then a + b else a + b - m.
Proof.
  intros. destruct (Z.ltb_spec (a + b) m); [apply Z.mod_small; lia|].
  destruct (decide (a + b - m = m)) as [E|].
  { assert (a + b = m * 2) by lia. lia. }
  symmetry. apply (Z.mod_unique_pos (a + b) m 1); lia.
Qed.

Lemma p_member_range g s : 0 < n g -> 0 <= p_member g s < n g.
Proof. intros. unfold p_member. pose proof (Z.mod_pos_bound s (n g) ltac:(lia)). lia. Qed.

(** A parity set. *)
Definition parity_ok (g : Geometry) : Prop := is_parity g = true /\ enough g.

Lemma skip_data g : parity_ok g -> 1 <= skip g <= 2 /\ data_count g = n g - skip g /\ skip g < n g /\ (level g = Raid6 <-> skip g = 2).
Proof.
  intros [Hp He]. unfold is_parity, enough, data_count, skip in *. destruct (level g) eqn:E; try done.
  - rewrite bool_decide_false by done. split_and!; first [lia | done | intros; lia].
  - rewrite bool_decide_true by done. split_and!; first [lia | done].
Qed.

Lemma role_of_data g s d : parity_ok g -> 0 <= d < data_count g -> role_of g s (data_member g s d) = Data d.
Proof.
  intros Hg Hd. destruct (skip_data g Hg) as (Hk & Hc & Hn & H6). pose proof (p_member_range g s ltac:(lia)) as Hp.
  unfold data_member. rewrite <- Z.add_assoc, mod_add_range by lia. unfold role_of, q_member. rewrite mod_add_range by lia.
  set (p := p_member g s) in *. set (m := if p + (skip g + d) <? n g then _ else _).
  assert (m = p + (skip g + d) \/ m = p + (skip g + d) - n g) as Hm by (unfold m; destruct (_ <? _); tauto).
  assert (m <> p) by lia. destruct (Z.eqb_spec m p); [lia|].
  assert (bool_decide (level g = Raid6) && (m =? (if p + 1 <? n g then p + 1 else p + 1 - n g)) = false) as ->.
  { destruct (bool_decide_reflect (level g = Raid6)) as [E|]; [|done]. cbn [andb]. apply H6 in E. apply Z.eqb_neq.
    destruct (Z.ltb_spec (p + 1) (n g)); lia. }
  f_equal. destruct Hm as [->| ->].
  - replace (p + (skip g + d) + n g - p - skip g) with (d + 1 * n g) by lia. rewrite Z.mod_add by lia. apply Z.mod_small. lia.
  - replace (p + (skip g + d) - n g + n g - p - skip g) with d by lia. apply Z.mod_small. lia.
Qed.

Lemma data_of_role g s m d : parity_ok g -> 0 <= m < n g -> role_of g s m = Data d -> 0 <= d < data_count g /\ data_member g s d = m.
Proof.
  intros Hg Hm H. destruct (skip_data g Hg) as (Hk & Hc & Hn & H6). pose proof (p_member_range g s ltac:(lia)) as Hp.
  unfold role_of, q_member in H. rewrite mod_add_range in H by lia. set (p := p_member g s) in *.
  destruct (Z.eqb_spec m p) as [|Hmp]; [done|].
  destruct (bool_decide (level g = Raid6) && _) eqn:Eq; [done|]. injection H as <-. unfold data_member. fold p.
  set (k := (m - p) mod n g). pose proof (Z.mod_pos_bound (m - p) (n g) ltac:(lia)) as Hkb. fold k in Hkb.
  assert (k = m - p \/ k = m - p + n g) as Hkv.
  { unfold k. destruct (decide (p < m)); [left; apply Z.mod_small; lia|right]. symmetry. apply (Z.mod_unique_pos (m - p) (n g) (-1)); lia. }
  assert (skip g <= k).
  { destruct (decide (skip g = 2)) as [E2|]; [|lia]. rewrite bool_decide_true in Eq by (by apply H6). cbn [andb] in Eq. apply Z.eqb_neq in Eq.
    destruct (Z.ltb_spec (p + 1) (n g)); lia. }
  assert ((m + n g - p - skip g) mod n g = k - skip g) as ->.
  { symmetry. destruct Hkv as [E|E]; [apply (Z.mod_unique_pos _ _ 1)|apply (Z.mod_unique_pos _ _ 0)]; lia. }
  split; [lia|]. replace (p + skip g + (k - skip g)) with (p + k) by lia. rewrite mod_add_range by lia.
  destruct (Z.ltb_spec (p + k) (n g)); lia.
Qed.

Lemma role_of_parity g s : parity_ok g -> role_of g s (p_member g s) = P /\ (level g = Raid6 -> role_of g s (q_member g s) = Q).
Proof.
  intros Hg. destruct (skip_data g Hg) as (Hk & Hc & Hn & H6). pose proof (p_member_range g s ltac:(lia)) as Hp.
  unfold role_of. rewrite Z.eqb_refl. split; [done|]. intros E. unfold q_member. rewrite mod_add_range by lia.
  destruct (Z.eqb_spec (if p_member g s + 1 <? n g then p_member g s + 1 else p_member g s + 1 - n g) (p_member g s)) as [E'|].
  - destruct (Z.ltb_spec (p_member g s + 1) (n g)); lia.
  - by rewrite bool_decide_true, Z.eqb_refl by done.
Qed.

(** ** Places *)

(** The member and member offset of byte [x] of a parity set, as [segments] and
    [data_member] give it. *)
Definition place (g : Geometry) (x : Z) : Z * Z :=
  let w := x mod stripe_bytes g in
  (data_member g (x / stripe_bytes g) (w / unit_ g), x / stripe_bytes g * unit_ g + w mod unit_ g).

Lemma unit_split u a b a' b' : 0 < u -> 0 <= b < u -> 0 <= b' < u -> a * u + b = a' * u + b' -> a = a' /\ b = b'.
Proof. intros. assert (a = a') by nia. subst. lia. Qed.

(** C28. The left-symmetric layout of RAID-5 and RAID-6: in every stripe each data
    strip has its own member, which is neither P's nor (RAID-6) Q's, and each member
    is the strip, P or Q it is said to be; no two bytes of the array share a place on a
    member, and the bytes of a set's capacity all lie within its members' data. *)
Theorem parity_layout_is_exact g :
  parity_ok g -> 0 < unit_ g ->
  (forall s d, 0 <= d < data_count g -> role_of g s (data_member g s d) = Data d)
  /\ (forall s m d, 0 <= m < n g -> role_of g s m = Data d -> 0 <= d < data_count g /\ data_member g s d = m)
  /\ (forall s, role_of g s (p_member g s) = P /\ (level g = Raid6 -> role_of g s (q_member g s) = Q))
  /\ (forall x y, 0 <= x -> 0 <= y -> place g x = place g y -> x = y)
  /\ (forall x size, 0 <= x < capacity g size -> 0 <= fst (place g x) < n g /\ 0 <= snd (place g x) < size).
Proof.
  intros Hg Hu. destruct (skip_data g Hg) as (Hk & Hc & Hn & _). assert (0 < data_count g) as Hd by lia.
  assert (0 < stripe_bytes g) as Hs by (unfold stripe_bytes; lia).
  assert (forall x, 0 <= x mod stripe_bytes g / unit_ g < data_count g) as Hi.
  { intros x. pose proof (Z.mod_pos_bound x (stripe_bytes g) Hs). split; [apply Z.div_pos; lia|]. apply Z.div_lt_upper_bound; [done|].
    unfold stripe_bytes in *. lia. }
  split; [intros; by apply role_of_data|]. split; [intros; by apply data_of_role|]. split; [intros; by apply role_of_parity|]. split.
  - intros x y Hx Hy H. unfold place in H. injection H as Hm Ho.
    pose proof (Z.mod_pos_bound (x mod stripe_bytes g) (unit_ g) Hu). pose proof (Z.mod_pos_bound (y mod stripe_bytes g) (unit_ g) Hu).
    destruct (unit_split (unit_ g) _ _ _ _ Hu H H0 Ho) as [Es Eo]. rewrite Es in Hm.
    pose proof (role_of_data g (y / stripe_bytes g) _ Hg (Hi x)) as Rx. pose proof (role_of_data g (y / stripe_bytes g) _ Hg (Hi y)) as Ry.
    rewrite Hm, Ry in Rx. injection Rx as Ei.
    rewrite (Z.div_mod x (stripe_bytes g)), (Z.div_mod y (stripe_bytes g)), Es by lia.
    rewrite (Z.div_mod (x mod stripe_bytes g) (unit_ g)), (Z.div_mod (y mod stripe_bytes g) (unit_ g)), Eo by lia. by rewrite Ei.
  - intros x size Hx. unfold place. cbn [fst snd]. split; [unfold data_member; apply Z.mod_pos_bound; lia|].
    assert (capacity g size = size / unit_ g * stripe_bytes g) as Hcap.
    { destruct Hg as [Hp _]. unfold capacity, is_parity in *. by destruct (level g). }
    rewrite Hcap in Hx. pose proof (Z.mod_pos_bound (x mod stripe_bytes g) (unit_ g) Hu).
    assert (0 <= x / stripe_bytes g) by (apply Z.div_pos; lia).
    assert (x / stripe_bytes g < size / unit_ g) by (apply Z.div_lt_upper_bound; lia).
    pose proof (Z.div_mod size (unit_ g) ltac:(lia)). pose proof (Z.mod_pos_bound size (unit_ g) Hu). nia.
Qed.

Lemma parity_layout_is_exact_witness :
  role_of raid6_of_5 7 (data_member raid6_of_5 7 2) = Data 2 /\ place raid6_of_5 0 <> place raid6_of_5 65536.
Proof.
  destruct (parity_layout_is_exact raid6_of_5) as (H1 & _ & _ & H2 & _); [by split|done|].
  split; [apply H1; done|]. intros E. apply H2 in E; [discriminate E|done|done].
Defined.
