(* ===== verification/IntentBitmap.v ===== *)
(** The write-intent bitmap: [raid/bitmap.rs], and the paths of [raid/mod.rs] that
    write it ([write_bitmap_pages], [intent_begin], [flush], [close]), as the steps
    of the writers of one array. *)

From S2P Require Import Prelude.

Module Intent.

Definition DATA_OFFSET : Z := 1024 * 1024.
Definition BITMAP_OFFSET : Z := 64 * 1024.
Definition BITMAP_MAX_BYTES : Z := DATA_OFFSET - BITMAP_OFFSET.
Definition MIN_CHUNK : Z := 64 * 1024 * 1024.
Definition PAGE : Z := 4096.
Definition BITS_PER_PAGE : Z := PAGE * 8.

(** Chunk size, bits and bytes. *)
Definition geometry (data_size unit : Z) : Z * Z * Z :=
  let max_bits := BITMAP_MAX_BYTES * 8 in
  let chunk := Z.max MIN_CHUNK (div_ceil data_size max_bits) in
  let unit := Z.max unit 1 in
  let chunk := div_ceil chunk unit * unit in
  let bits := Z.max (div_ceil data_size chunk) 1 in
  let bytes := div_ceil (div_ceil bits 8) PAGE * PAGE in
  (chunk, bits, bytes).

(** ** Bits of bytes ([BitVec<u8, Lsb0>]); an index past the end panics *)

Definition bit_at (b : bytes) (c : Z) : option bool :=
  x ← b !! Z.to_nat (c / 8); Some (Z.testbit x (c mod 8)).
Definition bit_set (b : bytes) (c : Z) (v : bool) : option bytes :=
  x ← b !! Z.to_nat (c / 8);
  Some (<[Z.to_nat (c / 8) := if v then Z.lor x (2 ^ (c mod 8)) else Z.ldiff x (2 ^ (c mod 8))]> b).
Definition iter_ones (b : bytes) : list Z :=
  flat_map (fun ix => map (fun j => fst ix * 8 + j) (filter (fun j => Z.testbit (snd ix) j = true) (zrange 0 8)))
    (zip (zrange 0 (zlen b)) b).

Record State := mkState {
  wanted : bytes; durable : bytes; active : gmap Z Z; last_end : gmap Z Z; stale : gset Z }.
Record IntentBitmap := mkIntent { chunk : Z; bits : Z; nbytes : Z; state : State }.
Abbreviation PageWrite := (list (Z * bytes)).

Definition with_state (bm : IntentBitmap) (s : State) : IntentBitmap := mkIntent (chunk bm) (bits bm) (nbytes bm) s.

Definition new (chunk bits nbytes : Z) : IntentBitmap :=
  mkIntent chunk bits nbytes (mkState (zeros nbytes) (zeros nbytes) ∅ ∅ ∅).

Definition resize (b : bytes) (n : Z) : bytes := b ++ zeros (n - zlen b).
Definition grow (nbits n : Z) (bm : IntentBitmap) : IntentBitmap :=
  let s := state bm in
  let more := nbytes bm <? n in
  mkIntent (chunk bm) (Z.max (bits bm) nbits) (if more then n else nbytes bm)
    (if more then mkState (resize (wanted s) n) (resize (durable s) n) (active s) (last_end s) (stale s) else s).

Definition page_of (c : Z) : Z := c / BITS_PER_PAGE.

(** The chunks a range touches, first and last. *)
Definition chunks (bm : IntentBitmap) (member_offset len : Z) : Z * Z :=
  (Z.min (member_offset / chunk bm) (bits bm - 1), Z.min ((member_offset + Z.max len 1 - 1) / chunk bm) (bits bm - 1)).
Definition range (r : Z * Z) : list Z := zrange (fst r) (snd r + 1).

Definition begin_one (acc : option (bool * State)) (c : Z) : option (bool * State) :=
  ns ← acc;
  let s := snd ns in
  w ← bit_set (wanted s) c true;
  d ← bit_at (durable s) c;
  Some (fst ns || negb d,
        mkState w (durable s) (<[c := wrap 32 (default 0 (active s !! c) + 1)]> (active s)) (last_end s) (stale s)).
(** [true]: a bit it needs is not on disk. *)
Definition begin (bm : IntentBitmap) (r : Z * Z) : option (bool * IntentBitmap) :=
  ns ← foldl begin_one (Some (false, state bm)) (range r); Some (fst ns, with_state bm (snd ns)).

Definition is_durable (bm : IntentBitmap) (r : Z * Z) : option bool :=
  foldr (fun c k => d ← bit_at (durable (state bm)) c; if d : bool then k else Some false) (Some true) (range r).

Definition end_one (now : Z) (s : State) (c : Z) : State :=
  let act := match active s !! c with
             | Some n => let n := wrap 32 (n - 1) in if n =? 0 then delete c (active s) else <[c := n]> (active s)
             | None => active s
             end in
  mkState (wanted s) (durable s) act (<[c := now]> (last_end s)) (stale s).
Definition end_ (bm : IntentBitmap) (r : Z * Z) (now : Z) : IntentBitmap := with_state bm (foldl (end_one now) (state bm) (range r)).

Definition page (b : bytes) (p : Z) : bytes := slice (p * PAGE) PAGE b.
Definition pending (bm : IntentBitmap) : PageWrite :=
  let s := state bm in
  map (fun p => (p, page (wanted s) p))
    (filter (fun p => page (wanted s) p <> page (durable s) p \/ p ∈ stale s) (zrange 0 (nbytes bm / PAGE))).

Definition commit_one (s : State) (pb : Z * bytes) : State :=
  mkState (wanted s) (splice (durable s) (fst pb * PAGE) (snd pb)) (active s) (last_end s) (stale s ∖ {[ fst pb ]}).
Definition commit (bm : IntentBitmap) (w : PageWrite) : IntentBitmap := with_state bm (foldl commit_one (state bm) w).

Definition idle (s : State) (before c : Z) : bool :=
  if active s !! c is Some _ then false else match last_end s !! c with Some t => t <? before | None => true end.
Definition clear_one (before : Z) (ns : Z * State) (c : Z) : Z * State :=
  let s := snd ns in
  if idle s before c then
    (fst ns + 1, mkState (default (wanted s) (bit_set (wanted s) c false)) (default (durable s) (bit_set (durable s) c false))
                   (active s) (delete c (last_end s)) ({[ page_of c ]} ∪ stale s))
  else ns.
Definition clear_idle (bm : IntentBitmap) (before : Z) : Z * IntentBitmap :=
  let r := foldl (clear_one before) (0, state bm) (iter_ones (wanted (state bm))) in (fst r, with_state bm (snd r)).

Definition dirty_count (bm : IntentBitmap) : Z := zlen (iter_ones (wanted (state bm))).

(** What reassembly reads: a bit set on any member. *)
Definition dirty_chunks (images : list bytes) (nbits : Z) : list Z :=
  filter (fun c => existsb (fun img => match img !! Z.to_nat (c / 8) with
                                       | Some b => negb (Z.land b (Z.shiftl 1 (c mod 8)) =? 0)
                                       | None => false
                                       end) images = true) (zrange 0 nbits).

(** ** The writers of an array *)

(** A write counted in and waiting for its bits, or writing its data. *)
Inductive Writer := Waiting (r : Z * Z) | Writing (r : Z * Z).
Definition writer_range (w : Writer) : Z * Z := match w with Waiting r | Writing r => r end.

(** [disks] is the bitmap area of each attached member; [io] the page write whose
    owner holds the I/O lock. *)
Record Array := mkArray { bm : IntentBitmap; disks : list bytes; io : option PageWrite; writers : list Writer }.

(** A page on its way to a disk: each byte the old or the new one. *)
Definition page_mix (old new now : bytes) : Prop :=
  zlen now = zlen old /\ forall i : nat, now !! i = old !! i \/ now !! i = new !! i.
Definition has_pages (w : PageWrite) (d : bytes) : Prop := Forall (fun pb => page d (fst pb) = snd pb) w.

(** [excl]: whether bits are cleared only while no page write is in flight. *)
Inductive astep (excl : bool) : Array -> Array -> Prop :=
| SBegin a off len need b : 0 <= off ->
    zlen (writers a) + 1 < 2 ^ 32 ->
    begin (bm a) (chunks (bm a) off len) = Some (need, b) ->
    astep excl a (mkArray b (disks a) (io a)
                    ((if need : bool then Waiting (chunks (bm a) off len) else Writing (chunks (bm a) off len)) :: writers a))
| SReady a l r l' : writers a = l ++ Waiting r :: l' -> is_durable (bm a) r = Some true ->
    astep excl a (mkArray (bm a) (disks a) (io a) (l ++ Writing r :: l'))
| SPages a w : io a = None -> w = pending (bm a) -> w <> [] ->
    astep excl a (mkArray (bm a) (disks a) (Some w) (writers a))
| SPut a w p b k old now : io a = Some w -> (p, b) ∈ w -> disks a !! k = Some old ->
    page_mix old (splice old (p * PAGE) b) now ->
    astep excl a (mkArray (bm a) (<[k := now]> (disks a)) (io a) (writers a))
| SDetach a l d l' : disks a = l ++ d :: l' ->
    astep excl a (mkArray (bm a) (l ++ l') (io a) (writers a))
| SCommit a w : io a = Some w -> Forall (has_pages w) (disks a) -> disks a <> [] ->
    astep excl a (mkArray (commit (bm a) w) (disks a) None (writers a))
| SGiveUp a w : io a = Some w ->
    astep excl a (mkArray (bm a) (disks a) None (writers a))
| SEnd a l w l' now : writers a = l ++ w :: l' ->
    astep excl a (mkArray (end_ (bm a) (writer_range w) now) (disks a) (io a) (l ++ l'))
| SClear a before : (excl = true -> io a = None) ->
    astep excl a (mkArray (snd (clear_idle (bm a) before)) (disks a) (io a) (writers a)).

(** An array just made: zeroed bitmaps. *)
Definition fresh (data_size unit : Z) (members : nat) : Array :=
  let '(c, b, n) := geometry data_size unit in mkArray (new c b n) (replicate members (zeros n)) None [].

End Intent.
