(* ===== verification/IntentLaws.v ===== *)
(** Bits, pages and counts of the write-intent bitmap: what each operation does to them. The
    rule of the write-intent bitmap — a bit in memory marked as on disk is on every member's
    disk — kept by every step when bits are cleared only while no page write is in flight,
    and broken when they are cleared during one. Runs of the write-intent bitmap, evaluated:
    a write that waits for its bit, and a bit cleared while a page that holds it is being
    written. *)

From S2P Require Import Prelude IntentBitmap.
Import Intent.

(** ** Bits *)

Definition on (b : bytes) (c : Z) : Prop := bit_at b c = Some true.

Lemma on_byte b c : on b c <-> exists x, b !! Z.to_nat (c / 8) = Some x /\ Z.testbit x (c mod 8) = true.
Proof.
  unfold on, bit_at. destruct (b !! Z.to_nat (c / 8)) as [x|]; cbn; split.
  - intros [= H]. by exists x.
  - by intros (x' & [= ->] & ->).
  - done.
  - by intros (x & ? & _).
Qed.

Lemma on_land b c : 0 <= c ->
  on b c <-> match b !! Z.to_nat (c / 8) with Some x => negb (Z.land x (Z.shiftl 1 (c mod 8)) =? 0) | None => false end = true.
Proof.
  intros Hc. rewrite on_byte. pose proof (Z.mod_pos_bound c 8 ltac:(lia)) as Hm.
  destruct (b !! Z.to_nat (c / 8)) as [x|]; [|split; [by intros (? & ? & _)|done]].
  rewrite Z.shiftl_1_l.
  assert (Z.land x (2 ^ (c mod 8)) = if Z.testbit x (c mod 8) then 2 ^ (c mod 8) else 0) as ->.
  { apply Z.bits_inj. intros i. rewrite Z.land_spec. destruct (Z.eq_dec i (c mod 8)) as [->|Hne].
    - rewrite Z.pow2_bits_true by lia. destruct (Z.testbit x (c mod 8)); [by rewrite Z.pow2_bits_true by lia|by rewrite Z.bits_0].
    - rewrite Z.pow2_bits_false by lia. rewrite andb_false_r. destruct (Z.testbit x (c mod 8)); [by rewrite Z.pow2_bits_false by lia|by rewrite Z.bits_0]. }
  split.
  - intros (x' & [= ->] & ->). apply negb_true_iff, Z.eqb_neq. lia.
  - intros H. exists x. split; [done|]. by destruct (Z.testbit x (c mod 8)).
Qed.

Lemma bit_set_spec b c v b' : 0 <= c -> bit_set b c v = Some b' ->
  zlen b' = zlen b /\ forall d, 0 <= d -> bit_at b' d = if decide (d = c) then Some v else bit_at b d.
Proof.
  intros Hc H. unfold bit_set in H. destruct (b !! Z.to_nat (c / 8)) as [x|] eqn:E; [|done]. cbn in H. injection H as <-.
  split; [unfold zlen; by rewrite length_insert|]. intros d Hd. unfold bit_at.
  pose proof (Z.mod_pos_bound c 8 ltac:(lia)). pose proof (Z.mod_pos_bound d 8 ltac:(lia)).
  pose proof (Z.div_pos c 8 ltac:(lia) ltac:(lia)). pose proof (Z.div_pos d 8 ltac:(lia) ltac:(lia)).
  destruct (decide (d / 8 = c / 8)) as [Eb|Hb].
  - rewrite Eb, list_lookup_insert_eq by (by apply lookup_lt_Some in E). rewrite E. cbn.
    destruct (decide (d = c)) as [->|Hne].
    + destruct v; [by rewrite Z.lor_spec, Z.pow2_bits_true, orb_true_r by lia|by rewrite Z.ldiff_spec, Z.pow2_bits_true, andb_false_r by lia].
    + assert (d mod 8 <> c mod 8) by (intros Hm; apply Hne; rewrite (Z.div_mod d 8), (Z.div_mod c 8) by lia; lia).
      destruct v; [by rewrite Z.lor_spec, Z.pow2_bits_false, orb_false_r by lia|by rewrite Z.ldiff_spec, Z.pow2_bits_false, andb_true_r by lia].
  - rewrite list_lookup_insert_ne by lia. rewrite decide_False; [done|]. by intros ->.
Qed.

Lemma bit_set_some b c v : 0 <= c < zlen b * 8 -> is_Some (bit_set b c v).
Proof.
  intros Hc. unfold bit_set. destruct (lookup_lt_is_Some_2 b (Z.to_nat (c / 8))) as [x ->]; [|by eexists].
  assert (c / 8 < zlen b) by (apply Z.div_lt_upper_bound; lia). unfold zlen in *. lia.
Qed.

Lemma on_range b c : 0 <= c -> on b c -> c < zlen b * 8.
Proof.
  intros Hc (x & H & _)%on_byte. apply lookup_lt_Some in H. unfold zlen.
  pose proof (Z.div_mod c 8 ltac:(lia)). pose proof (Z.mod_pos_bound c 8 ltac:(lia)). pose proof (Z.div_pos c 8 ltac:(lia) ltac:(lia)). lia.
Qed.

Lemma on_set b c v b' d : 0 <= c -> 0 <= d -> bit_set b c v = Some b' -> on b' d <-> (if v then d = c \/ on b d else d <> c /\ on b d).
Proof.
  intros Hc Hd H. unfold on. destruct (bit_set_spec _ _ _ _ Hc H) as [_ ->]; [|done].
  destruct (decide (d = c)) as [->|]; destruct v; naive_solver.
Qed.

Lemma iter_ones_pos b : Forall (fun c => 0 <= c) (iter_ones b).
Proof.
  apply Forall_flat_map, Forall_forall. intros [i x] Hin. apply list_elem_of_lookup in Hin as [k Hk].
  apply lookup_zip_with_Some in Hk as (i' & x' & [= -> ->] & Hi & _). apply list_elem_of_lookup_2, elem_of_zrange in Hi.
  apply Forall_forall. intros c (j & -> & Hj)%list_elem_of_fmap. apply list_elem_of_filter in Hj as [_ Hj]. apply elem_of_zrange in Hj. cbn. lia.
Qed.

(** ** Pages *)

Lemma slice_lookup {A} (l : list A) a n (i : nat) : 0 <= a -> (i < Z.to_nat n)%nat -> slice a n l !! i = l !! (Z.to_nat a + i)%nat.
Proof. intros Ha Hi. unfold slice. rewrite lookup_take_lt by done. by rewrite lookup_drop. Qed.

Lemma splice_lookup {A} (l : list A) a src (i : nat) :
  0 <= a -> a + zlen src <= zlen l ->
  splice l a src !! i = if decide (Z.to_nat a <= i < Z.to_nat a + length src)%nat then src !! (i - Z.to_nat a)%nat else l !! i.
Proof.
  intros Ha Hl. unfold splice, zlen in *. destruct (decide _) as [Hi|Hi].
  - rewrite lookup_app_r by (rewrite length_take; lia). rewrite length_take, lookup_app_l by lia. f_equal. lia.
  - destruct (decide (i < Z.to_nat a)%nat).
    + rewrite lookup_app_l by (rewrite length_take; lia). by rewrite lookup_take_lt.
    + rewrite lookup_app_r by (rewrite length_take; lia). rewrite length_take, lookup_app_r by lia. rewrite lookup_drop. f_equal. lia.
Qed.

Lemma page_byte c p : 0 <= c -> page_of c = p -> p * PAGE <= c / 8 < p * PAGE + PAGE.
Proof.
  intros Hc <-. unfold page_of, BITS_PER_PAGE. replace (PAGE * 8) with (8 * PAGE) by lia. rewrite <- Z.div_div by (unfold PAGE; lia).
  pose proof (Z.div_mod (c / 8) PAGE ltac:(unfold PAGE; lia)). pose proof (Z.mod_pos_bound (c / 8) PAGE ltac:(unfold PAGE; lia)). lia.
Qed.
Lemma other_page_byte c p : 0 <= c -> page_of c <> p -> ~ (p * PAGE <= c / 8 < p * PAGE + PAGE).
Proof.
  intros Hc Hne H. apply Hne. pose proof (page_byte c (page_of c) Hc eq_refl) as Hp.
  change PAGE with 4096 in *. lia.
Qed.

(** The bit of chunk [c] in the contents of its page. *)
Definition on_page (b : bytes) (c : Z) : Prop := on b (c - page_of c * BITS_PER_PAGE).

Lemma page_bit_index c : 0 <= c -> let d := c - page_of c * BITS_PER_PAGE in
  0 <= d /\ d / 8 = c / 8 - page_of c * PAGE /\ d mod 8 = c mod 8.
Proof.
  intros Hc. cbn zeta. assert (c - page_of c * BITS_PER_PAGE = c + (- (page_of c * PAGE)) * 8) as -> by (unfold BITS_PER_PAGE; lia).
  rewrite Z.div_add, Z.mod_add by lia. split; [|lia].
  pose proof (page_byte c _ Hc eq_refl). pose proof (Z.div_mod c 8 ltac:(lia)). pose proof (Z.mod_pos_bound c 8 ltac:(lia)). lia.
Qed.

Lemma on_page_slice b c : 0 <= c -> on_page (page b (page_of c)) c <-> on b c.
Proof.
  intros Hc. unfold on_page. rewrite !on_byte. destruct (page_bit_index c Hc) as (Hd & -> & ->).
  pose proof (page_byte c _ Hc eq_refl). assert (0 <= page_of c) by (apply Z.div_pos; [done|done]).
  unfold page. change PAGE with 4096 in *. rewrite slice_lookup by lia. replace (Z.to_nat (page_of c * 4096) + Z.to_nat (c / 8 - page_of c * 4096))%nat with (Z.to_nat (c / 8)) by lia.
  done.
Qed.

Lemma on_splice b p src c : 0 <= c -> 0 <= p -> zlen src = PAGE -> p * PAGE + PAGE <= zlen b ->
  on (splice b (p * PAGE) src) c <-> if decide (page_of c = p) then on_page src c else on b c.
Proof.
  intros Hc Hp Hs Hb. assert (0 <= p * PAGE) as Hpp by (change PAGE with 4096; lia). rewrite on_byte, splice_lookup by lia. pose proof (Z.div_pos c 8 Hc ltac:(lia)).
  assert (length src = Z.to_nat PAGE) as Hls by (unfold zlen in Hs; lia).
  destruct (decide (page_of c = p)) as [<-|Hne].
  - pose proof (page_byte c _ Hc eq_refl). rewrite decide_True by lia. unfold on_page. rewrite on_byte.
    destruct (page_bit_index c Hc) as (Hd & -> & ->). replace (Z.to_nat (c / 8) - Z.to_nat (page_of c * PAGE))%nat with (Z.to_nat (c / 8 - page_of c * PAGE)) by lia.
    done.
  - pose proof (other_page_byte c p Hc Hne). rewrite decide_False by lia. by rewrite on_byte.
Qed.

(** ** Counting in and out *)

Lemma begin_spec l : forall f s f' s',
  foldl begin_one (Some (f, s)) l = Some (f', s') -> NoDup l -> Forall (fun c => 0 <= c) l ->
  (f' = false -> f = false /\ Forall (on (durable s)) l)
  /\ durable s' = durable s /\ stale s' = stale s /\ last_end s' = last_end s /\ zlen (wanted s') = zlen (wanted s)
  /\ (forall c, 0 <= c -> on (wanted s') c <-> c ∈ l \/ on (wanted s) c)
  /\ (forall c, active s' !! c = if decide (c ∈ l) then Some (wrap 32 (default 0 (active s !! c) + 1)) else active s !! c).
Proof.
  induction l as [|x l IH]; intros f s f' s' H Hnd Hpos.
  { injection H as <- <-. split; [intros ->; split; [done|constructor]|]. split_and!; try done. intros c _. rewrite elem_of_nil. tauto. }
  apply NoDup_cons in Hnd as [Hx Hnd]. apply Forall_cons in Hpos as [Hx0 Hpos]. cbn [foldl] in H.
  destruct (begin_one (Some (f, s)) x) as [[f1 s1]|] eqn:E1; [|exfalso; clear -H; by induction l].
  unfold begin_one in E1. cbn in E1. destruct (bit_set (wanted s) x true) as [w|] eqn:Ew; [|done]. cbn in E1.
  destruct (bit_at (durable s) x) as [d|] eqn:Ed; [|done]. cbn in E1. injection E1 as Hf Hs.
  destruct (IH _ _ _ _ H Hnd Hpos) as (H1 & H2 & H3 & H4 & H5 & H6 & H7). rewrite <- Hs in *. cbn [wanted durable active last_end stale] in *.
  destruct (bit_set_spec _ _ _ _ Hx0 Ew) as [Hlen _]. split_and!; [|done|done|done|congruence| |].
  - intros ->. destruct (H1 eq_refl) as [Hf1 Hall]. rewrite <- Hf in Hf1. apply orb_false_iff in Hf1 as [-> Hd]. split; [done|].
    constructor; [|done]. unfold on. by destruct d.
  - intros c Hc. rewrite (H6 c Hc), (on_set _ _ true _ c Hx0 Hc Ew), elem_of_cons. tauto.
  - intros c. rewrite H7. destruct (decide (c = x)) as [->|Hne].
    + rewrite decide_False, lookup_insert_eq, decide_True by (done || by left). done.
    + rewrite lookup_insert_ne by done. destruct (decide (c ∈ l)) as [Hi|Hi]; [by rewrite decide_True by (by right)|].
      rewrite decide_False; [done|]. rewrite elem_of_cons. tauto.
Qed.

Lemma end_spec now l : forall s, NoDup l ->
  let s' := foldl (end_one now) s l in
  wanted s' = wanted s /\ durable s' = durable s /\ stale s' = stale s
  /\ (forall c, active s' !! c = if decide (c ∈ l) then
        match active s !! c with Some n => if wrap 32 (n - 1) =? 0 then None else Some (wrap 32 (n - 1)) | None => None end
      else active s !! c).
Proof.
  induction l as [|x l IH]; intros s Hnd; cbn [foldl]; [by split_and!|].
  apply NoDup_cons in Hnd as [Hx Hnd]. destruct (IH (end_one now s x) Hnd) as (H1 & H2 & H3 & H4). split_and!; [done|done|done|].
  intros c. rewrite H4. destruct (decide (c = x)) as [->|Hne].
  - cbn [end_one active]. rewrite decide_False, decide_True by (done || by left). destruct (active s !! x) as [n|] eqn:E; [|done].
    destruct (wrap 32 (n - 1) =? 0); [by rewrite lookup_delete_eq|by rewrite lookup_insert_eq].
  - assert (active (end_one now s x) !! c = active s !! c) as ->.
    { cbn [end_one active]. destruct (active s !! x) as [n|]; [|done]. cbn zeta. destruct (wrap 32 (n - 1) =? 0); [by rewrite lookup_delete_ne|by rewrite lookup_insert_ne]. }
    destruct (decide (c ∈ l)) as [Hi|Hi]; [by rewrite decide_True by (by right)|]. rewrite decide_False; [done|]. rewrite elem_of_cons. tauto.
Qed.

Lemma is_durable_spec b r : is_durable b r = Some true -> Forall (on (durable (state b))) (range r).
Proof.
  unfold is_durable. induction (range r) as [|c l IH]; intros H; [constructor|]. cbn [foldr] in H.
  destruct (bit_at (durable (state b)) c) as [[]|] eqn:E; cbn in H; try done. constructor; [done|by apply IH].
Qed.

(** ** Pages taken and put down *)

Lemma pending_spec b p pg :
  (p, pg) ∈ pending b -> pg = page (wanted (state b)) p /\ 0 <= p < nbytes b / PAGE.
Proof.
  unfold pending. intros (p' & [= -> ->] & Hin)%list_elem_of_fmap. apply list_elem_of_filter in Hin as [_ Hin].
  by apply elem_of_zrange in Hin.
Qed.
Lemma pending_NoDup b : NoDup (map fst (pending b)).
Proof. unfold pending. rewrite map_map, map_id. apply NoDup_filter, NoDup_zseq. Qed.

Lemma pages_fit n p : 0 <= p < n / PAGE -> 0 <= p * PAGE /\ p * PAGE + PAGE <= n.
Proof. change PAGE with 4096. intros Hp. pose proof (Z.div_mod n 4096 ltac:(lia)). pose proof (Z.mod_pos_bound n 4096 ltac:(lia)). lia. Qed.

(** [commit]: the pages' bits, and the others as they were. *)
Lemma commit_spec w : forall s,
  NoDup (map fst w) -> Forall (fun pb => 0 <= fst pb < zlen (durable s) / PAGE /\ zlen (snd pb) = PAGE) w ->
  let s' := foldl commit_one s w in
  wanted s' = wanted s /\ active s' = active s /\ zlen (durable s') = zlen (durable s)
  /\ (forall c, 0 <= c -> on (durable s') c ->
        (exists b, (page_of c, b) ∈ w /\ on_page b c) \/ ((page_of c ∉ map fst w) /\ on (durable s) c))
  /\ (forall c, 0 <= c -> on (durable s) c -> (forall b, (page_of c, b) ∈ w -> on_page b c) -> on (durable s') c).
Proof.
  induction w as [|[p b] w IH]; intros s Hnd Hw; cbn [foldl].
  { split_and!; [done|done|done| |]; intros c Hc H; [right; split; [apply not_elem_of_nil|done]|done]. }
  cbn [map fst] in Hnd. apply NoDup_cons in Hnd as [Hp Hnd]. apply Forall_cons in Hw as [[Hp0 Hb] Hw]. cbn [fst snd] in *.
  pose proof (pages_fit _ _ Hp0) as [Hf1 Hf2].
  assert (zlen (durable (commit_one s (p, b))) = zlen (durable s)) as Hlen by (cbn; apply zlen_splice; lia).
  destruct (IH (commit_one s (p, b)) Hnd) as (H1 & H2 & H3 & H4 & H5); [by rewrite Hlen|].
  split_and!; [done|done|congruence| |].
  - intros c Hc Hon. destruct (H4 c Hc Hon) as [(b' & Hin & Hb')|[Hout Hon']]; [left; exists b'; split; [by right|done]|].
    cbn [commit_one durable fst snd] in Hon'. rewrite on_splice in Hon' by (done || lia). destruct (decide (page_of c = p)) as [E|Hne].
    + left. exists b. rewrite E. split; [by left|]. by rewrite <- E in *.
    + right. split; [|done]. cbn [map fst]. rewrite elem_of_cons. tauto.
  - intros c Hc Hon Hall. apply H5; [done| |intros b' Hin; apply Hall; by right].
    cbn [commit_one durable fst snd]. rewrite on_splice by (done || lia). destruct (decide (page_of c = p)) as [E|Hne]; [|done].
    apply Hall. rewrite E. by left.
Qed.

(** ** Clearing *)

Lemma clear_spec before l : forall n s, Forall (fun c => 0 <= c) l -> zlen (durable s) = zlen (wanted s) ->
  let s' := snd (foldl (clear_one before) (n, s) l) in
  zlen (wanted s') = zlen (wanted s) /\ zlen (durable s') = zlen (durable s) /\ active s' = active s
  /\ (forall c, 0 <= c -> on (wanted s) c -> is_Some (active s !! c) -> on (wanted s') c)
  /\ (forall c, 0 <= c -> on (durable s) c -> is_Some (active s !! c) -> on (durable s') c)
  /\ (forall c, 0 <= c -> on (wanted s') c -> on (wanted s) c)
  /\ (forall c, 0 <= c -> on (durable s') c -> on (durable s) c /\ (on (wanted s) c -> on (wanted s') c)).
Proof.
  induction l as [|x l IH]; intros n s Hpos Hlen; cbn [foldl]; [split_and!; auto|].
  apply Forall_cons in Hpos as [Hx Hpos]. 
  assert (clear_one before (n, s) x = if idle s before x then
    (n + 1, mkState (default (wanted s) (bit_set (wanted s) x false)) (default (durable s) (bit_set (durable s) x false))
              (active s) (delete x (last_end s)) ({[ page_of x ]} ∪ stale s)) else (n, s)) as -> by done.
  destruct (idle s before x) eqn:Ei; [|by apply IH].
  set (s1 := mkState _ _ _ _ _).
  assert (active s !! x = None) as Hact by (unfold idle in Ei; by destruct (active s !! x)).
  destruct (decide (x < zlen (wanted s) * 8)) as [Hin|Hout].
  - destruct (bit_set_some (wanted s) x false) as [w Hw]; [lia|]. destruct (bit_set_some (durable s) x false) as [d Hd]; [lia|].
    destruct (bit_set_spec _ _ _ _ Hx Hw) as [Lw _], (bit_set_spec _ _ _ _ Hx Hd) as [Ld _].
    assert (wanted s1 = w /\ durable s1 = d /\ active s1 = active s) as (W1 & D1 & A1) by (unfold s1; by rewrite Hw, Hd).
    destruct (IH (n + 1) s1 Hpos) as (H1 & H2 & H3 & H4 & H5 & H6 & H7); [rewrite W1, D1; congruence|].
    rewrite W1, D1, A1 in *.
    split_and!; [congruence|congruence|done|..]; intros c Hc.
    + intros Hon Ha. apply H4; [done| |done]. rewrite (on_set _ _ false _ c Hx Hc Hw). split; [|done]. intros ->. rewrite Hact in Ha. by destruct Ha.
    + intros Hon Ha. apply H5; [done| |done]. rewrite (on_set _ _ false _ c Hx Hc Hd). split; [|done]. intros ->. rewrite Hact in Ha. by destruct Ha.
    + intros Hon. apply H6 in Hon; [|done]. rewrite (on_set _ _ false _ c Hx Hc Hw) in Hon. tauto.
    + intros Hon. apply H7 in Hon as [Hon Hww]; [|done]. rewrite (on_set _ _ false _ c Hx Hc Hd) in Hon. split; [tauto|].
      intros Hon'. apply Hww. rewrite (on_set _ _ false _ c Hx Hc Hw). tauto.
  - assert (forall b, zlen b = zlen (wanted s) -> bit_set b x false = None) as Hno.
    { intros b Hb. destruct (bit_set b x false) eqn:E; [|done]. unfold bit_set in E. destruct (b !! Z.to_nat (x / 8)) eqn:E'; [|done].
      apply lookup_lt_Some in E'. unfold zlen in *. pose proof (Z.div_mod x 8 ltac:(lia)). pose proof (Z.mod_pos_bound x 8 ltac:(lia)). lia. }
    assert (wanted s1 = wanted s /\ durable s1 = durable s /\ active s1 = active s) as (W1 & D1 & A1).
    { unfold s1. cbn. rewrite !Hno by done. done. }
    destruct (IH (n + 1) s1 Hpos) as (H1 & H2 & H3 & H4 & H5 & H6 & H7); [congruence|]. rewrite W1, D1, A1 in *. split_and!; done.
Qed.

Import Intent.

Definition covers (c : Z) (w : Writer) : bool := bool_decide (c ∈ range (writer_range w)).
Definition counted (ws : list Writer) (c : Z) : Z := zlen (filter (fun w => covers c w = true) ws).
Definition count_of (n : Z) : option Z := if n =? 0 then None else Some n.

(** A page write's contents against what is in memory. *)
Definition page_ok (s : State) (pb : Z * bytes) : Prop :=
  0 <= fst pb < zlen (durable s) / PAGE /\ zlen (snd pb) = PAGE
  /\ forall c, 0 <= c -> page_of c = fst pb -> (on (durable s) c -> on_page (snd pb) c) /\ (on_page (snd pb) c -> on (wanted s) c).

Record inv (a : Array) : Prop := mkInv {
  v_bits : 0 < chunk (bm a) /\ 0 < bits (bm a) /\ bits (bm a) <= nbytes (bm a) * 8;
  v_len : zlen (wanted (state (bm a))) = nbytes (bm a) /\ zlen (durable (state (bm a))) = nbytes (bm a);
  v_disks : Forall (fun d => zlen d = nbytes (bm a)) (disks a);
  v_wanted : forall c, 0 <= c -> on (durable (state (bm a))) c -> on (wanted (state (bm a))) c;
  v_durable : forall c d, 0 <= c -> d ∈ disks a -> on (durable (state (bm a))) c -> on d c;
  v_io : forall w, io a = Some w -> NoDup (map fst w) /\ Forall (page_ok (state (bm a))) w;
  v_active : forall c, active (state (bm a)) !! c = count_of (counted (writers a) c);
  v_few : zlen (writers a) < 2 ^ 32;
  v_range : Forall (fun w => 0 <= fst (writer_range w) /\ snd (writer_range w) < bits (bm a)) (writers a);
  v_writing : forall r, Writing r ∈ writers a -> Forall (on (durable (state (bm a)))) (range r) }.

Lemma counted_nonneg ws c : 0 <= counted ws c.
Proof. apply zlen_nonneg. Qed.
Lemma counted_le ws c : counted ws c <= zlen ws.
Proof. unfold counted, zlen. pose proof (length_filter (fun w => covers c w = true) ws). lia. Qed.
Lemma counted_cons w ws c : counted (w :: ws) c = (if covers c w then 1 else 0) + counted ws c.
Proof. unfold counted. rewrite filter_cons. destruct (covers c w); [rewrite decide_True by done; by rewrite zlen_cons|by rewrite decide_False]. Qed.
Lemma counted_middle l w l' c : counted (l ++ w :: l') c = (if covers c w then 1 else 0) + counted (l ++ l') c.
Proof. unfold counted. rewrite !filter_app, !zlen_app. pose proof (counted_cons w l' c) as H. unfold counted in H. rewrite H. lia. Qed.

Lemma chunks_range b off len : 0 < chunk b -> 0 < bits b -> 0 <= off -> 0 <= fst (chunks b off len) /\ snd (chunks b off len) < bits b.
Proof. intros Hc Hb Ho. cbn. pose proof (Z.div_pos off (chunk b) Ho Hc). lia. Qed.

Lemma range_pos r : 0 <= fst r -> Forall (fun c => 0 <= c) (range r).
Proof. intros H. apply Forall_forall. intros c Hc. apply elem_of_zrange in Hc. lia. Qed.
Lemma range_NoDup r : NoDup (range r).
Proof. apply NoDup_zseq. Qed.

(** ** The steps *)

Lemma inv_begin a off len need b :
  inv a -> 0 <= off -> zlen (writers a) + 1 < 2 ^ 32 -> begin (bm a) (chunks (bm a) off len) = Some (need, b) ->
  inv (mkArray b (disks a) (io a)
         ((if need : bool then Waiting (chunks (bm a) off len) else Writing (chunks (bm a) off len)) :: writers a)).
Proof.
  intros [I1 I2 I3 I4 I5 I6 I7 I8 I9 I10] Ho Hfew H. unfold begin in H. set (r := chunks (bm a) off len) in *.
  destruct (foldl begin_one _ _) as [[n s]|] eqn:E; [|done]. cbn in H. injection H as -> <-.
  destruct (chunks_range (bm a) off len) as [Hr1 Hr2]; [tauto|tauto|done|]. fold r in Hr1, Hr2.
  destruct (begin_spec _ _ _ _ _ E (range_NoDup r) (range_pos r Hr1)) as (B1 & B2 & B3 & B4 & B5 & B6 & B7).
  set (w := if need then Waiting r else Writing r). assert (writer_range w = r) as Hw by (unfold w; by destruct need).
  split; cbn [bm disks io writers with_state chunk bits nbytes state]; rewrite ?B2, ?B5; try done.
  - intros c Hc Hon. rewrite B6 by done. right. by apply I4.
  - intros w' Hio. destruct (I6 w' Hio) as [Hnd Hall]. split; [done|]. eapply Forall_impl; [exact Hall|]. intros pb (P1 & P2 & P3).
    split; [by rewrite B2|]. split; [done|]. intros c Hc Hp. rewrite B2, B6 by done. destruct (P3 c Hc Hp) as [Q1 Q2]. split; [done|]. intros ?. right. by apply Q2.
  - intros c. rewrite B7, I7, counted_cons. unfold covers. rewrite Hw. pose proof (counted_nonneg (writers a) c). pose proof (counted_le (writers a) c).
    destruct (decide (c ∈ range r)) as [Hi|Hi].
    + rewrite bool_decide_true by done. unfold count_of. destruct (Z.eqb_spec (1 + counted (writers a) c) 0); [lia|].
      destruct (Z.eqb_spec (counted (writers a) c) 0) as [Ez|Ez]; cbn [from_option id];
        rewrite wrap_small by lia; f_equal; lia.
    + rewrite bool_decide_false by done. done.
  - rewrite zlen_cons. lia.
  - constructor; [by rewrite Hw|done].
  - intros r' Hr'. rewrite elem_of_cons in Hr'. destruct Hr' as [E'|Hr']; [|by apply I10]. unfold w in E'. destruct need; [done|].
    injection E' as ->. by apply B1.
Qed.

Lemma inv_ready a l r l' :
  inv a -> writers a = l ++ Waiting r :: l' -> is_durable (bm a) r = Some true ->
  inv (mkArray (bm a) (disks a) (io a) (l ++ Writing r :: l')).
Proof.
  intros [I1 I2 I3 I4 I5 I6 I7 I8 I9 I10] Hw Hd. rewrite Hw in *.
  split; cbn [bm disks io writers]; try done.
  - intros c. rewrite I7, !counted_middle. done.
  - unfold zlen in *. rewrite length_app in *. done.
  - apply Forall_app in I9 as [H1 H2]. apply Forall_cons in H2 as [H2 H3]. apply Forall_app. split; [done|]. by constructor.
  - intros r' Hr'. rewrite elem_of_app, elem_of_cons in Hr'. destruct Hr' as [Hr'|[[= ->]|Hr']].
    + apply I10. apply elem_of_app. by left.
    + by apply is_durable_spec.
    + apply I10. apply elem_of_app. right. by right.
Qed.

Lemma inv_pages a : inv a -> inv (mkArray (bm a) (disks a) (Some (pending (bm a))) (writers a)).
Proof.
  intros [I1 I2 I3 I4 I5 I6 I7 I8 I9 I10]. split; cbn [bm disks io writers]; try done.
  intros w [= <-]. split; [apply pending_NoDup|]. apply Forall_forall. intros [p b] Hin. cbn [fst snd].
  apply pending_spec in Hin as [-> Hp]. pose proof (pages_fit _ _ Hp) as [Hf1 Hf2]. destruct I2 as [L1 L2].
  split; [by rewrite L2|]. split; [apply zlen_slice; [lia|done|lia]|].
  intros c Hc Hpg. cbn [fst snd] in *. rewrite <- Hpg. rewrite on_page_slice by done. split; [by apply I4|done].
Qed.

Lemma mix_on old new now c : 0 <= c -> page_mix old new now -> on old c -> on new c -> on now c.
Proof.
  intros Hc [_ Hm] Ho Hn. rewrite on_byte in *. destruct (Hm (Z.to_nat (c / 8))) as [E|E]; by rewrite E.
Qed.

Lemma inv_put a w p b k old now :
  inv a -> io a = Some w -> (p, b) ∈ w -> disks a !! k = Some old -> page_mix old (splice old (p * PAGE) b) now ->
  inv (mkArray (bm a) (<[k := now]> (disks a)) (io a) (writers a)).
Proof.
  intros [I1 I2 I3 I4 I5 I6 I7 I8 I9 I10] Hio Hin Hk Hmix. destruct (I6 w Hio) as [_ Hall]. rewrite Forall_forall in Hall.
  destruct (Hall _ Hin) as (P1 & P2 & P3). cbn [fst snd] in *. pose proof (pages_fit _ _ P1) as [Hf1 Hf2].
  assert (zlen old = nbytes (bm a)) as Hlen by (rewrite Forall_forall in I3; by apply I3, (list_elem_of_lookup_2 _ k)).
  destruct I2 as [L1 L2]. split; cbn [bm disks io writers]; try done.
  - apply Forall_insert; [done|]. destruct Hmix as [-> _]. done.
  - intros c d Hc Hd Hon. apply list_elem_of_lookup in Hd as [j Hj]. destruct (decide (j = k)) as [->|Hne].
    + rewrite list_lookup_insert_eq in Hj by (by apply lookup_lt_Some in Hk). injection Hj as <-.
      eapply (mix_on old); [done|exact Hmix|by apply I5; [done|eapply list_elem_of_lookup_2|]|].
      rewrite on_splice by (done || lia). destruct (decide (page_of c = p)) as [E|]; [by apply P3|by apply I5; [done|eapply list_elem_of_lookup_2|]].
    + rewrite list_lookup_insert_ne in Hj by done. by eapply I5; [done|eapply list_elem_of_lookup_2|].
Qed.

Lemma inv_detach a l d l' : inv a -> disks a = l ++ d :: l' -> inv (mkArray (bm a) (l ++ l') (io a) (writers a)).
Proof.
  intros [I1 I2 I3 I4 I5 I6 I7 I8 I9 I10] Hd. split; cbn [bm disks io writers]; try done.
  - rewrite Hd in I3. apply Forall_app in I3 as [H1 H2]. apply Forall_cons in H2 as [_ H2]. by apply Forall_app.
  - intros c d' Hc Hin. apply I5; [done|]. rewrite Hd. rewrite elem_of_app in Hin. rewrite elem_of_app, elem_of_cons. tauto.
Qed.

Lemma inv_commit a w :
  inv a -> io a = Some w -> Forall (has_pages w) (disks a) -> inv (mkArray (commit (bm a) w) (disks a) None (writers a)).
Proof.
  intros [I1 I2 I3 I4 I5 I6 I7 I8 I9 I10] Hio Hpages. destruct (I6 w Hio) as [Hnd Hall]. destruct I2 as [L1 L2].
  destruct (commit_spec w (state (bm a)) Hnd) as (C1 & C2 & C3 & C4 & C5).
  { eapply Forall_impl; [exact Hall|]. intros pb (P1 & P2 & _). done. }
  rewrite Forall_forall in Hall. rewrite Forall_forall in Hpages.
  split; unfold commit; cbn [bm disks io writers with_state chunk bits nbytes state]; rewrite ?C1, ?C2, ?C3; try done.
  - intros c Hc Hon. destruct (C4 c Hc Hon) as [(b & Hin & Hb)|[_ Hon']]; [|by apply I4].
    destruct (Hall _ Hin) as (_ & _ & P3). by apply (P3 c Hc eq_refl).
  - intros c d Hc Hd Hon. destruct (C4 c Hc Hon) as [(b & Hin & Hb)|[_ Hon']]; [|by apply I5].
    pose proof (Hpages d Hd) as Hp. unfold has_pages in Hp. rewrite Forall_forall in Hp. specialize (Hp _ Hin). cbn [fst snd] in Hp.
    rewrite <- Hp in Hb. by rewrite on_page_slice in Hb by done.
  - intros r Hr. pose proof (I10 r Hr) as Hf. rewrite Forall_forall in Hf. apply Forall_forall. intros c Hc.
    assert (0 <= c) as Hc0.
    { rewrite Forall_forall in I9. destruct (I9 _ Hr) as [H0 _]. cbn in H0. apply elem_of_zrange in Hc. lia. }
    apply C5; [done|by apply Hf|]. intros b Hin. destruct (Hall _ Hin) as (_ & _ & P3). apply (P3 c Hc0 eq_refl). by apply Hf.
Qed.

Lemma inv_give_up a : inv a -> inv (mkArray (bm a) (disks a) None (writers a)).
Proof. intros [I1 I2 I3 I4 I5 I6 I7 I8 I9 I10]. split; cbn [bm disks io writers]; done. Qed.

Lemma inv_end a l w l' now :
  inv a -> writers a = l ++ w :: l' -> inv (mkArray (end_ (bm a) (writer_range w) now) (disks a) (io a) (l ++ l')).
Proof.
  intros [I1 I2 I3 I4 I5 I6 I7 I8 I9 I10] Hw.
  destruct (end_spec now (range (writer_range w)) (state (bm a)) (range_NoDup _)) as (E1 & E2 & E3 & E4).
  set (s' := foldl (end_one now) (state (bm a)) (range (writer_range w))) in *.
  split; unfold end_; fold s'; cbn [bm disks io writers with_state chunk bits nbytes state]; rewrite ?E1, ?E2; try done.
  - intros w' Hio. destruct (I6 w' Hio) as [Hnd Hall]. split; [done|]. eapply Forall_impl; [exact Hall|]. intros pb HP. unfold page_ok. by rewrite E1, E2.
  - intros c. rewrite E4, I7, Hw, counted_middle. unfold covers.
    pose proof (counted_nonneg (l ++ l') c). pose proof (counted_le (writers a) c) as Hle. rewrite Hw, counted_middle in Hle. unfold covers in Hle.
    destruct (decide (c ∈ range (writer_range w))) as [Hi|Hi].
    + rewrite bool_decide_true in * by done. unfold count_of. destruct (Z.eqb_spec (1 + counted (l ++ l') c) 0); [lia|]. cbn [from_option id].
      rewrite Hw in I8. rewrite wrap_small by lia. replace (1 + counted (l ++ l') c - 1) with (counted (l ++ l') c) by lia. done.
    + rewrite bool_decide_false by done. done.
  - rewrite Hw in I8. unfold zlen in *. rewrite length_app in *. cbn in I8. lia.
  - rewrite Hw in I9. apply Forall_app in I9 as [H1 H2]. apply Forall_cons in H2 as [_ H2]. by apply Forall_app.
  - intros r Hr. apply I10. rewrite Hw. rewrite elem_of_app in Hr. rewrite elem_of_app, elem_of_cons. tauto.
Qed.

Lemma inv_clear a before : inv a -> io a = None -> inv (mkArray (snd (clear_idle (bm a) before)) (disks a) (io a) (writers a)).
Proof.
  intros [I1 I2 I3 I4 I5 I6 I7 I8 I9 I10] Hio. destruct I2 as [L1 L2].
  destruct (clear_spec before (iter_ones (wanted (state (bm a)))) 0 (state (bm a))) as (C1 & C2 & C3 & C4 & C5 & C6 & C7).
  { apply iter_ones_pos. }
  { congruence. }
  unfold clear_idle. cbn [snd]. set (s' := snd (foldl _ _ _)) in *.
  split; cbn [bm disks io writers with_state chunk bits nbytes state]; rewrite ?C1, ?C2, ?C3; try done.
  - intros c Hc Hon. destruct (C7 c Hc Hon) as [Hd Hw]. by apply Hw, I4.
  - intros c d Hc Hd Hon. destruct (C7 c Hc Hon) as [Hon' _]. by apply I5.
  - intros w Hw. congruence.
  - intros r Hr. pose proof (I10 r Hr) as Hf. rewrite Forall_forall in Hf. apply Forall_forall. intros c Hc.
    assert (0 <= c) as Hc0.
    { rewrite Forall_forall in I9. destruct (I9 _ Hr) as [H0 _]. cbn in H0. apply elem_of_zrange in Hc. lia. }
    apply C5; [done|by apply Hf|]. rewrite I7. unfold count_of. destruct (Z.eqb_spec (counted (writers a) c) 0) as [Ez|]; [|by eexists].
    exfalso. apply list_elem_of_split in Hr as (l & l' & Hr). rewrite Hr, counted_middle in Ez. unfold covers in Ez. rewrite bool_decide_true in Ez by done.
    pose proof (counted_nonneg (l ++ l') c). lia.
Qed.

Lemma astep_inv a a' : inv a -> astep true a a' -> inv a'.
Proof.
  intros HI H. destruct H as [a off len need b Ho Hf H|a l r l' Hw Hd|a w Hn Hw Hne|a w p b k old now Hio Hin Hk Hm|a l d l' Hd|a w Hio Hp Hne
    |a w Hio|a l w l' now Hw|a before He].
  - by apply inv_begin.
  - by apply inv_ready.
  - subst w. by apply inv_pages.
  - by eapply inv_put.
  - by eapply inv_detach.
  - by apply inv_commit.
  - by apply inv_give_up.
  - by apply inv_end.
  - apply inv_clear; [done|]. by apply He.
Qed.

Lemma arun_inv a a' : rtc (astep true) a a' -> inv a -> inv a'.
Proof. induction 1 as [|a1 a2 a3 H1 _ IH]; [done|]. intros HI. apply IH. by eapply astep_inv. Qed.

(** ** Geometry *)

Lemma geometry_bounds data unit c b n : 0 <= data -> geometry data unit = (c, b, n) ->
  MIN_CHUNK <= c /\ c mod Z.max unit 1 = 0 /\ 0 < b /\ data <= b * c /\ b <= n * 8 /\ 0 < n <= BITMAP_MAX_BYTES.
Proof.
  intros Hd H. unfold geometry in H. set (u := Z.max unit 1) in *. set (m := BITMAP_MAX_BYTES * 8) in *.
  set (c0 := Z.max MIN_CHUNK (div_ceil data m)) in *. injection H as Hc Hb Hn. rewrite Hc in Hb, Hn. rewrite Hb in Hn.
  assert (0 < u) as Hu by lia. assert (m = 7864320) as Hm by done. assert (MIN_CHUNK = 67108864) as HM by done.
  pose proof (div_ceil_mul c0 u Hu) as H1. rewrite (Z.mul_comm u), Hc in H1.
  pose proof (div_ceil_mul data m ltac:(lia)) as H2.
  assert (0 < c) as Hc0 by lia. pose proof (div_ceil_mul data c Hc0) as H3.
  assert (div_ceil data c <= m) as H4 by (apply div_ceil_le; [done|]; nia).
  assert (0 < b <= m) as H5 by lia. pose proof (div_ceil_mul b 8 ltac:(lia)) as H6.
  assert (0 < div_ceil b 8 <= 983040) as H7 by lia. change PAGE with 4096 in Hn.
  pose proof (div_ceil_mul (div_ceil b 8) 4096 ltac:(lia)) as H8.
  assert (div_ceil (div_ceil b 8) 4096 <= 240) as H9 by (apply div_ceil_le; lia).
  change BITMAP_MAX_BYTES with 983040. split_and!; [lia| |lia|nia|lia|lia|lia].
  rewrite <- Hc. apply Z.mod_mul. lia.
Qed.

Lemma zeros_off n c : ~ on (zeros n) c.
Proof.
  intros (x & H & Ht)%on_byte. apply lookup_replicate in H as [-> _]. by rewrite Z.bits_0 in Ht.
Qed.

Lemma fresh_inv data unit members : 0 <= data -> inv (fresh data unit members).
Proof.
  intros Hd. unfold fresh. destruct (geometry data unit) as [[c b] n] eqn:E.
  destruct (geometry_bounds _ _ _ _ _ Hd E) as (H1 & H2 & H3 & H4 & H5 & H6). assert (MIN_CHUNK = 67108864) as HM by done.
  split; cbn [bm disks io writers new chunk bits nbytes state wanted durable active]; try done.
  - lia.
  - rewrite zlen_zeros by lia. done.
  - apply Forall_replicate. apply zlen_zeros. lia.
  - intros c' d _ _ Hon. by apply zeros_off in Hon.
  - by intros r ?%elem_of_nil.
Qed.

(** C13. A write is covered before it happens: from a new array on, in every order of
    writes, page writes (byte by byte, on some members and not on others), failures,
    detached members and clears, as long as bits are cleared only while no page write
    is in flight, each chunk of a write that is writing its data is marked on every
    attached member, so reassembly from any one of them re-checks it; and no bit
    counted as on disk is off any member's disk. *)
Theorem intent_covers_every_write data unit members a r c d :
  0 <= data -> rtc (astep true) (fresh data unit members) a ->
  Writing r ∈ writers a -> c ∈ range r -> d ∈ disks a ->
  c ∈ dirty_chunks [d] (bits (bm a))
  /\ forall k, 0 <= k -> bit_at (durable (state (bm a))) k = Some true -> bit_at d k = Some true.
Proof.
  intros Hd Hrun Hr Hc Hin.
  assert (inv a) as HI.
  { eapply arun_inv; [exact Hrun|by apply fresh_inv]. }
  split; [|intros k Hk Hon; by eapply (v_durable _ HI)].
  pose proof (v_range _ HI) as Hrange. rewrite Forall_forall in Hrange. destruct (Hrange _ Hr) as [R1 R2]. cbn in R1, R2.
  assert (0 <= c < bits (bm a)) as Hc0 by (apply elem_of_zrange in Hc; lia).
  unfold dirty_chunks. apply list_elem_of_filter. split; [|by apply elem_of_zrange]. cbn [existsb]. rewrite orb_false_r.
  apply on_land; [lia|]. apply (v_durable _ HI); [lia|done|]. pose proof (v_writing _ HI r Hr) as Hw. rewrite Forall_forall in Hw. by apply Hw.
Qed.

Import Intent.

(** Steps that compute: the writers come and go at the head of the list, a page is put
    down whole. *)
Inductive Op := OBegin (off : Z) | OGo | OPages | OPut (k : nat) | OCommit | OEnd (now : Z) | OClear (before : Z).

Definition exec (a : Array) (op : Op) : option Array :=
  match op with
  | OBegin off =>
      if (0 <=? off) && (zlen (writers a) + 1 <? 2 ^ 32) then
        nb ← begin (bm a) (chunks (bm a) off 1);
        Some (mkArray (snd nb) (disks a) (io a)
                ((if fst nb : bool then Waiting (chunks (bm a) off 1) else Writing (chunks (bm a) off 1)) :: writers a))
      else None
  | OGo =>
      match writers a with
      | Waiting r :: l => if decide (is_durable (bm a) r = Some true) then Some (mkArray (bm a) (disks a) (io a) (Writing r :: l)) else None
      | _ => None
      end
  | OPages =>
      if decide (io a = None /\ pending (bm a) <> []) then Some (mkArray (bm a) (disks a) (Some (pending (bm a))) (writers a)) else None
  | OPut k =>
      match io a, disks a !! k with
      | Some ((p, b) :: _), Some old =>
          if (0 <=? p * PAGE) && (p * PAGE + zlen b <=? zlen old)
          then Some (mkArray (bm a) (<[k := splice old (p * PAGE) b]> (disks a)) (io a) (writers a)) else None
      | _, _ => None
      end
  | OCommit =>
      match io a with
      | Some w => if decide (Forall (has_pages w) (disks a) /\ disks a <> []) then Some (mkArray (commit (bm a) w) (disks a) None (writers a)) else None
      | None => None
      end
  | OEnd now => match writers a with w :: l => Some (mkArray (end_ (bm a) (writer_range w) now) (disks a) (io a) l) | [] => None end
  | OClear before => Some (mkArray (snd (clear_idle (bm a) before)) (disks a) (io a) (writers a))
  end.
Definition exec_all (a : Array) (l : list Op) : option Array := foldl (fun o op => a ← o; exec a op) (Some a) l.

(** Whether a run clears only with no page write in flight is up to the run. *)
Definition clears (op : Op) : bool := if op is OClear _ then true else false.

Lemma exec_sound excl a op a' : (excl = true -> clears op = false) -> exec a op = Some a' -> astep excl a a'.
Proof.
  intros Hx H. destruct op as [off| | |k| |now|before]; cbn [exec] in H.
  - destruct ((0 <=? off) && _) eqn:Eg; [|done]. apply andb_true_iff in Eg as [?%Z.leb_le ?%Z.ltb_lt].
    destruct (begin _ _) as [[need b]|] eqn:E; [|done]. injection H as <-. by constructor.
  - destruct (writers a) as [|[r|r] l] eqn:Ew; [done| |done]. destruct (decide _) as [Hd|]; [|done]. injection H as <-. by apply (SReady excl a [] r l).
  - destruct (decide _) as [[Hio Hp]|]; [|done]. injection H as <-. by apply SPages.
  - destruct (io a) as [[|[p b] w]|] eqn:Eio; [done| |done]. destruct (disks a !! k) as [old|] eqn:Ek; [|done].
    destruct ((0 <=? p * PAGE) && _) eqn:Eg; [|done]. apply andb_true_iff in Eg as [?%Z.leb_le ?%Z.leb_le]. injection H as <-. rewrite <- Eio.
    eapply SPut; [exact Eio|by left|exact Ek|]. split; [apply zlen_splice; lia|]. intros i. by right.
  - destruct (io a) as [w|] eqn:Eio; [|done]. destruct (decide _) as [[Hp Hd]|]; [|done]. injection H as <-. by apply SCommit.
  - destruct (writers a) as [|w l] eqn:Ew; [done|]. injection H as <-. by apply (SEnd excl a [] w l).
  - injection H as <-. apply SClear. intros E. specialize (Hx E). discriminate Hx.
Qed.

Lemma exec_none l : foldl (fun o op => a ← o; exec a op) None l = None.
Proof. by induction l. Qed.

Lemma exec_all_sound excl l : forall a a', (excl = true -> forallb (fun op => negb (clears op)) l = true) ->
  exec_all a l = Some a' -> rtc (astep excl) a a'.
Proof.
  induction l as [|op l IH]; intros a a' Hx H; [cbn in H; injection H as <-; constructor|].
  unfold exec_all in H. cbn [foldl mbind option_bind] in H. destruct (exec a op) as [a1|] eqn:E; [|by rewrite exec_none in H].
  eapply rtc_l.
  - apply (exec_sound excl a op); [|exact E]. intros He. apply Hx in He. cbn in He. apply andb_true_iff in He as [He _]. by apply negb_true_iff.
  - apply IH; [|exact H]. intros He. apply Hx in He. cbn in He. by apply andb_true_iff in He as [_ He].
Qed.

(** A run that reaches an array of which [check] holds. *)
Definition reaches (a : Array) (l : list Op) (check : Array -> bool) : bool :=
  match exec_all a l with Some a' => check a' | None => false end.
Lemma reaches_run excl a l check : (excl = true -> forallb (fun op => negb (clears op)) l = true) ->
  reaches a l check = true -> exists a', rtc (astep excl) a a' /\ check a' = true.
Proof.
  intros Hx H. unfold reaches in H. destruct (exec_all a l) as [a'|] eqn:E; [|done]. exists a'. split; [by eapply exec_all_sound|done].
Qed.

(** Two chunks on two members. *)
Definition a0 : Array := fresh (2 * MIN_CHUNK) 65536 2.
Definition write_pages : list Op := [OPages; OPut 0; OPut 1; OCommit].
Definition first_write : list Op := OBegin 0 :: write_pages ++ [OGo].

#[export] Instance Writer_eq : EqDecision Writer.
Proof. solve_decision. Defined.

Lemma intent_covers_every_write_witness :
  exists a d, rtc (astep true) a0 a /\ d ∈ disks a /\ 0 ∈ dirty_chunks [d] (bits (bm a)).
Proof.
  destruct (reaches_run true a0 first_write (fun a => bool_decide (Writing (0, 0) ∈ writers a) && negb (bool_decide (disks a = []))))
    as (a & Hrun & Hc); [done|vm_compute; reflexivity|].
  apply andb_true_iff in Hc as [Hw%bool_decide_eq_true Hd%negb_true_iff%bool_decide_eq_false].
  destruct (disks a) as [|d ds] eqn:Ed; [done|]. exists a, d. rewrite Ed. split; [done|]. split; [by left|].
  apply (intent_covers_every_write (2 * MIN_CHUNK) 65536 2 a (0, 0) 0 d); [done|exact Hrun|exact Hw|by apply elem_of_zrange|rewrite Ed; by left].
Defined.

(** ** A bit cleared during a page write *)

(** Chunk 0 written and idle; a write to chunk 1 takes the page; a flush clears chunk
    0; the page lands and is counted in.  The flush's own page write takes the page
    again, now without chunk 0's bit; a write to chunk 0 finds the bit counted as on
    disk, and goes ahead. *)
Definition racing : list Op :=
  first_write ++ [OEnd 1; OBegin MIN_CHUNK; OPages; OClear 5; OPut 0; OPut 1; OCommit; OPages; OBegin 0; OPut 0; OPut 1].

(** When bits may be cleared during a page write, as [flush] clears them, the
    rule breaks: there is a run in which a write to a chunk is writing its data while
    no member's disk has the chunk's bit, so a crash leaves it out of what reassembly
    re-checks, although the bitmap counts the bit as on disk. *)
Lemma clear_during_page_write_uncovers :
  exists a, rtc (astep false) (fresh (2 * MIN_CHUNK) 65536 2) a /\ Writing (0, 0) ∈ writers a
    /\ bit_at (durable (state (bm a))) 0 = Some true
    /\ dirty_chunks (disks a) (bits (bm a)) = [1].
Proof.
  destruct (reaches_run false a0 racing (fun a => bool_decide (Writing (0, 0) ∈ writers a)
      && bool_decide (bit_at (durable (state (bm a))) 0 = Some true) && bool_decide (dirty_chunks (disks a) (bits (bm a)) = [1])))
    as (a & Hrun & Hc); [done|vm_compute; reflexivity|]. exists a. split; [exact Hrun|].
  apply andb_true_iff in Hc as [[H1 H2]%andb_true_iff H3]. apply bool_decide_eq_true in H1, H2, H3. done.
Qed.
