(* ===== verification/RaidSuper.v ===== *)
(** The superblock of a RAID member: [raid/superblock.rs], its fields as the first 4 KiB of
    every member and spare. A superblock is read back as it was written. *)

From S2P Require Import Prelude RaidLayout.
Module Super.

Definition SUPERBLOCK_MAGIC : bytes := [83; 84; 82; 77; 66; 76; 75; 0].
Definition SUPERBLOCK_VERSION : Z := 2.
Definition SUPERBLOCK_BYTES : Z := 4096.
Definition MAX_SLOTS : Z := 64.
Definition SLOT_TABLE : Z := 256.
Definition SLOT_BYTES : Z := 32.
Definition CRC_AT : Z := SUPERBLOCK_BYTES - 4.
Definition NAME_LEN : Z := 64.

(** [RaidMemberState] of [raid/mod.rs]. *)
Inductive MemberState := Active | Degraded | Spare | Failed | Rebuilding.
#[export] Instance MemberState_eq : EqDecision MemberState.
Proof. solve_decision. Defined.

(** Why a superblock, or an operation of the array, failed. *)
Inductive RaidError :=
| InsufficientMembers (need have : Z) | TooManyFailures | SuperblockMismatch | ChecksumError | Drive | OutOfRange
| MemberIo (i : Z) | InvalidStripe | NotSupported | CannotRemoveMember | CannotGrow | Released | Panic | OutOfFuel.

Record SlotRecord := mkSlot { r_uuid : bytes; r_state : MemberState; r_rebuilt_to : Z; r_missing : bool; r_missing_at : Z }.
(** Names and pools are the UTF-8 of the strings. *)
Record Superblock := mkSuper {
  array_uuid : bytes; member_uuid : bytes; slot : option Z; level : option Layout.RaidLevel;
  stripe_size : Z; data_offset : Z; data_size : Z; create_time : Z; update_time : Z; events : Z;
  bitmap_offset : Z; bitmap_bytes : Z; bitmap_chunk : Z; name : bytes; pool : bytes; slots : list SlotRecord }.

Definition level_byte (l : option Layout.RaidLevel) : Z :=
  match l with
  | None => 0
  | Some Layout.Raid1 => 1
  | Some Layout.Raid5 => 5
  | Some Layout.Raid6 => 6
  | Some Layout.Raid10 => 10
  end.
Definition state_byte (s : MemberState) : Z :=
  match s with Active => 1 | Degraded => 2 | Spare => 3 | Failed => 4 | Rebuilding => 5 end.
Definition state_of (b : Z) : result RaidError MemberState :=
  if b =? 1 then Ok Active else if b =? 2 then Ok Degraded else if b =? 3 then Ok Spare
  else if b =? 4 then Ok Failed else if b =? 5 then Ok Rebuilding else Err SuperblockMismatch.
Definition level_of (b : Z) : result RaidError (option Layout.RaidLevel) :=
  if b =? 0 then Ok None else if b =? 1 then Ok (Some Layout.Raid1) else if b =? 5 then Ok (Some Layout.Raid5)
  else if b =? 6 then Ok (Some Layout.Raid6) else if b =? 10 then Ok (Some Layout.Raid10) else Err SuperblockMismatch.

(** ** Strings *)

(** [String::from_utf8_lossy]: how long the next character is, or the bytes one
    replacement character stands for. *)
Definition cont (x : Z) : bool := (128 <=? x) && (x <=? 191).
Definition second_ok (x y : Z) : bool :=
  if x =? 224 then (160 <=? y) && (y <=? 191)
  else if x =? 237 then (128 <=? y) && (y <=? 159)
  else if x =? 240 then (144 <=? y) && (y <=? 191)
  else if x =? 244 then (128 <=? y) && (y <=? 143)
  else cont y.
Definition next_char (b : bytes) : bool * nat :=
  match b with
  | [] => (true, O)
  | x :: r =>
      if x <? 128 then (true, 1%nat)
      else if (194 <=? x) && (x <=? 223) then
        match r with y :: _ => if cont y then (true, 2%nat) else (false, 1%nat) | [] => (false, 1%nat) end
      else if (224 <=? x) && (x <=? 239) then
        match r with
        | y :: r =>
            if negb (second_ok x y) then (false, 1%nat)
            else match r with z :: _ => if cont z then (true, 3%nat) else (false, 2%nat) | [] => (false, 2%nat) end
        | [] => (false, 1%nat)
        end
      else if (240 <=? x) && (x <=? 244) then
        match r with
        | y :: r =>
            if negb (second_ok x y) then (false, 1%nat)
            else match r with
                 | z :: r => if negb (cont z) then (false, 2%nat)
                             else match r with w :: _ => if cont w then (true, 4%nat) else (false, 3%nat) | [] => (false, 3%nat) end
                 | [] => (false, 2%nat)
                 end
        | [] => (false, 1%nat)
        end
      else (false, 1%nat)
  end.
Fixpoint lossy (fuel : nat) (b : bytes) : bytes :=
  match fuel, b with
  | S fuel, _ :: _ =>
      let '(good, n) := next_char b in
      (if good then take n b else [239; 191; 189]) ++ lossy fuel (drop n b)
  | _, _ => []
  end.
Fixpoint utf8 (fuel : nat) (b : bytes) : bool :=
  match fuel, b with
  | S fuel, _ :: _ => let '(good, n) := next_char b in good && utf8 fuel (drop n b)
  | _, _ => true
  end.

(** [put_str] into 64 zeros, [get_str]. *)
Definition put_str (s : bytes) : bytes := take (Z.to_nat NAME_LEN) s ++ zeros (NAME_LEN - zlen (take (Z.to_nat NAME_LEN) s)).
Fixpoint until_zero (b : bytes) : bytes :=
  match b with
  | [] => []
  | x :: r => if x =? 0 then [] else x :: until_zero r
  end.
Definition get_str (b : bytes) : bytes := lossy (length b) (until_zero b).

(** ** The block *)

Definition slot_bytes (s : SlotRecord) : bytes :=
  r_uuid s ++ [state_byte (r_state s); if r_missing s then 1 else 0] ++ le_bytes 6 (Z.land (r_missing_at s) (2 ^ 48 - 1))
  ++ le_bytes 8 (r_rebuilt_to s).
Fixpoint slot_fields (at_ : Z) (l : list SlotRecord) : list (Z * bytes) :=
  match l with
  | [] => []
  | s :: r => (at_, slot_bytes s) :: slot_fields (at_ + SLOT_BYTES) r
  end.
Definition is_spare (s : Superblock) : bool := bool_decide (level s = None).

Section Codec.
Context (crc32c : bytes -> Z).

Definition fields (s : Superblock) : list (Z * bytes) :=
  [(0, SUPERBLOCK_MAGIC); (8, le_bytes 4 SUPERBLOCK_VERSION); (12, array_uuid s); (28, member_uuid s);
   (44, le_bytes 4 (default u32max (slot s))); (48, [level_byte (level s)]); (52, le_bytes 4 (zlen (slots s)));
   (56, le_bytes 8 (stripe_size s)); (64, le_bytes 8 (data_offset s)); (72, le_bytes 8 (data_size s));
   (80, le_bytes 8 (create_time s)); (88, le_bytes 8 (update_time s)); (96, le_bytes 8 (events s));
   (104, le_bytes 8 (bitmap_offset s)); (112, le_bytes 8 (bitmap_bytes s)); (120, le_bytes 8 (bitmap_chunk s));
   (128, put_str (name s)); (192, put_str (pool s))].
(** [None]: the assertion. *)
Definition to_bytes (s : Superblock) : option bytes :=
  if MAX_SLOTS <? zlen (slots s) then None
  else
    let b := write_all (zeros SUPERBLOCK_BYTES) (fields s ++ slot_fields SLOT_TABLE (slots s)) in
    Some (splice b CRC_AT (le_bytes 4 (crc32c (slice 0 CRC_AT b)))).

Fixpoint read_slots (b : bytes) (n : nat) (at_ : Z) : result RaidError (list SlotRecord) :=
  match n with
  | O => Ok []
  | S n =>
      let? st := state_of (at_byte b (at_ + 16)) in
      let? r := read_slots b n (at_ + SLOT_BYTES) in
      Ok (mkSlot (slice at_ 16 b) st (rd_u64 b (at_ + 24)) (negb (Z.land (at_byte b (at_ + 17)) 1 =? 0)) (le_val (slice (at_ + 18) 6 b)) :: r)
  end.
Definition from_bytes (b : bytes) : result RaidError (option Superblock) :=
  if (zlen b <? SUPERBLOCK_BYTES) || negb (bool_decide (slice 0 8 b = SUPERBLOCK_MAGIC)) then Ok None
  else if negb (rd_u32 b 8 =? SUPERBLOCK_VERSION) then Ok None
  else if negb (crc32c (slice 0 CRC_AT b) =? rd_u32 b CRC_AT) then Err ChecksumError
  else
    let? l := level_of (at_byte b 48) in
    let count := rd_u32 b 52 in
    if MAX_SLOTS <? count then Err SuperblockMismatch
    else
      let? sl := read_slots b (Z.to_nat count) SLOT_TABLE in
      let sn := rd_u32 b 44 in
      Ok (Some (mkSuper (slice 12 16 b) (slice 28 16 b) (if sn =? u32max then None else Some sn) l
                  (rd_u64 b 56) (rd_u64 b 64) (rd_u64 b 72) (rd_u64 b 80) (rd_u64 b 88) (rd_u64 b 96)
                  (rd_u64 b 104) (rd_u64 b 112) (rd_u64 b 120) (get_str (slice 128 NAME_LEN b)) (get_str (slice 192 NAME_LEN b)) sl)).
End Codec.

(** [Superblock::spare]. *)
Definition spare (now : Z) (uuid pool : bytes) : Superblock :=
  mkSuper (zeros 16) uuid None None 0 0 0 now now 0 0 0 0 [] pool [].
Definition check_name (s : bytes) : result RaidError () := if NAME_LEN <? zlen s then Err InvalidStripe else Ok ().

End Super.

Import Super.

(** ** Values a superblock can carry *)

Definition text_ok (s : bytes) : Prop := zlen s <= NAME_LEN /\ Forall (fun x => x <> 0) s /\ utf8 (length s) s = true.
Record record_ok (r : SlotRecord) : Prop := {
  ro_uuid : zlen (r_uuid r) = 16;
  ro_rebuilt : u64_ok (r_rebuilt_to r);
  ro_missing : 0 <= r_missing_at r < 2 ^ 48 }.
Record super_ok (s : Superblock) : Prop := {
  so_array : zlen (array_uuid s) = 16; so_member : zlen (member_uuid s) = 16;
  so_slot i : slot s = Some i -> 0 <= i < u32max;
  so_sizes : Forall u64_ok [stripe_size s; data_offset s; data_size s; create_time s; update_time s; events s; bitmap_offset s; bitmap_bytes s; bitmap_chunk s];
  so_name : text_ok (name s); so_pool : text_ok (pool s);
  so_slots : zlen (slots s) <= MAX_SLOTS /\ Forall record_ok (slots s) }.

(** ** Text *)

Lemma next_char_pos x b : (1 <= snd (next_char (x :: b)))%nat.
Proof. unfold next_char. repeat case_match; cbn; lia. Qed.
Lemma lossy_utf8 : forall n b k, (length b <= n)%nat -> (length b <= k)%nat -> utf8 n b = true -> lossy k b = b.
Proof.
  induction n as [|n IH]; intros [|x b] k Hn Hk Hu; cbn [length] in *; try lia; [by destruct k|by destruct k|].
  destruct k as [|k]; [lia|]. pose proof (next_char_pos x b) as Hp. cbn [utf8 lossy] in *. destruct (next_char (x :: b)) as [good m]. cbn in Hp.
  apply andb_true_iff in Hu as [-> Hu]. assert (length (drop m (x :: b)) = length (x :: b) - m)%nat as Hl by apply length_drop. cbn [length] in Hl.
  rewrite (IH (drop m (x :: b)) k); [apply take_drop|lia|lia|done].
Qed.
Lemma until_zeros s n : Forall (fun x => x <> 0) s -> until_zero (s ++ zeros n) = s.
Proof.
  induction 1 as [|x s Hx _ IH]; cbn [app until_zero].
  - unfold zeros. by destruct (Z.to_nat n).
  - destruct (Z.eqb_spec x 0); [done|]. by rewrite IH.
Qed.
Lemma zlen_padded s : zlen s <= NAME_LEN -> zlen (put_str s) = NAME_LEN.
Proof.
  intros H. unfold put_str. assert (take (Z.to_nat NAME_LEN) s = s) as -> by (apply take_ge; unfold zlen in H; lia).
  rewrite zlen_app, zlen_zeros by lia. lia.
Qed.
Lemma get_put s : text_ok s -> get_str (put_str s) = s.
Proof.
  intros (Hl & Hz & Hu). unfold get_str. pose proof (zlen_padded s Hl) as Hp. unfold zlen in Hp, Hl. unfold put_str in *.
  assert (take (Z.to_nat NAME_LEN) s = s) as Et by (apply take_ge; lia). rewrite Et in *. rewrite until_zeros by done. eapply lossy_utf8; [|  |exact Hu]; lia.
Qed.

(** ** Slots *)

Lemma slot_shape r : record_ok r -> zlen (slot_bytes r) = SLOT_BYTES.
Proof. intros [H _ _]. unfold slot_bytes. rewrite !zlen_app, !zlen_le_bytes, H. done. Qed.
Lemma slots_shape l : forall at_, Forall record_ok l -> 0 <= at_ -> at_ + SLOT_BYTES * zlen l <= CRC_AT ->
  in_bounds SUPERBLOCK_BYTES (shape (slot_fields at_ l)) = true /\ (forall o n, o + n <= at_ -> apart o n (shape (slot_fields at_ l)) = true).
Proof.
  induction l as [|r l IH]; intros at_ HF Ha Hz; [done|]. apply Forall_cons in HF as [Hr HF]. rewrite zlen_cons in Hz. pose proof (zlen_nonneg l). unfold SLOT_BYTES in Hz.
  destruct (IH (at_ + SLOT_BYTES) HF ltac:(unfold SLOT_BYTES; lia) ltac:(unfold SLOT_BYTES; lia)) as [H1 H2]. cbn [slot_fields shape map in_bounds apart forallb fst snd].
  rewrite slot_shape by done. unfold in_bounds, apart, shape in *. unfold SLOT_BYTES, CRC_AT, SUPERBLOCK_BYTES in *. split.
  - rewrite H1, !andb_true_iff, !Z.leb_le. lia.
  - intros o n Ho. rewrite H2 by lia. rewrite andb_true_r. apply orb_true_iff. right. by apply Z.leb_le.
Qed.
Lemma state_roundtrip s : state_of (state_byte s) = Ok s.
Proof. by destruct s. Qed.
Lemma state_range s : 1 <= state_byte s <= 5.
Proof. destruct s; cbn; lia. Qed.
(** A slot's bytes are read as the slot. *)
Lemma slot_read b at_ r : 0 <= at_ -> record_ok r -> slice at_ SLOT_BYTES b = slot_bytes r ->
  state_of (at_byte b (at_ + 16)) = Ok (r_state r) /\
  mkSlot (slice at_ 16 b) (r_state r) (rd_u64 b (at_ + 24)) (negb (Z.land (at_byte b (at_ + 17)) 1 =? 0)) (le_val (slice (at_ + 18) 6 b)) = r.
Proof.
  intros Ha [Hu Hr Hm] Hs. assert (forall j n, 0 <= j -> 0 <= n -> j + n <= 32 -> slice (at_ + j) n b = slice j n (slot_bytes r)) as HS.
  { intros j n Hj Hn Hjn. rewrite <- Hs. by rewrite slice_slice by (unfold SLOT_BYTES; lia). }
  assert (forall j, 0 <= j < 32 -> at_byte b (at_ + j) = at_byte (slot_bytes r) j) as HB.
  { intros j Hj. rewrite <- Hs. by rewrite at_byte_slice. }
  unfold rd_u64. rewrite !HB, (HS 24 8), (HS 18 6) by lia. pose proof (HS 0 16 ltac:(lia) ltac:(lia) ltac:(lia)) as H0. rewrite Z.add_0_r in H0. rewrite H0. clear HS HB H0 Hs.
  unfold zlen in Hu. destruct r as [u st rb ms ma]. cbn in *. do 16 (destruct u as [|? u]; [done|]). destruct u; [|cbn in Hu; lia].
  assert (Z.land ma (2 ^ 48 - 1) = ma) as El by (change (2 ^ 48 - 1) with (Z.ones 48); rewrite Z.land_ones by lia; by apply Z.mod_small).
  unfold slot_bytes. cbn [r_uuid r_state r_rebuilt_to r_missing r_missing_at app]. unfold at_byte, slice. cbn [nth Z.to_nat Pos.to_nat Pos.iter_op Nat.add drop take].
  split; [apply state_roundtrip|]. f_equal.
  - change (le_val (le_bytes 8 rb) = rb). by apply le_val_u64.
  - by destruct ms.
  - rewrite El. change (le_val (le_bytes 6 ma) = ma). by apply le_val_le_bytes.
Qed.

Section Roundtrip.
Context (crc32c : bytes -> Z) (crc_u32 : forall b, u32_ok (crc32c b)).

Lemma read_slots_back l : forall at_ buf, Forall record_ok l -> zlen buf = SUPERBLOCK_BYTES -> 0 <= at_ -> at_ + SLOT_BYTES * zlen l <= CRC_AT ->
  forall crc, zlen crc = 4 -> read_slots (write_all buf (slot_fields at_ l ++ [(CRC_AT, crc)])) (length l) at_ = Ok l.
Proof using.
  induction l as [|r l IH]; intros at_ buf HF Hb Ha Hz crc Hc; [done|]. apply Forall_cons in HF as [Hr HF]. rewrite zlen_cons in Hz. pose proof (zlen_nonneg l). unfold SLOT_BYTES in Hz.
  pose proof (slot_shape r Hr) as Hs. cbn [slot_fields app length read_slots]. change (write_all buf ((at_, slot_bytes r) :: ?k)) with (write_all (splice buf at_ (slot_bytes r)) k).
  set (buf' := splice buf at_ (slot_bytes r)). assert (zlen buf' = SUPERBLOCK_BYTES) as Hb'.
  { unfold buf'. rewrite zlen_splice; unfold SLOT_BYTES, CRC_AT, SUPERBLOCK_BYTES in *; lia. }
  rewrite (IH (at_ + SLOT_BYTES) buf' HF Hb') by (done || unfold SLOT_BYTES; lia). set (out := write_all buf' _).
  destruct (slots_shape l (at_ + SLOT_BYTES) HF) as [S1 S2]; [unfold SLOT_BYTES; lia..|].
  assert (slice at_ SLOT_BYTES out = slot_bytes r) as Ho.
  { unfold out. rewrite (read_untouched SUPERBLOCK_BYTES).
    - unfold buf'. rewrite <- Hs. apply slice_splice_same; unfold SLOT_BYTES, CRC_AT, SUPERBLOCK_BYTES in *; lia.
    - done.
    - unfold shape. rewrite map_app. unfold in_bounds. rewrite forallb_app. apply andb_true_iff. split; [exact S1|]. cbn. by rewrite Hc.
    - done.
    - done.
    - unfold shape. rewrite map_app. unfold apart. rewrite forallb_app. apply andb_true_iff. split; [by apply S2|]. cbn [map forallb fst snd]. rewrite Hc, andb_true_r.
      apply orb_true_iff. right. apply Z.leb_le. unfold SLOT_BYTES in *. lia. }
  destruct (slot_read out at_ r Ha Hr Ho) as [E1 E2]. rewrite E1. cbn [rbind]. by rewrite E2.
Qed.
Definition field_shape : list (Z * Z) :=
  [(0, 8); (8, 4); (12, 16); (28, 16); (44, 4); (48, 1); (52, 4); (56, 8); (64, 8); (72, 8); (80, 8); (88, 8); (96, 8); (104, 8); (112, 8); (120, 8); (128, 64); (192, 64)].
Lemma fields_shape s : super_ok s -> shape (fields s) = field_shape.
Proof using.
  intros [H1 H2 _ _ [H3 _] [H4 _] _]. unfold fields, shape. cbn [map fst snd]. rewrite H1, H2, !zlen_padded, !zlen_le_bytes by done. done.
Qed.
Lemma block_bytes s b : super_ok s -> to_bytes crc32c s = Some b -> exists crc, zlen crc = 4 /\
  b = write_all (write_all (zeros SUPERBLOCK_BYTES) (fields s)) (slot_fields SLOT_TABLE (slots s) ++ [(CRC_AT, crc)]) /\
  crc = le_bytes 4 (crc32c (slice 0 CRC_AT b)).
Proof using.
  intros Hok. unfold to_bytes. destruct (Z.ltb_spec MAX_SLOTS (zlen (slots s))) as [|Hn]; [done|]. set (b0 := write_all (zeros SUPERBLOCK_BYTES) _).
  intros E. apply (inj Some) in E. subst b. exists (le_bytes 4 (crc32c (slice 0 CRC_AT b0))). split; [done|]. split.
  - unfold b0 at 1. rewrite write_all_snoc, <- app_assoc. apply write_all_app.
  - do 2 f_equal. symmetry. apply (slice_splice_before b0 0 CRC_AT); [done|done|done|]. unfold b0. rewrite (zlen_write_all SUPERBLOCK_BYTES); [done|done|]. unfold shape. rewrite map_app. unfold in_bounds. rewrite forallb_app. apply andb_true_iff. split.
    + change (in_bounds SUPERBLOCK_BYTES (shape (fields s)) = true). by rewrite (fields_shape s Hok).
    + destruct (so_slots s Hok) as [_ HF]. unfold MAX_SLOTS in Hn. apply (slots_shape (slots s) SLOT_TABLE HF); unfold SLOT_TABLE, SLOT_BYTES, CRC_AT, SUPERBLOCK_BYTES; lia.
Qed.
Lemma header_part s crc o n : super_ok s -> zlen crc = 4 -> 0 <= o -> 0 <= n -> o + n <= SLOT_TABLE ->
  slice o n (write_all (write_all (zeros SUPERBLOCK_BYTES) (fields s)) (slot_fields SLOT_TABLE (slots s) ++ [(CRC_AT, crc)])) = slice o n (write_all (zeros SUPERBLOCK_BYTES) (fields s)).
Proof using.
  intros Hok Hc Ho Hn Hon. destruct (so_slots s Hok) as [Hm HF]. unfold MAX_SLOTS in Hm.
  destruct (slots_shape (slots s) SLOT_TABLE HF) as [S1 S2]; [done|unfold SLOT_TABLE, SLOT_BYTES, CRC_AT, SUPERBLOCK_BYTES; lia|].
  apply (read_untouched SUPERBLOCK_BYTES); [|  |done|done|].
  - apply zlen_write_all; [done|]. by rewrite (fields_shape s Hok).
  - unfold shape. rewrite map_app. unfold in_bounds. rewrite forallb_app. apply andb_true_iff. split; [exact S1|]. cbn. by rewrite Hc.
  - unfold shape. rewrite map_app. unfold apart. rewrite forallb_app. apply andb_true_iff. split; [by apply S2|]. cbn [map forallb fst snd]. rewrite andb_true_r.
    apply orb_true_iff. right. apply Z.leb_le. unfold SLOT_TABLE, CRC_AT, SUPERBLOCK_BYTES in *. lia.
Qed.
Ltac read_super k := eapply (read_written SUPERBLOCK_BYTES _ _ field_shape k); [reflexivity|by apply fields_shape|reflexivity|reflexivity|reflexivity|reflexivity].

Lemma super_roundtrip s b : super_ok s -> to_bytes crc32c s = Some b -> from_bytes crc32c b = Ok (Some s).
Proof using crc_u32.
  intros Hok E. destruct (block_bytes s b Hok E) as (crc & Hc & Eb & Ecrc). set (F := write_all (zeros SUPERBLOCK_BYTES) (fields s)) in *.
  assert (forall o n, 0 <= o -> 0 <= n -> o + n <= SLOT_TABLE -> slice o n b = slice o n F) as HS by (intros o n H1 H2 H3; rewrite Eb; by apply header_part).
  assert (zlen F = SUPERBLOCK_BYTES) as HF by (apply zlen_write_all; [done|by rewrite (fields_shape s Hok)]).
  assert (zlen b = SUPERBLOCK_BYTES /\ rd_u32 b CRC_AT = crc32c (slice 0 CRC_AT b)) as [Hb Hcrc].
  { destruct (so_slots s Hok) as [Hm HFs]. unfold MAX_SLOTS in Hm. destruct (slots_shape (slots s) SLOT_TABLE HFs) as [S1 _]; [done|unfold SLOT_TABLE, SLOT_BYTES, CRC_AT, SUPERBLOCK_BYTES; lia|].
    assert (zlen (write_all F (slot_fields SLOT_TABLE (slots s))) = SUPERBLOCK_BYTES) as Hz by by apply zlen_write_all.
    rewrite write_all_app in Eb. split.
    - rewrite Eb. unfold write_all at 1. cbn [foldl fst snd]. rewrite zlen_splice; rewrite ?Hz, ?Hc; unfold CRC_AT, SUPERBLOCK_BYTES; lia.
    - unfold rd_u32. assert (slice CRC_AT 4 b = crc) as ->; [|rewrite Ecrc; by apply le_val_u32].
      rewrite Eb. unfold write_all at 1. cbn [foldl fst snd]. rewrite <- Hc. apply slice_splice_same; rewrite ?Hz, ?Hc; unfold CRC_AT, SUPERBLOCK_BYTES; lia. }
  assert (Forall u64_ok [stripe_size s; data_offset s; data_size s; create_time s; update_time s; events s; bitmap_offset s; bitmap_bytes s; bitmap_chunk s]) as Hs by apply Hok.
  rewrite !Forall_cons in Hs. destruct Hs as (U1 & U2 & U3 & U4 & U5 & U6 & U7 & U8 & U9 & _). pose proof (so_slots s Hok) as [Hm HFs]. pose proof (zlen_nonneg (slots s)). unfold MAX_SLOTS in Hm.
  assert (rd_u32 b 52 = zlen (slots s)) as Ec.
  { unfold rd_u32. rewrite HS by done. replace (slice 52 4 F) with (le_bytes 4 (zlen (slots s))) by (symmetry; read_super 6%nat). apply le_val_u32. unfold u32_ok. lia. }
  assert (rd_u32 b 44 = default u32max (slot s)) as Es.
  { unfold rd_u32. rewrite HS by done. replace (slice 44 4 F) with (le_bytes 4 (default u32max (slot s))) by (symmetry; read_super 4%nat). apply le_val_u32.
    pose proof (so_slot s Hok). destruct (slot s) as [i|]; [|done]. specialize (H0 i eq_refl). unfold u32_ok, u32max in *. cbn. lia. }
  assert (at_byte b 48 = level_byte (level s)) as El.
  { apply slice_1_at; [|done]. rewrite HS by done. read_super 5%nat. }
  unfold from_bytes. rewrite Hb, Z.ltb_irrefl. cbn [orb]. rewrite (HS 0 8) by done. replace (slice 0 8 F) with SUPERBLOCK_MAGIC by (symmetry; read_super 0%nat). rewrite bool_decide_true by done. cbn [negb].
  unfold rd_u32 at 1. rewrite (HS 8 4) by done. replace (slice 8 4 F) with (le_bytes 4 SUPERBLOCK_VERSION) by (symmetry; read_super 1%nat). change (le_val (le_bytes 4 SUPERBLOCK_VERSION) =? SUPERBLOCK_VERSION) with true. cbn [negb].
  rewrite Hcrc, Z.eqb_refl. cbn [negb]. rewrite El. replace (level_of (level_byte (level s))) with (@Ok RaidError _ (level s)) by by destruct (level s) as [[]|]. cbn [rbind]. rewrite Ec.
  destruct (Z.ltb_spec MAX_SLOTS (zlen (slots s))); [unfold MAX_SLOTS in *; lia|]. replace (Z.to_nat (zlen (slots s))) with (length (slots s)) by (unfold zlen; lia).
  rewrite Eb at 1. rewrite read_slots_back by (done || unfold SLOT_TABLE, SLOT_BYTES, CRC_AT, SUPERBLOCK_BYTES; lia). cbn [rbind]. rewrite Es. unfold rd_u64. rewrite !HS by done.
  assert (forall k o z, fields s !! k = Some (o, le_bytes 8 z) -> field_shape !! k = Some (o, 8) -> apart o 8 (drop (S k) field_shape) = true -> u64_ok z -> le_val (slice o 8 F) = z) as HU.
  { intros k o z K1 K2 K3 Hz. replace (slice o 8 F) with (le_bytes 8 z); [by apply le_val_u64|]. symmetry.
    eapply (read_written SUPERBLOCK_BYTES _ _ field_shape k); [done|by apply fields_shape|done|done|done|done]. }
  rewrite (HU 7%nat 56 (stripe_size s)), (HU 8%nat 64 (data_offset s)), (HU 9%nat 72 (data_size s)), (HU 10%nat 80 (create_time s)), (HU 11%nat 88 (update_time s)),
    (HU 12%nat 96 (events s)), (HU 13%nat 104 (bitmap_offset s)), (HU 14%nat 112 (bitmap_bytes s)), (HU 15%nat 120 (bitmap_chunk s)) by done.
  replace (slice 12 16 F) with (array_uuid s) by (symmetry; read_super 2%nat). replace (slice 28 16 F) with (member_uuid s) by (symmetry; read_super 3%nat).
  replace (slice 128 NAME_LEN F) with (put_str (name s)) by (symmetry; read_super 16%nat). replace (slice 192 NAME_LEN F) with (put_str (pool s)) by (symmetry; read_super 17%nat).
  rewrite !get_put by apply Hok. do 2 f_equal. assert ((if default u32max (slot s) =? u32max then None else Some (default u32max (slot s))) = slot s) as ->; [|by destruct s].
  pose proof (so_slot s Hok) as Hsl. destruct (slot s) as [i|]; [|done]. cbn. specialize (Hsl i eq_refl). destruct (Z.eqb_spec i u32max); [lia|done].
Qed.
End Roundtrip.
