(* ===== verification/RaidArray.v ===== *)
(** The RAID engine: [raid/mod.rs], a set's members, the failing of a member, its
    superblocks and bitmap on disk, and the read, write, resync and rebuild of its data. *)

From S2P Require Import Prelude Gf256 Parity RaidLayout IntentBitmap RaidSuper.
Export Super.
#[export] Existing Instance Layout.RaidLevel_eq.
#[export] Existing Instance Layout.StripRole_eq.

Abbreviation RaidLevel := Layout.RaidLevel.
Abbreviation Geometry := Layout.Geometry.
Abbreviation Segment := Layout.Segment.

Definition DATA_OFFSET : Z := 1024 * 1024.
Definition DEFAULT_STRIPE_SIZE : Z := 64 * 1024.
Definition MIRROR_UNIT : Z := 1024 * 1024.
(** [min_members]. *)
Definition min_members (l : RaidLevel) : Z :=
  match l with Layout.Raid1 => 2 | Layout.Raid5 => 3 | Layout.Raid6 => 4 | Layout.Raid10 => 4 end.

(** ** Drives *)

(** What a drive holds, and what happens to the operations to come. *)
Record Device := mkDevice { content : bytes; faults : list op_fault }.
Definition next_fault (d : Device) : op_fault * Device := (default None (head (faults d)), mkDevice (content d) (tl (faults d))).

Definition dev_read (off n : Z) (d : Device) : result RaidError bytes * Device :=
  let '(f, d) := next_fault d in
  (match f with
   | Some _ => Err Drive
   | None => if zlen (content d) <? off + n then Err OutOfRange else Ok (slice off n (content d))
   end, d).
Definition dev_write (off : Z) (b : bytes) (d : Device) : result RaidError () * Device :=
  let '(f, d) := next_fault d in
  if zlen (content d) <? off + zlen b then (Err OutOfRange, d)
  else
    match f with
    | Some kept => (Err Drive, mkDevice (splice (content d) off (partly kept (slice off (zlen b) (content d)) b)) (faults d))
    | None => (Ok (), mkDevice (splice (content d) off b) (faults d))
    end.
Definition dev_flush (d : Device) : result RaidError () * Device :=
  let '(f, d) := next_fault d in (match f with Some _ => Err Drive | None => Ok () end, d).

(** ** The array *)

Record Member := mkMember { device : option Device; state : MemberState; uuid : bytes; rebuilt_to : Z; missing : bool; missing_at : Z }.
(** What the superblocks say besides, and the time of day. *)
Record Info := mkInfo { i_array : bytes; i_created : Z; i_name : bytes; i_pool : bytes }.
Record RaidArray := mkRaid {
  lvl : RaidLevel; unit_size : Z; dsize : Z; capacity : Z; members : list Member; evts : Z; sb_dirty : bool;
  bm : Intent.IntentBitmap; released : bool; read_counter : Z; info : Info; clock : Z }.

Definition present (m : Member) : bool := if device m is Some _ then true else false.
(** [Member::holds]. *)
Definition holds (end_ : Z) (m : Member) : bool :=
  present m && match state m with Active => true | Rebuilding => end_ <=? rebuilt_to m | _ => false end.
Definition attached (m : Member) : bool := present m && match state m with Active | Rebuilding => true | _ => false end.
(** [ok] of [can_lose]; [lost] of [data_intact] is its negation. *)
Definition ok_member (m : Member) : bool := present m && bool_decide (state m = Active).

Definition n_members (a : RaidArray) : Z := zlen (members a).
Definition geometry (a : RaidArray) : Geometry := Layout.mkGeometry (lvl a) (n_members a) (unit_size a).
Definition lock_unit (a : RaidArray) : Z := if bool_decide (lvl a = Layout.Raid1) then MIRROR_UNIT else unit_size a.
Definition member (a : RaidArray) (i : Z) : option Member := if i <? 0 then None else members a !! Z.to_nat i.
Definition count {A} (f : A -> bool) (l : list A) : Z := zlen (filter (fun x => f x = true) l).
Definition failed_count (a : RaidArray) : Z := count (fun m => bool_decide (state m = Failed)) (members a).
Definition rebuilding_count (a : RaidArray) : Z := count (fun m => bool_decide (state m = Rebuilding)) (members a).
(** The members that answer [f], by number. *)
Definition which (f : Member -> bool) (a : RaidArray) : list Z :=
  filter (fun i => from_option f false (member a i) = true) (zrange 0 (n_members a)).
Definition holders (a : RaidArray) (end_ : Z) : list bool := map (holds end_) (members a).
Definition held (h : list bool) (i : Z) : bool := default false (h !! Z.to_nat i).
Definition ok_at (a : RaidArray) (i : Z) : bool := from_option ok_member false (member a i).

Definition data_intact (a : RaidArray) : bool :=
  match lvl a with
  | Layout.Raid1 => existsb ok_member (members a)
  | Layout.Raid10 => forallb (fun p => ok_at a (2 * p) || ok_at a (2 * p + 1)) (zrange 0 (n_members a / 2))
  | _ => count (fun m => negb (ok_member m)) (members a) <=? Layout.tolerated (geometry a)
  end.
Definition can_lose (a : RaidArray) (idx : Z) : bool :=
  let others := filter (fun i => i <> idx) (zrange 0 (n_members a)) in
  match lvl a with
  | Layout.Raid1 => existsb (ok_at a) others
  | Layout.Raid10 => ok_at a (Z.lxor idx 1)
  | _ => count (fun i => negb (ok_at a i)) others <? Layout.tolerated (geometry a)
  end.
(** A member out because its drive went missing: the bitmap is kept. *)
Definition keeps_bitmap (a : RaidArray) : bool := existsb (fun m => bool_decide (state m = Failed) && missing m) (members a).

(** ** Operations *)

Definition set_members (l : list Member) (a : RaidArray) : RaidArray :=
  mkRaid (lvl a) (unit_size a) (dsize a) (capacity a) l (evts a) (sb_dirty a) (bm a) (released a) (read_counter a) (info a) (clock a).
Definition set_member (i : Z) (m : Member) (a : RaidArray) : RaidArray := set_members (<[Z.to_nat i := m]> (members a)) a.
Definition set_events (e : Z) (dirty : bool) (a : RaidArray) : RaidArray :=
  mkRaid (lvl a) (unit_size a) (dsize a) (capacity a) (members a) e dirty (bm a) (released a) (read_counter a) (info a) (clock a).
Definition set_bm (b : Intent.IntentBitmap) (a : RaidArray) : RaidArray :=
  mkRaid (lvl a) (unit_size a) (dsize a) (capacity a) (members a) (evts a) (sb_dirty a) b (released a) (read_counter a) (info a) (clock a).
Definition set_counter (c : Z) (a : RaidArray) : RaidArray :=
  mkRaid (lvl a) (unit_size a) (dsize a) (capacity a) (members a) (evts a) (sb_dirty a) (bm a) (released a) c (info a) (clock a).
Definition set_device (d : Device) (m : Member) : Member := mkMember (Some d) (state m) (uuid m) (rebuilt_to m) (missing m) (missing_at m).

(** [S]: an operation and the array it leaves; [M]: one that can fail. *)
Definition S (A : Type) : Type := RaidArray -> A * RaidArray.
Definition M (A : Type) : Type := S (result RaidError A).
Definition seq {A B} (m : S A) (k : A -> S B) : S B := fun a => let '(x, a) := m a in k x a.
Definition pure {A} (x : A) : S A := fun a => (x, a).
Definition ret {A} (x : A) : M A := pure (Ok x).
Definition fail {A} (e : RaidError) : M A := pure (Err e).
Definition bind {A B} (m : M A) (k : A -> M B) : M B :=
  seq m (fun r => match r with Ok x => k x | Err e => fail e end).
Definition gets {A} (f : RaidArray -> A) : S A := fun a => (f a, a).
Definition modify (f : RaidArray -> RaidArray) : S () := fun a => ((), f a).

Declare Scope raid_scope.
Delimit Scope raid_scope with raid.
Notation "'let*' x ':=' m 'in' k" := (seq m (fun x => k)) (at level 10, x name, m at level 200, k at level 200) : raid_scope.
Notation "'try' x ':=' m 'in' k" := (bind m (fun x => k)) (at level 10, x name, m at level 200, k at level 200) : raid_scope.
Notation "m ;; k" := (seq m (fun _ => k)) (at level 100, right associativity) : raid_scope.
#[local] Open Scope raid_scope.

Fixpoint each {A B} (f : A -> S B) (l : list A) : S (list B) :=
  match l with
  | [] => pure []
  | x :: r => let* y := f x in let* ys := each f r in pure (y :: ys)
  end.

(** [fail_member_as]. *)
Definition fail_member_as (idx : Z) (gone : bool) : S bool := fun a =>
  match member a idx with
  | None => (false, a)
  | Some m =>
      if bool_decide (state m = Failed) then (false, a)
      else
        let was_rebuilding := bool_decide (state m = Rebuilding) in
        if negb was_rebuilding && negb (can_lose a idx) then (false, a)
        else
          let m' := mkMember (device m) Failed (uuid m) (rebuilt_to m) (gone && negb was_rebuilding) (evts a + 1) in
          (true, set_events (evts a + 1) true (set_member idx m' a))
  end.
Definition fail_member (idx : Z) : S bool := fail_member_as idx false.
Definition fail_member_missing (idx : Z) : S bool := fail_member_as idx true.

(** An operation of a member's drive. *)
Definition on {A} (i : Z) (f : Device -> result RaidError A * Device) : M A := fun a =>
  match member a i with
  | Some m =>
      match device m with
      | Some d => let '(r, d) := f d in (r, set_member i (set_device d m) a)
      | None => (Err Panic, a)
      end
  | None => (Err Panic, a)
  end.
Definition rd (i off n : Z) : M bytes := on i (dev_read off n).
Definition wr (i off : Z) (b : bytes) : M () := on i (dev_write off b).
Definition fl (i : Z) : M () := on i dev_flush.

(** The results of writes to members, in order: one that failed fails its member; if
    that is refused, its error is the answer. *)
Fixpoint settle (rs : list (Z * result RaidError ())) : M () :=
  match rs with
  | [] => ret ()
  | (i, Ok _) :: rs => settle rs
  | (i, Err e) :: rs => let* ok := fail_member i in if ok : bool then settle rs else fail e
  end.

Section Engine.
Context (cpu : arch) (simd : SimdLevel) (crc32c : bytes -> Z).

(** ** Superblocks and the bitmap on disk *)

Definition superblock_for (a : RaidArray) (slot_ events_ : Z) : Superblock :=
  mkSuper (i_array (info a)) (from_option uuid [] (member a slot_)) (Some slot_) (Some (lvl a)) (unit_size a) DATA_OFFSET (dsize a)
    (i_created (info a)) (clock a) events_ Intent.BITMAP_OFFSET (Intent.nbytes (bm a)) (Intent.chunk (bm a)) (i_name (info a)) (i_pool (info a))
    (map (fun m => mkSlot (uuid m) (state m) (rebuilt_to m) (missing m) (missing_at m)) (members a)).

(** The write and flush of a member. *)
Definition write_flush (i off : Z) (b : bytes) : M () := try _ := wr i off b in fl i.
(** The results of a round of superblocks: whether another is needed. *)
Fixpoint settle_round (again : bool) (rs : list (Z * result RaidError ())) : M bool :=
  match rs with
  | [] => ret again
  | (i, Ok _) :: rs => settle_round again rs
  | (i, Err e) :: rs => let* ok := fail_member i in if ok : bool then settle_round true rs else fail (MemberIo i)
  end.
Fixpoint superblock_rounds (fuel : nat) : M () :=
  match fuel with
  | O => ret ()
  | Datatypes.S fuel =>
      modify (fun a => set_events (evts a) false a) ;;
      let* ws := gets (fun a => mapM (fun i => b ← to_bytes crc32c (superblock_for a i (evts a)); Some (i, b)) (which attached a)) in
      match ws with
      | None => fail Panic
      | Some ws =>
          let* rs := each (fun w => let* r := write_flush (fst w) 0 (snd w) in pure (fst w, r)) ws in
          try again := settle_round false rs in
          if again : bool then superblock_rounds fuel else ret ()
      end
  end.
Definition write_superblocks : M () :=
  let* rel := gets released in
  if rel : bool then ret () else superblock_rounds (Datatypes.S (Z.to_nat MAX_SLOTS)).
Definition persist_if_dirty : S () :=
  let* d := gets sb_dirty in
  if d : bool then write_superblocks ;; pure () else pure ().

Fixpoint zero_each (zs : bytes) (l : list Z) : M () :=
  match l with
  | [] => ret ()
  | i :: l =>
      let* r := wr i Intent.BITMAP_OFFSET zs in
      match r with
      | Ok _ => zero_each zs l
      | Err _ => let* ok := fail_member i in if ok : bool then zero_each zs l else fail (MemberIo i)
      end
  end.
Definition zero_bitmaps (only : option Z) : M () :=
  let* rel := gets released in
  if rel : bool then ret ()
  else
    let* devs := gets (which attached) in
    let* zs := gets (fun a => zeros (Intent.nbytes (bm a))) in
    zero_each zs (match only with None => devs | Some o => filter (fun i => i = o) devs end).

(** The pages for one member, then its flush. *)
Fixpoint put_pages (i : Z) (w : list (Z * bytes)) : M () :=
  match w with
  | [] => fl i
  | (p, b) :: w => try _ := wr i (Intent.BITMAP_OFFSET + p * Intent.PAGE) b in put_pages i w
  end.
Definition any_ok (rs : list (Z * result RaidError ())) : bool := existsb (fun r => if snd r is Ok _ then true else false) rs.
Definition write_bitmap_pages : M () :=
  let* rel := gets released in
  if rel : bool then ret ()
  else
    let* w := gets (fun a => Intent.pending (bm a)) in
    match w with
    | [] => ret ()
    | _ =>
        let* devs := gets (which attached) in
        let* rs := each (fun i => let* r := put_pages i w in pure (i, r)) devs in
        try _ := settle rs in
        if any_ok rs then modify (fun a => set_bm (Intent.commit (bm a) w) a) ;; ret () else fail TooManyFailures
    end.

Definition intent_end (r : Z * Z) : S () := modify (fun a => set_bm (Intent.end_ (bm a) r (clock a)) a).
(** One page write puts every bit wanted on disk; the second turn finds them there. *)
Fixpoint until_durable (fuel : nat) (r : Z * Z) : M () :=
  let* d := gets (fun a => Intent.is_durable (bm a) r) in
  match d, fuel with
  | None, _ => fail Panic
  | Some true, _ => ret ()
  | Some false, O => fail OutOfFuel
  | Some false, Datatypes.S fuel =>
      let* w := write_bitmap_pages in
      match w with
      | Ok _ => until_durable fuel r
      | Err e => intent_end r ;; fail e
      end
  end.
Definition intent_begin (r : Z * Z) : M () :=
  let* b := gets (fun a => Intent.begin (bm a) r) in
  match b with
  | None => fail Panic
  | Some (need, b) => modify (set_bm b) ;; (if need : bool then until_durable 1 r else ret ())
  end.

(** ** RAID-1 and RAID-10 *)

(** The members of [set] that take a write, and how much of it. *)
Definition target (a : RaidArray) (moff len : Z) (i : Z) : option (Z * Z) :=
  m ← member a i;
  if negb (present m) then None
  else if holds (moff + len) m then Some (i, len)
  else if bool_decide (state m = Rebuilding) && (moff <? rebuilt_to m) then Some (i, rebuilt_to m - moff)
  else None.
Fixpoint settle_mirror (wrote : bool) (last : option RaidError) (rs : list (Z * bool * result RaidError ())) : M () :=
  match rs with
  | [] => if wrote then ret () else fail (default TooManyFailures last)
  | (i, whole, Ok _) :: rs => settle_mirror (wrote || whole) last rs
  | (i, whole, Err e) :: rs => let* ok := fail_member i in if ok : bool then settle_mirror wrote (Some e) rs else fail e
  end.
Definition mirror_write_at (set : list Z) (moff : Z) (data : bytes) : M () :=
  let* targets := gets (fun a => omap (target a moff (zlen data)) set) in
  if negb (existsb (fun t => snd t =? zlen data) targets) then fail TooManyFailures
  else
    let* rs := each (fun t => let* r := wr (fst t) (DATA_OFFSET + moff) (take (Z.to_nat (snd t)) data) in
                              pure (fst t, snd t =? zlen data, r)) targets in
    settle_mirror false None rs.

Definition usize (z : Z) : Z := z mod 2 ^ 64.
Fixpoint mirror_read_loop (fuel : nat) (tried set : list Z) (moff n : Z) : M bytes :=
  let* h := gets (fun a => holders a (moff + n)) in
  match filter (fun i => held h i = true /\ (i ∉ tried)) set, fuel with
  | [], _ => fail TooManyFailures
  | _, O => fail OutOfFuel
  | cands, Datatypes.S fuel =>
      let* c := gets read_counter in
      modify (set_counter (usize (c + 1))) ;;
      let pick := nth (Z.to_nat (c mod zlen cands)) cands 0 in
      let* r := rd pick (DATA_OFFSET + moff) n in
      match r with
      | Ok b => ret b
      | Err e =>
          let* ok := fail_member pick in
          if negb ok && (zlen cands =? 1) then fail e else mirror_read_loop fuel (pick :: tried) set moff n
      end
  end.
(** Each turn tries a member of [set] not tried before. *)
Definition mirror_read_at (set : list Z) (moff n : Z) : M bytes := mirror_read_loop (length set) [] set moff n.

Definition all_slots (a : RaidArray) : list Z := zrange 0 (n_members a).
Definition pair_list (pair : Z) : list Z := [fst (Layout.pair_members pair); snd (Layout.pair_members pair)].

(** A write between its intent and its end. *)
Definition with_intent (r : Z * Z) (m : M ()) : M () :=
  try _ := intent_begin r in
  let* res := m in
  intent_end r ;; persist_if_dirty ;; pure res.
Definition raid1_write (offset : Z) (buf : bytes) : M () :=
  let* r := gets (fun a => Intent.chunks (bm a) offset (zlen buf)) in
  with_intent r (let* set := gets all_slots in mirror_write_at set offset buf).
Definition raid1_read (offset n : Z) : M bytes :=
  let* set := gets all_slots in
  let* res := mirror_read_at set offset n in
  persist_if_dirty ;; pure res.

(** The chunks of the stripes a range touches. *)
Definition stripe_chunks (a : RaidArray) (segs : list Segment) : Z * Z :=
  let first := from_option Layout.stripe 0 (head segs) in
  let last_ := from_option Layout.stripe 0 (last segs) in
  Intent.chunks (bm a) (first * unit_size a) ((last_ + 1 - first) * unit_size a).
Definition piece (buf : bytes) (s : Segment) : bytes := slice (Layout.buf_offset s) (Layout.len s) buf.
Definition seg_off (u : Z) (s : Segment) : Z := Layout.stripe s * u + Layout.offset_in_unit s.
Definition segs_of (a : RaidArray) (offset n : Z) : option (list Segment) := Layout.segments (geometry a) offset n.

Fixpoint raid10_write_segs (u : Z) (segs : list Segment) (buf : bytes) : M () :=
  match segs with
  | [] => ret ()
  | s :: segs =>
      try _ := mirror_write_at (pair_list (Layout.index s)) (seg_off u s) (piece buf s) in
      raid10_write_segs u segs buf
  end.
Definition raid10_write (offset : Z) (buf : bytes) : M () :=
  let* osegs := gets (fun a => segs_of a offset (zlen buf)) in
  match osegs with
  | None => fail OutOfFuel
  | Some segs =>
      let* r := gets (fun a => stripe_chunks a segs) in
      let* u := gets unit_size in
      with_intent r (raid10_write_segs u segs buf)
  end.
Fixpoint raid10_read_segs (u : Z) (segs : list Segment) : M bytes :=
  match segs with
  | [] => ret []
  | s :: segs =>
      try b := mirror_read_at (pair_list (Layout.index s)) (seg_off u s) (Layout.len s) in
      try r := raid10_read_segs u segs in
      ret (b ++ r)
  end.
Definition raid10_read (offset n : Z) : M bytes :=
  let* osegs := gets (fun a => segs_of a offset n) in
  match osegs with
  | None => fail OutOfFuel
  | Some segs =>
      let* u := gets unit_size in
      let* res := raid10_read_segs u segs in
      persist_if_dirty ;; pure res
  end.

(** ** RAID-5 and RAID-6 *)

Definition raid6 (g : Geometry) : bool := bool_decide (Layout.level g = Layout.Raid6).
Definition no_strips (g : Geometry) : StripeStrips :=
  SS (replicate (Z.to_nat (Layout.data_count g)) None) None (if raid6 g then Some None else None).
Definition put_strip (g : Geometry) (stripe i : Z) (b : option bytes) (s : StripeStrips) : StripeStrips :=
  match Layout.role_of g stripe i with
  | Layout.Data d => SS (<[Z.to_nat d := b]> (ss_data s)) (ss_p s) (ss_q s)
  | Layout.P => SS (ss_data s) b (ss_q s)
  | Layout.Q => SS (ss_data s) (ss_p s) (Some b)
  end.
Fixpoint fill_strips (g : Geometry) (stripe : Z) (rs : list (Z * option (result RaidError bytes))) (s : StripeStrips) : S StripeStrips :=
  match rs with
  | [] => pure s
  | (i, Some (Ok b)) :: rs => fill_strips g stripe rs (put_strip g stripe i (Some b) s)
  | (i, None) :: rs => fill_strips g stripe rs (put_strip g stripe i None s)
  | (i, Some (Err e)) :: rs => fail_member i ;; fill_strips g stripe rs (put_strip g stripe i None s)
  end.
Definition read_column (g : Geometry) (stripe lo n : Z) : S StripeStrips :=
  let u := Layout.unit_ g in
  let* h := gets (fun a => holders a ((stripe + 1) * u)) in
  let* rs := each (fun i => if held h i then let* r := rd i (DATA_OFFSET + stripe * u + lo) n in pure (i, Some r) else pure (i, None))
               (zrange 0 (zlen h)) in
  fill_strips g stripe rs (no_strips g).

(** P and, for RAID-6, Q of data strips. *)
Definition parity_of (g : Geometry) (data : list bytes) (n : Z) : option (bytes * bytes) :=
  if raid6 g then compute_raid6_parity cpu simd data n
  else p ← compute_xor_parity cpu simd data n; Some (p, zeros n).

(** A piece read in the first pass: its bytes, or the member it is missing from and
    whether that member was read. *)
Definition first_pass (g : Geometry) (sh : Segment * list bool) : S (bytes + Z * bool) :=
  let '(s, h) := sh in
  let m := Layout.data_member g (Layout.stripe s) (Layout.index s) in
  if held h m then
    let* r := rd m (DATA_OFFSET + seg_off (Layout.unit_ g) s) (Layout.len s) in
    pure (match r with Ok b => inl b | Err _ => inr (m, true) end)
  else pure (inr (m, false)).
Fixpoint second_pass (g : Geometry) (l : list (Segment * (bytes + Z * bool))) : M bytes :=
  match l with
  | [] => ret []
  | (s, inl b) :: l => try r := second_pass g l in ret (b ++ r)
  | (s, inr (m, failed)) :: l =>
      (if failed : bool then fail_member m ;; pure () else pure ()) ;;
      let* strips := read_column g (Layout.stripe s) (Layout.offset_in_unit s) (Layout.len s) in
      match recover cpu simd (Layout.len s) strips with
      | Err _ => fail TooManyFailures
      | Ok None => fail Panic
      | Ok (Some st) =>
          match ss_data st !! Z.to_nat (Layout.index s) with
          | Some (Some b) => try r := second_pass g l in ret (b ++ r)
          | _ => fail Panic
          end
      end
  end.
Definition parity_read (offset n : Z) : M bytes :=
  let* g := gets geometry in
  match Layout.segments g offset n with
  | None => fail OutOfFuel
  | Some segs =>
      let* hs := gets (fun a => map (fun s => holders a ((Layout.stripe s + 1) * Layout.unit_ g)) segs) in
      let* rs := each (first_pass g) (zip segs hs) in
      let* res := second_pass g (zip segs rs) in
      persist_if_dirty ;; pure res
  end.

(** [issue_writes]: (member, offset, bytes). *)
Definition issue_writes (h : list bool) (writes : list (Z * Z * bytes)) : M () :=
  let* rel := gets released in
  if rel : bool then fail Released
  else
    let* rs := each (fun w => let* r := wr (fst (fst w)) (snd (fst w)) (snd w) in pure (fst (fst w), r))
                 (filter (fun w => held h (fst (fst w)) = true) writes) in
    settle rs.
Definition check_after_write : M () := let* ok := gets data_intact in if ok : bool then ret () else fail TooManyFailures.

Definition data_at (g : Geometry) (stripe : Z) (s : Segment) : Z := Layout.data_member g stripe (Layout.index s).
(** P's write, and Q's for RAID-6. *)
Definition parity_writes (g : Geometry) (stripe at_ : Z) (p q : bytes) : list (Z * Z * bytes) :=
  (Layout.p_member g stripe, at_, p) :: (if raid6 g then [(Layout.q_member g stripe, at_, q)] else []).

(** Read-modify-write, piece by piece; [false]: a read failed and its member with it. *)
Fixpoint rmw (g : Geometry) (h : list bool) (stripe : Z) (segs : list Segment) (buf : bytes) : M bool :=
  match segs with
  | [] => ret true
  | s :: segs =>
      let m := data_at g stripe s in
      let at_ := DATA_OFFSET + stripe * Layout.unit_ g + Layout.offset_in_unit s in
      let n := Layout.len s in
      let lost who e := let* ok := fail_member who in if ok : bool then ret false else fail e in
      let* ro := rd m at_ n in
      let* rp := rd (Layout.p_member g stripe) at_ n in
      match ro, rp with
      | _, Err e => lost (Layout.p_member g stripe) e
      | Err e, _ => lost m e
      | Ok old, Ok p =>
          let* rq := (if raid6 g then rd (Layout.q_member g stripe) at_ n else ret (zeros n)) in
          match rq with
          | Err e => lost (Layout.q_member g stripe) e
          | Ok q =>
              let new := piece buf s in
              let delta := xor_in_place_at cpu simd old new in
              try _ := issue_writes h ((m, at_, new) :: parity_writes g stripe at_ (xor_in_place_at cpu simd p delta)
                                                         (q_update cpu simd q delta (Layout.index s))) in
              rmw g h stripe segs buf
          end
      end
  end.

Definition full_stripe (g : Geometry) (segs : list Segment) : bool :=
  (zlen segs =? Layout.data_count g) && forallb (fun s => (Layout.offset_in_unit s =? 0) && (Layout.len s =? Layout.unit_ g)) segs.
Definition full_write (g : Geometry) (h : list bool) (stripe : Z) (segs : list Segment) (buf : bytes) : M () :=
  let u := Layout.unit_ g in
  let base := DATA_OFFSET + stripe * u in
  let data := map (fun s => slice (Layout.buf_offset s) u buf) segs in
  match parity_of g data u with
  | None => fail Panic
  | Some (p, q) =>
      issue_writes h (map (fun s => (data_at g stripe s, base, nth (Z.to_nat (Layout.index s)) data [])) segs ++ parity_writes g stripe base p q)
  end.
(** The new data laid over the strips of a column that starts at [lo]. *)
Definition lay (lo : Z) (buf : bytes) (data : list (option bytes)) (s : Segment) : list (option bytes) :=
  alter (option_map (fun d => splice d (Layout.offset_in_unit s - lo) (piece buf s))) (Z.to_nat (Layout.index s)) data.
Definition reconstruct_write (g : Geometry) (h : list bool) (stripe : Z) (segs : list Segment) (buf : bytes) : M () :=
  let lo := foldr Z.min (Layout.unit_ g) (map Layout.offset_in_unit segs) in
  let hi := foldr Z.max 0 (map (fun s => Layout.offset_in_unit s + Layout.len s) segs) in
  let n := hi - lo in
  let* strips := read_column g stripe lo n in
  match recover cpu simd n strips with
  | Err _ => fail TooManyFailures
  | Ok None => fail Panic
  | Ok (Some st) =>
      let data := map unwrap (foldl (lay lo buf) (ss_data st) segs) in
      match parity_of g data n with
      | None => fail Panic
      | Some (p, q) =>
          let at_ := DATA_OFFSET + stripe * Layout.unit_ g + lo in
          issue_writes h (map (fun s => (data_at g stripe s, at_, nth (Z.to_nat (Layout.index s)) data [])) segs ++ parity_writes g stripe at_ p q)
      end
  end.
Fixpoint stripe_attempts (fuel : nat) (g : Geometry) (stripe : Z) (segs : list Segment) (buf : bytes) : M () :=
  match fuel with
  | O => fail TooManyFailures
  | Datatypes.S fuel =>
      let* h := gets (fun a => holders a ((stripe + 1) * Layout.unit_ g)) in
      let parity_held := held h (Layout.p_member g stripe) && (negb (raid6 g) || held h (Layout.q_member g stripe)) in
      let touched_held := forallb (fun s => held h (data_at g stripe s)) segs in
      if full_stripe g segs then try _ := full_write g h stripe segs buf in check_after_write
      else if parity_held && touched_held && (zlen segs * 2 <=? Layout.data_count g) then
        try ok := rmw g h stripe segs buf in
        if ok : bool then check_after_write else stripe_attempts fuel g stripe segs buf
      else try _ := reconstruct_write g h stripe segs buf in check_after_write
  end.
Definition parity_write_stripe (g : Geometry) (buf : bytes) (segs : list Segment) : M () :=
  stripe_attempts 3 g (from_option Layout.stripe 0 (head segs)) segs buf.
(** The pieces of each stripe. *)
Fixpoint groups (segs : list Segment) : list (list Segment) :=
  match segs with
  | [] => []
  | s :: r =>
      match groups r with
      | (s' :: g) :: gs => if Layout.stripe s =? Layout.stripe s' then (s :: s' :: g) :: gs else [s] :: (s' :: g) :: gs
      | gs => [s] :: gs
      end
  end.
Definition first_err (rs : list (result RaidError ())) : result RaidError () :=
  foldr (fun r k => match r with Err e => Err e | Ok _ => k end) (Ok ()) rs.
Definition parity_write (offset : Z) (buf : bytes) : M () :=
  let* g := gets geometry in
  match Layout.segments g offset (zlen buf) with
  | None => fail OutOfFuel
  | Some [] => ret ()
  | Some segs =>
      let* r := gets (fun a => stripe_chunks a segs) in
      with_intent r (let* rs := each (parity_write_stripe g buf) (groups segs) in pure (first_err rs))
  end.

(** ** Resync *)

Fixpoint resync_copies (moff : Z) (first : bytes) (repair : bool) (l : list Z) : S bool :=
  match l with
  | [] => pure false
  | i :: l =>
      let* r := rd i (DATA_OFFSET + moff) (zlen first) in
      let* d :=
        (match r with
         | Err _ => fail_member i ;; pure false
         | Ok b =>
             if bool_decide (b = first) then pure false
             else
               (if repair then
                  let* w := wr i (DATA_OFFSET + moff) first in
                  match w with Err _ => fail_member i ;; pure () | Ok _ => pure () end
                else pure ()) ;;
               pure true
         end) in
      let* ds := resync_copies moff first repair l in
      pure (d || ds)
  end.
Definition resync_set (moff n : Z) (repair : bool) (h : list bool) (set : list Z) : S bool :=
  match filter (fun i => held h i = true) set with
  | i :: ((_ :: _) as rest) =>
      let* r := rd i (DATA_OFFSET + moff) n in
      match r with
      | Err _ => fail_member i ;; pure false
      | Ok first => resync_copies moff first repair rest
      end
  | _ => pure false
  end.
Definition mirror_sets (a : RaidArray) : list (list Z) :=
  if bool_decide (lvl a = Layout.Raid1) then [all_slots a] else map pair_list (zrange 0 (Layout.data_count (geometry a))).

(** A stripe with one strip at fault, by the two parities: what is written where. *)
Definition fault_write (g : Geometry) (stripe : Z) (data : list bytes) (p q pd : bytes) (f : Raid6Fault) : option (Z * bytes) :=
  match f with
  | FNone | FSeveral => None
  | FP => Some (Layout.p_member g stripe, p)
  | FQ => Some (Layout.q_member g stripe, q)
  | FData z => Some (Layout.data_member g stripe z, zip_into xor8 (nth (Z.to_nat z) data []) pd)
  end.
Definition resync_stripe (g : Geometry) (stripe moff n : Z) (repair locate : bool) : M (bool * bool) :=
  let* strips := read_column g stripe 0 n in
  if existsb (fun d => bool_decide (d = None)) (ss_data strips) then ret (false, false)
  else
    let data := map unwrap (ss_data strips) in
    match parity_of g data n with
    | None => fail Panic
    | Some (p, q) =>
        let at_ := DATA_OFFSET + moff in
        let fix_ ws :=
          let differ := negb (bool_decide (ws = [])) in
          if differ && repair then
            let* h := gets (fun a => holders a (moff + n)) in
            try _ := issue_writes h ws in ret (differ, true)
          else ret (differ, false) in
        let plain :=
          fix_ ((match ss_p strips with Some sp => if bool_decide (sp = p) then [] else [(Layout.p_member g stripe, at_, p)] | None => [] end)
                ++ (match ss_q strips with Some (Some sq) => if bool_decide (sq = q) then [] else [(Layout.q_member g stripe, at_, q)] | _ => [] end)) in
        match locate && raid6 g, ss_p strips, ss_q strips with
        | true, Some sp, Some (Some sq) =>
            let pd := zip_into xor8 sp p in
            let qd := zip_into xor8 sq q in
            let f := locate_raid6_fault pd qd (zlen data) in
            match f with
            | FNone => ret (false, false)
            | FSeveral => ret (true, false)
            | _ => fix_ (match fault_write g stripe data p q pd f with Some (m, b) => [(m, at_, b)] | None => [] end)
            end
        | _, _, _ => plain
        end
    end.
Fixpoint resync_sets (moff n : Z) (repair : bool) (h : list bool) (sets : list (list Z)) : S bool :=
  match sets with
  | [] => pure false
  | set :: sets => let* d := resync_set moff n repair h set in let* ds := resync_sets moff n repair h sets in pure (d || ds)
  end.
Definition resync_unit (key moff n : Z) (repair locate : bool) : M (bool * bool) :=
  let* g := gets geometry in
  match Layout.level g with
  | Layout.Raid5 | Layout.Raid6 => resync_stripe g key moff n repair locate
  | _ =>
      let* sets := gets mirror_sets in
      let* h := gets (fun a => holders a (moff + n)) in
      let* d := resync_sets moff n repair h sets in
      ret (d, d && repair)
  end.
Definition unit_len (a : RaidArray) (key : Z) : Z := Z.min (lock_unit a) (dsize a - key * lock_unit a).
Fixpoint resync_keys (repair locate : bool) (keys : list Z) (found : Z) : M Z :=
  match keys with
  | [] => ret found
  | k :: keys =>
      let* lu := gets lock_unit in
      let* n := gets (fun a => unit_len a k) in
      try dr := resync_unit k (k * lu) n repair locate in
      resync_keys repair locate keys (if fst dr then found + 1 else found)
  end.
(** [resync_range], run to its end. *)
Definition resync_range (start end_ : Z) (repair locate : bool) : M Z :=
  let* keys := gets (fun a => zrange (start / lock_unit a) (div_ceil end_ (lock_unit a))) in
  try found := resync_keys repair locate keys 0 in
  persist_if_dirty ;; ret found.

(** ** Rebuild *)

Definition live_target (a : RaidArray) (moff t : Z) : bool :=
  match member a t with
  | Some m => bool_decide (state m = Rebuilding) && (rebuilt_to m <=? moff) && present m
  | None => false
  end.
Fixpoint write_targets (moff : Z) (ws : list (Z * bytes)) : S () :=
  match ws with
  | [] => pure ()
  | (t, b) :: ws =>
      let* r := wr t (DATA_OFFSET + moff) b in
      match r with Err _ => fail_member t ;; write_targets moff ws | Ok _ => write_targets moff ws end
  end.
Definition strip_of (g : Geometry) (stripe t : Z) (st : StripeStrips) : bytes :=
  match Layout.role_of g stripe t with
  | Layout.Data i => unwrap (default None (ss_data st !! Z.to_nat i))
  | Layout.P => unwrap (ss_p st)
  | Layout.Q => unwrap (default None (ss_q st))
  end.
Fixpoint copy_pairs (moff n : Z) (ts : list Z) : M (list (Z * bytes)) :=
  match ts with
  | [] => ret []
  | t :: ts => try b := mirror_read_at [Z.lxor t 1] moff n in try r := copy_pairs moff n ts in ret ((t, b) :: r)
  end.
Definition rebuild_unit (targets : list Z) (key : Z) : M () :=
  let* lu := gets lock_unit in
  let* n := gets (fun a => unit_len a key) in
  let moff := key * lu in
  let* live := gets (fun a => filter (fun t => live_target a moff t = true) targets) in
  match live with
  | [] => ret ()
  | _ =>
      let* g := gets geometry in
      try ws :=
        (match Layout.level g with
         | Layout.Raid5 | Layout.Raid6 =>
             let* strips := read_column g key 0 n in
             match recover cpu simd n strips with
             | Err _ => fail TooManyFailures
             | Ok None => fail Panic
             | Ok (Some st) => ret (map (fun t => (t, strip_of g key t st)) live)
             end
         | Layout.Raid1 =>
             let* slots_ := gets all_slots in
             try b := mirror_read_at (filter (fun i => i ∉ targets) slots_) moff n in
             ret (map (fun t => (t, b)) live)
         | Layout.Raid10 => copy_pairs moff n live
         end) in
      write_targets moff ws ;; ret ()
  end.
Definition advance (end_ : Z) (m : Member) : Member :=
  if bool_decide (state m = Rebuilding) && (rebuilt_to m <? end_)
  then mkMember (device m) (state m) (uuid m) end_ (missing m) (missing_at m) else m.
(** The rebuild task: its slots, and the unit it has got to. *)
Definition rebuild_start (a : RaidArray) : option (list Z * Z) :=
  match which (fun m => bool_decide (state m = Rebuilding) && present m) a with
  | [] => None
  | t :: ts =>
      let at_ i := from_option rebuilt_to 0 (member a i) in
      Some (t :: ts, foldr Z.min (at_ t) (map at_ ts) / lock_unit a)
  end.
(** The units [key .. end_key), all of them tried; then how far the slots are. *)
Definition rebuild_batch (targets : list Z) (key end_key : Z) : M () :=
  let* rs := each (rebuild_unit targets) (zrange key end_key) in
  match first_err rs with
  | Err e => persist_if_dirty ;; fail e
  | Ok _ =>
      modify (fun a => let end_ := Z.min (end_key * lock_unit a) (dsize a) in
                       set_members (foldl (fun l t => alter (advance end_) (Z.to_nat t) l) (members a) targets) a) ;;
      persist_if_dirty ;; ret ()
  end.
Fixpoint flush_targets (ts : list Z) : S () :=
  match ts with
  | [] => pure ()
  | t :: ts =>
      let* m := gets (fun a => from_option present false (member a t)) in
      (if m : bool then let* r := fl t in match r with Err _ => fail_member t ;; pure () | Ok _ => pure () end else pure ()) ;;
      flush_targets ts
  end.
Definition activate (m : Member) : Member :=
  if bool_decide (state m = Rebuilding) then mkMember (device m) Active (uuid m) 0 (missing m) (missing_at m) else m.
Definition rebuild_finish (targets : list Z) : M () :=
  flush_targets targets ;;
  modify (fun a => set_events (evts a + 1) (sb_dirty a) (set_members (foldl (fun l t => alter activate (Z.to_nat t) l) (members a) targets) a)) ;;
  write_superblocks.

(** ** Members come and go *)

(** A drive put into a failed slot, to rebuild; [u] is the new member's identifier. *)
Definition replace (i : Z) (d : Device) (u : bytes) : M () := fun a =>
  if zlen (content d) <? DATA_OFFSET + dsize a then (Err InvalidStripe, a)
  else
    match member a i with
    | None => (Err InvalidStripe, a)
    | Some m =>
        if negb (bool_decide (state m = Failed)) then (Err InvalidStripe, a)
        else
          (try _ := zero_bitmaps (Some i) in write_superblocks)
            (set_events (evts a + 1) (sb_dirty a) (set_member i (mkMember (Some d) Rebuilding u 0 false 0) a))
    end.
Definition add_member (d : Device) (u : bytes) : M () := fun a =>
  if negb (bool_decide (lvl a = Layout.Raid1)) then (Err NotSupported, a)
  else if zlen (content d) <? DATA_OFFSET + dsize a then (Err OutOfRange, a)
  else if MAX_SLOTS <=? n_members a then (Err InvalidStripe, a)
  else
    (try _ := zero_bitmaps (Some (n_members a)) in write_superblocks)
      (set_events (evts a + 1) (sb_dirty a) (set_members (members a ++ [mkMember (Some d) Rebuilding u 0 false 0]) a)).
(** The drive that leaves is wiped, as well as it can be. *)
Definition remove_member (u : bytes) : M () := fun a =>
  if negb (bool_decide (lvl a = Layout.Raid1)) then (Err NotSupported, a)
  else
    match list_find (fun m => uuid m = u) (members a) with
    | None => (Err CannotRemoveMember, a)
    | Some (i, _) =>
        let rest := delete i (members a) in
        if negb (existsb ok_member rest) then (Err CannotRemoveMember, a)
        else write_superblocks (set_events (evts a + 1) (sb_dirty a) (set_members rest a))
    end.

(** ** The array as a device *)

Definition read (offset n : Z) : M bytes :=
  let* cap := gets capacity in
  let* l := gets lvl in
  if cap <? offset + n then fail OutOfRange
  else match l with Layout.Raid1 => raid1_read offset n | Layout.Raid10 => raid10_read offset n | _ => parity_read offset n end.
Definition write (offset : Z) (buf : bytes) : M () :=
  let* rel := gets released in
  let* cap := gets capacity in
  let* l := gets lvl in
  if rel : bool then fail Released
  else if cap <? offset + zlen buf then fail OutOfRange
  else match l with Layout.Raid1 => raid1_write offset buf | Layout.Raid10 => raid10_write offset buf | _ => parity_write offset buf end.
Definition flush_members : M () :=
  let* devs := gets (which attached) in
  let* rs := each (fun i => let* r := fl i in pure (i, r)) devs in
  try _ := settle rs in
  check_after_write.
(** [before]: the time bits idle since are cleared from, if there is one. *)
Definition flush (before : option Z) : M () :=
  let* rel := gets released in
  if rel : bool then fail Released
  else
    let* res := flush_members in
    let* keep := gets keeps_bitmap in
    (match res, before, keep with
     | Ok _, Some t, false =>
         let* n := (fun a => let '(n, b) := Intent.clear_idle (bm a) t in (n, set_bm b a)) in
         if 0 <? n then write_bitmap_pages ;; pure () else pure ()
     | _, _, _ => pure ()
     end) ;;
    persist_if_dirty ;; pure res.
End Engine.
