(* ===== verification/RaidFrame.v ===== *)
(** What the operations of the RAID engine may change: members only leave service, the data
    stay as they are where nothing is written, and the set stays whole. The superblocks, the
    bitmap and the failing of members leave a RAID set's data as they are; every operation
    of the engine keeps the set well formed. *)

From S2P Require Import Prelude Gf256 Parity ParityRecover RaidLayout IntentBitmap RaidSuper RaidArray.
#[local] Open Scope raid_scope.

(** ** Reading bytes of members *)

(** Byte [x] of a drive's data. *)
Definition dbyte (d : Device) (x : Z) : Z := at_byte (content d) (DATA_OFFSET + x).
Definition val_of (m : Member) (x : Z) : Z := from_option (fun d => dbyte d x) 0 (device m).
Definition val (a : RaidArray) (i x : Z) : Z := from_option (fun m => val_of m x) 0 (member a i).
(** How much of a member's data it holds. *)
Definition limit_of (size : Z) (m : Member) : Z :=
  if present m then match state m with Active => size | Rebuilding => rebuilt_to m | _ => 0 end else 0.
Definition limit (a : RaidArray) (i : Z) : Z := from_option (limit_of (dsize a)) 0 (member a i).

(** ** What stays the same *)

(** The fields no operation of these changes. *)
Record same_set (a a' : RaidArray) : Prop := {
  ss_lvl : lvl a' = lvl a; ss_unit : unit_size a' = unit_size a; ss_dsize : dsize a' = dsize a; ss_cap : capacity a' = capacity a;
  ss_len : length (members a') = length (members a); ss_info : info a' = info a; ss_rel : released a' = released a;
  ss_nbytes : Intent.nbytes (bm a') = Intent.nbytes (bm a) }.
(** One member after another: the same or failed, its data changed only where [W] says. *)
Record member_evolves (size : Z) (W : Z -> Prop) (m m' : Member) : Prop := {
  me_uuid : uuid m' = uuid m;
  me_present : present m' = present m;
  me_state : (state m' = state m /\ rebuilt_to m' = rebuilt_to m) \/ state m' = Failed;
  me_size d d' : device m = Some d -> device m' = Some d' -> zlen (content d') = zlen (content d);
  me_val x : 0 <= x < size -> ~ W x -> val_of m' x = val_of m x;
  me_byte x : 0 <= x < size -> byte (val_of m x) -> byte (val_of m' x) }.
Record evolves (W : Z -> Z -> Prop) (a a' : RaidArray) : Prop := {
  ev_same : same_set a a';
  ev_member i m m' : member a i = Some m -> member a' i = Some m' -> member_evolves (dsize a) (W i) m m';
  ev_intact : data_intact a = true -> data_intact a' = true }.
Definition nowhere (i x : Z) : Prop := False.

Lemma same_set_refl a : same_set a a.
Proof. by split. Qed.
Lemma same_set_trans a b c : same_set a b -> same_set b c -> same_set a c.
Proof. intros [] []. split; congruence. Qed.
Lemma member_evolves_refl size W m : member_evolves size W m m.
Proof. split; try done; [by left|congruence]. Qed.
Lemma present_device m m' d' : present m' = present m -> device m' = Some d' -> exists d, device m = Some d.
Proof. unfold present. intros H E. rewrite E in H. destruct (device m); [by eexists|done]. Qed.
Lemma member_evolves_trans size W m1 m2 m3 :
  member_evolves size W m1 m2 -> member_evolves size W m2 m3 -> member_evolves size W m1 m3.
Proof.
  intros [U1 P1 S1 Z1 V1 B1] [U2 P2 S2 Z2 V2 B2]. split; try congruence.
  - destruct S1 as [[S1 R1]|S1], S2 as [[S2 R2]|S2]; [left; split; congruence|by right|right; congruence|by right].
  - intros d d' H1 H3. destruct (present_device m2 m3 d' P2 H3) as (d2 & H2). rewrite (Z2 d2 d' H2 H3). by apply Z1.
  - intros x Hx HW. rewrite V2, V1; done.
  - auto.
Qed.
Lemma member_some a i m : member a i = Some m <-> 0 <= i /\ members a !! Z.to_nat i = Some m.
Proof. unfold member. destruct (Z.ltb_spec i 0); split; [done|lia|done|by intros []]. Qed.
Lemma member_range a i m : member a i = Some m -> 0 <= i < n_members a.
Proof. intros [Hi H%lookup_lt_Some]%member_some. unfold n_members, zlen. lia. Qed.
Lemma member_of_range a i : 0 <= i < n_members a -> exists m, member a i = Some m.
Proof.
  unfold n_members, zlen. intros Hi. destruct (lookup_lt_is_Some_2 (members a) (Z.to_nat i) ltac:(lia)) as [m Hm]. exists m.
  apply member_some. split; [lia|exact Hm].
Qed.
Lemma same_set_n a a' : same_set a a' -> n_members a' = n_members a.
Proof. intros H. unfold n_members, zlen. f_equal. apply H. Qed.
Lemma same_set_member a a' i m : same_set a a' -> member a i = Some m -> exists m', member a' i = Some m'.
Proof. intros H Hm%member_range. apply member_of_range. by rewrite (same_set_n _ _ H). Qed.
Lemma same_set_member_rev a a' i m' : same_set a a' -> member a' i = Some m' -> exists m, member a i = Some m.
Proof. intros H Hm%member_range. apply member_of_range. by rewrite <- (same_set_n _ _ H). Qed.
Lemma evolves_refl W a : evolves W a a.
Proof. split; [apply same_set_refl| |done]. intros i m m' H1 H2. assert (m' = m) as -> by congruence. apply member_evolves_refl. Qed.
Lemma evolves_trans W a b c : evolves W a b -> evolves W b c -> evolves W a c.
Proof.
  intros [S1 M1 I1] [S2 M2 I2]. split; [by eapply same_set_trans| |auto].
  intros i m m' H1 H3. destruct (same_set_member _ _ _ _ S1 H1) as (m2 & H2).
  eapply member_evolves_trans; [by eapply M1|]. rewrite <- (ss_dsize _ _ S1). by eapply M2.
Qed.
Lemma evolves_mono (W W' : Z -> Z -> Prop) a b : (forall i x, W i x -> W' i x) -> evolves W a b -> evolves W' a b.
Proof.
  intros H [S1 M1 I1]. split; [done| |done]. intros i m m' H1 H2. destruct (M1 i m m' H1 H2) as [? ? ? ? HV ?]. split; try done.
  intros x Hx HW. apply HV; [done|]. intros HW'. by apply HW, H.
Qed.
Lemma evolves_any W a b : evolves nowhere a b -> evolves W a b.
Proof. by apply evolves_mono. Qed.

Lemma ev_geometry W a a' : evolves W a a' -> geometry a' = geometry a.
Proof. intros [[] _ _]. unfold geometry, n_members, zlen. by f_equal; [|f_equal|]. Qed.
Lemma ev_lock_unit W a a' : evolves W a a' -> lock_unit a' = lock_unit a.
Proof. intros [[] _ _]. unfold lock_unit. by rewrite ss_lvl0, ss_unit0. Qed.
Lemma ev_dsize W a a' : evolves W a a' -> dsize a' = dsize a.
Proof. by intros [[] _ _]. Qed.
Lemma ev_n W a a' : evolves W a a' -> n_members a' = n_members a.
Proof. intros [[] _ _]. unfold n_members, zlen. by f_equal. Qed.
Lemma ev_limit W a a' i : evolves W a a' -> limit a' i = limit a i \/ limit a' i = 0.
Proof.
  intros [S1 M1 _]. unfold limit. rewrite (ss_dsize _ _ S1). destruct (member a' i) as [m'|] eqn:E'; [|by right].
  destruct (same_set_member_rev _ _ _ _ S1 E') as (m & E). rewrite E. cbn. destruct (M1 i m m' E E') as [_ P1 St _ _ _]. unfold limit_of.
  rewrite P1. destruct St as [[-> ->]| ->]; [by left|right; by destruct (present m)].
Qed.
Lemma ev_val W a a' i x : evolves W a a' -> 0 <= x < dsize a -> ~ W i x -> val a' i x = val a i x.
Proof.
  intros [S1 M1 _] Hx HW. unfold val. destruct (member a' i) as [m'|] eqn:E'.
  - destruct (same_set_member_rev _ _ _ _ S1 E') as (m & E). rewrite E. cbn. by apply (M1 i m m' E E').
  - destruct (member a i) as [m|] eqn:E; [|done]. destruct (same_set_member _ _ _ _ S1 E) as (m' & E2). by rewrite E' in E2.
Qed.

(** ** Arrays as the engine makes them *)

Definition level_ok (l : RaidLevel) (n : Z) : Prop :=
  match l with Layout.Raid1 => 1 <= n | Layout.Raid5 => 3 <= n | Layout.Raid6 => 4 <= n | Layout.Raid10 => 2 <= n /\ n mod 2 = 0 end.
Record wf (a : RaidArray) : Prop := {
  w_level : level_ok (lvl a) (n_members a) /\ n_members a <= MAX_SLOTS;
  w_unit : 0 < unit_size a /\ 0 <= dsize a;
  w_whole : lvl a <> Layout.Raid1 -> dsize a mod unit_size a = 0;
  w_capacity : capacity a = Layout.capacity (geometry a) (dsize a);
  w_uuids : zlen (i_array (info a)) = 16 /\ forall i m, member a i = Some m -> zlen (uuid m) = 16;
  w_bitmap : 0 <= Intent.nbytes (bm a) <= DATA_OFFSET - Intent.BITMAP_OFFSET;
  w_drives i m d : member a i = Some m -> device m = Some d ->
    DATA_OFFSET + dsize a <= zlen (content d) /\ forall x, 0 <= x < dsize a -> byte (dbyte d x);
  w_mark i m : member a i = Some m -> state m = Rebuilding ->
    0 <= rebuilt_to m <= dsize a /\ (rebuilt_to m mod lock_unit a = 0 \/ rebuilt_to m = dsize a);
  w_intact : data_intact a = true }.

Lemma wf_evolves W a a' : evolves W a a' -> wf a -> wf a'.
Proof.
  intros Hev [H1 H2 H3 HC H4 H5 H6 H7 H8]. pose proof (ev_lock_unit _ _ _ Hev) as El. pose proof (ev_n _ _ _ Hev) as En. pose proof (ev_geometry _ _ _ Hev) as Eg.
  destruct Hev as [S1 M1 I1]. destruct S1 as [s1 s2 s3 s4 s5 s6 s7 s8] eqn:ES. split; rewrite ?Eg, ?En, ?s1, ?s2, ?s3, ?s4, ?s6, ?s8; try done.
  - split; [apply H4|]. intros i m' E'. destruct (same_set_member_rev _ _ _ _ S1 E') as (m & E).
    rewrite (me_uuid _ _ _ _ (M1 i m m' E E')). by eapply H4.
  - intros i m' d' E' D'. destruct (same_set_member_rev _ _ _ _ S1 E') as (m & E). pose proof (M1 i m m' E E') as Me.
    destruct (present_device m m' d' (me_present _ _ _ _ Me) D') as (d & D). destruct (H6 i m d E D) as [Hz Hb].
    rewrite (me_size _ _ _ _ Me d d' D D'). split; [done|]. intros x Hx. pose proof (me_byte _ _ _ _ Me x Hx) as Hb'.
    unfold val_of in Hb'. rewrite D, D' in Hb'. cbn in Hb'. by apply Hb', Hb.
  - intros i m' E' St'. destruct (same_set_member_rev _ _ _ _ S1 E') as (m & E). pose proof (M1 i m m' E E') as Me. rewrite El.
    destruct (me_state _ _ _ _ Me) as [[Es ->]|Es]; [|congruence]. apply (H7 i m E). congruence.
  - by apply I1.
Qed.

(** An operation that keeps to [W]. *)
Definition keeps {A} (W : Z -> Z -> Prop) (m : S A) : Prop := forall a, wf a -> evolves W a (snd (m a)).
Lemma keeps_seq {A B} W (m : S A) (k : A -> S B) : keeps W m -> (forall x, keeps W (k x)) -> keeps W (seq m k).
Proof.
  intros H1 H2 a Ha. unfold seq. specialize (H1 a Ha). destruct (m a) as [x b]. cbn in H1. eapply evolves_trans; [exact H1|].
  apply H2. by eapply wf_evolves.
Qed.
Lemma keeps_pure {A} W (x : A) : keeps W (pure x).
Proof. intros a _. apply evolves_refl. Qed.
Lemma keeps_gets {A} W (f : RaidArray -> A) : keeps W (gets f).
Proof. intros a _. apply evolves_refl. Qed.
Lemma keeps_then {A B} W (m : M A) (k : A -> M B) : keeps W m -> (forall x, keeps W (k x)) -> keeps W (bind m k).
Proof. intros H1 H2. apply keeps_seq; [done|]. intros [x|e]; [apply H2|apply keeps_pure]. Qed.
Lemma keeps_each {A B} W (f : A -> S B) l : (forall x, x ∈ l -> keeps W (f x)) -> keeps W (each f l).
Proof.
  induction l as [|x l IH]; intros H; [apply keeps_pure|]. apply keeps_seq; [apply H; left|]. intros y.
  apply keeps_seq; [apply IH; intros z Hz; apply H; by right|]. intros ys. apply keeps_pure.
Qed.
Lemma keeps_mono {A} (W W' : Z -> Z -> Prop) (m : S A) : (forall i x, W i x -> W' i x) -> keeps W m -> keeps W' m.
Proof. intros H Hm a Ha. eapply evolves_mono; [exact H|]. by apply Hm. Qed.
Lemma keeps_any {A} W (m : S A) : keeps nowhere m -> keeps W m.
Proof. by apply keeps_mono. Qed.
(** Fields the members and the data do not depend on. *)
Lemma evolves_same_members W a a' : same_set a a' -> members a' = members a -> evolves W a a'.
Proof.
  intros S1 E. split; [done| |].
  - intros i m m' H1 H2. unfold member in *. rewrite E in H2. assert (m' = m) as -> by congruence. apply member_evolves_refl.
  - unfold data_intact, geometry, n_members, ok_at, member. by rewrite E, (ss_lvl _ _ S1), (ss_unit _ _ S1).
Qed.

(** ** Failing a member *)

Lemma count_cons {A} (f : A -> bool) x l : count f (x :: l) = (if f x then 1 else 0) + count f l.
Proof.
  unfold count. rewrite filter_cons. destruct (f x) eqn:E; [rewrite decide_True by done; by rewrite zlen_cons|rewrite decide_False by done; lia].
Qed.
Lemma count_le {A} (f : A -> bool) l : 0 <= count f l <= zlen l.
Proof. induction l as [|x l IH]; [done|]. rewrite count_cons, zlen_cons. destruct (f x); lia. Qed.
Lemma count_ext {A} (f g : A -> bool) l : (forall x, x ∈ l -> f x = g x) -> count f l = count g l.
Proof.
  induction l as [|x l IH]; intros H; [done|]. rewrite !count_cons, IH, (H x); [done|left|]. intros y Hy. apply H. by right.
Qed.
(** Counting without one of the list's elements. *)
Lemma count_without (f : Z -> bool) l x : NoDup l -> x ∈ l ->
  count f l = count f (filter (fun i => i <> x) l) + (if f x then 1 else 0).
Proof.
  induction l as [|y l IH]; intros Hn Hx; [by apply not_elem_of_nil in Hx|]. apply NoDup_cons in Hn as [Hy Hn].
  rewrite count_cons, filter_cons. destruct (decide (y <> x)) as [Hne|Heq].
  - rewrite count_cons. apply elem_of_cons in Hx as [->|Hx]; [done|]. rewrite IH by done. lia.
  - assert (y = x) as -> by lia. assert (filter (fun i => i <> x) l = l) as ->; [|lia].
    clear -Hy. induction l as [|z l IHl]; [done|]. rewrite filter_cons. rewrite decide_True by (intros ->; apply Hy; left).
    f_equal. apply IHl. intros H. apply Hy. by right.
Qed.
Lemma count_members (f : Member -> bool) a : count f (members a) = count (fun i => from_option f false (member a i)) (zrange 0 (n_members a)).
Proof.
  unfold member, n_members, zrange, zlen. rewrite Z.sub_0_r, Nat2Z.id.
  enough (forall l k, count f l = count (fun i => from_option f false (l !! (Z.to_nat i - k)%nat)) (zseq (Z.of_nat k) (length l))) as H.
  { rewrite (H (members a) 0%nat). apply count_ext. intros i Hi%elem_of_zseq. rewrite Nat.sub_0_r. destruct (Z.ltb_spec i 0); [lia|done]. }
  induction l as [|m l IH]; intros k; [done|]. cbn [length zseq]. rewrite !count_cons. rewrite Nat2Z.id, Nat.sub_diag. cbn [lookup from_option].
  f_equal. rewrite (IH (Datatypes.S k)), Nat2Z.inj_succ, <- Z.add_1_r. apply count_ext. intros i Hi%elem_of_zseq.
  replace (Z.to_nat i - k)%nat with (Datatypes.S (Z.to_nat i - Datatypes.S k)) by lia. done.
Qed.
Lemma not_ok_at a i m : member a i = Some m -> ok_at a i = ok_member m.
Proof. unfold ok_at. by intros ->. Qed.
Lemma lost_members a : count (fun m => negb (ok_member m)) (members a) = count (fun i => negb (ok_at a i)) (zrange 0 (n_members a)).
Proof.
  rewrite count_members. apply count_ext. intros i Hi%elem_of_zrange. destruct (member_of_range a i Hi) as [m E]. unfold ok_at. by rewrite E.
Qed.
Lemma testbit_1 k : 0 <= k -> Z.testbit 1 (Z.succ k) = false.
Proof. intros. change 1 with (2 * 0 + 1). by rewrite Z.testbit_odd_succ, Z.bits_0. Qed.
Lemma partner i : 0 <= i -> (i = 2 * (i / 2) /\ Z.lxor i 1 = 2 * (i / 2) + 1) \/ (i = 2 * (i / 2) + 1 /\ Z.lxor i 1 = 2 * (i / 2)).
Proof.
  intros Hi. pose proof (Z.div_mod i 2 ltac:(lia)) as Hd. pose proof (Z.mod_pos_bound i 2 ltac:(lia)) as Hb.
  set (q := i / 2) in *. assert (i mod 2 = 0 \/ i mod 2 = 1) as [Em|Em] by lia; rewrite Em in Hd; [left|right]; (split; [lia|]); rewrite Hd.
  - apply Z.bits_inj'. intros j Hj. rewrite Z.lxor_spec. destruct (Z.eq_dec j 0) as [->|Hj0].
    + rewrite Z.add_0_r, Z.testbit_even_0, Z.testbit_odd_0. done.
    + rewrite Z.add_0_r. replace j with (Z.succ (j - 1)) by lia. rewrite Z.testbit_even_succ, Z.testbit_odd_succ by lia.
      rewrite testbit_1 by lia. apply xorb_false_r.
  - apply Z.bits_inj'. intros j Hj. rewrite Z.lxor_spec. destruct (Z.eq_dec j 0) as [->|Hj0].
    + rewrite Z.testbit_even_0, Z.testbit_odd_0. done.
    + replace j with (Z.succ (j - 1)) by lia. rewrite Z.testbit_even_succ, Z.testbit_odd_succ by lia.
      rewrite testbit_1 by lia. apply xorb_false_r.
Qed.

Lemma members_intact a a' : lvl a' = lvl a -> unit_size a' = unit_size a -> n_members a' = n_members a ->
  (forall i, ok_at a i = true -> ok_at a' i = true) -> data_intact a = true -> data_intact a' = true.
Proof.
  intros El Eu En Hok H. unfold data_intact, geometry in *. rewrite El, Eu, En in *. destruct (lvl a) eqn:E.
  - apply existsb_exists in H as (m & Hin & Hm). apply list_elem_of_In, list_elem_of_lookup in Hin as (i & Hi).
    assert (member a (Z.of_nat i) = Some m) as Hmi by (apply member_some; split; [lia|by rewrite Nat2Z.id]).
    specialize (Hok (Z.of_nat i)). rewrite (not_ok_at _ _ _ Hmi) in Hok. specialize (Hok Hm). unfold ok_at in Hok.
    destruct (member a' (Z.of_nat i)) as [m'|] eqn:E'; [|done]. apply existsb_exists. exists m'. split; [|done].
    apply member_some in E' as [_ E']. by eapply list_elem_of_In, list_elem_of_lookup_2.
  - rewrite lost_members in *. rewrite En. bprop. apply Z.leb_le. etransitivity; [|exact H].
    generalize (zrange 0 (n_members a)). induction l as [|i l IH]; [done|]. rewrite !count_cons. specialize (Hok i).
    destruct (ok_at a i); [rewrite Hok by done|]; cbn [negb]; [lia|]. destruct (ok_at a' i); cbn [negb]; lia.
  - rewrite lost_members in *. rewrite En. bprop. apply Z.leb_le. etransitivity; [|exact H].
    generalize (zrange 0 (n_members a)). induction l as [|i l IH]; [done|]. rewrite !count_cons. specialize (Hok i).
    destruct (ok_at a i); [rewrite Hok by done|]; cbn [negb]; [lia|]. destruct (ok_at a' i); cbn [negb]; lia.
  - rewrite forallb_forall in *. intros p Hp. specialize (H p Hp). apply orb_true_iff in H as [H|H]; rewrite (Hok _ H); [done|apply orb_true_r].
Qed.

Lemma member_set_same a i m m0 : member a i = Some m0 -> member (set_member i m a) i = Some m.
Proof.
  intros [Hi H]%member_some. apply member_some. split; [done|]. cbn. apply list_lookup_insert_eq. by eapply lookup_lt_Some.
Qed.
Lemma member_set_other a i j m : 0 <= i -> i <> j -> member (set_member i m a) j = member a j.
Proof.
  intros Hi Hj. unfold member. destruct (Z.ltb_spec j 0); [done|]. cbn. apply list_lookup_insert_ne. lia.
Qed.
Lemma same_set_member_put a i m : same_set a (set_member i m a).
Proof. split; try done. cbn. apply length_insert. Qed.

(** One member replaced by what it became. *)
Lemma evolves_member W a i m m' : member a i = Some m -> member_evolves (dsize a) (W i) m m' ->
  (data_intact a = true -> data_intact (set_member i m' a) = true) -> evolves W a (set_member i m' a).
Proof.
  intros E Me HI. split; [apply same_set_member_put| |done]. intros j mj mj' H1 H2.
  pose proof (member_range _ _ _ E) as Hi. destruct (decide (i = j)) as [->|Hne].
  - rewrite (member_set_same _ _ _ _ E) in H2. assert (mj = m) as -> by congruence. by assert (mj' = m') as -> by congruence.
  - rewrite member_set_other in H2 by lia. assert (mj' = mj) as -> by congruence. apply member_evolves_refl.
Qed.
Lemma failed_evolves size W m b e : member_evolves size W m (mkMember (device m) Failed (uuid m) (rebuilt_to m) b e).
Proof. split; try done; [by right|cbn; congruence]. Qed.

(** The other members' service. *)
Lemma ok_others a i m' j : 0 <= i -> i <> j -> ok_at (set_member i m' a) j = ok_at a j.
Proof. intros Hi Hj. unfold ok_at. by rewrite member_set_other. Qed.
Lemma intact_without a i m m' : member a i = Some m -> can_lose a i = true -> data_intact a = true -> data_intact (set_member i m' a) = true.
Proof.
  intros E Hc H. pose proof (member_range _ _ _ E) as Hi. pose proof (same_set_member_put a i m') as S1. pose proof (same_set_n _ _ S1) as En.
  unfold data_intact, can_lose in *. cbn [lvl set_member set_members]. destruct (lvl a) eqn:El.
  - apply existsb_exists in Hc as (j & Hj & Hok). apply list_elem_of_In, list_elem_of_filter in Hj as [Hj _]. cbn in Hj.
    rewrite <- (ok_others a i m' j) in Hok by lia. unfold ok_at in Hok. destruct (member (set_member i m' a) j) as [mj|] eqn:Ej; [|done].
    apply existsb_exists. exists mj. split; [|done]. apply member_some in Ej as [_ Ej]. by eapply list_elem_of_In, list_elem_of_lookup_2.
  - rewrite lost_members, En. rewrite (count_without _ (zrange 0 (n_members a)) i) by (apply NoDup_zseq || by apply elem_of_zrange).
    unfold geometry in *. rewrite En. bprop. apply Z.leb_le. cbn [lvl unit_size set_member set_members].
    rewrite (count_ext _ (fun j => negb (ok_at a j))) by (intros j [Hj _]%list_elem_of_filter; by rewrite ok_others by lia).
    destruct (negb _); lia.
  - rewrite lost_members, En. rewrite (count_without _ (zrange 0 (n_members a)) i) by (apply NoDup_zseq || by apply elem_of_zrange).
    unfold geometry in *. rewrite En. bprop. apply Z.leb_le. cbn [lvl unit_size set_member set_members].
    rewrite (count_ext _ (fun j => negb (ok_at a j))) by (intros j [Hj _]%list_elem_of_filter; by rewrite ok_others by lia).
    destruct (negb _); lia.
  - rewrite En. apply forallb_forall. intros p Hp. pose proof (proj1 (forallb_forall _ _) H p Hp) as Hpp. cbn beta in Hpp.
    apply list_elem_of_In, elem_of_zrange in Hp. destruct (partner i ltac:(lia)) as [[P1 P2]|[P1 P2]]; rewrite P2 in Hc;
      (destruct (decide (p = i / 2)) as [->|Hne]; [|by rewrite !ok_others by lia]); rewrite <- (ok_others a i m') in Hc by lia; rewrite Hc.
    + apply orb_true_r.
    + done.
Qed.

Lemma fail_spec idx gone a : let '(ok, a') := fail_member_as idx gone a in
  evolves nowhere a a' /\ (ok = false -> a' = a) /\
  (ok = true -> exists m', member a' idx = Some m' /\ state m' = Failed) /\
  (forall j, j <> idx -> member a' j = member a j).
Proof.
  unfold fail_member_as. destruct (member a idx) as [m|] eqn:E; [|by split_and!; [apply evolves_refl| |done|]].
  case_bool_decide as Hf; [by split_and!; [apply evolves_refl| |done|]|].
  destruct (negb _ && negb _) eqn:Ec; [by split_and!; [apply evolves_refl| |done|]|].
  set (m' := mkMember _ _ _ _ _ _). pose proof (member_range _ _ _ E) as Hi. split_and!; [|done| |].
  - apply (evolves_trans _ _ (set_member idx m' a)); [|apply evolves_same_members; [by split|done]].
    apply (evolves_member nowhere a idx m m' E); [apply failed_evolves|]. intros H. apply andb_false_iff in Ec as [Ec|Ec].
    + apply negb_false_iff, bool_decide_eq_true in Ec. apply (members_intact a); [done|done|apply (same_set_n a), same_set_member_put| |done].
      intros j. destruct (decide (j = idx)) as [->|Hne]; [|by rewrite ok_others by lia].
      rewrite (not_ok_at _ _ _ E). unfold ok_member. rewrite Ec. by rewrite andb_false_r.
    + apply negb_false_iff in Ec. by eapply intact_without.
  - intros _. exists m'. split; [|done]. by eapply (member_set_same a).
  - intros j Hj. by apply (member_set_other a idx j m'); [lia|].
Qed.
Lemma keeps_fail W idx : keeps W (fail_member idx).
Proof. intros a _. pose proof (fail_spec idx false a) as H. unfold fail_member. destruct (fail_member_as idx false a). by apply evolves_any, H. Qed.

(** ** Operations of a drive *)

Lemma at_splice d off b x : 0 <= off -> off + zlen b <= zlen d -> 0 <= x ->
  at_byte (splice d off b) x = if (off <=? x) && (x <? off + zlen b) then at_byte b (x - off) else at_byte d x.
Proof.
  intros Ho Hz Hx. unfold at_byte, splice, zlen in *. rewrite !nth_lookup.
  destruct (Z.leb_spec off x); cbn [andb]; [destruct (Z.ltb_spec x (off + Z.of_nat (length b)))|].
  - rewrite lookup_app_r by (rewrite length_take; lia). rewrite length_take, lookup_app_l by lia. do 2 f_equal. lia.
  - rewrite lookup_app_r by (rewrite length_take; lia). rewrite length_take, lookup_app_r by lia. rewrite lookup_drop. do 2 f_equal. lia.
  - rewrite lookup_app_l by (rewrite length_take; lia). by rewrite lookup_take_lt by lia.
Qed.
(** What an operation of member [i]'s drive does to the array. *)
Lemma on_spec {A} i (f : Device -> result RaidError A * Device) a :
  on i f a = (Err Panic, a) \/
  exists m d r d', member a i = Some m /\ device m = Some d /\ f d = (r, d') /\ on i f a = (r, set_member i (set_device d' m) a).
Proof.
  unfold on. destruct (member a i) as [m|] eqn:E; [|by left]. destruct (device m) as [d|] eqn:D; [|by left]. right.
  destruct (f d) as [r d'] eqn:F. by exists m, d, r, d'.
Qed.
Lemma device_evolves size (W : Z -> Prop) m d d' : device m = Some d -> zlen (content d') = zlen (content d) ->
  (forall x, 0 <= x < size -> (~ W x -> dbyte d' x = dbyte d x) /\ (byte (dbyte d x) -> byte (dbyte d' x))) ->
  member_evolves size W m (set_device d' m).
Proof.
  intros D Hz Hx. split; try done.
  - unfold present. by rewrite D.
  - by left.
  - cbn. intros d0 d0' D0 [= <-]. by assert (d0 = d) as -> by congruence.
  - intros x Hr HW. unfold val_of. cbn. rewrite D. cbn. by apply Hx.
  - intros x Hr Hb. unfold val_of in *. cbn. rewrite D in Hb. cbn in *. by apply Hx.
Qed.
Lemma ok_set_device i m d d' a : member a i = Some m -> device m = Some d ->
  data_intact a = true -> data_intact (set_member i (set_device d' m) a) = true.
Proof.
  intros E D. apply members_intact; [done|done|apply (same_set_n a), same_set_member_put|]. intros j.
  pose proof (member_range _ _ _ E). destruct (decide (i = j)) as [->|Hne]; [|by rewrite ok_others by lia].
  unfold ok_at. rewrite (member_set_same _ _ _ _ E), E. cbn. unfold ok_member, present. by rewrite D.
Qed.
Lemma limit_set_device i m d' a j : member a i = Some m -> present m = true -> limit (set_member i (set_device d' m) a) j = limit a j.
Proof.
  intros E D. pose proof (member_range _ _ _ E). unfold limit. destruct (decide (i = j)) as [->|Hne].
  - rewrite (member_set_same _ _ _ _ E), E. cbn. unfold limit_of. cbn. by rewrite D.
  - by rewrite member_set_other by lia.
Qed.
Lemma val_set_device i m d' a x : member a i = Some m -> val (set_member i (set_device d' m) a) i x = dbyte d' x.
Proof. intros E. unfold val. by rewrite (member_set_same _ _ _ _ E). Qed.
Lemma val_here a i m d x : member a i = Some m -> device m = Some d -> val a i x = dbyte d x.
Proof. intros E D. unfold val, val_of. rewrite E. cbn. by rewrite D. Qed.
Lemma device_present m d : device m = Some d -> present m = true.
Proof. unfold present. by intros ->. Qed.

(** *** Only the faults to come change *)

Definition bare (m : Member) : Member :=
  mkMember (option_map (fun d => mkDevice (content d) []) (device m)) (state m) (uuid m) (rebuilt_to m) (missing m) (missing_at m).
Definition plans (a a' : RaidArray) : Prop := a' = set_members (members a') a /\ map bare (members a') = map bare (members a).
Lemma plans_refl a : plans a a.
Proof. split; [by destruct a|done]. Qed.
Lemma plans_trans a b c : plans a b -> plans b c -> plans a c.
Proof. intros [E1 H1] [E2 H2]. split; [|congruence]. rewrite E2. cbn. rewrite E1. done. Qed.
Lemma plans_member a a' i : plans a a' -> option_map bare (member a' i) = option_map bare (member a i).
Proof.
  intros [_ H]. unfold member. destruct (i <? 0); [done|]. rewrite <- !list_lookup_fmap. unfold fmap, list_fmap. by f_equal.
Qed.
Lemma plans_fields a a' : plans a a' -> lvl a' = lvl a /\ unit_size a' = unit_size a /\ dsize a' = dsize a /\ evts a' = evts a /\ sb_dirty a' = sb_dirty a
  /\ bm a' = bm a /\ released a' = released a /\ read_counter a' = read_counter a /\ capacity a' = capacity a /\ n_members a' = n_members a.
Proof. intros [E H]. rewrite E. cbn. split_and!; try done. unfold n_members, zlen. f_equal. cbn. apply (f_equal length) in H. by rewrite !length_map in H. Qed.
Lemma bare_holds e m m' : bare m' = bare m -> holds e m' = holds e m /\ attached m' = attached m /\ ok_member m' = ok_member m /\ present m' = present m /\ state m' = state m
  /\ rebuilt_to m' = rebuilt_to m /\ uuid m' = uuid m.
Proof.
  intros E. pose proof (f_equal device E) as D. pose proof (f_equal state E) as St. pose proof (f_equal rebuilt_to E) as R. pose proof (f_equal uuid E) as U. cbn in *.
  assert (present m' = present m) as P by (unfold present; destruct (device m), (device m'); done).
  unfold holds, attached, ok_member. rewrite P, St, R. split_and!; done.
Qed.
Lemma bare_map {B} (f : Member -> B) l l' : (forall m m', bare m' = bare m -> f m' = f m) -> map bare l' = map bare l -> map f l' = map f l.
Proof.
  intros Hf. revert l'. induction l as [|m l IH]; intros [|m' l'] E; try done. cbn [map] in *.
  pose proof (f_equal (hd (bare m)) E) as E1. pose proof (f_equal (@tl _) E) as E2. cbn in E1, E2. f_equal; [by apply Hf|by apply IH].
Qed.
Lemma plans_holders a a' e : plans a a' -> holders a' e = holders a e.
Proof. intros [_ H]. unfold holders. apply bare_map; [|done]. intros m m' E. by apply (bare_holds e). Qed.
Lemma bare_val m m' x : bare m' = bare m -> val_of m' x = val_of m x.
Proof.
  intros E. pose proof (f_equal device E) as D. cbn in D. unfold val_of, dbyte.
  destruct (device m) as [d|], (device m') as [d'|]; cbn in *; try done. by injection D as ->.
Qed.
Lemma plans_val a a' i x : plans a a' -> val a' i x = val a i x.
Proof.
  intros H%(plans_member a a' i). unfold val. destruct (member a i) as [m|], (member a' i) as [m'|]; cbn in *; try done.
  apply bare_val. congruence.
Qed.
Lemma plans_limit a a' i : plans a a' -> limit a' i = limit a i.
Proof.
  intros Hp. pose proof (plans_member a a' i Hp) as H. destruct (plans_fields _ _ Hp) as (_ & _ & Ed & _). unfold limit. rewrite Ed.
  destruct (member a i) as [m|], (member a' i) as [m'|]; cbn in *; try done.
  assert (bare m' = bare m) as E by congruence. destruct (bare_holds 0 _ _ E) as (_ & _ & _ & P & St & R & _). unfold limit_of. by rewrite P, St, R.
Qed.
Lemma plans_put a i m d d' : member a i = Some m -> device m = Some d -> content d' = content d -> plans a (set_member i (set_device d' m) a).
Proof.
  intros [Hi E]%member_some D Hc. split; [done|]. cbn.
  change (bare <$> <[Z.to_nat i := set_device d' m]> (members a) = bare <$> members a). rewrite list_fmap_insert.
  apply list_insert_id. rewrite list_lookup_fmap, E. cbn. f_equal. unfold bare. cbn. by rewrite D, Hc.
Qed.
Lemma plans_evolves W a a' : plans a a' -> evolves W a a'.
Proof.
  intros Hp. destruct (plans_fields _ _ Hp) as (E1 & E2 & E3 & E4 & E5 & E6 & E7 & E8 & E9 & E10).
  assert (same_set a a') as S1.
  { split; try done; [|by destruct Hp as [-> _]|by rewrite E6]. unfold n_members, zlen in E10. lia. }
  split; [done| |].
  - intros i m m' H1 H2. pose proof (plans_member a a' i Hp) as H. rewrite H1, H2 in H. apply (inj Some) in H as Eb.
    destruct (bare_holds 0 m m' Eb) as (_ & _ & _ & P & St & R & U). split; try done.
    + by left.
    + intros d d' D D'. pose proof (f_equal device Eb) as Ed. cbn in Ed. rewrite D, D' in Ed. cbn in Ed. by injection Ed as ->.
    + intros x _ _. by apply bare_val.
    + intros x _. by rewrite (bare_val m m').
  - apply members_intact; [done..|]. intros i. unfold ok_at. pose proof (plans_member a a' i Hp) as H.
    destruct (member a i) as [m|], (member a' i) as [m'|]; try done. apply (inj Some) in H as Eb. cbn. by destruct (bare_holds 0 _ _ Eb) as (_ & _ & -> & _).
Qed.

Lemma next_fault_content d : content (snd (next_fault d)) = content d.
Proof. done. Qed.
Lemma rd_plans i off n a : plans a (snd (rd i off n a)).
Proof.
  unfold rd. destruct (on_spec i (dev_read off n) a) as [->|(m & d & r & d' & E & D & F & ->)]; [apply plans_refl|].
  cbn. apply (plans_put a i m d d' E D). unfold dev_read in F. by injection F as _ <-.
Qed.
Lemma fl_plans i a : plans a (snd (fl i a)).
Proof.
  unfold fl. destruct (on_spec i dev_flush a) as [->|(m & d & r & d' & E & D & F & ->)]; [apply plans_refl|].
  cbn. apply (plans_put a i m d d' E D). unfold dev_flush in F. by injection F as _ <-.
Qed.
(** What a read of a member's data gives. *)
Lemma rd_val i off n a b : fst (rd i (DATA_OFFSET + off) n a) = Ok b -> 0 <= off -> 0 <= n -> b = tab n (fun j => val a i (off + j)).
Proof.
  unfold rd. destruct (on_spec i (dev_read (DATA_OFFSET + off) n) a) as [->|(m & d & r & d' & E & D & F & ->)]; [done|].
  cbn. intros -> Ho Hn. unfold dev_read, next_fault in F. cbn in F. destruct (default None (head (faults d))); [done|].
  destruct (Z.ltb_spec (zlen (content d)) (DATA_OFFSET + off + n)) as [|Hz]; [done|]. injection F as F _. subst b.
  unfold DATA_OFFSET in *. rewrite slice_as_map by lia. unfold tab, zrange.
  replace (1024 * 1024 + off + n - (1024 * 1024 + off)) with n by lia. rewrite Z.sub_0_r.
  assert (forall k p, map (at_byte (content d)) (zseq (1024 * 1024 + off + p) k) = map (fun j => val a i (off + j)) (zseq p k)) as H.
  { induction k as [|k IH]; intros p; [done|]. cbn [zseq map]. rewrite (val_here a i m d) by done. unfold dbyte, DATA_OFFSET. f_equal; [f_equal; lia|].
    rewrite <- IH. do 2 f_equal. lia. }
  rewrite <- (H (Z.to_nat n) 0). by rewrite Z.add_0_r.
Qed.

(** Writes outside the data, and in it. *)
Lemma wr_low i off b a : wf a -> 0 <= off -> off + zlen b <= DATA_OFFSET -> evolves nowhere a (snd (wr i off b a)).
Proof.
  intros Hw Ho Hz. unfold wr. destruct (on_spec i (dev_write off b) a) as [->|(m & d & r & d' & E & D & F & ->)]; [apply evolves_refl|].
  cbn. destruct (w_drives _ Hw i m d E D) as [Hs _]. destruct (w_unit _ Hw) as [_ Hd]. pose proof (zlen_nonneg b).
  assert (zlen (content d') = zlen (content d) /\ forall x, 0 <= x -> dbyte d' x = dbyte d x) as [Hzz Hv].
  { unfold dev_write, next_fault in F. cbn in F. destruct (Z.ltb_spec (zlen (content d)) (off + zlen b)); [by injection F as _ <-|].
    destruct (default None (head (faults d))) as [kept|]; injection F as _ <-; cbn [content].
    - set (p := partly _ _ _). assert (zlen p = zlen b) as Hp by (unfold p; rewrite zlen_partly, zlen_slice; lia).
      split; [apply zlen_splice; lia|]. intros x Hx. unfold dbyte. cbn [content]. rewrite at_splice by (unfold DATA_OFFSET in *; lia).
      rewrite Hp. destruct (Z.leb_spec off (DATA_OFFSET + x)), (Z.ltb_spec (DATA_OFFSET + x) (off + zlen b)); cbn [andb]; [lia|done..].
    - split; [apply zlen_splice; lia|]. intros x Hx. unfold dbyte. cbn [content]. rewrite at_splice by (unfold DATA_OFFSET in *; lia).
      destruct (Z.leb_spec off (DATA_OFFSET + x)), (Z.ltb_spec (DATA_OFFSET + x) (off + zlen b)); cbn [andb]; [lia|done..]. }
  eapply evolves_member; [exact E| |by eapply ok_set_device]. eapply device_evolves; [exact D|exact Hzz|].
  intros x Hx. rewrite Hv by lia. by split.
Qed.
(** The places a write to member [m] covers. *)
Definition covers (m off n i x : Z) : Prop := i = m /\ off <= x < off + n.
Lemma wr_data i off b a : wf a -> 0 <= off -> off + zlen b <= dsize a -> all_bytes b ->
  let '(r, a') := wr i (DATA_OFFSET + off) b a in
  evolves (covers i off (zlen b)) a a' /\ (forall j, limit a' j = limit a j) /\
  (forall j, j <> i -> member a' j = member a j) /\ (forall e, holders a' e = holders a e) /\ released a' = released a /\
  (r = Ok () -> forall x, off <= x < off + zlen b -> val a' i x = at_byte b (x - off)).
Proof.
  intros Hw Ho Hz Hb. unfold wr.
  destruct (on_spec i (dev_write (DATA_OFFSET + off) b) a) as [->|(m & d & r & d' & E & D & F & ->)]; [by split_and!; [apply evolves_refl| | | | |]|].
  destruct (w_drives _ Hw i m d E D) as [Hs Hdb]. pose proof (zlen_nonneg b). pose proof (member_range _ _ _ E) as Hi.
  assert (zlen (content d') = zlen (content d) /\ (forall x, 0 <= x -> ~ (off <= x < off + zlen b) -> dbyte d' x = dbyte d x) /\
    (forall x, off <= x < off + zlen b -> byte (dbyte d' x)) /\
    (r = Ok () -> forall x, off <= x < off + zlen b -> dbyte d' x = at_byte b (x - off))) as (Hzz & Hv & Hbb & Hn).
  { unfold dev_write, next_fault in F. cbn in F. destruct (Z.ltb_spec (zlen (content d)) (DATA_OFFSET + off + zlen b)); [lia|].
    assert (forall p x, zlen p = zlen b -> 0 <= x -> dbyte (mkDevice (splice (content d) (DATA_OFFSET + off) p) (tl (faults d))) x
      = if decide (off <= x < off + zlen b) then at_byte p (x - off) else dbyte d x) as Hsp.
    { intros p x Hp Hx. unfold dbyte. cbn [content]. rewrite at_splice by (unfold DATA_OFFSET in *; lia). rewrite Hp.
      destruct (Z.leb_spec (DATA_OFFSET + off) (DATA_OFFSET + x)), (Z.ltb_spec (DATA_OFFSET + x) (DATA_OFFSET + off + zlen b)); cbn [andb]; case_decide; try lia; try done.
      f_equal. lia. }
    destruct (default None (head (faults d))) as [kept|]; injection F as <- <-; cbn [content].
    - set (old := slice (DATA_OFFSET + off) (zlen b) (content d)). set (p := partly kept old b).
      assert (zlen old = zlen b) as Hold by (apply zlen_slice; unfold DATA_OFFSET in *; lia). assert (zlen p = zlen b) as Hp by (unfold p; by rewrite zlen_partly).
      split; [apply zlen_splice; unfold DATA_OFFSET in *; lia|]. split; [|split; [|done]].
      + intros x Hx Hn. by rewrite Hsp, decide_False by done.
      + intros x Hx. rewrite Hsp, decide_True by (done || lia). unfold p. destruct (partly_byte kept old b (x - off)) as [->| ->]; [done|lia| |].
        * unfold old. rewrite at_byte_slice by (unfold DATA_OFFSET in *; lia). replace (DATA_OFFSET + off + (x - off)) with (DATA_OFFSET + x) by lia. apply Hdb. lia.
        * by apply at_byte_byte.
    - split; [apply zlen_splice; unfold DATA_OFFSET in *; lia|]. split; [|split].
      + intros x Hx Hn. by rewrite Hsp, decide_False by done.
      + intros x Hx. rewrite Hsp, decide_True by (done || lia). by apply at_byte_byte.
      + intros _ x Hx. by rewrite Hsp, decide_True by (done || lia). }
  split_and!.
  - eapply evolves_member; [exact E| |by eapply ok_set_device]. eapply device_evolves; [exact D|exact Hzz|]. intros x Hx.
    destruct (decide (off <= x < off + zlen b)) as [Hin|Hout].
    + split; [intros HW; exfalso; by apply HW|]. intros _. by apply Hbb.
    + rewrite Hv by (done || lia). by split.
  - intros j. apply limit_set_device; [done|by eapply device_present].
  - intros j Hj. apply member_set_other; lia.
  - intros e. unfold holders. cbn. change (map (holds e)) with (fmap (holds e) : list Member -> list bool). rewrite list_fmap_insert. apply list_insert_id.
    apply member_some in E as [_ E]. rewrite list_lookup_fmap, E. cbn. f_equal. unfold holds, present. cbn. by rewrite D.
  - done.
  - intros Hr x Hx. rewrite (val_set_device i m d' a x E). by apply Hn.
Qed.

#[local] Open Scope raid_scope.

Lemma keeps_look {A B} W (f : RaidArray -> A) (k : A -> S B) : (forall a, wf a -> evolves W a (snd (k (f a) a))) -> keeps W (seq (gets f) k).
Proof. intros H a Ha. by apply H. Qed.
Lemma keeps_modify W (f : RaidArray -> RaidArray) : (forall a, same_set a (f a) /\ members (f a) = members a) -> keeps W (modify f).
Proof. intros H a _. destruct (H a) as [H1 H2]. by apply evolves_same_members. Qed.
Lemma keeps_rd W i off n : keeps W (rd i off n).
Proof. intros a _. apply plans_evolves, rd_plans. Qed.
Lemma keeps_fl W i : keeps W (fl i).
Proof. intros a _. apply plans_evolves, fl_plans. Qed.
Lemma keeps_settle W rs : keeps W (settle rs).
Proof.
  induction rs as [|[i [[]|e]] rs IH]; cbn [settle]; [apply keeps_pure|exact IH|]. apply keeps_seq; [apply keeps_fail|intros [|]; [exact IH|apply keeps_pure]].
Qed.
Lemma keeps_settle_round W rs : forall again, keeps W (settle_round again rs).
Proof.
  induction rs as [|[i [[]|e]] rs IH]; intros again; cbn [settle_round]; [apply keeps_pure|apply IH|].
  apply keeps_seq; [apply keeps_fail|intros [|]; [apply IH|apply keeps_pure]].
Qed.
Lemma keeps_write_flush W i off b : 0 <= off -> off + zlen b <= DATA_OFFSET -> keeps W (write_flush i off b).
Proof.
  intros Ho Hz. apply keeps_then; [|intros _; apply keeps_fl]. intros a Ha. apply evolves_any. by apply wr_low.
Qed.
Lemma keeps_if {A} W (b : bool) (m k : S A) : keeps W m -> keeps W k -> keeps W (if b then m else k).
Proof. by destruct b. Qed.

(** ** The length of a superblock *)

Lemma zlen_slot_bytes s : zlen (r_uuid s) = 16 -> zlen (slot_bytes s) = 32.
Proof. intros H. unfold slot_bytes. rewrite !zlen_app, !zlen_le_bytes, H. done. Qed.
Lemma zlen_put_str s : zlen (put_str s) = NAME_LEN.
Proof.
  unfold put_str. rewrite zlen_app. set (t := take _ s). assert (zlen t <= NAME_LEN) by (unfold t, zlen, NAME_LEN; rewrite length_take; lia).
  rewrite zlen_zeros; lia.
Qed.
Lemma slot_fields_bounds l : forall at_, Forall (fun s => zlen (r_uuid s) = 16) l -> 0 <= at_ -> at_ + 32 * zlen l <= 4092 ->
  in_bounds 4096 (shape (slot_fields at_ l)) = true.
Proof.
  induction l as [|s l IH]; intros at_ Hf Ha Hz; [done|]. apply Forall_cons in Hf as [Hs Hf]. rewrite zlen_cons in Hz. pose proof (zlen_nonneg l).
  cbn [slot_fields shape map in_bounds forallb fst snd]. rewrite zlen_slot_bytes by done. fold (shape (slot_fields (at_ + SLOT_BYTES) l)).
  fold (in_bounds 4096 (shape (slot_fields (at_ + SLOT_BYTES) l))). rewrite IH by (done || unfold SLOT_BYTES; lia).
  rewrite !andb_true_iff, !Z.leb_le. lia.
Qed.
Lemma in_bounds_app size a b : in_bounds size (a ++ b) = in_bounds size a && in_bounds size b.
Proof. unfold in_bounds. apply forallb_app. Qed.
Lemma shape_app a b : shape (a ++ b) = shape a ++ shape b.
Proof. unfold shape. apply map_app. Qed.
Lemma zlen_to_bytes crc s b : zlen (array_uuid s) = 16 -> zlen (member_uuid s) = 16 -> Forall (fun r => zlen (r_uuid r) = 16) (slots s) ->
  to_bytes crc s = Some b -> zlen b = SUPERBLOCK_BYTES.
Proof.
  intros H1 H2 H3. unfold to_bytes. destruct (Z.ltb_spec MAX_SLOTS (zlen (slots s))) as [|Hm]; [done|]. cbv zeta. intros E. apply (inj Some) in E. subst b.
  assert (zlen (write_all (zeros SUPERBLOCK_BYTES) (fields s ++ slot_fields SLOT_TABLE (slots s))) = SUPERBLOCK_BYTES) as Hz.
  { apply zlen_write_all; [done|]. rewrite shape_app, in_bounds_app. apply andb_true_iff. split.
    - unfold fields, shape. cbn [map fst snd]. rewrite H1, H2, !zlen_put_str, !zlen_le_bytes. done.
    - apply slot_fields_bounds; [done|done|]. unfold SLOT_TABLE, MAX_SLOTS in *. lia. }
  rewrite zlen_splice; rewrite ?zlen_le_bytes, ?Hz; unfold CRC_AT, SUPERBLOCK_BYTES; lia.
Qed.

Lemma mapM_Forall {A B} (f : A -> option B) (P : B -> Prop) l l' : (forall x y, x ∈ l -> f x = Some y -> P y) -> mapM f l = Some l' -> Forall P l'.
Proof.
  intros H E%mapM_Some_1. apply Forall_forall. intros y Hy. apply list_elem_of_lookup in Hy as (k & Hk).
  destruct (Forall2_lookup_r _ _ _ _ _ E Hk) as (x & Hx & Hf). eapply H; [|exact Hf]. by eapply list_elem_of_lookup_2.
Qed.

Section Keeps.
Context (crc32c : bytes -> Z).

Lemma superblock_length a i e b : wf a -> i ∈ which attached a -> to_bytes crc32c (superblock_for a i e) = Some b -> zlen b = SUPERBLOCK_BYTES.
Proof.
  intros Hw [Hi Hr%elem_of_zrange]%list_elem_of_filter. destruct (w_uuids _ Hw) as [Ha Hu].
  apply zlen_to_bytes; [done| |].
  - cbn. destruct (member a i) as [m|] eqn:E; [|done]. by apply (Hu i).
  - cbn. apply Forall_map, Forall_forall. intros m Hm. cbn. apply list_elem_of_lookup in Hm as (k & Hk).
    apply (Hu (Z.of_nat k)). apply member_some. split; [lia|by rewrite Nat2Z.id].
Qed.
Lemma keeps_rounds W fuel : keeps W (superblock_rounds crc32c fuel).
Proof.
  induction fuel as [|fuel IH]; cbn [superblock_rounds]; [apply keeps_pure|].
  apply keeps_seq; [by apply keeps_modify|intros _]. apply keeps_look. intros a Ha.
  destruct (mapM _ (which attached a)) as [ws|] eqn:Em; [|apply evolves_refl].
  assert (Forall (fun w => zlen (snd w) = SUPERBLOCK_BYTES) ws) as Hl.
  { eapply mapM_Forall; [|exact Em]. intros i w Hi Hw. cbn beta in Hw.
    destruct (to_bytes crc32c (superblock_for a i (evts a))) as [b|] eqn:Eb; cbn in Hw; [|discriminate Hw]. injection Hw as <-. by eapply superblock_length. }
  revert a Ha Em. enough (keeps W (let* rs := each (fun w => let* r := write_flush (fst w) 0 (snd w) in pure (fst w, r)) ws in
          try again := settle_round false rs in if again : bool then superblock_rounds crc32c fuel else ret ())) as H by (intros a Ha _; by apply H).
  apply keeps_seq; [|intros rs; apply keeps_then; [apply keeps_settle_round|intros [|]; [exact IH|apply keeps_pure]]].
  apply keeps_each. intros w Hw. rewrite Forall_forall in Hl. apply keeps_seq; [|intros r; apply keeps_pure].
  apply keeps_write_flush; [done|]. rewrite (Hl w Hw). done.
Qed.
Lemma keeps_write_superblocks W : keeps W (write_superblocks crc32c).
Proof. apply keeps_seq; [apply keeps_gets|intros [|]; [apply keeps_pure|apply keeps_rounds]]. Qed.
Lemma keeps_persist W : keeps W (persist_if_dirty crc32c).
Proof.
  apply keeps_seq; [apply keeps_gets|intros [|]; [|apply keeps_pure]]. apply keeps_seq; [apply keeps_write_superblocks|intros _; apply keeps_pure].
Qed.

Lemma keeps_zero_each W zs l : Intent.BITMAP_OFFSET + zlen zs <= DATA_OFFSET -> keeps W (zero_each zs l).
Proof.
  intros Hz. induction l as [|i l IH]; cbn [zero_each]; [apply keeps_pure|].
  apply keeps_seq; [intros a Ha; apply evolves_any; by apply wr_low|]. intros [[]|e]; [exact IH|].
  apply keeps_seq; [apply keeps_fail|intros [|]; [exact IH|apply keeps_pure]].
Qed.
Lemma keeps_zero_bitmaps W only : keeps W (zero_bitmaps only).
Proof.
  unfold zero_bitmaps. apply keeps_seq; [apply keeps_gets|intros [|]; [apply keeps_pure|]]. apply keeps_seq; [apply keeps_gets|intros devs].
  apply keeps_look. intros a Ha. apply keeps_zero_each; [|exact Ha]. destruct (w_bitmap _ Ha). rewrite zlen_zeros; lia.
Qed.

(** ** The bitmap *)

Lemma nbytes_foldl {A} (f : Intent.State -> A -> Intent.State) b l : Intent.nbytes (Intent.with_state b (foldl f (Intent.state b) l)) = Intent.nbytes b.
Proof. done. Qed.
Lemma keeps_put_pages W i w : Forall (fun pb => 0 <= fst pb /\ Intent.BITMAP_OFFSET + fst pb * Intent.PAGE + zlen (snd pb) <= DATA_OFFSET) w -> keeps W (put_pages i w).
Proof.
  induction 1 as [|[p b] w [Hp Hz] _ IH]; cbn [put_pages]; [apply keeps_fl|]. apply keeps_then; [|intros _; exact IH].
  intros a Ha. apply evolves_any. cbn [fst snd] in *. apply wr_low; [done| |lia]. unfold Intent.BITMAP_OFFSET, Intent.PAGE in *. lia.
Qed.
Lemma pending_pages a : wf a -> Forall (fun pb => 0 <= fst pb /\ Intent.BITMAP_OFFSET + fst pb * Intent.PAGE + zlen (snd pb) <= DATA_OFFSET) (Intent.pending (bm a)).
Proof.
  intros Ha. destruct (w_bitmap _ Ha) as [H1 H2]. apply Forall_map, Forall_forall. intros p [_ Hp%elem_of_zrange]%list_elem_of_filter. cbn. split; [lia|].
  assert (zlen (Intent.page (Intent.wanted (Intent.state (bm a))) p) <= Intent.PAGE) as Hl.
  { unfold Intent.page, slice, zlen. rewrite length_take. unfold Intent.PAGE. lia. }
  unfold Intent.PAGE, Intent.BITMAP_OFFSET in *. pose proof (Z.mul_div_le (Intent.nbytes (bm a)) 4096 ltac:(lia)). lia.
Qed.
Lemma keeps_write_bitmap_pages W : keeps W write_bitmap_pages.
Proof.
  apply keeps_seq; [apply keeps_gets|intros [|]; [apply keeps_pure|]]. apply keeps_look. intros a Ha. pose proof (pending_pages a Ha) as Hp.
  destruct (Intent.pending (bm a)) as [|w ws]; [apply evolves_refl|].
  refine (keeps_seq W (gets (which attached)) _ (keeps_gets W _) _ a Ha). intros devs.
  apply keeps_seq; [apply keeps_each; intros i _; apply keeps_seq; [by apply keeps_put_pages|intros; apply keeps_pure]|intros rs].
  apply keeps_then; [apply keeps_settle|intros _]. destruct (any_ok rs); [|apply keeps_pure].
  apply keeps_seq; [|intros _; apply keeps_pure]. apply keeps_modify. intros b. by split.
Qed.
Lemma keeps_intent_end W r : keeps W (intent_end r).
Proof. apply keeps_modify. intros a. by split. Qed.
Lemma keeps_until_durable W r fuel : keeps W (until_durable fuel r).
Proof.
  induction fuel as [|fuel IH]; cbn [until_durable]; apply keeps_seq; try apply keeps_gets; intros [[|]|]; try apply keeps_pure.
  apply keeps_seq; [apply keeps_write_bitmap_pages|]. intros [[]|e]; [exact IH|].
  apply keeps_seq; [apply keeps_intent_end|intros _; apply keeps_pure].
Qed.
Lemma begin_nbytes b r need b' : Intent.begin b r = Some (need, b') -> Intent.nbytes b' = Intent.nbytes b.
Proof. unfold Intent.begin. destruct (foldl _ _ _) as [[x y]|]; [|done]. by intros [= <- <-]. Qed.
Lemma keeps_intent_begin W r : keeps W (intent_begin r).
Proof.
  apply keeps_look. intros a Ha. destruct (Intent.begin (bm a) r) as [[need b]|] eqn:E; [|apply evolves_refl].
  assert (evolves W a (set_bm b a)) as Hev by (apply evolves_same_members; [split; try done; by apply (begin_nbytes _ _ _ _ E)|done]).
  unfold seq, modify. destruct need; [|exact Hev]. eapply evolves_trans; [exact Hev|]. apply (keeps_until_durable W r 1). by eapply wf_evolves.
Qed.
Lemma keeps_with_intent W r m : keeps W m -> keeps W (with_intent crc32c r m).
Proof.
  intros H. apply keeps_then; [apply keeps_intent_begin|intros _]. apply keeps_seq; [exact H|intros res].
  apply keeps_seq; [apply keeps_intent_end|intros _]. apply keeps_seq; [apply keeps_persist|intros _; apply keeps_pure].
Qed.
End Keeps.
