(* ===== verification/RaidModel.v ===== *)
(** What the members of a RAID set hold for the bytes of the array, and the reading of a
    column of a stripe. What reading and rewriting a column of a stripe relies on, whatever
    the strips say: the lengths of what recovery and the parity routines give back. *)

From S2P Require Import Prelude Gf256 Parity ParityKernels ParityRecover RaidLayout IntentBitmap RaidSuper RaidArray RaidFrame.
#[local] Open Scope raid_scope.

(** ** Contents *)

(** The array's bytes, by address. *)
Abbreviation store := (Z -> Z).
Definition store_bytes (v : store) : Prop := forall x, byte (v x).
Definition overlay (v : store) (off : Z) (buf : bytes) : store :=
  fun x => if decide (off <= x < off + zlen buf) then at_byte buf (x - off) else v x.
(** The address of byte [o] of data strip [d] of a stripe, and the bytes at [o] of all
    the stripe's strips. *)
Definition addr (g : Geometry) (s d o : Z) : Z := s * Layout.stripe_bytes g + d * Layout.unit_ g + o.
Definition column (g : Geometry) (v : store) (s o : Z) : list Z := map (fun d => v (addr g s d o)) (zrange 0 (Layout.data_count g)).
(** Byte [x] of member [i]'s data. *)
Definition expected (g : Geometry) (v : store) (i x : Z) : Z :=
  let s := x / Layout.unit_ g in
  let o := x mod Layout.unit_ g in
  match Layout.level g with
  | Layout.Raid1 => v x
  | Layout.Raid10 => v (addr g s (Layout.pair_of i) o)
  | _ =>
      match Layout.role_of g s i with
      | Layout.Data d => v (addr g s d o)
      | Layout.P => xsum (column g v s o)
      | Layout.Q => horner (column g v s o)
      end
  end.
(** The lock unit an address is in. *)
Definition key_at (a : RaidArray) (y : Z) : Z :=
  if bool_decide (lvl a = Layout.Raid1) then y / MIRROR_UNIT else y / Layout.stripe_bytes (geometry a).
(** The members agree on unit [k]: each holds what it should as far as it holds data. *)
Definition unit_ok (a : RaidArray) (v : store) (k : Z) : Prop :=
  forall i x, 0 <= i < n_members a -> 0 <= x < dsize a -> x / lock_unit a = k -> x < limit a i -> val a i x = expected (geometry a) v i x.
(** The set holds [v], but for the units [torn]. *)
Record Holds (a : RaidArray) (v : store) (torn : Z -> Prop) : Prop := {
  h_wf : wf a;
  h_bytes : store_bytes v;
  h_units k : ~ torn k -> unit_ok a v k }.

Lemma overlay_bytes v off buf : store_bytes v -> all_bytes buf -> store_bytes (overlay v off buf).
Proof. intros Hv Hb x. unfold overlay. case_decide; [by apply at_byte_byte|apply Hv]. Qed.

Lemma lock_unit_pos a : wf a -> 0 < lock_unit a.
Proof. intros Hw. unfold lock_unit. destruct (w_unit _ Hw). case_bool_decide; [done|lia]. Qed.
Lemma wf_geo a : wf a -> geo_ok (geometry a).
Proof.
  intros Hw. destruct (w_unit _ Hw) as [Hu _]. destruct (w_level _ Hw) as [Hl _]. split; [|done].
  unfold enough, geometry, level_ok in *. cbn. destruct (lvl a); lia.
Qed.
Lemma wf_parity a : wf a -> Layout.is_parity (geometry a) = true -> parity_ok (geometry a).
Proof. intros Hw Hp. split; [done|]. by apply wf_geo. Qed.

(** *** Addresses *)

Lemma div_unique_pos a b q : 0 < b -> q * b <= a < (q + 1) * b -> a / b = q.
Proof. intros Hb H. symmetry. apply (Z.div_unique a b q (a - q * b)); lia. Qed.
Lemma addr_stripe g s d o : geo_ok g -> 0 <= d < Layout.data_count g -> 0 <= o < Layout.unit_ g -> addr g s d o / Layout.stripe_bytes g = s.
Proof.
  intros [He Hu] Hd Ho. apply div_unique_pos; unfold addr, Layout.stripe_bytes in *; nia.
Qed.
Lemma expected_ext a v v' i x : wf a -> 0 <= i < n_members a ->
  (forall y, key_at a y = x / lock_unit a -> v' y = v y) -> expected (geometry a) v' i x = expected (geometry a) v i x.
Proof.
  intros Hw Hi H. pose proof (wf_geo a Hw) as Hg. destruct (w_unit _ Hw) as [Hu _]. destruct (w_level _ Hw) as [Hl _].
  unfold expected. set (s := x / Layout.unit_ (geometry a)). set (o := x mod Layout.unit_ (geometry a)).
  assert (0 <= o < unit_size a) as Ho by (apply Z.mod_pos_bound; done). unfold key_at, lock_unit in H.
  assert (lvl a <> Layout.Raid1 -> forall d, 0 <= d < Layout.data_count (geometry a) -> v' (addr (geometry a) s d o) = v (addr (geometry a) s d o)) as HA.
  { intros Hn d Hd. apply H. rewrite !bool_decide_false by done. by apply addr_stripe. }
  assert (lvl a <> Layout.Raid1 -> column (geometry a) v' s o = column (geometry a) v s o) as HC.
  { intros Hn. apply map_ext_Forall, Forall_forall. intros d Hd%elem_of_zrange. by apply HA. }
  change (Layout.level (geometry a)) with (lvl a). destruct (lvl a) eqn:El.
  - apply H. by rewrite !bool_decide_true.
  - destruct (Layout.role_of (geometry a) s i) as [d| |] eqn:Er; [|by rewrite HC..].
    apply HA; [done|]. destruct (data_of_role (geometry a) s i d) as [Hd _]; [apply wf_parity; [done|by unfold Layout.is_parity, geometry; cbn; rewrite El]|done|done|done].
  - destruct (Layout.role_of (geometry a) s i) as [d| |] eqn:Er; [|by rewrite HC..].
    apply HA; [done|]. destruct (data_of_role (geometry a) s i d) as [Hd _]; [apply wf_parity; [done|by unfold Layout.is_parity, geometry; cbn; rewrite El]|done|done|done].
  - apply HA; [done|]. unfold Layout.pair_of, Layout.data_count, geometry. cbn. rewrite El. unfold level_ok in Hl.
    pose proof (Z.div_mod (n_members a) 2 ltac:(lia)). split; [apply Z.div_pos; lia|]. apply Z.div_lt_upper_bound; lia.
Qed.
Lemma column_bytes g v s o : store_bytes v -> Forall byte (column g v s o).
Proof. intros H. apply Forall_map, Forall_forall. intros d _. apply H. Qed.
Lemma expected_byte g v i x : store_bytes v -> byte (expected g v i x).
Proof.
  intros Hv. unfold expected. destruct (Layout.level g); try apply Hv; destruct (Layout.role_of g _ i); try apply Hv;
    (apply xsum_byte || apply horner_byte); by apply column_bytes.
Qed.

(** *** Keeping what is held *)

Lemma unit_ok_evolves W a a' v k : evolves W a a' ->
  (forall i x, 0 <= x < dsize a -> x / lock_unit a = k -> ~ W i x) -> unit_ok a v k -> unit_ok a' v k.
Proof.
  intros Hev HW H i x. rewrite (ev_n _ _ _ Hev), (ev_dsize _ _ _ Hev), (ev_lock_unit _ _ _ Hev), (ev_geometry _ _ _ Hev). intros Hi Hx Hk Hlt.
  rewrite (ev_val _ _ _ i x Hev Hx) by (by apply HW). apply H; [done..|]. destruct (ev_limit _ _ _ i Hev) as [<-|E]; [done|lia].
Qed.
Lemma holds_evolves W a a' v (torn T : Z -> Prop) : evolves W a a' -> (forall i x, 0 <= x < dsize a -> W i x -> T (x / lock_unit a)) ->
  Holds a v torn -> Holds a' v (fun k => torn k \/ T k).
Proof.
  intros Hev HW [Hw Hv Hu]. split; [by eapply wf_evolves|done|]. intros k Hk. eapply unit_ok_evolves; [exact Hev| |].
  - intros i x Hx <- HWi. apply Hk. right. by eapply HW.
  - apply Hu. tauto.
Qed.
Lemma holds_nowhere a a' v torn : evolves nowhere a a' -> Holds a v torn -> Holds a' v torn.
Proof.
  intros Hev [Hw Hv Hu]. split; [by eapply wf_evolves|done|]. intros k Hk. eapply unit_ok_evolves; [exact Hev|by intros i x _ _ []|by apply Hu].
Qed.
Lemma unit_ok_store a v v' k : wf a -> (forall y, key_at a y = k -> v' y = v y) -> unit_ok a v k -> unit_ok a v' k.
Proof.
  intros Hw H Hu i x Hi Hx <- Hlt. rewrite Hu by done. symmetry. by apply expected_ext.
Qed.
Lemma ev_key W a a' y : evolves W a a' -> key_at a' y = key_at a y.
Proof. intros H. unfold key_at. rewrite (ev_geometry _ _ _ H). by rewrite (ss_lvl _ _ (ev_same _ _ _ H)). Qed.

(** ** A column of a stripe *)

Definition parity_set (a : RaidArray) : Prop := lvl a = Layout.Raid5 \/ lvl a = Layout.Raid6.

(** The strips of bytes [lo, lo + n) of stripe [s]. *)
Definition strips (g : Geometry) (v : store) (s lo n : Z) : list bytes :=
  map (fun d => tab n (fun j => v (addr g s d (lo + j)))) (zrange 0 (Layout.data_count g)).
Lemma strips_lookup g v s lo n d : 0 <= d < Layout.data_count g -> strips g v s lo n !! Z.to_nat d = Some (tab n (fun j => v (addr g s d (lo + j)))).
Proof.
  intros Hd. unfold strips, zrange. rewrite list_lookup_fmap, lookup_zseq by lia. by rewrite Z.add_0_l, Z2Nat.id by lia.
Qed.
Lemma length_strips g v s lo n : length (strips g v s lo n) = Z.to_nat (Layout.data_count g).
Proof. unfold strips, zrange. rewrite length_map, length_zseq. lia. Qed.
Lemma strips_bytes g v s lo n : store_bytes v -> 0 <= n -> strips_ok n (strips g v s lo n).
Proof. intros Hv Hn. apply Forall_map, Forall_forall. intros d _. split; [by apply zlen_tab|]. apply tab_bytes. intros j _. apply Hv. Qed.
Lemma col_strips g v s lo n j : 0 <= j < n -> col (strips g v s lo n) j = column g v s (lo + j).
Proof. intros Hj. unfold col, strips, column. rewrite map_map. apply map_ext_Forall, Forall_forall. intros d _. by rewrite at_tab. Qed.
Lemma P_strips g v s lo n : P_of n (strips g v s lo n) = tab n (fun j => xsum (column g v s (lo + j))).
Proof. apply tab_ext. intros j Hj. by rewrite col_strips. Qed.
Lemma Q_strips g v s lo n : Q_of n (strips g v s lo n) = tab n (fun j => horner (column g v s (lo + j))).
Proof. apply tab_ext. intros j Hj. by rewrite col_strips. Qed.

Section Column.
Context (a : RaidArray) (Hw : wf a) (Hpar : parity_set a).
Abbreviation g := (geometry a).
Abbreviation u := (unit_size a).

Lemma not_raid1 : lvl a <> Layout.Raid1.
Proof using Hpar. intros E. destruct Hpar; congruence. Qed.
Lemma lock_is_unit : lock_unit a = u.
Proof using Hpar. unfold lock_unit. by rewrite bool_decide_false by apply not_raid1. Qed.
Lemma unit_pos : 0 < u.
Proof using Hw. by apply Hw. Qed.
Lemma g_ok : parity_ok g.
Proof using Hw Hpar. apply wf_parity; [done|]. unfold Layout.is_parity, geometry. cbn. destruct Hpar as [-> | ->]; done. Qed.
Lemma dc_pos : 0 < Layout.data_count g <= 64.
Proof using Hw Hpar.
  destruct (skip_data g g_ok) as (H1 & H2 & H3 & _). destruct (w_level _ Hw) as [_ Hn]. change (Layout.n g) with (n_members a) in *.
  unfold MAX_SLOTS in Hn. lia.
Qed.

Lemma strips_nonempty v s lo n : strips g v s lo n <> [].
Proof using Hw Hpar. intros E. pose proof (length_strips g v s lo n) as H. rewrite E in H. cbn in H. pose proof dc_pos. lia. Qed.
Lemma zlen_strips v s lo n : zlen (strips g v s lo n) = Layout.data_count g.
Proof using Hw Hpar. unfold zlen. rewrite length_strips. pose proof dc_pos. lia. Qed.
(** Member [i]'s part of the column. *)
Definition part (v : store) (s lo n i : Z) : bytes :=
  match Layout.role_of g s i with
  | Layout.Data d => nth (Z.to_nat d) (strips g v s lo n) []
  | Layout.P => P_of n (strips g v s lo n)
  | Layout.Q => Q_of n (strips g v s lo n)
  end.
Lemma column_pos s lo j : 0 <= lo -> 0 <= j -> lo + j < u -> (s * u + (lo + j)) / u = s /\ (s * u + (lo + j)) mod u = lo + j.
Proof using Hw.
  intros H1 H2 H3. pose proof unit_pos. split; [apply div_unique_pos; lia|].
  symmetry. apply (Z.mod_unique_pos _ _ s); lia.
Qed.
Lemma part_expected v s lo n i : 0 <= i < n_members a -> 0 <= lo -> lo + n <= u ->
  part v s lo n i = tab n (fun j => expected g v i (s * u + (lo + j))).
Proof using Hw Hpar.
  intros Hi Hlo Hn. unfold part, expected.
  transitivity (tab n (fun j => match Layout.role_of g s i with Layout.Data d => v (addr g s d (lo + j))
     | Layout.P => xsum (column g v s (lo + j)) | Layout.Q => horner (column g v s (lo + j)) end)).
  - destruct (Layout.role_of g s i) as [d| |] eqn:Er; [|apply P_strips|apply Q_strips].
    destruct (data_of_role g s i d g_ok Hi Er) as [Hd _]. apply nth_lookup_Some. by apply strips_lookup.
  - apply tab_ext. intros j Hj. change (Layout.unit_ g) with u. destruct (column_pos s lo j) as [-> ->]; [lia..|].
    change (Layout.level g) with (lvl a). by destruct Hpar as [-> | ->].
Qed.

(** *** Who holds a stripe *)

Lemma held_some h i : held h i = true -> h !! Z.to_nat i = Some true.
Proof. unfold held. by destruct (h !! Z.to_nat i) as [[]|]. Qed.
Lemma held_holders e i : 0 <= i -> held (holders a e) i = true -> exists m, member a i = Some m /\ holds e m = true.
Proof.
  intros Hi H%held_some. unfold holders in H. rewrite list_lookup_fmap in H. destruct (members a !! Z.to_nat i) as [m|] eqn:E; [|done].
  exists m. cbn in H. split; [by apply member_some|congruence].
Qed.
Lemma holds_limit e m : holds e m = true -> e <= dsize a -> e <= limit_of (dsize a) m.
Proof.
  unfold holds, limit_of. intros [Hp Hs]%andb_true_iff He. rewrite Hp. destruct (state m); try done. by apply Z.leb_le in Hs.
Qed.
Lemma held_limit e i : 0 <= i -> e <= dsize a -> held (holders a e) i = true -> e <= limit a i.
Proof. intros Hi He (m & E & Hm)%held_holders; [|done]. unfold limit. rewrite E. by apply holds_limit. Qed.
Lemma not_held_limit k i : 0 <= i < n_members a -> (k + 1) * u <= dsize a -> held (holders a ((k + 1) * u)) i = false -> limit a i <= k * u \/ limit a i <= 0.
Proof using Hw Hpar.
  intros Hi Hk. destruct (member_of_range a i Hi) as [m E]. unfold held, holders, limit. rewrite list_lookup_fmap.
  pose proof (proj1 (member_some a i m) E) as [_ E']. rewrite E', E. cbn. unfold holds, limit_of.
  destruct (present m); [|by right]. cbn [andb]. destruct (state m) eqn:Es; [done|intros _; by right..|].
  intros Hlt%Z.leb_gt. left. destruct (w_mark _ Hw i m E Es) as [Hr Ha]. rewrite lock_is_unit in Ha. pose proof unit_pos.
  destruct Ha as [Ha|Ha]; [|lia]. apply Z.div_exact in Ha; [|lia]. set (q := rebuilt_to m / u) in *. rewrite Ha in *.
  assert (q < k + 1) by (apply (Z.mul_lt_mono_pos_l u); lia). rewrite (Z.mul_comm u). apply Z.mul_le_mono_nonneg_r; lia.
Qed.
Lemma role_q s i : Layout.role_of g s i = Layout.Q -> raid6 g = true.
Proof. unfold Layout.role_of, raid6. destruct (_ =? _); [done|]. destruct (bool_decide _); [done|]. by cbn. Qed.

Lemma each_plans {A B} (f : A -> S B) (P : A -> B -> Prop) l : forall b, plans a b ->
  (forall x c, x ∈ l -> plans a c -> plans c (snd (f x c)) /\ P x (fst (f x c))) ->
  plans a (snd (each f l b)) /\ Forall2 P l (fst (each f l b)).
Proof.
  induction l as [|x l IH]; intros b Hb H; [by split|]. cbn [each]. unfold seq. destruct (H x b (list_elem_of_here _ _) Hb) as [H1 H2].
  destruct (f x b) as [y c]. cbn in H1, H2. destruct (IH c) as [H3 H4]; [by eapply plans_trans|intros z d Hz; apply H; by right|].
  destruct (each f l c) as [ys d]. by split; [|constructor].
Qed.
Lemma remains_put v s lo n i o st : 0 <= i < n_members a -> remains_of n (strips g v s lo n) st -> (ss_q st = None <-> raid6 g = false) ->
  o = None \/ o = Some (part v s lo n i) ->
  remains_of n (strips g v s lo n) (put_strip g s i o st) /\ (ss_q (put_strip g s i o st) = None <-> raid6 g = false).
Proof using Hw Hpar.
  intros Hi [Hd Hp Hq] Hr Ho. unfold put_strip, part in *. destruct (Layout.role_of g s i) as [d| |] eqn:Er.
  - split; [|done]. split; [|done..]. cbn. destruct (data_of_role g s i d g_ok Hi Er) as [Hdd _]. pose proof (strips_lookup g v s lo n d Hdd) as El.
    rewrite (nth_lookup_Some _ _ _ _ El) in Ho. unfold lost_of in *. apply Forall2_same_length_lookup. split; [rewrite length_insert; by eapply Forall2_length|].
    intros k x y Hx Hy. destruct (decide (k = Z.to_nat d)) as [->|Hne].
    + rewrite El in Hy. injection Hy as <-. rewrite list_lookup_insert_eq in Hx; [by injection Hx as <-|].
      erewrite Forall2_length by exact Hd. rewrite length_strips. lia.
    + rewrite list_lookup_insert_ne in Hx by done. by eapply (Forall2_lookup_lr _ _ _ _ _ _ Hd).
  - split; [|done]. split; [done| |done]. cbn. exact Ho.
  - split; [|cbn; split; [done|intros E]].
    + split; [done..|]. cbn. destruct Ho as [->| ->]; auto.
    + by rewrite (role_q _ _ Er) in E.
Qed.
Lemma fill_strips_spec v s lo n rs : forall st b,
  Forall (fun r => 0 <= fst r < n_members a /\ forall x, snd r = Some (Ok x) -> x = part v s lo n (fst r)) rs ->
  remains_of n (strips g v s lo n) st -> (ss_q st = None <-> raid6 g = false) ->
  let '(st', b') := fill_strips g s rs st b in
  remains_of n (strips g v s lo n) st' /\ (ss_q st' = None <-> raid6 g = false) /\ evolves nowhere b b'.
Proof using Hw Hpar.
  induction rs as [|[i [[x|e]|]] rs IH]; intros st b Hf Hst Hr; [by split_and!; [| |apply evolves_refl]|..];
    apply Forall_cons in Hf as [[Hi Hx] Hf]; cbn [fst snd] in *; cbn [fill_strips].
  - destruct (remains_put v s lo n i (Some x) st Hi Hst Hr) as [H1 H2]; [right; f_equal; by apply Hx|]. by apply IH.
  - destruct (remains_put v s lo n i None st Hi Hst Hr) as [H1 H2]; [by left|]. unfold seq, fail_member.
    pose proof (fail_spec i false b) as Hs. destruct (fail_member_as i false b) as [ok c]. destruct Hs as (Hev & _).
    specialize (IH _ c Hf H1 H2). destruct (fill_strips _ _ _ _ c) as [st' d]. destruct IH as (I1 & I2 & I3).
    split_and!; [done..|]. by eapply evolves_trans.
  - destruct (remains_put v s lo n i None st Hi Hst Hr) as [H1 H2]; [by left|]. by apply IH.
Qed.
Lemma remains_none v s lo n : remains_of n (strips g v s lo n) (no_strips g) /\ (ss_q (no_strips g) = None <-> raid6 g = false).
Proof.
  split; [split|].
  - cbn. unfold lost_of. apply Forall2_same_length_lookup. rewrite length_replicate, length_strips. split; [done|].
    intros k x y [-> _]%lookup_replicate _. by left.
  - by left.
  - cbn. destruct (raid6 g); auto.
  - cbn. by destruct (raid6 g).
Qed.
(** Reading a column of a unit whose members agree gives what is left of its strips. *)
Lemma read_column_spec v s lo n : store_bytes v -> unit_ok a v s -> 0 <= s -> (s + 1) * u <= dsize a -> 0 <= lo -> 0 <= n -> lo + n <= u ->
  let '(st, a') := read_column g s lo n a in
  remains_of n (strips g v s lo n) st /\ (ss_q st = None <-> raid6 g = false) /\ evolves nowhere a a'.
Proof using Hw Hpar.
  intros Hv Hu Hs Hsd Hlo Hn Hln. unfold read_column, seq, gets. change (Layout.unit_ g) with u. set (h := holders a ((s + 1) * u)).
  set (f := fun i => _ : S (Z * option (result RaidError bytes))).
  pose proof (each_plans f (fun i r => fst r = i /\ forall x, snd r = Some (Ok x) -> x = part v s lo n i) (zrange 0 (zlen h)) a (plans_refl a)) as HE.
  destruct HE as [Hpl HF].
  { intros i c Hi%elem_of_zrange Hc. unfold f. destruct (held h i) eqn:Hh; [|split; [apply plans_refl|done]]. unfold seq.
    pose proof (rd_plans i (DATA_OFFSET + s * u + lo) n c) as Hp. destruct (rd i _ n c) as [r d] eqn:Er. cbn in *. split; [done|]. split; [done|].
    intros x [= ->]. replace (DATA_OFFSET + s * u + lo) with (DATA_OFFSET + (s * u + lo)) in Er by lia. pose proof unit_pos.
    rewrite (rd_val i (s * u + lo) n c x); [|by rewrite Er|nia|lia].
    assert (0 <= i < n_members a) as Hin by (unfold h, holders, zlen, n_members in *; rewrite length_map in Hi; done).
    rewrite part_expected by done. apply tab_ext. intros j Hj. rewrite (plans_val _ _ i _ Hc).
    replace (s * u + lo + j) with (s * u + (lo + j)) by lia. apply Hu; [done|nia| |].
    - rewrite lock_is_unit. by apply column_pos; lia.
    - pose proof (held_limit ((s + 1) * u) i ltac:(lia) Hsd Hh). nia. }
  destruct (each f (zrange 0 (zlen h)) a) as [rs b]. cbn in Hpl, HF. destruct (remains_none v s lo n) as [R1 R2].
  pose proof (fill_strips_spec v s lo n rs (no_strips g) b) as HFill. destruct (fill_strips g s rs (no_strips g) b) as [st a'].
  destruct HFill as (H1 & H2 & H3); [|done..|].
  - apply Forall_forall. intros [i r] Hir. apply list_elem_of_lookup in Hir as (k & Hk). destruct (Forall2_lookup_r _ _ _ _ _ HF Hk) as (j & Hj & Hij & Hx).
    cbn in *. subst j. apply list_elem_of_lookup_2, elem_of_zrange in Hj. split; [|done].
    unfold h, holders, zlen in Hj. rewrite length_map in Hj. unfold n_members, zlen. lia.
  - split_and!; [done..|]. eapply evolves_trans; [by apply plans_evolves|done].
Qed.
End Column.

Import Tab.

#[export] Instance ok_inj {E A} : Inj (=) (=) (@Ok E A).
Proof. intros x y. congruence. Qed.

(** A buffer of a length. *)
Definition buf_ok (len : Z) (b : bytes) : Prop := zlen b = len /\ all_bytes b.

Lemma buf_zip len h d s : (forall x y, byte x -> byte y -> byte (h x y)) -> buf_ok len d -> buf_ok len s -> buf_ok len (zip_into h d s).
Proof. intros Hh [Hd Bd] [Hs Bs]. split; [unfold zlen in *; by rewrite length_zip_into|]. by apply zip_into_bytes. Qed.
Lemma buf_same len (d s : bytes) : zlen d = len -> zlen s = len -> length d = length s.
Proof. unfold zlen. lia. Qed.
Lemma buf_zeros len : 0 <= len -> buf_ok len (zeros len).
Proof. intros H. split; [by apply zlen_zeros|apply all_bytes_zeros]. Qed.
Lemma buf_tab len f : 0 <= len -> (forall j, 0 <= j < len -> byte (f j)) -> buf_ok len (tab len f).
Proof. intros H Hf. split; [by apply zlen_tab|by apply tab_bytes]. Qed.

Lemma gf_inv_any a : byte (gf_inv a).
Proof. apply (at_byte_byte (fst GF)). by_decide. Qed.

Section Lengths.
Context (cpu : arch) (simd : SimdLevel) (len : Z) (Hlen : 0 <= len).

Lemma buf_xor d s : buf_ok len d -> buf_ok len s -> buf_ok len (xor_in_place_at cpu simd d s).
Proof. intros [Hd Bd] [Hs Bs]. rewrite xor_in_place_at_zip by (done || by eapply buf_same). apply buf_zip; [apply xor8_byte|done..]. Qed.
Lemma buf_q_step q d : buf_ok len q -> buf_ok len d -> buf_ok len (q_step_at cpu simd q d).
Proof. intros [Hd Bd] [Hs Bs]. rewrite q_step_at_zip by (done || by eapply buf_same). apply buf_zip; [apply q1_byte|done..]. Qed.
Lemma buf_mul_xor c d s : byte c -> buf_ok len d -> buf_ok len s -> buf_ok len (gf_mul_xor_at cpu simd d s c).
Proof.
  intros Hc [Hd Bd] [Hs Bs]. rewrite gf_mul_xor_at_zip by (done || by eapply buf_same). apply buf_zip; [|done..].
  intros x y Hx Hy. apply xor8_byte; [done|]. by apply gf_mul_byte.
Qed.
Lemma buf_scale c b : byte c -> buf_ok len b -> buf_ok len (gf_scale_at cpu simd b c).
Proof.
  intros Hc [Hd Bd]. rewrite gf_scale_at_map by done. split; [unfold zlen in *; by rewrite length_map|].
  apply Forall_map. eapply Forall_impl; [exact Bd|]. intros x Hx. cbn. by apply gf_mul_byte.
Qed.
Lemma buf_q_update q d i : buf_ok len q -> buf_ok len d -> buf_ok len (q_update cpu simd q d i).
Proof. intros Hq Hd. apply buf_mul_xor; [apply gf_pow2_byte|done..]. Qed.
Lemma buf_pq D : D <> [] -> Forall (buf_ok len) D -> buf_ok len (fst (pq_at cpu simd D len)) /\ buf_ok len (snd (pq_at cpu simd D len)).
Proof using Hlen.
  intros Hne HD. rewrite pq_at_PQ by done. split; [by apply P_of_ok|by apply Q_of_ok].
Qed.
Definition strip_ok (o : option bytes) : Prop := match o with Some b => buf_ok len b | None => True end.
Lemma buf_or_zero data : Forall strip_ok data -> Forall (buf_ok len) (map (or_zero len) data).
Proof using Hlen.
  intros H. apply Forall_map. eapply Forall_impl; [exact H|]. intros [b|] Hb; cbn; [done|by apply buf_zeros].
Qed.
Lemma buf_foldl f out l : (forall d s, buf_ok len d -> buf_ok len s -> buf_ok len (f d s)) -> buf_ok len out -> Forall (buf_ok len) l -> buf_ok len (foldl f out l).
Proof. intros Hf Ho Hl. revert out Ho. induction Hl as [|s l Hs Hl IH]; intros out Ho; [done|]. apply IH. by apply Hf. Qed.

Lemma missing_lookup {A} (l : list (option A)) i : i ∈ missing_from 0 l <-> l !! i = Some None.
Proof. rewrite elem_of_missing_from. split; [by intros (j & -> & H)|]. intros H. by exists i. Qed.
(** Strips that are all there but for the positions listed, and filled at those. *)
Definition filled (o : option bytes) : Prop := exists b, o = Some b /\ buf_ok len b.
Lemma filled_but (data : list (option bytes)) k o : Forall strip_ok data -> data !! k = Some o -> k ∉ missing_from 0 data -> filled o.
Proof.
  intros HF Hk Hm. pose proof (Forall_lookup_1 _ _ _ _ HF Hk) as Ho. destruct o as [b|]; [by exists b|].
  exfalso. apply Hm. by apply missing_lookup.
Qed.

Lemma buf_others_skip x data : forall k out, buf_ok len out -> (forall j b, data !! j = Some b -> k + j = x \/ filled b)%nat ->
  buf_ok len (foldl (fun out '(i, d) => if decide (i = x) then out else xor_in_place_at cpu simd out (unwrap d)) out (imap (fun j d => (k + j, d))%nat data)).
Proof.
  induction data as [|o data IH]; intros k out Ho Hd; [done|]. cbn [imap foldl].
  rewrite (imap_ext _ (fun j d => (Datatypes.S k + j, d))%nat) by (intros j d Hj; cbn; f_equal; lia).
  apply IH.
  - rewrite Nat.add_0_r. case_decide as Hx; [done|]. destruct (Hd 0%nat o eq_refl) as [|(b & -> & Hb)]; [lia|]. by apply buf_xor.
  - intros j b Hj. destruct (Hd (Datatypes.S j) b Hj) as [|]; [left; lia|by right].
Qed.
Lemma buf_others x data out : Forall strip_ok data -> missing_from 0 data = [x] -> buf_ok len out -> buf_ok len (xor_others cpu simd x data out).
Proof.
  intros HF Hm Ho. unfold xor_others. rewrite (imap_ext _ (fun j d => (0 + j, d))%nat) by done. apply buf_others_skip; [done|].
  intros j b Hj. destruct (decide (j = x)) as [->|Hne]; [by left|right]. eapply filled_but; [exact HF|exact Hj|].
  rewrite Hm. by intros ->%list_elem_of_singleton.
Qed.
Lemma Forall_filled_insert x b data ms : Forall strip_ok data -> (forall i, i ∈ missing_from 0 data -> i ∈ x :: ms) -> buf_ok len b ->
  Forall strip_ok (<[x := Some b]> data) /\ (forall i, i ∈ missing_from 0 (<[x := Some b]> data) -> i ∈ ms).
Proof.
  intros HF Hm Hb. split; [by apply Forall_insert|]. intros i Hi%missing_lookup.
  destruct (decide (i = x)) as [->|Hne].
  - rewrite list_lookup_insert_eq in Hi; [done|]. apply lookup_lt_Some in Hi. by rewrite length_insert in Hi.
  - rewrite list_lookup_insert_ne in Hi by done. apply missing_lookup in Hi. specialize (Hm i Hi). by apply elem_of_cons in Hm as [|].
Qed.
Lemma Forall_filled data : Forall strip_ok data -> (forall i, i ∈ missing_from 0 data -> i ∈ @nil nat) -> Forall filled data.
Proof.
  intros HF Hm. apply Forall_lookup_2. intros i o Hi. eapply filled_but; [exact HF|exact Hi|]. intros H. apply Hm in H. by apply elem_of_nil in H.
Qed.
(** The data strips after recovery are whole buffers. *)
Lemma recover_data_lengths s data : ss_data s <> [] -> Forall strip_ok (ss_data s) -> strip_ok (ss_p s) -> strip_ok (default None (ss_q s)) ->
  lost_count s <= level_tolerates s -> recover_data cpu simd len s = Some data ->
  Forall strip_ok data /\ (forall i, i ∈ missing_from 0 data -> i ∈ @nil nat) /\ length data = length (ss_data s).
Proof using Hlen.
  intros Hne HF Hp Hq Hlost E. unfold recover_data in E. unfold lost_count, level_tolerates in Hlost.
  assert (map (or_zero len) (ss_data s) <> []) as Hne' by (by destruct (ss_data s)). pose proof (buf_or_zero _ HF) as Hz.
  assert (ss_q s = None \/ ss_q s = Some None \/ buf_ok len (unwrap (default None (ss_q s)))) as Hqq by (destruct (ss_q s) as [[q|]|]; auto).
  destruct (missing_from 0 (ss_data s)) as [|x [|y [|z r]]] eqn:Em.
  - assert (data = ss_data s) as -> by (destruct (bool_decide _); congruence). by rewrite Em.
  - destruct (ss_p s) as [p|] eqn:Ep.
    + rewrite bool_decide_false in E by done. apply (inj Some) in E. subst data.
      destruct (Forall_filled_insert x (xor_others cpu simd x (ss_data s) p) (ss_data s) []); [done|by rewrite Em|by apply buf_others|].
      split_and!; [done..|apply length_insert].
    + rewrite bool_decide_true in E by done. unfold zlen in Hlost. cbn [length] in Hlost.
      destruct Hqq as [Eq|[Eq|Hqb]]; [exfalso; rewrite Eq in Hlost; repeat case_bool_decide; try congruence; lia..|].
      destruct (bool_decide (ss_q s = Some None)); [done|]. apply (inj Some) in E. subst data.
      destruct (Forall_filled_insert x (gf_scale_at cpu simd (xor_in_place_at cpu simd (foldl (q_step_at cpu simd) (zeros len) (rev (map (or_zero len) (ss_data s)))) (unwrap (default None (ss_q s)))) (gf_inv (gf_pow2 (Z.of_nat x)))) (ss_data s) []); [done|by rewrite Em| |].
      * apply buf_scale; [apply gf_inv_any|]. apply buf_xor; [|done].
        apply buf_foldl; [by apply buf_q_step|by apply buf_zeros|by apply Forall_rev].
      * split_and!; [done..|apply length_insert].
  - destruct (ss_p s) as [p|] eqn:Ep; [|by rewrite bool_decide_true in E]. rewrite bool_decide_false in E by done.
    destruct Hqq as [Eq|[Eq|Hqb]]; [exfalso; rewrite Eq in Hlost; unfold zlen in Hlost; cbn [length] in Hlost; repeat case_bool_decide; try congruence; lia|by rewrite Eq, bool_decide_true in E|].
    destruct (bool_decide (ss_q s = Some None)); [done|]. destruct (buf_pq _ Hne' Hz) as [B1 B2].
    destruct (pq_at cpu simd (map (or_zero len) (ss_data s)) len) as [pxy qxy]. cbn [fst snd] in B1, B2. apply (inj Some) in E. subst data.
    assert (forall k, byte (gf_pow2 k)) as Bp by apply gf_pow2_byte.
    assert (byte (gf_inv (xor8 (gf_pow2 (Z.of_nat (y - x))) 1))) as Bi by apply gf_inv_any.
    assert (buf_ok len (gf_mul_xor_at cpu simd (gf_mul_xor_at cpu simd (zeros len) (xor_in_place_at cpu simd pxy p)
        (gf_mul (gf_pow2 (Z.of_nat (y - x))) (gf_inv (xor8 (gf_pow2 (Z.of_nat (y - x))) 1))))
        (xor_in_place_at cpu simd qxy (unwrap (default None (ss_q s))))
        (gf_mul (gf_inv (gf_pow2 (Z.of_nat x))) (gf_inv (xor8 (gf_pow2 (Z.of_nat (y - x))) 1))))) as Bd.
    { apply buf_mul_xor; [apply gf_mul_byte; [apply gf_inv_any|done]| |by apply buf_xor].
      apply buf_mul_xor; [by apply gf_mul_byte|by apply buf_zeros|by apply buf_xor]. }
    set (dx := gf_mul_xor_at _ _ _ _ _) in *.
    destruct (Forall_filled_insert x dx (ss_data s) [y] HF) as [F1 F2]; [by rewrite Em|done|].
    destruct (Forall_filled_insert y (xor_in_place_at cpu simd (xor_in_place_at cpu simd pxy p) dx) _ [] F1) as [F3 F4];
      [exact F2|apply buf_xor; [by apply buf_xor|done]|].
    split_and!; [done..|by rewrite !length_insert].
  - by destruct (bool_decide (ss_p s = None)), (bool_decide (ss_q s = Some None)).
Qed.
Lemma recover_lengths s st : ss_data s <> [] -> Forall strip_ok (ss_data s) -> strip_ok (ss_p s) -> strip_ok (default None (ss_q s)) ->
  recover cpu simd len s = Ok (Some st) -> Forall filled (ss_data st) /\ length (ss_data st) = length (ss_data s).
Proof using Hlen.
  intros Hne HF Hp Hq. unfold recover. fold (lost_count s). fold (level_tolerates s). destruct (Z.ltb_spec (level_tolerates s) (lost_count s)) as [|Hl]; [done|].
  destruct (recover_data cpu simd len s) as [data|] eqn:E; [|done].
  intros Est. assert (ss_data st = data) as -> by (by injection Est as <-).
  destruct (recover_data_lengths s data Hne HF Hp Hq Hl E) as (H1 & H2 & H3). split; [by apply Forall_filled|done].
Qed.
(** P and Q too. *)
Lemma recover_parities s st : ss_data s <> [] -> Forall strip_ok (ss_data s) -> strip_ok (ss_p s) -> strip_ok (default None (ss_q s)) ->
  recover cpu simd len s = Ok (Some st) -> filled (ss_p st) /\ (ss_q s <> None -> filled (default None (ss_q st))).
Proof using Hlen.
  intros Hne HF Hp Hq E. pose proof (recover_lengths s st Hne HF Hp Hq E) as [H1 H2]. unfold recover in E. destruct (_ <? _); [done|].
  destruct (recover_data cpu simd len s) as [data|]; [|done]. apply (inj Ok), (inj Some) in E. subst st. cbn [ss_data ss_p ss_q] in *.
  assert (Forall (buf_ok len) (map unwrap data)) as Hb by (apply Forall_map; eapply Forall_impl; [exact H1|]; by intros o (b & -> & Hb)).
  assert (map unwrap data <> []) as Hne' by (destruct data; [by destruct (ss_data s)|done]). split.
  - case_bool_decide as Hl; [|destruct (ss_p s) as [p|]; [by exists p|done]]. unfold compute_xor_parity.
    rewrite strips_ok_forallb with (len := len) by done. assert ((0 <? zlen (map unwrap data)) = true) as ->.
    { apply Z.ltb_lt. destruct (map unwrap data) as [|x0 l0]; [done|]. rewrite zlen_cons. pose proof (zlen_nonneg l0). lia. }
    eexists. split; [reflexivity|]. rewrite xor_parity_at_P with (len := len) by done. by apply P_of_ok.
  - intros Hq0. case_bool_decide as Hl; [eexists; split; [reflexivity|]; by apply buf_pq|]. destruct (ss_q s) as [[q|]|]; [by exists q|done|done].
Qed.
End Lengths.
