(* ===== verification/RaidStripe.v ===== *)
(** One stripe of a parity set: what writing a column of it to some of its members
    leaves, and the data laid over it piece by piece. *)

From S2P Require Import Prelude Gf256 Parity ParityKernels ParityRecover RaidLayout IntentBitmap RaidSuper RaidArray RaidFrame RaidModel.
#[local] Open Scope raid_scope.

Lemma limit_zero W a a' i : evolves W a a' -> limit a i = 0 -> limit a' i = 0.
Proof. intros H E. destruct (ev_limit _ _ _ i H); lia. Qed.
Lemma limit_le W a a' i b : 0 <= b -> evolves W a a' -> limit a i <= b -> limit a' i <= b.
Proof. intros Hb H E. destruct (ev_limit _ _ _ i H); lia. Qed.
Lemma limit_member a b i : member b i = member a i -> dsize b = dsize a -> limit b i = limit a i.
Proof. unfold limit. by intros -> ->. Qed.
Lemma limit_failed a i m : member a i = Some m -> state m = Failed -> limit a i = 0.
Proof. unfold limit. intros -> E. cbn. unfold limit_of. rewrite E. by destruct (present m). Qed.
Lemma wf_val_byte a i x : wf a -> 0 <= x < dsize a -> byte (val a i x).
Proof.
  intros Hw Hx. unfold val, val_of. destruct (member a i) as [m|] eqn:E; [|done]. cbn. destruct (device m) as [d|] eqn:D; [|done].
  by apply (w_drives _ Hw i m d E D).
Qed.
Lemma rd_buf i x0 n a b : wf a -> 0 <= x0 -> 0 <= n -> x0 + n <= dsize a -> fst (rd i (DATA_OFFSET + x0) n a) = Ok b -> buf_ok n b.
Proof.
  intros Hw H0 Hn Hd Hr. rewrite (rd_val i x0 n a b Hr) by done. apply buf_tab; [done|]. intros j Hj. apply wf_val_byte; [done|lia].
Qed.

(** ** Failing the members whose write failed *)

Lemma settle_spec rs : forall a, let '(r, a') := settle rs a in
  evolves nowhere a a' /\ (forall j, j ∉ map fst rs -> member a' j = member a j) /\
  (r = Ok () -> forall i e, (i, Err e) ∈ rs -> limit a' i = 0).
Proof.
  induction rs as [|[i [[]|e]] rs IH]; intros a; cbn [settle].
  - split_and!; [apply evolves_refl|done|]. by intros _ i e ?%elem_of_nil.
  - specialize (IH a). destruct (settle rs a) as [r a']. destruct IH as (H1 & H2 & H3). split_and!; [done|intros j Hj; apply H2; set_solver|].
    intros Hr j e' Hj. apply elem_of_cons in Hj as [[=]|Hj]. by eapply H3.
  - unfold seq, fail_member. pose proof (fail_spec i false a) as Hf. destruct (fail_member_as i false a) as [ok b]. destruct Hf as (F1 & F2 & F3 & F4).
    destruct ok; [|by split_and!; [|intros j Hj; apply F4; set_solver|]]. specialize (IH b). destruct (settle rs b) as [r a'].
    destruct IH as (H1 & H2 & H3). split_and!.
    + by eapply evolves_trans.
    + intros j Hj. rewrite H2, F4 by set_solver. done.
    + intros Hr j e' Hj. apply elem_of_cons in Hj as [Hj|Hj]; [|by eapply H3]. injection Hj as -> _.
      destruct (F3 eq_refl) as (m' & E & Es). eapply limit_zero; [exact H1|]. by eapply limit_failed.
Qed.

(** ** A column written to some members *)

(** The places of a column of [n] bytes from [x0] on, on the members [ms]. *)
Definition column_of (ms : list Z) (x0 n i x : Z) : Prop := i ∈ ms /\ x0 <= x < x0 + n.
Abbreviation target_of := (fun w : Z * Z * bytes => fst (fst w)).

Lemma writes_spec x0 n ws : forall a, wf a -> 0 <= x0 -> 0 <= n -> x0 + n <= dsize a -> NoDup (map target_of ws) ->
  Forall (fun w => snd (fst w) = DATA_OFFSET + x0 /\ buf_ok n (snd w)) ws ->
  let '(rs, a') := each (fun w => let* r := wr (target_of w) (snd (fst w)) (snd w) in pure (target_of w, r)) ws a in
  evolves (column_of (map target_of ws) x0 n) a a' /\ (forall j, limit a' j = limit a j) /\ (forall j, j ∉ map target_of ws -> member a' j = member a j) /\
  Forall2 (fun w r => fst r = target_of w /\ (snd r = Ok () -> forall j, 0 <= j < n -> val a' (target_of w) (x0 + j) = at_byte (snd w) j)) ws rs.
Proof.
  induction ws as [|[[m off] b] ws IH]; intros a Hw H0 Hn Hd Hnd HF; [by split_and!; [apply evolves_refl| | |]|].
  apply Forall_cons in HF as [[Ho [Hz Hb]] HF]. cbn [fst snd map] in *. apply NoDup_cons in Hnd as [Hm Hnd]. subst off.
  cbn [each]. unfold seq, pure. cbn [fst snd]. pose proof (wr_data m x0 b a Hw H0 ltac:(lia) Hb) as H1. destruct (wr m _ b a) as [r c].
  destruct H1 as (E1 & L1 & M1 & _ & _ & V1). assert (wf c) as Hc by (by eapply wf_evolves). pose proof (ev_dsize _ _ _ E1) as Dc.
  specialize (IH c Hc H0 Hn ltac:(lia) Hnd HF). unfold seq, pure in IH. destruct (each _ ws c) as [rs a']. destruct IH as (E2 & L2 & M2 & F2).
  split_and!.
  - eapply evolves_trans; [|]; eapply evolves_mono; [|exact E1| |exact E2].
    + intros i x [-> Hx]. split; [left|lia].
    + intros i x [Hi Hx]. split; [by right|lia].
  - intros j. by rewrite L2.
  - intros j [Hj1 Hj2]%not_elem_of_cons. by rewrite M2, M1.
  - constructor; [|done]. split; [done|]. cbn. intros -> j Hj. unfold val. rewrite (M2 m Hm). fold (val c m (x0 + j)).
    rewrite V1 by (done || lia). by replace (x0 + j - x0) with j by lia.
Qed.

Lemma issue_spec h x0 n ws a : wf a -> 0 <= x0 -> 0 <= n -> x0 + n <= dsize a -> NoDup (map target_of ws) ->
  Forall (fun w => snd (fst w) = DATA_OFFSET + x0 /\ buf_ok n (snd w)) ws ->
  let '(r, a') := issue_writes h ws a in
  evolves (column_of (map target_of ws) x0 n) a a' /\ (forall j, j ∉ map target_of ws -> limit a' j = limit a j) /\
  (r = Ok () -> forall w, w ∈ ws -> held h (target_of w) = true ->
     limit a' (target_of w) = 0 \/ forall j, 0 <= j < n -> val a' (target_of w) (x0 + j) = at_byte (snd w) j).
Proof.
  intros Hw H0 Hn Hd Hnd HF. unfold issue_writes, seq, gets, fail, pure. destruct (released a); [by split_and!; [apply evolves_refl| |]|].
  set (ws' := filter (fun w => held h (fst (fst w)) = true) ws).
  assert (ws' ⊆ ws) as Hsub by (intros w Hx; by apply list_elem_of_filter in Hx as []).
  assert (forall i, i ∈ map target_of ws' -> i ∈ map target_of ws) as Hms.
  { intros i (w & -> & Hx)%list_elem_of_fmap. apply list_elem_of_fmap. exists w. split; [done|by apply Hsub]. }
  assert (NoDup (map target_of ws')) as Hnd'.
  { eapply sublist_NoDup; [exact Hnd|]. apply fmap_sublist, sublist_filter. }
  pose proof (writes_spec x0 n ws' a Hw H0 Hn Hd Hnd' ltac:(apply Forall_forall; intros w Hx; rewrite Forall_forall in HF; by apply HF, Hsub)) as H1.
  unfold seq, pure in H1. destruct (each _ ws' a) as [rs c]. destruct H1 as (E1 & L1 & M1 & F1).
  assert (map fst rs = map target_of ws') as Hrs.
  { clear -F1. clearbody ws'. induction F1 as [|w r ws1 rs1 [H _] _ IH]; [done|]. cbn [map]. by rewrite H, IH. }
  pose proof (settle_spec rs c) as H2. destruct (settle rs c) as [r a']. destruct H2 as (E2 & M2 & S2).
  pose proof (ev_dsize _ _ _ E1) as Dc. pose proof (ev_dsize _ _ _ E2) as Da. split_and!.
  - eapply evolves_trans; [|by apply evolves_any]. eapply evolves_mono; [|exact E1]. intros i x [Hi Hx]. split; [by apply Hms|done].
  - intros j Hj. rewrite (limit_member c a' j); [apply L1|apply M2; rewrite Hrs; by intros Hx%Hms|done].
  - intros Hr w Hx Hh. assert (w ∈ ws') as Hx' by (by apply list_elem_of_filter).
    apply list_elem_of_lookup in Hx' as (k & Hk). destruct (Forall2_lookup_l _ _ _ _ _ F1 Hk) as ([i res] & Hk2 & Hi & Hv). cbn in Hi, Hv. subst i.
    destruct res as [[]|e].
    + right. intros j Hj. rewrite (ev_val _ _ _ _ _ E2) by (lia || (by intros [])). by apply Hv.
    + left. apply (S2 Hr _ e). by apply list_elem_of_lookup_2 in Hk2.
Qed.

Lemma role_p_member g s i : Layout.role_of g s i = Layout.P -> Layout.p_member g s = i.
Proof. unfold Layout.role_of. destruct (Z.eqb_spec i (Layout.p_member g s)); [done|]. by destruct (_ && _). Qed.
Lemma role_q_member g s i : Layout.role_of g s i = Layout.Q -> Layout.q_member g s = i.
Proof.
  unfold Layout.role_of. destruct (Z.eqb_spec i (Layout.p_member g s)); [done|]. destruct (_ && _) eqn:E; [|done].
  intros _. apply andb_true_iff in E as [_ E%Z.eqb_eq]. done.
Qed.

Lemma raid6_of_role g s i : Layout.role_of g s i = Layout.Q -> raid6 g = true.
Proof. unfold Layout.role_of, raid6. destruct (_ =? _); [done|]. by destruct (bool_decide _). Qed.

(** ** A stripe of a set *)

Section Stripe.
Context (g : Geometry) (D s : Z) (Hlev : Layout.level g = Layout.Raid5 \/ Layout.level g = Layout.Raid6).
Context (Hs : 0 <= s) (HD : (s + 1) * Layout.unit_ g <= D).
Abbreviation u := (Layout.unit_ g).
Abbreviation dc := (Layout.data_count g).

(** A set of this geometry. *)
Definition here (a : RaidArray) : Prop := wf a /\ geometry a = g /\ dsize a = D.
(** The data of the stripe's unit. *)
Definition in_unit (i x : Z) : Prop := x / u = s.

Lemma here_evolves W a a' : evolves W a a' -> here a -> here a'.
Proof. intros H (Hw & Hg & Hd). split_and!; [by eapply wf_evolves|by rewrite (ev_geometry _ _ _ H)|by rewrite (ev_dsize _ _ _ H)]. Qed.
Lemma here_parity a : here a -> parity_set a.
Proof using Hlev. intros (_ & Hg & _). unfold parity_set. rewrite <- Hg in Hlev. exact Hlev. Qed.
Lemma here_unit a : here a -> lock_unit a = u.
Proof using Hlev. intros H. rewrite lock_is_unit by by apply here_parity. destruct H as (_ & Hg & _). by rewrite <- Hg. Qed.
Lemma here_n a : here a -> n_members a = Layout.n g.
Proof. intros (_ & Hg & _). by rewrite <- Hg. Qed.
Lemma here_pos a : here a -> 0 < u.
Proof. intros (Hw & Hg & _). rewrite <- Hg. by apply (w_unit a). Qed.
Lemma here_dc a : here a -> 0 < dc <= 64.
Proof using Hlev. intros H. pose proof (dc_pos a ltac:(apply H) (here_parity a H)) as Hd. destruct H as (_ & Hg & _). by rewrite Hg in Hd. Qed.
Lemma here_parity_ok a : here a -> parity_ok g.
Proof using Hlev. intros H. pose proof (g_ok a ltac:(apply H) (here_parity a H)) as Hd. destruct H as (_ & Hg & _). by rewrite Hg in Hd. Qed.

Lemma in_unit_pos lo x : 0 < u -> 0 <= lo -> s * u + lo <= x < (s + 1) * u -> x / u = s /\ x mod u = x - s * u.
Proof.
  intros Hu Hlo Hx. split; [apply div_unique_pos; lia|]. symmetry. apply (Z.mod_unique_pos _ _ s); lia.
Qed.
Lemma unit_range x : 0 < u -> x / u = s -> s * u <= x < (s + 1) * u.
Proof. intros Hu Hx. rewrite <- Hx. clear Hx. pose proof (Z.div_mod x u ltac:(lia)). pose proof (Z.mod_pos_bound x u Hu). clear HD Hs. lia. Qed.

(** Byte [o] of member [i]'s unit, by the member's role. *)
Definition strip_at (v : store) (i o : Z) : Z :=
  match Layout.role_of g s i with
  | Layout.Data d => v (addr g s d o)
  | Layout.P => xsum (column g v s o)
  | Layout.Q => horner (column g v s o)
  end.
Lemma expected_strip v i o : 0 <= o < u -> expected g v i (s * u + o) = strip_at v i o.
Proof using Hlev.
  intros Ho. unfold expected, strip_at. destruct (in_unit_pos o (s * u + o)) as [-> ->]; [lia..|].
  replace (s * u + o - s * u) with o by lia. by destruct Hlev as [-> | ->].
Qed.
Lemma unit_ok_strips a v : here a -> unit_ok a v s <->
  forall i o, 0 <= i < Layout.n g -> 0 <= o < u -> s * u + o < limit a i -> val a i (s * u + o) = strip_at v i o.
Proof using Hlev Hs HD.
  intros Ha. pose proof (here_pos a Ha) as Hu. unfold unit_ok. rewrite (here_unit a Ha), (here_n a Ha). destruct Ha as (Hw & Hg & Hd). rewrite Hg, Hd.
  split; intros H.
  - intros i o Hi Ho Hl. rewrite H; [by apply expected_strip|done|nia|by apply in_unit_pos with (lo := o); lia|done].
  - intros i x Hi Hx Hk Hl. pose proof (unit_range x Hu Hk) as Hr. replace x with (s * u + (x - s * u)) in * by lia.
    rewrite H by (done || lia). by rewrite expected_strip by lia.
Qed.

(** What members [ms] hold of the column, and the others all along. *)
Lemma unit_written v v' lo n ms a a' : here a -> 0 <= lo -> lo + n <= u ->
  evolves (column_of ms (s * u + lo) n) a a' ->
  (forall m, m ∈ ms -> limit a' m <= s * u \/ forall j, 0 <= j < n -> val a' m (s * u + lo + j) = strip_at v' m (lo + j)) ->
  Layout.p_member g s ∈ ms -> (raid6 g = true -> Layout.q_member g s ∈ ms) ->
  (forall d o, 0 <= d < dc -> 0 <= o < u -> v' (addr g s d o) = v (addr g s d o) \/ (lo <= o < lo + n /\ Layout.data_member g s d ∈ ms)) ->
  unit_ok a v s -> unit_ok a' v' s.
Proof using Hlev Hs HD.
  intros Ha Hlo Hn Hev Hms HP HQ Hd Hu. assert (here a') as Ha' by (by eapply here_evolves). pose proof (here_parity_ok a Ha) as Hpo.
  rewrite unit_ok_strips in * by done. intros i o Hi Ho Hl. pose proof (here_pos a Ha) as Hup.
  destruct (decide (i ∈ ms /\ lo <= o < lo + n)) as [[Hin Hoo]|Hout].
  - destruct (Hms i Hin) as [|Hv]; [nia|]. replace o with (lo + (o - lo)) by lia. rewrite <- Hv by lia. f_equal. lia.
  - rewrite (ev_val _ _ _ i (s * u + o) Hev); [|destruct Ha as (_ & _ & ->); nia|intros [H1 H2]; apply Hout; split; [done|lia]].
    rewrite Hu; [|done|done|destruct (ev_limit _ _ _ i Hev); nia]. unfold strip_at.
    assert (~ (lo <= o < lo + n) -> column g v' s o = column g v s o) as Hcol.
    { intros Hx. apply map_ext_Forall, Forall_forall. intros d Hdd%elem_of_zrange. destruct (Hd d o Hdd Ho) as [|[]]; done. }
    destruct (Layout.role_of g s i) as [d| |] eqn:Er.
    + destruct (data_of_role g s i d Hpo Hi Er) as [Hdd Hm]. destruct (Hd d o Hdd Ho) as [->|[H1 H2]]; [done|]. rewrite Hm in H2. tauto.
    + rewrite Hcol; [done|]. intros Hx. apply Hout. split; [|done]. by rewrite <- (role_p_member g s i Er).
    + rewrite Hcol; [done|]. intros Hx. apply Hout. split; [|done]. rewrite <- (role_q_member g s i Er). apply HQ. by eapply raid6_of_role.
Qed.

(** A column written by [issue_writes] to members that hold the stripe. *)
Definition snapshot (h : list bool) (a : RaidArray) : Prop := forall i, 0 <= i < Layout.n g ->
  (held h i = false -> limit a i <= s * u) /\ (held h i = true -> limit a i = 0 \/ (s + 1) * u <= limit a i).
Lemma snapshot_evolves W h a a' : 0 < u -> evolves W a a' -> snapshot h a -> snapshot h a'.
Proof using Hs.
  intros Hu Hev H i Hi. destruct (H i Hi) as [H1 H2]. destruct (ev_limit _ _ _ i Hev) as [-> | ->]; [done|]. split; [nia|auto].
Qed.
Lemma snapshot_holders a : here a -> snapshot (holders a ((s + 1) * u)) a.
Proof using Hlev Hs HD.
  intros Ha i Hi. pose proof (here_pos a Ha) as Hu. pose proof (here_n a Ha) as Hn. pose proof (here_parity a Ha) as Hp. destruct Ha as (Hw & Hg & Hd).
  assert (unit_size a = u) as Eu by (by rewrite <- Hg). split; intros Hh.
  - destruct (not_held_limit a Hw Hp s i) as [H|H]; [lia|rewrite Hd, Eu; lia|by rewrite Eu|by rewrite <- Eu|nia].
  - right. apply held_limit; [lia|lia|done].
Qed.

Lemma column_issued v v' h lo n ws a : here a -> snapshot h a -> 0 <= lo -> 0 <= n -> lo + n <= u -> NoDup (map target_of ws) ->
  Forall (fun w => snd (fst w) = DATA_OFFSET + (s * u + lo) /\ buf_ok n (snd w)) ws ->
  let '(r, a') := issue_writes h ws a in
  evolves in_unit a a' /\ (forall j, j ∉ map target_of ws -> limit a' j = limit a j) /\
  (r = Ok () ->
    (forall w, w ∈ ws -> 0 <= target_of w < Layout.n g /\ (limit a (target_of w) = 0 \/ snd w = tab n (fun j => strip_at v' (target_of w) (lo + j)))) ->
    Layout.p_member g s ∈ map target_of ws -> (raid6 g = true -> Layout.q_member g s ∈ map target_of ws) ->
    (forall d o, 0 <= d < dc -> 0 <= o < u -> v' (addr g s d o) = v (addr g s d o) \/ (lo <= o < lo + n /\ Layout.data_member g s d ∈ map target_of ws)) ->
    unit_ok a v s -> unit_ok a' v' s).
Proof using Hlev Hs HD.
  intros Ha Hh Hlo Hn Hln Hnd HF. pose proof (here_pos a Ha) as Hu.
  pose proof (issue_spec h (s * u + lo) n ws a ltac:(apply Ha) ltac:(nia) Hn ltac:(destruct Ha as (_ & _ & ->); nia) Hnd HF) as H.
  destruct (issue_writes h ws a) as [r a']. destruct H as (H1 & H2 & H3). split_and!; [|done|].
  - eapply evolves_mono; [|exact H1]. intros i x [_ Hx]. apply (in_unit_pos lo x); lia.
  - intros Hr Hws HP HQ Hd Hok. eapply unit_written; [exact Ha|exact Hlo|exact Hln|exact H1| |done..].
    intros m (w & -> & Hin)%list_elem_of_fmap. destruct (Hws w Hin) as [Hm Hv]. destruct (Hh _ Hm) as [Hh1 Hh2].
    destruct (held h (target_of w)) eqn:Hheld.
    + destruct (H3 Hr w Hin Hheld) as [->|Hval]; [left; nia|]. destruct Hv as [Hz|Hv]; [left; rewrite (limit_zero _ _ _ _ H1 Hz); nia|].
      right. intros j Hj. by rewrite Hval, Hv, at_tab.
    + left. eapply limit_le; [nia|exact H1|auto].
Qed.

(** *** The pieces laid over the stripe *)

Definition piece_at (sg : Segment) : Z := addr g s (Layout.index sg) (Layout.offset_in_unit sg).
Definition in_piece (x : Z) (sg : Segment) : bool := (piece_at sg <=? x) && (x <? piece_at sg + Layout.len sg).
(** [v'] where the pieces are, [v] elsewhere. *)
Definition patch (v v' : store) (l : list Segment) : store := fun x => if existsb (in_piece x) l then v' x else v x.
Record seg_ok (v' : store) (buf : bytes) (sg : Segment) : Prop := {
  so_stripe : Layout.stripe sg = s;
  so_index : 0 <= Layout.index sg < dc;
  so_range : 0 <= Layout.offset_in_unit sg /\ 0 < Layout.len sg /\ Layout.offset_in_unit sg + Layout.len sg <= u;
  so_piece : piece buf sg = tab (Layout.len sg) (fun j => v' (piece_at sg + j)) }.

Lemma in_piece_addr sg d o : 0 <= d < dc -> 0 <= o < u -> 0 <= Layout.offset_in_unit sg -> Layout.offset_in_unit sg + Layout.len sg <= u ->
  in_piece (addr g s d o) sg = true <-> d = Layout.index sg /\ Layout.offset_in_unit sg <= o < Layout.offset_in_unit sg + Layout.len sg.
Proof.
  intros Hd Ho H1 H2. unfold in_piece, piece_at, addr. rewrite andb_true_iff, Z.leb_le, Z.ltb_lt. split; [|intros [-> ?]; lia].
  intros [H3 H4]. assert (d = Layout.index sg); [|by subst; lia]. nia.
Qed.
Lemma patch_bytes v v' l : store_bytes v -> store_bytes v' -> store_bytes (patch v v' l).
Proof. intros H1 H2 x. unfold patch. by destruct (existsb _ _). Qed.
Lemma patch_snoc v v' l sg x : patch v v' (l ++ [sg]) x = if in_piece x sg then v' x else patch v v' l x.
Proof. unfold patch. rewrite existsb_app. cbn. rewrite orb_false_r. destruct (in_piece x sg); [by rewrite orb_true_r|by rewrite orb_false_r]. Qed.
End Stripe.
