(* ===== verification/RaidWrite.v ===== *)
(** Writing a stripe of a parity set: by read-modify-write, by reconstruction, or whole.
    A write that succeeds leaves every member of the stripe with the strips, P and Q of
    the new data; whatever it answers, it touches nothing but the stripe. *)

From S2P Require Import Prelude Gf256 Parity ParityKernels ParityRecover RaidLayout IntentBitmap RaidSuper RaidArray RaidFrame RaidModel RaidStripe.
#[local] Open Scope raid_scope.

(** ** The strips of a column, whatever they say *)

Record shaped (g : Geometry) (n : Z) (st : StripeStrips) : Prop := {
  sh_data : Forall (strip_ok n) (ss_data st);
  sh_count : length (ss_data st) = Z.to_nat (Layout.data_count g);
  sh_p : strip_ok n (ss_p st);
  sh_q : strip_ok n (default None (ss_q st));
  sh_raid6 : ss_q st = None <-> raid6 g = false }.
Lemma shaped_none g n : shaped g n (no_strips g).
Proof.
  split; cbn; [by apply Forall_replicate|apply length_replicate|done|by destruct (raid6 g)|by destruct (raid6 g)].
Qed.
Lemma shaped_put g n s i o st : strip_ok n o -> shaped g n st -> shaped g n (put_strip g s i o st).
Proof.
  intros Ho [H1 H2 H3 H4 H5]. unfold put_strip. destruct (Layout.role_of g s i) eqn:Er; split; cbn; try done.
  - by apply Forall_insert.
  - by rewrite length_insert.
  - split; [done|]. intros E. by rewrite (raid6_of_role _ _ _ Er) in E.
Qed.
Lemma fill_shape g n s rs : forall st b, Forall (fun r => forall x, snd r = Some (Ok x) -> buf_ok n x) rs -> shaped g n st ->
  let '(st', b') := fill_strips g s rs st b in shaped g n st' /\ evolves nowhere b b'.
Proof.
  induction rs as [|[i [[x|e]|]] rs IH]; intros st b HF Hst; [by split; [|apply evolves_refl]|..];
    apply Forall_cons in HF as [Hx HF]; cbn [fst snd] in *; cbn [fill_strips].
  - apply IH; [done|]. apply shaped_put; [|done]. by apply Hx.
  - unfold seq, fail_member. pose proof (fail_spec i false b) as Hf. destruct (fail_member_as i false b) as [ok c]. destruct Hf as (Hev & _).
    specialize (IH (put_strip g s i None st) c HF ltac:(by apply shaped_put)). destruct (fill_strips _ _ _ _ c) as [st' d]. destruct IH as [I1 I2].
    split; [done|]. by eapply evolves_trans.
  - apply IH; [done|]. by apply shaped_put.
Qed.
Lemma read_column_shape g s lo n a : wf a -> 0 <= s -> 0 <= Layout.unit_ g -> (s + 1) * Layout.unit_ g <= dsize a -> 0 <= lo -> 0 <= n -> lo + n <= Layout.unit_ g ->
  let '(st, a') := read_column g s lo n a in shaped g n st /\ evolves nowhere a a'.
Proof.
  intros Hw Hs Hu Hsd Hlo Hn Hln. unfold read_column, seq, gets. set (h := holders a _). set (f := fun i => _ : S (Z * option (result RaidError bytes))).
  destruct (each_plans a f (fun i r => forall x, snd r = Some (Ok x) -> buf_ok n x) (zrange 0 (zlen h)) a (plans_refl a)) as [Hpl HF].
  { intros i c _ Hc. unfold f. destruct (held h i); [|split; [apply plans_refl|done]]. unfold seq.
    pose proof (rd_plans i (DATA_OFFSET + s * Layout.unit_ g + lo) n c) as Hp. destruct (rd i _ n c) as [r d] eqn:Er. cbn in *. split; [done|].
    intros x [= ->]. replace (DATA_OFFSET + s * Layout.unit_ g + lo) with (DATA_OFFSET + (s * Layout.unit_ g + lo)) in Er by lia.
    apply (rd_buf i (s * Layout.unit_ g + lo) n c); [|nia|done| |by rewrite Er].
    - by apply (wf_evolves nowhere a c); [apply plans_evolves|].
    - destruct (plans_fields _ _ Hc) as (_ & _ & -> & _). nia. }
  destruct (each f (zrange 0 (zlen h)) a) as [rs b]. cbn in Hpl, HF.
  pose proof (fill_shape g n s rs (no_strips g) b) as HFill. destruct (fill_strips g s rs (no_strips g) b) as [st a'].
  destruct HFill as [H1 H2]; [|apply shaped_none|split; [done|by eapply evolves_trans; [apply plans_evolves|]]].
  clear -HF. induction HF as [|i r l rs H _ IH]; by constructor.
Qed.

Lemma parity_of_ok cpu simd g data n : 0 <= n -> data <> [] -> Forall (buf_ok n) data ->
  parity_of cpu simd g data n = Some (P_of n data, if raid6 g then Q_of n data else zeros n).
Proof.
  intros Hn Hne HF. unfold parity_of, compute_raid6_parity, compute_xor_parity.
  assert ((0 <? zlen data) = true) as -> by (apply Z.ltb_lt; destruct data; [done|rewrite zlen_cons; pose proof (zlen_nonneg data); lia]).
  rewrite strips_ok_forallb with (len := n) by done. cbn [andb]. destruct (raid6 g).
  - by rewrite pq_at_PQ.
  - cbn. by rewrite xor_parity_at_P with (len := n).
Qed.

Section Stripe.
Context (cpu : arch) (simd : SimdLevel).
Context (g : Geometry) (D s : Z) (Hlev : Layout.level g = Layout.Raid5 \/ Layout.level g = Layout.Raid6).
Context (Hs : 0 <= s) (HD : (s + 1) * Layout.unit_ g <= D).
Abbreviation u := (Layout.unit_ g).
Abbreviation dc := (Layout.data_count g).
Abbreviation here := (here g D).
Abbreviation in_unit := (in_unit g s).
Abbreviation patch := (patch g s).
Abbreviation seg_ok := (seg_ok g s).
Abbreviation snapshot := (snapshot g s).
Context (v v' : store) (Hv : store_bytes v) (Hv' : store_bytes v') (buf : bytes).

Abbreviation segment := Layout.Segment.
Definition m_of (sg : segment) : Z := Layout.data_member g s (Layout.index sg).
(** The parity members of the stripe. *)
Definition parity_members : list Z := Layout.p_member g s :: (if raid6 g then [Layout.q_member g s] else []).

Lemma data_of_seg sg a : here a -> seg_ok v' buf sg -> 0 <= m_of sg < Layout.n g /\ Layout.role_of g s (m_of sg) = Layout.Data (Layout.index sg).
Proof using Hlev.
  intros Ha Hsg. pose proof (here_parity_ok g D Hlev a Ha) as Hpo. split; [|by apply role_of_data, Hsg].
  apply Z.mod_pos_bound. destruct (skip_data g Hpo) as (Hk & Hc & Hn & _). lia.
Qed.
Lemma parity_range a i : here a -> i ∈ parity_members -> 0 <= i < Layout.n g.
Proof using Hlev.
  intros Ha Hi. pose proof (here_parity_ok g D Hlev a Ha) as Hpo. destruct (skip_data g Hpo) as (Hk & Hc & Hn & _).
  unfold parity_members in Hi. apply elem_of_cons in Hi as [->|Hi]; [apply p_member_range; lia|].
  destruct (raid6 g); [|by apply elem_of_nil in Hi]. apply list_elem_of_singleton in Hi as ->. apply Z.mod_pos_bound. lia.
Qed.
(** Members by role are apart. *)
Lemma written_apart a segs : here a -> Forall (seg_ok v' buf) segs -> NoDup (map Layout.index segs) -> NoDup (map m_of segs ++ parity_members).
Proof using Hlev.
  intros Ha HF Hnd. pose proof (here_parity_ok g D Hlev a Ha) as Hpo. destruct (role_of_parity g s Hpo) as [RP RQ].
  assert (raid6 g = true -> Layout.role_of g s (Layout.q_member g s) = Layout.Q) as RQ' by (intros E; apply RQ; unfold raid6 in E; by apply bool_decide_eq_true in E).
  apply (NoDup_fmap_1 (Layout.role_of g s)). rewrite fmap_app. apply NoDup_app. split_and!.
  - assert (Layout.role_of g s <$> map m_of segs = Layout.Data <$> map Layout.index segs) as ->.
    { clear Hnd. induction HF as [|sg segs Hsg _ IH]; [done|]. cbn [map]. rewrite !fmap_cons, IH. f_equal. by apply (data_of_seg sg a). }
    apply NoDup_fmap_2; [|done]. by intros x y [= ->].
  - intros r (i & -> & (sg & -> & Hin)%list_elem_of_fmap)%list_elem_of_fmap. rewrite Forall_forall in HF.
    rewrite (proj2 (data_of_seg sg a Ha (HF sg Hin))). unfold parity_members. rewrite fmap_cons, RP. intros [[=]|Hq]%elem_of_cons.
    destruct (raid6 g); [|by apply elem_of_nil in Hq]. cbn in Hq. rewrite RQ' in Hq by done. by apply list_elem_of_singleton in Hq.
  - unfold parity_members. rewrite fmap_cons, RP. destruct (raid6 g); cbn; [rewrite RQ' by done|].
    + apply NoDup_cons. split; [by intros H%list_elem_of_singleton|apply NoDup_singleton].
    + apply NoDup_singleton.
Qed.

(** A column written to the members of some data strips and of the parity. *)
Lemma column_write h vk vk1 lo n segs f p q a : here a -> snapshot h a -> 0 <= lo -> 0 <= n -> lo + n <= u ->
  Forall (seg_ok v' buf) segs -> NoDup (map Layout.index segs) -> (forall sg, sg ∈ segs -> buf_ok n (f sg)) -> buf_ok n p -> buf_ok n q ->
  let at_ := DATA_OFFSET + s * u + lo in
  let '(r, a') := issue_writes h (map (fun sg => (data_at g s sg, at_, f sg)) segs ++ parity_writes g s at_ p q) a in
  evolves in_unit a a' /\ (forall j, j ∉ map m_of segs ++ parity_members -> limit a' j = limit a j) /\
  (r = Ok () -> (forall sg, sg ∈ segs -> f sg = tab n (fun j => vk1 (addr g s (Layout.index sg) (lo + j)))) ->
    (limit a (Layout.p_member g s) = 0 \/ p = tab n (fun j => xsum (column g vk1 s (lo + j)))) ->
    (raid6 g = true -> limit a (Layout.q_member g s) = 0 \/ q = tab n (fun j => horner (column g vk1 s (lo + j)))) ->
    (forall d o, 0 <= d < dc -> 0 <= o < u -> vk1 (addr g s d o) = vk (addr g s d o) \/ (lo <= o < lo + n /\ d ∈ map Layout.index segs)) ->
    unit_ok a vk s -> unit_ok a' vk1 s).
Proof using Hlev Hs HD.
  intros Ha Hh Hlo Hn Hln HF Hnd Hf Hp Hq at_. pose proof (here_parity_ok g D Hlev a Ha) as Hpo. destruct (role_of_parity g s Hpo) as [RP RQ].
  set (ws := map (fun sg => (data_at g s sg, at_, f sg)) segs ++ parity_writes g s at_ p q).
  assert (map target_of ws = map m_of segs ++ parity_members) as Hms.
  { unfold ws, parity_writes, parity_members. rewrite map_app, map_map. f_equal. cbn. by destruct (raid6 g). }
  assert (forall w, w ∈ ws -> (exists sg, sg ∈ segs /\ w = (m_of sg, at_, f sg)) \/ w = (Layout.p_member g s, at_, p) \/ (raid6 g = true /\ w = (Layout.q_member g s, at_, q))) as Hws.
  { intros w [(sg & -> & Hin)%list_elem_of_fmap|Hw]%elem_of_app; [left; by exists sg|right]. unfold parity_writes in Hw.
    apply elem_of_cons in Hw as [->|Hw]; [by left|]. destruct (raid6 g); [|by apply elem_of_nil in Hw]. apply list_elem_of_singleton in Hw. auto. }
  pose proof (column_issued g D s Hlev Hs HD vk vk1 h lo n ws a Ha Hh Hlo Hn Hln) as H. rewrite Hms in H. specialize (H ltac:(by eapply written_apart)).
  destruct (issue_writes h ws a) as [r a']. destruct H as (H1 & H2 & H3).
  { apply Forall_forall. intros w [(sg & Hin & ->)|[->|[_ ->]]]%Hws; (split; [unfold at_; cbn; lia|cbn]); auto. }
  split_and!; [done..|]. intros Hr Ef Ep Eq Hd Hu. apply H3; [done| | | | |done].
  - intros w Hw. destruct (Hws w Hw) as [(sg & Hin & ->)|[->|[E6 ->]]]; cbn [fst snd]; unfold strip_at.
    + rewrite Forall_forall in HF. destruct (data_of_seg sg a Ha (HF sg Hin)) as [Hr1 ->]. split; [done|right; by apply Ef].
    + rewrite RP. split; [apply (parity_range a); [done|left]|exact Ep].
    + rewrite RQ by (unfold raid6 in E6; by apply bool_decide_eq_true in E6). split; [|by apply Eq].
      apply (parity_range a); [done|]. unfold parity_members. rewrite E6. right; left.
  - apply elem_of_app. right. left.
  - intros E6. apply elem_of_app. right. unfold parity_members. rewrite E6. right; left.
  - intros d o Hdd Ho. destruct (Hd d o Hdd Ho) as [|[H4 (sg & -> & Hin)%list_elem_of_fmap]]; [by left|right]. split; [done|].
    apply elem_of_app. left. apply list_elem_of_fmap. by exists sg.
Qed.

(** *** The strips, with a piece laid over them *)

Lemma piece_place sg j : seg_ok v' buf sg -> piece_at g s sg + j = addr g s (Layout.index sg) (Layout.offset_in_unit sg + j).
Proof. unfold piece_at, addr. lia. Qed.
Lemma piece_ok sg : seg_ok v' buf sg -> buf_ok (Layout.len sg) (piece buf sg).
Proof using Hv'. intros [_ _ (_ & H & _) E]. rewrite E. apply buf_tab; [lia|]. intros j _. apply Hv'. Qed.
Lemma in_segs sg d o : seg_ok v' buf sg -> 0 <= d < dc -> 0 <= o < u ->
  in_piece g s (addr g s d o) sg = bool_decide (d = Layout.index sg /\ Layout.offset_in_unit sg <= o < Layout.offset_in_unit sg + Layout.len sg).
Proof.
  intros [_ _ (H1 & _ & H2) _] Hd Ho. pose proof (in_piece_addr g s sg d o Hd Ho H1 H2) as H.
  destruct (in_piece g s (addr g s d o) sg) eqn:E; symmetry; [by apply bool_decide_eq_true, H|].
  apply bool_decide_eq_false. intros Hx. by apply H in Hx.
Qed.
Lemma splice_tab n o k f h : 0 <= o -> 0 <= k -> o + k <= n ->
  splice (tab n f) o (tab k h) = tab n (fun j => if decide (o <= j < o + k) then h (j - o) else f j).
Proof.
  intros Ho Hk Hn. rewrite (bytes_as_tab (splice _ _ _) n) by (rewrite zlen_splice; rewrite ?zlen_tab; lia). apply tab_ext. intros j Hj.
  rewrite at_splice by (rewrite ?zlen_tab; lia). rewrite (zlen_tab k) by done.
  destruct (Z.leb_spec o j), (Z.ltb_spec j (o + k)); cbn [andb]; case_decide; try lia; by rewrite at_tab by lia.
Qed.
Lemma strips_patch l sg lo n : seg_ok v' buf sg -> 0 <= lo <= Layout.offset_in_unit sg -> Layout.offset_in_unit sg + Layout.len sg <= lo + n -> lo + n <= u ->
  strips g (patch v v' (l ++ [sg])) s lo n =
  alter (fun d => splice d (Layout.offset_in_unit sg - lo) (piece buf sg)) (Z.to_nat (Layout.index sg)) (strips g (patch v v' l) s lo n).
Proof.
  intros Hsg Hlo Hn Hu. pose proof (so_index _ _ _ _ _ Hsg) as Hi. destruct (so_range _ _ _ _ _ Hsg) as (R1 & R2 & R3).
  apply list_eq_same_length with (n := Z.to_nat dc); [by rewrite ?length_alter, length_strips..|].
  intros i x y Hlt. replace i with (Z.to_nat (Z.of_nat i)) by lia. set (d := Z.of_nat i). assert (0 <= d < dc) as Hd by lia.
  rewrite strips_lookup by done. intros E1. apply (inj Some) in E1. subst x.
  destruct (decide (d = Layout.index sg)) as [Ed|Hne].
  - rewrite <- Ed, list_lookup_alter, decide_True, strips_lookup by done. cbn. intros E2. apply (inj Some) in E2. subst y.
    rewrite (so_piece _ _ _ _ _ Hsg), splice_tab by lia. apply tab_ext. intros j Hj. rewrite patch_snoc, (in_segs sg) by (done || lia).
    case_bool_decide as Hc; case_decide as Hc2; try lia. f_equal. rewrite piece_place by done. rewrite <- Ed. f_equal. lia.
  - rewrite list_lookup_alter, decide_False, strips_lookup by (done || lia). intros E2. apply (inj Some) in E2. subst y.
    apply tab_ext. intros j Hj. rewrite patch_snoc, (in_segs sg) by (done || lia). by rewrite bool_decide_false by by intros [].
Qed.
Lemma patch_differs l k d o : Forall (seg_ok v' buf) k -> 0 <= d < dc -> 0 <= o < u ->
  patch v v' (l ++ k) (addr g s d o) = patch v v' l (addr g s d o) \/
  exists sg, sg ∈ k /\ d = Layout.index sg /\ Layout.offset_in_unit sg <= o < Layout.offset_in_unit sg + Layout.len sg.
Proof.
  intros HF Hd Ho. unfold patch. rewrite existsb_app. destruct (existsb _ l); [by left|]. cbn [orb].
  destruct (existsb _ k) eqn:E; [right|by left]. apply existsb_exists in E as (sg & Hin%list_elem_of_In & Hp). exists sg. split; [done|].
  rewrite Forall_forall in HF. rewrite (in_segs sg) in Hp by (done || by apply HF). by apply bool_decide_eq_true in Hp.
Qed.

(** ** Read-modify-write *)

(** What a write leaves of a stripe: nothing else touched, and of the pieces the ones
    [k] written, by the answer. *)
Definition outcome {A} (l : list segment) (post : A -> list segment -> Prop) (a : RaidArray) (ra : result RaidError A * RaidArray) : Prop :=
  evolves in_unit a (snd ra) /\
  (unit_ok a (patch v v' l) s -> match fst ra with Ok x => exists k, post x k /\ unit_ok (snd ra) (patch v v' (l ++ k)) s | Err _ => True end).
Lemma outcome_err {A} l (post : A -> list segment -> Prop) a a' e : evolves in_unit a a' -> outcome l post a (Err e, a').
Proof. by split. Qed.
Lemma in_unit_any a a' : evolves nowhere a a' -> evolves in_unit a a'.
Proof. apply evolves_any. Qed.
Lemma unit_nowhere a a' w : evolves nowhere a a' -> unit_ok a w s -> unit_ok a' w s.
Proof. intros H. apply (unit_ok_evolves nowhere); [done|]. by intros i x _ _ []. Qed.

Lemma lost_spec l segs who e a : outcome (A := bool) l (fun b k => k ⊆ segs /\ (b = true -> k = segs)) a ((let* ok := fail_member who in if ok : bool then ret false else fail e) a).
Proof.
  unfold seq, fail_member. pose proof (fail_spec who false a) as H. destruct (fail_member_as who false a) as [[] b]; destruct H as (H & _).
  - split; cbn; [by apply in_unit_any|]. intros Hu. exists []. split; [split; [by intros x Hx%elem_of_nil|done]|]. rewrite app_nil_r. by eapply unit_nowhere.
  - apply outcome_err. by apply in_unit_any.
Qed.

(** One piece: the old data and parity read, the new written. *)
Definition rmw_piece (h : list bool) (sg : segment) (old p q : bytes) : M () :=
  let n := Layout.len sg in
  let at_ := DATA_OFFSET + s * u + Layout.offset_in_unit sg in
  let delta := xor_in_place_at cpu simd old (piece buf sg) in
  issue_writes h ((m_of sg, at_, piece buf sg) :: parity_writes g s at_ (xor_in_place_at cpu simd p delta) (q_update cpu simd q delta (Layout.index sg))).

Lemma held_reads a w i lo n b : here a -> store_bytes w -> unit_ok a w s -> 0 <= i < Layout.n g -> (s + 1) * u <= limit a i -> 0 <= lo -> 0 <= n -> lo + n <= u ->
  b = tab n (fun j => val a i (s * u + lo + j)) -> b = tab n (fun j => strip_at g s w i (lo + j)).
Proof using Hlev Hs HD.
  intros Ha Hw Hu Hi Hl Hlo Hn Hln ->. apply tab_ext. intros j Hj. rewrite (unit_ok_strips g D s Hlev Hs HD) in Hu by done.
  rewrite <- Z.add_assoc. apply Hu; [done|lia|nia].
Qed.
Lemma rmw_piece_spec h l sg old p q a : here a -> snapshot h a -> seg_ok v' buf sg ->
  buf_ok (Layout.len sg) old -> buf_ok (Layout.len sg) p -> buf_ok (Layout.len sg) q ->
  let '(r, a') := rmw_piece h sg old p q a in
  evolves in_unit a a' /\ (forall j, j ∉ m_of sg :: parity_members -> limit a' j = limit a j) /\
  (r = Ok () -> unit_ok a (patch v v' l) s ->
    let w := patch v v' l in let lo := Layout.offset_in_unit sg in let n := Layout.len sg in
    old = tab n (fun j => strip_at g s w (m_of sg) (lo + j)) ->
    (limit a (Layout.p_member g s) = 0 \/ p = tab n (fun j => strip_at g s w (Layout.p_member g s) (lo + j))) ->
    (raid6 g = true -> limit a (Layout.q_member g s) = 0 \/ q = tab n (fun j => strip_at g s w (Layout.q_member g s) (lo + j))) ->
    unit_ok a' (patch v v' (l ++ [sg])) s).
Proof using Hlev Hs HD Hv Hv'.
  intros Ha Hh Hsg Ho Hp Hq. destruct (so_range _ _ _ _ _ Hsg) as (R1 & R2 & R3). pose proof (so_index _ _ _ _ _ Hsg) as Ri.
  pose proof (piece_ok sg Hsg) as Hnew. unfold rmw_piece. set (n := Layout.len sg) in *. set (lo := Layout.offset_in_unit sg) in *.
  set (delta := xor_in_place_at cpu simd old (piece buf sg)). assert (buf_ok n delta) as Hd by (by apply buf_xor).
  pose proof (column_write h (patch v v' l) (patch v v' (l ++ [sg])) lo n [sg] (fun sg => piece buf sg)
    (xor_in_place_at cpu simd p delta) (q_update cpu simd q delta (Layout.index sg)) a Ha Hh R1 ltac:(lia) R3) as H.
  specialize (H ltac:(by constructor) ltac:(apply NoDup_singleton) ltac:(intros sg' ->%list_elem_of_singleton; done) ltac:(by apply buf_xor) ltac:(by apply buf_q_update)).
  cbv zeta in H. cbn [map app] in H. unfold data_at in H. fold (m_of sg) in H.
  destruct (issue_writes h _ a) as [r a']. destruct H as (H1 & H2 & H3). split_and!; [done..|]. cbv zeta. intros Hr Hu Eo Ep Eq.
  pose proof (here_parity_ok g D Hlev a Ha) as Hpo. destruct (role_of_parity g s Hpo) as [RP RQ].
  set (D1 := strips g (patch v v' l) s lo n). assert (store_bytes (patch v v' l)) as Hb by (by apply patch_bytes).
  assert (strips_ok n D1) as HD1 by (by apply strips_bytes; [|lia]).
  assert (D1 !! Z.to_nat (Layout.index sg) = Some old) as HDo.
  { unfold D1. rewrite strips_lookup by done. f_equal. rewrite Eo. apply tab_ext. intros j _. unfold strip_at.
    by rewrite (proj2 (data_of_seg sg a Ha Hsg)). }
  assert (strips g (patch v v' (l ++ [sg])) s lo n = <[Z.to_nat (Layout.index sg) := piece buf sg]> D1) as HD2.
  { rewrite strips_patch by (done || lia). apply list_eq. intros i. rewrite list_lookup_alter. destruct (decide (Z.to_nat (Layout.index sg) = i)) as [<-|Hi].
    - fold D1. rewrite list_lookup_insert_eq by (by eapply lookup_lt_Some). rewrite HDo. cbn. f_equal.
      rewrite Z.sub_diag. unfold splice. destruct Hnew as [Hz _]. destruct Ho as [Hoz _]. rewrite take_0, drop_ge by (unfold zlen in *; lia). apply app_nil_r.
    - by rewrite list_lookup_insert_ne. }
  destruct (delta_exact cpu simd n D1 (Z.to_nat (Layout.index sg)) old (piece buf sg)) as [XP XQ]; [lia|done|done|apply Hnew|apply Hnew|].
  assert (delta = delta_of old (piece buf sg)) as Ed.
  { unfold delta. apply xor_in_place_at_zip; [|apply Ho|apply Hnew]. eapply buf_same; [apply Ho|apply Hnew]. }
  rewrite <- Ed, <- HD2 in XP, XQ. rewrite Z2Nat.id in XQ by lia. rewrite P_strips in XP. rewrite Q_strips in XQ.
  apply H3; [done| | | | |done].
  - intros sg' ->%list_elem_of_singleton. rewrite (so_piece _ _ _ _ _ Hsg). apply tab_ext. intros j Hj. rewrite patch_snoc, piece_place by done.
    by rewrite (in_segs sg), bool_decide_true by (done || lia).
  - destruct Ep as [Ep|Ep]; [by left|right]. rewrite <- XP. f_equal. rewrite Ep. unfold D1. rewrite P_strips. apply tab_ext. intros j _.
    unfold strip_at. by rewrite RP.
  - intros E6. destruct (Eq E6) as [Eq'|Eq']; [by left|right]. rewrite <- XQ. f_equal. rewrite Eq'. unfold D1. rewrite Q_strips. apply tab_ext. intros j _.
    unfold strip_at. by rewrite RQ by (unfold raid6 in E6; by apply bool_decide_eq_true in E6).
  - intros d o Hdd Hoo. destruct (patch_differs l [sg] d o) as [|(sg' & ->%list_elem_of_singleton & -> & Hr1)]; [by constructor|done|done|by left|right].
    split; [done|]. by apply list_elem_of_singleton.
Qed.

Lemma rd_here i lo n a : here a -> 0 <= lo -> 0 <= n -> lo + n <= u ->
  let '(r, a') := rd i (DATA_OFFSET + s * u + lo) n a in
  plans a a' /\ forall b, r = Ok b -> buf_ok n b /\ b = tab n (fun j => val a i (s * u + lo + j)).
Proof using Hs HD.
  intros Ha Hlo Hn Hln. pose proof (here_pos g D a Ha) as Hu. rewrite <- Z.add_assoc.
  pose proof (rd_plans i (DATA_OFFSET + (s * u + lo)) n a) as Hp. destruct (rd i _ n a) as [r a'] eqn:E. cbn in Hp. split; [done|].
  intros b ->. split.
  - apply (rd_buf i (s * u + lo) n a); [apply Ha|nia|done|destruct Ha as (_ & _ & ->); nia|by rewrite E].
  - apply (rd_val i (s * u + lo) n a); [by rewrite E|nia|done].
Qed.
(** The members read hold the stripe, or what is read of them is written to members that do not. *)
Lemma snap_reads h a w i lo n b : here a -> snapshot h a -> store_bytes w -> unit_ok a w s -> 0 <= i < Layout.n g -> held h i = true ->
  0 <= lo -> 0 <= n -> lo + n <= u -> b = tab n (fun j => val a i (s * u + lo + j)) -> limit a i = 0 \/ b = tab n (fun j => strip_at g s w i (lo + j)).
Proof using Hlev Hs HD.
  intros Ha Hh Hw Hu Hi Hheld Hlo Hn Hln Hb. destruct (Hh i Hi) as [_ H]. destruct (H Hheld) as [|Hl]; [by left|right].
  by eapply held_reads.
Qed.

Lemma outcome_evolves {A} l (post : A -> list segment -> Prop) a c ra : evolves nowhere a c -> outcome l post c ra -> outcome l post a ra.
Proof.
  intros Hc [H1 H2]. split; [eapply evolves_trans; [by apply in_unit_any|done]|]. intros Hu. apply H2. by eapply unit_nowhere.
Qed.
Lemma rd_q lo n a : here a -> 0 <= lo -> 0 <= n -> lo + n <= u ->
  let '(r, a') := (if raid6 g return S (result RaidError bytes) then rd (Layout.q_member g s) (DATA_OFFSET + s * u + lo) n else ret (zeros n)) a in
  plans a a' /\ forall b, r = Ok b -> buf_ok n b /\ (raid6 g = true -> b = tab n (fun j => val a (Layout.q_member g s) (s * u + lo + j))).
Proof using Hs HD.
  intros Ha Hlo Hn Hln. destruct (raid6 g).
  - pose proof (rd_here (Layout.q_member g s) lo n a Ha Hlo Hn Hln) as H. destruct (rd _ _ _ a) as [r a']. destruct H as [H1 H2]. split; [done|].
    intros b Hb. destruct (H2 b Hb). by split.
  - cbn. split; [apply plans_refl|]. intros b [= <-]. split; [by apply buf_zeros|done].
Qed.

Lemma rmw_piece_from h l sg old p q a d : here a -> snapshot h a -> plans a d -> seg_ok v' buf sg ->
  (forall i, i ∈ parity_members -> held h i = true) -> (s + 1) * u <= limit a (m_of sg) ->
  let n := Layout.len sg in let read_of i := tab n (fun j => val a i (s * u + Layout.offset_in_unit sg + j)) in
  buf_ok n old /\ old = read_of (m_of sg) -> buf_ok n p /\ p = read_of (Layout.p_member g s) -> buf_ok n q /\ (raid6 g = true -> q = read_of (Layout.q_member g s)) ->
  let '(r, a') := rmw_piece h sg old p q d in
  evolves in_unit a a' /\ (forall j, j ∉ m_of sg :: parity_members -> limit a' j = limit a j) /\
  (r = Ok () -> unit_ok a (patch v v' l) s -> unit_ok a' (patch v v' (l ++ [sg])) s).
Proof using Hlev Hs HD Hv Hv'.
  intros Ha Hh Pad Hsg Hpar Hlim n read_of [Bo Eo] [Bp Ep] [Bq Eq]. destruct (so_range _ _ _ _ _ Hsg) as (R1 & R2 & R3).
  pose proof (plans_evolves nowhere _ _ Pad) as Ead. assert (here d) as Hd by (by eapply here_evolves).
  assert (snapshot h d) as Hhd by (eapply snapshot_evolves; [done|by eapply here_pos|exact Ead|done]).
  pose proof (rmw_piece_spec h l sg old p q d Hd Hhd Hsg Bo Bp Bq) as H. destruct (rmw_piece h sg old p q d) as [r a']. destruct H as (E1 & L1 & U1).
  split_and!; [by eapply evolves_trans; [by apply in_unit_any|]|intros j Hj; by rewrite L1, (plans_limit a d)|].
  intros Hr Hu. assert (store_bytes (patch v v' l)) as Hbl by (by apply patch_bytes).
  assert (forall i, i ∈ parity_members -> limit d i = 0 \/ read_of i = tab n (fun j => strip_at g s (patch v v' l) i (Layout.offset_in_unit sg + j))) as Hs1.
  { intros i Hi. rewrite (plans_limit a d) by done. eapply snap_reads; [exact Ha|done|done|done| |by apply Hpar|done|lia|done|done]. by eapply parity_range. }
  apply U1; [done|by eapply unit_nowhere| | |].
  - rewrite Eo. eapply held_reads; [exact Ha|done|done| |done|done|lia|done|done]. by eapply data_of_seg.
  - rewrite Ep. apply Hs1. left.
  - intros E6. rewrite (Eq E6). apply Hs1. unfold parity_members. rewrite E6. right; left.
Qed.

(** The three reads of a piece. *)
Lemma rmw_spec h segs : forall l a, here a -> snapshot h a -> Forall (seg_ok v' buf) segs -> NoDup (map Layout.index segs) ->
  (forall i, i ∈ parity_members -> held h i = true) -> (forall sg, sg ∈ segs -> (s + 1) * u <= limit a (m_of sg)) ->
  outcome l (fun b k => k ⊆ segs /\ (b = true -> k = segs)) a (rmw cpu simd g h s segs buf a).
Proof using Hlev Hs HD Hv Hv'.
  induction segs as [|sg segs IH]; intros l a Ha Hh HF Hnd Hpar Hlim.
  { split; [apply evolves_refl|]. intros Hu. exists []. split; [by split|]. by rewrite app_nil_r. }
  pose proof (written_apart a (sg :: segs) Ha HF Hnd) as Hap. cbn [map app] in Hap, Hnd.
  apply Forall_cons in HF as [Hsg HF]. apply NoDup_cons in Hnd as [_ Hnd]. apply NoDup_cons in Hap as [Hap1 Hap2]. apply NoDup_app in Hap2 as (_ & Hap2 & _).
  destruct (so_range _ _ _ _ _ Hsg) as (R1 & R2 & R3). assert (0 <= Layout.len sg) as R2' by lia. cbn [rmw]. unfold seq at 1. unfold data_at. fold (m_of sg).
  pose proof (rd_here (m_of sg) _ _ a Ha R1 R2' R3) as Hro. destruct (rd (m_of sg) _ _ a) as [ro b]. destruct Hro as [Pb Hro].
  assert (here b) as Hb by (by eapply here_evolves; [by apply (plans_evolves nowhere)|]). unfold seq at 1.
  pose proof (rd_here (Layout.p_member g s) _ _ b Hb R1 R2' R3) as Hrp. destruct (rd (Layout.p_member g s) _ _ b) as [rp c]. destruct Hrp as [Pc Hrp].
  assert (here c) as Hc by (by eapply here_evolves; [by apply (plans_evolves nowhere)|]). assert (plans a c) as Pac by (by eapply plans_trans).
  pose proof (plans_evolves nowhere _ _ Pac) as Eac.
  destruct rp as [p|e]; [|by apply (outcome_evolves l _ a c _ Eac); destruct ro; apply lost_spec]. destruct ro as [old|e]; [|by apply (outcome_evolves l _ a c _ Eac), lost_spec].
  unfold seq at 1. pose proof (rd_q _ _ c Hc R1 R2' R3) as Hrq.
  destruct ((if raid6 g return S (result RaidError bytes) then rd (Layout.q_member g s) (DATA_OFFSET + s * u + Layout.offset_in_unit sg) (Layout.len sg) else ret (zeros (Layout.len sg))) c) as [rq d].
  destruct Hrq as [Pd Hrq]. assert (plans a d) as Pad by (by eapply plans_trans).
  destruct rq as [q|e]; [|by apply (outcome_evolves l _ a d _ (plans_evolves nowhere _ _ Pad)), lost_spec].
  pose proof (rmw_piece_from h l sg old p q a d Ha Hh Pad Hsg Hpar ltac:(apply Hlim; left) (Hro old eq_refl)) as Hpc. cbv zeta in Hpc.
  specialize (Hpc ltac:(destruct (Hrp p eq_refl) as [X Y]; split; [exact X|rewrite Y; apply tab_ext; intros; by apply plans_val])
    ltac:(destruct (Hrq q eq_refl) as [X Y]; split; [exact X|intros E6; rewrite (Y E6); apply tab_ext; intros; by apply plans_val])).
  unfold rmw_piece in Hpc. unfold bind at 1, seq at 1.
  destruct (issue_writes h _ d) as [[[]|e] f]; destruct Hpc as (E1 & L1 & U1); [|by apply outcome_err].
  assert (here f) as Hf by (by eapply here_evolves).
  destruct (IH (l ++ [sg]) f Hf ltac:(by eapply snapshot_evolves; [|eapply here_pos| |]) HF Hnd Hpar) as [I1 I2].
  { intros sg' Hin. rewrite L1; [apply Hlim; by right|]. assert (m_of sg' ∈ map m_of segs) as Hm by (apply list_elem_of_fmap; by exists sg').
    intros [Hx|Hx]%elem_of_cons; [|by apply (Hap2 _ Hm)]. apply Hap1, elem_of_app. left. by rewrite <- Hx. }
  split; [by eapply evolves_trans|]. intros Hu. specialize (I2 (U1 eq_refl Hu)). destruct (rmw cpu simd g h s segs buf f) as [[x|e] a']; cbn in *; [|done].
  destruct I2 as (k & [Hk1 Hk2] & Hk3). exists (sg :: k). rewrite <- app_assoc in Hk3. split; [|done].
  split; [intros z [->|Hz]%elem_of_cons; [left|right; by apply Hk1]|]. intros Hx. by rewrite Hk2.
Qed.

(** ** Reconstruction *)

Lemma read_column_here w lo n a : here a -> store_bytes w -> unit_ok a w s -> 0 <= lo -> 0 <= n -> lo + n <= u ->
  remains_of n (strips g w s lo n) (fst (read_column g s lo n a)).
Proof using Hlev Hs HD.
  intros Ha Hw Hu Hlo Hn Hln. pose proof (here_parity g D Hlev a Ha) as Hp. destruct Ha as (Hwf & Hg & Hd).
  assert (unit_size a = u) as Eu by (by rewrite <- Hg).
  pose proof (read_column_spec a Hwf Hp w s lo n Hw Hu Hs ltac:(rewrite Eu; lia) Hlo Hn ltac:(lia)) as H. rewrite Hg in H.
  destruct (read_column g s lo n a). by destruct H.
Qed.
Lemma strips_count w lo n a : here a -> zlen (strips g w s lo n) <= 255 /\ strips g w s lo n <> [].
Proof using Hlev.
  intros Ha. pose proof (here_dc g D Hlev a Ha) as Hdc. pose proof (length_strips g w s lo n) as Hl. split; [unfold zlen; lia|].
  intros E. rewrite E in Hl. cbn in Hl. lia.
Qed.
Lemma recover_here w lo n st out a : here a -> store_bytes w -> 0 <= n -> remains_of n (strips g w s lo n) st ->
  recover cpu simd n st = Ok (Some out) ->
  out = SS (map Some (strips g w s lo n)) (Some (P_of n (strips g w s lo n))) (match ss_q st with None => None | Some _ => Some (Some (Q_of n (strips g w s lo n))) end).
Proof using Hlev.
  intros Ha Hw Hn Hrem E. destruct (strips_count w lo n a Ha) as [H1 H2].
  rewrite (recover_exact cpu simd n (strips g w s lo n)) in E; [|done|done|done|by apply strips_bytes|done].
  destruct (_ <? _); [done|]. by apply (inj Ok), (inj Some) in E.
Qed.

(** The bytes the pieces span. *)
Lemma span segs : segs <> [] -> Forall (seg_ok v' buf) segs ->
  let lo := foldr Z.min u (map Layout.offset_in_unit segs) in
  let hi := foldr Z.max 0 (map (fun s => Layout.offset_in_unit s + Layout.len s) segs) in
  0 <= lo /\ lo <= hi /\ hi <= u /\ Forall (fun sg => lo <= Layout.offset_in_unit sg /\ Layout.offset_in_unit sg + Layout.len sg <= hi) segs.
Proof.
  intros Hne HF. cbv zeta. set (lo := foldr _ _ _). set (hi := foldr _ _ _).
  assert (Forall (fun sg => lo <= Layout.offset_in_unit sg /\ Layout.offset_in_unit sg + Layout.len sg <= hi) segs /\ (0 <= u -> 0 <= lo) /\ (0 <= u -> hi <= u)) as (H1 & H2 & H3).
  { unfold lo, hi. clear Hne lo hi. induction HF as [|sg segs [_ _ (R1 & R2 & R3) _] _ (I1 & I2 & I3)]; [by split_and!|]. cbn [map foldr].
    split_and!; [|intros Hu; specialize (I2 Hu); lia|intros Hu; specialize (I3 Hu); lia]. constructor; [lia|].
    eapply Forall_impl; [exact I1|]. intros x [Hx1 Hx2]. cbn beta. lia. }
  destruct segs as [|sg segs]; [done|]. apply Forall_cons in HF as [[_ _ (R1 & R2 & R3) _] _]. pose proof H1 as H1'. apply Forall_cons in H1' as [[] _].
  split_and!; [apply H2; lia|lia|apply H3; lia|done].
Qed.
Lemma lay_strips lo n segs : forall l, 0 <= lo -> lo + n <= u -> Forall (seg_ok v' buf) segs ->
  Forall (fun sg => lo <= Layout.offset_in_unit sg /\ Layout.offset_in_unit sg + Layout.len sg <= lo + n) segs ->
  foldl (lay lo buf) (map Some (strips g (patch v v' l) s lo n)) segs = map Some (strips g (patch v v' (l ++ segs)) s lo n).
Proof.
  induction segs as [|sg segs IH]; intros l Hlo Hn HF Hr; [by rewrite app_nil_r|]. apply Forall_cons in HF as [Hsg HF]. apply Forall_cons in Hr as [[R1 R2] Hr].
  cbn [foldl]. assert (lay lo buf (map Some (strips g (patch v v' l) s lo n)) sg = map Some (strips g (patch v v' (l ++ [sg])) s lo n)) as ->.
  { rewrite strips_patch by done. symmetry. apply (list_fmap_alter Some). by apply Forall_true. }
  rewrite (cons_middle sg l segs), app_assoc. by apply IH.
Qed.
Lemma lay_filled lo n segs : forall data, 0 <= lo -> Forall (seg_ok v' buf) segs ->
  Forall (fun sg => lo <= Layout.offset_in_unit sg /\ Layout.offset_in_unit sg + Layout.len sg <= lo + n) segs ->
  Forall (filled n) data -> Forall (filled n) (foldl (lay lo buf) data segs) /\ length (foldl (lay lo buf) data segs) = length data.
Proof using Hv'.
  induction segs as [|sg segs IH]; intros data Hlo HF Hr Hd; [done|]. apply Forall_cons in HF as [Hsg HF]. apply Forall_cons in Hr as [[R1 R2] Hr].
  cbn [foldl]. destruct (IH (lay lo buf data sg)) as [H1 H2]; [done..| |split; [done|]].
  - unfold lay. apply Forall_alter; [done|]. intros o _ (b & -> & Hz & Hb). cbn. exists (splice b (Layout.offset_in_unit sg - lo) (piece buf sg)).
    destruct (piece_ok sg Hsg) as [Pz Pb]. split; [done|]. split; [rewrite zlen_splice; lia|by apply all_bytes_splice].
  - rewrite H2. apply length_alter.
Qed.

Lemma filled_strips n data : Forall (filled n) data -> Forall (buf_ok n) (map unwrap data).
Proof. intros H. apply Forall_map. eapply Forall_impl; [exact H|]. by intros o (b & -> & Hb). Qed.
Lemma filled_shape n st : shaped g n st -> Forall (strip_ok n) (ss_data st) /\ strip_ok n (ss_p st) /\ strip_ok n (default None (ss_q st)).
Proof. by intros []. Qed.

(** The parity of whole strips and their write to the members of the pieces. *)
Lemma strips_write h l segs lo n data a : here a -> snapshot h a -> 0 <= lo -> 0 <= n -> lo + n <= u ->
  Forall (seg_ok v' buf) segs -> NoDup (map Layout.index segs) -> Forall (buf_ok n) data -> length data = Z.to_nat dc ->
  Forall (fun sg => lo <= Layout.offset_in_unit sg /\ Layout.offset_in_unit sg + Layout.len sg <= lo + n) segs ->
  exists p q, parity_of cpu simd g data n = Some (p, q) /\
  forall at_, at_ = DATA_OFFSET + s * u + lo ->
  let '(r, a') := issue_writes h (map (fun sg => (data_at g s sg, at_, nth (Z.to_nat (Layout.index sg)) data [])) segs ++ parity_writes g s at_ p q) a in
  evolves in_unit a a' /\
  (r = Ok () -> data = strips g (patch v v' (l ++ segs)) s lo n -> unit_ok a (patch v v' l) s -> unit_ok a' (patch v v' (l ++ segs)) s).
Proof using Hlev Hs HD Hv Hv'.
  intros Ha Hh Hlo Hn Hln HF Hnd Hdata Hlen Hr. pose proof (here_dc g D Hlev a Ha) as Hdc.
  assert (data <> []) as Hne by (intros ->; cbn in Hlen; lia).
  exists (P_of n data), (if raid6 g then Q_of n data else zeros n). split; [by apply parity_of_ok|]. intros at_ ->.
  pose proof (column_write h (patch v v' l) (patch v v' (l ++ segs)) lo n segs (fun sg => nth (Z.to_nat (Layout.index sg)) data [])
    (P_of n data) (if raid6 g then Q_of n data else zeros n) a Ha Hh Hlo Hn Hln HF Hnd) as H.
  specialize (H ltac:(intros sg Hin; rewrite Forall_forall in HF; pose proof (so_index _ _ _ _ _ (HF sg Hin)) as Hi; rewrite Forall_forall in Hdata; apply Hdata, list_elem_of_In, nth_In; lia)
    ltac:(by apply P_of_ok) ltac:(destruct (raid6 g); [by apply Q_of_ok|by apply buf_zeros])). cbv zeta in H.
  destruct (issue_writes h _ a) as [r a']. destruct H as (H1 & H2 & H3). split; [done|]. intros Hok E Hu. apply H3; [done| | | | |done].
  - intros sg Hin. rewrite Forall_forall in HF. rewrite E. apply nth_lookup_Some, strips_lookup. by apply (so_index _ _ _ _ _ (HF sg Hin)).
  - right. rewrite E. apply P_strips.
  - intros ->. right. rewrite E. apply Q_strips.
  - intros d o Hd Ho. destruct (patch_differs l segs d o HF Hd Ho) as [|(sg & Hin & -> & Hin2)]; [by left|right]. rewrite Forall_forall in Hr.
    specialize (Hr sg Hin). split; [lia|]. apply list_elem_of_fmap. by exists sg.
Qed.
Lemma reconstruct_write_spec h l segs a : here a -> snapshot h a -> Forall (seg_ok v' buf) segs -> NoDup (map Layout.index segs) -> segs <> [] ->
  outcome l (fun (_ : ()) k => k = segs) a (reconstruct_write cpu simd g h s segs buf a).
Proof using Hlev Hs HD Hv Hv'.
  intros Ha Hh HF Hnd Hne. unfold reconstruct_write. destruct (span segs Hne HF) as (Hlo & Hlh & Hhi & Hr). cbv zeta in *.
  set (lo := foldr Z.min u (map Layout.offset_in_unit segs)) in *.
  set (hi := foldr Z.max 0 (map (fun s => Layout.offset_in_unit s + Layout.len s) segs)) in *. unfold seq at 1. pose proof (here_pos g D a Ha) as Hup. pose proof (here_dc g D Hlev a Ha) as Hdc.
  pose proof (read_column_shape g s lo (hi - lo) a ltac:(apply Ha) Hs ltac:(lia) ltac:(destruct Ha as (_ & _ & ->); lia) Hlo ltac:(lia) ltac:(lia)) as Hsh.
  pose proof (fun w Hw Hu => read_column_here w lo (hi - lo) a Ha Hw Hu Hlo ltac:(lia) ltac:(lia)) as Hrem.
  destruct (read_column g s lo (hi - lo) a) as [st b]. cbn [fst] in Hrem. destruct Hsh as [Hsh Eb].
  destruct (recover cpu simd (hi - lo) st) as [[out|]|e] eqn:Er; [|by apply outcome_err, in_unit_any..].
  destruct (filled_shape _ _ Hsh) as (S1 & S2 & S3). assert (ss_data st <> []) as Hst.
  { intros E0. pose proof (sh_count _ _ _ Hsh) as Hc. rewrite E0 in Hc. cbn in Hc. lia. }
  destruct (recover_lengths cpu simd (hi - lo) ltac:(lia) st out Hst S1 S2 S3 Er) as [F1 F2].
  assert (Forall (fun sg => lo <= Layout.offset_in_unit sg /\ Layout.offset_in_unit sg + Layout.len sg <= lo + (hi - lo)) segs) as Hr'.
  { eapply Forall_impl; [exact Hr|]. intros sg. cbn beta. lia. }
  destruct (lay_filled lo (hi - lo) segs (ss_data out) Hlo HF Hr' F1) as [F3 F4].
  destruct (strips_write h l segs lo (hi - lo) (map unwrap (foldl (lay lo buf) (ss_data out) segs)) b) as (p & q & -> & Hw);
    [by eapply here_evolves|by eapply snapshot_evolves|done|lia|lia|done|done|by apply filled_strips|by rewrite length_map, F4, F2, (sh_count _ _ _ Hsh)|done|].
  specialize (Hw _ eq_refl). destruct (issue_writes h _ b) as [[[]|e] a']; destruct Hw as [W1 W2].
  - split; [by eapply evolves_trans; [by apply in_unit_any|]|]. cbn. intros Hu. exists segs. split; [done|]. apply W2; [done| |by eapply unit_nowhere].
    assert (store_bytes (patch v v' l)) as Hb by (by apply patch_bytes). specialize (Hrem (patch v v' l) Hb Hu).
    rewrite (recover_here _ lo (hi - lo) st out a Ha Hb ltac:(lia) Hrem Er). cbn [ss_data]. rewrite lay_strips by (done || lia). by rewrite map_unwrap_all.
  - apply outcome_err. by eapply evolves_trans; [by apply in_unit_any|].
Qed.

(** ** A whole stripe *)

(** The pieces of a stripe, in order. *)
Record group_ok (segs : list segment) : Prop := {
  go_segs : Forall (seg_ok v' buf) segs;
  go_some : segs <> [];
  go_order : StronglySorted Z.lt (map Layout.index segs) }.
Lemma group_apart segs : group_ok segs -> NoDup (map Layout.index segs).
Proof. intros [_ _ H]. by apply increasing_NoDup. Qed.
Lemma increasing_full l : forall lo, StronglySorted Z.lt l -> Forall (fun x => lo <= x < lo + zlen l) l -> l = zseq lo (length l).
Proof.
  induction l as [|x r IH]; intros lo Hs1 HF; [done|]. inversion_clear Hs1 as [|? ? Hr Hx]. apply Forall_cons in HF as [H1 HF]. rewrite zlen_cons in *.
  assert (r = zseq (lo + 1) (length r)) as Er.
  { apply IH; [done|]. rewrite Forall_forall in *. intros y Hy. specialize (Hx y Hy). specialize (HF y Hy). lia. }
  cbn [length zseq]. f_equal; [|by rewrite Er at 1; f_equal; lia].
  destruct r as [|y r]; [unfold zlen in H1; cbn in H1; lia|]. cbn [length zseq] in Er. apply (f_equal hd_error) in Er. cbn in Er. injection Er as ->.
  apply Forall_cons in Hx as [Hx _]. lia.
Qed.
Lemma full_stripe_segs segs : group_ok segs -> full_stripe g segs = true ->
  map Layout.index segs = zrange 0 dc /\ Forall (fun sg => Layout.offset_in_unit sg = 0 /\ Layout.len sg = u) segs.
Proof.
  intros [HF Hne Hso] [Hz Ha]%andb_true_iff. apply Z.eqb_eq in Hz. split.
  - assert (dc = zlen (map Layout.index segs)) as Ed by (unfold zlen in *; by rewrite length_map). unfold zrange. rewrite Ed. unfold zlen at 1.
    rewrite Z.sub_0_r, Nat2Z.id. apply increasing_full; [done|]. apply Forall_map. eapply Forall_impl; [exact HF|]. intros sg [_ Hi _ _]. cbn. rewrite <- Ed. lia.
  - apply Forall_forall. intros sg Hin. rewrite forallb_forall in Ha. specialize (Ha sg (proj1 (list_elem_of_In _ _) Hin)). bprop. split; [done|lia].
Qed.
Lemma full_data l segs : group_ok segs -> full_stripe g segs = true ->
  map (fun sg => slice (Layout.buf_offset sg) u buf) segs = strips g (patch v v' (l ++ segs)) s 0 u.
Proof.
  intros Hg Hf. destruct (full_stripe_segs segs Hg Hf) as [Hi Hu]. destruct Hg as [HF _ _]. unfold strips. rewrite <- Hi, map_map.
  apply map_ext_Forall, Forall_forall. intros sg Hin. rewrite Forall_forall in HF, Hu. specialize (HF sg Hin). destruct (Hu sg Hin) as [Eo El].
  pose proof (so_piece _ _ _ _ _ HF) as E. unfold piece in E. rewrite El in E. rewrite E. apply tab_ext. intros j Hj.
  pose proof (so_index _ _ _ _ _ HF) as Hx. unfold patch. rewrite existsb_app. assert (existsb (in_piece g s (addr g s (Layout.index sg) (0 + j))) segs = true) as ->.
  { apply existsb_exists. exists sg. split; [by apply list_elem_of_In|]. rewrite (in_segs sg) by (done || lia). apply bool_decide_eq_true. lia. }
  rewrite orb_true_r. f_equal. rewrite piece_place by done. by rewrite Eo.
Qed.
Lemma full_write_spec h l segs a : here a -> snapshot h a -> group_ok segs -> full_stripe g segs = true ->
  outcome l (fun (_ : ()) k => k = segs) a (full_write cpu simd g h s segs buf a).
Proof using Hlev Hs HD Hv Hv'.
  intros Ha Hh Hg Hf. unfold full_write. pose proof (here_pos g D a Ha) as Hup. destruct (full_stripe_segs segs Hg Hf) as [Hi Hu].
  pose proof (go_segs _ Hg) as HF. set (data := map (fun sg => slice (Layout.buf_offset sg) u buf) segs).
  destruct (strips_write h l segs 0 u data a) as (p & q & -> & Hw); [done|done|done|lia|lia|done|by apply group_apart| | | |].
  - apply Forall_map. eapply Forall_impl; [exact (proj2 (Forall_and _ _) (conj HF Hu))|]. intros sg [Hsg [_ El]]. cbn.
    pose proof (piece_ok sg Hsg) as Hp. unfold piece in Hp. by rewrite El in Hp.
  - unfold data. rewrite length_map, <- (length_map Layout.index), Hi. unfold zrange. rewrite length_zseq. f_equal. lia.
  - eapply Forall_impl; [exact Hu|]. intros sg [-> ->]. lia.
  - specialize (Hw (DATA_OFFSET + s * u) ltac:(lia)). destruct (issue_writes h _ a) as [[[]|e] a']; destruct Hw as [W1 W2]; [|by apply outcome_err].
    split; [done|]. cbn. intros Hok. exists segs. split; [done|]. apply W2; [done| |done]. by apply full_data.
Qed.

Definition all_written (segs : list segment) : () -> list segment -> Prop := fun _ k => k ⊆ segs /\ segs ⊆ k.
Lemma check_spec l segs k a (m : M ()) : outcome l (fun (_ : ()) k' => k' = k) a (m a) -> all_written segs () k ->
  outcome l (all_written segs) a ((try _ := m in check_after_write) a).
Proof.
  intros [H1 H2] Hk. unfold bind, seq. destruct (m a) as [[[]|e] a']; cbn in *; [|by apply outcome_err]. unfold check_after_write, seq, gets. destruct (data_intact a'); [|by apply outcome_err].
  split; [done|]. cbn. intros Hu. destruct (H2 Hu) as (k' & -> & Hk'). by exists k.
Qed.
Lemma patch_same l k x : l ⊆ k -> patch v v' (l ++ k) x = patch v v' k x.
Proof.
  intros H. unfold patch. rewrite existsb_app. destruct (existsb _ l) eqn:E; [|done]. cbn. apply existsb_exists in E as (sg & Hin%list_elem_of_In & Hp).
  assert (existsb (in_piece g s x) k = true) as ->; [|done]. apply existsb_exists. exists sg. split; [by apply list_elem_of_In, H|done].
Qed.
Lemma patch_equiv k k' x : k ⊆ k' -> k' ⊆ k -> patch v v' k x = patch v v' k' x.
Proof.
  intros H1 H2. unfold patch. assert (existsb (in_piece g s x) k = existsb (in_piece g s x) k') as ->; [|done]. apply eq_true_iff_eq. rewrite !existsb_exists.
  split; intros (sg & Hin%list_elem_of_In & Hp); exists sg; (split; [|done]); apply list_elem_of_In; auto.
Qed.

Lemma attempts_spec segs : group_ok segs -> forall fuel l a, here a -> outcome l (all_written segs) a (stripe_attempts cpu simd fuel g s segs buf a).
Proof using Hlev Hs HD Hv Hv'.
  intros Hg. induction fuel as [|fuel IH]; intros l a Ha; [by apply outcome_err, evolves_refl|]. cbn [stripe_attempts]. unfold seq at 1, gets at 1.
  set (h := holders a ((s + 1) * u)). pose proof (snapshot_holders g D s Hlev Hs HD a Ha) as Hh. fold h in Hh.
  pose proof (go_segs _ Hg) as HF. pose proof (group_apart _ Hg) as Hnd. assert (all_written segs () segs) as Hall by done.
  destruct (full_stripe g segs) eqn:Hf.
  { apply (check_spec l segs segs); [|done]. by apply full_write_spec. }
  destruct (_ && _ && _) eqn:Hc; [|apply (check_spec l segs segs); [|done]; apply reconstruct_write_spec; [done..|apply Hg]].
  apply andb_true_iff in Hc as [[Hp Ht]%andb_true_iff _]. apply andb_true_iff in Hp as [Hp Hq]. rewrite forallb_forall in Ht.
  assert (outcome l (fun (b : bool) k => k ⊆ segs /\ (b = true -> k = segs)) a (rmw cpu simd g h s segs buf a)) as [R1 R2].
  { apply rmw_spec; [done..| |].
    - intros i Hi. unfold parity_members in Hi. apply elem_of_cons in Hi as [->|Hi]; [done|]. destruct (raid6 g); [|by apply elem_of_nil in Hi].
      by apply list_elem_of_singleton in Hi as ->.
    - intros sg Hin. apply held_limit; [|destruct Ha as (_ & _ & ->); done|apply Ht; by apply list_elem_of_In].
      rewrite Forall_forall in HF. pose proof (data_of_seg sg a Ha (HF sg Hin)). lia. }
  unfold bind, seq at 1. destruct (rmw cpu simd g h s segs buf a) as [[[]|e] b]; cbn [fst snd] in *; [| |by apply outcome_err].
  - unfold check_after_write, seq, gets. destruct (data_intact b); [|by apply outcome_err]. split; [done|]. cbn. intros Hu.
    destruct (R2 Hu) as (k & [_ Hk0] & Hk). rewrite (Hk0 eq_refl) in Hk. by exists segs.
  - assert (here b) as Hb by (by eapply here_evolves). split; [eapply evolves_trans; [exact R1|by apply (IH l b)]|]. intros Hu.
    destruct (R2 Hu) as (k & [Hk _] & Hu'). destruct (IH (l ++ k) b Hb) as [_ I2]. specialize (I2 Hu').
    destruct (stripe_attempts cpu simd fuel g s segs buf b) as [[[]|e] a']; cbn in *; [|done]. destruct I2 as (k' & [I3 I4] & I5).
    exists (k ++ k'). rewrite <- app_assoc in I5. split; [|done]. split.
    + intros x [Hx|Hx]%elem_of_app; auto.
    + intros x Hx. apply elem_of_app. right. auto.
Qed.

(** Everything a write does to a stripe. *)
Lemma stripe_write segs a : here a -> group_ok segs ->
  let '(r, a') := parity_write_stripe cpu simd g buf segs a in
  evolves in_unit a a' /\ (r = Ok () -> unit_ok a v s -> unit_ok a' (patch v v' segs) s).
Proof using Hlev Hs HD Hv Hv'.
  intros Ha Hg. unfold parity_write_stripe. assert (from_option Layout.stripe 0 (head segs) = s) as ->.
  { destruct Hg as [HF Hne _]. destruct segs as [|sg segs]; [done|]. apply Forall_cons in HF as [[E _ _ _] _]. done. }
  destruct (attempts_spec segs Hg 3 [] a Ha) as [H1 H2]. destruct (stripe_attempts cpu simd 3 g s segs buf a) as [r a'] eqn:E. cbn [fst snd] in *.
  split; [done|]. intros -> Hu. destruct (H2 Hu) as (k & [Hk1 Hk2] & Hk). cbn [app] in Hk.
  eapply unit_ok_store; [|intros y _; by apply patch_equiv|exact Hk]. by apply (here_evolves g D in_unit a a').
Qed.
End Stripe.
