(* ===== verification/RaidParity.v ===== *)
(** The pieces of a range, in order: one per unit it touches, gathered by stripe. The reads
    and writes of a parity set: [parity_read] gives the bytes written, whatever members are
    lost or fail on the way, and [parity_write] leaves the set with the new bytes, or
    answers an error and leaves no stripe in doubt but the ones it touched. *)

From S2P Require Import Prelude Gf256 Parity ParityKernels ParityRecover RaidLayout IntentBitmap RaidSuper RaidArray RaidFrame RaidModel RaidStripe RaidWrite.
Section Ranges.
Import Layout.

Section Pieces.
Context (g : Geometry) (Hg : geo_ok g).
Abbreviation u := (unit_ g).
Abbreviation dc := (data_count g).

(** The units of the array, numbered. *)
Definition unit_no (s : Segment) : Z := stripe s * dc + index s.
Record piece_ok (offset pos end_ : Z) (s : Segment) : Prop := {
  po_len : 0 < len s;
  po_range : pos <= byte_of g s /\ byte_of g s + len s <= end_;
  po_buf : buf_offset s = byte_of g s - offset;
  po_index : 0 <= index s < dc;
  po_unit : 0 <= offset_in_unit s /\ offset_in_unit s + len s <= u }.

Lemma byte_of_unit s : byte_of g s = unit_no s * u + offset_in_unit s.
Proof. unfold byte_of, unit_no, stripe_bytes. lia. Qed.
Lemma next_ends offset pos end_ s : next_segment g offset pos end_ = Some s -> pos + len s = end_ \/ pos + len s = (unit_no s + 1) * u.
Proof using Hg.
  intros E. destruct (decide (pos < end_)) as [Hlt|]; [|unfold next_segment in E; destruct (Z.ltb_spec pos end_); [lia|done]].
  destruct (next_segment_ok g offset pos end_ Hg Hlt) as (s' & E' & _ & Hb & _). rewrite E in E'. apply (inj Some) in E'. subst s'.
  rewrite byte_of_unit in Hb. assert (len s = Z.min (u - offset_in_unit s) (end_ - pos)) as El.
  { unfold next_segment in E. destruct (pos <? end_); [|done]. apply (inj Some) in E. by subst s. }
  destruct (Z.min_spec (u - offset_in_unit s) (end_ - pos)) as [[_ Em]|[_ Em]]; [right|left]; lia.
Qed.
Lemma pieces_from offset : forall fuel pos end_ l, segments_from fuel g offset pos end_ = Some l -> pos <= end_ ->
  Forall (piece_ok offset pos end_) l /\ StronglySorted Z.lt (map unit_no l) /\
  forall y, pos <= y < end_ -> exists s, s ∈ l /\ byte_of g s <= y < byte_of g s + len s.
Proof using Hg.
  pose proof (proj2 Hg) as Hu. assert (forall fuel pos end_ l, segments_from fuel g offset pos end_ = Some l -> pos <= end_ ->
    (pos < end_ /\ exists s r, l = s :: r /\ next_segment g offset pos end_ = Some s /\ exists f, segments_from f g offset (pos + len s) end_ = Some r) \/ (l = [] /\ end_ <= pos)) as Hstep.
  { intros fuel pos end_ l E Hle. destruct (decide (pos < end_)) as [Hlt|Hge].
    - left. split; [done|]. destruct (next_segment_ok g offset pos end_ Hg Hlt) as (s & En & _). destruct fuel as [|fuel]; cbn [segments_from] in E; rewrite En in E; [done|].
      destruct (segments_from fuel g offset (pos + len s) end_) as [r|] eqn:Er; [|done]. cbn in E. apply (inj Some) in E. exists s, r. eauto.
    - right. assert (next_segment g offset pos end_ = None) as En by (unfold next_segment; destruct (Z.ltb_spec pos end_); [lia|done]).
      destruct fuel; cbn [segments_from] in E; rewrite En in E; (split; [congruence|lia]). }
  intros fuel pos end_ l. revert fuel pos. induction l as [|s l IH]; intros fuel pos E Hle.
  { destruct (Hstep _ _ _ _ E Hle) as [(_ & s & r & [=] & _)|[_ Hge]]. split_and!; [constructor..|]. intros y Hy. lia. }
  destruct (Hstep _ _ _ _ E Hle) as [(Hlt & s' & r & [= <- <-] & En & f & Er)|[[=] _]].
  destruct (next_segment_ok g offset pos end_ Hg Hlt) as (s' & En' & [L1 L2] & Hb & Ho & Hi & Hu1 & Hu2). rewrite En in En'. apply (inj Some) in En'. subst s'.
  destruct (IH f (pos + len s) Er ltac:(lia)) as (I1 & I2 & I3). split_and!.
  - constructor; [split; [done|lia|lia|done|done]|]. eapply Forall_impl; [exact I1|]. intros x [X1 X2 X3 X4 X5]. split; [done|lia|done..].
  - cbn [map]. constructor; [done|]. apply Forall_map. apply Forall_forall. intros x Hx. rewrite Forall_forall in I1. destruct (I1 x Hx) as [_ X2 _ _ X5].
    destruct (next_ends offset pos end_ s En) as [He|He]; [pose proof (po_len _ _ _ _ (I1 x Hx)); lia|]. rewrite He in X2. rewrite byte_of_unit in X2. cbn beta.
    pose proof (po_len _ _ _ _ (I1 x Hx)). apply (Z.mul_lt_mono_pos_r u); lia.
  - intros y Hy. destruct (decide (y < pos + len s)) as [Hin|]; [exists s; split; [left|lia]|]. destruct (I3 y ltac:(lia)) as (x & Hx & Hr). exists x. split; [by right|done].
Qed.
Lemma pieces_of offset n : 0 <= n -> exists l, segments g offset n = Some l /\ Forall (piece_ok offset offset (offset + n)) l /\
  StronglySorted Z.lt (map unit_no l) /\ (forall y, offset <= y < offset + n -> exists s, s ∈ l /\ byte_of g s <= y < byte_of g s + len s) /\
  tiles g offset offset (offset + n) l.
Proof using Hg.
  intros Hn. destruct (segments_from_ok g offset Hg (Z.to_nat n) offset (offset + n)) as (l & E & Ht); [lia|lia|].
  exists l. split; [exact E|]. enough (forall A B C D : Prop, A /\ B /\ C -> D -> A /\ B /\ C /\ D) as H by (apply H; [|done]; apply (pieces_from offset _ _ _ _ E); lia). tauto.
Qed.

(** The bytes of the pieces, one after another, are the bytes of the range. *)
Lemma tab_app n m f : 0 <= n -> 0 <= m -> tab (n + m) f = tab n f ++ tab m (fun j => f (n + j)).
Proof.
  intros Hn Hm. unfold tab, zrange. rewrite !Z.sub_0_r, Z2Nat.inj_add by done. rewrite zseq_app, map_app. f_equal. rewrite Z.add_0_l, Z2Nat.id by done.
  clear. generalize (Z.to_nat m) as k. intros k. replace n with (n + 0) at 1 by lia. generalize 0 as p. induction k as [|k IH]; intros p; [done|]. cbn [zseq map]. f_equal.
  rewrite <- IH. do 2 f_equal. lia.
Qed.
Lemma tiles_bytes (v : Z -> Z) offset pos end_ l : tiles g offset pos end_ l ->
  concat (map (fun s => tab (len s) (fun j => v (byte_of g s + j))) l) = tab (end_ - pos) (fun j => v (pos + j)).
Proof.
  induction 1 as [pos|pos end_ s rest Hl Hb Ho Hi Hu1 Hu2 Ht IH]; [by rewrite Z.sub_diag|]. cbn [map concat]. rewrite IH, Hb.
  assert (pos + len s <= end_) as Hle.
  { clear -Ht. assert (forall p e l, tiles g offset p e l -> p <= e) as H; [|by eapply H]. induction 1; lia. }
  replace (end_ - pos) with (len s + (end_ - (pos + len s))) by lia. rewrite tab_app by lia. f_equal. apply tab_ext. intros j _. f_equal. lia.
Qed.

(** ** By stripe *)

Definition head_stripe (gr : list Segment) : Z := from_option stripe 0 (head gr).
Lemma groups_cons s r : groups (s :: r) =
  match groups r with
  | (s' :: gr) :: gs => if stripe s =? stripe s' then (s :: s' :: gr) :: gs else [s] :: (s' :: gr) :: gs
  | gs => [s] :: gs
  end.
Proof. done. Qed.
Lemma groups_concat l : concat (groups l) = l.
Proof.
  induction l as [|s r IH]; [done|]. rewrite groups_cons. destruct (groups r) as [|[|s' gr] gs]; cbn in *; [by rewrite IH|by rewrite IH|].
  destruct (stripe s =? stripe s'); cbn; by rewrite IH.
Qed.
Lemma groups_same l : Forall (fun gr => gr <> [] /\ Forall (fun x => stripe x = head_stripe gr) gr) (groups l).
Proof.
  induction l as [|s r IH]; [constructor|]. rewrite groups_cons. assert (forall x : Segment, [x] <> [] /\ Forall (fun y => stripe y = head_stripe [x]) [x]) as H1 by (intros x; split; [done|by constructor]).
  destruct (groups r) as [|[|s' gr] gs]; [by constructor|constructor; [apply H1|done]|]. destruct (Z.eqb_spec (stripe s) (stripe s')) as [E|]; [|constructor; [apply H1|done]].
  apply Forall_cons in IH as [[_ H] IH]. constructor; [|done]. split; [done|]. cbn in *. constructor; [done|]. rewrite E. exact H.
Qed.
Lemma stripes_in_order l : Forall (fun s => 0 <= index s < dc) l -> StronglySorted Z.lt (map unit_no l) -> StronglySorted Z.lt (map head_stripe (groups l)).
Proof.
  induction l as [|s r IH]; intros HF Hso; [constructor|]. apply Forall_cons in HF as [Hs HF]. cbn [map] in Hso. inversion_clear Hso as [|? ? Hr Hx].
  specialize (IH HF Hr). pose proof (groups_concat r) as Hc. pose proof (groups_same r) as Hsame. rewrite groups_cons.
  destruct (groups r) as [|[|s' gr] gs]; [by repeat constructor|by apply Forall_cons in Hsame as [[] _]|].
  destruct (Z.eqb_spec (stripe s) (stripe s')) as [E|Hne].
  { cbn [map] in *. unfold head_stripe in *. cbn [head from_option] in *. by rewrite E. }
  cbn [map]. constructor; [exact IH|]. assert (s' ∈ r) as Hin by (rewrite <- Hc; left). rewrite Forall_map, Forall_forall in Hx. specialize (Hx s' Hin).
  rewrite Forall_forall in HF. specialize (HF s' Hin). cbn beta in Hx. unfold unit_no in Hx. assert (stripe s < stripe s') as Hlt by nia.
  cbn [map] in IH. inversion_clear IH as [|? ? _ Hall]. constructor; [done|]. eapply Forall_impl; [exact Hall|]. intros k. unfold head_stripe. cbn [head from_option]. lia.
Qed.
Lemma sorted_app_inv (l k : list Z) : StronglySorted Z.lt (l ++ k) -> StronglySorted Z.lt l /\ StronglySorted Z.lt k.
Proof.
  induction l as [|x l IH]; [by split; [constructor|]|]. cbn. inversion_clear 1 as [|? ? H1 H2]. destruct (IH H1). split; [|done]. constructor; [done|].
  by apply Forall_app in H2 as [].
Qed.
(** A group of the range's pieces. *)
Lemma group_in_order l gr : StronglySorted Z.lt (map unit_no l) -> gr ∈ groups l -> StronglySorted Z.lt (map index gr) /\ gr ⊆ l.
Proof.
  intros Hso Hin. pose proof (groups_concat l) as Hc. apply list_elem_of_split in Hin as Hsplit. destruct Hsplit as (l1 & l2 & E).
  rewrite E, concat_app, concat_cons in Hc. pose proof (groups_same l) as Hsame. rewrite Forall_forall in Hsame. destruct (Hsame gr Hin) as [_ Hst]. split.
  - rewrite <- Hc, !map_app in Hso. apply sorted_app_inv in Hso as [_ Hso]. apply sorted_app_inv in Hso as [Hso _]. revert Hso Hst. generalize (head_stripe gr). clear.
    induction gr as [|x gr IH]; intros k Hso Hst; [constructor|]. cbn [map] in *. inversion_clear Hso as [|? ? H1 H2]. apply Forall_cons in Hst as [Hx Hst].
    constructor; [by apply (IH k)|]. rewrite Forall_map in *. rewrite Forall_forall in *. intros y Hy. specialize (H2 y Hy). specialize (Hst y Hy). cbn beta in *. unfold unit_no in H2. rewrite Hx, Hst in H2. lia.
  - intros x Hx. rewrite <- Hc. apply elem_of_app. right. apply elem_of_app. by left.
Qed.
Lemma in_a_group l s : s ∈ l -> exists gr, gr ∈ groups l /\ s ∈ gr /\ head_stripe gr = stripe s.
Proof.
  intros Hs. rewrite <- (groups_concat l) in Hs. apply list_elem_of_In, in_concat in Hs as (gr & H1%list_elem_of_In & H2%list_elem_of_In). exists gr. split_and!; [done..|].
  pose proof (groups_same l) as Hsame. rewrite Forall_forall in Hsame. destruct (Hsame gr H1) as [_ Hst]. rewrite Forall_forall in Hst. by rewrite (Hst s H2).
Qed.
End Pieces.

End Ranges.

#[local] Open Scope raid_scope.

(** ** Units touched *)

Definition touched (a : RaidArray) (off n k : Z) : Prop := exists y, off <= y < off + n /\ key_at a y = k.
Lemma holds_build (T : Z -> Prop) `{forall k, Decision (T k)} a a' v v' torn : Holds a v torn -> store_bytes v' ->
  evolves (fun _ x => T (x / lock_unit a)) a a' -> (forall k, T k -> ~ torn k -> unit_ok a v k -> unit_ok a' v' k) ->
  (forall y, ~ T (key_at a y) -> v' y = v y) -> Holds a' v' torn.
Proof.
  intros [Hw Hv Hu] Hv' Hev HT Hy. assert (wf a') as Hw' by (by eapply wf_evolves). split; [done|done|]. intros k Hk.
  destruct (decide (T k)) as [Ht|Ht]; [by apply HT; [..|apply Hu]|].
  apply (unit_ok_store a' v v'); [done|intros y Hky; apply Hy; rewrite (ev_key _ _ _ _ Hev) in Hky; by rewrite Hky|].
  eapply unit_ok_evolves; [exact Hev| |by apply Hu]. intros i x Hx Hxk Hn. cbn beta in Hn. by rewrite Hxk in Hn.
Qed.
Lemma holds_ext a v v' torn : (forall y, v' y = v y) -> Holds a v torn -> Holds a v' torn.
Proof.
  intros E [Hw Hv Hu]. split; [done|intros y; by rewrite E|]. intros k Hk. by apply (unit_ok_store a v v'); [|intros y _|apply Hu].
Qed.
Lemma holds_torn (T : Z -> Prop) a a' v torn : Holds a v torn -> evolves (fun _ x => T (x / lock_unit a)) a a' -> Holds a' v (fun k => torn k \/ T k).
Proof. intros H Hev. eapply holds_evolves; [exact Hev| |done]. by intros i x _ Hx. Qed.

(** What the bits around a write do to the set: nothing. *)
Lemma intent_spec crc32c r m a : wf a -> let '(res, a') := with_intent crc32c r m a in
  exists b, evolves nowhere a b /\
    ((exists e, res = Err e /\ a' = b) \/ (wf (snd (m b)) -> evolves nowhere (snd (m b)) a' /\ res = fst (m b))).
Proof.
  intros Hw. unfold with_intent, bind, seq, pure. pose proof (keeps_intent_begin nowhere r a Hw) as Hb. destruct (intent_begin r a) as [[[]|e] b]; cbn in Hb.
  - destruct (m b) as [res c] eqn:Em. pose proof (keeps_intent_end nowhere r c) as He. destruct (intent_end r c) as [x d]. cbn in He.
    pose proof (keeps_persist crc32c nowhere d) as Hp. destruct (persist_if_dirty crc32c d) as [y e]. exists b. rewrite Em. cbn in *.
    split; [done|right]. intros Hc. specialize (He Hc). specialize (Hp ltac:(by eapply wf_evolves)). split; [by eapply evolves_trans|done].
  - exists b. split; [done|left]. by exists e.
Qed.

(** ** The pieces of a range of a parity set *)

Lemma overlay_in v off buf y : off <= y < off + zlen buf -> overlay v off buf y = at_byte buf (y - off).
Proof. intros H. unfold overlay. by rewrite decide_True. Qed.
Lemma overlay_out v off buf y : ~ (off <= y < off + zlen buf) -> overlay v off buf y = v y.
Proof. intros H. unfold overlay. by rewrite decide_False. Qed.
Lemma stripe_in_set a y : wf a -> lvl a <> Layout.Raid1 -> 0 <= y < capacity a ->
  0 <= y / Layout.stripe_bytes (geometry a) /\ (y / Layout.stripe_bytes (geometry a) + 1) * unit_size a <= dsize a.
Proof.
  intros Hw Hn Hy. pose proof (stripe_bytes_pos _ (wf_geo a Hw)) as Hsb. destruct (w_unit _ Hw) as [Hu _]. split; [apply Z.div_pos; lia|].
  rewrite (w_capacity _ Hw) in Hy. unfold Layout.capacity in Hy. change (Layout.level (geometry a)) with (lvl a) in Hy. change (Layout.unit_ (geometry a)) with (unit_size a) in Hy.
  assert (y < dsize a / unit_size a * Layout.stripe_bytes (geometry a)) as Hlt by (destruct (lvl a); [done|lia..]).
  assert (y / Layout.stripe_bytes (geometry a) < dsize a / unit_size a) by (apply Z.div_lt_upper_bound; lia).
  pose proof (Z.mul_div_le (dsize a) (unit_size a) Hu). nia.
Qed.
Lemma byte_of_stripe g sg off pos end_ : geo_ok g -> piece_ok g off pos end_ sg -> forall y, byte_of g sg <= y < byte_of g sg + Layout.len sg ->
  y / Layout.stripe_bytes g = Layout.stripe sg.
Proof.
  intros [He Hu] [H1 H2 H3 H4 H5] y Hy. apply div_unique_pos; [by apply stripe_bytes_pos|]. unfold byte_of, Layout.stripe_bytes in *. nia.
Qed.
Lemma piece_data v off buf sg g : piece_ok g off off (off + zlen buf) sg -> 0 <= off ->
  piece buf sg = tab (Layout.len sg) (fun j => overlay v off buf (byte_of g sg + j)).
Proof.
  intros [H1 H2 H3 H4 H5] Ho. unfold piece. assert (zlen (slice (Layout.buf_offset sg) (Layout.len sg) buf) = Layout.len sg) as Hz by (apply zlen_slice; lia).
  rewrite (bytes_as_tab _ _ Hz). apply tab_ext. intros j Hj. rewrite at_byte_slice by lia. rewrite overlay_in by lia. f_equal. lia.
Qed.

Lemma group_ready a v off buf segs gr : wf a -> parity_set a -> 0 <= off -> off + zlen buf <= capacity a ->
  Forall (piece_ok (geometry a) off off (off + zlen buf)) segs -> StronglySorted Z.lt (map (unit_no (geometry a)) segs) -> gr ∈ groups segs ->
  let s := head_stripe gr in
  0 <= s /\ (s + 1) * Layout.unit_ (geometry a) <= dsize a /\ touched a off (zlen buf) s /\ group_ok (geometry a) s (overlay v off buf) buf gr.
Proof.
  intros Hw Hp Ho Hc HF Hso Hin s. destruct (group_in_order (geometry a) segs gr Hso Hin) as [Hi Hsub]. pose proof (not_raid1 a Hp) as Hn1.
  pose proof (groups_same segs) as Hsame. rewrite Forall_forall in Hsame. destruct (Hsame gr Hin) as [Hne Hst]. fold s in Hst. rewrite Forall_forall in HF, Hst.
  assert (exists sg, sg ∈ gr) as (sg & Hsg) by (destruct gr as [|sg gr]; [done|exists sg; left]).
  pose proof (HF sg (Hsub sg Hsg)) as Hpo. pose proof (byte_of_stripe _ _ _ _ _ (wf_geo a Hw) Hpo (byte_of (geometry a) sg) ltac:(pose proof (po_len _ _ _ _ _ Hpo); lia)) as Hk.
  rewrite (Hst sg Hsg) in Hk. pose proof (po_range _ _ _ _ _ Hpo) as Hr. pose proof (po_len _ _ _ _ _ Hpo) as Hl.
  destruct (stripe_in_set a (byte_of (geometry a) sg) Hw Hn1 ltac:(lia)) as [S1 S2]. rewrite Hk in S1, S2. split_and!; [done|done| |split; [|done|done]].
  - exists (byte_of (geometry a) sg). split; [lia|]. unfold key_at. by rewrite bool_decide_false.
  - apply Forall_forall. intros x Hx. pose proof (HF x (Hsub x Hx)) as Hpx. split; [by apply Hst|apply Hpx|pose proof (po_unit _ _ _ _ _ Hpx); pose proof (po_len _ _ _ _ _ Hpx); tauto|].
    rewrite (piece_data v off buf x (geometry a)) by done. apply tab_ext. intros j _. f_equal. unfold piece_at, byte_of, addr. rewrite (Hst x Hx). lia.
Qed.
Lemma holds_mono a v (torn torn' : Z -> Prop) : (forall k, torn k -> torn' k) -> Holds a v torn -> Holds a v torn'.
Proof. intros H [H1 H2 H3]. split; [done|done|]. intros k Hk. apply H3. auto. Qed.

Section Set_.
Context (cpu : arch) (simd : SimdLevel) (crc32c : bytes -> Z).

(** ** Writing *)

Lemma first_err_ok rs : first_err rs = Ok () -> Forall (fun r => r = Ok ()) rs.
Proof. induction rs as [|[[]|e] rs IH]; intros H; [constructor| |done]. constructor; [done|]. by apply IH. Qed.

(** The groups written one after another. *)
Lemma groups_write g D v v' buf gs : forall a, here g D a -> Layout.level g = Layout.Raid5 \/ Layout.level g = Layout.Raid6 -> store_bytes v -> store_bytes v' ->
  NoDup (map head_stripe gs) ->
  Forall (fun gr => 0 <= head_stripe gr /\ (head_stripe gr + 1) * Layout.unit_ g <= D /\ group_ok g (head_stripe gr) v' buf gr) gs ->
  let '(rs, a') := each (parity_write_stripe cpu simd g buf) gs a in
  evolves (fun _ x => x / Layout.unit_ g ∈ map head_stripe gs) a a' /\
  (Forall (fun r => r = Ok ()) rs -> forall gr, gr ∈ gs -> unit_ok a v (head_stripe gr) -> unit_ok a' (patch g (head_stripe gr) v v' gr) (head_stripe gr)).
Proof.
  induction gs as [|gr gs IH]; intros a Ha Hlev Hv Hv' Hnd HF; [by split; [apply evolves_refl|intros _ gr Hx%elem_of_nil]|].
  apply Forall_cons in HF as [(G1 & G2 & G3) HF]. cbn [map] in Hnd. apply NoDup_cons in Hnd as [Hni Hnd].
  cbn [each]. unfold seq, pure. pose proof (stripe_write cpu simd g D (head_stripe gr) Hlev G1 G2 v v' Hv Hv' buf gr a Ha G3) as Hs.
  destruct (parity_write_stripe cpu simd g buf gr a) as [r b]. destruct Hs as [Eb Ub]. assert (here g D b) as Hb by (by eapply here_evolves).
  specialize (IH b Hb Hlev Hv Hv' Hnd HF). unfold seq, pure in IH. destruct (each _ gs b) as [rs a']. destruct IH as [I1 I2].
  assert (lock_unit a = Layout.unit_ g) as Ela by (by eapply here_unit). assert (lock_unit b = Layout.unit_ g) as Elb by (by eapply here_unit). split.
  - eapply evolves_trans; [eapply evolves_mono; [|exact Eb]|eapply evolves_mono; [|exact I1]]; cbn beta.
    + intros i x Hx. unfold in_unit in Hx. rewrite Hx. left.
    + intros i x Hx. by right.
  - intros [Hr Hrs]%Forall_cons gr' Hin Hu. apply elem_of_cons in Hin as [->|Hin].
    + eapply unit_ok_evolves; [exact I1| |by apply Ub]. intros i x _ Hx. cbn beta. rewrite <- Elb, Hx. exact Hni.
    + apply I2; [done..|]. eapply unit_ok_evolves; [exact Eb| |exact Hu]. intros i x _ Hx Hs. unfold in_unit in Hs.
      rewrite Ela, Hs in Hx. apply Hni. rewrite Hx. apply list_elem_of_fmap. by exists gr'.
Qed.

(** A write of a parity set. *)
Definition wrote (a a' : RaidArray) (v : store) (torn : Z -> Prop) (off : Z) (buf : bytes) (r : result RaidError ()) : Prop :=
  (exists W, evolves W a a') /\
  match r with
  | Ok _ => Holds a' (overlay v off buf) torn
  | Err _ => Holds a' v (fun k => torn k \/ touched a off (zlen buf) k)
  end.
Lemma here_self a : wf a -> here (geometry a) (dsize a) a.
Proof. done. Qed.
Lemma patch_overlay a v off buf segs gr y : geo_ok (geometry a) -> lvl a <> Layout.Raid1 ->
  Forall (piece_ok (geometry a) off off (off + zlen buf)) segs -> gr ∈ groups segs -> NoDup (map head_stripe (groups segs)) ->
  (forall y, off <= y < off + zlen buf -> exists sg, sg ∈ segs /\ byte_of (geometry a) sg <= y < byte_of (geometry a) sg + Layout.len sg) ->
  key_at a y = head_stripe gr -> overlay v off buf y = patch (geometry a) (head_stripe gr) v (overlay v off buf) gr y.
Proof.
  intros Hg Hn1 HF Hin Hnd Hcov Hk. unfold patch. destruct (existsb _ gr) eqn:E; [done|]. apply overlay_out. intros Hy.
  destruct (Hcov y Hy) as (sg & Hsg & Hr). destruct (in_a_group segs sg Hsg) as (gr' & G1 & G2 & G3). rewrite Forall_forall in HF.
  unfold key_at in Hk. rewrite bool_decide_false in Hk by done. rewrite (byte_of_stripe _ _ _ _ _ Hg (HF sg Hsg) y Hr) in Hk.
  assert (gr' = gr) as ->.
  { apply list_elem_of_lookup in Hin as (i & Hi). apply list_elem_of_lookup in G1 as (j & Hj). assert (i = j) as <-; [|congruence].
    eapply (NoDup_lookup (map head_stripe (groups segs))); [exact Hnd|by rewrite list_lookup_fmap, Hi|rewrite list_lookup_fmap, Hj; cbn; congruence]. }
  enough (existsb (in_piece (geometry a) (head_stripe gr) y) gr = true) by congruence. apply existsb_exists. exists sg. split; [by apply list_elem_of_In|].
  unfold in_piece. apply andb_true_iff. rewrite Z.leb_le, Z.ltb_lt. unfold piece_at, byte_of, addr in *. rewrite <- Hk. lia.
Qed.
Lemma parity_write_spec a v torn off buf : Holds a v torn -> parity_set a -> 0 <= off -> off + zlen buf <= capacity a -> all_bytes buf ->
  let '(r, a') := parity_write cpu simd crc32c off buf a in wrote a a' v torn off buf r.
Proof.
  intros Hh Hp Ho Hc Hb. pose proof (h_wf _ _ _ Hh) as Hw. pose proof (wf_geo a Hw) as Hg. pose proof (not_raid1 a Hp) as Hn1. pose proof (zlen_nonneg buf) as Hz.
  assert (store_bytes (overlay v off buf)) as Hv' by (apply overlay_bytes; [apply Hh|done]).
  unfold parity_write. unfold seq at 1, gets at 1. destruct (pieces_of (geometry a) Hg off (zlen buf) Hz) as (segs & -> & HF & Hso & Hcov & _).
  destruct segs as [|sg0 segs0] eqn:Esegs.
  { cbn. split; [exists nowhere; apply evolves_refl|]. apply (holds_ext a v); [|done]. intros y. apply overlay_out. intros Hy. destruct (Hcov y Hy) as (sg & []%elem_of_nil & _). }
  rewrite <- Esegs in *. clear Esegs sg0 segs0. unfold seq at 1, gets at 1. set (r0 := stripe_chunks a segs). set (m := let* rs := _ in pure (first_err rs)).
  pose proof (stripes_in_order (geometry a) segs ltac:(eapply Forall_impl; [exact HF|]; intros x Hx; apply Hx) Hso) as Hord.
  pose proof (increasing_NoDup _ Hord) as Hnd. set (T := fun k => k ∈ map head_stripe (groups segs)).
  pose proof (intent_spec crc32c r0 m a Hw) as HI. destruct (with_intent crc32c r0 m a) as [res a']. destruct HI as (b & Eb & HI).
  assert (forall k, T k -> touched a off (zlen buf) k) as HT.
  { intros k (gr & -> & Hgr)%list_elem_of_fmap. by destruct (group_ready a v off buf segs gr Hw Hp Ho Hc HF Hso Hgr) as (_ & _ & H & _). }
  destruct HI as [(e & -> & ->)|HI].
  { cbn. split; [by exists nowhere|]. by apply (holds_evolves nowhere a b); [|by intros i x _ []|]. }
  assert (Holds b v torn) as Hhb by (by eapply holds_nowhere). assert (here (geometry a) (dsize a) b) as Hb'.
  { eapply here_evolves; [exact Eb|by apply here_self]. }
  assert (evolves (fun _ x => x / Layout.unit_ (geometry a) ∈ map head_stripe (groups segs)) b (snd (m b)) /\
    (fst (m b) = Ok () -> forall gr, gr ∈ groups segs -> unit_ok b v (head_stripe gr) ->
       unit_ok (snd (m b)) (patch (geometry a) (head_stripe gr) v (overlay v off buf) gr) (head_stripe gr))) as [M1 M2].
  { pose proof (groups_write (geometry a) (dsize a) v (overlay v off buf) buf (groups segs) b Hb' Hp ltac:(apply Hh) Hv' Hnd) as Hgw.
    specialize (Hgw ltac:(apply Forall_forall; intros gr Hgr; destruct (group_ready a v off buf segs gr Hw Hp Ho Hc HF Hso Hgr) as (? & ? & _ & ?); done)).
    unfold m, seq, pure. destruct (each _ (groups segs) b) as [rs c]. cbn. destruct Hgw as [G1 G2]. split; [done|]. intros Hr. apply G2. by apply first_err_ok. }
  destruct (HI ltac:(by eapply wf_evolves; [exact M1|apply Hhb])) as [Ec ->].
  assert (lock_unit a = Layout.unit_ (geometry a)) as Ela by (by apply lock_is_unit). pose proof (ev_lock_unit _ _ _ Eb) as Elb.
  assert (evolves (fun _ x => T (x / lock_unit b)) b a') as Hev by (eapply evolves_trans; [rewrite Elb, Ela; exact M1|by apply evolves_any]).
  split; [eexists; eapply evolves_trans; [apply evolves_any, Eb|exact Hev]|]. destruct (fst (m b)) as [[]|e] eqn:Er; cbn.
  - eapply (holds_build T b a' v _ torn Hhb Hv' Hev).
    + intros k (gr & -> & Hgr)%list_elem_of_fmap _ Hu. eapply unit_nowhere; [exact Ec|].
      eapply unit_ok_store; [| |by apply (M2 eq_refl gr Hgr)]; [by eapply wf_evolves; [exact M1|apply Hhb]|].
      intros y Hy. rewrite (ev_key _ _ _ y M1), (ev_key _ _ _ y Eb) in Hy. by eapply patch_overlay.
    + intros y Hy. apply overlay_out. intros Hr. apply Hy. rewrite (ev_key _ _ _ y Eb). destruct (Hcov y Hr) as (sg & Hsg & Hrg).
      destruct (in_a_group segs sg Hsg) as (gr & G1 & _ & G3). unfold T, key_at. rewrite bool_decide_false by done. rewrite Forall_forall in HF.
      rewrite (byte_of_stripe _ _ _ _ _ Hg (HF sg Hsg) y Hrg), <- G3. apply list_elem_of_fmap. by exists gr.
  - apply (holds_mono a' v (fun k => torn k \/ T k)); [intros k [|]; [by left|right; by apply HT]|]. by eapply holds_torn.
Qed.

(** ** Reading *)

Section Reading.
Context (g : Geometry) (D : Z) (Hlev : Layout.level g = Layout.Raid5 \/ Layout.level g = Layout.Raid6) (v : store) (Hv : store_bytes v).
Definition piece_bytes (sg : Segment) : bytes := tab (Layout.len sg) (fun j => v (byte_of g sg + j)).
(** A piece in a stripe of the set. *)
Definition in_set (sg : Segment) : Prop :=
  0 <= Layout.stripe sg /\ (Layout.stripe sg + 1) * Layout.unit_ g <= D /\ 0 <= Layout.index sg < Layout.data_count g /\
  0 <= Layout.offset_in_unit sg /\ 0 <= Layout.len sg /\ Layout.offset_in_unit sg + Layout.len sg <= Layout.unit_ g.

Lemma piece_strip sg : in_set sg -> strips g v (Layout.stripe sg) (Layout.offset_in_unit sg) (Layout.len sg) !! Z.to_nat (Layout.index sg) = Some (piece_bytes sg).
Proof.
  intros (_ & _ & Hi & _). rewrite strips_lookup by done. f_equal. apply tab_ext. intros j _. f_equal. unfold addr, byte_of. lia.
Qed.
Lemma first_pass_spec sg h a c : here g D a -> plans a c -> in_set sg -> unit_ok a v (Layout.stripe sg) -> h = holders a ((Layout.stripe sg + 1) * Layout.unit_ g) ->
  plans c (snd (first_pass g (sg, h) c)) /\ forall b, fst (first_pass g (sg, h) c) = inl b -> b = piece_bytes sg.
Proof using Hlev Hv.
  intros Ha Hc (I1 & I2 & I3 & I4 & I5 & I6) Hu ->. unfold first_pass. set (m := Layout.data_member g _ _). destruct (held _ m) eqn:Hh; [|by split; [apply plans_refl|]].
  pose proof (here_parity_ok g D Hlev a Ha) as Hpo. pose proof (role_of_data g (Layout.stripe sg) (Layout.index sg) Hpo I3) as Hr. fold m in Hr.
  assert (0 <= m < Layout.n g) as Hm by (apply Z.mod_pos_bound; destruct (skip_data g Hpo) as (? & ? & ? & _); lia).
  assert (here g D c) as Hhc by (by eapply here_evolves; [apply (plans_evolves nowhere)|]).
  unfold seq, pure, seg_off. rewrite Z.add_assoc. pose proof (rd_here g D (Layout.stripe sg) I1 I2 m _ _ c Hhc I4 I5 I6) as Hrd.
  destruct (rd m _ _ c) as [r d]. destruct Hrd as [Hp Hb]. cbn. split; [done|]. intros b Eb. destruct r as [b'|e]; [|done]. injection Eb as ->.
  destruct (Hb b eq_refl) as [_ ->]. assert ((Layout.stripe sg + 1) * Layout.unit_ g <= limit a m) as Hl.
  { apply held_limit; [lia|destruct Ha as (_ & _ & ->); done|done]. }
  rewrite (held_reads g D (Layout.stripe sg) Hlev I1 I2 a v m _ _ _ Ha Hv Hu Hm Hl I4 I5 I6 (tab_ext _ _ _ (fun j _ => plans_val a c m _ Hc))).
  apply tab_ext. intros j _. unfold strip_at. rewrite Hr. f_equal. unfold addr, byte_of. lia.
Qed.
Definition piece_known (a : RaidArray) (p : Segment * (bytes + Z * bool)) : Prop :=
  unit_ok a v (Layout.stripe (fst p)) /\ forall b, snd p = inl b -> b = piece_bytes (fst p).
Lemma known_nowhere a c l : evolves nowhere a c -> Forall (piece_known a) l -> Forall (piece_known c) l.
Proof. intros Hc HF. eapply Forall_impl; [exact HF|]. intros p [H1 H2]. split; [by eapply unit_nowhere|done]. Qed.
Lemma second_pass_spec l : forall a, here g D a -> Forall (fun p => in_set (fst p)) l ->
  let '(r, a') := second_pass cpu simd g l a in
  evolves nowhere a a' /\ (Forall (piece_known a) l -> forall b, r = Ok b -> b = concat (map piece_bytes (map fst l))).
Proof using Hlev Hv.
  induction l as [|[sg [b|[m failed]]] l IH]; intros a Ha HF; [by split; [apply evolves_refl|intros _ b [= <-]]|..];
    apply Forall_cons in HF as [I HF]; cbn [fst snd map concat second_pass] in *.
  - unfold bind, seq, ret, fail, pure. specialize (IH a Ha HF). destruct (second_pass cpu simd g l a) as [[r|e] a']; destruct IH as [I1 I2]; (split; [done|]); [|done].
    intros [[_ Hb] HK]%Forall_cons x [= <-]. rewrite (Hb b eq_refl). f_equal. by apply I2.
  - unfold seq at 1. assert (exists x c, (if failed then fail_member m ;; pure () else pure ()) a = (x, c) /\ evolves nowhere a c) as (x & c & -> & Ec).
    { destruct failed; [|exists (), a; split; [done|apply evolves_refl]]. unfold seq, pure, fail_member. pose proof (fail_spec m false a) as Hf.
      destruct (fail_member_as m false a) as [ok c]. exists (), c. split; [done|apply Hf]. }
    assert (here g D c) as Hc by (by eapply here_evolves). destruct I as (I1 & I2 & I3 & I4 & I5 & I6).
    unfold seq at 1. pose proof (read_column_shape g (Layout.stripe sg) _ _ c ltac:(apply Hc) I1 ltac:(pose proof (here_pos g D c Hc); lia) ltac:(destruct Hc as (_ & _ & ->); done) I4 I5 I6) as Hsh.
    pose proof (fun Hu => read_column_here g D (Layout.stripe sg) Hlev I1 I2 v _ _ c Hc Hv Hu I4 I5 I6) as Hrem.
    destruct (read_column g (Layout.stripe sg) _ _ c) as [st d]. cbn [fst] in Hrem. destruct Hsh as [_ Ed]. assert (evolves nowhere a d) as Ead by (by eapply evolves_trans).
    destruct (recover cpu simd (Layout.len sg) st) as [[out|]|e] eqn:Er; [|done..].
    assert (here g D d) as Hd by (by eapply here_evolves). specialize (IH d Hd HF).
    destruct (ss_data out !! Z.to_nat (Layout.index sg)) as [[o|]|] eqn:Eo; [|done..]. unfold bind, seq, ret, fail, pure.
    destruct (second_pass cpu simd g l d) as [[r|e] a']; destruct IH as [J1 J2]; (split; [by eapply evolves_trans|]); [|done].
    intros [[Hu _] HK]%Forall_cons y [= <-]. cbn [fst] in Hu. f_equal; [|by apply J2; [eapply known_nowhere|]].
    rewrite (recover_here cpu simd g D (Layout.stripe sg) Hlev v _ _ st out c Hc Hv I5 (Hrem ltac:(by eapply unit_nowhere)) Er) in Eo. cbn [ss_data] in Eo.
    change (map Some ?x !! ?y) with ((Some <$> x) !! y) in Eo. rewrite list_lookup_fmap, piece_strip in Eo by done. cbn in Eo. congruence.
Qed.
End Reading.

(** What a read does: the set holds what it held, and the answer is what was written. *)
Definition was_read (a a' : RaidArray) (v : store) (torn : Z -> Prop) (off n : Z) (r : result RaidError bytes) : Prop :=
  evolves nowhere a a' /\ ((forall k, touched a off n k -> ~ torn k) -> forall b, r = Ok b -> b = tab n (fun j => v (off + j))).
Lemma each_plans' {A B} (f : A -> S B) (P : A -> B -> Prop) l a : (forall x c, x ∈ l -> plans a c -> plans c (snd (f x c)) /\ P x (fst (f x c))) ->
  plans a (snd (each f l a)) /\ Forall2 P l (fst (each f l a)).
Proof. intros H. by apply (each_plans a f P l a (plans_refl a)). Qed.
Lemma first_pass_plans g p a : plans a (snd (first_pass g p a)).
Proof.
  destruct p as [sg h]. unfold first_pass. destruct (held h _); [|apply plans_refl]. unfold seq, pure.
  match goal with |- context [rd ?i ?o ?n a] => pose proof (rd_plans i o n a) as H; destruct (rd i o n a) end. exact H.
Qed.
(** The first pass, over all the pieces of a read. *)
Lemma first_passes a v torn segs hs : Holds a v torn -> parity_set a -> Forall (in_set (geometry a) (dsize a)) segs ->
  hs = map (fun s => holders a ((Layout.stripe s + 1) * Layout.unit_ (geometry a))) segs ->
  let '(rs, b) := each (first_pass (geometry a)) (zip segs hs) a in
  plans a b /\ map fst (zip segs rs) = segs /\ Forall (fun p => in_set (geometry a) (dsize a) (fst p)) (zip segs rs) /\
  (Forall (fun sg => ~ torn (Layout.stripe sg)) segs -> Forall (piece_known (geometry a) v b) (zip segs rs)).
Proof.
  intros Hh Hp HI ->. pose proof (h_wf _ _ _ Hh) as Hw. pose proof (here_self a Hw) as Ha. set (hs := map _ segs).
  destruct (each_plans' (first_pass (geometry a)) (fun p x => in_set (geometry a) (dsize a) (fst p) /\
    (~ torn (Layout.stripe (fst p)) -> forall b, x = inl b -> b = piece_bytes (geometry a) v (fst p))) (zip segs hs) a) as [Hpl HF].
  { intros [sg h] c Hin Hc. split; [apply first_pass_plans|]. apply list_elem_of_lookup in Hin as (i & Hi). apply lookup_zip_Some in Hi as [H1 H2].
    unfold hs in H2. rewrite list_lookup_fmap, H1 in H2. apply (inj Some) in H2. rewrite Forall_forall in HI. pose proof (HI sg ltac:(by eapply list_elem_of_lookup_2)) as Hsg.
    split; [done|]. cbn [fst]. intros Ht. by apply (first_pass_spec (geometry a) (dsize a) Hp v ltac:(apply Hh) sg h a c Ha Hc Hsg); [apply Hh|]. }
  destruct (each _ (zip segs hs) a) as [rs b]. cbn [fst snd] in *. split; [done|].
  assert (length rs = length segs) as Hl by (rewrite <- (Forall2_length _ _ _ HF), length_zip; unfold hs; rewrite length_map; lia).
  assert (forall i sg x, segs !! i = Some sg -> rs !! i = Some x -> in_set (geometry a) (dsize a) sg /\ (~ torn (Layout.stripe sg) -> forall b, x = inl b -> b = piece_bytes (geometry a) v sg)) as Hx.
  { intros i sg x H1 H2. assert (exists h, zip segs hs !! i = Some (sg, h)) as (h & H3); [|exact (Forall2_lookup_lr _ _ _ _ _ _ HF H3 H2)].
    unfold hs. eexists. apply lookup_zip_Some. split; [exact H1|]. by rewrite list_lookup_fmap, H1. }
  split_and!.
  - apply fst_zip. lia.
  - apply Forall_forall. intros [sg x] Hin. apply list_elem_of_lookup in Hin as (i & Hi). apply lookup_zip_Some in Hi as [H1 H2]. by apply (Hx i sg x).
  - intros Ht. apply Forall_forall. intros [sg x] Hin. apply list_elem_of_lookup in Hin as (i & Hi). apply lookup_zip_Some in Hi as [H1 H2].
    rewrite Forall_forall in Ht. specialize (Ht sg ltac:(by eapply list_elem_of_lookup_2)). split; [|by apply (Hx i sg x)].
    eapply unit_nowhere; [by apply (plans_evolves nowhere)|by apply Hh].
Qed.
Lemma parity_read_spec a v torn off n : Holds a v torn -> parity_set a -> 0 <= off -> 0 <= n -> off + n <= capacity a ->
  let '(r, a') := parity_read cpu simd crc32c off n a in
  was_read a a' v torn off n r.
Proof.
  intros Hh Hp Ho Hn Hc. pose proof (h_wf _ _ _ Hh) as Hw. pose proof (wf_geo a Hw) as Hg. pose proof (not_raid1 a Hp) as Hn1. pose proof (here_self a Hw) as Ha.
  unfold parity_read. unfold seq at 1, gets at 1. destruct (pieces_of (geometry a) Hg off n Hn) as (segs & -> & HF & _ & _ & Ht0). unfold seq at 1, gets at 1.
  set (hs := map _ segs). assert (Forall (fun sg => in_set (geometry a) (dsize a) sg /\ touched a off n (Layout.stripe sg)) segs) as HI.
  { eapply Forall_impl; [exact HF|]. intros sg Hsg. pose proof Hsg as [P1 P2 P3 P4 P5].
    pose proof (byte_of_stripe _ _ _ _ _ Hg Hsg (byte_of (geometry a) sg) ltac:(lia)) as Hk.
    destruct (stripe_in_set a (byte_of (geometry a) sg) Hw Hn1 ltac:(lia)) as [S1 S2]. rewrite Hk in S1, S2. split; [unfold in_set; change (Layout.unit_ (geometry a)) with (unit_size a) in *; lia|].
    exists (byte_of (geometry a) sg). split; [lia|]. unfold key_at. by rewrite bool_decide_false. }
  pose proof (first_passes a v torn segs hs Hh Hp ltac:(eapply Forall_impl; [exact HI|]; intros sg H; apply H) eq_refl) as H1. unfold seq at 1.
  destruct (each _ (zip segs hs) a) as [rs b]. destruct H1 as (Pb & Em & Hin & HK). pose proof (plans_evolves nowhere _ _ Pb) as Eb.
  assert (here (geometry a) (dsize a) b) as Hb by (by eapply here_evolves). unfold seq at 1.
  pose proof (second_pass_spec (geometry a) (dsize a) Hp v ltac:(apply Hh) (zip segs rs) b Hb Hin) as H2. destruct (second_pass cpu simd _ _ b) as [r c]. destruct H2 as [Ec Hr].
  assert (evolves nowhere a c) as Eac by (by eapply evolves_trans). unfold seq, pure. pose proof (keeps_persist crc32c nowhere c ltac:(by eapply wf_evolves)) as Hpe.
  destruct (persist_if_dirty crc32c c) as [x d]. cbn in Hpe. split; [by eapply (evolves_trans _ a c d)|].
  intros Ht y Hy. rewrite (Hr ltac:(apply HK; eapply Forall_impl; [exact HI|]; intros sg H; apply Ht; apply H) y Hy), Em.
  unfold piece_bytes. rewrite (tiles_bytes _ _ _ _ _ _ Ht0). by replace (off + n - off) with n by lia.
Qed.
End Set_.
