(* ===== verification/RaidMirror.v ===== *)
(** The reads and writes of mirrors: RAID-1, one mirror of all the members, and RAID-10, a
    mirror of each pair. The array as a device, whatever its level: reads, writes, flushes,
    members failing, replaced, added and removed, and what each leaves of the data. *)

From S2P Require Import Prelude Gf256 Parity ParityKernels ParityRecover RaidLayout IntentBitmap RaidSuper RaidArray RaidFrame RaidModel RaidStripe RaidWrite RaidParity.
#[local] Open Scope raid_scope.

(** ** Writing a mirror *)

Lemma settle_mirror_spec rs : forall wrote last_ a, let '(r, a') := settle_mirror wrote last_ rs a in
  evolves nowhere a a' /\ (r = Ok () -> forall i w e, (i, w, Err e) ∈ rs -> limit a' i = 0).
Proof.
  induction rs as [|[[i w] [[]|e]] rs IH]; intros wrote last_ a; cbn [settle_mirror].
  - destruct wrote; (split; [apply evolves_refl|by intros _ i w e ?%elem_of_nil]).
  - specialize (IH (wrote || w) last_ a). destruct (settle_mirror _ _ rs a) as [r a']. destruct IH as [H1 H2]. split; [done|].
    intros Hr j w' e' Hj. apply elem_of_cons in Hj as [[=]|Hj]. by eapply H2.
  - unfold seq, fail_member. pose proof (fail_spec i false a) as Hf. destruct (fail_member_as i false a) as [[] b]; destruct Hf as (F1 & F2 & F3 & F4); [|done].
    specialize (IH wrote (Some e) b). destruct (settle_mirror _ _ rs b) as [r a']. destruct IH as [H1 H2]. split; [by eapply evolves_trans|].
    intros Hr j w' e' Hj. apply elem_of_cons in Hj as [Hj|Hj]; [|by eapply H2]. injection Hj as -> _ _.
    destruct (F3 eq_refl) as (m' & E & Es). eapply limit_zero; [exact H1|]. by eapply limit_failed.
Qed.
(** The start of the data, for each member that takes some of it. *)
Lemma prefix_writes moff data ts : forall a, wf a -> 0 <= moff -> moff + zlen data <= dsize a -> all_bytes data -> NoDup (map fst ts) ->
  Forall (fun t => 0 <= snd t <= zlen data) ts ->
  let '(rs, a') := each (fun t : Z * Z => let* r := wr (fst t) (DATA_OFFSET + moff) (take (Z.to_nat (snd t)) data) in pure (fst t, snd t =? zlen data, r)) ts a in
  evolves (column_of (map fst ts) moff (zlen data)) a a' /\ (forall j, limit a' j = limit a j) /\ (forall j, j ∉ map fst ts -> member a' j = member a j) /\
  Forall2 (fun t r => fst (fst r) = fst t /\ (snd r = Ok () -> forall j, 0 <= j < snd t -> val a' (fst t) (moff + j) = at_byte data j)) ts rs.
Proof.
  induction ts as [|[i n] ts IH]; intros a Hw H0 Hd Hb Hnd HF; [by split_and!; [apply evolves_refl| | |]|].
  apply Forall_cons in HF as [Hn HF]. cbn [fst snd map] in *. apply NoDup_cons in Hnd as [Hi Hnd]. cbn [each]. unfold seq, pure. cbn [fst snd].
  assert (zlen (take (Z.to_nat n) data) = n) as Hz by (unfold zlen in *; rewrite length_take; lia).
  pose proof (wr_data i moff (take (Z.to_nat n) data) a Hw H0 ltac:(lia) ltac:(by apply Forall_take)) as H1. destruct (wr i _ _ a) as [r c].
  destruct H1 as (E1 & L1 & M1 & _ & _ & V1). assert (wf c) as Hc by (by eapply wf_evolves). pose proof (ev_dsize _ _ _ E1) as Dc.
  specialize (IH c Hc H0 ltac:(lia) Hb Hnd HF). unfold seq, pure in IH. destruct (each _ ts c) as [rs a']. destruct IH as (E2 & L2 & M2 & F2). split_and!.
  - eapply evolves_trans; [|]; eapply evolves_mono; [|exact E1| |exact E2].
    + intros j x [-> Hx]. split; [left|lia].
    + intros j x [Hj Hx]. split; [by right|lia].
  - intros j. by rewrite L2.
  - intros j [Hj1 Hj2]%not_elem_of_cons. by rewrite M2, M1.
  - constructor; [|done]. split; [done|]. cbn. intros -> j Hj. unfold val. rewrite (M2 i Hi). fold (val c i (moff + j)).
    rewrite V1 by (done || lia). replace (moff + j - moff) with j by lia. unfold at_byte. rewrite !nth_lookup, lookup_take_lt by lia. done.
Qed.

Definition member_set (a : RaidArray) (set : list Z) : Prop := NoDup set /\ Forall (fun i => 0 <= i < n_members a) set.
Lemma target_spec a moff n i t : wf a -> 0 <= moff -> 0 <= n -> moff + n <= dsize a -> target a moff n i = Some t ->
  fst t = i /\ 0 <= snd t <= n /\ (snd t = n \/ limit a i = moff + snd t).
Proof.
  intros Hw H0 Hn Hd. unfold target. destruct (member a i) as [m|] eqn:E; [|done]. cbn. destruct (present m) eqn:P; [|done]. cbn [negb].
  destruct (holds (moff + n) m) eqn:Hh; [intros [= <-]; cbn; split_and!; [done|lia|lia|by left]|].
  destruct (bool_decide _) eqn:Es; [|done]. destruct (Z.ltb_spec moff (rebuilt_to m)) as [Hlt|]; [|done]. intros [= <-]. cbn [fst snd].
  unfold holds in Hh. rewrite P in Hh. apply bool_decide_eq_true in Es. rewrite Es in Hh. cbn in Hh. apply Z.leb_gt in Hh.
  split_and!; [done|lia|lia|right]. unfold limit. rewrite E. cbn. unfold limit_of. rewrite P, Es. lia.
Qed.
Lemma not_target a moff n i : wf a -> 0 <= moff -> moff + n <= dsize a -> target a moff n i = None -> limit a i <= moff.
Proof.
  intros Hw H0 Hd. unfold target, limit. destruct (member a i) as [m|] eqn:E; cbn; [|lia]. unfold limit_of. destruct (present m) eqn:P; [|cbn; lia]. cbn [negb].
  unfold holds. rewrite P. cbn [andb]. destruct (state m) eqn:Es; cbn; try lia; [done|]. destruct (Z.leb_spec (moff + n) (rebuilt_to m)); [done|].
  destruct (Z.ltb_spec moff (rebuilt_to m)); [done|lia].
Qed.

Lemma mirror_write_spec set moff data a : wf a -> member_set a set -> 0 <= moff -> moff + zlen data <= dsize a -> all_bytes data ->
  let '(r, a') := mirror_write_at set moff data a in
  evolves (column_of set moff (zlen data)) a a' /\
  (r = Ok () -> forall i x, i ∈ set -> moff <= x < moff + zlen data -> x < limit a' i -> val a' i x = at_byte data (x - moff)).
Proof.
  intros Hw [Hnd HF] H0 Hd Hb. pose proof (zlen_nonneg data) as Hz. unfold mirror_write_at, seq, gets, fail, pure. set (ts := omap (target a moff (zlen data)) set).
  destruct (negb _); [by split; [apply evolves_refl|]|].
  assert (forall t, t ∈ ts -> exists i, i ∈ set /\ target a moff (zlen data) i = Some t) as Hts by (intros t Ht; by apply list_elem_of_omap in Ht).
  assert (map fst ts ⊆ set) as Hsub.
  { intros i (t & -> & Ht)%list_elem_of_fmap. destruct (Hts t Ht) as (j & Hj & E). by destruct (target_spec a moff _ j t Hw H0 Hz Hd E) as [-> _]. }
  assert (NoDup (map fst ts)) as Hnd'.
  { unfold ts. clear Hts Hsub HF. revert Hnd. induction set as [|i set IH]; intros Hnd; [constructor|]. apply NoDup_cons in Hnd as [Hi Hnd]. cbn [omap list_omap].
    destruct (target a moff (zlen data) i) as [t|] eqn:E; [|by apply IH]. cbn [map]. apply NoDup_cons. split; [|by apply IH].
    destruct (target_spec a moff _ i t Hw H0 Hz Hd E) as [-> _]. intros (t' & Et & (j & Hj & E')%list_elem_of_omap)%list_elem_of_fmap.
    destruct (target_spec a moff _ j t' Hw H0 Hz Hd E') as [Ej _]. apply Hi. by rewrite Et, Ej. }
  pose proof (prefix_writes moff data ts a Hw H0 Hd Hb Hnd') as H1. unfold seq, pure in H1.
  specialize (H1 ltac:(apply Forall_forall; intros t Ht; destruct (Hts t Ht) as (j & _ & E); by apply (target_spec a moff _ j t Hw H0 Hz Hd E))).
  destruct (each _ ts a) as [rs c]. destruct H1 as (E1 & L1 & _ & F1). pose proof (settle_mirror_spec rs false None c) as H2. destruct (settle_mirror _ _ rs c) as [r a'].
  destruct H2 as [E2 S2]. pose proof (ev_dsize _ _ _ E1) as Dc. split.
  { eapply evolves_trans; [|by apply evolves_any]. eapply evolves_mono; [|exact E1]. intros i x [Hi Hx]. split; [by apply Hsub|done]. }
  intros Hr i x Hi Hx Hl. assert (x < limit a i) as Hla by (pose proof (L1 i); destruct (ev_limit _ _ _ i E2); destruct (w_unit _ Hw); lia).
  destruct (target a moff (zlen data) i) as [t|] eqn:E; [|pose proof (not_target a moff _ i Hw H0 Hd E); lia].
  destruct (target_spec a moff _ i t Hw H0 Hz Hd E) as (T1 & T2 & T3). assert (t ∈ ts) as Ht by (apply list_elem_of_omap; by exists i).
  apply list_elem_of_lookup in Ht as (k & Hk). destruct (Forall2_lookup_l _ _ _ _ _ F1 Hk) as ([[i' w] res] & Hk2 & Hi' & Hv). cbn in Hi', Hv. subst i'. rewrite T1 in *.
  destruct res as [[]|e]; [|pose proof (S2 Hr i w e ltac:(by eapply list_elem_of_lookup_2)); lia].
  rewrite (ev_val _ _ _ _ _ E2) by (lia || by intros []). replace x with (moff + (x - moff)) at 1 by lia. apply Hv; [done|lia].
Qed.

(** ** Reading a mirror *)

Lemma mirror_read_spec (E : Z -> Z) set moff n : forall fuel tried a, wf a -> 0 <= moff -> 0 <= n -> moff + n <= dsize a -> Forall (fun i => 0 <= i) set ->
  let '(r, a') := mirror_read_loop fuel tried set moff n a in
  evolves nowhere a a' /\ ((forall i x, i ∈ set -> moff <= x < moff + n -> x < limit a i -> val a i x = E x) -> forall b, r = Ok b -> b = tab n (fun j => E (moff + j))) /\
  (forall b, r = Ok b -> buf_ok n b).
Proof.
  induction fuel as [|fuel IH]; intros tried a Hw H0 Hn Hd HF; cbn [mirror_read_loop]; unfold seq at 1, gets at 1; set (cands := filter _ set).
  { destruct cands; by split_and!; [apply evolves_refl| |]. }
  assert (forall i, i ∈ cands -> held (holders a (moff + n)) i = true /\ i ∈ set) as Hc by (intros i Hi; apply list_elem_of_filter in Hi as [[H1 _] H2]; done).
  destruct cands as [|c0 cs]; [by split_and!; [apply evolves_refl| |]|]. unfold seq, gets, modify, fail, pure.
  set (pick := nth _ (c0 :: cs) 0). assert (pick ∈ c0 :: cs) as Hp.
  { apply list_elem_of_In, nth_In. rewrite zlen_cons. pose proof (zlen_nonneg cs). pose proof (Z.mod_pos_bound (read_counter a) (1 + zlen cs) ltac:(lia)). unfold zlen in *. cbn [length]. lia. }
  destruct (Hc pick Hp) as [Hh Hin]. clearbody pick. set (a1 := set_counter _ a). assert (evolves nowhere a a1) as E1 by by apply evolves_same_members.
  assert (wf a1) as Hw1 by (by eapply wf_evolves). pose proof (rd_plans pick (DATA_OFFSET + moff) n a1) as Hpl.
  pose proof (rd_val pick moff n a1) as Hrv. pose proof (fun b => rd_buf pick moff n a1 b Hw1 H0 Hn Hd) as Hbuf. destruct (rd pick (DATA_OFFSET + moff) n a1) as [res b]. cbn [fst snd] in Hpl, Hrv, Hbuf. pose proof (plans_evolves nowhere _ _ Hpl) as E2.
  assert (0 <= pick) as Hpk by (rewrite Forall_forall in HF; by apply HF). destruct res as [bs|e].
  - split_and!; [by eapply evolves_trans| |intros x [= <-]; by apply Hbuf]. intros HE x [= <-]. rewrite (Hrv bs eq_refl H0 Hn). apply tab_ext. intros j Hj. change (val a1 pick (moff + j)) with (val a pick (moff + j)).
    apply HE; [done|lia|]. pose proof (held_limit a (moff + n) pick Hpk Hd Hh). lia.
  - unfold fail_member. pose proof (fail_spec pick false b) as Hf. destruct (fail_member_as pick false b) as [ok c]. destruct Hf as (E3 & _).
    assert (evolves nowhere a c) as Eac by (eapply evolves_trans; [exact E1|by eapply evolves_trans]). destruct (negb ok && _); [by split_and!|].
    assert (wf c) as Hwc by (by eapply wf_evolves). pose proof (ev_dsize _ _ _ Eac) as Dc.
    specialize (IH (pick :: tried) c Hwc H0 Hn ltac:(lia) HF). destruct (mirror_read_loop fuel _ set moff n c) as [r a']. destruct IH as (I1 & I2 & I3).
    split_and!; [by eapply evolves_trans| |done]. intros HE. apply I2. intros i x Hi Hx Hl. rewrite (ev_val _ _ _ i x Eac) by (lia || by intros []).
    apply HE; [done|done|]. destruct (ev_limit _ _ _ i Eac); lia.
Qed.

Section Sets.
Context (crc32c : bytes -> Z).

(** ** RAID-1 *)

Lemma all_slots_set a : member_set a (all_slots a).
Proof. split; [apply NoDup_zseq|]. apply Forall_forall. by intros i Hi%elem_of_zrange. Qed.
Lemma raid1_lock a : lvl a = Layout.Raid1 -> lock_unit a = MIRROR_UNIT.
Proof. intros E. unfold lock_unit. by rewrite bool_decide_true. Qed.
Lemma raid1_capacity a : wf a -> lvl a = Layout.Raid1 -> capacity a = dsize a.
Proof. intros Hw E. rewrite (w_capacity _ Hw). unfold Layout.capacity. change (Layout.level (geometry a)) with (lvl a). by rewrite E. Qed.
Lemma raid1_key a y : lvl a = Layout.Raid1 -> key_at a y = y / lock_unit a.
Proof. intros E. rewrite raid1_lock by done. unfold key_at. by rewrite bool_decide_true. Qed.
Lemma raid1_expected a v i x : lvl a = Layout.Raid1 -> expected (geometry a) v i x = v x.
Proof. intros E. unfold expected. change (Layout.level (geometry a)) with (lvl a). by rewrite E. Qed.

#[local] Instance touched_dec1 a off n k : 0 < lock_unit a -> lvl a = Layout.Raid1 -> Decision (touched a off n k).
Proof.
  intros Hu E. destruct (decide (0 < n /\ off / lock_unit a <= k <= (off + n - 1) / lock_unit a)) as [[Hn Hk]|Hk]; [left|right].
  - exists (Z.max off (k * lock_unit a)). rewrite raid1_key by done.
    pose proof (Z.mul_div_le off (lock_unit a) Hu). pose proof (Z.mul_div_le (off + n - 1) (lock_unit a) Hu).
    pose proof (Z.mul_succ_div_gt off (lock_unit a) Hu). assert (k * lock_unit a <= (off + n - 1) / lock_unit a * lock_unit a) by nia.
    split; [lia|]. apply div_unique_pos; [done|]. nia.
  - intros (y & Hy & Hky). rewrite raid1_key in Hky by done. apply Hk. split; [lia|]. subst k. split; apply Z.div_le_mono; lia.
Qed.
Lemma raid1_write_spec a v torn off buf : Holds a v torn -> lvl a = Layout.Raid1 -> 0 <= off -> off + zlen buf <= capacity a -> all_bytes buf ->
  let '(r, a') := raid1_write crc32c off buf a in wrote a a' v torn off buf r.
Proof.
  intros Hh El Ho Hc Hb. pose proof (h_wf _ _ _ Hh) as Hw. rewrite raid1_capacity in Hc by done. pose proof (lock_unit_pos a Hw) as Hlu.
  assert (store_bytes (overlay v off buf)) as Hv' by (apply overlay_bytes; [apply Hh|done]).
  unfold raid1_write. unfold seq at 1, gets at 1. set (r0 := Intent.chunks _ _ _). set (m := let* set := _ in _).
  pose proof (intent_spec crc32c r0 m a Hw) as HI. destruct (with_intent crc32c r0 m a) as [res a']. destruct HI as (b & Eb & HI).
  destruct HI as [(e & -> & ->)|HI]; [split; [by exists nowhere|]; cbn; by apply (holds_evolves nowhere a b); [|by intros i x _ []|]|].
  assert (Holds b v torn) as Hhb by (by eapply holds_nowhere). pose proof (h_wf _ _ _ Hhb) as Hwb. pose proof (ev_dsize _ _ _ Eb) as Db.
  pose proof (mirror_write_spec (all_slots b) off buf b Hwb (all_slots_set b) Ho ltac:(lia) Hb) as Hm. unfold m, seq, gets in HI.
  destruct (mirror_write_at (all_slots b) off buf b) as [r c]. cbn [fst snd] in HI. destruct Hm as [Ec Vc].
  destruct (HI ltac:(by eapply wf_evolves)) as [Ed ->]. assert (lvl b = Layout.Raid1) as Elb by (rewrite <- El; apply (ss_lvl _ _ (ev_same _ _ _ Eb))).
  assert (lvl c = Layout.Raid1) as Elc by (rewrite <- Elb; apply (ss_lvl _ _ (ev_same _ _ _ Ec))).
  assert (evolves (fun _ x => touched b off (zlen buf) (x / lock_unit b)) b a') as Hev.
  { eapply evolves_trans; [|by apply evolves_any]. eapply evolves_mono; [|exact Ec]. intros i x [_ Hx]. exists x. split; [done|]. by apply raid1_key. }
  assert (forall k, touched b off (zlen buf) k -> touched a off (zlen buf) k) as Ht by (intros k (y & Hy & <-); exists y; split; [done|by rewrite (ev_key _ _ _ y Eb)]).
  split; [eexists; eapply evolves_trans; [apply evolves_any, Eb|exact Hev]|]. destruct r as [[]|e]; cbn.
  - assert (0 < lock_unit b) as Hlb by by apply lock_unit_pos.
    apply (holds_build (touched b off (zlen buf)) (H := fun k => touched_dec1 b off (zlen buf) k Hlb Elb) b a' v _ torn Hhb Hv' Hev).
    + intros k _ Hk Hu. eapply unit_nowhere; [exact Ed|]. intros i x Hi Hx Hxk Hl. rewrite raid1_expected by done.
      rewrite (ev_dsize _ _ _ Ec) in Hx. rewrite (ev_n _ _ _ Ec) in Hi. rewrite (ev_lock_unit _ _ _ Ec) in Hxk.
      destruct (decide (off <= x < off + zlen buf)) as [Hin|Hout].
      * rewrite overlay_in by done. apply Vc; [done| |done|done]. by apply elem_of_zrange.
      * rewrite overlay_out by done. rewrite (ev_val _ _ _ i x Ec) by (done || by intros [_ ?]). rewrite <- (raid1_expected b v i x Elb).
        apply Hu; [done..|]. destruct (ev_limit _ _ _ i Ec); lia.
    + intros y Hy. apply overlay_out. intros Hr. apply Hy. by exists y.
  - apply (holds_mono a' v (fun k => torn k \/ touched b off (zlen buf) k)); [intros k [|]; [by left|right; by apply Ht]|]. by eapply holds_torn.
Qed.

Lemma persist_spec {A} (r : A) a b : wf a -> evolves nowhere a b -> evolves nowhere a (snd ((persist_if_dirty crc32c ;; pure r) b)).
Proof.
  intros Hw Hb. unfold seq, pure. pose proof (keeps_persist crc32c nowhere b ltac:(by eapply wf_evolves)) as Hp. destruct (persist_if_dirty crc32c b). by eapply evolves_trans.
Qed.
Lemma raid1_read_spec a v torn off n : Holds a v torn -> lvl a = Layout.Raid1 -> 0 <= off -> 0 <= n -> off + n <= capacity a ->
  let '(r, a') := raid1_read crc32c off n a in
  was_read a a' v torn off n r.
Proof.
  intros Hh El Ho Hn Hc. pose proof (h_wf _ _ _ Hh) as Hw. rewrite raid1_capacity in Hc by done.
  unfold raid1_read. unfold seq at 1, gets at 1. unfold seq at 1.
  pose proof (mirror_read_spec v (all_slots a) off n (length (all_slots a)) [] a Hw Ho Hn Hc) as Hm.
  specialize (Hm ltac:(eapply Forall_impl; [apply all_slots_set|]; cbn beta; lia)). unfold mirror_read_at.
  destruct (mirror_read_loop _ _ _ off n a) as [r b]. destruct Hm as (Eb & Hr & _).
  pose proof (persist_spec r a b Hw Eb) as Hp. unfold seq, pure in *. destruct (persist_if_dirty crc32c b) as [x d]. split; [exact Hp|].
  intros Ht. apply Hr. intros i x' Hi Hx Hl. rewrite <- (raid1_expected a v i x' El). apply (h_units _ _ _ Hh (x' / lock_unit a)); [|by apply elem_of_zrange|lia|done|done].
  apply Ht. exists x'. split; [done|by apply raid1_key].
Qed.

(** ** RAID-10 *)

Lemma raid10_geo a : wf a -> lvl a = Layout.Raid10 ->
  Layout.data_count (geometry a) = n_members a / 2 /\ n_members a = 2 * (n_members a / 2) /\ lock_unit a = unit_size a /\ lvl a <> Layout.Raid1.
Proof.
  intros Hw E. destruct (w_level _ Hw) as [Hl _]. rewrite E in Hl. cbn in Hl. unfold Layout.data_count, lock_unit. change (Layout.level (geometry a)) with (lvl a). rewrite E.
  split_and!; [done|pose proof (Z.div_mod (n_members a) 2 ltac:(lia)); lia|by rewrite bool_decide_false|done].
Qed.
Lemma pair_set a p : wf a -> lvl a = Layout.Raid10 -> 0 <= p < Layout.data_count (geometry a) -> member_set a (pair_list p).
Proof.
  intros Hw E Hp. destruct (raid10_geo a Hw E) as (D1 & D2 & _). unfold pair_list, Layout.pair_members. cbn [fst snd]. split.
  - apply NoDup_cons. split; [intros Hx%list_elem_of_singleton; lia|apply NoDup_singleton].
  - repeat constructor; lia.
Qed.
Lemma in_pair i p : i ∈ pair_list p <-> Layout.pair_of i = p.
Proof.
  unfold pair_list, Layout.pair_members, Layout.pair_of. cbn [fst snd]. rewrite !elem_of_cons, elem_of_nil.
  pose proof (Z.div_mod i 2 ltac:(lia)). pose proof (Z.mod_pos_bound i 2 ltac:(lia)). split; [intros [->|[->|[]]]|intros <-; lia].
  - rewrite Z.mul_comm. by apply Z.div_mul.
  - replace (2 * p + 1) with (1 + p * 2) by lia. rewrite Z.div_add by lia. done.
Qed.
Lemma raid10_expected a v i x : lvl a = Layout.Raid10 ->
  expected (geometry a) v i x = v (addr (geometry a) (x / unit_size a) (Layout.pair_of i) (x mod unit_size a)).
Proof. intros E. unfold expected. change (Layout.level (geometry a)) with (lvl a). by rewrite E. Qed.
Lemma addr_in_piece g sg off pos end_ s d o : geo_ok g -> piece_ok g off pos end_ sg -> 0 <= d < Layout.data_count g -> 0 <= o < Layout.unit_ g ->
  byte_of g sg <= addr g s d o < byte_of g sg + Layout.len sg <-> s = Layout.stripe sg /\ d = Layout.index sg /\ Layout.offset_in_unit sg <= o < Layout.offset_in_unit sg + Layout.len sg.
Proof.
  intros Hg Hsg Hd Ho. pose proof (byte_of_stripe g sg off pos end_ Hg Hsg (addr g s d o)) as Hk. destruct Hsg as [H1 H2 H3 H4 H5]. destruct Hg as [He Hu]. split.
  - intros Hr. specialize (Hk Hr). rewrite addr_stripe in Hk by done. subst s. split; [done|]. unfold byte_of, addr in Hr.
    assert (d = Layout.index sg); [nia|]. subst d. lia.
  - intros (-> & -> & Hr). unfold byte_of, addr. lia.
Qed.

Definition mix (g : Geometry) (v v' : store) (l : list Segment) : store :=
  fun y => if existsb (fun sg => (byte_of g sg <=? y) && (y <? byte_of g sg + Layout.len sg)) l then v' y else v y.
Lemma mix_bytes g v v' l : store_bytes v -> store_bytes v' -> store_bytes (mix g v v' l).
Proof. intros H1 H2 y. unfold mix. by destruct (existsb _ _). Qed.
Lemma mix_snoc g v v' l sg y : mix g v v' (l ++ [sg]) y = if (byte_of g sg <=? y) && (y <? byte_of g sg + Layout.len sg) then v' y else mix g v v' l y.
Proof. unfold mix. rewrite existsb_app. cbn. rewrite orb_false_r. destruct (_ && _); [by rewrite orb_true_r|by rewrite orb_false_r]. Qed.
Lemma in_piece_bool a b y : (a <=? y) && (y <? b) = bool_decide (a <= y < b).
Proof. apply eq_true_iff_eq. rewrite bool_decide_eq_true, andb_true_iff, Z.leb_le, Z.ltb_lt. done. Qed.

(** One piece written to its pair. *)
Lemma raid10_piece a v v' torn l sg buf off end_ : Holds a (mix (geometry a) v v' l) torn -> lvl a = Layout.Raid10 -> store_bytes v -> store_bytes v' ->
  piece_ok (geometry a) off off end_ sg -> all_bytes (piece buf sg) -> piece buf sg = tab (Layout.len sg) (fun j => v' (byte_of (geometry a) sg + j)) ->
  0 <= Layout.stripe sg -> (Layout.stripe sg + 1) * unit_size a <= dsize a ->
  let '(r, a') := mirror_write_at (pair_list (Layout.index sg)) (seg_off (unit_size a) sg) (piece buf sg) a in
  evolves (fun _ x => x / lock_unit a = Layout.stripe sg) a a' /\ (r = Ok () -> Holds a' (mix (geometry a) v v' (l ++ [sg])) torn).
Proof.
  intros Hh El Hv Hv' Hsg Hpb Hpd Hs0 Hsd. pose proof (h_wf _ _ _ Hh) as Hw. destruct (raid10_geo a Hw El) as (D1 & D2 & Elu & Hn1). pose proof (w_unit _ Hw) as [Hu _].
  pose proof (po_index _ _ _ _ _ Hsg) as Hi. pose proof (po_unit _ _ _ _ _ Hsg) as Hpu. pose proof (po_len _ _ _ _ _ Hsg) as Hpl. change (Layout.unit_ (geometry a)) with (unit_size a) in Hpu.
  assert (zlen (piece buf sg) = Layout.len sg) as Hz by (rewrite Hpd; apply zlen_tab; lia). unfold seg_off.
  pose proof (mirror_write_spec (pair_list (Layout.index sg)) (Layout.stripe sg * unit_size a + Layout.offset_in_unit sg) (piece buf sg) a Hw
    (pair_set a _ Hw El Hi) ltac:(nia) ltac:(nia) Hpb) as Hm. destruct (mirror_write_at _ _ _ a) as [r a']. destruct Hm as [Hev Hval]. rewrite Hz in *. split.
  { eapply evolves_mono; [|exact Hev]. intros i x [_ Hx]. rewrite Elu. apply div_unique_pos; lia. }
  intros Hr. assert (wf a') as Hw' by (by eapply wf_evolves). split; [done|by apply mix_bytes|]. intros k Hk i x Hix Hx Hxk Hl.
  rewrite (ev_n _ _ _ Hev) in Hix. rewrite (ev_dsize _ _ _ Hev) in Hx. rewrite (ev_lock_unit _ _ _ Hev) in Hxk. rewrite (ev_geometry _ _ _ Hev).
  rewrite raid10_expected by done. pose proof (Z.mod_pos_bound x (unit_size a) Hu) as Ho. pose proof (Z.div_mod x (unit_size a) ltac:(lia)) as Hdm.
  assert (0 <= Layout.pair_of i < Layout.data_count (geometry a)) as Hd.
  { rewrite D1. unfold Layout.pair_of. split; [apply Z.div_pos; lia|]. apply Z.div_lt_upper_bound; lia. }
  rewrite mix_snoc, in_piece_bool. pose proof (addr_in_piece (geometry a) sg off off end_ (x / unit_size a) (Layout.pair_of i) (x mod unit_size a) (wf_geo a Hw) Hsg Hd Ho) as Hin.
  case_bool_decide as Hb.
  - apply Hin in Hb as (B1 & B2 & B3). rewrite (Hval Hr i x); [|by apply in_pair|nia|done]. rewrite Hpd, at_tab by nia. f_equal. unfold byte_of, addr.
    change (Layout.unit_ (geometry a)) with (unit_size a). nia.
  - rewrite (ev_val _ _ _ i x Hev Hx); [|intros [B1 B2]; apply Hb, Hin; apply in_pair in B1; assert (x / unit_size a = Layout.stripe sg) as Es by (apply div_unique_pos; lia); split_and!; [done|done|nia|nia]].
    rewrite <- (raid10_expected a (mix (geometry a) v v' l) i x El). apply (h_units _ _ _ Hh k Hk); [done..|]. destruct (ev_limit _ _ _ i Hev); lia.
Qed.
Lemma raid10_segs_spec buf off end_ v v' torn u segs : forall l a, Holds a (mix (geometry a) v v' l) torn -> lvl a = Layout.Raid10 -> u = unit_size a -> store_bytes v -> store_bytes v' ->
  Forall (fun sg => piece_ok (geometry a) off off end_ sg /\ piece buf sg = tab (Layout.len sg) (fun j => v' (byte_of (geometry a) sg + j)) /\
    0 <= Layout.stripe sg /\ (Layout.stripe sg + 1) * unit_size a <= dsize a) segs ->
  let '(r, a') := raid10_write_segs u segs buf a in
  evolves (fun _ x => x / lock_unit a ∈ map Layout.stripe segs) a a' /\ (r = Ok () -> Holds a' (mix (geometry a) v v' (l ++ segs)) torn).
Proof.
  induction segs as [|sg segs IH]; intros l a Hh El Eu Hv Hv' HF; [split; [apply evolves_refl|by rewrite app_nil_r]|].
  apply Forall_cons in HF as [(P1 & P2 & P3 & P4) HF]. cbn [raid10_write_segs map]. unfold bind at 1, seq at 1.
  pose proof (raid10_piece a v v' torn l sg buf off end_ Hh El Hv Hv' P1) as Hp. rewrite Eu.
  specialize (Hp ltac:(rewrite P2; apply tab_bytes; intros; apply Hv') P2 P3 P4). destruct (mirror_write_at _ _ _ a) as [[[]|e] b]; destruct Hp as [Eb Hb].
  2:{ split; [|done]. eapply evolves_mono; [|exact Eb]. intros i x Hx. rewrite Hx. left. }
  pose proof (ev_geometry _ _ _ Eb) as Eg. pose proof (ev_lock_unit _ _ _ Eb) as Elu. destruct (ev_same _ _ _ Eb) as [S1 S2 S3 _ _ _ _ _].
  specialize (IH (l ++ [sg]) b). rewrite Eg, S1, S2, S3, Elu in IH. specialize (IH (Hb eq_refl) El Eu Hv Hv' HF). rewrite <- Eu.
  destruct (raid10_write_segs u segs buf b) as [r a']. destruct IH as [I1 I2]. split; [|by rewrite <- app_assoc in I2].
  eapply evolves_trans; [eapply evolves_mono; [|exact Eb]|eapply evolves_mono; [|exact I1]]; intros i x Hx; [rewrite Hx; left|by right].
Qed.

Lemma pieces_in_set a off n segs : wf a -> lvl a <> Layout.Raid1 -> 0 <= off -> off + n <= capacity a -> Forall (piece_ok (geometry a) off off (off + n)) segs ->
  Forall (fun sg => 0 <= Layout.stripe sg /\ (Layout.stripe sg + 1) * unit_size a <= dsize a /\ touched a off n (Layout.stripe sg)) segs.
Proof.
  intros Hw Hn1 Ho Hc HF. eapply Forall_impl; [exact HF|]. intros sg Hsg. pose proof Hsg as [P1 P2 P3 P4 P5].
  pose proof (byte_of_stripe _ _ _ _ _ (wf_geo a Hw) Hsg (byte_of (geometry a) sg) ltac:(lia)) as Hk.
  destruct (stripe_in_set a (byte_of (geometry a) sg) Hw Hn1 ltac:(lia)) as [S1 S2]. rewrite Hk in S1, S2. split_and!; [done|done|].
  exists (byte_of (geometry a) sg). split; [lia|]. unfold key_at. by rewrite bool_decide_false.
Qed.
Lemma mix_overlay a v off buf segs y : (forall y, off <= y < off + zlen buf -> exists sg, sg ∈ segs /\ byte_of (geometry a) sg <= y < byte_of (geometry a) sg + Layout.len sg) ->
  overlay v off buf y = mix (geometry a) v (overlay v off buf) segs y.
Proof.
  intros Hcov. unfold mix. destruct (existsb _ segs) eqn:E; [done|]. apply overlay_out. intros Hy. destruct (Hcov y Hy) as (sg & Hsg & Hr).
  enough (existsb (fun sg => (byte_of (geometry a) sg <=? y) && (y <? byte_of (geometry a) sg + Layout.len sg)) segs = true) by congruence.
  apply existsb_exists. exists sg. split; [by apply list_elem_of_In|]. rewrite in_piece_bool. by apply bool_decide_eq_true.
Qed.
Lemma raid10_write_spec a v torn off buf : Holds a v torn -> lvl a = Layout.Raid10 -> 0 <= off -> off + zlen buf <= capacity a -> all_bytes buf ->
  let '(r, a') := raid10_write crc32c off buf a in wrote a a' v torn off buf r.
Proof.
  intros Hh El Ho Hc Hb. pose proof (h_wf _ _ _ Hh) as Hw. destruct (raid10_geo a Hw El) as (D1 & D2 & Elu & Hn1). pose proof (zlen_nonneg buf) as Hz.
  assert (store_bytes (overlay v off buf)) as Hv' by (apply overlay_bytes; [apply Hh|done]). unfold raid10_write, segs_of. unfold seq at 1, gets at 1.
  destruct (pieces_of (geometry a) (wf_geo a Hw) off (zlen buf) Hz) as (segs & -> & HF & _ & Hcov & _). unfold seq at 1, gets at 1. set (r0 := stripe_chunks a segs).
  unfold seq at 1, gets at 1. set (m := raid10_write_segs (unit_size a) segs buf). pose proof (pieces_in_set a off (zlen buf) segs Hw Hn1 Ho Hc HF) as HT.
  pose proof (intent_spec crc32c r0 m a Hw) as HI. destruct (with_intent crc32c r0 m a) as [res a']. destruct HI as (b & Eb & HI).
  destruct HI as [(e & -> & ->)|HI]; [split; [by exists nowhere|]; cbn; by apply (holds_evolves nowhere a b); [|by intros i x _ []|]|].
  assert (Holds b v torn) as Hhb by (by eapply holds_nowhere). destruct (ev_same _ _ _ Eb) as [S1 S2 S3 _ _ _ _ _]. pose proof (ev_geometry _ _ _ Eb) as Eg. pose proof (ev_lock_unit _ _ _ Eb) as Elb.
  pose proof (raid10_segs_spec buf off (off + zlen buf) v (overlay v off buf) torn (unit_size a) segs [] b) as Hm. rewrite Eg, S1, S2, S3, Elb in Hm.
  specialize (Hm ltac:(by apply (holds_ext b v)) El eq_refl ltac:(apply Hh) Hv').
  specialize (Hm ltac:(apply Forall_forall; intros sg Hin; rewrite Forall_forall in HF, HT; destruct (HT sg Hin) as (? & ? & _);
    split_and!; [by apply HF|by apply piece_data; [apply HF|]|done|done])).
  fold m in Hm. destruct (m b) as [r c]. cbn [fst snd app] in *. destruct Hm as [Ec Hok]. destruct (HI ltac:(by eapply wf_evolves; [exact Ec|apply Hhb])) as [Ed ->].
  split; [eexists; eapply evolves_trans; [apply evolves_any, Eb|eapply evolves_trans; [exact Ec|apply evolves_any, Ed]]|]. destruct r as [[]|e]; cbn.
  - eapply holds_ext; [intros y; apply (mix_overlay a v off buf segs y Hcov)|]. eapply holds_nowhere; [exact Ed|]. by apply Hok.
  - apply (holds_mono a' v (fun k => torn k \/ k ∈ map Layout.stripe segs)).
    + intros k [|(sg & -> & Hin)%list_elem_of_fmap]; [by left|right]. rewrite Forall_forall in HT. by apply HT.
    + apply (holds_torn (fun k => k ∈ map Layout.stripe segs) b); [done|]. eapply evolves_trans; [rewrite Elb; exact Ec|by apply evolves_any].
Qed.

Lemma raid10_read_segs_spec v torn u segs : forall a, Holds a v torn -> lvl a = Layout.Raid10 -> u = unit_size a ->
  Forall (fun sg => in_set (geometry a) (dsize a) sg) segs ->
  let '(r, a') := raid10_read_segs u segs a in
  evolves nowhere a a' /\ (Forall (fun sg => ~ torn (Layout.stripe sg)) segs -> forall b, r = Ok b -> b = concat (map (piece_bytes (geometry a) v) segs)).
Proof.
  induction segs as [|sg segs IH]; intros a Hh El Eu HF; [split; [apply evolves_refl|by intros _ b [= <-]]|]. apply Forall_cons in HF as [HI HF].
  pose proof HI as (I1 & I2 & I3 & I4 & I5 & I6). change (Layout.unit_ (geometry a)) with (unit_size a) in *. pose proof (h_wf _ _ _ Hh) as Hw. destruct (raid10_geo a Hw El) as (D1 & D2 & Elu & Hn1).
  pose proof (w_unit _ Hw) as [Hu _]. pose proof (pair_set a _ Hw El I3) as [_ Hps]. cbn [raid10_read_segs map concat]. unfold bind at 1, seq at 1, mirror_read_at, seg_off. rewrite Eu.
  pose proof (mirror_read_spec (fun x => v (addr (geometry a) (x / unit_size a) (Layout.index sg) (x mod unit_size a))) (pair_list (Layout.index sg))
    (Layout.stripe sg * unit_size a + Layout.offset_in_unit sg) (Layout.len sg) (length (pair_list (Layout.index sg))) [] a Hw ltac:(nia) I5 ltac:(nia)
    ltac:(eapply Forall_impl; [exact Hps|]; cbn beta; lia)) as Hm.
  destruct (mirror_read_loop _ _ _ _ _ a) as [[bs|e] b]; destruct Hm as (Eb & Hbs & _); [|by split].
  pose proof (ev_geometry _ _ _ Eb) as Eg. destruct (ev_same _ _ _ Eb) as [S1 S2 S3 _ _ _ _ _]. specialize (IH b ltac:(by eapply holds_nowhere)). rewrite Eg, S1, S2, S3 in IH.
  specialize (IH El Eu HF). rewrite Eu in IH. unfold bind, seq, ret, fail, pure. destruct (raid10_read_segs (unit_size a) segs b) as [[rs|e] c]; destruct IH as [E2 Hrs]; (split; [by eapply evolves_trans|]); [|done].
  intros [Ht Hts]%Forall_cons x [= <-]. f_equal; [|by apply Hrs]. rewrite (Hbs ltac:(intros i x Hix%in_pair Hx Hl; rewrite <- Hix, <- (raid10_expected a v i x El);
    apply (h_units _ _ _ Hh (x / lock_unit a)); [rewrite Elu; rewrite (div_unique_pos x (unit_size a) (Layout.stripe sg)) by lia; exact Ht|
      rewrite D1 in I3; unfold Layout.pair_of in Hix; pose proof (Z.div_mod i 2 ltac:(lia)); pose proof (Z.mod_pos_bound i 2 ltac:(lia)); lia|nia|done|done]) bs eq_refl).
  apply tab_ext. intros j Hj. rewrite (div_unique_pos _ (unit_size a) (Layout.stripe sg)) by lia. f_equal. unfold addr, byte_of.
  change (Layout.unit_ (geometry a)) with (unit_size a). rewrite Z.mod_eq by lia. rewrite (div_unique_pos _ (unit_size a) (Layout.stripe sg)) by lia. lia.
Qed.
Lemma raid10_read_spec a v torn off n : Holds a v torn -> lvl a = Layout.Raid10 -> 0 <= off -> 0 <= n -> off + n <= capacity a ->
  let '(r, a') := raid10_read crc32c off n a in
  was_read a a' v torn off n r.
Proof.
  intros Hh El Ho Hn Hc. pose proof (h_wf _ _ _ Hh) as Hw. destruct (raid10_geo a Hw El) as (D1 & D2 & Elu & Hn1). unfold raid10_read, segs_of. unfold seq at 1, gets at 1.
  destruct (pieces_of (geometry a) (wf_geo a Hw) off n Hn) as (segs & -> & HF & _ & _ & Ht0). unfold seq at 1, gets at 1. unfold seq at 1.
  pose proof (pieces_in_set a off n segs Hw Hn1 Ho Hc HF) as HT.
  assert (Forall (in_set (geometry a) (dsize a)) segs) as HI.
  { apply Forall_forall. intros sg Hin. rewrite Forall_forall in HF, HT. destruct (HF sg Hin) as [P1 P2 P3 P4 P5]. destruct (HT sg Hin) as (T1 & T2 & _). split_and!; [done|done|lia..]. }
  pose proof (raid10_read_segs_spec v torn (unit_size a) segs a Hh El eq_refl HI) as Hm. destruct (raid10_read_segs _ segs a) as [r b]. destruct Hm as [Eb Hr].
  pose proof (persist_spec r a b Hw Eb) as Hp. unfold seq, pure in *. destruct (persist_if_dirty crc32c b) as [x d]. split; [exact Hp|].
  intros Ht y Hy. rewrite (Hr ltac:(eapply Forall_impl; [exact HT|]; intros sg H; apply Ht; apply H) y Hy). unfold piece_bytes. rewrite (tiles_bytes _ _ _ _ _ _ Ht0).
  by replace (off + n - off) with n by lia.
Qed.
End Sets.

#[local] Open Scope raid_scope.

Section Device_.
Context (cpu : arch) (simd : SimdLevel) (crc32c : bytes -> Z).

Lemma level_cases a : lvl a = Layout.Raid1 \/ lvl a = Layout.Raid10 \/ parity_set a.
Proof. unfold parity_set. destruct (lvl a); auto. Qed.

(** ** Reads and writes *)

Lemma write_holds a v torn off buf : Holds a v torn -> 0 <= off -> all_bytes buf ->
  let '(r, a') := write cpu simd crc32c off buf a in wrote a a' v torn off buf r.
Proof.
  intros Hh Ho Hb. unfold write, seq, gets, fail, pure. assert (forall e, wrote a a v torn off buf (Err e)) as He.
  { intros e. split; [exists nowhere; apply evolves_refl|]. cbn. eapply holds_mono; [|exact Hh]. auto. }
  destruct (released a); [apply He|]. destruct (Z.ltb_spec (capacity a) (off + zlen buf)); [apply He|].
  destruct (lvl a) eqn:El.
  - by apply raid1_write_spec.
  - apply parity_write_spec; [done|by left|done..].
  - apply parity_write_spec; [done|by right|done..].
  - by apply raid10_write_spec.
Qed.
Lemma read_holds a v torn off n : Holds a v torn -> 0 <= off -> 0 <= n ->
  let '(r, a') := read cpu simd crc32c off n a in
  was_read a a' v torn off n r.
Proof.
  intros Hh Ho Hn. unfold read, seq, gets, fail, pure. destruct (Z.ltb_spec (capacity a) (off + n)); [by split; [apply evolves_refl|]|].
  destruct (lvl a) eqn:El.
  - by apply raid1_read_spec.
  - apply parity_read_spec; [done|by left|done..].
  - apply parity_read_spec; [done|by right|done..].
  - by apply raid10_read_spec.
Qed.

(** ** Flush *)

Lemma keeps_flush_members W : keeps W flush_members.
Proof.
  apply keeps_seq; [apply keeps_gets|intros devs]. apply keeps_seq; [apply keeps_each; intros i _; apply keeps_seq; [apply keeps_fl|intros; apply keeps_pure]|intros rs].
  apply keeps_then; [apply keeps_settle|intros _]. apply keeps_seq; [apply keeps_gets|intros [|]; apply keeps_pure].
Qed.
Lemma clear_nbytes b t : Intent.nbytes (snd (Intent.clear_idle b t)) = Intent.nbytes b.
Proof. unfold Intent.clear_idle. by destruct (foldl _ _ _) as [? ?]. Qed.
Lemma keeps_flush W before : keeps W (flush crc32c before).
Proof.
  apply keeps_seq; [apply keeps_gets|intros [|]; [apply keeps_pure|]]. apply keeps_seq; [apply keeps_flush_members|intros res].
  apply keeps_seq; [apply keeps_gets|intros keep]. apply keeps_seq; [|intros _; apply keeps_seq; [apply keeps_persist|intros _; apply keeps_pure]].
  destruct res as [[]|e]; [|apply keeps_pure]. destruct before as [t|]; [|apply keeps_pure]. destruct keep; [apply keeps_pure|].
  apply keeps_seq.
  - intros a _. pose proof (clear_nbytes (bm a) t) as Hz. destruct (Intent.clear_idle (bm a) t) as [n b]. cbn in *. by apply evolves_same_members.
  - intros n. destruct (0 <? n); [|apply keeps_pure]. apply keeps_seq; [apply keeps_write_bitmap_pages|intros; apply keeps_pure].
Qed.
Lemma keeps_holds {A} (m : S A) a v torn : keeps nowhere m -> Holds a v torn -> Holds (snd (m a)) v torn.
Proof. intros Hk Hh. eapply holds_nowhere; [|exact Hh]. apply Hk, Hh. Qed.
Lemma keeps_fail_as W idx gone : keeps W (fail_member_as idx gone).
Proof. intros a _. pose proof (fail_spec idx gone a) as H. destruct (fail_member_as idx gone a). by apply evolves_any, H. Qed.

(** ** Members replaced, added and removed *)

(** A drive taken into the set: big enough, of bytes, with an identifier. *)
Definition drive_ok (a : RaidArray) (d : Device) (u : bytes) : Prop :=
  zlen u = 16 /\ (DATA_OFFSET + dsize a <= zlen (content d) -> forall x, 0 <= x < dsize a -> byte (dbyte d x)).

Lemma level_ok_mono l n n' : n <= n' -> l = Layout.Raid1 -> level_ok l n -> level_ok l n'.
Proof. intros H -> Hl. cbn in *. lia. Qed.
Lemma new_member_wf a a' i m : wf a -> member a i = Some m -> state m = Failed ->
  forall d u, drive_ok a d u -> DATA_OFFSET + dsize a <= zlen (content d) -> a' = set_events (evts a + 1) (sb_dirty a) (set_member i (mkMember (Some d) Rebuilding u 0 false 0) a) -> wf a'.
Proof.
  intros Hw E Es d u [Hu Hd] Hz ->. set (m' := mkMember _ _ _ _ _ _). set (a1 := set_member i m' a). assert (same_set a a1) as S1 by apply same_set_member_put. pose proof (member_range _ _ _ E) as Hi.
  assert (forall j mj, member a1 j = Some mj -> (j = i /\ mj = m') \/ (j <> i /\ member a j = Some mj)) as Hm.
  { intros j mj Hj. destruct (decide (i = j)) as [<-|Hne]; [left; unfold a1 in Hj; rewrite (member_set_same _ _ _ _ E) in Hj; split; congruence|right].
    unfold a1 in Hj. rewrite member_set_other in Hj by lia. done. }
  assert (data_intact a1 = true) as Hin.
  { apply (members_intact a a1); [done|done|by apply same_set_n| |apply Hw]. intros j Hj. destruct (decide (i = j)) as [<-|Hne].
    - rewrite (not_ok_at _ _ _ E) in Hj. unfold ok_member in Hj. rewrite Es in Hj. cbn in Hj. by rewrite andb_false_r in Hj.
    - unfold a1. by rewrite ok_others by lia. }
  destruct Hw as [H1 H2 H3 HC H4 H5 H6 H7 H8]. split; try done.
  - change (level_ok (lvl a) (n_members a1) /\ n_members a1 <= MAX_SLOTS). by rewrite (same_set_n _ _ S1).
  - change (capacity a = Layout.capacity (geometry a1) (dsize a)). rewrite HC. f_equal. unfold geometry. by rewrite (same_set_n _ _ S1).
  - split; [apply H4|]. intros j mj [[-> ->]|[_ Hj]]%Hm; [done|by apply (proj2 H4 j)].
  - intros j mj dj [[-> ->]|[_ Hj]]%Hm Dj; [injection Dj as <-; split; [done|by apply Hd]|by apply (H6 j mj)].
  - intros j mj [[-> ->]|[_ Hj]]%Hm Sj; [|by apply (H7 j mj)].
    cbn [rebuilt_to m']. split; [split; [done|apply H2]|left; apply Zmod_0_l].
Qed.

(** The slot's data is the new drive's, none of which counts yet. *)
Lemma new_member_units a i m d u v torn : Holds a v torn -> member a i = Some m ->
  let a' := set_events (evts a + 1) (sb_dirty a) (set_member i (mkMember (Some d) Rebuilding u 0 false 0) a) in
  forall k, ~ torn k -> unit_ok a' v k.
Proof.
  intros Hh E a' k Hk j x Hj Hx Hxk Hl. set (m' := mkMember _ _ _ _ _ _) in a'. pose proof (member_range _ _ _ E) as Hi.
  assert (same_set a (set_member i m' a)) as S1 by apply same_set_member_put. change (n_members a') with (n_members (set_member i m' a)) in Hj. rewrite (same_set_n _ _ S1) in Hj.
  change (limit a' j) with (limit (set_member i m' a) j) in Hl. change (val a' j x) with (val (set_member i m' a) j x). unfold limit in Hl.
  assert (geometry a' = geometry a) as -> by (unfold geometry; change (n_members a') with (n_members (set_member i m' a)); by rewrite (same_set_n _ _ S1)).
  destruct (decide (i = j)) as [<-|Hne]; [rewrite (member_set_same _ _ _ _ E) in Hl; cbn in Hl; lia|]. rewrite member_set_other in Hl by lia. unfold val.
  rewrite member_set_other by lia. by apply (h_units _ _ _ Hh k Hk).
Qed.
Lemma replace_holds a i d u v torn : Holds a v torn -> drive_ok a d u -> Holds (snd (replace crc32c i d u a)) v torn.
Proof.
  intros Hh Hd. unfold replace. destruct (Z.ltb_spec (zlen (content d)) (DATA_OFFSET + dsize a)) as [|Hz]; [done|].
  destruct (member a i) as [m|] eqn:E; [|done]. destruct (negb _) eqn:Es; [done|]. apply negb_false_iff, bool_decide_eq_true in Es.
  apply keeps_holds.
  - apply keeps_then; [apply keeps_zero_bitmaps|intros _; apply keeps_write_superblocks].
  - split; [by eapply new_member_wf; [apply Hh|exact E|exact Es|exact Hd|done|]|apply Hh|]. by eapply new_member_units.
Qed.

(** RAID-1's members have the same data, whatever their number. *)
Lemma mirror_rebuilt a l v torn e : Holds a v torn -> lvl a = Layout.Raid1 -> 0 < zlen l <= MAX_SLOTS -> existsb ok_member l = true ->
  Forall (fun m => zlen (uuid m) = 16 /\ (forall d, device m = Some d -> DATA_OFFSET + dsize a <= zlen (content d) /\ forall x, 0 <= x < dsize a -> byte (dbyte d x)) /\
    (state m = Rebuilding -> 0 <= rebuilt_to m <= dsize a /\ (rebuilt_to m mod lock_unit a = 0 \/ rebuilt_to m = dsize a)) /\
    forall x, 0 <= x < dsize a -> ~ torn (x / lock_unit a) -> x < limit_of (dsize a) m -> val_of m x = v x) l ->
  Holds (set_events e (sb_dirty a) (set_members l a)) v torn.
Proof.
  intros Hh El Hl Hok HF. pose proof (h_wf _ _ _ Hh) as Hw. set (a' := set_events _ _ _).
  assert (forall i m, member a' i = Some m -> m ∈ l) as Hm.
  { intros i m [_ H]%member_some. by eapply list_elem_of_lookup_2. }
  rewrite Forall_forall in HF. split; [split|apply Hh|].
  - change (level_ok (lvl a) (zlen l) /\ zlen l <= MAX_SLOTS). rewrite El. cbn. lia.
  - apply Hw.
  - change (lvl a' ) with (lvl a). by rewrite El.
  - change (capacity a = Layout.capacity (geometry a') (dsize a)). rewrite (w_capacity _ Hw). unfold Layout.capacity. change (Layout.level (geometry a')) with (lvl a).
    change (Layout.level (geometry a)) with (lvl a). by rewrite El.
  - split; [apply Hw|]. intros i m Hi. by apply HF, (Hm i).
  - apply Hw.
  - intros i m d Hi Hd. by apply (HF m (Hm i m Hi)).
  - intros i m Hi Hs. by apply (HF m (Hm i m Hi)).
  - unfold data_intact. change (lvl a') with (lvl a). rewrite El. exact Hok.
  - intros k Hk i x Hi Hx Hxk Hlt. rewrite (raid1_expected a' v i x El). unfold limit, val in *. destruct (member a' i) as [m|] eqn:E; [|change (from_option (limit_of (dsize a')) 0 None) with 0 in Hlt; lia].
    cbn [from_option] in *. destruct (HF m (Hm i m E)) as (_ & _ & _ & H). apply H; [done| |done]. change (lock_unit a') with (lock_unit a) in Hxk. by rewrite Hxk.
Qed.
Lemma mirror_member a v torn m i : Holds a v torn -> lvl a = Layout.Raid1 -> members a !! i = Some m ->
  zlen (uuid m) = 16 /\ (forall d, device m = Some d -> DATA_OFFSET + dsize a <= zlen (content d) /\ forall x, 0 <= x < dsize a -> byte (dbyte d x)) /\
  (state m = Rebuilding -> 0 <= rebuilt_to m <= dsize a /\ (rebuilt_to m mod lock_unit a = 0 \/ rebuilt_to m = dsize a)) /\
  forall x, 0 <= x < dsize a -> ~ torn (x / lock_unit a) -> x < limit_of (dsize a) m -> val_of m x = v x.
Proof.
  intros Hh El Hi. assert (member a (Z.of_nat i) = Some m) as E by (apply member_some; split; [lia|by rewrite Nat2Z.id]). pose proof (h_wf _ _ _ Hh) as Hw.
  split_and!; [by apply (proj2 (w_uuids _ Hw) _ _ E)|intros d Hd; by apply (w_drives _ Hw _ _ _ E Hd)|intros Hs; by apply (w_mark _ Hw _ _ E Hs)|].
  intros x Hx Ht Hl. rewrite <- (raid1_expected a v (Z.of_nat i) x El). rewrite <- (h_units _ _ _ Hh _ Ht (Z.of_nat i) x); [|by apply (member_range _ _ _ E)|done|done|].
  - unfold val. by rewrite E.
  - unfold limit. by rewrite E.
Qed.
(** The set with a new member, before its superblocks are written. *)
Definition with_new (d : Device) (u : bytes) (a : RaidArray) : RaidArray :=
  set_events (evts a + 1) (sb_dirty a) (set_members (members a ++ [mkMember (Some d) Rebuilding u 0 false 0]) a).
Lemma add_member_parts a d u v torn : Holds a v torn -> drive_ok a d u -> (snd (add_member crc32c d u a) = a) \/
  (lvl a = Layout.Raid1 /\ Holds (with_new d u a) v torn /\ snd (add_member crc32c d u a) = snd (bind (zero_bitmaps (Some (n_members a))) (fun _ => write_superblocks crc32c) (with_new d u a))).
Proof.
  intros Hh [Hu Hd]. unfold add_member. destruct (negb _) eqn:El; [by left|]. apply negb_false_iff, bool_decide_eq_true in El.
  destruct (Z.ltb_spec (zlen (content d)) (DATA_OFFSET + dsize a)) as [|Hz]; [by left|]. destruct (Z.leb_spec MAX_SLOTS (n_members a)) as [|Hn]; [by left|].
  pose proof (w_intact _ (h_wf _ _ _ Hh)) as Hin. unfold data_intact in Hin. rewrite El in Hin. unfold n_members in Hn.
  right. split; [done|]. split; [|done]. apply mirror_rebuilt; [done|done| | |].
  - rewrite zlen_app. pose proof (zlen_nonneg (members a)). change (zlen [_]) with 1. lia.
  - rewrite existsb_app, Hin. done.
  - apply Forall_app. split; [|constructor; [|constructor]].
    + apply Forall_lookup_2. intros i m Hi. by eapply mirror_member.
    + pose proof (proj2 (w_unit _ (h_wf _ _ _ Hh))). split_and!; [done|intros d' [= <-]; split; [done|by apply Hd]|intros _; split; [cbn; lia|left; apply Zmod_0_l]|].
      cbn. intros x Hx _ Hl. lia.
Qed.
Lemma add_member_holds a d u v torn : Holds a v torn -> drive_ok a d u -> Holds (snd (add_member crc32c d u a)) v torn.
Proof.
  intros Hh Hd. destruct (add_member_parts a d u v torn Hh Hd) as [->|(_ & Hh1 & ->)]; [done|].
  apply keeps_holds; [apply keeps_then; [apply keeps_zero_bitmaps|intros _; apply keeps_write_superblocks]|done].
Qed.
Definition without (i : nat) (a : RaidArray) : RaidArray := set_events (evts a + 1) (sb_dirty a) (set_members (delete i (members a)) a).
Lemma remove_member_parts a u v torn : Holds a v torn -> (snd (remove_member crc32c u a) = a) \/
  (lvl a = Layout.Raid1 /\ exists i, Holds (without i a) v torn /\ snd (remove_member crc32c u a) = snd (write_superblocks crc32c (without i a))).
Proof.
  intros Hh. unfold remove_member. destruct (negb _) eqn:El; [by left|]. apply negb_false_iff, bool_decide_eq_true in El.
  destruct (list_find _ (members a)) as [[i m]|] eqn:Ef; [|by left]. destruct (negb _) eqn:Ek; [by left|]. apply negb_false_iff in Ek.
  apply list_find_Some in Ef as (Ef & _ & _). right. split; [done|]. exists i. split; [|done]. apply mirror_rebuilt; [done|done| |done|].
  - pose proof (proj2 (w_level _ (h_wf _ _ _ Hh))) as Hn. unfold n_members, zlen in *. rewrite length_delete by eauto. apply lookup_lt_Some in Ef.
    apply existsb_exists in Ek as (y & Hy & _). pose proof (length_delete (members a) i ltac:(by apply lookup_lt_is_Some_2)) as Hld.
    destruct (delete i (members a)); [by destruct Hy|]. cbn in Hld. lia.
  - apply Forall_lookup_2. intros j mj Hj. rewrite list_lookup_delete in Hj. by case_decide; eapply mirror_member.
Qed.
Lemma remove_member_holds a u v torn : Holds a v torn -> Holds (snd (remove_member crc32c u a)) v torn.
Proof.
  intros Hh. destruct (remove_member_parts a u v torn Hh) as [->|(_ & i & Hh1 & ->)]; [done|]. apply keeps_holds; [apply keeps_write_superblocks|done].
Qed.
End Device_.
