(* ===== verification/RaidRebuild.v ===== *)
(** The rebuild of replaced members: each unit of a target comes out as the data and
    parity say, a batch only counts as rebuilt when all of its units are, and a finished
    rebuild leaves the targets active with nothing missing. *)

From S2P Require Import Prelude Gf256 Parity ParityRecover RaidLayout IntentBitmap RaidSuper RaidArray RaidFrame RaidModel RaidStripe RaidWrite RaidParity RaidMirror.
#[local] Open Scope raid_scope.

(** [t] holds unit [k] as it should, if it is still rebuilding. *)
Definition caught_up (a : RaidArray) (v : store) (k t : Z) : Prop := forall m x, member a t = Some m -> state m = Rebuilding -> present m = true ->
  0 <= x < dsize a -> x / lock_unit a = k -> val a t x = expected (geometry a) v t x.
Lemma rebuilding_before W a a' t m' : evolves W a a' -> member a' t = Some m' -> state m' = Rebuilding -> present m' = true ->
  exists m, member a t = Some m /\ state m = Rebuilding /\ present m = true /\ rebuilt_to m' = rebuilt_to m.
Proof.
  intros Hev E Es Ep. destruct (same_set_member_rev _ _ _ _ (ev_same _ _ _ Hev) E) as (m & Em). exists m.
  destruct (ev_member _ _ _ Hev t m m' Em E) as [_ P St _ _ _]. destruct St as [[St R]|St]; [|congruence]. split_and!; congruence.
Qed.
Lemma caught_evolves W a a' v k t : evolves W a a' -> (forall x, 0 <= x < dsize a -> x / lock_unit a = k -> ~ W t x) -> caught_up a v k t -> caught_up a' v k t.
Proof.
  intros Hev HW H m' x E Es Ep Hx Hk. rewrite (ev_dsize _ _ _ Hev) in Hx. rewrite (ev_lock_unit _ _ _ Hev) in Hk. rewrite (ev_geometry _ _ _ Hev).
  destruct (rebuilding_before _ _ _ _ _ Hev E Es Ep) as (m & Em & Sm & Pm & _). rewrite (ev_val _ _ _ t x Hev Hx) by (by apply HW). by eapply H.
Qed.

(** ** The targets' writes *)

Lemma write_targets_spec moff n ws : forall a, wf a -> 0 <= moff -> 0 <= n -> moff + n <= dsize a -> NoDup (map fst ws) -> Forall (fun w => buf_ok n (snd w)) ws ->
  let '(_, a') := write_targets moff ws a in
  evolves (column_of (map fst ws) moff n) a a' /\
  forall t b m', (t, b) ∈ ws -> member a' t = Some m' -> state m' = Rebuilding -> present m' = true -> forall j, 0 <= j < n -> val a' t (moff + j) = at_byte b j.
Proof.
  induction ws as [|[t b] ws IH]; intros a Hw H0 Hn Hd Hnd HF; [split; [apply evolves_refl|by intros t b m' ?%elem_of_nil]|].
  apply Forall_cons in HF as [[Hz Hb] HF]. cbn [fst snd map] in *. apply NoDup_cons in Hnd as [Ht Hnd]. cbn [write_targets]. unfold seq at 1.
  pose proof (wr_data t moff b a Hw H0 ltac:(lia) Hb) as H1. destruct (wr t _ b a) as [r c]. destruct H1 as (E1 & _ & _ & _ & _ & V1). rewrite Hz in *.
  assert (exists d, (match r with Err _ => fail_member t ;; write_targets moff ws | Ok _ => write_targets moff ws end) c = write_targets moff ws d /\ evolves nowhere c d /\
    (forall m, member d t = Some m -> state m = Rebuilding -> present m = true -> r = Ok ())) as (d & -> & E2 & Hr).
  { destruct r as [[]|e]; [exists c; split_and!; [done|apply evolves_refl|done]|]. unfold seq, fail_member. pose proof (fail_spec t false c) as Hf.
    unfold fail_member_as in *. destruct (member c t) as [m|] eqn:E.
    2:{ exists c. split_and!; [done|apply evolves_refl|]. intros m Hm. congruence. }
    destruct (bool_decide (state m = Failed)) eqn:Ef; [exists c; split_and!; [done|apply evolves_refl|]; intros m1 Hm Hs; apply bool_decide_eq_true in Ef; congruence|].
    destruct (bool_decide (state m = Rebuilding)) eqn:Er; cbn [negb andb] in *.
    - eexists. split_and!; [reflexivity|apply Hf|]. destruct Hf as (_ & _ & Hf & _). destruct (Hf eq_refl) as (m' & E' & Es'). intros m1 Hm Hs. congruence.
    - apply bool_decide_eq_false in Er. destruct (negb (can_lose c t)); [exists c; split_and!; [done|apply evolves_refl|]; intros m1 Hm Hs; congruence|].
      eexists. split_and!; [reflexivity|apply Hf|]. destruct Hf as (_ & _ & Hf & _). destruct (Hf eq_refl) as (m' & E' & Es'). intros m1 Hm Hs. congruence. }
  assert (evolves (covers t moff n) a d) as Ead by (eapply evolves_trans; [exact E1|by apply evolves_any]).
  pose proof (ev_dsize _ _ _ Ead) as Dd. specialize (IH d ltac:(by eapply wf_evolves) H0 Hn ltac:(lia) Hnd HF). destruct (write_targets moff ws d) as [x a']. destruct IH as [E3 V3]. split.
  - eapply evolves_trans; [|]; eapply evolves_mono; [|exact Ead| |exact E3].
    + intros i y [-> Hy]. split; [left|done].
    + intros i y [Hi Hy]. split; [by right|done].
  - intros t' b' m' Hin Em Es Ep j Hj. apply elem_of_cons in Hin as [Hin|Hin]; [|by eapply V3]. injection Hin as -> ->.
    destruct (rebuilding_before _ _ _ _ _ E3 Em Es Ep) as (md & Ed & Sd & Pd & _). rewrite (ev_val _ _ _ t (moff + j) E3); [|lia|by intros [? _]].
    rewrite (ev_val _ _ _ t (moff + j) E2); [|rewrite (ev_dsize _ _ _ E1); lia|by intros []].
    rewrite V1; [f_equal; lia|by eapply Hr|lia].
Qed.

(** ** One unit *)

Definition unheld (a : RaidArray) (key i x : Z) : Prop := x / lock_unit a = key /\ limit a i <= key * lock_unit a.
Lemma holds_unheld a a' v torn key : Holds a v torn -> evolves (unheld a key) a a' -> Holds a' v torn.
Proof.
  intros [Hw Hv Hu] Hev. split; [by eapply wf_evolves|done|]. intros k Hk i x. rewrite (ev_n _ _ _ Hev), (ev_dsize _ _ _ Hev), (ev_lock_unit _ _ _ Hev), (ev_geometry _ _ _ Hev).
  intros Hi Hx Hxk Hl. pose proof (lock_unit_pos a Hw) as Hlu. assert (x < limit a i) as Hla by (destruct (ev_limit _ _ _ i Hev); lia).
  rewrite (ev_val _ _ _ i x Hev Hx); [by apply (Hu k Hk)|]. intros [H1 H2]. pose proof (Z.mul_div_le x (lock_unit a) Hlu). rewrite H1 in *. lia.
Qed.
Lemma unit_len_range a key : wf a -> 0 <= key -> key * lock_unit a < dsize a ->
  0 < unit_len a key /\ key * lock_unit a + unit_len a key <= dsize a /\ unit_len a key <= lock_unit a /\
  forall x, 0 <= x < dsize a -> x / lock_unit a = key -> key * lock_unit a <= x < key * lock_unit a + unit_len a key.
Proof.
  intros Hw Hk Hd. pose proof (lock_unit_pos a Hw) as Hlu. unfold unit_len. split_and!; [lia..|]. intros x Hx <-.
  pose proof (Z.mul_div_le x (lock_unit a) Hlu). pose proof (Z.mul_succ_div_gt x (lock_unit a) Hlu). lia.
Qed.
(** A rebuilding member not to be written here has the unit. *)
Lemma behind a t key m : wf a -> 0 <= key -> key * lock_unit a < dsize a -> member a t = Some m -> state m = Rebuilding -> present m = true ->
  (rebuilt_to m <= key * lock_unit a /\ limit a t <= key * lock_unit a) \/ (key * lock_unit a < rebuilt_to m /\ Z.min ((key + 1) * lock_unit a) (dsize a) <= limit a t).
Proof.
  intros Hw Hk Hd E Es Ep. pose proof (lock_unit_pos a Hw) as Hlu. unfold limit. rewrite E. cbn. unfold limit_of. rewrite Ep, Es.
  destruct (Z.le_gt_cases (rebuilt_to m) (key * lock_unit a)); [by left|right]. split; [done|].
  destruct (w_mark _ Hw t m E Es) as [Hr [Ha|Ha]]; [|lia]. apply Z.div_exact in Ha; [|lia]. set (q := rebuilt_to m / lock_unit a) in *. rewrite Ha in *. assert (key < q) by nia. nia.
Qed.
(** What is written to the targets of a unit that are behind, done with. *)
Lemma unit_rebuilt a b v torn targets live key ws : Holds a v torn -> evolves nowhere a b -> NoDup targets -> 0 <= key -> key * lock_unit a < dsize a ->
  live = filter (fun t => live_target a (key * lock_unit a) t = true) targets -> map fst ws = live -> Forall (fun t => 0 <= t < n_members a) targets ->
  Forall (fun w => buf_ok (unit_len a key) (snd w)) ws ->
  let '(_, a') := write_targets (key * lock_unit a) ws b in
  evolves (unheld a key) a a' /\
  (Forall (fun w => snd w = tab (unit_len a key) (fun j => expected (geometry a) v (fst w) (key * lock_unit a + j))) ws -> ~ torn key ->
     forall t, t ∈ targets -> caught_up a' v key t).
Proof.
  intros Hh Eb Hnd Hk Hd -> Hws Hrg HF. pose proof (h_wf _ _ _ Hh) as Hw. pose proof (lock_unit_pos a Hw) as Hlu. destruct (unit_len_range a key Hw Hk Hd) as (U1 & U2 & U3 & U4).
  pose proof (write_targets_spec (key * lock_unit a) (unit_len a key) ws b ltac:(by eapply wf_evolves) ltac:(nia) ltac:(lia) ltac:(rewrite (ev_dsize _ _ _ Eb); lia)
    ltac:(rewrite Hws; by apply NoDup_filter) HF) as H. destruct (write_targets _ ws b) as [x a']. destruct H as [Ew Vw]. rewrite Hws in Ew.
  assert (evolves (unheld a key) a a') as Hev.
  { eapply evolves_trans; [by apply evolves_any|]. eapply evolves_mono; [|exact Ew]. intros i y [[Hi _]%list_elem_of_filter Hy]. split; [apply div_unique_pos; lia|].
    unfold live_target in Hi. destruct (member a i) as [m|] eqn:E; [|done]. apply andb_true_iff in Hi as [[Hs Hr]%andb_true_iff Hp]. apply bool_decide_eq_true in Hs. apply Z.leb_le in Hr.
    unfold limit. rewrite E. cbn. unfold limit_of. by rewrite Hp, Hs. }
  split; [done|]. intros Hexp Ht t Hin m' y Em Es Ep Hy Hyk. rewrite (ev_dsize _ _ _ Hev) in Hy. rewrite (ev_lock_unit _ _ _ Hev) in Hyk. rewrite (ev_geometry _ _ _ Hev).
  pose proof (U4 y Hy Hyk) as Hyr. destruct (rebuilding_before _ _ _ _ _ Hev Em Es Ep) as (m & E & Sm & Pm & Rm).
  destruct (behind a t key m Hw Hk Hd E Sm Pm) as [[B1 B2]|[B1 B2]].
  - assert (t ∈ map fst ws) as Hin' by (rewrite Hws; apply list_elem_of_filter; split; [unfold live_target; rewrite E, Pm, Sm; cbn; rewrite andb_true_r; by apply Z.leb_le|done]).
    apply list_elem_of_fmap in Hin' as ([t' bs] & Et & Hb). cbn in Et. subst t'. rewrite Forall_forall in Hexp. specialize (Hexp _ Hb). cbn [fst snd] in Hexp.
    replace y with (key * lock_unit a + (y - key * lock_unit a)) by lia. rewrite (Vw t bs m' Hb Em Es Ep) by lia. rewrite Hexp, at_tab by lia. done.
  - rewrite (ev_val _ _ _ t y Hev Hy); [|intros [_ Hl]; nia]. apply (h_units _ _ _ Hh key Ht); [rewrite Forall_forall in Hrg; by apply Hrg|done|done|]. nia.
Qed.

(** What the targets of a unit are given. *)
Definition gives (a : RaidArray) (v : store) (torn : Z -> Prop) (key : Z) (live : list Z) (ws : list (Z * bytes)) : Prop :=
  map fst ws = live /\ Forall (fun w => buf_ok (unit_len a key) (snd w)) ws /\
  (~ torn key -> Forall (fun w => snd w = tab (unit_len a key) (fun j => expected (geometry a) v (fst w) (key * lock_unit a + j))) ws).

Section Rebuild.
Context (cpu : arch) (simd : SimdLevel) (crc32c : bytes -> Z).

Lemma give_parity a v torn key live : Holds a v torn -> parity_set a -> 0 <= key -> key * lock_unit a < dsize a -> Forall (fun t => 0 <= t < n_members a) live ->
  let '(st, b) := read_column (geometry a) key 0 (unit_len a key) a in
  evolves nowhere a b /\ forall out, recover cpu simd (unit_len a key) st = Ok (Some out) ->
    gives a v torn key live (map (fun t => (t, strip_of (geometry a) key t out)) live).
Proof.
  intros Hh Hp Hk Hd Hl. pose proof (h_wf _ _ _ Hh) as Hw. pose proof (here_self a Hw) as Ha. pose proof (lock_is_unit a Hp) as Elu. set (g := geometry a) in *.
  assert (Layout.unit_ g = unit_size a) as Eu by done. pose proof (here_pos g (dsize a) a Ha) as Hu. rewrite Eu in Hu.
  assert ((key + 1) * unit_size a <= dsize a) as Hkd.
  { pose proof (w_whole _ Hw (not_raid1 a Hp)) as Hm. apply Z.div_exact in Hm; [|lia]. rewrite Elu in Hd. set (q := dsize a / unit_size a) in *. assert (key < q) by nia. nia. }
  assert (unit_len a key = unit_size a) as En by (unfold unit_len; rewrite Elu; lia). rewrite En.
  pose proof (read_column_shape g key 0 (unit_size a) a Hw Hk ltac:(lia) ltac:(by rewrite Eu) ltac:(lia) ltac:(lia) ltac:(lia)) as Hsh.
  pose proof (fun Hu0 => read_column_here g (dsize a) key Hp Hk Hkd v 0 (unit_size a) a Ha (h_bytes _ _ _ Hh) Hu0 ltac:(lia) ltac:(lia) ltac:(lia)) as Hrem.
  destruct (read_column g key 0 (unit_size a) a) as [st b]. cbn [fst] in Hrem. destruct Hsh as [Hsh Eb]. split; [done|]. intros out Er.
  pose proof (here_dc g (dsize a) Hp a Ha) as Hdc. destruct (filled_shape g _ _ Hsh) as (S1 & S2 & S3).
  assert (ss_data st <> []) as Hst by (intros E0; pose proof (sh_count _ _ _ Hsh) as Hc; rewrite E0 in Hc; cbn in Hc; lia).
  destruct (recover_lengths cpu simd (unit_size a) ltac:(lia) st out Hst S1 S2 S3 Er) as [F1 F2].
  destruct (recover_parities cpu simd (unit_size a) ltac:(lia) st out Hst S1 S2 S3 Er) as [F3 F4].
  pose proof (here_parity_ok g (dsize a) Hp a Ha) as Hpo. split_and!; [by rewrite map_map, map_id|..].
  - rewrite En. apply Forall_map. eapply Forall_impl; [exact Hl|]. intros t Ht. cbn [snd]. unfold strip_of. destruct (Layout.role_of g key t) as [d| |] eqn:Er'.
    + destruct (data_of_role g key t d Hpo Ht Er') as [Hdd _]. destruct (lookup_lt_is_Some_2 (ss_data out) (Z.to_nat d)) as [o Ho].
      { rewrite F2, (sh_count _ _ _ Hsh). lia. }
      rewrite Ho. cbn [default]. destruct (Forall_lookup_1 _ _ _ _ F1 Ho) as (bs & -> & Hb). exact Hb.
    + by destruct F3 as (bs & -> & Hb).
    + destruct F4 as (bs & -> & Hb); [|exact Hb]. intros E. apply (sh_raid6 _ _ _ Hsh) in E. by rewrite (raid6_of_role _ _ _ Er') in E.
  - intros Ht. rewrite En. apply Forall_map. eapply Forall_impl; [exact Hl|]. intros t Htr. cbn [fst snd].
    pose proof (Hrem ltac:(by apply Hh)) as Hr. rewrite (recover_here cpu simd g (dsize a) key Hp v 0 (unit_size a) st out a Ha (h_bytes _ _ _ Hh) ltac:(lia) Hr Er).
    transitivity (tab (unit_size a) (fun j => strip_at g key v t (0 + j))).
    + unfold strip_of, strip_at. cbn [ss_data ss_p ss_q]. destruct (Layout.role_of g key t) as [d| |] eqn:Er'.
      * destruct (data_of_role g key t d Hpo Htr Er') as [Hdd _]. change (map Some ?x !! ?y) with ((Some <$> x) !! y). by rewrite list_lookup_fmap, strips_lookup.
      * cbn [unwrap default]. apply P_strips.
      * destruct (ss_q st) as [q|] eqn:Eq; [cbn [unwrap default]; apply Q_strips|]. apply (sh_raid6 _ _ _ Hsh) in Eq. by rewrite (raid6_of_role _ _ _ Er') in Eq.
    + apply tab_ext. intros j Hj. rewrite Elu. rewrite Z.add_0_l. rewrite <- Eu. symmetry. apply (expected_strip g key); [done|by rewrite Eu].
Qed.

Lemma give_mirror a v torn key (live targets : list Z) : Holds a v torn -> lvl a = Layout.Raid1 -> 0 <= key -> key * lock_unit a < dsize a ->
  let '(r, b) := mirror_read_at (filter (fun i => i ∉ targets) (all_slots a)) (key * lock_unit a) (unit_len a key) a in
  evolves nowhere a b /\ forall bs, r = Ok bs -> gives a v torn key live (map (fun t => (t, bs)) live).
Proof.
  intros Hh El Hk Hd. pose proof (h_wf _ _ _ Hh) as Hw. destruct (unit_len_range a key Hw Hk Hd) as (U1 & U2 & U3 & _). pose proof (lock_unit_pos a Hw) as Hlu. unfold mirror_read_at.
  set (set := filter _ _). assert (Forall (fun i => 0 <= i < n_members a) set) as Hset by (apply Forall_forall; by intros i [_ Hi%elem_of_zrange]%list_elem_of_filter).
  pose proof (mirror_read_spec v set (key * lock_unit a) (unit_len a key) (length set) [] a Hw ltac:(nia) ltac:(lia) ltac:(lia) ltac:(eapply Forall_impl; [exact Hset|]; cbn beta; lia)) as Hm.
  destruct (mirror_read_loop _ _ _ _ _ a) as [r b]. destruct Hm as (Eb & Hv & Hbuf). split; [done|]. intros bs Er. split_and!.
  - by rewrite map_map, map_id.
  - apply Forall_map, Forall_forall. intros t _. by apply Hbuf.
  - intros Ht. apply Forall_map, Forall_forall. intros t _. cbn [fst snd]. rewrite (Hv ltac:(intros i x Hi Hx Hl; rewrite <- (raid1_expected a v i x El); rewrite Forall_forall in Hset;
      apply (h_units _ _ _ Hh key Ht); [by apply Hset|nia|apply div_unique_pos; lia|done]) bs Er). apply tab_ext. intros j _. by rewrite raid1_expected.
Qed.
Lemma pair_partner t : 0 <= t -> Layout.pair_of (Z.lxor t 1) = Layout.pair_of t /\ 0 <= Z.lxor t 1.
Proof.
  intros Ht. unfold Layout.pair_of. pose proof (Z.div_pos t 2 Ht ltac:(lia)) as Hq.
  destruct (partner t Ht) as [[H1 ->]|[H1 ->]]; (split; [|lia]).
  - replace (2 * (t / 2) + 1) with (1 + t / 2 * 2) by lia. by rewrite Z.div_add.
  - by rewrite Z.mul_comm, Z.div_mul.
Qed.
Lemma give_pairs v torn key live : forall a, Holds a v torn -> lvl a = Layout.Raid10 -> 0 <= key -> key * lock_unit a < dsize a -> Forall (fun t => 0 <= t < n_members a) live ->
  let '(r, b) := copy_pairs (key * lock_unit a) (unit_len a key) live a in
  evolves nowhere a b /\ forall ws, r = Ok ws -> gives a v torn key live ws.
Proof.
  induction live as [|t live IH]; intros a Hh El Hk Hd HF; [by split; [apply evolves_refl|intros ws [= <-]]|]. apply Forall_cons in HF as [Ht HF].
  pose proof (h_wf _ _ _ Hh) as Hw. destruct (unit_len_range a key Hw Hk Hd) as (U1 & U2 & U3 & _). pose proof (lock_unit_pos a Hw) as Hlu. destruct (raid10_geo a Hw El) as (D1 & D2 & Elu & _).
  destruct (pair_partner t ltac:(lia)) as [P1 P2]. cbn [copy_pairs]. unfold bind at 1, seq at 1, mirror_read_at.
  pose proof (mirror_read_spec (expected (geometry a) v t) [Z.lxor t 1] (key * lock_unit a) (unit_len a key) (length [Z.lxor t 1]) [] a Hw ltac:(nia) ltac:(lia) ltac:(lia) ltac:(by repeat constructor)) as Hm.
  destruct (mirror_read_loop _ _ _ _ _ a) as [[bs|e] b]; destruct Hm as (Eb & Hv & Hbuf); [|by split].
  pose proof (ev_geometry _ _ _ Eb) as Eg. pose proof (ev_lock_unit _ _ _ Eb) as Elb. pose proof (ev_dsize _ _ _ Eb) as Ed. pose proof (ev_n _ _ _ Eb) as En.
  assert (unit_len b key = unit_len a key) as Eul by (unfold unit_len; by rewrite Elb, Ed).
  specialize (IH b ltac:(by eapply holds_nowhere)). rewrite Elb, Ed, En, Eul in IH. rewrite (ss_lvl _ _ (ev_same _ _ _ Eb)) in IH. specialize (IH El Hk Hd HF).
  unfold bind, seq, ret, fail, pure. destruct (copy_pairs _ _ live b) as [[ws|e] c]; destruct IH as [E2 Hws]; (split; [by eapply evolves_trans|]); [|done].
  intros ws' [= <-]. destruct (Hws ws eq_refl) as (G1 & G2 & G3). rewrite Eul in G2, G3. rewrite Eg, Elb in G3. split_and!.
  - cbn [map fst]. by rewrite G1.
  - constructor; [by apply Hbuf|done].
  - intros Htr. constructor; [|by apply G3]. cbn [fst snd]. apply Hv; [|done]. intros i x ->%list_elem_of_singleton Hx Hl.
    rewrite !(raid10_expected a v _ x El), <- P1, <- (raid10_expected a v (Z.lxor t 1) x El). apply (h_units _ _ _ Hh key Htr); [|nia|apply div_unique_pos; lia|done].
    unfold Layout.pair_of in P1. pose proof (Z.div_mod (Z.lxor t 1) 2 ltac:(lia)). pose proof (Z.mod_pos_bound (Z.lxor t 1) 2 ltac:(lia)).
    pose proof (Z.div_mod t 2 ltac:(lia)). pose proof (Z.mod_pos_bound t 2 ltac:(lia)). lia.
Qed.

(** A unit rebuilt, whatever the level. *)
Lemma rebuild_unit_spec a v torn targets key : Holds a v torn -> NoDup targets -> Forall (fun t => 0 <= t < n_members a) targets -> 0 <= key -> key * lock_unit a < dsize a ->
  let '(r, a') := rebuild_unit cpu simd targets key a in
  evolves (unheld a key) a a' /\ (r = Ok () -> ~ torn key -> forall t, t ∈ targets -> caught_up a' v key t).
Proof.
  intros Hh Hnd Hrg Hk Hd. unfold rebuild_unit. unfold seq at 1, gets at 1. unfold seq at 1, gets at 1. unfold seq at 1, gets at 1.
  set (live := filter _ targets). assert (Forall (fun t => 0 <= t < n_members a) live) as Hl by (apply Forall_forall; intros t [_ Ht]%list_elem_of_filter; rewrite Forall_forall in Hrg; by apply Hrg).
  pose proof (fun b ws Eb Hws HF => unit_rebuilt a b v torn targets live key ws Hh Eb Hnd Hk Hd eq_refl Hws Hrg HF) as HU.
  destruct live as [|t0 ts] eqn:El.
  { specialize (HU a [] (evolves_refl _ _) eq_refl (Forall_nil_2 _)). cbn in HU. destruct HU as [H1 H2]. split; [done|]. intros _. by apply H2. }
  rewrite <- El in *. clear t0 ts El. unfold seq at 1, gets at 1.
  enough (forall m : M (list (Z * bytes)), (let '(r, b) := m a in evolves nowhere a b /\ forall ws, r = Ok ws -> gives a v torn key live ws) ->
    let '(r, a') := (try ws := m in write_targets (key * lock_unit a) ws ;; ret ()) a in
    evolves (unheld a key) a a' /\ (r = Ok () -> ~ torn key -> forall t, t ∈ targets -> caught_up a' v key t)) as H.
  { apply H. change (Layout.level (geometry a)) with (lvl a). destruct (level_cases a) as [E|[E|E]].
    - rewrite E. unfold seq at 1, gets at 1. unfold bind, seq, ret, fail, pure. pose proof (give_mirror a v torn key live targets Hh E Hk Hd) as Hm.
      destruct (mirror_read_at _ _ _ a) as [[bs|e] b]; destruct Hm as [M1 M2]; (split; [done|]); [|done]. intros ws [= <-]. by apply M2.
    - rewrite E. by apply give_pairs.
    - assert (forall (x y z : M (list (Z * bytes))), (match lvl a with Layout.Raid1 => x | Layout.Raid10 => y | _ => z end) = z) as Hx by (intros; by destruct E as [-> | ->]).
      rewrite Hx. unfold seq, ret, fail, pure. pose proof (give_parity a v torn key live Hh E Hk Hd Hl) as Hm.
      destruct (read_column _ key 0 _ a) as [st b]. destruct Hm as [M1 M2]. destruct (recover cpu simd _ st) as [[out|]|e]; [|by split..]. split; [done|]. intros ws [= <-]. by apply M2. }
  intros m Hm. unfold bind, seq, ret, fail, pure. destruct (m a) as [[ws|e] b]; destruct Hm as [Eb Hg]; [|split; [by apply evolves_any|done]].
  destruct (Hg ws eq_refl) as (G1 & G2 & G3). specialize (HU b ws Eb G1 G2). destruct (write_targets _ ws b) as [x a']. destruct HU as [U1 U2]. split; [done|].
  intros _ Ht. by apply U2; [apply G3|].
Qed.

(** The units of a batch, all of them tried. *)
Lemma rebuild_units v torn targets keys : forall a, Holds a v torn -> NoDup targets -> Forall (fun t => 0 <= t < n_members a) targets -> NoDup keys ->
  Forall (fun k => 0 <= k /\ k * lock_unit a < dsize a) keys ->
  let '(rs, a') := each (rebuild_unit cpu simd targets) keys a in
  Holds a' v torn /\ evolves (fun _ x => x / lock_unit a ∈ keys) a a' /\
  (Forall (fun r => r = Ok ()) rs -> forall k t, k ∈ keys -> ~ torn k -> t ∈ targets -> caught_up a' v k t).
Proof.
  induction keys as [|k keys IH]; intros a Hh Hnd Hrg Hk HF; [split_and!; [done|apply evolves_refl|by intros _ k t ?%elem_of_nil]|].
  apply Forall_cons in HF as [[H1 H2] HF]. apply NoDup_cons in Hk as [Hki Hk]. cbn [each]. unfold seq, pure.
  pose proof (rebuild_unit_spec a v torn targets k Hh Hnd Hrg H1 H2) as Hu. destruct (rebuild_unit cpu simd targets k a) as [r b]. destruct Hu as [Eb Ub].
  pose proof (ev_lock_unit _ _ _ Eb) as Elb. specialize (IH b ltac:(by eapply holds_unheld) Hnd ltac:(by rewrite (ev_n _ _ _ Eb)) Hk).
  rewrite Elb, (ev_dsize _ _ _ Eb) in IH. specialize (IH HF). unfold seq, pure in IH. destruct (each _ keys b) as [rs a']. destruct IH as (I1 & I2 & I3). split_and!; [done| |].
  - eapply evolves_trans; [eapply evolves_mono; [|exact Eb]|eapply evolves_mono; [|exact I2]]; cbn beta.
    + intros i x [-> _]. left.
    + intros i x Hx. by right.
  - intros [Hr Hrs]%Forall_cons k' t Hin Ht Hti. apply elem_of_cons in Hin as [->|Hin]; [|by apply I3].
    eapply caught_evolves; [exact I2| |by apply Ub]. intros x _ Hx Hin. cbn beta in Hin. rewrite Elb in Hx. by rewrite Hx in Hin.
Qed.
End Rebuild.

(** ** How far the targets are *)

(** Members changed in what they say of themselves only. *)
Lemma holds_marks a v torn l : Holds a v torn -> length l = length (members a) ->
  (forall i m, member a i = Some m -> exists m', l !! Z.to_nat i = Some m' /\ device m' = device m /\ uuid m' = uuid m /\ (ok_member m = true -> ok_member m' = true) /\
     (state m' = Rebuilding -> 0 <= rebuilt_to m' <= dsize a /\ (rebuilt_to m' mod lock_unit a = 0 \/ rebuilt_to m' = dsize a)) /\
     forall x, 0 <= x < dsize a -> ~ torn (x / lock_unit a) -> x < limit_of (dsize a) m' -> x < limit_of (dsize a) m \/ val a i x = expected (geometry a) v i x) ->
  Holds (set_members l a) v torn.
Proof.
  intros Hh Hl Hm. pose proof (h_wf _ _ _ Hh) as Hw. set (a' := set_members l a). assert (n_members a' = n_members a) as En by (unfold n_members, zlen; cbn; by rewrite Hl).
  assert (forall i m', member a' i = Some m' -> exists m, member a i = Some m /\ l !! Z.to_nat i = Some m') as Hback.
  { intros i m' Hi. pose proof (member_range _ _ _ Hi) as Hr. rewrite En in Hr. destruct (member_of_range a i Hr) as (m & E). exists m. split; [done|]. by apply member_some in Hi as [_ Hi]. }
  assert (geometry a' = geometry a) as Eg by (unfold geometry; by rewrite En). split; [split|apply Hh|].
  - rewrite En. apply Hw.
  - apply Hw.
  - apply Hw.
  - rewrite Eg. apply Hw.
  - split; [apply Hw|]. intros i m' Hi. destruct (Hback i m' Hi) as (m & E & Hl'). destruct (Hm i m E) as (m1 & H1 & _ & Hu & _).
    assert (m' = m1) as -> by congruence. rewrite Hu. by apply (proj2 (w_uuids _ Hw) i).
  - apply Hw.
  - intros i m' d Hi Hd. destruct (Hback i m' Hi) as (m & E & Hl'). destruct (Hm i m E) as (m1 & H1 & Hdev & _). assert (m' = m1) as -> by congruence.
    apply (w_drives _ Hw i m d E). congruence.
  - intros i m' Hi Hs. destruct (Hback i m' Hi) as (m & E & Hl'). destruct (Hm i m E) as (m1 & H1 & _ & _ & _ & Hr & _). assert (m' = m1) as -> by congruence. by apply Hr.
  - apply (members_intact a a'); [done|done|done| |apply Hw]. intros i Hi. unfold ok_at in *. destruct (member a i) as [m|] eqn:E; [|done].
    destruct (Hm i m E) as (m1 & H1 & _ & _ & Hok & _). assert (member a' i = Some m1) as -> by (apply member_some; split; [by apply member_range in E as []|done]). by apply Hok.
  - intros k Hk i x Hi Hx Hxk Hlt. rewrite Eg. rewrite En in Hi. change (lock_unit a') with (lock_unit a) in Hxk. destruct (member_of_range a i Hi) as (m & E). destruct (Hm i m E) as (m1 & H1 & Hdev & _ & _ & _ & Hv).
    assert (member a' i = Some m1) as E1 by (apply member_some; split; [lia|done]). unfold limit in Hlt. rewrite E1 in Hlt. cbn [from_option] in Hlt.
    assert (val a' i x = val a i x) as -> by (unfold val; rewrite E1, E; cbn; unfold val_of; by rewrite Hdev).
    destruct (Hv x Hx) as [Hlt'|]; [by rewrite Hxk|exact Hlt| |done]. apply (h_units _ _ _ Hh k Hk); [done..|]. unfold limit. by rewrite E.
Qed.
Lemma foldl_alter (f : Member -> Member) ts : forall (l : list Member) i, NoDup ts -> Forall (fun t => 0 <= t) ts ->
  foldl (fun l t => alter f (Z.to_nat t) l) l ts !! i = if decide (Z.of_nat i ∈ ts) then f <$> l !! i else l !! i.
Proof.
  induction ts as [|t ts IH]; intros l i Hnd HF; [done|]. apply NoDup_cons in Hnd as [Ht Hnd]. apply Forall_cons in HF as [H0 HF]. cbn [foldl]. rewrite IH by done.
  rewrite list_lookup_alter. destruct (decide (Z.to_nat t = i)) as [<-|Hne].
  - rewrite Z2Nat.id by done. rewrite (decide_False (P := t ∈ ts)), decide_True by (done || left). done.
  - destruct (decide (Z.of_nat i ∈ ts)) as [Hi|Hi]; [by rewrite decide_True by by right|]. rewrite decide_False; [done|]. intros [E|Hx]%elem_of_cons; [lia|done].
Qed.
Lemma length_foldl_alter (f : Member -> Member) ts : forall l, length (foldl (fun l t => alter f (Z.to_nat t) l) l ts) = length l.
Proof. induction ts as [|t ts IH]; intros l; [done|]. cbn [foldl]. by rewrite IH, length_alter. Qed.

(** A rebuild under way: its targets have all the units before [key]. *)
Record Task (a : RaidArray) (targets : list Z) (key : Z) : Prop := {
  t_apart : NoDup targets;
  t_range : Forall (fun t => 0 <= t < n_members a) targets;
  t_key : 0 <= key;
  t_done t m : t ∈ targets -> member a t = Some m -> state m = Rebuilding -> present m = true -> Z.min (key * lock_unit a) (dsize a) <= rebuilt_to m }.
Lemma task_evolves W a a' targets key : evolves W a a' -> Task a targets key -> Task a' targets key.
Proof.
  intros Hev [H1 H2 H3 H4]. split; [done|by rewrite (ev_n _ _ _ Hev)|done|]. intros t m' Ht E Es Ep. rewrite (ev_lock_unit _ _ _ Hev), (ev_dsize _ _ _ Hev).
  destruct (rebuilding_before _ _ _ _ _ Hev E Es Ep) as (m & Em & Sm & Pm & ->). by apply (H4 t).
Qed.

Section Task_.
Context (cpu : arch) (simd : SimdLevel) (crc32c : bytes -> Z).

Lemma in_which f a t : t ∈ which f a -> 0 <= t < n_members a /\ exists m, member a t = Some m /\ f m = true.
Proof.
  intros [Hf Ht%elem_of_zrange]%list_elem_of_filter. split; [done|]. destruct (member a t) as [m|]; [by exists m|done].
Qed.
Lemma fold_min l x0 : (forall x, x ∈ l -> foldr Z.min x0 l <= x) /\ foldr Z.min x0 l <= x0 /\ (0 <= x0 -> Forall (fun x => 0 <= x) l -> 0 <= foldr Z.min x0 l).
Proof.
  induction l as [|y l (I1 & I2 & I3)]; [split_and!; [by intros x ?%elem_of_nil|done|done]|]. cbn [foldr]. split_and!; [|lia|].
  - intros x [->|Hx]%elem_of_cons; [lia|]. specialize (I1 x Hx). lia.
  - intros H0 [Hy Hl]%Forall_cons. specialize (I3 H0 Hl). lia.
Qed.
Lemma start_task a targets key : wf a -> rebuild_start a = Some (targets, key) -> Task a targets key /\ targets <> [].
Proof.
  intros Hw. unfold rebuild_start. pose proof (in_which (fun m => bool_decide (state m = Rebuilding) && present m) a) as Hin.
  assert (NoDup (which (fun m => bool_decide (state m = Rebuilding) && present m) a)) as Hnd by (apply NoDup_filter, NoDup_zseq).
  destruct (which _ a) as [|t ts]; [done|]. set (at_ := fun i => from_option rebuilt_to 0 (member a i)). intros E. injection E as <- <-. pose proof (lock_unit_pos a Hw) as Hlu.
  assert (forall i, i ∈ t :: ts -> exists m, member a i = Some m /\ state m = Rebuilding /\ at_ i = rebuilt_to m /\ 0 <= rebuilt_to m) as Hat.
  { intros i Hi. destruct (Hin i Hi) as (_ & m & E & Hf). apply andb_true_iff in Hf as [Hs _]. apply bool_decide_eq_true in Hs. exists m. split_and!; [done|done|unfold at_; by rewrite E|].
    by destruct (w_mark _ Hw i m E Hs) as [[] _]. }
  destruct (fold_min (map at_ ts) (at_ t)) as (F1 & F2 & F3). split; [split|done].
  - done.
  - apply Forall_forall. intros i Hi. by apply Hin.
  - apply Z.div_pos; [|done]. apply F3; [destruct (Hat t ltac:(left)) as (m & _ & _ & -> & H); done|].
    apply Forall_map, Forall_forall. intros i Hi. destruct (Hat i ltac:(by right)) as (m & _ & _ & -> & H). done.
  - intros i m Hi E _ _. destruct (Hat i Hi) as (m' & E' & _ & Ea & _). assert (m' = m) as -> by congruence. rewrite <- Ea.
    change (from_option rebuilt_to 0 (member a t)) with (at_ t). set (low := foldr Z.min (at_ t) (map at_ ts)) in *. pose proof (Z.mul_div_le low (lock_unit a) Hlu). enough (low <= at_ i) by lia.
    apply elem_of_cons in Hi as [->|Hi]; [done|]. apply F1, list_elem_of_fmap. by exists i.
Qed.

Lemma first_err_err rs e : first_err rs = Err e -> ~ Forall (fun r => r = Ok ()) rs.
Proof. induction rs as [|[[]|e'] rs IH]; intros H HF; [done|apply Forall_cons in HF as [_ HF]; by apply IH|by apply Forall_cons in HF as []]. Qed.
Lemma advance_state e m : state (advance e m) = state m /\ device (advance e m) = device m /\ uuid (advance e m) = uuid m /\ ok_member (advance e m) = ok_member m /\ present (advance e m) = present m.
Proof. unfold advance. by destruct (_ && _). Qed.

(** A batch: its units are rebuilt, and then said to be. *)
Lemma batch_spec a v torn targets key end_key : Holds a v torn -> Task a targets key -> key <= end_key -> (end_key - 1) * lock_unit a < dsize a ->
  let '(r, a') := rebuild_batch cpu simd crc32c targets key end_key a in
  Holds a' v torn /\ same_set a a' /\ Task a' targets key /\ (r = Ok () -> Task a' targets end_key).
Proof.
  intros Hh Ht Hke He. pose proof Ht as [T1 T2 T3 T4]. unfold rebuild_batch. unfold seq at 1. pose proof (lock_unit_pos a (h_wf _ _ _ Hh)) as Hlu.
  pose proof (rebuild_units cpu simd v torn targets (zrange key end_key) a Hh T1 T2 ltac:(apply NoDup_zseq)) as HU.
  specialize (HU ltac:(apply Forall_forall; intros k Hk%elem_of_zrange; assert (k * lock_unit a <= (end_key - 1) * lock_unit a) by (apply Z.mul_le_mono_nonneg_r; lia); split; lia)). destruct (each _ _ a) as [rs b]. destruct HU as (Hhb & Eb & Hc).
  assert (Task b targets key) as Tb by (by eapply task_evolves). destruct (first_err rs) as [[]|e] eqn:Ef.
  2:{ unfold seq, fail, pure. pose proof (keeps_persist crc32c nowhere b (h_wf _ _ _ Hhb)) as Hp. destruct (persist_if_dirty crc32c b) as [x c]. cbn in Hp.
      split_and!; [by eapply holds_nowhere|eapply same_set_trans; [apply Eb|apply Hp]|by eapply task_evolves|done]. }
  specialize (Hc (first_err_ok _ Ef)). unfold seq, modify, ret, pure. set (end_ := Z.min (end_key * lock_unit b) (dsize b)).
  pose proof (ev_lock_unit _ _ _ Eb) as Elb. pose proof (ev_dsize _ _ _ Eb) as Edb. set (c := set_members _ b).
  assert (forall i, members c !! i = if decide (Z.of_nat i ∈ targets) then advance end_ <$> members b !! i else members b !! i) as Hmc.
  { intros i. apply foldl_alter; [done|]. eapply Forall_impl; [exact T2|]. cbn. lia. }
  assert (forall i m, member b i = Some m -> member c i = Some (if decide (i ∈ targets) then advance end_ m else m)) as Hmem.
  { intros i m [Hi E]%member_some. apply member_some. split; [done|]. rewrite Hmc, Z2Nat.id by done. rewrite E. by case_decide. }
  assert (Holds c v torn) as Hhc.
  { apply holds_marks; [done|apply length_foldl_alter|]. intros i m E. eexists. split; [by apply (member_some c i), Hmem|]. case_decide as Hi.
    - destruct (advance_state end_ m) as (As & Ad & Au & Ao & Ap). split_and!; [done|done|by rewrite Ao| |].
      + rewrite As. intros Hs. pose proof (w_mark _ (h_wf _ _ _ Hhb) i m E Hs) as Hmk. unfold advance. rewrite Hs, bool_decide_true by done. cbn [andb].
        destruct (Z.ltb_spec (rebuilt_to m) end_); [|done]. cbn [rebuilt_to]. unfold end_ in *.
        destruct (Z.min_spec (end_key * lock_unit b) (dsize b)) as [[M1 ->]|[M1 ->]]; [split; [nia|left; by apply Z_mod_mult]|split; [nia|by right]].
      + intros x Hx Htx Hl. unfold limit_of in *. rewrite Ap, As in Hl. unfold advance in Hl. destruct (present m) eqn:Pm; [|lia].
        destruct (bool_decide (state m = Rebuilding)) eqn:Hs; [|left; by rewrite andb_false_l in Hl]. apply bool_decide_eq_true in Hs. rewrite Hs in *. cbn [andb] in Hl.
        destruct (Z.ltb_spec (rebuilt_to m) end_) as [Hlt|]; [|by left]. cbn [rebuilt_to] in Hl. destruct (Z.lt_ge_cases x (rebuilt_to m)); [by left|right].
        pose proof (t_done _ _ _ Tb i m Hi E Hs Pm) as Hd. assert (x / lock_unit b ∈ zrange key end_key) as Hz.
        { apply elem_of_zrange. rewrite Elb in *. split; [apply Z.div_le_lower_bound; lia|apply Z.div_lt_upper_bound; unfold end_ in *; lia]. }
        exact (Hc _ i Hz Htx Hi m x E Hs Pm Hx eq_refl).
    - split_and!; [done|done|done| |by left]. intros Hs. by apply (w_mark _ (h_wf _ _ _ Hhb) i m E). }
  assert (Task c targets end_key) as Tc.
  { split; [done|change (n_members c) with (zlen (foldl (fun l t => alter (advance end_) (Z.to_nat t) l) (members b) targets)); unfold zlen; rewrite length_foldl_alter; apply Tb|lia|].
    intros t m' Hti E Es Ep. destruct (member_of_range b t) as (m & Em); [pose proof (t_range _ _ _ Tb) as Hr; rewrite Forall_forall in Hr; by apply Hr|].
    pose proof (Hmem t m Em) as Em'. rewrite decide_True in Em' by done. assert (m' = advance end_ m) as -> by congruence. destruct (advance_state end_ m) as (As & _ & _ & _ & Ap).
    rewrite As in Es. change (lock_unit c) with (lock_unit b). change (dsize c) with (dsize b). unfold advance. rewrite Es, bool_decide_true by done. cbn [andb].
    destruct (Z.ltb_spec (rebuilt_to m) end_); cbn [rebuilt_to]; [done|]. done. }
  pose proof (keeps_persist crc32c nowhere c (h_wf _ _ _ Hhc)) as Hp. destruct (persist_if_dirty crc32c c) as [x d]. cbn in Hp.
  assert (Task d targets end_key) as Td by (by eapply task_evolves). assert (same_set b c) as Sbc by (split; try done; apply length_foldl_alter).
  split_and!; [by eapply holds_nowhere|eapply same_set_trans; [apply Eb|]; eapply same_set_trans; [exact Sbc|apply Hp]| |done]. destruct Td as [D1 D2 D3 D4]. split; [done|done|done|].
  intros t m Hti E Es Ep. specialize (D4 t m Hti E Es Ep). pose proof (lock_unit_pos d ltac:(eapply wf_evolves; [exact Hp|apply Hhc])). nia.
Qed.

Lemma keeps_flush_targets W ts : keeps W (flush_targets ts).
Proof.
  induction ts as [|t ts IH]; cbn [flush_targets]; [apply keeps_pure|]. apply keeps_seq; [apply keeps_gets|intros [|]]; (apply keeps_seq; [|intros _; exact IH]).
  - apply keeps_seq; [apply keeps_fl|intros [[]|e]; [apply keeps_pure|]]. apply keeps_seq; [apply keeps_fail|intros _; apply keeps_pure].
  - apply keeps_pure.
Qed.
Lemma activate_state m : device (activate m) = device m /\ uuid (activate m) = uuid m /\ present (activate m) = present m /\ state (activate m) <> Rebuilding /\
  (ok_member m = true -> ok_member (activate m) = true).
Proof.
  unfold activate, ok_member. case_bool_decide as Hs; [|by split_and!]. split_and!; try done. rewrite Hs. cbn. by rewrite andb_false_r.
Qed.
(** The end of a rebuild: its targets are active, or have failed. *)
Lemma finish_spec a v torn targets key : Holds a v torn -> Task a targets key -> dsize a <= key * lock_unit a ->
  let '(r, a') := rebuild_finish crc32c targets a in
  Holds a' v torn /\ same_set a a' /\ forall t m, t ∈ targets -> member a' t = Some m -> state m <> Rebuilding.
Proof.
  intros Hh Ht Hd. unfold rebuild_finish. unfold seq at 1. pose proof (keeps_flush_targets nowhere targets a (h_wf _ _ _ Hh)) as Ef.
  destruct (flush_targets targets a) as [x b]. cbn [snd] in Ef. assert (Holds b v torn) as Hhb by (by eapply holds_nowhere). assert (Task b targets key) as [T1 T2 T3 T4] by (by eapply task_evolves).
  rewrite (ev_lock_unit _ _ _ Ef), (ev_dsize _ _ _ Ef), Z.min_r in T4 by done. unfold seq, modify. set (c0 := set_members _ b). set (c := set_events _ _ c0).
  assert (forall i m, member b i = Some m -> member c i = Some (if decide (i ∈ targets) then activate m else m)) as Hmem.
  { intros i m [Hi E]%member_some. apply member_some. split; [done|]. change (members c) with (foldl (fun l t => alter activate (Z.to_nat t) l) (members b) targets).
    rewrite foldl_alter, Z2Nat.id, E; [by case_decide|done|done|]. eapply Forall_impl; [exact T2|]. cbn. lia. }
  assert (Holds c v torn) as Hhc.
  { apply (holds_nowhere c0 c); [by apply evolves_same_members|]. apply holds_marks; [done|apply length_foldl_alter|]. intros i m E. eexists. split; [by apply (member_some c i), Hmem|].
    case_decide as Hi; [|by split_and!; [..|intros Hs; apply (w_mark _ (h_wf _ _ _ Hhb) i m E Hs)|left]]. destruct (activate_state m) as (A1 & A2 & A3 & A4 & A5).
    split_and!; [done..|]. intros y Hy Hty Hl. left. unfold limit_of in *. rewrite A3 in Hl. unfold activate in Hl. destruct (present m) eqn:Pm; [|lia].
    case_bool_decide as Hs; [|done]. rewrite Hs. cbn [state] in Hl. pose proof (T4 i m Hi E Hs Pm). pose proof (ev_dsize _ _ _ Ef). lia. }
  pose proof (keeps_write_superblocks crc32c nowhere c (h_wf _ _ _ Hhc)) as Hp. destruct (write_superblocks crc32c c) as [r d]. cbn [snd] in Hp. assert (same_set b c) as Sbc by (split; try done; apply length_foldl_alter).
  split; [by eapply holds_nowhere|]. split; [eapply same_set_trans; [apply Ef|]; eapply same_set_trans; [exact Sbc|apply Hp]|].
  intros t m' Hti E Es. pose proof (same_set_member_rev _ _ _ _ (ev_same _ _ _ Hp) E) as (m & Em).
  destruct (member_of_range b t) as (m0 & E0); [rewrite Forall_forall in T2; by apply T2|]. pose proof (Hmem t m0 E0) as E1. rewrite decide_True in E1 by done.
  destruct (ev_member _ _ _ Hp t _ m' E1 E) as [_ _ [[St _]|St] _ _ _]; [|congruence]. destruct (activate_state m0) as (_ & _ & _ & A4 & _). congruence.
Qed.
End Task_.
