(* ===== verification/RaidHistory.v ===== *)
(** Histories of a RAID set: any sequence of reads, writes, flushes, failures, changes of
    its members and turns of the rebuild task, against a disk that keeps what is written. *)

From S2P Require Import Prelude Gf256 Parity ParityRecover RaidLayout IntentBitmap RaidSuper RaidArray RaidFrame RaidModel RaidStripe RaidWrite RaidParity RaidMirror RaidRebuild.
#[local] Open Scope raid_scope.

(** ** The set and its rebuild task *)

(** [REBUILD_BATCH]. *)
Definition REBUILD_BATCH : Z := 4 * 1024 * 1024.
(** The array and, while [rebuild_running], the task's slots and the unit it is at. *)
Record World := mkWorld { arr : RaidArray; task : option (list Z * Z) }.

Inductive Op :=
| Write (off : Z) (buf : bytes)
| Read (off n : Z)
| Flush (before : option Z)
| Lose (idx : Z) (gone : bool)
| Replace (slot_ : Z) (d : Device) (u : bytes)
| Add (d : Device) (u : bytes)
| Remove (u : bytes)
| Spawn
| Turn (batch_bytes : Z)
| Checkpoint
| Cancel
| Tick (now : Z).
(** What its user sees of an operation. *)
Inductive Event :=
| Wrote (off : Z) (buf : bytes) (r : result RaidError ())
| Got (off n : Z) (r : result RaidError bytes)
| Quiet.

Section History.
Context (cpu : arch) (simd : SimdLevel) (crc32c : bytes -> Z).

(** [spawn_rebuild]: one task at a time. *)
Definition spawn_rebuild (w : World) : World :=
  if (rebuilding_count (arr w) =? 0) || (if task w is Some _ then true else false) then w
  else mkWorld (arr w) (rebuild_start (arr w)).
(** [persist_rebuild_position]. *)
Definition persist_rebuild_position : S () :=
  modify (fun a => set_events (evts a) true a) ;; persist_if_dirty crc32c.
(** The end of the batch at [key]. *)
Definition batch_end (a : RaidArray) (batch_bytes key : Z) : Z :=
  let batch := Z.max ((if batch_bytes =? 0 then REBUILD_BATCH else batch_bytes) / lock_unit a) 1 in
  Z.min (key + batch) (div_ceil (dsize a) (lock_unit a)).
(** One turn of [run_rebuild]'s loop, or what follows the loop. *)
Definition rebuild_turn (batch_bytes : Z) (w : World) : World :=
  match task w with
  | None => w
  | Some (targets, key) =>
      if key <? div_ceil (dsize (arr w)) (lock_unit (arr w)) then
        let end_key := batch_end (arr w) batch_bytes key in
        let '(r, a) := rebuild_batch cpu simd crc32c targets key end_key (arr w) in
        match r with Ok _ => mkWorld a (Some (targets, end_key)) | Err _ => mkWorld a None end
      else mkWorld (snd (rebuild_finish crc32c targets (arr w))) None
  end.
(** A rebuild on its own. *)
Fixpoint rebuild_loop (fuel : nat) (batch_bytes : Z) (w : World) : World :=
  match fuel, task w with
  | Datatypes.S fuel, Some _ => rebuild_loop fuel batch_bytes (rebuild_turn batch_bytes w)
  | _, _ => w
  end.

Definition quietly {A} (m : S A) (w : World) : Event * World := (Quiet, mkWorld (snd (m (arr w))) (task w)).
Definition set_clock (t : Z) (a : RaidArray) : RaidArray :=
  mkRaid (lvl a) (unit_size a) (dsize a) (capacity a) (members a) (evts a) (sb_dirty a) (bm a) (released a) (read_counter a) (info a) t.
Definition step (o : Op) (w : World) : Event * World :=
  match o with
  | Write off buf => let '(r, a) := write cpu simd crc32c off buf (arr w) in (Wrote off buf r, mkWorld a (task w))
  | Read off n => let '(r, a) := read cpu simd crc32c off n (arr w) in (Got off n r, mkWorld a (task w))
  | Flush before => quietly (flush crc32c before) w
  | Lose idx gone => quietly (fail_member_as idx gone) w
  | Replace i d u => quietly (replace crc32c i d u) w
  | Add d u => quietly (add_member crc32c d u) w
  | Remove u => quietly (remove_member crc32c u) w
  | Spawn => (Quiet, spawn_rebuild w)
  | Turn b => (Quiet, rebuild_turn b w)
  | Checkpoint => quietly persist_rebuild_position w
  | Cancel => (Quiet, mkWorld (snd (persist_rebuild_position (arr w))) None)
  | Tick t => quietly (modify (set_clock t)) w
  end.
Fixpoint run (ops : list Op) (w : World) : list Event * World :=
  match ops with
  | [] => ([], w)
  | o :: ops => let '(e, w) := step o w in let '(es, w) := run ops w in (e :: es, w)
  end.

(** ** The disk it stands for *)

(** The bytes written, and the units a failed write left in doubt. *)
Record Disk := mkDisk { bytes_at : store; torn : Z -> Prop }.
Definition hits (unit_of : Z -> Z) (off n k : Z) : Prop := exists y, off <= y < off + n /\ unit_of y = k.
(** A write that succeeds is there; one that fails leaves its units in doubt; a read gives
    what is there, unless it reads a unit in doubt. *)
Inductive disk_step (unit_of : Z -> Z) (D : Disk) : Event -> Disk -> Prop :=
| D_wrote off buf : disk_step unit_of D (Wrote off buf (Ok ())) (mkDisk (overlay (bytes_at D) off buf) (torn D))
| D_write_failed off buf e : disk_step unit_of D (Wrote off buf (Err e)) (mkDisk (bytes_at D) (fun k => torn D k \/ hits unit_of off (zlen buf) k))
| D_got off n b : ((forall k, hits unit_of off n k -> ~ torn D k) -> b = tab n (fun j => bytes_at D (off + j))) -> disk_step unit_of D (Got off n (Ok b)) D
| D_read_failed off n e : disk_step unit_of D (Got off n (Err e)) D
| D_quiet : disk_step unit_of D Quiet D.
Inductive disk_run (unit_of : Z -> Z) : Disk -> list Event -> Disk -> Prop :=
| D_nil D : disk_run unit_of D [] D
| D_cons D e D1 es D2 : disk_step unit_of D e D1 -> disk_run unit_of D1 es D2 -> disk_run unit_of D (e :: es) D2.

(** What the array's callers keep to: ranges and buffers of the right types, new drives of
    bytes, and members of a running rebuild left alone. *)
Definition drive_typed (d : Device) (u : bytes) : Prop := zlen u = 16 /\ all_bytes (content d).
Definition op_ok (w : World) (o : Op) : Prop :=
  match o with
  | Write off buf => 0 <= off /\ all_bytes buf
  | Read off n => 0 <= off /\ 0 <= n
  | Replace i d u => drive_typed d u /\ (forall ts key, task w = Some (ts, key) -> i ∉ ts)
  | Add d u => drive_typed d u
  | Remove _ => task w = None
  | _ => True
  end.
Fixpoint ops_ok (ops : list Op) (w : World) : Prop :=
  match ops with [] => True | o :: ops => op_ok w o /\ ops_ok ops (snd (step o w)) end.

(** The set stands for the disk. *)
Record Stands (unit_of : Z -> Z) (w : World) (D : Disk) : Prop := {
  s_holds : Holds (arr w) (bytes_at D) (torn D);
  s_units y : key_at (arr w) y = unit_of y;
  s_task ts key : task w = Some (ts, key) -> Task (arr w) ts key }.

(** ** Each operation *)

Lemma drive_typed_ok a d u : 0 <= dsize a -> drive_typed d u -> drive_ok a d u.
Proof. intros _ [Hu Hd]. split; [done|]. intros _ x _. by apply at_byte_byte. Qed.

Lemma stands_evolves W unit_of w a D D' : Stands unit_of w D -> evolves W (arr w) a -> Holds a (bytes_at D') (torn D') -> Stands unit_of (mkWorld a (task w)) D'.
Proof.
  intros [H1 H2 H3] Hev Hh. split; [done| |].
  - intros y. cbn. by rewrite (ev_key _ _ _ y Hev).
  - intros ts key Ht. cbn in *. eapply task_evolves; [exact Hev|by apply H3].
Qed.
Lemma stands_keeps {A} (m : S A) unit_of w D : keeps nowhere m -> Stands unit_of w D -> Stands unit_of (snd (quietly m w)) D.
Proof.
  intros Hk Hs. pose proof (s_holds _ _ _ Hs) as Hh. eapply stands_evolves; [exact Hs|by apply Hk, Hh|]. by apply keeps_holds.
Qed.
Lemma keeps_modify_same f : (forall a, same_set a (f a) /\ members (f a) = members a) -> keeps nowhere (modify f).
Proof. intros H a _. destruct (H a). by apply evolves_same_members. Qed.
Lemma keeps_persist_position : keeps nowhere persist_rebuild_position.
Proof. apply keeps_seq; [by apply keeps_modify_same|intros _; apply keeps_persist]. Qed.

(** A set whose members of the task are as they were. *)
Lemma task_others a a' ts key : Task a ts key -> lock_unit a' = lock_unit a -> dsize a' = dsize a -> n_members a <= n_members a' ->
  (forall t, t ∈ ts -> 0 <= t < n_members a -> member a' t = member a t) -> Task a' ts key.
Proof.
  intros [T1 T2 T3 T4] El Ed En Hm. rewrite Forall_forall in T2. split; [done| |done|].
  - apply Forall_forall. intros t Ht. specialize (T2 t Ht). cbn in T2. lia.
  - intros t m Ht E. rewrite (Hm t Ht (T2 t Ht)) in E. rewrite El, Ed. by eapply T4.
Qed.
(** Operations on a set changed by hand first. *)
Lemma stands_changed {A} (m : S A) unit_of w D a1 : Stands unit_of w D -> keeps nowhere m -> wf a1 ->
  (forall y, key_at a1 y = key_at (arr w) y) -> (forall ts key, task w = Some (ts, key) -> Task a1 ts key) ->
  Holds (snd (m a1)) (bytes_at D) (torn D) -> Stands unit_of (mkWorld (snd (m a1)) (task w)) D.
Proof.
  intros [H1 H2 H3] Hk Hw Hy Ht Hh. specialize (Hk a1 Hw). split; [done| |].
  - intros y. cbn. rewrite (ev_key _ _ _ y Hk), Hy. apply H2.
  - intros ts key E. cbn in *. eapply task_evolves; [exact Hk|by apply Ht].
Qed.
Lemma replace_stands unit_of w D i d u : Stands unit_of w D -> drive_typed d u -> (forall ts key, task w = Some (ts, key) -> i ∉ ts) ->
  Stands unit_of (snd (quietly (replace crc32c i d u) w)) D.
Proof.
  intros Hs Hd Hi. pose proof (s_holds _ _ _ Hs) as Hh. pose proof (w_unit _ (h_wf _ _ _ Hh)) as [_ Hz]. pose proof (drive_typed_ok (arr w) d u Hz Hd) as Hok.
  pose proof (replace_holds crc32c (arr w) i d u _ _ Hh Hok) as Hr. unfold quietly. cbn [snd]. revert Hr. unfold replace.
  assert (forall T, Stands unit_of (mkWorld (arr w) (task w)) T <-> Stands unit_of w T) as Hsame by (intros T; by destruct w).
  destruct (Z.ltb_spec (zlen (content d)) (DATA_OFFSET + dsize (arr w))) as [|Hc]; [intros _; by apply Hsame|].
  destruct (member (arr w) i) as [m|] eqn:E; [|intros _; by apply Hsame]. destruct (negb _) eqn:Es; [intros _; by apply Hsame|].
  apply negb_false_iff, bool_decide_eq_true in Es. set (a1 := set_events _ _ _). intros Hr. assert (same_set (arr w) (set_member i (mkMember (Some d) Rebuilding u 0 false 0) (arr w))) as S1 by apply same_set_member_put.
  assert (n_members a1 = n_members (arr w)) as En by apply (same_set_n _ _ S1).
  apply stands_changed; [done|apply keeps_then; [apply keeps_zero_bitmaps|intros _; apply keeps_write_superblocks]| | | |exact Hr].
  - by eapply new_member_wf; [apply Hh|exact E|exact Es|exact Hok|done|].
  - intros y. unfold key_at. change (lvl a1) with (lvl (arr w)). replace (geometry a1) with (geometry (arr w)); [done|]. unfold geometry. by rewrite En.
  - intros ts key Et. eapply task_others; [by apply (s_task _ _ _ Hs)|done|done|lia|]. intros t Ht Hr'. pose proof (member_range _ _ _ E). specialize (Hi ts key Et).
    change (member a1 t) with (member (set_member i (mkMember (Some d) Rebuilding u 0 false 0) (arr w)) t). apply member_set_other; [lia|by intros <-].
Qed.
Lemma keys_of_mirror a a' : lvl a = Layout.Raid1 -> lvl a' = Layout.Raid1 -> forall y, key_at a' y = key_at a y.
Proof. intros H H' y. unfold key_at. by rewrite !bool_decide_true. Qed.
Lemma add_stands unit_of w D d u : Stands unit_of w D -> drive_typed d u -> Stands unit_of (snd (quietly (add_member crc32c d u) w)) D.
Proof.
  intros Hs Hd. pose proof (s_holds _ _ _ Hs) as Hh. pose proof (w_unit _ (h_wf _ _ _ Hh)) as [_ Hz]. unfold quietly. cbn [snd].
  destruct (add_member_parts crc32c (arr w) d u _ _ Hh (drive_typed_ok (arr w) d u Hz Hd)) as [->|(El & Hh1 & ->)]; [by destruct w|].
  assert (keeps nowhere (bind (zero_bitmaps (Some (n_members (arr w)))) (fun _ => write_superblocks crc32c))) as Hk by (apply keeps_then; [apply keeps_zero_bitmaps|intros _; apply keeps_write_superblocks]).
  apply stands_changed; [done|done|apply Hh1| | |by apply keeps_holds].
  - by apply keys_of_mirror.
  - intros ts key Et. eapply task_others; [by apply (s_task _ _ _ Hs)|done|done| |].
    + unfold n_members, with_new. cbn. rewrite zlen_app. pose proof (zlen_nonneg [mkMember (Some d) Rebuilding u 0 false 0]). lia.
    + intros t _ Hr. unfold member. destruct (Z.ltb_spec t 0); [done|]. cbn [with_new set_events set_members members]. rewrite lookup_app_l; [done|]. unfold n_members, zlen in Hr. lia.
Qed.
Lemma remove_stands unit_of w D u : Stands unit_of w D -> task w = None -> Stands unit_of (snd (quietly (remove_member crc32c u) w)) D.
Proof.
  intros Hs Ht. pose proof (s_holds _ _ _ Hs) as Hh. unfold quietly. cbn [snd].
  destruct (remove_member_parts crc32c (arr w) u _ _ Hh) as [->|(El & i & Hh1 & ->)]; [by destruct w|].
  apply stands_changed; [done|apply keeps_write_superblocks|apply Hh1| | |].
  - by apply keys_of_mirror.
  - intros ts key. by rewrite Ht.
  - by apply keeps_holds; [apply keeps_write_superblocks|].
Qed.

(** ** The rebuild task *)

Lemma same_set_key a a' : same_set a a' -> forall y, key_at a' y = key_at a y.
Proof. intros H y. unfold key_at, geometry. by rewrite (same_set_n _ _ H), (ss_lvl _ _ H), (ss_unit _ _ H). Qed.
Lemma spawn_stands unit_of w D : Stands unit_of w D -> Stands unit_of (spawn_rebuild w) D.
Proof.
  intros Hs. unfold spawn_rebuild. destruct (_ || _); [done|]. destruct Hs as [H1 H2 H3]. split; [done|done|]. intros ts key E. cbn in *. by apply start_task; [apply H1|].
Qed.
Lemma batch_end_ok a b key : 0 < lock_unit a -> key < div_ceil (dsize a) (lock_unit a) ->
  key < batch_end a b key <= div_ceil (dsize a) (lock_unit a) /\ (batch_end a b key - 1) * lock_unit a < dsize a.
Proof.
  intros Hl Hk. unfold batch_end. set (n := Z.max _ 1). assert (1 <= n) by apply Z.le_max_r. clearbody n. pose proof (div_ceil_mul (dsize a) (lock_unit a) Hl). split; [lia|].
  assert ((Z.min (key + n) (div_ceil (dsize a) (lock_unit a)) - 1) * lock_unit a <= (div_ceil (dsize a) (lock_unit a) - 1) * lock_unit a) by (apply Z.mul_le_mono_nonneg_r; lia). nia.
Qed.
Lemma turn_stands unit_of w D b : Stands unit_of w D -> Stands unit_of (rebuild_turn b w) D.
Proof.
  intros Hs. unfold rebuild_turn. destruct (task w) as [[ts key]|] eqn:Et; [|done]. pose proof (s_holds _ _ _ Hs) as Hh. pose proof (s_task _ _ _ Hs ts key Et) as Ht.
  pose proof (lock_unit_pos _ (h_wf _ _ _ Hh)) as Hl. destruct (Z.ltb_spec key (div_ceil (dsize (arr w)) (lock_unit (arr w)))) as [Hk|Hk].
  - destruct (batch_end_ok (arr w) b key Hl Hk) as [B1 B2]. set (e := batch_end _ _ _) in *. pose proof (batch_spec cpu simd crc32c (arr w) _ _ ts key e Hh Ht ltac:(lia) B2) as HB.
    destruct (rebuild_batch _ _ _ _ _ _ _) as [r a]. destruct HB as (Hh' & HS & _ & Hok). pose proof (same_set_key _ _ HS) as HK.
    destruct r as [[]|err]; (split; [done|intros y; cbn; rewrite HK; apply (s_units _ _ _ Hs)|]); cbn; [|done]. intros ts' key' [= <- <-]. by apply Hok.
  - pose proof (div_ceil_mul (dsize (arr w)) (lock_unit (arr w)) Hl). pose proof (finish_spec crc32c (arr w) _ _ ts key Hh Ht ltac:(nia)) as HF.
    destruct (rebuild_finish _ _ _) as [r a]. destruct HF as (Hh' & HS & _). pose proof (same_set_key _ _ HS) as HK. split; [done|intros y; cbn; rewrite HK; apply (s_units _ _ _ Hs)|done].
Qed.

(** ** The refinement *)

Lemma op_stands unit_of w D o : Stands unit_of w D -> op_ok w o ->
  let '(e, w') := step o w in exists D', disk_step unit_of D e D' /\ Stands unit_of w' D'.
Proof.
  intros Hs Ho. pose proof (s_holds _ _ _ Hs) as Hh. assert (forall w', Stands unit_of w' D -> exists D', disk_step unit_of D Quiet D' /\ Stands unit_of w' D') as HQ by (intros w' H; exists D; split; [constructor|done]).
  destruct o as [off buf|off n|before|idx gone|i d u|d u|u| |b| | |t]; cbn [step op_ok] in *.
  - destruct Ho as [H0 Hb]. pose proof (write_holds cpu simd crc32c (arr w) _ _ off buf Hh H0 Hb) as HW. destruct (write _ _ _ _ _ _) as [r a].
    destruct HW as [[W Hev] HW]. destruct r as [[]|e].
    + eexists. split; [apply D_wrote|]. by eapply stands_evolves.
    + eexists. split; [apply D_write_failed|]. eapply stands_evolves; [done|exact Hev|]. cbn. eapply holds_mono; [|exact HW]. cbn. intros k [?|(y & Hy & <-)]; [by left|right].
      exists y. split; [done|]. symmetry. apply (s_units _ _ _ Hs).
  - destruct Ho as [H0 Hn]. pose proof (read_holds cpu simd crc32c (arr w) _ _ off n Hh H0 Hn) as HR. destruct (read _ _ _ _ _ _) as [r a].
    destruct HR as [Hev HR]. exists D. split; [|by eapply stands_evolves; [|exact Hev|eapply holds_nowhere]]. destruct r as [b|e]; constructor. intros Ht. apply HR; [|done].
    intros k (y & Hy & <-). apply Ht. exists y. split; [done|]. symmetry. apply (s_units _ _ _ Hs).
  - apply HQ, stands_keeps; [apply keeps_flush|done].
  - apply HQ, stands_keeps; [apply keeps_fail_as|done].
  - apply HQ, replace_stands; [done|apply Ho..].
  - by apply HQ, add_stands.
  - by apply HQ, remove_stands.
  - by apply HQ, spawn_stands.
  - by apply HQ, turn_stands.
  - apply HQ, stands_keeps; [apply keeps_persist_position|done].
  - apply HQ. pose proof (stands_keeps persist_rebuild_position unit_of w D keeps_persist_position Hs) as [H1 H2 H3]. by split.
  - apply HQ, stands_keeps; [by apply keeps_modify_same|done].
Qed.
Lemma run_stands unit_of ops : forall w D, Stands unit_of w D -> ops_ok ops w ->
  let '(es, w') := run ops w in exists D', disk_run unit_of D es D' /\ Stands unit_of w' D'.
Proof.
  induction ops as [|o ops IH]; intros w D Hs Ho; [exists D; split; [constructor|done]|]. cbn [run ops_ok] in *. destruct Ho as [Ho Hos].
  pose proof (op_stands unit_of w D o Hs Ho) as H1. destruct (step o w) as [e w1]. destruct H1 as (D1 & S1 & H1). cbn in Hos. specialize (IH w1 D1 H1 Hos).
  destruct (run ops w1) as [es w2]. destruct IH as (D2 & R2 & H2). exists D2. split; [by econstructor|done].
Qed.
End History.
