(* ===== verification/RaidAnswers.v ===== *)
(** On drives that do not fail, no member fails: reads of the set are answered, its
    superblocks written, and a rebuild runs to its end. A set whose drives do not fail
    answers every read within its range, however many of its members it has lost of those
    its level survives. A rebuild on drives that do not fail runs to its end: its members
    come to serve. *)

From S2P Require Import Prelude Gf256 Parity ParityKernels ParityRecover RaidLayout IntentBitmap RaidSuper RaidArray RaidFrame RaidModel RaidStripe RaidWrite RaidParity RaidMirror RaidRebuild RaidHistory.
#[local] Open Scope raid_scope.

(** ** Drives that do not fail *)

Definition sound_drive (m : Member) : Prop := forall d, device m = Some d -> faults d = [].
Definition sound (a : RaidArray) : Prop := Forall sound_drive (members a).
(** What decides which members serve. *)
Definition shape (m : Member) : MemberState * Z * bool := (state m, rebuilt_to m, present m).

Lemma sound_member a i m : sound a -> member a i = Some m -> sound_drive m.
Proof. intros H [_ E]%member_some. by eapply Forall_lookup_1. Qed.
Lemma shape_holds e m m' : shape m' = shape m -> holds e m' = holds e m /\ attached m' = attached m /\ ok_member m' = ok_member m.
Proof.
  intros E. pose proof (f_equal (fun t => t.1.1) E) as St. pose proof (f_equal (fun t => t.1.2) E) as R. pose proof (f_equal snd E) as P. cbn in *.
  unfold holds, attached, ok_member. by rewrite St, R, P.
Qed.
Lemma shape_put a i m d' : member a i = Some m -> present m = true -> map shape (members (set_member i (set_device d' m) a)) = map shape (members a).
Proof.
  intros [Hi E]%member_some Hp. cbn. change (shape <$> <[Z.to_nat i := set_device d' m]> (members a) = shape <$> members a). rewrite list_fmap_insert.
  apply list_insert_id. rewrite list_lookup_fmap, E. cbn. f_equal. unfold shape. cbn. by rewrite Hp.
Qed.
Lemma on_sound {A} i (f : Device -> result RaidError A * Device) a : (forall d, faults (snd (f d)) = tl (faults d)) -> sound a ->
  sound (snd (on i f a)) /\ map shape (members (snd (on i f a))) = map shape (members a).
Proof.
  intros Hf Hs. destruct (on_spec i f a) as [->|(m & d & r & d' & E & D & F & ->)]; [done|]. split; [|eapply shape_put; [done|by eapply device_present]].
  cbn. apply Forall_insert; [done|]. intros d0 [= <-]. specialize (Hf d). rewrite F in Hf. cbn in Hf. rewrite Hf, (sound_member _ _ _ Hs E d D). done.
Qed.

Section Calm.
Context (cpu : arch) (simd : SimdLevel) (crc32c : bytes -> Z) (a0 : RaidArray) (Hw0 : wf a0).

(** The set as it was, but for its data and its books. *)
Record Still (a : RaidArray) : Prop := {
  st_evolves : exists W, evolves W a0 a;
  st_sound : sound a;
  st_shape : map shape (members a) = map shape (members a0) }.
(** An operation that leaves the set so, with its answer. *)
Definition stays {A} (m : S A) (P : A -> Prop) : Prop := forall a, Still a -> Still (snd (m a)) /\ P (fst (m a)).
Definition fine {A} (P : A -> Prop) (r : result RaidError A) : Prop := exists x, r = Ok x /\ P x.

Lemma still_wf a : Still a -> wf a.
Proof using Hw0. intros [[W H] _ _]. by eapply wf_evolves. Qed.
Lemma still_dsize a : Still a -> dsize a = dsize a0.
Proof. intros [[W H] _ _]. by eapply ev_dsize. Qed.
Lemma still_geometry a : Still a -> geometry a = geometry a0.
Proof. intros [[W H] _ _]. by eapply ev_geometry. Qed.
Lemma still_lock a : Still a -> lock_unit a = lock_unit a0.
Proof. intros [[W H] _ _]. by eapply ev_lock_unit. Qed.
Lemma still_n a : Still a -> n_members a = n_members a0.
Proof. intros [[W H] _ _]. by eapply ev_n. Qed.
Lemma still_same a : Still a -> same_set a0 a.
Proof. intros [[W H] _ _]. apply H. Qed.
Lemma still_lookup a i : Still a -> option_map shape (member a i) = option_map shape (member a0 i).
Proof.
  intros [_ _ H]. unfold member. destruct (i <? 0); [done|]. change (option_map shape) with (fmap (M := option) shape). rewrite <- !list_lookup_fmap. f_equal. exact H.
Qed.
Lemma still_map {B} (f : Member -> B) a : (forall m m', shape m' = shape m -> f m' = f m) -> Still a -> map f (members a) = map f (members a0).
Proof.
  intros Hf [_ _ H]. revert H. generalize (members a0). induction (members a) as [|m l IH]; intros [|m' l'] E; try done. cbn [map] in *.
  pose proof (f_equal (hd (shape m)) E) as E1. pose proof (f_equal (@tl _) E) as E2. cbn in E1, E2. f_equal; [by apply Hf|by apply IH].
Qed.
Lemma still_holders a e : Still a -> holders a e = holders a0 e.
Proof. apply still_map. intros m m' E. by apply shape_holds. Qed.
Lemma still_which a : Still a -> which attached a = which attached a0.
Proof.
  intros Hs. unfold which. rewrite (still_n a Hs). apply list_filter_iff. intros i. pose proof (still_lookup a i Hs) as E.
  destruct (member a i) as [m|], (member a0 i) as [m0|]; try done. cbn in *. by destruct (shape_holds 0 m0 m ltac:(congruence)) as (_ & -> & _).
Qed.
Lemma still_member a i m0 : Still a -> member a0 i = Some m0 -> exists m, member a i = Some m /\ shape m = shape m0.
Proof. intros Hs E. pose proof (still_lookup a i Hs) as H. rewrite E in H. destruct (member a i) as [m|]; [|done]. exists m. split; [done|]. cbn in H. congruence. Qed.

Lemma stays_mono {A} (m : S A) (P Q : A -> Prop) : (forall x, P x -> Q x) -> stays m P -> stays m Q.
Proof. intros H Hm a Ha. destruct (Hm a Ha). auto. Qed.
Lemma stays_pure {A} (x : A) (P : A -> Prop) : P x -> stays (pure x) P.
Proof. by intros H a Ha. Qed.
Lemma stays_seq {A B} (m : S A) (k : A -> S B) (P : A -> Prop) (Q : B -> Prop) : stays m P -> (forall x, P x -> stays (k x) Q) -> stays (seq m k) Q.
Proof. intros H1 H2 a Ha. unfold seq. destruct (H1 a Ha) as [H3 H4]. destruct (m a) as [x b]. by apply (H2 x H4 b H3). Qed.
Lemma stays_gets {A} (f : RaidArray -> A) : stays (gets f) (fun x => exists a, Still a /\ x = f a).
Proof. intros a Ha. split; [done|by exists a]. Qed.
Lemma stays_look {A B} (f : RaidArray -> A) (k : A -> S B) (Q : B -> Prop) : (forall a, Still a -> stays (k (f a)) Q) -> stays (seq (gets f) k) Q.
Proof. intros H. eapply stays_seq; [apply stays_gets|]. by intros x (a & Ha & ->); apply H. Qed.
Lemma stays_bind {A B} (m : M A) (k : A -> M B) (P : A -> Prop) Q : stays m (fine P) -> (forall x, P x -> stays (k x) Q) -> stays (bind m k) Q.
Proof. intros H1 H2. eapply stays_seq; [exact H1|]. intros r (x & -> & Hx). by apply H2. Qed.
Lemma stays_try {A B} (m : M A) (k : A -> M B) : stays m (fun _ => True) -> (forall x, stays (k x) (fun _ => True)) -> stays (bind m k) (fun _ => True).
Proof. intros H1 H2. eapply stays_seq; [exact H1|]. intros [x|e] _; [apply H2|by apply stays_pure]. Qed.
Lemma stays_modify f : (forall a, same_set a (f a) /\ members (f a) = members a) -> stays (modify f) (fun _ => True).
Proof.
  intros H a [[W Hev] Hs Hm]. destruct (H a) as [H1 H2]. split; [|done]. cbn. split.
  - exists W. eapply evolves_trans; [exact Hev|by apply evolves_same_members].
  - unfold sound. by rewrite H2.
  - by rewrite H2.
Qed.
Lemma stays_each {A B} (f : A -> S B) (P : A -> B -> Prop) l : (forall x, x ∈ l -> stays (f x) (P x)) -> stays (each f l) (Forall2 P l).
Proof.
  induction l as [|x l IH]; intros H; [by apply stays_pure|]. cbn [each]. eapply stays_seq; [apply H; left|]. intros y Hy.
  eapply stays_seq; [apply IH; intros z Hz; apply H; by right|]. intros ys Hys. apply stays_pure. by constructor.
Qed.

(** ** Drives answer *)

Lemma still_on {A} i (f : Device -> result RaidError A * Device) a : Still a -> (forall d, faults (snd (f d)) = tl (faults d)) ->
  (exists W, evolves W a (snd (on i f a))) -> Still (snd (on i f a)).
Proof.
  intros [[W Hev] Hs Hm] Hf [W' Hev']. destruct (on_sound i f a Hf Hs) as [H1 H2]. split; [|done|congruence].
  exists (fun _ _ => True). eapply evolves_trans; [eapply evolves_mono; [|exact Hev]|eapply evolves_mono; [|exact Hev']]; done.
Qed.
(** The drive of a member in service. *)
Definition in_place (i : Z) : Prop := exists m, member a0 i = Some m /\ present m = true.
Lemma drive_of a i : Still a -> in_place i -> exists m d, member a i = Some m /\ device m = Some d /\ faults d = [] /\ DATA_OFFSET + dsize a0 <= zlen (content d).
Proof using Hw0.
  intros Ha (m0 & E0 & P0). destruct (still_member a i m0 Ha E0) as (m & E & Sh). pose proof (f_equal snd Sh) as P. change (present m = present m0) in P. rewrite P0 in P.
  unfold present in P. destruct (device m) as [d|] eqn:D; [|done]. exists m, d. split_and!; [done|done|by apply (sound_member a i m (st_sound _ Ha) E)|].
  rewrite <- (still_dsize a Ha). by apply (w_drives _ (still_wf a Ha) i m d E D).
Qed.
Lemma stays_rd i off n : in_place i -> 0 <= off -> 0 <= n -> DATA_OFFSET + off + n <= DATA_OFFSET + dsize a0 -> stays (rd i (DATA_OFFSET + off) n) (fine (buf_ok n)).
Proof using Hw0.
  intros Hi Ho Hn Hd a Ha. split.
  - apply still_on; [done|done|]. exists nowhere. apply plans_evolves, (rd_plans i (DATA_OFFSET + off) n a).
  - assert (exists b, fst (rd i (DATA_OFFSET + off) n a) = Ok b) as (b & Eb).
    { unfold rd, on. destruct (drive_of a i Ha Hi) as (m & d & -> & D & F & Hz). rewrite D. unfold dev_read, next_fault. rewrite F. cbn.
      destruct (Z.ltb_spec (zlen (content d)) (DATA_OFFSET + off + n)) as [|_]; [lia|]. by eexists. }
    exists b. split; [done|]. eapply rd_buf; [by apply still_wf|exact Ho|exact Hn| |exact Eb]. rewrite (still_dsize a Ha). lia.
Qed.
Lemma stays_fl i : in_place i -> stays (fl i) (fine (fun _ => True)).
Proof using Hw0.
  intros Hi a Ha. split.
  - apply still_on; [done|done|]. exists nowhere. apply plans_evolves, (fl_plans i a).
  - unfold fl, on. destruct (drive_of a i Ha Hi) as (m & d & -> & D & F & Hz). rewrite D. unfold dev_flush, next_fault. rewrite F. by exists ().
Qed.
Lemma wr_faults off b d : faults (snd (dev_write off b d)) = tl (faults d).
Proof. unfold dev_write, next_fault. destruct (_ <? _); [done|]. by destruct (default None _). Qed.
Lemma wr_answers i off b a : Still a -> in_place i -> off + zlen b <= DATA_OFFSET + dsize a0 -> fst (wr i off b a) = Ok ().
Proof using Hw0.
  intros Ha Hi Hd. unfold wr, on. destruct (drive_of a i Ha Hi) as (m & d & -> & D & F & Hz). rewrite D. unfold dev_write, next_fault. rewrite F. cbn.
  by destruct (Z.ltb_spec (zlen (content d)) (off + zlen b)); [lia|].
Qed.
Lemma stays_wr_low i off b : in_place i -> 0 <= off -> off + zlen b <= DATA_OFFSET -> stays (wr i off b) (fine (fun _ => True)).
Proof using Hw0.
  intros Hi Ho Hz a Ha. pose proof (proj2 (w_unit _ Hw0)). split.
  - apply still_on; [done|apply wr_faults|]. exists nowhere. apply (wr_low i off b a); [by apply still_wf|done|lia].
  - exists (). split; [|done]. apply wr_answers; [done|done|lia].
Qed.
Lemma stays_wr_data i off b : in_place i -> 0 <= off -> off + zlen b <= dsize a0 -> all_bytes b -> stays (wr i (DATA_OFFSET + off) b) (fine (fun _ => True)).
Proof using Hw0.
  intros Hi Ho Hz Hb a Ha. split.
  - apply still_on; [done|apply wr_faults|]. pose proof (wr_data i off b a (still_wf a Ha) Ho ltac:(rewrite (still_dsize a Ha); lia) Hb) as H.
    fold (wr i (DATA_OFFSET + off) b). destruct (wr i _ b a) as [r a']. eexists. apply H.
  - exists (). split; [|done]. apply wr_answers; [done|done|lia].
Qed.

(** ** Superblocks *)

Definition answered (r : Z * result RaidError ()) : Prop := snd r = Ok ().
Lemma attached_in_place i : i ∈ which attached a0 -> in_place i.
Proof.
  intros [Hf _]%list_elem_of_filter. destruct (member a0 i) as [m|] eqn:E; [|done]. exists m. split; [done|]. cbn in Hf. by apply andb_true_iff in Hf as [].
Qed.
Lemma stays_settle rs : Forall answered rs -> stays (settle rs) (fine (fun _ => True)).
Proof. induction 1 as [|[i r] rs H _ IH]; cbn [settle]; [apply stays_pure; by exists ()|]. unfold answered in H. cbn in H. by subst r. Qed.
Lemma stays_settle_round rs : Forall answered rs -> forall again, stays (settle_round again rs) (fine (fun b => b = again)).
Proof. induction 1 as [|[i r] rs H _ IH]; intros again; cbn [settle_round]; [apply stays_pure; by exists again|]. unfold answered in H. cbn in H. subst r. apply IH. Qed.
Lemma stays_write_flush i off b : in_place i -> 0 <= off -> off + zlen b <= DATA_OFFSET -> stays (write_flush i off b) (fine (fun _ => True)).
Proof using Hw0. intros Hi Ho Hz. eapply stays_bind; [by apply stays_wr_low|]. intros _ _. by apply stays_fl. Qed.
Lemma superblocks_made a (l : list Z) : wf a -> exists ws, mapM (fun i => b ← to_bytes crc32c (superblock_for a i (evts a)); Some (i, b)) l = Some ws.
Proof.
  intros Hw. apply mapM_is_Some_2, Forall_forall. intros i _. unfold compose. cbn beta. enough (is_Some (to_bytes crc32c (superblock_for a i (evts a)))) as [b ->] by (cbn; by eexists).
  unfold to_bytes. destruct (w_level _ Hw) as [_ Hn]. cbn [slots superblock_for]. unfold zlen. rewrite length_map. fold (zlen (members a)). fold (n_members a).
  destruct (Z.ltb_spec MAX_SLOTS (n_members a)); [lia|]. by eexists.
Qed.
Lemma stays_rounds fuel : stays (superblock_rounds crc32c fuel) (fine (fun _ => True)).
Proof using Hw0.
  induction fuel as [|fuel IH]; cbn [superblock_rounds]; [apply stays_pure; by exists ()|]. eapply stays_seq; [by apply stays_modify|intros _ _].
  apply stays_look. intros a Ha. destruct (superblocks_made a (which attached a) (still_wf a Ha)) as (ws & Em). rewrite Em.
  assert (Forall (fun w => in_place (fst w) /\ zlen (snd w) = SUPERBLOCK_BYTES) ws) as Hl.
  { eapply mapM_Forall; [|exact Em]. intros i w Hi Hw. cbn beta in Hw.
    destruct (to_bytes crc32c (superblock_for a i (evts a))) as [b|] eqn:Eb; cbn in Hw; [|discriminate Hw]. injection Hw as <-. split.
    - apply attached_in_place. by rewrite <- (still_which a Ha).
    - eapply superblock_length; [by apply still_wf|done|done]. }
  clear Em. eapply stays_seq; [apply (stays_each _ (fun _ r => answered r))|].
  - intros w Hw. rewrite Forall_forall in Hl. destruct (Hl w Hw) as [H1 H2]. eapply stays_seq; [apply stays_write_flush; [done|done|by rewrite H2]|].
    intros r ([] & -> & _). by apply stays_pure.
  - intros rs Hrs. assert (Forall answered rs) as Hrs' by (clear -Hrs; induction Hrs; by constructor). eapply stays_bind; [by apply stays_settle_round|]. intros again ->. apply stays_pure. by exists ().
Qed.
Lemma stays_write_superblocks : stays (write_superblocks crc32c) (fine (fun _ => True)).
Proof using Hw0. apply stays_look. intros a Ha. destruct (released a); [apply stays_pure; by exists ()|apply stays_rounds]. Qed.
Lemma stays_zero_each zs l : Forall in_place l -> Intent.BITMAP_OFFSET + zlen zs <= DATA_OFFSET -> stays (zero_each zs l) (fine (fun _ => True)).
Proof using Hw0.
  intros HF Hz. induction HF as [|i l Hi _ IH]; cbn [zero_each]; [apply stays_pure; by exists ()|]. eapply stays_seq; [by apply stays_wr_low|]. intros r ([] & -> & _). exact IH.
Qed.
Lemma stays_zero_bitmaps only : stays (zero_bitmaps only) (fine (fun _ => True)).
Proof using Hw0.
  apply stays_look. intros a Ha. destruct (released a); [apply stays_pure; by exists ()|]. apply stays_look. intros b Hb. apply stays_look. intros c Hc.
  apply stays_zero_each.
  - rewrite (still_which b Hb). apply Forall_forall. intros i Hi. apply attached_in_place. destruct only as [o|]; [by apply list_elem_of_filter in Hi as [_ Hi]|done].
  - destruct (w_bitmap _ (still_wf c Hc)). rewrite zlen_zeros; lia.
Qed.
Lemma stays_persist : stays (persist_if_dirty crc32c) (fun _ => True).
Proof using Hw0. apply stays_look. intros a Ha. destruct (sb_dirty a); [|by apply stays_pure]. eapply stays_seq; [apply stays_write_superblocks|]. intros r _. by apply stays_pure. Qed.
End Calm.

#[local] Open Scope raid_scope.

(** ** Recovery answers *)

Lemma recover_answers cpu simd len s : lost_count s <= level_tolerates s -> exists st, recover cpu simd len s = Ok (Some st).
Proof.
  intros Hl. unfold recover. fold (lost_count s). fold (level_tolerates s). destruct (Z.ltb_spec (level_tolerates s) (lost_count s)) as [|_]; [lia|].
  enough (exists data, recover_data cpu simd len s = Some data) as (data & ->) by by eexists.
  unfold recover_data. unfold lost_count, level_tolerates in Hl. destruct (missing_from 0 (ss_data s)) as [|x [|y [|z r]]]; rewrite ?zlen_cons in Hl; try by eexists.
  - change (zlen []) with 0 in Hl. destruct (bool_decide (ss_p s = None)); [|by eexists]. destruct (bool_decide (ss_q s = Some None)) eqn:Eq; [|by eexists].
    destruct (bool_decide (ss_q s <> None)); lia.
  - change (zlen []) with 0 in Hl. destruct (bool_decide (ss_p s = None)); [destruct (bool_decide (ss_q s <> None)), (bool_decide (ss_q s = Some None)); lia|].
    destruct (bool_decide (ss_q s = Some None)) eqn:Eq; [destruct (bool_decide (ss_q s <> None)); lia|]. destruct (pq_at _ _ _ _). by eexists.
  - pose proof (zlen_nonneg r). destruct (bool_decide (ss_q s <> None)), (bool_decide (ss_p s = None)), (bool_decide (ss_q s = Some None)); lia.
Qed.

(** ** The strips of a column *)

Definition strip_in (st : StripeStrips) (r : Layout.StripRole) : option bytes :=
  match r with Layout.Data d => default None (ss_data st !! Z.to_nat d) | Layout.P => ss_p st | Layout.Q => default None (ss_q st) end.
Lemma role_inj g s i j : parity_ok g -> 0 <= i < Layout.n g -> 0 <= j < Layout.n g -> Layout.role_of g s i = Layout.role_of g s j -> i = j.
Proof.
  intros Hg Hi Hj E. destruct (Layout.role_of g s j) as [d| |] eqn:Ej.
  - destruct (data_of_role g s i d Hg Hi E) as [_ <-]. by destruct (data_of_role g s j d Hg Hj Ej) as [_ <-].
  - assert (forall m, Layout.role_of g s m = Layout.P -> m = Layout.p_member g s) as H; [|by rewrite (H i), (H j)].
    intros m. unfold Layout.role_of. destruct (Z.eqb_spec m (Layout.p_member g s)); [done|]. by destruct (_ && _).
  - assert (forall m, Layout.role_of g s m = Layout.Q -> m = Layout.q_member g s) as H; [|by rewrite (H i), (H j)].
    intros m. unfold Layout.role_of. destruct (Z.eqb_spec m (Layout.p_member g s)); [done|]. destruct (_ && _) eqn:E'; [|done].
    apply andb_true_iff in E' as [_ E']. by apply Z.eqb_eq in E'.
Qed.

Section Column.
Context (cpu : arch) (simd : SimdLevel) (a0 : RaidArray) (Hw0 : wf a0) (Hpar : parity_set a0).
Abbreviation g := (geometry a0).

Lemma strip_put s i j o st : 0 <= i < n_members a0 -> 0 <= j < n_members a0 -> length (ss_data st) = Z.to_nat (Layout.data_count g) ->
  strip_in (put_strip g s i o st) (Layout.role_of g s j) = if decide (i = j) then o else strip_in st (Layout.role_of g s j).
Proof using Hw0 Hpar.
  intros Hi Hj Hl. pose proof (g_ok a0 Hw0 Hpar) as Hg. unfold put_strip, strip_in. case_decide as E.
  - subst j. destruct (Layout.role_of g s i) as [d| |] eqn:Er; [|done..]. destruct (data_of_role g s i d Hg Hi Er) as [Hd _]. cbn.
    rewrite list_lookup_insert_eq by lia. done.
  - pose proof (fun H => E (role_inj g s i j Hg Hi Hj H)) as Hne. destruct (Layout.role_of g s i) as [d| |] eqn:Er, (Layout.role_of g s j) as [d'| |] eqn:Er'; cbn; try done.
    rewrite list_lookup_insert_ne; [done|]. destruct (data_of_role g s i d Hg Hi Er), (data_of_role g s j d' Hg Hj Er'). intros E2. apply Hne. f_equal. lia.
Qed.
Definition read_of (r : Z * option (result RaidError bytes)) : Prop := 0 <= fst r < n_members a0 /\ (snd r = None \/ exists b, snd r = Some (Ok b)).
Lemma put_length s i o st : length (ss_data (put_strip g s i o st)) = length (ss_data st).
Proof. unfold put_strip. destruct (Layout.role_of g s i); cbn; [apply length_insert|done..]. Qed.
Lemma fill_there s rs : forall st b, Forall read_of rs -> NoDup (map fst rs) -> length (ss_data st) = Z.to_nat (Layout.data_count g) ->
  let '(st', b') := fill_strips g s rs st b in
  b' = b /\ length (ss_data st') = Z.to_nat (Layout.data_count g) /\
  forall j, 0 <= j < n_members a0 -> (j ∉ map fst rs -> strip_in st' (Layout.role_of g s j) = strip_in st (Layout.role_of g s j)) /\
    (forall x, (j, Some (Ok x)) ∈ rs -> strip_in st' (Layout.role_of g s j) = Some x).
Proof using Hw0 Hpar.
  induction rs as [|[i r] rs IH]; intros st b HF Hnd Hl; [split_and!; [done|done|]; intros j _; split; [done|by intros x ?%elem_of_nil]|].
  apply Forall_cons in HF as [[Hi Hr] HF]. cbn [map fst snd] in *. apply NoDup_cons in Hnd as [Hni Hnd].
  assert (exists o, fill_strips g s ((i, r) :: rs) st b = fill_strips g s rs (put_strip g s i o st) b /\ forall x, r = Some (Ok x) -> o = Some x) as (o & -> & Ho).
  { destruct Hr as [->|(x & ->)]; [by exists None|exists (Some x)]. split; [done|]. congruence. }
  specialize (IH (put_strip g s i o st) b HF Hnd ltac:(by rewrite put_length)). destruct (fill_strips _ _ rs _ b) as [st' b']. destruct IH as (I1 & I2 & I3). split_and!; [done|done|].
  intros j Hj. destruct (I3 j Hj) as [J1 J2]. split.
  - intros [H1 H2]%not_elem_of_cons. rewrite (J1 H2), strip_put by done. rewrite decide_False by done. done.
  - intros x [Ex|Hx]%elem_of_cons; [|by apply J2]. injection Ex as -> E2. rewrite (J1 Hni), strip_put by done. rewrite decide_True by done. by apply Ho.
Qed.

(** The strips lost are of members that do not hold the unit. *)
Definition lost_by (s : Z) (st : StripeStrips) : list Z :=
  map (fun d => Layout.data_member g s (Z.of_nat d)) (missing_from 0 (ss_data st))
  ++ (if bool_decide (ss_p st = None) then [Layout.p_member g s] else [])
  ++ (if bool_decide (ss_q st = Some None) then [Layout.q_member g s] else []).
Lemma zlen_lost s st : zlen (lost_by s st) = lost_count st.
Proof.
  unfold lost_by, lost_count. rewrite !zlen_app. assert (forall l, zlen (map (fun d => Layout.data_member g s (Z.of_nat d)) l) = zlen l) as -> by (intros l; unfold zlen; by rewrite length_map).
  rewrite Z.add_assoc. f_equal; [f_equal|]; by case_bool_decide.
Qed.
Lemma NoDup_missing {A} (l : list (option A)) k : NoDup (missing_from k l).
Proof.
  revert k. induction l as [|[x|] l IH]; intros k; cbn [missing_from]; [constructor|apply IH|]. constructor; [|apply IH].
  intros (j & Ej & _)%elem_of_missing_from. lia.
Qed.
Lemma missing_range (l : list (option bytes)) d : d ∈ missing_from 0 l -> l !! d = Some None.
Proof. by intros (j & -> & H)%elem_of_missing_from. Qed.
Lemma q_role s : raid6 g = true -> Layout.role_of g s (Layout.q_member g s) = Layout.Q.
Proof using Hw0 Hpar. intros E. apply (role_of_parity g s (g_ok a0 Hw0 Hpar)). by apply bool_decide_eq_true in E. Qed.
Lemma p_role s : Layout.role_of g s (Layout.p_member g s) = Layout.P.
Proof using Hw0 Hpar. apply (role_of_parity g s (g_ok a0 Hw0 Hpar)). Qed.
Lemma lost_roles s n st i : shaped g n st -> i ∈ lost_by s st -> strip_in st (Layout.role_of g s i) = None /\ 0 <= i < n_members a0.
Proof using Hw0 Hpar.
  intros Hsh Hi. pose proof (g_ok a0 Hw0 Hpar) as Hg. assert (0 < n_members a0) as Hn by (destruct (w_level _ Hw0) as [Hn _]; unfold level_ok in Hn; destruct Hpar as [E|E]; rewrite E in Hn; lia).
  assert (forall k, 0 <= k mod n_members a0 < n_members a0) as Hr by (intros k; apply Z.mod_pos_bound; lia). unfold lost_by in Hi.
  apply elem_of_app in Hi as [(d & -> & Hd%missing_range)%list_elem_of_fmap|[Hi|Hi]%elem_of_app].
  - pose proof (lookup_lt_Some _ _ _ Hd) as Hlt. rewrite (sh_count _ _ _ Hsh) in Hlt. rewrite (role_of_data g s (Z.of_nat d) Hg) by lia. cbn. rewrite Nat2Z.id, Hd. split; [done|apply Hr].
  - case_bool_decide as E; [|by apply elem_of_nil in Hi]. apply list_elem_of_singleton in Hi as ->. rewrite p_role. split; [done|]. by apply p_member_range.
  - case_bool_decide as E; [|by apply elem_of_nil in Hi]. apply list_elem_of_singleton in Hi as ->.
    assert (raid6 g = true) as E6 by (destruct (raid6 g) eqn:E6; [done|]; by rewrite (proj2 (sh_raid6 _ _ _ Hsh) E6) in E). rewrite q_role by done. cbn. rewrite E. split; [done|apply Hr].
Qed.
Lemma NoDup_lost s n st : shaped g n st -> NoDup (lost_by s st).
Proof using Hw0 Hpar.
  intros Hsh. pose proof (g_ok a0 Hw0 Hpar) as Hg.
  assert (forall d, d ∈ missing_from 0 (ss_data st) -> Layout.role_of g s (Layout.data_member g s (Z.of_nat d)) = Layout.Data (Z.of_nat d)) as Hd.
  { intros d Hd%missing_range. pose proof (lookup_lt_Some _ _ _ Hd) as Hlt. rewrite (sh_count _ _ _ Hsh) in Hlt. apply role_of_data; [done|lia]. }
  assert (forall x, x ∈ (if bool_decide (ss_p st = None) then [Layout.p_member g s] else []) -> Layout.role_of g s x = Layout.P) as Hp.
  { intros x. case_bool_decide; [intros ->%list_elem_of_singleton; apply p_role|by intros ?%elem_of_nil]. }
  assert (forall x, x ∈ (if bool_decide (ss_q st = Some None) then [Layout.q_member g s] else []) -> Layout.role_of g s x = Layout.Q) as Hq.
  { intros x Hx. destruct (bool_decide_reflect (ss_q st = Some None)) as [E|]; [|by apply elem_of_nil in Hx]. apply list_elem_of_singleton in Hx as ->. apply q_role.
    destruct (raid6 g) eqn:E6; [done|]. by rewrite (proj2 (sh_raid6 _ _ _ Hsh) E6) in E. }
  unfold lost_by. apply NoDup_app. split_and!; [| |apply NoDup_app; split_and!].
  - apply (NoDup_fmap_2_strong (fun d => Layout.data_member g s (Z.of_nat d))); [|apply NoDup_missing]. intros x y Hx%Hd Hy%Hd E. rewrite E, Hy in Hx. injection Hx as ?. lia.
  - intros x (d & -> & Hx%Hd)%list_elem_of_fmap [Hy%Hp|Hy%Hq]%elem_of_app; congruence.
  - destruct (bool_decide (ss_p st = None)); [apply NoDup_singleton|constructor].
  - intros x Hx%Hp Hy%Hq. congruence.
  - destruct (bool_decide (ss_q st = Some None)); [apply NoDup_singleton|constructor].
Qed.
Lemma lost_bound s n st h : shaped g n st -> (forall i, 0 <= i < n_members a0 -> held h i = true -> strip_in st (Layout.role_of g s i) <> None) ->
  lost_count st <= count (fun i => negb (held h i)) (zrange 0 (n_members a0)).
Proof using Hw0 Hpar.
  intros Hsh H. rewrite <- (zlen_lost s). unfold zlen, count. apply Nat2Z.inj_le, submseteq_length, NoDup_submseteq; [by eapply NoDup_lost|].
  intros i Hi. destruct (lost_roles s n st i Hsh Hi) as [E Hr]. apply list_elem_of_filter. split; [|by apply elem_of_zrange].
  destruct (held h i) eqn:Eh; [|done]. by apply (H i Hr) in Eh.
Qed.
(** Members in service hold every unit. *)
Lemma ok_holds e m : ok_member m = true -> holds e m = true.
Proof. unfold ok_member, holds. intros [-> Hs]%andb_true_iff. apply bool_decide_eq_true in Hs. by rewrite Hs. Qed.
Lemma unheld_few e : count (fun i => negb (held (holders a0 e) i)) (zrange 0 (n_members a0)) <= Layout.tolerated g.
Proof using Hw0 Hpar.
  pose proof (w_intact _ Hw0) as Hi. unfold data_intact in Hi. assert (count (fun m => negb (ok_member m)) (members a0) <= Layout.tolerated g) as Hc.
  { destruct Hpar as [E|E]; rewrite E in Hi; by apply Z.leb_le. }
  etransitivity; [|exact Hc]. rewrite lost_members. set (l := zrange 0 _). clearbody l. assert (forall i, i ∈ l -> ok_at a0 i = true -> held (holders a0 e) i = true) as H.
  { intros i _ Hok. unfold ok_at in Hok. destruct (member a0 i) as [m|] eqn:E; [|done]. cbn in Hok. apply member_some in E as [_ E]. unfold held, holders.
    change (map (holds e) (members a0)) with (holds e <$> members a0). rewrite list_lookup_fmap, E. by apply ok_holds. }
  induction l as [|i l IH]; [done|]. rewrite !count_cons. specialize (IH ltac:(intros j Hj; apply H; by right)). specialize (H i ltac:(left)).
  destruct (ok_at a0 i); cbn [negb]; [rewrite H by done; cbn [negb]; lia|]. destruct (held _ i); cbn [negb]; lia.
Qed.
End Column.

(** ** Reads answered *)

Section Reads.
Context (cpu : arch) (simd : SimdLevel) (crc32c : bytes -> Z) (a0 : RaidArray) (Hw0 : wf a0).
Abbreviation g := (geometry a0).
#[local] Abbreviation stays := (stays a0).
#[local] Abbreviation Still := (Still a0).

Lemma held_in_place e i : 0 <= i -> held (holders a0 e) i = true -> in_place a0 i.
Proof.
  intros Hi Hh. destruct (held_holders a0 e i Hi Hh) as (m & E & H). exists m. split; [done|]. by apply andb_true_iff in H as [].
Qed.
Lemma stays_mirror_read set moff n : (exists i, i ∈ set /\ held (holders a0 (moff + n)) i = true) -> Forall (fun i => 0 <= i) set -> 0 <= moff -> 0 <= n -> moff + n <= dsize a0 ->
  stays (mirror_read_at set moff n) (fine (buf_ok n)).
Proof using Hw0.
  intros (i & Hi & Hh) HF H0 Hn Hd. unfold mirror_read_at. replace (length set) with (Datatypes.S (pred (length set))) by (destruct set; [by apply elem_of_nil in Hi|done]).
  cbn [mirror_read_loop]. apply stays_look. intros a Ha. rewrite (still_holders a0 a _ Ha).
  set (cands := filter _ set). assert (i ∈ cands) as Hc by (apply list_elem_of_filter; split; [split; [done|apply not_elem_of_nil]|done]).
  assert (forall j, j ∈ cands -> held (holders a0 (moff + n)) j = true /\ j ∈ set) as Hin by (intros j Hj; apply list_elem_of_filter in Hj as [[H1 _] H2]; done).
  destruct cands as [|c0 cs]; [by apply elem_of_nil in Hc|]. apply stays_look. intros b Hb. eapply stays_seq; [by apply stays_modify|intros _ _].
  set (pick := nth _ (c0 :: cs) 0). assert (pick ∈ c0 :: cs) as Hp.
  { apply list_elem_of_In, nth_In. rewrite zlen_cons. pose proof (zlen_nonneg cs). pose proof (Z.mod_pos_bound (read_counter b) (1 + zlen cs) ltac:(lia)). unfold zlen in *. cbn [length]. lia. }
  destruct (Hin pick Hp) as [Hph Hps]. clearbody pick. rewrite Forall_forall in HF. eapply stays_seq.
  - apply stays_rd; [done|by eapply held_in_place; [apply HF|exact Hph]|done|done|lia].
  - intros r (bs & -> & Hbs). apply stays_pure. by exists bs.
Qed.

(** *** Parity sets *)

Lemma stays_read_column s lo n : parity_set a0 -> 0 <= s -> (s + 1) * unit_size a0 <= dsize a0 -> 0 <= lo -> 0 <= n -> lo + n <= unit_size a0 ->
  stays (read_column g s lo n) (fun st => shaped g n st /\ lost_count st <= level_tolerates st).
Proof using Hw0.
  intros Hpar Hs Hsd Hlo Hn Hln a Ha. destruct (w_unit _ Hw0) as [Hu _].
  pose proof (read_column_shape g s lo n a (still_wf a0 Hw0 a Ha) Hs ltac:(cbn; lia) ltac:(rewrite (still_dsize a0 a Ha); done) Hlo Hn Hln) as Hsh.
  enough (Still (snd (read_column g s lo n a)) /\ (shaped g n (fst (read_column g s lo n a)) -> lost_count (fst (read_column g s lo n a)) <= level_tolerates (fst (read_column g s lo n a)))) as [H1 H2].
  { destruct (read_column g s lo n a) as [st a']. destruct Hsh as [Hsh _]. cbn in *. auto. }
  clear Hsh. revert a Ha. change (stays (read_column g s lo n) (fun st => shaped g n st -> lost_count st <= level_tolerates st)). apply stays_look. intros a Ha.
  rewrite (still_holders a0 a _ Ha). change (Layout.unit_ g) with (unit_size a0). set (h := holders a0 ((s + 1) * unit_size a0)). set (f := fun i => _ : S (Z * option (result RaidError bytes))).
  assert (zlen h = n_members a0) as Eh by (unfold h, holders, zlen; by rewrite length_map).
  eapply stays_seq; [apply (stays_each a0 f (fun i r => fst r = i /\ read_of a0 r /\ (held h i = true -> exists b, snd r = Some (Ok b))))|].
  - intros i Hi%elem_of_zrange. rewrite Eh in Hi. unfold f. destruct (held h i) eqn:Hh; [|apply stays_pure; split_and!; [done|split; [done|by left]|done]].
    replace (DATA_OFFSET + s * unit_size a0 + lo) with (DATA_OFFSET + (s * unit_size a0 + lo)) by lia.
    eapply stays_seq; [apply stays_rd; [done|eapply held_in_place; [|exact Hh]; lia|nia|done|nia]|]. intros r (b & -> & _). apply stays_pure. cbn. split_and!; [done|split; [done|right; by exists b]|by exists b].
  - intros rs Hrs. assert (map fst rs = zrange 0 (zlen h)) as Em by (clear -Hrs; induction Hrs as [|i r l rs [<- _] _ IH]; [done|cbn; by rewrite IH]).
    assert (Forall (read_of a0) rs) as HR by (clear -Hrs; induction Hrs as [|i r l rs (_ & H & _) _ IH]; by constructor).
    intros b Hb. pose proof (fill_there a0 Hw0 Hpar s rs (no_strips g) b HR ltac:(rewrite Em; apply NoDup_zseq) ltac:(cbn; apply length_replicate)) as H.
    destruct (fill_strips g s rs (no_strips g) b) as [st b']. destruct H as (-> & _ & H). split; [done|]. cbn [fst]. intros Hsh.
    etransitivity; [apply (lost_bound a0 Hw0 Hpar s n st h Hsh)|].
    + intros i Hi Hh. destruct (H i Hi) as [_ H2]. assert (i ∈ zrange 0 (zlen h)) as Hin by (apply elem_of_zrange; lia).
      apply list_elem_of_lookup in Hin as (k & Hk). destruct (Forall2_lookup_l _ _ _ _ _ Hrs Hk) as ([j r] & Hr & Hj & _ & Hb'). cbn in Hj, Hb'. subst j.
      destruct (Hb' Hh) as (x & ->). rewrite (H2 x) by (by eapply list_elem_of_lookup_2). done.
    + etransitivity; [apply (unheld_few a0 Hw0 Hpar)|]. unfold level_tolerates, Layout.tolerated. pose proof (sh_raid6 _ _ _ Hsh) as H6. unfold raid6 in H6.
      change (Layout.level g) with (lvl a0) in *. destruct Hpar as [El|El]; rewrite El in *; destruct (bool_decide_reflect (ss_q st <> None)) as [E|E]; cbn; try lia.
      exfalso. apply E. intros Eq. by discriminate (proj1 H6).
Qed.
Lemma stays_recover {B} s lo n (k : StripeStrips -> M B) Q : parity_set a0 -> 0 <= s -> (s + 1) * unit_size a0 <= dsize a0 -> 0 <= lo -> 0 <= n -> lo + n <= unit_size a0 ->
  (forall st, Forall (filled n) (ss_data st) -> length (ss_data st) = Z.to_nat (Layout.data_count g) ->
     filled n (ss_p st) /\ (raid6 g = true -> filled n (default None (ss_q st))) -> stays (k st) Q) ->
  stays (let* strips := read_column g s lo n in
         match recover cpu simd n strips with Err _ => fail TooManyFailures | Ok None => fail Panic | Ok (Some st) => k st end) Q.
Proof using Hw0.
  intros Hpar Hs Hsd Hlo Hn Hln Hk. eapply stays_seq; [by apply stays_read_column|]. intros st [Hsh Hl]. destruct (recover_answers cpu simd n st Hl) as (out & Er). rewrite Er.
  pose proof (dc_pos a0 Hw0 Hpar). assert (ss_data st <> []) as Hne by (intros E; pose proof (sh_count _ _ _ Hsh) as Hc; rewrite E in Hc; cbn in Hc; lia).
  destruct (recover_lengths cpu simd n Hn st out Hne (sh_data _ _ _ Hsh) (sh_p _ _ _ Hsh) (sh_q _ _ _ Hsh) Er) as [H1 H2].
  destruct (recover_parities cpu simd n Hn st out Hne (sh_data _ _ _ Hsh) (sh_p _ _ _ Hsh) (sh_q _ _ _ Hsh) Er) as [H3 H4].
  apply Hk; [done|by rewrite H2, (sh_count _ _ _ Hsh)|]. split; [done|]. intros E6. apply H4. intros Eq. apply (sh_raid6 _ _ _ Hsh) in Eq. congruence.
Qed.

Lemma ok_held e i : ok_at a0 i = true -> held (holders a0 e) i = true.
Proof.
  unfold ok_at. destruct (member a0 i) as [m|] eqn:E; [|done]. intros Hok. cbn in Hok. apply member_some in E as [_ E]. unfold held, holders.
  change (map (holds e) (members a0)) with (holds e <$> members a0). rewrite list_lookup_fmap, E. by apply ok_holds.
Qed.
Lemma stays_then_persist {A} (m : S A) P : stays m P -> stays (let* r := m in persist_if_dirty crc32c ;; pure r) P.
Proof using Hw0. intros H. eapply stays_seq; [exact H|]. intros r Hr. eapply stays_seq; [by apply stays_persist|]. intros _ _. by apply stays_pure. Qed.
Lemma still_slots a : Still a -> all_slots a = all_slots a0.
Proof. intros Ha. unfold all_slots. by rewrite (still_n a0 a Ha). Qed.
Lemma stays_raid1_read off n : lvl a0 = Layout.Raid1 -> 0 <= off -> 0 <= n -> off + n <= capacity a0 -> stays (raid1_read crc32c off n) (fine (fun _ => True)).
Proof using Hw0.
  intros El Ho Hn Hc. rewrite (raid1_capacity a0 Hw0 El) in Hc. apply stays_look. intros a Ha. rewrite (still_slots a Ha). apply stays_then_persist.
  eapply stays_mono; [|apply stays_mirror_read; [|eapply Forall_impl; [apply (all_slots_set a0)|]; cbn; lia|done..]]; [by intros r (b & -> & _); exists b|].
  pose proof (w_intact _ Hw0) as Hi. unfold data_intact in Hi. rewrite El in Hi. apply existsb_exists in Hi as (m & Hin & Hok). apply list_elem_of_In, list_elem_of_lookup in Hin as (i & Hi).
  assert (member a0 (Z.of_nat i) = Some m) as E by (apply member_some; split; [lia|by rewrite Nat2Z.id]).
  exists (Z.of_nat i). split; [apply elem_of_zrange; by apply (member_range _ _ _ E)|]. apply ok_held. unfold ok_at. by rewrite E.
Qed.
Lemma pair_served p e : lvl a0 = Layout.Raid10 -> 0 <= p < Layout.data_count g -> exists i, i ∈ pair_list p /\ held (holders a0 e) i = true.
Proof using Hw0.
  intros El Hp. pose proof (w_intact _ Hw0) as Hi. unfold data_intact in Hi. rewrite El in Hi. destruct (raid10_geo a0 Hw0 El) as (Ec & _).
  pose proof (proj1 (forallb_forall _ _) Hi p ltac:(apply list_elem_of_In, elem_of_zrange; lia)) as Hpp. cbn beta in Hpp. unfold pair_list, Layout.pair_members. cbn [fst snd].
  apply orb_true_iff in Hpp as [Hok|Hok]; [exists (2 * p)|exists (2 * p + 1)]; (split; [|by apply ok_held]).
  - replace (2 * p) with (p * 2) by lia. left.
  - replace (2 * p) with (p * 2) by lia. right; left.
Qed.
Lemma stays_raid10_read off n : lvl a0 = Layout.Raid10 -> 0 <= off -> 0 <= n -> off + n <= capacity a0 -> stays (raid10_read crc32c off n) (fine (fun _ => True)).
Proof using Hw0.
  intros El Ho Hn Hc. destruct (raid10_geo a0 Hw0 El) as (_ & _ & _ & Hn1). apply stays_look. intros a Ha. unfold segs_of. rewrite (still_geometry a0 a Ha).
  destruct (pieces_of g (wf_geo a0 Hw0) off n Hn) as (segs & -> & HF & _). pose proof (pieces_in_set a0 off n segs Hw0 Hn1 Ho Hc HF) as HI.
  apply stays_look. intros b Hb. rewrite (ss_unit _ _ (still_same a0 b Hb)). apply stays_then_persist.
  set (e := off + n) in HF. clearbody e. clear b Hb. induction segs as [|sg segs IH]; cbn [raid10_read_segs]; [apply stays_pure; by exists []|].
  apply Forall_cons in HF as [[P1 P2 P3 P4 P5] HF]. apply Forall_cons in HI as [(I1 & I2 & _) HI]. change (Layout.unit_ g) with (unit_size a0) in P5.
  eapply stays_bind; [apply stays_mirror_read|].
  - by apply pair_served.
  - eapply Forall_impl; [apply (pair_set a0 (Layout.index sg) Hw0 El P4)|]. cbn. lia.
  - unfold seg_off. nia.
  - lia.
  - unfold seg_off. nia.
  - intros bs _. eapply stays_bind; [by apply IH|]. intros r _. apply stays_pure. by eexists.
Qed.

(** A piece of a parity set is read, or left to the second pass without its drive failing. *)
Lemma stays_first sg : in_set g (dsize a0) sg -> stays (first_pass g (sg, holders a0 ((Layout.stripe sg + 1) * Layout.unit_ g)))
  (fun x => (exists b, x = inl b) \/ exists m, x = inr (m, false)).
Proof using Hw0.
  intros (I1 & I2 & I3 & I4 & I5 & I6). unfold first_pass. destruct (held _ _) eqn:Hh; [|apply stays_pure; right; by eexists].
  assert (0 <= unit_size a0) by (pose proof (proj1 (w_unit _ Hw0)); lia). change (Layout.unit_ g) with (unit_size a0) in *.
  assert (0 <= Layout.data_member g (Layout.stripe sg) (Layout.index sg)) as Hm by (apply Z.mod_pos_bound; destruct (w_level _ Hw0) as [Hl _]; unfold level_ok in Hl; change (Layout.n g) with (n_members a0); destruct (lvl a0); lia).
  eapply stays_seq; [apply stays_rd; [done|by eapply held_in_place|unfold seg_off; nia|done|unfold seg_off; nia]|]. intros r (b & -> & _). apply stays_pure. left. by exists b.
Qed.
Lemma stays_second l : parity_set a0 -> Forall (fun p => in_set g (dsize a0) (fst p) /\ ((exists b, snd p = inl b) \/ exists m, snd p = inr (m, false))) l ->
  stays (second_pass cpu simd g l) (fine (fun _ => True)).
Proof using Hw0.
  intros Hpar. induction 1 as [|[sg x] l [I Hx] _ IH]; cbn [second_pass]; [apply stays_pure; by exists []|]. cbn [fst snd] in *. destruct Hx as [(b & ->)|(m & ->)].
  - eapply stays_bind; [exact IH|]. intros r _. apply stays_pure. by eexists.
  - eapply stays_seq; [by apply (stays_pure a0 () (fun _ => True))|intros _ _]. destruct I as (I1 & I2 & I3 & I4 & I5 & I6). apply stays_recover; [done..|].
    intros st HF Hl _. destruct (lookup_lt_is_Some_2 (ss_data st) (Z.to_nat (Layout.index sg)) ltac:(lia)) as (o & Eo). rewrite Eo.
    destruct (Forall_lookup_1 _ _ _ _ HF Eo) as (b & -> & _). eapply stays_bind; [exact IH|]. intros r _. apply stays_pure. by eexists.
Qed.
Lemma stays_parity_read off n : parity_set a0 -> 0 <= off -> 0 <= n -> off + n <= capacity a0 -> stays (parity_read cpu simd crc32c off n) (fine (fun _ => True)).
Proof using Hw0.
  intros Hpar Ho Hn Hc. apply stays_look. intros a Ha. rewrite (still_geometry a0 a Ha).
  destruct (pieces_of g (wf_geo a0 Hw0) off n Hn) as (segs & -> & HF & _). pose proof (pieces_in_set a0 off n segs Hw0 (not_raid1 a0 Hpar) Ho Hc HF) as HI.
  assert (Forall (in_set g (dsize a0)) segs) as HS.
  { apply Forall_forall. intros sg Hsg. rewrite Forall_forall in HF, HI. destruct (HF sg Hsg) as [P1 P2 P3 P4 P5]. destruct (HI sg Hsg) as (I1 & I2 & _). unfold in_set. split_and!; try done; lia. }
  apply stays_look. intros b Hb. rewrite (map_ext _ (fun s => holders a0 ((Layout.stripe s + 1) * Layout.unit_ g))) by (intros s; by apply still_holders).
  eapply stays_seq; [apply (stays_each a0 _ (fun p x => in_set g (dsize a0) (fst p) /\ ((exists b, x = inl b) \/ exists m, x = inr (m, false))))|].
  - intros [sg h] Hin. apply list_elem_of_lookup in Hin as (i & Hi). apply lookup_zip_Some in Hi as [H1 H2]. rewrite list_lookup_fmap, H1 in H2. apply (inj Some) in H2 as <-.
    pose proof (Forall_lookup_1 _ _ _ _ HS H1) as Hsg. eapply stays_mono; [|by apply stays_first]. by intros x Hx.
  - intros rs Hrs. apply stays_then_persist, stays_second; [done|]. apply Forall_forall. intros [sg x] Hin. apply list_elem_of_lookup in Hin as (i & Hi). apply lookup_zip_Some in Hi as [H1 H2].
    destruct (Forall2_lookup_r _ _ _ _ _ Hrs H2) as ([sg' h] & Hz & Hx). apply lookup_zip_Some in Hz as [Hz _]. assert (sg' = sg) as -> by congruence. exact Hx.
Qed.
Lemma stays_read off n : 0 <= off -> 0 <= n -> off + n <= capacity a0 -> stays (read cpu simd crc32c off n) (fine (fun _ => True)).
Proof using Hw0.
  intros Ho Hn Hc. apply stays_look. intros a Ha. apply stays_look. intros b Hb. rewrite (ss_cap _ _ (still_same a0 a Ha)), (ss_lvl _ _ (still_same a0 b Hb)).
  destruct (Z.ltb_spec (capacity a0) (off + n)); [lia|]. destruct (lvl a0) eqn:El.
  - by apply stays_raid1_read.
  - apply stays_parity_read; [by left|done..].
  - apply stays_parity_read; [by right|done..].
  - by apply stays_raid10_read.
Qed.
End Reads.

#[local] Open Scope raid_scope.

Section Unit_.
Context (cpu : arch) (simd : SimdLevel) (crc32c : bytes -> Z) (a0 : RaidArray) (Hw0 : wf a0).
Abbreviation g := (geometry a0).
#[local] Abbreviation stays := (stays a0).
#[local] Abbreviation Still := (Still a0).

(** A slot being rebuilt. *)
Definition rebuilding (t : Z) : Prop := exists m, member a0 t = Some m /\ state m = Rebuilding /\ present m = true.
Lemma rebuilding_place t : rebuilding t -> in_place a0 t.
Proof. intros (m & E & _ & P). by exists m. Qed.
Lemma rebuilding_not_ok t : rebuilding t -> ok_at a0 t = false.
Proof. intros (m & E & Es & _). unfold ok_at. rewrite E. cbn. unfold ok_member. rewrite Es. cbn. by rewrite andb_false_r. Qed.

Lemma stays_write_targets moff n ws : 0 <= moff -> moff + n <= dsize a0 -> Forall (fun w => in_place a0 (fst w) /\ buf_ok n (snd w)) ws -> stays (write_targets moff ws) (fun _ => True).
Proof using Hw0.
  intros H0 Hd. induction 1 as [|[t b] ws [Hp [Hz Hb]] _ IH]; cbn [write_targets fst snd] in *; [by apply stays_pure|].
  eapply stays_seq; [apply stays_wr_data; [done|done|done|lia|done]|]. intros r ([] & -> & _). exact IH.
Qed.
Lemma unit_bounds key : 0 <= key -> key * lock_unit a0 < dsize a0 -> 0 <= key * lock_unit a0 /\ 0 <= unit_len a0 key /\ key * lock_unit a0 + unit_len a0 key <= dsize a0.
Proof using Hw0. intros Hk Hd. pose proof (lock_unit_pos a0 Hw0). unfold unit_len. split_and!; [nia|lia|lia]. Qed.
Lemma stays_copies moff n live : lvl a0 = Layout.Raid10 -> Forall rebuilding live -> 0 <= moff -> 0 <= n -> moff + n <= dsize a0 ->
  stays (copy_pairs moff n live) (fine (Forall (fun w => in_place a0 (fst w) /\ buf_ok n (snd w)))).
Proof using Hw0.
  intros El HF H0 Hn Hd. induction HF as [|t live Ht _ IH]; cbn [copy_pairs]; [apply stays_pure; by exists []|].
  assert (0 <= Z.lxor t 1 /\ ok_at a0 (Z.lxor t 1) = true) as [Hx Hok].
  { pose proof (rebuilding_not_ok t Ht) as Hno. pose proof Ht as (m & E & _). apply member_range in E as Hr. destruct (raid10_geo a0 Hw0 El) as (_ & En & _).
    pose proof (w_intact _ Hw0) as Hi. unfold data_intact in Hi. rewrite El in Hi. pose proof (proj1 (forallb_forall _ _) Hi (t / 2)) as Hp.
    assert (0 <= t / 2 < n_members a0 / 2) by (split; [apply Z.div_pos; lia|apply Z.div_lt_upper_bound; lia]). specialize (Hp ltac:(apply list_elem_of_In, elem_of_zrange; lia)). cbn beta in Hp.
    pose proof (partner t ltac:(lia)) as HPt. set (q := t / 2) in *. clearbody q.
    destruct HPt as [[P1 P2]|[P1 P2]]; rewrite P2; (split; [lia|]); rewrite P1 in Hno; rewrite Hno in Hp; [done|by rewrite orb_false_r in Hp]. }
  eapply stays_bind; [apply stays_mirror_read; [done|exists (Z.lxor t 1); split; [left|by apply ok_held]|by constructor|done..]|].
  intros b Hb. eapply stays_bind; [exact IH|]. intros ws Hws. apply stays_pure. eexists. split; [done|]. constructor; [|done]. split; [by apply rebuilding_place|done].
Qed.
Lemma strip_filled s n t st : parity_set a0 -> 0 <= t < n_members a0 -> Forall (filled n) (ss_data st) -> length (ss_data st) = Z.to_nat (Layout.data_count g) ->
  filled n (ss_p st) /\ (raid6 g = true -> filled n (default None (ss_q st))) -> buf_ok n (strip_of g s t st).
Proof using Hw0.
  intros Hpar Ht HF Hl [(p & Ep & Hp) Hq]. unfold strip_of. destruct (Layout.role_of g s t) as [d| |] eqn:Er.
  - destruct (data_of_role g s t d (g_ok a0 Hw0 Hpar) Ht Er) as [Hd _]. destruct (lookup_lt_is_Some_2 (ss_data st) (Z.to_nat d) ltac:(lia)) as (o & Eo). rewrite Eo.
    by destruct (Forall_lookup_1 _ _ _ _ HF Eo) as (b & -> & Hb).
  - by rewrite Ep.
  - by destruct (Hq (role_q a0 s t Er)) as (b & -> & Hb).
Qed.
Lemma stays_rebuild_unit targets key : Forall rebuilding targets -> 0 <= key -> key * lock_unit a0 < dsize a0 -> stays (rebuild_unit cpu simd targets key) (fine (fun _ => True)).
Proof using Hw0.
  intros HT Hk Hd. destruct (unit_bounds key Hk Hd) as (B1 & B2 & B3). apply stays_look. intros a Ha. rewrite (still_lock a0 a Ha).
  apply stays_look. intros b Hb. replace (unit_len b key) with (unit_len a0 key) by (unfold unit_len; by rewrite (still_lock a0 b Hb), (still_dsize a0 b Hb)).
  apply stays_look. intros c Hc. set (live := filter _ targets). assert (Forall rebuilding live) as HL.
  { apply Forall_forall. intros t [_ Ht]%list_elem_of_filter. rewrite Forall_forall in HT. by apply HT. }
  destruct live as [|t0 ts] eqn:El; [apply stays_pure; by exists ()|]. rewrite <- El in *. clear El. apply stays_look. intros d Hdd. rewrite (still_geometry a0 d Hdd).
  apply (stays_bind a0 _ _ (Forall (fun w => in_place a0 (fst w) /\ buf_ok (unit_len a0 key) (snd w)))).
  2:{ intros ws Hws. eapply stays_seq; [by eapply stays_write_targets|]. intros _ _. apply stays_pure. by exists (). }
  change (Layout.level g) with (lvl a0).
  assert (parity_set a0 -> stays (let* strips := read_column g key 0 (unit_len a0 key) in
     match recover cpu simd (unit_len a0 key) strips with
     | Err _ => fail TooManyFailures | Ok None => fail Panic
     | Ok (Some st) => ret (map (fun t => (t, strip_of g key t st)) live) end) (fine (Forall (fun w => in_place a0 (fst w) /\ buf_ok (unit_len a0 key) (snd w))))) as HP.
  { intros Hpar. pose proof (lock_is_unit a0 Hpar) as Elu. pose proof (w_whole _ Hw0 (not_raid1 a0 Hpar)) as Hm. destruct (w_unit _ Hw0) as [Hu _].
    assert ((key + 1) * unit_size a0 <= dsize a0) by (rewrite Elu in Hd; apply Z.div_exact in Hm; [|lia]; set (q := dsize a0 / unit_size a0) in *; assert (key < q) by nia; nia).
    apply stays_recover; [done|done|done|done|done|done|unfold unit_len; rewrite Elu; lia|]. intros st H1 H2 H3. apply stays_pure. eexists. split; [done|]. apply Forall_map.
    eapply Forall_impl; [exact HL|]. intros t Ht. cbn. split; [by apply rebuilding_place|]. destruct Ht as (m & E & _). apply strip_filled; [done|by apply (member_range _ _ _ E)|done..]. }
  destruct (lvl a0) eqn:Elv; [|apply HP; by left|apply HP; by right|by apply stays_copies].
  apply stays_look. intros e He. rewrite (still_slots a0 e He). eapply stays_bind; [apply stays_mirror_read; [done| | |done..]|].
  - pose proof (w_intact _ Hw0) as Hi. unfold data_intact in Hi. rewrite Elv in Hi. apply existsb_exists in Hi as (m & Hin & Hok). apply list_elem_of_In, list_elem_of_lookup in Hin as (i & Hi).
    assert (member a0 (Z.of_nat i) = Some m) as E by (apply member_some; split; [lia|by rewrite Nat2Z.id]). assert (ok_at a0 (Z.of_nat i) = true) as Hoki by (unfold ok_at; by rewrite E).
    exists (Z.of_nat i). split; [|by apply ok_held]. apply list_elem_of_filter. split; [|apply elem_of_zrange; by apply (member_range _ _ _ E)].
    intros Hin. rewrite Forall_forall in HT. rewrite (rebuilding_not_ok _ (HT _ Hin)) in Hoki. done.
  - apply Forall_forall. intros i [_ Hi%elem_of_zrange]%list_elem_of_filter. lia.
  - intros bs Hbs. apply stays_pure. eexists. split; [done|]. apply Forall_map. eapply Forall_impl; [exact HL|]. intros t Ht. cbn. split; [by apply rebuilding_place|done].
Qed.
End Unit_.

(** ** The whole of it *)

Lemma foldl_alter_same {B} (h : Member -> B) (f : Member -> Member) ts : (forall m, h (f m) = h m) -> forall l : list Member, map h (foldl (fun l t => alter f (Z.to_nat t) l) l ts) = map h l.
Proof.
  intros H. induction ts as [|t ts IH]; intros l; [done|]. cbn [foldl]. rewrite IH. change (h <$> alter f (Z.to_nat t) l = h <$> l). apply list_eq. intros i. rewrite !list_lookup_fmap, list_lookup_alter.
  case_decide as E; [rewrite E|done]. destruct (l !! i) as [m|]; [|done]. cbn. f_equal. apply H.
Qed.
Lemma sound_devices a a' : map device (members a') = map device (members a) -> sound a -> sound a'.
Proof.
  unfold sound. intros E H. apply (Forall_map device (fun o => forall d, o = Some d -> faults d = [])). rewrite E. by apply Forall_map.
Qed.
(** Who serves, and who is being rebuilt. *)
Definition status (m : Member) : MemberState * bool := (state m, present m).
Lemma shape_status a a' : map shape (members a') = map shape (members a) -> map status (members a') = map status (members a).
Proof.
  generalize (members a), (members a'). intros l l' E. replace (map status l') with (map (fun s : MemberState * Z * bool => (s.1.1, s.2)) (map shape l')) by by rewrite map_map.
  rewrite E. by rewrite map_map.
Qed.
Lemma status_member a a' i m : map status (members a') = map status (members a) -> member a i = Some m -> exists m', member a' i = Some m' /\ status m' = status m.
Proof.
  intros E [Hi Hm]%member_some. assert ((status <$> members a') !! Z.to_nat i = Some (status m)) as H by (change (map status (members a') !! Z.to_nat i = Some (status m)); rewrite E; change (map status (members a)) with (status <$> members a); by rewrite list_lookup_fmap, Hm).
  rewrite list_lookup_fmap in H. destruct (members a' !! Z.to_nat i) as [m'|] eqn:E'; [|done]. exists m'. split; [by apply member_some|]. cbn in H. congruence.
Qed.
Lemma still_refl a : sound a -> Still a a.
Proof. intros H. split; [exists nowhere; apply evolves_refl|done|done]. Qed.

Section Whole.
Context (cpu : arch) (simd : SimdLevel) (crc32c : bytes -> Z).

Lemma batch_answers a targets key end_key : wf a -> sound a -> Forall (rebuilding a) targets -> 0 <= key -> (end_key - 1) * lock_unit a < dsize a ->
  let '(r, a') := rebuild_batch cpu simd crc32c targets key end_key a in
  r = Ok () /\ exists b, Still a b /\
    a' = snd (persist_if_dirty crc32c (set_members (foldl (fun l t => alter (advance (Z.min (end_key * lock_unit b) (dsize b))) (Z.to_nat t) l) (members b) targets) b)).
Proof.
  intros Hw Hs HT Hk He. unfold rebuild_batch. unfold seq at 1.
  destruct (stays_each a (rebuild_unit cpu simd targets) (fun _ r => r = Ok ()) (zrange key end_key)) with (a := a) as [H1 H2]; [|by apply still_refl|].
  - intros k Hkr%elem_of_zrange. eapply stays_mono; [|apply stays_rebuild_unit; [done|done|lia|]].
    + by intros r ([] & -> & _).
    + pose proof (lock_unit_pos a Hw). assert (k * lock_unit a <= (end_key - 1) * lock_unit a) by (apply Z.mul_le_mono_nonneg_r; lia). lia.
  - destruct (each _ _ a) as [rs b]. cbn [fst snd] in H1, H2. assert (first_err rs = Ok ()) as ->.
    { clear -H2. induction H2 as [|k r l rs -> _ IH]; [done|]. exact IH. }
    unfold seq, modify, ret, pure. set (c := set_members _ b). destruct (persist_if_dirty crc32c c) as [x d] eqn:Ed. split; [done|]. exists b. split; [done|]. fold c. by rewrite Ed.
Qed.
Lemma holds_nothing a : wf a -> Holds a (fun _ => 0) (fun _ => True).
Proof. intros H. split; [done|done|]. intros k Hk. by destruct Hk. Qed.
Lemma foldl_member (f : Member -> Member) ts b i m : NoDup ts -> Forall (fun t => 0 <= t) ts -> member b i = Some m ->
  member (set_members (foldl (fun l t => alter f (Z.to_nat t) l) (members b) ts) b) i = Some (if decide (i ∈ ts) then f m else m).
Proof.
  intros Hn HF [Hi E]%member_some. apply member_some. split; [done|]. cbn. rewrite foldl_alter, Z2Nat.id, E by done. by case_decide.
Qed.
Lemma advance_wf b ts end_ : wf b -> NoDup ts -> Forall (fun t => 0 <= t) ts -> 0 <= end_ <= dsize b -> (end_ mod lock_unit b = 0 \/ end_ = dsize b) ->
  wf (set_members (foldl (fun l t => alter (advance end_) (Z.to_nat t) l) (members b) ts) b).
Proof.
  intros Hw Hn HF He Hm. eapply (holds_marks b (fun _ => 0) (fun _ => True)); [by apply holds_nothing|apply length_foldl_alter|].
  intros i m E. pose proof (foldl_member (advance end_) ts b i m Hn HF E) as E'. apply member_some in E' as [_ E']. eexists. split; [exact E'|].
  case_decide; [|split_and!; [done..|intros Hs; by apply (w_mark _ Hw i m E)|by left]]. destruct (advance_state end_ m) as (A1 & A2 & A3 & A4 & _).
  split_and!; [done|done|by rewrite A4| |by intros x _ []]. rewrite A1. intros Hs. unfold advance. case_bool_decide; [|done]. cbn [andb].
  destruct (Z.ltb_spec (rebuilt_to m) end_); [done|]. by apply (w_mark _ Hw i m E).
Qed.
(** After a batch the set is as it was, but for its data and its marks. *)
Lemma batch_ready a v torn targets key end_key : Holds a v torn -> Task a targets key -> sound a -> Forall (rebuilding a) targets -> key <= end_key -> (end_key - 1) * lock_unit a < dsize a ->
  let '(r, a') := rebuild_batch cpu simd crc32c targets key end_key a in
  r = Ok () /\ sound a' /\ map status (members a') = map status (members a).
Proof.
  intros Hh Ht Hs HT Hke He. pose proof (h_wf _ _ _ Hh) as Hw. pose proof (batch_answers a targets key end_key Hw Hs HT (t_key _ _ _ Ht) He) as HB.
  destruct (rebuild_batch cpu simd crc32c targets key end_key a) as [r a']. destruct HB as (Hr & b & Hb & Hc). split; [done|]. set (c := set_members _ b) in Hc.
  assert (map status (members c) = map status (members b)) as Sc.
  { apply foldl_alter_same. intros m. destruct (advance_state (Z.min (end_key * lock_unit b) (dsize b)) m) as (A1 & _ & _ & _ & A2). unfold status. by rewrite A1, A2. }
  assert (sound c) as Hsc.
  { apply (sound_devices b c); [|apply Hb]. apply foldl_alter_same. intros m. by destruct (advance_state (Z.min (end_key * lock_unit b) (dsize b)) m) as (_ & A1 & _). }
  assert (wf c) as Hwc.
  { pose proof (still_wf a Hw b Hb) as Hwb. pose proof (lock_unit_pos b Hwb) as Hlu. pose proof (t_key _ _ _ Ht). destruct (w_unit _ Hwb) as [_ Hd].
    apply advance_wf; [done|apply Ht|eapply Forall_impl; [apply Ht|]; cbn; lia| |]; destruct (Z.min_spec (end_key * lock_unit b) (dsize b)) as [[M1 ->]|[M1 ->]]; [nia|lia|left; by apply Z_mod_mult|by right]. }
  destruct (stays_persist crc32c c Hwc c (still_refl c Hsc)) as [Hd _]. rewrite <- Hc in Hd. split; [apply Hd|].
  rewrite (shape_status _ _ (st_shape _ _ Hd)), Sc. by apply shape_status, Hb.
Qed.
Lemma stays_flush_targets a0 ts : wf a0 -> stays a0 (flush_targets ts) (fun _ => True).
Proof.
  intros Hw. induction ts as [|t ts IH]; cbn [flush_targets]; [by apply stays_pure|]. apply stays_look. intros a Ha. eapply stays_seq; [|intros _ _; exact IH].
  destruct (from_option present false (member a t)) eqn:E; [|by apply (stays_pure a0 () (fun _ => True))]. destruct (member a t) as [m|] eqn:Em; [|done]. cbn in E.
  destruct (same_set_member_rev _ _ _ _ (still_same a0 a Ha) Em) as (m0 & E0). destruct (still_member a0 a t m0 Ha E0) as (m' & E' & Sh). assert (m' = m) as -> by congruence.
  eapply stays_seq; [apply stays_fl; [done|]|].
  - exists m0. split; [done|]. pose proof (f_equal snd Sh) as P. change (present m = present m0) in P. congruence.
  - intros r ([] & -> & _). by apply (stays_pure a0 () (fun _ => True)).
Qed.
(** After the end the slots serve. *)
Definition finished (ts : list Z) (a a' : RaidArray) : Prop :=
  forall i m, member a i = Some m -> exists m', member a' i = Some m' /\ status m' = (if decide (i ∈ ts) then Active else state m, present m).
Lemma finish_ready a v torn ts key : Holds a v torn -> Task a ts key -> sound a -> Forall (rebuilding a) ts -> dsize a <= key * lock_unit a ->
  let '(_, a') := rebuild_finish crc32c ts a in sound a' /\ finished ts a a'.
Proof.
  intros Hh Ht Hs HT Hd. pose proof (h_wf _ _ _ Hh) as Hw. unfold rebuild_finish. unfold seq at 1. destruct (stays_flush_targets a ts Hw a (still_refl a Hs)) as [Hb _].
  destruct (flush_targets ts a) as [x b]. cbn [snd] in Hb. unfold seq, modify. set (c0 := set_members _ b). set (c := set_events _ _ c0).
  assert (Forall (fun t => 0 <= t) ts) as H0 by (eapply Forall_impl; [apply Ht|]; cbn; lia). destruct Hb as [[W Eb] Sb Mb].
  assert (forall i m, member b i = Some m -> member c i = Some (if decide (i ∈ ts) then activate m else m)) as Hmem by (intros i m; apply foldl_member; [apply Ht|done]).
  assert (sound c) as Hsc by (apply (sound_devices b c); [|done]; apply foldl_alter_same; intros m; apply activate_state).
  assert (wf c) as Hwc.
  { apply (wf_evolves nowhere c0 c); [by apply evolves_same_members|]. eapply (holds_marks b (fun _ => 0) (fun _ => True)); [apply holds_nothing; by eapply wf_evolves|apply length_foldl_alter|].
    intros i m E. pose proof (Hmem i m E) as E'. apply member_some in E' as [_ E']. eexists. split; [exact E'|]. case_decide.
    - destruct (activate_state m) as (A1 & A2 & A3 & A4 & A5). split_and!; [done..|by intros Hx|by intros y _ []].
    - split_and!; [done..| |by left]. intros Hsm. by apply (w_mark _ (wf_evolves _ _ _ Eb Hw) i m E). }
  destruct (stays_write_superblocks crc32c c Hwc c (still_refl c Hsc)) as [Hdd _]. destruct (write_superblocks crc32c c) as [r d]. cbn [snd] in Hdd. split; [apply Hdd|].
  intros i m E. destruct (status_member a b i m (shape_status _ _ Mb) E) as (mb & E1 & S1). pose proof (Hmem i mb E1) as E2.
  destruct (status_member c d i _ (shape_status _ _ (st_shape _ _ Hdd)) E2) as (md & E3 & S3). exists md. split; [done|]. rewrite S3.
  assert (state mb = state m) as Es by apply (f_equal fst S1). assert (present mb = present m) as Ep by apply (f_equal snd S1). case_decide as Hi.
  - rewrite Forall_forall in HT. destruct (HT i Hi) as (m1 & E4 & Es1 & _). assert (m1 = m) as -> by congruence. unfold activate, status. rewrite Es, Es1. cbn. by rewrite <- Ep.
  - unfold status. by rewrite Es, Ep.
Qed.
Lemma rebuilding_status a a' t : map status (members a') = map status (members a) -> rebuilding a t -> rebuilding a' t.
Proof.
  intros E (m & Em & Es & Ep). destruct (status_member a a' t m E Em) as (m' & Em' & S). exists m'. split_and!; [done| |].
  - rewrite <- Es. apply (f_equal fst S).
  - rewrite <- Ep. apply (f_equal snd S).
Qed.

Lemma loop_ends unit_of D b ts : forall fuel key w, Stands unit_of w D -> sound (arr w) -> task w = Some (ts, key) -> Forall (rebuilding (arr w)) ts ->
  (Z.to_nat (div_ceil (dsize (arr w)) (lock_unit (arr w)) - key) < fuel)%nat ->
  let w' := rebuild_loop cpu simd crc32c fuel b w in task w' = None /\ Stands unit_of w' D /\ finished ts (arr w) (arr w').
Proof.
  induction fuel as [|fuel IH]; intros key w Hs Hso Et HT Hf; [lia|]. cbn [rebuild_loop]. rewrite Et. pose proof (turn_stands cpu simd crc32c unit_of w D b Hs) as Hs'.
  pose proof (s_holds _ _ _ Hs) as Hh. pose proof (s_task _ _ _ Hs ts key Et) as Ht. pose proof (lock_unit_pos _ (h_wf _ _ _ Hh)) as Hl. unfold rebuild_turn in *. rewrite Et in *.
  destruct (Z.ltb_spec key (div_ceil (dsize (arr w)) (lock_unit (arr w)))) as [Hk|Hk].
  - destruct (batch_end_ok (arr w) b key Hl Hk) as [B1 B2]. set (e := batch_end _ _ _) in *. pose proof (batch_ready (arr w) _ _ ts key e Hh Ht Hso HT ltac:(lia) B2) as HB.
    pose proof (batch_spec cpu simd crc32c (arr w) _ _ ts key e Hh Ht ltac:(lia) B2) as HS.
    destruct (rebuild_batch cpu simd crc32c ts key e (arr w)) as [r a]. destruct HB as (-> & Ha & Est). destruct HS as (_ & HS & _).
    assert (dsize a = dsize (arr w)) as Ed by apply HS. assert (lock_unit a = lock_unit (arr w)) as El by (unfold lock_unit; by rewrite (ss_lvl _ _ HS), (ss_unit _ _ HS)).
    destruct (IH e (mkWorld a (Some (ts, e))) Hs' Ha eq_refl) as (I1 & I2 & I3).
    + eapply Forall_impl; [exact HT|]. intros t. by apply rebuilding_status.
    + cbn [arr]. rewrite Ed, El. lia.
    + split_and!; [done|done|]. intros i m E. destruct (status_member (arr w) a i m Est E) as (m1 & E1 & S1). destruct (I3 i m1 E1) as (m' & E' & S'). exists m'. split; [done|]. rewrite S'.
      assert (state m1 = state m) as -> by apply (f_equal fst S1). by assert (present m1 = present m) as -> by apply (f_equal snd S1).
  - pose proof (div_ceil_mul (dsize (arr w)) (lock_unit (arr w)) Hl). pose proof (finish_ready (arr w) _ _ ts key Hh Ht Hso HT ltac:(nia)) as HF.
    destruct (rebuild_finish crc32c ts (arr w)) as [r a]. destruct HF as [_ HF]. cbn [snd] in *.
    assert (rebuild_loop cpu simd crc32c fuel b (mkWorld a None) = mkWorld a None) as -> by by destruct fuel. by split_and!.
Qed.
End Whole.
