(* ===== verification/RaidCreate.v ===== *)
(** Making a RAID set: [RaidArray::create_with], and what a new set holds. *)

From S2P Require Import Prelude Gf256 Parity ParityKernels ParityRecover RaidLayout IntentBitmap IntentLaws RaidSuper RaidArray RaidFrame RaidModel.
#[local] Open Scope raid_scope.

(** A drive, and what tells it from the others: its uuid and path. *)
Record CreateOptions := mkOptions { o_level : RaidLevel; o_members : list (Device * (bytes * bytes)); o_stripe_size : option Z; o_name : bytes; o_pool : bytes }.

Definition min_capacity (l : list Device) : Z :=
  match map (fun d => zlen (content d)) l with [] => 0 | c :: r => foldr Z.min c r end.
Definition new_member (d : Device) (u : bytes) : Member := mkMember (Some d) Active u 0 false 0.

Section Create.
Context (crc32c : bytes -> Z).

(** [build]. *)
Definition build (id : bytes) (l : RaidLevel) (stripe_size data_size create_time : Z) (name pool : bytes) (ms : list Member) (events : Z) : RaidArray :=
  let align := if bool_decide (l = Layout.Raid1) then MIRROR_UNIT else stripe_size in
  let '(chunk, bits, nbytes) := Intent.geometry data_size align in
  mkRaid l stripe_size data_size (Layout.capacity (Layout.mkGeometry l (zlen ms) stripe_size) data_size) ms events false
    (Intent.new chunk bits nbytes) false 0 (mkInfo id create_time name pool) create_time.
(** [id], [uuids] and [now] are the fresh identifiers and the time. *)
Definition create_with (id : bytes) (uuids : list bytes) (now : Z) (o : CreateOptions) : result RaidError RaidArray :=
  let l := o_level o in
  let count := zlen (o_members o) in
  let drives := map fst (o_members o) in
  if count <? min_members l then Err (InsufficientMembers (min_members l) count)
  else if bool_decide (l = Layout.Raid10) && negb (count mod 2 =? 0) then Err InvalidStripe
  else if MAX_SLOTS <? count then Err InvalidStripe
  else
    let? _ := check_name (o_name o) in
    let? _ := check_name (o_pool o) in
    let stripe_size := default DEFAULT_STRIPE_SIZE (o_stripe_size o) in
    if (stripe_size <? 4096) || negb (stripe_size mod 4096 =? 0) then Err InvalidStripe
    else if negb (bool_decide (NoDup (map snd (o_members o)))) then Err InvalidStripe
    else if min_capacity drives <=? DATA_OFFSET + stripe_size then Err OutOfRange
    else
      let raw := min_capacity drives - DATA_OFFSET in
      let data_size := if bool_decide (l = Layout.Raid1) then raw / 4096 * 4096 else raw / stripe_size * stripe_size in
      let a := build id l stripe_size data_size now (o_name o) (o_pool o) (zip_with new_member drives uuids) 1 in
      let '(r, a) := (try _ := zero_bitmaps None in write_superblocks crc32c) a in
      match r with
      | Err e => Err e
      | Ok _ => if 0 <? failed_count a then Err TooManyFailures else Ok a
      end.

(** ** What is made *)

(** The arguments as their types have them, and identifiers for every member. *)
Record made_from (id : bytes) (uuids : list bytes) (o : CreateOptions) : Prop := {
  mf_id : zlen id = 16;
  mf_uuids : length uuids = length (o_members o) /\ Forall (fun u => zlen u = 16) uuids;
  mf_drives : Forall (fun m => all_bytes (content (fst m))) (o_members o) }.
(** Drives with nothing on them where the data goes. *)
Definition blank (o : CreateOptions) : Prop := Forall (fun m => forall x, DATA_OFFSET <= x -> at_byte (content (fst m)) x = 0) (o_members o).

Lemma fold_min_le l : forall c, foldr Z.min c l <= c /\ forall x, x ∈ l -> foldr Z.min c l <= x.
Proof.
  induction l as [|y l IH]; intros c; cbn [foldr]; [split; [done|by intros x ?%elem_of_nil]|]. destruct (IH c) as [H1 H2]. split; [lia|].
  intros x [->|Hx]%elem_of_cons; [lia|]. specialize (H2 x Hx). lia.
Qed.
Lemma min_capacity_le l d : d ∈ l -> min_capacity l <= zlen (content d).
Proof.
  unfold min_capacity. destruct l as [|d0 l]; [by intros ?%elem_of_nil|]. cbn [map]. destruct (fold_min_le (map (fun d => zlen (content d)) l) (zlen (content d0))) as [H1 H2].
  intros [->|Hd]%elem_of_cons; [done|]. apply H2, list_elem_of_fmap. by exists d.
Qed.
Lemma built_member drives uuids i m : zip_with new_member drives uuids !! i = Some m -> exists d u, drives !! i = Some d /\ uuids !! i = Some u /\ m = new_member d u.
Proof. intros H. apply lookup_zip_with_Some in H as (d & u & -> & H1 & H2). by exists d, u. Qed.
Definition created (id : bytes) (l : RaidLevel) (ss ds now : Z) (name pool : bytes) (drives : list Device) (uuids : list bytes) : RaidArray :=
  build id l ss ds now name pool (zip_with new_member drives uuids) 1.
Lemma build_fields id l ss ds now name pool ms e : let a := build id l ss ds now name pool ms e in
  lvl a = l /\ unit_size a = ss /\ dsize a = ds /\ members a = ms /\ geometry a = Layout.mkGeometry l (zlen ms) ss /\
  capacity a = Layout.capacity (geometry a) ds /\ info a = mkInfo id now name pool /\ (0 <= ds -> 0 <= Intent.nbytes (bm a) <= Intent.BITMAP_MAX_BYTES).
Proof.
  unfold build. destruct (Intent.geometry ds _) as [[c b] n] eqn:E. cbn. split_and!; try done. intros Hd.
  destruct (geometry_bounds _ _ _ _ _ Hd E) as (_ & _ & _ & _ & _ & H). lia.
Qed.
Lemma all_ok_intact a : level_ok (lvl a) (n_members a) -> Forall (fun m => ok_member m = true) (members a) -> data_intact a = true.
Proof.
  intros Hl HF. assert (forall i, 0 <= i < n_members a -> ok_at a i = true) as Hok.
  { intros i Hi. destruct (member_of_range a i Hi) as (m & E). unfold ok_at. rewrite E. apply member_some in E as [_ E]. by apply (Forall_lookup_1 _ _ _ _ HF E). }
  assert (forall l, Forall (fun m => ok_member m = true) l -> count (fun m => negb (ok_member m)) l = 0) as Hc.
  { induction 1 as [|m l Hm _ IH]; [done|]. by rewrite count_cons, IH, Hm. }
  unfold data_intact. destruct (lvl a) eqn:El; cbn in Hl.
  - destruct (members a) as [|m l] eqn:Em; [unfold n_members in Hl; rewrite Em in Hl; done|]. cbn. apply Forall_cons in HF as [-> _]. done.
  - rewrite Hc by done. unfold Layout.tolerated, geometry. cbn. by rewrite El.
  - rewrite Hc by done. unfold Layout.tolerated, geometry. cbn. by rewrite El.
  - apply forallb_forall. intros p Hp%list_elem_of_In%elem_of_zrange. apply orb_true_iff. left. apply Hok. pose proof (Z.div_mod (n_members a) 2 ltac:(lia)). lia.
Qed.
Lemma created_wf id l ss ds now name pool drives uuids : zlen id = 16 -> length uuids = length drives -> Forall (fun u => zlen u = 16) uuids -> Forall (fun d => all_bytes (content d)) drives ->
  level_ok l (zlen drives) -> zlen drives <= MAX_SLOTS -> 0 < ss -> 0 <= ds -> (l <> Layout.Raid1 -> ds mod ss = 0) -> Forall (fun d => DATA_OFFSET + ds <= zlen (content d)) drives ->
  wf (created id l ss ds now name pool drives uuids).
Proof.
  intros Hid Hlen Hu Hd Hl Hm Hss Hds Hmod Hz. set (ms := zip_with new_member drives uuids). set (a := created _ _ _ _ _ _ _ _ _).
  destruct (build_fields id l ss ds now name pool ms 1) as (F1 & F2 & F3 & F4 & F5 & F6 & F7 & F8). change (build _ _ _ _ _ _ _ ms 1) with a in *.
  assert (n_members a = zlen drives) as En by (unfold n_members; rewrite F4; unfold ms, zlen; rewrite length_zip_with; lia).
  assert (forall i m, member a i = Some m -> exists d u, d ∈ drives /\ u ∈ uuids /\ m = new_member d u) as Hmem.
  { intros i m [_ E]%member_some. rewrite F4 in E. destruct (built_member _ _ _ _ E) as (d & u & E1 & E2 & ->). exists d, u. split_and!; [by eapply list_elem_of_lookup_2..|done]. }
  rewrite Forall_forall in Hu. rewrite Forall_forall in Hd. rewrite Forall_forall in Hz. split.
  - by rewrite F1, En.
  - by rewrite F2, F3.
  - by rewrite F1, F2, F3.
  - by rewrite F3.
  - rewrite F7. split; [done|]. intros i m E. destruct (Hmem i m E) as (d & u & _ & H & ->). by apply Hu.
  - change (DATA_OFFSET - Intent.BITMAP_OFFSET) with Intent.BITMAP_MAX_BYTES. by apply F8.
  - intros i m d E D. destruct (Hmem i m E) as (d' & u & H & _ & ->). cbn in D. injection D as <-. rewrite F3. split; [by apply Hz|]. intros x _. by apply at_byte_byte, Hd.
  - intros i m E Es. destruct (Hmem i m E) as (d' & u & H & _ & ->). done.
  - apply all_ok_intact; [by rewrite F1, En|]. apply Forall_lookup_2. intros i m E. rewrite F4 in E. by destruct (built_member _ _ _ _ E) as (d & u & _ & _ & ->).
Qed.

(** *** What it holds *)

Lemma zero_sums l : xsum (map (fun _ => 0) l : list Z) = 0 /\ horner (map (fun _ : Z => 0) l) = 0.
Proof.
  induction l as [|x l [I1 I2]]; [done|]. cbn [map]. split; [by rewrite xsum_cons, I1|]. unfold horner in *. cbn [foldr]. rewrite I2. by vm_compute.
Qed.
Lemma expected_zero g i x : expected g (fun _ => 0) i x = 0.
Proof.
  unfold expected, column. destruct (zero_sums (zrange 0 (Layout.data_count g))) as [H1 H2]. destruct (Layout.level g); [done| | |done]; by destruct (Layout.role_of g _ i).
Qed.
(** The size of a member's data. *)
Definition size_for (l : RaidLevel) (ss raw : Z) : Z := if bool_decide (l = Layout.Raid1) then raw / 4096 * 4096 else raw / ss * ss.
Lemma size_for_ok l ss raw : 0 < ss -> 0 <= raw -> 0 <= size_for l ss raw <= raw /\ (l <> Layout.Raid1 -> size_for l ss raw mod ss = 0).
Proof.
  intros Hs Hr. assert (forall k, 0 < k -> 0 <= raw / k * k <= raw) as H.
  { intros k Hk. pose proof (Z.mul_div_le raw k Hk). pose proof (Z.div_pos raw k Hr Hk). nia. }
  unfold size_for. case_bool_decide as E; [split; [by apply H|done]|]. split; [by apply H|]. intros _. by apply Z_mod_mult.
Qed.
Lemma level_counts l n : min_members l <= n -> (l = Layout.Raid10 -> n mod 2 = 0) -> level_ok l n.
Proof. destruct l; cbn; intros H1 H2; [lia..|]. split; [lia|by apply H2]. Qed.

Lemma create_spec id uuids now o a : made_from id uuids o -> create_with id uuids now o = Ok a ->
  exists b, evolves nowhere b a /\ wf b /\ failed_count a = 0 /\ members b = zip_with new_member (map fst (o_members o)) uuids.
Proof.
  intros [Hid [Hlen Hu] Hd]. unfold create_with. set (l := o_level o). set (drives := map fst (o_members o)). assert (zlen drives = zlen (o_members o)) as Ez by (unfold zlen, drives; by rewrite length_map).
  destruct (Z.ltb_spec (zlen (o_members o)) (min_members l)) as [|H1]; [done|]. destruct (bool_decide _ && _) eqn:H2; [done|].
  destruct (Z.ltb_spec MAX_SLOTS (zlen (o_members o))) as [|H3]; [done|]. destruct (check_name (o_name o)); [|done]. destruct (check_name (o_pool o)); [|done]. cbn [rbind].
  cbv zeta. set (ss := default DEFAULT_STRIPE_SIZE (o_stripe_size o)) in |- *. clearbody ss. destruct (_ || _) eqn:H4; [done|]. apply orb_false_iff in H4 as [H4 _]. apply Z.ltb_ge in H4.
  destruct (negb (bool_decide (NoDup _))); [done|].
  destruct (Z.leb_spec (min_capacity drives) (DATA_OFFSET + ss)) as [|H5]; [done|]. fold (size_for l ss (min_capacity drives - DATA_OFFSET)). set (ds := size_for l ss _).
  destruct (size_for_ok l ss (min_capacity drives - DATA_OFFSET) ltac:(lia) ltac:(lia)) as [S1 S2]. fold ds in S1, S2. fold (created id l ss ds now (o_name o) (o_pool o) drives uuids). set (b := created _ _ _ _ _ _ _ _ _).
  assert (wf b) as Hw.
  { apply created_wf; [done|by unfold drives; rewrite length_map|done| | |by rewrite Ez|lia|lia|done|].
    - unfold drives. by apply Forall_map.
    - rewrite Ez. apply level_counts; [done|]. intros E. rewrite bool_decide_true in H2 by done. cbn in H2. by apply negb_false_iff, Z.eqb_eq in H2.
    - apply Forall_forall. intros d Hin. pose proof (min_capacity_le drives d Hin). lia. }
  pose proof (keeps_then nowhere (zero_bitmaps None) (fun _ => write_superblocks crc32c) (keeps_zero_bitmaps nowhere None) (fun _ => keeps_write_superblocks crc32c nowhere) b Hw) as Hk.
  destruct (bind _ _ b) as [[x|e] a'] eqn:Eb; [|done]. cbn [snd] in Hk. destruct (Z.ltb_spec 0 (failed_count a')) as [|Hf]; [done|]. intros E. apply (inj Ok) in E. subst a'.
  exists b. split_and!; [done|done| |].
  - pose proof (count_le (fun m => bool_decide (state m = Failed)) (members a)) as [Hc _]. unfold failed_count in *. lia.
  - apply (build_fields id l ss ds now (o_name o) (o_pool o)).
Qed.
(** What a set made of [o] holds at first: nothing certain, but for blank drives zeros. *)
Lemma create_holds id uuids now o a : made_from id uuids o -> create_with id uuids now o = Ok a ->
  Holds a (fun _ => 0) (fun _ => ~ blank o) /\ forall i m, member a i = Some m -> state m = Active.
Proof.
  intros Hm E. destruct (create_spec id uuids now o a Hm E) as (b & Hev & Hw & Hf & Eb). split.
  - apply (holds_nowhere b); [done|]. split; [done|done|]. intros k Hk i x Hi Hx _ _. rewrite expected_zero. unfold val. destruct (member b i) as [m|] eqn:Em; [|done]. cbn.
    apply member_some in Em as [_ Em]. rewrite Eb in Em. destruct (built_member _ _ _ _ Em) as (d & u & E1 & _ & ->). unfold val_of, dbyte. cbn.
    change (map fst (o_members o)) with (fst <$> o_members o) in E1. rewrite list_lookup_fmap in E1. destruct (o_members o !! Z.to_nat i) as [p|] eqn:Ep; [|done]. cbn in E1. injection E1 as <-.
    destruct (Z.eq_dec (at_byte (content p.1) (DATA_OFFSET + x)) 0) as [->|Hne]; [done|]. exfalso. apply Hk. intros Hb. apply Hne. unfold blank in Hb.
    apply (Forall_lookup_1 _ _ _ _ Hb Ep). lia.
  - intros i m Em. destruct (same_set_member_rev _ _ _ _ (ev_same _ _ _ Hev) Em) as (m0 & E0). destruct (ev_member _ _ _ Hev i m0 m E0 Em) as [_ _ St _ _ _].
    assert (state m0 = Active) as E1 by (apply member_some in E0 as [_ E0]; rewrite Eb in E0; by destruct (built_member _ _ _ _ E0) as (d & u & _ & _ & ->)).
    destruct St as [[St _]|St]; [congruence|]. exfalso. apply member_some in Em as [_ Em]. unfold failed_count, count in Hf.
    assert (m ∈ filter (fun x => bool_decide (state x = Failed) = true) (members a)) as Hin by (apply list_elem_of_filter; split; [by apply bool_decide_eq_true|by eapply list_elem_of_lookup_2]).
    destruct (filter _ (members a)); [by apply elem_of_nil in Hin|]. rewrite zlen_cons in Hf. pose proof (zlen_nonneg l). lia.
Qed.
End Create.
