(* ===== verification/RaidLaws.v ===== *)
(** What the RAID engine promises: a set of any level stands for a disk through every
    history; a new set is well made; reads of a degraded set are answered; a rebuild
    brings its members back; superblocks are read back. *)

From S2P Require Import Prelude Gf256 Parity ParityKernels ParityRecover RaidLayout IntentBitmap RaidSuper RaidArray RaidFrame RaidModel RaidStripe RaidWrite RaidParity RaidMirror RaidRebuild RaidHistory RaidAnswers RaidCreate.
#[local] Open Scope raid_scope.

(** ** Superblocks *)

(** C33. A superblock is written as exactly 4 KiB, and read back as it was: all its
    fields, its name and pool (any UTF-8 text of at most 64 bytes without a zero), and
    every slot of its table with its state, marks and the time it went missing; whatever
    checksum function is used. *)
Theorem superblock_roundtrip crc32c s : (forall b, u32_ok (crc32c b)) -> super_ok s ->
  exists b, to_bytes crc32c s = Some b /\ zlen b = SUPERBLOCK_BYTES /\ from_bytes crc32c b = Ok (Some s).
Proof.
  intros Hc Hs. assert (exists b, to_bytes crc32c s = Some b) as (b & E).
  { unfold to_bytes. destruct (so_slots s Hs) as [Hn _]. destruct (Z.ltb_spec MAX_SLOTS (zlen (slots s))); [lia|]. by eexists. }
  exists b. split_and!; [done| |by apply super_roundtrip]. eapply zlen_to_bytes; [| | |exact E]; [apply Hs..|].
  destruct (so_slots s Hs) as [_ HF]. eapply Forall_impl; [exact HF|]. intros r Hr. apply Hr.
Qed.

Definition sum32 (b : bytes) : Z := wrap 32 (foldr Z.add 0 b).
Definition sample_super : Superblock :=
  mkSuper (replicate 16 7) (replicate 16 9) (Some 1) (Some Layout.Raid6) 65536 1048576 (2 ^ 40) 1700000000 1700000001 42 65536 4096 (2 ^ 26)
    [112; 195; 188; 101] [] [mkSlot (replicate 16 9) Rebuilding 4096 false 0; mkSlot (replicate 16 8) Failed 0 true 41].
Lemma superblock_roundtrip_witness : exists b, to_bytes sum32 sample_super = Some b /\ zlen b = SUPERBLOCK_BYTES /\ from_bytes sum32 b = Ok (Some sample_super).
Proof.
  apply superblock_roundtrip.
  - intros b. apply wrap_range. lia.
  - split; [done|done|intros i [= <-]; by split| | | |]; repeat (constructor || done).
Defined.

(** ** A set to try things on *)

Definition sample_member (st : MemberState) : Member := mkMember (Some (mkDevice (zeros (DATA_OFFSET + 8)) [])) st (replicate 16 1) 0 false 0.
(** RAID-5 of three small drives, the third being rebuilt. *)
Definition sample_raid : RaidArray :=
  mkRaid Layout.Raid5 4 8 16 [sample_member Active; sample_member Active; sample_member Rebuilding] 1 false (Intent.new Intent.MIN_CHUNK 1 4096)
    false 0 (mkInfo (replicate 16 2) 0 [] []) 0.
Lemma sample_members i m : member sample_raid i = Some m -> m = sample_member Active \/ m = sample_member Rebuilding.
Proof.
  intros [Hi E]%member_some. cbn in E. destruct (Z.to_nat i) as [|[|[|k]]]; cbn in E; [left|left|right|done]; congruence.
Qed.
Lemma sample_byte st x : 0 <= x -> val_of (sample_member st) x = 0.
Proof.
  intros Hx. unfold val_of, sample_member, dbyte, at_byte. cbn [device from_option content]. rewrite nth_lookup. unfold zeros. destruct (replicate _ _ !! _) as [y|] eqn:E; [|done].
  by apply lookup_replicate in E as [-> _].
Qed.
Lemma sample_zlen : zlen (zeros (DATA_OFFSET + 8)) = DATA_OFFSET + 8.
Proof. by apply zlen_zeros. Qed.
Lemma sample_wf : wf sample_raid.
Proof.
  split; try done.
  - split; [done|]. intros i m [->| ->]%sample_members; done.
  - intros i m d Hm Hd. assert (d = mkDevice (zeros (DATA_OFFSET + 8)) []) as -> by (apply sample_members in Hm as [->| ->]; cbn [sample_member device] in Hd; congruence).
    cbn [content]. rewrite sample_zlen. split; [done|]. intros x [Hx _]. pose proof (sample_byte Active x Hx) as E. unfold val_of in E. cbn [sample_member device from_option] in E. by rewrite E.
  - intros i m [->| ->]%sample_members Es; [done|]. split; [done|by left].
Qed.
Lemma sample_holds : Holds sample_raid (fun _ => 0) (fun _ => False).
Proof.
  split; [apply sample_wf|done|]. intros k _ i x Hi Hx _ _. rewrite expected_zero. destruct (member_of_range _ _ Hi) as (m & E). unfold val. rewrite E. cbn [from_option].
  destruct Hx as [Hx _]. apply sample_members in E as [->| ->]; by apply sample_byte.
Qed.
Lemma sample_sound : sound sample_raid.
Proof. repeat constructor; intros d; cbn [sample_member device]; intros [= <-]; done. Qed.

(** ** Histories *)

(** C2. A set of any level, degraded or not, stands for a disk.  Through every sequence of
    reads, writes, flushes, drives failing (with any part of a failed write on them), slots
    being replaced, members added and removed, and turns of the rebuild task (started,
    cancelled, ended by an error or done) in which no slot of the running rebuild task is
    replaced and no member is removed while one runs ([ops_ok]), an acknowledged write is
    there for good, a write that failed leaves only the units it touched in doubt, a read
    gives the bytes of the disk wherever no unit it touches is in doubt, and members only
    leave service while the rest still makes out all the data.  The code does not refuse
    the two sequences left out: a slot replaced under its rebuild keeps the old mark, and a
    removal renumbers the slots the task holds. *)
Theorem raid_stands_for_a_disk cpu simd crc32c a v tn ops : Holds a v tn -> ops_ok cpu simd crc32c ops (mkWorld a None) ->
  let '(es, w) := run cpu simd crc32c ops (mkWorld a None) in
  exists D, disk_run (key_at a) (mkDisk v tn) es D /\ Holds (arr w) (bytes_at D) (torn D) /\ data_intact (arr w) = true.
Proof.
  intros Hh Ho. assert (Stands (key_at a) (mkWorld a None) (mkDisk v tn)) as Hs by by split.
  pose proof (run_stands cpu simd crc32c (key_at a) ops _ _ Hs Ho) as H. destruct (run cpu simd crc32c ops (mkWorld a None)) as [es w].
  destruct H as (D & HD & Hs'). exists D. split_and!; [done|apply Hs'|apply Hs'].
Qed.
(** Whatever the state, operations that do not name a slot of a rebuild are in order. *)
Definition plain_op (o : Op) : Prop :=
  match o with
  | Write off buf => 0 <= off /\ all_bytes buf
  | Read off n => 0 <= off /\ 0 <= n
  | Add d u => drive_typed d u
  | Replace _ _ _ | Remove _ => False
  | _ => True
  end.
Lemma plain_ops_ok cpu simd crc32c ops : Forall plain_op ops -> forall w, ops_ok cpu simd crc32c ops w.
Proof.
  induction 1 as [|o ops H _ IH]; intros w; [done|]. cbn [ops_ok]. split; [by destruct o|apply IH].
Qed.
Lemma sample_drive : drive_typed (mkDevice (zeros (DATA_OFFSET + 8)) []) (replicate 16 3).
Proof. split; [done|]. apply all_bytes_zeros. Qed.
Definition swap_ops : list Op := [Lose 2 true; Replace 2 (mkDevice (zeros (DATA_OFFSET + 8)) []) (replicate 16 3)].
Definition plain_ops : list Op :=
  [Write 2 [5; 6; 7]; Flush None; Spawn; Turn 0; Lose 0 false; Read 2 3; Turn 0; Checkpoint; Tick 9; Lose 1 true; Write 0 [1]; Spawn; Turn 0; Cancel; Read 0 16].
Lemma raid_stands_for_a_disk_witness :
  let '(es, w) := run X86_64 Generic sum32 (swap_ops ++ plain_ops) (mkWorld sample_raid None) in
  exists D, disk_run (key_at sample_raid) (mkDisk (fun _ => 0) (fun _ => False)) es D /\ Holds (arr w) (bytes_at D) (torn D) /\ data_intact (arr w) = true.
Proof.
  apply raid_stands_for_a_disk; [apply sample_holds|]. split; [exact I|]. split; [split; [apply sample_drive|intros ts key E; discriminate E]|].
  apply plain_ops_ok. repeat constructor; by cbn.
Defined.

(** C9. On drives that do not fail, a read within the capacity of a set gives the bytes it
    holds: with members lost up to what its level survives or still being rebuilt, the
    others make them out, and no member is failed for it. *)
Theorem degraded_reads_answer cpu simd crc32c a v tn off n : Holds a v tn -> sound a -> 0 <= off -> 0 <= n -> off + n <= capacity a ->
  (forall k, touched a off n k -> ~ tn k) ->
  let '(r, a') := read cpu simd crc32c off n a in
  r = Ok (tab n (fun j => v (off + j))) /\ Holds a' v tn /\ sound a' /\ map shape (members a') = map shape (members a).
Proof.
  intros Hh Hs Ho Hn Hc Ht. pose proof (read_holds cpu simd crc32c a v tn off n Hh Ho Hn) as HR.
  destruct (stays_read cpu simd crc32c a (h_wf _ _ _ Hh) off n Ho Hn Hc a (still_refl a Hs)) as [H1 (b & H2 & _)].
  destruct (read cpu simd crc32c off n a) as [r a']. cbn [fst snd] in *. destruct HR as [Hev HR]. subst r.
  split_and!; [f_equal; by apply HR|by eapply holds_nowhere|apply H1|apply H1].
Qed.
Lemma degraded_reads_answer_witness :
  let '(r, a') := read X86_64 Generic sum32 1 14 sample_raid in
  r = Ok (tab 14 (fun _ => 0)) /\ Holds a' (fun _ => 0) (fun _ => False) /\ sound a' /\ map shape (members a') = map shape (members sample_raid).
Proof.
  apply (degraded_reads_answer X86_64 Generic sum32 sample_raid (fun _ => 0) (fun _ => False) 1 14); [apply sample_holds|apply sample_sound|done|done|done|auto].
Defined.

(** C8. On drives that do not fail a rebuild ends, within as many batches as the set has
    units and one turn more whatever their size, and every member that was being rebuilt
    serves; the others are as they were, and the data is what it was. *)
Theorem rebuild_restores_redundancy cpu simd crc32c a v tn batch_bytes fuel : Holds a v tn -> sound a ->
  (Z.to_nat (div_ceil (dsize a) (lock_unit a)) < fuel)%nat ->
  let w := rebuild_loop cpu simd crc32c fuel batch_bytes (spawn_rebuild (mkWorld a None)) in
  task w = None /\ Holds (arr w) v tn /\
  forall i m, member a i = Some m -> exists m', member (arr w) i = Some m' /\ present m' = present m /\
    state m' = if bool_decide (state m = Rebuilding) && present m then Active else state m.
Proof.
  intros Hh Hs Hf. unfold spawn_rebuild. cbn [arr task]. rewrite orb_false_r.
  assert (forall w, w = mkWorld a None -> (forall i m, member a i = Some m -> bool_decide (state m = Rebuilding) && present m = false) ->
    let w := rebuild_loop cpu simd crc32c fuel batch_bytes w in task w = None /\ Holds (arr w) v tn /\ forall i m, member a i = Some m -> exists m', member (arr w) i = Some m' /\
    present m' = present m /\ state m' = if bool_decide (state m = Rebuilding) && present m then Active else state m) as Hnone.
  { intros w -> Hn. destruct fuel; cbn [rebuild_loop task]; (split_and!; [done|done|]); intros i m E; exists m; by rewrite (Hn i m E). }
  destruct (Z.eqb_spec (rebuilding_count a) 0) as [Hz|_].
  { apply Hnone; [done|]. intros i m E. apply not_true_is_false. intros [Hr _]%andb_true_iff. unfold rebuilding_count, count in Hz. apply member_some in E as [_ E].
    assert (m ∈ filter (fun x => bool_decide (state x = Rebuilding) = true) (members a)) as Hin by (apply list_elem_of_filter; split; [done|by eapply list_elem_of_lookup_2]).
    destruct (filter _ (members a)); [by apply elem_of_nil in Hin|]. rewrite zlen_cons in Hz. pose proof (zlen_nonneg l). lia. }
  destruct (rebuild_start a) as [[ts key]|] eqn:Er.
  - destruct (start_task a ts key (h_wf _ _ _ Hh) Er) as [Ht _].
    assert (ts = which (fun m => bool_decide (state m = Rebuilding) && present m) a) as Ets by (unfold rebuild_start in Er; destruct (which _ a); congruence).
    assert (Stands (key_at a) (mkWorld a (Some (ts, key))) (mkDisk v tn)) as Hst by (split; [done|done|]; cbn; by intros ts' key' [= <- <-]).
    assert (Forall (rebuilding a) ts) as HT.
    { rewrite Ets. apply Forall_forall. intros t Ht'. destruct (in_which _ _ _ Ht') as (_ & m & E & Hp). apply andb_true_iff in Hp as [Hp1%bool_decide_eq_true Hp2]. by exists m. }
    destruct (loop_ends cpu simd crc32c (key_at a) (mkDisk v tn) batch_bytes ts fuel key (mkWorld a (Some (ts, key))) Hst Hs eq_refl HT) as (L1 & L2 & L3).
    { cbn [arr]. pose proof (t_key _ _ _ Ht). lia. }
    split_and!; [done|apply L2|]. intros i m E. destruct (L3 i m E) as (m' & E' & Es). exists m'. split; [done|]. split; [exact (f_equal snd Es)|].
    change (state m') with (fst (status m')). rewrite Es. cbn [fst]. case_decide as Hi.
    + rewrite Ets in Hi. destruct (in_which _ _ _ Hi) as (_ & m1 & E1 & Hp). assert (m1 = m) as -> by congruence. by rewrite Hp.
    + destruct (bool_decide (state m = Rebuilding) && present m) eqn:Hp; [|done]. exfalso. apply Hi. rewrite Ets. apply list_elem_of_filter. rewrite E. split; [done|].
      apply elem_of_zrange. by apply (member_range _ _ _ E).
  - apply Hnone; [done|]. intros i m E. apply not_true_is_false. intros Hp. unfold rebuild_start in Er.
    assert (i ∈ which (fun m => bool_decide (state m = Rebuilding) && present m) a) as Hin; [|by destruct (which _ a); [apply elem_of_nil in Hin|]].
    apply list_elem_of_filter. rewrite E. split; [done|]. apply elem_of_zrange. by apply (member_range _ _ _ E).
Qed.
Lemma rebuild_restores_redundancy_witness :
  let w := rebuild_loop X86_64 Generic sum32 3 0 (spawn_rebuild (mkWorld sample_raid None)) in
  task w = None /\ Holds (arr w) (fun _ => 0) (fun _ => False) /\
  forall i m, member sample_raid i = Some m -> exists m', member (arr w) i = Some m' /\ present m' = present m /\
    state m' = if bool_decide (state m = Rebuilding) && present m then Active else state m.
Proof.
  apply (rebuild_restores_redundancy X86_64 Generic sum32 sample_raid (fun _ => 0) (fun _ => False) 0 3); [apply sample_holds|apply sample_sound|]. by_decide.
Defined.

(** ** New sets *)

(** C29. A set that [create_with] makes is well formed, whatever its level and drives, and
    every sequence of operations in which no slot of the running rebuild task is replaced
    and no member is removed while one runs ([ops_ok]) leaves it so: its members within
    their number for the level, its capacity the level's, every drive large enough, the
    marks of rebuilds on unit boundaries within the data, its bitmap within the space kept
    for it, and no more members out of service than the level survives. All its members
    serve at first; made of blank drives it reads as zeros. *)
Theorem new_set_is_well_made cpu simd crc32c id uuids now o a ops : made_from id uuids o -> create_with crc32c id uuids now o = Ok a ->
  ops_ok cpu simd crc32c ops (mkWorld a None) ->
  wf (arr (snd (run cpu simd crc32c ops (mkWorld a None)))) /\
  (forall i m, member a i = Some m -> state m = Active) /\ (blank o -> Holds a (fun _ => 0) (fun _ => False)).
Proof.
  intros Hm E Ho. destruct (create_holds crc32c id uuids now o a Hm E) as [Hh Ha].
  assert (Stands (key_at a) (mkWorld a None) (mkDisk (fun _ => 0) (fun _ => ~ blank o))) as Hs by by split.
  pose proof (run_stands cpu simd crc32c (key_at a) ops _ _ Hs Ho) as H. destruct (run cpu simd crc32c ops (mkWorld a None)) as [es w].
  destruct H as (D & _ & Hs'). split_and!; [apply Hs'|done|]. intros Hb. eapply holds_mono; [|exact Hh]. intros k Hk. by apply Hk.
Qed.

(** A creation that is in order is carried out. *)
Record in_order (o : CreateOptions) : Prop := {
  io_count : min_members (o_level o) <= zlen (o_members o) <= MAX_SLOTS /\ (o_level o = Layout.Raid10 -> zlen (o_members o) mod 2 = 0);
  io_names : zlen (o_name o) <= NAME_LEN /\ zlen (o_pool o) <= NAME_LEN;
  io_unit : 4096 <= default DEFAULT_STRIPE_SIZE (o_stripe_size o) /\ default DEFAULT_STRIPE_SIZE (o_stripe_size o) mod 4096 = 0;
  io_apart : NoDup (map snd (o_members o));
  io_room : DATA_OFFSET + default DEFAULT_STRIPE_SIZE (o_stripe_size o) < min_capacity (map fst (o_members o));
  io_sound : Forall (fun m => faults (fst m) = []) (o_members o) }.
Lemma create_answers crc32c id uuids now o : made_from id uuids o -> in_order o -> exists a, create_with crc32c id uuids now o = Ok a.
Proof.
  intros [Hid [Hlen Hu] Hd] [[[C1 C2] C3] [N1 N2] [U1 U2] HA HR HS]. unfold create_with. set (l := o_level o) in *. set (drives := map fst (o_members o)) in *. cbv zeta.
  set (ss := default DEFAULT_STRIPE_SIZE (o_stripe_size o)) in *. assert (zlen drives = zlen (o_members o)) as Ez by (unfold zlen, drives; by rewrite length_map).
  destruct (Z.ltb_spec (zlen (o_members o)) (min_members l)); [lia|].
  assert (bool_decide (l = Layout.Raid10) && negb (zlen (o_members o) mod 2 =? 0) = false) as ->.
  { destruct (bool_decide_reflect (l = Layout.Raid10)) as [El|]; [|done]. by rewrite C3. }
  destruct (Z.ltb_spec MAX_SLOTS (zlen (o_members o))); [lia|]. unfold check_name. destruct (Z.ltb_spec NAME_LEN (zlen (o_name o))); [lia|]. destruct (Z.ltb_spec NAME_LEN (zlen (o_pool o))); [lia|]. cbn [rbind].
  clearbody ss. destruct (Z.ltb_spec ss 4096); [lia|]. rewrite U2. cbn [Z.eqb negb orb]. rewrite bool_decide_true by done. cbn [negb].
  destruct (Z.leb_spec (min_capacity drives) (DATA_OFFSET + ss)); [lia|]. fold (size_for l ss (min_capacity drives - DATA_OFFSET)). set (ds := size_for l ss _).
  destruct (size_for_ok l ss (min_capacity drives - DATA_OFFSET) ltac:(lia) ltac:(lia)) as [S1 S2]. fold ds in S1, S2. fold (created id l ss ds now (o_name o) (o_pool o) drives uuids). set (b := created _ _ _ _ _ _ _ _ _).
  assert (wf b) as Hw.
  { apply created_wf; [done|by unfold drives; rewrite length_map|done| |by rewrite Ez; apply level_counts|by rewrite Ez|lia|lia|done|].
    - unfold drives. by apply Forall_map.
    - apply Forall_forall. intros d Hin. pose proof (min_capacity_le drives d Hin). lia. }
  assert (members b = zip_with new_member drives uuids) as Eb by apply (build_fields id l ss ds now (o_name o) (o_pool o)).
  assert (Forall (fun m => sound_drive m /\ state m = Active) (members b)) as HF.
  { rewrite Eb. apply Forall_lookup_2. intros i m Hi. destruct (built_member _ _ _ _ Hi) as (d & u & E1 & _ & ->). split; [|done]. intros d' [= <-].
    unfold drives in E1. change (map fst (o_members o)) with (fst <$> o_members o) in E1. rewrite list_lookup_fmap in E1. destruct (o_members o !! i) as [p|] eqn:Ep; [|done].
    cbn in E1. injection E1 as <-. apply (Forall_lookup_1 _ _ _ _ HS Ep). }
  assert (sound b) as Hs by (eapply Forall_impl; [exact HF|]; by intros m []).
  assert (stays b (try _ := zero_bitmaps None in write_superblocks crc32c) (fine (fun _ => True))) as Hst.
  { eapply stays_bind; [by apply stays_zero_bitmaps|]. intros _ _. by apply stays_write_superblocks. }
  destruct (Hst b (still_refl b Hs)) as [Ha ([] & Hr & _)]. destruct (bind _ _ b) as [r a]. cbn [fst snd] in *. subst r.
  assert (failed_count a = 0) as ->; [|by exists a]. unfold failed_count. assert (map status (members a) = map status (members b)) as Est by apply shape_status, Ha.
  unfold count. destruct (filter _ (members a)) as [|m l0] eqn:Ef; [done|]. exfalso.
  assert (m ∈ filter (fun m => bool_decide (state m = Failed) = true) (members a)) as Hin by (rewrite Ef; left). apply list_elem_of_filter in Hin as [Em%bool_decide_eq_true Hin].
  apply list_elem_of_lookup in Hin as (i & Hi). assert ((status <$> members b) !! i = Some (status m)) as Hi' by (change (map status (members b) !! i = Some (status m)); rewrite <- Est; change (map status (members a)) with (status <$> members a); by rewrite list_lookup_fmap, Hi).
  rewrite list_lookup_fmap in Hi'. destruct (members b !! i) as [mb|] eqn:Eb'; [|done]. apply (inj Some) in Hi'. pose proof (f_equal fst Hi') as Es. cbn in Es.
  destruct (Forall_lookup_1 _ _ _ _ HF Eb') as [_ Ha']. congruence.
Qed.
Definition sample_drive_of (p : Z) : Device * (bytes * bytes) := (mkDevice (zeros (DATA_OFFSET + 8192)) [], ([1], [p])).
Definition sample_options : CreateOptions := mkOptions Layout.Raid6 [sample_drive_of 0; sample_drive_of 1; sample_drive_of 2; sample_drive_of 3] (Some 4096) [114; 54] [].
Lemma sample_made : made_from (replicate 16 2) (replicate 4 (replicate 16 3)) sample_options.
Proof.
  split; [done|split; [done|by repeat constructor]|]. do 4 (apply Forall_cons_2; [exact (all_bytes_zeros (DATA_OFFSET + 8192))|]). by apply Forall_nil_2.
Qed.
Lemma sample_in_order : in_order sample_options.
Proof.
  constructor.
  - split; [by split|]. intros E. discriminate E.
  - by split.
  - by split.
  - by_decide.
  - unfold min_capacity. cbn [o_members sample_options map fst sample_drive_of content foldr]. rewrite zlen_zeros by done. done.
  - do 4 (apply Forall_cons_2; [exact eq_refl|]). by apply Forall_nil_2.
Qed.
Lemma sample_blank : blank sample_options.
Proof.
  assert (forall x, at_byte (zeros (DATA_OFFSET + 8192)) x = 0) as H.
  { intros x. unfold at_byte. rewrite nth_lookup. unfold zeros. destruct (replicate _ _ !! _) as [y|] eqn:E; [|done]. by apply lookup_replicate in E as [-> _]. }
  do 4 (apply Forall_cons_2; [intros x _; exact (H x)|]). by apply Forall_nil_2.
Qed.
Lemma new_set_is_well_made_witness : exists a, create_with sum32 (replicate 16 2) (replicate 4 (replicate 16 3)) 7 sample_options = Ok a /\
  wf (arr (snd (run X86_64 Generic sum32 plain_ops (mkWorld a None)))) /\
  (forall i m, member a i = Some m -> state m = Active) /\ (blank sample_options -> Holds a (fun _ => 0) (fun _ => False)).
Proof.
  destruct (create_answers sum32 _ _ 7 _ sample_made sample_in_order) as (a & E). exists a. split; [exact E|].
  apply (new_set_is_well_made X86_64 Generic sum32 _ _ 7 _ a plain_ops sample_made E). apply plain_ops_ok. repeat constructor; by cbn.
Defined.
