(* ===== verification/StripeLog.v ===== *)
(** The dirty-stripe log of a parity volume: [volume/stripelog.rs], and the writes and
    flushes of [volume/thin.rs] that use it. The dirty-stripe log's file names every stripe
    in the middle of a write as long as one file is written at a time, no flush clears
    during a write and no file write fails; and it does not without any one of the three. *)

From S2P Require Import Prelude.
Module StripeLog.

Definition MAGIC : bytes := [83; 84; 82; 77; 68; 82; 84; 0].

(** [path]: whether there is a data directory; [file] is what is under it. *)
Record Log := mkLog { path : bool; dirty_set : gset Z; file : option bytes }.
Definition none : Log := mkLog false ∅ None.
Definition at_ (f : option bytes) : Log := mkLog true ∅ f.
Definition is_persistent (l : Log) : bool := path l.

(** A [BTreeSet] is walked in order. *)
Definition dirty (l : Log) : list Z := sort_dedup (elements (dirty_set l)).

Definition image (set : list Z) : bytes := MAGIC ++ flat_map (le_bytes 8) set.
(** What [persist] leaves of the set it read: no file for an empty one. *)
Definition published (set : list Z) : option bytes := match set with [] => None | _ => Some (image set) end.

Inductive IoError := Io.
(** [ok]: whether the file operations succeed; when one fails the file is as it was. *)
Definition persist (ok : bool) (l : Log) : Log * result IoError unit :=
  if path l then
    if ok then (mkLog (path l) (dirty_set l) (published (dirty l)), Ok tt) else (l, Err Io)
  else (l, Ok tt).
Definition mark (ok : bool) (stripe : Z) (l : Log) : Log * result IoError unit :=
  if decide (stripe ∈ dirty_set l) then (l, Ok tt)
  else persist ok (mkLog (path l) ({[stripe]} ∪ dirty_set l) (file l)).
Definition clear (ok : bool) (l : Log) : Log * result IoError unit := persist ok (mkLog (path l) ∅ (file l)).

(** The whole 8-byte chunks of a file. *)
Fixpoint chunks_exact (fuel : nat) (b : bytes) : list Z :=
  match fuel with
  | O => []
  | S fuel => if zlen b <? 8 then [] else le_val (take 8 b) :: chunks_exact fuel (drop 8 b)
  end.
Definition read_file (f : option bytes) : list Z :=
  match f with
  | Some b => if (zlen b <? 8) || negb (bool_decide (slice 0 8 b = MAGIC)) then [] else chunks_exact (length b) (drop 8 b)
  | None => []
  end.
Definition load (l : Log) : list Z * Log :=
  if path l then
    let out := read_file (file l) in (out, mkLog (path l) (list_to_set out ∪ dirty_set l) (file l))
  else ([], l).

(** ** Writers and flushes at once *)

(** A task in [persist] that has not read the set ([None]: a [clear]), one that has
    and is writing the file, and a parity write between its data and its parity. *)
Inductive Task := Snapping (s : option Z) | Publishing (s : option Z) (set : list Z) | Midwrite (s : Z).
Definition stripe_of (t : Task) : option Z := match t with Snapping s | Publishing s _ => s | Midwrite s => Some s end.
Definition midwrite (t : Task) : bool := if t is Midwrite _ then true else false.
Record World := mkWorld { log : Log; tasks : list Task }.

(** The write goes on whatever [persist] answered; a stripe's writes exclude each
    other ([shard]).  Nothing else does: [wstep false false false] is what the code may do.
    [one]: one persist at a time; [idle]: a [clear] only between writes; [sound]: no
    persist fails. *)
Inductive wstep (one idle sound : bool) : World -> World -> Prop :=
| WMark y s : u64_ok s -> (forall t, t ∈ tasks y -> stripe_of t <> Some s) ->
    (one = true -> Forall (fun t => midwrite t = true) (tasks y)) ->
    wstep one idle sound y (if decide (s ∈ dirty_set (log y)) then mkWorld (log y) (Midwrite s :: tasks y)
                   else mkWorld (mkLog (path (log y)) ({[s]} ∪ dirty_set (log y)) (file (log y))) (Snapping (Some s) :: tasks y))
| WClear y : (one = true -> Forall (fun t => midwrite t = true) (tasks y)) -> (idle = true -> Forall (fun t => midwrite t = false) (tasks y)) ->
    wstep one idle sound y (mkWorld (mkLog (path (log y)) ∅ (file (log y))) (Snapping None :: tasks y))
| WSnap y l s l' : tasks y = l ++ Snapping s :: l' ->
    wstep one idle sound y (mkWorld (log y) (l ++ Publishing s (dirty (log y)) :: l'))
| WPublish y l s set l' f : tasks y = l ++ Publishing s set :: l' ->
    f = published set \/ (sound = false /\ f = file (log y)) ->
    wstep one idle sound y (mkWorld (mkLog (path (log y)) (dirty_set (log y)) f) (l ++ (if s is Some s then [Midwrite s] else []) ++ l'))
| WDone y l s l' : tasks y = l ++ Midwrite s :: l' -> wstep one idle sound y (mkWorld (log y) (l ++ l')).

End StripeLog.

Import StripeLog.

(** ** The file *)

Lemma chunks_image set : forall fuel, Forall u64_ok set -> (length set <= fuel)%nat -> chunks_exact fuel (flat_map (le_bytes 8) set) = set.
Proof.
  induction set as [|s set IH]; intros fuel Hok Hf; [by destruct fuel|].
  destruct fuel as [|fuel]; [cbn in Hf; lia|]. apply Forall_cons in Hok as [Hs Hok]. cbn [flat_map chunks_exact].
  assert (length (le_bytes 8 s) = 8%nat) as Hl by apply length_le_bytes.
  destruct (Z.ltb_spec (zlen (le_bytes 8 s ++ flat_map (le_bytes 8) set)) 8) as [Hlt|_].
  { unfold zlen in Hlt. rewrite length_app, Hl in Hlt. lia. }
  rewrite take_app_length', drop_app_length' by done. rewrite le_val_u64 by done. f_equal. apply IH; [done|]. cbn in Hf. lia.
Qed.

Lemma read_published set : Forall u64_ok set -> read_file (published set) = set.
Proof.
  intros Hok. destruct set as [|s set]; [done|]. unfold read_file, published, image.
  assert (length MAGIC = 8%nat) as Hm by done.
  destruct (Z.ltb_spec (zlen (MAGIC ++ flat_map (le_bytes 8) (s :: set))) 8) as [Hlt|_].
  { unfold zlen in Hlt. rewrite length_app, Hm in Hlt. lia. }
  rewrite bool_decide_true by (unfold slice; rewrite drop_0; by rewrite take_app_length'). cbn [orb negb].
  rewrite drop_app_length' by done. apply chunks_image; [done|].
  rewrite length_app. assert (length set <= length (flat_map (le_bytes 8) (s :: set)))%nat; [|cbn [length]; lia].
  clear. cbn [flat_map]. rewrite length_app, length_le_bytes. induction set as [|x l IH]; cbn [flat_map length]; [lia|].
  rewrite length_app, length_le_bytes. lia.
Qed.

Lemma elem_of_dirty s l : s ∈ dirty l <-> s ∈ dirty_set l.
Proof. unfold dirty. by rewrite elem_of_sort_dedup, elem_of_elements. Qed.

(** ** One at a time *)

Definition all_u64 (l : Log) : Prop := set_Forall u64_ok (dirty_set l).

Lemma dirty_u64 l : all_u64 l -> Forall u64_ok (dirty l).
Proof. intros H. apply Forall_forall. intros s Hs%elem_of_dirty. by apply H. Qed.

(** What the discipline keeps: one persist under way at most, and a file that names what is
    dirty when there is none. *)
Record log_inv (y : World) : Prop := mkLogInv {
  l_path : path (log y) = true;
  l_u64 : all_u64 (log y);
  l_one : forall l t l', tasks y = l ++ t :: l' -> midwrite t = false -> Forall (fun t => midwrite t = true) (l ++ l');
  l_mid : forall s, Midwrite s ∈ tasks y -> s ∈ dirty_set (log y) /\ s ∈ read_file (file (log y));
  l_file : Forall (fun t => midwrite t = true) (tasks y) -> forall s, s ∈ dirty_set (log y) -> s ∈ read_file (file (log y));
  l_snap : forall o set, Publishing o set ∈ tasks y -> set = dirty (log y);
  l_marked : forall t s, t ∈ tasks y -> stripe_of t = Some s -> s ∈ dirty_set (log y);
  l_clear : forall t, t ∈ tasks y -> stripe_of t = None -> tasks y = [t] }.

Lemma elem_of_middle {A} (l l' : list A) x y : x ∈ l ++ y :: l' <-> x = y \/ x ∈ l ++ l'.
Proof. rewrite !elem_of_app, elem_of_cons. tauto. Qed.

Lemma one_of_cons t ts : Forall (fun t => midwrite t = true) ts -> forall l u l', t :: ts = l ++ u :: l' -> midwrite u = false ->
  Forall (fun t => midwrite t = true) (l ++ l').
Proof.
  intros Hts l u l' E Hu. destruct l as [|x l]; cbn in E; injection E as -> ->; [done|].
  exfalso. rewrite Forall_forall in Hts. specialize (Hts u). rewrite Hts in Hu; [done|]. apply elem_of_middle. by left.
Qed.

Lemma mark_inv y s : log_inv y -> u64_ok s -> Forall (fun t => midwrite t = true) (tasks y) ->
  log_inv (if decide (s ∈ dirty_set (log y)) then mkWorld (log y) (Midwrite s :: tasks y)
           else mkWorld (mkLog (path (log y)) ({[s]} ∪ dirty_set (log y)) (file (log y))) (Snapping (Some s) :: tasks y)).
Proof.
  intros [I1 I2 I3 I4 I5 I6 I7 I8] Hs Ht.
  assert (forall o set, Publishing o set ∉ tasks y) as Hnp.
  { intros o set Hin. rewrite Forall_forall in Ht. by apply Ht in Hin. }
  assert (forall t, t ∈ tasks y -> stripe_of t <> None) as Hns.
  { intros t Hin. rewrite Forall_forall in Ht. apply Ht in Hin. by destruct t. }
  destruct (decide (s ∈ dirty_set (log y))) as [Hd|Hd]; split; cbn [log tasks path dirty_set file]; try done.
  - by apply one_of_cons.
  - intros s' Hin. rewrite elem_of_cons in Hin. destruct Hin as [[= ->]|Hin]; [|by apply I4]. split; [done|by apply I5].
  - intros _. by apply I5.
  - intros o set Hin. rewrite elem_of_cons in Hin. destruct Hin as [|Hin]; [done|]. by apply Hnp in Hin.
  - intros t s' Hin E. rewrite elem_of_cons in Hin. destruct Hin as [->|Hin]; [cbn in E; by injection E as <-|by eapply I7].
  - intros t Hin E. rewrite elem_of_cons in Hin. destruct Hin as [->|Hin]; [done|]. by apply Hns in Hin.
  - unfold all_u64. cbn. intros x Hx. apply elem_of_union in Hx as [->%elem_of_singleton|Hx]; [done|by apply I2].
  - by apply one_of_cons.
  - intros s' Hin. rewrite elem_of_cons in Hin. destruct Hin as [|Hin]; [done|]. destruct (I4 _ Hin). split; [set_solver|done].
  - intros Hall. apply Forall_cons in Hall as [Hall _]. done.
  - intros o set Hin. rewrite elem_of_cons in Hin. destruct Hin as [|Hin]; [done|]. by apply Hnp in Hin.
  - intros t s' Hin E. rewrite elem_of_cons in Hin. destruct Hin as [->|Hin]; [cbn in E; injection E as <-; set_solver|].
    apply I7 in E; [set_solver|done].
  - intros t Hin E. rewrite elem_of_cons in Hin. destruct Hin as [->|Hin]; [done|]. by apply Hns in Hin.
Qed.

Lemma clear_inv y : log_inv y -> tasks y = [] ->
  log_inv (mkWorld (mkLog (path (log y)) ∅ (file (log y))) [Snapping None]).
Proof.
  intros [I1 I2 I3 I4 I5 I6 I7 I8] Ht. split; cbn [log tasks path dirty_set file]; try done.
  - intros l t l' E Hm. eapply one_of_cons; [constructor|exact E|exact Hm].
  - intros s Hin. by rewrite list_elem_of_singleton in Hin.
  - intros o set Hin. by rewrite list_elem_of_singleton in Hin.
  - intros t s Hin E. rewrite list_elem_of_singleton in Hin. by subst t.
  - intros t Hin _. rewrite list_elem_of_singleton in Hin. by subst t.
Qed.

(** The persist under way, and the writes beside it. *)
Lemma beside y l t l' : log_inv y -> tasks y = l ++ t :: l' -> midwrite t = false ->
  Forall (fun t => midwrite t = true) (l ++ l') /\ (stripe_of t = None -> l = [] /\ l' = []).
Proof.
  intros HI Ht Hm. split; [by eapply (l_one _ HI)|]. intros Hn.
  assert (tasks y = [t]) as E by (apply (l_clear _ HI); [rewrite Ht; apply elem_of_middle; by left|done]).
  rewrite Ht in E. destruct l as [|x l]; [|injection E as _ E; by destruct l]. by injection E as ->.
Qed.

Lemma snap_inv y l o l' : log_inv y -> tasks y = l ++ Snapping o :: l' ->
  log_inv (mkWorld (log y) (l ++ Publishing o (dirty (log y)) :: l')).
Proof.
  intros HI Ht. destruct (beside _ _ _ _ HI Ht eq_refl) as [Hb Hn]. pose proof HI as [I1 I2 I3 I4 I5 I6 I7 I8].
  assert (forall u, u ∈ l ++ l' -> u ∈ tasks y) as Hsub by (intros u Hu; rewrite Ht; apply elem_of_middle; by right).
  rewrite Forall_forall in Hb. split; cbn [log tasks]; try done.
  - intros k u k' E Hm. assert (u = Publishing o (dirty (log y)) \/ u ∈ l ++ l') as [->|Hu]
      by (apply elem_of_middle; rewrite E; apply elem_of_middle; by left).
    + apply Forall_forall. intros v Hv. destruct (decide (midwrite v = true)) as [|Hno]; [done|exfalso].
      assert (Permutation (Publishing o (dirty (log y)) :: (l ++ l')) (Publishing o (dirty (log y)) :: (k ++ k'))) as HP.
      { rewrite (Permutation_middle l l'), (Permutation_middle k k'). by rewrite E. }
      apply Permutation_cons_inv in HP. apply Hno, Hb. by rewrite HP.
    + apply Hb in Hu. congruence.
  - intros s Hin. rewrite elem_of_middle in Hin. destruct Hin as [|Hin]; [done|]. apply I4. by apply Hsub.
  - intros Hall. rewrite Forall_forall in Hall. assert (midwrite (Publishing o (dirty (log y))) = true); [|done]. apply Hall, elem_of_middle. by left.
  - intros o' set Hin. rewrite elem_of_middle in Hin. destruct Hin as [[= _ ->]|Hin]; [done|]. apply Hb in Hin. done.
  - intros t s Hin E. rewrite elem_of_middle in Hin. destruct Hin as [->|Hin]; [|eapply I7; [by apply Hsub|done]].
    apply (I7 (Snapping o)); [rewrite Ht; apply elem_of_middle; by left|done].
  - intros t Hin E. rewrite elem_of_middle in Hin. destruct Hin as [->|Hin]; [by destruct (Hn E) as [-> ->]|].
    apply Hb in Hin. by destruct t.
Qed.

Lemma publish_inv y l o set l' : log_inv y -> tasks y = l ++ Publishing o set :: l' ->
  log_inv (mkWorld (mkLog (path (log y)) (dirty_set (log y)) (published set)) (l ++ (if o is Some s then [Midwrite s] else []) ++ l')).
Proof.
  intros HI Ht. destruct (beside _ _ _ _ HI Ht eq_refl) as [Hb Hn]. pose proof HI as [I1 I2 I3 I4 I5 I6 I7 I8].
  assert (set = dirty (log y)) as -> by (apply (I6 o); rewrite Ht; apply elem_of_middle; by left).
  assert (forall s, s ∈ dirty_set (log y) -> s ∈ read_file (published (dirty (log y)))) as Hfile.
  { intros s Hs. rewrite read_published by (by apply dirty_u64). by apply elem_of_dirty. }
  assert (forall u, u ∈ l ++ (if o is Some s then [Midwrite s] else []) ++ l' -> u ∈ l ++ l' \/ exists s, o = Some s /\ u = Midwrite s) as Hel.
  { intros u Hu. rewrite !elem_of_app in Hu. rewrite elem_of_app. destruct Hu as [|[Hu|]]; [tauto| |tauto]. destruct o as [s|]; [|by apply elem_of_nil in Hu].
    rewrite list_elem_of_singleton in Hu. right. by exists s. }
  assert (Forall (fun t => midwrite t = true) (l ++ (if o is Some s then [Midwrite s] else []) ++ l')) as Hall.
  { rewrite Forall_forall in Hb. apply Forall_forall. intros u [Hu|(s & _ & ->)]%Hel; [by apply Hb|done]. }
  assert (forall u, u ∈ l ++ (if o is Some s then [Midwrite s] else []) ++ l' -> exists s, u = Midwrite s /\ s ∈ dirty_set (log y)) as Hmid.
  { intros u Hu. apply Hel in Hu as [Hu|(s & -> & ->)].
    - rewrite Forall_forall in Hb. specialize (Hb u Hu). destruct u as [|?|s]; try done. exists s. split; [done|].
      apply I4. rewrite Ht. apply elem_of_middle. by right.
    - exists s. split; [done|]. apply (I7 (Publishing (Some s) (dirty (log y)))); [rewrite Ht; apply elem_of_middle; by left|done]. }
  split; cbn [log tasks path dirty_set file]; try done.
  - intros k u k' E Hm. rewrite E in Hall. apply Forall_app in Hall as [_ Hall]. apply Forall_cons in Hall as [Hall _]. congruence.
  - intros s Hin. destruct (Hmid _ Hin) as (s' & [= ->] & Hs). split; [done|by apply Hfile].
  - intros o' set Hin. by destruct (Hmid _ Hin) as (s' & ? & _).
  - intros t s Hin E. destruct (Hmid _ Hin) as (s' & -> & Hs). cbn in E. by injection E as <-.
  - intros t Hin E. by destruct (Hmid _ Hin) as (s' & -> & _).
Qed.

Lemma done_inv y l s l' : log_inv y -> tasks y = l ++ Midwrite s :: l' -> log_inv (mkWorld (log y) (l ++ l')).
Proof.
  intros HI Ht. pose proof HI as [I1 I2 I3 I4 I5 I6 I7 I8].
  assert (forall u, u ∈ l ++ l' -> u ∈ tasks y) as Hsub by (intros u Hu; rewrite Ht; apply elem_of_middle; by right).
  split; cbn [log tasks]; try done.
  - intros k u k' E Hm. 
    assert (exists j j', tasks y = j ++ u :: j' /\ forall v, v ∈ k ++ k' -> v ∈ j ++ j') as (j & j' & Ej & Hj).
    { assert (u ∈ tasks y) as Hu by (apply Hsub; rewrite E; apply elem_of_middle; by left).
      apply list_elem_of_split in Hu as (j & j' & Hu). exists j, j'. split; [done|]. intros v Hv.
      assert (Permutation (u :: (j ++ j')) (Midwrite s :: u :: (k ++ k'))) as HP.
      { rewrite (Permutation_middle j j' u), <- Hu, Ht, <- Permutation_middle. f_equiv. rewrite E. symmetry. apply Permutation_middle. }
      rewrite Permutation_swap in HP. apply Permutation_cons_inv in HP. rewrite HP. by right. }
    pose proof (I3 _ _ _ Ej Hm) as Hf. rewrite Forall_forall in Hf. apply Forall_forall. intros v Hv. apply Hf, Hj, Hv.
  - intros s' Hin. apply I4. by apply Hsub.
  - intros Hall. apply I5. rewrite Ht. rewrite Forall_forall in Hall. apply Forall_forall. intros u Hu. rewrite elem_of_middle in Hu.
    destruct Hu as [->|Hu]; [done|by apply Hall].
  - intros o set Hin. eapply I6. by apply Hsub.
  - intros t s' Hin. apply I7. by apply Hsub.
  - intros t Hin E. pose proof (I8 t (Hsub _ Hin) E) as Et. rewrite Ht in Et. destruct l as [|x l]; [|injection Et as -> Et; by destruct l].
    injection Et as <- ->. done.
Qed.

Lemma wstep_inv y y' : log_inv y -> wstep true true true y y' -> log_inv y'.
Proof.
  intros HI H. destruct H as [y s Hs _ Ha|y Ha Hi|y l s l' Hw|y l s set l' f Hw Hf|y l s l' Hw].
  - apply mark_inv; [done|done|by apply Ha].
  - assert (tasks y = []) as Et.
    { specialize (Ha eq_refl). specialize (Hi eq_refl). destruct (tasks y) as [|t ts]; [done|]. apply Forall_cons in Ha as [Ha _].
      apply Forall_cons in Hi as [Hi _]. congruence. }
    rewrite Et. by apply clear_inv.
  - by apply snap_inv.
  - destruct Hf as [->|[? _]]; [|done]. by apply publish_inv.
  - by eapply done_inv.
Qed.

(** ** A start, and what it leads to *)

Lemma chunks_u64 fuel : forall b, all_bytes b -> Forall u64_ok (chunks_exact fuel b).
Proof.
  induction fuel as [|fuel IH]; intros b Hb; cbn [chunks_exact]; [constructor|]. destruct (Z.ltb_spec (zlen b) 8) as [|H8]; constructor.
  - assert (all_bytes (take 8 b)) as Ht by (by apply Forall_take). pose proof (le_val_range _ Ht) as Hr.
    assert (zlen (take 8 b) = 8) as E by (unfold zlen in *; rewrite length_take; lia). rewrite E in Hr. exact Hr.
  - apply IH. by apply Forall_drop.
Qed.

Lemma read_u64 f : all_bytes (default [] f) -> Forall u64_ok (read_file f).
Proof.
  intros Hb. destruct f as [b|]; [|constructor]. cbn [read_file]. destruct (_ || _); [constructor|]. apply chunks_u64, Forall_drop, Hb.
Qed.

(** A volume's log as [use_stripe_log] leaves it. *)
Definition opened (f : option bytes) : World := mkWorld (snd (load (at_ f))) [].

Lemma opened_inv f : all_bytes (default [] f) -> log_inv (opened f).
Proof.
  intros Hb. pose proof (read_u64 f Hb) as Hr. rewrite Forall_forall in Hr. unfold opened, load. cbn [path at_ snd file].
  split; cbn [log tasks path dirty_set file].
  - done.
  - intros s Hs. cbn in Hs. apply Hr. set_solver.
  - intros l t l' E. by destruct l.
  - by intros s ?%elem_of_nil.
  - intros _ s Hs. set_solver.
  - by intros o set ?%elem_of_nil.
  - by intros t s ?%elem_of_nil.
  - by intros t ?%elem_of_nil.
Qed.

Lemma wsteps_inv y y' : rtc (wstep true true true) y y' -> log_inv y -> log_inv y'.
Proof. induction 1 as [|y1 y2 y3 H1 _ IH]; [done|]. intros HI. apply IH. by eapply wstep_inv. Qed.

(** A mark and a clear that nothing interrupts are the steps they are made of. *)
Lemma mark_runs l s : path l = true -> u64_ok s -> rtc (wstep true true true) (mkWorld l []) (mkWorld (fst (mark true s l)) [Midwrite s]).
Proof.
  intros Hp Hs. eapply rtc_l; [apply (WMark true true true _ s); [done|by intros t ?%elem_of_nil|constructor]|]. cbn [log tasks]. unfold mark, persist.
  cbn [path dirty_set file]. rewrite Hp. destruct (decide (s ∈ dirty_set l)); [constructor|].
  eapply rtc_l; [eapply (WSnap _ _ _ _ []); reflexivity|].
  eapply rtc_l; [eapply (WPublish _ _ _ _ []); [reflexivity|by left]|]. cbn [log path dirty_set fst app]. constructor.
Qed.
Lemma clear_runs l : path l = true -> rtc (wstep true true true) (mkWorld l []) (mkWorld (fst (clear true l)) []).
Proof.
  intros Hp. eapply rtc_l; [apply WClear; constructor|]. cbn [log tasks]. unfold clear, persist. cbn [path dirty_set file]. rewrite Hp.
  eapply rtc_l; [eapply (WSnap _ _ _ _ []); reflexivity|].
  eapply rtc_l; [eapply (WPublish _ _ _ _ []); [reflexivity|by left]|]. cbn [log path dirty_set fst app]. constructor.
Qed.

(** Two marks at once: the second's file is replaced by the first's, read earlier. *)
Definition w0 : World := opened None.
Definition marked_first : World := mkWorld (mkLog true {[1]} None) [Publishing (Some 1) [1]].
Definition overtaken : World := mkWorld (mkLog true {[1; 2]} (Some (image [1]))) [Midwrite 2; Midwrite 1].
Definition flushed : World := mkWorld (mkLog true ∅ None) [Midwrite 1].

Lemma wstep_eq a b c y z y' : wstep a b c y z -> z = y' -> wstep a b c y y'.
Proof. by intros H <-. Qed.

Lemma run_first a b c : rtc (wstep a b c) w0 marked_first.
Proof.
  eapply rtc_l; [apply (WMark a b c w0 1); [done|by intros t ?%elem_of_nil|constructor]|].
  apply rtc_once. eapply wstep_eq; [eapply (WSnap _ _ _ _ []); reflexivity|]. vm_compute. reflexivity.
Qed.

Lemma run_overtaken : rtc (wstep false true true) w0 overtaken.
Proof.
  transitivity marked_first; [apply run_first|].
  eapply rtc_l; [apply (WMark false true true marked_first 2); [done| |done]|].
  { intros t Ht%list_elem_of_singleton. by subst t. }
  eapply rtc_l; [eapply (WSnap _ _ _ _ []); reflexivity|].
  eapply rtc_l; [eapply (WPublish _ _ _ _ []); [reflexivity|by left]|].
  apply rtc_once. eapply wstep_eq; [eapply (WPublish _ _ _ _ [Midwrite 2] (Some 1) [1] []); [reflexivity|by left]|]. vm_compute. reflexivity.
Qed.

Lemma run_flushed : rtc (wstep true false true) w0 flushed.
Proof.
  transitivity marked_first; [apply run_first|].
  eapply rtc_l; [eapply (WPublish _ _ _ _ []); [reflexivity|by left]|].
  eapply rtc_l; [apply WClear; [intros _; by repeat constructor|done]|].
  eapply rtc_l; [eapply (WSnap _ _ _ _ []); reflexivity|].
  apply rtc_once. eapply wstep_eq; [eapply (WPublish _ _ _ _ []); [reflexivity|by left]|]. vm_compute. reflexivity.
Qed.

(** A file that could not be written. *)
Definition unmarked : World := mkWorld (mkLog true {[1]} None) [Midwrite 1].
Lemma run_unmarked : rtc (wstep true true false) w0 unmarked.
Proof.
  transitivity marked_first; [apply run_first|].
  apply rtc_once. eapply wstep_eq; [eapply (WPublish _ _ _ _ []); [reflexivity|by right]|]. vm_compute. reflexivity.
Qed.

(** C27. What bounds the write hole.  When one log file is written at a time, no flush
    clears during a write and no file write fails, then whatever the log started with
    every stripe between its data and its parity is read back from the file after a crash.
    The code sees to none of the three, and without any one of them, the other two kept, a
    write is under way whose stripe the file does not name: two stripes marked at once, a
    flush during a write, a mark whose file could not be written and was only warned of. *)
Theorem stripe_log_bounds_the_write_hole :
  (forall f y s, all_bytes (default [] f) -> rtc (wstep true true true) (opened f) y -> Midwrite s ∈ tasks y ->
     s ∈ fst (load (at_ (file (log y)))))
  /\ (exists y, rtc (wstep false true true) (opened None) y /\ Midwrite 2 ∈ tasks y /\ fst (load (at_ (file (log y)))) = [1])
  /\ (exists y, rtc (wstep true false true) (opened None) y /\ Midwrite 1 ∈ tasks y /\ fst (load (at_ (file (log y)))) = [])
  /\ (exists y, rtc (wstep true true false) (opened None) y /\ Midwrite 1 ∈ tasks y /\ fst (load (at_ (file (log y)))) = []).
Proof.
  split; [|split; [|split]].
  - intros f y s Hb Hrun Hm. pose proof (wsteps_inv _ _ Hrun (opened_inv f Hb)) as HI. by apply (l_mid _ HI).
  - exists overtaken. split; [apply run_overtaken|]. split; [by left|]. vm_compute. reflexivity.
  - exists flushed. split; [apply run_flushed|]. split; [by left|]. vm_compute. reflexivity.
  - exists unmarked. split; [apply run_unmarked|]. split; [by left|]. vm_compute. reflexivity.
Qed.
