(* ===== verification/Fence.v ===== *)
(** The slot fence: [volume/fence.rs].  Locks made when first taken and dropped with
    the last guard, and the tasks that hold slots shared (I/O) or alone (a move). *)

From stdpp Require Import sorting.
From S2P Require Import Prelude GemData.

Module Fence.

(** [order]: a slab's uuid as a [u128], then the slot. *)
Definition order (l : Leg) : Z * Z := (be_val (lg_slab l), lg_slot l).
Definition key_le (a b : Leg) : Prop :=
  fst (order a) < fst (order b) \/ (fst (order a) = fst (order b) /\ snd (order a) <= snd (order b)).
#[export] Instance key_le_dec a b : Decision (key_le a b).
Proof. unfold key_le. apply _. Defined.

(** [dedup]: of equal neighbours, the first. *)
Fixpoint dedup (ls : list Leg) : list Leg :=
  match ls with
  | a :: (b :: _) as r => if decide (a = b) then dedup r else a :: dedup r
  | _ => ls
  end.
(** The legs a [hold] takes, in the order it takes them. *)
Definition in_order (legs : list Leg) : list Leg := dedup (merge_sort key_le legs).

(** A task in [hold] ([excl] = false) or [exclusive]: the legs to come, the one it waits
    for, those it has, those whose guard is dropped and whose entry [release] has not
    seen to, and the references [release] has yet to drop.  A lock is known by a number. *)
Record Task := mkTask {
  excl : bool; todo : list Leg; wait : option (Leg * Z); got : list (Leg * Z); letgo : list (Leg * Z); dying : list (Leg * Z) }.
Record State := mkState { table : gmap Leg Z; next : Z; tasks : list Task; waitq : list nat }.
Definition nothing_held : State := mkState ∅ 0 [] [].

(** [lock_of]: the lock of [leg], made when nobody holds one. *)
Definition lock_of (leg : Leg) (s : State) : Z * State :=
  match table s !! leg with
  | Some id => (id, s)
  | None => (next s, mkState (<[leg := next s]> (table s)) (next s + 1) (tasks s) (waitq s))
  end.

(** The references a task has to a lock: its guard's own and the one it waits or holds
    with, until the guard is dropped. *)
Definition count_id (id : Z) (rs : list (Leg * Z)) : Z := zlen (filter (fun r => snd r = id) rs).
Definition refs_of (id : Z) (t : Task) : Z :=
  (if wait t is Some r then if decide (snd r = id) then 2 else 0 else 0)
  + 2 * count_id id (got t) + count_id id (letgo t) + count_id id (dying t).
Definition table_refs (id : Z) (s : State) : Z := Z.of_nat (size (filter (fun li => snd li = id) (table s))).
(** [Arc::strong_count]. *)
Definition strong_count (id : Z) (s : State) : Z := table_refs id s + zsum (map (refs_of id) (tasks s)).

(** [release]: drops the lock from the table when the table's reference and the
    caller's are the only two. *)
Definition release (r : Leg * Z) (s : State) : State :=
  if strong_count (snd r) s =? 2 then mkState (delete (fst r) (table s)) (next s) (tasks s) (waitq s) else s.

Definition set_task (i : nat) (t : Task) (s : State) : State := mkState (table s) (next s) (<[i := t]> (tasks s)) (waitq s).

(** Who holds a lock, and who waits for it ahead of task [i]: [true] alone. *)
Definition holders (id : Z) (s : State) : list bool :=
  flat_map (fun t => map (fun _ => excl t) (filter (fun r => snd r = id) (got t))) (tasks s).
Definition waits_for (id : Z) (s : State) (j : nat) : option bool :=
  t ← tasks s !! j; r ← wait t; if decide (snd r = id) then Some (excl t) else None.
Fixpoint before (i : nat) (q : list nat) : list nat :=
  match q with [] => [] | j :: r => if decide (j = i) then [] else j :: before i r end.
Definition ahead (id : Z) (s : State) (i : nat) : list bool := omap (waits_for id s) (before i (waitq s)).

Section Steps.
(** The lock itself is tokio's: whether it can be taken, given who holds it and who
    queued for it first. *)
Context (can_take : list bool -> list bool -> bool -> bool).

Inductive fstep : State -> State -> Prop :=
| FHold s legs : Forall (fun l => uuid_ok (lg_slab l)) legs ->
    fstep s (mkState (table s) (next s) (tasks s ++ [mkTask false (in_order legs) None [] [] []]) (waitq s))
| FExclusive s leg : fstep s (mkState (table s) (next s) (tasks s ++ [mkTask true [leg] None [] [] []]) (waitq s))
| FLock s i t leg r : tasks s !! i = Some t -> wait t = None -> todo t = leg :: r ->
    fstep s (let '(id, s') := lock_of leg s in
             mkState (table s') (next s') (<[i := mkTask (excl t) r (Some (leg, id)) (got t) (letgo t) (dying t)]> (tasks s')) (waitq s' ++ [i]))
| FGrant s i t r : tasks s !! i = Some t -> wait t = Some r -> can_take (holders (snd r) s) (ahead (snd r) s i) (excl t) = true ->
    fstep s (mkState (table s) (next s) (<[i := mkTask (excl t) (todo t) None (r :: got t) (letgo t) (dying t)]> (tasks s))
               (filter (fun j => j <> i) (waitq s)))
| FCancel s i t r : tasks s !! i = Some t -> wait t = Some r ->
    fstep s (mkState (table s) (next s) (<[i := mkTask (excl t) [] None (got t) (r :: letgo t) (dying t)]> (tasks s))
               (filter (fun j => j <> i) (waitq s)))
| FDrop s i t l r l' : tasks s !! i = Some t -> wait t = None -> todo t = [] -> got t = l ++ r :: l' ->
    fstep s (set_task i (mkTask (excl t) [] None (l ++ l') (r :: letgo t) (dying t)) s)
| FRelease s i t l r l' : tasks s !! i = Some t -> letgo t = l ++ r :: l' ->
    fstep s (set_task i (mkTask (excl t) (todo t) (wait t) (got t) (l ++ l') (r :: dying t)) (release r s))
| FGone s i t l r l' : tasks s !! i = Some t -> dying t = l ++ r :: l' ->
    fstep s (set_task i (mkTask (excl t) (todo t) (wait t) (got t) (letgo t) (l ++ l')) s).
End Steps.

End Fence.
