(* ===== verification/FenceLaws.v ===== *)
(** The fence keeps one lock per slot that is held, so a move and an I/O on the same slot
    exclude each other; and because slots are taken in one order, some task can always go
    on. What the fence promises: a slot held alone is held by no one else, and the tasks
    never all wait for each other. *)

From stdpp Require Import sorting.
From S2P Require Import Prelude GemData Fence.
Import Fence.

(** ** Sums and lists over the tasks *)

Lemma tasks_split {A} (f : Task -> list A) ts i t : ts !! i = Some t ->
  exists rest, flat_map f ts ≡ₚ f t ++ rest /\ forall t', flat_map f (<[i := t']> ts) ≡ₚ f t' ++ rest.
Proof.
  intros H. pose proof (lookup_lt_Some _ _ _ H) as Hlt. exists (flat_map f (take i ts) ++ flat_map f (drop (S i) ts)).
  assert (forall x, flat_map f (take i ts ++ x :: drop (S i) ts) ≡ₚ f x ++ flat_map f (take i ts) ++ flat_map f (drop (S i) ts)) as Hp.
  { intros x. rewrite flat_map_app. cbn [flat_map]. rewrite !app_assoc. apply Permutation_app_tail, Permutation_app_comm. }
  split; [rewrite <- (take_drop_middle ts i t H) at 1; apply Hp|]. intros t'. rewrite insert_take_drop by done. apply Hp.
Qed.

Lemma sum_split (f : Task -> Z) ts i t : (forall u, 0 <= f u) -> ts !! i = Some t ->
  exists rest, 0 <= rest /\ zsum (map f ts) = f t + rest /\ (forall j u, j <> i -> ts !! j = Some u -> f u <= rest).
Proof.
  intros Hf. revert i. induction ts as [|a ts IH]; intros i H; [done|]. cbn [map]. unfold zsum in *. cbn [foldr].
  assert (forall l, 0 <= foldr Z.add 0 (map f l)) as Hpos.
  { induction l as [|x l IHl]; cbn; [lia|]. specialize (Hf x). lia. }
  assert (forall l j u, l !! j = Some u -> f u <= foldr Z.add 0 (map f l)) as Hle.
  { induction l as [|x l IHl]; intros j u Hj; [done|]. cbn. pose proof (Hf x). destruct j as [|j]; cbn in Hj.
    - injection Hj as ->. specialize (Hpos l). lia.
    - specialize (IHl j u Hj). lia. }
  destruct i as [|i]; cbn in H.
  - injection H as ->. exists (foldr Z.add 0 (map f ts)). split; [apply Hpos|]. split; [done|].
    intros j u Hj Hu. destruct j as [|j]; [done|]. by eapply Hle.
  - destruct (IH i H) as (rest & Hr & E & Hothers). exists (f a + rest). pose proof (Hf a). split; [lia|]. split; [lia|].
    intros j u Hj Hu. destruct j as [|j]; cbn in Hu; [injection Hu as ->; lia|].
    assert (f u <= rest); [|lia]. apply (Hothers j); [congruence|done].
Qed.

Lemma count_id_nonneg id rs : 0 <= count_id id rs.
Proof. apply zlen_nonneg. Qed.
Lemma count_id_in id rs r : r ∈ rs -> snd r = id -> 1 <= count_id id rs.
Proof.
  intros Hr E. unfold count_id, zlen. assert (r ∈ filter (fun r => snd r = id) rs) as Hin by (by apply list_elem_of_filter).
  destruct (filter _ rs); [by apply elem_of_nil in Hin|cbn; lia].
Qed.
Lemma count_id_middle id l r l' : count_id id (l ++ r :: l') = (if decide (snd r = id) then 1 else 0) + count_id id (l ++ l').
Proof.
  unfold count_id, zlen. rewrite !filter_app, filter_cons, !length_app. destruct (decide (snd r = id)); cbn [length]; lia.
Qed.
Lemma refs_nonneg id t : 0 <= refs_of id t.
Proof.
  unfold refs_of. pose proof (count_id_nonneg id (got t)). pose proof (count_id_nonneg id (letgo t)). pose proof (count_id_nonneg id (dying t)).
  destruct (wait t) as [r|]; [destruct (decide _)|]; lia.
Qed.

(** A reference that keeps the lock in the table. *)
Definition has_ref (t : Task) (r : Leg * Z) : Prop := wait t = Some r \/ r ∈ got t \/ r ∈ letgo t.

Lemma has_ref_counts id t r : has_ref t r -> snd r = id -> 1 <= refs_of id t.
Proof.
  intros H E. unfold refs_of. pose proof (count_id_nonneg id (got t)). pose proof (count_id_nonneg id (letgo t)). pose proof (count_id_nonneg id (dying t)).
  destruct H as [->|[H|H]].
  - rewrite decide_True by done. lia.
  - pose proof (count_id_in id _ _ H E). destruct (wait t) as [w|]; [destruct (decide (snd w = id))|]; lia.
  - pose proof (count_id_in id _ _ H E). destruct (wait t) as [w|]; [destruct (decide (snd w = id))|]; lia.
Qed.

Lemma table_refs_in s leg id : table s !! leg = Some id -> 1 <= table_refs id s.
Proof.
  intros H. unfold table_refs. assert (filter (fun li => snd li = id) (table s) !! leg = Some id) as Hl by (by apply map_lookup_filter_Some).
  assert (size (filter (fun li : Leg * Z => snd li = id) (table s)) <> 0%nat); [|lia]. intros Hz. apply map_size_empty_inv in Hz. rewrite Hz in Hl. by apply lookup_empty_Some in Hl.
Qed.

(** ** The invariant *)

Record finv (s : State) : Prop := mkFinv {
  f_ref : forall i t r, tasks s !! i = Some t -> has_ref t r -> table s !! fst r = Some (snd r);
  f_inj : forall a b x, table s !! a = Some x -> table s !! b = Some x -> a = b;
  f_next : forall a x, table s !! a = Some x -> x < next s;
  f_one : forall id, true ∈ holders id s -> length (holders id s) = 1%nat }.

(** The lock [release] drops has no other reference. *)
Lemma release_safe s i t l r l' j u r' :
  finv s -> tasks s !! i = Some t -> letgo t = l ++ r :: l' -> strong_count (snd r) s = 2 ->
  tasks s !! j = Some u -> has_ref (if decide (j = i) then mkTask (excl t) (todo t) (wait t) (got t) (l ++ l') (r :: dying t) else u) r' ->
  fst r' <> fst r.
Proof.
  intros HI Hi Hl Hc Hj Hr' E.
  assert (has_ref t r) as Hr by (right; right; rewrite Hl; apply elem_of_app; right; by left).
  pose proof (f_ref _ HI i t r Hi Hr) as Ht. pose proof (table_refs_in _ _ _ Ht) as Htr.
  destruct (sum_split (refs_of (snd r)) (tasks s) i t (refs_nonneg _) Hi) as (rest & Hrest & Hsum & Hothers).
  unfold strong_count in Hc. rewrite Hsum in Hc. pose proof (has_ref_counts _ _ _ Hr eq_refl) as H1.
  destruct (decide (j = i)) as [->|Hne].
  - assert (has_ref t r') as Hr2.
    { destruct Hr' as [H|[H|H]]; [by left|by right; left|right; right]. cbn [letgo] in H. rewrite Hl. rewrite elem_of_app in H. rewrite elem_of_app, elem_of_cons. tauto. }
    pose proof (f_ref _ HI i t r' Hi Hr2) as Ht'. rewrite E, Ht in Ht'. injection Ht' as Eid.
    assert (2 <= refs_of (snd r) t); [|lia]. unfold refs_of. rewrite Hl, count_id_middle, decide_True by done.
    pose proof (count_id_nonneg (snd r) (got t)). pose proof (count_id_nonneg (snd r) (l ++ l')). pose proof (count_id_nonneg (snd r) (dying t)).
    destruct Hr' as [Hx|[Hx|Hx]]; cbn [wait got letgo] in Hx.
    + rewrite Hx, decide_True by done. lia.
    + pose proof (count_id_in (snd r) _ _ Hx (eq_sym Eid)). destruct (wait t) as [w|]; [destruct (decide (snd w = snd r))|]; lia.
    + pose proof (count_id_in (snd r) _ _ Hx (eq_sym Eid)). destruct (wait t) as [w|]; [destruct (decide (snd w = snd r))|]; lia.
  - pose proof (f_ref _ HI j u r' Hj Hr') as Ht'. rewrite E, Ht in Ht'. injection Ht' as Eid.
    pose proof (Hothers j u Hne Hj). pose proof (has_ref_counts (snd r) u r' Hr' (eq_sym Eid)). lia.
Qed.

(** A task changed: its references are some of those it had. *)
Lemma refs_keep s ts' q nx tb i t t' :
  tasks s !! i = Some t -> ts' = <[i := t']> (tasks s) -> (forall r, has_ref t' r -> has_ref t r) ->
  (forall j u r, tasks s !! j = Some u -> has_ref u r -> tb !! fst r = Some (snd r)) ->
  forall j u r, tasks (mkState tb nx ts' q) !! j = Some u -> has_ref u r -> tb !! fst r = Some (snd r).
Proof.
  intros Hi -> Hsub Href j u r Hj Hr. cbn [tasks] in Hj. destruct (decide (j = i)) as [->|Hne].
  - rewrite list_lookup_insert_eq in Hj by (by apply lookup_lt_Some in Hi). injection Hj as <-. eapply Href; [exact Hi|by apply Hsub].
  - rewrite list_lookup_insert_ne in Hj by done. by eapply Href.
Qed.

(** Who holds what. *)
Definition held_of (id : Z) (t : Task) : list bool := map (fun _ => excl t) (filter (fun r => snd r = id) (got t)).

Lemma one_less id (s s' : State) i t t' :
  tasks s !! i = Some t -> tasks s' = <[i := t']> (tasks s) -> excl t' = excl t -> got t' `sublist_of` got t ->
  (true ∈ holders id s -> length (holders id s) = 1%nat) -> true ∈ holders id s' -> length (holders id s') = 1%nat.
Proof.
  intros Hi Hs' He Hg H1 Hin. destruct (tasks_split (held_of id) (tasks s) i t Hi) as (rest & P1 & P2).
  unfold holders in *. rewrite Hs' in *. fold (held_of id) in *. change (fun t => map (fun _ => excl t) (filter (fun r => snd r = id) (got t))) with (held_of id) in *.
  rewrite P1 in H1. rewrite (P2 t') in *.
  assert (held_of id t' `sublist_of` held_of id t) as Hsub.
  { unfold held_of. rewrite He. apply fmap_sublist. clear -Hg. induction Hg as [|x l k Hg IH|x l k Hg IH]; [done| |].
    - rewrite !filter_cons. destruct (decide _); [by constructor|done].
    - rewrite filter_cons. destruct (decide _); [by constructor|done]. }
  assert (true ∈ held_of id t ++ rest) as Hin' by (rewrite elem_of_app in Hin; rewrite elem_of_app; destruct Hin as [Hin|]; [left; by eapply elem_of_sublist|by right]).
  specialize (H1 Hin'). rewrite length_app in *. apply sublist_length in Hsub.
  assert (length (held_of id t' ++ rest) <> 0%nat); [|rewrite length_app in *; lia]. intros Hz. apply length_zero_iff_nil in Hz. rewrite Hz in Hin. by apply elem_of_nil in Hin.
Qed.

Section Laws.
Context (can_take : list bool -> list bool -> bool -> bool).
(** tokio's lock: alone when nobody holds it; shared when nobody holds it alone; and
    whoever is first for a lock nobody holds can have it. *)
Hypothesis take_alone : forall hs q, can_take hs q true = true -> hs = [].
Hypothesis take_shared : forall hs q, can_take hs q false = true -> true ∉ hs.
Hypothesis take_first : forall k, can_take [] [] k = true.

Lemma finv_new s t : finv s -> wait t = None -> got t = [] -> letgo t = [] ->
  finv (mkState (table s) (next s) (tasks s ++ [t]) (waitq s)).
Proof using Type.
  intros [I1 I2 I3 I4] Hw Hg Hl. split; cbn [table next]; try done.
  - intros i u r Hu Hr. cbn [tasks] in Hu. apply lookup_app_Some in Hu as [Hu|[_ Hu]]; [by eapply I1|].
    apply list_lookup_singleton_Some in Hu as [_ <-]. destruct Hr as [Hr|[Hr|Hr]]; [congruence|rewrite Hg in Hr|rewrite Hl in Hr]; by apply elem_of_nil in Hr.
  - intros id. unfold holders. cbn [tasks]. rewrite flat_map_app. cbn [flat_map]. rewrite Hg. cbn. rewrite app_nil_r. apply I4.
Qed.

Lemma finv_lock s i t leg r : finv s -> tasks s !! i = Some t -> wait t = None -> todo t = leg :: r ->
  finv (let '(id, s') := lock_of leg s in
        mkState (table s') (next s') (<[i := mkTask (excl t) r (Some (leg, id)) (got t) (letgo t) (dying t)]> (tasks s')) (waitq s' ++ [i])).
Proof using Type.
  intros [I1 I2 I3 I4] Hi Hw Ht.
  assert (forall id tb nx, (forall j u r, tasks s !! j = Some u -> has_ref u r -> tb !! fst r = Some (snd r)) -> tb !! leg = Some id ->
    (forall a b x, tb !! a = Some x -> tb !! b = Some x -> a = b) -> (forall a x, tb !! a = Some x -> x < nx) ->
    finv (mkState tb nx (<[i := mkTask (excl t) r (Some (leg, id)) (got t) (letgo t) (dying t)]> (tasks s)) (waitq s ++ [i]))) as Hgen.
  { intros id tb nx Href Hleg Hinj Hnx. split; cbn [table next]; try done.
    - intros j u r' Hj Hr'. cbn [tasks] in Hj. destruct (decide (j = i)) as [->|Hne].
      + rewrite list_lookup_insert_eq in Hj by (by apply lookup_lt_Some in Hi). injection Hj as <-.
        destruct Hr' as [Hr'|Hr']; [injection Hr' as <-; done|]. eapply Href; [exact Hi|by right].
      + rewrite list_lookup_insert_ne in Hj by done. by eapply Href.
    - intros id'. eapply (one_less id' s _ i t); [exact Hi|reflexivity|done|done|apply I4]. }
  unfold lock_of. destruct (table s !! leg) as [id|] eqn:E; cbn [table next tasks waitq]; [by apply Hgen|]. apply Hgen.
  - intros j u r' Hj Hr'. pose proof (I1 j u r' Hj Hr'). rewrite lookup_insert_ne; [done|]. intros ->. congruence.
  - apply lookup_insert_eq.
  - intros a b x Ha Hb. destruct (decide (a = leg)) as [->|Hna], (decide (b = leg)) as [->|Hnb]; [done|..].
    + rewrite lookup_insert_eq in Ha. rewrite lookup_insert_ne in Hb by done. injection Ha as <-. apply I3 in Hb. lia.
    + rewrite lookup_insert_eq in Hb. rewrite lookup_insert_ne in Ha by done. injection Hb as <-. apply I3 in Ha. lia.
    + rewrite lookup_insert_ne in Ha, Hb by done. by eapply I2.
  - intros a x Ha. destruct (decide (a = leg)) as [->|Hna]; [rewrite lookup_insert_eq in Ha; injection Ha as <-; lia|].
    rewrite lookup_insert_ne in Ha by done. apply I3 in Ha. lia.
Qed.

Lemma finv_grant s i t r : finv s -> tasks s !! i = Some t -> wait t = Some r ->
  can_take (holders (snd r) s) (ahead (snd r) s i) (excl t) = true ->
  finv (mkState (table s) (next s) (<[i := mkTask (excl t) (todo t) None (r :: got t) (letgo t) (dying t)]> (tasks s)) (filter (fun j => j <> i) (waitq s))).
Proof using take_alone take_shared.
  intros [I1 I2 I3 I4] Hi Hw Hc. split; cbn [table next]; try done.
  - eapply (refs_keep s _ _ _ _ i t); [exact Hi|reflexivity| |exact I1]. intros r' [H|[H|H]]; cbn [wait got letgo] in H; [done| |by right; right].
    rewrite elem_of_cons in H. destruct H as [->|H]; [by left|by right; left].
  - intros id Hin. destruct (tasks_split (held_of id) (tasks s) i t Hi) as (rest & P1 & P2).
    assert (forall q, holders id (mkState (table s) (next s) q (waitq s)) = flat_map (held_of id) q) as Hh by done.
    assert (holders id s ≡ₚ held_of id t ++ rest) as P1' by exact P1. specialize (I4 id).
    set (t' := mkTask _ _ _ _ _ _) in *. assert (holders id (mkState (table s) (next s) (<[i := t']> (tasks s)) (filter (fun j => j <> i) (waitq s))) ≡ₚ held_of id t' ++ rest) as P2' by apply P2.
    rewrite P2' in *. clear Hh. assert (held_of id t' = (if decide (snd r = id) then [excl t] else []) ++ held_of id t) as E.
    { unfold held_of, t'. cbn [got excl]. rewrite filter_cons. by destruct (decide _). }
    rewrite E in *. destruct (decide (snd r = id)) as [<-|]; [|cbn [app] in *; rewrite <- P1' in *; by apply I4].
    rewrite <- app_assoc, <- P1' in *. destruct (excl t) eqn:Ex.
    + apply take_alone in Hc. by rewrite Hc.
    + apply take_shared in Hc. rewrite elem_of_app, list_elem_of_singleton in Hin. by destruct Hin.
Qed.

Lemma finv_smaller s i t t' q : finv s -> tasks s !! i = Some t ->
  (forall r, has_ref t' r -> has_ref t r) -> excl t' = excl t -> got t' `sublist_of` got t ->
  finv (mkState (table s) (next s) (<[i := t']> (tasks s)) q).
Proof using Type.
  intros [I1 I2 I3 I4] Hi Hr He Hg. split; cbn [table next]; try done.
  - eapply (refs_keep s _ _ _ _ i t); [exact Hi|reflexivity|done|done].
  - intros id. eapply (one_less id s _ i t); [exact Hi|reflexivity|done|done|apply I4].
Qed.

Lemma finv_release s i t l r l' : finv s -> tasks s !! i = Some t -> letgo t = l ++ r :: l' ->
  finv (set_task i (mkTask (excl t) (todo t) (wait t) (got t) (l ++ l') (r :: dying t)) (release r s)).
Proof using Type.
  intros HI Hi Hl. pose proof HI as [I1 I2 I3 I4].
  assert (forall r', has_ref (mkTask (excl t) (todo t) (wait t) (got t) (l ++ l') (r :: dying t)) r' -> has_ref t r') as Hsub.
  { intros r' [H|[H|H]]; [by left|by right; left|right; right]. cbn [letgo] in H. rewrite Hl. rewrite elem_of_app in H. rewrite elem_of_app, elem_of_cons. tauto. }
  unfold release. destruct (Z.eqb_spec (strong_count (snd r) s) 2) as [Hc|]; [|by apply (finv_smaller s i t)].
  split; unfold set_task; cbn [table next tasks].
  - intros j u r' Hj Hr'. assert (fst r' <> fst r /\ table s !! fst r' = Some (snd r')) as [Hne Ht]; [|by rewrite lookup_delete_ne].
    destruct (decide (j = i)) as [->|Hji].
    + rewrite list_lookup_insert_eq in Hj by (by apply lookup_lt_Some in Hi). injection Hj as <-. split; [|eapply I1; [exact Hi|by apply Hsub]].
      eapply (release_safe s i t l r l' i t r' HI Hi Hl Hc Hi). by rewrite decide_True.
    + rewrite list_lookup_insert_ne in Hj by done. split; [|by eapply I1].
      eapply (release_safe s i t l r l' j u r' HI Hi Hl Hc Hj). by rewrite decide_False.
  - intros a b x [_ Ha]%lookup_delete_Some [_ Hb]%lookup_delete_Some. by eapply I2.
  - intros a x [_ Ha]%lookup_delete_Some. by eapply I3.
  - intros id. eapply (one_less id s _ i t); [exact Hi|reflexivity|done|done|apply I4].
Qed.

Lemma fstep_inv s s' : finv s -> fstep can_take s s' -> finv s'.
Proof using take_alone take_shared.
  intros HI H. destruct H as [s legs _|s leg|s i t leg r Hi Hw Ht|s i t r Hi Hw Hc|s i t r Hi Hw|s i t l r l' Hi Hw Ht Hg|s i t l r l' Hi Hl|s i t l r l' Hi Hd].
  - by apply finv_new.
  - by apply finv_new.
  - by apply finv_lock.
  - by apply finv_grant.
  - apply (finv_smaller s i t); [done|done| |done|done]. intros r' [H|[H|H]]; cbn [wait got letgo] in H; [done|by right; left|].
    rewrite elem_of_cons in H. destruct H as [->|H]; [by left|by right; right].
  - apply (finv_smaller s i t); [done|done| |done|].
    + intros r' [H|[H|H]]; cbn [wait got letgo] in H; [done| |].
      * right; left. rewrite Hg. rewrite elem_of_app in H. rewrite elem_of_app, elem_of_cons. tauto.
      * rewrite elem_of_cons in H. destruct H as [->|H]; [right; left; rewrite Hg; apply elem_of_app; right; by left|by right; right].
    + cbn [got]. rewrite Hg. apply sublist_app; [done|by constructor].
  - by apply finv_release.
  - by apply (finv_smaller s i t).
Qed.

Lemma fsteps_inv s s' : rtc (fstep can_take) s s' -> finv s -> finv s'.
Proof using take_alone take_shared. induction 1 as [|s1 s2 s3 H1 _ IH]; [done|]. intros HI. apply IH. by eapply fstep_inv. Qed.

Lemma nothing_inv : finv nothing_held.
Proof using Type.
  split; cbn; [by intros i t r Hi|by intros a b x Ha|by intros a x Ha|]. intros id H. by apply elem_of_nil in H.
Qed.
End Laws.

Import Fence.

(** ** The order slots are taken in *)

Definition earlier (a b : Leg) : Prop :=
  fst (order a) < fst (order b) \/ (fst (order a) = fst (order b) /\ snd (order a) < snd (order b)).

Lemma earlier_trans a b c : earlier a b -> earlier b c -> earlier a c.
Proof. unfold earlier. lia. Qed.
Lemma earlier_irrefl a : ~ earlier a a.
Proof. unfold earlier. lia. Qed.
#[export] Instance earlier_dec a b : Decision (earlier a b).
Proof. unfold earlier. apply _. Defined.

Lemma le_val_inj b b' : all_bytes b -> all_bytes b' -> length b = length b' -> le_val b = le_val b' -> b = b'.
Proof. intros Hb Hb' Hl E. rewrite <- (le_bytes_le_val b Hb), <- (le_bytes_le_val b' Hb'). by rewrite Hl, E. Qed.

Lemma order_inj a b : uuid_ok (lg_slab a) -> uuid_ok (lg_slab b) -> order a = order b -> a = b.
Proof.
  intros [La Ba] [Lb Bb] [= Ev Es]. destruct a as [x i], b as [y j]. cbn [lg_slab lg_slot] in *. subst j. f_equal.
  unfold be_val in Ev. apply le_val_inj in Ev; [by rewrite <- (rev_involutive x), Ev, rev_involutive|by apply Forall_rev|by apply Forall_rev|].
  rewrite !length_rev. unfold zlen in *. lia.
Qed.

Lemma dedup_cons a b r : dedup (a :: b :: r) = if decide (a = b) then dedup (b :: r) else a :: dedup (b :: r).
Proof. done. Qed.

Lemma dedup_sub ls l : l ∈ dedup ls -> l ∈ ls.
Proof.
  induction ls as [|a [|b r] IH]; [done|done|]. rewrite dedup_cons. destruct (decide (a = b)); intros Hl; [right; by apply IH|].
  rewrite elem_of_cons in Hl. destruct Hl as [->|Hl]; [by left|right; by apply IH].
Qed.

Lemma dedup_sorted ls : Forall (fun l => uuid_ok (lg_slab l)) ls -> StronglySorted key_le ls -> StronglySorted earlier (dedup ls).
Proof.
  induction ls as [|a [|b r] IH]; intros Hok Hs; [constructor|constructor; constructor|]. rewrite dedup_cons.
  apply StronglySorted_inv in Hs as [Hs Ha]. apply Forall_cons in Hok as [Hoka Hok]. pose proof Hok as Hok'. apply Forall_cons in Hok' as [Hokb _].
  destruct (decide (a = b)) as [|Hne]; [by apply IH|]. constructor; [by apply IH|]. apply Forall_forall. intros x Hx%dedup_sub.
  apply StronglySorted_inv in Hs as [_ Hb]. apply Forall_cons in Ha as [Hab _].
  assert (earlier a b) as Hlt.
  { unfold key_le, earlier in *. destruct Hab as [|[E Hle]]; [by left|]. right. split; [done|].
    assert (snd (order a) <> snd (order b)); [|lia]. intros E'. apply Hne, order_inj; [done|done|]. by apply pair_eq. }
  rewrite elem_of_cons in Hx. destruct Hx as [->|Hx]; [done|]. rewrite Forall_forall in Hb. specialize (Hb x Hx).
  unfold key_le, earlier in *. lia.
Qed.

Lemma in_order_sorted legs : Forall (fun l => uuid_ok (lg_slab l)) legs -> StronglySorted earlier (in_order legs).
Proof.
  intros Hok. apply dedup_sorted.
  - by rewrite merge_sort_Permutation.
  - apply StronglySorted_merge_sort; [unfold Transitive, key_le; lia|unfold Total, key_le; lia].
Qed.

Lemma latest_exists (l : list Leg) : l <> [] -> exists m, m ∈ l /\ forall x, x ∈ l -> ~ earlier m x.
Proof.
  induction l as [|a l IH]; intros H; [done|]. destruct (decide (l = [])) as [->|Hne].
  { exists a. split; [by left|]. intros x ->%list_elem_of_singleton. apply earlier_irrefl. }
  destruct (IH Hne) as (m & Hm & Hmax). destruct (decide (earlier m a)) as [Hlt|Hge].
  - exists a. split; [by left|]. intros x Hx Hax. rewrite elem_of_cons in Hx. destruct Hx as [->|Hx]; [by eapply earlier_irrefl|].
    apply (Hmax x Hx). by eapply earlier_trans.
  - exists m. split; [by right|]. intros x Hx. rewrite elem_of_cons in Hx. destruct Hx as [->|Hx]; [done|by apply Hmax].
Qed.

(** ** What a task has comes before what it is to take *)

Definition to_take (t : Task) : list Leg := (if wait t is Some r then [fst r] else []) ++ todo t.
Definition ordered (t : Task) : Prop :=
  StronglySorted earlier (to_take t) /\ forall r l, r ∈ got t -> l ∈ to_take t -> earlier (fst r) l.
Record qinv (s : State) : Prop := mkQinv {
  q_order : forall i t, tasks s !! i = Some t -> ordered t;
  q_wait : forall i t, tasks s !! i = Some t -> is_Some (wait t) -> i ∈ waitq s }.

Lemma q_set s tb nx i t t' q :
  qinv s -> tasks s !! i = Some t -> ordered t' ->
  (forall j, j <> i -> j ∈ waitq s -> j ∈ q) -> (is_Some (wait t') -> i ∈ q) ->
  qinv (mkState tb nx (<[i := t']> (tasks s)) q).
Proof.
  intros [Q1 Q2] Hi Ho Hq Hw. pose proof (lookup_lt_Some _ _ _ Hi) as Hlt. split; cbn [tasks waitq]; intros j u Hj.
  - destruct (decide (j = i)) as [->|Hne]; [rewrite list_lookup_insert_eq in Hj by done; by injection Hj as <-|].
    rewrite list_lookup_insert_ne in Hj by done. by eapply Q1.
  - intros Hs. destruct (decide (j = i)) as [->|Hne]; [rewrite list_lookup_insert_eq in Hj by done; injection Hj as <-; by apply Hw|].
    rewrite list_lookup_insert_ne in Hj by done. apply Hq; [done|]. by eapply Q2.
Qed.

Lemma q_new s t : qinv s -> wait t = None -> ordered t -> qinv (mkState (table s) (next s) (tasks s ++ [t]) (waitq s)).
Proof.
  intros [Q1 Q2] Hw Ho. split; cbn [tasks waitq]; intros i u Hu; apply lookup_app_Some in Hu as [Hu|[_ Hu]].
  - by eapply Q1.
  - by apply list_lookup_singleton_Some in Hu as [_ <-].
  - by eapply Q2.
  - apply list_lookup_singleton_Some in Hu as [_ <-]. rewrite Hw. by intros [? ?].
Qed.

Lemma ordered_less t t' : ordered t -> to_take t' = [] -> ordered t'.
Proof. intros _ E. unfold ordered. rewrite E. split; [constructor|]. by intros r l _ ?%elem_of_nil. Qed.

Section Laws.
Context (can_take : list bool -> list bool -> bool -> bool).
Hypothesis take_alone : forall hs q, can_take hs q true = true -> hs = [].
Hypothesis take_shared : forall hs q, can_take hs q false = true -> true ∉ hs.
Hypothesis take_first : forall k, can_take [] [] k = true.

Lemma qstep s s' : qinv s -> fstep can_take s s' -> qinv s'.
Proof using Type.
  intros HQ H. pose proof HQ as [Q1 Q2].
  destruct H as [s legs Hok|s leg|s i t leg r Hi Hw Ht|s i t r Hi Hw Hc|s i t r Hi Hw|s i t l r l' Hi Hw Ht Hg|s i t l r l' Hi Hl|s i t l r l' Hi Hd].
  - apply q_new; [done|done|]. split; [by apply in_order_sorted|]. by intros r l ?%elem_of_nil.
  - apply q_new; [done|done|]. split; [constructor; constructor|]. by intros r l ?%elem_of_nil.
  - assert (ordered (mkTask (excl t) r (Some (leg, fst (lock_of leg s))) (got t) (letgo t) (dying t))) as Ho.
    { destruct (Q1 i t Hi) as [O1 O2]. unfold ordered, to_take in *. rewrite Hw, Ht in O1, O2. cbn [wait todo got fst app] in *. by split. }
    unfold lock_of in *. destruct (table s !! leg) as [id|]; cbn [fst tasks table next waitq] in *;
      (apply (q_set s _ _ i t); [done|done|exact Ho| |]; [intros j _ Hj; apply elem_of_app; by left|intros _; apply elem_of_app; right; by left]).
  - destruct (Q1 i t Hi) as [O1 O2]. unfold to_take in O1, O2. rewrite Hw in O1, O2. cbn [app] in O1, O2.
    apply (q_set s _ _ i t); [done|done| | |].
    + apply StronglySorted_inv in O1 as [O1 O3]. split; cbn [to_take wait todo got app]; [done|].
      intros x l Hx Hl. unfold to_take in Hl. cbn [wait todo app] in Hl. rewrite elem_of_cons in Hx. destruct Hx as [->|Hx].
      * rewrite Forall_forall in O3. by apply O3.
      * apply O2; [done|by right].
    + intros j Hj Hin. by apply list_elem_of_filter.
    + by intros [? ?].
  - apply (q_set s _ _ i t); [done|done| | |].
    + by apply (ordered_less t); [eapply Q1|].
    + intros j Hj Hin. by apply list_elem_of_filter.
    + by intros [? ?].
  - unfold set_task. apply (q_set s _ _ i t); [done|done| |done|by intros [? ?]]. by apply (ordered_less t); [eapply Q1|].
  - assert (tasks (release r s) = tasks s /\ waitq (release r s) = waitq s) as [Et Eq] by (unfold release; by destruct (_ =? _)).
    unfold set_task. rewrite Et, Eq. apply (q_set s _ _ i t); [done|done| |done|]; [by apply (Q1 i t)|intros Hs; by eapply Q2].
  - unfold set_task. apply (q_set s _ _ i t); [done|done| |done|]; [by apply (Q1 i t)|intros Hs; by eapply Q2].
Qed.

Lemma qsteps s s' : rtc (fstep can_take) s s' -> qinv s -> qinv s'.
Proof using Type. induction 1 as [|s1 s2 s3 H1 _ IH]; [done|]. intros HQ. apply IH. by eapply qstep. Qed.

Lemma nothing_queued : qinv nothing_held.
Proof using Type. split; cbn; by intros i t Hi. Qed.

(** The first in the queue for a lock. *)
Lemma first_waiting id s j k : j ∈ waitq s -> waits_for id s j = Some k -> exists j' k', waits_for id s j' = Some k' /\ ahead id s j' = [].
Proof using Type.
  clear. unfold ahead. induction (waitq s) as [|x q IH]; intros Hin Hk; [by apply elem_of_nil in Hin|].
  destruct (waits_for id s x) as [k'|] eqn:E.
  - exists x, k'. split; [done|]. cbn [before]. by rewrite decide_True.
  - rewrite elem_of_cons in Hin. destruct Hin as [->|Hin]; [congruence|]. destruct (IH Hin Hk) as (j' & k' & H1 & H2).
    exists j', k'. split; [done|]. cbn [before]. destruct (decide (x = j')) as [->|]; [congruence|]. cbn [omap list_omap]. by rewrite E.
Qed.

Lemma waits_for_spec id s j k : waits_for id s j = Some k <-> exists t r, tasks s !! j = Some t /\ wait t = Some r /\ snd r = id /\ excl t = k.
Proof using Type.
  clear. unfold waits_for. destruct (tasks s !! j) as [t|] eqn:Et; cbn; [|split; [done|by intros (? & ? & ? & _)]].
  destruct (wait t) as [r|] eqn:Er; cbn; [|split; [done|intros (t' & r & [= <-] & E & _); congruence]].
  destruct (decide (snd r = id)) as [E|E]; split.
  - intros [= <-]. by exists t, r.
  - by intros (t' & r' & [= <-] & E' & _ & <-).
  - done.
  - intros (t' & r' & [= <-] & E' & E2 & _). rewrite Er in E'. by injection E' as <-.
Qed.

Lemma holder_exists id s : holders id s <> [] -> exists j u r, tasks s !! j = Some u /\ r ∈ got u /\ snd r = id.
Proof using Type.
  clear. intros H. destruct (holders id s) as [|b hs] eqn:E; [done|]. assert (b ∈ holders id s) as Hb by (rewrite E; by left).
  unfold holders in Hb. apply list_elem_of_In, in_flat_map in Hb as (u & Hu & Hb). apply list_elem_of_In, list_elem_of_lookup in Hu as [j Hj].
  apply list_elem_of_In in Hb. apply list_elem_of_fmap in Hb as (r & _ & Hr). apply list_elem_of_filter in Hr as [Hid Hr]. by exists j, u, r.
Qed.

Lemma holders_pair s i j t u r r' : i <> j -> tasks s !! i = Some t -> tasks s !! j = Some u -> r ∈ got t -> r' ∈ got u -> snd r' = snd r ->
  excl t ∈ holders (snd r) s /\ (2 <= length (holders (snd r) s))%nat.
Proof using Type.
  clear. intros Hne Hi Hj Hr Hr' E. destruct (tasks_split (held_of (snd r)) (tasks s) i t Hi) as (rest & P & P2).
  assert (holders (snd r) s ≡ₚ held_of (snd r) t ++ rest) as P' by exact P.
  assert (forall v x, x ∈ got v -> snd x = snd r -> excl v ∈ held_of (snd r) v) as Hin.
  { intros v x Hx Ex. unfold held_of. apply list_elem_of_fmap. exists x. split; [done|]. by apply list_elem_of_filter. }
  pose proof (Hin t r Hr eq_refl) as Ht. assert (excl u ∈ rest) as Hu.
  { set (t0 := mkTask (excl t) [] None [] [] []). specialize (P2 t0). cbn [held_of got t0 map filter list_filter app] in P2.
    assert (excl u ∈ flat_map (held_of (snd r)) (<[i := t0]> (tasks s))) as Hf.
    { apply list_elem_of_In, in_flat_map. exists u. split; [|by apply list_elem_of_In, (Hin u r')].
      apply list_elem_of_In, (list_elem_of_lookup_2 _ j). by rewrite list_lookup_insert_ne. }
    by rewrite P2 in Hf. }
  rewrite P'. split; [apply elem_of_app; by left|]. rewrite length_app.
  destruct (held_of (snd r) t); [by apply elem_of_nil in Ht|]. destruct rest; [by apply elem_of_nil in Hu|]. cbn. lia.
Qed.

(** C22. A slot held alone is held by no one else: in every interleaving of tasks taking,
    waiting for, giving up and dropping slots, with locks made and dropped from the
    table, when a task holds a slot alone no other task holds that slot. *)
Theorem a_move_excludes_io s i j t u r r' :
  rtc (fstep can_take) nothing_held s ->
  tasks s !! i = Some t -> tasks s !! j = Some u -> i <> j ->
  excl t = true -> r ∈ got t -> r' ∈ got u -> fst r' <> fst r.
Proof using take_alone take_shared.
  intros Hrun Hi Hj Hne Hx Hr Hr' E. pose proof (fsteps_inv can_take take_alone take_shared _ _ Hrun nothing_inv) as HI.
  assert (snd r' = snd r) as Eid.
  { pose proof (f_ref _ HI i t r Hi ltac:(right; by left)) as H1. pose proof (f_ref _ HI j u r' Hj ltac:(right; by left)) as H2.
    rewrite E, H1 in H2. by injection H2. }
  destruct (holders_pair s i j t u r r' Hne Hi Hj Hr Hr' Eid) as [Hin Hl]. rewrite Hx in Hin. apply (f_one _ HI) in Hin. lia.
Qed.

(** C23. The fence never deadlocks: in every reachable state in which some task waits,
    either a waiting task can have its lock now, or some task waits for nothing and has
    slots to let go. *)
Theorem the_fence_never_deadlocks s i t :
  rtc (fstep can_take) nothing_held s -> tasks s !! i = Some t -> is_Some (wait t) ->
  (exists j u w, tasks s !! j = Some u /\ wait u = Some w /\ can_take (holders (snd w) s) (ahead (snd w) s j) (excl u) = true)
  \/ (exists j u, tasks s !! j = Some u /\ wait u = None /\ got u <> []).
Proof using take_alone take_shared take_first.
  intros Hrun Hi [w0 Hw0]. pose proof (fsteps_inv can_take take_alone take_shared _ _ Hrun nothing_inv) as HI.
  pose proof (qsteps _ _ Hrun nothing_queued) as HQ.
  set (ws := omap (fun u => fst <$> wait u) (tasks s)).
  destruct (latest_exists ws) as (m & Hm & Hmax).
  { intros E. assert (fst w0 ∈ ws) as Hin; [|rewrite E in Hin; by apply elem_of_nil in Hin].
    apply list_elem_of_omap. exists t. split; [by eapply list_elem_of_lookup_2|]. by rewrite Hw0. }
  apply list_elem_of_omap in Hm as (u & Hu & Em). apply list_elem_of_lookup in Hu as [j Hj].
  destruct (wait u) as [w|] eqn:Hw; [|done]. cbn in Em. injection Em as <-.
  destruct (decide (holders (snd w) s = [])) as [Eh|Hh].
  - left. destruct (first_waiting (snd w) s j (excl u)) as (j' & k & Hk & Ha).
    + eapply (q_wait _ HQ); [exact Hj|]. rewrite Hw. by eexists.
    + apply waits_for_spec. by exists u, w.
    + apply waits_for_spec in Hk as (u' & w' & Hj' & Hw' & Eid & <-). exists j', u', w'. split; [done|]. split; [done|].
      rewrite Eid, Eh, Ha. apply take_first.
  - destruct (holder_exists _ _ Hh) as (j' & u' & r & Hj' & Hr & Eid). destruct (wait u') as [w'|] eqn:Hw'.
    + exfalso. apply (Hmax (fst w')).
      * apply list_elem_of_omap. exists u'. split; [by eapply list_elem_of_lookup_2|]. by rewrite Hw'.
      * assert (fst r = fst w) as <-.
        { eapply (f_inj _ HI); [eapply (f_ref _ HI); [exact Hj'|right; by left]|]. rewrite Eid. eapply (f_ref _ HI); [exact Hj|by left]. }
        destruct (q_order _ HQ j' u' Hj') as [_ Ho]. apply Ho; [done|]. unfold to_take. rewrite Hw'. by left.
    + right. exists j', u'. split; [done|]. split; [done|]. intros E. rewrite E in Hr. by apply elem_of_nil in Hr.
Qed.
End Laws.

(** ** Runs *)

(** tokio's lock: first come, first served. *)
Definition fifo (hs q : list bool) (alone : bool) : bool :=
  if alone then bool_decide (hs = []) && bool_decide (q = []) else bool_decide (true ∉ hs) && bool_decide (true ∉ q).
Lemma fifo_alone hs q : fifo hs q true = true -> hs = [].
Proof. unfold fifo. intros [H _]%andb_true_iff. by apply bool_decide_eq_true in H. Qed.
Lemma fifo_shared hs q : fifo hs q false = true -> true ∉ hs.
Proof. unfold fifo. intros [H _]%andb_true_iff. by apply bool_decide_eq_true in H. Qed.
Lemma fifo_first k : fifo [] [] k = true.
Proof. by destruct k. Qed.

Definition slot_of (n : Z) : Leg := mkLeg (zeros 16) n.
(** A move that has slot 1 and an I/O on slot 2, and a second move waiting for slot 1. *)
Definition mover : Task := mkTask true [] None [(slot_of 1, 0)] [] [].
Definition reader : Task := mkTask false [] None [(slot_of 2, 1)] [] [].
Definition waiter : Task := mkTask true [] (Some (slot_of 1, 0)) [] [] [].
Definition one_move : State := mkState {[ slot_of 1 := 0 ]} 1 [mover] [].
Definition move_and_read : State := mkState {[ slot_of 1 := 0; slot_of 2 := 1 ]} 2 [mover; reader] [].
Definition two_moves : State := mkState {[ slot_of 1 := 0 ]} 1 [mover; waiter] [1%nat].

Lemma frun_eq x y y' : fstep fifo x y -> y = y' -> rtc (fstep fifo) x y'.
Proof. intros H <-. by apply rtc_once. Qed.

Lemma run_one_move : rtc (fstep fifo) nothing_held one_move.
Proof.
  eapply rtc_l; [apply (FExclusive _ _ (slot_of 1))|].
  eapply rtc_l; [eapply (FLock _ _ 0%nat); reflexivity|].
  eapply frun_eq; [eapply (FGrant _ _ 0%nat); reflexivity|]. reflexivity.
Qed.
Lemma run_move_and_read : rtc (fstep fifo) nothing_held move_and_read.
Proof.
  transitivity one_move; [apply run_one_move|].
  eapply rtc_l; [apply (FHold _ _ [slot_of 2]); constructor; [split; [done|apply all_bytes_zeros]|constructor]|].
  eapply rtc_l; [eapply (FLock _ _ 1%nat); reflexivity|].
  eapply frun_eq; [eapply (FGrant _ _ 1%nat); reflexivity|]. vm_compute. reflexivity.
Qed.
Lemma run_two_moves : rtc (fstep fifo) nothing_held two_moves.
Proof.
  transitivity one_move; [apply run_one_move|].
  eapply rtc_l; [apply (FExclusive _ _ (slot_of 1))|].
  eapply frun_eq; [eapply (FLock _ _ 1%nat); reflexivity|]. vm_compute. reflexivity.
Qed.

Lemma a_move_excludes_io_witness : slot_of 2 <> slot_of 1.
Proof.
  apply (a_move_excludes_io fifo fifo_alone fifo_shared move_and_read 0 1 mover reader (slot_of 1, 0) (slot_of 2, 1)
           run_move_and_read); try reflexivity; [discriminate|by left|by left].
Defined.

Lemma the_fence_never_deadlocks_witness :
  exists j u, tasks two_moves !! j = Some u /\ wait u = None /\ got u <> [].
Proof.
  destruct (the_fence_never_deadlocks fifo fifo_alone fifo_shared fifo_first two_moves 1 waiter run_two_moves) as [(j & u & w & Hj & Hw & Hc)|H];
    [reflexivity|by eexists| |exact H].
  exfalso. destruct j as [|[|j]]; [injection Hj as <-; discriminate Hw| |discriminate Hj].
  injection Hj as <-. injection Hw as <-. vm_compute in Hc. discriminate Hc.
Defined.
