(* ===== verification/GemRebuild.v ===== *)
(** The extent map rebuilt from the slabs' slot tables: [SlotView] and
    [rebuild_from_view] of [volume/gem.rs].  It names, for each extent, the slots of its
    newest generation. *)

From stdpp Require Import sorting.
From S2P Require Import Prelude SlabFormat GemData ExtMap Gem GemProofs.

Module Rebuild.

(** [SlotView::read] of the tables' entries, a slab each. *)
Abbreviation SlotView := (gmap Leg Slot).
Definition read_view (sources : list (VolumeId * list (Z * Slot))) : SlotView :=
  foldl (fun v src => foldl (fun v e => <[mkLeg (fst src) (fst e) := snd e]> v) v (snd src)) ∅ sources.
Definition get (v : SlotView) (leg : Leg) : option Slot := v !! leg.
Definition len (v : SlotView) : Z := Z.of_nat (size v).
Definition is_empty (v : SlotView) : bool := bool_decide (v = ∅).

(** (generation, leg, ref count) and (parity leg, leg, ref count, generation). *)
Abbreviation Row := (Z * Leg * Z)%type.
Abbreviation PRow := (Z * Leg * Z * Z)%type.
Abbreviation Seen := (gmap (VolumeId * Z) (list Row)).
Abbreviation SeenParity := (gmap (VolumeId * Z) (list PRow)).

Definition push {A} (k : VolumeId * Z) (x : A) (m : gmap (VolumeId * Z) (list A)) : gmap (VolumeId * Z) (list A) :=
  <[k := default [] (m !! k) ++ [x]]> m.

(** The entry of a slot with an owner, by what it holds. *)
Definition see (acc : Seen * SeenParity) (ls : Leg * Slot) : Seen * SeenParity :=
  let '(leg, slot) := ls in
  if is_owned (state slot) then
    match parse_parity_vext (virtual_extent_idx slot) with
    | Some (pleg, stripe) =>
        (fst acc, push (volume_id slot, stripe) (pleg, leg, SlabFormat.ref_count slot, SlabFormat.generation slot) (snd acc))
    | None =>
        (push (volume_id slot, virtual_extent_idx slot) (SlabFormat.generation slot, leg, SlabFormat.ref_count slot) (fst acc), snd acc)
    end
  else acc.
Definition seen_of (view : SlotView) : Seen * SeenParity := foldl see (∅, ∅) (map_to_list view).

(** [(Reverse(generation), slab, slot)]. *)
Definition row_gen (r : Row) : Z := fst (fst r).
Definition row_leg (r : Row) : Leg := snd (fst r).
Definition row_key (r : Row) : Z * Z * Z := (- row_gen r, be_val (lg_slab (row_leg r)), lg_slot (row_leg r)).
Definition row_le (a b : Row) : Prop :=
  let '(g1, s1, i1) := row_key a in let '(g2, s2, i2) := row_key b in
  g1 < g2 \/ (g1 = g2 /\ (s1 < s2 \/ (s1 = s2 /\ i1 <= i2))).
#[export] Instance row_le_dec a b : Decision (row_le a b).
Proof. unfold row_le, row_key. apply _. Defined.

(** The newest slot and its mirrors ([legs[0]] is there: an entry is never empty). *)
Definition location_of (rows : list Row) : option ExtentLocation :=
  match merge_sort row_le rows with
  | [] => None
  | (gen, primary, refs) :: rest =>
      Some (mkLoc (lg_slab primary) (lg_slot primary) refs gen (map row_leg (filter (fun r => row_gen r = gen) rest)))
  end.

Definition prow_leg (r : PRow) : Leg := snd (fst (fst r)).
Definition prow_le (a b : PRow) : Prop := fst (fst (fst a)) <= fst (fst (fst b)).
#[export] Instance prow_le_dec a b : Decision (prow_le a b).
Proof. unfold prow_le. apply _. Defined.
(** Every slot of the stripe, by its parity leg; the width is not in the table. *)
Definition group_of (rows : list PRow) : option ParityGroup :=
  match merge_sort prow_le rows with
  | [] => None
  | r :: rest => Some (mkGroup (map prow_leg (r :: rest)) (snd (fst r)) (snd r) 0)
  end.

Definition insert_row (g : result Panic GlobalExtentMap) (e : (VolumeId * Z) * list Row) : result Panic GlobalExtentMap :=
  let? g := g in
  match location_of (snd e) with Some l => insert (fst (fst e)) (snd (fst e)) l g | None => Ok g end.
Definition insert_prow (g : result Panic GlobalExtentMap) (e : (VolumeId * Z) * list PRow) : result Panic GlobalExtentMap :=
  let? g := g in
  match group_of (snd e) with Some p => insert_parity (fst (fst e)) (snd (fst e)) p g | None => Ok g end.

Definition rebuild_from_view (view : SlotView) : result Panic GlobalExtentMap :=
  let '(seen, parity) := seen_of view in
  foldl insert_prow (foldl insert_row (Ok new_gem) (map_to_list seen)) (map_to_list parity).

End Rebuild.

(** ** The newest slots *)

Import Rebuild.

Lemma omap_cons {A B} (f : A -> option B) x l : omap f (x :: l) = match f x with Some y => y :: omap f l | None => omap f l end.
Proof. done. Qed.

(** The row of a slot that holds data of extent [k]. *)
Definition data_row (k : VolumeId * Z) (ls : Leg * Slot) : option Row :=
  let '(leg, slot) := ls in
  if is_owned (state slot) && bool_decide (parse_parity_vext (virtual_extent_idx slot) = None)
     && bool_decide (k = (volume_id slot, virtual_extent_idx slot))
  then Some (SlabFormat.generation slot, leg, SlabFormat.ref_count slot) else None.

Lemma see_lookup acc ls k :
  fst (see acc ls) !! k = match data_row k ls with Some r => Some (default [] (fst acc !! k) ++ [r]) | None => fst acc !! k end.
Proof.
  destruct ls as [leg slot]. unfold see, data_row. destruct (is_owned (state slot)); [|done]. cbn [andb].
  destruct (parse_parity_vext (virtual_extent_idx slot)) as [[p s]|]; [done|]. cbn [fst]. rewrite bool_decide_true by done. cbn [andb].
  unfold push. destruct (decide (k = (volume_id slot, virtual_extent_idx slot))) as [->|Hne].
  - by rewrite lookup_insert_eq, bool_decide_true.
  - by rewrite lookup_insert_ne, bool_decide_false by congruence.
Qed.

Lemma seen_lookup L : forall acc k,
  fst (foldl see acc L) !! k = match omap (data_row k) L with [] => fst acc !! k | rows => Some (default [] (fst acc !! k) ++ rows) end.
Proof.
  induction L as [|ls L IH]; intros acc k; [done|]. cbn [foldl]. rewrite IH, see_lookup. rewrite omap_cons.
  destruct (data_row k ls) as [r|]; [|done].
  destruct (omap (data_row k) L); [done|]. cbn [from_option id]. by rewrite <- app_assoc.
Qed.

(** ** One extent *)

Lemma row_le_trans a b c : row_le a b -> row_le b c -> row_le a c.
Proof. unfold row_le, row_key. lia. Qed.
Lemma row_le_total a b : row_le a b \/ row_le b a.
Proof. unfold row_le, row_key. lia. Qed.

Record names_newest (rows : list Row) (l : ExtentLocation) : Prop := mkNames {
  nn_primary : (generation l, primary l, ref_count l) ∈ rows;
  nn_newest : forall r, r ∈ rows -> row_gen r <= generation l;
  nn_legs : forall leg, leg ∈ legs l <-> exists r, r ∈ rows /\ row_leg r = leg /\ row_gen r = generation l;
  nn_least : forall leg, leg ∈ legs l ->
    be_val (lg_slab (primary l)) < be_val (lg_slab leg)
    \/ (be_val (lg_slab (primary l)) = be_val (lg_slab leg) /\ lg_slot (primary l) <= lg_slot leg);
  nn_once : NoDup (map row_leg rows) -> NoDup (legs l) }.

Lemma location_names rows : rows <> [] -> exists l, location_of rows = Some l /\ names_newest rows l.
Proof.
  intros Hne. unfold location_of. pose proof (merge_sort_Permutation row_le rows) as HP.
  assert (StronglySorted row_le (merge_sort row_le rows)) as HS.
  { apply StronglySorted_merge_sort; [intros a b c; apply row_le_trans|intros a b; apply row_le_total]. }
  destruct (merge_sort row_le rows) as [|[[g p] n] rest] eqn:E; [by apply Permutation_nil_l in HP|].
  apply StronglySorted_inv in HS as [_ Hall]. rewrite Forall_forall in Hall.
  set (l := mkLoc _ _ _ _ _). exists l. split; [done|]. assert (primary l = p) as Hp by (by destruct p).
  assert (forall r, r ∈ rows <-> r = (g, p, n) \/ r ∈ rest) as Hin by (intros r; by rewrite <- HP, elem_of_cons).
  assert (forall leg, leg ∈ legs l <-> leg = p \/ exists r, r ∈ rest /\ row_leg r = leg /\ row_gen r = g) as Hlegs.
  { intros leg. unfold legs. rewrite Hp, elem_of_cons. cbn [mirrors l]. split; (intros [->|H]; [by left|right]).
    - apply list_elem_of_fmap in H as (r & -> & Hr). apply list_elem_of_filter in Hr as [Hg Hr]. by exists r.
    - destruct H as (r & Hr & <- & Hg). apply list_elem_of_fmap. exists r. split; [done|]. by apply list_elem_of_filter. }
  split.
  - rewrite Hp. apply Hin. by left.
  - intros r Hr. apply Hin in Hr as [->|Hr]; [done|]. specialize (Hall r Hr). unfold row_le, row_key, row_gen in *. cbn [fst snd generation l] in *. lia.
  - intros leg. rewrite Hlegs. split.
    + intros [->|(r & Hr & Hl & Hg)]; [exists (g, p, n)|exists r]; (split; [apply Hin; tauto|done]).
    + intros (r & Hr & <- & Hg). apply Hin in Hr as [->|Hr]; [by left|right]. by exists r.
  - intros leg [->|(r & Hr & <- & Hg)]%Hlegs; rewrite Hp; [right; lia|]. specialize (Hall r Hr).
    unfold row_le, row_key, row_gen, row_leg in *. cbn [fst snd] in *. lia.
  - intros Hnd. unfold legs. rewrite Hp. cbn [mirrors l]. rewrite <- HP in Hnd. cbn [map row_leg fst snd] in Hnd. apply NoDup_cons in Hnd as [Hn Hnd].
    assert (map row_leg (filter (fun r => row_gen r = g) rest) `sublist_of` map row_leg rest) as Hs by apply fmap_sublist, sublist_filter.
    apply NoDup_cons. split; [|by eapply sublist_NoDup]. intros H. apply Hn. by eapply elem_of_sublist.
Qed.

(** ** All of them *)

Definition plain (g : GlobalExtentMap) : Prop := track g = false /\ cold g = ∅.

Lemma insert_plain id k l g : plain g ->
  exists g', insert id k l g = Ok g' /\ plain g' /\ forall v j, ext_at (volumes g') v j = if decide ((v, j) = (id, k)) then Some l else ext_at (volumes g) v j.
Proof.
  intros [Ht Hc]. unfold insert, check. rewrite Hc, lookup_empty. cbn [rbind]. eexists. split; [reflexivity|].
  unfold touch. cbn [entry_or_default with_volumes track]. rewrite Ht. split; [done|]. intros v j. unfold entry_or_default, ext_at. cbn [volumes with_volumes].
  destruct (decide (v = id)) as [->|Hv].
  - rewrite lookup_insert_eq. cbn. destruct (decide (j = k)) as [->|Hj].
    + by rewrite lookup_insert_eq, decide_True.
    + rewrite lookup_insert_ne, decide_False by congruence. by destruct (volumes g !! id).
  - rewrite lookup_insert_ne, decide_False by congruence. done.
Qed.

Lemma insert_parity_plain id k p g : plain g ->
  exists g', insert_parity id k p g = Ok g' /\ plain g' /\ forall v j, ext_at (volumes g') v j = ext_at (volumes g) v j.
Proof.
  intros [Ht Hc]. unfold insert_parity, check. rewrite Hc, lookup_empty. cbn [rbind]. eexists. split; [reflexivity|].
  unfold touch_parity. cbn [entry_or_default with_volumes track]. rewrite Ht. split; [done|]. intros v j. unfold entry_or_default, ext_at. cbn [volumes with_volumes].
  destruct (decide (v = id)) as [->|Hv]; [|by rewrite lookup_insert_ne]. rewrite lookup_insert_eq. cbn. by destruct (volumes g !! id).
Qed.

Lemma insert_rows L : forall g, plain g -> NoDup (map fst L) -> Forall (fun e => snd e <> []) L ->
  exists g', foldl insert_row (Ok g) L = Ok g' /\ plain g'
    /\ forall v j, match (list_to_map L : Seen) !! (v, j) with
                   | Some rows => exists l, ext_at (volumes g') v j = Some l /\ names_newest rows l
                   | None => ext_at (volumes g') v j = ext_at (volumes g) v j
                   end.
Proof.
  induction L as [|[[id k] rows] L IH]; intros g Hp Hnd Hne; [exists g; split; [done|]; split; [done|]; by intros v j|].
  cbn [map fst] in Hnd. apply NoDup_cons in Hnd as [Hk Hnd]. apply Forall_cons in Hne as [Hr Hne]. cbn [snd] in Hr.
  destruct (location_names rows Hr) as (l & El & Hl). destruct (insert_plain id k l g Hp) as (g1 & E1 & Hp1 & H1).
  destruct (IH g1 Hp1 Hnd Hne) as (g' & E' & Hp' & H'). exists g'. split; [|split; [done|]].
  - cbn [foldl]. unfold insert_row at 2. cbn [rbind fst snd]. by rewrite El, E1.
  - intros v j. rewrite list_to_map_cons. specialize (H' v j). destruct (decide ((v, j) = (id, k))) as [E|Hvj].
    + injection E as -> ->. rewrite lookup_insert_eq. exists l. split; [|done].
      assert ((list_to_map L : Seen) !! (id, k) = None) as Hno by (by apply not_elem_of_list_to_map_1). rewrite Hno in H'.
      by rewrite H', H1, decide_True.
    + rewrite lookup_insert_ne by done. destruct ((list_to_map L : Seen) !! (v, j)); [done|]. by rewrite H', H1, decide_False.
Qed.

Lemma insert_prows L : forall g, plain g ->
  exists g', foldl insert_prow (Ok g) L = Ok g' /\ plain g' /\ forall v j, ext_at (volumes g') v j = ext_at (volumes g) v j.
Proof.
  induction L as [|[[id k] rows] L IH]; intros g Hp; [by exists g|]. cbn [foldl]. unfold insert_prow at 2. cbn [rbind fst snd].
  destruct (group_of rows) as [p|]; [|by apply IH]. destruct (insert_parity_plain id k p g Hp) as (g1 & -> & Hp1 & H1).
  destruct (IH g1 Hp1) as (g' & E' & Hp' & H'). exists g'. split; [done|]. split; [done|]. intros v j. by rewrite H', H1.
Qed.

(** A slot of extent [vext] of [vol] in the tables. *)
Definition holds_extent (view : SlotView) (vol : VolumeId) (vext : Z) (leg : Leg) (slot : Slot) : Prop :=
  view !! leg = Some slot /\ is_owned (state slot) = true /\ parse_parity_vext (virtual_extent_idx slot) = None
  /\ volume_id slot = vol /\ virtual_extent_idx slot = vext.

Lemma elem_of_rows view vol vext r :
  r ∈ omap (data_row (vol, vext)) (map_to_list view) <->
  exists slot, holds_extent view vol vext (row_leg r) slot /\ r = (SlabFormat.generation slot, row_leg r, SlabFormat.ref_count slot).
Proof.
  rewrite list_elem_of_omap. unfold holds_extent. split.
  - intros ([leg slot] & Hin%elem_of_map_to_list & H). unfold data_row in H.
    destruct (is_owned (state slot) && bool_decide (parse_parity_vext (virtual_extent_idx slot) = None) && _) eqn:E; [|done].
    apply andb_true_iff in E as [[Ho Hp%bool_decide_eq_true]%andb_true_iff Hk%bool_decide_eq_true].
    injection H as <-. injection Hk as -> ->. exists slot. done.
  - intros (slot & (Hv & Ho & Hp & <- & <-) & ->). exists (row_leg r, slot). split; [by apply elem_of_map_to_list|].
    unfold data_row. by rewrite Ho, !bool_decide_true.
Qed.

Lemma rows_NoDup view k : NoDup (map row_leg (omap (data_row k) (map_to_list view))).
Proof.
  assert (forall L : list (Leg * Slot), NoDup (map fst L) -> NoDup (map row_leg (omap (data_row k) L))) as H; [|apply H, NoDup_fst_map_to_list].
  induction L as [|[leg slot] L IH]; intros Hnd; [constructor|]. cbn [map fst] in Hnd. apply NoDup_cons in Hnd as [Hl Hnd].
  rewrite omap_cons.
  destruct (data_row k (leg, slot)) as [r|] eqn:E; [|by apply IH]. cbn [map]. apply NoDup_cons. split; [|by apply IH].
  intros Hin. apply Hl. assert (forall x y, data_row k x = Some y -> row_leg y = fst x) as Hleg.
  { intros [a b] y Hy. unfold data_row in Hy. destruct (_ && _ && _); [|done]. by injection Hy as <-. }
  apply list_elem_of_fmap in Hin as (y & Ey & Hy). apply list_elem_of_omap in Hy as (x & Hx & Hxy).
  apply list_elem_of_fmap. exists x. split; [|done]. by rewrite <- (Hleg _ _ Hxy), <- Ey, (Hleg _ _ E).
Qed.

(** C24. Rebuilding the extent map from the slot tables always succeeds, and an extent
    is mapped exactly when some slot with an owner holds its data: to the slots of the
    newest generation, each once, the primary the first of them by slab and slot with
    that slot's reference count — whatever order the tables were read in. *)
Theorem rebuild_names_the_newest_slots view :
  exists g, rebuild_from_view view = Ok g /\ forall vol vext,
    match ext_at (volumes g) vol vext with
    | None => forall leg slot, ~ holds_extent view vol vext leg slot
    | Some l =>
        (exists slot, holds_extent view vol vext (primary l) slot /\ SlabFormat.ref_count slot = ref_count l)
        /\ (forall leg slot, holds_extent view vol vext leg slot -> SlabFormat.generation slot <= generation l)
        /\ (forall leg, leg ∈ legs l <-> exists slot, holds_extent view vol vext leg slot /\ SlabFormat.generation slot = generation l)
        /\ (forall leg, leg ∈ legs l -> be_val (lg_slab (primary l)) < be_val (lg_slab leg)
              \/ (be_val (lg_slab (primary l)) = be_val (lg_slab leg) /\ lg_slot (primary l) <= lg_slot leg))
        /\ NoDup (legs l)
    end.
Proof.
  unfold rebuild_from_view. destruct (seen_of view) as [seen par] eqn:Es.
  assert (forall k, seen !! k = match omap (data_row k) (map_to_list view) with [] => None | rows => Some rows end) as Hseen.
  { intros k. pose proof (seen_lookup (map_to_list view) (∅, ∅) k) as H. unfold seen_of in Es. rewrite Es in H. cbn [fst] in H. rewrite H.
    rewrite lookup_empty. by destruct (omap (data_row k) (map_to_list view)). }
  destruct (insert_rows (map_to_list seen) new_gem) as (g1 & E1 & Hp1 & H1); [by split|apply NoDup_fst_map_to_list| |].
  { apply Forall_forall. intros [k rows] Hin%elem_of_map_to_list. rewrite Hseen in Hin. cbn. destruct (omap _ _); [done|]. by injection Hin as <-. }
  rewrite E1. destruct (insert_prows (map_to_list par) g1 Hp1) as (g & E & _ & H). exists g. split; [done|]. intros vol vext.
  rewrite H. specialize (H1 vol vext). rewrite list_to_map_to_list, Hseen in H1.
  pose proof (elem_of_rows view vol vext) as Hrows. pose proof (rows_NoDup view (vol, vext)) as Hnd.
  destruct (omap (data_row (vol, vext)) (map_to_list view)) as [|r0 rows] eqn:Er.
  - rewrite H1. change (ext_at (volumes new_gem) vol vext) with (@None ExtentLocation). intros leg slot Hh. assert ((SlabFormat.generation slot, leg, SlabFormat.ref_count slot) ∈ @nil Row) as Hx by (apply Hrows; by exists slot).
    by apply elem_of_nil in Hx.
  - destruct H1 as (l & -> & [N1 N2 N3 N4 N5]). split; [|split; [|split; [|split; [done|by apply N5]]]].
    + apply Hrows in N1 as (slot & Hh & [= Eg Er']). by exists slot.
    + intros leg slot Hh. apply (N2 (SlabFormat.generation slot, leg, SlabFormat.ref_count slot)), Hrows. by exists slot.
    + intros leg. rewrite N3. split.
      * intros (r & Hr & <- & Hg). apply Hrows in Hr as (slot & Hh & E'). exists slot. split; [done|]. rewrite <- Hg, E'. done.
      * intros (slot & Hh & Hg). exists (SlabFormat.generation slot, leg, SlabFormat.ref_count slot). split; [|done]. apply Hrows. by exists slot.
Qed.
