(* ===== verification/MetaPage.v ===== *)
(** What a format v2 metadata region is made of: [volume/metav2.rs], its keys and
    changes, the places of its parts, its superblocks and the nodes of its tree, as
    values and as the pages that hold them. *)

From S2P Require Import Prelude.

Definition PAGE : Z := 4096.
Definition SB_MAGIC : bytes := [83; 77; 86; 50; 83; 85; 80; 82].
Definition SB_VERSION : Z := 1.
Definition LOG_MAGIC : bytes := [83; 77; 86; 50; 76; 79; 71; 0].
Definition LOG_HEADER : Z := 40.
Definition PAGE_MAGIC : Z := le_val [83; 77; 80; 71].
Definition PAGE_HEADER : Z := 16.
Definition LEAF : Z := 1.
Definition INTERNAL : Z := 2.
(** No tree. *)
Definition EMPTY : Z := u64max.
Definition KEY_LEN : Z := 25.
Definition MAX_VALUE : Z := 1536.
Definition LEAF_ENTRY : Z := KEY_LEN + 2.
Definition INTERNAL_ENTRY : Z := KEY_LEN + 8.
Definition MAX_CHILDREN : Z := 1 + (PAGE - PAGE_HEADER - 8) / INTERNAL_ENTRY.
Definition CHECKPOINT_ENTRIES : Z := 256 * 1024.

(** Why an operation failed ([io::Error], by what it says), or stopped the process. *)
Inductive MetaErr :=
| TooSmall | NotAPage (p : Z) | Checksum (p : Z) | LeafOverruns (p : Z) | InternalCount (p : Z) | UnknownType (p : Z)
| RegionFull | PastRegion (p : Z) | NamedTwice (p : Z) | ValueTooBig (k : Z) | BadRecord (seq : Z) | OtherRegion
| NoRoom | Io | Panic | OutOfFuel.

(** ** Keys *)

(** A key is its 25 bytes, kept as their big-endian value: an array's derived order is
    then the order of the numbers.  So are a volume's 16. *)
Abbreviation Key := Z (only parsing).
Definition key_new (vol kind idx : Z) : Key := vol * 2 ^ 72 + kind * 2 ^ 64 + idx.
Definition key_vol (k : Key) : Z := k / 2 ^ 72.
Definition key_kind (k : Key) : Z := (k / 2 ^ 64) mod 256.
Definition key_idx (k : Key) : Z := k mod 2 ^ 64.
Definition key_bytes (k : Key) : bytes := be_bytes 25 k.
Definition first_of (vol : Z) : Key := key_new vol 0 0.
Definition last_of (vol : Z) : Key := key_new vol 255 u64max.
Definition next_vol (v : Z) : option Z := if v + 1 <? 2 ^ 128 then Some (v + 1) else None.

(** One change, as the log keeps it. *)
Inductive Op := Put (k : Key) (v : bytes) | Del (k : Key) | DropVolume (v : Z).

(** ** Where the region's parts are *)

Record Layout := mkLayout { log_off : Z; log_len : Z; page_off : Z; page_count : Z }.
#[export] Instance Layout_eq : EqDecision Layout.
Proof. solve_decision. Defined.

(** [n.clamp(lo, hi)]. *)
Definition clamp (lo hi n : Z) : Z := if n <? lo then lo else if hi <? n then hi else n.
Definition for_size (size : Z) : result MetaErr Layout :=
  let size := size / PAGE * PAGE in
  if size <? 64 * PAGE then Err TooSmall
  else
    let log_len := clamp (16 * PAGE) (Z.shiftl 64 20) (size / 8) / PAGE * PAGE in
    let page_off := 2 * PAGE + log_len in
    Ok (mkLayout (2 * PAGE) log_len page_off ((size - page_off) / PAGE)).

(** ** Superblocks *)

Record Superblock := mkSb { sb_gen : Z; sb_root : Z; sb_log_start : Z; sb_log_seq : Z; sb_layout : Layout; sb_nonce : Z }.

(** A node of the tree. Children come with the lowest key each may hold; the first
    one's is [None]. *)
Inductive Node :=
| Leaf (entries : list (Key * bytes))
| Internal (level : Z) (children : list (option Key * Z)).

Section Codec.
Context (crc32c : bytes -> Z).

Definition sb_fields (s : Superblock) : list (Z * bytes) :=
  [(0, SB_MAGIC); (8, le_bytes 4 SB_VERSION); (16, le_bytes 8 (sb_gen s)); (24, le_bytes 8 (sb_root s));
   (32, le_bytes 8 (sb_log_start s)); (40, le_bytes 8 (sb_log_seq s)); (48, le_bytes 8 (log_len (sb_layout s)));
   (56, le_bytes 8 (page_off (sb_layout s))); (64, le_bytes 8 (page_count (sb_layout s))); (72, le_bytes 8 (sb_nonce s))].
(** [Superblock::to_bytes]. *)
Definition sb_to_bytes (s : Superblock) : bytes :=
  let b := write_all (zeros PAGE) (sb_fields s) in
  splice b 80 (le_bytes 4 (crc32c (slice 0 80 b))).
(** [Superblock::from_bytes]. *)
Definition sb_from_bytes (b : bytes) : option Superblock :=
  if negb (bool_decide (slice 0 8 b = SB_MAGIC)) || negb (rd_u32 b 8 =? SB_VERSION) then None
  else if negb (crc32c (slice 0 80 b) =? rd_u32 b 80) then None
  else Some (mkSb (rd_u64 b 16) (rd_u64 b 24) (rd_u64 b 32) (rd_u64 b 40)
               (mkLayout (2 * PAGE) (rd_u64 b 48) (rd_u64 b 56) (rd_u64 b 64)) (rd_u64 b 72)).

(** ** Pages *)

Definition leaf_bytes (e : Key * bytes) : bytes := key_bytes (fst e) ++ le_bytes 2 (zlen (snd e)) ++ snd e.
(** [None]: a separator that is not there ([expect]). *)
Definition child_bytes (c : option Key * Z) : option bytes :=
  k ← fst c; Some (key_bytes k ++ le_bytes 8 (snd c)).
Fixpoint children_bytes (cs : list (option Key * Z)) : option bytes :=
  match cs with
  | [] => Some []
  | c :: r => a ← child_bytes c; b ← children_bytes r; Some (a ++ b)
  end.
(** A page: its header, and what it holds; the checksum is of the page with zeros in
    its place. [None]: more than a page (the slice panics). *)
Definition page_bytes (ty level count crc : Z) (body : bytes) : bytes :=
  le_bytes 4 PAGE_MAGIC ++ [ty; level] ++ le_bytes 2 count ++ le_bytes 4 crc ++ zeros 4 ++ body
  ++ zeros (PAGE - PAGE_HEADER - zlen body).
Definition page_of (ty level count : Z) (body : bytes) : option bytes :=
  if PAGE <? PAGE_HEADER + zlen body then None
  else Some (page_bytes ty level count (crc32c (page_bytes ty level count 0 body)) body).
(** [Node::encode]. *)
Definition encode (n : Node) : option bytes :=
  match n with
  | Leaf es => page_of LEAF 0 (zlen es) (concat (map leaf_bytes es))
  | Internal level cs =>
      match cs with
      | [] => None
      | c :: r => body ← children_bytes r; page_of INTERNAL level (zlen cs) (le_bytes 8 (snd c) ++ body)
      end
  end.

Fixpoint read_leaf (p : Z) (b : bytes) (n : nat) (o : Z) : result MetaErr (list (Key * bytes)) :=
  match n with
  | O => Ok []
  | S n =>
      if zlen b <? o + LEAF_ENTRY then Err (LeafOverruns p)
      else
        let k := be_val (slice o KEY_LEN b) in
        let len := rd_u16 b (o + KEY_LEN) in
        if zlen b <? o + LEAF_ENTRY + len then Err (LeafOverruns p)
        else let? r := read_leaf p b n (o + LEAF_ENTRY + len) in Ok ((k, slice (o + LEAF_ENTRY) len b) :: r)
  end.
Fixpoint read_children (b : bytes) (n : nat) (o : Z) : list (option Key * Z) :=
  match n with
  | O => []
  | S n => (Some (be_val (slice o KEY_LEN b)), rd_u64 b (o + KEY_LEN)) :: read_children b n (o + INTERNAL_ENTRY)
  end.
(** [Node::decode] of page [p]. *)
Definition decode (p : Z) (b : bytes) : result MetaErr Node :=
  if negb (rd_u32 b 0 =? PAGE_MAGIC) then Err (NotAPage p)
  else if negb (crc32c (splice b 8 (zeros 4)) =? rd_u32 b 8) then Err (Checksum p)
  else
    let count := rd_u16 b 6 in
    if at_byte b 4 =? LEAF then let? es := read_leaf p b (Z.to_nat count) PAGE_HEADER in Ok (Leaf es)
    else if at_byte b 4 =? INTERNAL then
      if (count =? 0) || (MAX_CHILDREN <? count) then Err (InternalCount p)
      else Ok (Internal (at_byte b 5)
                 ((None, rd_u64 b PAGE_HEADER) :: read_children b (Z.to_nat (count - 1)) (PAGE_HEADER + 8)))
    else Err (UnknownType p).
End Codec.

(** ** Changes logged and not yet in the tree *)

Record Overlay := mkOverlay { dropped : gset Z; puts : gmap Key (option bytes) }.
Definition overlay0 : Overlay := mkOverlay ∅ ∅.
Definition in_range (lo hi : option Key) (k : Key) : bool :=
  match lo with Some l => l <=? k | None => true end && match hi with Some h => k <? h | None => true end.
(** [self.puts.range(lo..hi)] has something. *)
Definition puts_in (lo hi : option Key) (o : Overlay) : bool :=
  existsb (fun kv => in_range lo hi (fst kv)) (map_to_list (puts o)).

(** [Overlay::apply]. *)
Definition overlay_apply (o : Overlay) (op : Op) : Overlay :=
  match op with
  | Put k v => mkOverlay (dropped o) (<[k := Some v]> (puts o))
  | Del k => mkOverlay (dropped o) (<[k := None]> (puts o))
  | DropVolume v =>
      mkOverlay ({[v]} ∪ dropped o) (filter (fun kv => ~ (first_of v <= fst kv <= last_of v)) (puts o))
  end.
Definition overlay_all (o : Overlay) (ops : list Op) : Overlay := foldl overlay_apply o ops.
Definition overlay_is_empty (o : Overlay) : bool := bool_decide (dropped o = ∅) && bool_decide (puts o = ∅).
(** [Overlay::touches]. *)
Definition touches (o : Overlay) (lo hi : option Key) : bool :=
  puts_in lo hi o ||
  existsb (fun v => match lo with Some l => l <=? last_of v | None => true end
                    && match hi with Some h => first_of v <? h | None => true end) (elements (dropped o)).
(** [Overlay::drops_whole]. *)
Definition drops_whole (o : Overlay) (lo hi : option Key) : bool :=
  match lo, hi with
  | Some l, Some h =>
      let v := key_vol l in
      bool_decide (v ∈ dropped o)
      && ((key_vol h =? v) || match next_vol v with Some n => h =? first_of n | None => false end)
      && negb (puts_in lo hi o)
  | _, _ => false
  end.
