(* ===== verification/MetaPageProofs.v ===== *)
(** The metadata store's records are read back as they were written, and what an
    overlay does to the entries below it. *)

From S2P Require Import Prelude MetaPage.

(** ** Keys *)

Definition key_ok (k : Key) : Prop := 0 <= k < 2 ^ 200.
Definition vol_ok (v : Z) : Prop := 0 <= v < 2 ^ 128.

Lemma key_new_parts v kind idx :
  0 <= kind < 256 -> u64_ok idx ->
  key_vol (key_new v kind idx) = v /\ key_kind (key_new v kind idx) = kind /\ key_idx (key_new v kind idx) = idx.
Proof.
  unfold key_vol, key_kind, key_idx, key_new, u64_ok. intros Hk Hi.
  replace (v * 2 ^ 72 + kind * 2 ^ 64 + idx) with ((v * 2 ^ 8 + kind) * 2 ^ 64 + idx) by lia.
  rewrite div_cat by lia. split_and!; [|by apply (mod_cat 8)|by apply (mod_cat 64)].
  change (2 ^ 72) with (2 ^ 64 * 2 ^ 8). rewrite <- Z.div_div, div_cat by lia. by rewrite div_cat by lia.
Qed.

Lemma first_last v k : first_of v <= k <= last_of v <-> key_vol k = v.
Proof.
  unfold first_of, last_of, key_new, key_vol, u64max. split.
  - intros H. symmetry. apply (Z.div_unique_pos k (2 ^ 72) v (k - v * 2 ^ 72)); lia.
  - intros <-. pose proof (Z.div_mod k (2 ^ 72) ltac:(lia)). pose proof (Z.mod_pos_bound k (2 ^ 72) ltac:(lia)). lia.
Qed.

Lemma key_vol_first v : key_vol (first_of v) = v.
Proof. apply first_last. unfold first_of, last_of, key_new, u64max. lia. Qed.

(** The derived order of the 25 bytes is the order of their value. *)
Fixpoint lex (a b : bytes) : bool :=
  match a, b with
  | x :: a, y :: b => (x <? y) || ((x =? y) && lex a b)
  | _, _ => false
  end.
Lemma be_val_cons x r : be_val (x :: r) = x * 256 ^ zlen r + be_val r.
Proof.
  unfold be_val. cbn [rev]. assert (forall l y, le_val (l ++ [y]) = le_val l + 256 ^ zlen l * y) as H.
  { induction l as [|z l IH]; intros y; [cbn; unfold zlen; cbn; lia|]. cbn [app le_val]. rewrite IH, zlen_cons, Z.pow_add_r by (pose proof (zlen_nonneg l); lia). lia. }
  rewrite H. replace (zlen (rev r)) with (zlen r) by (unfold zlen; by rewrite length_rev). lia.
Qed.
Lemma be_val_range b : all_bytes b -> 0 <= be_val b < 256 ^ zlen b.
Proof.
  intros H. unfold be_val. replace (zlen b) with (zlen (rev b)) by (unfold zlen; by rewrite length_rev).
  apply le_val_range. by apply Forall_rev.
Qed.
Lemma lex_be_val a b : all_bytes a -> all_bytes b -> length a = length b -> lex a b = (be_val a <? be_val b).
Proof.
  intros Ha. revert b. induction Ha as [|x a Hx Ha IH]; intros [|y b] Hb Hl; try discriminate; [done|].
  inversion Hb as [|? ? Hy Hb']; subst. cbn in Hl. cbn [lex]. rewrite IH by (done || lia).
  rewrite !be_val_cons. replace (zlen b) with (zlen a) by (unfold zlen; lia).
  pose proof (be_val_range a Ha) as Ra. pose proof (be_val_range b Hb') as Rb. replace (zlen b) with (zlen a) in Rb by (unfold zlen; lia).
  set (n := 256 ^ zlen a) in *. destruct (Z.ltb_spec x y), (Z.eqb_spec x y), (Z.ltb_spec (be_val a) (be_val b)),
    (Z.ltb_spec (x * n + be_val a) (y * n + be_val b)); cbn; try done; exfalso; nia.
Qed.

Lemma be_val_be_bytes n z : 0 <= z < 256 ^ Z.of_nat n -> be_val (be_bytes n z) = z.
Proof. intros. unfold be_val, be_bytes. rewrite rev_involutive. by apply le_val_le_bytes. Qed.
Lemma zlen_be_bytes n z : zlen (be_bytes n z) = Z.of_nat n.
Proof. unfold zlen, be_bytes. by rewrite length_rev, length_le_bytes. Qed.

Lemma zlen_key_bytes k : zlen (key_bytes k) = 25.
Proof. apply zlen_be_bytes. Qed.
Lemma key_of_bytes k : key_ok k -> be_val (key_bytes k) = k.
Proof. intros. by apply be_val_be_bytes. Qed.

(** ** Superblocks *)

Section Codec.
Context (crc32c : bytes -> Z) (Hcrc : forall b, u32_ok (crc32c b)).

Definition sb_ok (s : Superblock) : Prop :=
  u64_ok (sb_gen s) /\ u64_ok (sb_root s) /\ u64_ok (sb_log_start s) /\ u64_ok (sb_log_seq s) /\ u64_ok (sb_nonce s) /\
  log_off (sb_layout s) = 2 * PAGE /\ u64_ok (log_len (sb_layout s)) /\ u64_ok (page_off (sb_layout s)) /\ u64_ok (page_count (sb_layout s)).

Definition sb_shape : list (Z * Z) :=
  [(0, 8); (8, 4); (16, 8); (24, 8); (32, 8); (40, 8); (48, 8); (56, 8); (64, 8); (72, 8); (80, 4)].
Lemma sb_bytes_fields s :
  exists c, sb_to_bytes crc32c s = write_all (zeros PAGE) (sb_fields s ++ [(80, le_bytes 4 (crc32c c))]) /\
            c = slice 0 80 (write_all (zeros PAGE) (sb_fields s)).
Proof. eexists. split; [|done]. unfold sb_to_bytes. by rewrite write_all_snoc. Qed.
Lemma sb_full_shape s c : shape (sb_fields s ++ [(80, le_bytes 4 c)]) = sb_shape.
Proof. unfold shape, sb_fields. cbn [map app fst snd]. rewrite !zlen_le_bytes. reflexivity. Qed.

Lemma sb_field s c k o n v :
  (sb_fields s ++ [(80, le_bytes 4 c)]) !! k = Some (o, v) -> sb_shape !! k = Some (o, n) ->
  apart o n (drop (S k) sb_shape) = true ->
  slice o n (write_all (zeros PAGE) (sb_fields s ++ [(80, le_bytes 4 c)])) = v.
Proof.
  intros Hk Hs Ha. eapply (read_written PAGE); [by apply zlen_zeros|apply sb_full_shape|reflexivity|exact Hk|exact Hs|exact Ha].
Qed.

Lemma zlen_sb s : zlen (sb_to_bytes crc32c s) = PAGE.
Proof.
  destruct (sb_bytes_fields s) as (c & -> & _). apply zlen_write_all; [by apply zlen_zeros|]. rewrite sb_full_shape. reflexivity.
Qed.

Lemma sb_roundtrip s : sb_ok s -> sb_from_bytes crc32c (sb_to_bytes crc32c s) = Some s.
Proof using Hcrc.
  intros (Hg & Hr & Hs & Hq & Hn & Hlo & Hll & Hpo & Hpc).
  destruct (sb_bytes_fields s) as (c & -> & Hc).
  pose proof (sb_field s (crc32c c)) as F. set (b := write_all _ (_ ++ _)) in *.
  assert (slice 0 80 b = c) as Hb.
  { unfold b. rewrite write_all_app, Hc. cbn [write_all foldl fst snd]. apply (slice_splice_before _ 0 80 80); try lia.
    rewrite (zlen_write_all PAGE); [unfold PAGE; lia|by apply zlen_zeros|].
    unfold shape, sb_fields. cbn [map fst snd]. rewrite !zlen_le_bytes. reflexivity. }
  unfold sb_from_bytes, rd_u32, rd_u64. rewrite Hb.
  rewrite (F 0%nat 0 8 SB_MAGIC), (F 1%nat 8 4 (le_bytes 4 SB_VERSION)), (F 10%nat 80 4 _ eq_refl) by reflexivity.
  rewrite bool_decide_eq_true_2 by done. rewrite (le_val_u32 SB_VERSION), (le_val_u32 (crc32c c)) by (apply Hcrc || (unfold u32_ok, SB_VERSION; lia)). rewrite !Z.eqb_refl.
  rewrite (F 2%nat 16 8 _ eq_refl), (F 3%nat 24 8 _ eq_refl), (F 4%nat 32 8 _ eq_refl), (F 5%nat 40 8 _ eq_refl), (F 6%nat 48 8 _ eq_refl),
    (F 7%nat 56 8 _ eq_refl), (F 8%nat 64 8 _ eq_refl), (F 9%nat 72 8 _ eq_refl) by reflexivity.
  rewrite !le_val_u64 by done. cbn. destruct s as [? ? ? ? [lo ? ? ?] ?]. cbn in *. by subst lo.
Qed.

(** ** Nodes *)

Definition entry_ok (e : Key * bytes) : Prop := key_ok (fst e) /\ zlen (snd e) <= MAX_VALUE.
Definition child_ok (c : option Key * Z) : Prop := (exists k, fst c = Some k /\ key_ok k) /\ u64_ok (snd c).
(** A node a page holds. *)
Definition node_ok (n : Node) : Prop :=
  match n with
  | Leaf es => Forall entry_ok es /\ PAGE_HEADER + zlen (concat (map leaf_bytes es)) <= PAGE
  | Internal level cs =>
      0 <= level < 256 /\ zlen cs <= MAX_CHILDREN /\
      match cs with [] => False | c :: r => fst c = None /\ u64_ok (snd c) /\ Forall child_ok r end
  end.

Lemma slice_mid {A} (pre m post : list A) o n :
  o = zlen pre -> n = zlen m -> slice o n (pre ++ m ++ post) = m.
Proof.
  intros -> ->. unfold slice, zlen. rewrite !Nat2Z.id.
  rewrite drop_app_length' by lia. by rewrite take_app_length' by lia.
Qed.

Lemma zlen_leaf_bytes e : zlen (leaf_bytes e) = LEAF_ENTRY + zlen (snd e).
Proof. unfold leaf_bytes. rewrite !zlen_app, zlen_key_bytes, zlen_le_bytes. unfold LEAF_ENTRY, KEY_LEN. lia. Qed.

Lemma read_leaf_written p es pre post :
  Forall entry_ok es ->
  read_leaf p (pre ++ concat (map leaf_bytes es) ++ post) (length es) (zlen pre) = Ok es.
Proof.
  intros H. revert pre. induction H as [|[k v] es [Hk Hv] _ IH]; intros pre; [done|].
  cbn [length read_leaf]. cbn [fst snd] in *. unfold MAX_VALUE in Hv. pose proof (zlen_nonneg v).
  set (b := pre ++ _).
  assert (b = pre ++ key_bytes k ++ le_bytes 2 (zlen v) ++ v ++ concat (map leaf_bytes es) ++ post) as Eb.
  { subst b. cbn [map concat]. unfold leaf_bytes at 1. cbn [fst snd]. by rewrite <- !app_assoc. }
  assert (zlen b = zlen pre + LEAF_ENTRY + zlen v + zlen (concat (map leaf_bytes es) ++ post)) as Lb.
  { rewrite Eb, !zlen_app, zlen_key_bytes, zlen_le_bytes. unfold LEAF_ENTRY, KEY_LEN. lia. }
  pose proof (zlen_nonneg (concat (map leaf_bytes es) ++ post)).
  destruct (Z.ltb_spec (zlen b) (zlen pre + LEAF_ENTRY)); [lia|].
  assert (rd_u16 b (zlen pre + KEY_LEN) = zlen v) as ->.
  { unfold rd_u16. rewrite Eb, (app_assoc pre), slice_mid; [apply le_val_le_bytes; lia| |by rewrite zlen_le_bytes].
    by rewrite zlen_app, zlen_key_bytes. }
  destruct (Z.ltb_spec (zlen b) (zlen pre + LEAF_ENTRY + zlen v)); [lia|].
  rewrite Eb at 1. assert (pre ++ key_bytes k ++ le_bytes 2 (zlen v) ++ v ++ concat (map leaf_bytes es) ++ post
    = (pre ++ leaf_bytes (k, v)) ++ concat (map leaf_bytes es) ++ post) as E2.
  { unfold leaf_bytes at 2. cbn [fst snd]. by rewrite <- !app_assoc. }
  rewrite E2. replace (zlen pre + LEAF_ENTRY + zlen v) with (zlen (pre ++ leaf_bytes (k, v))) by (rewrite zlen_app, zlen_leaf_bytes; cbn [snd]; lia).
  rewrite IH. cbn [rbind]. rewrite Eb. rewrite slice_mid by (by rewrite ?zlen_key_bytes). rewrite key_of_bytes by done.
  rewrite (app_assoc pre), (app_assoc (_ ++ _)), slice_mid; [done| |done].
  rewrite !zlen_app, zlen_key_bytes, zlen_le_bytes. unfold LEAF_ENTRY, KEY_LEN. lia.
Qed.

Lemma children_bytes_ok r : Forall child_ok r ->
  exists b, children_bytes r = Some b /\ zlen b = zlen r * INTERNAL_ENTRY /\
  forall pre post, read_children (pre ++ b ++ post) (length r) (zlen pre) = r.
Proof.
  induction 1 as [|[ok c] r [(k & Ek & Hk) Hc] _ (b & Eb & Lb & Rb)]; [by exists []|].
  cbn [fst snd] in *. subst ok. cbn [children_bytes child_bytes fst snd option_bind mbind]. rewrite Eb. cbn [option_bind mbind].
  eexists. split; [done|]. split.
  { rewrite !zlen_app, zlen_key_bytes, zlen_le_bytes, Lb, zlen_cons. unfold INTERNAL_ENTRY, KEY_LEN. lia. }
  intros pre post. cbn [length read_children]. rewrite <- !app_assoc. f_equal; [f_equal|].
  - rewrite slice_mid by (by rewrite ?zlen_key_bytes). by rewrite key_of_bytes.
  - unfold rd_u64. rewrite (app_assoc pre), slice_mid; [by apply le_val_u64| |by rewrite zlen_le_bytes].
    by rewrite zlen_app, zlen_key_bytes.
  - rewrite (app_assoc pre), (app_assoc (_ ++ _)).
    replace (zlen pre + INTERNAL_ENTRY) with (zlen ((pre ++ key_bytes k) ++ le_bytes 8 c)) by (rewrite !zlen_app, zlen_key_bytes, zlen_le_bytes; unfold INTERNAL_ENTRY, KEY_LEN; lia).
    apply Rb.
Qed.

Lemma zlen_meta_page ty level count crc body :
  PAGE_HEADER + zlen body <= PAGE -> zlen (page_bytes ty level count crc body) = PAGE.
Proof.
  intros. unfold page_bytes. autorewrite with storm_len.
  rewrite (zlen_zeros 4), zlen_zeros by lia. unfold PAGE_HEADER, PAGE in *. unfold zlen at 1. cbn [length]. lia.
Qed.

(** What decoding a page starts from. *)
Lemma decode_page p ty level count body b :
  0 <= count < 65536 -> page_of crc32c ty level count body = Some b ->
  decode crc32c p b =
    if ty =? LEAF then let? es := read_leaf p b (Z.to_nat count) PAGE_HEADER in Ok (Leaf es)
    else if ty =? INTERNAL then
      if (count =? 0) || (MAX_CHILDREN <? count) then Err (InternalCount p)
      else Ok (Internal level ((None, rd_u64 b PAGE_HEADER) :: read_children b (Z.to_nat (count - 1)) (PAGE_HEADER + 8)))
    else Err (UnknownType p).
Proof using Hcrc.
  intros Hn. unfold page_of. destruct (_ <? _) eqn:E; [done|]. bprop. intros [= <-].
  set (crc := crc32c _). unfold decode.
  assert (rd_u32 (page_bytes ty level count crc body) 0 = PAGE_MAGIC) as -> by reflexivity.
  assert (splice (page_bytes ty level count crc body) 8 (zeros 4) = page_bytes ty level count 0 body) as -> by reflexivity.
  assert (rd_u32 (page_bytes ty level count crc body) 8 = crc) as ->.
  { change (rd_u32 _ 8) with (le_val (le_bytes 4 crc)). apply le_val_u32, Hcrc. }
  assert (rd_u16 (page_bytes ty level count crc body) 6 = count) as ->.
  { change (rd_u16 _ 6) with (le_val (le_bytes 2 count)). apply le_val_le_bytes. lia. }
  rewrite !Z.eqb_refl. reflexivity.
Qed.

Lemma page_of_inv ty level count body b :
  page_of crc32c ty level count body = Some b ->
  zlen b = PAGE /\ exists pre, zlen pre = PAGE_HEADER /\ b = pre ++ body ++ zeros (PAGE - PAGE_HEADER - zlen body).
Proof.
  unfold page_of. destruct (_ <? _) eqn:E; [done|]. bprop. intros [= <-]. split; [by apply zlen_meta_page|].
  set (crc := crc32c _).
  exists (le_bytes 4 PAGE_MAGIC ++ [ty; level] ++ le_bytes 2 count ++ le_bytes 4 crc ++ zeros 4).
  split; [reflexivity|]. unfold page_bytes. by rewrite <- !app_assoc.
Qed.

Lemma zlen_concat_leaf es : Forall entry_ok es -> LEAF_ENTRY * zlen es <= zlen (concat (map leaf_bytes es)).
Proof.
  induction 1 as [|e es _ _ IH]; [done|]. cbn [map concat]. rewrite zlen_app, zlen_leaf_bytes, zlen_cons.
  pose proof (zlen_nonneg (snd e)). lia.
Qed.

Lemma encode_fits n : node_ok n -> exists b, encode crc32c n = Some b /\ zlen b = PAGE.
Proof.
  destruct n as [es|level [|c r]]; cbn [node_ok encode].
  - intros (_ & Hs). unfold page_of. destruct (Z.ltb_spec PAGE (PAGE_HEADER + zlen (concat (map leaf_bytes es)))); [lia|].
    eexists. split; [done|]. by apply zlen_meta_page.
  - tauto.
  - intros (_ & Hn & _ & _ & Hr). destruct (children_bytes_ok r Hr) as (b & Eb & Lb & _). rewrite Eb. cbn [option_bind mbind].
    rewrite zlen_cons in Hn. assert (zlen (le_bytes 8 (snd c) ++ b) <= PAGE - PAGE_HEADER).
    { rewrite zlen_app, zlen_le_bytes, Lb. change MAX_CHILDREN with 124 in Hn. change INTERNAL_ENTRY with 33.
      change (PAGE - PAGE_HEADER) with 4080. lia. }
    unfold page_of. destruct (Z.ltb_spec PAGE (PAGE_HEADER + zlen (le_bytes 8 (snd c) ++ b))); [lia|].
    eexists. split; [done|]. apply zlen_meta_page. lia.
Qed.

Lemma decode_encode p n b : node_ok n -> encode crc32c n = Some b -> decode crc32c p b = Ok n.
Proof using Hcrc.
  destruct n as [es|level cs]; cbn [node_ok encode].
  - intros (He & Hs) Ep. pose proof (zlen_concat_leaf es He) as Hc. change LEAF_ENTRY with 27 in Hc. pose proof (zlen_nonneg es).
    unfold PAGE, PAGE_HEADER in Hs. rewrite (decode_page p _ _ (zlen es) _ _ ltac:(lia) Ep).
    destruct (page_of_inv _ _ _ _ _ Ep) as (_ & pre & Lp & ->). cbn [Z.eqb LEAF Pos.eqb].
    replace (Z.to_nat (zlen es)) with (length es) by (unfold zlen; lia). rewrite <- Lp.
    by rewrite read_leaf_written by done.
  - destruct cs as [|[s c] r]; [tauto|]. cbn [fst snd]. intros (Hl & Hn & -> & Hc & Hr).
    destruct (children_bytes_ok r Hr) as (body & Eb & Lb & Rb). rewrite Eb. cbn [option_bind mbind]. intros Ep.
    rewrite zlen_cons in *. pose proof (zlen_nonneg r). change MAX_CHILDREN with 124 in Hn.
    rewrite (decode_page p _ _ (1 + zlen r) _ _ ltac:(lia) Ep).
    destruct (page_of_inv _ _ _ _ _ Ep) as (_ & pre & Lp & ->). cbn [Z.eqb LEAF INTERNAL Pos.eqb].
    destruct (Z.eqb_spec (1 + zlen r) 0); [lia|]. change MAX_CHILDREN with 124. destruct (Z.ltb_spec 124 (1 + zlen r)); [lia|]. cbn [orb].
    do 2 f_equal. f_equal.
    + f_equal. unfold rd_u64. rewrite <- app_assoc, slice_mid by (by rewrite ?zlen_le_bytes). by apply le_val_u64.
    + replace (Z.to_nat (1 + zlen r - 1)) with (length r) by (unfold zlen; lia).
      rewrite <- app_assoc, (app_assoc pre). replace (PAGE_HEADER + 8) with (zlen (pre ++ le_bytes 8 c)) by (rewrite zlen_app, zlen_le_bytes; lia).
      apply Rb.
Qed.
End Codec.

(** ** Overlays *)

(** What an overlay makes of the value [old] under a key. *)
Definition eff (o : Overlay) (k : Key) (old : option bytes) : option bytes :=
  match puts o !! k with
  | Some x => x
  | None => if decide (key_vol k ∈ dropped o) then None else old
  end.

(** The map a client of the store sees, and a change on it. *)
Abbreviation MStore := (gmap Z bytes).
Definition store_op (m : MStore) (op : Op) : MStore :=
  match op with
  | Put k v => <[k := v]> m
  | Del k => delete k m
  | DropVolume v => filter (fun kv => key_vol (fst kv) <> v) m
  end.
Definition store_ops (m : MStore) (ops : list Op) : MStore := foldl store_op m ops.

(** [m] is [es] with the overlay over it. *)
Definition shows (es : MStore) (o : Overlay) (m : MStore) : Prop := forall k, m !! k = eff o k (es !! k).

Lemma shows_overlay0 es : shows es overlay0 es.
Proof. intros k. unfold eff. cbn [puts dropped overlay0]. rewrite lookup_empty. by rewrite decide_False by set_solver. Qed.

Lemma shows_op es o m op : shows es o m -> shows es (overlay_apply o op) (store_op m op).
Proof.
  intros H k. specialize (H k). destruct op as [k' v|k'|v]; cbn [store_op overlay_apply]; unfold eff in *; cbn [puts dropped].
  - destruct (decide (k' = k)) as [->|]; [by rewrite !lookup_insert_eq|]. by rewrite !lookup_insert_ne by done.
  - destruct (decide (k' = k)) as [->|]; [by rewrite lookup_delete_eq, lookup_insert_eq|].
    by rewrite lookup_delete_ne, lookup_insert_ne by done.
  - destruct (decide (key_vol k = v)) as [E|E].
    + rewrite (map_lookup_filter_None_2 _ m) by (right; intros ? _ []; done).
      rewrite (map_lookup_filter_None_2 _ (puts o)) by (right; intros ? _ Hn; apply Hn; by apply first_last).
      by rewrite decide_True by set_solver.
    + assert (filter (fun kv => key_vol (fst kv) <> v) m !! k = m !! k) as ->.
      { destruct (m !! k) as [x|] eqn:Em; [by apply map_lookup_filter_Some|apply map_lookup_filter_None; by left]. }
      assert (filter (fun kv => ~ (first_of v <= fst kv <= last_of v)) (puts o) !! k = puts o !! k) as ->.
      { destruct (puts o !! k) as [x|] eqn:Em; [|apply map_lookup_filter_None; by left].
        apply map_lookup_filter_Some. split; [done|]. cbn [fst]. by intros ?%first_last. }
      rewrite H. destruct (puts o !! k); [done|].
      destruct (decide (key_vol k ∈ dropped o)), (decide (key_vol k ∈ {[v]} ∪ dropped o)); set_solver.
Qed.

Lemma shows_ops es o m ops : shows es o m -> shows es (overlay_all o ops) (store_ops m ops).
Proof.
  revert o m. induction ops as [|op ops IH]; intros o m H; [done|]. cbn [overlay_all store_ops foldl]. apply IH. by apply shows_op.
Qed.

Lemma shows_unique es o m m' : shows es o m -> shows es o m' -> m = m'.
Proof. intros H H'. apply map_eq. intros k. by rewrite H, H'. Qed.

Lemma overlay_is_empty_spec o : overlay_is_empty o = true -> o = overlay0.
Proof. unfold overlay_is_empty. rewrite andb_true_iff, !bool_decide_eq_true. destruct o; cbn. by intros [-> ->]. Qed.

Definition within (lo hi : option Key) (k : Key) : Prop :=
  match lo with Some l => l <= k | None => True end /\ match hi with Some h => k < h | None => True end.
Lemma in_range_spec lo hi k : in_range lo hi k = true <-> within lo hi k.
Proof. unfold in_range, within. rewrite andb_true_iff. destruct lo, hi; rewrite ?Z.leb_le, ?Z.ltb_lt; tauto. Qed.
#[export] Instance within_dec lo hi k : Decision (within lo hi k).
Proof. unfold within. destruct lo, hi; apply _. Defined.

Lemma puts_in_false lo hi o k : puts_in lo hi o = false -> within lo hi k -> puts o !! k = None.
Proof.
  unfold puts_in. intros H Hk. destruct (puts o !! k) as [x|] eqn:E; [|done]. exfalso.
  apply not_true_iff_false in H. apply H. apply existsb_exists. exists (k, x).
  split; [apply list_elem_of_In; by apply elem_of_map_to_list|by apply in_range_spec].
Qed.

(** A part of the key space the overlay does not touch is as it was. *)
Lemma touches_false o lo hi k old : touches o lo hi = false -> within lo hi k -> eff o k old = old.
Proof.
  unfold touches. intros [Hp Hd]%orb_false_iff Hk. unfold eff. rewrite (puts_in_false _ _ _ _ Hp Hk).
  destruct (decide (key_vol k ∈ dropped o)) as [Hv|]; [|done]. exfalso.
  apply not_true_iff_false in Hd. apply Hd. apply existsb_exists. exists (key_vol k).
  split; [apply list_elem_of_In; by apply elem_of_elements|].
  pose proof (proj2 (first_last (key_vol k) k) eq_refl). unfold within in Hk.
  destruct lo, hi; rewrite ?andb_true_iff, ?Z.leb_le, ?Z.ltb_lt; lia.
Qed.

(** A part it drops whole holds nothing after it. *)
Lemma drops_whole_true o lo hi k old : drops_whole o lo hi = true -> within lo hi k -> eff o k old = None.
Proof.
  unfold drops_whole. destruct lo as [l|], hi as [h|]; try done.
  rewrite !andb_true_iff, bool_decide_eq_true, negb_true_iff, orb_true_iff. intros [[Hd Hw] Hp] Hk.
  unfold eff. rewrite (puts_in_false _ _ _ _ Hp Hk). destruct Hk as [Hl Hh].
  assert (key_vol k = key_vol l) as ->; [|by rewrite decide_True].
  pose proof (proj2 (first_last (key_vol l) l) eq_refl) as Hr.
  apply first_last. destruct Hw as [Hw|Hw].
  - apply Z.eqb_eq in Hw. pose proof (proj2 (first_last (key_vol h) h) eq_refl). rewrite Hw in *. lia.
  - unfold next_vol in Hw. destruct (_ <? _); [|done]. apply Z.eqb_eq in Hw. subst h.
    unfold first_of, last_of, key_new, u64max in *. lia.
Qed.
