(* ===== verification/MetaTree.v ===== *)
(** The metadata store's tree: [volume/metav2.rs], the pages of a region and the
    copy-on-write B-tree in them; and the device they are on, as
    [drive/crashdev.rs] has it: writes are seen at once and survive a power cut only
    from the next flush on. *)

From stdpp Require Import sorting.
From S2P Require Import Prelude ExtMap MetaPage.

(** ** The device *)

(** The region in blocks of [PAGE] bytes, by number from its [base]: every read and
    write of the store starts at one and is a whole number of them. *)
Abbreviation disk := (gmap Z bytes).
Definition block (d : disk) (i : Z) : bytes := default (zeros PAGE) (d !! i).
(** How an operation of the device ends: it works; it fails and did nothing; or it fails
    although it did its work.  (A write that is done is in the cache, of which a power
    cut leaves any part.) *)
Inductive Outcome := Works | Fails | FailsDone.
Definition works (o : Outcome) : bool := match o with Works => true | _ => false end.
(** [durable]: what survives a power cut for certain; [cached]: the blocks written since
    the last flush, in order; [faults]: how the operations to come end. *)
Record Dev := mkDev { durable : disk; cached : list (Z * bytes); faults : list Outcome }.
Definition land (d : disk) (w : Z * bytes) : disk := <[fst w := snd w]> d.
Definition land_all (d : disk) (ws : list (Z * bytes)) : disk := foldl land d ws.
(** What reads see. *)
Definition view (d : Dev) : disk := land_all (durable d) (cached d).
Definition read_blocks (d : disk) (off n : Z) : bytes := concat (map (block d) (zrange (off / PAGE) ((off + n) / PAGE))).
Definition blocks_of (off : Z) (data : bytes) : list (Z * bytes) :=
  map (fun i => (off / PAGE + i, slice (i * PAGE) PAGE data)) (zrange 0 (zlen data / PAGE)).

(** Of a block a power cut tears, each sector of 512 bytes is as it was or as written. *)
Definition SECTOR : Z := 512.
Definition torn (old new x : bytes) : Prop :=
  zlen x = PAGE /\ forall j, 0 <= j < PAGE / SECTOR ->
    slice (j * SECTOR) SECTOR x = slice (j * SECTOR) SECTOR old \/ slice (j * SECTOR) SECTOR x = slice (j * SECTOR) SECTOR new.
(** What a power cut leaves ([CrashDevice::crash_with]): each block written since the
    last flush landed, or was lost, or was torn.  [in_order]: the drive writes its cache
    in order, so what comes after a lost or torn block is lost. *)
Inductive lands (in_order : bool) : disk -> list (Z * bytes) -> disk -> Prop :=
| LandsEnd d : lands in_order d [] d
| LandsStop d ws : in_order = true -> lands in_order d ws d
| LandsKeep d w ws s : lands in_order (land d w) ws s -> lands in_order d (w :: ws) s
| LandsTear d i b x ws s : torn (block d i) b x -> lands in_order (land d (i, x)) (if in_order then [] else ws) s ->
    lands in_order d ((i, b) :: ws) s
| LandsLose d w ws s : in_order = false -> lands in_order d ws s -> lands in_order d (w :: ws) s.
Definition cut (in_order : bool) (d : Dev) (s : disk) : Prop := lands in_order (durable d) (cached d) s.
(** The device after it. *)
Definition power_on (s : disk) (faults : list Outcome) : Dev := mkDev s [] faults.

(** ** The store *)

(** [unsure] is a history variable: a write or flush of the log or of a superblock
    failed, so whether it took effect is not known. *)
Record MetaV2 := mkMeta {
  dev : Dev; layout : Layout; nonce : Z; gen : Z; root : Z;
  used : list Z; fresh : list Z; retired : list Z;
  log_start : Z; log_tail : Z; next_seq : Z; log_used : Z;
  overlay : Overlay; internal : gmap Z Node; hint : Z; limit : Z; unsure : bool }.

Definition set_dev (d : Dev) (s : MetaV2) : MetaV2 :=
  mkMeta d (layout s) (nonce s) (gen s) (root s) (used s) (fresh s) (retired s) (log_start s) (log_tail s) (next_seq s)
    (log_used s) (overlay s) (internal s) (hint s) (limit s) (unsure s).
(** The page bookkeeping. *)
Definition set_pages (u f r : list Z) (c : gmap Z Node) (h : Z) (s : MetaV2) : MetaV2 :=
  mkMeta (dev s) (layout s) (nonce s) (gen s) (root s) u f r (log_start s) (log_tail s) (next_seq s)
    (log_used s) (overlay s) c h (limit s) (unsure s).
Definition set_log (start tail seq used_ : Z) (s : MetaV2) : MetaV2 :=
  mkMeta (dev s) (layout s) (nonce s) (gen s) (root s) (used s) (fresh s) (retired s) start tail seq
    used_ (overlay s) (internal s) (hint s) (limit s) (unsure s).
Definition set_overlay (o : Overlay) (s : MetaV2) : MetaV2 :=
  mkMeta (dev s) (layout s) (nonce s) (gen s) (root s) (used s) (fresh s) (retired s) (log_start s) (log_tail s) (next_seq s)
    (log_used s) o (internal s) (hint s) (limit s) (unsure s).
Definition set_root (g r : Z) (s : MetaV2) : MetaV2 :=
  mkMeta (dev s) (layout s) (nonce s) g r (used s) (fresh s) (retired s) (log_start s) (log_tail s) (next_seq s)
    (log_used s) (overlay s) (internal s) (hint s) (limit s) (unsure s).
Definition set_unsure (s : MetaV2) : MetaV2 :=
  mkMeta (dev s) (layout s) (nonce s) (gen s) (root s) (used s) (fresh s) (retired s) (log_start s) (log_tail s) (next_seq s)
    (log_used s) (overlay s) (internal s) (hint s) (limit s) true.

(** An operation: its result, and the store it leaves. *)
Definition M (A : Type) : Type := MetaV2 -> result MetaErr A * MetaV2.
Definition ret {A} (a : A) : M A := fun s => (Ok a, s).
Definition fail {A} (e : MetaErr) : M A := fun s => (Err e, s).
Definition bind {A B} (m : M A) (k : A -> M B) : M B :=
  fun s => match m s with (Ok a, s) => k a s | (Err e, s) => (Err e, s) end.
Definition modify (f : MetaV2 -> MetaV2) : M () := fun s => (Ok (), f s).
Definition gets {A} (f : MetaV2 -> A) : M A := fun s => (Ok (f s), s).
Definition lift {A} (r : result MetaErr A) : M A := fun s => (r, s).

Declare Scope meta_scope.
Delimit Scope meta_scope with meta.
Notation "'do' x ':=' m 'in' k" := (bind m (fun x => k)) (at level 10, x name, m at level 200, k at level 200) : meta_scope.
Notation "m ;; k" := (bind m (fun _ => k)) (at level 100, right associativity) : meta_scope.
#[local] Open Scope meta_scope.

(** One operation of the device. *)
Definition dev_op {A} (f : Dev -> A * Dev) : M A := fun s =>
  let d := dev s in
  let d' := mkDev (durable d) (cached d) (tl (faults d)) in
  match default Works (head (faults d)) with
  | Works => let '(a, d'') := f d' in (Ok a, set_dev d'' s)
  | Fails => (Err Io, set_dev d' s)
  | FailsDone => (Err Io, set_dev (snd (f d')) s)
  end.
Definition dev_read (off n : Z) : M bytes := dev_op (fun d => (read_blocks (view d) off n, d)).
Definition dev_write (off : Z) (data : bytes) : M () :=
  dev_op (fun d => ((), mkDev (durable d) (cached d ++ blocks_of off data) (faults d))).
Definition dev_flush : M () := dev_op (fun d => ((), mkDev (view d) [] (faults d))).

(** ** Pages *)

Definition is_used (s : MetaV2) (p : Z) : bool := Z.testbit (nth (Z.to_nat (p / 64)) (used s) 0) (p mod 64).
Definition set_bit (on : bool) (x i : Z) : Z := if on then Z.lor x (Z.shiftl 1 i) else Z.ldiff x (Z.shiftl 1 i).
Definition set_used (p : Z) (on : bool) (s : MetaV2) : MetaV2 :=
  let w := p / 64 in
  set_pages (alter (fun x => set_bit on x (p mod 64)) (Z.to_nat w) (used s)) (fresh s) (retired s) (internal s)
    (if on then hint s else Z.min (hint s) w) s.
Definition push_fresh (p : Z) (s : MetaV2) : MetaV2 := set_pages (used s) (fresh s ++ [p]) (retired s) (internal s) (hint s) s.
Definition set_hint (h : Z) (s : MetaV2) : MetaV2 := set_pages (used s) (fresh s) (retired s) (internal s) h s.
Definition cache_put (p : Z) (n : Node) (s : MetaV2) : MetaV2 :=
  set_pages (used s) (fresh s) (retired s) (<[p := n]> (internal s)) (hint s) s.
Definition uncache (p : Z) (s : MetaV2) : MetaV2 := set_pages (used s) (fresh s) (retired s) (delete p (internal s)) (hint s) s.

(** The first word from [w] on with a zero bit, and [(!word).trailing_zeros()]. *)
Fixpoint free_word (ws : list Z) (w : Z) : option (Z * Z) :=
  match ws with
  | [] => None
  | x :: r => if x =? u64max then free_word r (w + 1) else Some (w, x)
  end.
Definition trailing_ones (x : Z) : Z := default 64 (head (filter (fun i => Z.testbit x i = false) (zseq 0 64))).
Definition alloc_page : M Z := fun s =>
  match free_word (drop (Z.to_nat (hint s)) (used s)) (hint s) with
  | None => (Err RegionFull, s)
  | Some (w, x) =>
      let p := w * 64 + trailing_ones x in
      if (page_count (layout s) <=? p) || (limit s <=? p) then (Err RegionFull, set_hint w s)
      else (Ok p, push_fresh p (set_used p true (set_hint w s)))
  end.

Definition is_internal (n : Node) : bool := match n with Internal _ _ => true | Leaf _ => false end.

Section Tree.
Context (crc32c : bytes -> Z).

Definition page_at (s : MetaV2) (p : Z) : Z := page_off (layout s) + p * PAGE.
Definition read_page (p : Z) : M Node := fun s =>
  if page_count (layout s) <=? p then (Err (PastRegion p), s)
  else (do b := dev_read (page_at s p) PAGE in lift (decode crc32c p b)) s.
Definition node (p : Z) : M Node := fun s =>
  match internal s !! p with
  | Some n => (Ok n, s)
  | None => (do n := read_page p in modify (if is_internal n then cache_put p n else id) ;; ret n) s
  end.
Definition write_node (n : Node) : M Z :=
  do p := alloc_page in
  match encode crc32c n with
  | None => fail Panic
  | Some b =>
      do off := gets (fun s => page_at s p) in
      dev_write off b ;;
      modify (if is_internal n then cache_put p n else id) ;;
      ret p
  end.
Definition retire (p : Z) : M () :=
  modify (fun s => uncache p (set_pages (used s) (fresh s) (retired s ++ [p]) (internal s) (hint s) s)).
Fixpoint each {A} (f : A -> M ()) (l : list A) : M () :=
  match l with [] => ret () | x :: r => f x ;; each f r end.

Definition past (s : MetaV2) (p : Z) : bool := (page_count (layout s) <=? p) || is_used s p.
Definition mark (p : Z) : M () := fun s => if past s p then (Err (NamedTwice p), s) else (Ok (), set_used p true s).
(** The stack, with its top first. *)
Fixpoint mark_loop (fuel : nat) (stack : list Z) : M () :=
  match stack, fuel with
  | [], _ => ret ()
  | _, O => fail OutOfFuel
  | p :: st, S fuel =>
      mark p ;;
      do n := node p in
      match n with
      | Internal level cs =>
          if level =? 1 then each (fun c => mark (snd c)) cs ;; mark_loop fuel st
          else mark_loop fuel (rev (map snd cs) ++ st)
      | Leaf _ => mark_loop fuel st
      end
  end.
Definition mark_reachable : M () :=
  do r := gets root in
  do n := node r in
  match n with
  | Leaf _ => modify (set_used r true)
  | Internal _ _ => do c := gets (fun s => page_count (layout s)) in mark_loop (Z.to_nat c + 1) [r]
  end.

(** The levels of a tree fit in a byte. *)
Definition DEPTH : nat := 256.
Fixpoint subtree_pages (fuel : nat) (p : Z) : M (list Z) :=
  match fuel with
  | O => fail OutOfFuel
  | S fuel =>
      do n := node p in
      match n with
      | Leaf _ => ret [p]
      | Internal level cs =>
          do r := (if level =? 1 then ret (map snd cs)
                   else (fix go (cs : list (option Key * Z)) : M (list Z) :=
                           match cs with
                           | [] => ret []
                           | c :: cs => do a := subtree_pages fuel (snd c) in do b := go cs in ret (a ++ b)
                           end) cs) in
          ret (p :: r)
      end
  end.

(** ** Writing a tree *)

Abbreviation Nodes := (list (option Key * Z)).

Fixpoint pack_loop (es cur : list (Key * bytes)) (size : Z) (out : Nodes) : M Nodes :=
  match es with
  | [] =>
      match cur with
      | [] => ret out
      | (first, _) :: _ => do p := write_node (Leaf cur) in ret (out ++ [(Some first, p)])
      end
  | (k, v) :: es =>
      let need := LEAF_ENTRY + zlen v in
      match cur with
      | (first, _) :: _ =>
          if PAGE <? size + need then
            do p := write_node (Leaf cur) in pack_loop es [(k, v)] (PAGE_HEADER + need) (out ++ [(Some first, p)])
          else pack_loop es (cur ++ [(k, v)]) (size + need) out
      | [] => pack_loop es [(k, v)] (size + need) out
      end
  end.
Definition pack_leaves (es : list (Key * bytes)) : M Nodes := pack_loop es [] PAGE_HEADER [].

Fixpoint pack_chunks (fuel : nat) (level per : Z) (cs out : Nodes) : M Nodes :=
  match cs, fuel with
  | [], _ => ret out
  | _, O => fail OutOfFuel
  | _, S fuel =>
      match take (Z.to_nat per) cs with
      | [] => fail Panic
      | (first, c) :: r =>
          do p := write_node (Internal level ((None, c) :: r)) in
          pack_chunks fuel level per (drop (Z.to_nat per) cs) (out ++ [(first, p)])
      end
  end.
Definition pack_internal (level : Z) (cs : Nodes) : M Nodes :=
  let n := Z.max (div_ceil (zlen cs) MAX_CHILDREN) 1 in
  pack_chunks (length cs) level (div_ceil (zlen cs) n) cs [].
(** [level + 1] on a [u8], checked as a debug build does. *)
Definition next_level (level : Z) : M Z := if level =? 255 then fail Panic else ret (level + 1).
Fixpoint build_loop (fuel : nat) (nodes : Nodes) (level : Z) : M Z :=
  match nodes, fuel with
  | [], _ => ret EMPTY
  | [c], _ => ret (snd c)
  | _, O => fail OutOfFuel
  | _, S fuel =>
      do nodes := pack_internal level nodes in
      do level := next_level level in
      build_loop fuel nodes level
  end.
Definition build_up (nodes : Nodes) (level : Z) : M Z := build_loop (length nodes) nodes level.

(** [BTreeMap::from_iter], and the puts of a range over a map. *)
Definition map_of_list (es : list (Key * bytes)) : gmap Z bytes := foldl (fun m e => <[fst e := snd e]> m) ∅ es.
Definition apply_put (m : gmap Z bytes) (e : Key * option bytes) : gmap Z bytes :=
  match snd e with Some v => <[fst e := v]> m | None => delete (fst e) m end.
Definition puts_range (lo hi : option Key) (o : Overlay) : list (Key * option bytes) :=
  filter (fun e => in_range lo hi (fst e) = true) (entries (puts o)).
Definition not_dropped (o : Overlay) (es : list (Key * bytes)) : list (Key * bytes) :=
  filter (fun e => key_vol (fst e) ∉ dropped o) es.

(** [out.first_mut().0 = lo]. *)
Definition set_first (lo : option Key) (out : Nodes) : Nodes :=
  match out with [] => [] | (_, p) :: r => (lo, p) :: r end.
(** [children.get(i + 1).and_then(|(s, _)| *s).or(hi)]. *)
Definition upper (rest : Nodes) (hi : option Key) : option Key :=
  match rest with (Some s, _) :: _ => Some s | _ => hi end.
Definition lower (rest : Nodes) : option Key := match rest with (s, _) :: _ => s | [] => None end.

(** The children of a node, from the one whose keys start at [lo]: what replaces them,
    and whether that is anything else. *)
Fixpoint apply_children (rec : Z -> option Key -> option Key -> M Nodes) (ov : Overlay) (level : Z)
    (lo : option Key) (cs : Nodes) (hi : option Key) : M (Nodes * bool) :=
  match cs with
  | [] => ret ([], false)
  | (_, child) :: rest =>
      let c_hi := upper rest hi in
      do here :=
        (if negb (touches ov lo c_hi) then ret ([(lo, child)], false)
         else if drops_whole ov lo c_hi then
           do pages := (if level =? 1 then ret [child] else subtree_pages DEPTH child) in
           each retire pages ;; ret ([], true)
         else do repl := rec child lo c_hi in ret (set_first lo repl, true)) in
      do more := apply_children rec ov level (lower rest) rest hi in
      ret (fst here ++ fst more, snd here || snd more)
  end.
Fixpoint apply_node (fuel : nat) (ov : Overlay) (page : Z) (lo hi : option Key) : M Nodes :=
  match fuel with
  | O => fail OutOfFuel
  | S fuel =>
      do n := node page in
      match n with
      | Leaf es =>
          let merged := foldl apply_put (map_of_list (not_dropped ov es)) (puts_range lo hi ov) in
          retire page ;;
          do out := pack_leaves (entries merged) in
          ret (set_first lo out)
      | Internal level cs =>
          do r := apply_children (apply_node fuel ov) ov level lo cs hi in
          if negb (snd r) then ret [(lo, page)]
          else
            retire page ;;
            match fst r with
            | [] => ret []
            | out => do nodes := pack_internal level out in ret (set_first lo nodes)
            end
      end
  end.

(** [Vec::swap_remove]. *)
Definition swap_remove (i : nat) (l : list Z) : list Z :=
  let last := default 0 (last l) in
  if (S i =? length l)%nat then take i l else <[i := last]> (take (length l - 1) l).
(** A page this checkpoint wrote is given back. *)
Definition give_back (p : Z) : M () := modify (fun s =>
  match list_find (fun q => q = p) (fresh s) with
  | Some (i, _) =>
      set_used p false
        (set_pages (used s) (swap_remove i (fresh s)) (take (length (retired s) - 1) (retired s)) (internal s) (hint s) s)
  | None => s
  end).
(** A root with one child is that child. *)
Fixpoint collapse (fuel : nat) (root : Z) : M Z :=
  if root =? EMPTY then ret root
  else
    match fuel with
    | O => fail OutOfFuel
    | S fuel =>
        do n := node root in
        match n with
        | Internal _ [c] => retire root ;; give_back root ;; collapse fuel (snd c)
        | _ => ret root
        end
    end.
Definition live_puts (ov : Overlay) : list (Key * bytes) := omap (fun e => v ← snd e; Some (fst e, v)) (entries (puts ov)).
Definition write_tree (ov : Overlay) : M Z :=
  do r := gets root in
  if r =? EMPTY then
    do leaves := pack_leaves (live_puts ov) in build_up leaves 1
  else
    do n := node r in
    let root_level := match n with Leaf _ => 0 | Internal level _ => level end in
    do nodes := apply_node DEPTH ov r None None in
    do level := next_level root_level in
    do r := build_up nodes level in
    collapse (DEPTH + 1) r.

(** ** Reading *)

Fixpoint scan_loop (fuel : nat) (stack : list Z) (ov : Overlay) : M (list (Key * bytes)) :=
  match stack, fuel with
  | [], _ => ret []
  | _, O => fail OutOfFuel
  | p :: st, S fuel =>
      do n := node p in
      match n with
      | Leaf es => do r := scan_loop fuel st ov in ret (not_dropped ov es ++ r)
      | Internal _ cs => scan_loop fuel (map snd cs ++ st) ov
      end
  end.
Definition scan : M (list (Key * bytes)) :=
  do r := gets root in do ov := gets overlay in do c := gets (fun s => page_count (layout s)) in
  do out := (if r =? EMPTY then ret [] else scan_loop (Z.to_nat c + 1) [r] ov) in
  ret (if bool_decide (puts ov = ∅) then out else entries (foldl apply_put (map_of_list out) (entries (puts ov)))).

(** [c_lo.is_some_and(|l| l > hi) || c_hi.is_some_and(|h| h <= lo)]. *)
Definition misses (lo hi : Key) (c_lo c_hi : option Key) : bool :=
  match c_lo with Some l => hi <? l | None => false end || match c_hi with Some h => h <=? lo | None => false end.
Fixpoint meeting (lo hi : Key) (c_lo : option Key) (cs : Nodes) (p_hi : option Key) : list (Z * option Key * option Key) :=
  match cs with
  | [] => []
  | (_, c) :: rest =>
      let c_hi := upper rest p_hi in
      (if misses lo hi c_lo c_hi then [] else [(c, c_lo, c_hi)]) ++ meeting lo hi (lower rest) rest p_hi
  end.
Fixpoint range_loop (fuel : nat) (lo hi : Key) (stack : list (Z * option Key * option Key)) (ov : Overlay) : M (list (Key * bytes)) :=
  match stack, fuel with
  | [], _ => ret []
  | _, O => fail OutOfFuel
  | (p, p_lo, p_hi) :: st, S fuel =>
      do n := node p in
      match n with
      | Leaf es =>
          do r := range_loop fuel lo hi st ov in
          ret (not_dropped ov (filter (fun e => lo <= fst e <= hi) es) ++ r)
      | Internal _ cs => range_loop fuel lo hi (meeting lo hi p_lo cs p_hi ++ st) ov
      end
  end.
(** [a.0.cmp(&b.0)]. *)
Definition key_le (a b : Key * bytes) : Prop := fst a <= fst b.
#[export] Instance key_le_dec a b : Decision (key_le a b).
Proof. unfold key_le. apply _. Defined.
Definition scan_range (lo hi : Key) : M (list (Key * bytes)) :=
  do r := gets root in do ov := gets overlay in do c := gets (fun s => page_count (layout s)) in
  do out := (if r =? EMPTY then ret [] else range_loop (Z.to_nat c + 1) lo hi [(r, None, None)] ov) in
  let out := merge_sort key_le out in
  let ps := filter (fun e => lo <= fst e <= hi) (entries (puts ov)) in
  ret (match ps with [] => out | _ => entries (foldl apply_put (map_of_list out) ps) end).
Definition scan_volume (v : Z) : M (list (Key * bytes)) := scan_range (first_of v) (last_of v).
End Tree.
