(* ===== verification/MetaTreePages.v ===== *)
(** What makes pages a tree: the well-formedness of the metadata store's B-tree, as a
    predicate on what its pages decode to, and how trees are put together. Reasoning about
    the metadata store's operations: weakest preconditions of its state-and-error monad,
    what writing new pages leaves alone ([ext]), and the operations on single pages. *)

From S2P Require Import Prelude ExtMap MetaPage MetaPageProofs MetaTree.
(** ** Bounds *)

(** A lower bound no higher than [l], an upper bound no lower than [h]; [None] is none. *)
Definition lo_le (lo l : option Key) : Prop :=
  match lo, l with None, _ => True | Some a, Some b => a <= b | Some _, None => False end.
Definition hi_le (h hi : option Key) : Prop :=
  match h, hi with _, None => True | Some a, Some b => a <= b | None, Some _ => False end.
(** A separator between the bounds. *)
Definition between (lo hi : option Key) (k : Key) : Prop :=
  key_ok k /\ match lo with Some l => l <= k | None => True end /\ match hi with Some h => k <= h | None => True end.

Lemma lo_le_refl lo : lo_le lo lo.
Proof. destruct lo; cbn; lia || done. Qed.
Lemma hi_le_refl hi : hi_le hi hi.
Proof. destruct hi; cbn; lia || done. Qed.
Lemma lo_le_trans a b c : lo_le a b -> lo_le b c -> lo_le a c.
Proof. destruct a, b, c; cbn; try done; lia. Qed.
Lemma within_mono lo hi lo' hi' k : lo_le lo' lo -> hi_le hi hi' -> within lo hi k -> within lo' hi' k.
Proof. unfold within. destruct lo, hi, lo', hi'; cbn; lia || tauto. Qed.
Lemma between_mono lo hi lo' hi' k : lo_le lo' lo -> hi_le hi hi' -> between lo hi k -> between lo' hi' k.
Proof. unfold between. destruct lo, hi, lo', hi'; cbn; intuition lia. Qed.
Lemma between_lo lo hi k : between lo hi k -> lo_le lo (Some k).
Proof. unfold between. destruct lo, hi; cbn; lia || tauto. Qed.
Lemma between_hi lo hi k : between lo hi k -> hi_le (Some k) hi.
Proof. unfold between. destruct lo, hi; cbn; lia || tauto. Qed.
Create HintDb storm_meta.
#[export] Hint Resolve lo_le_refl hi_le_refl : storm_meta.
#[export] Hint Resolve between_lo between_hi : storm_meta.

(** ** Entries *)

Definition sorted (es : list (Key * bytes)) : Prop := increasing (map fst es).
(** The value under a key. *)
Definition lk (es : list (Key * bytes)) (k : Key) : option bytes := (list_to_map es : gmap Z bytes) !! k.
Definition es_ok (lo hi : option Key) (es : list (Key * bytes)) : Prop :=
  sorted es /\ Forall (fun e => within lo hi (fst e)) es /\ Forall entry_ok es.

Lemma es_ok_mono lo hi lo' hi' es : lo_le lo' lo -> hi_le hi hi' -> es_ok lo hi es -> es_ok lo' hi' es.
Proof.
  intros Hl Hh (Hs & Hw & He). split_and!; [done| |done]. eapply Forall_impl; [exact Hw|]. cbn. intros e. by apply within_mono.
Qed.

Lemma increasing_app_iff l1 l2 : increasing (l1 ++ l2) <-> increasing l1 /\ increasing l2 /\ forall x y, x ∈ l1 -> y ∈ l2 -> x < y.
Proof.
  induction l1 as [|x l1 IH]; cbn [app].
  { split; [intros; split_and!; [constructor|done|set_solver]|tauto]. }
  split.
  - intros H. inversion H as [|? ? Ht Hx]; subst. apply IH in Ht as (H1 & H2 & H12). apply Forall_app in Hx as [Hx1 Hx2].
    rewrite Forall_forall in Hx2. split_and!; [by constructor|done|]. intros a b [->|Ha]%elem_of_cons Hb; auto.
  - intros (H1 & H2 & H12). inversion H1 as [|? ? Ht Hx]; subst. constructor; [apply IH; split_and!; [done|done|set_solver]|].
    apply Forall_app. split; [done|]. apply Forall_forall. intros b Hb. apply H12; [by left|done].
Qed.

Lemma es_ok_app lo h hi es1 es2 :
  es_ok lo (Some h) es1 -> es_ok (Some h) hi es2 -> lo_le lo (Some h) -> hi_le (Some h) hi -> es_ok lo hi (es1 ++ es2).
Proof.
  intros (S1 & W1 & E1) (S2 & W2 & E2) Hl Hh. split_and!; [|apply Forall_app; split|by apply Forall_app].
  - unfold sorted. rewrite map_app. apply increasing_app_iff. split_and!; [done|done|].
    intros x y (e1 & -> & H1)%list_elem_of_fmap (e2 & -> & H2)%list_elem_of_fmap.
    rewrite Forall_forall in W1, W2. specialize (W1 _ H1). specialize (W2 _ H2). unfold within in *. lia.
  - eapply Forall_impl; [exact W1|]. intros e. by apply within_mono; [apply lo_le_refl|].
  - eapply Forall_impl; [exact W2|]. intros e. by apply within_mono; [|apply hi_le_refl].
Qed.

Lemma lk_app es1 es2 k : lk (es1 ++ es2) k = match lk es1 k with Some v => Some v | None => lk es2 k end.
Proof.
  unfold lk. rewrite list_to_map_app, lookup_union. by destruct (_ !! k), (_ !! k).
Qed.
Lemma lk_None lo hi es k : Forall (fun e => within lo hi (fst e)) es -> ~ within lo hi k -> lk es k = None.
Proof.
  intros H Hk. unfold lk. apply not_elem_of_list_to_map. intros (e & -> & He)%list_elem_of_fmap.
  rewrite Forall_forall in H. by apply Hk, H.
Qed.
Lemma lk_ext es es' : sorted es -> sorted es' -> (forall k, lk es k = lk es' k) -> es = es'.
Proof.
  intros Hs Hs' H. assert ((list_to_map es : gmap Z bytes) = list_to_map es') as E by (apply map_eq; exact H).
  rewrite <- (app_nil_r es), <- (app_nil_r es').
  assert (forall l, sorted l -> l = entries (list_to_map l : gmap Z bytes)) as Hl; [|by rewrite (Hl es), (Hl es'), E].
  clear. intros l Hl. assert (sorted (entries (list_to_map l : gmap Z bytes))) as He by (unfold sorted; rewrite map_fst_entries; apply sort_dedup_increasing).
  pose proof (increasing_NoDup _ Hl) as Nl. pose proof (increasing_NoDup _ He) as Ne.
  assert (map fst l = map fst (entries (list_to_map l : gmap Z bytes))) as Hk.
  { apply increasing_ext; [done|done|]. intros x. rewrite map_fst_entries, elem_of_sorted_keys. split.
    - intros ([k v] & -> & Hin)%list_elem_of_fmap. exists v. by apply elem_of_list_to_map.
    - intros [v Hv]. apply elem_of_list_to_map in Hv; [|done]. apply list_elem_of_fmap. by exists (x, v). }
  apply list_eq. intros i. apply (f_equal (fun q => q !! i)) in Hk. rewrite !list_lookup_fmap in Hk.
  destruct (l !! i) as [[k v]|] eqn:E1, (entries _ !! i) as [[k' v']|] eqn:E2; cbn in Hk; try done. injection Hk as ->.
  apply list_elem_of_lookup_2 in E1, E2. apply elem_of_list_to_map in E1; [|done]. apply elem_of_entries in E2. congruence.
Qed.

(** ** Forests and trees *)

Abbreviation Nodes := (list (option Key * Z)) (only parsing).
Abbreviation Sub := (option Key -> option Key -> Z -> list (Key * bytes) -> list Z -> Prop) (only parsing).

(** Nodes side by side: the first holds keys from [lo], each other from its separator,
    each up to the next; the last up to [hi]. *)
Fixpoint forest (T : Sub) (lo : option Key) (cs : Nodes) (hi : option Key) (es : list (Key * bytes)) (pgs : list Z) : Prop :=
  match cs with
  | [] => es = [] /\ pgs = []
  | (_, c) :: rest => exists es1 es2 pg1 pg2,
      es = es1 ++ es2 /\ pgs = pg1 ++ pg2 /\ T lo (upper rest hi) c es1 pg1 /\ forest T (lower rest) rest hi es2 pg2 /\
      match rest with [] => True | (s, _) :: _ => exists k, s = Some k /\ between lo hi k end
  end.

(** The tree of level [n] at page [p], with keys from [lo] up to [hi]: its entries and
    its pages; [rd] is what a page decodes to. *)
Fixpoint tree (rd : Z -> option Node) (n : nat) (lo hi : option Key) (p : Z) (es : list (Key * bytes)) (pgs : list Z) : Prop :=
  match n with
  | O => rd p = Some (Leaf es) /\ es_ok lo hi es /\ pgs = [p]
  | S n => exists cs pgs',
      rd p = Some (Internal (Z.of_nat (S n)) cs) /\ cs <> [] /\ Z.of_nat (S n) < 256 /\
      pgs = p :: pgs' /\ forest (tree rd n) lo cs hi es pgs'
  end.

(** What a forest needs of its trees. *)
Record sub_ok (T : Sub) : Prop := {
  T_mono lo hi lo' hi' p es pgs : lo_le lo' lo -> hi_le hi hi' -> T lo hi p es pgs -> T lo' hi' p es pgs;
  T_es lo hi p es pgs : T lo hi p es pgs -> es_ok lo hi es }.

Lemma upper_hi rest lo hi : match rest with [] => True | (s, _) :: _ => exists k, s = Some k /\ between lo hi k end -> hi_le (upper rest hi) hi.
Proof. destruct rest as [|[s c] rest]; cbn; [auto with storm_meta|]. intros (k & -> & H). eauto with storm_meta. Qed.

Lemma forest_mono T lo hi lo' hi' cs es pgs :
  sub_ok T -> lo_le lo' lo -> hi_le hi hi' -> forest T lo cs hi es pgs -> forest T lo' cs hi' es pgs.
Proof.
  intros HT. revert lo lo' es pgs. induction cs as [|[s c] rest IH]; intros lo lo' es pgs Hl Hh; [done|].
  cbn [forest]. intros (es1 & es2 & pg1 & pg2 & -> & -> & H1 & H2 & H3). exists es1, es2, pg1, pg2.
  split_and!; [done|done| | |].
  - eapply (T_mono _ HT); [exact Hl| |exact H1]. destruct rest as [|[s' c'] rest]; [exact Hh|].
    destruct H3 as (k & -> & Hk). cbn [upper]. apply hi_le_refl.
  - eapply IH; [apply lo_le_refl|exact Hh|exact H2].
  - destruct rest as [|[s' c'] rest]; [done|]. destruct H3 as (k & -> & Hk). exists k. split; [done|]. by eapply between_mono.
Qed.

Lemma forest_es T lo cs hi es pgs : sub_ok T -> forest T lo cs hi es pgs -> es_ok lo hi es.
Proof.
  intros HT. revert lo es pgs. induction cs as [|[s c] rest IH]; intros lo es pgs; cbn [forest].
  { intros [-> ->]. split_and!; constructor. }
  intros (es1 & es2 & pg1 & pg2 & -> & -> & H1 & H2 & H3). apply (T_es _ HT) in H1.
  destruct rest as [|[s' c'] rest].
  - destruct H2 as [-> ->]. by rewrite app_nil_r.
  - destruct H3 as (k & -> & Hk). cbn [upper lower] in *. eapply es_ok_app; [exact H1|by eapply IH|by eapply between_lo|by eapply between_hi].
Qed.

Lemma tree_sub rd n : sub_ok (tree rd n).
Proof.
  induction n as [|n IH]; split; intros lo hi.
  - intros lo' hi' p es pgs Hl Hh (H1 & H2 & H3). split_and!; [done| |done]. by eapply es_ok_mono.
  - intros p es pgs (_ & H & _). done.
  - intros lo' hi' p es pgs Hl Hh (cs & pgs' & H1 & H2 & H3 & H4 & H5). exists cs, pgs'. split_and!; try done. by eapply forest_mono.
  - intros p es pgs (cs & pgs' & H1 & H2 & H3 & H4 & H5). by eapply forest_es.
Qed.
#[export] Hint Resolve tree_sub : storm_meta.

Lemma forest_impl (T T' : Sub) lo cs hi es pgs :
  (forall l h p e q, (forall x, x ∈ q -> x ∈ pgs) -> T l h p e q -> T' l h p e q) -> forest T lo cs hi es pgs -> forest T' lo cs hi es pgs.
Proof.
  revert lo es pgs. induction cs as [|[s c] rest IH]; intros lo es pgs HT; [done|].
  cbn [forest]. intros (es1 & es2 & pg1 & pg2 & -> & -> & H1 & H2 & H3). exists es1, es2, pg1, pg2.
  split_and!; [done|done| | |done].
  - apply HT; [|done]. set_solver.
  - apply IH; [|done]. intros l h p e q Hq. apply HT. set_solver.
Qed.

(** A tree depends on its own pages only. *)
Lemma tree_rd rd rd' n lo hi p es pgs :
  (forall q, q ∈ pgs -> rd' q = rd q) -> tree rd n lo hi p es pgs -> tree rd' n lo hi p es pgs.
Proof.
  revert lo hi p es pgs. induction n as [|n IH]; intros lo hi p es pgs Hr; cbn [tree].
  - intros (H1 & H2 & ->). split_and!; [|done|done]. by rewrite Hr by set_solver.
  - intros (cs & pgs' & H1 & H2 & H3 & -> & H5). exists cs, pgs'. rewrite Hr by set_solver. split_and!; try done.
    eapply forest_impl; [|exact H5]. intros l h p' e q Hq. apply IH. intros x Hx. apply Hr. right. auto.
Qed.
Lemma forest_rd rd rd' n lo cs hi es pgs :
  (forall q, q ∈ pgs -> rd' q = rd q) -> forest (tree rd n) lo cs hi es pgs -> forest (tree rd' n) lo cs hi es pgs.
Proof. intros Hr. apply forest_impl. intros l h p e q Hq. apply tree_rd. auto. Qed.

(** The pages a tree names, its own first. *)
Lemma tree_root rd n lo hi p es pgs : tree rd n lo hi p es pgs -> exists q, pgs = p :: q.
Proof. destruct n; cbn; [intros (_ & _ & ->); eauto|intros (? & ? & _ & _ & _ & -> & _); eauto]. Qed.

Lemma forest_one T lo p s hi es pgs : forest T lo [(s, p)] hi es pgs <-> T lo hi p es pgs.
Proof.
  cbn. split.
  - intros (es1 & es2 & pg1 & pg2 & -> & -> & H & [-> ->] & _). by rewrite !app_nil_r.
  - intros H. exists es, [], pgs, []. by rewrite !app_nil_r.
Qed.

(** The first separator is not looked at. *)
Lemma forest_set_first T lo l cs hi es pgs : forest T lo (set_first l cs) hi es pgs <-> forest T lo cs hi es pgs.
Proof. by destruct cs as [|[s c] rest]. Qed.

(** Two forests, the second from its own separator on. *)
Lemma forest_app T lo cs1 h cs2 hi es1 es2 pg1 pg2 :
  sub_ok T -> cs1 <> [] -> forest T lo cs1 h es1 pg1 -> forest T (lower cs2) cs2 hi es2 pg2 -> hi_le h hi ->
  match cs2 with [] => True | (s, _) :: _ => exists k, s = Some k /\ hi_le h (Some k) /\ between lo hi k end ->
  forest T lo (cs1 ++ cs2) hi (es1 ++ es2) (pg1 ++ pg2).
Proof.
  intros HT. revert lo es1 pg1. induction cs1 as [|[s c] rest IH]; intros lo es1 pg1 Hne; [done|]. intros H1 H2 Hh Hk.
  cbn [forest app] in *. destruct H1 as (e1 & e2 & q1 & q2 & -> & -> & HT1 & HF & Hs).
  exists e1, (e2 ++ es2), q1, (q2 ++ pg2). rewrite <- !app_assoc. split_and!; [done|done|..].
  - destruct rest as [|[s' c'] rest].
    + cbn [app]. eapply (T_mono _ HT); [apply lo_le_refl| |exact HT1]. cbn [upper].
      destruct cs2 as [|[s2 c2] cs2]; [done|]. by destruct Hk as (k & -> & Hhk & _).
    + destruct Hs as (k & -> & _). exact HT1.
  - destruct rest as [|[s' c'] rest].
    + destruct HF as [-> ->]. exact H2.
    + apply IH; try done. destruct Hs as (k & -> & Hb). cbn [lower]. destruct cs2 as [|[s2 c2] cs2]; [done|].
      destruct Hk as (k2 & -> & Hhk & Hb2). exists k2. split_and!; [done|done|].
      assert (hi_le (Some k) (Some k2)) as Hkk. { destruct h as [h|]; [|done]. destruct Hb as (_ & _ & Hkh). cbn in *. lia. }
      unfold between in *. cbn in Hkk. tauto.
  - destruct rest as [|[s' c'] rest].
    + destruct cs2 as [|[s2 c2] cs2]; [done|]. destruct Hk as (k & -> & _ & Hb). by exists k.
    + destruct Hs as (k & -> & Hb). exists k. split; [done|]. eapply between_mono; [apply lo_le_refl|exact Hh|exact Hb].
Qed.

(** A forest cut in two. *)
Lemma forest_cut T lo cs1 cs2 hi es pgs :
  forest T lo (cs1 ++ cs2) hi es pgs -> cs1 <> [] ->
  exists es1 es2 pg1 pg2, es = es1 ++ es2 /\ pgs = pg1 ++ pg2 /\
    forest T lo cs1 (upper cs2 hi) es1 pg1 /\ forest T (lower cs2) cs2 hi es2 pg2 /\
    match cs2 with [] => True | (s, _) :: _ => exists k, s = Some k /\ between lo hi k end.
Proof.
  revert lo es pgs. induction cs1 as [|[s c] rest IH]; intros lo es pgs H Hne; [done|].
  cbn [app forest] in H. destruct H as (e1 & e2 & q1 & q2 & -> & -> & HT1 & HF & Hs).
  destruct rest as [|[s' c'] rest].
  - cbn [app] in *. exists e1, e2, q1, q2. split_and!; try done. by apply forest_one.
  - cbn [app] in Hs. destruct Hs as (k & -> & Hb). apply IH in HF as (a1 & a2 & b1 & b2 & -> & -> & F1 & F2 & F3); [|done].
    exists (e1 ++ a1), a2, (q1 ++ b1), b2. rewrite <- !app_assoc. split_and!; [done|done| |done|].
    + cbn [forest]. exists e1, a1, q1, b1. split_and!; try done. exists k. split; [done|].
      destruct cs2 as [|[s2 c2] cs2]; [exact Hb|]. destruct F3 as (k2 & -> & Hb2). cbn [upper lower] in *. unfold between in *. tauto.
    + destruct cs2 as [|[s2 c2] cs2]; [done|]. destruct F3 as (k2 & -> & Hb2). exists k2. split; [done|].
      eapply between_mono; [|apply hi_le_refl|exact Hb2]. cbn [lower]. by eapply between_lo.
Qed.

#[local] Open Scope meta_scope.

(** ** Weakest preconditions *)

Definition wp {A} (m : M A) (s : MetaV2) (Q : A -> MetaV2 -> Prop) (E : MetaErr -> MetaV2 -> Prop) : Prop :=
  match m s with (Ok a, s') => Q a s' | (Err e, s') => E e s' end.

Lemma wp_ret {A} (a : A) s (Q : A -> MetaV2 -> Prop) E : Q a s -> wp (ret a) s Q E.
Proof. done. Qed.
Lemma wp_bind {A B} (m : M A) (k : A -> M B) s Q E : wp m s (fun a s' => wp (k a) s' Q E) E -> wp (bind m k) s Q E.
Proof. unfold wp, bind. by destruct (m s) as [[a|e] s']. Qed.
Lemma wp_mono {A} (m : M A) s (Q Q' : A -> MetaV2 -> Prop) (E E' : MetaErr -> MetaV2 -> Prop) :
  wp m s Q E -> (forall a s', Q a s' -> Q' a s') -> (forall e s', E e s' -> E' e s') -> wp m s Q' E'.
Proof. unfold wp. destruct (m s) as [[a|e] s']; auto. Qed.
(** One step: its specification, then what comes after it. *)
Lemma wp_step {A B} (m : M A) (k : A -> M B) s Q Q' (E E' : MetaErr -> MetaV2 -> Prop) :
  wp m s Q E -> (forall a s', Q a s' -> wp (k a) s' Q' E') -> (forall e s', E e s' -> E' e s') -> wp (bind m k) s Q' E'.
Proof. intros H H1 H2. apply wp_bind. eapply wp_mono; eauto. Qed.
Lemma wp_modify f s (Q : () -> MetaV2 -> Prop) E : Q () (f s) -> wp (modify f) s Q E.
Proof. done. Qed.
Lemma wp_gets {A} (f : MetaV2 -> A) s (Q : A -> MetaV2 -> Prop) E : Q (f s) s -> wp (gets f) s Q E.
Proof. done. Qed.
Lemma wp_run {A} (m : M A) s Q E r s' : wp m s Q E -> m s = (r, s') -> match r with Ok a => Q a s' | Err e => E e s' end.
Proof. unfold wp. intros H Er. rewrite Er in H. by destruct r. Qed.

(** ** Blocks and pages *)

Definition layout_ok (l : Layout) : Prop :=
  log_off l = 2 * PAGE /\ 16 * PAGE <= log_len l /\ log_len l mod PAGE = 0 /\ page_off l = 2 * PAGE + log_len l /\
  0 <= page_count l /\ page_off l + page_count l * PAGE < 2 ^ 64.
(** The block page [p] is in. *)
Definition page_block (s : MetaV2) (p : Z) : Z := page_off (layout s) / PAGE + p.

Lemma page_off_blocks l : layout_ok l -> page_off l = page_off l / PAGE * PAGE /\ page_off l / PAGE = 2 + log_len l / PAGE.
Proof.
  intros (_ & _ & Hm & -> & _). assert (PAGE = 4096) as -> by done. replace (2 * 4096 + log_len l) with (log_len l + 2 * 4096) by lia.
  rewrite Z.div_add by lia. pose proof (Z.div_mod (log_len l) 4096 ltac:(lia)). change PAGE with 4096 in Hm. lia.
Qed.

Lemma read_block d k : read_blocks d (k * PAGE) PAGE = block d k.
Proof.
  unfold read_blocks. replace (k * PAGE + PAGE) with ((k + 1) * PAGE) by lia.
  rewrite !Z.div_mul by done. unfold zrange. replace (Z.to_nat (k + 1 - k)) with 1%nat by lia. cbn. by rewrite app_nil_r.
Qed.
Lemma blocks_of_page k b : zlen b = PAGE -> blocks_of (k * PAGE) b = [(k, b)].
Proof.
  intros Hb. unfold blocks_of. rewrite Hb, Z.div_mul, Z.div_same by done. change (zrange 0 1) with [0]. cbn [map].
  rewrite Z.add_0_r. do 2 f_equal. apply slice_all. lia.
Qed.

Lemma land_all_other d ws i : (forall w, w ∈ ws -> fst w <> i) -> land_all d ws !! i = d !! i.
Proof.
  revert d. induction ws as [|w ws IH]; intros d H; [done|]. cbn [land_all foldl]. fold (land_all (land d w) ws). rewrite IH by set_solver.
  unfold land. apply lookup_insert_ne. apply H. by left.
Qed.
Lemma land_all_app d ws ws' : land_all d (ws ++ ws') = land_all (land_all d ws) ws'.
Proof. apply foldl_app. Qed.

(** Everything but the device, the pages' bookkeeping and the cache. *)
Definition fixed (s : MetaV2) := (layout s, nonce s, (gen s, root s), (log_start s, log_tail s, next_seq s, log_used s), overlay s, limit s, unsure s).

(** From [s0] on only pages not in use at [s0] were written: those in [F] are in use
    now, and [R] has been retired since. *)
Record ext (s0 s : MetaV2) (F R : list Z) : Prop := {
  x_fixed : fixed s = fixed s0;
  x_durable : durable (dev s) = durable (dev s0);
  x_cached : exists ws, cached (dev s) = cached (dev s0) ++ ws /\
    Forall (fun w => exists p, 0 <= p < page_count (layout s0) /\ is_used s0 p = false /\ fst w = page_block s0 p /\ zlen (snd w) = PAGE) ws;
  x_used p : 0 <= p -> is_used s p = (is_used s0 p || bool_decide (p ∈ F));
  x_fresh : fresh s ≡ₚ fresh s0 ++ F;
  x_retired : retired s = retired s0 ++ R;
  x_NoDup : NoDup F;
  x_new : Forall (fun p => 0 <= p < page_count (layout s0) /\ p < limit s0 /\ is_used s0 p = false) F }.

Lemma x_layout s0 s F R : ext s0 s F R -> layout s = layout s0.
Proof. intros H. pose proof (x_fixed _ _ _ _ H) as E. unfold fixed in E. congruence. Qed.
Lemma x_block s0 s F R p : ext s0 s F R -> page_block s p = page_block s0 p.
Proof. intros H. unfold page_block. by rewrite (x_layout _ _ _ _ H). Qed.

Lemma ext_same s s' :
  fixed s' = fixed s -> dev s' = dev s -> used s' = used s -> fresh s' = fresh s -> retired s' = retired s -> ext s s' [] [].
Proof.
  intros Hf Hd Hu Hfr Hr. split; try done.
  - by rewrite Hd.
  - exists []. by rewrite Hd, app_nil_r.
  - intros p _. rewrite bool_decide_eq_false_2 by set_solver. rewrite orb_false_r. unfold is_used. by rewrite Hu.
  - by rewrite app_nil_r, Hfr.
  - by rewrite app_nil_r.
  - constructor.
Qed.
Lemma ext_refl s : ext s s [] [].
Proof. by apply ext_same. Qed.

Lemma ext_trans s0 s1 s2 F1 R1 F2 R2 : ext s0 s1 F1 R1 -> ext s1 s2 F2 R2 -> ext s0 s2 (F1 ++ F2) (R1 ++ R2).
Proof.
  intros H1 H2. pose proof (x_layout _ _ _ _ H1) as L1. assert (limit s1 = limit s0) as M1 by (pose proof (x_fixed _ _ _ _ H1) as E; unfold fixed in E; congruence).
  assert (forall p, 0 <= p -> is_used s1 p = false -> is_used s0 p = false /\ p ∉ F1) as Hold.
  { intros p Hp Hu. rewrite (x_used _ _ _ _ H1) in Hu by done. by apply orb_false_iff in Hu as [? ?%bool_decide_eq_false]. }
  split.
  - by rewrite (x_fixed _ _ _ _ H2), (x_fixed _ _ _ _ H1).
  - by rewrite (x_durable _ _ _ _ H2), (x_durable _ _ _ _ H1).
  - destruct (x_cached _ _ _ _ H1) as (ws1 & E1 & W1), (x_cached _ _ _ _ H2) as (ws2 & E2 & W2).
    exists (ws1 ++ ws2). rewrite E2, E1, app_assoc. split; [done|]. apply Forall_app. split; [done|].
    eapply Forall_impl; [exact W2|]. intros w (p & Hp & Hu & Hw & Hz). exists p. rewrite L1 in Hp. destruct (Hold p ltac:(lia) Hu).
    split_and!; [lia..|done| |done]. by rewrite Hw, (x_block _ _ _ _ _ H1).
  - intros p Hp. rewrite (x_used _ _ _ _ H2), (x_used _ _ _ _ H1) by done. rewrite <- orb_assoc. f_equal.
    rewrite (bool_decide_ext (p ∈ F1 ++ F2) (p ∈ F1 \/ p ∈ F2)) by apply elem_of_app. symmetry. apply bool_decide_or.
  - rewrite (x_fresh _ _ _ _ H2), (x_fresh _ _ _ _ H1). by rewrite app_assoc.
  - by rewrite (x_retired _ _ _ _ H2), (x_retired _ _ _ _ H1), app_assoc.
  - apply NoDup_app. split_and!; [apply (x_NoDup _ _ _ _ H1)| |apply (x_NoDup _ _ _ _ H2)].
    intros p Hp Hp2. pose proof (x_new _ _ _ _ H2) as N. rewrite Forall_forall in N. destruct (N p Hp2) as (? & _ & Hu).
    by apply (Hold p ltac:(lia) Hu).
  - apply Forall_app. split; [apply (x_new _ _ _ _ H1)|]. eapply Forall_impl; [apply (x_new _ _ _ _ H2)|].
    intros p (Hp & Hl & Hu). rewrite L1 in Hp. rewrite M1 in Hl. split_and!; [lia..|]. apply Hold; [lia|done].
Qed.

Lemma ext_after s0 s1 s2 F R : ext s0 s1 [] [] -> ext s1 s2 F R -> ext s0 s2 F R.
Proof. intros H1 H2. exact (ext_trans _ _ _ _ _ _ _ H1 H2). Qed.

(** A page in use keeps what it holds. *)
Lemma ext_view s0 s F R i : ext s0 s F R -> (forall p, 0 <= p < page_count (layout s0) -> is_used s0 p = false -> page_block s0 p <> i) ->
  block (view (dev s)) i = block (view (dev s0)) i.
Proof.
  intros H Hi. destruct (x_cached _ _ _ _ H) as (ws & E & W). unfold block, view. rewrite E, (x_durable _ _ _ _ H), land_all_app.
  rewrite land_all_other; [done|]. intros w Hw. rewrite Forall_forall in W. destruct (W w Hw) as (p & Hp & Hu & -> & _). by apply Hi.
Qed.
Lemma ext_used s0 s F R p : ext s0 s F R -> 0 <= p -> is_used s0 p = true -> is_used s p = true.
Proof. intros H Hp Hu. by rewrite (x_used _ _ _ _ H), Hu. Qed.
Lemma ext_fresh_used s0 s F R p : ext s0 s F R -> p ∈ F -> is_used s p = true /\ 0 <= p < page_count (layout s) /\ is_used s0 p = false.
Proof.
  intros H Hp. pose proof (x_new _ _ _ _ H) as N. rewrite Forall_forall in N. destruct (N p Hp) as (? & _ & Hn).
  rewrite (x_layout _ _ _ _ H). split_and!; [|lia..|done]. rewrite (x_used _ _ _ _ H), bool_decide_eq_true_2 by (done || lia). apply orb_true_r.
Qed.

Section Pages.
Context (crc32c : bytes -> Z).

(** What page [p] holds. *)
Definition page_node (s : MetaV2) (p : Z) : option Node :=
  match decode crc32c p (block (view (dev s)) (page_block s p)) with Ok n => Some n | Err _ => None end.

(** The bookkeeping is sound. *)
Record wf (s : MetaV2) : Prop := {
  w_layout : layout_ok (layout s);
  w_used : Forall (fun x => 0 <= x < 2 ^ 64) (used s);
  w_len : page_count (layout s) <= 64 * zlen (used s);
  w_hint : 0 <= hint s;
  w_retired : Forall (fun p => 0 <= p < page_count (layout s) /\ is_used s p = true) (retired s);
  w_cache p n : internal s !! p = Some n ->
    is_internal n = true /\ 0 <= p < page_count (layout s) /\ is_used s p = true /\ (p ∉ retired s) /\ page_node s p = Some n }.

Lemma ext_node s0 s F R p : ext s0 s F R -> is_used s0 p = true -> page_node s p = page_node s0 p.
Proof.
  intros H Hp. unfold page_node. rewrite (x_block _ _ _ _ _ H), (ext_view _ _ _ _ _ H); [done|].
  intros q Hq Hu Hb. assert (q = p) as -> by (unfold page_block in Hb; lia). congruence.
Qed.
(** What every operation on the tree may end in when it fails. *)
Definition soft (e : MetaErr) : Prop := e = Io \/ e = RegionFull \/ e = Panic.
Definition failed (s : MetaV2) (e : MetaErr) (s' : MetaV2) : Prop := soft e /\ exists F R, ext s s' F R /\ wf s'.
Lemma failed_trans s s1 e s2 F R : ext s s1 F R -> failed s1 e s2 -> failed s e s2.
Proof. intros H (He & F' & R' & H' & W). split; [done|]. exists (F ++ F'), (R ++ R'). split; [by eapply ext_trans|done]. Qed.
Lemma failed_here s e : soft e -> wf s -> failed s e s.
Proof. intros. split; [done|]. exists [], []. split; [apply ext_refl|done]. Qed.

(** ** Operations on one page *)

Lemma set_bit_spec on x i j : 0 <= i -> 0 <= j -> Z.testbit (set_bit on x i) j = (if i =? j then on else Z.testbit x j).
Proof.
  intros Hi Hj. assert (Z.testbit (Z.shiftl 1 i) j = (i =? j)) as E.
  { rewrite Z.shiftl_spec by done. change 1 with (2 ^ 0). rewrite Z.pow2_bits_eqb by lia. bool_cases; lia. }
  unfold set_bit. destruct on; [rewrite Z.lor_spec, E|rewrite Z.ldiff_spec, E]; destruct (i =? j); cbn;
    rewrite ?orb_true_r, ?orb_false_r, ?andb_false_r, ?andb_true_r; done.
Qed.
Lemma set_bit_range on x i : 0 <= i < 64 -> 0 <= x < 2 ^ 64 -> 0 <= set_bit on x i < 2 ^ 64.
Proof.
  intros Hi Hx. assert (0 <= set_bit on x i) as Hn.
  { unfold set_bit. destruct on; [apply Z.lor_nonneg; split; [lia|apply Z.shiftl_nonneg; lia]|apply Z.ldiff_nonneg; lia]. }
  split; [done|].
  destruct (Z.eq_dec (set_bit on x i) 0) as [->|]; [lia|]. apply Z.log2_lt_pow2; [lia|].
  apply Z.nle_gt. intros Hl. pose proof (Z.bit_log2 (set_bit on x i) ltac:(lia)) as Hb.
  rewrite set_bit_spec in Hb by lia. destruct (Z.eqb_spec i (Z.log2 (set_bit on x i))); [lia|].
  rewrite Z.bits_above_log2 in Hb; [done|lia|]. destruct (Z.eq_dec x 0) as [->|]; [cbn; lia|]. apply (Z.lt_le_trans _ 64); [|lia]. apply Z.log2_lt_pow2; lia.
Qed.

Lemma is_used_set_used p on s q :
  0 <= p -> p < 64 * zlen (used s) -> 0 <= q ->
  is_used (set_used p on s) q = if p =? q then on else is_used s q.
Proof.
  intros Hp Hl Hq. unfold is_used, set_used. cbn [used set_pages]. rewrite !nth_lookup.
  pose proof (Z.div_mod p 64 ltac:(lia)) as Dp. pose proof (Z.mod_pos_bound p 64 ltac:(lia)).
  pose proof (Z.div_mod q 64 ltac:(lia)) as Dq. pose proof (Z.mod_pos_bound q 64 ltac:(lia)).
  assert (0 <= p / 64) by (apply Z.div_pos; lia). assert (0 <= q / 64) by (apply Z.div_pos; lia).
  destruct (decide (p / 64 = q / 64)) as [E|E].
  - rewrite <- E, list_lookup_alter_eq. destruct (lookup_lt_is_Some_2 (used s) (Z.to_nat (p / 64))) as [x Hx]; [unfold zlen in Hl; lia|].
    rewrite Hx. cbn. rewrite set_bit_spec by lia. destruct (Z.eqb_spec (p mod 64) (q mod 64)), (Z.eqb_spec p q); try done; lia.
  - rewrite list_lookup_alter_ne by lia. destruct (Z.eqb_spec p q) as [->|]; [lia|done].
Qed.
Lemma used_ok_set_used p on s :
  0 <= p -> Forall (fun x => 0 <= x < 2 ^ 64) (used s) -> Forall (fun x => 0 <= x < 2 ^ 64) (used (set_used p on s)).
Proof.
  intros Hp H. unfold set_used. cbn [used set_pages]. apply Forall_lookup. intros i x Hx.
  pose proof (Z.mod_pos_bound p 64 ltac:(lia)).
  destruct (decide (i = Z.to_nat (p / 64))) as [->|].
  - rewrite list_lookup_alter_eq in Hx. destruct (used s !! Z.to_nat (p / 64)) as [y|] eqn:E; [|done]. cbn in Hx. injection Hx as <-.
    apply set_bit_range; [lia|]. by apply (Forall_lookup_1 _ _ _ _ H E).
  - rewrite list_lookup_alter_ne in Hx by done. by apply (Forall_lookup_1 _ _ _ _ H Hx).
Qed.

Lemma free_word_spec ws w w' x : 0 <= w -> free_word ws w = Some (w', x) -> w <= w' /\ ws !! Z.to_nat (w' - w) = Some x /\ x <> u64max.
Proof.
  revert w. induction ws as [|y ws IH]; intros w Hw; [done|]. cbn [free_word].
  destruct (Z.eqb_spec y u64max); intros H.
  - apply IH in H as (H1 & H2 & H3); [|lia]. split_and!; [lia| |done].
    replace (Z.to_nat (w' - w)) with (S (Z.to_nat (w' - (w + 1)))) by lia. done.
  - injection H as <- <-. rewrite Z.sub_diag. split_and!; [lia|done|done].
Qed.
Lemma trailing_ones_spec x : 0 <= x < 2 ^ 64 -> x <> u64max -> 0 <= trailing_ones x < 64 /\ Z.testbit x (trailing_ones x) = false.
Proof.
  intros Hx Hne. unfold trailing_ones. destruct (filter _ _) as [|i l] eqn:E.
  - exfalso. apply Hne. apply Z.bits_inj'. intros n Hn. change u64max with (Z.ones 64).
    destruct (Z.lt_ge_cases n 64) as [H|H].
    + rewrite Z.ones_spec_low by lia. destruct (Z.testbit x n) eqn:Eb; [done|].
      assert (n ∈ filter (fun i => Z.testbit x i = false) (zseq 0 64)) as Hin; [|rewrite E in Hin; by apply not_elem_of_nil in Hin].
      apply list_elem_of_filter. split; [done|]. apply elem_of_zseq. lia.
    + rewrite Z.ones_spec_high by lia. rewrite <- (Z.mod_small x (2 ^ 64)) by lia. apply Z.mod_pow2_bits_high. lia.
  - cbn. assert (i ∈ i :: l) as Hin by (by left). rewrite <- E in Hin. apply list_elem_of_filter in Hin as [H1 H2].
    apply elem_of_zseq in H2. split; [lia|done].
Qed.

Lemma fixed_set_pages u f r c h s : fixed (set_pages u f r c h s) = fixed s.
Proof. done. Qed.

(** The page handed out was not in use. *)
Lemma alloc_page_spec s : wf s ->
  wp alloc_page s (fun p s' => ext s s' [p] [] /\ wf s' /\ internal s' !! p = None /\ dev s' = dev s) (failed s).
Proof.
  intros W. unfold wp, alloc_page. destruct (free_word _ _) as [[w x]|] eqn:E.
  2: { apply failed_here; [by right; left|done]. }
  apply free_word_spec in E as (Hw & Hx & Hne); [|apply W]. pose proof (w_hint _ W). rewrite lookup_drop in Hx.
  replace (Z.to_nat (hint s) + Z.to_nat (w - hint s))%nat with (Z.to_nat w) in Hx by lia.
  pose proof (Forall_lookup_1 _ _ _ _ (w_used _ W) Hx) as Rx. cbn in Rx. destruct (trailing_ones_spec x Rx Hne) as [Rt Ht].
  set (p := w * 64 + trailing_ones x) in *.
  assert (p / 64 = w) as Dp by (subst p; rewrite Z.div_add_l, Z.div_small by lia; lia).
  assert (p mod 64 = trailing_ones x) as Mp by (subst p; rewrite Z.add_comm, Z.mod_add, Z.mod_small by lia; lia).
  assert (is_used s p = false) as Up. { unfold is_used. rewrite Dp, nth_lookup, Hx, Mp. done. }
  destruct (Z.leb_spec (page_count (layout s)) p), (Z.leb_spec (limit s) p); cbn [orb].
  1-3: split; [by right; left|]; exists [], []; split; [by apply ext_same|].
  1-3: split; try apply W; cbn; lia.
  pose proof (w_len _ W).
  assert (forall q, 0 <= q -> is_used (set_used p true (set_hint w s)) q = if p =? q then true else is_used s q) as Hset.
  { intros q Hq. rewrite is_used_set_used; [done|lia|cbn; lia|done]. }
  split_and!; [|split|cbn|done].
  - split; try done.
    + exists []. by rewrite app_nil_r.
    + intros q Hq. change (is_used (push_fresh _ _) q) with (is_used (set_used p true (set_hint w s)) q). rewrite Hset by done.
      destruct (Z.eqb_spec p q) as [->|]; [rewrite bool_decide_eq_true_2 by set_solver; by rewrite orb_true_r|].
      rewrite bool_decide_eq_false_2 by set_solver. by rewrite orb_false_r.
    + cbn. by rewrite app_nil_r.
    + apply NoDup_singleton.
    + repeat constructor; [lia..|done].
  - apply W.
  - apply (used_ok_set_used p true s); [lia|apply W].
  - cbn. unfold zlen. rewrite length_alter. apply W.
  - cbn. lia.
  - eapply Forall_impl; [apply (w_retired _ W)|]. cbn. intros q [Hq Hu]. split; [done|].
    change (is_used (push_fresh _ _) q) with (is_used (set_used p true (set_hint w s)) q). rewrite Hset by lia. by destruct (_ =? _).
  - intros q n Hq. destruct (w_cache _ W q n Hq) as (? & ? & ? & ? & ?). split_and!; try done; [cbn; lia..|].
    change (is_used (push_fresh _ _) q) with (is_used (set_used p true (set_hint w s)) q). rewrite Hset by lia. by destruct (_ =? _).
  - destruct (internal s !! p) as [n|] eqn:Ec; [|done]. destruct (w_cache _ W p n Ec) as (_ & _ & Hu & _). congruence.
Qed.

Definition readable (s : MetaV2) (p : Z) : Prop := 0 <= p < page_count (layout s) /\ is_used s p = true /\ (p ∉ retired s).

Lemma dev_op_faults {A} (f : Dev -> A * Dev) s :
  exists d', durable d' = durable (dev s) /\ cached d' = cached (dev s) /\
    (dev_op f s = (Err Io, set_dev d' s) \/ dev_op f s = (Err Io, set_dev (snd (f d')) s) \/
     dev_op f s = (let '(a, d'') := f d' in (Ok a, set_dev d'' s))).
Proof.
  exists (mkDev (durable (dev s)) (cached (dev s)) (tl (faults (dev s)))). unfold dev_op.
  destruct (default Works (head (faults (dev s)))); cbn [durable cached]; auto.
Qed.

(** The same store with some of the device's outcomes used up. *)
Lemma ext_set_dev d s : durable d = durable (dev s) -> cached d = cached (dev s) -> ext s (set_dev d s) [] [].
Proof.
  intros Hd Hc. split; try done.
  - exists []. by rewrite app_nil_r.
  - intros p _. rewrite bool_decide_eq_false_2 by set_solver. by rewrite orb_false_r.
  - by rewrite app_nil_r.
  - by rewrite app_nil_r.
  - constructor.
Qed.
Lemma view_eq d d' : durable d = durable d' -> cached d = cached d' -> view d = view d'.
Proof. unfold view. by intros -> ->. Qed.

(** [wf] looks at the pages, the bookkeeping and the cache. *)
Lemma wf_ext s s' F R :
  wf s -> ext s s' F R -> Forall (fun p => 0 <= p < page_count (layout s) /\ is_used s p = true) R ->
  Forall (fun x => 0 <= x < 2 ^ 64) (used s') -> page_count (layout s) <= 64 * zlen (used s') -> 0 <= hint s' ->
  (forall p n, internal s' !! p = Some n -> (p ∉ retired s') /\ (internal s !! p = Some n \/ is_internal n = true /\
     0 <= p < page_count (layout s) /\ is_used s' p = true /\ page_node s' p = Some n)) ->
  wf s'.
Proof.
  intros W H HR Hu Hl Hh Hc. pose proof (x_layout _ _ _ _ H) as EL. split; rewrite ?EL; try done; [apply W| |].
  - rewrite (x_retired _ _ _ _ H). apply Forall_app. split.
    + eapply Forall_impl; [apply (w_retired _ W)|]. cbn. intros p [Hp Hup]. split; [done|]. eapply ext_used; [exact H|lia|done].
    + eapply Forall_impl; [exact HR|]. cbn. intros p [Hp Hup]. split; [done|]. eapply ext_used; [exact H|lia|done].
  - intros p n Hp. destruct (Hc p n Hp) as [Hr [Hold|(? & ? & ? & ?)]]; [|done].
    destruct (w_cache _ W p n Hold) as (? & ? & Hup & ? & Hn). split_and!; try done; [lia..|eapply ext_used; [exact H|lia|done]|].
    by rewrite (ext_node _ _ _ _ _ H).
Qed.

Lemma wf_set_dev d s : durable d = durable (dev s) -> cached d = cached (dev s) -> wf s -> wf (set_dev d s).
Proof.
  intros Hd Hc W. eapply (wf_ext s); [done|by apply ext_set_dev|done|apply W|apply W|apply W|].
  intros p n Hp. destruct (w_cache _ W p n Hp) as (_ & _ & _ & Hr & _). split; [exact Hr|by left].
Qed.

Lemma read_page_spec p n s : wf s -> 0 <= p < page_count (layout s) -> page_node s p = Some n ->
  wp (read_page crc32c p) s (fun n' s' => n' = n /\ exists d, durable d = durable (dev s) /\ cached d = cached (dev s) /\ s' = set_dev d s) (failed s).
Proof.
  intros W Hp Hn. unfold wp, read_page. destruct (Z.leb_spec (page_count (layout s)) p); [lia|].
  unfold bind, dev_read. destruct (dev_op_faults (fun d => (read_blocks (view d) (page_at s p) PAGE, d)) s) as (d & Hd & Hc & [->|[->| ->]]).
  1, 2: split; [by left|]; exists [], []; split; [by apply ext_set_dev|by apply wf_set_dev].
  - unfold lift. assert (read_blocks (view d) (page_at s p) PAGE = block (view (dev s)) (page_block s p)) as ->.
    { rewrite (view_eq d (dev s)) by done. destruct (page_off_blocks _ (w_layout _ W)) as [E _].
      unfold page_at, page_block. rewrite <- read_block. f_equal. lia. }
    unfold page_node in Hn. destruct (decode _ _ _); [|done]. injection Hn as ->. split; [done|]. by exists d.
Qed.

Lemma node_spec p n s : wf s -> readable s p -> page_node s p = Some n ->
  wp (node crc32c p) s (fun n' s' => n' = n /\ ext s s' [] [] /\ wf s') (failed s).
Proof.
  intros W (Hp & Hu & Hr) Hn. unfold wp, node. destruct (internal s !! p) as [n'|] eqn:Ec.
  { destruct (w_cache _ W p n' Ec) as (_ & _ & _ & _ & Hn'). split_and!; [congruence|apply ext_refl|done]. }
  apply (wp_step _ _ _ _ _ _ _ (read_page_spec p n s W Hp Hn)); [|done].
  intros n' s' (-> & d & Hd & Hc & ->). unfold wp. cbn [bind modify ret]. split; [done|].
  pose proof (wf_set_dev d s Hd Hc W) as W'. destruct (is_internal n) eqn:Ei; [|split; [by apply ext_set_dev|done]].
  assert (ext s (cache_put p n (set_dev d s)) [] []) as X.
  { eapply ext_after; [by apply ext_set_dev|by apply ext_same]. }
  split; [exact X|]. eapply (wf_ext s); [done|exact X|done|apply W|apply W|apply W|].
  intros q m Hq. cbn [cache_put internal set_pages] in Hq. destruct (decide (p = q)) as [<-|].
  - rewrite lookup_insert_eq in Hq. injection Hq as <-. split; [done|]. right. split_and!; try done; [lia..|].
    unfold page_node. by rewrite (view_eq (dev (cache_put p n (set_dev d s))) (dev s)) by done.
  - rewrite lookup_insert_ne in Hq by done. destruct (w_cache _ W q m Hq) as (_ & _ & _ & Hrq & _). split; [exact Hrq|by left].
Qed.

Lemma retire_spec p s : wf s -> 0 <= p < page_count (layout s) -> is_used s p = true ->
  wp (retire p) s (fun _ s' => ext s s' [] [p] /\ wf s') (failed s).
Proof.
  intros W Hp Hu. unfold wp, retire, modify. set (s' := uncache _ _).
  assert (ext s s' [] [p]) as X.
  { split; try done.
    - exists []. by rewrite app_nil_r.
    - intros q _. rewrite bool_decide_eq_false_2 by set_solver. by rewrite orb_false_r.
    - by rewrite app_nil_r.
    - constructor. }
  split; [exact X|]. eapply (wf_ext s); [done|exact X|by apply Forall_singleton|apply W|apply W|apply W|].
  intros q n Hq. cbn [s' uncache internal set_pages] in Hq. apply lookup_delete_Some in Hq as [Hne Hq].
  destruct (w_cache _ W q n Hq) as (_ & _ & _ & Hrq & _). split; [|by left].
  cbn. rewrite elem_of_app. intros [|Hin%list_elem_of_singleton]; [done|by destruct Hne].
Qed.

Lemma each_retire_spec ps s : wf s -> Forall (fun p => 0 <= p < page_count (layout s) /\ is_used s p = true) ps ->
  wp (each retire ps) s (fun _ s' => ext s s' [] ps /\ wf s') (failed s).
Proof.
  revert s. induction ps as [|p ps IH]; intros s W H; [split; [apply ext_refl|done]|].
  inversion H as [|? ? [Hp Hu] H']; subst. cbn [each].
  eapply wp_step; [by apply retire_spec| |done]. intros _ s1 [X1 W1]. eapply wp_mono; [apply IH; [done|]| |].
  - eapply Forall_impl; [exact H'|]. cbn. intros q [Hq Hqu]. rewrite (x_layout _ _ _ _ X1). split; [done|]. eapply ext_used; [exact X1|lia|done].
  - intros _ s2 [X2 W2]. split; [|done]. exact (ext_trans _ _ _ _ _ _ _ X1 X2).
  - intros e s2. by apply (failed_trans _ _ _ _ _ _ X1).
Qed.
End Pages.

(** Writing a node takes a page that was not in use, and the page then holds it. *)
Section Write.
Context (crc32c : bytes -> Z) (Hcrc : forall b, u32_ok (crc32c b)).

Lemma land_new s s1 p b F R :
  ext s s1 F R -> p ∈ F -> zlen b = PAGE ->
  ext s (set_dev (mkDev (durable (dev s1)) (cached (dev s1) ++ [(page_block s p, b)]) (faults (dev s1))) s1) F R.
Proof.
  intros X Hp Hb. destruct (ext_fresh_used _ _ _ _ _ X Hp) as (_ & Hr & Hu). rewrite (x_layout _ _ _ _ X) in Hr.
  destruct X as [Xf Xd (ws & Xc & Xw) Xu Xfr Xr XN Xn]. split; try done.
  exists (ws ++ [(page_block s p, b)]). cbn [set_dev dev cached]. rewrite Xc, app_assoc. split; [done|].
  apply Forall_app. split; [done|]. apply Forall_singleton. by exists p.
Qed.

Lemma node_at_written d i b l nd p :
  nd = mkDev (durable d) (cached d ++ [(i, b)]) l -> decode crc32c p (block (view nd) i) = decode crc32c p b.
Proof.
  intros ->. unfold view, block. cbn [durable cached]. rewrite land_all_app. cbn. unfold land. cbn [fst snd]. by rewrite lookup_insert_eq.
Qed.

Lemma write_node_spec n s : wf crc32c s -> node_ok n ->
  wp (write_node crc32c n) s (fun p s' => ext s s' [p] [] /\ wf crc32c s' /\ page_node crc32c s' p = Some n) (failed crc32c s).
Proof using Hcrc.
  intros W Hn. unfold write_node. eapply wp_step; [by apply alloc_page_spec| |done].
  intros p s1 (X1 & W1 & Hnc & Hd1). destruct (encode_fits crc32c n Hn) as (b & Eb & Lb). rewrite Eb.
  apply wp_bind, wp_gets. unfold wp, bind, dev_write.
  assert (page_at s1 p = page_block s p * PAGE) as ->.
  { destruct (page_off_blocks _ (w_layout _ _ W)) as [E _]. unfold page_at, page_block. rewrite (x_layout _ _ _ _ X1). lia. }
  destruct (dev_op_faults (fun d => ((), mkDev (durable d) (cached d ++ blocks_of (page_block s p * PAGE) b) (faults d))) s1) as (d & Hd & Hc & HO).
  rewrite blocks_of_page in HO |- * by done. cbn [snd] in HO.
  set (s2 := set_dev (mkDev _ _ _) s1) in HO. assert (ext s s2 [p] []) as X2.
  { pose proof (land_new s (set_dev d s1) p b [p] [] (ext_trans _ _ _ _ _ _ _ X1 (ext_set_dev d s1 Hd Hc)) ltac:(by left) Lb) as X. exact X. }
  assert (page_node crc32c s2 p = Some n) as Hpn.
  { unfold page_node. rewrite (x_block _ _ _ _ _ X2), (node_at_written d (page_block s p) b (faults d)) by done.
    by rewrite (decode_encode crc32c Hcrc p n b). }
  destruct (ext_fresh_used _ _ _ _ p X2 ltac:(by left)) as (Hu & Hr & Hu0). pose proof (x_layout _ _ _ _ X2) as EL.
  assert (p ∉ retired s1) as Hnr.
  { rewrite (x_retired _ _ _ _ X1), app_nil_r. intros Hin. pose proof (w_retired _ _ W) as Wr. rewrite Forall_forall in Wr. destruct (Wr p Hin). congruence. }
  assert (wf crc32c s2) as W2.
  { eapply (wf_ext _ s); [done|exact X2|done|apply W1|rewrite <- EL; apply W1|apply W1|].
    intros q m Hq. change (internal s2) with (internal s1) in Hq. destruct (w_cache _ _ W1 q m Hq) as (Hi & Hqr & Hqu & Hqn & Hqp).
    split; [exact Hqn|]. right. rewrite (x_layout _ _ _ _ X1) in Hqr. split_and!; try done; [lia..|].
    assert (q <> p) by (intros ->; congruence). rewrite (ext_node _ s s2 _ _ q X2).
    - rewrite <- Hqp. symmetry. apply (ext_node _ s s1 _ _ q X1).
      rewrite (x_used _ _ _ _ X1), bool_decide_eq_false_2, orb_false_r in Hqu by (set_solver || lia). done.
    - rewrite (x_used _ _ _ _ X1), bool_decide_eq_false_2, orb_false_r in Hqu by (set_solver || lia). done. }
  destruct HO as [->|[->| ->]].
  { split; [by left|]. exists [p], []. split; [|by apply wf_set_dev].
    exact (ext_trans _ _ _ _ _ _ _ X1 (ext_set_dev d s1 Hd Hc)). }
  { split; [by left|]. by exists [p], []. }
  cbn [modify ret]. fold s2. destruct (is_internal n) eqn:Ei; [|by split_and!].
  assert (ext s (cache_put p n s2) [p] []) as X3 by exact (ext_trans _ _ _ _ _ _ _ X2 (ext_same s2 (cache_put p n s2) eq_refl eq_refl eq_refl eq_refl eq_refl)).
  split_and!; [done| |done].
  eapply (wf_ext _ s2); [done|by apply ext_same|done|apply W2|apply W2|apply W2|].
  intros q m Hq. cbn [cache_put internal set_pages] in Hq. destruct (decide (p = q)) as [<-|].
  - rewrite lookup_insert_eq in Hq. injection Hq as <-. split; [exact Hnr|]. right. split_and!; try done; lia.
  - rewrite lookup_insert_ne in Hq by done. destruct (w_cache _ _ W2 q m Hq) as (_ & _ & _ & Hrq & _). split; [exact Hrq|by left].
Qed.
End Write.
#[export] Hint Resolve ext_refl : storm_meta.
