(* ===== verification/MetaTreeApply.v ===== *)
(** Packing entries and nodes into new pages: leaves, the nodes above them, and the root
    over all. Folding an overlay into the tree: the new tree holds what the overlay makes of
    the old one's entries, on new pages and the old ones it did not touch. *)

From S2P Require Import Prelude ExtMap MetaPage MetaPageProofs MetaTree MetaTreePages.
#[local] Open Scope meta_scope.

Lemma es_ok_cut lo hi a k v b :
  es_ok lo hi (a ++ (k, v) :: b) -> es_ok lo (Some k) a /\ es_ok (Some k) hi ((k, v) :: b) /\ between lo hi k.
Proof.
  intros (Hs & Hw & He). unfold sorted in Hs. rewrite map_app in Hs. apply increasing_app_iff in Hs as (S1 & S2 & S12).
  apply Forall_app in Hw as [W1 W2]. apply Forall_app in He as [E1 E2].
  assert (Forall (fun e => within (Some k) hi (fst e)) ((k, v) :: b)) as W2'.
  { cbn [map fst] in S2. inversion S2 as [|? ? _ Hk]; subst. inversion W2 as [|? ? Hk0 Hb]; subst. constructor.
    - unfold within in *. cbn [fst] in *. split; [lia|tauto].
    - rewrite Forall_forall in Hk. rewrite Forall_forall in Hb. apply Forall_forall. intros e Hin. specialize (Hb e Hin).
      specialize (Hk (fst e) ltac:(apply list_elem_of_fmap; by exists e)). unfold within in *. split; [lia|tauto]. }
  split; [|split].
  - split_and!; [done| |done]. apply Forall_forall. intros e Hin. rewrite Forall_forall in W1. specialize (W1 e Hin). unfold within in *.
    split; [tauto|]. apply S12; [apply list_elem_of_fmap; by exists e|by left].
  - by split_and!.
  - inversion W2 as [|? ? Hk0 _]; subst. inversion E2 as [|? ? [Hk1 _] _]; subst. cbn [fst] in *. unfold within in Hk0.
    split_and!; [done|destruct lo; tauto|destruct hi; [lia|done]].
Qed.

Lemma zlen_concat_snoc es e : zlen (concat (map leaf_bytes (es ++ [e]))) = zlen (concat (map leaf_bytes es)) + LEAF_ENTRY + zlen (snd e).
Proof. rewrite map_app, concat_app, zlen_app. cbn [map concat]. rewrite app_nil_r, zlen_leaf_bytes. lia. Qed.

Section Pack.
Context (crc32c : bytes -> Z) (Hcrc : forall b, u32_ok (crc32c b)).
Abbreviation rd := (page_node crc32c).
Abbreviation wf := (wf crc32c).
Abbreviation failed := (failed crc32c).

Lemma tree_ext s s' F R n lo hi p es pgs :
  ext s s' F R -> (forall q, q ∈ pgs -> is_used s q = true) -> tree (rd s) n lo hi p es pgs -> tree (rd s') n lo hi p es pgs.
Proof. intros X Hu. apply tree_rd. intros q Hq. by apply (ext_node _ _ _ _ _ _ X), Hu. Qed.
Lemma forest_ext s s' F R n lo hi cs es pgs :
  ext s s' F R -> (forall q, q ∈ pgs -> is_used s q = true) -> forest (tree (rd s) n) lo cs hi es pgs -> forest (tree (rd s') n) lo cs hi es pgs.
Proof. intros X Hu. apply forest_rd. intros q Hq. by apply (ext_node _ _ _ _ _ _ X), Hu. Qed.

(** ** Leaves *)

(** The leaves [N], on the new pages [F], hold [es]. *)
Definition leaves (s s' : MetaV2) (lo hi : option Key) (es : list (Key * bytes)) (N : Nodes) (F : list Z) : Prop :=
  ext s s' F [] /\ wf s' /\ forest (tree (rd s') 0) lo N hi es F /\ lower N = fst <$> head es /\ (N = [] <-> es = []).

Lemma pack_loop_spec es : forall cur size out lo hi s,
  wf s -> es_ok lo hi (cur ++ es) -> size = PAGE_HEADER + zlen (concat (map leaf_bytes cur)) -> size <= PAGE ->
  wp (pack_loop crc32c es cur size out) s (fun out' s' => exists N F, out' = out ++ N /\ leaves s s' lo hi (cur ++ es) N F) (failed s).
Proof using Hcrc.
  assert (forall first v cur lo hi s, wf s -> es_ok lo hi ((first, v) :: cur) ->
    PAGE_HEADER + zlen (concat (map leaf_bytes ((first, v) :: cur))) <= PAGE ->
    wp (write_node crc32c (Leaf ((first, v) :: cur))) s
      (fun p s' => ext s s' [p] [] /\ wf s' /\ tree (rd s') 0 lo hi p ((first, v) :: cur) [p]) (failed s)) as Hwrite.
  { intros first v cur lo hi s W He Hs. eapply wp_mono; [apply write_node_spec; [done|done|]|..].
    - split; [apply He|done].
    - cbn [tree]. intros p s' (X & W' & Hp). by split_and!.
    - done. }
  induction es as [|[k v] es IH]; intros cur size out lo hi s W He Hsz Hle; cbn [pack_loop].
  { rewrite app_nil_r in *. destruct cur as [|[first v] cur].
    - apply wp_ret. exists [], []. rewrite app_nil_r. split; [done|]. split; [apply ext_refl|]. by split_and!.
    - eapply wp_step; [by apply (Hwrite first v cur lo hi); subst|..]; [|done].
      intros p s1 (X & W1 & T). apply wp_ret. exists [(Some first, p)], [p].
      split; [done|]. split; [done|]. split; [done|]. split; [by apply forest_one|]. by split. }
  pose proof (es_ok_cut _ _ _ _ _ _ He) as (He1 & He2 & Hb).
  assert (entry_ok (k, v)) as [_ Hv] by (destruct He2 as (_ & _ & H); by inversion H). cbn [snd] in Hv.
  destruct cur as [|[first v0] cur].
  { apply (IH [(k, v)] _ out lo hi s); [done|exact He| |].
    - rewrite Hsz. cbn [map concat]. rewrite zlen_app, zlen_leaf_bytes. cbn [snd]. change (zlen (@nil Z)) with 0. lia.
    - rewrite Hsz. cbn [map concat]. change (zlen (@nil Z)) with 0. unfold MAX_VALUE, PAGE_HEADER, PAGE, LEAF_ENTRY, KEY_LEN in *. lia. }
  destruct (Z.ltb_spec PAGE (size + (LEAF_ENTRY + zlen v))) as [Hf|Hf].
  - eapply wp_step; [by apply (Hwrite first v0 cur lo (Some k)); subst| |done].
    intros p s1 (X1 & W1 & T1). eapply wp_mono; [apply (IH [(k, v)] _ _ (Some k) hi s1); [done|exact He2| |]|..].
    + cbn [map concat]. rewrite zlen_app, zlen_leaf_bytes. cbn [snd]. change (zlen (@nil Z)) with 0. lia.
    + unfold MAX_VALUE, PAGE_HEADER, PAGE, LEAF_ENTRY, KEY_LEN in *. lia.
    + intros out' s2 (N & F & -> & X2 & W2 & FT & Hl & HN). exists ((Some first, p) :: N), (p :: F).
      destruct N as [|[sp c] N]; [by destruct (proj1 HN eq_refl)|]. cbn [lower app head fmap option_fmap option_map fst] in Hl. subst sp.
      split; [by rewrite <- app_assoc|]. split; [exact (ext_trans _ _ _ _ _ _ _ X1 X2)|]. split; [done|]. split; [|by split].
      cbn [forest]. exists ((first, v0) :: cur), ((k, v) :: es), [p], F. split_and!; try done; [|by exists k].
      cbn [upper]. eapply (tree_ext s1 s2); [exact X2| |exact T1]. intros q ->%list_elem_of_singleton. by apply (ext_fresh_used _ _ _ _ _ X1); left.
    + intros e s2. by apply (failed_trans _ _ _ _ _ _ _ X1).
  - eapply wp_mono; [apply (IH (((first, v0) :: cur) ++ [(k, v)]) _ out lo hi s); [done| | |lia]|..].
    + by rewrite <- app_assoc.
    + rewrite Hsz, zlen_concat_snoc. cbn [snd]. lia.
    + intros out' s2 (N & F & -> & H). rewrite <- app_assoc in H. by exists N, F.
    + done.
Qed.

Lemma pack_leaves_spec es lo hi s : wf s -> es_ok lo hi es ->
  wp (pack_leaves crc32c es) s (fun N s' => exists F, leaves s s' lo hi es N F) (failed s).
Proof using Hcrc.
  intros W He. eapply wp_mono; [apply (pack_loop_spec es [] _ [] lo hi s W He); done| |done].
  intros N s' (N' & F & -> & H). by exists F.
Qed.

(** ** Nodes above *)

(** Pages a store has in use. *)
Definition in_use (s : MetaV2) (pgs : list Z) : Prop := Forall (fun p => 0 <= p < page_count (layout s) /\ is_used s p = true) pgs.
Lemma in_use_elem s pgs q : in_use s pgs -> q ∈ pgs -> 0 <= q < page_count (layout s) /\ is_used s q = true.
Proof. unfold in_use. rewrite Forall_forall. auto. Qed.
Lemma in_use_ext s s' F R pgs : ext s s' F R -> in_use s pgs -> in_use s' pgs.
Proof.
  intros X H. eapply Forall_impl; [exact H|]. cbn. intros p [Hp Hu]. rewrite (x_layout _ _ _ _ X). split; [done|]. eapply ext_used; [exact X|lia|done].
Qed.
Lemma in_use_fresh s s' F R : ext s s' F R -> in_use s' F.
Proof. intros X. apply Forall_forall. intros p Hp. destruct (ext_fresh_used _ _ _ _ _ X Hp) as (? & ? & _). done. Qed.
Lemma in_use_perm s p1 p2 : p1 ≡ₚ p2 -> in_use s p1 -> in_use s p2.
Proof. unfold in_use. by intros ->. Qed.
Lemma in_use_app s p1 p2 : in_use s (p1 ++ p2) <-> in_use s p1 /\ in_use s p2.
Proof. apply Forall_app. Qed.

Lemma page_u64 s p : wf s -> 0 <= p < page_count (layout s) -> u64_ok p /\ p <> EMPTY.
Proof.
  intros W Hp. destruct (w_layout _ _ W) as (_ & _ & _ & Ho & _ & Hl). unfold u64_ok, EMPTY, u64max, PAGE in *.
  destruct (w_layout _ _ W) as (_ & Hl2 & _). unfold PAGE in Hl2. lia.
Qed.

(** The separators and child pages of a forest fit their fields. *)
Lemma forest_children_ok s n lo cs hi es pgs :
  wf s -> in_use s pgs -> forest (tree (rd s) n) lo cs hi es pgs ->
  match cs with [] => True | c :: r => u64_ok (snd c) /\ Forall child_ok r end.
Proof.
  intros W. revert lo es pgs. induction cs as [|[sp c] rest IH]; intros lo es pgs Hu; [done|].
  cbn [forest]. intros (e1 & e2 & q1 & q2 & -> & -> & HT & HF & Hs). apply in_use_app in Hu as [Hu1 Hu2].
  split.
  - destruct (tree_root _ _ _ _ _ _ _ HT) as (q & ->). inversion Hu1 as [|? ? [Hc _] _]; subst. by apply (page_u64 s).
  - specialize (IH _ _ _ Hu2 HF). destruct rest as [|[s' c'] rest]; [done|]. destruct IH as [Hc Hr], Hs as (k & -> & Hk & _).
    constructor; [|done]. split; [by exists k|exact Hc].
Qed.

Definition packed (n : nat) (s s' : MetaV2) (lo hi : option Key) (cs N : Nodes) (es : list (Key * bytes)) (pgs F : list Z) : Prop :=
  ext s s' F [] /\ wf s' /\ (exists pgs', forest (tree (rd s') (S n)) lo N hi es pgs' /\ pgs' ≡ₚ F ++ pgs) /\
  lower N = lower cs /\ (N = [] <-> cs = []).

Lemma pack_chunks_spec n per : 1 <= per <= MAX_CHILDREN -> Z.of_nat (S n) < 256 -> forall fuel cs out lo hi es pgs s,
  wf s -> in_use s pgs -> (length cs <= fuel)%nat -> forest (tree (rd s) n) lo cs hi es pgs ->
  wp (pack_chunks crc32c fuel (Z.of_nat (S n)) per cs out) s
    (fun out' s' => exists N F, out' = out ++ N /\ packed n s s' lo hi cs N es pgs F /\ (N <> [] -> per * (zlen N - 1) < zlen cs)) (failed s).
Proof using Hcrc.
  intros Hper Hlev. induction fuel as [|fuel IH]; intros cs out lo hi es pgs s W Hu Hf HF.
  { destruct cs; [|cbn in Hf; lia]. apply wp_ret. exists [], []. rewrite app_nil_r. split; [done|]. split; [|done].
    split; [apply ext_refl|]. split; [done|]. split; [by exists pgs|]. by split. }
  destruct cs as [|[first c] cs'] eqn:Ecs.
  { apply wp_ret. exists [], []. rewrite app_nil_r. split; [done|]. split; [|done].
    split; [apply ext_refl|]. split; [done|]. split; [by exists pgs|]. by split. }
  cbn [pack_chunks]. rewrite <- Ecs in HF, Hf |- *. set (m := Z.to_nat per).
  destruct (take m cs) as [|[f c0] r] eqn:Et; [subst cs m; destruct (Z.to_nat per) eqn:?; [lia|done]|].
  assert (f = first /\ c0 = c) as [-> ->] by (subst cs m; destruct (Z.to_nat per); [done|]; cbn in Et; by injection Et).
  pose proof (take_drop m cs) as Ecut. rewrite Et in Ecut. rewrite <- Ecut in HF. set (rest := drop m cs) in *.
  apply forest_cut in HF as (e1 & e2 & q1 & q2 & -> & -> & F1 & F2 & Hb); [|done].
  apply in_use_app in Hu as [Hu1 Hu2].
  pose proof (forest_children_ok s n lo _ _ _ _ W Hu1 F1) as [Hc Hr].
  assert (zlen ((first, c) :: r) <= per) as Hlr by (rewrite <- Et; unfold zlen; rewrite length_take; lia).
  eapply wp_step; [apply write_node_spec; [done|done|] | |done].
  { split_and!; [lia|lia| |done|done|done]. unfold zlen in *. cbn in *. lia. }
  intros p s1 (X1 & W1 & Hp). eapply wp_mono; [apply (IH rest _ (lower rest) hi e2 q2 s1); [done|by eapply in_use_ext| |]| |].
  - subst rest. rewrite length_drop. assert (1 <= length cs)%nat by (subst cs; cbn; lia). lia.
  - eapply forest_ext; [exact X1| |exact F2]. intros q Hq. by apply (in_use_elem s q2).
  - intros out' s2 (N & F & -> & (X2 & W2 & (q' & FN & Pq) & Hl & HN) & Hcnt).
    exists ((first, p) :: N), (p :: F). split; [by rewrite <- app_assoc|].
    assert (tree (rd s2) (S n) lo (upper rest hi) p e1 (p :: q1)) as TP.
    { exists ((None, c) :: r), q1. split_and!; try done.
      - rewrite (ext_node _ _ _ _ _ _ X2); [done|]. by apply (ext_fresh_used _ _ _ _ _ X1); left.
      - apply (forest_ext s s2 _ _ _ _ _ _ _ _ (ext_trans _ _ _ _ _ _ _ X1 X2)); [|exact F1]. intros q Hq. by apply (in_use_elem s q1). }
    assert (upper N hi = upper rest hi) as EU.
    { destruct rest as [|[sr cr] rest']; [by rewrite (proj2 HN eq_refl)|]. destruct N as [|[sn cn] N]; [by destruct (proj1 HN eq_refl)|].
      cbn [lower] in Hl. subst sn. done. }
    split; [split; [exact (ext_trans _ _ _ _ _ _ _ X1 X2)|split; [done|split; [|split; [by rewrite Ecs|by rewrite Ecs; split]]]]|].
    + exists ((p :: q1) ++ q'). split; [|rewrite Pq; cbn [app]; f_equiv; by rewrite (Permutation_app_comm q1), <- app_assoc, (Permutation_app_comm q2)].
      cbn [forest]. exists e1, e2, (p :: q1), q'. rewrite EU, Hl. split_and!; try done.
      destruct rest as [|[sr cr] rest']; [by rewrite (proj2 HN eq_refl)|]. destruct N as [|[sn cn] N]; [done|]. cbn [lower] in Hl. subst sn. exact Hb.
    + intros _. rewrite zlen_cons. assert (zlen cs = zlen ((first, c) :: r) + zlen rest) as -> by (rewrite <- Ecut; apply zlen_app).
      destruct N as [|x N]; [change (zlen []) with 0; unfold zlen; cbn; lia|].
      specialize (Hcnt ltac:(done)). assert (zlen ((first, c) :: r) = per) as ->; [|lia].
      rewrite <- Et. unfold zlen. rewrite length_take. destruct (Nat.le_gt_cases m (length cs)); [lia|].
      assert (rest = []) as Hr0 by (subst rest; apply drop_ge; lia). by pose proof (proj2 HN Hr0).
  - intros e s2. by apply (failed_trans _ _ _ _ _ _ _ X1).
Qed.

Lemma div_ceil_pos a b : 0 < b -> 0 < a -> 1 <= div_ceil a b.
Proof. intros Hb Ha. pose proof (div_ceil_mul a b Hb). nia. Qed.

Lemma pack_internal_spec n cs lo hi es pgs s :
  wf s -> in_use s pgs -> Z.of_nat (S n) < 256 -> forest (tree (rd s) n) lo cs hi es pgs -> cs <> [] ->
  wp (pack_internal crc32c (Z.of_nat (S n)) cs) s
    (fun N s' => exists F, packed n s s' lo hi cs N es pgs F /\ (2 <= zlen cs -> zlen N < zlen cs)) (failed s).
Proof using Hcrc.
  intros W Hu Hl HF Hne. unfold pack_internal.
  assert (1 <= zlen cs) as Hlen by (destruct cs; [done|]; rewrite zlen_cons; pose proof (zlen_nonneg cs); lia).
  pose proof (div_ceil_pos (zlen cs) MAX_CHILDREN ltac:(done) ltac:(lia)) as Hn1.
  replace (Z.max (div_ceil (zlen cs) MAX_CHILDREN) 1) with (div_ceil (zlen cs) MAX_CHILDREN) by lia.
  set (k := div_ceil (zlen cs) MAX_CHILDREN) in *.
  pose proof (div_ceil_mul (zlen cs) MAX_CHILDREN ltac:(done)) as Hk. fold k in Hk. change MAX_CHILDREN with 124 in Hk.
  pose proof (div_ceil_mul (zlen cs) k ltac:(lia)) as Hper. pose proof (div_ceil_pos (zlen cs) k ltac:(lia) ltac:(lia)) as Hper1.
  assert (div_ceil (zlen cs) k <= 124) as Hper2 by (apply div_ceil_le; lia).
  eapply wp_mono; [apply (pack_chunks_spec n (div_ceil (zlen cs) k)) with (lo := lo) (hi := hi) (es := es) (pgs := pgs); try done|..].
  - intros N s' (N' & F & -> & HP & Hc). cbn [app]. exists F. split; [exact HP|]. intros H2.
    destruct N' as [|x N']; [change (zlen []) with 0; lia|]. specialize (Hc ltac:(done)).
    set (per := div_ceil (zlen cs) k) in *. assert (2 <= per) by (destruct (Z.eq_dec per 1); [nia|lia]). nia.
  - done.
Qed.

(** The root over [nodes]: the tree of all their entries, on their pages and new ones. *)
Definition rooted (s s' : MetaV2) (lo hi : option Key) (es : list (Key * bytes)) (pgs : list Z) (n : nat) (r : Z) : Prop :=
  exists m F pgs', (n <= m)%nat /\ ext s s' F [] /\ wf s' /\ tree (rd s') m lo hi r es pgs' /\ pgs' ≡ₚ F ++ pgs.

Lemma build_loop_spec : forall fuel n nodes lo hi es pgs s,
  wf s -> in_use s pgs -> Z.of_nat (S n) < 256 -> nodes <> [] -> (length nodes <= fuel)%nat -> forest (tree (rd s) n) lo nodes hi es pgs ->
  wp (build_loop crc32c fuel nodes (Z.of_nat (S n))) s (fun r s' => rooted s s' lo hi es pgs n r) (failed s).
Proof using Hcrc.
  induction fuel as [|fuel IH]; intros n nodes lo hi es pgs s W Hu Hlev Hne Hf HF; [destruct nodes; [done|cbn in Hf; lia]|].
  destruct nodes as [|[sp c] [|x2 rest]] eqn:En; [done|..].
  { apply wp_ret. exists n, [], pgs. split_and!; [done|apply ext_refl|done|by eapply forest_one|done]. }
  cbn [build_loop]. rewrite <- En in HF, Hf, Hne |- *. assert (2 <= zlen nodes) as Hlen by (subst nodes; rewrite !zlen_cons; pose proof (zlen_nonneg rest); lia).
  eapply wp_step; [by apply pack_internal_spec| |done].
  intros N s1 (F & (X1 & W1 & (pgs1 & FN & P1) & Hl & HN) & Hlt). specialize (Hlt Hlen).
  assert (in_use s1 pgs1) as Hu1.
  { eapply in_use_perm; [symmetry; exact P1|]. apply in_use_app. split; [by eapply in_use_fresh|by eapply in_use_ext]. }
  apply wp_bind. unfold next_level. destruct (Z.eqb_spec (Z.of_nat (S n)) 255).
  { split; [by right; right|]. by exists F, []. }
  unfold wp at 1. cbn [ret]. replace (Z.of_nat (S n) + 1) with (Z.of_nat (S (S n))) by lia.
  assert (N <> []) as HNne by (intros HN0; apply HN in HN0; by subst nodes).
  eapply wp_mono; [apply (IH (S n) N lo hi es pgs1 s1 W1 Hu1)| |]; [lia|done|unfold zlen in *; lia|done|..].
  - intros r s2 (m & F2 & pgs2 & Hm & X2 & W2 & T & P2). exists m, (F ++ F2), pgs2.
    split_and!; [lia|exact (ext_trans _ _ _ _ _ _ _ X1 X2)|done|done|]. rewrite P2, P1. by rewrite app_assoc, (Permutation_app_comm F2).
  - intros e s2. by apply (failed_trans _ _ _ _ _ _ _ X1).
Qed.

Lemma build_up_spec n nodes lo hi es pgs s :
  wf s -> in_use s pgs -> Z.of_nat (S n) < 256 -> nodes <> [] -> forest (tree (rd s) n) lo nodes hi es pgs ->
  wp (build_up crc32c nodes (Z.of_nat (S n))) s (fun r s' => rooted s s' lo hi es pgs n r) (failed s).
Proof using Hcrc. intros. by apply build_loop_spec. Qed.
End Pack.

#[local] Open Scope meta_scope.

(** ** A leaf's entries under an overlay *)

(** What an overlay may hold. *)
Definition ov_ok (ov : Overlay) : Prop :=
  forall k x, puts ov !! k = Some x -> key_ok k /\ match x with Some v => zlen v <= MAX_VALUE | None => True end.
(** [es'] is what the overlay makes of [es], between the bounds. *)
Definition overlaid (ov : Overlay) (lo hi : option Key) (es es' : list (Key * bytes)) : Prop :=
  forall k, within lo hi k -> lk es' k = eff ov k (lk es k).

Lemma map_of_list_lookup es (m : gmap Z bytes) k : NoDup (map fst es) ->
  foldl (fun m (e : Key * bytes) => <[fst e := snd e]> m) m es !! k = match lk es k with Some v => Some v | None => m !! k end.
Proof.
  revert m. induction es as [|[k' v] es IH]; intros m Hn; [done|]. cbn [map fst] in Hn. apply NoDup_cons in Hn as [Hk Hn].
  cbn [foldl fst snd]. rewrite IH by done. unfold lk in *. cbn [list_to_map foldr fst snd].
  destruct (decide (k' = k)) as [->|Hne].
  - rewrite !lookup_insert_eq.
    change (foldr _ _ es) with (list_to_map es : gmap Z bytes). by rewrite (not_elem_of_list_to_map_1 es k).
  - by rewrite !lookup_insert_ne by done.
Qed.

Lemma apply_puts_lookup (l : list (Key * option bytes)) m k : NoDup (map fst l) ->
  foldl apply_put m l !! k = match (list_to_map l : gmap Z (option bytes)) !! k with Some x => x | None => m !! k end.
Proof.
  revert m. induction l as [|[k' x] l IH]; intros m Hn; [done|]. cbn [map fst] in Hn. apply NoDup_cons in Hn as [Hk Hn].
  cbn [foldl]. rewrite IH by done. cbn [list_to_map foldr fst snd]. unfold apply_put. cbn [fst snd].
  destruct (decide (k' = k)) as [->|Hne].
  - rewrite lookup_insert_eq. change (foldr _ _ l) with (list_to_map l : gmap Z (option bytes)).
    rewrite (not_elem_of_list_to_map_1 l k) by done. destruct x; [by rewrite lookup_insert_eq|by rewrite lookup_delete_eq].
  - rewrite (lookup_insert_ne _ k' k) by done. change (foldr _ _ l) with (list_to_map l : gmap Z (option bytes)).
    destruct (_ !! k); [done|]. destruct x; [by rewrite lookup_insert_ne|by rewrite lookup_delete_ne].
Qed.

Lemma lk_elem es k v : NoDup (map fst es) -> lk es k = Some v <-> (k, v) ∈ es.
Proof. intros Hn. unfold lk. symmetry. by apply elem_of_list_to_map. Qed.
Lemma lk_entries (m : gmap Z bytes) k : lk (entries m) k = m !! k.
Proof. unfold lk. by rewrite list_to_map_entries. Qed.

Lemma NoDup_filter_fst {A} (P : Z * A -> Prop) `{!forall x, Decision (P x)} (l : list (Z * A)) : NoDup (map fst l) -> NoDup (map fst (filter P l)).
Proof. intros Hd. eapply sublist_NoDup; [exact Hd|]. apply fmap_sublist, sublist_filter. Qed.

Lemma lk_filter (P : Z * bytes -> Prop) `{!forall x, Decision (P x)} es k :
  NoDup (map fst es) -> lk (filter P es) k = match lk es k with Some v => if decide (P (k, v)) then Some v else None | None => None end.
Proof.
  intros Hn. apply option_eq. intros v. rewrite lk_elem by (by apply NoDup_filter_fst). rewrite list_elem_of_filter, <- (lk_elem es) by done.
  destruct (lk es k) as [w|]; [|split; [by intros [_ ?]|done]]. case_decide; split; try naive_solver.
Qed.

Lemma puts_range_lookup lo hi ov k :
  (list_to_map (puts_range lo hi ov) : gmap Z (option bytes)) !! k = if decide (within lo hi k) then puts ov !! k else None.
Proof.
  unfold puts_range. apply option_eq. intros x. rewrite <- elem_of_list_to_map by (apply NoDup_filter_fst, entries_NoDup).
  rewrite list_elem_of_filter, elem_of_entries. cbn [fst]. rewrite in_range_spec. case_decide; naive_solver.
Qed.

Definition merged (ov : Overlay) (lo hi : option Key) (es : list (Key * bytes)) : gmap Z bytes :=
  foldl apply_put (map_of_list (not_dropped ov es)) (puts_range lo hi ov).

Lemma merged_lookup ov lo hi es k : es_ok lo hi es ->
  merged ov lo hi es !! k = if decide (within lo hi k) then eff ov k (lk es k) else None.
Proof.
  intros (Hs & Hw & _). pose proof (increasing_NoDup _ Hs) as Hn. unfold merged.
  rewrite apply_puts_lookup by (apply NoDup_filter_fst, entries_NoDup). rewrite puts_range_lookup.
  unfold map_of_list. rewrite map_of_list_lookup by (by apply NoDup_filter_fst). rewrite lookup_empty.
  unfold not_dropped. rewrite lk_filter by done. cbn [fst]. unfold eff. case_decide as Hk.
  - destruct (puts ov !! k); [done|]. destruct (lk es k); repeat case_decide; tauto || done.
  - rewrite (lk_None lo hi es k Hw Hk). done.
Qed.

(** The entries a leaf is rewritten with. *)
Lemma merged_ok ov lo hi es : ov_ok ov -> es_ok lo hi es ->
  es_ok lo hi (entries (merged ov lo hi es)) /\ overlaid ov lo hi es (entries (merged ov lo hi es)).
Proof.
  intros Ho He. split.
  2: { intros k Hk. rewrite lk_entries, merged_lookup by done. by rewrite decide_True. }
  assert (forall k v, (k, v) ∈ entries (merged ov lo hi es) -> within lo hi k /\ entry_ok (k, v)) as H.
  { intros k v Hin%elem_of_entries. rewrite merged_lookup in Hin by done. case_decide as Hk; [|done]. split; [done|].
    unfold eff in Hin. destruct (puts ov !! k) as [x|] eqn:Ep.
    - subst x. destruct (Ho _ _ Ep) as [H1 H2]. by split.
    - destruct (decide _); [done|]. destruct He as (Hs & _ & Hok). apply lk_elem in Hin; [|by apply increasing_NoDup].
      rewrite Forall_forall in Hok. by apply Hok. }
  split_and!.
  - unfold sorted. rewrite map_fst_entries. apply sort_dedup_increasing.
  - apply Forall_forall. intros [k v] Hin. by apply (H k v).
  - apply Forall_forall. intros [k v] Hin. by apply (H k v).
Qed.

Lemma overlaid_app ov lo h hi es1 es2 es1' es2' :
  lo_le lo (Some h) -> hi_le (Some h) hi ->
  es_ok lo (Some h) es1 -> es_ok (Some h) hi es2 -> es_ok lo (Some h) es1' -> es_ok (Some h) hi es2' ->
  overlaid ov lo (Some h) es1 es1' -> overlaid ov (Some h) hi es2 es2' -> overlaid ov lo hi (es1 ++ es2) (es1' ++ es2').
Proof.
  intros Hl Hh (_ & W1 & _) (_ & W2 & _) (_ & W1' & _) (_ & W2' & _) O1 O2 k Hk. rewrite !lk_app.
  destruct (Z.lt_ge_cases k h) as [Hc|Hc].
  - assert (~ within (Some h) hi k) as Hn by (unfold within; lia).
    rewrite (lk_None _ _ es2 k W2 Hn), (lk_None _ _ es2' k W2' Hn).
    rewrite O1 by (unfold within in *; destruct lo; tauto || lia).
    destruct (lk es1 k); destruct (eff ov k _); done.
  - assert (~ within lo (Some h) k) as Hn by (unfold within; lia).
    rewrite (lk_None _ _ es1 k W1 Hn), (lk_None _ _ es1' k W1' Hn). apply O2. unfold within in *. split; [done|tauto].
Qed.

(** ** The pages of a subtree *)

(** Pages in use, each once, none of them retired. *)
Definition live (s : MetaV2) (pgs : list Z) : Prop := in_use s pgs /\ NoDup pgs /\ Forall (fun p => p ∉ retired s) pgs.
Lemma live_app s p1 p2 : live s (p1 ++ p2) <-> live s p1 /\ live s p2 /\ (forall x, x ∈ p1 -> x ∉ p2).
Proof. unfold live. rewrite in_use_app, NoDup_app, Forall_app. tauto. Qed.
Lemma live_ext s s' F R pgs : ext s s' F R -> (forall x, x ∈ pgs -> x ∉ R) -> live s pgs -> live s' pgs.
Proof.
  intros X HR (Hu & Hn & Hr). split_and!; [by eapply in_use_ext|done|]. rewrite (x_retired _ _ _ _ X).
  apply Forall_forall. intros x Hx. rewrite Forall_forall in Hr. rewrite elem_of_app. intros [H|H]; [by apply (Hr x)|by apply (HR x)].
Qed.
Lemma live_cons s p pgs : live s (p :: pgs) <-> readable s p /\ live s pgs /\ p ∉ pgs.
Proof.
  unfold live, readable, in_use. rewrite NoDup_cons, !Forall_cons. tauto.
Qed.

Lemma forest_leaf_pages (f : Z -> option Node) lo cs hi es pgs : forest (tree f 0) lo cs hi es pgs -> pgs = map snd cs.
Proof.
  revert lo es pgs. induction cs as [|[s c] rest IH]; intros lo es pgs; cbn [forest]; [by intros [_ ->]|].
  intros (e1 & e2 & q1 & q2 & -> & -> & (_ & _ & ->) & HF & _). cbn [map snd app]. f_equal. by eapply IH.
Qed.

Definition first_ok (lo hi : option Key) (out : Nodes) : Prop :=
  match out with [] => True | (s, _) :: _ => s = lo \/ exists k, s = Some k /\ between lo hi k end.
Lemma first_ok_lo lo hi out : out <> [] -> first_ok lo hi out -> lo_le lo (lower out).
Proof. destruct out as [|[s c] out]; [done|]. intros _ [->|(k & -> & H)]; [apply lo_le_refl|by eapply between_lo]. Qed.
Lemma forest_lower (f : Z -> option Node) n lo hi out es pgs :
  first_ok lo hi out -> forest (tree f n) (lower out) out hi es pgs -> forest (tree f n) lo out hi es pgs.
Proof.
  destruct out as [|c out]; [done|]. intros Hf. apply forest_mono; [apply tree_sub|by eapply first_ok_lo|apply hi_le_refl].
Qed.

Section Apply.
Context (crc32c : bytes -> Z).
Abbreviation rd := (page_node crc32c).
Abbreviation wf := (wf crc32c).
Abbreviation failed := (failed crc32c).

Lemma node_tree n lo hi p es pgs s : wf s -> live s pgs -> tree (rd s) n lo hi p es pgs ->
  wp (node crc32c p) s (fun nd s' => rd s p = Some nd /\ ext s s' [] [] /\ wf s') (failed s).
Proof.
  intros W Hl HT. destruct (tree_root _ _ _ _ _ _ _ HT) as (q & ->). apply live_cons in Hl as (Hr & _ & _).
  assert (exists nd, rd s p = Some nd) as (nd & Hnd) by (destruct n; cbn in HT; [destruct HT as (H & _); eauto|destruct HT as (? & ? & H & _); eauto]).
  eapply wp_mono; [by apply node_spec| |done]. intros nd' s' (-> & X & W'). done.
Qed.

Lemma subtree_pages_spec fuel : forall n lo hi p es pgs s,
  wf s -> live s pgs -> (n < fuel)%nat -> tree (rd s) n lo hi p es pgs ->
  wp (subtree_pages crc32c fuel p) s (fun out s' => out = pgs /\ ext s s' [] [] /\ wf s') (failed s).
Proof.
  induction fuel as [|fuel IH]; intros n lo hi p es pgs s W Hl Hf HT; [lia|]. cbn [subtree_pages].
  eapply wp_step; [exact (node_tree n lo hi p es pgs s W Hl HT)| |done]. intros nd s1 (Hnd & X1 & W1).
  destruct n as [|n]; cbn [tree] in HT.
  { destruct HT as (E & _ & ->). rewrite E in Hnd. injection Hnd as <-. by apply wp_ret. }
  destruct HT as (cs & pgs' & E & _ & Hlev & -> & HF). rewrite E in Hnd. injection Hnd as <-. apply live_cons in Hl as (Hr & Hl & _).
  assert (forest (tree (rd s1) n) lo cs hi es pgs') as HF1.
  { eapply forest_ext; [exact X1| |exact HF]. intros q Hq. by eapply in_use_elem; [apply Hl|]. }
  assert (live s1 pgs') as Hl1 by (eapply live_ext; [exact X1|set_solver|done]).
  destruct (Z.eqb_spec (Z.of_nat (S n)) 1) as [H1|H1].
  { assert (n = O) as -> by lia. apply wp_bind, wp_ret, wp_ret. by rewrite (forest_leaf_pages _ _ _ _ _ _ HF1). }
  match goal with |- wp (bind ?m _) _ _ _ => assert (wp m s1 (fun out s' => out = pgs' /\ ext s1 s' [] [] /\ wf s') (failed s1)) as Hgo end.
  { clear HF E. revert lo es pgs' s1 X1 W1 HF1 Hl1 Hl. induction cs as [|[sp c] cs IHc]; intros lo es pgs' s1 X1 W1 HF1 Hl1 Hl.
    - destruct HF1 as [-> ->]. apply wp_ret. by split_and!; [|apply ext_refl|].
    - cbn [forest] in HF1. destruct HF1 as (e1 & e2 & q1 & q2 & -> & -> & HT & HF & _).
      apply live_app in Hl1 as (L1 & L2 & Hd). apply live_app in Hl as (_ & Hl & _).
      eapply wp_step; [eapply (IH n); [done|exact L1|lia|exact HT]| |done]. intros a s2 (-> & X2 & W2).
      eapply wp_step; [eapply (IHc _ _ _ s2 (ext_after _ _ _ _ _ X1 X2) W2)| |].
      + eapply forest_ext; [exact X2| |exact HF]. intros q Hq. by eapply in_use_elem; [apply L2|].
      + eapply live_ext; [exact X2|set_solver|done].
      + exact Hl.
      + intros b s3 (-> & X3 & W3). apply wp_ret. split_and!; [done|by eapply ext_after|done].
      + intros e s3. by apply (failed_trans _ _ _ _ _ _ _ X2). }
  eapply wp_step; [exact Hgo| |].
  - intros out s2 (-> & X2 & W2). apply wp_ret. split_and!; [done|by eapply ext_after|done].
  - intros e s2. by apply (failed_trans _ _ _ _ _ _ _ X1).
Qed.

(** ** Replacing nodes *)

(** [out] holds what the overlay makes of [es], on new pages and what is kept of [pgs];
    the rest of [pgs] has been retired. *)
Definition replaced (ov : Overlay) (n : nat) (s s' : MetaV2) (lo hi : option Key) (es : list (Key * bytes)) (pgs : list Z) (out : Nodes) : Prop :=
  exists es' pgs' F R kept,
    forest (tree (rd s') n) (lower out) out hi es' pgs' /\ first_ok lo hi out /\ ext s s' F R /\ wf s' /\
    pgs ≡ₚ R ++ kept /\ pgs' ≡ₚ F ++ kept /\ overlaid ov lo hi es es'.

Lemma live_in_use_kept s s' F R pgs kept : live s pgs -> pgs ≡ₚ R ++ kept -> ext s s' F R -> in_use s' (F ++ kept).
Proof.
  intros (Hu & _) HP X. apply in_use_app. split; [by eapply in_use_fresh|]. eapply in_use_ext; [exact X|].
  eapply in_use_perm in Hu; [|exact HP]. by apply in_use_app in Hu as [_ ?].
Qed.

(** Two neighbours replaced are their range replaced. *)
Lemma replaced_app ov n s s1 s2 lo hi es1 es2 pg1 pg2 (rest out1 out2 : Nodes) :
  live s (pg1 ++ pg2) -> es_ok lo (upper rest hi) es1 -> es_ok (lower rest) hi es2 ->
  match rest with [] => es2 = [] /\ out2 = [] | (sp, _) :: _ => exists k, sp = Some k /\ between lo hi k end ->
  replaced ov n s s1 lo (upper rest hi) es1 pg1 out1 -> (out1 = [] \/ lower out1 = lo) ->
  replaced ov n s1 s2 (lower rest) hi es2 pg2 out2 ->
  replaced ov n s s2 lo hi (es1 ++ es2) (pg1 ++ pg2) (out1 ++ out2).
Proof.
  intros Hl He1 He2 Hrest (e1 & q1 & F1 & R1 & k1 & FT1 & Hf1 & X1 & W1 & P1 & Q1 & O1) Hlo (e2 & q2 & F2 & R2 & k2 & FT2 & Hf2 & X2 & W2 & P2 & Q2 & O2).
  apply live_app in Hl as (L1 & L2 & _).
  assert (forest (tree (rd s2) n) lo out1 (upper rest hi) e1 q1) as FT1'.
  { apply (forest_ext crc32c s1 s2 _ _ _ _ _ _ _ _ X2); [|by eapply forest_lower].
    intros q Hq. apply (in_use_elem s1 (F1 ++ k1)); [exact (live_in_use_kept _ _ _ _ _ _ L1 P1 X1)|by rewrite <- Q1]. }
  exists (e1 ++ e2), (q1 ++ q2), (F1 ++ F2), (R1 ++ R2), (k1 ++ k2).
  assert (match out2 with [] => True | (sp, _) :: _ => exists k, sp = Some k /\ hi_le (upper rest hi) (Some k) /\ between lo hi k end) as Hb.
  { destruct out2 as [|[sp c] out2]; [done|]. destruct rest as [|[sr cr] rest]; [by destruct Hrest|]. destruct Hrest as (k & -> & Hk).
    cbn [lower upper] in *. destruct Hf2 as [->|(k' & -> & Hk')]; [exists k; split_and!; [done|apply hi_le_refl|done]|].
    exists k'. unfold between in *. cbn. destruct lo; intuition lia. }
  split_and!; [| |by eapply ext_trans|done|..].
  - destruct out1 as [|c1 out1].
    + destruct FT1' as [-> ->]. exact FT2.
    + destruct Hlo as [|Hlo]; [done|]. cbn [app]. change (lower (c1 :: out1 ++ out2)) with (lower (c1 :: out1)). rewrite Hlo.
      apply (forest_app _ lo (c1 :: out1) (upper rest hi)); [apply tree_sub|done|done|done| |exact Hb].
      eapply (upper_hi _ lo). destruct rest as [|[sr cr] rest]; [done|]. exact Hrest.
  - destruct out1 as [|[s0 c0] out1]; [|left; by destruct Hlo]. cbn [app]. destruct out2 as [|[sp c] out2]; [done|].
    right. destruct Hb as (k & -> & _ & Hk). by exists k.
  - rewrite P1, P2, <- !app_assoc. f_equiv. rewrite !app_assoc. f_equiv. apply Permutation_app_comm.
  - rewrite Q1, Q2, <- !app_assoc. f_equiv. rewrite !app_assoc. f_equiv. apply Permutation_app_comm.
  - destruct rest as [|[sr cr] rest].
    + destruct Hrest as [-> ->]. destruct FT2 as [-> _]. by rewrite !app_nil_r.
    + destruct Hrest as (k & -> & Hk). cbn [lower upper] in *.
      apply (overlaid_app ov lo k hi); try done; [by eapply between_lo|by eapply between_hi| |].
      * by eapply forest_es in FT1'; [|apply tree_sub].
      * apply (forest_lower _ _ (Some k)) in FT2; [|done]. by eapply forest_es in FT2; [|apply tree_sub].
Qed.

Context (Hcrc : forall b, u32_ok (crc32c b)).

(** One child of a node. *)
Definition child_step (rec : Z -> option Key -> option Key -> M Nodes) (ov : Overlay) (level : Z)
    (lo : option Key) (child : Z) (c_hi : option Key) : M (Nodes * bool) :=
  if negb (touches ov lo c_hi) then ret ([(lo, child)], false)
  else if drops_whole ov lo c_hi then
    do pages := (if level =? 1 then ret [child] else subtree_pages crc32c DEPTH child) in
    each retire pages ;; ret ([], true)
  else do repl := rec child lo c_hi in ret (set_first lo repl, true).

Lemma apply_children_cons rec ov level lo sp child rest hi :
  apply_children crc32c rec ov level lo ((sp, child) :: rest) hi =
    (do here := child_step rec ov level lo child (upper rest hi) in
     do more := apply_children crc32c rec ov level (lower rest) rest hi in
     ret (fst here ++ fst more, snd here || snd more)).
Proof. done. Qed.

(** What [apply_node] does to a subtree. *)
Definition node_spec_at (ov : Overlay) (n : nat) (rec : Z -> option Key -> option Key -> M Nodes) : Prop :=
  forall s lo hi p es pgs, wf s -> live s pgs -> tree (rd s) n lo hi p es pgs ->
  wp (rec p lo hi) s (fun out s' => replaced ov n s s' lo hi es pgs out) (failed s).

Lemma replaced_kept ov n s s' lo hi sp p es pgs :
  wf s -> live s pgs -> ext s s' [] [] -> wf s' -> tree (rd s) n lo hi p es pgs -> overlaid ov lo hi es es -> sp = lo ->
  replaced ov n s s' lo hi es pgs [(sp, p)].
Proof.
  intros W (Hu & _) X W' HT HO ->. exists es, pgs, [], [], pgs. split_and!; try done; [|by left].
  apply forest_one. eapply tree_ext; [exact X| |exact HT]. intros q Hq. by eapply in_use_elem.
Qed.

Lemma overlaid_same ov lo hi es : touches ov lo hi = false -> overlaid ov lo hi es es.
Proof. intros H k Hk. by rewrite (touches_false ov lo hi). Qed.

Lemma replaced_set_first ov n s s' lo hi es pgs out :
  replaced ov n s s' lo hi es pgs out -> replaced ov n s s' lo hi es pgs (set_first lo out).
Proof.
  intros (es' & pgs' & F & R & k & HF & Hf & H). exists es', pgs', F, R, k. split; [|split; [|exact H]].
  - apply (forest_lower _ _ lo) in HF; [|done]. destruct out as [|[sp c] out]; [exact HF|]. exact HF.
  - destruct out as [|[sp c] out]; [done|]. by left.
Qed.

Lemma child_step_spec ov n rec s lo hi p es pgs :
  node_spec_at ov n rec -> Z.of_nat (S n) < 256 -> wf s -> live s pgs -> tree (rd s) n lo hi p es pgs ->
  wp (child_step rec ov (Z.of_nat (S n)) lo p hi) s
    (fun r s' => replaced ov n s s' lo hi es pgs (fst r) /\ (fst r = [] \/ lower (fst r) = lo) /\
                 (snd r = false -> ext s s' [] [] /\ overlaid ov lo hi es es)) (failed s).
Proof.
  intros Hrec Hlev W Hl HT. unfold child_step. destruct (touches ov lo hi) eqn:Et; cbn [negb].
  2: { apply wp_ret. cbn [fst snd]. split; [|split; [by right|]].
       - apply replaced_kept; try done; [apply ext_refl|by apply overlaid_same].
       - intros _. split; [apply ext_refl|by apply overlaid_same]. }
  destruct (drops_whole ov lo hi) eqn:Ed.
  - eapply (wp_step _ _ _ (fun out s' => out = pgs /\ ext s s' [] [] /\ wf s')).
    { destruct (Z.eqb_spec (Z.of_nat (S n)) 1) as [H1|H1].
      - assert (n = O) as -> by lia. destruct HT as (_ & _ & ->). apply wp_ret. split_and!; [done|apply ext_refl|done].
      - eapply subtree_pages_spec; [done|done| |exact HT]. unfold DEPTH. lia. }
    2: { intros e s' H. exact H. }
    intros pages s1 (-> & X1 & W1). assert (in_use s1 pgs) as Hu1 by (eapply in_use_ext; [exact X1|apply Hl]).
    eapply wp_step; [by apply each_retire_spec| |].
    2: { intros e s'. by apply (failed_trans _ _ _ _ _ _ _ X1). }
    intros _ s2 (X2 & W2). apply wp_ret. cbn [fst snd]. split; [|split; [by left|done]].
    exists [], [], [], pgs, []. split_and!; try done; [by eapply ext_after|by rewrite app_nil_r|].
    intros k Hk. by rewrite (drops_whole_true ov lo hi).
  - eapply wp_step; [by apply Hrec| |done]. intros repl s1 H. apply wp_ret. cbn [fst snd].
    split; [by apply replaced_set_first|]. split; [|done]. destruct repl as [|[sp c] repl]; [by left|by right].
Qed.

(** What replaces a subtree is placed by the bound its parent had for it. *)
Lemma replaced_intro ov n s s' lo hi es pgs out es' pgs' F R kept :
  forest (tree (rd s') n) lo out hi es' pgs' -> ext s s' F R -> wf s' -> pgs ≡ₚ R ++ kept -> pgs' ≡ₚ F ++ kept -> overlaid ov lo hi es es' ->
  replaced ov n s s' lo hi es pgs (set_first lo out).
Proof.
  intros HF X W P Q O. exists es', pgs', F, R, kept. split; [|split; [|by split_and!]].
  - by destruct out as [|[sp c] out].
  - destruct out as [|[sp c] out]; [done|by left].
Qed.

Lemma apply_children_spec ov n rec : node_spec_at ov n rec -> Z.of_nat (S n) < 256 -> forall cs lo hi es pgs s,
  cs <> [] -> wf s -> live s pgs -> forest (tree (rd s) n) lo cs hi es pgs ->
  wp (apply_children crc32c rec ov (Z.of_nat (S n)) lo cs hi) s
    (fun r s' => replaced ov n s s' lo hi es pgs (fst r) /\ (snd r = false -> ext s s' [] [] /\ overlaid ov lo hi es es)) (failed s).
Proof.
  intros Hrec Hlev. induction cs as [|[sp p] rest IH]; intros lo hi es pgs s Hne W Hl HF; [done|]. clear Hne.
  rewrite apply_children_cons. cbn [forest] in HF. destruct HF as (es1 & es2 & pg1 & pg2 & -> & -> & HT & HF & Hs).
  pose proof (proj1 (live_app _ _ _) Hl) as (L1 & L2 & Hd).
  eapply wp_step; [by apply (child_step_spec ov n rec s lo (upper rest hi) p es1 pg1)| |done].
  intros [o1 c1] s1 (H1 & Hlo & Hc1). cbn [fst snd] in *. pose proof H1 as (es1' & q1 & F1 & R1 & k1 & FT1 & Hf1 & X1 & W1 & P1 & Q1 & O1).
  assert (es_ok lo (upper rest hi) es1) as He1 by (by eapply T_es in HT; [|apply tree_sub]).
  destruct rest as [|[sr cr] rest'] eqn:Er.
  { destruct HF as [-> ->]. cbn [apply_children]. apply wp_bind, wp_ret, wp_ret. cbn [fst snd]. rewrite orb_false_r, !app_nil_r. by split. }
  rewrite <- Er in *. assert (live s1 pg2) as L2'.
  { eapply live_ext; [exact X1| |done]. intros x Hx HR. apply (Hd x); [|done]. rewrite P1. apply elem_of_app. by left. }
  assert (forest (tree (rd s1) n) (lower rest) rest hi es2 pg2) as HF1.
  { eapply forest_ext; [exact X1| |exact HF]. intros q Hq. by eapply in_use_elem; [apply L2|]. }
  eapply wp_step; [apply (IH (lower rest) hi es2 pg2 s1); [by subst rest|done..]| |].
  2: { intros e s2. by apply (failed_trans _ _ _ _ _ _ _ X1). }
  intros [o2 c2] s2 (H2 & Hc2). apply wp_ret. cbn [fst snd] in *.
  assert (es_ok (lower rest) hi es2) as He2 by (by eapply forest_es in HF; [|apply tree_sub]).
  split.
  - apply (replaced_app ov n s s1 s2 lo hi es1 es2 pg1 pg2 rest); try done. by subst rest.
  - intros [-> ->]%orb_false_iff. destruct (Hc1 eq_refl) as [Y1 Z1], (Hc2 eq_refl) as [Y2 Z2]. split; [by eapply ext_after|].
    subst rest. destruct Hs as (k & -> & Hk). cbn [upper lower] in *.
    apply (overlaid_app ov lo k hi); try done; [by eapply between_lo|by eapply between_hi].
Qed.

Lemma apply_node_spec ov : ov_ok ov -> forall fuel n, (n < fuel)%nat -> node_spec_at ov n (apply_node crc32c fuel ov).
Proof using Hcrc.
  intros Ho. induction fuel as [|fuel IH]; intros n Hf s lo hi p es pgs W Hl HT; [lia|]. cbn [apply_node].
  eapply wp_step; [exact (node_tree n lo hi p es pgs s W Hl HT)| |done]. intros nd s1 (Hnd & X1 & W1).
  assert (forall e s2, failed s1 e s2 -> failed s e s2) as Hfail by (intros e s2; apply (failed_trans _ _ _ _ _ _ _ X1)).
  assert (live s1 pgs) as Hl1 by (eapply live_ext; [exact X1|set_solver|done]).
  destruct n as [|n]; cbn [tree] in HT.
  - destruct HT as (E & He & ->). rewrite E in Hnd. injection Hnd as <-. fold (merged ov lo hi es).
    apply live_cons in Hl1 as ((Hp & Hup & _) & _). destruct (merged_ok ov lo hi es Ho He) as [Hm Hov].
    eapply wp_step; [by apply retire_spec| |exact Hfail]. intros _ s2 (X2 & W2). pose proof (ext_after _ _ _ _ _ X1 X2) as X12.
    eapply wp_step; [by apply (pack_leaves_spec crc32c Hcrc _ lo hi s2)| |].
    2: { intros e s3 H. eapply failed_trans; [exact X12|exact H]. }
    intros N s3 (F & X3 & W3 & FN & _). apply wp_ret. pose proof (ext_trans _ _ _ _ _ _ _ X12 X3) as X13. cbn [app] in X13.
    apply (replaced_intro ov 0 s s3 lo hi es [p] N (entries (merged ov lo hi es)) F F [p] []); try done. by rewrite app_nil_r.
  - destruct HT as (cs & pgs' & E & Hne & Hlev & -> & HF). rewrite E in Hnd. injection Hnd as <-.
    apply live_cons in Hl1 as (Hrp & Hl1 & Hnp).
    assert (forest (tree (rd s1) n) lo cs hi es pgs') as HF1.
    { eapply forest_ext; [exact X1| |exact HF]. intros q Hq. apply live_cons in Hl as (_ & Hl & _). by eapply in_use_elem; [apply Hl|]. }
    eapply wp_step; [apply (apply_children_spec ov n _ (IH n ltac:(lia)) Hlev cs lo hi es pgs' s1); done| |exact Hfail].
    intros [out ch] s2 ((es' & q' & F & R & k & FO & Hfo & X2 & W2 & P & Q & O) & Hch). cbn [fst snd] in *.
    pose proof (ext_after _ _ _ _ _ X1 X2) as X12. destruct ch; cbn [negb].
    2: { apply wp_ret. destruct (Hch eq_refl) as [Y Z]. apply replaced_kept; try done; [by eapply ext_after|].
         exists cs, pgs'. by split_and!. }
    assert (is_used s2 p = true /\ 0 <= p < page_count (layout s2)) as [Hup2 Hp2].
    { destruct Hrp as (Hp & Hup & _). rewrite (x_layout _ _ _ _ X2). split; [eapply ext_used; [exact X2|lia|done]|done]. }
    eapply wp_step; [by apply retire_spec| |]. 2: { intros e s3 H. eapply failed_trans; [exact X12|exact H]. }
    intros _ s3 (X3 & W3). pose proof (ext_trans _ _ _ _ _ _ _ X12 X3) as X13. rewrite app_nil_r in X13.
    assert (p :: pgs' ≡ₚ (R ++ [p]) ++ k) as PP by (rewrite P, <- app_assoc; cbn [app]; apply Permutation_middle).
    assert (in_use s3 q') as Huq.
    { eapply in_use_perm; [symmetry; exact Q|]. eapply in_use_ext; [exact X3|]. exact (live_in_use_kept _ _ _ _ _ _ Hl1 P X2). }
    assert (forest (tree (rd s3) n) (lower out) out hi es' q') as FO3.
    { eapply forest_ext; [exact X3| |exact FO]. intros q Hq. rewrite Q in Hq.
      by eapply in_use_elem; [exact (live_in_use_kept _ _ _ _ _ _ Hl1 P X2)|]. }
    destruct out as [|c0 out'] eqn:Eo.
    { destruct FO3 as [-> ->]. apply wp_ret. apply (replaced_intro ov (S n) s s3 lo hi es (p :: pgs') [] [] [] F (R ++ [p]) k); done. }
    rewrite <- Eo in *. eapply wp_step; [apply (pack_internal_spec crc32c Hcrc n out (lower out) hi es' q' s3); try done; by subst out| |].
    2: { intros e s4 H. eapply failed_trans; [exact X13|exact H]. }
    intros N s4 (F4 & (X4 & W4 & (q4 & FN & P4) & _) & _). apply wp_ret. pose proof (ext_trans _ _ _ _ _ _ _ X13 X4) as X14. rewrite app_nil_r in X14.
    apply (replaced_intro ov (S n) s s4 lo hi es (p :: pgs') N es' q4 (F ++ F4) (R ++ [p]) k); try done.
    + eapply forest_mono; [apply tree_sub| |apply hi_le_refl|exact FN]. apply (first_ok_lo lo hi); [by subst out|done].
    + rewrite P4, Q. by rewrite !app_assoc, (Permutation_app_comm F4).
Qed.
End Apply.
