(* ===== verification/MetaTreeWrite.v ===== *)
(** A checkpoint's tree: [write_tree] makes the tree of what the store shows, on new pages
    and old ones, and accounts for every page. Reading the metadata store's tree: the walks
    of [scan] and [scan_range] give the entries in key order, and [mark_reachable] finds
    exactly the tree's pages. Opening the metadata store: [mark_reachable] marks exactly the
    pages of the tree the superblock names. *)

From stdpp Require Import sorting.
From S2P Require Import Prelude ExtMap MetaPage MetaPageProofs MetaTree MetaTreePages MetaTreeApply.
#[local] Open Scope meta_scope.

(** ** The entries of an overlay alone *)

Lemma live_puts_elem ov k v : (k, v) ∈ live_puts ov <-> puts ov !! k = Some (Some v).
Proof.
  unfold live_puts. rewrite list_elem_of_omap. split.
  - intros ([k' [w|]] & Hin%elem_of_entries & E); cbn in E; [by simplify_eq|done].
  - intros H. exists (k, Some v). split; [by apply elem_of_entries|done].
Qed.
Lemma live_puts_sorted ov : sorted (live_puts ov).
Proof.
  unfold sorted, live_puts. pose proof (sort_dedup_increasing (map fst (map_to_list (puts ov)))) as H.
  change (sort_dedup _) with (sorted_keys (puts ov)) in H. rewrite <- map_fst_entries in H.
  induction (entries (puts ov)) as [|[k x] l IH]; [constructor|]. cbn [map fst] in H. inversion H as [|? ? Hl Hk]; subst.
  cbn [omap list_omap snd fst]. destruct x as [v|]; cbn [option_bind mbind]; [|by apply IH]. cbn [map fst]. constructor; [by apply IH|].
  apply Forall_forall. intros y ([k' w] & -> & (e & He & Ee)%list_elem_of_omap)%list_elem_of_fmap.
  rewrite Forall_forall in Hk. apply Hk. destruct e as [k0 [w0|]]; [|done]. cbn in Ee. simplify_eq. apply list_elem_of_fmap. by exists (k', Some w).
Qed.
Lemma live_puts_ok ov : ov_ok ov -> es_ok None None (live_puts ov).
Proof.
  intros H. split_and!; [apply live_puts_sorted|by apply Forall_forall|]. apply Forall_forall.
  intros [k v] Hp%live_puts_elem. by destruct (H _ _ Hp).
Qed.
Lemma live_puts_lk ov k : lk (live_puts ov) k = eff ov k None.
Proof.
  apply option_eq. intros v. rewrite lk_elem by apply increasing_NoDup, live_puts_sorted. rewrite live_puts_elem. unfold eff.
  destruct (puts ov !! k) as [[w|]|]; [naive_solver..|]. case_decide; naive_solver.
Qed.

(** ** Giving a page back *)

Lemma swap_remove_perm l (i : nat) x : l !! i = Some x -> x :: swap_remove i l ≡ₚ l.
Proof.
  intros Hi. pose proof (lookup_lt_Some _ _ _ Hi) as Hl. unfold swap_remove. destruct (Nat.eqb_spec (S i) (length l)) as [He|He].
  - rewrite <- (take_drop_middle l i x Hi) at 2. rewrite (drop_ge l (S i)) by lia. by rewrite (Permutation_app_comm (take i l)).
  - destruct l as [|y l' _] using rev_ind; [done|]. rewrite length_app in *. cbn [length] in *.
    rewrite last_snoc. cbn [default from_option id]. replace (length l' + 1 - 1)%nat with (length l') by lia. rewrite take_app_length.
    rewrite lookup_app_l in Hi by lia. rewrite <- (take_drop_middle l' i x Hi) at 2. rewrite insert_take_drop by lia.
    rewrite (Permutation_app_comm _ [y]). cbn [app]. rewrite <- !Permutation_middle. apply perm_swap.
Qed.

Section Write.
Context (crc32c : bytes -> Z).
Abbreviation rd := (page_node crc32c).
Abbreviation wf := (wf crc32c).
Abbreviation failed := (failed crc32c).

(** The store's tree: its entries and its pages. *)
Definition holds (s : MetaV2) (r : Z) (es : list (Key * bytes)) (pgs : list Z) : Prop :=
  (r = EMPTY /\ es = [] /\ pgs = []) \/ (r <> EMPTY /\ exists n, Z.of_nat n < 256 /\ tree (rd s) n None None r es pgs).

(** Everything in use in the new tree is used, once, and not retired. *)
Lemma live_new s0 s F R P0 kept : retired s0 = [] -> live s0 P0 -> ext s0 s F R -> P0 ≡ₚ R ++ kept -> live s (F ++ kept).
Proof.
  intros Hr0 Hl X P. pose proof Hl as (Hu & Hn & _). rewrite P in Hn. apply NoDup_app in Hn as (_ & Hd & Hnk).
  assert (forall x, x ∈ F -> x ∉ P0) as HF.
  { intros x Hx HP. destruct (ext_fresh_used _ _ _ _ _ X Hx) as (_ & _ & Hf). destruct (in_use_elem _ _ _ Hu HP). congruence. }
  split_and!; [exact (live_in_use_kept _ _ _ _ _ _ Hl P X)| |].
  - apply NoDup_app. split_and!; [apply (x_NoDup _ _ _ _ X)| |done]. intros x Hx Hk. apply (HF x Hx). rewrite P. apply elem_of_app. by right.
  - rewrite (x_retired _ _ _ _ X), Hr0. cbn [app]. apply Forall_app. split; apply Forall_forall; intros x Hx HR.
    + apply (HF x Hx). rewrite P. apply elem_of_app. by left.
    + by apply (Hd x).
Qed.

Lemma give_back_spec s0 s F R p :
  fresh s0 = [] -> retired s0 = [] -> wf s0 -> wf s -> ext s0 s F (R ++ [p]) -> (p ∉ R) -> 0 <= p < page_count (layout s0) -> in_use s0 R ->
  wp (give_back p) s (fun _ s' => wf s' /\ view (dev s') = view (dev s) /\ page_off (layout s') = page_off (layout s) /\
    (((p ∉ F) /\ ext s0 s' F (R ++ [p])) \/ exists F', F ≡ₚ p :: F' /\ ext s0 s' F' R)) (failed s0).
Proof.
  intros Hf0 Hr0 W0 W X HpR Hp HuR. unfold wp, give_back, modify.
  pose proof (x_fresh _ _ _ _ X) as PF. rewrite Hf0 in PF. cbn [app] in PF.
  destruct (list_find (fun q => q = p) (fresh s)) as [[i q]|] eqn:E.
  2: { split_and!; [done|done|done|]. left. split; [|done]. apply list_find_None in E. rewrite Forall_forall in E.
       intros Hin. rewrite <- PF in Hin. by apply (E p). }
  apply list_find_Some in E as (Ei & -> & _). set (F' := swap_remove i (fresh s)).
  pose proof (swap_remove_perm _ _ _ Ei) as PS. fold F' in PS. rewrite PF in PS.
  pose proof (x_NoDup _ _ _ _ X) as HN. rewrite <- PS in HN. apply NoDup_cons in HN as [HpF' HNF'].
  assert (p ∈ F) as HpF by (rewrite <- PS; by left). destruct (ext_fresh_used _ _ _ _ _ X HpF) as (Hup & Hpr & Hu0).
  assert (retired s = R ++ [p]) as ER by (rewrite (x_retired _ _ _ _ X), Hr0; done).
  assert (take (length (retired s) - 1) (retired s) = R) as ET.
  { rewrite ER, length_app. cbn [length]. replace (length R + 1 - 1)%nat with (length R) by lia. apply take_app_length. }
  rewrite ET. set (s' := set_used p false _).
  assert (forall x, 0 <= x -> is_used s' x = if p =? x then false else is_used s x) as HU.
  { intros x Hx. subst s'. rewrite is_used_set_used; [done|lia| |done]. cbn [used set_pages]. pose proof (w_len _ _ W). lia. }
  assert (ext s0 s' F' R) as X'.
  { destruct X as [Xf Xd Xc Xu Xfr Xr XN Xn]. split; try done.
    - intros x Hx. rewrite HU, Xu by done. destruct (Z.eqb_spec p x) as [<-|Hne].
      + rewrite Hu0, bool_decide_eq_false_2; done.
      + f_equal. apply bool_decide_ext. rewrite <- PS, elem_of_cons. split; [by intros [->|]|by right].
    - cbn. by rewrite Hf0.
    - cbn. by rewrite Hr0.
    - rewrite <- PS in Xn. by inversion Xn. }
  split_and!; [|done|done|right; exists F'; split; [by rewrite PS|done]].
  eapply (wf_ext _ s0); [done|exact X'| |..].
  - exact HuR.
  - apply (used_ok_set_used p false); [lia|apply W].
  - cbn. unfold zlen. rewrite length_alter. rewrite <- (x_layout _ _ _ _ X). apply W.
  - cbn. pose proof (w_hint _ _ W). assert (0 <= p / 64) by (apply Z.div_pos; lia). lia.
  - intros x n Hx. change (internal s') with (internal s) in Hx. destruct (w_cache _ _ W x n Hx) as (H1 & H2 & H3 & H4 & H5).
    assert (p <> x) by (intros ->; apply H4; rewrite ER; apply elem_of_app; right; by left). rewrite ER in H4.
    split; [cbn; intros Hin; apply H4; apply elem_of_app; by left|]. right. rewrite (x_layout _ _ _ _ X) in H2.
    split_and!; try done; [lia..|]. rewrite HU by lia. by destruct (Z.eqb_spec p x).
Qed.

(** A new tree over the store [s0]: its pages are new ones and what is kept of [P0],
    the rest of which has been retired. *)
Definition rebuilt (s0 s : MetaV2) (P0 : list Z) (r : Z) (es : list (Key * bytes)) : Prop :=
  exists pgs F R kept, holds s r es pgs /\ ext s0 s F R /\ wf s /\ P0 ≡ₚ R ++ kept /\ pgs ≡ₚ F ++ kept.

Lemma node_same s s' p : view (dev s') = view (dev s) -> page_off (layout s') = page_off (layout s) -> rd s' p = rd s p.
Proof. intros Hv Hl. unfold page_node, page_block. by rewrite Hv, Hl. Qed.

Lemma collapse_spec s0 P0 es : fresh s0 = [] -> retired s0 = [] -> wf s0 -> live s0 P0 -> forall fuel n r s pgs F R kept,
  (n < fuel)%nat -> Z.of_nat n < 256 -> wf s -> ext s0 s F R -> P0 ≡ₚ R ++ kept -> pgs ≡ₚ F ++ kept ->
  tree (rd s) n None None r es pgs ->
  wp (collapse crc32c fuel r) s (fun r' s' => rebuilt s0 s' P0 r' es) (failed s0).
Proof.
  intros Hf0 Hr0 W0 Hl0. induction fuel as [|fuel IH]; intros n r s pgs F R kept Hfu Hlev W X P Q HT; [lia|].
  pose proof (live_new s0 s F R P0 kept Hr0 Hl0 X P) as Hl.
  assert (live s pgs) as Hlp by (destruct Hl as (A & B & C); split_and!; [by eapply in_use_perm|by rewrite Q|by rewrite Q]).
  assert (r <> EMPTY) as Hr. { destruct (tree_root _ _ _ _ _ _ _ HT) as (q & ->). apply live_cons in Hlp as ((Hp & _) & _). by apply (page_u64 crc32c s). }
  cbn [collapse]. destruct (Z.eqb_spec r EMPTY); [done|].
  assert (forall e s', failed s e s' -> failed s0 e s') as Hfail by (intros e s'; apply (failed_trans _ _ _ _ _ _ _ X)).
  eapply wp_step; [exact (node_tree crc32c n None None r es pgs s W Hlp HT)| |exact Hfail].
  intros nd s1 (Hnd & X1 & W1). pose proof (ext_trans _ _ _ _ _ _ _ X X1) as X01. rewrite !app_nil_r in X01.
  assert (tree (rd s1) n None None r es pgs) as HT1.
  { eapply tree_ext; [exact X1| |exact HT]. intros q Hq. by eapply in_use_elem; [apply Hlp|]. }
  assert (rebuilt s0 s1 P0 r es) as Hdone.
  { exists pgs, F, R, kept. split_and!; try done. right. split; [done|]. by exists n. }
  destruct nd as [les|level cs]; [by apply wp_ret|]. destruct cs as [|[sp c] [|c2 cs]]; [by apply wp_ret| |by apply wp_ret].
  destruct n as [|n]; cbn [tree] in HT1.
  { destruct HT1 as (E & _). rewrite (ext_node _ _ _ _ _ _ X1), Hnd in E; [done|].
    destruct (tree_root _ _ _ _ _ _ _ HT) as (q & ->). by apply live_cons in Hlp as ((_ & ? & _) & _). }
  destruct HT1 as (cs & pgs' & E & _ & _ & -> & HF). apply live_cons in Hlp as ((Hp & Hup & Hrr) & Hlp & Hnp).
  rewrite (ext_node _ _ _ _ _ _ X1), Hnd in E by done. injection E as -> <-. apply forest_one in HF.
  eapply wp_step; [apply retire_spec; [done|by rewrite (x_layout _ _ _ _ X1)|by eapply ext_used; [exact X1|lia|]]| |].
  2: { intros e s2 H. eapply failed_trans; [exact X01|exact H]. }
  intros _ s2 (X2 & W2). pose proof (ext_trans _ _ _ _ _ _ _ X01 X2) as X02. rewrite app_nil_r in X02.
  assert (r ∉ R) as HrR. { intros Hin. apply Hrr. rewrite (x_retired _ _ _ _ X). apply elem_of_app. by right. }
  assert (in_use s0 R) as HuR. { pose proof Hl0 as (Hu0 & _). eapply in_use_perm in Hu0; [|exact P]. by apply in_use_app in Hu0 as [? _]. }
  eapply wp_step; [apply (give_back_spec s0 s2 F R r); try done; by rewrite <- (x_layout _ _ _ _ X)| |done].
  intros _ s3 (W3 & Hv3 & Hl3 & Hcase).
  assert (tree (rd s3) n None None c es pgs') as HT3.
  { eapply tree_rd; [intros q _; by apply (node_same s2)|]. eapply tree_ext; [exact X2| |exact HF].
    intros q Hq. eapply ext_used; [exact X1| |]; by apply (in_use_elem s pgs'); [apply Hlp|]. }
  destruct Hcase as [[HnF X03]|(F' & PF & X03)].
  - assert (r ∈ kept) as Hk. { assert (r ∈ F ++ kept) as Hin by (rewrite <- Q; by left). by apply elem_of_app in Hin as [|]. }
    apply list_elem_of_split in Hk as (k1 & k2 & ->).
    apply (IH n c s3 pgs' F (R ++ [r]) (k1 ++ k2)); try done; [lia|lia| |].
    + rewrite P, <- app_assoc. cbn [app]. by rewrite <- Permutation_middle.
    + apply (Permutation_cons_inv (a := r)). rewrite Q. by rewrite <- !Permutation_middle.
  - apply (IH n c s3 pgs' F' R kept); try done; [lia|lia|]. apply (Permutation_cons_inv (a := r)). rewrite Q, PF. done.
Qed.

Lemma tree_level (f : Z -> option Node) n lo hi p es pgs : tree f n lo hi p es pgs -> Z.of_nat n < 256.
Proof. destruct n; [done|]. intros (cs & pgs' & _ & _ & H & _). exact H. Qed.
Lemma holds_tree s n r es pgs : wf s -> in_use s pgs -> tree (rd s) n None None r es pgs -> holds s r es pgs.
Proof.
  intros W Hu HT. right. split; [|exists n; split; [by eapply tree_level|done]].
  destruct (tree_root _ _ _ _ _ _ _ HT) as (q & ->). apply Forall_cons in Hu as [[Hp _] _]. by apply (page_u64 crc32c s).
Qed.

Context (Hcrc : forall b, u32_ok (crc32c b)).

(** A tree of entries from nothing. *)
Lemma pack_tree_spec es s0 : wf s0 -> es_ok None None es ->
  wp (do leaves := pack_leaves crc32c es in build_up crc32c leaves 1) s0
    (fun r s => exists F pgs, holds s r es pgs /\ ext s0 s F [] /\ wf s /\ pgs ≡ₚ F) (failed s0).
Proof using Hcrc.
  intros W0 He. eapply wp_step; [by apply (pack_leaves_spec crc32c Hcrc _ None None)| |done].
  intros N s1 (F & X1 & W1 & FN & _). assert (in_use s1 F) as Hu1 by (by eapply in_use_fresh).
  destruct N as [|c N].
  { destruct FN as [E ->]. apply wp_ret. rewrite E. exists [], []. split_and!; try done. by left. }
  eapply wp_mono; [by apply (build_up_spec crc32c Hcrc 0 (c :: N) None None es F s1)|..].
  - intros r s2 (m & F2 & pgs & _ & X2 & W2 & HT & P2). exists (F ++ F2), pgs.
    split_and!; [|exact (ext_trans _ _ _ _ _ _ _ X1 X2)|done|rewrite P2; apply Permutation_app_comm].
    eapply holds_tree; [done| |exact HT]. eapply in_use_perm; [symmetry; exact P2|]. apply in_use_app.
    split; [by eapply in_use_fresh|by eapply in_use_ext].
  - intros e s2. by apply (failed_trans _ _ _ _ _ _ _ X1).
Qed.

(** [write_tree] makes the tree of what the overlay shows over the old one's entries. *)
Lemma write_tree_spec ov s0 es P0 :
  fresh s0 = [] -> retired s0 = [] -> wf s0 -> ov_ok ov -> holds s0 (root s0) es P0 -> live s0 P0 ->
  wp (write_tree crc32c ov) s0
    (fun r s => exists es', rebuilt s0 s P0 r es' /\ (es_ok None None es') /\ forall k, lk es' k = eff ov k (lk es k)) (failed s0).
Proof using Hcrc.
  intros Hf0 Hr0 W0 Ho Hh Hl0. unfold write_tree. apply wp_bind, wp_gets.
  destruct Hh as [(-> & -> & ->)|(Hr & n & Hlev & HT)].
  - rewrite Z.eqb_refl. pose proof (live_puts_ok ov Ho) as He. eapply wp_mono; [by apply pack_tree_spec| |done].
    intros r s (F & pgs & Hh & X & W & P). exists (live_puts ov). split; [|split; [done|intros k; apply live_puts_lk]].
    exists pgs, F, [], []. split_and!; [done|done|done|done|by rewrite app_nil_r].
  - destruct (Z.eqb_spec (root s0) EMPTY); [done|].
    eapply wp_step; [exact (node_tree crc32c n None None _ es P0 s0 W0 Hl0 HT)| |done]. intros nd s1 (Hnd & X1 & W1).
    assert (match nd with Leaf _ => 0 | Internal level _ => level end = Z.of_nat n) as ->.
    { destruct n; cbn [tree] in HT; [destruct HT as (E & _)|destruct HT as (? & ? & E & _)]; rewrite E in Hnd; by injection Hnd as <-. }
    assert (live s1 P0) as Hl1 by (eapply live_ext; [exact X1|set_solver|done]).
    assert (forall e s', failed s1 e s' -> failed s0 e s') as Hfail by (intros e s'; apply (failed_trans _ _ _ _ _ _ _ X1)).
    assert (tree (rd s1) n None None (root s0) es P0) as HT1.
    { eapply tree_ext; [exact X1| |exact HT]. intros q Hq. by eapply in_use_elem; [apply Hl0|]. }
    eapply wp_step; [apply (apply_node_spec crc32c Hcrc ov Ho DEPTH n); [unfold DEPTH; lia|done|exact Hl1|exact HT1]| |exact Hfail].
    intros nodes s2 (es' & pgs' & F & R & k & FN & Hfo & X2 & W2 & P & Q & O). pose proof (ext_after _ _ _ _ _ X1 X2) as X02.
    apply wp_bind. unfold next_level. destruct (Z.eqb_spec (Z.of_nat n) 255).
    { split; [by right; right|]. by exists F, R. }
    unfold wp at 1. cbn [ret]. replace (Z.of_nat n + 1) with (Z.of_nat (S n)) by lia.
    apply (forest_lower _ _ None) in FN; [|exact Hfo].
    assert (es_ok None None es') as He' by (by eapply forest_es in FN; [|apply tree_sub]).
    assert (forall x, lk es' x = eff ov x (lk es x)) as Hlk by (intros x; apply O; done).
    assert (in_use s2 pgs') as Hu2 by (eapply in_use_perm; [symmetry; exact Q|exact (live_in_use_kept _ _ _ _ _ _ Hl1 P X2)]).
    destruct nodes as [|c nodes].
    { destruct FN as [-> ->]. apply wp_bind. cbn [build_up build_loop length]. apply wp_ret. cbn [collapse DEPTH Nat.add].
      apply wp_ret. exists []. split; [|by split]. exists [], F, R, k. split_and!; try done. by left. }
    eapply wp_step; [by apply (build_up_spec crc32c Hcrc n (c :: nodes) None None es' pgs' s2); try lia| |].
    2: { intros e s3 H. eapply failed_trans; [exact X02|exact H]. }
    intros r s3 (m & F3 & pgs3 & _ & X3 & W3 & HT3 & P3). pose proof (ext_trans _ _ _ _ _ _ _ X02 X3) as X03. rewrite app_nil_r in X03.
    pose proof (tree_level _ _ _ _ _ _ _ HT3) as Hm.
    eapply wp_mono; [apply (collapse_spec s0 P0 es' Hf0 Hr0 W0 Hl0 (DEPTH + 1) m r s3 pgs3 (F ++ F3) R k); try done|..].
    + unfold DEPTH. lia.
    + rewrite P3, Q. by rewrite !app_assoc, (Permutation_app_comm F3).
    + intros r' s4 H. exists es'. by split.
    + done.
Qed.
End Write.

#[local] Open Scope meta_scope.

(** A list of distinct numbers below [n] is no longer than [n]. *)
Lemma NoDup_bound (l : list Z) n : NoDup l -> Forall (fun p => 0 <= p < n) l -> zlen l <= Z.max 0 n.
Proof.
  intros Hn Hb. destruct (Z.lt_ge_cases n 0).
  { destruct l as [|x l]; [unfold zlen; cbn; lia|]. inversion Hb; lia. }
  assert (length l <= length (zrange 0 n))%nat as Hle.
  { apply submseteq_length, NoDup_submseteq; [done|]. intros x Hx. rewrite Forall_forall in Hb. apply elem_of_zrange. by apply Hb. }
  unfold zrange in Hle. rewrite length_zseq in Hle. unfold zlen. lia.
Qed.

Lemma not_dropped_app ov a b : not_dropped ov (a ++ b) = not_dropped ov a ++ not_dropped ov b.
Proof. apply filter_app. Qed.

Lemma lk_not_dropped ov es k : sorted es -> lk (not_dropped ov es) k = if decide (key_vol k ∈ dropped ov) then None else lk es k.
Proof.
  intros Hs. unfold not_dropped. rewrite lk_filter by (by apply increasing_NoDup). cbn [fst].
  destruct (lk es k); repeat case_decide; tauto || done.
Qed.
Lemma sorted_filter (P : Key * bytes -> Prop) `{!forall x, Decision (P x)} es : sorted es -> sorted (filter P es).
Proof.
  unfold sorted. induction es as [|e es IH]; intros Hst; [done|]. cbn [map] in Hst. inversion Hst as [|? ? Hs Hk]; subst.
  rewrite filter_cons. case_decide; [|by apply IH]. cbn [map]. constructor; [by apply IH|].
  apply Forall_forall. intros x (e' & -> & [_ Hin]%list_elem_of_filter)%list_elem_of_fmap. rewrite Forall_forall in Hk. apply Hk.
  apply list_elem_of_fmap. by exists e'.
Qed.
Lemma sorted_entries (m : gmap Z bytes) : sorted (entries m).
Proof. unfold sorted. rewrite map_fst_entries. apply sort_dedup_increasing. Qed.

Lemma length_pages s pgs : live s pgs -> (length pgs <= Z.to_nat (page_count (layout s)) + 1)%nat.
Proof.
  intros (Hu & Hn & _). assert (Forall (fun p => 0 <= p < page_count (layout s)) pgs) as Hb by (eapply Forall_impl; [exact Hu|]; cbn; tauto).
  pose proof (NoDup_bound pgs _ Hn Hb) as H. unfold zlen in H. lia.
Qed.

Lemma merge_sort_sorted (l : list (Key * bytes)) : sorted l -> merge_sort key_le l = l.
Proof.
  intros Hs. pose proof (merge_sort_Permutation key_le l) as HP.
  assert (Transitive key_le) as Ht by (unfold key_le; intros x y z; lia). assert (Total key_le) as Hto by (unfold key_le; intros x y; lia).
  pose proof (StronglySorted_merge_sort key_le l) as HS. set (l' := merge_sort key_le l) in *.
  assert (NoDup (map fst l')) as Hn by (rewrite HP; by apply increasing_NoDup).
  assert (sorted l') as Hs'.
  { clear HP Hs. clearbody l'. unfold sorted. induction HS as [|e l1 HS IH He]; [constructor|]. cbn [map] in *. apply NoDup_cons in Hn as [Hx Hn].
    constructor; [by apply IH|]. apply Forall_forall. intros x (e' & -> & Hin)%list_elem_of_fmap. rewrite Forall_forall in He.
    pose proof (He e' Hin) as Hle. unfold key_le in Hle. assert (fst e <> fst e'); [|lia]. intros Heq. apply Hx. rewrite Heq. apply list_elem_of_fmap. by exists e'. }
  apply lk_ext; [done|done|]. intros k. apply option_eq. intros v.
  rewrite !lk_elem by (done || by apply increasing_NoDup). by rewrite HP.
Qed.

Section Scan.
Context (crc32c : bytes -> Z).
Abbreviation rd := (page_node crc32c).
Abbreviation wf := (wf crc32c).
Abbreviation failed := (failed crc32c).

(** Trees waiting to be walked, with their bounds: their entries and pages. *)
Inductive stack_of (f : Z -> option Node) : list (Z * option Key * option Key) -> list (Key * bytes) -> list Z -> Prop :=
| StackNil : stack_of f [] [] []
| StackCons n lo hi p es pgs st es' pgs' :
    tree f n lo hi p es pgs -> stack_of f st es' pgs' -> stack_of f ((p, lo, hi) :: st) (es ++ es') (pgs ++ pgs').

(** The children of a node, each with its bounds. *)
Fixpoint with_bounds (lo : option Key) (cs : Nodes) (hi : option Key) : list (Z * option Key * option Key) :=
  match cs with
  | [] => []
  | (_, c) :: rest => (c, lo, upper rest hi) :: with_bounds (lower rest) rest hi
  end.
Lemma forest_stack f n lo cs hi es pgs st es' pgs' :
  forest (tree f n) lo cs hi es pgs -> stack_of f st es' pgs' -> stack_of f (with_bounds lo cs hi ++ st) (es ++ es') (pgs ++ pgs').
Proof.
  revert lo es pgs. induction cs as [|[s c] rest IH]; intros lo es pgs; cbn [forest with_bounds].
  - by intros [-> ->].
  - intros (e1 & e2 & q1 & q2 & -> & -> & HT & HF & _) Hs. rewrite <- !app_assoc. cbn [app]. eapply StackCons; [exact HT|].
    by apply IH.
Qed.
Lemma with_bounds_pages lo cs hi : map (fun x => fst (fst x)) (with_bounds lo cs hi) = map snd cs.
Proof. revert lo. induction cs as [|[s c] rest IH]; intros lo; [done|]. cbn. f_equal. apply IH. Qed.
Lemma stack_of_rd f f' st es pgs : (forall q, q ∈ pgs -> f' q = f q) -> stack_of f st es pgs -> stack_of f' st es pgs.
Proof.
  intros H Hs. induction Hs as [|n lo hi p es pgs st es' pgs' HT Hs IH]; [constructor|]. econstructor.
  - eapply tree_rd; [|exact HT]. intros q Hq. apply H, elem_of_app. by left.
  - apply IH. intros q Hq. apply H, elem_of_app. by right.
Qed.

Lemma stack_ext s s' F R st es pgs : ext s s' F R -> live s pgs -> stack_of (rd s) st es pgs -> stack_of (rd s') st es pgs.
Proof.
  intros X Hl. apply stack_of_rd. intros q Hq. apply (ext_node _ _ _ _ _ _ X). by eapply in_use_elem; [apply Hl|].
Qed.

(** The walk: from the top of the stack, what [step] gives for each page, in order. *)
Lemma tree_scan_loop_spec ov : forall fuel st es pgs s,
  wf s -> live s pgs -> (length pgs <= fuel)%nat -> stack_of (rd s) st es pgs ->
  wp (scan_loop crc32c fuel (map (fun x => fst (fst x)) st) ov) s
    (fun out s' => out = not_dropped ov es /\ ext s s' [] [] /\ wf s') (failed s).
Proof.
  induction fuel as [|fuel IH]; intros st es pgs s W Hl Hf Hs; inversion Hs as [|n lo hi p es1 pg1 st' es2 pg2 HT Hs']; subst.
  1,3: apply wp_ret; split_and!; [done|apply ext_refl|done].
  { destruct (tree_root _ _ _ _ _ _ _ HT) as (q & ->). cbn in Hf. lia. }
  cbn [map fst scan_loop]. pose proof (proj1 (live_app _ _ _) Hl) as (L1 & L2 & _).
  eapply wp_step; [exact (node_tree crc32c n lo hi p es1 pg1 s W L1 HT)| |done]. intros nd s1 (Hnd & X1 & W1).
  assert (forall e s', failed s1 e s' -> failed s e s') as Hfail by (intros e s'; apply (failed_trans _ _ _ _ _ _ _ X1)).
  assert (forall q, live s q -> live s1 q) as Hlive by (intros q; eapply live_ext; [exact X1|set_solver]).
  pose proof (stack_ext _ _ _ _ _ _ _ X1 L2 Hs') as Hs1.
  destruct n as [|n]; cbn [tree] in HT.
  - destruct HT as (E & _ & ->). rewrite E in Hnd. injection Hnd as <-. cbn in Hf.
    eapply wp_step; [apply (IH st' es2 pg2 s1); [done|auto|lia|done]| |exact Hfail].
    intros out s2 (-> & X2 & W2). apply wp_ret. rewrite not_dropped_app. split_and!; [done|by eapply ext_after|done].
  - destruct HT as (cs & pgs' & E & _ & _ & -> & HF). rewrite E in Hnd. injection Hnd as <-.
    apply live_cons in L1 as (_ & L1 & _). cbn in Hf.
    rewrite <- (with_bounds_pages lo cs hi), <- map_app.
    eapply wp_mono; [apply (IH (with_bounds lo cs hi ++ st') (es1 ++ es2) (pgs' ++ pg2) s1); [done| |lia|]|..].
    + apply Hlive. pose proof Hl as Hl'. cbn [app] in Hl'. by apply live_cons in Hl' as (_ & ? & _).
    + eapply forest_stack; [|exact Hs1]. eapply forest_ext; [exact X1| |exact HF]. intros q Hq. by eapply in_use_elem; [apply L1|].
    + intros out s2 (-> & X2 & W2). split_and!; [done|by eapply ext_after|done].
    + exact Hfail.
Qed.

(** Only the subtrees that can hold a key of the range are walked. *)
Definition in_keys (lo hi : Key) (es : list (Key * bytes)) : list (Key * bytes) := filter (fun e => lo <= fst e <= hi) es.
Lemma in_keys_app lo hi a b : in_keys lo hi (a ++ b) = in_keys lo hi a ++ in_keys lo hi b.
Proof. apply filter_app. Qed.
Lemma misses_none lo hi l h es : misses lo hi l h = true -> Forall (fun e : Key * bytes => within l h (fst e)) es -> in_keys lo hi es = [].
Proof.
  intros Hm Hw. unfold in_keys. induction Hw as [|[k v] es Hk _ IH]; [done|]. rewrite filter_cons_False; [done|].
  cbn [fst] in *. unfold misses, within in *. destruct l, h; cbn in Hm; rewrite ?orb_true_iff, ?Z.ltb_lt, ?Z.leb_le in Hm; lia.
Qed.
Lemma meeting_stack f lo hi n l cs h es pgs : forest (tree f n) l cs h es pgs ->
  exists es1 pgs1, (forall st es' pgs', stack_of f st es' pgs' -> stack_of f (meeting lo hi l cs h ++ st) (es1 ++ es') (pgs1 ++ pgs')) /\
    in_keys lo hi es1 = in_keys lo hi es /\ pgs1 `sublist_of` pgs.
Proof.
  revert l es pgs. induction cs as [|[s c] rest IH]; intros l es pgs; cbn [forest meeting].
  - intros [-> ->]. by exists [], [].
  - intros (e1 & e2 & q1 & q2 & -> & -> & HT & HF & _). apply IH in HF as (e3 & q3 & H3 & E3 & S3).
    destruct (misses lo hi l (upper rest h)) eqn:Em.
    + exists e3, q3. cbn [app]. split_and!; [done| |by apply sublist_inserts_l].
      rewrite in_keys_app, E3. apply (T_es _ (tree_sub f n)) in HT as (_ & Hw & _). by rewrite (misses_none lo hi _ _ e1 Em Hw).
    + exists (e1 ++ e3), (q1 ++ q3). split_and!; [|by rewrite !in_keys_app, E3|by apply sublist_app].
      intros st es' pgs' Hs. rewrite <- !app_assoc. cbn [app]. eapply StackCons; [exact HT|]. by apply H3.
Qed.
Lemma live_sublist s p q : p `sublist_of` q -> live s q -> live s p.
Proof.
  intros Hs (Hu & Hn & Hr). split_and!; [|by eapply sublist_NoDup|]; apply Forall_forall; intros x Hx; eapply elem_of_sublist in Hx; [|exact Hs| |exact Hs].
  - by apply (in_use_elem s q).
  - rewrite Forall_forall in Hr. by apply Hr.
Qed.

Lemma range_loop_spec ov lo hi : forall fuel st es pgs s,
  wf s -> live s pgs -> (length pgs <= fuel)%nat -> stack_of (rd s) st es pgs ->
  wp (range_loop crc32c fuel lo hi st ov) s
    (fun out s' => out = not_dropped ov (in_keys lo hi es) /\ ext s s' [] [] /\ wf s') (failed s).
Proof.
  induction fuel as [|fuel IH]; intros st es pgs s W Hl Hf Hs; inversion Hs as [|n l h p es1 pg1 st' es2 pg2 HT Hs']; subst.
  1,3: apply wp_ret; split_and!; [done|apply ext_refl|done].
  { destruct (tree_root _ _ _ _ _ _ _ HT) as (q & ->). cbn in Hf. lia. }
  cbn [range_loop]. pose proof (proj1 (live_app _ _ _) Hl) as (L1 & L2 & _).
  eapply wp_step; [exact (node_tree crc32c n l h p es1 pg1 s W L1 HT)| |done]. intros nd s1 (Hnd & X1 & W1).
  assert (forall e s', failed s1 e s' -> failed s e s') as Hfail by (intros e s'; apply (failed_trans _ _ _ _ _ _ _ X1)).
  assert (forall q, live s q -> live s1 q) as Hlive by (intros q; eapply live_ext; [exact X1|set_solver]).
  pose proof (stack_ext _ _ _ _ _ _ _ X1 L2 Hs') as Hs1. rewrite in_keys_app, not_dropped_app.
  destruct n as [|n]; cbn [tree] in HT.
  - destruct HT as (E & _ & ->). rewrite E in Hnd. injection Hnd as <-. cbn in Hf.
    eapply wp_step; [apply (IH st' es2 pg2 s1); [done|auto|lia|done]| |exact Hfail].
    intros out s2 (-> & X2 & W2). apply wp_ret. split_and!; [done|by eapply ext_after|done].
  - destruct HT as (cs & pgs' & E & _ & _ & -> & HF). rewrite E in Hnd. injection Hnd as <-.
    apply live_cons in L1 as (_ & L1 & _). cbn [app length] in Hf. rewrite length_app in Hf.
    assert (forest (tree (rd s1) n) l cs h es1 pgs') as HF1.
    { eapply forest_ext; [exact X1| |exact HF]. intros q Hq. by eapply in_use_elem; [apply L1|]. }
    apply (meeting_stack _ lo hi) in HF1 as (e3 & q3 & H3 & E3 & S3).
    eapply wp_mono; [apply (IH (meeting lo hi l cs h ++ st') (e3 ++ es2) (q3 ++ pg2) s1); [done| | |by apply H3]|..].
    + apply Hlive. pose proof Hl as Hl'. cbn [app] in Hl'. apply live_cons in Hl' as (_ & Hl' & _).
      eapply live_sublist; [|exact Hl']. by apply sublist_app.
    + rewrite length_app. pose proof (sublist_length _ _ S3). lia.
    + intros out s2 (-> & X2 & W2). rewrite in_keys_app, not_dropped_app, E3. split_and!; [done|by eapply ext_after|done].
    + exact Hfail.
Qed.

(** ** What a reader gets *)

(** The walk from the root. *)
Lemma root_stack s r es pgs : holds crc32c s r es pgs -> (r =? EMPTY) = false -> stack_of (rd s) [(r, None, None)] es pgs.
Proof.
  intros [(-> & _)|(_ & n & _ & HT)] E; [by rewrite Z.eqb_refl in E|]. rewrite <- (app_nil_r es), <- (app_nil_r pgs).
  econstructor; [exact HT|constructor].
Qed.
Lemma holds_empty s r es pgs : holds crc32c s r es pgs -> (r =? EMPTY) = true -> es = [] /\ pgs = [].
Proof. intros [(_ & H)|(H & _)] E; [done|]. apply Z.eqb_eq in E. done. Qed.

(** [scan]: every entry of the map the store shows, in key order. *)
Lemma scan_spec s es pgs m :
  wf s -> live s pgs -> holds crc32c s (root s) es pgs -> sorted es -> shows (list_to_map es) (overlay s) m ->
  wp (scan crc32c) s (fun out s' => out = entries m /\ ext s s' [] [] /\ wf s') (failed s).
Proof.
  intros W Hl Hh Hs Hm. unfold scan. apply wp_bind, wp_gets, wp_bind, wp_gets, wp_bind, wp_gets.
  eapply (wp_step _ _ _ (fun out s' => out = not_dropped (overlay s) es /\ ext s s' [] [] /\ wf s')); [| |intros e s' H; exact H].
  { destruct (root s =? EMPTY) eqn:E.
    - destruct (holds_empty _ _ _ _ Hh E) as [-> ->]. apply wp_ret. split_and!; [done|apply ext_refl|done].
    - eapply (tree_scan_loop_spec _ _ [(root s, None, None)]); [done|exact Hl|by apply length_pages|by apply root_stack]. }
  intros out s' (-> & X & W'). apply wp_ret. split_and!; [|done|done]. set (ov := overlay s) in *.
  assert (sorted (not_dropped ov es)) as Hnd by (by apply sorted_filter).
  case_bool_decide as Hp.
  - apply lk_ext; [done|apply sorted_entries|]. intros k. rewrite lk_entries, Hm, lk_not_dropped by done.
    unfold eff. rewrite Hp, lookup_empty. done.
  - f_equal. apply map_eq. intros k. rewrite apply_puts_lookup by apply entries_NoDup. rewrite list_to_map_entries.
    unfold map_of_list. rewrite map_of_list_lookup by (by apply increasing_NoDup). rewrite lookup_empty, Hm, lk_not_dropped by done.
    unfold eff. change (list_to_map es !! k) with (lk es k). destruct (puts ov !! k); [done|]. case_decide; [done|]. by destruct (lk es k).
Qed.

(** [scan_range]: those with keys in the range. *)
Lemma scan_range_spec lo hi s es pgs m :
  wf s -> live s pgs -> holds crc32c s (root s) es pgs -> sorted es -> shows (list_to_map es) (overlay s) m ->
  wp (scan_range crc32c lo hi) s (fun out s' => out = in_keys lo hi (entries m) /\ ext s s' [] [] /\ wf s') (failed s).
Proof.
  intros W Hl Hh Hs Hm. unfold scan_range. apply wp_bind, wp_gets, wp_bind, wp_gets, wp_bind, wp_gets.
  eapply (wp_step _ _ _ (fun out s' => out = not_dropped (overlay s) (in_keys lo hi es) /\ ext s s' [] [] /\ wf s')); [| |intros e s' H; exact H].
  { destruct (root s =? EMPTY) eqn:E.
    - destruct (holds_empty _ _ _ _ Hh E) as [-> ->]. apply wp_ret. split_and!; [done|apply ext_refl|done].
    - eapply (range_loop_spec _ _ _ _ [(root s, None, None)]); [done|exact Hl|by apply length_pages|by apply root_stack]. }
  intros out s' (-> & X & W'). apply wp_ret. split_and!; [|done|done]. set (ov := overlay s) in *.
  assert (sorted (in_keys lo hi es)) as Hik by (by apply sorted_filter).
  assert (sorted (not_dropped ov (in_keys lo hi es))) as Hnd by (by apply sorted_filter). rewrite merge_sort_sorted by done.
  set (ps := filter (fun e => lo <= fst e <= hi) (entries (puts ov))).
  assert (forall k, (list_to_map ps : gmap Z (option bytes)) !! k = if decide (lo <= k <= hi) then puts ov !! k else None) as Hps.
  { intros k. apply option_eq. intros x. rewrite <- elem_of_list_to_map by (apply NoDup_filter_fst, entries_NoDup).
    unfold ps. rewrite list_elem_of_filter, elem_of_entries. cbn [fst]. case_decide; naive_solver. }
  assert (forall k, lk (in_keys lo hi (entries m)) k = if decide (lo <= k <= hi) then eff ov k (lk es k) else None) as Hgoal.
  { intros k. unfold in_keys. rewrite lk_filter by (apply increasing_NoDup, sorted_entries). rewrite lk_entries, Hm. cbn [fst].
    change (list_to_map es !! k) with (lk es k). by destruct (eff ov k _), (decide (lo <= k <= hi)). }
  assert (forall k, lk (not_dropped ov (in_keys lo hi es)) k =
    if decide (key_vol k ∈ dropped ov) then None else if decide (lo <= k <= hi) then lk es k else None) as Hout.
  { intros k. rewrite lk_not_dropped by done. case_decide; [done|]. unfold in_keys. rewrite lk_filter by (by apply increasing_NoDup). cbn [fst].
    by destruct (lk es k), (decide (lo <= k <= hi)). }
  assert (sorted (in_keys lo hi (entries m))) as Hgs by apply sorted_filter, sorted_entries.
  destruct ps as [|e ps'] eqn:Ep.
  - apply lk_ext; [done|done|]. intros k. rewrite Hout, Hgoal. specialize (Hps k). cbn in Hps. rewrite lookup_empty in Hps. unfold eff.
    destruct (decide (lo <= k <= hi)); [rewrite <- Hps; done|by case_decide].
  - rewrite <- Ep in *. apply lk_ext; [apply sorted_entries|done|]. intros k. rewrite lk_entries, Hgoal, apply_puts_lookup by (unfold ps; apply NoDup_filter_fst, entries_NoDup).
    rewrite Hps. unfold map_of_list. rewrite map_of_list_lookup by (by apply increasing_NoDup). rewrite lookup_empty, Hout. unfold eff.
    destruct (decide (lo <= k <= hi)); [|by case_decide]. destruct (puts ov !! k); [done|]. case_decide; [done|]. by destruct (lk es k).
Qed.
End Scan.

#[local] Open Scope meta_scope.

(** Between marks: nothing but which pages are in use changes. *)
Record marked (s s' : MetaV2) (P : list Z) : Prop := {
  mk_fixed : fixed s' = fixed s;
  mk_durable : durable (dev s') = durable (dev s);
  mk_cached : cached (dev s') = cached (dev s);
  mk_fresh : fresh s' = fresh s;
  mk_retired : retired s' = retired s;
  mk_used q : 0 <= q -> is_used s' q = (is_used s q || bool_decide (q ∈ P)) }.

Lemma marked_trans s s1 s2 P Q : marked s s1 P -> marked s1 s2 Q -> marked s s2 (P ++ Q).
Proof.
  intros [] []. split; try congruence. intros q Hq. rewrite mk_used1, mk_used0 by done. rewrite <- orb_assoc. f_equal.
  rewrite (bool_decide_ext (q ∈ P ++ Q) (q ∈ P \/ q ∈ Q)) by apply elem_of_app. symmetry. apply bool_decide_or.
Qed.
Lemma marked_perm s s' P Q : P ≡ₚ Q -> marked s s' P -> marked s s' Q.
Proof. intros HP []. split; try done. intros q Hq. rewrite mk_used0 by done. f_equal. apply bool_decide_ext. by rewrite HP. Qed.
Lemma marked_none s s' : fixed s' = fixed s -> durable (dev s') = durable (dev s) -> cached (dev s') = cached (dev s) ->
  fresh s' = fresh s -> retired s' = retired s -> used s' = used s -> marked s s' [].
Proof.
  intros ? ? ? ? ? Hu. split; try done. intros q _. rewrite bool_decide_eq_false_2 by set_solver. rewrite orb_false_r. unfold is_used. by rewrite Hu.
Qed.

Section Mark.
Context (crc32c : bytes -> Z).
Abbreviation rd := (page_node crc32c).

Lemma marked_rd s s' P q : marked s s' P -> rd s' q = rd s q.
Proof.
  intros []. unfold page_node, page_block. assert (layout s' = layout s) as -> by (unfold fixed in mk_fixed0; congruence).
  by rewrite (view_eq (dev s') (dev s)).
Qed.

(** While marking: [r] is the root, read before it was marked. *)
Record marking (r : Z) (s : MetaV2) : Prop := {
  k_layout : layout_ok (layout s);
  k_used : Forall (fun x => 0 <= x < 2 ^ 64) (used s);
  k_len : page_count (layout s) <= 64 * zlen (used s);
  k_hint : 0 <= hint s;
  k_retired : retired s = [];
  k_cache p n : internal s !! p = Some n ->
    is_internal n = true /\ 0 <= p < page_count (layout s) /\ (is_used s p = true \/ p = r) /\ rd s p = Some n }.

Lemma marking_wf r s : marking r s -> is_used s r = true -> wf crc32c s.
Proof.
  intros [] Hr. split; try done; [by rewrite k_retired0; apply Forall_nil|].
  intros p n Hp. destruct (k_cache0 p n Hp) as (? & ? & Hu & ?). split_and!; try done; [lia..|by destruct Hu as [| ->]|rewrite k_retired0; set_solver].
Qed.

(** The error of a device that fails is the only one. *)
Definition only_io (e : MetaErr) (s : MetaV2) : Prop := e = Io.

Lemma mark_spec r p s : marking r s -> 0 <= p < page_count (layout s) -> is_used s p = false ->
  wp (mark p) s (fun _ s' => marked s s' [p] /\ marking r s') only_io.
Proof.
  intros K Hp Hu. unfold wp, mark, past. rewrite Hu. destruct (Z.leb_spec (page_count (layout s)) p); [lia|]. cbn [orb].
  pose proof (k_len _ _ K). assert (forall q, 0 <= q -> is_used (set_used p true s) q = if p =? q then true else is_used s q) as HU.
  { intros q Hq. apply is_used_set_used; lia. }
  split.
  - split; try done. intros q Hq. rewrite HU by done. destruct (Z.eqb_spec p q) as [->|].
    + rewrite bool_decide_eq_true_2 by set_solver. by rewrite orb_true_r.
    + rewrite bool_decide_eq_false_2 by set_solver. by rewrite orb_false_r.
  - split; try apply K.
    + apply (used_ok_set_used p true); [lia|apply K].
    + cbn. unfold zlen. rewrite length_alter. apply K.
    + intros q n Hq. destruct (k_cache _ _ K q n Hq) as (? & ? & Hq2 & ?). split_and!; try done; [cbn; lia..|].
      rewrite HU by lia. destruct (_ =? _); [by left|done].
Qed.

Lemma marked_layout s s' P : marked s s' P -> layout s' = layout s.
Proof. intros []. unfold fixed in mk_fixed0. congruence. Qed.
Lemma marked_unused s s' P q : marked s s' P -> 0 <= q -> is_used s q = false -> q ∉ P -> is_used s' q = false.
Proof. intros H Hq Hu HP. by rewrite (mk_used _ _ _ H), Hu, bool_decide_eq_false_2. Qed.

(** Pages yet to be marked. *)
Definition unmarked (s : MetaV2) (pgs : list Z) : Prop :=
  NoDup pgs /\ Forall (fun p => 0 <= p < page_count (layout s) /\ is_used s p = false) pgs.
Lemma unmarked_app s a b : unmarked s (a ++ b) <-> unmarked s a /\ unmarked s b /\ forall x, x ∈ a -> x ∉ b.
Proof. clear crc32c. unfold unmarked. rewrite NoDup_app, Forall_app. tauto. Qed.
Lemma unmarked_after s s' P b : marked s s' P -> unmarked s b -> (forall x, x ∈ P -> x ∉ b) -> unmarked s' b.
Proof.
  clear crc32c. intros H [Hn Hb] Hd. split; [done|]. apply Forall_forall. intros x Hx. rewrite Forall_forall in Hb. destruct (Hb x Hx) as [Hr Hu].
  rewrite (marked_layout _ _ _ H). split; [done|]. eapply marked_unused; [exact H|lia|done|]. intros HP. by apply (Hd x).
Qed.

Lemma each_mark_spec r ps : forall s, marking r s -> unmarked s (map snd ps) ->
  wp (each (fun c : option Key * Z => mark (snd c)) ps) s (fun _ s' => marked s s' (map snd ps) /\ marking r s') only_io.
Proof.
  induction ps as [|[sp p] ps IH]; intros s K Hu; [split; [by apply marked_none|done]|].
  cbn [map snd] in *. destruct Hu as [Hn Hb]. apply NoDup_cons in Hn as [Hp Hn]. apply Forall_cons in Hb as [[Hr Hu] Hb].
  cbn [each]. eapply wp_step; [by apply mark_spec| |done]. intros _ s1 [X1 K1].
  eapply wp_mono; [apply (IH s1 K1)| |done].
  - eapply unmarked_after; [exact X1|by split|]. by intros x ->%list_elem_of_singleton.
  - intros _ s2 [X2 K2]. split; [exact (marked_trans _ _ _ _ _ X1 X2)|done].
Qed.

Lemma read_node_spec r p nd s : marking r s -> 0 <= p < page_count (layout s) -> (is_used s p = true \/ p = r) -> rd s p = Some nd ->
  wp (node crc32c p) s (fun nd' s' => nd' = nd /\ marked s s' [] /\ marking r s') only_io.
Proof.
  intros K Hp Hu Hn. pose proof Hn as Hn0. unfold wp, node. destruct (internal s !! p) as [n'|] eqn:Ec.
  { destruct (k_cache _ _ K p n' Ec) as (_ & _ & _ & Hn'). split_and!; [congruence|by apply marked_none|done]. }
  unfold bind, read_page. destruct (Z.leb_spec (page_count (layout s)) p); [lia|].
  unfold dev_read. cbn [bind]. unfold bind. destruct (dev_op_faults (fun d => (read_blocks (view d) (page_at s p) PAGE, d)) s) as (d & Hd & Hc & [->|[->| ->]]); [done|done|].
  assert (read_blocks (view d) (page_at s p) PAGE = block (view (dev s)) (page_block s p)) as ->.
  { rewrite (view_eq d (dev s)) by done. destruct (page_off_blocks _ (k_layout _ _ K)) as [E _].
    unfold page_at, page_block. rewrite <- read_block. f_equal. lia. }
  unfold page_node in Hn. destruct (decode _ _ _) as [n'|e]; [|done]. injection Hn as ->. cbn [lift modify ret].
  split; [done|]. set (s' := (if is_internal nd then cache_put p nd else id) (set_dev d s)).
  assert (marked s s' []) as X by (subst s'; destruct (is_internal nd); by apply marked_none). split; [exact X|].
  assert (used s' = used s /\ layout s' = layout s /\ retired s' = retired s /\ hint s' = hint s) as (E1 & E2 & E3 & E4) by (subst s'; by destruct (is_internal nd)).
  split; rewrite ?E1, ?E2, ?E3, ?E4; try apply K.
  intros q m Hq. assert (is_used s' q = is_used s q) as -> by (unfold is_used; by rewrite E1). rewrite (marked_rd _ _ _ q X).
  destruct (is_internal nd) eqn:Ei; [|by apply (k_cache _ _ K)]. subst s'. cbn [cache_put internal set_pages] in Hq.
  destruct (decide (p = q)) as [<-|]; [|rewrite lookup_insert_ne in Hq by done; by apply (k_cache _ _ K)].
  rewrite lookup_insert_eq in Hq. injection Hq as <-. split_and!; try done; lia.
Qed.

(** ** The walk *)

(** Internal nodes waiting, and all the pages under them. *)
Inductive waiting (f : Z -> option Node) : list Z -> list Z -> Prop :=
| WNil : waiting f [] []
| WCons n lo hi p es pgs st pgs' : tree f (S n) lo hi p es pgs -> waiting f st pgs' -> waiting f (p :: st) (pgs ++ pgs').
Lemma waiting_app f a b p q : waiting f a p -> waiting f b q -> waiting f (a ++ b) (p ++ q).
Proof. induction 1; intros Hq; [done|]. cbn [app]. rewrite <- app_assoc. econstructor; [done|]. auto. Qed.
Lemma forest_waiting f n lo cs hi es pgs : forest (tree f (S n)) lo cs hi es pgs -> exists q, waiting f (rev (map snd cs)) q /\ q ≡ₚ pgs.
Proof.
  revert lo es pgs. induction cs as [|[s c] rest IH]; intros lo es pgs; cbn [forest].
  - intros [_ ->]. exists []. split; [constructor|done].
  - intros (e1 & e2 & q1 & q2 & -> & -> & HT & HF & _). apply IH in HF as (q & Hq & Pq). cbn [map snd rev].
    exists (q ++ (q1 ++ [])). split; [|by rewrite app_nil_r, Pq, Permutation_app_comm].
    apply waiting_app; [done|]. econstructor; [exact HT|constructor].
Qed.
Lemma waiting_rd f f' st pgs : (forall q, f' q = f q) -> waiting f st pgs -> waiting f' st pgs.
Proof. intros Hf. induction 1; econstructor; [|done]. eapply tree_rd; [|done]. auto. Qed.
Lemma unmarked_perm s p q : p ≡ₚ q -> unmarked s p -> unmarked s q.
Proof. intros HP [H1 H2]. split; by rewrite <- HP. Qed.

Lemma mark_loop_spec r : forall fuel st pgs s, marking r s -> unmarked s pgs -> (length pgs <= fuel)%nat -> waiting (rd s) st pgs ->
  wp (mark_loop crc32c fuel st) s (fun _ s' => marked s s' pgs /\ marking r s') only_io.
Proof.
  induction fuel as [|fuel IH]; intros st pgs s K Hu Hf Hw; inversion Hw as [|n lo hi p es pg1 st' pg2 HT Hw']; subst.
  1,3: split; [by apply marked_none|done].
  { destruct (tree_root _ _ _ _ _ _ _ HT) as (q & ->). cbn in Hf. lia. }
  destruct HT as (cs & pgs' & E & _ & _ & -> & HF). cbn [app length] in Hf. rewrite length_app in Hf.
  pose proof (proj1 (unmarked_app s [p] (pgs' ++ pg2)) Hu) as (Hp & Hu2 & Hd1). destruct Hp as [_ Hp]. apply Forall_singleton in Hp as [Hr Hup].
  cbn [mark_loop]. eapply wp_step; [by apply mark_spec| |done]. intros _ s1 [X1 K1].
  pose proof (unmarked_after _ _ _ _ X1 Hu2 Hd1) as Hu3.
  eapply wp_step; [apply (read_node_spec r p (Internal (Z.of_nat (S n)) cs) s1 K1)| |done].
  { by rewrite (marked_layout _ _ _ X1). }
  { left. rewrite (mk_used _ _ _ X1), bool_decide_eq_true_2 by (lia || by left). apply orb_true_r. }
  { by rewrite (marked_rd _ _ _ _ X1). }
  intros nd s2 (-> & X2 & K2). pose proof (marked_trans _ _ _ _ _ X1 X2) as X12. cbn [app] in X12.
  assert (forall q, rd s2 q = rd s q) as Hrd by (intros q; by apply (marked_rd _ _ _ q X12)).
  pose proof (unmarked_after _ _ _ _ X2 Hu3 ltac:(intros x Hx; by apply not_elem_of_nil in Hx)) as Hu4.
  destruct (Z.eqb_spec (Z.of_nat (S n)) 1) as [H1|H1].
  - assert (n = O) as -> by lia. rewrite (forest_leaf_pages _ _ _ _ _ _ HF) in *.
    apply unmarked_app in Hu4 as (Ha & Hb & Hab). eapply wp_step; [by apply each_mark_spec| |done]. intros _ s3 [X3 K3].
    eapply wp_mono; [apply (IH st' pg2 s3 K3)| |done].
    + by eapply unmarked_after.
    + lia.
    + eapply waiting_rd; [|exact Hw']. intros q. by rewrite (marked_rd _ _ _ q X3).
    + intros _ s4 [X4 K4]. split; [|done]. pose proof (marked_trans _ _ _ _ _ X12 (marked_trans _ _ _ _ _ X3 X4)) as X. exact X.
  - destruct n as [|n]; [lia|]. apply forest_waiting in HF as (q & Hq & Pq).
    eapply wp_mono; [apply (IH (rev (map snd cs) ++ st') (q ++ pg2) s2 K2)| |done].
    + eapply unmarked_perm; [|exact Hu4]. by rewrite Pq.
    + rewrite length_app, (Permutation_length Pq). lia.
    + eapply waiting_rd; [exact Hrd|]. by apply waiting_app.
    + intros _ s4 [X4 K4]. split; [|done]. eapply marked_perm; [|exact (marked_trans _ _ _ _ _ X12 X4)]. cbn [app]. by rewrite Pq.
Qed.

(** Opened over a tree, the store has exactly its pages in use. *)
Lemma mark_reachable_spec s es pgs n :
  marking (root s) s -> unmarked s pgs -> tree (rd s) n None None (root s) es pgs ->
  wp (mark_reachable crc32c) s (fun _ s' => marked s s' pgs /\ wf crc32c s') only_io.
Proof.
  intros K Hu HT. unfold mark_reachable. apply wp_bind, wp_gets. destruct (tree_root _ _ _ _ _ _ _ HT) as (q & Eq).
  assert (0 <= root s < page_count (layout s) /\ is_used s (root s) = false) as [Hr Hur].
  { destruct Hu as [_ Hu]. rewrite Eq in Hu. by apply Forall_cons in Hu as [? _]. }
  assert (exists nd, rd s (root s) = Some nd) as (nd & Hnd).
  { destruct n; cbn in HT; [destruct HT as (H & _)|destruct HT as (? & ? & H & _)]; eauto. }
  eapply wp_step; [apply (read_node_spec (root s) (root s) nd s K Hr); [by right|done]| |done].
  intros nd' s1 (-> & X1 & K1). assert (root s1 = root s) as Er by (pose proof (mk_fixed _ _ _ X1) as E; unfold fixed in E; congruence).
  assert (is_used s1 (root s) = false) as Hur1 by (eapply marked_unused; [exact X1|lia|done|set_solver]).
  assert (forall s2, marked s s2 pgs -> marking (root s) s2 -> wf crc32c s2) as Hwf.
  { intros s2 X K2. apply (marking_wf (root s)); [done|]. rewrite (mk_used _ _ _ X), bool_decide_eq_true_2 by (lia || (rewrite Eq; by left)). apply orb_true_r. }
  destruct n as [|n].
  - destruct HT as (E & _ & ->). rewrite E in Hnd. injection Hnd as <-.
    pose proof (mark_spec (root s) (root s) s1 K1 ltac:(by rewrite (marked_layout _ _ _ X1)) Hur1) as H. unfold wp, mark, past in H.
    rewrite Hur1 in H. destruct (Z.leb_spec (page_count (layout s1)) (root s)); [rewrite (marked_layout _ _ _ X1) in *; lia|]. cbn [orb] in H.
    destruct H as [X2 K2]. apply wp_modify. pose proof (marked_trans _ _ _ _ _ X1 X2) as X. split; [exact X|by apply Hwf].
  - destruct HT as (cs & pgs' & E & Hc1 & Hc2 & -> & HF). rewrite E in Hnd. injection Hnd as <-. apply wp_bind, wp_gets.
    eapply wp_mono; [apply (mark_loop_spec (root s) _ [root s] ((root s :: pgs') ++ []) s1 K1)| |done].
    + rewrite app_nil_r. eapply unmarked_after; [exact X1|done|]. intros x Hx. by apply not_elem_of_nil in Hx.
    + rewrite app_nil_r. destruct Hu as [Hn Hb].
      assert (Forall (fun p => 0 <= p < page_count (layout s)) (root s :: pgs')) as Hb' by (eapply Forall_impl; [exact Hb|]; cbn; tauto).
      pose proof (NoDup_bound _ _ Hn Hb') as H. rewrite (marked_layout _ _ _ X1). unfold zlen in H. lia.
    + econstructor; [|constructor]. eapply tree_rd; [intros x _; by apply (marked_rd _ _ _ x X1)|]. exists cs, pgs'. by split_and!.
    + intros _ s2 [X2 K2]. rewrite app_nil_r in X2. pose proof (marked_trans _ _ _ _ _ X1 X2) as X. split; [exact X|by apply Hwf].
Qed.
End Mark.
