(* ===== verification/MetaLog.v ===== *)
(** The metadata store's log and superblocks: [volume/metav2.rs], appending changes,
    folding them into the tree, opening and formatting a region. *)

From S2P Require Import Prelude ExtMap MetaPage MetaTree.
#[local] Open Scope meta_scope.

(** A read whose failure the code takes for an answer. *)
Definition try_read (off n : Z) : M (option bytes) := fun s =>
  match dev_read off n s with (Ok b, s') => (Ok (Some b), s') | (Err _, s') => (Ok None, s') end.
(** Ghost: a failure in here leaves it open whether the write took effect. *)
Definition risky {A} (m : M A) : M A := fun s =>
  match m s with (Err e, s') => (Err e, set_unsure s') | r => r end.

Definition rec_size (payload : Z) : Z := div_ceil (LOG_HEADER + payload) PAGE * PAGE.

(** [undo_fresh]. *)
Definition undo_fresh : M () := modify (fun s =>
  let s' := foldl (fun s p => uncache p (set_used p false s)) s (fresh s) in
  set_pages (used s') [] [] (internal s') (hint s') s').
(** The pages the new superblock does not name are free. *)
Definition free_retired : M () := modify (fun s =>
  let s' := foldl (fun s p => set_used p false s) s (retired s) in
  set_pages (used s') [] [] (internal s') (hint s') s').

Section Log.
Context (crc32c : bytes -> Z) (enc_ops : list Op -> bytes) (dec_ops : bytes -> option (list Op)).

(** ** Records *)

Definition rec_fields (nonce seq kind : Z) (payload : bytes) : list (Z * bytes) :=
  [(0, LOG_MAGIC); (8, le_bytes 8 nonce); (16, le_bytes 8 seq); (24, le_bytes 4 (zlen payload)); (28, [kind]); (LOG_HEADER, payload)].
Definition record (nonce seq kind : Z) (payload : bytes) : bytes :=
  let b := write_all (zeros (rec_size (zlen payload))) (rec_fields nonce seq kind payload) in
  splice b 32 (le_bytes 4 (crc32c (slice 0 32 b ++ payload))).

(** Whether a page starts a record of this store with this sequence number. *)
Definition starts (nonce seq : Z) (b : bytes) : bool :=
  bool_decide (slice 0 8 b = LOG_MAGIC) && (rd_u64 b 8 =? nonce) && (rd_u64 b 16 =? seq).
Definition checks (b r : bytes) : bool := crc32c (slice 0 32 r ++ slice LOG_HEADER (rd_u32 b 24) r) =? rd_u32 r 32.

(** Where the walk of the log ends: the position, the sequence number, the bytes used. *)
Fixpoint replay_loop (fuel : nat) (pos seq used_ : Z) : M (Z * Z * Z) :=
  match fuel with
  | O => fail OutOfFuel
  | S fuel => fun s =>
      let ll := log_len (layout s) in
      let at_ := log_off (layout s) in
      let '(pos, used_) := if ll <=? pos then (0, used_ + (ll - pos)) else (pos, used_) in
      let stop := ret (pos, seq, used_) in
      (if ll <=? used_ then stop
       else
         do ob := try_read (at_ + pos) PAGE in
         match ob with
         | None => stop
         | Some b =>
             if negb (starts (nonce s) seq b) then stop
             else
               let size := rec_size (rd_u32 b 24) in
               if ll <? pos + size then stop
               else
                 do orec := (if PAGE <? size then try_read (at_ + pos) size else ret (Some b)) in
                 match orec with
                 | None => stop
                 | Some r =>
                     if negb (checks b r) then stop
                     else if at_byte r 28 =? 1 then replay_loop fuel 0 (seq + 1) (used_ + (ll - pos))
                     else
                       match dec_ops (slice LOG_HEADER (rd_u32 b 24) r) with
                       | None => fail (BadRecord seq)
                       | Some ops =>
                           modify (fun s => set_overlay (overlay_all (overlay s) ops) s) ;;
                           replay_loop fuel (pos + size) (seq + 1) (used_ + size)
                       end
                 end
         end) s
  end.
Definition replay_fuel (l : Layout) : nat := Z.to_nat (log_len l / PAGE) + 2.
Definition replay : M () :=
  do l := gets layout in do start := gets log_start in do seq := gets next_seq in
  do r := replay_loop (replay_fuel l) start seq 0 in
  modify (fun s => set_log (log_start s) (fst (fst r)) (snd (fst r)) (snd r) s).

(** ** Checkpoints *)

(** The superblock naming the new tree, and what it makes true; or everything as it was.
    [saved] is the overlay the checkpoint took. *)
Definition next_sb (s : MetaV2) (r : Z) : Superblock := mkSb (gen s + 1) r (log_tail s) (next_seq s) (layout s) (nonce s).
Definition undo (saved : Overlay) (e : MetaErr) : M () := undo_fresh ;; modify (set_overlay saved) ;; fail e.
Definition write_sb (r : Z) : M () :=
  do sb := gets (fun s => next_sb s r) in
  dev_flush ;;
  risky (dev_write (sb_gen sb mod 2 * PAGE) (sb_to_bytes crc32c sb) ;; dev_flush).
Definition commit (saved : Overlay) (r : Z) : M () := fun s =>
  match write_sb r s with
  | (Ok _, s) => (modify (fun s => set_log (log_tail s) (log_tail s) (next_seq s) 0 (set_root (gen s + 1) r s)) ;; free_retired) s
  | (Err e, s) => undo saved e s
  end.
(** A panic unwinds past the cleanup. *)
Definition or_undo {A} (saved : Overlay) (m : M A) (k : A -> M ()) : M () := fun s =>
  match m s with
  | (Ok a, s) => k a s
  | (Err Panic, s) => (Err Panic, s)
  | (Err e, s) => undo saved e s
  end.
Definition checkpoint : M () := fun s =>
  if overlay_is_empty (overlay s) && (log_used s =? 0) then (Ok (), s)
  else
    let ov := overlay s in
    or_undo ov (write_tree crc32c ov) (commit ov) (set_overlay overlay0 s).

(** ** Appending *)

(** Whether a record of [size] bytes goes behind the tail with a page to spare. *)
Definition fits (s : MetaV2) (size : Z) : bool :=
  let wasted := if log_len (layout s) <? log_tail s + size then log_len (layout s) - log_tail s else 0 in
  log_used s + wasted + size + PAGE <=? log_len (layout s).
Definition too_big (op : Op) : option Z := match op with Put k v => if MAX_VALUE <? zlen v then Some k else None | _ => None end.
(** The records written for one append — at the end of the ring a record that says to
    go on at its start, if there is a page for it — and the tail, the bytes used and the
    sequence number of the last. *)
Definition plan (s : MetaV2) (size : Z) : list (Z * Z) * Z * Z * Z :=
  let ll := log_len (layout s) in
  if ll <? log_tail s + size then
    (if log_tail s + PAGE <=? ll then ([(log_tail s, next_seq s)], 0, log_used s + (ll - log_tail s), next_seq s + 1)
     else ([], 0, log_used s + (ll - log_tail s), next_seq s))
  else ([], log_tail s, log_used s, next_seq s).
Definition write_record (payload : bytes) (size : Z) : M () := fun s =>
  let '(wraps, tail, used_, seq) := plan s size in
  let writes := map (fun w => (fst w, record (nonce s) (snd w) 1 [])) wraps ++ [(tail, record (nonce s) seq 0 payload)] in
  let off := log_off (layout s) in
  (risky (each (fun w => dev_write (off + fst w) (snd w)) writes ;; dev_flush) ;;
   modify (fun s => set_log (log_start s) (tail + size) (seq + 1) (used_ + size) s)) s.
Definition append (ops : list Op) : M () := fun s =>
  match ops with
  | [] => (Ok (), s)
  | _ =>
      match head (omap too_big ops) with
      | Some k => (Err (ValueTooBig k), s)
      | None =>
          let payload := enc_ops ops in
          let size := rec_size (zlen payload) in
          let apply := modify (fun s => set_overlay (overlay_all (overlay s) ops) s) in
          (if log_len (layout s) / 4 <? size then apply ;; checkpoint
           else
             (if fits s size then ret () else checkpoint) ;;
             write_record payload size ;;
             apply ;;
             do over := gets (fun s => (CHECKPOINT_ENTRIES <? Z.of_nat (base.size (puts (overlay s))))
                                      || (log_len (layout s) / 2 <? log_used s)) in
             if over : bool then checkpoint else ret ()) s
      end
  end.

(** [replace_all]. *)
Definition old_pages : M (list Z) :=
  do r := gets root in
  if r =? EMPTY then ret []
  else
    do n := node crc32c r in
    match n with Leaf _ => ret [r] | Internal _ _ => subtree_pages crc32c DEPTH r end.
Definition replace_all (es : list (Key * bytes)) : M () :=
  do old := old_pages in
  do saved := gets overlay in
  modify (set_overlay overlay0) ;;
  or_undo saved (do leaves := pack_leaves crc32c es in build_up crc32c leaves 1) (fun r =>
    each retire old ;; commit saved r).

(** ** Formatting and opening *)

Definition new_store (d : Dev) (l : Layout) (sb : Superblock) : MetaV2 :=
  mkMeta d l (sb_nonce sb) (sb_gen sb) (sb_root sb) (replicate (Z.to_nat (div_ceil (page_count l) 64)) 0) [] []
    (sb_log_start sb) (sb_log_start sb) (sb_log_seq sb) 0 overlay0 ∅ 0 (page_count l) false.
(** [random] is what the generator gives. *)
Definition format (d : Dev) (size random : Z) : result MetaErr () * MetaV2 :=
  match for_size size with
  | Err e => (Err e, new_store d (mkLayout 0 0 0 0) (mkSb 0 EMPTY 0 0 (mkLayout 0 0 0 0) 0))
  | Ok l =>
      let sb := mkSb 1 EMPTY 0 1 l (Z.lor random 1) in
      (dev_write PAGE (zeros PAGE) ;; dev_write (log_off l) (zeros PAGE) ;; dev_write 0 (sb_to_bytes crc32c sb) ;; dev_flush)
        (new_store d l sb)
  end.
Definition set_limit (n : Z) (s : MetaV2) : MetaV2 :=
  mkMeta (dev s) (layout s) (nonce s) (gen s) (root s) (used s) (fresh s) (retired s) (log_start s) (log_tail s) (next_seq s)
    (log_used s) (overlay s) (internal s) (hint s) n (unsure s).
Definition format_within (d : Dev) (size within_ random : Z) : result MetaErr () * MetaV2 :=
  match format d size random with
  | (Err e, s) => (Err e, s)
  | (Ok _, s) =>
      if within_ <? page_off (layout s) + PAGE then (Err NoRoom, s)
      else (Ok (), set_limit (Z.min ((within_ - page_off (layout s)) / PAGE) (page_count (layout s))) s)
  end.

(** The newer superblock that checks: one copy looked at. *)
Definition pick (l : Layout) (i : Z) (best : option Superblock) : M (option Superblock) :=
  do ob := try_read (i * PAGE) PAGE in
  match ob with
  | None => ret best
  | Some b =>
      match sb_from_bytes crc32c b with
      | None => ret best
      | Some sb =>
          if negb (bool_decide (sb_layout sb = l)) then fail OtherRegion
          else ret (match best with Some x => if sb_gen x <? sb_gen sb then Some sb else best | None => Some sb end)
      end
  end.
(** [None]: neither superblock checks. *)
Definition open (d : Dev) (size : Z) : result MetaErr (option MetaV2) :=
  match for_size size with
  | Err e => Err e
  | Ok l =>
      match (do b := pick l 0 None in pick l 1 b) (new_store d l (mkSb 0 EMPTY 0 0 l 0)) with
      | (Err e, _) => Err e
      | (Ok None, _) => Ok None
      | (Ok (Some sb), s) =>
          match ((if sb_root sb =? EMPTY then ret () else mark_reachable crc32c) ;; replay) (new_store (dev s) l sb) with
          | (Err e, _) => Err e
          | (Ok _, s) => Ok (Some s)
          end
      end
  end.
Definition is_formatted (d : Dev) : bool :=
  existsb (fun i => let b := read_blocks (view d) (i * PAGE) PAGE in
                    works (nth (Z.to_nat i) (faults d) Works) && (if sb_from_bytes crc32c b is Some _ then true else false)) [0; 1].
End Log.
