(* ===== verification/MetaRecord.v ===== *)
(** Records of the metadata store's log: what is read where one was written, and what a
    torn one can look like. *)

From S2P Require Import Prelude MetaPage MetaPageProofs MetaTree MetaTreePages MetaLog.

(** ** Blocks written at a position *)

(** The blocks from [off] on hold [data]. *)
Definition written (d : disk) (off : Z) (data : bytes) : Prop :=
  forall i, 0 <= i < zlen data / PAGE -> block d (off / PAGE + i) = slice (i * PAGE) PAGE data.

Lemma concat_slices (data : bytes) n k : 0 <= k -> 0 <= n -> k * PAGE + n * PAGE = zlen data ->
  concat (map (fun i => slice (i * PAGE) PAGE data) (zseq k (Z.to_nat n))) = drop (Z.to_nat (k * PAGE)) data.
Proof.
  intros Hk Hn. remember (Z.to_nat n) as m eqn:Em. revert n k Hk Hn Em. induction m as [|m IH]; intros n k Hk Hn Em Hd; cbn [zseq map concat].
  - rewrite drop_ge; [done|]. unfold zlen, PAGE in *. lia.
  - rewrite (IH (n - 1) (k + 1)) by lia. unfold slice.
    replace (Z.to_nat ((k + 1) * PAGE)) with (Z.to_nat (k * PAGE) + Z.to_nat PAGE)%nat by (unfold PAGE; lia).
    rewrite <- drop_drop. apply take_drop.
Qed.

Lemma read_written_blocks d off data : 0 <= off -> off mod PAGE = 0 -> zlen data mod PAGE = 0 -> written d off data -> read_blocks d off (zlen data) = data.
Proof.
  intros H0 Ho Hm Hw. unfold read_blocks. change PAGE with 4096 in *.
  pose proof (Z.div_mod off 4096 ltac:(lia)). pose proof (Z.div_mod (zlen data) 4096 ltac:(lia)). pose proof (zlen_nonneg data).
  assert ((off + zlen data) / 4096 = off / 4096 + zlen data / 4096) as ->.
  { replace (off + zlen data) with ((off / 4096 + zlen data / 4096) * 4096) by lia. by rewrite Z.div_mul. }
  unfold zrange. replace (off / 4096 + zlen data / 4096 - off / 4096) with (zlen data / 4096) by lia.
  pose proof (concat_slices data (zlen data / 4096) 0 ltac:(lia) ltac:(apply Z.div_pos; lia) ltac:(unfold PAGE; lia)) as HC.
  cbn [Z.mul Z.to_nat drop] in HC. rewrite drop_0 in HC. rewrite <- HC at 2. f_equal.
  assert (forall lo n, (forall i, 0 <= i < Z.of_nat n -> block d (off / 4096 + lo + i) = slice ((lo + i) * 4096) 4096 data) ->
    map (block d) (zseq (off / 4096 + lo) n) = map (fun i => slice (i * PAGE) PAGE data) (zseq lo n)) as Hmap.
  { intros lo n. revert lo. induction n as [|n IHn]; intros lo Hb; [done|]. cbn [zseq map]. f_equal.
    - specialize (Hb 0 ltac:(lia)). by rewrite !Z.add_0_r in Hb.
    - rewrite <- Z.add_assoc. apply IHn. intros i Hi. specialize (Hb (1 + i) ltac:(lia)).
      replace (off / 4096 + (lo + 1) + i) with (off / 4096 + lo + (1 + i)) by lia. replace (lo + 1 + i) with (lo + (1 + i)) by lia. done. }
  rewrite <- (Hmap 0); [by rewrite Z.add_0_r|]. intros i Hi. rewrite Z.add_0_r. cbn [Z.add]. apply Hw. change PAGE with 4096. lia.
Qed.

Lemma land_all_blocks (ws : list (Z * bytes)) d i b : NoDup (map fst ws) -> (i, b) ∈ ws -> block (land_all d ws) i = b.
Proof.
  revert d. induction ws as [|[j c] ws IH]; intros d Hn Hin; [by apply not_elem_of_nil in Hin|].
  cbn [map fst] in Hn. apply NoDup_cons in Hn as [Hj Hn]. apply elem_of_cons in Hin as [E|Hin]; [|cbn [land_all foldl]; by apply IH].
  injection E as -> ->. unfold block. cbn [land_all foldl]. change (foldl land ?x ws) with (land_all x ws).
  rewrite land_all_other; [unfold land; cbn [fst snd]; by rewrite lookup_insert_eq|].
  intros w Hw He. apply Hj. apply list_elem_of_fmap. by exists w.
Qed.

Lemma blocks_of_fst off data : map fst (blocks_of off data) = map (fun i => off / PAGE + i) (zrange 0 (zlen data / PAGE)).
Proof. unfold blocks_of. rewrite map_map. done. Qed.
Lemma NoDup_blocks_of off data : NoDup (map fst (blocks_of off data)).
Proof. rewrite blocks_of_fst. apply NoDup_fmap; [intros x y; lia|]. apply NoDup_zseq. Qed.
Lemma elem_of_blocks_of off data i b :
  (i, b) ∈ blocks_of off data <-> exists k, 0 <= k < zlen data / PAGE /\ i = off / PAGE + k /\ b = slice (k * PAGE) PAGE data.
Proof.
  unfold blocks_of. rewrite list_elem_of_fmap. setoid_rewrite elem_of_zrange. split.
  - intros (k & E & Hk). injection E as -> ->. by exists k.
  - intros (k & Hk & -> & ->). by exists k.
Qed.
Lemma land_written d off data : written (land_all d (blocks_of off data)) off data.
Proof. intros i Hi. apply land_all_blocks; [apply NoDup_blocks_of|]. apply elem_of_blocks_of. by exists i. Qed.
Lemma land_all_block_other d ws i : (i ∉ map fst ws) -> block (land_all d ws) i = block d i.
Proof. intros H. unfold block. rewrite land_all_other; [done|]. intros w Hw He. apply H, list_elem_of_fmap. by exists w. Qed.

Lemma read_blocks_ext d d' off n : (forall i, off / PAGE <= i < (off + n) / PAGE -> block d' i = block d i) -> read_blocks d' off n = read_blocks d off n.
Proof.
  intros H. unfold read_blocks. f_equal. apply map_ext_in. intros i Hi. apply list_elem_of_In, elem_of_zrange in Hi. by apply H.
Qed.

(** ** Records *)

Lemma rec_size_spec n : 0 <= n -> LOG_HEADER + n <= rec_size n < LOG_HEADER + n + PAGE /\ rec_size n mod PAGE = 0 /\ PAGE <= rec_size n.
Proof.
  intros Hn. unfold rec_size. pose proof (div_ceil_mul (LOG_HEADER + n) PAGE ltac:(done)) as H.
  rewrite Z.mod_mul by done. split; [|split; [done|]]; unfold LOG_HEADER, PAGE in *; [lia|].
  assert (1 <= div_ceil (40 + n) 4096); lia.
Qed.

Section Record.
Context (crc32c : bytes -> Z).

Definition rec_shape (n : Z) : list (Z * Z) := [(0, 8); (8, 8); (16, 8); (24, 4); (28, 1); (40, n)].
Lemma rec_fields_shape nonce seq kind p : shape (rec_fields nonce seq kind p) = rec_shape (zlen p).
Proof. unfold shape, rec_fields. cbn [map fst snd]. rewrite !zlen_le_bytes. reflexivity. Qed.

Lemma rec_in_bounds n : 0 <= n -> in_bounds (rec_size n) (rec_shape n) = true.
Proof.
  intros Hn. destruct (rec_size_spec n Hn) as (H & _ & Hp). unfold in_bounds, rec_shape, LOG_HEADER, PAGE in *. cbn.
  repeat (apply andb_true_iff; split); try apply Z.leb_le; lia.
Qed.

Lemma zlen_record nonce seq kind p : zlen (record crc32c nonce seq kind p) = rec_size (zlen p).
Proof.
  pose proof (zlen_nonneg p) as Hp. destruct (rec_size_spec (zlen p) Hp) as (H & _ & Hpg). unfold record.
  assert (zlen (write_all (zeros (rec_size (zlen p))) (rec_fields nonce seq kind p)) = rec_size (zlen p)) as Hl.
  { apply zlen_write_all; [apply zlen_zeros; unfold PAGE in *; lia|]. rewrite rec_fields_shape. by apply rec_in_bounds. }
  rewrite zlen_splice; [done|lia|]. rewrite zlen_le_bytes, Hl. unfold PAGE in *. lia.
Qed.

(** The fields of a record, read back. *)
Lemma record_fields nonce seq kind p r :
  r = record crc32c nonce seq kind p ->
  slice 0 8 r = LOG_MAGIC /\ slice 8 8 r = le_bytes 8 nonce /\ slice 16 8 r = le_bytes 8 seq /\ slice 24 4 r = le_bytes 4 (zlen p) /\
  slice 28 1 r = [kind] /\ slice LOG_HEADER (zlen p) r = p /\ slice 32 4 r = le_bytes 4 (crc32c (slice 0 32 r ++ p)).
Proof.
  intros ->. pose proof (zlen_nonneg p) as Hp. destruct (rec_size_spec (zlen p) Hp) as (Hs & _ & Hpg).
  unfold record. set (b := write_all _ _). set (c := le_bytes 4 _).
  assert (zlen b = rec_size (zlen p)) as Hl.
  { apply zlen_write_all; [apply zlen_zeros; unfold PAGE in *; lia|]. rewrite rec_fields_shape. by apply rec_in_bounds. }
  assert (zlen c = 4) as Hc by apply zlen_le_bytes. unfold LOG_HEADER, PAGE in *.
  assert (forall k o n v, rec_fields nonce seq kind p !! k = Some (o, v) -> rec_shape (zlen p) !! k = Some (o, n) -> apart o n (drop (S k) (rec_shape (zlen p))) = true -> slice o n b = v) as F.
  { intros k o n v Hk Hk2 Ha. eapply (read_written (rec_size (zlen p))); [apply zlen_zeros; lia|apply rec_fields_shape|by apply rec_in_bounds|exact Hk|exact Hk2|exact Ha]. }
  assert (forall o n, 0 <= o -> 0 <= n -> o + n <= 32 -> slice o n (splice b 32 c) = slice o n b) as Hb by (intros; apply slice_splice_before; lia).
  assert (forall k o n, o + n <= 40 -> forallb (fun w => (fst w + snd w <=? o) || (o + n <=? fst w)) (drop (S k) (take 5 (rec_shape 0))) = true ->
    (k < 5)%nat -> apart o n (drop (S k) (rec_shape (zlen p))) = true) as Hfar.
  { intros k o n Hon H Hk. unfold apart. change (rec_shape (zlen p)) with (take 5 (rec_shape 0) ++ [(40, zlen p)]).
    rewrite drop_app_le by (cbn; lia). rewrite forallb_app, H. cbn. apply andb_true_iff. split; [|done]. apply orb_true_iff. right. apply Z.leb_le. lia. }
  rewrite !Hb by lia. split_and!.
  - apply (F 0%nat); [done|done|]. by apply Hfar; [lia| |lia].
  - apply (F 1%nat); [done|done|]. by apply Hfar; [lia| |lia].
  - apply (F 2%nat); [done|done|]. by apply Hfar; [lia| |lia].
  - apply (F 3%nat); [done|done|]. by apply Hfar; [lia| |lia].
  - apply (F 4%nat); [done|done|]. by apply Hfar; [lia| |lia].
  - rewrite slice_splice_after by lia. by apply (F 5%nat).
  - rewrite slice_splice_same by lia. rewrite Hb by lia. done.
Qed.

(** The record found at a position of the log, if there is one: its kind, its payload
    and its size. *)
Definition rec_at (nonce : Z) (l : Layout) (d : disk) (pos seq : Z) : option (Z * bytes * Z) :=
  let b := read_blocks d (log_off l + pos) PAGE in
  let size := rec_size (rd_u32 b 24) in
  let r := if PAGE <? size then read_blocks d (log_off l + pos) size else b in
  if starts nonce seq b && negb (log_len l <? pos + size) && checks crc32c b r
  then Some (at_byte r 28, slice LOG_HEADER (rd_u32 b 24) r, size) else None.

Context (Hcrc : forall b, u32_ok (crc32c b)).

Lemma rec_at_written nonce l d pos seq kind p :
  u64_ok nonce -> u64_ok seq -> zlen p < 2 ^ 32 -> 0 <= log_off l + pos -> (log_off l + pos) mod PAGE = 0 -> pos + rec_size (zlen p) <= log_len l ->
  written d (log_off l + pos) (record crc32c nonce seq kind p) -> rec_at nonce l d pos seq = Some (kind, p, rec_size (zlen p)).
Proof using Hcrc.
  intros Hn Hq Hp Ho Hm Hfit Hw. pose proof (zlen_nonneg p) as Hp0. destruct (rec_size_spec (zlen p) Hp0) as (Hs & Hsm & Hpg).
  set (r := record crc32c nonce seq kind p) in *. pose proof (zlen_record nonce seq kind p) as Hl. fold r in Hl.
  destruct (record_fields nonce seq kind p r eq_refl) as (E0 & E1 & E2 & E3 & E4 & E5 & E6).
  pose proof (read_written_blocks d _ r Ho Hm ltac:(by rewrite Hl) Hw) as HR. rewrite Hl in HR.
  assert (read_blocks d (log_off l + pos) PAGE = slice 0 PAGE r) as HB.
  { pose proof (Z.div_mod (log_off l + pos) PAGE ltac:(done)) as D. rewrite Hm, Z.add_0_r, Z.mul_comm in D.
    rewrite D at 1. rewrite read_block. specialize (Hw 0). rewrite Z.add_0_r in Hw. apply Hw. rewrite Hl. split; [lia|].
    assert (1 <= rec_size (zlen p) / PAGE); [|lia]. apply Z.div_le_lower_bound; unfold PAGE in *; lia. }
  unfold rec_at. rewrite HB. assert (forall o n, 0 <= o -> 0 <= n -> o + n <= 4096 -> slice o n (slice 0 PAGE r) = slice o n r) as HS.
  { intros. rewrite slice_slice by (unfold PAGE; lia). done. }
  assert (rd_u32 (slice 0 PAGE r) 24 = zlen p) as EL by (unfold rd_u32; rewrite HS, E3 by lia; by apply le_val_u32).
  rewrite EL. assert ((if PAGE <? rec_size (zlen p) then read_blocks d (log_off l + pos) (rec_size (zlen p)) else slice 0 PAGE r) = r) as ->.
  { destruct (Z.ltb_spec PAGE (rec_size (zlen p))); [done|]. apply slice_all. lia. }
  assert (starts nonce seq (slice 0 PAGE r) = true) as ->.
  { unfold starts, rd_u64. rewrite !HS, E0, E1, E2 by lia. rewrite !le_val_u64, !Z.eqb_refl by done. by rewrite bool_decide_eq_true_2. }
  destruct (Z.ltb_spec (log_len l) (pos + rec_size (zlen p))); [lia|].
  unfold checks. rewrite EL, E5. unfold rd_u32. rewrite E6, le_val_u32 by apply Hcrc. rewrite Z.eqb_refl. cbn [andb negb].
  by rewrite (slice_1_at r 28 kind E4).
Qed.

End Record.
