(* ===== verification/MetaChain.v ===== *)
(** The metadata store's log as a chain of records: what [replay] walks, what a disk may
    change without changing it, and how it grows. *)

From S2P Require Import Prelude MetaPage MetaPageProofs MetaTree MetaTreePages MetaLog MetaRecord.
#[local] Open Scope meta_scope.

Definition norm (ll pos used_ : Z) : Z * Z := if ll <=? pos then (0, used_ + (ll - pos)) else (pos, used_).
Definition aligned (p : Z) : Prop := p mod PAGE = 0.

Lemma aligned_add a b : aligned a -> aligned b -> aligned (a + b).
Proof. unfold aligned, PAGE. intros. rewrite Z.add_mod by lia. rewrite H, H0. done. Qed.
Lemma aligned_sub a b : aligned a -> aligned b -> aligned (a - b).
Proof. unfold aligned, PAGE. intros. rewrite Zminus_mod, H, H0. done. Qed.
Lemma aligned_le a b : aligned a -> aligned b -> a < b -> a + PAGE <= b.
Proof.
  unfold aligned, PAGE. intros Ha Hb. pose proof (Z.div_mod a 4096 ltac:(lia)). pose proof (Z.div_mod b 4096 ltac:(lia)). lia.
Qed.

(** Where the ring is [u] bytes past [start]. *)
Lemma ring_step ll start u p d : 0 < ll -> (start + u) mod ll = p -> 0 <= d -> p + d < ll -> (start + (u + d)) mod ll = p + d.
Proof.
  intros Hl <- Hd Hlt. pose proof (Z.mod_pos_bound (start + u) ll Hl). rewrite Z.add_assoc, Z.add_mod by lia.
  rewrite (Z.mod_small d) by lia. apply Z.mod_small. lia.
Qed.

Section Chain.
Context (crc32c : bytes -> Z) (dec_ops : bytes -> option (list Op)).
Context (nonce : Z) (l : Layout) (Hl : layout_ok l).
Abbreviation ll := (log_len l).
Abbreviation rec_at := (rec_at crc32c nonce l).
Definition pos_block (p : Z) : Z := log_off l / PAGE + p / PAGE.

Lemma ll_aligned : aligned ll /\ 16 * PAGE <= ll.
Proof using Hl. destruct Hl as (_ & H1 & H2 & _). by split. Qed.

(** From a position, a sequence number, the bytes used so far and the changes so far,
    [n] records further on. *)
Inductive chain (d : disk) : nat -> Z -> Z -> Z -> Overlay -> Z -> Z -> Z -> Overlay -> Prop :=
| ChainEnd pos seq u ov : chain d 0 pos seq u ov pos seq u ov
| ChainWrap n pos seq u ov pos2 seq2 u2 ov2 p v pl size :
    norm ll pos u = (p, v) -> v < ll -> rec_at d p seq = Some (1, pl, size) ->
    chain d n 0 (seq + 1) (v + (ll - p)) ov pos2 seq2 u2 ov2 -> chain d (S n) pos seq u ov pos2 seq2 u2 ov2
| ChainRec n pos seq u ov pos2 seq2 u2 ov2 p v k pl size ops :
    norm ll pos u = (p, v) -> v < ll -> rec_at d p seq = Some (k, pl, size) -> k <> 1 -> dec_ops pl = Some ops ->
    chain d n (p + size) (seq + 1) (v + size) (overlay_all ov ops) pos2 seq2 u2 ov2 -> chain d (S n) pos seq u ov pos2 seq2 u2 ov2.

Lemma chain_trans d n m pos seq u ov pos1 seq1 u1 ov1 pos2 seq2 u2 ov2 :
  chain d n pos seq u ov pos1 seq1 u1 ov1 -> chain d m pos1 seq1 u1 ov1 pos2 seq2 u2 ov2 -> chain d (n + m) pos seq u ov pos2 seq2 u2 ov2.
Proof. induction 1; intros H'; [done|..]; cbn [Nat.add]; [eapply ChainWrap|eapply ChainRec]; eauto. Qed.

Lemma rec_at_size d p seq k pl size : rec_at d p seq = Some (k, pl, size) -> aligned size /\ p + size <= ll.
Proof using Hl.
  unfold MetaRecord.rec_at. destruct (starts _ _ _); [|done]. cbn [andb].
  match goal with |- context [rec_size ?x] => set (sz := rec_size x) end.
  destruct (Z.ltb_spec ll (p + sz)); [done|]. cbn [negb andb]. destruct (checks _ _ _); [|done]. intros [= _ _ <-].
  split; [|lia]. unfold aligned, sz, rec_size. by apply Z.mod_mul.
Qed.

(** A record that is on one disk is on another with the same blocks. *)
Lemma rec_at_same d d' p seq k pl size :
  aligned p -> 0 <= p -> PAGE <= size -> rec_at d p seq = Some (k, pl, size) ->
  (forall q, p <= q < p + size -> block d' (pos_block q) = block d (pos_block q)) -> rec_at d' p seq = Some (k, pl, size).
Proof using Hl.
  intros Ha Hp Hsz HR Hb. pose proof (rec_at_size _ _ _ _ _ _ HR) as [Hs Hfit].
  assert (forall n, 0 <= n <= size -> aligned n -> read_blocks d' (log_off l + p) n = read_blocks d (log_off l + p) n) as HB.
  { intros n Hn Han. apply read_blocks_ext. intros i Hi. destruct Hl as (Ho & _). unfold aligned, pos_block, PAGE in *. rewrite Ho in *.
    pose proof (Z.div_mod p 4096 ltac:(lia)). pose proof (Z.div_mod n 4096 ltac:(lia)).
    replace (2 * 4096 + p + n) with ((2 + p / 4096 + n / 4096) * 4096) in Hi by lia.
    replace (2 * 4096 + p) with ((2 + p / 4096) * 4096) in Hi by lia. rewrite !Z.div_mul in Hi by lia.
    specialize (Hb ((i - 2) * 4096)). rewrite (Z.div_mul 2) in Hb by lia. rewrite (Z.div_mul (i - 2)) in Hb by lia.
    replace (2 + (i - 2)) with i in Hb by lia. apply Hb. lia. }
  unfold MetaRecord.rec_at in *. rewrite (HB PAGE) by (unfold PAGE in *; lia || done).
  set (b := read_blocks d (log_off l + p) PAGE) in *. destruct (starts _ _ _); [|done]. cbn [andb] in *.
  destruct (Z.ltb_spec ll (p + rec_size (rd_u32 b 24))) as [|Hf]; [done|]. cbn [negb andb] in *.
  destruct (checks _ _ _) eqn:Ec in HR; [|done]. injection HR as Ek Epl Es. rewrite Es in *. rewrite (HB size) by (unfold PAGE in *; done || lia). rewrite Ec. by rewrite Ek, Epl.
Qed.

(** What is walked stays within the ring: in pages, [n] records use [n] at least. *)
Definition on_ring (start pos u : Z) : Prop := 0 <= pos <= ll /\ aligned pos /\ 0 <= u /\ (start + u) mod ll = pos mod ll.

Lemma norm_ring start pos u p v : on_ring start pos u -> norm ll pos u = (p, v) -> 0 <= p < ll /\ aligned p /\ v = u /\ (start + v) mod ll = p.
Proof using Hl.
  intros (Hp & Ha & Hu & Hr). pose proof ll_aligned as [_ Hll]. change PAGE with 4096 in Hll. unfold norm. destruct (Z.leb_spec ll pos); intros [= <- <-].
  - assert (pos = ll) as -> by lia. rewrite Z.mod_same in Hr by lia. replace (u + (ll - ll)) with u by lia. split_and!; try done; lia.
  - rewrite (Z.mod_small pos) in Hr by lia. split_and!; try done; lia.
Qed.

Lemma step_ring start u p size : 0 <= p < ll -> aligned p -> 0 <= u -> (start + u) mod ll = p -> aligned size -> PAGE <= size -> p + size <= ll ->
  on_ring start (p + size) (u + size).
Proof using Hl.
  intros Hp Ha Hu Hr Has Hs Hf. pose proof ll_aligned as [_ Hll]. change PAGE with 4096 in *. split_and!; [lia|lia|by apply aligned_add|lia|].
  by rewrite Z.add_assoc, <- (Z.add_mod_idemp_l (start + u)), Hr by lia.
Qed.
Lemma wrap_ring start u p : 0 <= p < ll -> aligned p -> 0 <= u -> (start + u) mod ll = p -> on_ring start 0 (u + (ll - p)) /\ PAGE <= ll - p.
Proof using Hl.
  intros Hp Ha Hu Hr. pose proof ll_aligned as [Hla Hll]. pose proof (aligned_le p ll Ha Hla ltac:(lia)). unfold PAGE in *.
  split; [|lia]. split_and!; [lia|lia|done|lia|]. rewrite Z.mod_0_l by lia.
  rewrite Z.add_assoc, Z.add_mod, Hr by lia. rewrite Z.add_mod_idemp_r by lia. replace (p + (ll - p)) with ll by lia. by rewrite Z.mod_same by lia.
Qed.

(** Records of pages that hold bytes are at least a page. *)
Definition sizes_ok (d : disk) : Prop := forall p seq k pl size, 0 <= p < ll -> aligned p -> rec_at d p seq = Some (k, pl, size) -> PAGE <= size.

Lemma chain_ring d n start pos seq u ov pos2 seq2 u2 ov2 :
  sizes_ok d -> on_ring start pos u -> chain d n pos seq u ov pos2 seq2 u2 ov2 -> on_ring start pos2 u2 /\ u + PAGE * Z.of_nat n <= u2 /\ seq2 = seq + Z.of_nat n.
Proof using Hl.
  intros Hsz Hr H. induction H as [pos seq u ov|n pos seq u ov pos2 seq2 u2 ov2 p v pl size Hn Hv HR _ IH|n pos seq u ov pos2 seq2 u2 ov2 p v k pl size ops Hn Hv HR _ _ _ IH].
  - unfold PAGE. split; [done|lia].
  - destruct (norm_ring _ _ _ _ _ Hr Hn) as (Hp & Ha & -> & Hs). pose proof Hr as (_ & _ & Hu & _).
    destruct (wrap_ring start u p Hp Ha Hu Hs) as [Hr' Hge]. destruct (IH Hr') as (H1 & H2 & H3). split; [done|]. unfold PAGE in *. lia.
  - destruct (norm_ring _ _ _ _ _ Hr Hn) as (Hp & Ha & -> & Hs). pose proof Hr as (_ & _ & Hu & _).
    destruct (rec_at_size _ _ _ _ _ _ HR) as [Has Hf]. pose proof (Hsz _ _ _ _ _ Hp Ha HR) as Hps.
    destruct (IH (step_ring start u p size Hp Ha Hu Hs Has Hps Hf)) as (H1 & H2 & H3). split; [done|]. unfold PAGE in *. lia.
Qed.

(** The chain depends on the blocks it is in. *)
Lemma chain_same d d' n start pos seq u ov pos2 seq2 u2 ov2 :
  sizes_ok d -> on_ring start pos u -> chain d n pos seq u ov pos2 seq2 u2 ov2 ->
  (forall v, u <= v < u2 -> block d' (pos_block ((start + v) mod ll)) = block d (pos_block ((start + v) mod ll))) ->
  chain d' n pos seq u ov pos2 seq2 u2 ov2.
Proof using Hl.
  intros Hsz Hr H. induction H as [pos seq u ov|n pos seq u ov pos2 seq2 u2 ov2 p v pl size Hn Hv HR HC IH|n pos seq u ov pos2 seq2 u2 ov2 p v k pl size ops Hn Hv HR Hk Hd HC IH]; intros Hb.
  - constructor.
  - destruct (norm_ring _ _ _ _ _ Hr Hn) as (Hp & Ha & -> & Hs). pose proof Hr as (_ & _ & Hu & _).
    destruct (wrap_ring start u p Hp Ha Hu Hs) as [Hr' Hge]. destruct (chain_ring _ _ _ _ _ _ _ _ _ _ _ Hsz Hr' HC) as (_ & H2 & _).
    destruct (rec_at_size _ _ _ _ _ _ HR) as [Has Hf].
    eapply ChainWrap; [exact Hn|done| |apply IH; [done|]].
    + eapply rec_at_same; [done|lia|exact (Hsz _ _ _ _ _ Hp Ha HR)|exact HR|]. intros q Hq.
      specialize (Hb (u + (q - p))). rewrite (ring_step ll start u p (q - p)) in Hb by (unfold PAGE in *; lia).
      replace (p + (q - p)) with q in Hb by lia. apply Hb. unfold PAGE in *. lia.
    + intros w Hw. apply Hb. unfold PAGE in *. lia.
  - destruct (norm_ring _ _ _ _ _ Hr Hn) as (Hp & Ha & -> & Hs). pose proof Hr as (_ & _ & Hu & _).
    destruct (rec_at_size _ _ _ _ _ _ HR) as [Has Hf]. pose proof (Hsz _ _ _ _ _ Hp Ha HR) as Hps.
    pose proof (step_ring start u p size Hp Ha Hu Hs Has Hps Hf) as Hr'. destruct (chain_ring _ _ _ _ _ _ _ _ _ _ _ Hsz Hr' HC) as (_ & H2 & _).
    eapply ChainRec; [exact Hn|done| |exact Hk|exact Hd|apply IH; [done|]].
    + eapply rec_at_same; [done|lia|done|exact HR|]. intros q Hq.
      specialize (Hb (u + (q - p))). rewrite (ring_step ll start u p (q - p)) in Hb by (unfold PAGE in *; lia).
      replace (p + (q - p)) with q in Hb by lia. apply Hb. unfold PAGE in *. lia.
    + intros w Hw. apply Hb. unfold PAGE in *. lia.
Qed.

(** ** Replay *)

Lemma dev_op_quiet {A} (f : Dev -> A * Dev) s : faults (dev s) = [] -> dev_op f s = (let '(a, d) := f (dev s) in (Ok a, set_dev d s)).
Proof. clear. intros H. unfold dev_op. rewrite H. cbn. destruct s as [[du ca fa]]. cbn in *. by subst fa. Qed.
Lemma try_read_quiet off n s : faults (dev s) = [] -> try_read off n s = (Ok (Some (read_blocks (view (dev s)) off n)), s).
Proof. clear. intros H. unfold try_read, dev_read. rewrite dev_op_quiet by done. by destruct s. Qed.

(** The replay finds the record at its place, if there is one, and stops otherwise. *)
Lemma replay_loop_step fuel pos seq u s p v :
  faults (dev s) = [] -> layout s = l -> MetaTree.nonce s = nonce -> norm ll pos u = (p, v) -> v < ll ->
  replay_loop crc32c dec_ops (S fuel) pos seq u s =
    match rec_at (view (dev s)) p seq with
    | None => (Ok (p, seq, v), s)
    | Some (k, pl, size) =>
        if k =? 1 then replay_loop crc32c dec_ops fuel 0 (seq + 1) (v + (ll - p)) s
        else match dec_ops pl with
             | None => (Err (BadRecord seq), s)
             | Some ops => replay_loop crc32c dec_ops fuel (p + size) (seq + 1) (v + size) (set_overlay (overlay_all (overlay s) ops) s)
             end
    end.
Proof using.
  intros Hf HL HN Hn Hv. cbn [replay_loop]. unfold norm in Hn. rewrite HL, HN.
  destruct (if ll <=? pos then (0, u + (ll - pos)) else (pos, u)) as [p' v'] eqn:E. injection Hn as -> ->. clear E.
  destruct (Z.leb_spec ll v); [lia|]. unfold bind at 1. rewrite try_read_quiet by done. unfold MetaRecord.rec_at.
  set (b := read_blocks (view (dev s)) (log_off l + p) PAGE). destruct (starts nonce seq b); [|done]. cbn [negb andb].
  destruct (Z.ltb_spec ll (p + rec_size (rd_u32 b 24))); [done|]. cbn [negb andb]. unfold bind at 1.
  assert ((if PAGE <? rec_size (rd_u32 b 24) then try_read (log_off l + p) (rec_size (rd_u32 b 24)) else ret (Some b)) s
    = (Ok (Some (if PAGE <? rec_size (rd_u32 b 24) then read_blocks (view (dev s)) (log_off l + p) (rec_size (rd_u32 b 24)) else b)), s)) as ->.
  { destruct (_ <? _); [by rewrite try_read_quiet|done]. }
  set (r := if _ <? _ then _ else _). destruct (checks crc32c b r); [|done]. cbn [negb andb].
  destruct (at_byte r 28 =? 1); [done|]. destruct (dec_ops _); done.
Qed.

Definition ends (d : disk) (pos seq u : Z) (p v : Z) : Prop := norm ll pos u = (p, v) /\ v < ll /\ rec_at d p seq = None.

Lemma set_overlay_twice o o' s : set_overlay o (set_overlay o' s) = set_overlay o s.
Proof. done. Qed.

Lemma replay_chain n pos seq u ov pos2 seq2 u2 ov2 p v : forall fuel s,
  chain (view (dev s)) n pos seq u ov pos2 seq2 u2 ov2 -> ends (view (dev s)) pos2 seq2 u2 p v ->
  faults (dev s) = [] -> layout s = l -> MetaTree.nonce s = nonce -> overlay s = ov -> (n < fuel)%nat ->
  replay_loop crc32c dec_ops fuel pos seq u s = (Ok (p, seq2, v), set_overlay ov2 s).
Proof using.
  intros fuel s H. remember (view (dev s)) as d eqn:Ed. revert fuel s Ed.
  induction H as [pos seq u ov|n pos seq u ov pos2 seq2 u2 ov2 p0 v0 pl size Hn Hv HR HC IH|n pos seq u ov pos2 seq2 u2 ov2 p0 v0 k pl size ops Hn Hv HR Hk Hd HC IH];
    intros fuel s Ed He Hf HL HN Hov Hfu; (destruct fuel as [|fuel]; [lia|]).
  - destruct He as (E1 & E2 & E3). rewrite (replay_loop_step fuel pos seq u s p v) by done. rewrite <- Ed, E3. subst ov. by destruct s.
  - rewrite (replay_loop_step fuel pos seq u s p0 v0) by done. rewrite <- Ed, HR. cbn [Z.eqb Pos.eqb]. apply IH; try done. lia.
  - rewrite (replay_loop_step fuel pos seq u s p0 v0) by done. rewrite <- Ed, HR. destruct (Z.eqb_spec k 1); [done|]. rewrite Hd.
    rewrite (IH fuel (set_overlay (overlay_all (overlay s) ops) s)); try done; [by rewrite Hov|lia].
Qed.

(** ** The log on a disk *)

Definition log_bytes (d : disk) : Prop := forall p, 0 <= p < ll -> all_bytes (block d (pos_block p)).

(** The log a superblock starts, and where it ends: nothing on the disk can be taken for
    the record that comes next. *)
Record log_ok (d : disk) (start seq0 tail seq u : Z) (ov : Overlay) : Prop := {
  lg_bytes : log_bytes d;
  lg_start : 0 <= start <= ll /\ aligned start;
  lg_tail : 0 <= tail <= ll /\ aligned tail;
  lg_used : 0 <= u /\ u + PAGE <= ll;
  lg_chain : exists n tail', chain d n start seq0 0 overlay0 tail' seq u ov /\ tail' mod ll = tail mod ll;
  lg_stale q seq' : 0 <= q < ll -> aligned q -> starts nonce seq' (block d (pos_block q)) = true -> seq' < seq \/ (seq' = seq /\ q = tail mod ll);
  lg_none : rec_at d (tail mod ll) seq = None }.

Lemma pos_block_read d p : aligned p -> read_blocks d (log_off l + p) PAGE = block d (pos_block p).
Proof using Hl.
  intros Ha. destruct Hl as (Ho & _). unfold aligned, pos_block, PAGE in *. rewrite Ho in *.
  pose proof (Z.div_mod p 4096 ltac:(lia)). replace (2 * 4096 + p) with ((2 + p / 4096) * PAGE) by (unfold PAGE; lia).
  exact (read_block d (2 + p / 4096)).
Qed.

Lemma log_bytes_sizes d : log_bytes d -> sizes_ok d.
Proof using Hl.
  intros Hb p seq k pl size Hp Ha HR. unfold MetaRecord.rec_at in HR. rewrite pos_block_read in HR by done.
  destruct (starts _ _ _ && _ && _); [|done]. injection HR as _ _ <-.
  apply rec_size_spec. unfold rd_u32. apply le_val_range, all_bytes_slice, Hb. done.
Qed.
End Chain.
