(* ===== verification/MetaLogDisk.v ===== *)
(** How the metadata store's log on a disk changes: grown by a record, wrapped, torn,
    started anew. *)

From S2P Require Import Prelude MetaPage MetaPageProofs MetaTree MetaTreePages MetaLog MetaRecord MetaChain.

(** Each sector is as in one of two blocks. *)
Definition mixed (old new x : bytes) : Prop :=
  forall j, 0 <= j < PAGE / SECTOR -> slice (j * SECTOR) SECTOR x = slice (j * SECTOR) SECTOR old \/ slice (j * SECTOR) SECTOR x = slice (j * SECTOR) SECTOR new.
Lemma mixed_old old new : mixed old new old.
Proof. intros j _. by left. Qed.
Lemma mixed_new old new : mixed old new new.
Proof. intros j _. by right. Qed.
(** What lies in the first sector is all from one of them. *)
Lemma mixed_first old new x : mixed old new x ->
  (forall o n, 0 <= o -> 0 <= n -> o + n <= 512 -> slice o n x = slice o n old) \/ (forall o n, 0 <= o -> 0 <= n -> o + n <= 512 -> slice o n x = slice o n new).
Proof.
  intros H. specialize (H 0 ltac:(split; [lia|reflexivity])). change (0 * SECTOR) with 0 in H.
  assert (forall (y : bytes) o n, 0 <= o -> 0 <= n -> o + n <= 512 -> slice o n y = slice o n (slice 0 SECTOR y)) as E.
  { intros y o n Ho Hn Hon. unfold SECTOR. rewrite slice_slice by lia. done. }
  destruct H as [H|H]; [left|right]; intros o n Ho Hn Hon; rewrite (E x), H, <- E by lia; done.
Qed.

(** A block a power cut may have left: as it was, as written, or torn. *)
Definition part (old new x : bytes) : Prop := x = old \/ x = new \/ torn old new x.
Lemma part_mixed old new x : part old new x -> mixed old new x.
Proof. intros [->|[->|[_ H]]]; [apply mixed_old|apply mixed_new|exact H]. Qed.
Lemma part_bytes old new x : all_bytes old -> all_bytes new -> part old new x -> all_bytes x.
Proof.
  intros Ho Hn [->|[->|[Hz H]]]; [done|done|]. apply Forall_lookup. intros i y Hy. pose proof (lookup_lt_Some _ _ _ Hy) as Hi.
  unfold zlen, PAGE in Hz. set (j := (i / 512)%nat). pose proof (Nat.div_mod i 512 ltac:(lia)) as D. pose proof (Nat.mod_upper_bound i 512 ltac:(lia)) as U.
  assert (forall z : bytes, slice (Z.of_nat j * SECTOR) SECTOR z !! (i mod 512)%nat = z !! i) as E.
  { intros z. unfold slice, SECTOR. change (Z.to_nat 512) with 512%nat. replace (Z.to_nat (Z.of_nat j * 512)) with (j * 512)%nat by lia.
    rewrite lookup_take_lt by done. rewrite lookup_drop. f_equal. unfold j. lia. }
  specialize (H (Z.of_nat j)). rewrite <- (E x) in Hy. destruct H as [H|H].
  { change (PAGE / SECTOR) with 8. unfold j. assert (i / 512 < 8)%nat by (apply Nat.Div0.div_lt_upper_bound; lia). lia. }
  - rewrite H, E in Hy. by apply (Forall_lookup_1 byte old i).
  - rewrite H, E in Hy. by apply (Forall_lookup_1 byte new i).
Qed.

(** ** What a power cut leaves of a cache written in order *)

Lemma lands_app d ws1 ws2 s : lands true d (ws1 ++ ws2) s -> lands true d ws1 s \/ lands true (land_all d ws1) ws2 s.
Proof.
  revert d. induction ws1 as [|w ws1 IH]; intros d H; [by right|]. cbn [app] in H.
  inversion H as [|d0 ws0 _|d0 w0 ws0 s0 H1|d0 i b x ws0 s0 Ht H1|d0 w0 ws0 s0 E]; subst; [by left; apply LandsStop| | |done].
  - destruct (IH _ H1) as [H2|H2]; [left; by apply LandsKeep|by right].
  - left. by eapply LandsTear.
Qed.
Lemma lands_all in_order d ws : lands in_order d ws (land_all d ws).
Proof. revert d. induction ws as [|w ws IH]; intros d; [apply LandsEnd|]. apply LandsKeep, IH. Qed.
Lemma lands_other o d ws s i : lands o d ws s -> (i ∉ map fst ws) -> block s i = block d i.
Proof.
  assert (forall (d : disk) j (b : bytes), i <> j -> block (land d (j, b)) i = block d i) as Hne.
  { intros d0 j b Hj. unfold block, land. cbn [fst snd]. by rewrite lookup_insert_ne. }
  induction 1 as [|d ws E|d [j b] ws s _ IH|d j b x ws s _ _ IH|d [j b] ws s _ _ IH]; cbn [map fst]; rewrite ?not_elem_of_cons; intros Hi; try done.
  - destruct Hi as [Hj Hi]. rewrite IH by done. by apply Hne.
  - destruct Hi as [Hj Hi]. rewrite IH; [by apply Hne|]. destruct o; [by apply not_elem_of_nil|done].
  - destruct Hi as [Hj Hi]. by apply IH.
Qed.
Lemma lands_block o d ws s i b : NoDup (map fst ws) -> (i, b) ∈ ws -> lands o d ws s -> part (block d i) b (block s i).
Proof.
  assert (forall (d : disk) (b : bytes), block (land d (i, b)) i = b) as Heq.
  { intros d0 b0. unfold block, land. cbn [fst snd]. by rewrite lookup_insert_eq. }
  assert (forall (d : disk) j (b : bytes), i <> j -> block (land d (j, b)) i = block d i) as Hne.
  { intros d0 j b0 Hj. unfold block, land. cbn [fst snd]. by rewrite lookup_insert_ne. }
  intros Hn Hin H. revert Hn Hin. induction H as [|d ws E|d [j c] ws s HL IH|d j c x ws s Ht HL IH|d [j c] ws s E HL IH]; cbn [map fst];
    [by intros _ ?%not_elem_of_nil|by intros; left|..]; rewrite NoDup_cons, elem_of_cons; intros [Hj Hn] [Eij|Hin].
  - injection Eij as -> ->. right; left. rewrite (lands_other _ _ _ _ _ HL Hj). apply Heq.
  - assert (i <> j) as Hij by (intros ->; apply Hj, list_elem_of_fmap; by exists (j, b)). rewrite <- (Hne d j c) by done. by apply IH.
  - injection Eij as -> ->. right; right. rewrite (lands_other _ _ _ _ _ HL), Heq; [done|]. destruct o; [by apply not_elem_of_nil|done].
  - assert (i <> j) as Hij by (intros ->; apply Hj, list_elem_of_fmap; by exists (j, b)). rewrite <- (Hne d j x) by done.
    destruct o; [|by apply IH]. inversion HL; subst; by left.
  - injection Eij as -> ->. left. by apply (lands_other _ _ _ _ _ HL Hj).
  - by apply IH.
Qed.

Lemma starts_first nonce seq x y : (forall o n, 0 <= o -> 0 <= n -> o + n <= 512 -> slice o n x = slice o n y) -> starts nonce seq x = starts nonce seq y.
Proof. intros H. unfold starts, rd_u64. by rewrite !H by lia. Qed.
Lemma starts_mixed nonce seq old new x : mixed old new x -> starts nonce seq x = true -> starts nonce seq old = true \/ starts nonce seq new = true.
Proof. intros [H|H]%mixed_first Hs; rewrite (starts_first _ _ _ _ H) in Hs; auto. Qed.
Lemma starts_seq nonce s s' b : starts nonce s b = true -> starts nonce s' b = true -> s = s'.
Proof. unfold starts. rewrite !andb_true_iff, !Z.eqb_eq. intros [_ <-] [_ <-]. done. Qed.

Section Disk.
Context (crc32c : bytes -> Z) (dec_ops : bytes -> option (list Op)).
Context (nonce : Z) (l : Layout) (Hl : layout_ok l).
Abbreviation ll := (log_len l).
Abbreviation rec_at := (rec_at crc32c nonce l).
Abbreviation pos_block := (pos_block l).
Abbreviation log_ok := (log_ok crc32c dec_ops nonce l).

Lemma ll_pos : 16 * 4096 <= ll.
Proof using Hl. by destruct Hl as (_ & H & _). Qed.
Lemma aligned_mod p : aligned p -> aligned (p mod ll).
Proof using Hl.
  intros Ha. pose proof ll_pos. rewrite Z.mod_eq by lia. apply aligned_sub; [done|]. pose proof (proj1 (ll_aligned l Hl)) as H1.
  unfold aligned, PAGE in *. rewrite Z.mul_mod, H1 by lia. done.
Qed.

Lemma rec_at_start d p seq x : aligned p -> rec_at d p seq = Some x -> starts nonce seq (block d (pos_block p)) = true.
Proof using Hl.
  intros Ha H. unfold MetaRecord.rec_at in H. rewrite (pos_block_read l Hl) in H by done. by destruct (starts _ _ _).
Qed.

Lemma pos_block_inj p q : aligned p -> aligned q -> pos_block p = pos_block q -> p = q.
Proof. clear. unfold aligned, MetaChain.pos_block, PAGE. intros. pose proof (Z.div_mod p 4096 ltac:(lia)). pose proof (Z.div_mod q 4096 ltac:(lia)). lia. Qed.

(** The same log blocks: the same log. *)
Lemma log_same d d' start seq0 tail seq u ov :
  (forall p, 0 <= p < ll -> block d' (pos_block p) = block d (pos_block p)) -> log_ok d start seq0 tail seq u ov -> log_ok d' start seq0 tail seq u ov.
Proof using Hl.
  intros Hb []. pose proof ll_pos. pose proof (log_bytes_sizes crc32c nonce l Hl d lg_bytes) as Hsz.
  pose proof (Z.mod_pos_bound tail ll ltac:(lia)) as Ht.
  assert (log_bytes l d') as Hb' by (intros p Hp; rewrite Hb by done; by apply lg_bytes).
  split; try done.
  - destruct lg_chain as (n & tail' & HC & E). exists n, tail'. split; [|done].
    eapply (chain_same crc32c dec_ops nonce l Hl d d' n start); [done| |exact HC|].
    + destruct lg_start. split_and!; [lia|lia|done|lia|]. by rewrite Z.add_0_r.
    + intros v _. apply Hb. apply Z.mod_pos_bound. lia.
  - intros q seq' Hq Ha. rewrite Hb by done. by apply lg_stale.
  - destruct (rec_at d' (tail mod ll) seq) as [[[k pl] size]|] eqn:E; [|done].
    rewrite <- lg_none. symmetry. assert (aligned (tail mod ll)) as Hat by (apply aligned_mod, lg_tail).
    pose proof (rec_at_size _ _ l Hl _ _ _ _ _ _ E) as [_ Hf].
    eapply (rec_at_same _ _ l Hl d' d); [done|lia|eapply (log_bytes_sizes crc32c nonce l Hl d'); [done|exact Ht|done|exact E]|exact E|].
    intros q Hq. symmetry. apply Hb. lia.
Qed.

(** Only where the tail comes on the ring matters. *)
Lemma log_tail_mod d start seq0 tail seq u ov : log_ok d start seq0 tail seq u ov -> log_ok d start seq0 (tail mod ll) seq u ov.
Proof using Hl.
  intros []. pose proof ll_pos. pose proof (Z.mod_pos_bound tail ll ltac:(lia)).
  split; try done; rewrite ?Z.mod_mod by lia; try done. split; [lia|]. apply aligned_mod, lg_tail.
Qed.
(** The log a new superblock starts at the tail is empty. *)
Lemma log_restart d start seq0 tail seq u ov : log_ok d start seq0 tail seq u ov -> log_ok d tail seq tail seq 0 overlay0.
Proof using Hl.
  intros []. pose proof ll_pos. split; try done; [unfold PAGE; lia|]. exists 0%nat, tail. split; [constructor|done].
Qed.

(** Sequence numbers grow; an unused log has no changes. *)
Lemma log_counts d start seq0 tail seq u ov : log_ok d start seq0 tail seq u ov -> seq0 <= seq /\ (u = 0 -> ov = overlay0).
Proof using Hl.
  intros []. pose proof ll_pos. pose proof (log_bytes_sizes crc32c nonce l Hl d lg_bytes) as Hsz. destruct lg_chain as (n & tail' & HC & _).
  assert (on_ring l start start 0) as Hr0 by (destruct lg_start; split_and!; [lia|lia|done|lia|by rewrite Z.add_0_r]).
  destruct (chain_ring crc32c dec_ops nonce l Hl _ _ start _ _ _ _ _ _ _ _ Hsz Hr0 HC) as (_ & Hn & Hs). unfold PAGE in Hn. split; [lia|].
  intros Hu. assert (n = 0%nat) as -> by lia. by inversion HC.
Qed.

(** ** A record on its way *)

(** The blocks of a record of [size] bytes at [p]. *)
Definition inside (p size : Z) (q : Z) : Prop := p <= q < p + size.
(** A record whose pages, but the first, could not be taken for one. *)
Definition plain (r : bytes) : Prop := forall i seq, 1 <= i < zlen r / PAGE -> starts nonce seq (slice (i * PAGE) PAGE r) = false.

(** [d'] is [d] with some of the record [r] at [p] on it. *)
Definition partly (d d' : disk) (p : Z) (r : bytes) : Prop :=
  (forall q, 0 <= q < ll -> ~ inside p (zlen r) q -> block d' (pos_block q) = block d (pos_block q)) /\
  (forall i, 0 <= i < zlen r / PAGE -> part (block d (pos_block (p + i * PAGE))) (slice (i * PAGE) PAGE r) (block d' (pos_block (p + i * PAGE)))).

Lemma inside_page p (r : bytes) q : aligned p -> aligned q -> inside p (zlen r) q -> aligned (zlen r) -> exists i, 0 <= i < zlen r / PAGE /\ q = p + i * PAGE.
Proof.
  clear. unfold aligned, inside, PAGE. intros Hp Hq Hin Hr. exists ((q - p) / 4096).
  pose proof (Z.div_mod p 4096 ltac:(lia)). pose proof (Z.div_mod q 4096 ltac:(lia)). pose proof (Z.div_mod (zlen r) 4096 ltac:(lia)).
  replace (q - p) with ((q / 4096 - p / 4096) * 4096) by lia. rewrite Z.div_mul by lia. lia.
Qed.

Lemma starts_page seq (r : bytes) : starts nonce seq (slice 0 PAGE r) = starts nonce seq r.
Proof. clear. unfold starts, rd_u64. rewrite !slice_slice by (unfold PAGE; lia). done. Qed.
Lemma record_starts seq seq' kind p : u64_ok seq -> starts nonce seq' (slice 0 PAGE (record crc32c nonce seq kind p)) = true -> seq' = seq.
Proof.
  intros Hsq Hs. destruct (record_fields crc32c nonce seq kind p _ eq_refl) as (_ & _ & E2 & _). rewrite starts_page in Hs.
  unfold starts in Hs. apply andb_true_iff in Hs as [_ Hs]. apply Z.eqb_eq in Hs. unfold rd_u64 in Hs. rewrite E2, le_val_u64 in Hs by done. done.
Qed.

(** Nothing on it can be taken for a later record than the one on its way. *)
Lemma stale_partly d d' start seq0 tail seq u ov kind p r tp :
  log_ok d start seq0 tail seq u ov -> tp = tail mod ll -> r = record crc32c nonce seq kind p -> plain r -> u64_ok seq ->
  partly d d' tp r -> forall q seq', 0 <= q < ll -> aligned q -> starts nonce seq' (block d' (pos_block q)) = true -> seq' < seq \/ (seq' = seq /\ q = tp).
Proof using Hl.
  intros L -> Er Hpl Hsq [Hout Hin] q seq' Hq Ha Hs. pose proof ll_pos.
  assert (aligned (tail mod ll)) as Hat by (apply aligned_mod, (lg_tail _ _ _ _ _ _ _ _ _ _ _ L)).
  destruct (decide (tail mod ll <= q < tail mod ll + zlen r)) as [Hi|Hi].
  - assert (aligned (zlen r)) as Har by (rewrite Er, zlen_record; apply rec_size_spec, zlen_nonneg).
    destruct (inside_page _ _ _ Hat Ha Hi Har) as (i & Hi' & ->). specialize (Hin i Hi').
    apply (starts_mixed _ _ _ _ _ (part_mixed _ _ _ Hin)) in Hs as [Hs|Hs]; [by apply (lg_stale _ _ _ _ _ _ _ _ _ _ _ L)|].
    destruct (Z.eq_dec i 0) as [->|]; [|by rewrite (Hpl i seq') in Hs by lia].
    right. rewrite Z.mul_0_l in *. split; [|lia]. rewrite Er in Hs. by apply record_starts in Hs.
  - rewrite Hout in Hs by done. by apply (lg_stale _ _ _ _ _ _ _ _ _ _ _ L).
Qed.

(** What is behind a position on the ring is not in front of it. *)
Lemma ring_apart start u v p size : 0 <= start -> (start + u) mod ll = p -> 0 <= v < u -> u + size <= ll -> p + size <= ll -> ~ inside p size ((start + v) mod ll).
Proof using Hl.
  intros Hst Hr Hv Hu Hp [H1 H2]. pose proof ll_pos. set (e := (start + v) mod ll - p) in *.
  pose proof (Z.mod_pos_bound (start + u) ll ltac:(lia)) as Hb.
  pose proof (ring_step ll start u p e ltac:(lia) Hr ltac:(lia) ltac:(lia)) as H3.
  assert ((start + (u + e)) mod ll = (start + v) mod ll) as H4 by lia.
  pose proof (Z.div_mod (start + (u + e)) ll ltac:(lia)) as D1. pose proof (Z.div_mod (start + v) ll ltac:(lia)) as D2. rewrite H4 in D1.
  assert (u + e - v < ll) as Hlt by lia. assert (0 < u + e - v) as Hgt by lia. clear -Hlt Hgt D1 D2 H. clearbody e. revert D1 D2.
  generalize ((start + v) mod ll) as m. generalize ((start + (u + e)) / ll) as A. generalize ((start + v) / ll) as B. intros B A m D1 D2.
  assert (ll * (A - B) = u + e - v) as E by (rewrite Z.mul_sub_distr_l; lia). destruct (Z.le_gt_cases (A - B) 0); nia.
Qed.

(** What stays of the log while a record is on its way behind its tail. *)
Lemma log_partly d d' start seq0 tail seq u ov kind p r :
  log_ok d start seq0 tail seq u ov -> r = record crc32c nonce seq kind p -> plain r -> all_bytes r -> u64_ok seq ->
  tail mod ll + zlen r <= ll -> u + zlen r <= ll -> partly d d' (tail mod ll) r ->
  log_bytes l d' /\ (exists n tail', chain crc32c dec_ops nonce l d' n start seq0 0 overlay0 tail' seq u ov /\ on_ring l start tail' u /\ tail' mod ll = tail mod ll) /\
  forall q seq', 0 <= q < ll -> aligned q -> starts nonce seq' (block d' (pos_block q)) = true -> seq' < seq \/ (seq' = seq /\ q = tail mod ll).
Proof using Hl.
  intros L Er Hpl Hby Hsq Hfit Hu Hpa. pose proof L as []. pose proof ll_pos. pose proof Hpa as [Hout Hin].
  assert (aligned (tail mod ll)) as Hat by (apply aligned_mod, lg_tail).
  assert (aligned (zlen r)) as Har by (rewrite Er, zlen_record; apply rec_size_spec, zlen_nonneg).
  pose proof (log_bytes_sizes crc32c nonce l Hl d lg_bytes) as Hsz. destruct lg_chain as (n & tail' & HC & Et).
  assert (on_ring l start start 0) as Hr0 by (destruct lg_start; split_and!; [lia|lia|done|lia|by rewrite Z.add_0_r]).
  destruct (chain_ring crc32c dec_ops nonce l Hl _ _ start _ _ _ _ _ _ _ _ Hsz Hr0 HC) as (Hr & _ & _).
  split_and!; [| |by eapply stale_partly].
  - intros q Hq. destruct (decide (tail mod ll <= q < tail mod ll + zlen r)) as [Hi|Hi]; [|rewrite Hout by done; by apply lg_bytes].
    assert (pos_block q = pos_block (q / PAGE * PAGE)) as -> by (unfold MetaChain.pos_block; by rewrite Z.div_mul).
    pose proof (Z.div_mod q 4096 ltac:(lia)) as D. pose proof (Z.mod_pos_bound q 4096 ltac:(lia)). change PAGE with 4096 in *.
    assert (tail mod ll <= q / 4096 * 4096).
    { unfold aligned in Hat. change PAGE with 4096 in Hat. pose proof (Z.div_mod (tail mod ll) 4096 ltac:(lia)). lia. }
    assert (0 <= q / 4096 * 4096 < ll) as Hq' by lia.
    destruct (inside_page (tail mod ll) r (q / 4096 * 4096) Hat) as (i & Hi' & Eq); [unfold aligned; change PAGE with 4096; apply Z.mod_mul; lia|unfold inside; lia|done|]. change PAGE with 4096 in *.
    rewrite Eq in *. eapply part_bytes; [by apply lg_bytes|by apply all_bytes_slice|by apply Hin].
  - exists n, tail'. split_and!; try done. eapply (chain_same crc32c dec_ops nonce l Hl d d' n start); [done|done|exact HC|].
    intros v Hv. apply Hout; [apply Z.mod_pos_bound; lia|]. destruct Hr as (_ & _ & _ & Hm). destruct lg_start. apply (ring_apart start u); try lia.
Qed.

Lemma norm_at start tail' u : on_ring l start tail' u -> norm ll tail' u = (tail' mod ll, u).
Proof using Hl.
  intros H. destruct (norm ll tail' u) as [p v] eqn:E. destruct (norm_ring l Hl _ _ _ _ _ H E) as (Hp & _ & -> & Hs). f_equal.
  unfold norm in E. destruct H as (Ht & _). destruct (Z.leb_spec ll tail'); injection E as <-; [|by rewrite Z.mod_small by lia].
  assert (tail' = ll) as -> by lia. rewrite Z.mod_same by lia. done.
Qed.

Section Arriving.
Context (d d' : disk) (start seq0 tail seq u : Z) (ov : Overlay) (kind : Z) (p r : bytes).
Context (L : log_ok d start seq0 tail seq u ov) (Er : r = record crc32c nonce seq kind p) (Hpl : plain r) (Hby : all_bytes r) (Hsq : u64_ok seq).
Context (Hfit : tail mod ll + zlen r <= ll) (Hu : u + zlen r <= ll) (Hpa : partly d d' (tail mod ll) r).

(** The record did not arrive, or not as one that checks. *)
Lemma log_torn : rec_at d' (tail mod ll) seq = None -> log_ok d' start seq0 tail seq u ov.
Proof using All.
  intros HN. destruct (log_partly _ _ _ _ _ _ _ _ _ _ _ L Er Hpl Hby Hsq Hfit Hu Hpa) as (H1 & (n & tail' & HC & _ & Et) & H3).
  pose proof L as []. split; try done. by exists n, tail'.
Qed.

Lemma no_next t : aligned t -> rec_at d' (t mod ll) (seq + 1) = None.
Proof using All.
  intros Ht. destruct (log_partly _ _ _ _ _ _ _ _ _ _ _ L Er Hpl Hby Hsq Hfit Hu Hpa) as (_ & _ & H3). pose proof ll_pos.
  destruct (rec_at d' (t mod ll) (seq + 1)) eqn:E; [|done]. apply rec_at_start in E; [|by apply aligned_mod].
  apply H3 in E; [lia|apply Z.mod_pos_bound; lia|by apply aligned_mod].
Qed.

(** The record arrived: its changes are the log's. *)
Lemma log_grown k pl size ops :
  rec_at d' (tail mod ll) seq = Some (k, pl, size) -> k <> 1 -> dec_ops pl = Some ops -> u + size + PAGE <= ll ->
  log_ok d' start seq0 (tail mod ll + size) (seq + 1) (u + size) (overlay_all ov ops).
Proof using All.
  intros HR Hk Hd Hsz. destruct (log_partly _ _ _ _ _ _ _ _ _ _ _ L Er Hpl Hby Hsq Hfit Hu Hpa) as (H1 & (n & tail' & HC & Hr & Et) & H3).
  pose proof L as []. pose proof ll_pos. pose proof (Z.mod_pos_bound tail ll ltac:(lia)) as Hb.
  assert (aligned (tail mod ll)) as Hat by (apply aligned_mod, lg_tail).
  destruct (rec_at_size _ _ l Hl _ _ _ _ _ _ HR) as [Has Hf].
  pose proof (log_bytes_sizes crc32c nonce l Hl d' H1 _ _ _ _ _ Hb Hat HR) as Hpg.
  split; [done|done|split; [unfold PAGE in Hpg; lia|by apply aligned_add]|unfold PAGE in *; lia| | |by apply no_next, aligned_add].
  - exists (n + 1)%nat, (tail mod ll + size). split; [|done]. eapply chain_trans; [exact HC|].
    eapply ChainRec; [by apply (norm_at start)|unfold PAGE in *; lia|rewrite Et; exact HR|done|exact Hd|]. rewrite Et. constructor.
  - intros q seq' Hq Ha Hs. apply H3 in Hs; [lia|done..].
Qed.

(** A record that says to go on at the ring's start did. *)
Lemma log_wrapped pl size :
  rec_at d' (tail mod ll) seq = Some (1, pl, size) -> u + (ll - tail mod ll) + PAGE <= ll ->
  log_ok d' start seq0 0 (seq + 1) (u + (ll - tail mod ll)) ov.
Proof using All.
  intros HR Hsz. destruct (log_partly _ _ _ _ _ _ _ _ _ _ _ L Er Hpl Hby Hsq Hfit Hu Hpa) as (H1 & (n & tail' & HC & Hr & Et) & H3).
  pose proof L as []. pose proof ll_pos. pose proof (Z.mod_pos_bound tail ll ltac:(lia)) as Hb.
  split; [done|done|split; [lia|done]|unfold PAGE in *; lia| | |by apply no_next].
  - exists (n + 1)%nat, 0. split; [|done]. eapply chain_trans; [exact HC|].
    eapply ChainWrap; [by apply (norm_at start)|unfold PAGE in *; lia|rewrite Et; exact HR|]. rewrite Et. constructor.
  - intros q seq' Hq Ha Hs. apply H3 in Hs; [lia|done..].
Qed.
End Arriving.

(** On a formatted region: an empty log, and nothing like a record of it. *)
Lemma log_empty d seq : log_bytes l d -> (forall q seq', 0 <= q < ll -> starts nonce seq' (block d (pos_block q)) = false) -> log_ok d 0 seq 0 seq 0 overlay0.
Proof using Hl.
  intros Hb Hn. pose proof ll_pos. split; [done|split; [lia|done]|split; [lia|done]|unfold PAGE; lia| | |].
  - exists 0%nat, 0. split; [constructor|done].
  - intros q seq' Hq _ Hs. by rewrite Hn in Hs.
  - rewrite Z.mod_0_l by lia. destruct (rec_at d 0 seq) eqn:E; [|done]. apply rec_at_start in E; [|done]. rewrite Hn in E by lia. done.
Qed.
End Disk.
