(* ===== verification/MetaOpen.v ===== *)
(** What a disk that holds a metadata store looks like, and what the store in memory has to
    do with it: the invariant of [volume/metav2.rs], [open] and [format]. Opening and
    formatting the metadata store: [open] on a disk that holds a store gives that store
    back, and [format] makes an empty one. Ending a checkpoint of the metadata store: the
    pages it took are given back ([undo_fresh]), or those it replaced are freed. *)

From S2P Require Import Prelude ExtMap MetaPage MetaPageProofs MetaTree MetaTreePages MetaTreeApply MetaTreeWrite MetaLog MetaRecord MetaChain MetaLogDisk.
#[local] Open Scope meta_scope.

Lemma for_size_ok size l : 0 <= size < 2 ^ 64 -> for_size size = Ok l -> layout_ok l /\ log_len l <= 2 ^ 26.
Proof.
  intros Hs. unfold for_size. set (n := size / PAGE * PAGE). assert (n <= size) as Hn.
  { unfold n, PAGE. pose proof (Z.mul_div_le size 4096 ltac:(lia)). lia. }
  destruct (Z.ltb_spec n (64 * PAGE)) as [|Hb]; [done|]. set (c := clamp (16 * PAGE) (Z.shiftl 64 20) (n / 8)). intros [= <-].
  assert (16 * 4096 <= c /\ c <= 2 ^ 26 /\ c <= Z.max (16 * 4096) (n / 8)) as (H1 & H2 & H3).
  { unfold c, clamp, PAGE. change (Z.shiftl 64 20) with (2 ^ 26). destruct (Z.ltb_spec (n / 8) (16 * 4096)); [lia|].
    destruct (Z.ltb_spec (2 ^ 26) (n / 8)); lia. }
  unfold layout_ok. cbn [log_off log_len page_off page_count]. change PAGE with 4096 in *.
  pose proof (Z.mul_div_le c 4096 ltac:(lia)) as H4. assert (16 <= c / 4096) as H5 by (apply Z.div_le_lower_bound; lia).
  assert (n / 8 * 8 <= n) as H6 by (pose proof (Z.mul_div_le n 8 ltac:(lia)); lia).
  pose proof (Z.mul_div_le (n - (2 * 4096 + c / 4096 * 4096)) 4096 ltac:(lia)) as H7.
  split; [|lia]. split_and!; [done|lia|by apply Z.mod_mul|done|apply Z.div_pos; lia|lia].
Qed.

Section Image.
Context (crc32c : bytes -> Z) (dec_ops : bytes -> option (list Op)) (l : Layout) (Hl : layout_ok l).
Abbreviation ll := (log_len l).

(** What page [p] of a disk holds. *)
Definition node_on (d : disk) (p : Z) : option Node :=
  match decode crc32c p (block d (page_off l / PAGE + p)) with Ok n => Some n | Err _ => None end.
Definition tree_on (d : disk) (r : Z) (es : list (Key * bytes)) (pgs : list Z) : Prop :=
  (r = EMPTY /\ es = [] /\ pgs = []) \/ (r <> EMPTY /\ exists n, Z.of_nat n < 256 /\ tree (node_on d) n None None r es pgs).
Definition sb_at (d : disk) (i : Z) : option Superblock := sb_from_bytes crc32c (block d i).
(** The newer superblock of the two. *)
Definition chosen (d : disk) (sb : Superblock) : Prop :=
  exists i, (i = 0 \/ i = 1) /\ sb_at d i = Some sb /\ forall sb', sb_at d (1 - i) = Some sb' -> sb_layout sb' = l /\ sb_gen sb' < sb_gen sb.

(** A store on a disk: the superblock that counts, the tree it names, and the log behind
    it, [u] bytes up to [tail], with the changes [ov] in it. *)
Record image (d : disk) (sb : Superblock) (es : list (Key * bytes)) (pgs : list Z) (tail seq u : Z) (ov : Overlay) : Prop := {
  im_chosen : chosen d sb;
  im_sb : sb_ok sb /\ sb_layout sb = l;
  im_tree : tree_on d (sb_root sb) es pgs;
  im_pages : NoDup pgs /\ Forall (fun p => 0 <= p < page_count l) pgs;
  im_es : es_ok None None es;
  im_log : log_ok crc32c dec_ops (sb_nonce sb) l d (sb_log_start sb) (sb_log_seq sb) tail seq u ov;
  im_ov : ov_ok ov }.
(** A disk that holds the store [m]. *)
Definition stored (d : disk) (m : MStore) : Prop :=
  exists sb es pgs tail seq u ov, image d sb es pgs tail seq u ov /\ shows (list_to_map es) ov m.
Lemma stored_intro d sb es pgs tail seq u ov m : image d sb es pgs tail seq u ov -> shows (list_to_map es) ov m -> stored d m.
Proof. intros H1 H2. by exists sb, es, pgs, tail, seq, u, ov. Qed.

(** The superblock a store would have been opened from. *)
Definition sb_of (s : MetaV2) (seq0 : Z) : Superblock := mkSb (gen s) (root s) (log_start s) seq0 (layout s) (nonce s).
Definition blk (p : Z) : Z := page_off l / PAGE + p.

(** Between operations: the disk holds the store [dur] for certain, reads show [mem], and
    what else is written is on pages not in use. *)
Record Inv (s : MetaV2) (mem dur : MStore) (es : list (Key * bytes)) (pgs : list Z) (seq0 : Z) (ovl : Overlay) : Prop := {
  i_wf : wf crc32c s;
  i_layout : layout s = l;
  i_clean : fresh s = [] /\ retired s = [] /\ unsure s = false;
  i_cached : Forall (fun w => exists p, 0 <= p < page_count l /\ is_used s p = false /\ fst w = blk p /\ zlen (snd w) = PAGE) (cached (dev s));
  i_used p : 0 <= p -> is_used s p = bool_decide (p ∈ pgs);
  i_image : image (durable (dev s)) (sb_of s seq0) es pgs (log_tail s) (next_seq s) (log_used s) ovl;
  i_mem : shows (list_to_map es) (overlay s) mem;
  i_dur : shows (list_to_map es) ovl dur;
  i_ov : ov_ok (overlay s) }.
(** ([Sound]) for some tree and log. *)
Definition Sound (s : MetaV2) (mem dur : MStore) : Prop := exists es pgs seq0 ovl, Inv s mem dur es pgs seq0 ovl.

(** ** What the image depends on *)

Lemma page_first : page_off l / PAGE = 2 + ll / PAGE.
Proof using Hl. by apply page_off_blocks. Qed.
Lemma pos_block_lt p : 0 <= p < ll -> 2 <= pos_block l p < page_off l / PAGE.
Proof using Hl.
  intros Hp. destruct Hl as (Ho & _ & Hm & _). rewrite page_first. unfold pos_block. rewrite Ho, Z.div_mul by done.
  assert (p / PAGE < ll / PAGE); [|pose proof (Z.div_pos p PAGE); unfold PAGE in *; lia].
  change PAGE with 4096 in *. apply Z.div_lt_upper_bound; [lia|]. pose proof (Z.div_mod ll 4096 ltac:(lia)). lia.
Qed.
Lemma page_first_pos : 2 <= page_off l / PAGE.
Proof using Hl. rewrite page_first. destruct Hl as (_ & H & _). pose proof (Z.div_pos ll PAGE). unfold PAGE in *. lia. Qed.

Lemma tree_on_same d d' r es pgs : (forall p, p ∈ pgs -> block d' (blk p) = block d (blk p)) -> tree_on d r es pgs -> tree_on d' r es pgs.
Proof.
  intros Hb [H|(Hr & n & Hn & HT)]; [by left|right]. split; [done|]. exists n. split; [done|]. eapply tree_rd; [|exact HT].
  intros q Hq. unfold node_on. change (page_off l / PAGE + q) with (blk q). by rewrite Hb.
Qed.
Lemma chosen_same d d' sb : block d' 0 = block d 0 -> block d' 1 = block d 1 -> chosen d sb -> chosen d' sb.
Proof.
  intros H0 H1 (i & Hi & Hs & Hn). exists i. unfold sb_at in *. split; [done|].
  destruct Hi as [-> | ->]; [change (1 - 0) with 1 in *|change (1 - 1) with 0 in *]; by rewrite H0, H1.
Qed.
(** Writing pages that are not the tree's changes nothing of it. *)
Lemma image_same d d' sb es pgs tail seq u ov :
  (forall i, (i = 0 \/ i = 1 \/ (exists p, 0 <= p < ll /\ i = pos_block l p) \/ (exists p, p ∈ pgs /\ i = blk p)) -> block d' i = block d i) ->
  image d sb es pgs tail seq u ov -> image d' sb es pgs tail seq u ov.
Proof using Hl.
  intros Hb []. split; try done.
  - eapply chosen_same; [| |done]; apply Hb; auto.
  - eapply tree_on_same; [|done]. intros p Hp. apply Hb. right; right; right. by exists p.
  - eapply log_same; [done| |done]. intros p Hp. apply Hb. right; right; left. by exists p.
Qed.

(** Blocks written that are pages not in use. *)
Definition spare (pgs : list Z) (ws : list (Z * bytes)) : Prop :=
  Forall (fun w => exists p, 0 <= p < page_count l /\ (p ∉ pgs) /\ fst w = blk p) ws.
Lemma spare_app pgs a b : spare pgs (a ++ b) <-> spare pgs a /\ spare pgs b.
Proof. apply Forall_app. Qed.
Lemma spare_not pgs ws i : spare pgs ws ->
  (i = 0 \/ i = 1 \/ (exists p, 0 <= p < ll /\ i = pos_block l p) \/ (exists p, p ∈ pgs /\ i = blk p)) -> i ∉ map fst ws.
Proof using Hl.
  intros Hs Hi (w & -> & Hw)%list_elem_of_fmap. unfold spare in Hs. rewrite Forall_forall in Hs. destruct (Hs w Hw) as (p & Hp & Hn & E).
  pose proof page_first_pos. unfold blk in *. destruct Hi as [Hi|[Hi|[(q & Hq & Hi)|(q & Hq & Hi)]]]; [lia|lia| |].
  - pose proof (pos_block_lt q Hq). lia.
  - assert (p = q) as -> by lia. done.
Qed.
Lemma image_lands o d ws d' sb es pgs tail seq u ov : spare pgs ws -> lands o d ws d' -> image d sb es pgs tail seq u ov -> image d' sb es pgs tail seq u ov.
Proof using Hl. intros Hs HL. apply image_same. intros i Hi. eapply lands_other; [exact HL|]. by eapply spare_not. Qed.
Lemma image_land_all d ws sb es pgs tail seq u ov : spare pgs ws -> image d sb es pgs tail seq u ov -> image (land_all d ws) sb es pgs tail seq u ov.
Proof using Hl. intros Hs. apply (image_lands false d ws); [done|apply lands_all]. Qed.

(** ** What the invariant gives *)

Lemma sb_of_root s seq0 : sb_root (sb_of s seq0) = root s.
Proof. done. Qed.

Section Of_inv.
Context (s : MetaV2) (mem dur : MStore) (es : list (Key * bytes)) (pgs : list Z) (seq0 : Z) (ovl : Overlay) (I : Inv s mem dur es pgs seq0 ovl).

Lemma inv_spare : spare pgs (cached (dev s)).
Proof using I.
  eapply Forall_impl; [exact (i_cached _ _ _ _ _ _ _ I)|]. intros w (p & Hp & Hu & Hw & _). exists p. split_and!; [lia|lia| |done].
  rewrite (i_used _ _ _ _ _ _ _ I) in Hu by lia. by apply bool_decide_eq_false in Hu.
Qed.
(** Whatever a power cut leaves holds the durable store. *)
Lemma inv_cut o d : cut o (dev s) d -> image d (sb_of s seq0) es pgs (log_tail s) (next_seq s) (log_used s) ovl.
Proof using Hl I. intros H. eapply image_lands; [exact inv_spare|exact H|apply I]. Qed.
Lemma inv_view : image (view (dev s)) (sb_of s seq0) es pgs (log_tail s) (next_seq s) (log_used s) ovl.
Proof using Hl I. eapply (inv_cut false), lands_all. Qed.
Lemma inv_holds : holds crc32c s (root s) es pgs.
Proof using Hl I.
  pose proof (im_tree _ _ _ _ _ _ _ _ inv_view) as H. unfold holds, page_node, page_block. rewrite (i_layout _ _ _ _ _ _ _ I). exact H.
Qed.
Lemma inv_live : live s pgs.
Proof using Hl I.
  destruct (im_pages _ _ _ _ _ _ _ _ inv_view) as [Hn Hb]. destruct (i_clean _ _ _ _ _ _ _ I) as (_ & Hr & _).
  split_and!; [|done|rewrite Hr; apply Forall_forall; intros p _; apply not_elem_of_nil].
  apply Forall_forall. intros p Hp. rewrite Forall_forall in Hb. rewrite (i_layout _ _ _ _ _ _ _ I). split; [by apply Hb|].
  rewrite (i_used _ _ _ _ _ _ _ I) by (by apply Hb). by apply bool_decide_eq_true_2.
Qed.
End Of_inv.

Lemma sound_cut s mem dur o d : Sound s mem dur -> cut o (dev s) d -> stored d dur.
Proof using Hl.
  intros (es & pgs & seq0 & ovl & I) HL. exists (sb_of s seq0), es, pgs, (log_tail s), (next_seq s), (log_used s), ovl.
  split; [by eapply inv_cut|apply I].
Qed.

(** ** Opening *)

(** [m] on a device that does not fail does not fail with it, nor for want of pages. *)
Definition quiet {A} (m : M A) : Prop := forall s, faults (dev s) = [] ->
  match m s with (Ok _, s') => faults (dev s') = [] | (Err e, _) => ~ soft e end.
Lemma quiet_bind {A B} (m : M A) (k : A -> M B) : quiet m -> (forall a, quiet (k a)) -> quiet (bind m k).
Proof. intros H1 H2 s Hf. unfold bind. specialize (H1 s Hf). destruct (m s) as [[a|e] s']; [by apply H2|done]. Qed.
Lemma quiet_ret {A} (a : A) : quiet (ret a).
Proof. by intros s Hf. Qed.
Lemma quiet_gets {A} (f : MetaV2 -> A) : quiet (gets f).
Proof. by intros s Hf. Qed.
Lemma quiet_modify f : (forall s, dev (f s) = dev s) -> quiet (modify f).
Proof. intros H s Hf. cbn. by rewrite H. Qed.
Lemma quiet_read off n : quiet (dev_read off n).
Proof. intros s Hf. unfold dev_read. rewrite dev_op_quiet by done. done. Qed.
Lemma quiet_fail {A} e : ~ soft e -> quiet (fail e : M A).
Proof. by intros H s Hf. Qed.
Lemma quiet_lift {A} (r : result MetaErr A) : (forall e, r = Err e -> ~ soft e) -> quiet (lift r).
Proof. intros H s Hf. cbn. destruct r; [done|]. by apply H. Qed.
Ltac hard := intros [?|[?|?]]; done.
Lemma read_leaf_hard p b n o e : read_leaf p b n o = Err e -> ~ soft e.
Proof.
  revert o. induction n as [|n IH]; intros o; [done|]. cbn [read_leaf]. destruct (_ <? _); [intros [= <-]; hard|]. destruct (_ <? _); [intros [= <-]; hard|].
  specialize (IH (o + LEAF_ENTRY + rd_u16 b (o + KEY_LEN))). destruct (read_leaf _ _ _ _); cbn; [done|]. intros [= <-]. by apply IH.
Qed.
Lemma decode_hard p b e : decode crc32c p b = Err e -> ~ soft e.
Proof.
  unfold decode. destruct (negb _); [intros [= <-]; hard|]. destruct (negb _); [intros [= <-]; hard|]. destruct (_ =? _).
  - pose proof (read_leaf_hard p b (Z.to_nat (rd_u16 b 6)) PAGE_HEADER) as H. destruct (read_leaf _ _ _ _); cbn; [done|]. intros [= <-]. by apply H.
  - destruct (_ =? _); [|intros [= <-]; hard]. destruct (_ || _); [intros [= <-]; hard|done].
Qed.
Lemma quiet_node p : quiet (node crc32c p).
Proof.
  intros s Hf. unfold node. destruct (internal s !! p); [done|]. apply (quiet_bind (read_page crc32c p)); [| |exact Hf]; clear s Hf.
  - intros s Hf. unfold read_page. destruct (_ <=? _); [hard|].
    apply (quiet_bind (dev_read (page_at s p) PAGE) (fun b => lift (decode crc32c p b))); [apply quiet_read| |done].
    intros b. apply quiet_lift, decode_hard.
  - intros n. apply quiet_bind; [|intros _; apply quiet_ret]. apply quiet_modify. by destruct (is_internal n).
Qed.
Lemma quiet_mark p : quiet (mark p).
Proof. intros s Hf. unfold mark. destruct (past s p); [hard|done]. Qed.
Lemma quiet_each {A} (f : A -> M ()) xs : (forall x, quiet (f x)) -> quiet (each f xs).
Proof. intros H. induction xs as [|x xs IH]; [apply quiet_ret|]. apply quiet_bind; [done|intros _; exact IH]. Qed.
Lemma quiet_mark_loop fuel : forall st, quiet (mark_loop crc32c fuel st).
Proof.
  induction fuel as [|fuel IH]; intros [|p st]; cbn [mark_loop]; [apply quiet_ret|apply quiet_fail; hard|apply quiet_ret|].
  apply quiet_bind; [apply quiet_mark|intros _]. apply quiet_bind; [apply quiet_node|intros [es|level cs]]; [apply IH|].
  destruct (level =? 1); [|apply IH]. apply quiet_bind; [apply quiet_each; intros c; apply quiet_mark|intros _; apply IH].
Qed.
Lemma quiet_mark_reachable : quiet (mark_reachable crc32c).
Proof.
  unfold mark_reachable. apply quiet_bind; [apply quiet_gets|intros r]. apply quiet_bind; [apply quiet_node|intros [es|level cs]].
  - by apply quiet_modify.
  - apply quiet_bind; [apply quiet_gets|intros c]. apply quiet_mark_loop.
Qed.
Lemma quiet_scan_loop fuel ov : forall st, quiet (scan_loop crc32c fuel st ov).
Proof.
  induction fuel as [|fuel IH]; intros [|p st]; cbn [scan_loop]; [apply quiet_ret|apply quiet_fail; hard|apply quiet_ret|].
  apply quiet_bind; [apply quiet_node|intros [es|level cs]]; [|apply IH]. apply quiet_bind; [apply IH|intros r; apply quiet_ret].
Qed.
Lemma quiet_range_loop fuel lo hi ov : forall st, quiet (range_loop crc32c fuel lo hi st ov).
Proof.
  induction fuel as [|fuel IH]; intros [|[[p pl] ph] st]; cbn [range_loop]; [apply quiet_ret|apply quiet_fail; hard|apply quiet_ret|].
  apply quiet_bind; [apply quiet_node|intros [es|level cs]]; [|apply IH]. apply quiet_bind; [apply IH|intros r; apply quiet_ret].
Qed.
Lemma quiet_scan : quiet (scan crc32c).
Proof.
  unfold scan. do 3 (apply quiet_bind; [apply quiet_gets|intros ?]). apply quiet_bind; [|intros ?; apply quiet_ret].
  destruct (_ =? _); [apply quiet_ret|apply quiet_scan_loop].
Qed.
Lemma quiet_scan_range lo hi : quiet (scan_range crc32c lo hi).
Proof.
  unfold scan_range. do 3 (apply quiet_bind; [apply quiet_gets|intros ?]). apply quiet_bind; [|intros ?; apply quiet_ret].
  destruct (_ =? _); [apply quiet_ret|apply quiet_range_loop].
Qed.
End Image.

#[local] Open Scope meta_scope.

Lemma is_used_zeros n p s : used s = replicate n 0 -> is_used s p = false.
Proof.
  intros E. unfold is_used. rewrite E. assert (forall i, nth i (replicate n 0) 0 = 0) as ->; [|by rewrite Z.bits_0].
  clear. induction n as [|n IH]; intros [|i]; cbn; auto.
Qed.

Section Open.
Context (crc32c : bytes -> Z) (dec_ops : bytes -> option (list Op)) (l : Layout) (Hl : layout_ok l).
Abbreviation ll := (log_len l).
Abbreviation image := (image crc32c dec_ops l).
Abbreviation Inv := (Inv crc32c dec_ops l).
Abbreviation sb_at := (sb_at crc32c).

(** ** Bookkeeping that is not the tree's *)

Lemma wf_set_log a b c d s : wf crc32c s -> wf crc32c (set_log a b c d s).
Proof. intros []. by split. Qed.
Lemma wf_set_overlay o s : wf crc32c s -> wf crc32c (set_overlay o s).
Proof. intros []. by split. Qed.
Lemma wf_set_root g r s : wf crc32c s -> wf crc32c (set_root g r s).
Proof. intros []. by split. Qed.
Lemma wf_set_unsure s : wf crc32c s -> wf crc32c (set_unsure s).
Proof. intros []. by split. Qed.

(** ** The superblock *)

Lemma pick_quiet i best s : faults (dev s) = [] ->
  pick crc32c l i best s =
    (match sb_at (view (dev s)) i with
     | None => Ok best
     | Some sb => if negb (bool_decide (sb_layout sb = l)) then Err OtherRegion
                  else Ok (match best with Some x => if sb_gen x <? sb_gen sb then Some sb else best | None => Some sb end)
     end, s).
Proof.
  intros Hf. unfold pick, bind. rewrite try_read_quiet by done. rewrite read_block. unfold MetaOpen.sb_at.
  destruct (sb_from_bytes crc32c _) as [sb|]; [|done]. by destruct (negb _).
Qed.
Lemma pick_chosen d sb s : chosen crc32c l d sb -> sb_layout sb = l -> dev s = power_on d [] ->
  (do b := pick crc32c l 0 None in pick crc32c l 1 b) s = (Ok (Some sb), s).
Proof.
  intros (i & Hi & Hs & Hn) HL Hd. assert (view (dev s) = d) as Hv by by rewrite Hd. assert (faults (dev s) = []) as Hf by by rewrite Hd.
  unfold bind. rewrite pick_quiet, Hv by done. destruct Hi as [-> | ->].
  - change (1 - 0) with 1 in Hn. rewrite Hs, bool_decide_eq_true_2 by done. cbn [negb]. rewrite pick_quiet, Hv by done.
    destruct (sb_at d 1) as [sb'|]; [|done]. destruct (Hn sb' eq_refl) as [-> Hg]. rewrite bool_decide_eq_true_2 by done. cbn [negb].
    destruct (Z.ltb_spec (sb_gen sb) (sb_gen sb')); [lia|done].
  - change (1 - 1) with 0 in Hn. destruct (sb_at d 0) as [sb'|].
    + destruct (Hn sb' eq_refl) as [-> Hg]. rewrite bool_decide_eq_true_2 by done. cbn [negb]. rewrite pick_quiet, Hv, Hs by done.
      rewrite bool_decide_eq_true_2 by done. cbn [negb]. by destruct (Z.ltb_spec (sb_gen sb') (sb_gen sb)); [|lia].
    + rewrite pick_quiet, Hv, Hs by done. by rewrite bool_decide_eq_true_2.
Qed.

(** ** The tree's pages *)

Lemma marking_new d sb r : marking crc32c r (new_store d l sb).
Proof using Hl.
  split; cbn; try done.
  - by apply Forall_replicate.
  - unfold zlen. rewrite length_replicate. pose proof (div_ceil_mul (page_count l) 64 ltac:(lia)).
    destruct Hl as (_ & _ & _ & _ & Hp & _). lia.
Qed.
Lemma marked_opened d sb es pgs :
  tree_on crc32c l d (sb_root sb) es pgs -> NoDup pgs -> Forall (fun p => 0 <= p < page_count l) pgs ->
  exists s', (if sb_root sb =? EMPTY then ret () else mark_reachable crc32c) (new_store (power_on d []) l sb) = (Ok (), s') /\
    marked (new_store (power_on d []) l sb) s' pgs /\ wf crc32c s' /\ faults (dev s') = [].
Proof using Hl.
  intros HT Hn Hb. set (s := new_store (power_on d []) l sb). destruct HT as [(Er & -> & ->)|(Hr & n & _ & HT)].
  - rewrite Er, Z.eqb_refl. exists s. split_and!; [done|by apply marked_none| |done].
    by destruct (marking_new (power_on d []) sb 0).
  - destruct (Z.eqb_spec (sb_root sb) EMPTY); [done|].
    assert (unmarked s pgs) as Hun.
    { split; [done|]. eapply Forall_impl; [exact Hb|]. intros p Hp. split; [exact Hp|]. by eapply is_used_zeros. }
    pose proof (mark_reachable_spec crc32c s es pgs n (marking_new _ _ _) Hun HT) as HM. pose proof (quiet_mark_reachable crc32c s eq_refl) as HQ.
    unfold wp in HM. destruct (mark_reachable crc32c s) as [[[]|e] s'] eqn:E; [|destruct HQ; by left].
    exists s'. destruct HM as [HM1 HM2]. split_and!; try done; by rewrite E.
Qed.

(** ** The log *)

Lemma replay_opened d sb tail seq u ov s :
  log_ok crc32c dec_ops (sb_nonce sb) l d (sb_log_start sb) (sb_log_seq sb) tail seq u ov ->
  dev s = power_on d [] -> fixed s = fixed (new_store (power_on d []) l sb) ->
  replay crc32c dec_ops s = (Ok (), set_log (sb_log_start sb) (tail mod ll) seq u (set_overlay ov s)).
Proof using Hl.
  intros L Hd Hfx. pose proof L as []. pose proof (ll_pos l Hl). unfold fixed in Hfx. injection Hfx as F1 F2 F3 F4 F5 F6 F7 F8 F9 F10 F11.
  assert (view (dev s) = d) as Hv by by rewrite Hd. assert (faults (dev s) = []) as Hf by by rewrite Hd.
  destruct lg_chain as (n & tail' & HC & Et). pose proof (log_bytes_sizes crc32c (sb_nonce sb) l Hl d lg_bytes) as Hsz.
  assert (on_ring l (sb_log_start sb) (sb_log_start sb) 0) as Hr0 by (destruct lg_start; split_and!; [lia|lia|done|lia|by rewrite Z.add_0_r]).
  destruct (chain_ring crc32c dec_ops (sb_nonce sb) l Hl _ _ _ _ _ _ _ _ _ _ _ Hsz Hr0 HC) as (Hr & Hn & _).
  unfold replay, bind at 1 2 3, gets. rewrite F1, F5, F7. unfold bind at 1.
  rewrite (replay_chain crc32c dec_ops (sb_nonce sb) l n (sb_log_start sb) (sb_log_seq sb) 0 overlay0 tail' seq u ov (tail mod ll) u); try done.
  - cbn [modify fst snd]. unfold set_log, set_overlay. cbn. by rewrite F5.
  - by rewrite Hv.
  - rewrite Hv. split_and!; [|unfold PAGE in *; lia|done]. rewrite <- Et. by apply (norm_at l Hl (sb_log_start sb)).
  - unfold replay_fuel. change PAGE with 4096 in *. pose proof (Z.div_le_lower_bound ll 4096 (Z.of_nat n) ltac:(lia) ltac:(lia)). lia.
Qed.

(** [open] gives back the store the disk holds. *)
Lemma open_spec size d sb es pgs tail seq u ov m :
  for_size size = Ok l -> image d sb es pgs tail seq u ov -> shows (list_to_map es) ov m ->
  exists st, open crc32c dec_ops (power_on d []) size = Ok (Some st) /\ Inv st m m es pgs (sb_log_seq sb) ov.
Proof using Hl.
  intros Hfor [Ich Isb Itr Ipg Ies Ilog Iov] Hm. destruct Isb as [Hsb HL]. destruct Ipg as [Hn Hb]. unfold open. rewrite Hfor.
  rewrite (pick_chosen d sb) by done. change (dev (new_store _ _ _)) with (power_on d []) at 1.
  destruct (marked_opened d sb es pgs Itr Hn Hb) as (s' & E & X & W & Hf). unfold bind at 1. rewrite E.
  assert (dev s' = power_on d []) as Hd.
  { pose proof (mk_durable _ _ _ X) as E1. pose proof (mk_cached _ _ _ X) as E2. destruct (dev s'); cbn in *. by subst. }
  rewrite (replay_opened d sb tail seq u ov s') by (done || apply (mk_fixed _ _ _ X)).
  eexists. split; [done|]. pose proof (mk_fixed _ _ _ X) as Hfx. unfold fixed in Hfx. injection Hfx as F1 F2 F3 F4 F5 F6 F7 F8 F9 F10 F11.
  split; cbn; try done.
  - by apply wf_set_log, wf_set_overlay.
  - by rewrite (mk_fresh _ _ _ X), (mk_retired _ _ _ X), F11.
  - rewrite Hd. by apply Forall_nil.
  - intros p Hp. change (is_used s' p = bool_decide (p ∈ pgs)). rewrite (mk_used _ _ _ X) by done. erewrite is_used_zeros by done. done.
  - rewrite Hd. assert (sb_of (set_log (sb_log_start sb) (tail mod ll) seq u (set_overlay ov s')) (sb_log_seq sb) = sb) as ->.
    { unfold sb_of. cbn. rewrite F1, F2, F3, F4. destruct sb. cbn in *. by subst. }
    split; try done. by apply log_tail_mod.
Qed.

(** ** Formatting *)

Lemma sb_zeros : sb_from_bytes crc32c (zeros PAGE) = None.
Proof. unfold sb_from_bytes. rewrite slice_zeros by (unfold PAGE; lia). rewrite bool_decide_eq_false_2; [done|]. by vm_compute. Qed.
Lemma starts_zeros nonce seq : starts nonce seq (zeros PAGE) = false.
Proof. unfold starts. rewrite slice_zeros by (unfold PAGE; lia). rewrite bool_decide_eq_false_2; [done|]. by vm_compute. Qed.
Lemma u64_lor a b : u64_ok a -> u64_ok b -> u64_ok (Z.lor a b).
Proof.
  unfold u64_ok. intros Ha Hb. split; [apply Z.lor_nonneg; lia|]. apply Z.nle_gt. intros H.
  pose proof (Z.bit_log2 (Z.lor a b) ltac:(lia)) as B. rewrite Z.lor_spec in B. assert (64 <= Z.log2 (Z.lor a b)) by (apply Z.log2_le_pow2; lia).
  rewrite !Z.bits_above_log2 in B; [done|lia|apply Z.lt_le_trans with 64; [|lia]|lia|apply Z.lt_le_trans with 64; [|lia]].
  - destruct (Z.eq_dec b 0) as [->|]; [done|]. apply Z.log2_lt_pow2; lia.
  - destruct (Z.eq_dec a 0) as [->|]; [done|]. apply Z.log2_lt_pow2; lia.
Qed.

Definition formatted_disk (d : disk) (sb : Superblock) : disk := land_all d ([(1, zeros PAGE)] ++ [(2, zeros PAGE)] ++ [(0, sb_to_bytes crc32c sb)]).
Lemma three_writes o1 b1 o2 b2 o3 b3 s : faults (dev s) = [] ->
  (dev_write o1 b1 ;; dev_write o2 b2 ;; dev_write o3 b3 ;; dev_flush) s =
    (Ok (), set_dev (mkDev (land_all (view (dev s)) (blocks_of o1 b1 ++ blocks_of o2 b2 ++ blocks_of o3 b3)) [] []) s).
Proof.
  intros Hf. unfold bind, dev_write, dev_flush. rewrite !dev_op_quiet by done. destruct s as [[D C F]]. cbn in Hf. subst F.
  unfold set_dev, view. cbn. by rewrite <- !app_assoc, land_all_app.
Qed.
Lemma format_run d size random : for_size size = Ok l -> faults d = [] ->
  let sb := mkSb 1 EMPTY 0 1 l (Z.lor random 1) in
  format crc32c d size random = (Ok (), set_dev (mkDev (formatted_disk (view d) sb) [] []) (new_store d l sb)).
Proof using Hl.
  intros Hfor Hf sb. unfold format. rewrite Hfor. cbv zeta. fold sb. rewrite three_writes by done. pose proof Hl as (Ho & _). rewrite Ho.
  assert (zlen (zeros PAGE) = PAGE) as Hz by (by apply zlen_zeros). set (z := zeros PAGE) in *.
  pose proof (blocks_of_page 0 _ (zlen_sb crc32c sb)) as E0. set (y := sb_to_bytes crc32c sb) in *.
  pose proof (blocks_of_page 1 z Hz) as E1. rewrite Z.mul_1_l in E1. rewrite E1, (blocks_of_page 2 z Hz). rewrite Z.mul_0_l in E0. rewrite E0. change (dev (new_store d l sb)) with d. reflexivity.
Qed.

Context (Hcrc : forall b, u32_ok (crc32c b)).
Lemma formatted_block d sb i : block (formatted_disk d sb) i =
  if i =? 0 then sb_to_bytes crc32c sb else if (i =? 1) || (i =? 2) then zeros PAGE else block d i.
Proof.
  unfold formatted_disk, block. cbn [app land_all foldl]. unfold land. cbn [fst snd].
  destruct (Z.eqb_spec i 0) as [->|H0]; [by rewrite lookup_insert_eq|]. rewrite lookup_insert_ne by done.
  destruct (Z.eqb_spec i 2) as [->|H2]; [by rewrite lookup_insert_eq|]. rewrite lookup_insert_ne by done.
  destruct (Z.eqb_spec i 1) as [->|H1]; [by rewrite lookup_insert_eq|]. by rewrite lookup_insert_ne.
Qed.
Lemma format_inv d size random : for_size size = Ok l -> faults d = [] -> u64_ok random -> (forall i, all_bytes (block (view d) i)) ->
  (forall q seq, 0 <= q < ll -> starts (Z.lor random 1) seq (block (view d) (pos_block l q)) = false) ->
  exists s, format crc32c d size random = (Ok (), s) /\ Inv s ∅ ∅ [] [] 1 overlay0 /\ gen s = 1 /\ next_seq s = 1 /\ nonce s = Z.lor random 1 /\ dev s = power_on (durable (dev s)) [].
Proof using Hl Hcrc.
  intros Hfor Hf Hr Hby Hst. set (sb := mkSb 1 EMPTY 0 1 l (Z.lor random 1)). eexists. split; [by apply format_run|]. fold sb.
  set (d1 := formatted_disk (view d) sb). split; [|done].
  assert (sb_ok sb) as Hsb.
  { pose proof Hl as (L1 & L2 & L3 & L4 & L5 & L6). unfold sb_ok, sb. cbn. rewrite L4 in L6. unfold PAGE in *.
    pose proof (u64_lor random 1 Hr ltac:(done)). unfold u64_ok, EMPTY, u64max in *. split_and!; try done; lia. }
  assert (forall q, 0 <= q < ll -> all_bytes (block d1 (pos_block l q)) /\ forall seq, starts (Z.lor random 1) seq (block d1 (pos_block l q)) = false) as Hlog.
  { intros q Hq. pose proof (pos_block_lt l Hl q Hq). unfold d1. rewrite formatted_block. destruct (Z.eqb_spec (pos_block l q) 0); [lia|].
    destruct (_ || _); [|split; [apply Hby|intros seq; by apply Hst]]. split; [apply all_bytes_zeros|intros seq; apply starts_zeros]. }
  assert (is_used (set_dev (mkDev d1 [] []) (new_store d l sb)) = is_used (new_store d l sb)) as Hu by done.
  assert (marking crc32c 0 (new_store d l sb)) as K by apply marking_new. split; try done.
  - destruct K. by split.
  - intros p Hp. rewrite Hu, (is_used_zeros (Z.to_nat (div_ceil (page_count l) 64))) by done. by rewrite bool_decide_eq_false_2 by apply not_elem_of_nil.
  - split; try done.
    + pose proof (formatted_block (view d) sb 0) as B0. pose proof (formatted_block (view d) sb 1) as B1. cbn [Z.eqb Pos.eqb orb] in B0, B1.
      exists 0. split; [by left|]. cbn [dev set_dev durable]. change (1 - 0) with 1. unfold MetaOpen.sb_at, d1. rewrite B0, B1.
      split; [by apply sb_roundtrip|]. intros sb'. by rewrite sb_zeros.
    + by left.
    + split; constructor.
    + split_and!; constructor.
    + apply log_empty; [done|intros q Hq; by apply Hlog|intros q seq' Hq; by apply Hlog].
Qed.
End Open.

#[local] Open Scope meta_scope.

(** Between bookkeeping: the pages in [F] are not in use any more. *)
Record cleared (s s' : MetaV2) (F : list Z) : Prop := {
  c_fixed : fixed s' = fixed s;
  c_dev : dev s' = dev s;
  c_lists : fresh s' = fresh s /\ retired s' = retired s;
  c_len : zlen (used s') = zlen (used s);
  c_vals : Forall (fun x => 0 <= x < 2 ^ 64) (used s) -> Forall (fun x => 0 <= x < 2 ^ 64) (used s');
  c_hint : 0 <= hint s -> 0 <= hint s';
  c_used q : 0 <= q -> is_used s' q = is_used s q && negb (bool_decide (q ∈ F));
  c_cache q n : internal s' !! q = Some n -> internal s !! q = Some n }.

Lemma cleared_refl s : cleared s s [].
Proof. split; try done. intros q _. rewrite bool_decide_eq_false_2 by apply not_elem_of_nil. by rewrite andb_true_r. Qed.
Lemma cleared_trans s s1 s2 F G : cleared s s1 F -> cleared s1 s2 G -> cleared s s2 (F ++ G).
Proof.
  intros [] []. split; try congruence; auto.
  - destruct c_lists0, c_lists1. split; congruence.
  - intros q Hq. rewrite c_used1, c_used0 by done. rewrite <- andb_assoc. f_equal.
    rewrite (bool_decide_ext (q ∈ F ++ G) (q ∈ F \/ q ∈ G)) by apply elem_of_app. by rewrite bool_decide_or, negb_orb.
Qed.
Lemma cleared_one p s : 0 <= p -> p < 64 * zlen (used s) -> cleared s (set_used p false s) [p].
Proof.
  intros Hp Hl. split; try done.
  - cbn. unfold zlen. by rewrite length_alter.
  - by apply used_ok_set_used.
  - cbn. intros Hh. pose proof (Z.div_pos p 64 Hp). lia.
  - intros q Hq. rewrite is_used_set_used by done. destruct (Z.eqb_spec p q) as [->|].
    + rewrite bool_decide_eq_true_2 by (by left). by rewrite andb_false_r.
    + rewrite bool_decide_eq_false_2 by (rewrite list_elem_of_singleton; congruence). by rewrite andb_true_r.
Qed.
Lemma cleared_uncache p s s' F : cleared s s' F -> cleared s (uncache p s') F.
Proof. intros []. split; try done. intros q n H. apply c_cache0. cbn in H. by apply lookup_delete_Some in H as [_ ?]. Qed.

(** Clearing one after the other, dropped from the cache or not. *)
Lemma cleared_all (g : Z -> MetaV2 -> MetaV2) F : (forall p s s' G, cleared s s' G -> cleared s (g p s') G) ->
  forall s, Forall (fun p => 0 <= p < 64 * zlen (used s)) F -> cleared s (foldl (fun s p => g p (set_used p false s)) s F) F.
Proof.
  intros Hg. induction F as [|p F IH]; intros s HF; [apply cleared_refl|]. apply Forall_cons in HF as [Hp HF]. cbn [foldl].
  pose proof (Hg p _ _ _ (cleared_one p s ltac:(lia) ltac:(lia))) as H1. eapply (cleared_trans _ _ _ [p]); [exact H1|].
  apply IH. by rewrite (c_len _ _ _ H1).
Qed.
Lemma uncached_stays F p : forall s, internal s !! p = None -> internal (foldl (fun s p => uncache p (set_used p false s)) s F) !! p = None.
Proof. induction F as [|q F IH]; intros s Hs; [done|]. cbn [foldl]. apply IH. cbn. rewrite lookup_delete_None. auto. Qed.
Lemma uncached_all F p : forall s, p ∈ F -> internal (foldl (fun s p => uncache p (set_used p false s)) s F) !! p = None.
Proof.
  induction F as [|q F IH]; intros s Hin; [by apply not_elem_of_nil in Hin|]. cbn [foldl].
  apply elem_of_cons in Hin as [->|Hin]; [|by apply IH]. apply uncached_stays. cbn. apply lookup_delete_eq.
Qed.

Section Undo.
Context (crc32c : bytes -> Z).
Abbreviation wf := (wf crc32c).

Lemma cleared_node s s' F p : cleared s s' F -> page_node crc32c s' p = page_node crc32c s p.
Proof.
  intros X. unfold page_node, page_block. rewrite (c_dev _ _ _ X). pose proof (c_fixed _ _ _ X) as E. unfold fixed in E.
  by assert (layout s' = layout s) as -> by congruence.
Qed.
(** The bookkeeping is sound with the lists emptied, when no cached page is cleared. *)
Lemma wf_cleared s s' F : wf s -> cleared s s' F -> (forall q n, internal s' !! q = Some n -> q ∉ F) ->
  wf (set_pages (used s') [] [] (internal s') (hint s') s').
Proof.
  intros W X Hc. pose proof (c_fixed _ _ _ X) as E. unfold fixed in E. assert (layout s' = layout s) as EL by congruence.
  split; cbn [layout used hint retired internal set_pages]; rewrite ?EL.
  - apply W.
  - apply (c_vals _ _ _ X), W.
  - rewrite (c_len _ _ _ X). apply W.
  - apply (c_hint _ _ _ X), W.
  - by apply Forall_nil.
  - intros p n Hp. destruct (w_cache _ _ W p n (c_cache _ _ _ X p n Hp)) as (H1 & H2 & H3 & H4 & H5). split_and!; [done|lia|lia| |apply not_elem_of_nil|].
    + change (is_used s' p = true). rewrite (c_used _ _ _ X) by lia. rewrite H3, bool_decide_eq_false_2 by (by eapply Hc). done.
    + rewrite <- H5. exact (cleared_node _ _ _ p X).
Qed.

Lemma pages_in_words s p : wf s -> 0 <= p < page_count (layout s) -> 0 <= p < 64 * zlen (used s).
Proof. intros W Hp. pose proof (w_len _ _ W). lia. Qed.

(** [undo_fresh] puts back the bookkeeping of [s0]. *)
Lemma undo_fresh_spec s0 s F R : wf s -> fresh s0 = [] -> ext s0 s F R ->
  exists s', undo_fresh s = (Ok (), s') /\ fixed s' = fixed s /\ dev s' = dev s /\ fresh s' = [] /\ retired s' = [] /\ wf s' /\
    forall p, 0 <= p -> is_used s' p = is_used s0 p.
Proof.
  intros W Hf X. set (s1 := foldl (fun s p => uncache p (set_used p false s)) s (fresh s)).
  pose proof (x_fresh _ _ _ _ X) as PF. rewrite Hf in PF. cbn [app] in PF.
  assert (Forall (fun p => 0 <= p < 64 * zlen (used s)) (fresh s)) as HF.
  { rewrite PF. apply Forall_forall. intros p Hp. destruct (ext_fresh_used _ _ _ _ _ X Hp) as (_ & ? & _). by apply pages_in_words. }
  pose proof (cleared_all uncache (fresh s) cleared_uncache s HF) as C. fold s1 in C.
  exists (set_pages (used s1) [] [] (internal s1) (hint s1) s1). split_and!; [done|exact (c_fixed _ _ _ C)|exact (c_dev _ _ _ C)|done|done| |].
  - apply (wf_cleared s s1 (fresh s)); [done|done|]. intros q n Hq Hin. unfold s1 in Hq. by rewrite uncached_all in Hq.
  - intros p Hp. change (is_used s1 p = is_used s0 p). rewrite (c_used _ _ _ C), (x_used _ _ _ _ X) by done.
    rewrite (bool_decide_ext (p ∈ fresh s) (p ∈ F)) by (by rewrite PF).
    case_bool_decide as HpF; [|by rewrite orb_false_r, andb_true_r]. rewrite andb_false_r.
    by destruct (ext_fresh_used _ _ _ _ _ X HpF) as (_ & _ & ->).
Qed.
(** The retired pages are not in use any more. *)
Lemma free_retired_spec s : wf s ->
  exists s', free_retired s = (Ok (), s') /\ fixed s' = fixed s /\ dev s' = dev s /\ fresh s' = [] /\ retired s' = [] /\ wf s' /\
    forall p, 0 <= p -> is_used s' p = is_used s p && negb (bool_decide (p ∈ retired s)).
Proof.
  intros W. set (s1 := foldl (fun s p => set_used p false s) s (retired s)).
  assert (Forall (fun p => 0 <= p < 64 * zlen (used s)) (retired s)) as HF.
  { eapply Forall_impl; [apply (w_retired _ _ W)|]. intros p [Hp _]. by apply pages_in_words. }
  pose proof (cleared_all (fun _ s => s) (retired s) (fun _ _ _ _ H => H) s HF) as C.
  change (cleared s s1 (retired s)) in C.
  exists (set_pages (used s1) [] [] (internal s1) (hint s1) s1). split_and!; [done|exact (c_fixed _ _ _ C)|exact (c_dev _ _ _ C)|done|done| |].
  - apply (wf_cleared s s1 (retired s)); [done|done|]. intros q n Hq. apply (c_cache _ _ _ C) in Hq. by destruct (w_cache _ _ W q n Hq) as (_ & _ & _ & ? & _).
  - intros p Hp. by apply (c_used _ _ _ C).
Qed.
End Undo.
