(* ===== verification/MetaCheckpoint.v ===== *)
(** Checkpoints of the metadata store are atomic: [checkpoint] and [replace_all] leave a
    store that reads as it did or as it was to, and so does a power cut at any point.
    [checkpoint] and [replace_all] of the metadata store: what they make, and that they make
    it whole or not at all. *)

From S2P Require Import Prelude ExtMap MetaPage MetaPageProofs MetaTree MetaTreePages MetaTreeApply MetaTreeWrite MetaLog MetaRecord MetaChain MetaLogDisk MetaOpen.
#[local] Open Scope meta_scope.

(** What is read of a superblock is in its first sector. *)
Lemma sb_first crc32c (x y : bytes) : (forall o n, 0 <= o -> 0 <= n -> o + n <= 512 -> slice o n x = slice o n y) -> sb_from_bytes crc32c x = sb_from_bytes crc32c y.
Proof. intros H. unfold sb_from_bytes, rd_u32, rd_u64. by rewrite !H by lia. Qed.

Section Commit.
Context (crc32c : bytes -> Z) (dec_ops : bytes -> option (list Op)) (l : Layout) (Hl : layout_ok l).
Context (Hcrc : forall b, u32_ok (crc32c b)).
Abbreviation ll := (log_len l).
Abbreviation image := (image crc32c dec_ops l).
Abbreviation Inv := (Inv crc32c dec_ops l).
Abbreviation Sound := (Sound crc32c dec_ops l).
Abbreviation stored := (stored crc32c dec_ops l).
Abbreviation sb_at := (sb_at crc32c).

(** ** Writing the superblock *)

Lemma sb_part old sb x : sb_ok sb -> part old (sb_to_bytes crc32c sb) x -> sb_from_bytes crc32c x = sb_from_bytes crc32c old \/ sb_from_bytes crc32c x = Some sb.
Proof using Hcrc.
  intros Ho [H|H]%part_mixed%mixed_first; [left|right; rewrite <- (sb_roundtrip crc32c Hcrc sb Ho)]; by apply sb_first.
Qed.
Lemma chosen_new d d' sb sb' j :
  chosen crc32c l d sb -> sb_layout sb = l -> j = 0 \/ j = 1 -> sb_gen sb' = sb_gen sb + 1 -> sb_at d' j = Some sb' -> block d' (1 - j) = block d (1 - j) -> chosen crc32c l d' sb'.
Proof.
  intros (i & Hi & Hs & Hn) HL Hj Hg Hs' Ho. exists j. split_and!; [done|done|]. intros x Hx. unfold MetaOpen.sb_at in Hx. rewrite Ho in Hx.
  change (sb_at d (1 - j) = Some x) in Hx. destruct (Z.eq_dec i j) as [->|].
  - destruct (Hn x Hx). split; [done|lia].
  - assert (1 - j = i) as E by lia. rewrite E, Hs in Hx. injection Hx as <-. split; [done|lia].
Qed.

(** The new superblock's block, as a power cut leaves it: the old store or the new. *)
Lemma image_sb o d d' sb es pgs tail seq u ov r es' pgs' :
  image d sb es pgs tail seq u ov -> let sb' := mkSb (sb_gen sb + 1) r tail seq l (sb_nonce sb) in sb_ok sb' ->
  tree_on crc32c l d r es' pgs' -> NoDup pgs' /\ Forall (fun p => 0 <= p < page_count l) pgs' -> es_ok None None es' ->
  lands o d [(sb_gen sb' mod 2, sb_to_bytes crc32c sb')] d' ->
  (sb_at d' (sb_gen sb' mod 2) = Some sb' -> image d' sb' es' pgs' tail seq 0 overlay0) /\
  (image d' sb es pgs tail seq u ov \/ image d' sb' es' pgs' tail seq 0 overlay0).
Proof using Hl Hcrc.
  intros I sb' Ho HT Hp He HL. set (j := sb_gen sb' mod 2) in *. pose proof (Z.mod_pos_bound (sb_gen sb') 2 ltac:(lia)) as Hj.
  assert (j = 0 \/ j = 1) as Hj' by (subst j; lia). clearbody j.
  assert (forall i, i <> j -> block d' i = block d i) as Hb.
  { intros i Hi. eapply lands_other; [exact HL|]. cbn. by rewrite list_elem_of_singleton. }
  assert (part (block d j) (sb_to_bytes crc32c sb') (block d' j)) as Hpt by (apply (lands_block o d [(j, sb_to_bytes crc32c sb')] d'); [apply NoDup_singleton|by left|exact HL]).
  assert (forall i, (exists p, 0 <= p < ll /\ i = pos_block l p) \/ (exists p, 0 <= p < page_count l /\ i = blk l p) -> block d' i = block d i) as Hbig.
  { intros i [(p & Hp' & ->)|(p & Hp' & ->)]; apply Hb; [pose proof (pos_block_lt l Hl p Hp'); lia|pose proof (page_first_pos l Hl); unfold blk; lia]. }
  pose proof I as []. destruct im_sb as [Hsb0 HLs].
  assert (sb_at d' j = Some sb' -> image d' sb' es' pgs' tail seq 0 overlay0) as Hnew.
  { intros E. split; try done.
    - eapply chosen_new; [done|done|exact Hj'|done|exact E|]. apply Hb. lia.
    - eapply tree_on_same; [|done]. intros p Hpp. apply Hbig. right. exists p. split; [|done]. destruct Hp as [_ Hf]. rewrite Forall_forall in Hf. by apply Hf.
    - eapply log_restart; [done|]. eapply log_same; [done| |done]. intros p Hpp. apply Hbig. left. by exists p. }
  split; [exact Hnew|]. destruct (sb_part _ _ _ Ho Hpt) as [E|E]; [left|right; by apply Hnew]. split; try done.
  - destruct im_chosen as (i & Hi & Hs & Hn). assert (forall k, k = 0 \/ k = 1 -> sb_at d' k = sb_at d k) as Ek.
    { intros k _. unfold MetaOpen.sb_at. destruct (Z.eq_dec k j) as [->|]; [done|by rewrite Hb]. }
    exists i. split; [done|]. rewrite !Ek by lia. done.
  - eapply tree_on_same; [|done]. intros p Hpp. apply Hbig. right. exists p. split; [|done]. destruct im_pages as [_ Hf]. rewrite Forall_forall in Hf. by apply Hf.
  - eapply log_same; [done| |done]. intros p Hpp. apply Hbig. left. by exists p.
Qed.

(** The device before and after: nothing written, or everything before it is durable and
    the superblock is behind it. *)
Lemma write_sb_cases r s : let b := (sb_gen (next_sb s r) mod 2, sb_to_bytes crc32c (next_sb s r)) in
  exists d', ((write_sb crc32c r s = (Err Io, set_dev d' s) /\
      ((durable d' = durable (dev s) /\ cached d' = cached (dev s)) \/ (durable d' = view (dev s) /\ cached d' = []))) \/
    (write_sb crc32c r s = (Err Io, set_unsure (set_dev d' s)) /\
      ((durable d' = view (dev s) /\ (cached d' = [] \/ cached d' = [b])) \/ (durable d' = land (view (dev s)) b /\ cached d' = []))) \/
    (write_sb crc32c r s = (Ok (), set_dev d' s) /\ durable d' = land (view (dev s)) b /\ cached d' = [])).
Proof.
  intros b. set (k := sb_gen (next_sb s r) mod 2) in *. set (y := sb_to_bytes crc32c (next_sb s r)) in *.
  assert (blocks_of (k * PAGE) y = [b]) as EB by (apply blocks_of_page, zlen_sb).
  assert (write_sb crc32c r s = (dev_flush ;; risky (dev_write (k * PAGE) y ;; dev_flush)) s) as -> by done.
  destruct (dev_op_faults (fun d => ((), mkDev (view d) [] (faults d))) s) as (d1 & D1 & C1 & HO1). unfold bind, risky, dev_write, dev_flush.
  assert (view d1 = view (dev s)) as V1 by by apply view_eq. cbn [snd] in HO1. rewrite V1 in HO1. destruct HO1 as [E|[E|E]]; rewrite E.
  { exists d1. left. split; [reflexivity|by left]. }
  { eexists. left. split; [reflexivity|by right]. }
  set (s1 := set_dev _ s). rewrite EB.
  destruct (dev_op_faults (fun d => ((), mkDev (durable d) (cached d ++ [b]) (faults d))) s1) as (d2 & D2 & C2 & HO2).
  cbn [snd] in HO2. set (s2 := set_dev (mkDev (durable d2) _ _) s1) in HO2. destruct HO2 as [E2|[E2|E2]]; rewrite E2.
  { exists d2. right; left. split; [done|]. left. split; [by rewrite D2|left; by rewrite C2]. }
  { eexists. right; left. split; [done|]. left. split; [by rewrite D2|right]. cbn. by rewrite C2. }
  fold s2. destruct (dev_op_faults (fun d => ((), mkDev (view d) [] (faults d))) s2) as (d3 & D3 & C3 & HO3).
  assert (view d3 = land (view (dev s)) b) as V3.
  { rewrite (view_eq d3 (dev s2)) by done. unfold s2, s1. cbn. rewrite C2. unfold view. cbn. by rewrite D2. }
  cbn [snd] in HO3. rewrite V3 in HO3. destruct HO3 as [E3|[E3|E3]]; rewrite E3.
  - exists d3. right; left. split; [done|]. left. split; [rewrite D3; cbn; by rewrite D2|right; rewrite C3; cbn; by rewrite C2].
  - eexists. right; left. split; [done|]. right. by split.
  - eexists. right; right. split_and!; [done| |done]. by rewrite <- V3.
Qed.

Lemma root_u64 s r es pgs : wf crc32c s -> in_use s pgs -> holds crc32c s r es pgs -> u64_ok r.
Proof.
  intros W Hu [(-> & _)|(_ & n & _ & HT)]; [done|]. destruct (tree_root _ _ _ _ _ _ _ HT) as (q & ->). apply Forall_cons in Hu as [[Hp _] _].
  by apply (page_u64 crc32c s).
Qed.

(** ** Ending a checkpoint *)

(** What none of the store's operations on its tree changes. *)
Definition same_log (s s' : MetaV2) : Prop :=
  next_seq s' = next_seq s /\ log_tail s' = log_tail s /\ layout s' = layout s /\ nonce s' = nonce s /\ gen s <= gen s' <= gen s + 1.

Lemma undo_keeps saved e s : exists s', undo saved e s = (Err e, s') /\ dev s' = dev s /\ same_log s s' /\ unsure s' = unsure s.
Proof.
  unfold undo, undo_fresh, bind, modify, fail. set (s1 := foldl _ s (fresh s)).
  assert (fixed s1 = fixed s /\ dev s1 = dev s) as [Hf Hd].
  { subst s1. generalize (fresh s) as F. intros F. revert s. induction F as [|p F IH]; intros s; [done|]. cbn [foldl].
    destruct (IH (uncache p (set_used p false s))) as [H1 H2]. by rewrite H1, H2. }
  eexists. split; [done|]. unfold fixed in Hf. injection Hf as E1 E2 E3 E4 E5 E6 E7 E8 E9 E10 E11. unfold same_log. cbn. split_and!; congruence || lia.
Qed.
Lemma wf_view d s : wf crc32c s -> (forall p, 0 <= p < page_count (layout s) -> block (view d) (page_block s p) = block (view (dev s)) (page_block s p)) -> wf crc32c (set_dev d s).
Proof.
  intros W Hb. split; try apply W. intros p n Hp. destruct (w_cache _ _ W p n Hp) as (H1 & H2 & H3 & H4 & H5). split_and!; try done; [apply H2..|].
  rewrite <- H5. unfold page_node. change (page_block (set_dev d s) p) with (page_block s p). cbn [dev set_dev]. by rewrite Hb.
Qed.

(** The device's part in undoing: none. *)
Lemma undo_set_dev saved e d s : undo saved e (set_dev d s) = (let '(r, s') := undo saved e s in (r, set_dev d s')).
Proof.
  unfold undo, undo_fresh, bind, modify, fail. cbn [fresh set_dev].
  assert (foldl (fun s p => uncache p (set_used p false s)) (set_dev d s) (fresh s)
          = set_dev d (foldl (fun s p => uncache p (set_used p false s)) s (fresh s))) as ->; [|done].
  generalize (fresh s) as F. intros F. revert s. induction F as [|p F IH]; intros s; [done|]. cbn [foldl].
  by rewrite <- (IH (uncache p (set_used p false s))).
Qed.
(** A flush between operations changes nothing that shows. *)
Lemma inv_flushed s d mem dur es pgs seq0 ovl : Inv s mem dur es pgs seq0 ovl -> durable d = view (dev s) -> cached d = [] ->
  Inv (set_dev d s) mem dur es pgs seq0 ovl.
Proof using Hl.
  intros I Hd Hc. pose proof (inv_view crc32c dec_ops l Hl _ _ _ _ _ _ _ I) as HV. assert (view d = view (dev s)) as Hv by (unfold view at 1; by rewrite Hc, Hd).
  split; try apply I.
  - apply wf_view; [apply I|]. intros p _. by rewrite Hv.
  - cbn [set_dev dev]. rewrite Hc. by apply Forall_nil.
  - cbn [set_dev dev]. rewrite Hd. exact HV.
Qed.

Section Ending.
Context (s0 : MetaV2) (mem dur : MStore) (es : list (Key * bytes)) (pgs : list Z) (seq0 : Z) (ovl : Overlay).
Context (I : Inv s0 mem dur es pgs seq0 ovl).
Context (o0 : Overlay) (s : MetaV2) (F R : list Z) (X : ext (set_overlay o0 s0) s F R) (W : wf crc32c s).

Lemma ending_fixed : layout s = l /\ nonce s = nonce s0 /\ gen s = gen s0 /\ root s = root s0 /\ log_start s = log_start s0 /\ log_tail s = log_tail s0 /\
  next_seq s = next_seq s0 /\ log_used s = log_used s0 /\ unsure s = false.
Proof using All.
  pose proof (x_fixed _ _ _ _ X) as E. unfold fixed, set_overlay in E. cbn in E. injection E as E1 E2 E3 E4 E5 E6 E7 E8 E9 E10 E11.
  pose proof (i_layout _ _ _ _ _ _ _ _ _ _ I). destruct (i_clean _ _ _ _ _ _ _ _ _ _ I) as (_ & _ & ?). split_and!; congruence.
Qed.
Lemma ending_cached : exists ws, cached (dev s) = cached (dev s0) ++ ws /\
  Forall (fun w => exists p, 0 <= p < page_count l /\ is_used s0 p = false /\ fst w = blk l p /\ zlen (snd w) = PAGE) ws.
Proof using All.
  destruct (x_cached _ _ _ _ X) as (ws & E & Hw). exists ws. split; [exact E|]. eapply Forall_impl; [exact Hw|].
  unfold page_block, blk. cbn [layout set_overlay]. by rewrite (i_layout _ _ _ _ _ _ _ _ _ _ I).
Qed.
Lemma ending_spare : spare l pgs (cached (dev s)).
Proof using All.
  destruct ending_cached as (ws & -> & Hw). apply spare_app. split; [by eapply inv_spare|]. eapply Forall_impl; [exact Hw|].
  intros w (p & Hp & Hu & E & _). exists p. split_and!; [lia|lia| |done]. rewrite (i_used _ _ _ _ _ _ _ _ _ _ I) in Hu by lia. by apply bool_decide_eq_false in Hu.
Qed.
(** Before the superblock is written, what is on the disk and all that may come to it
    is the old store. *)
Lemma ending_image d : durable (dev s) = durable (dev s0) -> (d = durable (dev s) \/ d = view (dev s) \/ exists o, cut o (dev s) d) ->
  image d (sb_of s0 seq0) es pgs (log_tail s0) (next_seq s0) (log_used s0) ovl.
Proof using All.
  intros Ed Hd. pose proof (i_image _ _ _ _ _ _ _ _ _ _ I) as Him. rewrite <- Ed in Him. pose proof ending_spare as Hs.
  destruct Hd as [->|[->|(o & HL)]]; [exact Him|by apply image_land_all|by eapply image_lands].
Qed.

(** Undone, the store is as it was. *)
Lemma undo_inv e s1 : durable (dev s1) = durable (dev s) -> cached (dev s1) = cached (dev s) -> s1 = set_dev (dev s1) s ->
  exists s', undo (overlay s0) e s1 = (Err e, s') /\ Inv s' mem dur es pgs seq0 ovl /\ same_log s0 s' /\ dev s' = dev s1 /\ log_used s' = log_used s0.
Proof using All.
  intros Hd Hc Es. pose proof (ext_set_dev (dev s1) s Hd Hc) as X1. pose proof (ext_trans _ _ _ _ _ _ _ X X1) as X01. rewrite !app_nil_r, <- Es in X01.
  assert (wf crc32c s1) as W1 by (rewrite Es; by apply wf_set_dev).
  destruct (i_clean _ _ _ _ _ _ _ _ _ _ I) as (Hf0 & Hr0 & Hu0).
  destruct (undo_fresh_spec crc32c (set_overlay o0 s0) s1 F R W1 Hf0 X01) as (s2 & E & Hfx & Hdv & Hfr & Hrt & W2 & Hus).
  exists (set_overlay (overlay s0) s2). split; [unfold undo, bind; by rewrite E|].
  destruct ending_fixed as (G1 & G2 & G3 & G4 & G5 & G6 & G7 & G8 & G9). rewrite Es in Hfx. unfold fixed in Hfx. cbn in Hfx. injection Hfx as E1 E2 E3 E4 E5 E6 E7 E8 E9 E10 E11.
  pose proof (i_layout _ _ _ _ _ _ _ _ _ _ I) as HL.
  split_and!; [|unfold same_log; cbn; split_and!; congruence || lia|exact Hdv|cbn; congruence]. split; cbn [layout fresh retired unsure dev overlay set_overlay log_tail next_seq log_used].
  - by apply wf_set_overlay.
  - congruence.
  - split_and!; congruence.
  - rewrite Hdv, Hc. destruct ending_cached as (ws & -> & Hw). apply Forall_app. split.
    + eapply Forall_impl; [apply (i_cached _ _ _ _ _ _ _ _ _ _ I)|]. intros w (p & Hp & Hu & Hrest). exists p. split_and!; [lia|lia| |apply Hrest|apply Hrest].
      change (is_used s2 p = false). rewrite Hus by lia. exact Hu.
    + eapply Forall_impl; [exact Hw|]. intros w (p & Hp & Hu & Hrest). exists p. split_and!; [lia|lia| |apply Hrest|apply Hrest].
      change (is_used s2 p = false). rewrite Hus by lia. exact Hu.
  - intros p Hp. change (is_used s2 p = bool_decide (p ∈ pgs)). rewrite Hus by done. by apply (i_used _ _ _ _ _ _ _ _ _ _ I).
  - assert (sb_of (set_overlay (overlay s0) s2) seq0 = sb_of s0 seq0) as -> by (unfold sb_of; cbn; f_equal; congruence).
    assert (log_tail s2 = log_tail s0) as -> by congruence. assert (next_seq s2 = next_seq s0) as -> by congruence.
    assert (log_used s2 = log_used s0) as -> by congruence. rewrite Hdv, Hd, (x_durable _ _ _ _ X). apply I.
  - apply I.
  - apply I.
  - apply I.
Qed.

Lemma undo_flushed e d : (durable d = durable (dev s) /\ cached d = cached (dev s)) \/ (durable d = view (dev s) /\ cached d = []) ->
  exists s', undo (overlay s0) e (set_dev d s) = (Err e, s') /\ Inv s' mem dur es pgs seq0 ovl /\ same_log s0 s' /\ log_used s' = log_used s0.
Proof using All.
  intros [[Hd Hc]|[Hd Hc]].
  - destruct (undo_inv e (set_dev d s) Hd Hc eq_refl) as (s' & E & I' & HS & _ & Hu). by exists s'.
  - destruct (undo_inv e s eq_refl eq_refl) as (s' & E & I' & HS & Hdv & Hu); [by destruct s|]. exists (set_dev d s').
    rewrite undo_set_dev, E. split_and!; [done| |done|done]. apply inv_flushed; [done|by rewrite Hdv|done].
Qed.

(** What the superblock's write makes of everything before it. *)
Lemma ending_view r es' pgs' kept :
  holds crc32c s r es' pgs' -> es_ok None None es' -> pgs ≡ₚ R ++ kept -> pgs' ≡ₚ F ++ kept -> gen s0 + 1 < 2 ^ 64 -> next_seq s0 < 2 ^ 64 ->
  let sb' := mkSb (sb_gen (sb_of s0 seq0) + 1) r (log_tail s0) (next_seq s0) l (sb_nonce (sb_of s0 seq0)) in
  live s pgs' /\ sb_ok sb' /\ forall o d', lands o (view (dev s)) [(sb_gen sb' mod 2, sb_to_bytes crc32c sb')] d' ->
    (sb_at d' (sb_gen sb' mod 2) = Some sb' -> image d' sb' es' pgs' (log_tail s0) (next_seq s0) 0 overlay0) /\
    (stored d' dur \/ stored d' (list_to_map es')).
Proof using All.
  intros Hh He P Q Hg Hq sb'. destruct (i_clean _ _ _ _ _ _ _ _ _ _ I) as (Hf0 & Hr0 & Hu0).
  pose proof (inv_live _ _ _ Hl _ _ _ _ _ _ _ I) as Hl0. pose proof (live_new (set_overlay o0 s0) s F R pgs kept Hr0 Hl0 X P) as Hlk.
  assert (live s pgs') as Hlv by (destruct Hlk as (A & B & C); split_and!; [by eapply in_use_perm|by rewrite Q|by rewrite Q]).
  destruct ending_fixed as (G1 & _). pose proof (ending_image (view (dev s)) (x_durable _ _ _ _ X) ltac:(auto)) as Him.
  assert (sb_ok sb') as Hok.
  { pose proof (im_sb _ _ _ _ _ _ _ _ _ _ _ Him) as [(B1 & B2 & B3 & B4 & B5 & B6 & B7 & B8 & B9) B10].
    pose proof (im_log _ _ _ _ _ _ _ _ _ _ _ Him) as HLg. pose proof (lg_tail _ _ _ _ _ _ _ _ _ _ _ HLg) as [Ht _].
    pose proof (proj1 (log_counts _ _ _ l Hl _ _ _ _ _ _ _ HLg)) as Hsq. cbn in Hsq.
    rewrite B10 in B6, B7, B8, B9. pose proof (root_u64 s r es' pgs' W (proj1 Hlv) Hh) as Hr. cbn in B1, B4.
    split_and!; cbn; try done; unfold u64_ok in *; lia. }
  split_and!; [done|done|]. intros o d' HL.
  assert (NoDup pgs' /\ Forall (fun p => 0 <= p < page_count l) pgs') as Hp.
  { destruct Hlv as (A & B & _). split; [done|]. eapply Forall_impl; [exact A|]. rewrite G1. by intros p [? _]. }
  assert (tree_on crc32c l (view (dev s)) r es' pgs') as HT by (unfold tree_on, node_on; rewrite <- G1; exact Hh).
  destruct (image_sb o (view (dev s)) d' _ es pgs _ _ _ ovl r es' pgs' Him Hok HT Hp He HL) as [H1 H2]. split; [exact H1|].
  destruct H2 as [H2|H2]; [left|right]; (eapply stored_intro; [exact H2|]); [apply I|apply shows_overlay0].
Qed.

(** Which pages are in use in the end. *)
Lemma ending_used pgs' kept p : pgs ≡ₚ R ++ kept -> pgs' ≡ₚ F ++ kept -> 0 <= p ->
  is_used s p && negb (bool_decide (p ∈ R)) = bool_decide (p ∈ pgs').
Proof using All.
  intros P Q Hp. rewrite (x_used _ _ _ _ X) by done. change (is_used (set_overlay o0 s0) p) with (is_used s0 p). rewrite (i_used _ _ _ _ _ _ _ _ _ _ I) by done.
  destruct (im_pages _ _ _ _ _ _ _ _ _ _ _ (i_image _ _ _ _ _ _ _ _ _ _ I)) as [HN _]. rewrite P in HN. apply NoDup_app in HN as (_ & HRk & _).
  assert (p ∈ F -> p ∉ pgs) as HFp.
  { intros HpF HpP. destruct (ext_fresh_used _ _ _ _ _ X HpF) as (_ & _ & Hu). change (is_used s0 p = false) in Hu.
    rewrite (i_used _ _ _ _ _ _ _ _ _ _ I) in Hu by done. by apply bool_decide_eq_false in Hu. }
  rewrite P in HFp. rewrite (bool_decide_ext (p ∈ pgs) (p ∈ R ++ kept)), (bool_decide_ext (p ∈ pgs') (p ∈ F ++ kept)) by (by rewrite ?P, ?Q).
  specialize (HRk p). rewrite elem_of_app in HFp. repeat case_bool_decide; cbn; try done; rewrite ?elem_of_app in *; naive_solver.
Qed.

(** [commit]: the new tree becomes the store's, or everything is as it was. *)
Lemma commit_ends r es' pgs' kept :
  holds crc32c s r es' pgs' -> es_ok None None es' -> pgs ≡ₚ R ++ kept -> pgs' ≡ₚ F ++ kept -> overlay s = overlay0 ->
  gen s0 + 1 < 2 ^ 64 -> next_seq s0 < 2 ^ 64 ->
  match commit crc32c (overlay s0) r s with
  | (Ok _, s') => Inv s' (list_to_map es') (list_to_map es') es' pgs' (next_seq s0) overlay0 /\ same_log s0 s' /\ log_used s' = 0
  | (Err e, s') => e = Io /\ same_log s0 s' /\ (unsure s' = false -> Inv s' mem dur es pgs seq0 ovl /\ log_used s' = log_used s0) /\
      forall o d, cut o (dev s') d -> stored d dur \/ stored d (list_to_map es')
  end.
Proof using All.
  intros Hh He P Q Ho Hg Hq. unfold commit.
  destruct ending_fixed as (G1 & G2 & G3 & G4 & G5 & G6 & G7 & G8 & G9). set (sb' := next_sb s r).
  assert (sb' = mkSb (sb_gen (sb_of s0 seq0) + 1) r (log_tail s0) (next_seq s0) l (sb_nonce (sb_of s0 seq0))) as Esb.
  { unfold sb', next_sb, sb_of. cbn. f_equal; congruence. }
  pose proof (ending_view r es' pgs' kept Hh He P Q Hg Hq) as HV. rewrite <- Esb in HV. destruct HV as (Hlv & Hok & HV).
  destruct (write_sb_cases r s) as (d' & [(E & HD)|[(E & HD)|(E & Hd & Hc)]]); rewrite E.
  - destruct (undo_flushed Io d' HD) as (s' & E' & Inv' & HSL & Hdv). rewrite E'. split_and!; [done|done|done|].
    intros o d HL. left. eapply (sound_cut crc32c dec_ops l Hl s' mem); [|exact HL]. by exists es, pgs, seq0, ovl.
  - destruct (undo_keeps (overlay s0) Io (set_unsure (set_dev d' s))) as (s' & E' & Hdv & HSL & Hun). rewrite E'. split_and!; [done| |by rewrite Hun|].
    + unfold same_log in *. cbn in HSL. destruct HSL as (S1 & S2 & S3 & S4 & S5). pose proof (i_layout _ _ _ _ _ _ _ _ _ _ I). split_and!; congruence || lia.
    + intros o d HL. unfold cut in HL. rewrite Hdv in HL. cbn in HL. destruct HD as [[Hd [Hc|Hc]]|[Hd Hc]]; rewrite Hd, Hc in HL.
      * left. assert (d = view (dev s)) as -> by (by inversion HL). eapply stored_intro; [|apply I]. apply ending_image; [apply X|auto].
      * by apply (HV o d).
      * apply (HV o d). assert (d = land (view (dev s)) (sb_gen sb' mod 2, sb_to_bytes crc32c sb')) as -> by (by inversion HL).
        apply (lands_all o (view (dev s)) [_]).
  - assert (Hgo : forall i, i <> sb_gen sb' mod 2 -> block (view d') i = block (view (dev s)) i).
    { intros i Hi. unfold view at 1. rewrite Hc, Hd. cbn. unfold block, land. cbn [fst snd]. by rewrite lookup_insert_ne. }
    assert (wf crc32c (set_dev d' s)) as W1.
    { apply wf_view; [done|]. intros p Hp. apply Hgo. pose proof (page_first_pos l Hl). unfold page_block. rewrite G1. pose proof (Z.mod_pos_bound (sb_gen sb') 2 ltac:(lia)). lia. }
    set (s1 := set_log (log_tail (set_dev d' s)) (log_tail (set_dev d' s)) (next_seq (set_dev d' s)) 0 (set_root (gen (set_dev d' s) + 1) r (set_dev d' s))).
    assert (wf crc32c s1) as W2 by (by apply wf_set_log, wf_set_root).
    destruct (free_retired_spec crc32c s1 W2) as (s' & E' & Hfx & Hdv & Hfr & Hrt & W' & Hus).
    unfold bind at 1. cbn [modify]. fold s1. rewrite E'. unfold fixed in Hfx. injection Hfx as E1 E2 E3 E4 E5 E6 E7 E8 E9 E10 E11.
    pose proof (i_layout _ _ _ _ _ _ _ _ _ _ I) as HLa. split_and!; [|unfold same_log; cbn in *; split_and!; congruence || lia|exact E8].
    assert (retired s = R) as HR by (rewrite (x_retired _ _ _ _ X); cbn; by destruct (i_clean _ _ _ _ _ _ _ _ _ _ I) as (_ & -> & _)).
    split; try done.
    + by rewrite E1.
    + by rewrite Hfr, Hrt, E11.
    + rewrite Hdv. cbn. rewrite Hc. by apply Forall_nil.
    + intros p Hp. rewrite Hus by done. change (is_used s1 p) with (is_used s p). change (retired s1) with (retired s). rewrite HR.
      by apply (ending_used pgs' kept).
    + assert (sb_of s' (next_seq s0) = sb') as -> by (rewrite Esb; unfold sb_of; cbn in *; f_equal; congruence).
      assert (log_tail s' = log_tail s0) as -> by (cbn in *; congruence). assert (next_seq s' = next_seq s0) as -> by (cbn in *; congruence). rewrite E8.
      rewrite Hdv. cbn [dev s1 set_log set_root set_dev]. apply (HV false); [|].
      * rewrite Hd. apply (lands_all false (view (dev s)) [_]).
      * rewrite Hd. unfold MetaOpen.sb_at, block, land. cbn [fst snd]. rewrite lookup_insert_eq. by apply (sb_roundtrip crc32c Hcrc).
    + rewrite E9. cbn. rewrite Ho. apply shows_overlay0.
    + rewrite E9. cbn. rewrite Ho. intros k x Hk. change (puts overlay0) with (∅ : gmap Z (option bytes)) in Hk. by rewrite lookup_empty in Hk.
Qed.
End Ending.
End Commit.

#[local] Open Scope meta_scope.

Section Checkpoint.
Context (crc32c : bytes -> Z) (dec_ops : bytes -> option (list Op)) (l : Layout) (Hl : layout_ok l).
Context (Hcrc : forall b, u32_ok (crc32c b)).
Abbreviation Inv := (Inv crc32c dec_ops l).
Abbreviation Sound := (Sound crc32c dec_ops l).
Abbreviation stored := (stored crc32c dec_ops l).

(** Reading leaves the store as it is. *)
Lemma inv_read s s' mem dur es pgs seq0 ovl : Inv s mem dur es pgs seq0 ovl -> ext s s' [] [] -> wf crc32c s' -> Inv s' mem dur es pgs seq0 ovl.
Proof.
  intros I X W. pose proof (x_fixed _ _ _ _ X) as E. unfold fixed in E. injection E as E1 E2 E3 E4 E5 E6 E7 E8 E9 E10 E11.
  pose proof I as [Hw HL (Hf & Hr & Hu) Hc Hus Him Hm Hd Ho].
  assert (forall p, 0 <= p -> is_used s' p = is_used s p) as Hus'.
  { intros p Hp. rewrite (x_used _ _ _ _ X) by done. rewrite bool_decide_eq_false_2 by apply not_elem_of_nil. by rewrite orb_false_r. }
  split; try done.
  - congruence.
  - pose proof (x_fresh _ _ _ _ X) as PF. rewrite Hf in PF. apply Permutation_nil_r in PF. rewrite (x_retired _ _ _ _ X), Hr. by rewrite PF, E11.
  - destruct (x_cached _ _ _ _ X) as (ws & -> & Hw'). apply Forall_app. split.
    + eapply Forall_impl; [exact Hc|]. intros w (p & Hp & Hup & Hrest). exists p. rewrite Hus' by lia. done.
    + eapply Forall_impl; [exact Hw'|]. intros w (p & Hp & Hup & Hrest). rewrite HL in Hp. exists p. rewrite Hus' by lia.
      split_and!; [lia|lia|done|unfold blk; rewrite <- HL; apply Hrest|apply Hrest].
  - intros p Hp. rewrite Hus' by done. by apply Hus.
  - assert (sb_of s' seq0 = sb_of s seq0) as -> by (unfold sb_of; f_equal; congruence).
    by rewrite (x_durable _ _ _ _ X), E6, E7, E8.
  - by rewrite E9.
  - by rewrite E9.
Qed.

(** What a failed step leaves is undone; a panic only leaves the disk as it was. *)
Lemma failed_spec s0 mem dur es pgs seq0 ovl o0 e s : Inv s0 mem dur es pgs seq0 ovl -> failed crc32c (set_overlay o0 s0) e s ->
  match (if e is Panic then (Err Panic, s) else undo (overlay s0) e s) with
  | (Ok _, _) => False
  | (Err e', s') => e' = e /\ same_log s0 s' /\ (e <> Panic -> Inv s' mem dur es pgs seq0 ovl /\ log_used s' = log_used s0) /\
      forall o d, cut o (dev s') d -> stored d dur
  end.
Proof using Hl Hcrc.
  intros I (He & F & R & X & W).
  assert (e <> Panic -> exists s', undo (overlay s0) e s = (Err e, s') /\ same_log s0 s' /\ (Inv s' mem dur es pgs seq0 ovl /\ log_used s' = log_used s0) /\
      forall o d, cut o (dev s') d -> stored d dur) as Hundo.
  { intros _. destruct (undo_inv crc32c dec_ops l Hl Hcrc s0 mem dur es pgs seq0 ovl I o0 s F R X W e s eq_refl eq_refl) as (s' & E & I' & HS & Hd & Hu); [by destruct s|].
    exists s'. split_and!; [done|done|done|done|]. intros o d HL. eapply (sound_cut crc32c dec_ops l Hl s' mem); [|exact HL]. by exists es, pgs, seq0, ovl. }
  destruct He as [->|[->| ->]]; [destruct Hundo as (s' & -> & ? & ? & ?); [done|by split_and!]..|].
  split_and!; [done| |done|].
  - destruct (ending_fixed crc32c dec_ops l Hl Hcrc s0 mem dur es pgs seq0 ovl I o0 s F R X W) as (G1 & G2 & G3 & G4 & G5 & G6 & G7 & G8 & G9).
    pose proof (i_layout _ _ _ _ _ _ _ _ _ _ I). unfold same_log. split_and!; congruence || lia.
  - intros o d HL. eapply stored_intro; [|apply I]. eapply (ending_image crc32c dec_ops l Hl Hcrc); [exact I|exact X|exact W|apply X|eauto].
Qed.

(** A store at the end of an operation that was to make [mem'] of it. *)
Definition ended (s s' : MetaV2) (mem dur mem' : MStore) (r : result MetaErr ()) : Prop :=
  same_log s s' /\
  match r with
  | Ok _ => Sound s' mem' mem' /\ log_used s' = 0
  | Err e => (e <> Panic -> unsure s' = false -> Sound s' mem dur /\ log_used s' = log_used s) /\
             forall o d, cut o (dev s') d -> stored d dur \/ stored d mem'
  end.

Lemma checkpoint_ended s mem dur r s' : Sound s mem dur -> gen s + 1 < 2 ^ 64 -> next_seq s < 2 ^ 64 -> checkpoint crc32c s = (r, s') -> ended s s' mem dur mem r.
Proof using Hl Hcrc.
  intros (es & pgs & seq0 & ovl & I) Hg Hq. pose proof I as [Hw HL (Hf & Hr & Hu) Hc Hus Him Hm Hd Ho]. unfold checkpoint.
  destruct (overlay_is_empty (overlay s) && (log_used s =? 0)) eqn:E.
  - intros [= <- <-]. apply andb_true_iff in E as [E1%overlay_is_empty_spec E2%Z.eqb_eq].
    split; [unfold same_log; split_and!; done || lia|]. split; [|done]. exists es, pgs, seq0, ovl. split; try done.
    rewrite E1 in Hm. rewrite (proj2 (log_counts _ _ _ l Hl _ _ _ _ _ _ _ (im_log _ _ _ _ _ _ _ _ _ _ _ Him)) E2) in Hd |- *. done.
  - unfold or_undo. set (s1 := set_overlay overlay0 s).
    pose proof (write_tree_spec crc32c Hcrc (overlay s) s1 es pgs Hf Hr (wf_set_overlay _ _ _ Hw) Ho
      (inv_holds _ _ _ Hl _ _ _ _ _ _ _ I) (inv_live _ _ _ Hl _ _ _ _ _ _ _ I)) as HT. unfold wp in HT.
    destruct (write_tree crc32c (overlay s) s1) as [[root'|e] s2].
    + destruct HT as (es' & (pgs' & F & R & kept & Hh & X & W & P & Q) & He & Hlk).
      assert (overlay s2 = overlay0) as Ho2 by (pose proof (x_fixed _ _ _ _ X) as Ex; unfold fixed in Ex; cbn in Ex; congruence).
      assert (list_to_map es' = mem) as Em by (apply map_eq; intros k; rewrite Hm; exact (Hlk k)).
      pose proof (commit_ends crc32c dec_ops l Hl Hcrc s mem dur es pgs seq0 ovl I overlay0 s2 F R X W root' es' pgs' kept Hh He P Q Ho2 Hg Hq) as HC.
      destruct (commit crc32c (overlay s) root' s2) as [[[]|e] s3]; intros [= <- <-]; rewrite Em in HC.
      * destruct HC as (H1 & H2 & H3). split; [done|]. split; [|done]. by exists es', pgs', (next_seq s), overlay0.
      * destruct HC as (_ & H2 & H3 & H4). split; [done|]. split; [|done]. intros _ Hun. destruct (H3 Hun). split; [|done]. by exists es, pgs, seq0, ovl.
    + pose proof (failed_spec s mem dur es pgs seq0 ovl overlay0 e s2 I HT) as HF. intros Er.
      assert ((if e is Panic then (Err Panic, s2) else undo (overlay s) e s2) = (r, s')) as Er' by (by destruct e).
      rewrite Er' in HF. destruct r as [[]|e']; [done|]. destruct HF as (-> & H1 & H2 & H3). split; [done|]. split.
      * intros Hne _. destruct (H2 Hne). split; [|done]. by exists es, pgs, seq0, ovl.
      * intros o d HLd. left. by eapply H3.
Qed.

(** ** Replacing everything *)

Lemma old_pages_spec s es pgs : wf crc32c s -> live s pgs -> holds crc32c s (root s) es pgs ->
  wp (old_pages crc32c) s (fun out s' => out = pgs /\ ext s s' [] [] /\ wf crc32c s') (failed crc32c s).
Proof.
  intros W Hlv Hh. unfold old_pages. apply wp_bind, wp_gets. destruct Hh as [(-> & -> & ->)|(Hr & n & Hn & HT)].
  - rewrite Z.eqb_refl. apply wp_ret. split_and!; [done|apply ext_refl|done].
  - destruct (Z.eqb_spec (root s) EMPTY); [done|].
    eapply wp_step; [exact (node_tree crc32c n None None _ es pgs s W Hlv HT)| |done]. intros nd s1 (Hnd & X1 & W1).
    assert (live s1 pgs) as Hl1 by (eapply live_ext; [exact X1|intros ? _; apply not_elem_of_nil|done]).
    assert (tree (page_node crc32c s1) n None None (root s) es pgs) as HT1.
    { eapply tree_ext; [exact X1| |exact HT]. intros q Hq. eapply in_use_elem; [apply Hlv|done]. }
    destruct nd as [les|level cs].
    + destruct n; cbn [tree] in HT; [|destruct HT as (? & ? & E & _); rewrite E in Hnd; done]. destruct HT as (_ & _ & ->). apply wp_ret. by split_and!.
    + eapply wp_mono; [apply (subtree_pages_spec crc32c DEPTH n None None _ es pgs s1 W1 Hl1); [unfold DEPTH; lia|done]|..].
      * intros out s2 (-> & X2 & W2). split_and!; [done|exact (ext_trans _ _ _ _ _ _ _ X1 X2)|done].
      * intros e s2. by apply (failed_trans _ _ _ _ _ _ _ X1).
Qed.

(** Operations that take and retire no pages. *)
Definition keeps {A} (m : M A) : Prop := forall s, fresh (snd (m s)) = fresh s /\ retired (snd (m s)) = retired s.
Lemma keeps_bind {A B} (m : M A) (k : A -> M B) : keeps m -> (forall a, keeps (k a)) -> keeps (bind m k).
Proof.
  intros H1 H2 s. unfold bind. specialize (H1 s). destruct (m s) as [[a|e] s']; [|done]. cbn in H1. destruct H1 as [<- <-]. apply H2.
Qed.
Lemma keeps_ret {A} (a : A) : keeps (ret a).
Proof. by intros s. Qed.
Lemma keeps_dev {A} (f : Dev -> A * Dev) : keeps (dev_op f).
Proof. intros s. unfold dev_op. destruct (default _ _); [|done|]; by destruct (f _). Qed.
Lemma keeps_node p : keeps (node crc32c p).
Proof.
  intros s. unfold node. destruct (internal s !! p); [done|]. apply (keeps_bind (read_page crc32c p)); clear s.
  - intros s. unfold read_page. destruct (_ <=? _); [done|]. apply (keeps_bind (dev_read (page_at s p) PAGE) (fun b => lift (decode crc32c p b))); [apply keeps_dev|by intros b s'].
  - intros n. apply keeps_bind; [|intros _; apply keeps_ret]. intros s. cbn. by destruct (is_internal n).
Qed.
Lemma keeps_subtree fuel : forall p, keeps (subtree_pages crc32c fuel p).
Proof.
  induction fuel as [|fuel IH]; intros p; [by intros s|]. cbn [subtree_pages]. apply keeps_bind; [apply keeps_node|intros [es|level cs]; [apply keeps_ret|]].
  apply keeps_bind; [|intros r; apply keeps_ret]. destruct (level =? 1); [apply keeps_ret|]. induction cs as [|c cs IHc]; [apply keeps_ret|].
  apply keeps_bind; [apply IH|intros a]. apply keeps_bind; [exact IHc|intros b; apply keeps_ret].
Qed.
Lemma keeps_old_pages : keeps (old_pages crc32c).
Proof.
  unfold old_pages. apply keeps_bind; [by intros s|intros r]. destruct (r =? EMPTY); [apply keeps_ret|].
  apply keeps_bind; [apply keeps_node|intros [es|level cs]; [apply keeps_ret|apply keeps_subtree]].
Qed.

(** An error before anything was taken. *)
Lemma early_failed s mem dur es pgs seq0 ovl e s' m' : Inv s mem dur es pgs seq0 ovl -> (exists F R, ext s s' F R /\ wf crc32c s') -> fresh s' = [] -> retired s' = [] ->
  ended s s' mem dur m' (Err e).
Proof using Hl.
  intros I (F & R & X & W) Hf Hr. assert (F = []) as ->.
  { pose proof (x_fresh _ _ _ _ X) as P. destruct (i_clean _ _ _ _ _ _ _ _ _ _ I) as (Ef & _). rewrite Hf, Ef in P. by apply Permutation_nil in P. }
  assert (R = []) as ->.
  { pose proof (x_retired _ _ _ _ X) as P. destruct (i_clean _ _ _ _ _ _ _ _ _ _ I) as (_ & E & _). by rewrite Hr, E in P. }
  pose proof (inv_read _ _ _ _ _ _ _ _ I X W) as I'. pose proof (x_fixed _ _ _ _ X) as E. unfold fixed in E. injection E as E1 E2 E3 E4 E5 E6 E7 E8 E9 E10 E11.
  split; [unfold same_log; split_and!; congruence || lia|]. split.
  - intros _ _. split; [|done]. by exists es, pgs, seq0, ovl.
  - intros o d HL. left. eapply (sound_cut crc32c dec_ops l Hl s' mem); [|exact HL]. by exists es, pgs, seq0, ovl.
Qed.

Lemma ended_from s1 s s' mem dur m' r : fixed s1 = fixed s -> ended s1 s' mem dur m' r -> ended s s' mem dur m' r.
Proof.
  intros E [HS HR]. unfold fixed in E. injection E as E1 E2 E3 E4 E5 E6 E7 E8 E9 E10 E11. split; [unfold same_log in *; rewrite <- E1, <- E2, <- E3, <- E6, <- E7; done|].
  rewrite <- E8. done.
Qed.
Lemma each_retire_ok ps : forall s, exists s', each retire ps s = (Ok (), s').
Proof. induction ps as [|p ps IH]; intros s; [by exists s|]. cbn [each]. apply IH. Qed.

Lemma replace_all_ended s mem dur es' r s' : Sound s mem dur -> es_ok None None es' -> gen s + 1 < 2 ^ 64 -> next_seq s < 2 ^ 64 ->
  replace_all crc32c es' s = (r, s') -> ended s s' mem dur (list_to_map es') r.
Proof using Hl Hcrc.
  intros (es & pgs & seq0 & ovl & I) He Hg Hq Er. destruct (i_clean _ _ _ _ _ _ _ _ _ _ I) as (Hf & Hr & Hu).
  pose proof (old_pages_spec s es pgs (i_wf _ _ _ _ _ _ _ _ _ _ I) (inv_live _ _ _ Hl _ _ _ _ _ _ _ I) (inv_holds _ _ _ Hl _ _ _ _ _ _ _ I)) as HO.
  unfold replace_all, bind at 1 in Er. pose proof (keeps_old_pages s) as [HKf HKr]. unfold wp in HO.
  destruct (old_pages crc32c s) as [[old|e] s1]; cbn [snd] in *.
  2: { injection Er as <- <-. destruct HO as (_ & HX). eapply early_failed; [exact I|exact HX|by rewrite HKf|by rewrite HKr]. }
  destruct HO as (-> & X1 & W1). pose proof (inv_read _ _ _ _ _ _ _ _ I X1 W1) as I1.
  apply (ended_from s1); [exact (x_fixed _ _ _ _ X1)|]. pose proof (x_fixed _ _ _ _ X1) as E1. unfold fixed in E1. injection E1 as _ _ Eg _ _ _ Eq _ _ _ _.
  unfold bind at 1 2 in Er. cbn [gets modify] in Er. set (s2 := set_overlay overlay0 s1) in *. unfold or_undo in Er.
  pose proof (pack_tree_spec crc32c Hcrc es' s2 (wf_set_overlay _ _ _ W1) He) as HT. unfold wp in HT.
  destruct ((do leaves := pack_leaves crc32c es' in build_up crc32c leaves 1) s2) as [[root'|e] s3].
  - destruct HT as (F & pgs' & Hh & X & W & P). destruct (each_retire_ok pgs s3) as (s4 & E4). unfold bind at 1 in Er. rewrite E4 in Er.
    assert (in_use s3 pgs) as Hin by (eapply in_use_ext; [exact X|exact (proj1 (inv_live _ _ _ Hl _ _ _ _ _ _ _ I1))]).
    pose proof (each_retire_spec crc32c pgs s3 W Hin) as HR. unfold wp in HR. rewrite E4 in HR. destruct HR as [X4 W4].
    pose proof (ext_trans _ _ _ _ _ _ _ X X4) as X24. rewrite app_nil_r in X24. cbn [app] in X24.
    assert (holds crc32c s4 root' es' pgs') as Hh4.
    { destruct Hh as [Hh|(Hne & n & Hn & HTr)]; [by left|right]. split; [done|]. exists n. split; [done|]. eapply tree_ext; [exact X4| |exact HTr].
      intros q Hqp. rewrite P in Hqp. by destruct (ext_fresh_used _ _ _ _ _ X Hqp). }
    assert (overlay s4 = overlay0) as Ho4 by (pose proof (x_fixed _ _ _ _ X24) as Ex; unfold fixed in Ex; cbn in Ex; congruence).
    pose proof (commit_ends crc32c dec_ops l Hl Hcrc s1 mem dur es pgs seq0 ovl I1 overlay0 s4 F pgs X24 W4 root' es' pgs' [] Hh4 He ltac:(by rewrite app_nil_r)
      ltac:(by rewrite app_nil_r) Ho4 ltac:(lia) ltac:(lia)) as HC.
    rewrite Er in HC. destruct r as [[]|e].
    + destruct HC as (H1 & H2 & H3). split; [done|]. split; [|done]. by exists es', pgs', (next_seq s1), overlay0.
    + destruct HC as (_ & H2 & H3 & H4). split; [done|]. split; [|done]. intros _ Hun. destruct (H3 Hun). split; [|done]. by exists es, pgs, seq0, ovl.
  - pose proof (failed_spec s1 mem dur es pgs seq0 ovl overlay0 e s3 I1 HT) as HF.
    assert ((if e is Panic then (Err Panic, s3) else undo (overlay s1) e s3) = (r, s')) as Er' by (by destruct e).
    rewrite Er' in HF. destruct r as [[]|e']; [done|]. destruct HF as (-> & H1 & H2 & H3). split; [done|]. split.
    + intros Hne _. destruct (H2 Hne). split; [|done]. by exists es, pgs, seq0, ovl.
    + intros o d HLd. left. by eapply H3.
Qed.
End Checkpoint.
