(* ===== verification/MetaAppend.v ===== *)
(** [append] of the metadata store: a record that arrives whole is the log's, one that does
    not is as if it had not been written. Writing a record of the metadata store's log:
    done, its changes are durable; cut off by an error or by the power, they are there whole
    or not at all. *)

From S2P Require Import Prelude ExtMap MetaPage MetaPageProofs MetaTree MetaTreePages MetaTreeApply MetaTreeWrite MetaLog MetaRecord MetaChain MetaLogDisk MetaOpen MetaCheckpoint.
#[local] Open Scope meta_scope.

Section Append.
Context (crc32c : bytes -> Z) (dec_ops : bytes -> option (list Op)) (l : Layout) (Hl : layout_ok l).
Context (Hcrc : forall b, u32_ok (crc32c b)).
Abbreviation ll := (log_len l).
Abbreviation image := (image crc32c dec_ops l).
Abbreviation Inv := (Inv crc32c dec_ops l).
Abbreviation Sound := (Sound crc32c dec_ops l).
Abbreviation stored := (stored crc32c dec_ops l).
Abbreviation log_ok := (log_ok crc32c dec_ops).
Abbreviation pos_block := (pos_block l).

(** What a power cut left of the log's records holds the old blocks or the new: a record
    that is checked and was torn does not check. *)
Definition detects (nonce : Z) (d v img : disk) : Prop :=
  forall p seq k pl size, 0 <= p < ll -> aligned p -> rec_at crc32c nonce l img p seq = Some (k, pl, size) ->
    (forall q, p <= q < p + size -> block img (pos_block q) = block d (pos_block q)) \/
    (forall q, p <= q < p + size -> block img (pos_block q) = block v (pos_block q)).

(** ** Records among blocks *)

Lemma log_off_pos p : aligned p -> (log_off l + p) / PAGE = pos_block p /\ (log_off l + p) mod PAGE = 0.
Proof using Hl.
  intros Ha. destruct Hl as (Ho & _). unfold aligned, MetaChain.pos_block in *. rewrite Ho. change PAGE with 4096 in *.
  replace (2 * 4096 + p) with (p + 2 * 4096) by lia. rewrite Z.div_add, Z.mod_add, Z.div_mul by lia. split; [lia|done].
Qed.
Lemma record_blocks p r i b : aligned p -> (i, b) ∈ blocks_of (log_off l + p) r <-> exists k, 0 <= k < zlen r / PAGE /\ i = pos_block (p + k * PAGE) /\ b = slice (k * PAGE) PAGE r.
Proof using Hl.
  intros Ha. rewrite elem_of_blocks_of, (proj1 (log_off_pos p Ha)). assert (forall k, pos_block (p + k * PAGE) = pos_block p + k) as E.
  { intros k. unfold MetaChain.pos_block. rewrite Z.div_add by done. lia. }
  setoid_rewrite E. done.
Qed.
Lemma record_block_in p r i : aligned p -> aligned (zlen r) -> i ∈ map fst (blocks_of (log_off l + p) r) -> exists q, inside p (zlen r) q /\ i = pos_block q.
Proof using Hl.
  intros Ha Hr ([j b] & -> & (k & Hk & -> & _)%record_blocks)%list_elem_of_fmap; [|done]. exists (p + k * PAGE). split; [|done].
  unfold inside, aligned in *. change PAGE with 4096 in *. pose proof (Z.div_mod (zlen r) 4096 ltac:(lia)). lia.
Qed.
(** A position outside a record is in none of its blocks. *)
Lemma outside_block p r q : aligned p -> aligned (zlen r) -> ~ inside p (zlen r) q -> pos_block q ∉ map fst (blocks_of (log_off l + p) r).
Proof using Hl.
  intros Ha Hr Hn ([j b] & E & (k & Hk & -> & _)%record_blocks)%list_elem_of_fmap; [|done]. cbn in E. apply Hn.
  unfold inside, aligned, MetaChain.pos_block in *. change PAGE with 4096 in *. rewrite Z.div_add in E by lia.
  pose proof (Z.div_mod (zlen r) 4096 ltac:(lia)). pose proof (Z.div_mod p 4096 ltac:(lia)). pose proof (Z.div_mod q 4096 ltac:(lia)). pose proof (Z.mod_pos_bound q 4096 ltac:(lia)). lia.
Qed.

Lemma lands_partly o d d' p r : aligned p -> aligned (zlen r) -> lands o d (blocks_of (log_off l + p) r) d' -> partly l d d' p r.
Proof using Hl.
  intros Ha Hr HL. split.
  - intros q _ Hn. eapply lands_other; [exact HL|]. by apply outside_block.
  - intros i Hi. eapply lands_block; [apply NoDup_blocks_of| |exact HL]. apply record_blocks; [done|]. by exists i.
Qed.

(** ** A record behind the tail *)

Section Arrive.
Context (nonce : Z) (d d' v : disk) (start seq0 tail seq u : Z) (ov : Overlay) (kind : Z) (p r : bytes).
Context (L : log_ok nonce l d start seq0 tail seq u ov) (Er : r = record crc32c nonce seq kind p) (Hpl : plain nonce r) (Hby : all_bytes r).
Context (Hn : u64_ok nonce) (Hsq : u64_ok seq) (Hp : zlen p < 2 ^ 32).
Context (Hfit : tail mod ll + zlen r <= ll) (Hu : u + zlen r <= ll) (Hpa : partly l d d' (tail mod ll) r).
Context (Hv : written v (log_off l + tail mod ll) r).
Context (Hdet : forall k pl size, rec_at crc32c nonce l d' (tail mod ll) seq = Some (k, pl, size) ->
    (forall q, tail mod ll <= q < tail mod ll + size -> block d' (pos_block q) = block d (pos_block q)) \/
    (forall q, tail mod ll <= q < tail mod ll + size -> block d' (pos_block q) = block v (pos_block q))).

Lemma arrive : log_ok nonce l d' start seq0 tail seq u ov \/ rec_at crc32c nonce l d' (tail mod ll) seq = Some (kind, p, zlen r).
Proof using All.
  pose proof (ll_pos l Hl). pose proof (Z.mod_pos_bound tail ll ltac:(lia)) as Hb. pose proof (lg_tail _ _ _ _ _ _ _ _ _ _ _ L) as [_ Hta].
  assert (aligned (tail mod ll)) as Hat by (by apply aligned_mod).
  destruct (rec_at crc32c nonce l d' (tail mod ll) seq) as [[[k pl] size]|] eqn:E; [right|left; by eapply log_torn].
  destruct (log_partly _ _ _ _ Hl _ _ _ _ _ _ _ _ _ _ _ L Er Hpl Hby Hsq Hfit Hu Hpa) as (Hby' & _ & _).
  pose proof (log_bytes_sizes crc32c nonce l Hl d' Hby' _ _ _ _ _ Hb Hat E) as Hpg.
  destruct (Hdet k pl size eq_refl) as [Hd|Hd].
  - pose proof (rec_at_same crc32c nonce l Hl d' d _ _ _ _ _ Hat (proj1 Hb) Hpg E) as E2.
    rewrite (lg_none _ _ _ _ _ _ _ _ _ _ _ L) in E2. discriminate E2. intros q Hq. symmetry. by apply Hd.
  - assert (rec_at crc32c nonce l v (tail mod ll) seq = Some (k, pl, size)) as E2.
    { eapply rec_at_same; [done|done|lia|exact Hpg|exact E|]. intros q Hq. symmetry. by apply Hd. }
    destruct (log_off_pos _ Hat) as [_ Hm]. rewrite <- E2, Er, zlen_record. apply (rec_at_written crc32c Hcrc); try done.
    + destruct Hl as (Ho & _). rewrite Ho. unfold PAGE. lia.
    + rewrite Er, zlen_record in Hfit. done.
    + by rewrite <- Er.
Qed.
End Arrive.

(** ** The store with a record behind it *)

Lemma image_with_log d d' sb es pgs tail seq u ov tail' seq' u' ov' :
  image d sb es pgs tail seq u ov -> (forall i, (forall q, 0 <= q < ll -> i <> pos_block q) -> block d' i = block d i) ->
  log_ok (sb_nonce sb) l d' (sb_log_start sb) (sb_log_seq sb) tail' seq' u' ov' -> ov_ok ov' -> image d' sb es pgs tail' seq' u' ov'.
Proof using Hl.
  intros [] Hb HLg Hov. destruct im_pages as [HN HF].
  assert (forall i, i = 0 \/ i = 1 -> block d' i = block d i) as H01.
  { intros i Hi. apply Hb. intros q Hq. pose proof (pos_block_lt l Hl q Hq). lia. }
  split; try done.
  - eapply chosen_same; [| |done]; apply H01; auto.
  - eapply tree_on_same; [|done]. intros p Hp. apply Hb. intros q Hq. pose proof (pos_block_lt l Hl q Hq). rewrite Forall_forall in HF. specialize (HF p Hp). unfold blk. lia.
Qed.

Lemma ov_ok_all ov ops : ov_ok ov -> Forall (fun op => match op with Put k v => key_ok k /\ zlen v <= MAX_VALUE | Del k => key_ok k | DropVolume _ => True end) ops -> ov_ok (overlay_all ov ops).
Proof.
  revert ov. induction ops as [|op ops IH]; intros ov Ho Hops; [done|]. apply Forall_cons in Hops as [Hop Hops]. unfold overlay_all. cbn [foldl].
  apply IH; [|done]. intros k x. destruct op as [k' v|k'|v]; cbn [overlay_apply puts].
  - intros [[<- <-]|[_ H]]%lookup_insert_Some; [done|by apply Ho].
  - intros [[<- <-]|[_ H]]%lookup_insert_Some; [done|by apply Ho].
  - intros [H _]%map_lookup_filter_Some. by apply Ho.
Qed.

Section Behind.
Context (o : bool) (d d' v : disk) (sb : Superblock) (es : list (Key * bytes)) (pgs : list Z) (tail seq u : Z) (ov : Overlay) (kind : Z) (p r : bytes).
Context (Him : image d sb es pgs tail seq u ov) (Er : r = record crc32c (sb_nonce sb) seq kind p) (Hpl : plain (sb_nonce sb) r) (Hby : all_bytes r).
Context (Hsq : u64_ok seq) (Hp : zlen p < 2 ^ 32).
Context (Hfit : tail mod ll + zlen r <= ll) (Hu : u + zlen r + PAGE <= ll).
Context (HL : lands o d (blocks_of (log_off l + tail mod ll) r) d').
Context (Hv : written v (log_off l + tail mod ll) r).
Context (Hdet : forall k pl size, rec_at crc32c (sb_nonce sb) l d' (tail mod ll) seq = Some (k, pl, size) ->
    (forall q, tail mod ll <= q < tail mod ll + size -> block d' (pos_block q) = block d (pos_block q)) \/
    (forall q, tail mod ll <= q < tail mod ll + size -> block d' (pos_block q) = block v (pos_block q))).

Lemma behind_tail : aligned (tail mod ll) /\ aligned (zlen r) /\ 0 <= tail mod ll < ll /\ PAGE <= zlen r.
Proof using Hl Him Er.
  pose proof (ll_pos l Hl). pose proof (lg_tail _ _ _ _ _ _ _ _ _ _ _ (im_log _ _ _ _ _ _ _ _ _ _ _ Him)) as [_ Hta]. rewrite Er, zlen_record.
  pose proof (rec_size_spec (zlen p) (zlen_nonneg p)) as (_ & H1 & H2). split_and!; [by apply aligned_mod|done|apply Z.mod_pos_bound; lia..|done].
Qed.
Lemma behind_partly : partly l d d' (tail mod ll) r.
Proof using Hl Him Er HL. destruct behind_tail as (H1 & H2 & _). by eapply lands_partly. Qed.
Lemma behind_other i : (forall q, 0 <= q < ll -> i <> pos_block q) -> block d' i = block d i.
Proof using Hl Him Er HL Hfit.
  destruct behind_tail as (H1 & H2 & H3 & _). intros Hi. eapply lands_other; [exact HL|].
  intros (q & [Hq1 Hq2] & E)%record_block_in; [|done..]. apply (Hi q); [lia|done].
Qed.
Lemma behind_cases : image d' sb es pgs tail seq u ov \/ rec_at crc32c (sb_nonce sb) l d' (tail mod ll) seq = Some (kind, p, zlen r).
Proof using All.
  pose proof (im_log _ _ _ _ _ _ _ _ _ _ _ Him) as L. pose proof (im_sb _ _ _ _ _ _ _ _ _ _ _ Him) as [(_ & _ & _ & _ & Hn & _) _]. unfold PAGE in Hu.
  destruct (arrive (sb_nonce sb) d d' v _ _ tail seq u ov kind p r L Er Hpl Hby Hn Hsq Hp Hfit ltac:(lia) behind_partly Hv Hdet) as [H|H]; [left|by right].
  eapply image_with_log; [exact Him|exact behind_other|exact H|apply Him].
Qed.

(** Changes that arrive. *)
Lemma record_grown ops : kind <> 1 -> dec_ops p = Some ops -> ov_ok (overlay_all ov ops) ->
  rec_at crc32c (sb_nonce sb) l d' (tail mod ll) seq = Some (kind, p, zlen r) -> image d' sb es pgs (tail mod ll + zlen r) (seq + 1) (u + zlen r) (overlay_all ov ops).
Proof using Hl Him Er Hpl Hby Hsq Hfit Hu HL.
  intros Hk Hd Ho HR. eapply image_with_log; [exact Him|exact behind_other| |exact Ho]. unfold PAGE in Hu.
  eapply (log_grown crc32c dec_ops (sb_nonce sb) l Hl d d'); [apply Him|exact Er|exact Hpl|exact Hby|exact Hsq|exact Hfit|lia|exact behind_partly|exact HR|exact Hk|exact Hd|unfold PAGE; lia].
Qed.
(** Going on at the ring's start. *)
Lemma record_wrapped : kind = 1 -> u + (ll - tail mod ll) + PAGE <= ll ->
  rec_at crc32c (sb_nonce sb) l d' (tail mod ll) seq = Some (kind, p, zlen r) -> image d' sb es pgs 0 (seq + 1) (u + (ll - tail mod ll)) ov.
Proof using Hl Him Er Hpl Hby Hsq Hfit Hu HL.
  intros Hk Hw HR. rewrite Hk in HR. eapply image_with_log; [exact Him|exact behind_other| |apply Him]. unfold PAGE in Hu.
  eapply (log_wrapped crc32c dec_ops (sb_nonce sb) l Hl d d'); [apply Him|exact Er|exact Hpl|exact Hby|exact Hsq|exact Hfit|lia|exact behind_partly|exact HR|exact Hw].
Qed.
End Behind.
End Append.

#[local] Open Scope meta_scope.

Definition put_blocks (off : Z) (w : Z * bytes) : list (Z * bytes) := blocks_of (off + fst w) (snd w).
Lemma each_writes off W : forall s, exists d',
  ((each (fun w => dev_write (off + fst w) (snd w)) W ;; dev_flush) s = (Ok (), set_dev d' s) /\
     durable d' = land_all (view (dev s)) (concat (map (put_blocks off) W)) /\ cached d' = []) \/
  ((each (fun w => dev_write (off + fst w) (snd w)) W ;; dev_flush) s = (Err Io, set_dev d' s) /\
     ((durable d' = durable (dev s) /\ exists k, cached d' = cached (dev s) ++ concat (map (put_blocks off) (take k W))) \/
      (durable d' = land_all (view (dev s)) (concat (map (put_blocks off) W)) /\ cached d' = []))).
Proof.
  induction W as [|w W IH]; intros s; cbn [each map concat].
  - destruct (dev_op_faults (fun d => ((), mkDev (view d) [] (faults d))) s) as (d1 & D1 & C1 & [E|[E|E]]); unfold bind, ret, dev_flush; rewrite E; cbn [snd].
    + exists d1. right. split; [done|]. left. split; [done|]. exists 0%nat. by rewrite app_nil_r.
    + eexists. right. split; [done|]. right. split; [|done]. cbn. by apply view_eq.
    + eexists. left. split_and!; [done| |done]. cbn. by apply view_eq.
  - destruct (dev_op_faults (fun d => ((), mkDev (durable d) (cached d ++ put_blocks off w) (faults d))) s) as (d1 & D1 & C1 & HO).
    cbn [snd] in HO. set (s1 := set_dev (mkDev (durable d1) (cached d1 ++ put_blocks off w) (faults d1)) s) in HO. destruct HO as [E|[E|E]].
    + exists d1. right. unfold bind, dev_write. unfold put_blocks in E. rewrite E. split; [done|]. left. split; [done|]. exists 0%nat. by rewrite app_nil_r.
    + eexists. right. unfold bind, dev_write. unfold put_blocks in E. rewrite E. split; [done|]. left. split; [done|]. exists 1%nat. cbn. by rewrite C1, app_nil_r.
    + assert ((((dev_write (off + fst w) (snd w) ;; each (fun w => dev_write (off + fst w) (snd w)) W) ;; dev_flush) s)
        = ((each (fun w => dev_write (off + fst w) (snd w)) W ;; dev_flush) s1)) as -> by (unfold bind, dev_write; unfold put_blocks in E; by rewrite E).
      assert (land_all (view (dev s1)) (concat (map (put_blocks off) W)) = land_all (view (dev s)) (put_blocks off w ++ concat (map (put_blocks off) W))) as EV.
      { rewrite land_all_app. f_equal. unfold s1, view. cbn. by rewrite land_all_app, D1, C1. }
      destruct (IH s1) as (d' & [(E1 & E2 & E3)|(E1 & [(E2 & k & E3)|(E2 & E3)])]); exists d'; rewrite E1; [left|right|right]; (split; [done|]).
      * split; [by rewrite E2, EV|done].
      * left. split; [by rewrite E2|]. exists (S k). rewrite E3. cbn. by rewrite C1, app_assoc.
      * right. split; [by rewrite E2, EV|done].
Qed.

Lemma all_bytes_record crc32c nonce seq kind p : all_bytes p -> byte kind -> all_bytes (record crc32c nonce seq kind p).
Proof.
  intros Hp Hk. unfold record. apply all_bytes_splice; [|apply all_bytes_le_bytes]. apply all_bytes_write_all; [apply all_bytes_zeros|].
  unfold rec_fields. rewrite !Forall_cons, Forall_nil. cbn [snd]. split_and!; try apply all_bytes_le_bytes; try done.
  - repeat constructor; unfold byte; lia.
  - by apply Forall_singleton.
Qed.
Lemma plain_page nonce r : zlen r <= PAGE -> plain nonce r.
Proof. intros H i seq Hi. exfalso. assert (zlen r / PAGE < 2); [|lia]. apply Z.div_lt_upper_bound; unfold PAGE in *; lia. Qed.

Lemma lands_split o d ws1 ws2 s : lands o d (ws1 ++ ws2) s -> exists d1, lands o d ws1 d1 /\ lands o d1 ws2 s.
Proof.
  revert d. induction ws1 as [|w ws1 IH]; intros d H; [exists d; split; [apply LandsEnd|done]|]. cbn [app] in H.
  inversion H as [|d0 ws0 E|d0 w0 ws0 s0 H1|d0 i b x ws0 s0 Ht H1|d0 w0 ws0 s0 E H1]; subst.
  - exists s. split; by apply LandsStop.
  - destruct (IH _ H1) as (d1 & H2 & H3). exists d1. split; [by apply LandsKeep|done].
  - destruct o.
    + inversion H1; subst; eexists; (split; [eapply LandsTear; [exact Ht|by apply LandsStop]|by apply LandsStop]).
    + destruct (IH _ H1) as (d1 & H2 & H3). exists d1. split; [by eapply LandsTear|done].
  - destruct (IH _ H1) as (d1 & H2 & H3). exists d1. split; [by apply LandsLose|done].
Qed.

Section Write.
Context (crc32c : bytes -> Z) (dec_ops : bytes -> option (list Op)) (l : Layout) (Hl : layout_ok l).
Context (Hcrc : forall b, u32_ok (crc32c b)).
Abbreviation ll := (log_len l).
Abbreviation image := (image crc32c dec_ops l).
Abbreviation Inv := (Inv crc32c dec_ops l).
Abbreviation stored := (stored crc32c dec_ops l).
Abbreviation detects := (detects crc32c l).

(** A record written whole is found. *)
Lemma whole d d' sb es pgs tail seq u ov kind p r :
  image d sb es pgs tail seq u ov -> r = record crc32c (sb_nonce sb) seq kind p -> u64_ok seq -> zlen p < 2 ^ 32 -> tail mod ll + zlen r <= ll ->
  written d' (log_off l + tail mod ll) r -> rec_at crc32c (sb_nonce sb) l d' (tail mod ll) seq = Some (kind, p, zlen r).
Proof using Hl Hcrc.
  intros Him Er Hsq Hp Hfit Hw. destruct (im_sb _ _ _ _ _ _ _ _ _ _ _ Him) as [(_ & _ & _ & _ & Hn & _) _].
  destruct (behind_tail crc32c dec_ops l Hl d sb es pgs tail seq u ov kind p r Him Er) as (Hat & Har & Hb & Hpg).
  destruct (log_off_pos l Hl _ Hat) as [_ Hm]. rewrite Er in *. rewrite zlen_record in *. apply (rec_at_written crc32c Hcrc); try done.
  destruct Hl as (Ho & _). rewrite Ho. unfold PAGE. lia.
Qed.

(** The store with a log that has changed. *)
Lemma inv_log s mem dur es pgs seq0 ovl d' tail seq u ov' dur' :
  Inv s mem dur es pgs seq0 ovl -> cached d' = [] -> image (durable d') (sb_of s seq0) es pgs tail seq u ov' -> shows (list_to_map es) ov' dur' ->
  (forall p, 0 <= p < page_count l -> block (durable d') (blk l p) = block (view (dev s)) (blk l p)) ->
  Inv (set_log (log_start s) tail seq u (set_dev d' s)) mem dur' es pgs seq0 ov'.
Proof.
  intros [] Hc Him Hs Hb. split; try done.
  - apply wf_set_log. apply wf_view; [done|]. intros p Hp. unfold view at 1. rewrite Hc. cbn. unfold page_block. rewrite i_layout in *. by apply Hb.
  - cbn. rewrite Hc. by apply Forall_nil.
Qed.

(** Where a record goes. *)
Lemma plan_cases s mem dur es pgs seq0 ovl size : Inv s mem dur es pgs seq0 ovl -> MetaLog.fits s size = true -> aligned size -> PAGE <= size ->
  let tp := log_tail s mod ll in
  (plan s size = ([], tp, log_used s, next_seq s) /\ tp + size <= ll /\ log_used s + size + PAGE <= ll) \/
  (plan s size = ([(tp, next_seq s)], 0, log_used s + (ll - tp), next_seq s + 1) /\ tp = log_tail s /\ tp + PAGE <= ll < tp + size /\
     log_used s + (ll - tp) + size + PAGE <= ll).
Proof using Hl.
  intros I Hf Has Hpg tp. pose proof (im_log _ _ _ _ _ _ _ _ _ _ _ (i_image _ _ _ _ _ _ _ _ _ _ I)) as L.
  pose proof (lg_tail _ _ _ _ _ _ _ _ _ _ _ L) as [Ht Hta]. pose proof (lg_used _ _ _ _ _ _ _ _ _ _ _ L) as [Hu _]. pose proof (ll_aligned l Hl) as [Hla Hll].
  unfold MetaLog.fits, plan in *. rewrite (i_layout _ _ _ _ _ _ _ _ _ _ I) in *. change PAGE with 4096 in *.
  destruct (Z.eq_dec (log_tail s) ll) as [E|E].
  - left. assert (tp = 0) as -> by (unfold tp; rewrite E; apply Z.mod_same; lia). rewrite E in *.
    destruct (Z.ltb_spec ll (ll + size)); [|lia]. apply Z.leb_le in Hf. destruct (Z.leb_spec (ll + 4096) ll); [lia|].
    split_and!; [do 2 f_equal; lia|lia|lia].
  - assert (tp = log_tail s) as E2 by (unfold tp; apply Z.mod_small; lia). rewrite E2. destruct (Z.ltb_spec ll (log_tail s + size)).
    + right. apply Z.leb_le in Hf. pose proof (aligned_le (log_tail s) ll Hta Hla ltac:(lia)) as H1. change PAGE with 4096 in H1.
      destruct (Z.leb_spec (log_tail s + 4096) ll); [|lia]. split_and!; try done; lia.
    + left. apply Z.leb_le in Hf. split_and!; [done|lia|lia].
Qed.

Section One.
Context (o : bool) (s : MetaV2) (mem dur : MStore) (es : list (Key * bytes)) (pgs : list Z) (seq0 : Z) (ovl : Overlay) (I : Inv s mem dur es pgs seq0 ovl).
Context (ops : list Op) (payload : bytes) (Hdec : dec_ops payload = Some ops) (Hpb : all_bytes payload) (Hpz : zlen payload < 2 ^ 32).
Context (Hpl : forall q, plain (nonce s) (record crc32c (nonce s) q 0 payload)) (Hov : ov_ok (overlay_all ovl ops)).
Context (Hq : u64_ok (next_seq s + 1)).
Abbreviation size := (rec_size (zlen payload)).
Abbreviation tp := (log_tail s mod ll).
Abbreviation sb := (sb_of s seq0).
Abbreviation D := (durable (dev s)).
Abbreviation C := (cached (dev s)).
Abbreviation V := (view (dev s)).

Lemma one_seq : u64_ok (next_seq s).
Proof using All.
  pose proof (i_image _ _ _ _ _ _ _ _ _ _ I) as Him. pose proof (proj1 (log_counts _ _ _ l Hl _ _ _ _ _ _ _ (im_log _ _ _ _ _ _ _ _ _ _ _ Him))) as H.
  destruct (im_sb _ _ _ _ _ _ _ _ _ _ _ Him) as [(_ & _ & _ & H2 & _) _]. cbn in *. unfold u64_ok in *. lia.
Qed.
(** On the log, what is cached so far changes nothing. *)
Lemma one_log ws d q : spare l pgs ws -> lands o D ws d -> 0 <= q < ll -> block d (pos_block l q) = block D (pos_block l q).
Proof using Hl.
  intros Hs HL Hqb. eapply lands_other; [exact HL|]. eapply spare_not; [exact Hl|exact Hs|]. right; right; left. by exists q.
Qed.
Lemma one_spare : spare l pgs C.
Proof using I. by eapply inv_spare. Qed.

(** A cut with a record of the log behind what was cached: the store as it was, or with
    the record. *)
Lemma one_cut ws d kind p r img v :
  image d sb es pgs (log_tail s) (next_seq s) (log_used s) ovl -> (forall q, 0 <= q < ll -> block d (pos_block l q) = block D (pos_block l q)) ->
  r = record crc32c (nonce s) (next_seq s) kind p -> plain (nonce s) r -> all_bytes r -> zlen p < 2 ^ 32 -> tp + zlen r <= ll -> log_used s + zlen r + PAGE <= ll ->
  ws = blocks_of (log_off l + tp) r -> lands o d ws img -> written v (log_off l + tp) r -> detects (nonce s) D v img ->
  image img sb es pgs (log_tail s) (next_seq s) (log_used s) ovl \/ rec_at crc32c (nonce s) l img tp (next_seq s) = Some (kind, p, zlen r).
Proof using All.
  intros Him Hsame Er Hr Hrb Hpz' Hfit Hu -> HL Hv Hdet.
  destruct (behind_tail crc32c dec_ops l Hl d sb es pgs _ _ _ _ kind p r Him Er) as (Hat & _ & Hb & _).
  apply (behind_cases crc32c dec_ops l Hl Hcrc o d img v sb es pgs (log_tail s) (next_seq s) (log_used s) ovl kind p r Him Er Hr Hrb one_seq Hpz' Hfit Hu HL Hv).
  intros k pl sz HR. destruct (rec_at_size _ _ l Hl _ _ _ _ _ _ HR) as [_ Hf]. destruct (Hdet _ _ _ _ _ Hb Hat HR) as [H|H]; [left|by right].
  intros q Hqq. rewrite Hsame by lia. by apply H.
Qed.

Lemma stored_old img : image img sb es pgs (log_tail s) (next_seq s) (log_used s) ovl -> stored img dur.
Proof using I. intros H. eapply stored_intro; [exact H|apply I]. Qed.

(** The record alone. *)
Lemma alone_cut img : tp + size <= ll -> log_used s + size + PAGE <= ll ->
  let r := record crc32c (nonce s) (next_seq s) 0 payload in let ws := C ++ blocks_of (log_off l + tp) r in
  lands o D ws img -> detects (nonce s) D (land_all D ws) img -> stored img dur \/ stored img (store_ops dur ops).
Proof using All.
  intros Hfit Hu r ws HL Hdet. pose proof (zlen_record crc32c (nonce s) (next_seq s) 0 payload) as Hz. fold r in Hz.
  destruct (lands_split _ _ _ _ _ HL) as (d1 & HL1 & HL2). pose proof (inv_cut _ _ _ Hl _ _ _ _ _ _ _ I o d1 HL1) as Him.
  assert (written (land_all D ws) (log_off l + tp) r) as Hv by (unfold ws; rewrite land_all_app; apply land_written).
  assert (all_bytes r) as Hrb by (by apply all_bytes_record).
  destruct (one_cut _ d1 0 payload r img _ Him (fun q Hqb => one_log C d1 q one_spare HL1 Hqb) eq_refl (Hpl _) Hrb Hpz ltac:(by rewrite Hz) ltac:(by rewrite Hz) eq_refl HL2 Hv Hdet)
    as [H|H]; [left; by apply stored_old|right].
  eapply stored_intro; [|apply shows_ops, (i_dur _ _ _ _ _ _ _ _ _ _ I)].
  apply (record_grown crc32c dec_ops l Hl o d1 img sb es pgs _ _ _ ovl 0 payload r Him eq_refl (Hpl _) Hrb one_seq ltac:(by rewrite Hz) ltac:(by rewrite Hz) HL2 ops); done.
Qed.

(** A record to go on at the start, and the record there. *)
Definition wrap_record : bytes := record crc32c (nonce s) (next_seq s) 1 [].
Lemma wrap_zlen : zlen wrap_record = PAGE.
Proof. clear. unfold wrap_record. by rewrite zlen_record. Qed.
Lemma wrap_arrives d img : image d sb es pgs (log_tail s) (next_seq s) (log_used s) ovl -> tp + PAGE <= ll -> log_used s + (ll - tp) + PAGE <= ll ->
  lands o d (blocks_of (log_off l + tp) wrap_record) img -> rec_at crc32c (nonce s) l img tp (next_seq s) = Some (1, [], PAGE) ->
  image img sb es pgs 0 (next_seq s + 1) (log_used s + (ll - tp)) ovl.
Proof using All.
  intros Him Hfit Hu HL HR.
  apply (record_wrapped crc32c dec_ops l Hl o d img sb es pgs (log_tail s) (next_seq s) (log_used s) ovl 1 [] wrap_record); try done; try (rewrite wrap_zlen; unfold PAGE in *; lia).
  - by apply plain_page; rewrite wrap_zlen.
  - apply all_bytes_record; [by apply Forall_nil|unfold byte; lia].
  - apply one_seq.
Qed.
Lemma wrap_cut v img : tp + PAGE <= ll -> log_used s + (ll - tp) + PAGE <= ll -> written v (log_off l + tp) wrap_record ->
  lands o D (C ++ blocks_of (log_off l + tp) wrap_record) img -> detects (nonce s) D v img -> stored img dur.
Proof using All.
  intros Hfit Hu Hv HL Hdet. destruct (lands_split _ _ _ _ _ HL) as (d1 & HL1 & HL2). pose proof (inv_cut _ _ _ Hl _ _ _ _ _ _ _ I o d1 HL1) as Him.
  destruct (one_cut (blocks_of (log_off l + tp) wrap_record) d1 1 [] wrap_record img v Him (fun q Hqb => one_log C d1 q one_spare HL1 Hqb) eq_refl) as [H|H];
    try done; try (rewrite wrap_zlen; unfold PAGE in *; lia).
  - by apply plain_page; rewrite wrap_zlen.
  - apply all_bytes_record; [by apply Forall_nil|unfold byte; lia].
  - by apply stored_old.
  - rewrite wrap_zlen in H. eapply stored_intro; [eapply (wrap_arrives d1); done|apply I].
Qed.

(** Where the ring goes on at its start. *)
Section Both.
Context (Hw1 : tp + PAGE <= ll) (Hw2 : log_used s + (ll - tp) + size + PAGE <= ll).
Definition second_record : bytes := record crc32c (nonce s) (next_seq s + 1) 0 payload.
Abbreviation B1 := (blocks_of (log_off l + tp) wrap_record).
Abbreviation B2 := (blocks_of (log_off l + 0) second_record).

Lemma both_bounds : 0 <= log_used s /\ PAGE <= size /\ size + PAGE <= tp /\ zlen second_record = size /\ aligned tp /\ 0 mod ll = 0 /\ 0 < PAGE.
Proof using Hl I Hw2 Hw1.
  pose proof (im_log _ _ _ _ _ _ _ _ _ _ _ (i_image _ _ _ _ _ _ _ _ _ _ I)) as L. pose proof (lg_used _ _ _ _ _ _ _ _ _ _ _ L) as [Hu _].
  pose proof (rec_size_spec (zlen payload) (zlen_nonneg _)) as (_ & _ & H2). pose proof (lg_tail _ _ _ _ _ _ _ _ _ _ _ L) as [_ Hta].
  pose proof (ll_pos l Hl). split_and!; [done|done|lia|apply zlen_record|by apply aligned_mod|apply Z.mod_0_l; lia|done].
Qed.
Lemma both_apart q : pos_block l q ∈ map fst B1 -> pos_block l q ∉ map fst B2.
Proof using Hl I Hw2 Hw1.
  destruct both_bounds as (H1 & H2 & H3 & H4 & H5 & _). intros (q1 & [Hq1 _] & E)%record_block_in; [|done|done|by rewrite wrap_zlen].
  rewrite E. apply outside_block; [done|done|rewrite H4; apply rec_size_spec, zlen_nonneg|]. unfold inside. rewrite H4. unfold PAGE in *. lia.
Qed.
Lemma both_first d : written d (log_off l + tp) wrap_record -> written (land_all d B2) (log_off l + tp) wrap_record.
Proof using Hl I Hw2 Hw1.
  destruct both_bounds as (H1 & H2 & H3 & H4 & H5 & _). intros Hd i Hi. rewrite <- Hd by done. apply land_all_block_other.
  assert ((log_off l + tp) / PAGE + i = pos_block l (tp + i * PAGE)) as ->.
  { rewrite (proj1 (log_off_pos l Hl _ H5)). unfold pos_block. rewrite Z.div_add by done. lia. }
  apply both_apart. apply list_elem_of_fmap. exists (pos_block l (tp + i * PAGE), slice (i * PAGE) PAGE wrap_record). split; [done|]. apply record_blocks; [done|done|]. by exists i.
Qed.

(** The wrap written whole. *)
Lemma both_wrapped : image (land_all D (C ++ B1)) sb es pgs 0 (next_seq s + 1) (log_used s + (ll - tp)) ovl.
Proof using All.
  destruct both_bounds as (H1 & H2 & H3 & H4 & H5 & _ & HP). rewrite land_all_app. change (land_all D C) with V.
  pose proof (inv_view _ _ _ Hl _ _ _ _ _ _ _ I) as Him.
  apply (wrap_arrives V); [done|done|lia|apply lands_all|]. rewrite <- wrap_zlen.
  apply (whole V _ sb es pgs (log_tail s) (next_seq s) (log_used s) ovl); [done|done|by apply one_seq|done|by rewrite wrap_zlen|apply land_written].
Qed.

Lemma both_cut img : o = true -> let ws := (C ++ B1) ++ B2 in
  lands o D ws img -> detects (nonce s) D (land_all D ws) img -> stored img dur \/ stored img (store_ops dur ops).
Proof using All.
  intros Ho ws HL Hdet. destruct both_bounds as (H1 & H2 & H3 & H4 & H5 & H0 & HP).
  assert (all_bytes second_record) as Hrb by (by apply all_bytes_record).
  assert (written (land_all D ws) (log_off l + tp) wrap_record) as Hv1 by (unfold ws; rewrite land_all_app; apply both_first; rewrite land_all_app; apply land_written).
  rewrite Ho in HL. destruct (lands_app _ _ _ _ HL) as [HL1|HL2].
  - left. eapply wrap_cut; [done|lia|exact Hv1|rewrite Ho; exact HL1|exact Hdet].
  - pose proof both_wrapped as Him. set (d1 := land_all D (C ++ B1)) in *.
    assert (written (land_all D ws) (log_off l + 0 mod ll) second_record) as Hv by (unfold ws; rewrite land_all_app, H0; apply land_written).
    assert (Hd1 : forall q, 0 <= q < ll -> block d1 (pos_block l q) <> block D (pos_block l q) -> pos_block l q ∈ map fst B1).
    { intros q Hqb Hne. destruct (decide (pos_block l q ∈ map fst B1)) as [|Hn]; [done|]. destruct Hne. unfold d1. rewrite land_all_app, land_all_block_other by done.
      by apply (one_log C); [apply one_spare|apply lands_all|]. }
    rewrite <- H0 in HL2 at 1. destruct (behind_cases crc32c dec_ops l Hl Hcrc true d1 img (land_all D ws) sb es pgs 0 (next_seq s + 1) _ ovl 0 payload second_record
      Him eq_refl (Hpl _) Hrb Hq Hpz ltac:(lia) ltac:(lia) HL2 Hv) as [H|H].
    + intros k pl sz HR. destruct (rec_at_size _ _ l Hl _ _ _ _ _ _ HR) as [_ Hf]. pose proof (ll_pos l Hl) as Hllp.
      destruct (Hdet (0 mod ll) _ _ _ _ ltac:(rewrite H0; lia) ltac:(by rewrite H0) HR) as [HE|HE]; [left|by right]. intros q Hqq.
      destruct (decide (block d1 (pos_block l q) = block D (pos_block l q))) as [E|Hne]; [rewrite E; by apply HE|].
      apply Hd1 in Hne; [|lia]. eapply lands_other; [exact HL2|]. rewrite H0. by apply both_apart.
    + left. eapply stored_intro; [exact H|apply I].
    + right. eapply stored_intro; [|apply shows_ops, (i_dur _ _ _ _ _ _ _ _ _ _ I)].
      apply (record_grown crc32c dec_ops l Hl true d1 img sb es pgs 0 (next_seq s + 1) _ ovl 0 payload second_record Him eq_refl (Hpl _) Hrb Hq ltac:(lia) ltac:(lia) HL2 ops); done.
Qed.
End Both.

(** Pages are behind the log. *)
Lemma page_not_log p q : 0 <= p < page_count l -> 0 <= q < ll -> blk l p <> pos_block l q.
Proof using Hl. intros Hp Hqb. pose proof (pos_block_lt l Hl q Hqb). unfold blk. lia. Qed.
Lemma page_kept d p q r : 0 <= p < page_count l -> aligned q -> aligned (zlen r) -> 0 <= q -> q + zlen r <= ll ->
  block (land_all d (blocks_of (log_off l + q) r)) (blk l p) = block d (blk l p).
Proof using Hl.
  intros Hp Ha Har Hq0 Hf. apply land_all_block_other. intros (x & [Hx1 Hx2] & E)%record_block_in; [|done..]. by apply (page_not_log p x Hp ltac:(lia)).
Qed.

(** Written: the changes are durable. *)
Lemma written_spec d' u0 tail0 seq1 kd (r : bytes) d :
  image d sb es pgs tail0 seq1 u0 ovl -> kd = 0 -> r = record crc32c (nonce s) seq1 kd payload -> u64_ok seq1 -> tail0 mod ll + size <= ll -> u0 + size + PAGE <= ll ->
  durable d' = land_all d (blocks_of (log_off l + tail0 mod ll) r) -> cached d' = [] ->
  (forall p, 0 <= p < page_count l -> block d (blk l p) = block V (blk l p)) ->
  Inv (set_log (log_start s) (tail0 mod ll + size) (seq1 + 1) (u0 + size) (set_dev d' s)) mem (store_ops dur ops) es pgs seq0 (overlay_all ovl ops).
Proof using All.
  intros Him Hk Er Hsq Hfit Hu Hd Hc Hpg. subst kd. pose proof (zlen_record crc32c (nonce s) seq1 0 payload) as Hz. rewrite <- Er in Hz.
  destruct (behind_tail crc32c dec_ops l Hl d sb es pgs _ _ _ _ 0 payload r Him Er) as (Hat & Har & Hb & _).
  eapply (inv_log s mem dur es pgs seq0 ovl); [exact I|exact Hc| |apply shows_ops, (i_dur _ _ _ _ _ _ _ _ _ _ I)|].
  - rewrite Hd, <- Hz. apply (record_grown crc32c dec_ops l Hl false d _ sb es pgs tail0 seq1 u0 ovl 0 payload r Him Er); try done; try lia.
    + rewrite Er. apply Hpl.
    + rewrite Er. by apply all_bytes_record.
    + apply lands_all.
    + apply (whole d _ sb es pgs tail0 seq1 u0 ovl 0 payload r); try done; [lia|apply land_written].
  - intros p Hp. rewrite Hd, page_kept by (done || lia). by apply Hpg.
Qed.

(** The writes of a plan: all of them and the flush, or the first few, and it is not
    known whether they took effect. *)
Lemma write_record_cases wraps tail0 u0 seq1 r s' :
  plan s size = (wraps, tail0, u0, seq1) -> write_record crc32c payload size s = (r, s') ->
  let W := map (fun w => (fst w, record crc32c (nonce s) (snd w) 1 [])) wraps ++ [(tail0, record crc32c (nonce s) seq1 0 payload)] in
  exists d', (r = Ok () /\ s' = set_log (log_start s) (tail0 + size) (seq1 + 1) (u0 + size) (set_dev d' s) /\
      durable d' = land_all V (concat (map (put_blocks (log_off l)) W)) /\ cached d' = []) \/
    (r = Err Io /\ s' = set_unsure (set_dev d' s) /\
      ((durable d' = D /\ exists k, cached d' = C ++ concat (map (put_blocks (log_off l)) (take k W))) \/
       (durable d' = land_all V (concat (map (put_blocks (log_off l)) W)) /\ cached d' = []))).
Proof using All.
  intros Ep Er W. unfold write_record in Er. rewrite Ep, (i_layout _ _ _ _ _ _ _ _ _ _ I) in Er. fold W in Er.
  destruct (each_writes (log_off l) W s) as (d' & [(E & Hd & Hc)|(E & Hd)]); exists d'; unfold bind at 1, risky in Er; rewrite E in Er; injection Er as <- <-; [left|right]; by split_and!.
Qed.

Lemma write_record_spec r s' :
  MetaLog.fits s size = true -> (o = true \/ log_tail s + size <= ll) -> write_record crc32c payload size s = (r, s') ->
  match r with
  | Ok _ => Inv s' mem (store_ops dur ops) es pgs seq0 (overlay_all ovl ops) /\ overlay s' = overlay s /\ gen s' = gen s /\ next_seq s' <= next_seq s + 2
  | Err e => e = Io /\ unsure s' = true /\ forall img, cut o (dev s') img -> detects (nonce s) (durable (dev s')) (view (dev s')) img -> stored img dur \/ stored img (store_ops dur ops)
  end.
Proof using All.
  intros Hf Ho Er. pose proof (rec_size_spec (zlen payload) (zlen_nonneg _)) as (_ & Has & Hpg). pose proof (inv_view _ _ _ Hl _ _ _ _ _ _ _ I) as HimV.
  assert (forall img, cut o (dev s) img -> stored img dur) as Hnone by (intros img HL; apply stored_old; eapply inv_cut; [exact Hl|exact I|exact HL]).
  assert (forall d' st g q u, Inv (set_log st g q u (set_dev d' s)) mem (store_ops dur ops) es pgs seq0 (overlay_all ovl ops) ->
    forall img, cut o d' img -> stored img (store_ops dur ops)) as Hdone.
  { intros d' st g q u I' img HL. eapply (sound_cut crc32c dec_ops l Hl (set_log st g q u (set_dev d' s)) mem); [|exact HL]. by exists es, pgs, seq0, (overlay_all ovl ops). }
  destruct (plan_cases s mem dur es pgs seq0 ovl size I Hf Has Hpg) as [(Ep & Hfit & Hu)|(Ep & Et & Hfit & Hu)];
    destruct (write_record_cases _ _ _ _ r s' Ep Er) as (d' & HO); cbn [map app fst snd concat] in *; rewrite app_nil_r in HO.
  - assert (durable d' = land_all V (put_blocks (log_off l) (tp, record crc32c (nonce s) (next_seq s) 0 payload)) -> cached d' = [] ->
      Inv (set_log (log_start s) (tp + size) (next_seq s + 1) (log_used s + size) (set_dev d' s)) mem (store_ops dur ops) es pgs seq0 (overlay_all ovl ops)) as Hin.
    { intros Hd Hc. apply (written_spec d' (log_used s) (log_tail s) (next_seq s) 0 (record crc32c (nonce s) (next_seq s) 0 payload) V); try done. apply one_seq. }
    destruct HO as [(-> & -> & Hd & Hc)|(-> & -> & [(Hd & k & Hc)|(Hd & Hc)])].
    + split_and!; [by apply Hin|done|done|cbn; lia].
    + split_and!; [done|done|]. unfold cut, view. cbn [dev set_unsure set_dev]. rewrite Hd, Hc. destruct k as [|k]; cbn [take map concat].
      * rewrite app_nil_r. intros img HL _. left. by apply Hnone.
      * rewrite take_nil. cbn [map concat]. rewrite app_nil_r. intros img. by apply alone_cut.
    + split_and!; [done|done|]. intros img HL _. right. by eapply Hdone; [apply Hin|].
  - destruct (both_bounds (proj1 Hfit) Hu) as (H1 & H2 & H3 & H4 & H5 & H0 & HP).
    assert (durable d' = land_all V (put_blocks (log_off l) (tp, record crc32c (nonce s) (next_seq s) 1 []) ++ put_blocks (log_off l) (0, second_record)) -> cached d' = [] ->
      Inv (set_log (log_start s) (0 + size) (next_seq s + 1 + 1) (log_used s + (ll - tp) + size) (set_dev d' s)) mem (store_ops dur ops) es pgs seq0 (overlay_all ovl ops)) as Hin.
    { intros Hd Hc. rewrite <- H0 at 1.
      apply (written_spec d' _ 0 (next_seq s + 1) 0 second_record (land_all D (C ++ blocks_of (log_off l + tp) wrap_record)));
        [exact (both_wrapped (proj1 Hfit) Hu)|reflexivity|reflexivity|exact Hq|rewrite H0; lia|lia|by rewrite Hd, !land_all_app, H0|exact Hc|].
      intros p Hp. rewrite land_all_app. apply page_kept; [exact Hp|exact H5|by rewrite wrap_zlen|lia|rewrite wrap_zlen; lia]. }
    destruct HO as [(-> & -> & Hd & Hc)|(-> & -> & [(Hd & k & Hc)|(Hd & Hc)])].
    + split_and!; [by apply Hin|done|done|cbn; lia].
    + split_and!; [done|done|]. assert (o = true) as Ho' by (destruct Ho; [done|lia]).
      unfold cut, view. cbn [dev set_unsure set_dev]. rewrite Hd, Hc. destruct k as [|[|k]]; cbn [take map concat]; rewrite ?take_nil; cbn [map concat]; rewrite ?app_nil_r.
      * intros img HL _. left. by apply Hnone.
      * intros img HL Hdet. left. eapply (wrap_cut (land_all D (C ++ blocks_of (log_off l + tp) wrap_record))); [apply Hfit|lia|rewrite land_all_app; apply land_written|exact HL|exact Hdet].
      * rewrite app_assoc. intros img. by apply (both_cut (proj1 Hfit) Hu).
    + split_and!; [done|done|]. intros img HL _. right. by eapply Hdone; [apply Hin|].
Qed.
End One.
End Write.
