(* ===== verification/MetaStoreSpec.v ===== *)
(** The metadata store as its callers see it: a map of keys to values that changes by
    whole groups of operations, and that a power cut leaves with such a group or without. *)

From S2P Require Import Prelude ExtMap MetaPage MetaPageProofs MetaTree MetaTreePages MetaTreeApply MetaTreeWrite.
From S2P Require Import MetaTreeWrite MetaLog MetaRecord MetaChain MetaLogDisk MetaOpen MetaCheckpoint MetaAppend.
#[local] Open Scope meta_scope.

(** What a store may hold while a group is on its way. *)
Definition between_ops (mem dur : MStore) (ops : list Op) : list MStore := [dur; mem; store_ops dur ops; store_ops mem ops].
Lemma between_cases mem dur ops m : m = dur \/ m = mem \/ m = store_ops dur ops \/ m = store_ops mem ops -> m ∈ between_ops mem dur ops.
Proof. unfold between_ops. set_solver. Qed.

Section Store.
Context (crc32c : bytes -> Z) (enc_ops : list Op -> bytes) (dec_ops : bytes -> option (list Op)) (l : Layout) (Hl : layout_ok l).
Context (Hll : log_len l <= 2 ^ 26) (Hcrc : forall b, u32_ok (crc32c b)).
Abbreviation ll := (log_len l).
Abbreviation Sound := (Sound crc32c dec_ops l).
Abbreviation stored := (stored crc32c dec_ops l).
Abbreviation detects := (detects crc32c l).

(** A group of changes the log can carry: its keys are keys, the codec gives it back,
    and no page of its encoding but the first looks like the start of a record. *)
Record group_ok (nonce : Z) (ops : list Op) : Prop := {
  g_keys : Forall (fun op => match op with Put k _ | Del k => key_ok k | DropVolume _ => True end) ops;
  g_codec : dec_ops (enc_ops ops) = Some ops;
  g_bytes : all_bytes (enc_ops ops);
  g_plain q : plain nonce (record crc32c nonce q 0 (enc_ops ops)) }.

Section One.
Context (o : bool) (mem dur : MStore) (ops : list Op).
Abbreviation between_ops := (between_ops mem dur ops).
(** The outcome of [append]: done, it is done; failed, the store in memory is with the
    group or without (unless a write of the log or a superblock failed: then the store
    must be opened again); and so is whatever a power cut leaves. *)
Definition appended (s' : MetaV2) (r : result MetaErr ()) : Prop :=
  match r with
  | Ok _ => exists d, (d = store_ops dur ops \/ d = store_ops mem ops) /\ Sound s' (store_ops mem ops) d
  | Err e => e <> Panic -> unsure s' = false -> exists m d, (m = mem \/ m = store_ops mem ops) /\ d ∈ between_ops /\ Sound s' m d
  end.
Definition survives (s' : MetaV2) (nonce : Z) : Prop :=
  forall img, cut o (dev s') img -> detects nonce (durable (dev s')) (view (dev s')) img -> exists m, m ∈ between_ops /\ stored img m.

Lemma sound_survives s nonce m d : Sound s m d -> d ∈ between_ops -> survives s nonce.
Proof using Hl. intros HS Hd img HL _. exists d. split; [done|]. by eapply sound_cut. Qed.
Lemma ended_survives s s' m d m' r nonce : ended crc32c dec_ops l s s' m d m' r -> d ∈ between_ops -> m' ∈ between_ops -> survives s' nonce.
Proof using Hl.
  intros [_ HR] Hd Hm'. destruct r as [[]|e].
  - destruct HR as [HS _]. by eapply sound_survives.
  - destruct HR as [_ HC]. intros img HL _. destruct (HC o img HL); eauto.
Qed.
End One.

Lemma ops_ok ops : Forall (fun op => match op with Put k _ | Del k => key_ok k | DropVolume _ => True end) ops -> head (omap too_big ops) = None ->
  Forall (fun op => match op with Put k v => key_ok k /\ zlen v <= MAX_VALUE | Del k => key_ok k | DropVolume _ => True end) ops.
Proof.
  induction 1 as [|op ops Hop _ IH]; [constructor|]. cbn [omap list_omap]. destruct op as [k v|k|v]; cbn [too_big]; [|intros; constructor; auto..].
  destruct (Z.ltb_spec MAX_VALUE (zlen v)); [done|]. intros. constructor; auto.
Qed.
(** Applying a group to the overlay. *)
Lemma sound_apply s mem dur ops : Sound s mem dur ->
  Forall (fun op => match op with Put k v => key_ok k /\ zlen v <= MAX_VALUE | Del k => key_ok k | DropVolume _ => True end) ops ->
  Sound (set_overlay (overlay_all (overlay s) ops) s) (store_ops mem ops) dur.
Proof.
  intros (es & pgs & seq0 & ovl & []) Hops. exists es, pgs, seq0, ovl. split; try done; [by apply wf_set_overlay|by apply shows_ops|by apply ov_ok_all].
Qed.

(** After a checkpoint there is room. *)
Lemma fits_after s mem dur size : Sound s mem dur -> log_used s = 0 -> aligned size -> size <= ll / 4 -> MetaLog.fits s size = true.
Proof using Hl.
  intros (es & pgs & seq0 & ovl & I) Hu Ha Hs. pose proof (im_log _ _ _ _ _ _ _ _ _ _ _ (i_image _ _ _ _ _ _ _ _ _ _ I)) as L.
  pose proof (lg_tail _ _ _ _ _ _ _ _ _ _ _ L) as [Ht _]. pose proof (ll_pos l Hl). unfold MetaLog.fits. rewrite (i_layout _ _ _ _ _ _ _ _ _ _ I), Hu.
  pose proof (Z.mul_div_le ll 4 ltac:(lia)). change PAGE with 4096. destruct (Z.ltb_spec ll (log_tail s + size)); apply Z.leb_le; lia.
Qed.

Section Append.
Context (o : bool) (s : MetaV2) (mem dur : MStore) (ops : list Op) (HS : Sound s mem dur) (Hg : group_ok (nonce s) ops).
Context (Hgen : gen s + 2 < 2 ^ 64) (Hseq : next_seq s + 2 < 2 ^ 64).
Abbreviation size := (rec_size (zlen (enc_ops ops))).
Context (Ho : o = true \/ log_tail s + size <= ll).
Abbreviation survives := (survives o mem dur ops).
Abbreviation appended := (appended mem dur ops).

(** The record, from a store with room for it; what comes after it. *)
Lemma logged s1 d1 r s' :
  same_log s s1 -> Sound s1 mem d1 -> (d1 = dur \/ d1 = mem) -> gen s1 <= gen s + 1 -> head (omap too_big ops) = None -> size <= ll / 4 -> MetaLog.fits s1 size = true ->
  (write_record crc32c (enc_ops ops) size ;; modify (fun s => set_overlay (overlay_all (overlay s) ops) s) ;;
   do over := gets (fun s => (CHECKPOINT_ENTRIES <? Z.of_nat (base.size (puts (overlay s)))) || (log_len (layout s) / 2 <? log_used s)) in
   if over : bool then checkpoint crc32c else ret ()) s1 = (r, s') ->
  appended s' r /\ survives s' (nonce s).
Proof using All.
  intros (E1 & E2 & E3 & E4 & E5) (es & pgs & seq0 & ovl & I1) Hd1 Hg1 Hsmall Hsz Hfit Er. pose proof Hg as [K1 K2 K3 K4]. pose proof (ops_ok ops K1 Hsmall) as Hops.
  pose proof (im_log _ _ _ _ _ _ _ _ _ _ _ (i_image _ _ _ _ _ _ _ _ _ _ I1)) as L1. pose proof (im_sb _ _ _ _ _ _ _ _ _ _ _ (i_image _ _ _ _ _ _ _ _ _ _ I1)) as [(_ & _ & _ & Hs0 & _) _].
  pose proof (proj1 (log_counts _ _ _ l Hl _ _ _ _ _ _ _ L1)) as Hq0. cbn in Hq0, Hs0.
  pose proof (rec_size_spec (zlen (enc_ops ops)) (zlen_nonneg _)) as (Hrs & Has & Hpg).
  assert (zlen (enc_ops ops) < 2 ^ 32) as Hz. { pose proof (Z.mul_div_le ll 4 ltac:(lia)). unfold LOG_HEADER in *. lia. }
  assert (ov_ok (overlay_all ovl ops)) as Hov by (apply ov_ok_all; [exact (im_ov _ _ _ _ _ _ _ _ _ _ _ (i_image _ _ _ _ _ _ _ _ _ _ I1))|done]).
  unfold bind at 1 in Er. destruct (write_record crc32c (enc_ops ops) size s1) as [[[]|e] s2] eqn:Ew; cycle 1.
  - injection Er as <- <-.
    pose proof (write_record_spec crc32c dec_ops l Hl Hcrc o s1 mem d1 es pgs seq0 ovl I1 ops (enc_ops ops) K2 K3 Hz) as HW. rewrite E4 in HW.
    specialize (HW K4 Hov ltac:(unfold u64_ok in *; lia) _ _ Hfit ltac:(by rewrite E2) Ew). cbn in HW. destruct HW as (-> & Hun & HC). split; [intros _ Hf; congruence|].
    intros img HL Hdet. destruct (HC img HL Hdet) as [H|H]; eexists; (split; [|exact H]); apply between_cases; destruct Hd1 as [->| ->]; auto.
  - pose proof (write_record_spec crc32c dec_ops l Hl Hcrc o s1 mem d1 es pgs seq0 ovl I1 ops (enc_ops ops) K2 K3 Hz) as HW. rewrite E4 in HW.
    specialize (HW K4 Hov ltac:(unfold u64_ok in *; lia) _ _ Hfit ltac:(by rewrite E2) Ew). cbn in HW. destruct HW as (I2 & _ & Hg2 & Hq2).
    assert (store_ops d1 ops ∈ between_ops mem dur ops) as Hin by (apply between_cases; destruct Hd1 as [->| ->]; auto).
    pose proof (sound_apply s2 mem (store_ops d1 ops) ops ltac:(by eexists _, _, _, _) Hops) as HS3.
    unfold bind in Er. cbn [modify gets] in Er. set (s3 := set_overlay _ s2) in *.
    destruct (_ || _) in Er.
    + pose proof (checkpoint_ended crc32c dec_ops l Hl Hcrc s3 _ _ r s' HS3 ltac:(cbn; lia) ltac:(cbn; lia) Er) as HE. split.
      * destruct HE as [_ HR]. destruct r as [[]|e]; cbn.
        -- exists (store_ops mem ops). split; [auto|apply HR].
        -- intros Hne Hun. destruct (proj1 HR Hne Hun) as [HS' _]. exists (store_ops mem ops), (store_ops d1 ops). auto.
      * eapply ended_survives; [exact HE|done|]. apply between_cases. auto.
    + injection Er as <- <-. split; [|by eapply sound_survives]. exists (store_ops d1 ops). split; [destruct Hd1 as [->| ->]; auto|exact HS3].
Qed.

Lemma append_spec r s' : append crc32c enc_ops ops s = (r, s') -> appended s' r /\ survives s' (nonce s).
Proof using All.
  assert (layout s = l) as EL by (destruct HS as (? & ? & ? & ? & I); apply I).
  assert (same_log s s) as Hsame by (unfold same_log; split_and!; done || lia). unfold append. case_eq ops; [intros E0 Er|intros op rest E0; rewrite <- E0; intros Er].
  { injection Er as <- <-. split; [|eapply sound_survives; [exact HS|]; apply between_cases; auto]. exists dur. auto. }
  destruct (head (omap too_big ops)) as [k|] eqn:Eb.
  { injection Er as <- <-. split; [|eapply sound_survives; [exact HS|]; apply between_cases; auto].
    intros _ _. exists mem, dur. split_and!; [auto|apply between_cases; auto|exact HS]. }
  pose proof (rec_size_spec (zlen (enc_ops ops)) (zlen_nonneg _)) as (Hrs & Has & Hpg). pose proof (ops_ok ops (g_keys _ _ Hg) Eb) as Hops.
  rewrite EL in Er. destruct (Z.ltb_spec (ll / 4) size) as [Hbig|Hsz].
  - unfold bind in Er. cbn [modify] in Er. set (s1 := set_overlay _ s) in *. pose proof (sound_apply s mem dur ops HS Hops) as HS1. fold s1 in HS1.
    pose proof (checkpoint_ended crc32c dec_ops l Hl Hcrc s1 _ _ r s' HS1 ltac:(cbn; lia) ltac:(cbn; lia) Er) as HE. split.
    + destruct HE as [_ HR]. destruct r as [[]|e]; cbn; [exists (store_ops mem ops); split; [auto|apply HR]|].
      intros Hne Hun. destruct (proj1 HR Hne Hun) as [HS' _]. exists (store_ops mem ops), dur. split_and!; [auto|apply between_cases; auto|exact HS'].
    + eapply ended_survives; [exact HE|apply between_cases; auto..].
  - unfold bind at 1 in Er. destruct (MetaLog.fits s size) eqn:Ef; cbn [ret] in Er.
    + eapply (logged s dur); [done|exact HS|auto|lia|done|done|done|exact Er].
    + destruct (checkpoint crc32c s) as [r1 s1] eqn:Ec.
      pose proof (checkpoint_ended crc32c dec_ops l Hl Hcrc s mem dur r1 s1 HS ltac:(lia) ltac:(lia) Ec) as HE. pose proof HE as [HSL HR]. destruct r1 as [[]|e].
      * destruct HR as [HS1 Hu1]. eapply (logged s1 mem); [done|exact HS1|auto|apply HSL|done|done|by eapply fits_after|exact Er].
      * injection Er as <- <-. split; [|eapply ended_survives; [exact HE|apply between_cases; auto..]].
        intros Hne Hun. destruct (proj1 HR Hne Hun) as [HS' _]. exists mem, dur. split_and!; [auto|apply between_cases; auto|exact HS'].
Qed.
End Append.
End Store.
