(* ===== verification/MetaLaws.v ===== *)
(** The promises of the metadata store ([volume/metav2.rs]), with the stores that show
    they can be kept. *)

From S2P Require Import Prelude ExtMap MetaPage MetaPageProofs MetaTree MetaTreePages MetaTreeApply MetaTreeWrite.
From S2P Require Import MetaTreeWrite MetaLog MetaRecord MetaChain MetaLogDisk MetaOpen MetaCheckpoint MetaAppend MetaStoreSpec.
#[local] Open Scope meta_scope.

Section Laws.
Context (crc32c : bytes -> Z) (enc_ops : list Op -> bytes) (dec_ops : bytes -> option (list Op)).
Context (size : Z) (l : Layout).
Context (Hcrc : forall b, u32_ok (crc32c b)) (Hsize : 0 <= size < 2 ^ 64) (Hfor : for_size size = Ok l).
Abbreviation Sound := (Sound crc32c dec_ops l).
Abbreviation open := (open crc32c dec_ops).

(** What is stored is opened. *)
Lemma stored_opened img m : stored crc32c dec_ops l img m -> exists st, open (power_on img []) size = Ok (Some st) /\ Sound st m m.
Proof using Hsize Hfor.
  intros (sb & es & pgs & tail & seq & u & ov & Him & Hm). destruct (for_size_ok _ _ Hsize Hfor) as [Hl _].
  destruct (open_spec crc32c dec_ops l Hl size img sb es pgs tail seq u ov m Hfor Him Hm) as (st & E & I). exists st. split; [done|]. by exists es, pgs, (sb_log_seq sb), ov.
Qed.

(** What [open] makes of an image. *)
Definition opens_to (img : disk) (P : MStore -> Prop) : Prop :=
  exists m st, open (power_on img []) size = Ok (Some st) /\ Sound st m m /\ P m.

Lemma append_atomic o s mem dur ops r s' :
  Sound s mem dur -> group_ok crc32c enc_ops dec_ops (nonce s) ops -> gen s + 2 < 2 ^ 64 -> next_seq s + 2 < 2 ^ 64 ->
  (o = true \/ log_tail s + rec_size (zlen (enc_ops ops)) <= log_len l) -> append crc32c enc_ops ops s = (r, s') ->
  appended crc32c dec_ops l mem dur ops s' r /\
  forall img, cut o (dev s') img -> detects crc32c l (nonce s) (durable (dev s')) (view (dev s')) img ->
    opens_to img (fun m => m ∈ between_ops mem dur ops /\ (r = Ok () -> m = store_ops dur ops \/ m = store_ops mem ops)).
Proof using Hcrc Hsize Hfor.
  intros HS Hg Hgen Hseq Ho Er. destruct (for_size_ok _ _ Hsize Hfor) as [Hl Hll].
  destruct (append_spec crc32c enc_ops dec_ops l Hl Hll Hcrc o s mem dur ops HS Hg Hgen Hseq Ho r s' Er) as [HA HV]. split; [exact HA|]. intros img HL Hdet.
  destruct r as [[]|e].
  - destruct HA as (d & Hd & HS'). destruct (stored_opened img d (sound_cut crc32c dec_ops l Hl _ _ _ _ _ HS' HL)) as (st & E & HSt).
    exists d, st. split_and!; [done|done| |done]. apply between_cases. destruct Hd as [->| ->]; auto.
  - destruct (HV img HL Hdet) as (m & Hm & Hst). destruct (stored_opened img m Hst) as (st & E & HSt). exists m, st. by split_and!.
Qed.

(** C5. A power cut during or after [append] loses nothing of before and nothing of the
    group in part, when the device keeps its cache in order or the record does not wrap round
    the ring, the group fits a record ([group_ok]) and a torn record does not check
    ([detects]): whatever the device kept of its cache, failed writes and blocks torn by the
    sector included, [open] finds the store as it was, as it was durable, or with the whole
    group; with the group, if the append was acknowledged.  An append that fails leaves the
    store in memory with the group or without, unless it failed in writing the log or a
    superblock. *)
Theorem append_crash_safe o s mem dur ops r s' :
  Sound s mem dur -> group_ok crc32c enc_ops dec_ops (nonce s) ops -> gen s + 2 < 2 ^ 64 -> next_seq s + 2 < 2 ^ 64 ->
  (o = true \/ log_tail s + rec_size (zlen (enc_ops ops)) <= log_len l) -> append crc32c enc_ops ops s = (r, s') ->
  appended crc32c dec_ops l mem dur ops s' r /\
  forall img, cut o (dev s') img -> detects crc32c l (nonce s) (durable (dev s')) (view (dev s')) img ->
    exists m st, open (power_on img []) size = Ok (Some st) /\ Sound st m m /\ m ∈ between_ops mem dur ops /\
      (r = Ok () -> m = store_ops dur ops \/ m = store_ops mem ops).
Proof using Hcrc Hsize Hfor. exact (append_atomic o s mem dur ops r s'). Qed.

Lemma checkpoint_atomic o s mem dur mem' r s' :
  Sound s mem dur -> gen s + 1 < 2 ^ 64 -> next_seq s < 2 ^ 64 ->
  (mem' = mem /\ checkpoint crc32c s = (r, s')) \/ (exists es, es_ok None None es /\ mem' = list_to_map es /\ replace_all crc32c es s = (r, s')) ->
  match r with Ok _ => Sound s' mem' mem' | Err e => e <> Panic -> unsure s' = false -> Sound s' mem dur end /\
  forall img, cut o (dev s') img -> opens_to img (fun m => m = mem' \/ (m = dur /\ r <> Ok ())).
Proof using Hcrc Hsize Hfor.
  intros HS Hgen Hseq Hop. destruct (for_size_ok _ _ Hsize Hfor) as [Hl Hll].
  assert (ended crc32c dec_ops l s s' mem dur mem' r) as [_ HE].
  { destruct Hop as [[-> Er]|(es & He & -> & Er)]; [by eapply checkpoint_ended|by eapply replace_all_ended]. }
  destruct r as [[]|e].
  - destruct HE as [HS' _]. split; [done|]. intros img HL. destruct (stored_opened img mem' (sound_cut crc32c dec_ops l Hl _ _ _ _ _ HS' HL)) as (st & E & HSt).
    exists mem', st. auto.
  - destruct HE as [HM HC]. split; [intros Hne Hun; by apply HM|]. intros img HL. destruct (HC o img HL) as [H|H]; destruct (stored_opened img _ H) as (st & E & HSt).
    + exists dur, st. split_and!; [done|done|right; by split].
    + exists mem', st. auto.
Qed.

Lemma replace_atomic o s mem dur es r s' :
  Sound s mem dur -> gen s + 2 < 2 ^ 64 -> next_seq s + 2 < 2 ^ 64 -> es_ok None None es -> replace_all crc32c es s = (r, s') ->
  match r with Ok _ => Sound s' (list_to_map es) (list_to_map es) | Err e => e <> Panic -> unsure s' = false -> Sound s' mem dur end /\
  forall img, cut o (dev s') img -> opens_to img (fun m => m = list_to_map es \/ (m = dur /\ r <> Ok ())).
Proof using Hcrc Hsize Hfor. intros HS Hg Hq He E. apply (checkpoint_atomic o s mem dur (list_to_map es) r s'); [done|lia|lia|]. right. by exists es. Qed.
Lemma fold_atomic o s mem dur r s' :
  Sound s mem dur -> gen s + 2 < 2 ^ 64 -> next_seq s + 2 < 2 ^ 64 -> checkpoint crc32c s = (r, s') ->
  match r with Ok _ => Sound s' mem mem | Err e => e <> Panic -> unsure s' = false -> Sound s' mem dur end /\
  forall img, cut o (dev s') img -> opens_to img (fun m => m = mem \/ (m = dur /\ r <> Ok ())).
Proof using Hcrc Hsize Hfor. intros HS Hg Hq E. apply (checkpoint_atomic o s mem dur mem r s'); [done|lia|lia|]. by left. Qed.

(** C6. [checkpoint] and [replace_all] are atomic under a power cut, in whatever order
    the device writes its cache: [open] finds the old store or the new one, the new one
    if the operation succeeded; failed, the store in memory is the old one. *)
Theorem checkpoint_crash_safe o s mem dur mem' r s' :
  Sound s mem dur -> gen s + 1 < 2 ^ 64 -> next_seq s < 2 ^ 64 ->
  (mem' = mem /\ checkpoint crc32c s = (r, s')) \/ (exists es, es_ok None None es /\ mem' = list_to_map es /\ replace_all crc32c es s = (r, s')) ->
  match r with Ok _ => Sound s' mem' mem' | Err e => e <> Panic -> unsure s' = false -> Sound s' mem dur end /\
  forall img, cut o (dev s') img -> exists m st, open (power_on img []) size = Ok (Some st) /\ Sound st m m /\ (m = mem' \/ (m = dur /\ r <> Ok ())).
Proof using Hcrc Hsize Hfor. exact (checkpoint_atomic o s mem dur mem' r s'). Qed.

Lemma scan_shows s mem dur out s' : Sound s mem dur -> scan crc32c s = (Ok out, s') -> out = entries mem /\ Sound s' mem dur.
Proof using Hsize Hfor.
  intros (es & pgs & seq0 & ovl & I) E. destruct (for_size_ok _ _ Hsize Hfor) as [Hl _]. pose proof (im_es _ _ _ _ _ _ _ _ _ _ _ (i_image _ _ _ _ _ _ _ _ _ _ I)) as [Hs _].
  pose proof (scan_spec crc32c s es pgs mem (i_wf _ _ _ _ _ _ _ _ _ _ I) (inv_live _ _ _ Hl _ _ _ _ _ _ _ I) (inv_holds _ _ _ Hl _ _ _ _ _ _ _ I) Hs (i_mem _ _ _ _ _ _ _ _ _ _ I)) as H1.
  unfold wp in H1. rewrite E in H1. destruct H1 as (-> & X & W'). split; [done|]. exists es, pgs, seq0, ovl. by eapply inv_read.
Qed.

(** C31. Reads: [scan] gives the entries of the map the store shows, in key order, and
    [scan_range] those with keys in the range, and leaves the store as it was; on a
    device that does not fail they return. *)
Theorem scan_exact s mem dur lo hi : Sound s mem dur ->
  (forall out s', (scan crc32c s = (Ok out, s') -> out = entries mem /\ Sound s' mem dur) /\
     (scan_range crc32c lo hi s = (Ok out, s') -> out = in_keys lo hi (entries mem) /\ Sound s' mem dur)) /\
  (faults (dev s) = [] -> (exists s', scan crc32c s = (Ok (entries mem), s')) /\ (exists s', scan_range crc32c lo hi s = (Ok (in_keys lo hi (entries mem)), s'))).
Proof using Hsize Hfor.
  intros (es & pgs & seq0 & ovl & I). destruct (for_size_ok _ _ Hsize Hfor) as [Hl _]. pose proof (im_es _ _ _ _ _ _ _ _ _ _ _ (i_image _ _ _ _ _ _ _ _ _ _ I)) as [Hs _].
  pose proof (i_wf _ _ _ _ _ _ _ _ _ _ I) as W. pose proof (inv_live _ _ _ Hl _ _ _ _ _ _ _ I) as Hlv. pose proof (inv_holds _ _ _ Hl _ _ _ _ _ _ _ I) as Hh.
  pose proof (i_mem _ _ _ _ _ _ _ _ _ _ I) as Hm. pose proof (scan_spec crc32c s es pgs mem W Hlv Hh Hs Hm) as H1. pose proof (scan_range_spec crc32c lo hi s es pgs mem W Hlv Hh Hs Hm) as H2.
  unfold wp in H1, H2. assert (forall s', ext s s' [] [] -> wf crc32c s' -> Sound s' mem dur) as HR by (intros s' X W'; exists es, pgs, seq0, ovl; by eapply inv_read).
  split.
  - intros out s'. split; intros E; [rewrite E in H1; destruct H1 as (-> & X & W')|rewrite E in H2; destruct H2 as (-> & X & W')]; auto.
  - intros Hf. pose proof (quiet_scan crc32c s Hf) as Q1. pose proof (quiet_scan_range crc32c lo hi s Hf) as Q2. split.
    + destruct (scan crc32c s) as [[out|e] s']; [destruct H1 as (-> & _); by exists s'|by destruct H1].
    + destruct (scan_range crc32c lo hi s) as [[out|e] s']; [destruct H2 as (-> & _); by exists s'|by destruct H2].
Qed.

(** [format] on a device that does not fail makes an empty store that opens, when no
    block of the log's area happens to start like a record with the number drawn. *)
Lemma format_empty d random : faults d = [] -> u64_ok random -> (forall i, all_bytes (block (view d) i)) ->
  (forall q seq, 0 <= q < log_len l -> starts (Z.lor random 1) seq (block (view d) (pos_block l q)) = false) ->
  exists s st, format crc32c d size random = (Ok (), s) /\ Sound s ∅ ∅ /\ open (power_on (durable (dev s)) []) size = Ok (Some st) /\ Sound st ∅ ∅.
Proof using Hcrc Hsize Hfor.
  intros Hf Hr Hby Hst. destruct (for_size_ok _ _ Hsize Hfor) as [Hl _].
  destruct (format_inv crc32c dec_ops l Hl Hcrc d size random Hfor Hf Hr Hby Hst) as (s & E & I & _ & _ & _ & Hd).
  assert (Sound s ∅ ∅) as HS by (by exists [], [], 1, overlay0).
  destruct (stored_opened (durable (dev s)) ∅) as (st & E2 & HSt); [|by exists s, st].
  apply (sound_cut crc32c dec_ops l Hl s ∅ ∅ true); [done|]. rewrite Hd. apply LandsEnd.
Qed.

(** C21. [write_tree] keeps the B-tree's shape: from a sound store it makes a tree of
    well-formed nodes (levels counting down to the leaves, keys between their separators,
    in order, within their sizes) that holds exactly what the store shows; its pages are
    new ones, none of them in use before, and old ones, each once, the rest of the old
    ones are retired; and nothing durable has changed. *)
Theorem write_tree_shape s mem dur r s' : Sound s mem dur -> write_tree crc32c (overlay s) (set_overlay overlay0 s) = (Ok r, s') ->
  exists es' pgs pgs' F R kept, holds crc32c s' r es' pgs' /\ es_ok None None es' /\ list_to_map es' = mem /\
    NoDup pgs' /\ Forall (fun p => 0 <= p < page_count l) pgs' /\
    (forall p, 0 <= p -> is_used s p = bool_decide (p ∈ pgs)) /\ pgs ≡ₚ R ++ kept /\ pgs' ≡ₚ F ++ kept /\ retired s' = R /\
    Forall (fun p => is_used s p = false) F /\ durable (dev s') = durable (dev s).
Proof using Hcrc Hsize Hfor.
  intros (es & pgs & seq0 & ovl & I) E. destruct (for_size_ok _ _ Hsize Hfor) as [Hl _]. destruct (i_clean _ _ _ _ _ _ _ _ _ _ I) as (Hf & Hr & _).
  pose proof (write_tree_spec crc32c Hcrc (overlay s) (set_overlay overlay0 s) es pgs Hf Hr (wf_set_overlay _ _ _ (i_wf _ _ _ _ _ _ _ _ _ _ I)) (i_ov _ _ _ _ _ _ _ _ _ _ I)
      (inv_holds _ _ _ Hl _ _ _ _ _ _ _ I) (inv_live _ _ _ Hl _ _ _ _ _ _ _ I)) as HT. unfold wp in HT. rewrite E in HT.
  destruct HT as (es' & (pgs' & F & R & kept & Hh & X & W & P & Q) & He & Hlk).
  destruct (live_new (set_overlay overlay0 s) s' F R pgs kept Hr (inv_live _ _ _ Hl _ _ _ _ _ _ _ I) X P) as (Hu & HN & _).
  exists es', pgs, pgs', F, R, kept. split_and!; try done.
  - apply map_eq. intros k. rewrite (i_mem _ _ _ _ _ _ _ _ _ _ I). exact (Hlk k).
  - by rewrite Q.
  - rewrite Q. eapply Forall_impl; [exact Hu|]. intros p [Hp _]. rewrite (x_layout _ _ _ _ X) in Hp. cbn in Hp. by rewrite (i_layout _ _ _ _ _ _ _ _ _ _ I) in Hp.
  - apply (i_used _ _ _ _ _ _ _ _ _ _ I).
  - rewrite (x_retired _ _ _ _ X). cbn. by rewrite Hr.
  - apply Forall_forall. intros p Hp. by destruct (ext_fresh_used _ _ _ _ _ X Hp) as (_ & _ & ?).
  - apply X.
Qed.

(** C32. What a region's pages hold reads back: a well-formed node fits a page and is
    decoded from it, and a superblock from its block. *)
Theorem pages_roundtrip n p sb : node_ok n -> sb_ok sb ->
  (exists b, encode crc32c n = Some b /\ zlen b = PAGE /\ decode crc32c p b = Ok n) /\ sb_from_bytes crc32c (sb_to_bytes crc32c sb) = Some sb.
Proof using Hcrc.
  intros Hn Hs. split; [|by apply sb_roundtrip]. destruct (encode_fits crc32c n Hn) as (b & E & Hz). exists b. split_and!; [done|done|]. by eapply (decode_encode crc32c Hcrc).
Qed.

(** ** Histories *)

(** What happens to a store, as its callers see it. *)
Inductive event :=
| Appended (ops : list Op) | AppendFailed (ops : list Op) | Replaced (es : list (Key * bytes)) | Checkpointed | Unseen
| Cut | CheckpointLost | AppendLost (ops : list Op) | ReplaceLost (es : list (Key * bytes)).

(** The specification: a map changed by whole groups, and the map a power cut would
    leave of it, which every answered change is in. *)
Inductive spec_step : MStore * MStore -> event -> MStore * MStore -> Prop :=
| SpecAppended m d ops d' : d' = store_ops d ops \/ d' = store_ops m ops -> spec_step (m, d) (Appended ops) (store_ops m ops, d')
| SpecAppendFailed m d ops m' d' : m' = m \/ m' = store_ops m ops -> d' ∈ between_ops m d ops -> spec_step (m, d) (AppendFailed ops) (m', d')
| SpecReplaced m d es : spec_step (m, d) (Replaced es) (list_to_map es, list_to_map es)
| SpecCheckpointed m d : spec_step (m, d) Checkpointed (m, m)
| SpecUnseen m d : spec_step (m, d) Unseen (m, d)
| SpecCut m d : spec_step (m, d) Cut (d, d)
| SpecCheckpointLost m d x : x = m \/ x = d -> spec_step (m, d) CheckpointLost (x, x)
| SpecAppendLost m d ops x : x ∈ between_ops m d ops -> spec_step (m, d) (AppendLost ops) (x, x)
| SpecReplaceLost m d es x : x = d \/ x = list_to_map es -> spec_step (m, d) (ReplaceLost es) (x, x).

Definition roomy (s : MetaV2) : Prop := gen s + 2 < 2 ^ 64 /\ next_seq s + 2 < 2 ^ 64.
Definition appendable (o : bool) (s : MetaV2) (ops : list Op) : Prop :=
  group_ok crc32c enc_ops dec_ops (nonce s) ops /\ (o = true \/ log_tail s + rec_size (zlen (enc_ops ops)) <= log_len l).
(** A failure after which the store is used on: what was written of the log and of
    the superblocks was answered. *)
Definition usable (s : MetaV2) (e : MetaErr) : Prop := e <> Panic /\ unsure s = false.

(** The store's own steps, on a device that may start or stop failing at any time and
    lose its power at any time, also after an operation that failed in any way. *)
Inductive step (o : bool) : MetaV2 -> event -> MetaV2 -> Prop :=
| StepAppend s ops s' : roomy s -> appendable o s ops -> append crc32c enc_ops ops s = (Ok (), s') -> step o s (Appended ops) s'
| StepAppendFailed s ops e s' : roomy s -> appendable o s ops -> append crc32c enc_ops ops s = (Err e, s') -> usable s' e -> step o s (AppendFailed ops) s'
| StepReplace s es s' : roomy s -> es_ok None None es -> replace_all crc32c es s = (Ok (), s') -> step o s (Replaced es) s'
| StepReplaceFailed s es e s' : roomy s -> es_ok None None es -> replace_all crc32c es s = (Err e, s') -> usable s' e -> step o s Unseen s'
| StepCheckpoint s s' : roomy s -> checkpoint crc32c s = (Ok (), s') -> step o s Checkpointed s'
| StepCheckpointFailed s e s' : roomy s -> checkpoint crc32c s = (Err e, s') -> usable s' e -> step o s Unseen s'
| StepScan s out s' : scan crc32c s = (Ok out, s') -> step o s Unseen s'
| StepFaults s f : step o s Unseen (set_dev (mkDev (durable (dev s)) (cached (dev s)) f) s)
| StepCut s img st : cut o (dev s) img -> open (power_on img []) size = Ok (Some st) -> step o s Cut st
| StepCheckpointCut s e s' img st : roomy s -> checkpoint crc32c s = (Err e, s') -> cut o (dev s') img -> open (power_on img []) size = Ok (Some st) -> step o s CheckpointLost st
| StepAppendCut s ops e s' img st : roomy s -> appendable o s ops -> append crc32c enc_ops ops s = (Err e, s') ->
    cut o (dev s') img -> detects crc32c l (nonce s) (durable (dev s')) (view (dev s')) img -> open (power_on img []) size = Ok (Some st) -> step o s (AppendLost ops) st
| StepReplaceCut s es e s' img st : roomy s -> es_ok None None es -> replace_all crc32c es s = (Err e, s') ->
    cut o (dev s') img -> open (power_on img []) size = Ok (Some st) -> step o s (ReplaceLost es) st.

Inductive steps {S} (R : S -> event -> S -> Prop) : S -> list event -> S -> Prop :=
| StepsNil s : steps R s [] s
| StepsCons s e s1 tr s2 : R s e s1 -> steps R s1 tr s2 -> steps R s (e :: tr) s2.

Lemma sound_faults s m d f : Sound s m d -> Sound (set_dev (mkDev (durable (dev s)) (cached (dev s)) f) s) m d.
Proof.
  intros (es & pgs & seq0 & ovl & []). exists es, pgs, seq0, ovl. split; try done. by apply wf_set_dev.
Qed.
(** What [open] gave is the store it says. *)
Lemma opened_to img st P : open (power_on img []) size = Ok (Some st) -> opens_to img P -> exists m, Sound st m m /\ P m.
Proof. intros E1 (m & st' & E2 & HS & HP). rewrite E1 in E2. injection E2 as <-. eauto. Qed.
Lemma cut_opens o s m d img : Sound s m d -> cut o (dev s) img -> opens_to img (fun x => x = d).
Proof using Hsize Hfor.
  intros HS HL. destruct (for_size_ok _ _ Hsize Hfor) as [Hl _]. destruct (stored_opened img d (sound_cut crc32c dec_ops l Hl _ _ _ _ _ HS HL)) as (st & E & HSt).
  by exists d, st.
Qed.

Lemma step_simulated o s md ev s' : Sound s (fst md) (snd md) -> step o s ev s' -> exists md', spec_step md ev md' /\ Sound s' (fst md') (snd md').
Proof using Hcrc Hsize Hfor.
  destruct md as [m d]. cbn [fst snd]. intros HS Hst.
  inversion Hst as [s0 ops s1 [Hg Hq] [Hgr Ho] E|s0 ops e s1 [Hg Hq] [Hgr Ho] E [He Hu]|s0 es s1 [Hg Hq] He E|s0 es e s1 [Hg Hq] Hes E [He Hu]
    |s0 s1 [Hg Hq] E|s0 e s1 [Hg Hq] E [He Hu]|s0 out s1 E|s0 f|s0 img st HL E|s0 e s1 img st [Hg Hq] E HL E2
    |s0 ops e s1 img st [Hg Hq] [Hgr Ho] E HL Hdet E2|s0 es e s1 img st [Hg Hq] He E HL E2]; subst.
  - destruct (append_atomic o s m d ops _ _ HS Hgr Hg Hq Ho E) as [(d' & Hd & HS') _]. eexists (_, _). split; [by constructor|exact HS'].
  - destruct (append_atomic o s m d ops _ _ HS Hgr Hg Hq Ho E) as [HA _]. destruct (HA He Hu) as (m' & d' & Hm & Hd & HS').
    eexists (_, _). split; [by constructor|exact HS'].
  - destruct (replace_atomic o s m d es _ _ HS Hg Hq He E) as [HS' _]. eexists (_, _). split; [constructor|exact HS'].
  - destruct (replace_atomic o s m d es _ _ HS Hg Hq Hes E) as [HS' _]. eexists (_, _). split; [constructor|by apply HS'].
  - destruct (fold_atomic o s m d _ _ HS Hg Hq E) as [HS' _]. eexists (_, _). split; [constructor|exact HS'].
  - destruct (fold_atomic o s m d _ _ HS Hg Hq E) as [HS' _]. eexists (_, _). split; [constructor|by apply HS'].
  - destruct (scan_shows s m d out s' HS E) as [_ HS']. eexists (_, _). split; [constructor|exact HS'].
  - eexists (_, _). split; [constructor|by apply sound_faults].
  - destruct (opened_to _ _ _ E (cut_opens _ _ _ _ _ HS HL)) as (x & HSt & ->). exists (d, d). split; [constructor|done].
  - destruct (fold_atomic o s m d _ _ HS Hg Hq E) as [_ HC]. destruct (opened_to _ _ _ E2 (HC img HL)) as (x & HSt & Hx).
    exists (x, x). split; [constructor; tauto|done].
  - destruct (append_atomic o s m d ops _ _ HS Hgr Hg Hq Ho E) as [_ HC]. destruct (opened_to _ _ _ E2 (HC img HL Hdet)) as (x & HSt & Hx & _).
    exists (x, x). split; [by constructor|done].
  - destruct (replace_atomic o s m d es _ _ HS Hg Hq He E) as [_ HC]. destruct (opened_to _ _ _ E2 (HC img HL)) as (x & HSt & Hx).
    exists (x, x). split; [constructor; tauto|done].
Qed.

Lemma steps_simulated o s tr s' : steps (step o) s tr s' -> forall md, Sound s (fst md) (snd md) ->
  exists md', steps spec_step md tr md' /\ Sound s' (fst md') (snd md').
Proof using Hcrc Hsize Hfor.
  induction 1 as [s|s e s1 tr s2 Hst _ IH]; intros md HS; [exists md; split; [constructor|done]|].
  destruct (step_simulated o s md e s1 HS Hst) as (md1 & Hsp & HS1). destruct (IH md1 HS1) as (md' & H1 & H2). exists md'. split; [by econstructor|exact H2].
Qed.

(** C1. The store refines the map, as long as a store whose log or superblock could not
    be written is opened again before it is used.  Through any history of groups appended,
    everything replaced, checkpoints, scans and power cuts between and inside them, and of
    operations that fail before or after what they write of the log and the superblocks, what
    a scan gives is the specification's map after the same events, and whenever the power
    goes between operations the store opens again, as the map the specification says a cut
    leaves: all that was answered and whole groups only.  Where it holds: an operation whose
    write or flush of the log or of a superblock fails (it leaves the store unsure of what is
    on the device) is followed by a power cut and an open; a store that goes on after one may
    replay a failed group over newer changes, or reuse pages its newest superblock names.
    Groups fit a record, and the device keeps its cache in order or no record wraps the ring
    ([appendable]); a torn record does not check ([detects]); a device operation that fails
    did nothing or all of its work, of which a cut leaves any part; the counters are below
    their 64 bits ([roomy]). *)
Theorem history_refines o s m tr s' : Sound s m m -> steps (step o) s tr s' ->
  exists m' d', steps spec_step (m, m) tr (m', d') /\ Sound s' m' d' /\
    (forall out s2, scan crc32c s' = (Ok out, s2) -> out = entries m') /\
    (forall img, cut o (dev s') img -> exists st, open (power_on img []) size = Ok (Some st) /\ Sound st d' d').
Proof using Hcrc Hsize Hfor.
  intros HS H. destruct (steps_simulated o s tr s' H (m, m) HS) as ([m' d'] & Hsp & HS').
  exists m', d'. split_and!; [done|done| |].
  - intros out s2 E. by destruct (scan_shows s' m' d' out s2 HS' E) as [-> _].
  - intros img HL. destruct (cut_opens _ _ _ _ _ HS' HL) as (x & st & E & HSt & ->). by exists st.
Qed.
End Laws.

(** ** Stores that show it *)

Definition w_size : Z := 262144.
Definition w_layout : Layout := mkLayout 8192 65536 73728 46.
Definition w_crc (b : bytes) : Z := zlen b mod 2 ^ 32.
Definition w_ops : list Op := [Put 5 [1; 2]].
Definition w_enc (ops : list Op) : bytes := [7].
Definition w_dec (b : bytes) : option (list Op) := Some w_ops.
Definition w_dev : Dev := mkDev ∅ [] [].

Lemma w_crc_ok b : u32_ok (w_crc b).
Proof. apply Z.mod_pos_bound. done. Qed.
Lemma w_for : for_size w_size = Ok w_layout.
Proof. reflexivity. Qed.
Lemma w_size_ok : 0 <= w_size < 2 ^ 64.
Proof. done. Qed.
Lemma w_block i : block (view w_dev) i = zeros PAGE.
Proof. unfold block, view. cbn. by rewrite lookup_empty. Qed.
Lemma w_format_ok : faults w_dev = [] /\ u64_ok 0 /\ (forall i, all_bytes (block (view w_dev) i)) /\
  forall q seq, 0 <= q < log_len w_layout -> starts (Z.lor 0 1) seq (block (view w_dev) (pos_block w_layout q)) = false.
Proof.
  split_and!; [done|by unfold u64_ok| |].
  - intros i. rewrite w_block. apply all_bytes_zeros.
  - intros q seq _. rewrite w_block. apply starts_zeros.
Qed.
Lemma w_store : exists s, Sound w_crc w_dec w_layout s ∅ ∅ /\ gen s = 1 /\ next_seq s = 1 /\ faults (dev s) = [] /\ group_ok w_crc w_enc w_dec (nonce s) w_ops.
Proof.
  destruct (for_size_ok _ _ w_size_ok w_for) as [Hl _]. destruct w_format_ok as (H1 & H2 & H3 & H4).
  destruct (format_inv w_crc w_dec w_layout Hl w_crc_ok w_dev w_size 0 w_for H1 H2 H3 H4) as (s & _ & I & Hg & Hq & _ & Hd).
  exists s. split_and!; [by exists [], [], 1, overlay0|done|done|by rewrite Hd|]. split.
  - by repeat constructor.
  - done.
  - by repeat constructor.
  - intros q. apply plain_page. rewrite zlen_record. done.
Qed.

Lemma append_crash_safe_witness : exists s r s' m st, append w_crc w_enc w_ops s = (r, s') /\ m ∈ between_ops ∅ ∅ w_ops /\
  open w_crc w_dec (power_on (view (dev s')) []) w_size = Ok (Some st) /\ Sound w_crc w_dec w_layout st m m.
Proof.
  destruct w_store as (s & HS & Hg & Hq & Hf & Hgr). destruct (append w_crc w_enc w_ops s) as [r s'] eqn:E.
  destruct (append_crash_safe w_crc w_enc w_dec w_size w_layout w_crc_ok w_size_ok w_for true s ∅ ∅ w_ops r s' HS Hgr ltac:(by rewrite Hg) ltac:(by rewrite Hq) ltac:(by left) E) as [_ HC].
  destruct (HC (view (dev s')) (lands_all true (durable (dev s')) (cached (dev s'))) ltac:(intros p seq k pl sz _ _ _; by right)) as (m & st & E2 & HSt & Hm & _).
  exists s, r, s', m, st. split_and!; done.
Defined.

Lemma checkpoint_crash_safe_witness : exists s r s' m st, replace_all w_crc [(5, [1; 2])] s = (r, s') /\
  open w_crc w_dec (power_on (durable (dev s')) []) w_size = Ok (Some st) /\ Sound w_crc w_dec w_layout st m m.
Proof.
  destruct w_store as (s & HS & Hg & Hq & Hf & Hgr). destruct (replace_all w_crc [(5, [1; 2])] s) as [r s'] eqn:E.
  assert (es_ok None None [(5, [1; 2])]) as He by (split_and!; [repeat constructor|by repeat constructor|apply Forall_singleton; split; [unfold key_ok; cbn [fst]; lia|by vm_compute]]).
  destruct (checkpoint_crash_safe w_crc w_dec w_size w_layout w_crc_ok w_size_ok w_for false s ∅ ∅ (list_to_map [(5, [1; 2])]) r s' HS ltac:(by rewrite Hg) ltac:(by rewrite Hq)
    (or_intror (ex_intro _ [(5, [1; 2])] (conj He (conj eq_refl E))))) as [_ HC].
  assert (cut false (dev s') (durable (dev s'))) as HL.
  { unfold cut. induction (cached (dev s')) as [|w ws IH]; [apply LandsEnd|by apply LandsLose]. }
  destruct (HC _ HL) as (m & st & E2 & HSt & _). exists s, r, s', m, st. split_and!; done.
Defined.

Lemma scan_exact_witness : exists s s', scan w_crc s = (Ok [], s').
Proof.
  destruct w_store as (s & HS & _ & _ & Hf & _).
  destruct (proj2 (scan_exact w_crc w_dec w_size w_layout w_size_ok w_for s ∅ ∅ 0 9 HS) Hf) as [(s' & E) _]. exists s, s'. exact E.
Defined.

(** A history with a power cut in it. *)
Lemma history_refines_witness : exists s st m' d', steps (step w_crc w_enc w_dec w_size w_layout true) s [Cut] st
  /\ steps spec_step (∅, ∅) [Cut] (m', d') /\ Sound w_crc w_dec w_layout st m' d'.
Proof.
  destruct w_store as (s & HS & _). pose proof (lands_all true (durable (dev s)) (cached (dev s))) as HL.
  destruct (cut_opens w_crc w_dec w_size w_layout w_size_ok w_for _ _ _ _ _ HS HL) as (x & st & E & _).
  assert (steps (step w_crc w_enc w_dec w_size w_layout true) s [Cut] st) as Hst by (eapply StepsCons; [eapply StepCut; [exact HL|exact E]|apply StepsNil]).
  destruct (history_refines w_crc w_enc w_dec w_size w_layout w_crc_ok w_size_ok w_for true s ∅ [Cut] st HS Hst) as (m' & d' & H1 & H2 & _).
  exists s, st, m', d'. split_and!; done.
Defined.

Lemma write_tree_shape_witness : exists s r, match write_tree w_crc (overlay s) (set_overlay overlay0 s) with
  | (Ok root', s') => r = Some root' /\ exists es' pgs', holds w_crc s' root' es' pgs' /\ es_ok None None es'
  | (Err _, _) => r = None end.
Proof.
  destruct w_store as (s & HS & _). destruct (write_tree w_crc (overlay s) (set_overlay overlay0 s)) as [[root'|e] s'] eqn:E; [|exists s, None; rewrite E; done].
  destruct (write_tree_shape w_crc w_dec w_size w_layout w_crc_ok w_size_ok w_for s ∅ ∅ root' s' HS E) as (es' & pgs & pgs' & F & R & kept & H1 & H2 & _).
  exists s, (Some root'). rewrite E. split; [done|]. exists es', pgs'. split; done.
Defined.

Lemma pages_roundtrip_witness : exists b, encode w_crc (Leaf [(5, [1; 2])]) = Some b /\ decode w_crc 3 b = Ok (Leaf [(5, [1; 2])]).
Proof.
  assert (node_ok (Leaf [(5, [1; 2])])) as Hn by (split; [apply Forall_singleton; split; [unfold key_ok; cbn [fst]; lia|by vm_compute]|by vm_compute]).
  assert (sb_ok (mkSb 1 EMPTY 0 1 w_layout 1)) as Hs by (unfold sb_ok, u64_ok; cbn; split_and!; done).
  destruct (pages_roundtrip w_crc w_crc_ok _ 3 _ Hn Hs) as [(b & E & _ & D) _]. exists b. split; [exact E|exact D].
Defined.
