(* ===== verification/Registry.v ===== *)
(** The slab registry, [drive/slab_registry.rs]: the slabs a node allocates from, by
    tier, with what fails together with each, what is quarantined, and the slots handed
    out and not mapped yet.  A slab is any [SlotStore].  A [HashMap] is walked in the
    order of [map_to_list]. *)

From Stdlib Require Import String.
From stdpp Require Import strings.
From S2P Require Import Prelude SlabFormat GemData Redundancy SlotStore.
#[local] Open Scope Z_scope.

#[export] Instance StorageTier_eq : EqDecision StorageTier.
Proof. solve_decision. Defined.
#[export] Instance StorageTier_countable : Countable StorageTier.
Proof. refine (inj_countable' tier_u8 tier_from _). by intros []. Defined.
#[export] Instance SlabRole_eq : EqDecision SlabRole.
Proof. solve_decision. Defined.

Section registry.
Context {S : Type} `{SlotStore S}.

Record SlabRegistry := mkRegistry {
  slabs : gmap SlabId S;
  tier_index : gmap StorageTier (list SlabId);
  in_flight : gset Leg;
  domains : gmap SlabId FailureDomain;
  device_labels : gmap string FailureDomain;
  node_labels : FailureDomain;
  quarantined : gset SlabId }.
Definition new_registry : SlabRegistry := mkRegistry ∅ ∅ ∅ ∅ ∅ [] ∅.

Definition set_slabs (m : gmap SlabId S) (r : SlabRegistry) : SlabRegistry :=
  mkRegistry m (tier_index r) (in_flight r) (domains r) (device_labels r) (node_labels r) (quarantined r).
Definition set_in_flight (f : gset Leg) (r : SlabRegistry) : SlabRegistry :=
  mkRegistry (slabs r) (tier_index r) f (domains r) (device_labels r) (node_labels r) (quarantined r).
Definition set_domains (d : gmap SlabId FailureDomain) (r : SlabRegistry) : SlabRegistry :=
  mkRegistry (slabs r) (tier_index r) (in_flight r) d (device_labels r) (node_labels r) (quarantined r).
Definition set_quarantine (q : gset SlabId) (r : SlabRegistry) : SlabRegistry :=
  mkRegistry (slabs r) (tier_index r) (in_flight r) (domains r) (device_labels r) (node_labels r) q.

(** ** What is asked of it *)

Definition is_quarantined (r : SlabRegistry) (id : SlabId) : bool := bool_decide (id ∈ quarantined r).
Definition domain_of (r : SlabRegistry) (id : SlabId) : FailureDomain := default [] (domains r !! id).
Definition role_of (r : SlabRegistry) (id : SlabId) : SlabRole :=
  match slabs r !! id with Some s => ss_role s | None => System end.
Definition is_dedicated (r : SlabRegistry) (id : SlabId) : bool :=
  match slabs r !! id with Some s => ss_dedicated s | None => false end.

(** Whether a slab is in the same domain at a rung as any of [taken]. *)
Definition collides (r : SlabRegistry) (id : SlabId) (taken : list FailureDomain) (rung : string) : bool :=
  existsb (fun t => negb (bool_decide (t = [])) && same_at (domain_of r id) t rung) taken.

(** The free slots of a slab for a volume pinned to it. *)
Definition allocatable_pinned (r : SlabRegistry) (id : SlabId) : option Z :=
  if is_quarantined r id then None
  else s ← slabs r !! id; if 0 <? ss_free_slots s then Some (ss_free_slots s) else None.
Definition allocatable (r : SlabRegistry) (id : SlabId) : option Z :=
  if is_dedicated r id then None else allocatable_pinned r id.
Definition size_ok (r : SlabRegistry) (id : SlabId) (size : Z) : bool :=
  (size =? 0) || match slabs r !! id with Some s => ss_slot_size s =? size | None => false end.
Definition takes (r : SlabRegistry) (id : SlabId) (role : SlabRole) (size : Z) : bool :=
  bool_decide (is_Some (allocatable r id)) && bool_decide (role_of r id = role) && size_ok r id size.

(** [Iterator::max_by_key]: of equals, the last. *)
Definition max_by_key (l : list (SlabId * Z)) : option (SlabId * Z) :=
  foldl (fun m c => match m with Some b => if snd c <? snd b then Some b else Some c | None => Some c end) None l.

(** A slab of a tier that may be chosen, with its free slots. *)
Definition candidate (r : SlabRegistry) (taken : list FailureDomain) (rung : string) (role : SlabRole) (size : Z)
    (except : list SlabId) (id : SlabId) : option (SlabId * Z) :=
  free ← allocatable r id;
  if negb (bool_decide (role_of r id = role)) || negb (size_ok r id size) || bool_decide (id ∈ except) || collides r id taken rung
  then None else Some (id, free).
Definition best_slab_for_tier_apart_from_except (r : SlabRegistry) (tier : StorageTier) (taken : list FailureDomain)
    (rung : string) (role : SlabRole) (size : Z) (except : list SlabId) : option SlabId :=
  ids ← tier_index r !! tier; fst <$> max_by_key (omap (candidate r taken rung role size except) ids).
Definition best_slab_for_tier_apart_from (r : SlabRegistry) (tier : StorageTier) (taken : list FailureDomain)
    (rung : string) (role : SlabRole) (size : Z) : option SlabId :=
  best_slab_for_tier_apart_from_except r tier taken rung role size [].

Definition slab_ids (r : SlabRegistry) : list SlabId := map fst (map_to_list (slabs r)).
(** The domains at a rung with room, one slab of each. *)
Definition distinct_domains_with_space_in_role (r : SlabRegistry) (rung : string) (role : SlabRole) (size : Z) : Z :=
  zlen (foldl (fun seen id =>
    if bool_decide (allocatable r id = None) || negb (bool_decide (role_of r id = role)) || negb (size_ok r id size) then seen
    else let d := domain_of r id in
         if existsb (fun s => same_at s d rung) seen then seen else seen ++ [d]) [] (slab_ids r)).
Definition distinct_domains_with_space (r : SlabRegistry) (rung : string) : Z :=
  distinct_domains_with_space_in_role r rung System 0.
Definition default_role (r : SlabRegistry) (size : Z) : SlabRole :=
  let has role size := 0 <? distinct_domains_with_space_in_role r DEFAULT_RUNG role size in
  if has System size then System else if has Data size then Data
  else if has System 0 then System else if has Data 0 then Data else System.
Definition sizes_in_role (r : SlabRegistry) (role : SlabRole) : list Z :=
  sort_dedup (omap (fun id =>
    if bool_decide (role_of r id = role) && bool_decide (is_Some (allocatable r id)) then ss_slot_size <$> slabs r !! id else None)
    (slab_ids r)).

(** ** Changes *)

Definition reserve (l : Leg) (r : SlabRegistry) : SlabRegistry := set_in_flight ({[l]} ∪ in_flight r) r.
Definition commit (l : Leg) (r : SlabRegistry) : SlabRegistry := set_in_flight (in_flight r ∖ {[l]}) r.
Definition is_reserved (r : SlabRegistry) (l : Leg) : bool := bool_decide (l ∈ in_flight r).
Definition set_quarantined (id : SlabId) (on : bool) (r : SlabRegistry) : bool * SlabRegistry :=
  match slabs r !! id with
  | None => (false, r)
  | Some _ => (true, set_quarantine (if on then {[id]} ∪ quarantined r else quarantined r ∖ {[id]}) r)
  end.
Definition set_domain (id : SlabId) (d : FailureDomain) (r : SlabRegistry) : bool * SlabRegistry :=
  match slabs r !! id with
  | None => (false, r)
  | Some _ => (true, set_domains (<[id := d]> (domains r)) r)
  end.

(** The chain a slab sits in: [drive] is the drive's identity, [own] the slab's device's path. *)
Definition derive_domain (drive : DeviceId) (own : string) (r : SlabRegistry) : FailureDomain :=
  let d := from_device drive in
  let d := match device_labels r !! di_path drive with
           | Some outer => merged_under d outer
           | None => match device_labels r !! own with Some outer => merged_under d outer | None => d end
           end in
  if bool_decide (node_labels r = []) then d else merged_under d (node_labels r).
(** [add]; the erase level a local slab is given is the slab's own. *)
Definition add (id : SlabId) (s : S) (drive : DeviceId) (own : string) (r : SlabRegistry) : SlabRegistry :=
  mkRegistry (<[id := s]> (slabs r)) (<[ss_tier s := default [] (tier_index r !! ss_tier s) ++ [id]]> (tier_index r))
    (in_flight r) (match domains r !! id with Some _ => domains r | None => <[id := derive_domain drive own r]> (domains r) end)
    (device_labels r) (node_labels r) (quarantined r).
Definition add_in_domain (id : SlabId) (s : S) (drive : DeviceId) (own : string) (d : FailureDomain) (r : SlabRegistry) : SlabRegistry :=
  add id s drive own (set_domains (<[id := d]> (domains r)) r).
Definition remove (id : SlabId) (r : SlabRegistry) : option S * SlabRegistry :=
  match slabs r !! id with
  | None => (None, r)
  | Some s =>
      (Some s, mkRegistry (delete id (slabs r)) (alter (filter (fun c => c <> id)) (ss_tier s) (tier_index r)) (in_flight r)
                 (delete id (domains r)) (device_labels r) (node_labels r) (quarantined r ∖ {[id]}))
  end.

(** ** What a choice promises *)

Lemma max_by_key_in l b : max_by_key l = Some b -> b ∈ l.
Proof.
  unfold max_by_key. assert (forall m, foldl (fun m c => match m with Some b => if snd c <? snd b then Some b else Some c | None => Some c end) m l
    = Some b -> m = Some b \/ b ∈ l) as H'; [|intros E; by destruct (H' None E)].
  induction l as [|c l IH]; intros m E; cbn [foldl] in E; [by left|]. destruct (IH _ E) as [Hm|Hm]; [|right; by right].
  destruct m as [a|]; [|injection Hm as <-; right; by left]. destruct (snd c <? snd a); injection Hm as <-; [by left|right; by left].
Qed.
Lemma max_by_key_none l : max_by_key l = None -> l = [].
Proof.
  unfold max_by_key. destruct l as [|c l]; [done|]. cbn [foldl].
  assert (forall b, foldl (fun m c => match m with Some b => if snd c <? snd b then Some b else Some c | None => Some c end) (Some b) l <> None) as H'.
  { induction l as [|d l IH]; intros b; cbn [foldl]; [done|]. destruct (snd d <? snd b); apply IH. }
  intros E. by apply H' in E.
Qed.

Lemma allocatable_attached r id n : allocatable r id = Some n -> is_Some (slabs r !! id) /\ is_quarantined r id = false.
Proof.
  unfold allocatable, allocatable_pinned. destruct (is_dedicated r id); [done|]. destruct (is_quarantined r id); [done|].
  destruct (slabs r !! id); [by eauto|done].
Qed.

Lemma best_slab_spec r tier taken rung role size except id :
  best_slab_for_tier_apart_from_except r tier taken rung role size except = Some id ->
  is_Some (slabs r !! id) /\ takes r id role size = true /\ id ∉ except /\ collides r id taken rung = false
  /\ exists ids, tier_index r !! tier = Some ids /\ id ∈ ids.
Proof.
  unfold best_slab_for_tier_apart_from_except. destruct (tier_index r !! tier) as [ids|] eqn:Ei; [|done]. cbn.
  destruct (max_by_key _) as [[id' n]|] eqn:Em; [|done]. cbn. intros [= <-].
  apply max_by_key_in, list_elem_of_omap in Em as (x & Hx & Hc). unfold candidate in Hc.
  destruct (allocatable r x) as [free|] eqn:Ea; [|done]. cbn in Hc. destruct (_ || _) eqn:Eg; [done|]. injection Hc as <- <-.
  apply orb_false_iff in Eg as [[[Hr Hs]%orb_false_iff He]%orb_false_iff Hc]. apply negb_false_iff in Hr, Hs.
  apply bool_decide_eq_false in He. split_and!; try done; [by eapply allocatable_attached| |by eexists].
  unfold takes. rewrite Ea, Hr, Hs. done.
Qed.
Lemma best_slab_none r tier taken rung role size except ids :
  best_slab_for_tier_apart_from_except r tier taken rung role size except = None -> tier_index r !! tier = Some ids ->
  omap (candidate r taken rung role size except) ids = [].
Proof.
  unfold best_slab_for_tier_apart_from_except. intros E Hi. rewrite Hi in E. cbn in E. destruct (max_by_key _) eqn:Em; [done|]. by apply max_by_key_none.
Qed.
End registry.
Arguments SlabRegistry S : clear implicits.
