(* ===== verification/Thin.v ===== *)
(** Thin volumes, [volume/thin.rs]: reads and writes of a volume whose extents are slots
    of slabs, allocated on the first write, copied on a write when shared, kept on
    several slabs when mirrored; with [volume/target.rs].  One request runs at a time: the
    locks and fences that make that so are not here, nor is a live mirror, a FUA write, or
    the parity half, [ParityPath].  A read has the bytes as its result. *)

From Stdlib Require Import String.
From stdpp Require Import strings.
From S2P Require Import Prelude SlabFormat GemData ExtMap Gem Redundancy SlotStore Registry.
#[local] Open Scope Z_scope.

(** ** Placement *)

Inductive Layout := Affine | Spread.
#[export] Instance Layout_eq : EqDecision Layout.
Proof. solve_decision. Defined.
Record PlacementPolicy := mkPlacement {
  preferred_tier : StorageTier; tier_fallback : list StorageTier; pl_role : SlabRole;
  pinned : option SlabId; layout : Layout }.
Definition preferring (t : StorageTier) : PlacementPolicy :=
  mkPlacement t (filter (fun u => u <> t) [Hot; Warm; Cool; Cold]) System None Affine.

(** The slabs a volume's extents go to, in the order of their ids, and those they never go to. *)
Record Target := mkTarget { tg_to : option (list SlabId); tg_except : list SlabId }.
Definition allows (t : Target) (id : SlabId) : bool :=
  match tg_to t with None => true | Some l => bool_decide (id ∈ l) end && negb (bool_decide (id ∈ tg_except t)).
Definition target_is_empty (t : Target) : bool := bool_decide (tg_to t = None) && bool_decide (tg_except t = []).

(** [sort_by_key(Reverse(free))]: stable. *)
Fixpoint insert_by_free (c : SlabId * Z) (l : list (SlabId * Z)) : list (SlabId * Z) :=
  match l with [] => [c] | d :: r => if snd d <=? snd c then c :: l else d :: insert_by_free c r end.
Definition most_free_first (l : list (SlabId * Z)) : list (SlabId * Z) := foldr insert_by_free [] l.

(** ** A volume's handle *)

Record Volume := mkVolume {
  virtual_size : Z; vslot : Z; policy : RedundancyPolicy; placement : PlacementPolicy; failed : gset SlabId;
  affinity : option SlabId; sealed : bool; read_only : bool; refused : bool; lba : Z; completed : Z; synced : Z }.

Definition set_failed (f : gset SlabId) (h : Volume) : Volume :=
  mkVolume (virtual_size h) (vslot h) (policy h) (placement h) f (affinity h) (sealed h) (read_only h) (refused h) (lba h)
    (completed h) (synced h).
Definition set_affinity (a : option SlabId) (h : Volume) : Volume :=
  mkVolume (virtual_size h) (vslot h) (policy h) (placement h) (failed h) a (sealed h) (read_only h) (refused h) (lba h)
    (completed h) (synced h).
Definition set_size (n : Z) (h : Volume) : Volume :=
  mkVolume n (vslot h) (policy h) (placement h) (failed h) (affinity h) (sealed h) (read_only h) (refused h) (lba h)
    (completed h) (synced h).
Definition set_policy (p : RedundancyPolicy) (h : Volume) : Volume :=
  mkVolume (virtual_size h) (vslot h) p (placement h) (failed h) (affinity h) (sealed h) (read_only h) (refused h) (lba h)
    (completed h) (synced h).
Definition set_counts (c s : Z) (h : Volume) : Volume :=
  mkVolume (virtual_size h) (vslot h) (policy h) (placement h) (failed h) (affinity h) (sealed h) (read_only h) (refused h) (lba h)
    c s.
Definition is_failed (h : Volume) (id : SlabId) : bool := bool_decide (id ∈ failed h).
Definition affine (h : Volume) : bool :=
  bool_decide (layout (placement h) = Affine) && bool_decide (pinned (placement h) = None) && is_none (policy h).
Definition lba_default : Z := 4096.
(** [with_redundancy]: a handle nothing was done with yet. *)
Definition new_handle (size slot : Z) (pl : PlacementPolicy) (p : RedundancyPolicy) : Volume :=
  mkVolume size slot p pl ∅ None false false false lba_default 1 0.

(** Stop trusting a slab: not on a request refused, nor the only copy on a network error. *)
Definition distrusts (p : RedundancyPolicy) (e : DriveError) : bool :=
  if is_transport e && is_none p then false
  else if negb (is_media_failure e) && negb (is_transport e) then false else true.

(** The legs worth trying, rotated by extent. *)
Definition usable_legs (h : Volume) (loc : ExtentLocation) (vext : Z) : list Leg :=
  let ls := filter (fun l => is_failed h (lg_slab l) = false) (legs loc) in
  let n := Z.to_nat (vext mod zlen ls) in if 1 <? zlen ls then drop n ls ++ take n ls else ls.

(** ** Requests *)

Inductive VolumeError := InvalidSize | Sealed | VolumeNotFound | RestripeRequired | InsufficientDomains | Busy.
Inductive fault := Failed (e : DriveError) | Refused (e : VolumeError) | Panicked.

Section thin.
Context {S : Type} `{SlotStore S}.

Record world := mkWorld {
  gem : GlobalExtentMap; registry : SlabRegistry S; vols : gmap VolumeId Volume; targets : gmap VolumeId Target }.
Definition set_gem (g : GlobalExtentMap) (w : world) : world := mkWorld g (registry w) (vols w) (targets w).
Definition set_registry (r : SlabRegistry S) (w : world) : world := mkWorld (gem w) r (vols w) (targets w).
Definition set_vols (m : gmap VolumeId Volume) (w : world) : world := mkWorld (gem w) (registry w) m (targets w).

Definition M (A : Type) : Type := world -> result fault A * world.
Definition ret {A} (a : A) : M A := fun w => (Ok a, w).
Definition fail {A} (e : DriveError) : M A := fun w => (Err (Failed e), w).
Definition refuse {A} (e : VolumeError) : M A := fun w => (Err (Refused e), w).
Definition bind {A B} (m : M A) (k : A -> M B) : M B :=
  fun w => match m w with (Ok a, w) => k a w | (Err e, w) => (Err e, w) end.
Definition gets {A} (f : world -> A) : M A := fun w => (Ok (f w), w).
Definition modify (f : world -> world) : M () := fun w => (Ok (), f w).
(** An error handed to the caller to look at; a panic is not one. *)
Definition attempt {A} (m : M A) : M (result DriveError A) :=
  fun w => match m w with
           | (Ok a, w) => (Ok (Ok a), w)
           | (Err (Failed e), w) => (Ok (Err e), w)
           | (Err f, w) => (Err f, w)
           end.
Definition of_result {A} (r : result DriveError A) : M A := match r with Ok a => ret a | Err e => fail e end.

Notation "'let!' x ':=' m 'in' k" := (bind m (fun x => k)) (at level 10, x name, m at level 200, k at level 200).
Notation "m ;; k" := (bind m (fun _ => k)) (at level 100, right associativity).

Fixpoint for_each {A} (f : A -> M ()) (l : list A) : M () :=
  match l with [] => ret () | x :: r => f x ;; for_each f r end.
(** [join_all] of requests, each with its result. *)
Fixpoint join_all {A} (f : Leg -> M A) (l : list Leg) : M (list (Leg * result DriveError A)) :=
  match l with [] => ret [] | x :: r => let! a := attempt (f x) in let! rs := join_all f r in ret ((x, a) :: rs) end.
Definition succeeded {A} (rs : list (Leg * result DriveError A)) : list Leg :=
  omap (fun r => match snd r with Ok _ => Some (fst r) | Err _ => None end) rs.
Definition errors {A} (rs : list (Leg * result DriveError A)) : list (Leg * DriveError) :=
  omap (fun r => match snd r with Ok _ => None | Err e => Some (fst r, e) end) rs.

Definition handle (v : VolumeId) : M Volume :=
  fun w => match vols w !! v with Some h => (Ok h, w) | None => (Err (Failed DOther), w) end.
Definition update (v : VolumeId) (f : Volume -> Volume) : M () := modify (fun w => set_vols (alter f v (vols w)) w).
Definition mark_failed (v : VolumeId) (id : SlabId) (e : DriveError) : M () :=
  update v (fun h => if distrusts (policy h) e then set_failed ({[id]} ∪ failed h) h else h).

Definition on_gem {A} (f : GlobalExtentMap -> result Panic (A * GlobalExtentMap)) : M A :=
  fun w => match f (gem w) with Ok (a, g) => (Ok a, set_gem g w) | Err NotInMemory => (Err Panicked, w) end.
Definition of_gem {A} (f : GlobalExtentMap -> result Panic A) : M A := on_gem (fun g => let? a := f g in Ok (a, g)).
Definition put_gem (f : GlobalExtentMap -> result Panic GlobalExtentMap) : M () := on_gem (fun g => let? g' := f g in Ok (tt, g')).
Definition put_slab (id : SlabId) (s : S) (w : world) : world :=
  set_registry (set_slabs (<[id := s]> (slabs (registry w))) (registry w)) w.
(** An operation of a slab, which has to be attached. *)
Definition with_slab {A} (id : SlabId) (f : S -> result DriveError A * S) : M A :=
  fun w => match slabs (registry w) !! id with
           | None => (Err (Failed DOther), w)
           | Some s => let '(r, s) := f s in (match r with Ok a => Ok a | Err e => Err (Failed e) end, put_slab id s w)
           end.
(** [if let Some(slab) = reg.get_mut(id)]. *)
Definition if_slab {A} (id : SlabId) (f : S -> A * S) : M (option A) :=
  fun w => match slabs (registry w) !! id with
           | None => (Ok None, w)
           | Some s => let '(a, s) := f s in (Ok (Some a), put_slab id s w)
           end.
Definition reserve_leg (l : Leg) : M () := modify (fun w => set_registry (reserve l (registry w)) w).
Definition commit_leg (l : Leg) : M () := modify (fun w => set_registry (commit l (registry w)) w).
Definition commit_legs : list Leg -> M () := for_each commit_leg.

(** What a parity volume does in the place of what is below. *)
Record ParityPath := mkParityPath {
  pp_read : VolumeId -> Z -> Z -> Z -> M bytes;
  pp_rebuild : VolumeId -> Z -> Z -> Z -> M bytes;
  pp_write : VolumeId -> Z -> Z -> bytes -> M ();
  pp_release : VolumeId -> Z -> M () }.
(** The pager's [load], and the parity half. *)
Context (load : VolumeId -> option VolumeExtentMap) (pp : ParityPath).

Definition resident (v : VolumeId) : M () :=
  fun w => match ensure_resident_plan v (gem w) with
           | NothingToDo => (Ok (), w)
           | NoPager => (Err (Failed DOther), w)
           | Load => match load v with
                     | None => (Err (Failed DOther), w)
                     | Some m => (Ok (), set_gem (ensure_resident_finish v m (gem w)) w)
                     end
           end.
Definition refuse_if_unknown_scheme (v : VolumeId) : M () := let! h := handle v in if refused h then fail DOther else ret ().
Definition refuse_if_sealed (v : VolumeId) : M () :=
  let! h := handle v in if sealed h then fail DReadOnly else if read_only h then fail DReadOnly else ret ().

(** ** Allocation *)

Definition failed_domains (h : Volume) (r : SlabRegistry S) : list FailureDomain := map (domain_of r) (elements (failed h)).

(** A slot of a slab, reserved. *)
Definition allocate_on (v : VolumeId) (vext generation : Z) (id : SlabId) : M Leg :=
  let! slot := with_slab id (ss_alloc v vext generation) in
  reserve_leg (mkLeg id slot) ;; ret (mkLeg id slot).

Fixpoint try_candidates (v : VolumeId) (vext generation : Z) (cands : list (SlabId * Z)) (not_space : option DriveError) : M Leg :=
  match cands with
  | [] => fail (default DNoSpace not_space)
  | (id, _) :: r =>
      let! s := gets (fun w => slabs (registry w) !! id) in
      match s with
      | None => try_candidates v vext generation r not_space
      | Some _ =>
          let! x := attempt (allocate_on v vext generation id) in
          match x with
          | Ok l => ret l
          | Err e => try_candidates v vext generation r (if is_no_space e then not_space else Some e)
          end
      end
  end.

(** The slabs of one tier, each tried once. *)
Fixpoint tier_loop (fuel : nat) (v : VolumeId) (h : Volume) (failed_drives apart_from : list FailureDomain) (rung : string)
    (vext generation : Z) (tier : StorageTier) (tried : list SlabId) (not_space : option DriveError) : M (option Leg * option DriveError) :=
  match fuel with
  | O => ret (None, not_space)
  | Datatypes.S fuel =>
      let again := tier_loop fuel v h failed_drives apart_from rung vext generation tier in
      let! w := gets id in
      let r := registry w in
      match best_slab_for_tier_apart_from_except r tier apart_from rung (pl_role (placement h)) (vslot h) tried with
      | None => ret (None, not_space)
      | Some id =>
          if is_failed h id || collides r id failed_drives DEFAULT_RUNG
             || match targets w !! v with Some t => negb (allows t id) | None => false end
          then again (tried ++ [id]) not_space
          else
            match slabs r !! id with
            | None => again (tried ++ [id]) not_space
            | Some _ =>
                let! x := attempt (allocate_on v vext generation id) in
                match x with
                | Ok l => ret (Some l, not_space)
                | Err e => again (tried ++ [id]) (if is_no_space e then not_space else Some e)
                end
            end
      end
  end.
(** A slab is tried at most once, and only those of the tier are. *)
Definition tier_fuel (r : SlabRegistry S) (tier : StorageTier) : nat := Datatypes.S (length (default [] (tier_index r !! tier))).
Fixpoint tiers_loop (v : VolumeId) (h : Volume) (failed_drives apart_from : list FailureDomain) (rung : string)
    (vext generation : Z) (tiers : list StorageTier) (not_space : option DriveError) : M Leg :=
  match tiers with
  | [] => fail (default DNoSpace not_space)
  | t :: ts =>
      let! r := gets registry in
      let! x := tier_loop (tier_fuel r t) v h failed_drives apart_from rung vext generation t [] not_space in
      match fst x with
      | Some l => ret l
      | None => tiers_loop v h failed_drives apart_from rung vext generation ts (snd x)
      end
  end.

(** The slabs a placement target names, the emptiest first. *)
Definition target_candidates (h : Volume) (r : SlabRegistry S) (apart_from : list FailureDomain) (rung : string)
    (to_ except : list SlabId) : list (SlabId * Z) :=
  most_free_first (omap (fun id =>
    if bool_decide (id ∈ except) || negb (takes r id (pl_role (placement h)) (vslot h)) || is_failed h id
       || collides r id (failed_domains h r) DEFAULT_RUNG || collides r id apart_from rung then None
    else (fun s => (id, ss_free_slots s)) <$> slabs r !! id) to_).

Definition allocate_apart (v : VolumeId) (vext : Z) (apart_from : list FailureDomain) (rung : string) (generation : Z) : M Leg :=
  let! h := handle v in
  let! w := gets id in
  let r := registry w in
  match pinned (placement h) with
  | Some pin =>
      if is_failed h pin then fail DOther
      else match allocatable_pinned r pin with
           | None => fail DNoSpace
           | Some _ => allocate_on v vext generation pin
           end
  | None =>
      match t ← targets w !! v; (fun to_ => (to_, tg_except t)) <$> tg_to t with
      | Some (to_, except) => try_candidates v vext generation (target_candidates h r apart_from rung to_ except) None
      | None => tiers_loop v h (failed_domains h r) apart_from rung vext generation
                  (preferred_tier (placement h) :: tier_fallback (placement h)) None
      end
  end.

(** The volume's own slab while it takes the extent, else wherever: it keeps to that from then on. *)
Definition affine_slot (v : VolumeId) (vext generation : Z) : M (option Leg) :=
  let! h := handle v in
  let! w := gets id in
  match affinity h with
  | Some a =>
      if affine h && match targets w !! v with Some t => allows t a | None => true end && negb (is_failed h a)
         && takes (registry w) a (pl_role (placement h)) (vslot h)
      then
        let! x := attempt (allocate_on v vext generation a) in
        ret (match x with Ok l => Some l | Err _ => None end)
      else ret None
  | None => ret None
  end.
Definition allocate_slot (v : VolumeId) (vext generation : Z) : M Leg :=
  let! own := affine_slot v vext generation in
  match own with
  | Some l => ret l
  | None =>
      let! l := allocate_apart v vext [] DEFAULT_RUNG generation in
      update v (fun h => if affine h then set_affinity (Some (lg_slab l)) h else h) ;; ret l
  end.

Definition free_leg (l : Leg) : M () := let! _ := if_slab (lg_slab l) (ss_free (lg_slot l)) in commit_leg l.
Definition give_back : list Leg -> M () := for_each free_leg.

Fixpoint allocate_more (n : nat) (v : VolumeId) (vext : Z) (rung : string) (generation : Z) (taken : list FailureDomain) (ls : list Leg)
    : M (list Leg) :=
  match n with
  | O => ret ls
  | Datatypes.S n =>
      let! x := attempt (allocate_apart v vext taken rung generation) in
      match x with
      | Ok l => let! r := gets registry in allocate_more n v vext rung generation (taken ++ [domain_of r (lg_slab l)]) (ls ++ [l])
      | Err e => give_back ls ;; fail (if is_no_space e then DNoSpace else DOther)
      end
  end.
Definition allocate_legs (v : VolumeId) (vext : Z) (p : RedundancyPolicy) (generation : Z) : M (list Leg) :=
  allocate_more (Z.to_nat (copies (scheme p))) v vext (spread p) generation [] [].

(** ** Leg I/O *)

Definition read_leg (l : Leg) (off n : Z) : M bytes :=
  let! b := with_slab (lg_slab l) (ss_read (lg_slot l) off n) in if zlen b =? n then ret b else fail DOther.
Definition confirm (l : Leg) : M () := if_slab (lg_slab l) (fun s => ((), ss_confirm (lg_slot l) s)) ;; ret ().
Definition write_some (l : Leg) (off : Z) (buf : bytes) : M () :=
  let! n := with_slab (lg_slab l) (ss_write (lg_slot l) off buf) in if n =? zlen buf then ret () else fail DOther.
Definition write_leg (l : Leg) (off : Z) (buf : bytes) : M () := write_some l off buf ;; confirm l.
Definition zero_leg (l : Leg) (off n : Z) : M () := with_slab (lg_slab l) (ss_zero (lg_slot l) off n).
(** A fresh slot's first write: zeros around it. *)
Definition write_fresh (slot : Z) (l : Leg) (off : Z) (buf : bytes) : M () :=
  let end_ := off + zlen buf in
  (if 0 <? off then zero_leg l 0 off else ret ()) ;;
  write_some l off buf ;;
  (if end_ <? slot then zero_leg l end_ (slot - end_) else ret ()) ;;
  confirm l.

(** The first leg that answers; one that does not is distrusted. *)
Fixpoint read_legs (v : VolumeId) (ls : list Leg) (off n : Z) (last : option DriveError) : M (result (option DriveError) bytes) :=
  match ls with
  | [] => ret (Err last)
  | l :: r =>
      let! x := attempt (read_leg l off n) in
      match x with
      | Ok b => ret (Ok b)
      | Err e => mark_failed v (lg_slab l) e ;; read_legs v r off n (Some e)
      end
  end.
Definition read_extent (v : VolumeId) (vext : Z) (loc : ExtentLocation) (off n : Z) : M bytes :=
  let! h := handle v in
  let! x := read_legs v (usable_legs h loc vext) off n None in
  match x with
  | Ok b => ret b
  | Err last =>
      let! h := handle v in
      if is_parity (scheme (policy h)) then pp_rebuild pp v vext off n else fail (default DOther last)
  end.
Definition read_full (v : VolumeId) (vext : Z) (loc : ExtentLocation) : M (option bytes) :=
  let! h := handle v in
  let! x := read_legs v (usable_legs h loc vext) 0 (vslot h) None in
  ret (match x with Ok b => Some b | Err _ => None end).

Definition mark_all (v : VolumeId) : list (Leg * DriveError) -> M () := for_each (fun le => mark_failed v (lg_slab (fst le)) (snd le)).
Definition write_legs (v : VolumeId) (vext : Z) (loc : ExtentLocation) (off : Z) (buf : bytes) : M () :=
  let! h := handle v in
  let ls := usable_legs h loc vext in
  match ls with
  | [] => fail DOther
  | _ =>
      let! rs := join_all (fun l => write_leg l off buf) ls in
      mark_all v (errors rs) ;;
      match succeeded rs, last (errors rs) with
      | [], Some (_, e) => fail e
      | _, _ => ret ()
      end
  end.
Definition write_in_place := write_legs.

(** ** Extents *)

Definition fenced_lookup (v : VolumeId) (vext : Z) : M (option ExtentLocation) := of_gem (fun g => lookup g v vext).
Definition map_extent (v : VolumeId) (vext : Z) (loc : ExtentLocation) : M () := put_gem (Gem.insert v vext loc).
(** [ExtentLocation::with_legs(good[0], good[1..])]. *)
Definition location_of (ls : list Leg) (generation : Z) : option ExtentLocation :=
  match ls with
  | [] => None
  | l :: r => Some (mkLoc (lg_slab l) (lg_slot l) 1 generation r)
  end.

Definition allocate_and_write (v : VolumeId) (vext off : Z) (buf : bytes) (p : RedundancyPolicy) : M () :=
  let! h := handle v in
  if is_none p then
    let! l := allocate_slot v vext 1 in
    let! x := attempt (write_fresh (vslot h) l off buf) in
    match x with
    | Err e => give_back [l] ;; fail e
    | Ok _ => map_extent v vext (new_location (lg_slab l) (lg_slot l)) ;; commit_leg l
    end
  else
    let! ls := allocate_legs v vext p 1 in
    let! rs := join_all (fun l => write_fresh (vslot h) l off buf) ls in
    mark_all v (errors rs) ;;
    match location_of (succeeded rs) 1 with
    | None => give_back ls ;; fail DOther
    | Some loc =>
        give_back (map fst (errors rs)) ;;
        map_extent v vext loc ;;
        commit_legs (succeeded rs)
    end.

Definition on_leaving_slab (loc : ExtentLocation) : M bool :=
  gets (fun w => existsb (fun l => is_quarantined (registry w) (lg_slab l)) (legs loc)).

(** Let go of one reference to each leg; the shares left and the owner the slab has of each. *)
Fixpoint release_legs (ls : list Leg) : M (list (Leg * Z * option (VolumeId * Z))) :=
  match ls with
  | [] => ret []
  | l :: r =>
      let! d := if_slab (lg_slab l) (ss_dec_ref (lg_slot l)) in
      match d with
      | Some (Ok _) =>
          let! n := if_slab (lg_slab l) (ss_shares (lg_slot l)) in
          let! o := if_slab (lg_slab l) (ss_owner (lg_slot l)) in
          let! rest := release_legs r in
          ret ((l, default 0 n, default None o) :: rest)
      | _ => release_legs r
      end
  end.
(** The owners' counts made to agree. *)
Definition sync_ref (c : Leg * Z * option (VolumeId * Z)) : M () :=
  let '(l, n, o) := c in
  if n =? 0 then ret ()
  else match o with
       | Some (u, tagged) => modify (fun w => set_gem (set_owner_ref u tagged l n (gem w)) w)
       | None => ret ()
       end.
Definition sync_refs : list (Leg * Z * option (VolumeId * Z)) -> M () := for_each sync_ref.

(** [slice::copy_from_slice] at an offset. *)
Definition overlay (off : Z) (buf data : bytes) : bytes := take (Z.to_nat off) data ++ buf ++ drop (Z.to_nat (off + zlen buf)) data.

Definition cow_write (v : VolumeId) (vext off : Z) (buf : bytes) (old : ExtentLocation) (p : RedundancyPolicy) : M () :=
  let! d := read_full v vext old in
  match d with
  | None => fail DOther
  | Some data =>
      let data := overlay off buf data in
      let gen := wrap 64 (generation old + 1) in
      let! ls := (if is_none p then let! l := allocate_slot v vext gen in ret [l] else allocate_legs v vext p gen) in
      let! rs := join_all (fun l => write_leg l 0 data) ls in
      (if is_none p then ret () else mark_all v (errors rs)) ;;
      match location_of (succeeded rs) gen with
      | None => give_back ls ;; fail (match errors rs with (_, e) :: _ => e | [] => DOther end)
      | Some loc =>
          give_back (map fst (errors rs)) ;;
          map_extent v vext loc ;;
          commit_legs (succeeded rs) ;;
          let! synced := release_legs (legs old) in
          sync_refs synced
      end
  end.

Definition release_extent (v : VolumeId) (vext : Z) : M () :=
  let! h := handle v in
  if is_parity (scheme (policy h)) then pp_release pp v vext
  else
    let! loc := fenced_lookup v vext in
    match loc with
    | None => ret ()
    | Some loc =>
        on_gem (Gem.remove v vext) ;;
        for_each (fun l => if_slab (lg_slab l) (ss_dec_ref (lg_slot l)) ;; ret ()) (legs loc)
    end.

Inductive Relocated := Unmapped | AlreadyThere | Moved | Copied.
(** One extent onto [dest], whoever else keeps the original. *)
Definition relocate_extent (v : VolumeId) (vext : Z) (dest : SlabId) : M Relocated :=
  resident v ;;
  let! loc := fenced_lookup v vext in
  match loc with
  | None => ret Unmapped
  | Some loc =>
      if forallb (fun l => bool_decide (lg_slab l = dest)) (legs loc) then ret AlreadyThere
      else if 1 <? leg_count loc then fail DOther
      else
        let! d := read_full v vext loc in
        match d with
        | None => fail DOther
        | Some data =>
            let gen := wrap 64 (generation loc + 1) in
            let! new := allocate_on v vext gen dest in
            let! x := attempt (write_leg new 0 data) in
            match x with
            | Err e => give_back [new] ;; fail e
            | Ok _ =>
                map_extent v vext (mkLoc (lg_slab new) (lg_slot new) 1 gen []) ;;
                commit_legs [new] ;;
                let! synced := release_legs (legs loc) in
                sync_refs synced ;;
                ret (if 1 <? ref_count loc then Copied else Moved)
            end
        end
  end.

(** ** Reads and writes of the volume *)

Definition write_extent (v : VolumeId) (p : RedundancyPolicy) (vext off : Z) (chunk : bytes) : M () :=
  if is_parity (scheme p) then pp_write pp v vext off chunk
  else
    let! loc := fenced_lookup v vext in
    match loc with
    | None => allocate_and_write v vext off chunk p
    | Some loc =>
        let! leaving := on_leaving_slab loc in
        if 1 <? ref_count loc then cow_write v vext off chunk loc p
        else if leaving then
          let! x := attempt (cow_write v vext off chunk loc p) in
          match x with
          | Ok _ => ret ()
          | Err DNoSpace => write_in_place v vext loc off chunk
          | Err e => fail e
          end
        else write_in_place v vext loc off chunk
    end.
Fixpoint write_loop (fuel : nat) (v : VolumeId) (slot : Z) (p : RedundancyPolicy) (pos : Z) (buf : bytes) : M () :=
  match fuel, buf with
  | O, _ | _, [] => ret ()
  | Datatypes.S fuel, _ =>
      let n := Z.min (slot - pos mod slot) (zlen buf) in
      write_extent v p (pos / slot) (pos mod slot) (take (Z.to_nat n) buf) ;;
      write_loop fuel v slot p (pos + n) (drop (Z.to_nat n) buf)
  end.
Definition write_blocks (v : VolumeId) (offset : Z) (buf : bytes) : M Z :=
  refuse_if_sealed v ;;
  refuse_if_unknown_scheme v ;;
  let! h := handle v in
  write_loop (length buf) v (vslot h) (policy h) offset buf ;;
  ret (zlen buf).

Definition read_part (v : VolumeId) (vext off n : Z) : M bytes :=
  let! h := handle v in
  if is_parity (scheme (policy h)) then pp_read pp v vext off n
  else
    let! loc := fenced_lookup v vext in
    match loc with Some loc => read_extent v vext loc off n | None => ret (zeros n) end.
Fixpoint read_loop (fuel : nat) (v : VolumeId) (slot pos len : Z) : M bytes :=
  match fuel with
  | O => ret []
  | Datatypes.S fuel =>
      if len <=? 0 then ret []
      else
        let n := Z.min (slot - pos mod slot) len in
        let! b := read_part v (pos / slot) (pos mod slot) n in
        let! rest := read_loop fuel v slot (pos + n) (len - n) in
        ret (b ++ rest)
  end.
Definition read_blocks (v : VolumeId) (offset len : Z) : M bytes :=
  let! h := handle v in read_loop (Z.to_nat len) v (vslot h) offset len.

(** The whole blocks around a range. *)
Definition block_first (bs offset : Z) : Z := offset - offset mod bs.
Definition block_end (bs offset len : Z) : Z := div_ceil (offset + len) bs * bs.
Definition aligned (bs offset len : Z) : bool := (offset mod bs =? 0) && (len mod bs =? 0).
Definition read_padded_to_block (v : VolumeId) (offset len : Z) : M bytes :=
  if len =? 0 then ret []
  else
    let! h := handle v in
    let first := block_first (lba h) offset in
    let! b := read_blocks v first (block_end (lba h) offset len - first) in
    ret (take (Z.to_nat len) (drop (Z.to_nat (offset - first)) b)).
Definition read (v : VolumeId) (offset len : Z) : M bytes :=
  refuse_if_unknown_scheme v ;;
  resident v ;;
  let! h := handle v in
  if aligned (lba h) offset len then read_blocks v offset len else read_padded_to_block v offset len.

Definition write_padded_to_block (v : VolumeId) (offset : Z) (buf : bytes) : M Z :=
  if zlen buf =? 0 then ret 0
  else
    let! h := handle v in
    let first := block_first (lba h) offset in
    let! block := read v first (block_end (lba h) offset (zlen buf) - first) in
    write_blocks v first (overlay (offset - first) buf block) ;;
    ret (zlen buf).
(** [Finished]: counted however the request ends. *)
Definition finishing {A} (v : VolumeId) (m : M A) : M A :=
  let! x := attempt m in update v (fun h => set_counts (completed h + 1) (synced h) h) ;; of_result x.
Definition write (v : VolumeId) (offset : Z) (buf : bytes) : M Z :=
  refuse_if_unknown_scheme v ;;
  resident v ;;
  refuse_if_sealed v ;;
  finishing v (let! h := handle v in
    if aligned (lba h) offset (zlen buf) then write_blocks v offset buf else write_padded_to_block v offset buf).

(** Extents held alone are let go of. *)
Definition discard_one (v : VolumeId) (vext : Z) : M () :=
  let! loc := fenced_lookup v vext in
  if match loc with Some l => 1 <? ref_count l | None => false end then ret () else release_extent v vext.
Definition discard_mapped (v : VolumeId) : list Z -> M () := for_each (discard_one v).
Definition discard (v : VolumeId) (offset len : Z) : M () :=
  refuse_if_unknown_scheme v ;;
  resident v ;;
  refuse_if_sealed v ;;
  finishing v (let! h := handle v in
    let first := div_ceil offset (vslot h) in
    let last := (offset + len) / vslot h in
    if last <=? first then ret ()
    else
      refuse_if_unknown_scheme v ;;
      let! mapped := of_gem (fun g => mapped_in g v first last) in
      discard_mapped v mapped).

Definition zero_extent (v : VolumeId) (slot offset end_ vext : Z) : M () :=
  let pos := Z.max (vext * slot) offset in
  write v pos (zeros (Z.min ((vext + 1) * slot) end_ - pos)) ;; ret ().
Definition write_zeroes (v : VolumeId) (offset len : Z) : M () :=
  refuse_if_unknown_scheme v ;;
  resident v ;;
  refuse_if_sealed v ;;
  finishing v (
    if len =? 0 then ret ()
    else
      let! h := handle v in
      let! mapped := of_gem (fun g => mapped_in g v (offset / vslot h) ((offset + len - 1) / vslot h + 1)) in
      for_each (zero_extent v (vslot h) offset (offset + len)) mapped).

(** The next resync adds or drops legs; to or from parity is not a setting. *)
Definition set_redundancy (v : VolumeId) (p : RedundancyPolicy) : M () :=
  let! h := handle v in
  if check_transition (scheme (policy h)) (scheme p) then update v (set_policy p) else refuse RestripeRequired.

Definition resize (v : VolumeId) (new_size : Z) : M () :=
  resident v ;;
  if new_size =? 0 then refuse InvalidSize
  else
    let! h := handle v in
    if new_size =? virtual_size h then ret ()
    else if (new_size <? virtual_size h) && sealed h then refuse Sealed
    else
      (if new_size <? virtual_size h then
         let! xs := of_gem (fun g => volume_extents g v) in
         for_each (fun x => attempt (release_extent v x) ;; ret ())
           (filter (fun x => div_ceil new_size (vslot h) <= x) (map fst (default [] xs)))
       else ret ()) ;;
      update v (set_size new_size).
End thin.
Arguments world S : clear implicits.
Arguments M S A : clear implicits.
Arguments ParityPath S : clear implicits.
