(* ===== verification/ThinInv.v ===== *)
(** What holds of volumes and slabs between requests, and what the operations on slabs
    and legs keep of it: a slot has no more holders than shares, a location counted once
    is held once, and the legs a volume trusts hold its bytes. *)

From S2P Require Import Prelude SlabFormat GemData ExtMap Gem Redundancy SlotStore Registry Thin.

(** ** Programs *)

Section wp.
Context {S : Type} `{SlotStore S}.

Definition wp {A} (m : M S A) (Q : result fault A -> world S -> Prop) (w : world S) : Prop := Q (fst (m w)) (snd (m w)).

Lemma twp_mono {A} (m : M S A) (P Q : result fault A -> world S -> Prop) w : wp m P w -> (forall r w', P r w' -> Q r w') -> wp m Q w.
Proof. unfold wp. auto. Qed.
Lemma twp_ret {A} (a : A) (Q : result fault A -> world S -> Prop) w : Q (Ok a) w -> wp (ret a) Q w.
Proof. done. Qed.
Lemma twp_bind {A B} (m : M S A) (k : A -> M S B) (Q : result fault B -> world S -> Prop) w :
  wp m (fun r w' => match r with Ok a => wp (k a) Q w' | Err f => Q (Err f) w' end) w -> wp (bind m k) Q w.
Proof. unfold wp, bind. by destruct (m w) as [[a|f] w']. Qed.
Lemma wp_attempt {A} (m : M S A) (Q : result fault (result DriveError A) -> world S -> Prop) w :
  wp m (fun r w' => match r with Ok a => Q (Ok (Ok a)) w' | Err (Failed e) => Q (Ok (Err e)) w' | Err f => Q (Err f) w' end) w ->
  wp (attempt m) Q w.
Proof. unfold wp, attempt. by destruct (m w) as [[a|[]] w']. Qed.
(** [m] run after what [P] says of, first to last. *)
Lemma wp_seq {A B} (m : M S A) (k : A -> M S B) (P : result fault A -> world S -> Prop) (Q : result fault B -> world S -> Prop) w :
  wp m P w -> (forall a w', P (Ok a) w' -> wp (k a) Q w') -> (forall f w', P (Err f) w' -> Q (Err f) w') -> wp (bind m k) Q w.
Proof. intros Hm Ho He. apply twp_bind. eapply twp_mono; [exact Hm|]. intros [a|f] w' Hp; auto. Qed.
Lemma wp_try {A B} (m : M S A) (k : result DriveError A -> M S B) (P : result fault A -> world S -> Prop) (Q : result fault B -> world S -> Prop) w :
  wp m P w -> (forall a w', P (Ok a) w' -> wp (k (Ok a)) Q w') -> (forall e w', P (Err (Failed e)) w' -> wp (k (Err e)) Q w') ->
  (forall f w', P (Err f) w' -> Q (Err f) w') -> wp (bind (attempt m) k) Q w.
Proof.
  intros Hm Ho He Hf. apply twp_bind, wp_attempt. eapply twp_mono; [exact Hm|]. intros [a|[e|e|]] w' Hp; auto.
Qed.
End wp.

(** ** Ranges of bytes *)

(** A byte of a list, counted from [0]. *)
Definition at_ (b : bytes) (i : Z) : Z := default 0 (b !! Z.to_nat i).
(** [b] is what [f] has from [off]. *)
Definition shows (f : Z -> Z) (off : Z) (b : bytes) : Prop := forall p, off <= p < off + zlen b -> at_ b (p - off) = f p.

Lemma at_app_l a b i : 0 <= i < zlen a -> at_ (a ++ b) i = at_ a i.
Proof. intros Hi. unfold at_, zlen in *. rewrite lookup_app_l; [done|lia]. Qed.
Lemma at_app_r a b i : zlen a <= i -> at_ (a ++ b) i = at_ b (i - zlen a).
Proof. intros Hi. unfold at_, zlen in *. rewrite lookup_app_r by lia. do 2 f_equal. lia. Qed.
Lemma chunk_zeros n i : at_ (zeros n) i = 0.
Proof. unfold at_, zeros. destruct (_ !! _) eqn:E; [|done]. by apply lookup_replicate in E as [-> _]. Qed.
Lemma at_take n b i : 0 <= i < n -> at_ (take (Z.to_nat n) b) i = at_ b i.
Proof. intros Hi. unfold at_. rewrite lookup_take_lt; [done|lia]. Qed.
Lemma at_drop n b i : 0 <= n -> 0 <= i -> at_ (drop (Z.to_nat n) b) i = at_ b (n + i).
Proof. intros Hn Hi. unfold at_. rewrite lookup_drop. do 2 f_equal. lia. Qed.
Lemma zlen_take n (b : bytes) : 0 <= n <= zlen b -> zlen (take (Z.to_nat n) b) = n.
Proof. intros Hn. unfold zlen in *. rewrite length_take. lia. Qed.
Lemma zlen_drop n (b : bytes) : 0 <= n <= zlen b -> zlen (drop (Z.to_nat n) b) = zlen b - n.
Proof. intros Hn. unfold zlen in *. rewrite length_drop. lia. Qed.

Lemma zlen_overlay off b data : 0 <= off -> off + zlen b <= zlen data -> zlen (overlay off b data) = zlen data.
Proof.
  intros Ho Hl. unfold overlay. pose proof (zlen_nonneg b). rewrite !zlen_app, zlen_take, zlen_drop by lia. lia.
Qed.
Lemma at_overlay off b data p : 0 <= off -> off + zlen b <= zlen data -> 0 <= p ->
  at_ (overlay off b data) p = if (off <=? p) && (p <? off + zlen b) then at_ b (p - off) else at_ data p.
Proof.
  intros Ho Hl Hp. unfold overlay. pose proof (zlen_nonneg b). assert (zlen (take (Z.to_nat off) data) = off) as Ht by (apply zlen_take; lia).
  destruct (Z.leb_spec off p); cbn [andb].
  - rewrite at_app_r by lia. rewrite Ht. destruct (Z.ltb_spec p (off + zlen b)); [rewrite at_app_l by lia; done|].
    rewrite at_app_r, at_drop by lia. f_equal. lia.
  - rewrite at_app_l, at_take by lia. done.
Qed.

Lemma shows_range f off b : b = map f (zrange off (off + zlen b)) <-> shows f off b.
Proof.
  unfold shows, at_. split.
  - intros E p Hp. rewrite E. rewrite list_lookup_fmap. unfold zrange. rewrite lookup_zseq by lia. cbn. f_equal. lia.
  - intros Hs. apply list_eq. intros i. rewrite list_lookup_fmap. destruct (decide (i < length b)%nat) as [Hi|Hi].
    + unfold zrange, zlen in *. rewrite lookup_zseq by lia. cbn. destruct (lookup_lt_is_Some_2 b i Hi) as [x Hx]. rewrite Hx. f_equal.
      rewrite <- Hs by lia. replace (Z.to_nat (off + Z.of_nat i - off)) with i by lia. by rewrite Hx.
    + rewrite lookup_ge_None_2 by lia. symmetry. apply fmap_None, lookup_ge_None_2. unfold zrange, zlen. rewrite length_zseq. lia.
Qed.
Lemma shows_ext f g off b : (forall p, off <= p < off + zlen b -> f p = g p) -> shows f off b -> shows g off b.
Proof. intros He Hs p Hp. rewrite Hs, He; auto. Qed.
Lemma shows_app f off a b : shows f off a -> shows f (off + zlen a) b -> shows f off (a ++ b).
Proof.
  intros Ha Hb p. rewrite zlen_app. intros Hp. destruct (decide (p - off < zlen a)).
  - rewrite at_app_l by lia. apply Ha. lia.
  - rewrite at_app_r by lia. replace (p - off - zlen a) with (p - (off + zlen a)) by lia. apply Hb. lia.
Qed.
Lemma disk_shown_unique f off a b : shows f off a -> shows f off b -> zlen a = zlen b -> a = b.
Proof. intros Ha Hb E. apply shows_range in Ha, Hb. rewrite Ha, Hb. by rewrite E. Qed.

(** ** Slots through the registry *)

Section inv.
Context {S : Type} `{SlotStoreLaws S}.

Definition attached (w : world S) (l : Leg) : Prop := is_Some (slabs (registry w) !! lg_slab l).
Definition refs (w : world S) (l : Leg) : Z :=
  match slabs (registry w) !! lg_slab l with Some s => ss_refs s (lg_slot l) | None => 0 end.
Definition byte (w : world S) (l : Leg) (p : Z) : Z :=
  match slabs (registry w) !! lg_slab l with Some s => ss_byte s (lg_slot l) p | None => 0 end.
Definition size_at (w : world S) (l : Leg) : Z :=
  match slabs (registry w) !! lg_slab l with Some s => ss_slot_size s | None => 0 end.
Definition wf_slabs (w : world S) : Prop := forall id s, slabs (registry w) !! id = Some s -> ss_wf s.

(** Of a handle: what a request leaves alone, and that it only ever trusts less. *)
Record softer (h h' : Volume) : Prop := {
  so_size : virtual_size h' = virtual_size h;
  so_slot : vslot h' = vslot h;
  so_policy : policy h' = policy h;
  so_placement : placement h' = placement h;
  so_flags : (sealed h', read_only h', refused h', lba h') = (sealed h, read_only h, refused h, lba h);
  so_failed : failed h ⊆ failed h' }.
#[export] Instance softer_po : PreOrder softer.
Proof.
  split; [by constructor|]. intros a b c [A1 A2 A3 A4 A5 A6] [B1 B2 B3 B4 B5 B6]. constructor; try congruence. set_solver.
Qed.

(** Only legs of [X] were touched. *)
Record frame (X : Leg -> Prop) (w w' : world S) : Prop := {
  f_gem : gem w' = gem w;
  f_vols v : option_Forall2 softer (vols w !! v) (vols w' !! v);
  f_static : (tier_index (registry w'), domains (registry w'), quarantined (registry w'), targets w')
             = (tier_index (registry w), domains (registry w), quarantined (registry w), targets w);
  f_wf : wf_slabs w';
  f_slabs id : is_Some (slabs (registry w') !! id) <-> is_Some (slabs (registry w) !! id);
  f_size l : size_at w' l = size_at w l;
  f_refs l : ~ X l -> refs w' l = refs w l;
  f_bytes l p : ~ X l -> 0 < refs w l -> 0 <= p < size_at w l -> byte w' l p = byte w l p }.
Definition nothing : Leg -> Prop := fun _ => False.
Definition just (l : Leg) : Leg -> Prop := fun k => k = l.
Definition among (ls : list Leg) : Leg -> Prop := fun k => k ∈ ls.

Lemma frame_refl X w : wf_slabs w -> frame X w w.
Proof. intros Hw. by constructor. Qed.
Lemma frame_trans X w w1 w2 : frame X w w1 -> frame X w1 w2 -> frame X w w2.
Proof.
  intros [A1 A2 A3 A4 A5 A6 A7 A8] [B1 B2 B3 B4 B5 B6 B7 B8]. constructor; try congruence; try done.
  - intros v. specialize (A2 v). specialize (B2 v). destruct A2 as [h h1 Ha|]; inversion B2 as [? h2 Hb|]; subst; constructor.
    by etransitivity.
  - intros id. by rewrite B5, A5.
  - intros l Hl. by rewrite B7, A7.
  - intros l p Hl Hr Hp. rewrite B8, A8; try done; [by rewrite A7|by rewrite A6].
Qed.
Lemma frame_mono (X Y : Leg -> Prop) w w' : frame X w w' -> (forall l, X l -> Y l) -> frame Y w w'.
Proof. intros [A1 A2 A3 A4 A5 A6 A7 A8] HXY. constructor; auto. Qed.
Lemma frame_any X w w' : frame nothing w w' -> frame X w w'.
Proof. intros HF. by apply (frame_mono nothing). Qed.
Lemma frame_refs w w' l : frame nothing w w' -> refs w' l = refs w l.
Proof. intros HF. apply (f_refs _ _ _ HF). by intros []. Qed.
Lemma frame_bytes w w' l p : frame nothing w w' -> 0 < refs w l -> 0 <= p < size_at w l -> byte w' l p = byte w l p.
Proof. intros HF. apply (f_bytes _ _ _ HF). by intros []. Qed.
Lemma frame_step (X Y Z' : Leg -> Prop) w w1 w2 :
  frame X w w1 -> frame Y w1 w2 -> (forall l, X l -> Z' l) -> (forall l, Y l -> Z' l) -> frame Z' w w2.
Proof. intros HX HY H1 H2. eapply frame_trans; by eapply frame_mono. Qed.

(** ** Operations on slabs *)

Lemma refs_nonneg_w w l : wf_slabs w -> 0 <= refs w l.
Proof. intros Hw. unfold refs. destruct (slabs (registry w) !! lg_slab l) eqn:E; [|done]. apply ss_refs_nonneg. by eapply Hw. Qed.
Lemma refs_attached w l : 0 < refs w l -> attached w l.
Proof. unfold refs, attached. destruct (slabs (registry w) !! lg_slab l); [by eauto|lia]. Qed.

Lemma frame_put X w id s s' : wf_slabs w -> slabs (registry w) !! id = Some s -> ss_wf s' -> ss_slot_size s' = ss_slot_size s ->
  (forall i, ~ X (mkLeg id i) -> ss_refs s' i = ss_refs s i) ->
  (forall i p, ~ X (mkLeg id i) -> 0 < ss_refs s i -> 0 <= p < ss_slot_size s -> ss_byte s' i p = ss_byte s i p) ->
  frame X w (put_slab id s' w).
Proof.
  intros Hw Hs Hwf Hsz Hr Hb. assert (forall l, lg_slab l = id -> l = mkLeg id (lg_slot l)) as Hl by (intros [] ; cbn; by intros ->).
  constructor; try done.
  - intros id' s0. cbn. destruct (decide (id' = id)) as [->|]; [rewrite lookup_insert_eq; by intros [= <-]|].
    rewrite lookup_insert_ne by done. apply Hw.
  - intros id'. cbn. destruct (decide (id' = id)) as [->|]; [rewrite lookup_insert_eq, Hs; split; by eauto|by rewrite lookup_insert_ne].
  - intros l. unfold size_at. cbn. destruct (decide (lg_slab l = id)) as [->|]; [by rewrite lookup_insert_eq, Hs|by rewrite lookup_insert_ne].
  - intros l Hx. unfold refs. cbn. destruct (decide (lg_slab l = id)) as [E|]; [|by rewrite lookup_insert_ne].
    rewrite E, lookup_insert_eq, Hs. apply Hr. by rewrite <- Hl.
  - intros l p Hx. unfold refs, byte, size_at. cbn. destruct (decide (lg_slab l = id)) as [E|]; [|by rewrite lookup_insert_ne].
    rewrite E, lookup_insert_eq, Hs. apply Hb. by rewrite <- Hl.
Qed.

Lemma wp_with_slab {A} id (f : S -> result DriveError A * S) Q w :
  (slabs (registry w) !! id = None -> Q (Err (Failed DOther)) w) ->
  (forall s, slabs (registry w) !! id = Some s ->
   Q (match fst (f s) with Ok a => Ok a | Err e => Err (Failed e) end) (put_slab id (snd (f s)) w)) -> wp (with_slab id f) Q w.
Proof.
  intros Hn Hs. unfold wp, with_slab. destruct (slabs (registry w) !! id) as [s|]; [|by apply Hn].
  specialize (Hs s eq_refl). by destruct (f s).
Qed.
Lemma wp_if_slab {A} id (f : S -> A * S) Q w :
  (slabs (registry w) !! id = None -> Q (Ok None) w) ->
  (forall s, slabs (registry w) !! id = Some s -> Q (Ok (Some (fst (f s)))) (put_slab id (snd (f s)) w)) -> wp (if_slab id f) Q w.
Proof.
  intros Hn Hs. unfold wp, if_slab. destruct (slabs (registry w) !! id) as [s|]; [|by apply Hn].
  specialize (Hs s eq_refl). by destruct (f s).
Qed.

(** A slot's leg, its slab in hand. *)
Lemma refs_of (w : world S) l s : slabs (registry w) !! lg_slab l = Some s -> refs w l = ss_refs s (lg_slot l).
Proof. intros E. unfold refs. by rewrite E. Qed.
Lemma size_of (w : world S) l s : slabs (registry w) !! lg_slab l = Some s -> size_at w l = ss_slot_size s.
Proof. intros E. unfold size_at. by rewrite E. Qed.
Lemma byte_of (w : world S) l s p : slabs (registry w) !! lg_slab l = Some s -> byte w l p = ss_byte s (lg_slot l) p.
Proof. intros E. unfold byte. by rewrite E. Qed.
Lemma slab_put (w : world S) id s : slabs (registry (put_slab id s w)) !! id = Some s.
Proof. cbn. by rewrite lookup_insert_eq. Qed.
Lemma leg_eta l : mkLeg (lg_slab l) (lg_slot l) = l.
Proof. by destruct l. Qed.

Lemma frame_keeps_all w id s s' : wf_slabs w -> slabs (registry w) !! id = Some s ->
  keeps_all ss_slot_size ss_wf ss_refs ss_byte s s' -> frame nothing w (put_slab id s' w).
Proof.
  intros Hw Hs [[K1 K2 K3] K4]. apply (frame_put _ _ _ s); try done. intros i p _ Hr Hp. apply K3; rewrite ?K4; done.
Qed.

(** A leg that may be asked for a range: attached, it is held and has it. *)
Definition usable (w : world S) (l : Leg) (off n : Z) : Prop :=
  0 <= off /\ 0 <= n /\ (attached w l -> 0 < refs w l /\ off + n <= size_at w l).
Lemma usable_frame X w w' l off n : usable w l off n -> frame X w w' -> refs w' l = refs w l -> usable w' l off n.
Proof.
  intros (H1 & H2 & Hu) HF Hr. split_and!; try done. unfold attached. rewrite (f_slabs _ _ _ HF), Hr, (f_size _ _ _ HF). done.
Qed.

Lemma read_leg_spec l off n w : wf_slabs w -> usable w l off n ->
  wp (read_leg l off n) (fun r w' => frame nothing w w' /\ forall b, r = Ok b -> attached w l /\ zlen b = n /\ shows (byte w l) off b) w.
Proof.
  intros Hw (Ho & Hn & Hu). unfold read_leg. apply twp_bind, wp_with_slab.
  - intros _. split; [by apply frame_refl|done].
  - intros s Hs. destruct Hu as [Hr Hsz]; [by exists s|]. rewrite (refs_of _ _ _ Hs) in Hr. rewrite (size_of _ _ _ Hs) in Hsz.
    destruct (ss_read_law s (lg_slot l) off n (Hw _ _ Hs) Hr Ho Hn Hsz) as [HK Hb].
    pose proof (frame_keeps_all w _ s _ Hw Hs HK) as HF. destruct (fst (ss_read (lg_slot l) off n s)) as [b|e]; [|by split].
    destruct (Z.eqb_spec (zlen b) n) as [E|]; [|by split]. split; [done|]. intros b' [= <-]. split; [by exists s|split; [done|]].
    apply shows_range. rewrite E. rewrite (Hb b eq_refl E). apply map_ext. intros p. symmetry. by apply byte_of.
Qed.

(** A range of a leg was written, or may have been. *)
Record wrote (l : Leg) (off n : Z) (w w' : world S) : Prop := {
  wt_frame : frame (just l) w w';
  wt_refs : refs w' l = refs w l;
  wt_bytes p : 0 <= p < size_at w l -> p < off \/ off + n <= p -> byte w' l p = byte w l p }.
Lemma wrote_refl l off n w : wf_slabs w -> wrote l off n w w.
Proof. intros Hw. by constructor. Qed.
Lemma wrote_trans l off n w w1 w2 : wrote l off n w w1 -> wrote l off n w1 w2 -> wrote l off n w w2.
Proof.
  intros [A1 A2 A3] [B1 B2 B3]. constructor; [by eapply frame_trans|congruence|]. intros p Hp Hr. rewrite B3, A3; try done.
  by rewrite (f_size _ _ _ A1).
Qed.
Lemma wrote_widen l off n off' n' w w' : wrote l off n w w' -> off' <= off -> off + n <= off' + n' -> wrote l off' n' w w'.
Proof. intros [A1 A2 A3] ? ?. constructor; try done. intros p Hp Hr. apply A3; [done|lia]. Qed.
Lemma wrote_quiet l off n w w' : frame nothing w w' -> 0 < refs w l -> wrote l off n w w'.
Proof.
  intros HF Hr. constructor; [by apply frame_any|by apply frame_refs|]. intros p Hp _. by apply frame_bytes.
Qed.
Lemma wrote_put w l s s' off n : wf_slabs w -> slabs (registry w) !! lg_slab l = Some s -> 0 < refs w l ->
  writes ss_slot_size ss_wf ss_refs ss_byte (lg_slot l) off n s s' -> wrote l off n w (put_slab (lg_slab l) s' w).
Proof.
  intros Hw Hs Hr [W1 W2 W3 W4]. constructor.
  - apply (frame_put _ _ _ s); try done. intros i p Hx Hi Hp. apply W4; try done. left. intros ->. apply Hx. apply leg_eta.
  - rewrite (refs_of _ _ _ (slab_put w _ s')), (refs_of _ _ _ Hs). apply W3.
  - intros p Hp Hout. rewrite (byte_of _ _ _ _ (slab_put w _ s')), (byte_of _ _ _ _ Hs). rewrite (refs_of _ _ _ Hs) in Hr.
    rewrite (size_of _ _ _ Hs) in Hp. apply W4; auto.
Qed.

Definition blamed (f : fault) : Prop := exists e, f = Failed e /\ is_media_failure e || is_transport e = true.

(** What came of writing [b]: it is there, or storage is to blame. *)
Definition written (l : Leg) (off : Z) (b : bytes) (w : world S) (r : result fault ()) (w' : world S) : Prop :=
  wrote l off (zlen b) w w'
  /\ match r with Ok _ => 0 < refs w l /\ shows (byte w' l) off b | Err f => blamed f end.

Lemma write_some_spec l off b w : wf_slabs w -> usable w l off (zlen b) -> wp (write_some l off b) (written l off b w) w.
Proof.
  intros Hw (Ho & Hn & Hu). unfold write_some. apply twp_bind, wp_with_slab.
  - intros _. split; [by apply wrote_refl|by exists DOther].
  - intros s Hs. destruct Hu as [Hr Hsz]; [by exists s|]. pose proof Hr as Hr'. rewrite (refs_of _ _ _ Hs) in Hr'. rewrite (size_of _ _ _ Hs) in Hsz.
    destruct (ss_write_law s (lg_slot l) off b (Hw _ _ Hs) Hr' Ho Hsz) as (HW & Hb & He).
    pose proof (wrote_put w l s _ off _ Hw Hs Hr HW) as HF. destruct (fst (ss_write (lg_slot l) off b s)) as [n|e].
    2: { split; [done|]. exists e. auto. }
    destruct (Z.eqb_spec n (zlen b)) as [->|]; [|split; [done|by exists DOther]]. split; [done|split; [done|]].
    apply shows_range. rewrite <- (Hb eq_refl) at 1. unfold slot_bytes. apply map_ext. intros p. symmetry. by apply byte_of, slab_put.
Qed.

Definition failure (f : fault) : Prop := exists e, f = Failed e.
Lemma zero_leg_spec l off n w : wf_slabs w -> usable w l off n ->
  wp (zero_leg l off n) (fun r w' => wrote l off n w w' /\ match r with
    | Ok _ => 0 < refs w l /\ shows (byte w' l) off (zeros n)
    | Err f => failure f end) w.
Proof.
  intros Hw (Ho & Hn & Hu). unfold zero_leg. apply wp_with_slab; [split; [by apply wrote_refl|by eexists]|].
  intros s Hs. destruct Hu as [Hr Hsz]; [by exists s|]. pose proof Hr as Hr'. rewrite (refs_of _ _ _ Hs) in Hr'. rewrite (size_of _ _ _ Hs) in Hsz.
  destruct (ss_zero_law s (lg_slot l) off n (Hw _ _ Hs) Hr' Ho Hn Hsz) as (HW & Hb).
  pose proof (wrote_put w l s _ off _ Hw Hs Hr HW) as HF. destruct (fst (ss_zero (lg_slot l) off n s)) as [[]|e]; [|split; [done|by eexists]].
  split; [done|split; [done|]]. apply shows_range. rewrite zlen_zeros by done. rewrite <- (Hb eq_refl) at 1. unfold slot_bytes.
  apply map_ext. intros p. symmetry. by apply byte_of, slab_put.
Qed.

Lemma confirm_spec l w : wf_slabs w -> (attached w l -> 0 < refs w l) -> wp (confirm l) (fun r w' => r = Ok () /\ frame nothing w w') w.
Proof.
  intros Hw Hr. unfold confirm. apply twp_bind, wp_if_slab; [intros _; split; [done|by apply frame_refl]|].
  intros s Hs. split; [done|]. apply (frame_keeps_all w _ s); try done. apply ss_confirm_law; [by eapply Hw|].
  rewrite <- (refs_of _ _ _ Hs). apply Hr. by exists s.
Qed.

Lemma usable_wrote w w' l k off n off' n' : usable w l off n -> wrote k off' n' w w' -> usable w' l off n.
Proof.
  intros Hu HW. eapply usable_frame; [exact Hu|apply (wt_frame _ _ _ _ _ HW)|].
  destruct (decide (l = k)) as [->|Hne]; [apply (wt_refs _ _ _ _ _ HW)|]. by apply (f_refs _ _ _ (wt_frame _ _ _ _ _ HW)).
Qed.
Lemma usable_part w l off n off' n' : usable w l off n -> off <= off' -> 0 <= n' -> off' + n' <= off + n -> usable w l off' n'.
Proof. intros (H1 & H2 & Hu) ? ? ?. split_and!; [lia|lia|]. intros Ha. destruct (Hu Ha). lia. Qed.
Lemma usable_range w l off n p : usable w l off n -> 0 < refs w l -> off <= p < off + n -> 0 <= p < size_at w l.
Proof. intros (H1 & H2 & Hu) Hr Hp. destruct (Hu (refs_attached w l Hr)). lia. Qed.

Lemma write_leg_spec l off b w : wf_slabs w -> usable w l off (zlen b) -> wp (write_leg l off b) (written l off b w) w.
Proof.
  intros Hw Hu. unfold write_leg. eapply wp_seq; [by apply write_some_spec| |done].
  intros [] w1 (HW & Hr & Hs). pose proof (wt_refs _ _ _ _ _ HW) as Hr1.
  eapply twp_mono; [apply confirm_spec; [apply (f_wf _ _ _ (wt_frame _ _ _ _ _ HW))|lia]|].
  intros r w2 [-> HF]. split; [|split; [done|]].
  - eapply wrote_trans; [exact HW|]. apply wrote_quiet; [done|lia].
  - eapply shows_ext; [|exact Hs]. intros p Hp. symmetry. apply (frame_bytes _ _ _ _ HF); [lia|].
    rewrite (f_size _ _ _ (wt_frame _ _ _ _ _ HW)). by eapply usable_range.
Qed.

(** A range of a leg before and after more of the leg was written. *)
Lemma shows_wrote w w' l off b off' n : shows (byte w l) off b -> wrote l off' n w w' ->
  (forall p, off <= p < off + zlen b -> 0 <= p < size_at w l /\ (p < off' \/ off' + n <= p)) -> shows (byte w' l) off b.
Proof.
  intros Hs HW Hp. eapply shows_ext; [|exact Hs]. intros p Hr. symmetry. destruct (Hp p Hr). by apply (wt_bytes _ _ _ _ _ HW).
Qed.

Lemma write_fresh_spec slot l off b w : wf_slabs w -> usable w l 0 slot -> 0 <= off -> off + zlen b <= slot ->
  wp (write_fresh slot l off b) (fun r w' => wrote l 0 slot w w' /\ match r with
    | Ok _ => 0 < refs w l /\ forall p, 0 <= p < slot -> byte w' l p = at_ (overlay off b (zeros slot)) p
    | Err f => failure f end) w.
Proof.
  intros Hw Hu Ho Hl. pose proof (zlen_nonneg b) as Hb. unfold write_fresh.
  eapply (wp_seq _ _ (fun r w1 => wrote l 0 slot w w1 /\ match r with
    | Ok _ => 0 < off -> 0 < refs w l /\ shows (byte w1 l) 0 (zeros off) | Err f => failure f end)).
  { destruct (Z.ltb_spec 0 off); [|apply twp_ret; split; [by apply wrote_refl|lia]].
    eapply twp_mono; [apply zero_leg_spec; [done|]; eapply usable_part; [exact Hu|lia..]|].
    intros [[]|f] w1 [HW Hx]; (split; [eapply wrote_widen; [exact HW|lia..]|done]). }
  2: done. intros [] w1 [HW1 Hz1]. pose proof (f_wf _ _ _ (wt_frame _ _ _ _ _ HW1)) as Hw1.
  pose proof (usable_wrote _ _ _ _ _ _ _ _ Hu HW1) as Hu1. pose proof (wt_refs _ _ _ _ _ HW1) as Hr1.
  eapply wp_seq; [apply write_some_spec; [done|]; eapply usable_part; [exact Hu1|lia..]| |].
  2: { intros f w2 [HW2 (e & -> & _)]. split; [|by eexists]. eapply wrote_trans; [exact HW1|]. eapply wrote_widen; [exact HW2|lia..]. }
  intros [] w2 (HW2 & Hr & Hs2). pose proof (f_wf _ _ _ (wt_frame _ _ _ _ _ HW2)) as Hw2.
  pose proof (usable_wrote _ _ _ _ _ _ _ _ Hu1 HW2) as Hu2. pose proof (wt_refs _ _ _ _ _ HW2) as Hr2.
  assert (wrote l 0 slot w w2) as HW02 by (eapply wrote_trans; [exact HW1|]; eapply wrote_widen; [exact HW2|lia..]).
  assert (forall p, 0 <= p < slot -> 0 <= p < size_at w1 l) as Hsz1 by (intros; eapply usable_range; [exact Hu1|lia|lia]).
  assert (forall p, 0 <= p < slot -> 0 <= p < size_at w2 l) as Hsz2 by (intros; eapply usable_range; [exact Hu2|lia|lia]).
  eapply (wp_seq _ _ (fun r w3 => wrote l (off + zlen b) (slot - (off + zlen b)) w2 w3 /\ match r with
    | Ok _ => shows (byte w3 l) (off + zlen b) (zeros (slot - (off + zlen b))) | Err f => failure f end)).
  { destruct (Z.ltb_spec (off + zlen b) slot).
    - eapply twp_mono; [apply zero_leg_spec; [done|]; eapply usable_part; [exact Hu2|lia..]|].
      intros [[]|f] w3 [HW Hx]; (split; [done|]); [apply Hx|exact Hx].
    - apply twp_ret. split; [by apply wrote_refl|]. replace (slot - (off + zlen b)) with 0 by lia. intros p. rewrite zlen_zeros by lia. lia. }
  2: { intros f w3 [HW3 Hf]. split; [|done]. eapply wrote_trans; [exact HW02|]. eapply wrote_widen; [exact HW3|lia..]. }
  intros [] w3 [HW3 Hz3]. pose proof (wt_refs _ _ _ _ _ HW3) as Hr3.
  assert (wrote l 0 slot w w3) as HW03 by (eapply wrote_trans; [exact HW02|]; eapply wrote_widen; [exact HW3|lia..]).
  eapply twp_mono; [apply confirm_spec; [apply (f_wf _ _ _ (wt_frame _ _ _ _ _ HW3))|lia]|].
  intros r w4 [-> HF]. split; [eapply wrote_trans; [exact HW03|apply wrote_quiet; [done|lia]]|split; [lia|]].
  intros p Hp. rewrite (frame_bytes _ _ _ _ HF); [|lia|rewrite (f_size _ _ _ (wt_frame _ _ _ _ _ HW3)); auto].
  rewrite at_overlay by (rewrite ?zlen_zeros; lia). rewrite chunk_zeros.
  destruct (Z.leb_spec off p); cbn [andb]; [destruct (Z.ltb_spec p (off + zlen b))|].
  - rewrite (wt_bytes _ _ _ _ _ HW3) by (auto || lia). symmetry. apply Hs2. lia.
  - specialize (Hz3 p). rewrite chunk_zeros, zlen_zeros in Hz3 by lia. symmetry. apply Hz3. lia.
  - rewrite (wt_bytes _ _ _ _ _ HW3), (wt_bytes _ _ _ _ _ HW2) by (auto || lia).
    destruct Hz1 as [_ Hz1]; [lia|]. specialize (Hz1 p). rewrite chunk_zeros, zlen_zeros in Hz1 by lia. symmetry. apply Hz1. lia.
Qed.
End inv.
