(* ===== verification/ThinAlloc.v ===== *)
(** Allocation of a volume's slots, writes to several legs at once, and reads from the
    first leg that answers: what each does to the slabs and what its result says. *)

From Stdlib Require Import String.
From stdpp Require Import strings.
From S2P Require Import Prelude SlabFormat GemData ExtMap Gem Redundancy SlotStore Registry Thin ThinInv.
#[local] Open Scope Z_scope.

Section alloc.
Context {S : Type} `{SlotStoreLaws S}.

(** ** Handles and reservations *)

Lemma update_frame v f (w : world S) : wf_slabs w -> (forall h, softer h (f h)) -> wp (update v f) (fun r w' => r = Ok () /\ frame nothing w w') w.
Proof.
  intros Hw Hf. split; [done|]. constructor; try done. intros u. cbn. destruct (decide (u = v)) as [->|].
  - rewrite lookup_alter_eq. destruct (vols w !! v); cbn; constructor; [apply Hf].
  - rewrite lookup_alter_ne by done. destruct (vols w !! u); by constructor.
Qed.
Lemma mark_failed_spec v id e (w : world S) : wf_slabs w ->
  wp (mark_failed v id e) (fun r w' => r = Ok () /\ frame nothing w w'
    /\ forall h, vols w !! v = Some h -> distrusts (policy h) e = true -> exists h', vols w' !! v = Some h' /\ id ∈ failed h') w.
Proof.
  intros Hw. split; [done|]. split.
  - apply update_frame; [done|]. intros h. destruct (distrusts (policy h) e); [|done]. constructor; try done. cbn. set_solver.
  - intros h Hh Hd. cbn. rewrite lookup_alter_eq, Hh. cbn. rewrite Hd. eexists. split; [done|]. cbn. set_solver.
Qed.
Lemma registry_frame (f : SlabRegistry S -> SlabRegistry S) (w : world S) : wf_slabs w ->
  (forall r, slabs (f r) = slabs r /\ (tier_index (f r), domains (f r), quarantined (f r)) = (tier_index r, domains r, quarantined r)) ->
  frame nothing w (set_registry (f (registry w)) w).
Proof.
  intros Hw Hf. destruct (Hf (registry w)) as [Hs Ht]. constructor; cbn; try done.
  - by injection Ht as -> -> ->.
  - intros id s. unfold set_registry. cbn. rewrite Hs. apply Hw.
  - intros id. by rewrite Hs.
  - intros l. unfold size_at. cbn. by rewrite Hs.
  - intros l _. unfold refs. cbn. by rewrite Hs.
  - intros l p _ _ _. unfold byte. cbn. by rewrite Hs.
Qed.
Lemma commit_leg_spec l (w : world S) : wf_slabs w -> wp (commit_leg l) (fun r w' => r = Ok () /\ frame nothing w w') w.
Proof. intros Hw. split; [done|]. by apply (registry_frame (commit l)). Qed.

(** ** Many steps of one kind *)

Lemma frame_cons l ls (w w1 w2 : world S) : frame (just l) w w1 -> frame (among ls) w1 w2 -> frame (among (l :: ls)) w w2.
Proof. intros HF HF2. apply (frame_step _ _ _ _ _ _ HF HF2); unfold just, among; set_solver. Qed.

Lemma for_each_frame {A} (f : A -> M S ()) (X : Leg -> Prop) (P : A -> world S -> Prop) l : forall w, wf_slabs w ->
  (forall x w, wf_slabs w -> P x w -> wp (f x) (fun r w' => r = Ok () /\ frame X w w') w) ->
  (forall x w w', P x w -> frame X w w' -> P x w') -> (forall x, x ∈ l -> P x w) ->
  wp (for_each f l) (fun r w' => r = Ok () /\ frame X w w') w.
Proof.
  induction l as [|x l IH]; intros w Hw Hf Hs Hl; [split; [done|by apply frame_refl]|].
  cbn [for_each]. eapply wp_seq; [apply Hf; [done|apply Hl; by left]| |by intros f' w' [? _]].
  intros [] w1 [_ HF]. eapply twp_mono; [apply IH; try done; [apply (f_wf _ _ _ HF)|]|].
  - intros y Hy. eapply Hs; [|exact HF]. apply Hl. by right.
  - intros r w2 [-> HF2]. split; [done|]. by eapply frame_trans.
Qed.
Lemma commit_legs_spec ls (w : world S) : wf_slabs w -> wp (commit_legs ls) (fun r w' => r = Ok () /\ frame nothing w w') w.
Proof. intros Hw. by apply (for_each_frame _ _ (fun _ _ => True)); [|intros; by apply commit_leg_spec|..]. Qed.
Lemma mark_all_frame v les (w : world S) : wf_slabs w -> wp (mark_all v les) (fun r w' => r = Ok () /\ frame nothing w w') w.
Proof.
  intros Hw. apply (for_each_frame _ _ (fun _ _ => True)); [done| |done|done].
  intros x w1 Hw1 _. eapply twp_mono; [by apply mark_failed_spec|]. by intros r w2 (-> & HF & _).
Qed.
(** Every leg of an error that counts against storage is distrusted. *)
Lemma mark_all_spec v les : forall (w : world S) h, wf_slabs w -> vols w !! v = Some h ->
  wp (mark_all v les) (fun r w' => r = Ok () /\ frame nothing w w' /\ exists h', vols w' !! v = Some h' /\ softer h h'
    /\ forall l e, (l, e) ∈ les -> distrusts (policy h) e = true -> lg_slab l ∈ failed h') w.
Proof.
  induction les as [|[l0 e0] les IH]; intros w h Hw Hh.
  { split; [done|]. split; [by apply frame_refl|]. exists h. split_and!; try done. by intros l e ?%elem_of_nil. }
  unfold mark_all. cbn [for_each fst snd]. eapply wp_seq; [by apply mark_failed_spec| |by intros ? ? [? _]].
  intros [] w1 (_ & HF & Hm). pose proof (f_vols _ _ _ HF v) as Hv. rewrite Hh in Hv. inversion Hv as [? h1 Hso E1 E2|]; subst.
  eapply twp_mono; [apply (IH w1 h1); [apply (f_wf _ _ _ HF)|done]|].
  intros r w2 (-> & HF2 & h2 & Hh2 & Hso2 & Hall). split; [done|]. split; [by eapply frame_trans|].
  exists h2. split_and!; [done|by etransitivity|]. intros l e [[= -> ->]|Hin]%elem_of_cons Hd.
  - destruct (Hm h Hh Hd) as (h1' & Hh1' & Hin). rewrite <- E2 in Hh1'. injection Hh1' as <-. apply (so_failed _ _ Hso2). done.
  - apply (Hall l e Hin). by rewrite (so_policy _ _ Hso).
Qed.

(** ** Giving slots back *)

Lemma freed_frame l s (w : world S) : wf_slabs w -> slabs (registry w) !! lg_slab l = Some s -> 0 < refs w l ->
  frame (just l) w (put_slab (lg_slab l) (snd (ss_free (lg_slot l) s)) w).
Proof.
  intros Hw Hs Hr. rewrite (refs_of _ _ _ Hs) in Hr. destruct (ss_free_law (lg_slot l) s (Hw _ _ Hs) Hr) as [[K1 K2 K3] Ho].
  apply (frame_put _ _ _ s); try done.
  - intros i Hx. apply Ho. intros ->. apply Hx, leg_eta.
  - intros i p Hx Hi Hp. apply K3; try done. rewrite Ho; [done|]. intros ->. apply Hx, leg_eta.
Qed.
Lemma free_leg_spec l (w : world S) : wf_slabs w -> (attached w l -> 0 < refs w l) ->
  wp (free_leg l) (fun r w' => r = Ok () /\ frame (just l) w w') w.
Proof.
  intros Hw Hr. unfold free_leg. apply twp_bind, wp_if_slab.
  - intros _. eapply twp_mono; [by apply commit_leg_spec|]. intros r w' [-> HF]. split; [done|]. by apply frame_any.
  - intros s Hs. pose proof (freed_frame l s w Hw Hs (Hr ltac:(by exists s))) as HF.
    eapply twp_mono; [apply commit_leg_spec, (f_wf _ _ _ HF)|]. intros r w' [-> HF2]. split; [done|].
    eapply frame_trans; [exact HF|by apply frame_any].
Qed.
Lemma slots_given_back ls : forall (w : world S), wf_slabs w -> NoDup ls -> (forall l, l ∈ ls -> attached w l -> 0 < refs w l) ->
  wp (give_back ls) (fun r w' => r = Ok () /\ frame (among ls) w w') w.
Proof.
  induction ls as [|l ls IH]; intros w Hw Hnd Hr; [split; [done|by apply frame_refl]|]. apply NoDup_cons in Hnd as [Hn Hnd].
  unfold give_back. cbn [for_each]. eapply wp_seq; [apply free_leg_spec; [done|apply Hr; by left]| |by intros ? ? [? _]].
  intros [] w1 [_ HF]. eapply twp_mono; [apply IH; [apply (f_wf _ _ _ HF)|done|]|].
  - intros k Hk. unfold attached. rewrite (f_slabs _ _ _ HF), (f_refs _ _ _ HF) by (intros ->; done). apply Hr. by right.
  - intros r w2 [-> HF2]. split; [done|]. apply (frame_step _ _ _ _ _ _ HF HF2); unfold just, among; set_solver.
Qed.

(** ** One slot *)

(** What an allocation gives: a slot nobody held, on a slab that [ok] says of. *)
Definition got (ok : Leg -> Prop) (w : world S) (r : result fault Leg) (w' : world S) : Prop :=
  match r with
  | Ok l => frame (just l) w w' /\ refs w l = 0 /\ refs w' l = 1 /\ ok l
  | Err _ => frame nothing w w'
  end.
Lemma got_after ok ok' w w1 r w' : frame nothing w w1 -> got ok w1 r w' -> (forall l, ok l -> ok' l) -> got ok' w r w'.
Proof.
  intros HF HG Hok. destruct r as [l|f]; [|by eapply frame_trans]. destruct HG as (HG & Hr0 & Hr1 & Ho).
  rewrite (frame_refs _ _ _ HF) in Hr0. split_and!; auto. eapply frame_trans; [by apply frame_any|done].
Qed.

Lemma allocate_on_spec v x g id (w : world S) : wf_slabs w -> wp (allocate_on v x g id) (got (fun l => lg_slab l = id) w) w.
Proof.
  intros Hw. unfold allocate_on. apply twp_bind, wp_with_slab; [intros _; by apply frame_refl|].
  intros s Hs. destruct (ss_alloc_law v x g s (Hw _ _ Hs)) as [[K1 K2 K3] Ha]. destruct (fst (ss_alloc v x g s)) as [i|e]; cycle 1.
  { apply (frame_put _ _ _ s); try done. intros i p _ Hi Hp. apply K3; try done. by rewrite Ha. }
  destruct Ha as (Ha0 & Ha1 & Ho). set (l := mkLeg id i).
  assert (frame (just l) w (put_slab id (snd (ss_alloc v x g s)) w)) as HF.
  { apply (frame_put _ _ _ s); try done.
    - intros j Hx. apply Ho. intros ->. by apply Hx.
    - intros j p Hx Hi Hp. apply K3; try done. rewrite Ho; [done|]. intros ->. by apply Hx. }
  assert (refs (put_slab id (snd (ss_alloc v x g s)) w) l = 1) as Hr1 by (by rewrite (refs_of _ l _ (slab_put w _ _))).
  apply twp_bind. pose proof (registry_frame (reserve l) _ (f_wf _ _ _ HF) ltac:(done)) as HR. split; [|split; [|split; [|done]]].
  - eapply frame_trans; [exact HF|by apply frame_any].
  - by rewrite (refs_of w l s Hs).
  - exact Hr1.
Qed.

(** Where an extent of a volume may go. *)
Record chosen (h : Volume) (apart : list FailureDomain) (rung : string) (w : world S) (l : Leg) : Prop := {
  ch_size : size_at w l = vslot h;
  ch_trusted : lg_slab l ∉ failed h;
  ch_staying : lg_slab l ∉ quarantined (registry w);
  ch_apart : pinned (placement h) = None -> collides (registry w) (lg_slab l) apart rung = false }.
Lemma collides_static (r r' : SlabRegistry S) id taken rung : domains r' = domains r -> collides r' id taken rung = collides r id taken rung.
Proof. intros E. unfold collides, domain_of. by rewrite E. Qed.
Lemma chosen_frame h a rg X w w' l : frame X w w' -> chosen h a rg w' l -> chosen h a rg w l.
Proof.
  intros HF [C1 C2 C3 C4]. pose proof (f_static _ _ _ HF) as Hst. injection Hst as _ Hd Hq _.
  constructor; [by rewrite <- (f_size _ _ _ HF)|done|by rewrite <- Hq|]. intros Hp. by rewrite <- (collides_static _ _ _ _ _ Hd), C4.
Qed.
Lemma takes_size w l role size : 0 < size -> takes (registry w) (lg_slab l) role size = true ->
  size_at w l = size /\ lg_slab l ∉ quarantined (registry w).
Proof.
  intros Hz. unfold takes, size_ok. intros [[Ha _]%andb_true_iff Hs]%andb_true_iff.
  apply bool_decide_eq_true in Ha as [n Ha]. destruct (allocatable_attached _ _ _ Ha) as [[s Es] Hq].
  apply orb_true_iff in Hs as [Hs|Hs]; [lia|]. rewrite Es in Hs. rewrite (size_of _ _ _ Es). split; [lia|].
  by apply bool_decide_eq_false in Hq.
Qed.

(** ** The choice of a slab *)

Lemma try_candidates_spec v x g cands (ok : Leg -> Prop) : forall ns (w : world S), wf_slabs w ->
  (forall id n l, (id, n) ∈ cands -> lg_slab l = id -> ok l) -> wp (try_candidates v x g cands ns) (got ok w) w.
Proof.
  induction cands as [|[id n] cands IH]; intros ns w Hw Hok; [by apply frame_refl|]. cbn [try_candidates].
  assert (forall id n l, (id, n) ∈ cands -> lg_slab l = id -> ok l) as Hok' by (intros ???; intros; eapply Hok; [by right|done]).
  apply twp_bind. change (wp (gets ?f) ?Q w) with (Q (Ok (f w)) w). cbn beta iota.
  destruct (slabs (registry w) !! id); [|by apply IH].
  eapply wp_try; [by apply allocate_on_spec|..].
  - intros l w1 (HF & Hr0 & Hr1 & Hl). split_and!; try done. by eapply Hok; [left|].
  - intros e w1 HF. eapply twp_mono; [apply IH; [apply (f_wf _ _ _ HF)|done]|]. intros r w2 HG. by eapply got_after.
  - done.
Qed.

Lemma most_free_first_in l c : c ∈ most_free_first l <-> c ∈ l.
Proof.
  assert (forall d l, c ∈ insert_by_free d l <-> c = d \/ c ∈ l) as Hi.
  { intros d l'. induction l' as [|e l' IH]; cbn; [set_solver|]. destruct (snd e <=? snd d); set_solver. }
  unfold most_free_first. induction l as [|d l IH]; cbn; [done|]. rewrite Hi, IH. set_solver.
Qed.

Definition got_opt (ok : Leg -> Prop) (w : world S) (r : result fault (option Leg * option DriveError)) (w' : world S) : Prop :=
  match r with
  | Ok (Some l, _) => got ok w (Ok l) w'
  | _ => frame nothing w w'
  end.
Lemma got_opt_after ok ok' w w1 r w' : frame nothing w w1 -> got_opt ok w1 r w' -> (forall l, ok l -> ok' l) -> got_opt ok' w r w'.
Proof.
  intros HF HG Hok. destruct r as [[[l|] ns]|f]; [by eapply got_after|by eapply frame_trans|by eapply frame_trans].
Qed.

Lemma tier_loop_spec v h fd apart rung x g tier : 0 < vslot h -> forall fuel tried ns (w : world S), wf_slabs w ->
  wp (tier_loop fuel v h fd apart rung x g tier tried ns) (got_opt (chosen h apart rung w) w) w.
Proof.
  intros Hz. induction fuel as [|fuel IH]; intros tried ns w Hw; [by apply frame_refl|]. cbn [tier_loop].
  apply twp_bind. change (wp (gets id) ?Q w) with (Q (Ok w) w). cbn beta iota.
  destruct (best_slab_for_tier_apart_from_except _ _ _ _ _ _ _) as [id|] eqn:Eb; [|by apply frame_refl].
  destruct (best_slab_spec _ _ _ _ _ _ _ _ Eb) as (Hat & Ht & _ & Hc & _).
  destruct (is_failed h id || _ || _) eqn:Ef; [by apply IH|]. apply orb_false_iff in Ef as [[Hf _]%orb_false_iff _].
  destruct (slabs (registry w) !! id); [|by apply IH].
  eapply wp_try; [by apply allocate_on_spec|..].
  - intros l w1 (HF & Hr0 & Hr1 & Hl). split_and!; try done. subst id. destruct (takes_size w l _ _ Hz Ht) as [Hs Hq].
    constructor; try done. by apply bool_decide_eq_false in Hf.
  - intros e w1 HF. eapply twp_mono; [apply IH, (f_wf _ _ _ HF)|]. intros r w2 HG.
    eapply got_opt_after; [done..|]. intros l. by apply (chosen_frame _ _ _ _ _ _ _ HF).
  - done.
Qed.

(** ** The search of a tier ends *)

Lemma allocate_on_tiers v x g id (w : world S) : tier_index (registry (snd (attempt (allocate_on v x g id) w))) = tier_index (registry w).
Proof.
  unfold attempt, allocate_on, bind, with_slab. destruct (slabs (registry w) !! id) as [s|]; [|done].
  by destruct (ss_alloc v x g s) as [[i|e] s'].
Qed.
(** A slab of the tier is not tried twice, so more turns than [tier_fuel] find no more. *)
Definition untried (tried : list SlabId) (w : world S) (tier : StorageTier) : list SlabId :=
  filter (fun id => id ∉ tried) (default [] (tier_index (registry w) !! tier)).
Lemma untried_less tried id (w : world S) tier ids : tier_index (registry w) !! tier = Some ids -> id ∈ ids -> id ∉ tried ->
  (length (untried (tried ++ [id]) w tier) < length (untried tried w tier))%nat.
Proof.
  intros Ei Hin Hn. unfold untried. rewrite Ei. change (default [] (Some ids)) with ids. clear Ei.
  assert (forall l, (length (filter (fun i => i ∉ tried ++ [id]) l) <= length (filter (fun i => i ∉ tried) l))%nat) as Hle.
  { intros l. induction l as [|a l IH]; [done|]. rewrite !filter_cons. repeat case_decide; cbn; try lia. set_solver. }
  induction ids as [|a l IH]; [by apply elem_of_nil in Hin|]. rewrite !filter_cons. apply elem_of_cons in Hin as [<-|Hin].
  - rewrite decide_False by set_solver. rewrite decide_True by done. cbn. specialize (Hle l). lia.
  - specialize (IH Hin). repeat case_decide; cbn; try lia. set_solver.
Qed.
Lemma tier_fuel_enough v h fd apart rung x g tier : forall n fuel tried ns (w : world S), (length (untried tried w tier) < n)%nat -> (n <= fuel)%nat ->
  tier_loop fuel v h fd apart rung x g tier tried ns w = tier_loop n v h fd apart rung x g tier tried ns w.
Proof.
  induction n as [|n IH]; intros fuel tried ns w Hn Hf; [lia|]. destruct fuel as [|fuel]; [lia|]. cbn [tier_loop].
  unfold bind at 1 3, gets. change (Datatypes.id w) with w. destruct (best_slab_for_tier_apart_from_except _ _ _ _ _ _ _) as [id|] eqn:Eb; [|done].
  destruct (best_slab_spec _ _ _ _ _ _ _ _ Eb) as (_ & _ & He & _ & ids & Ei & Hin).
  pose proof (untried_less _ _ w tier ids Ei Hin He) as Hl.
  assert (forall ns, tier_loop fuel v h fd apart rung x g tier (tried ++ [id]) ns w = tier_loop n v h fd apart rung x g tier (tried ++ [id]) ns w)
    as Hagain by (intros; apply IH; lia).
  destruct (_ || _ || _); [apply Hagain|]. destruct (slabs (registry w) !! id); [|apply Hagain]. unfold bind.
  pose proof (allocate_on_tiers v x g id w) as Ht. destruct (attempt _ w) as [[[l|e]|f] w1]; [done| |done].
  apply IH; [|lia]. unfold untried in *. cbn in Ht. rewrite Ht. lia.
Qed.
Lemma tier_loop_is_whole v h fd apart rung x g tier fuel ns (w : world S) : (tier_fuel (registry w) tier <= fuel)%nat ->
  tier_loop fuel v h fd apart rung x g tier [] ns w = tier_loop (tier_fuel (registry w) tier) v h fd apart rung x g tier [] ns w.
Proof.
  intros Hf. apply tier_fuel_enough; [|done]. unfold untried, tier_fuel.
  pose proof (length_filter (fun id => id ∉ @nil SlabId) (default [] (tier_index (registry w) !! tier))). lia.
Qed.

Lemma tiers_loop_spec v h fd apart rung x g tiers : 0 < vslot h -> forall ns (w : world S), wf_slabs w ->
  wp (tiers_loop v h fd apart rung x g tiers ns) (got (chosen h apart rung w) w) w.
Proof.
  intros Hz. induction tiers as [|t ts IH]; intros ns w Hw; [by apply frame_refl|]. cbn [tiers_loop].
  apply twp_bind. change (wp (gets registry) ?Q w) with (Q (Ok (registry w)) w). cbn beta iota.
  eapply wp_seq; [by apply tier_loop_spec|..].
  - intros [[l|] ns'] w1; [done|]. intros HF. eapply twp_mono; [apply IH, (f_wf _ _ _ HF)|]. intros r w2 HG.
    eapply got_after; [done..|]. intros l. by apply (chosen_frame _ _ _ _ _ _ _ HF).
  - done.
Qed.

(** The slab a volume is pinned to has slots of its size. *)
Definition pin_ok (w : world S) (h : Volume) : Prop :=
  forall pin s, pinned (placement h) = Some pin -> slabs (registry w) !! pin = Some s -> ss_slot_size s = vslot h.

Lemma allocate_apart_spec v x apart rung g h (w : world S) : wf_slabs w -> vols w !! v = Some h -> 0 < vslot h -> pin_ok w h ->
  wp (allocate_apart v x apart rung g) (got (chosen h apart rung w) w) w.
Proof.
  intros Hw Hh Hz Hp. unfold allocate_apart. apply twp_bind. unfold wp at 1, handle. rewrite Hh. cbn [fst snd].
  apply twp_bind. change (wp (gets id) ?Q w) with (Q (Ok w) w). cbn beta iota.
  destruct (pinned (placement h)) as [pin|] eqn:Ep.
  - destruct (is_failed h pin) eqn:Ef; [by apply frame_refl|]. destruct (allocatable_pinned _ _) as [n|] eqn:Ea; [|by apply frame_refl].
    eapply twp_mono; [by apply allocate_on_spec|]. intros [l|f] w1 HG; [|done]. destruct HG as (HF & Hr0 & Hr1 & <-).
    unfold allocatable_pinned in Ea. destruct (is_quarantined _ _) eqn:Eq; [done|]. destruct (slabs (registry w) !! lg_slab l) as [s|] eqn:Es; [|done].
    split_and!; try done. constructor; [by rewrite (size_of _ _ _ Es), (Hp _ _ Ep Es)| | |congruence].
    + by apply bool_decide_eq_false in Ef.
    + by apply bool_decide_eq_false in Eq.
  - destruct (t ← targets w !! v; _) as [[to_ except]|] eqn:Et; [|by apply tiers_loop_spec].
    apply try_candidates_spec; [done|]. intros id n l Hin <-. unfold target_candidates in Hin.
    apply most_free_first_in, list_elem_of_omap in Hin as (id' & _ & Hc). destruct (_ || _) eqn:Eg; [done|].
    apply orb_false_iff in Eg as [[[[_ Ht]%orb_false_iff Hf]%orb_false_iff _]%orb_false_iff Hc'].
    destruct (slabs (registry w) !! id'); [|done]. cbn in Hc. injection Hc as -> _. apply negb_false_iff in Ht.
    destruct (takes_size w l _ _ Hz Ht). constructor; try done. by apply bool_decide_eq_false in Hf.
Qed.

Lemma affine_slot_spec v x g h (w : world S) : wf_slabs w -> vols w !! v = Some h -> 0 < vslot h ->
  wp (affine_slot v x g) (fun r w' => match r with Ok (Some l) => got (chosen h [] DEFAULT_RUNG w) w (Ok l) w' | _ => frame nothing w w' end) w.
Proof.
  intros Hw Hh Hz. unfold affine_slot. apply twp_bind. unfold wp at 1, handle. rewrite Hh. cbn [fst snd].
  apply twp_bind. change (wp (gets id) ?Q w) with (Q (Ok w) w). cbn beta iota.
  destruct (affinity h) as [a|]; [|by apply frame_refl]. destruct (affine h && _ && _ && _) eqn:E; [|by apply frame_refl].
  apply andb_true_iff in E as [[[Haf _]%andb_true_iff Hf]%andb_true_iff Ht]. apply negb_true_iff, bool_decide_eq_false in Hf.
  eapply wp_try; [by apply allocate_on_spec| |by intros e w1 HF|done].
  intros l w1 (HF & Hr0 & Hr1 & <-). split_and!; try done. destruct (takes_size w l _ _ Hz Ht). by constructor.
Qed.

Lemma allocate_slot_spec v x g h (w : world S) : wf_slabs w -> vols w !! v = Some h -> 0 < vslot h -> pin_ok w h ->
  wp (allocate_slot v x g) (got (chosen h [] DEFAULT_RUNG w) w) w.
Proof.
  intros Hw Hh Hz Hp. unfold allocate_slot. eapply wp_seq; [by eapply affine_slot_spec| |done].
  intros [l|] w1; [done|]. intros HF. pose proof (f_vols _ _ _ HF v) as Hv. rewrite Hh in Hv. inversion Hv as [? h1 Hso E1 E2|]; subst.
  assert (pin_ok w1 h1) as Hp1.
  { intros pin s. rewrite (so_placement _ _ Hso), (so_slot _ _ Hso). intros E Es.
    pose proof (proj1 (f_slabs _ _ _ HF pin) ltac:(by exists s)) as [s0 Es0]. rewrite <- (Hp _ _ E Es0).
    pose proof (f_size _ _ _ HF (mkLeg pin 0)) as Hsz. by rewrite (size_of _ (mkLeg pin 0) _ Es), (size_of _ (mkLeg pin 0) _ Es0) in Hsz. }
  eapply wp_seq; [apply allocate_apart_spec; [apply (f_wf _ _ _ HF)|by symmetry|by rewrite (so_slot _ _ Hso)|done]| |by intros f w2 HF2; eapply frame_trans].
  intros l w2 (HF2 & Hr0 & Hr1 & Hc). apply twp_bind. eapply twp_mono; [apply update_frame; [apply (f_wf _ _ _ HF2)|]|].
  { intros h'. destruct (affine h'); [|done]. by constructor. }
  intros r w3 [-> HF3]. split_and!.
  - eapply frame_trans; [by apply frame_any|]. eapply frame_trans; [exact HF2|by apply frame_any].
  - by rewrite <- (frame_refs _ _ _ HF).
  - by rewrite (frame_refs _ _ _ HF3).
  - destruct Hc as [C1 C2 C3 C4]. rewrite (so_slot _ _ Hso) in C1. rewrite (so_placement _ _ Hso) in C4.
    apply (chosen_frame _ _ _ _ _ w1 _ HF). constructor; try done. intros Hin. apply C2. by apply (so_failed _ _ Hso).
Qed.

(** ** Legs on distinct domains *)

(** The slots nobody held. *)
Definition spare (w : world S) (l : Leg) : Prop := refs w l = 0.

(** Each leg apart from those before it. *)
Definition apart_legs (r : SlabRegistry S) (rung : string) (ls : list Leg) : Prop :=
  forall i l, ls !! i = Some l -> collides r (lg_slab l) (map (fun k => domain_of r (lg_slab k)) (take i ls)) rung = false.
Record placed (h : Volume) (rung : string) (ls : list Leg) (w w' : world S) : Prop := {
  pl_frame : frame (among ls) w w';
  pl_nodup : NoDup ls;
  pl_was l : l ∈ ls -> refs w l = 0;
  pl_now l : l ∈ ls -> refs w' l = 1;
  pl_size l : l ∈ ls -> size_at w l = vslot h;
  pl_trusted l : l ∈ ls -> lg_slab l ∉ failed h;
  pl_staying l : l ∈ ls -> lg_slab l ∉ quarantined (registry w);
  pl_apart : pinned (placement h) = None -> apart_legs (registry w) rung ls }.

Lemma placed_spare h rung ls w w' : placed h rung ls w w' -> frame (spare w) w w'.
Proof. intros HP. apply (frame_mono (among ls)); [apply HP|]. intros l Hl. by apply (pl_was _ _ _ _ _ HP). Qed.
Lemma pin_ok_frame X w w' h h' : frame X w w' -> softer h h' -> pin_ok w h -> pin_ok w' h'.
Proof.
  intros HF Hso Hp pin s. rewrite (so_placement _ _ Hso), (so_slot _ _ Hso). intros E Es.
  pose proof (proj1 (f_slabs _ _ _ HF pin) ltac:(by exists s)) as [s0 Es0]. rewrite <- (Hp _ _ E Es0).
  pose proof (f_size _ _ _ HF (mkLeg pin 0)) as Hsz. by rewrite (size_of _ (mkLeg pin 0) _ Es), (size_of _ (mkLeg pin 0) _ Es0) in Hsz.
Qed.
Lemma handle_frame X w w' v h : frame X w w' -> vols w !! v = Some h -> exists h', vols w' !! v = Some h' /\ softer h h'.
Proof. intros HF Hh. pose proof (f_vols _ _ _ HF v) as Hv. rewrite Hh in Hv. inversion Hv as [? h1 Hso E1 E2|]; subst. by exists h1. Qed.
Lemma domain_frame X w w' id : frame X w w' -> domain_of (registry w') id = domain_of (registry w) id.
Proof. intros HF. pose proof (f_static _ _ _ HF) as Hst. injection Hst as _ Hd _ _. unfold domain_of. by rewrite Hd. Qed.

Lemma placed_more h h1 rung ls l w w1 w2 : placed h rung ls w w1 -> softer h h1 ->
  got (chosen h1 (map (fun k => domain_of (registry w) (lg_slab k)) ls) rung w1) w1 (Ok l) w2 -> placed h rung (ls ++ [l]) w w2.
Proof.
  intros HP Hso (HF & Hr0 & Hr1 & [C1 C2 C3 C4]). pose proof (pl_frame _ _ _ _ _ HP) as HF0.
  assert (l ∉ ls) as Hn by (intros Hin; rewrite (pl_now _ _ _ _ _ HP l Hin) in Hr0; lia).
  pose proof (f_static _ _ _ HF0) as Hst. injection Hst as _ Hd Hq _.
  assert (refs w l = 0) as Hw0 by (rewrite <- Hr0; symmetry; by apply (f_refs _ _ _ HF0)).
  assert (forall k, k ∈ ls ++ [l] -> k ∈ ls \/ k = l) as Hin by (intros k; rewrite elem_of_app, list_elem_of_singleton; done).
  constructor.
  - apply (frame_step _ _ _ _ _ _ HF0 HF); unfold among, just; set_solver.
  - apply NoDup_app. split_and!; [apply HP|set_solver|apply NoDup_singleton].
  - intros k [Hk| ->]%Hin; [by apply (pl_was _ _ _ _ _ HP)|done].
  - intros k [Hk| ->]%Hin; [|done]. rewrite (f_refs _ _ _ HF); [by apply (pl_now _ _ _ _ _ HP)|]. intros ->. done.
  - intros k [Hk| ->]%Hin; [by apply (pl_size _ _ _ _ _ HP)|]. by rewrite <- (f_size _ _ _ HF0), C1, (so_slot _ _ Hso).
  - intros k [Hk| ->]%Hin; [by apply (pl_trusted _ _ _ _ _ HP)|]. intros Hk. by apply C2, (so_failed _ _ Hso).
  - intros k [Hk| ->]%Hin; [by apply (pl_staying _ _ _ _ _ HP)|by rewrite <- Hq].
  - intros Hp i k [[Hi Hk]|[-> <-]]%lookup_snoc_Some.
    + rewrite take_app_le by lia. by apply (pl_apart _ _ _ _ _ HP).
    + rewrite take_app_le, take_ge by lia. rewrite <- (collides_static _ _ _ _ _ Hd). apply C4. by rewrite (so_placement _ _ Hso).
Qed.

Lemma allocate_more_spec n v x rung g h : 0 < vslot h -> forall ls (w w1 : world S),
  wf_slabs w -> vols w !! v = Some h -> pin_ok w h -> placed h rung ls w w1 ->
  wp (allocate_more n v x rung g (map (fun k => domain_of (registry w) (lg_slab k)) ls) ls)
    (fun r w' => match r with
      | Ok ls' => placed h rung ls' w w' /\ length ls' = (length ls + n)%nat
      | Err _ => frame (spare w) w w'
      end) w1.
Proof.
  intros Hz. induction n as [|n IH]; intros ls w w1 Hw Hh Hp HP; [apply twp_ret; split; [done|lia]|]. cbn [allocate_more].
  pose proof (pl_frame _ _ _ _ _ HP) as HF. pose proof (f_wf _ _ _ HF) as Hw1.
  destruct (handle_frame _ _ _ _ _ HF Hh) as (h1 & Hh1 & Hso).
  eapply wp_try; [apply (allocate_apart_spec v x _ rung g h1); [done|done|by rewrite (so_slot _ _ Hso)|by eapply pin_ok_frame]|..].
  - intros l w2 HG. apply twp_bind. change (wp (gets registry) ?Q w2) with (Q (Ok (registry w2)) w2). cbn beta iota.
    pose proof (placed_more _ _ _ _ _ _ _ _ HP Hso HG) as HP2.
    replace (map _ ls ++ [_]) with (map (fun k => domain_of (registry w) (lg_slab k)) (ls ++ [l])).
    + eapply twp_mono; [by apply IH|]. intros [ls'|f] w3; [|done]. intros [HP3 Hl]. split; [done|]. rewrite Hl, length_app. cbn. lia.
    + rewrite map_app. cbn. by rewrite (domain_frame _ _ _ _ (pl_frame _ _ _ _ _ HP2)).
  - intros e w2 HF2. apply twp_bind. eapply twp_mono; [apply slots_given_back; [apply (f_wf _ _ _ HF2)|apply HP|]|].
    + intros l Hl _. rewrite (frame_refs _ _ _ HF2), (pl_now _ _ _ _ _ HP l Hl). lia.
    + intros r w3 [-> HF3]. apply (frame_mono (among ls)); [|intros l Hl; by apply (pl_was _ _ _ _ _ HP)].
      eapply frame_trans; [exact HF|]. eapply frame_trans; [by apply frame_any|done].
  - intros f w2 HF2. eapply frame_trans; [by eapply placed_spare|by apply frame_any].
Qed.

Lemma allocate_legs_spec v x p g h (w : world S) : wf_slabs w -> vols w !! v = Some h -> 0 < vslot h -> pin_ok w h ->
  wp (allocate_legs v x p g) (fun r w' => match r with
    | Ok ls => placed h (spread p) ls w w' /\ length ls = Z.to_nat (copies (scheme p))
    | Err _ => frame (spare w) w w'
    end) w.
Proof.
  intros Hw Hh Hz Hp. unfold allocate_legs. eapply twp_mono; [apply (allocate_more_spec _ v x _ g h Hz [] w w Hw Hh Hp)|done].
  constructor; try (by intros ? ?%elem_of_nil); [by apply frame_refl|constructor|by intros _ i l].
Qed.

(** ** Several legs at once *)

(** What [join_all] leaves of writes of [c] to a range of each leg. *)
Record joined (ls : list Leg) (a n : Z) (c : Z -> Z) (B : DriveError -> Prop) (rs : list (Leg * result DriveError ())) (w w' : world S) : Prop := {
  jn_legs : map fst rs = ls;
  jn_frame : frame (among ls) w w';
  jn_refs l : refs w' l = refs w l;
  jn_out l p : 0 < refs w l -> 0 <= p < size_at w l -> p < a \/ a + n <= p -> byte w' l p = byte w l p;
  jn_good l u : (l, Ok u) ∈ rs -> 0 < refs w l /\ forall p, a <= p < a + n -> byte w' l p = c p;
  jn_bad l e : (l, Err e) ∈ rs -> B e }.

Lemma join_all_spec (f : Leg -> M S ()) a n c (B : DriveError -> Prop) :
  (forall l w, wf_slabs w -> usable w l a n -> wp (f l) (fun r w' => wrote l a n w w' /\ match r with
     | Ok _ => 0 < refs w l /\ forall p, a <= p < a + n -> byte w' l p = c p
     | Err f => exists e, f = Failed e /\ B e end) w) ->
  forall ls w, wf_slabs w -> NoDup ls -> (forall l, l ∈ ls -> usable w l a n) ->
  wp (join_all f ls) (fun r w' => exists rs, r = Ok rs /\ joined ls a n c B rs w w') w.
Proof.
  intros Hf. induction ls as [|l ls IH]; intros w Hw Hnd Hu.
  { apply twp_ret. exists []. split; [done|]. constructor; try done; by intros ? ? ?%elem_of_nil. }
  apply NoDup_cons in Hnd as [Hn Hnd]. cbn [join_all]. pose proof (Hu l ltac:(by left)) as Hul.
  apply twp_bind, wp_attempt. eapply twp_mono; [by apply Hf|]. intros r w1 [HW Hr].
  pose proof (wt_frame _ _ _ _ _ HW) as HF. pose proof (f_wf _ _ _ HF) as Hw1.
  assert (forall k, refs w1 k = refs w k) as Hrf.
  { intros k. destruct (decide (k = l)) as [->|]; [apply (wt_refs _ _ _ _ _ HW)|by apply (f_refs _ _ _ HF)]. }
  set (x := match r with Ok a => Ok a | Err (Failed e) => Err e | Err _ => Err DOther end : result DriveError ()).
  assert (wp (join_all f ls) (fun r2 w2 => exists rs, r2 = Ok rs /\ joined (l :: ls) a n c B ((l, x) :: rs) w w2) w1) as Hrest.
  { eapply twp_mono; [apply IH; [done|done|]|].
    - intros k Hk. eapply usable_wrote; [|exact HW]. apply Hu. by right.
    - intros r2 w2 (rs & -> & [J1 J2 J3 J4 J5 J6]). exists rs. split; [done|]. constructor.
      + cbn. by rewrite J1.
      + by apply (frame_cons _ _ _ _ _ HF).
      + intros k. by rewrite J3, Hrf.
      + intros k p Hk Hp Hout. rewrite J4 by (rewrite ?Hrf, ?(f_size _ _ _ HF); done). destruct (decide (k = l)) as [->|].
        * by apply (wt_bytes _ _ _ _ _ HW).
        * by apply (f_bytes _ _ _ HF).
      + intros k u [[= -> E]|Hk]%elem_of_cons; [|rewrite <- Hrf; by eapply J5].
        destruct r as [u'|[]]; [|done..]. destruct Hr as [Hk Hb]. split; [done|]. intros p Hp. rewrite <- Hb by done.
        apply (f_bytes _ _ _ J2); [done|by rewrite Hrf|]. rewrite (f_size _ _ _ HF). by eapply usable_range.
      + intros k e [[= -> E]|Hk]%elem_of_cons; [|by eapply J6]. destruct r as [u'|[]]; [done| |..].
        * destruct Hr as (e' & [= ->] & HB). injection E as ->. done.
        * by destruct Hr as (e' & ? & _).
        * by destruct Hr as (e' & ? & _). }
  destruct r as [u|[e|e|]].
  - apply twp_bind. eapply twp_mono; [exact Hrest|]. intros r2 w2 (rs & -> & HJ). exists ((l, x) :: rs). by split.
  - apply twp_bind. eapply twp_mono; [exact Hrest|]. intros r2 w2 (rs & -> & HJ). exists ((l, x) :: rs). by split.
  - by destruct Hr as (e' & ? & _).
  - by destruct Hr as (e' & ? & _).
Qed.

Lemma elem_of_succeeded {A} (rs : list (Leg * result DriveError A)) l : l ∈ succeeded rs <-> exists u, (l, Ok u) ∈ rs.
Proof.
  unfold succeeded. rewrite list_elem_of_omap. split.
  - intros ([k [u|e]] & Hin & E); [|done]. cbn in E. injection E as ->. by exists u.
  - intros [u Hu]. by exists (l, Ok u).
Qed.
Lemma elem_of_errors {A} (rs : list (Leg * result DriveError A)) l e : (l, e) ∈ errors rs <-> (l, Err e) ∈ rs.
Proof.
  unfold errors. rewrite list_elem_of_omap. split.
  - intros ([k [u|e']] & Hin & E); [done|]. cbn in E. by injection E as -> ->.
  - intros Hu. by exists (l, Err e).
Qed.
Lemma succeeded_or {A} (rs : list (Leg * result DriveError A)) l : l ∈ map fst rs -> l ∈ succeeded rs \/ exists e, (l, e) ∈ errors rs.
Proof.
  intros ([k [u|e]] & -> & Hin)%list_elem_of_fmap; [left|right]; [apply elem_of_succeeded; by exists u|exists e; by apply elem_of_errors].
Qed.
Lemma succeeded_sublist {A} (rs : list (Leg * result DriveError A)) : succeeded rs `sublist_of` map fst rs.
Proof. induction rs as [|[k [u|e]] rs IH]; cbn; by constructor. Qed.
Lemma errors_sublist {A} (rs : list (Leg * result DriveError A)) : map fst (errors rs) `sublist_of` map fst rs.
Proof. induction rs as [|[k [u|e]] rs IH]; cbn; by constructor. Qed.
Lemma succeeded_nodup {A} (rs : list (Leg * result DriveError A)) : NoDup (map fst rs) -> NoDup (succeeded rs).
Proof. intros Hn. by eapply sublist_NoDup; [|apply succeeded_sublist]. Qed.

(** ** The first leg that answers *)

Lemma read_legs_spec v off n ls : forall last (w : world S), wf_slabs w -> (forall l, l ∈ ls -> usable w l off n) ->
  wp (read_legs v ls off n last) (fun r w' => frame nothing w w'
    /\ forall b, r = Ok (Ok b) -> exists l, l ∈ ls /\ attached w l /\ zlen b = n /\ shows (byte w l) off b) w.
Proof.
  induction ls as [|l ls IH]; intros last w Hw Hu; [split; [by apply frame_refl|done]|]. cbn [read_legs].
  eapply wp_try; [apply read_leg_spec; [done|apply Hu; by left]|..].
  - intros b w1 [HF Hb]. apply twp_ret. split; [done|]. intros b' [= <-]. exists l. split; [by left|]. by apply Hb.
  - intros e w1 [HF _]. pose proof (f_wf _ _ _ HF) as Hw1. eapply wp_seq; [by apply mark_failed_spec| |by intros ? ? [? _]].
    intros [] w2 (_ & HF2 & _). assert (frame nothing w w2) as HF02 by by eapply frame_trans.
    eapply twp_mono; [apply (IH (Some e)); [apply (f_wf _ _ _ HF2)|]|].
    + intros k Hk. eapply usable_frame; [apply Hu; by right|exact HF02|by apply frame_refs].
    + intros r w3 [HF3 Hr]. split; [by eapply frame_trans|]. intros b Eb. destruct (Hr b Eb) as (k & Hk & Ha & Hl & Hs).
      unfold attached in Ha. rewrite (f_slabs _ _ _ HF02) in Ha. exists k. split_and!; [by right|done|done|].
      destruct (Hu k ltac:(by right)) as (Ho & Hn & Hk'). destruct (Hk' Ha) as [Hr0 Hsz].
      eapply shows_ext; [|exact Hs]. intros p Hp. apply (frame_bytes _ _ _ _ HF02); [done|lia].
  - by intros f w1 [HF _].
Qed.
End alloc.
