(* ===== verification/ThinRepr.v ===== *)
(** The maps of a world against the disks its volumes stand for: [repr], that the slabs
    and maps show the disks, and how a write in place, an extent mapped anew or let go,
    and a reference given back keep it. *)

From Stdlib Require Import String.
From stdpp Require Import strings.
From S2P Require Import Prelude SlabFormat GemData ExtMap Gem GemProofs Redundancy SlotStore Registry Thin ThinInv ThinAlloc.
#[local] Open Scope Z_scope.

(** ** The extent map, every map in memory *)

Lemma check_in_memory g v : cold g = ∅ -> check g v = Ok tt.
Proof. intros E. unfold check. by rewrite E, lookup_empty. Qed.
Lemma lookup_in_memory g v x : cold g = ∅ -> lookup g v x = Ok (ext_at (volumes g) v x).
Proof. intros E. unfold lookup. by rewrite check_in_memory. Qed.

Lemma touch_fields m g : cold (put_mark m g) = cold g /\ volumes (put_mark m g) = volumes g.
Proof. split; [apply mark_cold|apply mark_volumes]. Qed.

Lemma insert_effect g v x l : cold g = ∅ -> exists g', Gem.insert v x l g = Ok g' /\ cold g' = ∅
  /\ (forall u y, ext_at (volumes g') u y = if decide (u = v /\ y = x) then Some l else ext_at (volumes g) u y)
  /\ forall u y, par_at (volumes g') u y = par_at (volumes g) u y.
Proof.
  intros E. unfold Gem.insert. rewrite check_in_memory by done. cbn [rbind]. eexists. split; [reflexivity|].
  destruct (touch_fields (MExt v x) (entry_or_default v (set_extents <[x:=l]>) g)) as [E1 E2]. cbn [put_mark] in E1, E2. rewrite E1, E2.
  split; [done|]. split; intros u y; unfold ext_at, par_at; cbn; destruct (decide (u = v)) as [->|Hu].
  - rewrite lookup_insert_eq. cbn. destruct (decide (y = x)) as [->|Hy]; [by rewrite lookup_insert_eq, decide_True|].
    rewrite lookup_insert_ne, decide_False by (done || naive_solver). by destruct (volumes g !! v).
  - by rewrite lookup_insert_ne, decide_False by (done || naive_solver).
  - rewrite lookup_insert_eq. cbn. by destruct (volumes g !! v).
  - by rewrite lookup_insert_ne.
Qed.

Lemma remove_effect g v x : cold g = ∅ -> exists r g', Gem.remove v x g = Ok (r, g') /\ cold g' = ∅
  /\ (forall u y, ext_at (volumes g') u y = if decide (u = v /\ y = x) then None else ext_at (volumes g) u y)
  /\ forall u y, par_at (volumes g') u y = par_at (volumes g) u y.
Proof.
  intros E. unfold Gem.remove. rewrite check_in_memory by done. cbn [rbind].
  destruct (volumes g !! v) as [m|] eqn:Em; [destruct (extents m !! x) as [l|] eqn:El|]; eexists _, _; (split; [reflexivity|]).
  - destruct (put_or_drop_set v (set_extents (delete x) m) g) as (om & -> & _ & He & Hp).
    destruct (touch_fields (MExt v x) (set_volume v om g)) as [E1 E2]. cbn [put_mark] in E1, E2. rewrite E1, E2. split; [done|].
    split; intros u y; unfold ext_at, par_at, set_volume; cbn; rewrite set_volume_lookup; destruct (decide (u = v)) as [->|Hu]; try done.
    + rewrite He. cbn. rewrite Em. cbn. destruct (decide (y = x)) as [->|Hy]; [by rewrite lookup_delete_eq, decide_True|].
      by rewrite lookup_delete_ne, decide_False by (done || naive_solver).
    + by rewrite decide_False by naive_solver.
    + rewrite Hp. cbn. by rewrite Em.
  - split; [done|]. split; [|done]. intros u y. case_decide as Hd; [|done]. destruct Hd as [-> ->]. unfold ext_at. by rewrite Em.
  - split; [done|]. split; [|done]. intros u y. case_decide as Hd; [|done]. destruct Hd as [-> ->]. unfold ext_at. by rewrite Em.
Qed.

Lemma set_owner_ref_effect g u tagged l n : cold g = ∅ -> let g' := set_owner_ref u tagged l n g in
  cold g' = ∅ /\ (forall v y, par_at (volumes g) v y = None -> par_at (volumes g') v y = None)
  /\ forall v y, ext_at (volumes g') v y = ext_at (volumes g) v y
     \/ exists loc, ext_at (volumes g) v y = Some loc /\ l ∈ legs loc /\ ext_at (volumes g') v y = Some (set_refs n loc).
Proof.
  intros E. cbv zeta. unfold set_owner_ref, is_cold. rewrite E, lookup_empty.
  destruct (parse_parity_vext tagged) as [[i stripe]|].
  - destruct (m ← volumes g !! u; parity m !! stripe) as [p|] eqn:Ep; [|by auto]. case_bool_decide; [|by auto].
    unfold update_group. destruct (volumes g !! u) as [m|] eqn:Em; [|by auto]. cbn in Ep. rewrite Ep.
    destruct (touch_fields (MPar u stripe) (with_volumes (<[u:=set_parity <[stripe:=set_group_refs n p]> m]> (volumes g)) g)) as [E1 E2].
    cbn in E1, E2. rewrite E1, E2. split; [done|]. split; intros v y; unfold ext_at, par_at;
      (destruct (decide (v = u)) as [->|]; [rewrite lookup_insert_eq, Em; cbn|rewrite lookup_insert_ne by done; auto]); [|auto].
    destruct (decide (y = stripe)) as [->|]; [congruence|by rewrite lookup_insert_ne].
  - unfold update_extent, em_update. destruct (volumes g !! u) as [m|] eqn:Em; [|by auto].
    destruct (extents m !! tagged) as [loc|] eqn:El; cbn [fst snd]; [unfold names; case_bool_decide as Hl|]; cbn [fst snd said_yes default id].
    2: rewrite (insert_id (extents m)) by done.
    1: match goal with |- context [touch u tagged ?h] => destruct (touch_fields (MExt u tagged) h) as [E1 E2] end; cbn in E1, E2; rewrite E1, E2.
    all: cbn; (split; [done|]); split; intros v y; unfold ext_at, par_at;
      (destruct (decide (v = u)) as [->|]; [rewrite lookup_insert_eq, Em; cbn|rewrite lookup_insert_ne by done; by auto]); auto.
    destruct (decide (y = tagged)) as [->|]; [|by rewrite lookup_insert_ne by done; left]. rewrite lookup_insert_eq. right. by exists loc.
Qed.

(** ** Volumes and the disks they stand for *)

Section repr.
Context {S : Type} `{SlotStoreLaws S}.

(** The maps of volumes there are: one left behind without a handle names nothing. *)
Definition mapped (w : world S) (v : VolumeId) (x : Z) : option ExtentLocation :=
  match vols w !! v with Some _ => ext_at (volumes (gem w)) v x | None => None end.
Lemma mapped_handle w v h x : vols w !! v = Some h -> mapped w v x = ext_at (volumes (gem w)) v x.
Proof. intros Hv. unfold mapped. by rewrite Hv. Qed.
(** [l] is a leg of extent [x] of [v]. *)
Definition holds (w : world S) (v : VolumeId) (x : Z) (l : Leg) : Prop := exists loc, mapped w v x = Some loc /\ l ∈ legs loc.

Record handle_ok (w : world S) (h : Volume) : Prop := {
  ho_slot : 0 < vslot h;
  ho_lba : 0 < lba h;
  ho_scheme : is_parity (scheme (policy h)) = false;
  ho_pin : pin_ok w h }.

(** References to a leg not given back yet. *)
Definition owes (owed : list Leg) (l : Leg) : Z := if bool_decide (l ∈ owed) then 1 else 0.
(** [d v] is the disk [v] stands for; [owed] are legs of a map no longer there, their
    references not given back yet.  Worlds of mirror and plain volumes with every map in
    memory: a parity volume ([r_parity], [ho_scheme]) or an evicted map ([r_cold]) is
    outside, and so outside every theorem that starts from [repr]. *)
Record repr (owed : list Leg) (w : world S) (d : VolumeId -> Z -> Z) : Prop := {
  r_cold : cold (gem w) = ∅;
  r_slabs : wf_slabs w;
  r_handle v h : vols w !! v = Some h -> handle_ok w h;
  r_size v h x l : vols w !! v = Some h -> holds w v x l -> attached w l -> size_at w l = vslot h;
  r_single v h x loc : vols w !! v = Some h -> is_none (policy h) = true -> mapped w v x = Some loc -> mirrors loc = [];
  r_parity v h x : vols w !! v = Some h -> par_at (volumes (gem w)) v x = None;
  r_count v x loc : mapped w v x = Some loc -> 1 <= ref_count loc;
  r_nodup v x loc : mapped w v x = Some loc -> NoDup (legs loc);
  (** Counted once is held once, *)
  r_alone v x loc l u y : mapped w v x = Some loc -> ref_count loc <= 1 -> l ∈ legs loc -> holds w u y l -> u = v /\ y = x;
  (** all the legs of a location are shared or none is, *)
  r_same v x loc u y loc' l : mapped w v x = Some loc -> mapped w u y = Some loc' -> l ∈ legs loc -> l ∈ legs loc' ->
    forall k, k ∈ legs loc -> k ∈ legs loc';
  (** and no slot has more holders than shares. *)
  r_held l : attached w l -> exists L : list (VolumeId * Z),
    (forall v x, holds w v x l -> (v, x) ∈ L) /\ zlen L + owes owed l <= refs w l;
  r_data v h x l p : vols w !! v = Some h -> holds w v x l -> lg_slab l ∉ failed h -> attached w l -> 0 <= p < vslot h ->
    byte w l p = d v (x * vslot h + p);
  r_zero v h x p : vols w !! v = Some h -> mapped w v x = None -> 0 <= x -> 0 <= p < vslot h -> d v (x * vslot h + p) = 0 }.

Lemma owes_range owed l : 0 <= owes owed l <= 1.
Proof. unfold owes. case_bool_decide; lia. Qed.
Lemma owes_in owed l : l ∈ owed -> owes owed l = 1.
Proof. intros Hl. unfold owes. by rewrite bool_decide_true. Qed.
Lemma owes_not owed l : l ∉ owed -> owes owed l = 0.
Proof. intros Hl. unfold owes. by rewrite bool_decide_false. Qed.
Lemma repr_live owed w d v x l : repr owed w d -> holds w v x l -> attached w l -> 0 < refs w l.
Proof.
  intros HR Hh Ha. destruct (r_held _ _ _ HR l Ha) as (L & HL & Hle). specialize (HL _ _ Hh).
  destruct L as [|a L]; [by apply elem_of_nil in HL|]. unfold zlen in Hle. cbn in Hle. pose proof (owes_range owed l). lia.
Qed.
Lemma repr_owed owed w d l : repr owed w d -> l ∈ owed -> attached w l -> 0 < refs w l.
Proof.
  intros HR Hh Ha. destruct (r_held _ _ _ HR l Ha) as (L & HL & Hle). rewrite owes_in in Hle by done.
  pose proof (zlen_nonneg L). lia.
Qed.
Lemma repr_usable w d owed v h x loc l off n : repr owed w d -> vols w !! v = Some h -> mapped w v x = Some loc -> l ∈ legs loc ->
  0 <= off -> 0 <= n -> off + n <= vslot h -> usable w l off n.
Proof.
  intros HR Hh Hm Hl Ho Hn Hle. split_and!; [done|done|]. intros Ha. assert (holds w v x l) as Hd by by exists loc.
  rewrite (r_size _ _ _ HR v h x l) by done. split; [by eapply repr_live|done].
Qed.
Lemma usable_in h loc x l : l ∈ usable_legs h loc x -> l ∈ legs loc /\ lg_slab l ∉ failed h.
Proof.
  unfold usable_legs. intros Hl.
  assert (l ∈ filter (fun l => is_failed h (lg_slab l) = false) (legs loc)) as Hf.
  { destruct (1 <? _); [|done]. rewrite elem_of_app in Hl. rewrite <- (take_drop (Z.to_nat (x mod zlen (filter (fun l => is_failed h (lg_slab l) = false) (legs loc))))).
    rewrite elem_of_app. tauto. }
  apply list_elem_of_filter in Hf as [Hf ?]. split; [done|]. by apply bool_decide_eq_false in Hf.
Qed.

(** ** Steps that leave the maps alone *)

Lemma handle_back X (w w' : world S) v h' : frame X w w' -> vols w' !! v = Some h' -> exists h, vols w !! v = Some h /\ softer h h'.
Proof. intros HF Hh. pose proof (f_vols _ _ _ HF v) as Hv. rewrite Hh in Hv. inversion Hv as [h ? Hso E1 E2|]; subst. by exists h. Qed.
Lemma attached_frame X (w w' : world S) l : frame X w w' -> attached w' l <-> attached w l.
Proof. intros HF. apply (f_slabs _ _ _ HF). Qed.
Lemma mapped_frame X (w w' : world S) v x : frame X w w' -> mapped w' v x = mapped w v x.
Proof.
  intros HF. unfold mapped. rewrite (f_gem _ _ _ HF). by destruct (f_vols _ _ _ HF v).
Qed.
Lemma holds_frame X (w w' : world S) v x l : frame X w w' -> holds w' v x l <-> holds w v x l.
Proof. intros HF. unfold holds. by rewrite (mapped_frame _ _ _ _ _ HF). Qed.
Lemma handle_ok_frame X (w w' : world S) h h' : frame X w w' -> softer h h' -> handle_ok w h -> handle_ok w' h'.
Proof.
  intros HF Hso [H1 H2 H3 H4]. pose proof (so_flags _ _ Hso) as Hfl. injection Hfl as _ _ _ Hl. constructor.
  - by rewrite (so_slot _ _ Hso).
  - by rewrite Hl.
  - by rewrite (so_policy _ _ Hso).
  - by eapply pin_ok_frame.
Qed.

Lemma repr_steps (X : Leg -> Prop) owed owed' w w' d d' : repr owed w d -> frame X w w' ->
  (forall l, attached w l -> refs w l + owes owed' l <= refs w' l + owes owed l \/ (forall v x, ~ holds w v x l) /\ owes owed' l <= refs w' l) ->
  (forall v h h' x l p, vols w !! v = Some h -> vols w' !! v = Some h' -> softer h h' -> holds w v x l -> lg_slab l ∉ failed h' ->
   attached w l -> 0 <= p < vslot h -> byte w' l p = d' v (x * vslot h + p)) ->
  (forall v h x p, vols w !! v = Some h -> mapped w v x = None -> 0 <= x -> 0 <= p < vslot h -> d' v (x * vslot h + p) = 0) ->
  repr owed' w' d'.
Proof.
  intros HR HF Hup Hdata Hzero.
  assert (forall v x, mapped w' v x = mapped w v x) as Hm by (intros; by apply (mapped_frame X)).
  assert (forall v x l, holds w' v x l <-> holds w v x l) as Hh by (intros; by apply (holds_frame X)).
  assert (forall l, attached w' l <-> attached w l) as Ha by (intros; by apply (attached_frame X)). constructor.
  - rewrite (f_gem _ _ _ HF). apply HR.
  - apply HF.
  - intros v h' Hv. destruct (handle_back _ _ _ _ _ HF Hv) as (h & Hv0 & Hso). eapply handle_ok_frame; [done..|]. by eapply r_handle.
  - intros v h' x l Hv. rewrite Hh, Ha, (f_size _ _ _ HF). destruct (handle_back _ _ _ _ _ HF Hv) as (h & Hv0 & Hso).
    rewrite (so_slot _ _ Hso). by apply (r_size _ _ _ HR).
  - intros v h' x loc Hv. rewrite Hm. destruct (handle_back _ _ _ _ _ HF Hv) as (h & Hv0 & Hso).
    rewrite (so_policy _ _ Hso). by apply (r_single _ _ _ HR).
  - intros v h' x Hv. destruct (handle_back _ _ _ _ _ HF Hv) as (h & Hv0 & _). rewrite (f_gem _ _ _ HF). by eapply (r_parity _ _ _ HR).
  - intros v x loc. rewrite Hm. by apply (r_count _ _ _ HR).
  - intros v x loc. rewrite Hm. by apply (r_nodup _ _ _ HR).
  - intros v x loc l u y. rewrite Hm, Hh. by apply (r_alone _ _ _ HR).
  - intros v x loc u y loc' l. rewrite !Hm. by apply (r_same _ _ _ HR).
  - intros l. rewrite Ha. intros Hl. destruct (Hup l Hl) as [Hu|[Hn Hu]].
    + destruct (r_held _ _ _ HR l Hl) as (L & HL & Hle). exists L. split; [intros v x; rewrite Hh; apply HL|lia].
    + exists []. split; [intros v x; rewrite Hh; by intros ?%Hn|done].
  - intros v h' x l p Hv. rewrite Hh, Ha. destruct (handle_back _ _ _ _ _ HF Hv) as (h & Hv0 & Hso). rewrite (so_slot _ _ Hso).
    by apply Hdata.
  - intros v h' x p Hv. rewrite Hm. destruct (handle_back _ _ _ _ _ HF Hv) as (h & Hv0 & Hso). rewrite (so_slot _ _ Hso).
    by apply Hzero.
Qed.

Lemma repr_step (X : Leg -> Prop) owed owed' w w' d d' : repr owed w d -> frame X w w' ->
  (forall l, attached w l -> refs w l + owes owed' l <= refs w' l + owes owed l) ->
  (forall v h h' x l p, vols w !! v = Some h -> vols w' !! v = Some h' -> softer h h' -> holds w v x l -> lg_slab l ∉ failed h' ->
   attached w l -> 0 <= p < vslot h -> byte w' l p = d' v (x * vslot h + p)) ->
  (forall v h x p, vols w !! v = Some h -> mapped w v x = None -> 0 <= x -> 0 <= p < vslot h -> d' v (x * vslot h + p) = 0) ->
  repr owed' w' d'.
Proof. intros HR HF Hup. apply (repr_steps _ _ _ _ _ d _ HR HF). intros l Hl. left. by apply Hup. Qed.

Lemma repr_data owed w d v h h' x l p : repr owed w d -> vols w !! v = Some h -> softer h h' -> holds w v x l -> lg_slab l ∉ failed h' ->
  attached w l -> 0 <= p < vslot h -> byte w l p = d v (x * vslot h + p).
Proof. intros HR Hv Hso Hh Hf. apply (r_data _ _ _ HR); try done. intros Hin. by apply Hf, (so_failed _ _ Hso). Qed.
Lemma repr_range owed w d v h x l p : repr owed w d -> vols w !! v = Some h -> holds w v x l -> attached w l -> 0 <= p < vslot h ->
  0 <= p < size_at w l.
Proof. intros HR Hv Hh Ha. by rewrite (r_size _ _ _ HR v h x l). Qed.

(** Slots nobody held come and go. *)
Lemma repr_frame owed w w' d : repr owed w d -> frame (spare w) w w' -> repr owed w' d.
Proof.
  intros HR HF. apply (repr_step _ _ _ _ _ d _ HR HF).
  - intros l _. pose proof (refs_nonneg_w w' l (f_wf _ _ _ HF)). destruct (decide (refs w l = 0)) as [Hl|Hl]; [|rewrite (f_refs _ _ _ HF) by done]; lia.
  - intros v h h' x l p Hv Hv' Hso Hh Hf Ha Hp. pose proof (repr_live _ _ _ _ _ _ HR Hh Ha).
    rewrite (f_bytes _ _ _ HF); [by eapply repr_data|unfold spare; lia|lia|by eapply repr_range].
  - by apply (r_zero _ _ _ HR).
Qed.

(** Extent [x] of [v] has [c] now. *)
Definition with_extent (d : VolumeId -> Z -> Z) (v : VolumeId) (slot x : Z) (c : Z -> Z) : VolumeId -> Z -> Z :=
  fun u q => if decide (u = v /\ x * slot <= q < (x + 1) * slot) then c (q - x * slot) else d u q.
Lemma with_extent_in d v slot x c p : 0 <= p < slot -> with_extent d v slot x c v (x * slot + p) = c p.
Proof. intros Hp. unfold with_extent. rewrite decide_True by (split; [done|lia]). f_equal. lia. Qed.
Lemma with_extent_out d v slot x c u y p : 0 <= p < slot -> ~ (u = v /\ y = x) -> with_extent d v slot x c u (y * slot + p) = d u (y * slot + p).
Proof. intros Hp Hne. unfold with_extent. rewrite decide_False; [done|]. intros [-> Hq]. apply Hne. split; [done|nia]. Qed.
Lemma with_extent_other d v slot x c u q : u <> v -> with_extent d v slot x c u q = d u q.
Proof. intros Hne. unfold with_extent. by rewrite decide_False by naive_solver. Qed.

(** The legs of an extent held once were written. *)
Lemma repr_in_place owed w w' d v h x loc c : repr owed w d -> vols w !! v = Some h -> mapped w v x = Some loc -> ref_count loc <= 1 ->
  frame (among (legs loc)) w w' -> (forall l, refs w' l = refs w l) ->
  (forall l h' p, l ∈ legs loc -> vols w' !! v = Some h' -> lg_slab l ∉ failed h' -> attached w l -> 0 <= p < vslot h -> byte w' l p = c p) ->
  repr owed w' (with_extent d v (vslot h) x c).
Proof.
  intros HR Hv Hm Hone HF Hrefs Hc. apply (repr_step _ _ _ _ _ d _ HR HF).
  - intros l _. by rewrite Hrefs.
  - intros u hu hu' y l p Hu Hu' Hso Hh Hf Ha Hp. destruct (decide (l ∈ legs loc)) as [Hl|Hl].
    + destruct (r_alone _ _ _ HR v x loc l u y Hm Hone Hl Hh) as [-> ->]. rewrite Hv in Hu. injection Hu as <-.
      rewrite with_extent_in by done. by eapply Hc.
    + rewrite (f_bytes _ _ _ HF) by (done || by eapply repr_live || by eapply repr_range).
      rewrite (repr_data _ _ _ _ _ _ _ _ _ HR Hu Hso Hh Hf Ha Hp). destruct (decide (u = v)) as [->|Hne]; [|by rewrite with_extent_other].
      rewrite Hv in Hu. injection Hu as <-. rewrite with_extent_out; [done|done|]. intros [_ ->]. destruct Hh as (loc' & Hm' & Hl').
      rewrite Hm in Hm'. by injection Hm' as <-.
  - intros u hu y p Hu Hn Hy Hp. destruct (decide (u = v)) as [->|Hne]; [|rewrite with_extent_other by done; by eapply r_zero].
    rewrite Hv in Hu. injection Hu as <-. rewrite with_extent_out; [by eapply r_zero|done|]. intros [_ ->]. by rewrite Hm in Hn.
Qed.

(** ** An extent mapped anew, or let go of *)

(** What is mapped: legs nobody else has, which have the extent. *)
Record fresh_legs (w : world S) (h : Volume) (c : Z -> Z) (loc : ExtentLocation) : Prop := {
  fl_count : 1 <= ref_count loc;
  fl_nodup : NoDup (legs loc);
  fl_single : is_none (policy h) = true -> mirrors loc = [];
  fl_refs l : l ∈ legs loc -> 1 <= refs w l;
  fl_size l : l ∈ legs loc -> size_at w l = vslot h;
  fl_free l u y : l ∈ legs loc -> ~ holds w u y l;
  fl_bytes l p : l ∈ legs loc -> lg_slab l ∉ failed h -> 0 <= p < vslot h -> byte w l p = c p }.
Definition legs_of (o : option ExtentLocation) : list Leg := match o with Some loc => legs loc | None => [] end.

Section remap.
Context (w : world S) (d : VolumeId -> Z -> Z) (v : VolumeId) (h : Volume) (x : Z) (g' : GlobalExtentMap) (new : option ExtentLocation)
  (c : Z -> Z) (HR : repr [] w d) (Hv : vols w !! v = Some h) (Hc : cold g' = ∅)
  (Hg : forall u y, ext_at (volumes g') u y = if decide (u = v /\ y = x) then new else ext_at (volumes (gem w)) u y)
  (Hpar : forall u y, par_at (volumes g') u y = par_at (volumes (gem w)) u y)
  (Hnew : match new with Some loc => fresh_legs w h c loc | None => forall p, 0 <= p < vslot h -> c p = 0 end).
Local Abbreviation w' := (set_gem g' w).

Lemma remap_mapped u y : mapped w' u y = if decide (u = v /\ y = x) then new else mapped w u y.
Proof using HR Hv Hc Hg Hpar Hnew.
  unfold mapped. cbn. rewrite Hg. destruct (vols w !! u) eqn:E; [done|]. case_decide as Hd; [|done]. destruct Hd as [-> ->]. by rewrite Hv in E.
Qed.
Lemma remap_cases u y loc : mapped w' u y = Some loc ->
  (u = v /\ y = x /\ new = Some loc) \/ (~ (u = v /\ y = x) /\ mapped w u y = Some loc).
Proof using HR Hv Hc Hg Hpar Hnew. rewrite remap_mapped. case_decide as Hd; [left|right]; naive_solver. Qed.
Lemma remap_holds u y l : holds w' u y l -> (u = v /\ y = x /\ l ∈ legs_of new) \/ (~ (u = v /\ y = x) /\ holds w u y l).
Proof using HR Hv Hc Hg Hpar Hnew. intros (loc & Hm & Hl). destruct (remap_cases _ _ _ Hm) as [(-> & -> & E)|[Hn Hm']]; [left; by rewrite E|right]. split; [done|by exists loc]. Qed.
Lemma new_fresh l : l ∈ legs_of new -> exists loc, new = Some loc /\ l ∈ legs loc /\ fresh_legs w h c loc.
Proof using HR Hv Hc Hg Hpar Hnew. destruct new as [loc|]; cbn; [intros Hl; by exists loc|by intros ?%elem_of_nil]. Qed.
Lemma new_unheld l u y : l ∈ legs_of new -> ~ holds w u y l.
Proof using HR Hv Hc Hg Hpar Hnew. intros (loc & _ & Hl & HF)%new_fresh. by eapply fl_free. Qed.

Lemma remap_held l : attached w l -> exists L : list (VolumeId * Z),
  (forall u y, holds w' u y l -> (u, y) ∈ L) /\ zlen L + owes (legs_of (mapped w v x)) l <= refs w l.
Proof using HR Hv Hc Hg Hpar Hnew.
  intros Ha. destruct (r_held _ _ _ HR l Ha) as (L & HL & Hle). rewrite owes_not in Hle by (by intros ?%elem_of_nil).
  assert (l ∈ legs_of (mapped w v x) -> holds w v x l) as Hold.
  { intros Hl. unfold holds. destruct (mapped w v x) as [loc|]; [by exists loc|by apply elem_of_nil in Hl]. }
  destruct (decide (l ∈ legs_of new)) as [Hl|Hl].
  - exists [(v, x)]. split.
    + intros u y [(-> & -> & _)|[_ Hh]]%remap_holds; [by left|]. by apply new_unheld in Hh.
    + rewrite owes_not by (intros Ho; by apply (new_unheld l v x Hl), Hold). destruct (new_fresh l Hl) as (loc & _ & Hl' & HF).
      pose proof (fl_refs _ _ _ _ HF l Hl'). unfold zlen. cbn. lia.
  - exists (filter (fun q => q <> (v, x)) L). split.
    + intros u y [(-> & -> & Hl')|[Hne Hh]]%remap_holds; [done|]. apply list_elem_of_filter. split; [naive_solver|by apply HL].
    + pose proof (length_filter (fun q => q <> (v, x)) L) as Hf. unfold zlen, owes in *. case_bool_decide as Ho; [|lia].
      pose proof (length_filter_lt (fun q => q <> (v, x)) L _ (HL _ _ (Hold Ho)) ltac:(tauto)). lia.
Qed.

Lemma repr_remap : repr (legs_of (mapped w v x)) w' (with_extent d v (vslot h) x c).
Proof using HR Hv Hc Hg Hpar Hnew.
  constructor.
  - done.
  - apply (r_slabs _ _ _ HR).
  - intros u hu Hu. by destruct (r_handle _ _ _ HR u hu Hu).
  - intros u hu y l Hu [(-> & -> & Hl)|[_ Hh]]%remap_holds Ha; [|by apply (r_size _ _ _ HR u hu y l)].
    destruct (new_fresh l Hl) as (loc & _ & Hl' & HF). cbn in Hu. rewrite Hv in Hu. injection Hu as <-. by apply (fl_size _ _ _ _ HF).
  - intros u hu y loc Hu Hn [(-> & -> & E)|[_ Hm]]%remap_cases; [|by eapply r_single]. rewrite E in Hnew. cbn in Hu.
    rewrite Hv in Hu. injection Hu as <-. by apply Hnew.
  - intros u hu y Hu. cbn. rewrite Hpar. by apply (r_parity _ _ _ HR u hu).
  - intros u y loc [(_ & _ & E)|[_ Hm]]%remap_cases; [|by eapply r_count]. rewrite E in Hnew. apply Hnew.
  - intros u y loc [(_ & _ & E)|[_ Hm]]%remap_cases; [|by eapply r_nodup]. rewrite E in Hnew. apply Hnew.
  - intros u y loc l u2 y2 [(-> & -> & E)|[Hne Hm]]%remap_cases Hone Hl [(-> & -> & Hl2)|[Hne2 Hh]]%remap_holds; try done.
    + exfalso. apply (new_unheld l u2 y2); [by rewrite E|done].
    + exfalso. apply (new_unheld l u y); [done|by exists loc].
    + by eapply (r_alone _ _ _ HR).
  - intros u y loc u2 y2 loc2 l [(-> & -> & E)|[Hne Hm]]%remap_cases [(-> & -> & E2)|[Hne2 Hm2]]%remap_cases Hl Hl2 k.
    + rewrite E in E2. by injection E2 as ->.
    + exfalso. apply (new_unheld l u2 y2); [by rewrite E|by exists loc2].
    + exfalso. apply (new_unheld l u y); [by rewrite E2|by exists loc].
    + by eapply (r_same _ _ _ HR).
  - apply remap_held.
  - intros u hu y l p Hu Hh Hf Ha Hp. cbn in Hu. apply remap_holds in Hh as [(-> & -> & Hl)|[Hne Hh]].
    + rewrite Hv in Hu. injection Hu as <-. rewrite with_extent_in by done. destruct (new_fresh l Hl) as (loc & _ & Hl' & HF).
      by apply (fl_bytes _ _ _ _ HF).
    + destruct (decide (u = v)) as [->|]; [|rewrite with_extent_other by done; by eapply (r_data _ _ _ HR)].
      rewrite Hv in Hu. injection Hu as <-. rewrite with_extent_out by done. by eapply (r_data _ _ _ HR).
  - intros u hu y p Hu. rewrite remap_mapped. case_decide as Hd; [destruct Hd as [-> ->]|]; intros Hn Hy Hp.
    + cbn in Hu. rewrite Hv in Hu. injection Hu as <-. rewrite with_extent_in by done. rewrite Hn in Hnew. by apply Hnew.
    + destruct (decide (u = v)) as [->|]; [|rewrite with_extent_other by done; by eapply (r_zero _ _ _ HR)].
      cbn in Hu. rewrite Hv in Hu. injection Hu as <-. rewrite with_extent_out by done. by eapply (r_zero _ _ _ HR).
Qed.
End remap.

(** ** References given back *)

Lemma release_one l owed w d : repr (l :: owed) w d -> l ∉ owed ->
  wp (if_slab (lg_slab l) (ss_dec_ref (lg_slot l))) (fun r w' => (exists o, r = Ok o) /\ repr owed w' d /\ frame (just l) w w') w.
Proof.
  intros HR Hn. apply wp_if_slab.
  - intros Hs. split; [by eexists|]. pose proof (frame_refl (just l) w (r_slabs _ _ _ HR)) as HF. split; [|done].
    apply (repr_step _ _ _ _ _ d _ HR HF); [|intros; by eapply repr_data|apply (r_zero _ _ _ HR)]. intros k Ha.
    enough (owes owed k <= owes (l :: owed) k) by lia. unfold owes. do 2 case_bool_decide; try lia. set_solver.
  - intros s Hs. split; [by eexists|]. assert (attached w l) as Ha by by exists s.
    pose proof (repr_owed _ _ _ l HR ltac:(by left) Ha) as Hr. pose proof Hr as Hr'. rewrite (refs_of _ _ _ Hs) in Hr'.
    destruct (ss_dec_ref_law (lg_slot l) s (r_slabs _ _ _ HR _ _ Hs) Hr') as ([K1 K2 K3] & Hd & Ho).
    set (s' := snd (ss_dec_ref (lg_slot l) s)) in *. pose proof (refs_of _ l _ (slab_put w _ s')) as Er.
    assert (frame (just l) w (put_slab (lg_slab l) s' w)) as HF.
    { apply (frame_put _ _ _ s); try done; [apply (r_slabs _ _ _ HR)|..].
      - intros i Hx. apply Ho. intros ->. apply Hx, leg_eta.
      - intros i p Hx Hi Hp. apply K3; try done. rewrite Ho; [done|]. intros ->. apply Hx, leg_eta. }
    split; [|done]. apply (repr_step _ _ _ _ _ d _ HR HF); [..|apply (r_zero _ _ _ HR)].
    + intros k Hk. destruct (decide (k = l)) as [->|Hne]; [|rewrite (f_refs _ _ _ HF) by done].
      * rewrite Er, (refs_of _ _ _ Hs), (owes_in (l :: owed)), (owes_not owed) by (done || by left). lia.
      * unfold owes. do 2 case_bool_decide; try lia. set_solver.
    + intros v h h' x k p Hv Hv' Hso Hh Hf Hk Hp. rewrite <- (repr_data _ _ _ _ _ _ _ _ _ HR Hv Hso Hh Hf Hk Hp).
      pose proof (repr_range _ _ _ _ _ _ _ _ HR Hv Hh Hk Hp) as Hsz. destruct (decide (k = l)) as [->|Hne].
      * rewrite (byte_of _ _ _ _ (slab_put w _ s')), (byte_of _ _ _ _ Hs). rewrite (size_of _ _ _ Hs) in Hsz. apply K3; try done.
        destruct (r_held _ _ _ HR l Hk) as (L & HL & Hle). rewrite (owes_in (l :: owed)), (refs_of _ _ _ Hs) in Hle by by left.
        specialize (HL _ _ Hh). destruct L as [|a L]; [by apply elem_of_nil in HL|]. unfold zlen in Hle. cbn in Hle. lia.
      * apply (f_bytes _ _ _ HF); [done|by eapply repr_live|done].
Qed.

Lemma quiet_slab {A} l (f : S -> A * S) owed w d : repr owed w d ->
  (forall s, slabs (registry w) !! lg_slab l = Some s -> keeps_all ss_slot_size ss_wf ss_refs ss_byte s (snd (f s))) ->
  wp (if_slab (lg_slab l) f) (fun r w' => repr owed w' d /\ frame nothing w w' /\ exists o, r = Ok o
    /\ o = (fun s => fst (f s)) <$> slabs (registry w) !! lg_slab l) w.
Proof.
  intros HR Hk. apply wp_if_slab.
  - intros E. split; [done|]. split; [apply frame_refl, (r_slabs _ _ _ HR)|]. exists None. by rewrite E.
  - intros s Hs. pose proof (frame_keeps_all w _ s _ (r_slabs _ _ _ HR) Hs (Hk s Hs)) as HF.
    split; [eapply repr_frame; [exact HR|by apply frame_any]|]. split; [done|]. eexists. by rewrite Hs.
Qed.

(** The shares read of each leg are right as long as nobody comes or goes. *)
Definition told (w : world S) (c : Leg * Z * option (VolumeId * Z)) : Prop :=
  snd (fst c) = 0 \/ snd (fst c) = refs w (fst (fst c)).

Lemma release_legs_spec d ls : forall w, NoDup ls -> repr ls w d ->
  (forall l, l ∈ ls -> attached w l -> 0 <= lg_slot l) ->
  wp (release_legs ls) (fun r w' => exists rs, r = Ok rs /\ repr [] w' d /\ frame (among ls) w w'
    /\ forall c, c ∈ rs -> fst (fst c) ∈ ls /\ told w' c) w.
Proof.
  induction ls as [|l ls IH]; intros w Hnd HR Hi.
  { apply twp_ret. exists []. split_and!; [done|done|apply frame_refl, (r_slabs _ _ _ HR)|by intros c ?%elem_of_nil]. }
  apply NoDup_cons in Hnd as [Hn Hnd]. cbn [release_legs].
  eapply wp_seq; [by apply release_one| |by intros f w1 [[o ?] _]]. intros o w1 (_ & HR1 & HF1).
  assert (forall w2, frame (just l) w w2 -> forall k, k ∈ ls -> attached w2 k -> 0 <= lg_slot k) as Hi2.
  { intros w2 HF k Hk. rewrite (attached_frame _ _ _ _ HF). apply Hi. by right. }
  assert (wp (release_legs ls) (fun r w' => exists rs, r = Ok rs /\ repr [] w' d /\ frame (among (l :: ls)) w w'
    /\ forall c, c ∈ rs -> fst (fst c) ∈ l :: ls /\ told w' c) w1) as Hskip.
  { eapply twp_mono; [apply IH; [done|done|by eauto]|]. intros r w2 (rs & -> & HR2 & HF2 & Hrs). exists rs.
    split; [done|]. split; [exact HR2|]. split; [exact (frame_cons _ _ _ _ _ HF1 HF2)|].
    intros c Hc. destruct (Hrs c Hc). split; [by right|done]. }
  destruct o as [[b|e]|]; [|exact Hskip..]. clear Hskip.
  assert (attached w l -> 0 <= lg_slot l) as Hl by (apply Hi; by left).
  assert (forall w2 s, frame (just l) w w2 -> slabs (registry w2) !! lg_slab l = Some s -> 0 <= lg_slot l) as Hl2.
  { intros w2 s HF Hs. apply Hl. rewrite <- (attached_frame _ _ _ _ HF). by exists s. }
  eapply wp_seq; [apply (quiet_slab l _ ls w1 d HR1)| |by intros f w2 (_ & _ & o & ? & _)].
  { intros s Hs. apply ss_shares_law; [by eapply r_slabs|by eapply Hl2]. }
  intros n w2 (HR2 & HF2 & on & [= ->] & En).
  assert (frame (just l) w w2) as HF02 by (eapply frame_trans; [exact HF1|by apply frame_any]).
  eapply wp_seq; [apply (quiet_slab l _ ls w2 d HR2)| |by intros f w3 (_ & _ & o' & ? & _)].
  { intros s Hs. apply ss_owner_law; [by eapply r_slabs|by eapply Hl2]. }
  intros ow w3 (HR3 & HF3 & _).
  assert (frame (just l) w w3) as HF03 by (eapply frame_trans; [exact HF02|by apply frame_any]).
  eapply wp_seq; [apply (IH w3 Hnd HR3 (Hi2 _ HF03))| |by intros f w4 (rs & ? & _)].
  intros rs w4 (rs' & [= <-] & HR4 & HF4 & Hrs). eexists. split; [reflexivity|].
  split; [exact HR4|]. split; [exact (frame_cons _ _ _ _ _ HF03 HF4)|].
  intros c [->|Hc]%elem_of_cons; [|destruct (Hrs c Hc); split; [by right|done]]. split; [by left|]. unfold told. cbn.
  rewrite (f_refs _ _ _ HF4), (frame_refs _ _ _ HF3), (frame_refs _ _ _ HF2) by done. rewrite En.
  destruct (slabs (registry w1) !! lg_slab l) as [s|] eqn:Es; [|by left]. cbn. rewrite (refs_of _ _ _ Es).
  destruct (ss_shares_law (lg_slot l) s (r_slabs _ _ _ HR1 _ _ Es) (Hl2 _ _ HF1 Es)) as [_ Hsh]. exact Hsh.
Qed.

(** ** Counts made to agree *)

Lemma recount_mapped w u tagged l n : cold (gem w) = ∅ -> let w' := set_gem (set_owner_ref u tagged l n (gem w)) w in
  forall v y, mapped w' v y = mapped w v y
    \/ exists loc, mapped w v y = Some loc /\ l ∈ legs loc /\ mapped w' v y = Some (set_refs n loc).
Proof.
  intros Hc w' v y. unfold mapped. cbn. destruct (vols w !! v); [|by left].
  destruct (set_owner_ref_effect (gem w) u tagged l n Hc) as (_ & _ & Hg). exact (Hg v y).
Qed.

(** Counts may be set to anything right: a location counted once has to be held once. *)
Definition sole (w : world S) (v : VolumeId) (y : Z) (loc : ExtentLocation) : Prop :=
  forall k u z, k ∈ legs loc -> holds w u z k -> u = v /\ z = y.
Lemma repr_counts w d g' : repr [] w d -> cold g' = ∅ ->
  (forall v h y, vols w !! v = Some h -> par_at (volumes (gem w)) v y = None -> par_at (volumes g') v y = None) ->
  (forall v y, mapped (set_gem g' w) v y = mapped w v y \/ exists loc n, mapped w v y = Some loc
     /\ mapped (set_gem g' w) v y = Some (set_refs n loc) /\ 1 <= n /\ (n <= 1 -> sole w v y loc)) ->
  repr [] (set_gem g' w) d.
Proof.
  intros HR Hc Hpar Hm. set (w' := set_gem g' w) in *.
  assert (forall v y loc, mapped w' v y = Some loc -> exists loc0, mapped w v y = Some loc0 /\ legs loc = legs loc0 /\ mirrors loc = mirrors loc0
    /\ (loc = loc0 \/ 1 <= ref_count loc /\ (ref_count loc <= 1 -> sole w v y loc0))) as Hback.
  { intros v y loc E. destruct (Hm v y) as [E'|(loc0 & n & E0 & E' & Hn)]; rewrite E in E'.
    - exists loc. split; [done|]. auto.
    - injection E' as ->. exists loc0. split; [done|]. auto. }
  assert (forall v y k, holds w' v y k <-> holds w v y k) as Hh.
  { intros v y k. split.
    - intros (loc & E & Hk). destruct (Hback _ _ _ E) as (loc0 & E0 & El & _). exists loc0. by rewrite <- El.
    - intros (loc & E & Hk). destruct (Hm v y) as [E'|(loc0 & n & E0 & E' & Hn)]; [exists loc; by rewrite E'|].
      rewrite E in E0. injection E0 as <-. by exists (set_refs n loc). }
  constructor.
  - done.
  - apply (r_slabs _ _ _ HR).
  - intros v h Hv. by destruct (r_handle _ _ _ HR v h Hv).
  - intros v h y k Hv. rewrite Hh. by apply (r_size _ _ _ HR).
  - intros v h y loc Hv Hn E. destruct (Hback _ _ _ E) as (loc0 & E0 & _ & -> & _). by eapply (r_single _ _ _ HR).
  - intros v h y Hv. apply (Hpar v h); [done|]. by apply (r_parity _ _ _ HR v h).
  - intros v y loc E. destruct (Hback _ _ _ E) as (loc0 & E0 & _ & _ & [->|[? _]]); [by eapply (r_count _ _ _ HR)|done].
  - intros v y loc E. destruct (Hback _ _ _ E) as (loc0 & E0 & -> & _). by eapply (r_nodup _ _ _ HR).
  - intros v y loc k v2 y2 E Hone Hk. rewrite Hh. intros Hh2. destruct (Hback _ _ _ E) as (loc0 & E0 & El & _ & Hcase).
    rewrite El in Hk. destruct Hcase as [->|[_ Hs]]; [by eapply (r_alone _ _ _ HR)|]. by apply (Hs Hone k).
  - intros v y loc v2 y2 loc2 k E E2. destruct (Hback _ _ _ E) as (loc0 & E0 & -> & _).
    destruct (Hback _ _ _ E2) as (loc3 & E3 & -> & _). by eapply (r_same _ _ _ HR).
  - intros k Hk. destruct (r_held _ _ _ HR k Hk) as (L & HL & Hle). exists L. split; [|done]. intros v y. rewrite Hh. apply HL.
  - intros v h y k p Hv. rewrite Hh. by apply (r_data _ _ _ HR).
  - intros v h y p Hv E. apply (r_zero _ _ _ HR); [done|]. destruct (Hm v y) as [E'|(loc0 & n & _ & E' & _)]; congruence.
Qed.

Lemma repr_recount w d u tagged l n : repr [] w d -> attached w l -> n = refs w l -> 1 <= n ->
  repr [] (set_gem (set_owner_ref u tagged l n (gem w)) w) d.
Proof.
  intros HR Ha -> Hn. pose proof (recount_mapped w u tagged l (refs w l) (r_cold _ _ _ HR)) as Hm.
  destruct (set_owner_ref_effect (gem w) u tagged l (refs w l) (r_cold _ _ _ HR)) as (Hc & Hp & _). apply repr_counts; [done|done| |].
  - intros v h y _. apply Hp.
  - intros v y. destruct (Hm v y) as [E|(loc & E & Hl & E')]; [by left|right]. exists loc, (refs w l). split; [done|]. split; [done|]. split; [done|].
    intros Hone k u2 y2 Hk (loc2 & E2 & Hk2). destruct (r_held _ _ _ HR l Ha) as (L & HL & Hle). pose proof (owes_range [] l).
    assert ((v, y) ∈ L) as Hin1 by (apply HL; by exists loc).
    assert ((u2, y2) ∈ L) as Hin2 by (apply HL; exists loc2; split; [done|]; by apply (r_same _ _ _ HR v y loc u2 y2 loc2 k)).
    unfold zlen in Hle. destruct L as [|a [|b L]]; cbn in Hle; [by apply elem_of_nil in Hin1| |lia].
    apply list_elem_of_singleton in Hin1, Hin2. rewrite <- Hin2 in Hin1. by injection Hin1 as -> ->.
Qed.

(** The maps may count differently; slabs, handles and disks are as they were. *)
Record recounted (w w' : world S) : Prop := {
  rc_registry : registry w' = registry w;
  rc_vols : vols w' = vols w;
  rc_targets : targets w' = targets w }.
Lemma sync_refs_spec d rs : forall w, repr [] w d -> (forall c, c ∈ rs -> told w c) ->
  wp (sync_refs rs) (fun r w' => r = Ok () /\ repr [] w' d /\ recounted w w') w.
Proof.
  induction rs as [|[[l n] o] rs IH]; intros w HR Ht; [by apply twp_ret|]. unfold sync_refs. cbn [for_each].
  apply (wp_seq _ _ (fun r w' => r = Ok () /\ repr [] w' d /\ recounted w w')); [|..|by intros f w' [? _]].
  - unfold sync_ref. destruct (Z.eqb_spec n 0) as [->|Hn]; [by apply twp_ret|]. destruct o as [[u tagged]|]; [|by apply twp_ret].
    destruct (Ht (l, n, Some (u, tagged)) ltac:(by left)) as [|E]; [done|]. cbn in E. split; [done|]. split; [|done].
    cbn [modify snd]. pose proof (refs_nonneg_w w l (r_slabs _ _ _ HR)). apply repr_recount; [done| |done|lia]. apply refs_attached. lia.
  - intros [] w1 (_ & HR1 & [R1 R2 R3]). eapply twp_mono; [apply (IH w1 HR1)|].
    + intros c Hc. specialize (Ht c ltac:(by right)). unfold told, refs in *. by rewrite R1.
    + intros r w2 (-> & HR2 & [T1 T2 T3]). split; [done|]. split; [done|]. constructor; congruence.
Qed.
End repr.
