(* ===== verification/ThinOps.v ===== *)
(** What the requests of a volume do to the disk it stands for: reads, writes in place,
    writes to fresh slots, copies of what is shared, extents let go of and moved. *)

From Stdlib Require Import String.
From stdpp Require Import strings.
From S2P Require Import Prelude SlabFormat GemData ExtMap Gem GemProofs Redundancy SlotStore Registry Thin ThinInv ThinAlloc ThinRepr.
#[local] Open Scope Z_scope.

Section ops.
Context {S : Type} `{SlotStoreLaws S} (load : VolumeId -> option VolumeExtentMap) (pp : ParityPath S).

(** ** Handles *)

Definition softened (w w' : world S) : Prop := forall v, option_Forall2 softer (vols w !! v) (vols w' !! v).
#[local] Instance softened_po : PreOrder softened.
Proof using Type.
  split.
  - intros w v. destruct (vols w !! v); by constructor.
  - intros a b c Hab Hbc v. specialize (Hab v). specialize (Hbc v). destruct Hab as [h h1 Ha|]; inversion Hbc as [? h2 Hb|]; subst; constructor.
    by etransitivity.
Qed.
Lemma softened_frame X w w' : frame X w w' -> softened w w'.
Proof using Type. intros HF. intros v; apply (f_vols _ _ _ HF). Qed.
Lemma softened_handle w w' v h : softened w w' -> vols w !! v = Some h -> exists h', vols w' !! v = Some h' /\ softer h h'.
Proof using Type. intros Hs Hh. specialize (Hs v). rewrite Hh in Hs. inversion Hs as [? h1 Hso E1 E2|]; subst. by exists h1. Qed.

Lemma wp_handle {B} v h (k : Volume -> M S B) Q (w : world S) : vols w !! v = Some h -> wp (k h) Q w -> wp (bind (handle v) k) Q w.
Proof using Type. intros Hh Hk. apply twp_bind. unfold wp at 1, handle. by rewrite Hh. Qed.
Lemma twp_gets {A B} (f : world S -> A) (k : A -> M S B) Q w : wp (k (f w)) Q w -> wp (bind (gets f) k) Q w.
Proof using Type. done. Qed.
Lemma wp_lookup {B} v h x (k : option ExtentLocation -> M S B) Q (w : world S) : cold (gem w) = ∅ -> vols w !! v = Some h ->
  wp (k (mapped w v x)) Q w -> wp (bind (fenced_lookup v x) k) Q w.
Proof using Type.
  intros Hc Hh. rewrite (mapped_handle _ _ _ _ Hh). intros Hk. apply twp_bind. unfold wp at 1, fenced_lookup, of_gem, on_gem. rewrite lookup_in_memory by done. cbn [rbind fst snd].
  by destruct w.
Qed.

Lemma repr_ext owed w d d' : repr owed w d -> (forall u q, d' u q = d u q) -> repr owed w d'.
Proof using Type. intros [] He. constructor; try done; intros; rewrite He; eauto. Qed.
Lemma with_extent_same d v slot x u q c : (forall p, 0 <= p < slot -> c p = d v (x * slot + p)) -> with_extent d v slot x c u q = d u q.
Proof using Type. intros Hc. unfold with_extent. case_decide as E; [|done]. destruct E as [-> Hq]. rewrite Hc by nia. f_equal. lia. Qed.

(** ** Reads *)

(** What [v] has from the start of extent [x]. *)
Definition view (d : VolumeId -> Z -> Z) (v : VolumeId) (slot x : Z) : Z -> Z := fun p => d v (x * slot + p).

Lemma usable_reads w d v h x loc off n b l : repr [] w d -> vols w !! v = Some h -> mapped w v x = Some loc -> 0 <= off -> off + n <= vslot h ->
  l ∈ usable_legs h loc x -> attached w l -> zlen b = n -> shows (byte w l) off b -> shows (view d v (vslot h) x) off b.
Proof using Type.
  intros HR Hh Hm Ho Hle Hl Ha Hn Hs. destruct (usable_in _ _ _ _ Hl) as [Hl1 Hl2]. eapply shows_ext; [|exact Hs].
  intros p Hp. apply (r_data _ _ _ HR); try done; [by exists loc|lia].
Qed.
Lemma read_legs_usable w d v h x loc off n last : repr [] w d -> vols w !! v = Some h -> mapped w v x = Some loc -> 0 <= off -> 0 <= n ->
  off + n <= vslot h ->
  wp (read_legs v (usable_legs h loc x) off n last) (fun r w' => frame nothing w w'
    /\ forall b, r = Ok (Ok b) -> zlen b = n /\ shows (view d v (vslot h) x) off b) w.
Proof using Type.
  intros HR Hh Hm Ho Hn Hle. eapply twp_mono; [apply read_legs_spec; [apply HR|]|].
  - intros l Hl. apply usable_in in Hl as [Hl _]. by eapply repr_usable.
  - intros r w' [HF Hb]. split; [done|]. intros b E. destruct (Hb b E) as (l & Hl & Ha & Hz & Hs). split; [done|].
    by eapply usable_reads.
Qed.
Lemma read_extent_spec w d v h x loc off n : repr [] w d -> vols w !! v = Some h -> mapped w v x = Some loc -> 0 <= off -> 0 <= n ->
  off + n <= vslot h ->
  wp (read_extent pp v x loc off n) (fun r w' => frame nothing w w'
    /\ forall b, r = Ok b -> zlen b = n /\ shows (view d v (vslot h) x) off b) w.
Proof using Type.
  intros HR Hh Hm Ho Hn Hle. unfold read_extent. apply (wp_handle _ _ _ _ _ Hh).
  eapply wp_seq; [by eapply read_legs_usable| |by intros f w1 [HF _]]. intros [b|last] w1 [HF Hb]; [by apply twp_ret; split; [|by intros b' [= <-]; apply Hb]|].
  destruct (handle_frame _ _ _ _ _ HF Hh) as (h1 & Hh1 & Hso). apply (wp_handle _ _ _ _ _ Hh1).
  by rewrite (so_policy _ _ Hso), (ho_scheme _ _ (r_handle _ _ _ HR v h Hh)).
Qed.
Lemma read_full_spec w d v h x loc : repr [] w d -> vols w !! v = Some h -> mapped w v x = Some loc ->
  wp (read_full v x loc) (fun r w' => frame nothing w w'
    /\ forall b, r = Ok (Some b) -> zlen b = vslot h /\ shows (view d v (vslot h) x) 0 b) w.
Proof using Type.
  intros HR Hh Hm. pose proof (ho_slot _ _ (r_handle _ _ _ HR v h Hh)). unfold read_full. apply (wp_handle _ _ _ _ _ Hh).
  eapply wp_seq; [apply (read_legs_usable w d v h); [done..|lia|lia|lia]| |by intros f w1 [HF _]].
  intros [b|last] w1 [HF Hb]; apply twp_ret; (split; [done|]); [|done]. intros b' [= <-]. by apply Hb.
Qed.

(** ** Writes in place *)

(** What became of a write of [buf] into extent [x]: on an error the range may have anything. *)
Definition wrote_extent (d : VolumeId -> Z -> Z) (v : VolumeId) (slot x off : Z) (buf : bytes) (r : result fault ()) (w' : world S) : Prop :=
  exists c, repr [] w' (with_extent d v slot x c)
  /\ (forall p, 0 <= p < slot -> p < off \/ off + zlen buf <= p -> c p = view d v slot x p)
  /\ forall u, r = Ok u -> forall p, off <= p < off + zlen buf -> c p = at_ buf (p - off).

Lemma usable_all h loc x l : l ∈ legs loc -> lg_slab l ∉ failed h -> l ∈ usable_legs h loc x.
Proof using Type.
  intros Hl Hf. unfold usable_legs. set (ls := filter _ (legs loc)).
  assert (l ∈ ls) as Hin by (apply list_elem_of_filter; split; [by apply bool_decide_eq_false|done]).
  destruct (1 <? zlen ls); [|done]. rewrite <- (take_drop (Z.to_nat (x mod zlen ls)) ls) in Hin. rewrite elem_of_app in *. tauto.
Qed.
Lemma usable_nodup h loc x : NoDup (legs loc) -> NoDup (usable_legs h loc x).
Proof using Type.
  intros Hn. unfold usable_legs. set (ls := filter _ (legs loc)). assert (NoDup ls) as Hls by by apply NoDup_filter.
  destruct (1 <? zlen ls); [|done]. rewrite <- (take_drop (Z.to_nat (x mod zlen ls)) ls) in Hls.
  by rewrite Permutation_app_comm.
Qed.
Lemma one_result {A} (rs : list (Leg * result DriveError A)) l a b : NoDup (map fst rs) -> (l, a) ∈ rs -> (l, b) ∈ rs -> a = b.
Proof using Type.
  intros Hn [i Hi]%list_elem_of_lookup [j Hj]%list_elem_of_lookup.
  assert (i = j) as ->; [|rewrite Hi in Hj; by injection Hj].
  apply (NoDup_lookup _ _ _ l Hn); rewrite list_lookup_fmap; [by rewrite Hi|by rewrite Hj].
Qed.

(** Who took the write, and who did not and is trusted still: the only copy, at most. *)
Lemma write_verdict ls a n c rs (w w1 w2 : world S) v h h2 loc x l : NoDup (legs loc) -> ls = usable_legs h loc x ->
  joined ls a n c (fun e => is_media_failure e || is_transport e = true) rs w w1 ->
  (is_none (policy h) = true -> mirrors loc = []) -> frame nothing w1 w2 -> vols w2 !! v = Some h2 -> softer h h2 ->
  (forall l e, (l, e) ∈ errors rs -> distrusts (policy h) e = true -> lg_slab l ∈ failed h2) ->
  l ∈ legs loc -> lg_slab l ∉ failed h2 ->
  (0 < refs w l /\ l ∈ succeeded rs /\ forall p, a <= p < a + n -> byte w1 l p = c p) \/ (legs loc = [l] /\ succeeded rs = []).
Proof using Type.
  intros Hn -> HJ Hone HF Hh2 Hso Hd Hl Hf.
  assert (lg_slab l ∉ failed h) as Hf0 by (intros Hin; by apply Hf, (so_failed _ _ Hso)).
  pose proof (usable_all h loc x l Hl Hf0) as Hu. rewrite <- (jn_legs _ _ _ _ _ _ _ _ HJ) in Hu.
  destruct (succeeded_or rs l Hu) as [Hs|[e He]].
  - left. pose proof Hs as Hs'. apply elem_of_succeeded in Hs as [u Hs]. destruct (jn_good _ _ _ _ _ _ _ _ HJ l u Hs). auto.
  - right. pose proof He as He'. apply elem_of_errors in He'. pose proof (jn_bad _ _ _ _ _ _ _ _ HJ l e He') as HB.
    assert (distrusts (policy h) e = false) as Hdf by (destruct (distrusts (policy h) e) eqn:E; [exfalso; by eapply Hf, Hd|done]).
    assert (mirrors loc = []) as Hm.
    { apply Hone. unfold distrusts in Hdf. cbn beta in HB. destruct (is_transport e), (is_none (policy h)), (is_media_failure e); cbn in *; congruence. }
    assert (legs loc = [primary loc]) as El by (unfold legs; by rewrite Hm). rewrite El in Hl. apply list_elem_of_singleton in Hl as ->. split; [done|].
    destruct (succeeded rs) as [|k ks] eqn:Es; [done|exfalso]. assert (k ∈ succeeded rs) as Hk by (rewrite Es; by left).
    apply elem_of_succeeded in Hk as [u Hk]. assert (NoDup (map fst rs)) as Hnd by (rewrite (jn_legs _ _ _ _ _ _ _ _ HJ); by apply usable_nodup).
    assert (k = primary loc) as ->; [|by pose proof (one_result _ _ _ _ Hnd Hk He')].
    assert (k ∈ legs loc) as Hkl; [|rewrite El in Hkl; by apply list_elem_of_singleton in Hkl].
    apply (usable_in h loc x). rewrite <- (jn_legs _ _ _ _ _ _ _ _ HJ). apply list_elem_of_fmap. by exists (k, Ok u).
Qed.

Lemma write_leg_joins off buf l w : wf_slabs w -> usable w l off (zlen buf) ->
  wp (write_leg l off buf) (fun r w' => wrote l off (zlen buf) w w' /\ match r with
     | Ok _ => 0 < refs w l /\ forall p, off <= p < off + zlen buf -> byte w' l p = at_ buf (p - off)
     | Err f => exists e, f = Failed e /\ is_media_failure e || is_transport e = true end) w.
Proof using Type.
  intros Hw Hu. eapply twp_mono; [by apply write_leg_spec|]. intros [u|f] w1 [HW Hx]; (split; [done|]); [|done].
  destruct Hx as [Hr Hs]. split; [done|]. intros p Hp. symmetry. by apply Hs.
Qed.

Lemma write_legs_spec w d v h x loc off buf : repr [] w d -> vols w !! v = Some h -> mapped w v x = Some loc -> ref_count loc <= 1 ->
  0 <= off -> off + zlen buf <= vslot h ->
  wp (write_legs v x loc off buf) (fun r w' => wrote_extent d v (vslot h) x off buf r w' /\ softened w w') w.
Proof using Type.
  intros HR Hh Hm Hone Ho Hle. pose proof (zlen_nonneg buf) as Hz. unfold write_legs. apply (wp_handle _ _ _ _ _ Hh).
  set (ls := usable_legs h loc x). pose proof (r_slabs _ _ _ HR) as Hw. pose proof (r_nodup _ _ _ HR v x loc Hm) as Hnd.
  assert (forall P : result fault () -> Prop, wp (fail (S := S) DOther) (fun r w' => wrote_extent d v (vslot h) x off buf r w' /\ softened w w') w) as Hfail.
  { intros _. split; [|by cbn]. exists (view d v (vslot h) x). split; [|by split]. eapply repr_ext; [exact HR|].
    intros u q. by apply with_extent_same. }
  destruct ls as [|l0 ls0] eqn:Els; [by apply (Hfail (fun _ => True))|]. rewrite <- Els. clear Hfail.
  eapply wp_seq; [apply (join_all_spec _ off (zlen buf) (fun p => at_ buf (p - off)) (fun e => is_media_failure e || is_transport e = true))| |].
  { intros l w0 Hw0 Hu. by apply write_leg_joins. }
  { done. }
  { by apply usable_nodup. }
  { intros l [Hl _]%usable_in. by eapply repr_usable. }
  2: { by intros f w1 (rs & ? & _). }
  intros rs w1 (rs' & [= <-] & HJ). pose proof (jn_frame _ _ _ _ _ _ _ _ HJ) as HF1.
  destruct (handle_frame _ _ _ _ _ HF1 Hh) as (h1 & Hh1 & Hso1).
  eapply wp_seq; [apply (mark_all_spec v (errors rs) w1 h1); [apply HF1|done]| |by intros f w2 [? _]].
  intros [] w2 (_ & HF2 & h2 & Hh2 & Hso2 & Hd). assert (softer h h2) as Hso by by etransitivity.
  rewrite (so_policy _ _ Hso1) in Hd.
  assert (frame (among (legs loc)) w w2) as HF.
  { eapply frame_trans; [|by apply frame_any]. eapply frame_mono; [exact HF1|]. intros k Hk. by apply usable_in in Hk as [? _]. }
  assert (forall r, (forall u, r = Ok u -> succeeded rs <> []) -> (forall f, r = Err f -> succeeded rs = []) -> wrote_extent d v (vslot h) x off buf r w2 /\ softened w w2) as Hpost.
  { intros r HOk HErr. split; [|by apply (softened_frame _ _ _ HF)].
    set (c := fun p => if (off <=? p) && (p <? off + zlen buf) then match r with Ok _ => at_ buf (p - off) | Err _ => byte w2 (primary loc) p end
                       else view d v (vslot h) x p).
    exists c. split; [|split].
    - apply (repr_in_place [] w w2 d v h x loc c HR Hh Hm Hone HF).
      { intros l. rewrite (frame_refs _ _ _ HF2). apply (jn_refs _ _ _ _ _ _ _ _ HJ). }
      intros l h2' p Hl Hh2' Hf Ha Hp. rewrite Hh2 in Hh2'. injection Hh2' as <-.
      assert (holds w v x l) as Hhold by by exists loc. pose proof (repr_live _ _ _ _ _ _ HR Hhold Ha) as Hlive.
      assert (lg_slab l ∉ failed h) as Hf0 by (intros Hin; by apply Hf, (so_failed _ _ Hso)).
      pose proof (repr_range _ _ _ _ _ _ _ _ HR Hh Hhold Ha Hp) as Hsz. unfold c.
      assert (byte w2 l p = byte w1 l p) as E2.
      { apply (frame_bytes _ _ _ _ HF2); [by rewrite (jn_refs _ _ _ _ _ _ _ _ HJ)|by rewrite (f_size _ _ _ HF1)]. }
      destruct ((off <=? p) && (p <? off + zlen buf)) eqn:Ein.
      + destruct (write_verdict ls off (zlen buf) (fun p => at_ buf (p - off)) rs w w1 w2 v h h2 loc x l) as [(_ & Hs & Hb)|[El Es]]; try done.
        * intros Hpn. by apply (r_single _ _ _ HR v h x).
        * destruct r as [u|f]; [rewrite E2; apply Hb; lia|]. by rewrite (HErr f eq_refl) in Hs; apply elem_of_nil in Hs.
        * destruct r as [u|f]; [by destruct (HOk u eq_refl)|]. unfold legs in El. by injection El as ->.
      + rewrite E2. rewrite (jn_out _ _ _ _ _ _ _ _ HJ) by (done || lia). by apply (r_data _ _ _ HR).
    - intros p Hp Hout. unfold c. destruct ((off <=? p) && (p <? off + zlen buf)) eqn:E; [lia|done].
    - intros u -> p Hp. unfold c. destruct ((off <=? p) && (p <? off + zlen buf)) eqn:E; [done|lia]. }
  destruct (succeeded rs) as [|k ks] eqn:Es; [|by apply twp_ret, Hpost; [by intros _ _|]].
  destruct (last (errors rs)) as [[k e]|] eqn:Ee; [by apply Hpost|exfalso].
  apply last_None in Ee. assert (l0 ∈ map fst rs) as Hin by (rewrite (jn_legs _ _ _ _ _ _ _ _ HJ), Els; by left).
  destruct (succeeded_or rs l0 Hin) as [Hs|[e He]]; [rewrite Es in Hs|rewrite Ee in He]; by apply elem_of_nil in Hs || by apply elem_of_nil in He.
Qed.

(** ** Fresh slots *)

(** Slots of a volume's, just allocated. *)
Record handed (h : Volume) (ls : list Leg) (w w1 : world S) : Prop := {
  hd_frame : frame (among ls) w w1;
  hd_nodup : NoDup ls;
  hd_was l : l ∈ ls -> refs w l = 0;
  hd_now l : l ∈ ls -> refs w1 l = 1;
  hd_size l : l ∈ ls -> size_at w l = vslot h }.
Lemma handed_one h ap rung w w1 l : got (chosen h ap rung w) w (Ok l) w1 -> handed h [l] w w1.
Proof using Type.
  intros (HF & Hr0 & Hr1 & Hch). constructor; [|apply NoDup_singleton|by intros k ->%list_elem_of_singleton..|].
  - eapply frame_mono; [exact HF|]. intros k ->. by apply list_elem_of_singleton.
  - intros k ->%list_elem_of_singleton. apply Hch.
Qed.
Lemma handed_placed h rung ls w w1 : placed h rung ls w w1 -> handed h ls w w1.
Proof using Type. by intros []. Qed.
Lemma handed_usable h ls w w1 l : handed h ls w w1 -> l ∈ ls -> 0 < vslot h -> usable w1 l 0 (vslot h).
Proof using Type.
  intros HH Hl Hz. split_and!; [done|lia|]. intros _. rewrite (hd_now _ _ _ _ HH l Hl), (f_size _ _ _ (hd_frame _ _ _ _ HH)), (hd_size _ _ _ _ HH l Hl). lia.
Qed.
Lemma handed_quiet h ls w w0 w1 : frame nothing w w0 -> handed h ls w0 w1 -> handed h ls w w1.
Proof using Type.
  intros HF [A1 A2 A3 A4 A5]. constructor; try done.
  - eapply frame_trans; [by apply frame_any|done].
  - intros l Hl. rewrite <- (frame_refs _ _ _ HF). auto.
  - intros l Hl. rewrite <- (f_size _ _ _ HF). auto.
Qed.

(** Slots handed out that have all of an extent. *)
Record stored (h : Volume) (good : list Leg) (c : Z -> Z) (w w4 : world S) : Prop := {
  sd_frame : frame (spare w) w w4;
  sd_nodup : NoDup good;
  sd_was l : l ∈ good -> refs w l = 0;
  sd_now l : l ∈ good -> refs w4 l = 1;
  sd_size l : l ∈ good -> size_at w l = vslot h;
  sd_bytes l p : l ∈ good -> 0 <= p < vslot h -> byte w4 l p = c p }.

Lemma handed_spare h ls (Y : Leg -> Prop) w w1 w2 : handed h ls w w1 -> frame Y w1 w2 -> (forall l, Y l -> l ∈ ls) -> frame (spare w) w w2.
Proof using Type.
  intros HH HF HY. assert (forall l, l ∈ ls -> spare w l) as Hs by (intros l; apply HH).
  apply (frame_step _ _ _ _ _ _ (hd_frame _ _ _ _ HH) HF); [done|auto].
Qed.
Lemma give_back_errors h ls c B rs w w1 w2 w3 : handed h ls w w1 -> joined ls 0 (vslot h) c B rs w1 w2 -> frame nothing w2 w3 ->
  wp (give_back (map fst (errors rs))) (fun r w4 => r = Ok () /\ stored h (succeeded rs) c w w4) w3.
Proof using Type.
  intros HH HJ HF3. pose proof (jn_legs _ _ _ _ _ _ _ _ HJ) as El. pose proof (hd_nodup _ _ _ _ HH) as Hnd. rewrite <- El in Hnd.
  assert (forall l, l ∈ map fst (errors rs) -> l ∈ ls) as He by (intros l; rewrite <- El; apply sublist_subseteq, errors_sublist).
  assert (forall l, l ∈ succeeded rs -> l ∈ ls) as Hs by (intros l; rewrite <- El; apply sublist_subseteq, succeeded_sublist).
  assert (forall l, l ∈ ls -> refs w3 l = 1) as Hr3.
  { intros l Hl. rewrite (frame_refs _ _ _ HF3), (jn_refs _ _ _ _ _ _ _ _ HJ). by apply (hd_now _ _ _ _ HH). }
  eapply twp_mono; [apply slots_given_back; [apply HF3| |]|].
  - eapply sublist_NoDup; [exact Hnd|apply errors_sublist].
  - intros l Hl _. rewrite Hr3; [lia|auto].
  - intros r w4 [-> HF4]. split; [done|].
    assert (forall l, l ∈ succeeded rs -> ~ among (map fst (errors rs)) l) as Hapart.
    { intros l Hl ([k e] & -> & Hk)%list_elem_of_fmap. apply elem_of_succeeded in Hl as [u Hl]. apply elem_of_errors in Hk.
      by pose proof (one_result _ _ _ _ Hnd Hl Hk). }
    assert (frame (among ls) w1 w4) as HF14.
    { eapply frame_trans; [apply (jn_frame _ _ _ _ _ _ _ _ HJ)|]. eapply frame_trans; [by apply frame_any|]. by eapply frame_mono. }
    constructor.
    + by eapply handed_spare.
    + by apply succeeded_nodup.
    + intros l Hl. apply (hd_was _ _ _ _ HH). auto.
    + intros l Hl. rewrite (f_refs _ _ _ HF4) by auto. auto.
    + intros l Hl. apply (hd_size _ _ _ _ HH). auto.
    + intros l p Hl Hp. assert (size_at w3 l = vslot h) as Hsz.
      { rewrite (f_size _ _ _ HF3), (f_size _ _ _ (jn_frame _ _ _ _ _ _ _ _ HJ)), (f_size _ _ _ (hd_frame _ _ _ _ HH)).
        apply (hd_size _ _ _ _ HH). auto. }
      rewrite (f_bytes _ _ _ HF4) by (rewrite ?Hr3; auto; lia).
      rewrite (frame_bytes _ _ _ _ HF3) by (rewrite <- ?(frame_refs _ _ _ HF3), <- ?(f_size _ _ _ HF3), ?Hr3, ?Hsz; auto; lia).
      apply elem_of_succeeded in Hl as [u Hl]. by apply (jn_good _ _ _ _ _ _ _ _ HJ l u Hl).
Qed.
Lemma give_back_all h ls c B rs w w1 w2 w3 : handed h ls w w1 -> joined ls 0 (vslot h) c B rs w1 w2 -> frame nothing w2 w3 ->
  wp (give_back ls) (fun r w4 => r = Ok () /\ frame (spare w) w w4) w3.
Proof using Type.
  intros HH HJ HF3. eapply twp_mono; [apply slots_given_back; [apply HF3|apply HH|]|].
  - intros l Hl _. rewrite (frame_refs _ _ _ HF3), (jn_refs _ _ _ _ _ _ _ _ HJ), (hd_now _ _ _ _ HH l Hl). lia.
  - intros r w4 [-> HF4]. split; [done|]. apply (handed_spare h ls (among ls) w w1 w4 HH); [|done].
    eapply frame_trans; [apply (jn_frame _ _ _ _ _ _ _ _ HJ)|]. eapply frame_trans; [by apply frame_any|done].
Qed.

Lemma location_of_legs ls g loc : location_of ls g = Some loc -> legs loc = ls.
Proof using Type. destruct ls as [|[] ls]; [done|]. cbn. by intros [= <-]. Qed.

Lemma location_of_count ls g loc : location_of ls g = Some loc -> ref_count loc = 1.
Proof using Type. destruct ls as [|[] ls]; [done|]. cbn. by intros [= <-]. Qed.

(** The extent mapped to them. *)
Lemma map_extent_spec d w w4 v h x good c g loc : repr [] w d -> vols w !! v = Some h -> stored h good c w w4 -> location_of good g = Some loc ->
  (is_none (policy h) = true -> exists l, good = [l]) ->
  wp (map_extent v x loc) (fun r w5 => r = Ok () /\ repr (legs_of (mapped w v x)) w5 (with_extent d v (vslot h) x c) /\ softened w w5) w4.
Proof using Type.
  intros HR Hh HS Hloc Hone. pose proof (sd_frame _ _ _ _ _ HS) as HF. pose proof (repr_frame _ _ _ _ HR HF) as HR4.
  destruct (handle_frame _ _ _ _ _ HF Hh) as (h4 & Hh4 & Hso). pose proof (location_of_legs _ _ _ Hloc) as El.
  destruct (insert_effect (gem w4) v x loc (r_cold _ _ _ HR4)) as (g' & Eg & Hc & Hg & Hpar).
  unfold wp, map_extent, put_gem, on_gem. rewrite Eg. cbn [rbind fst snd]. split; [done|]. split; [|apply (softened_frame _ _ _ HF)].
  rewrite <- (mapped_frame _ _ _ v x HF), <- (so_slot _ _ Hso). apply (repr_remap w4 d v h4 x g' (Some loc) c HR4 Hh4 Hc Hg Hpar).
  constructor; rewrite ?El, ?(so_slot _ _ Hso), ?(so_policy _ _ Hso).
  - by rewrite (location_of_count _ _ _ Hloc).
  - apply HS.
  - intros Hp. destruct (Hone Hp) as [l ->]. unfold legs in El. by injection El.
  - intros l Hl. rewrite (sd_now _ _ _ _ _ HS l Hl). lia.
  - intros l Hl. rewrite (f_size _ _ _ HF). by apply (sd_size _ _ _ _ _ HS).
  - intros l u y Hl Hh'. rewrite (holds_frame _ _ _ _ _ _ HF) in Hh'.
    assert (attached w l) as Ha. { rewrite <- (attached_frame _ _ _ _ HF). apply refs_attached. rewrite (sd_now _ _ _ _ _ HS l Hl). lia. }
    pose proof (repr_live _ _ _ _ _ _ HR Hh' Ha) as Hlive. rewrite (sd_was _ _ _ _ _ HS l Hl) in Hlive. lia.
  - intros l p Hl _. by apply (sd_bytes _ _ _ _ _ HS).
Qed.

(** And what it had given back. *)
Lemma legs_settle_spec d w ls : NoDup ls -> repr ls w d ->
  wp (bind (release_legs ls) sync_refs) (fun r w' => r = Ok () /\ repr [] w' d /\ softened w w') w.
Proof using Type.
  intros Hnd HR. eapply wp_seq; [apply (release_legs_spec d ls w Hnd HR)| |by intros f w1 (rs & ? & _)].
  - intros l Hl Ha. pose proof (repr_owed _ _ _ l HR Hl Ha) as Hr. destruct Ha as [s Hs]. rewrite (refs_of _ _ _ Hs) in Hr.
    by eapply ss_held_index; [eapply r_slabs|].
  - intros rs w1 (rs' & [= <-] & HR1 & HF1 & Hrs). eapply twp_mono; [apply (sync_refs_spec d rs w1 HR1)|].
    + intros c Hc. by apply Hrs.
    + intros r w2 (-> & HR2 & [_ Hv _]). split; [done|]. split; [done|]. intros u. rewrite Hv. apply (f_vols _ _ _ HF1).
Qed.
Lemma commit_repr d owed w ls : repr owed w d -> wp (commit_legs ls) (fun r w' => r = Ok () /\ repr owed w' d /\ softened w w') w.
Proof using Type.
  intros HR. eapply twp_mono; [apply commit_legs_spec, (r_slabs _ _ _ HR)|]. intros r w1 [-> HF]. split; [done|]. split.
  - eapply repr_frame; [done|by apply frame_any].
  - apply (softened_frame _ _ _ HF).
Qed.
Lemma repr_spare w w' d v slot x off buf r : repr [] w d -> frame (spare w) w w' -> (forall u, r <> Ok u) ->
  wrote_extent d v slot x off buf r w' /\ softened w w'.
Proof using Type.
  intros HR HF Hr. split; [|by apply (softened_frame _ _ _ HF)]. exists (view d v slot x). split; [|split; [done|by intros u ?%Hr]].
  eapply repr_ext; [by eapply repr_frame|]. intros u q. by apply with_extent_same.
Qed.

(** ** Writes to fresh slots *)

Lemma alloc_slot_handed v x g h w : wf_slabs w -> vols w !! v = Some h -> handle_ok w h ->
  wp (allocate_slot v x g) (fun r w1 => match r with Ok l => handed h [l] w w1 | Err _ => frame (spare w) w w1 end) w.
Proof using Type.
  intros Hw Hh [Hz _ _ Hp]. eapply twp_mono; [by apply (allocate_slot_spec v x g h)|]. intros [l|f] w1 HG; [by eapply handed_one|].
  by apply frame_any.
Qed.
Lemma alloc_legs_handed v x g h w : wf_slabs w -> vols w !! v = Some h -> handle_ok w h ->
  wp (allocate_legs v x (policy h) g) (fun r w1 => match r with Ok ls => handed h ls w w1 | Err _ => frame (spare w) w w1 end) w.
Proof using Type.
  intros Hw Hh [Hz _ _ Hp]. eapply twp_mono; [by apply (allocate_legs_spec v x _ g h)|]. intros [l|f] w1 HG; [|done].
  destruct HG as [HP _]. by eapply handed_placed.
Qed.
(** What [cow_write] allocates. *)
Lemma alloc_any_handed v x g h w : wf_slabs w -> vols w !! v = Some h -> handle_ok w h ->
  wp (if is_none (policy h) then bind (allocate_slot v x g) (fun l => ret [l]) else allocate_legs v x (policy h) g)
    (fun r w1 => match r with
      | Ok ls => handed h ls w w1 /\ (is_none (policy h) = true -> exists l, ls = [l])
      | Err _ => frame (spare w) w w1 end) w.
Proof using Type.
  intros Hw Hh Ho. destruct (is_none (policy h)).
  - eapply wp_seq; [by apply alloc_slot_handed| |done]. intros l w1 HH. apply twp_ret. split; [done|]. by exists l.
  - eapply twp_mono; [by apply alloc_legs_handed|]. by intros [ls|f] w1 HH.
Qed.

Lemma stored_one h l c w w1 w2 : handed h [l] w w1 -> wrote l 0 (vslot h) w1 w2 -> (forall p, 0 <= p < vslot h -> byte w2 l p = c p) ->
  stored h [l] c w w2.
Proof using Type.
  intros HH HW Hc. constructor; try (by intros k ->%list_elem_of_singleton; auto; apply HH; left).
  - apply (handed_spare h [l] (just l) w w1 w2 HH (wt_frame _ _ _ _ _ HW)). intros k ->. by left.
  - apply HH.
  - intros k ->%list_elem_of_singleton. rewrite (wt_refs _ _ _ _ _ HW). apply HH. by left.
  - intros k p ->%list_elem_of_singleton. apply Hc.
Qed.
Lemma succeeded_one rs (l : Leg) l0 ls : map fst rs = [l] -> succeeded rs = l0 :: ls -> exists k : Leg, succeeded (A := ()) rs = [k].
Proof using Type.
  intros E Es. pose proof (succeeded_sublist rs) as Hs. rewrite E, Es in Hs. apply sublist_length in Hs. cbn in Hs.
  destruct ls; [by exists l0|cbn in Hs; lia].
Qed.

Definition fresh_bytes (slot off : Z) (buf : bytes) : Z -> Z := at_ (overlay off buf (zeros slot)).
Lemma wrote_fresh d v slot x off buf w' : 0 <= off -> off + zlen buf <= slot -> (forall p, 0 <= p < slot -> d v (x * slot + p) = 0) ->
  repr [] w' (with_extent d v slot x (fresh_bytes slot off buf)) -> wrote_extent d v slot x off buf (Ok ()) w'.
Proof using Type.
  intros Ho Hle Hd HR. pose proof (zlen_nonneg buf). exists (fresh_bytes slot off buf). unfold fresh_bytes in *. split; [done|]. split.
  - intros p Hp Hout. rewrite at_overlay by (rewrite ?zlen_zeros; lia). unfold view. rewrite chunk_zeros, Hd by done.
    destruct (Z.leb_spec off p), (Z.ltb_spec p (off + zlen buf)); cbn [andb]; (lia || done).
  - intros u _ p Hp. rewrite at_overlay by (rewrite ?zlen_zeros; lia).
    destruct (Z.leb_spec off p), (Z.ltb_spec p (off + zlen buf)); cbn [andb]; (lia || done).
Qed.
Lemma write_fresh_joins slot off buf l w : 0 <= off -> off + zlen buf <= slot -> wf_slabs w -> usable w l 0 slot ->
  wp (write_fresh slot l off buf) (fun r w' => wrote l 0 slot w w' /\ match r with
     | Ok _ => 0 < refs w l /\ forall p, 0 <= p < 0 + slot -> byte w' l p = fresh_bytes slot off buf p
     | Err f => exists e, f = Failed e /\ True end) w.
Proof using Type.
  intros Ho Hle Hw Hu. eapply twp_mono; [by apply write_fresh_spec|]. intros [u|f] w1 [HW Hx]; (split; [done|]); [|destruct Hx as [e ->]; by exists e].
  destruct Hx as [Hr Hs]. split; [done|]. intros p Hp. apply Hs. lia.
Qed.

Lemma allocate_and_write_spec w d v h x off buf : repr [] w d -> vols w !! v = Some h -> mapped w v x = None -> 0 <= x ->
  0 <= off -> off + zlen buf <= vslot h ->
  wp (allocate_and_write v x off buf (policy h)) (fun r w' => wrote_extent d v (vslot h) x off buf r w' /\ softened w w') w.
Proof using Type.
  intros HR Hh Hm Hx Ho Hle. pose proof (r_slabs _ _ _ HR) as Hw. pose proof (r_handle _ _ _ HR v h Hh) as Hok. pose proof (ho_slot _ _ Hok) as Hz.
  assert (forall r w', repr [] w' (with_extent d v (vslot h) x (fresh_bytes (vslot h) off buf)) -> softened w w' -> r = Ok () ->
    wrote_extent d v (vslot h) x off buf r w' /\ softened w w') as Hend.
  { intros r w' HR' Hs ->. split; [|done]. apply wrote_fresh; try done. intros p. by apply (r_zero _ _ _ HR). }
  unfold allocate_and_write. apply (wp_handle _ _ _ _ _ Hh). destruct (is_none (policy h)) eqn:Ep.
  - eapply wp_seq; [by apply alloc_slot_handed| |intros f w1 HF; by apply (repr_spare w)]. intros l w1 HH. cbn beta iota in HH.
    assert (usable w1 l 0 (vslot h)) as Hu by (eapply handed_usable; [done|by left|done]).
    eapply wp_try; [apply (write_fresh_joins (vslot h) off buf l w1 Ho Hle); [apply HH|done]|..].
    + intros u w2 [HW [_ Hb]]. pose proof (stored_one h l _ w w1 w2 HH HW Hb) as HS.
      eapply wp_seq; [apply (map_extent_spec d w w2 v h x [l] _ 1 _ HR Hh HS eq_refl); by exists l| |by intros f w3 [? _]].
      rewrite Hm. intros [] w3 (_ & HR3 & Hs3). eapply twp_mono; [apply commit_leg_spec, (r_slabs _ _ _ HR3)|].
      intros r w4 [-> HF4]. apply Hend; [|etransitivity; [exact Hs3|by apply (softened_frame _ _ _ HF4)]|done].
      eapply repr_frame; [exact HR3|by apply frame_any].
    + intros e w2 [HW _]. eapply wp_seq; [apply slots_given_back; [apply (wt_frame _ _ _ _ _ HW)|apply NoDup_singleton|]| |by intros f w3 [? _]].
      { intros k ->%list_elem_of_singleton _. rewrite (wt_refs _ _ _ _ _ HW), (hd_now _ _ _ _ HH) by by left. lia. }
      intros u w3 [_ HF3]. apply (repr_spare w); [done| |done]. apply (handed_spare h [l] (among [l]) w w1 w3 HH); [|done].
      eapply frame_trans; [|exact HF3]. eapply frame_mono; [apply (wt_frame _ _ _ _ _ HW)|]. intros k ->. by left.
    + by intros f w2 [HW (e & -> & _)]; apply (repr_spare w); [|apply (handed_spare h [l] (just l) w w1 w2 HH (wt_frame _ _ _ _ _ HW)); intros k ->; left|].
  - eapply wp_seq; [by apply alloc_legs_handed| |intros f w1 HF; by apply (repr_spare w)]. intros ls w1 HH. cbn beta iota in HH.
    eapply wp_seq; [apply (join_all_spec _ 0 (vslot h) (fresh_bytes (vslot h) off buf) (fun _ => True))| |by intros f w2 (rs & ? & _)].
    { intros l w0. by apply write_fresh_joins. }
    { apply HH. }
    { apply HH. }
    { intros l Hl. by eapply handed_usable. }
    intros rs w2 (rs' & [= <-] & HJ).
    eapply wp_seq; [apply mark_all_frame, (jn_frame _ _ _ _ _ _ _ _ HJ)| |by intros f w3 [? _]]. intros [] w3 [_ HF3].
    destruct (location_of (succeeded rs) 1) as [loc|] eqn:El.
    + eapply wp_seq; [by eapply give_back_errors| |by intros f w4 [? _]]. intros [] w4 [_ HS].
      eapply wp_seq; [eapply (map_extent_spec d w w4 v h x); [done..|by rewrite Ep]| |by intros f w5 [? _]].
      rewrite Hm. intros [] w5 (_ & HR5 & Hs5). eapply twp_mono; [by apply commit_repr|].
      intros r w6 (-> & HR6 & Hs6). apply Hend; [done|by etransitivity|done].
    + eapply wp_seq; [by eapply give_back_all| |by intros f w4 [? _]]. intros [] w4 [_ HF4]. by apply (repr_spare w).
Qed.

(** ** Copies *)

(** An extent written anew: done, or the volume is as it was. *)
Definition copied (d : VolumeId -> Z -> Z) (v : VolumeId) (slot x off : Z) (buf : bytes) (w : world S) (r : result fault ()) (w' : world S) : Prop :=
  match r with
  | Ok _ => wrote_extent d v slot x off buf (Ok ()) w' /\ softened w w'
  | Err _ => frame (spare w) w w'
  end.
Lemma wrote_overlay d v slot x off buf data w' : 0 <= off -> off + zlen buf <= slot -> zlen data = slot -> shows (view d v slot x) 0 data ->
  repr [] w' (with_extent d v slot x (at_ (overlay off buf data))) -> wrote_extent d v slot x off buf (Ok ()) w'.
Proof using Type.
  intros Ho Hle Hl Hs HR. pose proof (zlen_nonneg buf). exists (at_ (overlay off buf data)). split; [done|]. split.
  - intros p Hp Hout. rewrite at_overlay by lia. rewrite <- Hs by lia. rewrite Z.sub_0_r.
    destruct (Z.leb_spec off p), (Z.ltb_spec p (off + zlen buf)); cbn [andb]; (lia || done).
  - intros u _ p Hp. rewrite at_overlay by lia. destruct (Z.leb_spec off p), (Z.ltb_spec p (off + zlen buf)); cbn [andb]; (lia || done).
Qed.
Lemma write_all_joins slot data l w : zlen data = slot -> wf_slabs w -> usable w l 0 slot ->
  wp (write_leg l 0 data) (fun r w' => wrote l 0 slot w w' /\ match r with
     | Ok _ => 0 < refs w l /\ forall p, 0 <= p < 0 + slot -> byte w' l p = at_ data p
     | Err f => exists e, f = Failed e /\ True end) w.
Proof using Type.
  intros <- Hw Hu. eapply twp_mono; [by apply write_leg_spec|]. intros [u|f] w1 [HW Hx]; (split; [done|]); [|destruct Hx as (e & -> & _); by exists e].
  destruct Hx as [Hr Hs]. split; [done|]. intros p Hp. rewrite <- Hs by lia. by rewrite Z.sub_0_r.
Qed.

(** The extent's new legs mapped, and what it had let go of. *)
Lemma replace_spec {B} d w w0 w4 v h h0 x good c g loc (fin : _ -> M S B) (Q : result fault B -> world S -> Prop) :
  repr [] w0 d -> vols w0 !! v = Some h0 -> softened w w0 -> vslot h0 = vslot h -> stored h0 good c w0 w4 -> location_of good g = Some loc ->
  (is_none (policy h0) = true -> exists l, good = [l]) ->
  (forall rs w8, wp (sync_refs rs) (fun r w' => r = Ok () /\ repr [] w' (with_extent d v (vslot h) x c) /\ softened w w') w8 -> wp (fin rs) Q w8) ->
  wp (bind (map_extent v x loc) (fun _ => bind (commit_legs good) (fun _ => bind (release_legs (legs_of (mapped w0 v x))) fin))) Q w4.
Proof using Type.
  intros HR Hh Hs0 Hsl HS Hloc Hone Hk.
  eapply wp_seq; [by eapply (map_extent_spec d w0 w4 v h0 x)| |by intros f w5 [? _]]. intros [] w5 (_ & HR5 & Hs5).
  eapply wp_seq; [by apply commit_repr| |by intros f w6 [? _]]. intros [] w6 (_ & HR6 & Hs6).
  assert (NoDup (legs_of (mapped w0 v x))) as Hnd by (destruct (mapped w0 v x) eqn:E; [exact (r_nodup _ _ _ HR v x _ E)|constructor]).
  pose proof (legs_settle_spec _ _ _ Hnd HR6) as Hset. unfold wp, bind in *.
  destruct (release_legs (legs_of (mapped w0 v x)) w6) as [[rs|f] w7]; [|by destruct Hset]. apply Hk.
  destruct Hset as (? & HR8 & Hs8). split; [done|]. split; [by rewrite <- Hsl|]. by do 3 (etransitivity; [eassumption|]).
Qed.

Lemma cow_write_spec w d v h x off buf old : repr [] w d -> vols w !! v = Some h -> mapped w v x = Some old ->
  0 <= off -> off + zlen buf <= vslot h ->
  wp (cow_write v x off buf old (policy h)) (copied d v (vslot h) x off buf w) w.
Proof using Type.
  intros HR Hh Hm Ho Hle. unfold cow_write.
  eapply wp_seq; [by eapply read_full_spec| |intros f w0 [HF _]; exact (frame_any _ _ _ HF)]. intros [data|] w0 [HF0 Hd]; [|exact (frame_any _ _ _ HF0)].
  destruct (Hd data eq_refl) as [Hl Hs]. clear Hd. assert (repr [] w0 d) as HR0 by (eapply repr_frame; [done|by apply frame_any]).
  destruct (handle_frame _ _ _ _ _ HF0 Hh) as (h0 & Hh0 & Hso). pose proof (so_slot _ _ Hso) as Hsl.
  pose proof (r_handle _ _ _ HR0 v h0 Hh0) as Hok. pose proof (ho_slot _ _ Hok) as Hz.
  assert (zlen (overlay off buf data) = vslot h0) as Hlo by (rewrite zlen_overlay; lia).
  assert (forall w2, frame (spare w0) w0 w2 -> frame (spare w) w w2) as Hback.
  { intros w2 HF. apply (frame_step _ _ _ _ _ _ HF0 HF); [done|]. intros l. unfold spare.
    by rewrite (frame_refs _ _ _ HF0). }
  rewrite <- (so_policy _ _ Hso). set (gen := wrap 64 (generation old + 1)).
  eapply wp_seq; [apply (alloc_any_handed v x gen h0 w0 (r_slabs _ _ _ HR0) Hh0 Hok)| |intros f w1 HF; by apply Hback].
  intros ls w1 HH0. cbn beta iota in HH0. destruct HH0 as [HH Hone].
  eapply wp_seq; [apply (join_all_spec _ 0 (vslot h0) (at_ (overlay off buf data)) (fun _ => True))| |by intros f w2 (rs & ? & _)].
  { intros l w2. by apply write_all_joins. }
  { apply HH. }
  { apply HH. }
  { intros l Hin. by eapply handed_usable. }
  intros rs w2 (rs' & [= <-] & HJ). pose proof (f_wf _ _ _ (jn_frame _ _ _ _ _ _ _ _ HJ)) as Hw2.
  apply (wp_seq _ _ (fun r w3 => r = Ok () /\ frame nothing w2 w3)); [|..|by intros f w3 [? _]].
  { destruct (is_none (policy h0)); [apply twp_ret; split; [done|by apply frame_refl]|by apply mark_all_frame]. }
  intros [] w3 [_ HF3]. destruct (location_of (succeeded rs) gen) as [loc|] eqn:El.
  - eapply wp_seq; [by eapply give_back_errors| |by intros f w4 [? _]]. intros [] w4 [_ HS].
    assert (legs old = legs_of (mapped w0 v x)) as -> by (by rewrite (mapped_frame _ _ _ v x HF0), Hm).
    eapply (replace_spec d w w0 w4 v h h0 x (succeeded rs)); try done; [by apply (softened_frame _ _ _ HF0)|..].
    + intros Hn. destruct (Hone Hn) as [l ->]. pose proof (jn_legs _ _ _ _ _ _ _ _ HJ) as Ej. destruct (succeeded rs) eqn:Es; [done|].
      rewrite <- Es. by eapply succeeded_one.
    + intros cs w8 Hw8. eapply twp_mono; [exact Hw8|]. intros r w' (-> & HR' & Hs'). split; [|done]. by eapply wrote_overlay.
  - eapply wp_seq; [by eapply give_back_all| |by intros f w4 [? _]]. intros [] w4 [_ HF4]. by apply Hback.
Qed.

(** ** One extent of a write *)

Lemma write_extent_spec w d v h x off buf : repr [] w d -> vols w !! v = Some h -> 0 <= x -> 0 <= off -> off + zlen buf <= vslot h ->
  wp (write_extent pp v (policy h) x off buf) (fun r w' => wrote_extent d v (vslot h) x off buf r w' /\ softened w w') w.
Proof using Type.
  intros HR Hh Hx Ho Hle. unfold write_extent. rewrite (ho_scheme _ _ (r_handle _ _ _ HR v h Hh)).
  apply (wp_lookup _ _ _ _ _ _ (r_cold _ _ _ HR) Hh). destruct (mapped w v x) as [loc|] eqn:Hm; [|by apply allocate_and_write_spec].
  apply twp_gets. destruct (Z.ltb_spec 1 (ref_count loc)) as [Hn|Hn].
  { eapply twp_mono; [by apply cow_write_spec|]. intros [[]|f] w' Hp; [done|]. by apply (repr_spare w). }
  destruct (existsb _ _); [|by apply write_legs_spec].
  eapply wp_try; [by apply (cow_write_spec w d v h x off buf loc)|by intros [] w' Hp| |intros f w' HF; by apply (repr_spare w)].
  intros e w1 HF. cbn beta iota in HF. destruct (handle_frame _ _ _ _ _ HF Hh) as (h1 & Hh1 & Hso).
  assert (wp (fail e) (fun r w' => wrote_extent d v (vslot h) x off buf r w' /\ softened w w') w1) as Hfail by by apply (repr_spare w).
  destruct e; try exact Hfail. eapply twp_mono; [apply (write_legs_spec w1 d v h1 x loc off buf)|].
  - by eapply repr_frame.
  - done.
  - by rewrite (mapped_frame _ _ _ _ _ HF).
  - done.
  - done.
  - by rewrite (so_slot _ _ Hso).
  - rewrite (so_slot _ _ Hso). intros r w2 [Hw Hs]. split; [done|]. etransitivity; [by apply (softened_frame _ _ _ HF)|done].
Qed.

(** ** Extents let go of *)

Lemma dec_all_spec d ls : forall w, NoDup ls -> repr ls w d ->
  wp (for_each (fun l => bind (if_slab (lg_slab l) (ss_dec_ref (lg_slot l))) (fun _ => ret ())) ls)
    (fun r w' => r = Ok () /\ repr [] w' d /\ softened w w') w.
Proof using Type.
  induction ls as [|l ls IH]; intros w Hnd HR; [by apply twp_ret|]. apply NoDup_cons in Hnd as [Hn Hnd]. cbn [for_each].
  apply (wp_seq _ _ (fun r w' => r = Ok () /\ repr ls w' d /\ softened w w')); [|..|by intros f w1 [? _]].
  - eapply wp_seq; [by apply release_one| |by intros f w1 [[o ?] _]]. intros o w1 (_ & HR1 & HF1). apply twp_ret. split; [done|].
    split; [done|by apply (softened_frame _ _ _ HF1)].
  - intros [] w1 (_ & HR1 & Hs1). eapply twp_mono; [by apply IH|]. intros r w2 (-> & HR2 & Hs2). split; [done|]. split; [done|by etransitivity].
Qed.

(** Nothing is left of an extent let go of. *)
Lemma release_extent_spec w d v h x : repr [] w d -> vols w !! v = Some h ->
  wp (release_extent pp v x) (fun r w' => r = Ok () /\ softened w w' /\ repr [] w'
    (match mapped w v x with Some _ => with_extent d v (vslot h) x (fun _ => 0) | None => d end)) w.
Proof using Type.
  intros HR Hh. unfold release_extent. apply (wp_handle _ _ _ _ _ Hh). rewrite (ho_scheme _ _ (r_handle _ _ _ HR v h Hh)).
  apply (wp_lookup _ _ _ _ _ _ (r_cold _ _ _ HR) Hh). destruct (mapped w v x) as [loc|] eqn:Hm; [|by apply twp_ret].
  destruct (remove_effect (gem w) v x (r_cold _ _ _ HR)) as (o & g' & Eg & Hc & Hg & Hpar).
  apply twp_bind. unfold wp at 1, on_gem. rewrite Eg. cbn [fst snd].
  pose proof (repr_remap w d v h x g' None (fun _ => 0) HR Hh Hc Hg Hpar ltac:(done)) as HR1. rewrite Hm in HR1.
  eapply twp_mono; [exact (dec_all_spec _ (legs loc) _ (r_nodup _ _ _ HR v x loc Hm) HR1)|]. by intros r w2 (-> & HR2 & Hs2).
Qed.

Lemma discard_one_spec w d v h x : repr [] w d -> vols w !! v = Some h ->
  wp (discard_one pp v x) (fun r w' => r = Ok () /\ softened w w' /\ exists d', repr [] w' d' /\ (d' = d \/ d' = with_extent d v (vslot h) x (fun _ => 0))) w.
Proof using Type.
  intros HR Hh. unfold discard_one. apply (wp_lookup _ _ _ _ _ _ (r_cold _ _ _ HR) Hh).
  destruct (match mapped w v x with Some l => 1 <? ref_count l | None => false end).
  - apply twp_ret. split; [done|]. split; [done|]. exists d. by split; [|left].
  - eapply twp_mono; [by apply release_extent_spec|]. intros r w' (-> & Hs & HR'). split; [done|]. split; [done|]. eexists. split; [exact HR'|].
    destruct (mapped w v x); [by right|by left].
Qed.

(** ** Extents moved *)

Lemma resident_spec v w d : repr [] w d -> resident load v w = (Ok (), w).
Proof using Type.
  intros HR. unfold resident, ensure_resident_plan, is_cold. by rewrite (r_cold _ _ _ HR), lookup_empty.
Qed.
Lemma wp_resident {B} v w d (k : () -> M S B) Q : repr [] w d -> wp (k tt) Q w -> wp (bind (resident load v) k) Q w.
Proof using Type. intros HR Hk. unfold wp, bind in *. by erewrite resident_spec. Qed.

Lemma relocate_extent_spec w d v h x dest : repr [] w d -> vols w !! v = Some h ->
  (forall s, slabs (registry w) !! dest = Some s -> ss_slot_size s = vslot h) ->
  wp (relocate_extent load v x dest) (fun r w' => repr [] w' d /\ softened w w') w.
Proof using Type.
  intros HR Hh Hdest. unfold relocate_extent. apply (wp_resident _ _ _ _ _ HR). apply (wp_lookup _ _ _ _ _ _ (r_cold _ _ _ HR) Hh).
  assert (forall X w', frame X w w' -> (forall l, X l -> spare w l) -> repr [] w' d /\ softened w w') as Hback.
  { intros X w' HF HX. split; [|by apply (softened_frame _ _ _ HF)]. eapply repr_frame; [done|by eapply frame_mono]. }
  destruct (mapped w v x) as [loc|] eqn:Hm; [|by apply twp_ret]. destruct (forallb _ _); [by apply twp_ret|].
  destruct (1 <? leg_count loc) eqn:Ec; [done|]. 
  eapply wp_seq; [by eapply read_full_spec| |by intros f w0 [HF _]; apply (Hback _ _ HF)]. intros [data|] w0 [HF0 Hd]; [|by apply (Hback _ _ HF0)].
  destruct (Hd data eq_refl) as [Hl Hs]. clear Hd. destruct (Hback _ _ HF0 ltac:(done)) as [HR0 Hs0].
  destruct (handle_frame _ _ _ _ _ HF0 Hh) as (h0 & Hh0 & Hso). pose proof (so_slot _ _ Hso) as Hsl.
  pose proof (ho_slot _ _ (r_handle _ _ _ HR0 v h0 Hh0)) as Hz.
  set (gen := wrap 64 (generation loc + 1)).
  assert (forall w', frame (spare w0) w0 w' -> repr [] w' d /\ softened w w') as Hback0.
  { intros w' HF. split; [by eapply repr_frame|]. etransitivity; [exact Hs0|by apply (softened_frame _ _ _ HF)]. }
  eapply wp_seq; [apply allocate_on_spec, (r_slabs _ _ _ HR0)| |intros f w1 HF; apply Hback0; by apply frame_any].
  intros l w1 (HF1 & Hr0 & Hr1 & <-).
  assert (handed h0 [l] w0 w1) as HH.
  { constructor; [|apply NoDup_singleton|by intros k ->%list_elem_of_singleton..|].
    - eapply frame_mono; [exact HF1|]. intros k ->. by apply list_elem_of_singleton.
    - intros k ->%list_elem_of_singleton. rewrite (f_size _ _ _ HF0), Hsl.
      assert (attached w l) as [s E].
      { rewrite <- (attached_frame _ _ _ _ HF0), <- (attached_frame _ _ _ _ HF1). apply refs_attached. lia. }
      rewrite (size_of _ _ _ E). by apply Hdest. }
  eapply wp_try; [apply (write_all_joins (vslot h0) data l w1); [lia|apply HF1|by eapply handed_usable; [done|left|]]|..].
  - intros u w2 [HW [_ Hb]]. pose proof (stored_one h0 l (at_ data) w0 w1 w2 HH HW Hb) as HS.
    assert (legs loc = legs_of (mapped w0 v x)) as -> by (by rewrite (mapped_frame _ _ _ v x HF0), Hm).
    eapply (replace_spec d w w0 w2 v h h0 x [l] (at_ data) gen _ _ _ HR0 Hh0 Hs0 Hsl HS); [done|by exists l|].
    intros cs w8 Hw8. eapply wp_seq; [exact Hw8| |by intros f w9 [? _]]. intros [] w9 (_ & HR9 & Hs9). apply twp_ret. split; [|done].
    eapply repr_ext; [exact HR9|]. intros u' q. symmetry. apply with_extent_same. intros p Hp. specialize (Hs p). rewrite Z.sub_0_r in Hs. apply Hs. lia.
  - intros e w2 [HW _]. eapply wp_seq; [apply slots_given_back; [apply (wt_frame _ _ _ _ _ HW)|apply NoDup_singleton|]| |by intros f w3 [? _]].
    { intros k ->%list_elem_of_singleton _. rewrite (wt_refs _ _ _ _ _ HW), (hd_now _ _ _ _ HH) by by left. lia. }
    intros u w3 [_ HF3]. apply Hback0. apply (handed_spare h0 [l] (among [l]) w0 w1 w3 HH); [|done].
    eapply frame_trans; [|exact HF3]. eapply frame_mono; [apply (wt_frame _ _ _ _ _ HW)|]. intros k ->. by left.
  - intros f w2 [HW _]. apply Hback0, (handed_spare h0 [l] (just l) w0 w1 w2 HH (wt_frame _ _ _ _ _ HW)). intros k ->. by left.
Qed.
End ops.
