(* ===== verification/ThinDisks.v ===== *)
(** The requests of a volume against a disk: a read answers what the disk has, a write
    changes what it was asked to, a discard leaves bytes or clears them; whatever fails. *)

From Stdlib Require Import String.
From stdpp Require Import strings.
From S2P Require Import Prelude SlabFormat GemData ExtMap Gem GemProofs Redundancy SlotStore Registry Thin ThinInv ThinAlloc ThinRepr ThinOps.
#[local] Open Scope Z_scope.

(** What each volume's disk has at each byte. *)
Abbreviation disks := (VolumeId -> Z -> Z).

Section disks.
Context {S : Type} `{SlotStoreLaws S} (load : VolumeId -> option VolumeExtentMap) (pp : ParityPath S).
#[local] Existing Instance softened_po.

(** [buf] on the disk of [v], from [off]. *)
Definition patch (d : disks) (v : VolumeId) (off : Z) (buf : bytes) : disks :=
  fun u q => if decide (u = v /\ off <= q < off + zlen buf) then at_ buf (q - off) else d u q.
(** Nothing changed but [v] from [a] to [b]. *)
Definition outside (v : VolumeId) (a b : Z) (d d' : disks) : Prop := forall u q, u <> v \/ q < a \/ b <= q -> d' u q = d u q.

Lemma not_inside (u v : VolumeId) a b q : ~ (u = v /\ a <= q < b) -> u <> v \/ q < a \/ b <= q.
Proof using Type.
  intros Hn. destruct (decide (u = v)); [right|by left]. destruct (decide (q < a)); [by left|right].
  destruct (decide (b <= q)); [done|]. exfalso. apply Hn. split; [done|lia].
Qed.
Lemma outside_refl v a b d : outside v a b d d.
Proof using Type. done. Qed.
Lemma outside_trans v a b d d1 d2 : outside v a b d d1 -> outside v a b d1 d2 -> outside v a b d d2.
Proof using Type. intros H1 H2 u q Hq. rewrite H2, H1; done. Qed.
Lemma outside_widen v a b a' b' d d' : outside v a b d d' -> a' <= a -> b <= b' -> outside v a' b' d d'.
Proof using Type. intros Ho Ha Hb u q Hq. apply Ho. destruct Hq as [|[|]]; [by left|right; left; lia|right; right; lia]. Qed.
Lemma patch_outside d v off buf : outside v off (off + zlen buf) d (patch d v off buf).
Proof using Type. intros u q Hq. unfold patch. rewrite decide_False; [done|]. intros [-> ?]. destruct Hq as [|[|]]; [done|lia|lia]. Qed.
Lemma patch_in d v off buf q : off <= q < off + zlen buf -> patch d v off buf v q = at_ buf (q - off).
Proof using Type. intros Hq. unfold patch. by rewrite decide_True. Qed.
Lemma patch_is d d' v off buf : outside v off (off + zlen buf) d d' -> (forall q, off <= q < off + zlen buf -> d' v q = at_ buf (q - off)) ->
  forall u q, d' u q = patch d v off buf u q.
Proof using Type.
  intros Ho Hi u q. unfold patch. case_decide as E; [destruct E as [-> Hq]; by apply Hi|]. by apply Ho, not_inside.
Qed.

(** What a world is after a request: [r] its answer, [a] to [b] what it may have touched. *)
Definition leaves {A} (v : VolumeId) (a b : Z) (P : A -> disks -> Prop) (w : world S) (d : disks) (r : result fault A) (w' : world S) : Prop :=
  softened w w' /\ exists d', repr [] w' d' /\ outside v a b d d' /\ forall x, r = Ok x -> P x d'.

Lemma leaves_same {A} v a b (P : A -> disks -> Prop) w d r X w' : repr [] w d -> frame X w w' -> (forall l, X l -> spare w l) ->
  (forall x, r = Ok x -> P x d) -> leaves v a b P w d r w'.
Proof using Type.
  intros HR HF HX HP. split; [by apply (softened_frame _ _ _ HF)|]. exists d. split; [|by split]. eapply repr_frame; [done|by eapply frame_mono].
Qed.
Lemma leaves_still {A} v a b (P : A -> disks -> Prop) w d r : repr [] w d -> (forall x, r = Ok x -> P x d) -> leaves v a b P w d r w.
Proof using Type. intros HR HP. split; [done|]. by exists d. Qed.
Lemma leaves_err {A B} v a b (P : A -> disks -> Prop) (Q : B -> disks -> Prop) w d f w' : leaves v a b P w d (Err f) w' -> leaves v a b Q w d (Err f) w'.
Proof using Type. intros (Hs & d' & HR & Ho & _). split; [done|]. by exists d'. Qed.

(** ** Reads *)

Lemma read_part_spec w d v h x off n : repr [] w d -> vols w !! v = Some h -> 0 <= x -> 0 <= off -> 0 <= n -> off + n <= vslot h ->
  wp (read_part pp v x off n) (fun r w' => frame nothing w w' /\ forall b, r = Ok b -> zlen b = n /\ shows (d v) (x * vslot h + off) b) w.
Proof using Type.
  intros HR Hh Hx Ho Hn Hle. unfold read_part. apply (wp_handle _ _ _ _ _ Hh). rewrite (ho_scheme _ _ (r_handle _ _ _ HR v h Hh)).
  apply (wp_lookup _ _ _ _ _ _ (r_cold _ _ _ HR) Hh). destruct (mapped w v x) as [loc|] eqn:Hm.
  - eapply twp_mono; [by eapply read_extent_spec|]. intros r w' [HF Hb]. split; [done|]. intros b E. destruct (Hb b E) as [Hz Hs]. split; [done|].
    intros p Hp. specialize (Hs (p - x * vslot h)). unfold view in Hs. replace (x * vslot h + (p - x * vslot h)) with p in Hs by lia.
    rewrite <- Hs by lia. f_equal. lia.
  - split; [apply frame_refl, (r_slabs _ _ _ HR)|]. intros b [= <-]. rewrite zlen_zeros by done. split; [done|]. intros p Hp.
    rewrite zlen_zeros in Hp by done. rewrite chunk_zeros. pose proof (r_zero _ _ _ HR v h x (p - x * vslot h) Hh Hm Hx ltac:(lia)) as E.
    rewrite <- E. f_equal. lia.
Qed.

Lemma piece_bounds slot pos len : 0 < slot -> 0 <= pos -> 0 < len ->
  let n := Z.min (slot - pos mod slot) len in 0 < n <= len /\ 0 <= pos / slot /\ 0 <= pos mod slot /\ pos mod slot + n <= slot /\ pos / slot * slot + pos mod slot = pos.
Proof using Type.
  intros Hs Hp Hl. cbv zeta. pose proof (Z.mod_pos_bound pos slot Hs). pose proof (Z.div_mod pos slot ltac:(lia)). pose proof (Z.div_pos pos slot). lia.
Qed.

Lemma read_loop_spec d v fuel : forall w h pos len, repr [] w d -> vols w !! v = Some h -> 0 <= pos -> len <= Z.of_nat fuel ->
  wp (read_loop pp fuel v (vslot h) pos len) (fun r w' => frame nothing w w' /\ forall b, r = Ok b -> zlen b = Z.max len 0 /\ shows (d v) pos b) w.
Proof using Type.
  induction fuel as [|fuel IH]; intros w h pos len HR Hh Hp Hf; cbn [read_loop].
  { split; [apply frame_refl, (r_slabs _ _ _ HR)|]. intros b [= <-]. change (zlen []) with 0. split; [lia|]. intros p Hq. change (zlen []) with 0 in Hq. lia. }
  destruct (Z.leb_spec len 0).
  { split; [apply frame_refl, (r_slabs _ _ _ HR)|]. intros b [= <-]. change (zlen []) with 0. split; [lia|]. intros p Hq. change (zlen []) with 0 in Hq. lia. }
  pose proof (piece_bounds (vslot h) pos len (ho_slot _ _ (r_handle _ _ _ HR v h Hh)) Hp ltac:(lia)) as Hc. cbv zeta in Hc.
  set (n := Z.min _ len) in *. destruct Hc as (Hn & Hd & Hm & Hle & E).
  eapply wp_seq; [apply (read_part_spec w d v h); [done..|lia|lia]| |by intros f w1 [HF _]].
  intros b w1 [HF Hb]. destruct (Hb b eq_refl) as [Hz Hs]. clear Hb. rewrite E in Hs.
  assert (repr [] w1 d) as HR1 by (eapply repr_frame; [done|by apply frame_any]).
  destruct (handle_frame _ _ _ _ _ HF Hh) as (h1 & Hh1 & Hso). rewrite <- (so_slot _ _ Hso).
  eapply wp_seq; [apply (IH w1 h1); [done|done|lia|lia]| |by intros f w2 [HF2 _]; split; [by eapply frame_trans|]].
  intros r w2 [HF2 Hr]. destruct (Hr r eq_refl) as [Hz2 Hs2]. split; [by eapply frame_trans|]. intros b' [= <-].
  rewrite zlen_app. split; [lia|]. apply shows_app; [done|]. by rewrite Hz.
Qed.
Lemma read_blocks_spec w d v off len : repr [] w d -> 0 <= off -> 0 <= len ->
  wp (read_blocks pp v off len) (fun r w' => frame nothing w w' /\ forall b, r = Ok b -> zlen b = len /\ shows (d v) off b) w.
Proof using Type.
  intros HR Ho Hl. unfold read_blocks. destruct (vols w !! v) as [h|] eqn:Hh.
  - apply (wp_handle _ _ _ _ _ Hh). eapply twp_mono; [apply (read_loop_spec d v); [done..|lia]|]. intros r w' [HF Hb]. split; [done|].
    intros b E. destruct (Hb b E). split; [lia|done].
  - apply twp_bind. unfold wp at 1, handle. rewrite Hh. split; [apply frame_refl, (r_slabs _ _ _ HR)|done].
Qed.

Lemma wp_no_handle {B} v (k : Volume -> M S B) Q (w : world S) : vols w !! v = None -> Q (Err (Failed DOther)) w -> wp (bind (handle v) k) Q w.
Proof using Type. intros Hh Hk. apply twp_bind. unfold wp at 1, handle. by rewrite Hh. Qed.
Lemma wp_if_sealed {B} v (k : () -> M S B) Q (w : world S) : (forall f, Q (Err f) w) -> wp (k tt) Q w -> wp (bind (refuse_if_sealed v) k) Q w.
Proof using Type.
  intros Hf Hk. unfold wp, bind, refuse_if_sealed, bind, handle in *. destruct (vols w !! v) as [h|]; [|apply Hf].
  destruct (sealed h); [apply Hf|]. destruct (read_only h); [apply Hf|done].
Qed.
Lemma wp_if_unknown {B} v (k : () -> M S B) Q (w : world S) : (forall f, Q (Err f) w) -> wp (k tt) Q w -> wp (bind (refuse_if_unknown_scheme v) k) Q w.
Proof using Type.
  intros Hf Hk. unfold wp, bind, refuse_if_unknown_scheme, bind, handle in *. destruct (vols w !! v) as [h|]; [|apply Hf].
  destruct (refused h); [apply Hf|done].
Qed.

Lemma blocks_around bs off len : 0 < bs -> 0 <= off -> 0 <= len ->
  0 <= block_first bs off <= off /\ off + len <= block_end bs off len.
Proof using Type.
  intros Hb Ho Hl. unfold block_first, block_end. pose proof (Z.mod_pos_bound off bs Hb). pose proof (Z.mod_le off bs Ho Hb).
  pose proof (div_ceil_mul (off + len) bs Hb). lia.
Qed.
Lemma block_first_mono bs a b : 0 < bs -> a <= b -> block_first bs a <= block_first bs b.
Proof using Type.
  intros Hb Hle. unfold block_first. pose proof (Z.div_le_mono a b bs Hb Hle). pose proof (Z.div_mod a bs ltac:(lia)). pose proof (Z.div_mod b bs ltac:(lia)). nia.
Qed.
Lemma block_end_mono bs a n b m : 0 < bs -> a + n <= b + m -> block_end bs a n <= block_end bs b m.
Proof using Type.
  intros Hb Hle. unfold block_end, div_ceil. pose proof (Z.div_le_mono (a + n + bs - 1) (b + m + bs - 1) bs Hb ltac:(lia)). nia.
Qed.

Lemma volume_read_spec w d v off len : repr [] w d -> 0 <= off -> 0 <= len ->
  wp (read load pp v off len) (fun r w' => frame nothing w w' /\ forall b, r = Ok b -> zlen b = len /\ shows (d v) off b) w.
Proof using Type.
  intros HR Ho Hl. pose proof (frame_refl nothing w (r_slabs _ _ _ HR)) as HF0. unfold read. apply wp_if_unknown; [done|].
  apply (wp_resident _ _ _ _ _ _ HR). destruct (vols w !! v) as [h|] eqn:Hh; [|by apply wp_no_handle]. apply (wp_handle _ _ _ _ _ Hh).
  destruct (aligned _ _ _); [by apply read_blocks_spec|]. unfold read_padded_to_block. destruct (Z.eqb_spec len 0) as [->|Hn].
  { split; [done|]. intros b [= <-]. change (zlen []) with 0. split; [done|]. intros p Hp. change (zlen []) with 0 in Hp. lia. }
  apply (wp_handle _ _ _ _ _ Hh). destruct (blocks_around (lba h) off len) as [Hbf Hbe]; [apply (r_handle _ _ _ HR v h Hh)|done|done|].
  eapply wp_seq; [apply (read_blocks_spec w d v); [done|lia|lia]| |by intros f w1 [HF _]].
  intros b w1 [HF Hb]. destruct (Hb b eq_refl) as [Hz Hs]. split; [done|]. intros b' [= <-].
  set (a := block_first (lba h) off) in *. assert (zlen (drop (Z.to_nat (off - a)) b) = zlen b - (off - a)) as Hzd by (apply zlen_drop; lia).
  assert (zlen (take (Z.to_nat len) (drop (Z.to_nat (off - a)) b)) = len) as Hzt by (apply zlen_take; lia).
  split; [done|]. intros p Hp. rewrite at_take by lia. rewrite at_drop by lia. rewrite <- Hs by lia. f_equal. lia.
Qed.

(** ** Writes *)

Lemma write_loop_spec v fuel : forall w d h pos buf, repr [] w d -> vols w !! v = Some h -> 0 <= pos -> (length buf <= fuel)%nat ->
  wp (write_loop pp fuel v (vslot h) (policy h) pos buf)
    (leaves v pos (pos + zlen buf) (fun _ d' => forall q, pos <= q < pos + zlen buf -> d' v q = at_ buf (q - pos)) w d) w.
Proof using Type.
  induction fuel as [|fuel IH]; intros w d h pos buf HR Hh Hp Hf; cbn [write_loop].
  { destruct buf; [|cbn in Hf; lia]. apply twp_ret, leaves_still; [done|]. intros _ _ q. change (zlen []) with 0. lia. }
  destruct buf as [|b0 buf0]; [apply twp_ret, leaves_still; [done|]; intros _ _ q; change (zlen []) with 0; lia|].
  set (buf := b0 :: buf0) in *. assert (0 < zlen buf) as Hlb by (unfold zlen; cbn; lia).
  pose proof (piece_bounds (vslot h) pos (zlen buf) (ho_slot _ _ (r_handle _ _ _ HR v h Hh)) Hp Hlb) as Hc. cbv zeta in Hc.
  set (n := Z.min _ (zlen buf)) in *. destruct Hc as (Hn & Hd & Hm & Hle & E). set (x := pos / vslot h) in *. set (off := pos mod vslot h) in *.
  assert (zlen (take (Z.to_nat n) buf) = n) as Hzt by (apply zlen_take; lia).
  assert (zlen (drop (Z.to_nat n) buf) = zlen buf - n) as Hzd by (apply zlen_drop; lia).
  assert (forall c, (forall p, 0 <= p < vslot h -> p < off \/ off + n <= p -> c p = view d v (vslot h) x p) ->
    outside v pos (pos + n) d (with_extent d v (vslot h) x c)) as Hout.
  { intros c Hc u q Hq. unfold with_extent. case_decide as Ed; [|done]. destruct Ed as [-> Hr].
    rewrite Hc by (destruct Hq as [|[|]]; done || lia). unfold view. f_equal. lia. }
  eapply wp_seq; [apply (write_extent_spec pp w d v h x off (take (Z.to_nat n) buf)); [done..|lia]|..].
  - intros [] w1 [(c & HR1 & Hc1 & Hc2) Hs1]. rewrite Hzt in Hc1, Hc2. specialize (Hc2 _ eq_refl). specialize (Hout c Hc1).
    destruct (softened_handle _ _ _ _ Hs1 Hh) as (h1 & Hh1 & Hso). rewrite <- (so_slot _ _ Hso), <- (so_policy _ _ Hso).
    eapply twp_mono; [apply (IH w1 (with_extent d v (vslot h) x c) h1); [done|done|lia|]|].
    { rewrite length_drop. change (length buf) with (Datatypes.S (length buf0)) in *. lia. }
    intros r w2 (Hs2 & d' & HR2 & Ho2 & HP). split; [by etransitivity|]. exists d'. split; [done|].
    rewrite Hzd in Ho2, HP. replace (pos + n + (zlen buf - n)) with (pos + zlen buf) in * by lia. split.
    + eapply outside_trans; eapply outside_widen; [exact Hout|lia|lia|exact Ho2|lia|lia].
    + intros u Hu q Hq. destruct (decide (pos + n <= q)).
      * rewrite (HP u Hu q) by lia. rewrite at_drop by lia. f_equal. lia.
      * rewrite Ho2 by lia. unfold with_extent. rewrite decide_True by (split; [done|lia]). rewrite Hc2 by lia. rewrite at_take by lia. f_equal. lia.
  - intros f w1 [(c & HR1 & Hc1 & _) Hs1]. rewrite Hzt in Hc1. split; [done|]. eexists. split; [exact HR1|]. split; [|done].
    eapply outside_widen; [by apply Hout|lia|lia].
Qed.
Lemma write_blocks_spec w d v off buf : repr [] w d -> 0 <= off ->
  wp (write_blocks pp v off buf) (leaves v off (off + zlen buf) (fun n d' => n = zlen buf /\ forall q, off <= q < off + zlen buf -> d' v q = at_ buf (q - off)) w d) w.
Proof using Type.
  intros HR Ho. assert (forall f, leaves v off (off + zlen buf) (fun n d' => n = zlen buf /\ forall q, off <= q < off + zlen buf -> d' v q = at_ buf (q - off)) w d (Err f) w) as Hf by (intros; by apply leaves_still).
  unfold write_blocks. apply wp_if_sealed; [done|]. apply wp_if_unknown; [done|].
  destruct (vols w !! v) as [h|] eqn:Hh; [|by apply wp_no_handle]. apply (wp_handle _ _ _ _ _ Hh).
  eapply wp_seq; [by apply write_loop_spec| |intros f w1; apply leaves_err].
  intros [] w1 (Hs & d' & HR' & Hout & HP). apply twp_ret. split; [done|]. exists d'. split; [done|]. split; [done|]. intros n [= <-]. split; [done|]. by apply (HP tt).
Qed.

Lemma leaves_mono {A} v a b a' b' (P Q : A -> disks -> Prop) w d r w' : leaves v a b P w d r w' -> a' <= a -> b <= b' ->
  (forall x d', r = Ok x -> outside v a b d d' -> P x d' -> Q x d') -> leaves v a' b' Q w d r w'.
Proof using Type.
  intros (Hs & d' & HR & Ho & HP) Ha Hb HQ. split; [done|]. exists d'. split; [done|]. split; [by eapply outside_widen|]. intros x E. by apply HQ; auto.
Qed.
Lemma leaves_after {A} v a b (P : A -> disks -> Prop) w w1 d r w' : frame nothing w w1 -> leaves v a b P w1 d r w' -> leaves v a b P w d r w'.
Proof using Type. intros HF (Hs & Hd). split; [|done]. etransitivity; [by apply (softened_frame _ _ _ HF)|done]. Qed.

Lemma finishing_spec {A} v (m : M S A) (Q : result fault A -> world S -> Prop) w : wp m Q w -> (forall r w', Q r w' -> wf_slabs w') ->
  (forall r w1 w2, Q r w1 -> frame nothing w1 w2 -> Q r w2) -> wp (finishing v m) Q w.
Proof using Type.
  intros Hm Hwf HF. unfold finishing. eapply wp_try; [exact Hm|..]; [| |done].
  all: intros x w1 HQ.
  all: destruct (update_frame v (fun h => set_counts (completed h + 1) (synced h) h) w1 (Hwf _ _ HQ) ltac:(by intros h; constructor)) as [_ HF1].
  all: exact (HF _ _ _ HQ HF1).
Qed.
Lemma leaves_finished {A} v (m : M S A) a b (P : A -> disks -> Prop) w0 d w : wp m (leaves v a b P w0 d) w -> wp (finishing v m) (leaves v a b P w0 d) w.
Proof using Type.
  intros Hm. apply finishing_spec; [done|..].
  - intros r w1 (_ & d' & HR & _). apply (r_slabs _ _ _ HR).
  - intros r w1 w2 (Hs & d' & HR & Ho & HP) HF. split; [etransitivity; [exact Hs|by apply (softened_frame _ _ _ HF)]|].
    exists d'. split; [eapply repr_frame; [exact HR|by apply frame_any]|]. by split.
Qed.

Definition wrote_all (d : disks) (v : VolumeId) (off : Z) (buf : bytes) (n : Z) (d' : disks) : Prop :=
  n = zlen buf /\ forall u q, d' u q = patch d v off buf u q.
Lemma write_padded_spec w d v h off buf : repr [] w d -> vols w !! v = Some h -> 0 <= off ->
  wp (write_padded_to_block load pp v off buf)
    (leaves v (block_first (lba h) off) (block_end (lba h) off (zlen buf)) (wrote_all d v off buf) w d) w.
Proof using Type.
  intros HR Hh Ho. pose proof (zlen_nonneg buf) as Hz. unfold write_padded_to_block. destruct (Z.eqb_spec (zlen buf) 0) as [E|Hn].
  { apply twp_ret, leaves_still; [done|]. intros n [= <-]. split; [done|]. intros u q. unfold patch. rewrite decide_False; [done|]. intros [_ ?]. lia. }
  apply (wp_handle _ _ _ _ _ Hh). destruct (blocks_around (lba h) off (zlen buf)) as [Hbf Hbe]; [apply (r_handle _ _ _ HR v h Hh)|done|done|].
  set (a := block_first (lba h) off) in *. set (b := block_end (lba h) off (zlen buf)) in *.
  eapply wp_seq; [apply (volume_read_spec w d v a (b - a)); [done|lia|lia]| |].
  2: { intros f w1 [HF _]. by apply (leaves_same _ _ _ _ _ _ _ _ _ HR HF). }
  intros block w1 [HF Hb]. destruct (Hb block eq_refl) as [Hzb Hs]. clear Hb.
  assert (repr [] w1 d) as HR1 by (eapply repr_frame; [done|by apply frame_any]).
  assert (zlen (overlay (off - a) buf block) = b - a) as Hzo by (rewrite zlen_overlay; lia).
  eapply wp_seq; [apply (write_blocks_spec w1 d v a); [done|lia]| |].
  2: { intros f w2 HL. apply (leaves_after _ _ _ _ _ _ _ _ _ HF). eapply leaves_err. eapply leaves_mono; [exact HL|lia|lia|done]. }
  intros n w2 HL. rewrite Hzo in HL. replace (a + (b - a)) with b in HL by lia. apply twp_ret. apply (leaves_after _ _ _ _ _ _ _ _ _ HF).
  destruct HL as (Hs2 & d' & HR2 & Hout & HP). split; [done|]. exists d'. split; [done|]. split; [done|]. intros m [= <-]. split; [done|].
  destruct (HP n eq_refl) as [_ Hin]. apply patch_is.
  - intros u q Hq. destruct (decide (u = v /\ a <= q < b)) as [[-> Hr]|Hne].
    + assert (q < off \/ off + zlen buf <= q) as Hq' by (by destruct Hq). rewrite Hin by done. rewrite at_overlay by lia. replace ((off - a <=? q - a) && (q - a <? off - a + zlen buf)) with false by lia. by rewrite Hs by lia.
    + by apply Hout, not_inside.
  - intros q Hq. rewrite Hin by lia. rewrite at_overlay by lia. replace ((off - a <=? q - a) && (q - a <? off - a + zlen buf)) with true by lia. f_equal. lia.
Qed.
Lemma volume_write_spec w d v h off buf : repr [] w d -> vols w !! v = Some h -> 0 <= off ->
  wp (write load pp v off buf)
    (leaves v (block_first (lba h) off) (block_end (lba h) off (zlen buf)) (wrote_all d v off buf) w d) w.
Proof using Type.
  intros HR Hh Ho. assert (forall f : fault, leaves v (block_first (lba h) off) (block_end (lba h) off (zlen buf)) (wrote_all d v off buf) w d (Err f) w) as Hf
    by (intros; by apply leaves_still).
  unfold write. apply wp_if_unknown; [done|]. apply (wp_resident _ _ _ _ _ _ HR). apply wp_if_sealed; [done|]. apply leaves_finished.
  apply (wp_handle _ _ _ _ _ Hh). destruct (aligned _ _ _); [|by apply write_padded_spec].
  destruct (blocks_around (lba h) off (zlen buf)) as [Hbf Hbe]; [apply (r_handle _ _ _ HR v h Hh)|done|apply zlen_nonneg|].
  eapply twp_mono; [by apply write_blocks_spec|]. intros r w' HL. eapply leaves_mono; [exact HL|lia|lia|].
  intros n d' _ Hout [-> Hin]. split; [done|]. by apply patch_is.
Qed.

(** ** Discards, zeroes and sizes *)

(** Bytes of a range left or cleared, the rest as it was. *)
Definition cleared (v : VolumeId) (a b : Z) (d d' : disks) : Prop :=
  outside v a b d d' /\ forall q, d' v q = d v q \/ d' v q = 0.
Lemma cleared_extent v a b slot x d : a <= x * slot -> (x + 1) * slot <= b -> cleared v a b d (with_extent d v slot x (fun _ => 0)).
Proof using Type.
  intros Ha Hb. split.
  - intros u q Hq. unfold with_extent. rewrite decide_False; [done|]. intros [-> Hr]. destruct Hq as [|[|]]; [done|lia|lia].
  - intros q. unfold with_extent. case_decide; auto.
Qed.
Lemma disk_cleared_refl v a b d : cleared v a b d d.
Proof using Type. split; [done|]. by left. Qed.
Lemma disk_cleared_trans v a b d d1 d2 : cleared v a b d d1 -> cleared v a b d1 d2 -> cleared v a b d d2.
Proof using Type.
  intros [A1 A2] [B1 B2]. split; [by eapply outside_trans|]. intros q. destruct (B2 q) as [->|]; auto.
Qed.

Lemma for_each_cleared (f : Z -> M S ()) v a b slot xs : (forall x w d h, x ∈ xs -> repr [] w d -> vols w !! v = Some h -> vslot h = slot ->
    wp (f x) (fun r w' => r = Ok () /\ softened w w' /\ exists d', repr [] w' d' /\ cleared v a b d d') w) ->
  forall w d h, repr [] w d -> vols w !! v = Some h -> vslot h = slot ->
  wp (for_each f xs) (fun r w' => r = Ok () /\ softened w w' /\ exists d', repr [] w' d' /\ cleared v a b d d') w.
Proof using Type.
  induction xs as [|x xs IH]; intros Hf w d h HR Hh Hsl.
  { apply twp_ret. split; [done|]. split; [done|]. exists d. split; [done|apply disk_cleared_refl]. }
  cbn [for_each]. eapply wp_seq; [apply (Hf x w d h); [by left|done..]| |by intros f' w1 [? _]].
  intros [] w1 (_ & Hs1 & d1 & HR1 & Hc1). destruct (softened_handle _ _ _ _ Hs1 Hh) as (h1 & Hh1 & Hso).
  eapply twp_mono; [apply (IH ltac:(intros; eapply Hf; [by right|done..]) w1 d1 h1 HR1 Hh1)|].
  - by rewrite (so_slot _ _ Hso).
  - intros r w2 (-> & Hs2 & d2 & HR2 & Hc2). split; [done|]. split; [by etransitivity|]. exists d2. split; [done|by eapply disk_cleared_trans].
Qed.

Lemma mapped_in_range {B} v h lo hi (k : list Z -> M S B) Q (w : world S) : cold (gem w) = ∅ -> vols w !! v = Some h ->
  (forall xs, (forall x, x ∈ xs <-> lo <= x < hi /\ is_Some (mapped w v x)) -> wp (k xs) Q w) ->
  wp (bind (of_gem (fun g => mapped_in g v lo hi)) k) Q w.
Proof using Type.
  intros Hc Hh Hk. apply twp_bind. unfold wp at 1, of_gem, on_gem, mapped_in. rewrite check_in_memory by done. cbn [rbind fst snd].
  assert (set_gem (gem w) w = w) as -> by by destruct w. apply Hk. intros x. rewrite (mapped_handle _ _ _ _ Hh). unfold ext_at.
  destruct (volumes (gem w) !! v) as [m|]; cbn.
  - by rewrite list_elem_of_filter, elem_of_sorted_keys.
  - split; [by intros ?%elem_of_nil|]. by intros [_ [? ?]].
Qed.

Lemma discard_spec w d v off len : repr [] w d -> 0 <= off -> 0 <= len ->
  wp (discard load pp v off len) (fun r w' => softened w w' /\ exists d', repr [] w' d' /\ cleared v off (off + len) d d') w.
Proof using Type.
  intros HR Ho Hl. assert (softened w w /\ exists d', repr [] w d' /\ cleared v off (off + len) d d') as H0'.
  { split; [done|]. exists d. split; [done|apply disk_cleared_refl]. }
  unfold discard. apply wp_if_unknown; [done|]. apply (wp_resident _ _ _ _ _ _ HR). apply wp_if_sealed; [done|].
  apply finishing_spec; [|by intros r w1 (_ & d' & HR' & _); apply (r_slabs _ _ _ HR')|].
  2: { intros r w1 w2 (Hs & d' & HR' & Hc) HF. split; [etransitivity; [exact Hs|by apply (softened_frame _ _ _ HF)]|].
    exists d'. split; [|done]. eapply repr_frame; [exact HR'|by apply frame_any]. }
  destruct (vols w !! v) as [h|] eqn:Hh; [|by apply wp_no_handle]. apply (wp_handle _ _ _ _ _ Hh).
  pose proof (ho_slot _ _ (r_handle _ _ _ HR v h Hh)) as Hz. destruct (Z.leb_spec ((off + len) / vslot h) (div_ceil off (vslot h))); [done|].
  apply wp_if_unknown; [done|]. apply (mapped_in_range _ _ _ _ _ _ _ (r_cold _ _ _ HR) Hh). intros xs Hxs. unfold discard_mapped.
  eapply twp_mono; [refine (for_each_cleared _ v off (off + len) (vslot h) xs _ w d h HR Hh eq_refl)|by intros r w' (_ & Hs & Hd)].
  intros x w1 d1 h1 Hx HR1 Hh1 E1. apply Hxs in Hx as [Hx _]. eapply twp_mono; [by apply discard_one_spec|].
  intros r w2 (-> & Hs2 & d2 & HR2 & Hd2). split; [done|]. split; [done|]. exists d2. split; [done|].
  destruct Hd2 as [->| ->]; [apply disk_cleared_refl|]. rewrite E1. pose proof (div_ceil_mul off (vslot h) Hz).
  pose proof (Z.mul_div_le (off + len) (vslot h) Hz). apply cleared_extent; nia.
Qed.

(** Zeros over the extents of [xs], [off] to [end_]. *)
Definition zeroed (v : VolumeId) (slot off end_ : Z) (xs : list Z) (d d' : disks) : Prop :=
  cleared v off end_ d d' /\ forall q, off <= q < end_ -> q / slot ∈ xs -> d' v q = 0.
Lemma zero_extent_spec w d v h off end_ x : repr [] w d -> vols w !! v = Some h -> 0 <= off ->
  off < (x + 1) * vslot h -> x * vslot h < end_ -> off < end_ ->
  wp (zero_extent load pp v (vslot h) off end_ x)
    (leaves v (block_first (lba h) off) (block_end (lba h) off (end_ - off)) (fun _ => zeroed v (vslot h) off end_ [x] d) w d) w.
Proof using Type.
  intros HR Hh Ho Hx1 Hx2 Hoe. destruct (r_handle _ _ _ HR v h Hh) as [Hz Hl _ _]. unfold zero_extent.
  set (pos := Z.max (x * vslot h) off). set (n := Z.min ((x + 1) * vslot h) end_ - pos). assert (0 <= n) as Hn by lia.
  eapply wp_seq; [apply (volume_write_spec w d v h pos (zeros n)); [done|done|lia]| |].
  all: rewrite zlen_zeros by done; pose proof (block_first_mono (lba h) off pos Hl ltac:(lia));
    pose proof (block_end_mono (lba h) pos n off (end_ - off) Hl ltac:(lia)).
  2: { intros f w1 HL. eapply leaves_err. eapply leaves_mono; [exact HL|lia|lia|done]. }
  intros m w1 HL. apply twp_ret. destruct HL as (Hs & d' & HR' & Hout & HP). split; [done|]. exists d'. split; [done|].
  split; [by eapply outside_widen; [exact Hout|..]|]. intros _ _. destruct (HP m eq_refl) as [_ HE]. split; [split|].
  - intros u q Hq. rewrite HE. apply patch_outside. rewrite zlen_zeros by done. destruct Hq as [|[|]]; [by left|right; left; lia|right; right; lia].
  - intros q. rewrite HE. unfold patch. case_decide; [right; apply chunk_zeros|by left].
  - intros q Hq Ex%list_elem_of_singleton. rewrite HE. pose proof (Z.div_mod q (vslot h) ltac:(lia)) as Eq. rewrite Ex in Eq. pose proof (Z.mod_pos_bound q (vslot h) Hz).
    rewrite patch_in; [apply chunk_zeros|]. rewrite zlen_zeros by done. nia.
Qed.
Lemma zeroed_trans v slot off end_ x xs d d1 d2 : zeroed v slot off end_ [x] d d1 -> zeroed v slot off end_ xs d1 d2 ->
  zeroed v slot off end_ (x :: xs) d d2.
Proof using Type.
  intros [A1 A2] [B1 B2]. split; [by eapply disk_cleared_trans|]. intros q Hq [E|Hin]%elem_of_cons; [|by apply B2].
  destruct B1 as [_ B1]. destruct (B1 q) as [->|]; [|done]. apply A2; [done|]. rewrite E. by left.
Qed.
Lemma zero_extents_spec v slot bs off end_ xs : 0 <= off -> off < end_ -> (forall x, x ∈ xs -> off < (x + 1) * slot /\ x * slot < end_) ->
  forall w d h, repr [] w d -> vols w !! v = Some h -> vslot h = slot -> lba h = bs ->
  wp (for_each (zero_extent load pp v slot off end_) xs)
    (leaves v (block_first bs off) (block_end bs off (end_ - off)) (fun _ => zeroed v slot off end_ xs d) w d) w.
Proof using Type.
  intros Ho Hoe. induction xs as [|x xs IH]; intros Hxs w d h HR Hh E1 E2.
  { apply twp_ret, leaves_still; [done|]. intros _ _. split; [apply disk_cleared_refl|]. by intros q _ ?%elem_of_nil. }
  cbn [for_each]. destruct (Hxs x ltac:(by left)) as [Hx1 Hx2]. rewrite <- E1 in Hx1, Hx2.
  pose proof (zero_extent_spec w d v h off end_ x HR Hh Ho Hx1 Hx2 Hoe) as HZ. rewrite E1, E2 in HZ. eapply wp_seq; [exact HZ|..].
  - intros [] w1 (Hs1 & d1 & HR1 & Hout1 & HP1). specialize (HP1 tt eq_refl).
    destruct (softened_handle _ _ _ _ Hs1 Hh) as (h1 & Hh1 & Hso). pose proof (so_flags _ _ Hso) as Hfl. injection Hfl as _ _ _ Hl.
    eapply twp_mono; [apply (IH ltac:(intros y Hy; apply Hxs; by right) w1 d1 h1 HR1 Hh1); [by rewrite (so_slot _ _ Hso)|by rewrite Hl]|].
    intros r w2 (Hs2 & d2 & HR2 & Hout2 & HP2). split; [by etransitivity|]. exists d2. split; [done|]. split; [by eapply outside_trans|].
    intros u Hu. eapply zeroed_trans; [exact HP1|by apply (HP2 u)].
  - intros f w1. apply leaves_err.
Qed.
Lemma write_zeroes_spec w d v h off len : repr [] w d -> vols w !! v = Some h -> 0 <= off -> 0 <= len ->
  wp (write_zeroes load pp v off len)
    (leaves v (block_first (lba h) off) (block_end (lba h) off len) (fun _ d' => forall u q, d' u q = patch d v off (zeros len) u q) w d) w.
Proof using Type.
  intros HR Hh Ho Hl. pose proof (ho_slot _ _ (r_handle _ _ _ HR v h Hh)) as Hz.
  assert (forall f : fault, leaves v (block_first (lba h) off) (block_end (lba h) off len) (fun (_ : ()) d' => forall u q, d' u q = patch d v off (zeros len) u q) w d (Err f) w) as Hf
    by (intros; by apply leaves_still).
  unfold write_zeroes. apply wp_if_unknown; [done|]. apply (wp_resident _ _ _ _ _ _ HR). apply wp_if_sealed; [done|]. apply leaves_finished.
  destruct (Z.eqb_spec len 0) as [->|Hn].
  { apply twp_ret, leaves_still; [done|]. intros _ _ u q. unfold patch. rewrite decide_False; [done|]. intros [_ Hq]. rewrite zlen_zeros in Hq; lia. }
  apply (wp_handle _ _ _ _ _ Hh). apply (mapped_in_range _ _ _ _ _ _ _ (r_cold _ _ _ HR) Hh). intros xs Hxs.
  pose proof (Z.div_mod off (vslot h) ltac:(lia)). pose proof (Z.mod_pos_bound off (vslot h) Hz).
  pose proof (Z.div_mod (off + len - 1) (vslot h) ltac:(lia)). pose proof (Z.mod_pos_bound (off + len - 1) (vslot h) Hz).
  eapply twp_mono; [refine (zero_extents_spec v (vslot h) (lba h) off (off + len) xs Ho _ _ w d h HR Hh eq_refl eq_refl); [lia|]|].
  { intros x [Hx _]%Hxs. nia. }
  replace (off + len - off) with len by lia. intros r w' HL. eapply leaves_mono; [exact HL|lia|lia|].
  intros u d' _ _ [[Hout Hc] Hzero]. apply patch_is; rewrite zlen_zeros by done; [done|]. intros q Hq. rewrite chunk_zeros.
  destruct (decide (q / vslot h ∈ xs)) as [Hin|Hin]; [by apply Hzero|]. destruct (Hc q) as [->|]; [|done].
  pose proof (Z.div_mod q (vslot h) ltac:(lia)) as Eq. pose proof (Z.mod_pos_bound q (vslot h) Hz).
  assert (0 <= q / vslot h) by (apply Z.div_pos; lia). rewrite Eq, Z.mul_comm. apply (r_zero _ _ _ HR v h); try done.
  apply eq_None_not_Some. intros Hm. apply Hin, Hxs. split; [|done].
  pose proof (Z.div_le_mono off q (vslot h) Hz ltac:(lia)). pose proof (Z.div_le_mono q (off + len - 1) (vslot h) Hz ltac:(lia)). lia.
Qed.

(** What the handles keep through every request: the size of a block. *)
Definition same_blocks (w w' : world S) : Prop := forall u, lba <$> vols w' !! u = lba <$> vols w !! u.
Lemma same_blocks_softened w w' : softened w w' -> same_blocks w w'.
Proof using Type.
  intros Hs u. specialize (Hs u). destruct Hs as [h h' Hso|]; [|done]. cbn. f_equal. pose proof (so_flags _ _ Hso) as E. by injection E.
Qed.

Lemma some_bound (f : Z -> Z) (xs : list Z) : exists b, forall x, x ∈ xs -> f x <= b.
Proof using Type.
  induction xs as [|x xs [b Hb]]; [exists 0; by intros x ?%elem_of_nil|]. exists (Z.max (f x) b).
  intros y [->|Hy]%elem_of_cons; [lia|]. specialize (Hb y Hy). lia.
Qed.
(** A handle changed in what no disk depends on. *)
Record like_handle (h h' : Volume) : Prop := {
  lh_slot : vslot h' = vslot h;
  lh_lba : lba h' = lba h;
  lh_place : placement h' = placement h;
  lh_scheme : is_parity (scheme (policy h')) = is_parity (scheme (policy h));
  lh_none : is_none (policy h') = true -> is_none (policy h) = true }.
Lemma alter_repr owed v f w d : repr owed w d -> (forall h, vols w !! v = Some h -> like_handle h (f h)) ->
  (forall h x l, vols w !! v = Some h -> holds w v x l -> lg_slab l ∈ failed h -> lg_slab l ∈ failed (f h)) ->
  repr owed (set_vols (alter f v (vols w)) w) d.
Proof using Type.
  intros HR Hf Hfl. set (w' := set_vols _ w).
  assert (forall u h, vols w' !! u = Some h -> exists h0, vols w !! u = Some h0 /\ like_handle h0 h
    /\ forall x l, holds w u x l -> lg_slab l ∈ failed h0 -> lg_slab l ∈ failed h) as Hb.
  { intros u h. cbn. destruct (decide (u = v)) as [->|]; [rewrite lookup_alter_eq|rewrite lookup_alter_ne by done; intros E; by exists h].
    destruct (vols w !! v) as [h0|] eqn:E0; [|done]. cbn. intros [= <-]. exists h0. split; [done|]. split; [by apply Hf|]. intros x l. by apply Hfl. }
  assert (forall u x, mapped w' u x = mapped w u x) as Hm.
  { intros u x. unfold mapped. cbn. destruct (decide (u = v)) as [->|]; [rewrite lookup_alter_eq|by rewrite lookup_alter_ne]. by destruct (vols w !! v). }
  assert (forall u x l, holds w' u x l <-> holds w u x l) as Hh by (intros; unfold holds; by rewrite Hm).
  destruct HR as [R1 R2 R3 R4 R5 R6 R7 R8 R9 R10 R11 R12 R13]. constructor; try done.
  - intros u h E. destruct (Hb u h E) as (h0 & E0 & [L1 L2 L3 L5 L6] & _). destruct (R3 _ _ E0) as [O1 O2 O3 O4].
    constructor; [by rewrite L1|by rewrite L2|by rewrite L5|]. unfold pin_ok in *. rewrite L1, L3. exact O4.
  - intros u h x l E. rewrite Hh. destruct (Hb u h E) as (h0 & E0 & L & _). rewrite (lh_slot _ _ L). by eapply R4.
  - intros u h x loc E. rewrite Hm. destruct (Hb u h E) as (h0 & E0 & L & _). intros En%(lh_none _ _ L). by eapply R5.
  - intros u h x E. destruct (Hb u h E) as (h0 & E0 & _). by eapply R6.
  - intros u x loc. rewrite Hm. apply R7.
  - intros u x loc. rewrite Hm. apply R8.
  - intros u x loc l u2 y. rewrite Hm, Hh. apply R9.
  - intros u x loc u2 y loc2 l. rewrite !Hm. apply R10.
  - intros l Ha. destruct (R11 l Ha) as (L & HL & Hle). exists L. split; [|done]. intros u x. rewrite Hh. apply HL.
  - intros u h x l p E. rewrite Hh. destruct (Hb u h E) as (h0 & E0 & L & Lf). rewrite (lh_slot _ _ L). intros Hx Hnf. apply (R12 _ _ _ _ _ E0 Hx). intros Hin. by apply Hnf, (Lf x).
  - intros u h x p E. rewrite Hm. destruct (Hb u h E) as (h0 & E0 & L & _). rewrite (lh_slot _ _ L). by eapply R13.
Qed.
Lemma alter_same_blocks v f w : (forall h, lba (f h) = lba h) -> same_blocks w (set_vols (alter f v (vols w)) w).
Proof using Type.
  intros Hf u. cbn. destruct (decide (u = v)) as [->|]; [|by rewrite lookup_alter_ne].
  rewrite lookup_alter_eq. destruct (vols w !! v) as [h|]; [|done]. cbn. by rewrite Hf.
Qed.
(** A policy changed, but not to none where there may be mirrors. *)
Lemma set_redundancy_spec w d v p : repr [] w d -> (forall h, vols w !! v = Some h -> is_none p = true -> is_none (policy h) = true) ->
  wp (set_redundancy v p) (fun _ w' => repr [] w' d /\ same_blocks w w') w.
Proof using Type.
  intros HR Hnone. unfold set_redundancy. destruct (vols w !! v) as [h|] eqn:Hh; [|apply wp_no_handle; [done|by split]].
  apply (wp_handle _ _ _ _ _ Hh). destruct (check_transition _ _) eqn:Et; [|by split]. unfold wp, update, modify. split.
  - apply alter_repr; [done| |done]. intros h0 E. rewrite Hh in E. injection E as <-. constructor; try done; [|by apply Hnone].
    pose proof (ho_scheme _ _ (r_handle _ _ _ HR v h Hh)) as Hp. cbn. unfold check_transition in Et.
    by destruct (scheme (policy h)), (scheme p).
  - by apply alter_same_blocks.
Qed.

(** The disk past the new size is left or cleared. *)
Definition resized (v : VolumeId) (n : Z) (d d' : disks) : Prop :=
  (forall u q, u <> v \/ q < n -> d' u q = d u q) /\ forall q, d' v q = d v q \/ d' v q = 0.
Lemma resize_spec w d v n : repr [] w d -> 0 <= n ->
  wp (resize load pp v n) (fun r w' => same_blocks w w' /\ (exists d', repr [] w' d' /\ resized v n d d')
    /\ (r = Ok () -> virtual_size <$> vols w' !! v = Some n)) w.
Proof using Type.
  intros HR Hn. assert (same_blocks w w /\ exists d', repr [] w d' /\ resized v n d d') as Hsame.
  { split; [done|]. exists d. split; [done|]. split; [done|by left]. }
  unfold resize. apply (wp_resident _ _ _ _ _ _ HR). destruct (n =? 0); [split; [apply Hsame|split; [apply Hsame|done]]|].
  destruct (vols w !! v) as [h|] eqn:Hh; [|apply wp_no_handle; [done|split; [apply Hsame|split; [apply Hsame|done]]]].
  apply (wp_handle _ _ _ _ _ Hh). destruct (Z.eqb_spec n (virtual_size h)) as [->|].
  { apply twp_ret. split; [done|]. split; [apply Hsame|]. by rewrite Hh. }
  destruct (_ && _); [split; [apply Hsame|split; [apply Hsame|done]]|].
  apply (wp_seq _ _ (fun r w' => r = Ok () /\ softened w w' /\ exists d', repr [] w' d' /\ resized v n d d')); [|..|by intros f w1 [? _]].
  - destruct (n <? virtual_size h); [|apply twp_ret; split; [done|]; split; [done|apply Hsame]].
    apply twp_bind. unfold wp at 1, of_gem, on_gem, volume_extents. rewrite check_in_memory by apply HR. cbn [rbind fst snd].
    assert (set_gem (gem w) w = w) as -> by by destruct w. set (xs := filter _ _).
    destruct (some_bound (fun x => (x + 1) * vslot h) xs) as [b Hb].
    eapply twp_mono; [refine (for_each_cleared _ v n b (vslot h) xs _ w d h HR Hh eq_refl)|].
    + intros x w1 d1 h1 Hx HR1 Hh1 E1. eapply wp_try; [by apply release_extent_spec| |by intros e w2 [? _]|by intros e w2 [? _]].
      intros [] w2 (_ & Hs2 & HR2). apply twp_ret. split; [done|]. split; [done|]. eexists. split; [exact HR2|].
      destruct (mapped w1 v x); [|apply disk_cleared_refl]. rewrite E1. apply cleared_extent; [|by apply Hb].
      apply list_elem_of_filter in Hx as [Hx _]. pose proof (ho_slot _ _ (r_handle _ _ _ HR v h Hh)) as Hz. pose proof (div_ceil_mul n (vslot h) Hz). nia.
    + intros r w1 (-> & Hs1 & d1 & HR1 & Ho & Hc). split; [done|]. split; [done|]. exists d1. split; [done|]. split; [|done].
      intros u q [Hu|Hq]; apply Ho; [by left|right; by left].
  - intros [] w1 (_ & Hs1 & d1 & HR1 & Hd1). split; [|split].
    + intros u. rewrite <- (same_blocks_softened _ _ Hs1). by apply (alter_same_blocks v (set_size n) w1).
    + exists d1. split; [by apply alter_repr|done].
    + intros _. unfold update, modify. cbn. rewrite lookup_alter_eq. destruct (softened_handle _ _ _ _ Hs1 Hh) as (h1 & -> & _). done.
Qed.
End disks.
