(* ===== verification/Volumes.v ===== *)
(** Snapshots and deletes, [volume/snapshot.rs] with what [volume/mod.rs] does around them:
    a snapshot has a copy of its source's map and a share of each of its slots, and a
    handle like its source's; a delete gives the shares back. *)

From Stdlib Require Import String.
From stdpp Require Import strings.
From S2P Require Import Prelude SlabFormat GemData ExtMap Gem GemProofs Redundancy SlotStore Registry Thin ThinInv ThinAlloc ThinRepr ThinOps ThinDisks.
#[local] Open Scope Z_scope.

(** ** The operations *)

Section volumes.
Context {S : Type} `{SlotStore S} (load : VolumeId -> option VolumeExtentMap).

(** The slots of each slab, in the order of a [HashMap]'s iteration, which is any. *)
Definition by_slab (ls : list Leg) : gmap SlabId (list Z) :=
  foldl (fun m l => <[lg_slab l := default [] (m !! lg_slab l) ++ [lg_slot l]]> m) ∅ ls.
Context (order : list (SlabId * list Z) -> list (SlabId * list Z)).
Definition grouped (ls : list Leg) : list (SlabId * list Z) := order (map_to_list (by_slab ls)).

(** One slab's share counts raised, if it is attached. *)
Definition raise_slab (g : SlabId * list Z) : M S () :=
  bind (if_slab (fst g) (ss_inc_ref_batch (snd g))) (fun r => match r with Some (Err e) => fail e | _ => ret () end).
Definition create_snapshot_with (source snap : VolumeId) : M S () :=
  bind (on_gem (clone_volume_map source snap)) (fun cloned =>
    match cloned with
    | Some m => for_each raise_slab (grouped (all_legs m))
    | None => ret ()
    end).

(** What a clone's handle is like. *)
Definition inherit_handle (src : Volume) (size slot : Z) : Volume :=
  let pl := placement src in
  let base := preferring (preferred_tier pl) in
  let h := new_handle size slot (mkPlacement (preferred_tier base) (tier_fallback base) (pl_role pl) (pinned pl) (layout pl)) (policy src) in
  mkVolume (virtual_size h) (vslot h) (policy h) (placement h) (failed src) (affinity h) (sealed h) (read_only h) (refused h) (lba src)
    (completed h) (synced h).
Definition refuse_unknown_scheme (v : VolumeId) : M S () :=
  bind (gets (fun w => vols w !! v)) (fun h => match h with Some h => if refused h then refuse Busy else ret () | None => ret () end).
(** [VolumeManager::create_snapshot_deferred] to the id [snap]. *)
Definition create_snapshot (source snap : VolumeId) : M S () :=
  bind (refuse_unknown_scheme source) (fun _ =>
  bind (gets (fun w => vols w !! source)) (fun h =>
    match h with
    | None => refuse VolumeNotFound
    | Some h =>
        bind (resident load source) (fun _ =>
        bind (create_snapshot_with source snap) (fun _ =>
        modify (fun w => match vols w !! source with
                         | Some src => set_vols (<[snap := inherit_handle src (virtual_size h) (vslot h)]> (vols w)) w
                         | None => w
                         end)))
    end)).

(** One slab's shares given back: what it turns down, and an error, are said in the log. *)
Definition lower_slab (g : SlabId * list Z) : M S () :=
  bind (if_slab (fst g) (ss_dec_ref_batch (snd g))) (fun _ => ret ()).
Definition delete_snapshot_with (v : VolumeId) : M S () :=
  bind (on_gem (remove_volume v)) (fun vmap =>
    match vmap with
    | Some m => for_each lower_slab (grouped (all_legs m))
    | None => ret ()
    end).
(** [VolumeManager::delete_volume], of a volume nothing holds. *)
Definition delete_volume (v : VolumeId) : M S () :=
  bind (gets (fun w => vols w !! v)) (fun h =>
    match h with
    | None => refuse VolumeNotFound
    | Some _ =>
        bind (resident load v) (fun _ =>
        bind (modify (fun w => set_vols (delete v (vols w)) w)) (fun _ =>
        delete_snapshot_with v))
    end).
End volumes.

(** ** The slots of a map, by slab *)

Lemma by_slab_lookup ls id : by_slab ls !! id = match map lg_slot (filter (fun l => lg_slab l = id) ls) with [] => None | s => Some s end.
Proof.
  unfold by_slab. enough (forall m : gmap SlabId (list Z), foldl (fun m l => <[lg_slab l := default [] (m !! lg_slab l) ++ [lg_slot l]]> m) m ls !! id
    = match map lg_slot (filter (fun l => lg_slab l = id) ls) with [] => m !! id | s => Some (default [] (m !! id) ++ s) end) as E.
  { rewrite E, lookup_empty. by destruct (map _ _). }
  induction ls as [|l ls IH]; intros m; [done|]. cbn [foldl]. rewrite IH, filter_cons. destruct (decide (lg_slab l = id)) as [<-|Hne].
  - rewrite lookup_insert_eq. cbn. destruct (map lg_slot _); [done|]. cbn. by rewrite <- app_assoc.
  - by rewrite lookup_insert_ne.
Qed.
Lemma elem_of_grouped order ls id slots : (forall l, order l ≡ₚ l) -> (id, slots) ∈ grouped order ls ->
  slots = map lg_slot (filter (fun l => lg_slab l = id) ls).
Proof.
  intros Ho. unfold grouped. rewrite Ho, elem_of_map_to_list, by_slab_lookup. destruct (map lg_slot _); [done|]. by intros [= <-].
Qed.
Lemma grouped_has order ls l : (forall l, order l ≡ₚ l) -> l ∈ ls -> exists slots, (lg_slab l, slots) ∈ grouped order ls.
Proof.
  intros Ho Hl. exists (map lg_slot (filter (fun k => lg_slab k = lg_slab l) ls)). unfold grouped. rewrite Ho, elem_of_map_to_list, by_slab_lookup.
  assert (lg_slot l ∈ map lg_slot (filter (fun k => lg_slab k = lg_slab l) ls)) as Hin by (apply list_elem_of_fmap; exists l; by rewrite list_elem_of_filter).
  destruct (map lg_slot _); [by apply elem_of_nil in Hin|done].
Qed.
Lemma length_pos_elem {A} (l : list A) x : x ∈ l -> (0 < length l)%nat.
Proof. destruct l; [by intros ?%elem_of_nil|cbn; lia]. Qed.
Lemma grouped_nodup order ls : (forall l, order l ≡ₚ l) -> NoDup (map fst (grouped order ls)).
Proof. intros Ho. unfold grouped. rewrite (Ho (map_to_list (by_slab ls))). apply NoDup_fst_map_to_list. Qed.

Section laws.
Context {S : Type} `{SlotStoreLaws S}
  (order : list (SlabId * list Z) -> list (SlabId * list Z)) (Horder : forall l, order l ≡ₚ l).
#[local] Existing Instance softened_po.

(** ** The map cloned *)

Lemma clone_effect g v u : cold g = ∅ -> u <> v -> exists c g', clone_volume_map v u g = Ok (c, g') /\ cold g' = ∅
  /\ match volumes g !! v with
     | None => c = None /\ g' = g
     | Some m => c = Some (share_map m) /\ forall x, volumes g' !! x = if decide (x = u \/ x = v) then Some (share_map m) else volumes g !! x
     end.
Proof using Type.
  intros E Hne. unfold clone_volume_map. rewrite !check_in_memory by done. cbn [rbind].
  destruct (volumes g !! v) as [m|] eqn:Em; [|by exists None, g]. eexists _, _. split; [reflexivity|].
  match goal with |- context [touch_whole u (touch_whole v ?h)] => destruct (touch_fields (MWhole u) (touch_whole v h)) as [E1 E2];
    destruct (touch_fields (MWhole v) h) as [E3 E4] end. cbn [put_mark] in E1, E2, E3, E4. rewrite E1, E2, E3, E4. cbn.
  split; [done|]. split; [done|]. intros x.
  destruct (decide (x = u)) as [->|Hu]; [by rewrite lookup_insert_eq, decide_True by auto|rewrite lookup_insert_ne by done].
  destruct (decide (x = v)) as [->|Hv]; [by rewrite lookup_alter_eq, Em, decide_True by auto|].
  rewrite lookup_alter_ne, decide_False by (done || by intros [|]). done.
Qed.

(** Counted once more, nothing is counted once. *)
Lemma repr_cloned w d v u m g' : repr [] w d -> cold g' = ∅ -> vols w !! u = None -> volumes (gem w) !! v = Some m ->
  (forall x, volumes g' !! x = if decide (x = u \/ x = v) then Some (share_map m) else volumes (gem w) !! x) ->
  repr [] (set_gem g' w) d.
Proof using Type.
  intros HR Hc Hu Hm Hg. apply repr_counts; [done|done| |].
  - intros x h y Hx. unfold par_at. rewrite Hg. case_decide as Hd; [|done]. destruct Hd as [->| ->]; [by rewrite Hu in Hx|].
    rewrite Hm. cbn. rewrite lookup_fmap. by intros ->.
  - intros x y. destruct (vols w !! x) as [h|] eqn:Hx; [|left; unfold mapped; cbn; by rewrite Hx].
    assert (mapped (set_gem g' w) x y = ext_at (volumes g') x y) as -> by exact (mapped_handle (set_gem g' w) x h y Hx).
    rewrite (mapped_handle _ _ _ _ Hx). unfold ext_at. rewrite Hg. case_decide as Hd; [|by left].
    destruct Hd as [->| ->]; [by rewrite Hu in Hx|]. rewrite Hm. cbn. unfold em_share. rewrite lookup_fmap.
    destruct (extents m !! y) as [loc|] eqn:El; [|by left]. right.
    exists loc, (Z.min u32max (ref_count loc + 1)). split; [done|]. split; [done|].
    pose proof (r_count _ _ _ HR v y loc) as Hn. rewrite (mapped_handle _ _ _ _ Hx) in Hn. unfold ext_at in Hn. rewrite Hm in Hn.
    specialize (Hn El). unfold u32max. cbn. lia.
Qed.

(** ** Shares raised *)

(** Counts went up, and nothing a volume has was touched. *)
Record risen (w w' : world S) : Prop := {
  ri_frame : frame (fun _ => True) w w';
  ri_refs l : attached w l -> refs w l <= refs w' l;
  ri_bytes l p : 0 < refs w l -> 0 <= p < size_at w l -> byte w' l p = byte w l p }.
Lemma risen_refl w : wf_slabs w -> risen w w.
Proof using Type. intros Hw. constructor; [by apply frame_refl|done|done]. Qed.
Lemma risen_trans w w1 w2 : risen w w1 -> risen w1 w2 -> risen w w2.
Proof using Type.
  intros [F1 R1 B1] [F2 R2 B2]. constructor; [by eapply frame_trans|..].
  - intros l Ha. specialize (R1 l Ha). rewrite <- (attached_frame _ _ _ _ F1) in Ha. specialize (R2 l Ha). lia.
  - intros l p Hr Hp. pose proof (R1 l (refs_attached _ _ Hr)). rewrite B2, B1; [done..|lia|by rewrite (f_size _ _ _ F1)].
Qed.
Lemma repr_risen w w' d : repr [] w d -> risen w w' -> repr [] w' d.
Proof using Type.
  intros HR [HF Hr Hb]. apply (repr_step _ [] [] w w' d d HR HF); [| |apply (r_zero _ _ _ HR)].
  - intros l Ha. specialize (Hr l Ha). lia.
  - intros v h h' x l p Hv Hv' Hso Hh Hf Ha Hp. rewrite Hb; [by eapply repr_data|by eapply repr_live|by eapply repr_range].
Qed.

Lemma raise_slab_spec w id slots : wf_slabs w -> (forall i, i ∈ slots -> attached w (mkLeg id i) -> 0 < refs w (mkLeg id i)) ->
  wp (raise_slab (id, slots)) (fun r w' => risen w w' /\ (forall l, lg_slab l <> id -> refs w' l = refs w l)
    /\ (r = Ok () -> forall l, lg_slab l = id -> attached w l -> refs w' l = refs w l + times (lg_slot l) slots)) w.
Proof using Type.
  intros Hw Hpos. unfold raise_slab. cbn [fst snd]. apply twp_bind, wp_if_slab.
  { intros Hs. apply twp_ret. split; [by apply risen_refl|]. split; [done|]. intros _ l El [s E]. by rewrite El, Hs in E. }
  intros s Hs. assert (Forall (fun i => 0 < ss_refs s i) slots) as HP.
  { apply Forall_forall. intros i Hi. rewrite <- (refs_of w (mkLeg id i) s Hs). apply Hpos; [done|by exists s]. }
  destruct (ss_inc_ref_batch_law slots s (Hw _ _ Hs) HP) as [[K1 K2 K3] Hr]. set (s' := snd (ss_inc_ref_batch slots s)) in *.
  assert (forall i, ss_refs s i <= ss_refs s' i) as Hup.
  { intros i. destruct (fst (ss_inc_ref_batch slots s)); rewrite Hr; [|lia]. unfold times. pose proof (zlen_nonneg (filter (fun j => j = i) slots)). lia. }
  assert (frame (fun _ => True) w (put_slab id s' w)) as HF by by apply (frame_put _ _ _ s).
  assert (risen w (put_slab id s' w)) as HRi.
  { constructor; [done|..].
    - intros l _. destruct (decide (lg_slab l = id)) as [El|Hne].
      + rewrite (refs_of (put_slab id s' w) l s') by (rewrite El; apply slab_put). rewrite (refs_of w l s) by by rewrite El. apply Hup.
      + unfold refs. cbn. by rewrite lookup_insert_ne by done.
    - intros l p Hr0 Hp. destruct (decide (lg_slab l = id)) as [El|Hne].
      + rewrite (byte_of (put_slab id s' w) l s') by (rewrite El; apply slab_put). rewrite (byte_of w l s) by by rewrite El.
        rewrite (refs_of w l s) in Hr0 by by rewrite El. rewrite (size_of w l s) in Hp by by rewrite El. specialize (Hup (lg_slot l)).
        apply K3; [done|lia|done].
      + unfold byte. cbn. by rewrite lookup_insert_ne by done. }
  assert (forall l, lg_slab l <> id -> refs (put_slab id s' w) l = refs w l) as Hoth.
  { intros l Hne. unfold refs. cbn. by rewrite lookup_insert_ne by done. }
  destruct (fst (ss_inc_ref_batch slots s)) as [u|e] eqn:Ef; [|by split].
  apply twp_ret. split; [done|]. split; [done|]. intros _ l El _.
  rewrite (refs_of (put_slab id s' w) l s') by (rewrite El; apply slab_put). rewrite (refs_of w l s) by by rewrite El. apply Hr.
Qed.

Lemma raise_slabs_spec gs : forall w, wf_slabs w -> NoDup (map fst gs) ->
  (forall id slots i, (id, slots) ∈ gs -> i ∈ slots -> attached w (mkLeg id i) -> 0 < refs w (mkLeg id i)) ->
  wp (for_each raise_slab gs) (fun r w' => risen w w'
    /\ (r = Ok () -> forall l slots, (lg_slab l, slots) ∈ gs -> attached w l -> refs w l + times (lg_slot l) slots <= refs w' l)) w.
Proof using Type.
  induction gs as [|[id slots] gs IH]; intros w Hw Hnd Hpos.
  { apply twp_ret. split; [by apply risen_refl|]. by intros _ l s ?%elem_of_nil. }
  cbn [map fst] in Hnd. apply NoDup_cons in Hnd as [Hn Hnd]. cbn [for_each].
  eapply wp_seq; [apply raise_slab_spec; [done|]| |by intros f w1 (HRi & _)].
  { intros i Hi. eapply Hpos; [by left|done]. }
  intros [] w1 (HR1 & Ho1 & Hr1). specialize (Hr1 eq_refl). pose proof (ri_frame _ _ HR1) as HF1.
  eapply twp_mono; [apply (IH w1); [apply HF1|done|]|].
  - intros id' slots' i Hin Hi Ha. rewrite (attached_frame _ _ _ _ HF1) in Ha. pose proof (ri_refs _ _ HR1 _ Ha).
    enough (0 < refs w (mkLeg id' i)) by lia. eapply Hpos; [by right|done|done].
  - intros r w2 [HR2 Hr2]. split; [by eapply risen_trans|]. intros E l slots' [[= El ->]|Hin]%elem_of_cons Ha.
    + pose proof (Hr1 l El Ha). rewrite <- (attached_frame _ _ _ _ HF1) in Ha. pose proof (ri_refs _ _ HR2 l Ha). lia.
    + rewrite <- (Ho1 l); [apply (Hr2 E l slots' Hin); by rewrite (attached_frame _ _ _ _ HF1)|]. intros <-.
      apply Hn. apply list_elem_of_fmap. by exists (lg_slab l, slots').
Qed.

(** ** The clone a volume *)

Definition copied_to (d : disks) (v u : VolumeId) : disks := fun x q => if decide (x = u) then d v q else d x q.

Section clone.
Context (w : world S) (d : disks) (v u : VolumeId) (h hn : Volume) (HR : repr [] w d) (Hv : vols w !! v = Some h) (Hu : vols w !! u = None)
  (Hext : forall y, ext_at (volumes (gem w)) u y = mapped w v y) (Hpar : forall y, par_at (volumes (gem w)) u y = None)
  (Hcount : forall y loc, mapped w v y = Some loc -> 2 <= ref_count loc)
  (Hlike : (vslot hn, policy hn, failed hn) = (vslot h, policy h, failed h)) (Hok : handle_ok w hn)
  (Hroom : forall l, attached w l -> exists (L : list (VolumeId * Z)) (ys : list Z), (forall x y, holds w x y l -> (x, y) ∈ L)
    /\ (forall y, holds w v y l -> y ∈ ys) /\ zlen L + zlen ys <= refs w l).
Local Abbreviation w' := (set_vols (<[u:=hn]> (vols w)) w).
Local Abbreviation orig x := (if decide (x = u) then v else x).

Lemma clone_mapped x y : mapped w' x y = mapped w (orig x) y.
Proof using Hu Hext.
  unfold mapped at 1. cbn. case_decide as Hx; [subst x; rewrite lookup_insert_eq; apply Hext|by rewrite lookup_insert_ne].
Qed.
Lemma clone_holds x y l : holds w' x y l <-> holds w (orig x) y l.
Proof using Hu Hext. unfold holds. by rewrite clone_mapped. Qed.
Lemma clone_handle x hx : vols w' !! x = Some hx -> exists h0, vols w !! orig x = Some h0 /\ (vslot hx, policy hx, failed hx) = (vslot h0, policy h0, failed h0).
Proof using Hv Hlike.
  cbn. case_decide as Hx; [subst x; rewrite lookup_insert_eq; intros [= <-]; by exists h|rewrite lookup_insert_ne by done; intros E; by exists hx].
Qed.
Lemma repr_clone : repr [] w' (copied_to d v u).
Proof using HR Hv Hu Hext Hpar Hcount Hlike Hok Hroom.
  assert (forall x q, copied_to d v u x q = d (orig x) q) as Hd by (intros x q; unfold copied_to; by case_decide). constructor.
  - apply (r_cold _ _ _ HR).
  - apply (r_slabs _ _ _ HR).
  - intros x hx. cbn. destruct (decide (x = u)) as [->|Hx]; [rewrite lookup_insert_eq; intros [= <-]; by destruct Hok|].
    rewrite lookup_insert_ne by done. intros E. by destruct (r_handle _ _ _ HR x hx E).
  - intros x hx y l E. rewrite clone_holds. destruct (clone_handle _ _ E) as (h0 & E0 & El). injection El as -> _ _. by apply (r_size _ _ _ HR).
  - intros x hx y loc E. rewrite clone_mapped. destruct (clone_handle _ _ E) as (h0 & E0 & El). injection El as _ -> _. by apply (r_single _ _ _ HR).
  - intros x hx y. cbn. destruct (decide (x = u)) as [->|Hx]; [intros _; apply Hpar|]. rewrite lookup_insert_ne by done. by apply (r_parity _ _ _ HR).
  - intros x y loc. rewrite clone_mapped. by apply (r_count _ _ _ HR).
  - intros x y loc. rewrite clone_mapped. by apply (r_nodup _ _ _ HR).
  - intros x y loc l x2 y2. rewrite clone_mapped, clone_holds. intros Hm Hone Hl Hh.
    destruct (r_alone _ _ _ HR _ _ _ _ _ _ Hm Hone Hl Hh) as [Ex ->].
    destruct (decide (x = u)); [specialize (Hcount _ _ Hm); lia|]. destruct (decide (x2 = u)); [|done].
    rewrite <- Ex in Hm. specialize (Hcount _ _ Hm). lia.
  - intros x y loc x2 y2 loc2 l. rewrite !clone_mapped. by apply (r_same _ _ _ HR).
  - intros l Ha. destruct (Hroom l Ha) as (L & ys & HL & Hys & Hle). exists (L ++ map (pair u) ys). split.
    + intros x y. rewrite clone_holds. rewrite elem_of_app, list_elem_of_fmap. case_decide as Hx; [|by left; apply HL].
      subst x. intros Hh. right. exists y. split; [done|by apply Hys].
    + rewrite owes_not by (by intros ?%elem_of_nil). unfold zlen in *. rewrite length_app, length_map. unfold refs in *. cbn. lia.
  - intros x hx y l p E. rewrite clone_holds, Hd. destruct (clone_handle _ _ E) as (h0 & E0 & El). injection El as -> _ ->. by apply (r_data _ _ _ HR).
  - intros x hx y p E. rewrite clone_mapped, Hd. destruct (clone_handle _ _ E) as (h0 & E0 & El). injection El as -> _ _. by apply (r_zero _ _ _ HR).
Qed.
End clone.

(** Each extent on a leg is one of its slot's in the lists. *)
Lemma times_slots (es : list (Z * ExtentLocation)) ps l :
  zlen (filter (fun e => l ∈ legs (snd e)) es) <= times (lg_slot l) (map lg_slot (filter (fun k => lg_slab k = lg_slab l) (flat_map legs (map snd es) ++ ps))).
Proof using Type.
  assert (forall j l1 l2, times j (l1 ++ l2) = times j l1 + times j l2) as Happ.
  { intros. unfold times. rewrite filter_app. unfold zlen. rewrite length_app. lia. }
  assert (forall j ls, 0 <= times j ls) as Hnn by (intros; apply zlen_nonneg).
  rewrite filter_app, map_app, Happ. specialize (Hnn (lg_slot l) (map lg_slot (filter (fun k => lg_slab k = lg_slab l) ps))) as Hps.
  enough (zlen (filter (fun e => l ∈ legs (snd e)) es) <= times (lg_slot l) (map lg_slot (filter (fun k => lg_slab k = lg_slab l) (flat_map legs (map snd es))))) by lia.
  clear Hps. induction es as [|e es IH]; [done|]. cbn [map flat_map]. rewrite filter_cons, filter_app, map_app, Happ.
  specialize (Hnn (lg_slot l) (map lg_slot (filter (fun k => lg_slab k = lg_slab l) (legs (snd e))))) as Hp. case_decide as Hl; [|lia].
  unfold zlen at 1. cbn [length]. fold (zlen (filter (fun e => l ∈ legs (snd e)) es)).
  enough (1 <= times (lg_slot l) (map lg_slot (filter (fun k => lg_slab k = lg_slab l) (legs (snd e))))) by (unfold zlen in *; lia).
  enough (0 < length (filter (fun i => i = lg_slot l) (map lg_slot (filter (fun k => lg_slab k = lg_slab l) (legs (snd e))))))%nat by (unfold times, zlen; lia).
  apply length_pos_elem with (lg_slot l). apply list_elem_of_filter. split; [done|]. apply list_elem_of_fmap. exists l. by rewrite list_elem_of_filter.
Qed.

Lemma all_legs_plain m l : (forall y, parity m !! y = None) -> l ∈ all_legs m <-> exists y loc, extents m !! y = Some loc /\ l ∈ legs loc.
Proof using Type.
  intros Hp. unfold all_legs, groups, locations. assert (entries (parity m) = []) as ->.
  { destruct (entries (parity m)) as [|[k g] es] eqn:E; [done|]. assert ((k, g) ∈ entries (parity m)) as Hin by (rewrite E; by left).
    apply elem_of_entries in Hin. by rewrite Hp in Hin. }
  cbn [map flat_map]. rewrite app_nil_r, list_elem_of_In, in_flat_map. split.
  - intros (loc & Hloc & Hl). apply list_elem_of_In, list_elem_of_fmap in Hloc as ([y loc'] & -> & Hin). apply elem_of_entries in Hin.
    exists y, loc'. by rewrite list_elem_of_In.
  - intros (y & loc & E & Hl). exists loc. rewrite <- !list_elem_of_In. split; [|done]. apply list_elem_of_fmap. exists (y, loc). by rewrite elem_of_entries.
Qed.

Lemma volume_map (w : world S) v h m : vols w !! v = Some h -> volumes (gem w) !! v = Some m -> forall y, mapped w v y = extents m !! y.
Proof using Type. intros Hv Hm y. rewrite (mapped_handle _ _ _ _ Hv). unfold ext_at. by rewrite Hm. Qed.
Lemma refuse_unknown_spec v (w : world S) : exists r, refuse_unknown_scheme v w = (r, w).
Proof using Type. unfold refuse_unknown_scheme, bind, gets. destruct (vols w !! v) as [h|]; [destruct (refused h)|]; by eexists. Qed.

(** The clone has a share of each of its legs. *)
Lemma clone_room (w w2 : world S) d v h m : repr [] w d -> vols w !! v = Some h -> volumes (gem w) !! v = Some m -> risen w w2 ->
  (forall l slots, (lg_slab l, slots) ∈ grouped order (all_legs m) -> attached w l -> refs w l + times (lg_slot l) slots <= refs w2 l) ->
  forall l, attached w2 l -> exists (L : list (VolumeId * Z)) (ys : list Z), (forall x y, holds w2 x y l -> (x, y) ∈ L)
    /\ (forall y, holds w2 v y l -> y ∈ ys) /\ zlen L + zlen ys <= refs w2 l.
Proof using Horder.
  intros HR Hv Hm HRi Ht l Ha. pose proof (ri_frame _ _ HRi) as HF. rewrite (attached_frame _ _ _ _ HF) in Ha.
  destruct (r_held _ _ _ HR l Ha) as (L & HL & Hle). pose proof (owes_range [] l).
  exists L, (map fst (filter (fun e => l ∈ legs (snd e)) (entries (extents m)))). split; [|split].
  - intros x y. rewrite (holds_frame _ _ _ _ _ _ HF). apply HL.
  - intros y. rewrite (holds_frame _ _ _ _ _ _ HF). intros (loc & E & Hl). rewrite (volume_map _ _ _ _ Hv Hm) in E.
    apply list_elem_of_fmap. exists (y, loc). split; [done|]. apply list_elem_of_filter. split; [done|]. by apply elem_of_entries.
  - pose proof (times_slots (entries (extents m)) (flat_map pg_legs (groups m)) l) as Hts. change (map snd (entries (extents m))) with (locations m) in Hts.
    fold (all_legs m) in Hts. unfold zlen in *. rewrite length_map.
    destruct (decide (l ∈ all_legs m)) as [Hin|Hin].
    + destruct (grouped_has order (all_legs m) l Horder Hin) as [slots Hs]. pose proof (Ht l slots Hs Ha) as Hup.
      rewrite (elem_of_grouped _ _ _ _ Horder Hs) in Hup. lia.
    + destruct (filter _ (entries (extents m))) as [|[y loc] es] eqn:E.
      * pose proof (ri_refs _ _ HRi l Ha). cbn. lia.
      * exfalso. apply Hin. unfold all_legs, locations. rewrite elem_of_app, list_elem_of_In, in_flat_map. left. exists loc.
        assert ((y, loc) ∈ filter (fun e => l ∈ legs (snd e)) (entries (extents m))) as Hf by (rewrite E; by left).
        apply list_elem_of_filter in Hf as [Hl Hf]. rewrite <- !list_elem_of_In. split; [|done]. apply list_elem_of_fmap. by exists (y, loc).
Qed.

Lemma inherit_handle_like src size slot : let h := inherit_handle src size slot in
  (vslot h, policy h, failed h, lba h, virtual_size h) = (slot, policy src, failed src, lba src, size) /\ pinned (placement h) = pinned (placement src).
Proof using Type. done. Qed.
Lemma inherit_ok w src slot size : slot = vslot src -> handle_ok w src -> handle_ok w (inherit_handle src size slot).
Proof using Type. intros -> [Hs Hl Hp Hpin]. constructor; done. Qed.

(** What a snapshot leaves: a volume with the source's disk, or nothing but shares too many. *)
Definition snapped (v u : VolumeId) (h : Volume) (w : world S) (d : disks) (r : result fault ()) (w' : world S) : Prop :=
  match r with
  | Ok _ => repr [] w' (copied_to d v u) /\ lba <$> vols w' !! u = Some (lba h) /\ (forall x, x <> u -> option_Forall2 softer (vols w !! x) (vols w' !! x))
  | Err _ => repr [] w' d /\ softened w w'
  end.
Lemma finish_clone w w2 d v u h : repr [] w2 d -> softened w w2 -> vols w !! v = Some h -> vols w !! u = None ->
  (forall y, ext_at (volumes (gem w2)) u y = mapped w2 v y) -> (forall y, par_at (volumes (gem w2)) u y = None) ->
  (forall y loc, mapped w2 v y = Some loc -> 2 <= ref_count loc) ->
  (forall l, attached w2 l -> exists (L : list (VolumeId * Z)) (ys : list Z), (forall x y, holds w2 x y l -> (x, y) ∈ L)
    /\ (forall y, holds w2 v y l -> y ∈ ys) /\ zlen L + zlen ys <= refs w2 l) ->
  wp (modify (fun w => match vols w !! v with
                       | Some src => set_vols (<[u := inherit_handle src (virtual_size h) (vslot h)]> (vols w)) w
                       | None => w
                       end)) (snapped v u h w d) w2.
Proof using Type.
  intros HR Hs Hv Hu Hext Hpar Hcount Hroom. destruct (softened_handle _ _ _ _ Hs Hv) as (h2 & Hv2 & Hso).
  assert (vols w2 !! u = None) as Hu2 by (specialize (Hs u); rewrite Hu in Hs; by inversion Hs).
  unfold wp, modify. cbn [fst snd]. rewrite Hv2. pose proof (so_flags _ _ Hso) as Hfl. injection Hfl as _ _ _ Hlba.
  split; [|split].
  - apply (repr_clone w2 d v u h2); try done; [by rewrite <- (so_slot _ _ Hso)|].
    apply inherit_ok; [by rewrite (so_slot _ _ Hso)|by eapply r_handle].
  - cbn. rewrite lookup_insert_eq. cbn. by rewrite Hlba.
  - intros x Hx. cbn. rewrite lookup_insert_ne by done. apply Hs.
Qed.

Lemma create_snapshot_spec load w d v u h : repr [] w d -> vols w !! v = Some h -> vols w !! u = None -> volumes (gem w) !! u = None ->
  wp (create_snapshot load order v u) (snapped v u h w d) w.
Proof using Horder.
  intros HR Hv Hu Hgu. assert (u <> v) as Hne by (intros ->; by rewrite Hv in Hu). unfold create_snapshot.
  destruct (refuse_unknown_spec v w) as [r Er]. apply twp_bind. unfold wp at 1. rewrite Er. cbn [fst snd]. destruct r as [[]|f]; [|by split].
  apply twp_gets. rewrite Hv. apply (wp_resident _ _ _ _ _ _ HR).
  destruct (clone_effect (gem w) v u (r_cold _ _ _ HR) Hne) as (c & g' & Eg & Hc & Hm).
  apply twp_bind. unfold create_snapshot_with. apply twp_bind. unfold wp at 1, on_gem. rewrite Eg. cbn [fst snd].
  destruct (volumes (gem w) !! v) as [m|] eqn:Em.
  - destruct Hm as [-> Hg]. set (w1 := set_gem g' w). pose proof (repr_cloned w d v u m g' HR Hc Hu Em Hg) as HR1. fold w1 in HR1.
    assert (volumes (gem w1) !! v = Some (share_map m)) as Em1 by (cbn; by rewrite Hg, decide_True by auto).
    assert (forall y, parity (share_map m) !! y = None) as Hpm.
    { intros y. pose proof (r_parity _ _ _ HR1 v h y Hv) as E. unfold par_at in E. by rewrite Em1 in E. }
    eapply twp_mono; [apply (raise_slabs_spec (grouped order (all_legs (share_map m))) w1); [apply (r_slabs _ _ _ HR1)|by apply grouped_nodup|]|].
    + intros id slots i Hg2 Hi Ha. rewrite (elem_of_grouped _ _ _ _ Horder Hg2) in Hi.
      apply list_elem_of_fmap in Hi as (l & -> & Hl). apply list_elem_of_filter in Hl as [<- Hl]. rewrite leg_eta in *.
      apply (all_legs_plain _ _ Hpm) in Hl as (y & loc & E & Hl). eapply (repr_live _ _ _ v y); [done| |done].
      exists loc. by rewrite (volume_map w1 v h _ Hv Em1).
    + intros r w2 [HRi Hraised]. pose proof (repr_risen _ _ _ HR1 HRi) as HR2. pose proof (ri_frame _ _ HRi) as HF.
      assert (softened w w2) as Hs by (by apply (softened_frame _ w1 w2 HF)). destruct r as [[]|f]; [|by split].
      apply finish_clone; try done.
      * intros y. rewrite (mapped_frame _ _ _ _ _ HF), (volume_map w1 v h _ Hv Em1), (f_gem _ _ _ HF). unfold ext_at. cbn.
        by rewrite Hg, decide_True by auto.
      * intros y. rewrite (f_gem _ _ _ HF). unfold par_at. cbn. rewrite Hg, decide_True by auto. apply Hpm.
      * intros y loc. rewrite (mapped_frame _ _ _ _ _ HF), (volume_map w1 v h _ Hv Em1). cbn. unfold em_share. rewrite lookup_fmap.
        destruct (extents m !! y) as [l0|] eqn:El; [|done]. cbn. intros [= <-]. pose proof (r_count _ _ _ HR v y l0) as Hn.
        rewrite (volume_map w v h m Hv Em) in Hn. specialize (Hn El). cbn. unfold u32max. lia.
      * by apply (clone_room w1 w2 d v h (share_map m)); [..|by apply Hraised].
  - destruct Hm as [-> ->]. assert (set_gem (gem w) w = w) as -> by by destruct w. apply twp_ret.
    assert (forall y, mapped w v y = None) as Hmn by (intros y; rewrite (mapped_handle _ _ _ _ Hv); unfold ext_at; by rewrite Em).
    apply finish_clone; try done.
    + intros y. rewrite Hmn. unfold ext_at. by rewrite Hgu.
    + intros y. unfold par_at. by rewrite Hgu.
    + intros y loc. by rewrite Hmn.
    + intros l Ha. destruct (r_held _ _ _ HR l Ha) as (L & HL & Hle). exists L, []. split; [done|]. split.
      * intros y (loc & E & _). by rewrite Hmn in E.
      * pose proof (owes_range [] l). unfold zlen in *. cbn. lia.
Qed.

(** ** Shares given back *)

Lemma lower_slab_spec owed w d id slots : repr owed w d -> (forall i, i ∈ slots <-> mkLeg id i ∈ owed) ->
  wp (lower_slab (id, slots)) (fun r w' => r = Ok () /\ frame (fun _ => True) w w' /\ repr (filter (fun l => lg_slab l <> id) owed) w' d) w.
Proof using Type.
  intros HR Hin. unfold lower_slab. cbn [fst snd]. pose proof (r_slabs _ _ _ HR) as Hw.
  assert (forall l, owes (filter (fun l => lg_slab l <> id) owed) l = if decide (lg_slab l = id) then 0 else owes owed l) as Ho.
  { intros l. case_decide as El; [apply owes_not|unfold owes]; [by intros [? _]%list_elem_of_filter|].
    assert (l ∈ filter (fun l => lg_slab l <> id) owed <-> l ∈ owed) as E by (rewrite list_elem_of_filter; tauto). by rewrite (bool_decide_ext _ _ E). }
  apply twp_bind, wp_if_slab.
  { intros Hs. apply twp_ret. split; [done|]. pose proof (frame_refl (fun _ => True) w Hw) as HF. split; [done|].
    apply (repr_step _ owed _ w w d d HR HF); [|intros; by eapply repr_data|apply (r_zero _ _ _ HR)].
    intros l _. rewrite Ho. pose proof (owes_range owed l). case_decide; lia. }
  intros s Hs. apply twp_ret. split; [done|]. assert (Forall (fun i => 0 < ss_refs s i) slots) as HP.
  { apply Forall_forall. intros i Hi. rewrite <- (refs_of w (mkLeg id i) s Hs). eapply repr_owed; [done|by apply Hin|by exists s]. }
  destruct (ss_dec_ref_batch_law slots s (Hw _ _ Hs) HP) as ([K1 K2 K3] & Hd & Hk). set (s' := snd (ss_dec_ref_batch slots s)) in *.
  assert (frame (fun _ => True) w (put_slab id s' w)) as HF by by apply (frame_put _ _ _ s). split; [done|].
  assert (forall l, refs w l - (if decide (lg_slab l = id) then owes owed l else 0) <= refs (put_slab id s' w) l) as Hr.
  { intros l. case_decide as El; [|unfold refs; cbn; rewrite lookup_insert_ne by done; lia].
    rewrite (refs_of (put_slab id s' w) l s') by (rewrite El; apply slab_put). rewrite (refs_of w l s) by by rewrite El.
    destruct (decide (lg_slot l ∈ slots)) as [Hi|Hi]; [|rewrite Hk by done; pose proof (owes_range owed l); lia].
    rewrite owes_in; [apply Hd|]. apply Hin in Hi. by rewrite <- El, leg_eta in Hi. }
  apply (repr_step _ owed _ w _ d d HR HF); [..|apply (r_zero _ _ _ HR)].
  - intros l _. specialize (Hr l). rewrite Ho. case_decide; lia.
  - intros v h h' x l p Hv Hv' Hso Hh Hf Ha Hp. rewrite <- (repr_data _ _ _ _ _ _ _ _ _ HR Hv Hso Hh Hf Ha Hp).
    pose proof (repr_range _ _ _ _ _ _ _ _ HR Hv Hh Ha Hp) as Hsz. pose proof (repr_live _ _ _ _ _ _ HR Hh Ha) as Hlive.
    destruct (decide (lg_slab l = id)) as [El|Hne]; [|unfold byte; cbn; by rewrite lookup_insert_ne by done].
    rewrite (byte_of (put_slab id s' w) l s') by (rewrite El; apply slab_put). rewrite (byte_of w l s) by by rewrite El.
    destruct (r_held _ _ _ HR l Ha) as (L & HL & Hle). specialize (HL _ _ Hh). destruct L as [|a L]; [by apply elem_of_nil in HL|].
    specialize (Hr l). rewrite decide_True in Hr by done. unfold zlen in Hle. cbn in Hle.
    rewrite (refs_of (put_slab id s' w) l s') in Hr by (rewrite El; apply slab_put). rewrite (refs_of w l s) in * by by rewrite El.
    rewrite (size_of w l s) in Hsz by by rewrite El. apply K3; [done|lia|done].
Qed.
Lemma lower_slabs_spec d gs : forall owed w, repr owed w d -> NoDup (map fst gs) ->
  (forall id slots i, (id, slots) ∈ gs -> i ∈ slots <-> mkLeg id i ∈ owed) -> (forall l, l ∈ owed -> exists slots, (lg_slab l, slots) ∈ gs) ->
  wp (for_each lower_slab gs) (fun r w' => r = Ok () /\ softened w w' /\ repr [] w' d) w.
Proof using Type.
  induction gs as [|[id slots] gs IH]; intros owed w HR Hnd Hin Hall.
  { apply twp_ret. split; [done|]. split; [done|]. destruct owed as [|l owed]; [done|].
    destruct (Hall l ltac:(by left)) as [slots Hs]. by apply elem_of_nil in Hs. }
  cbn [map fst] in Hnd. apply NoDup_cons in Hnd as [Hn Hnd]. cbn [for_each].
  eapply wp_seq; [apply (lower_slab_spec owed w d id slots HR); intros i; apply Hin; by left| |by intros f w1 [? _]].
  intros [] w1 (_ & HF1 & HR1). eapply twp_mono; [apply (IH _ w1 HR1 Hnd)|].
  - intros id' slots' i Hg. rewrite list_elem_of_filter. rewrite (Hin id' slots' i) by by right. split; [|by intros [_ ?]].
    intros Hi. split; [|done]. cbn. intros ->. apply Hn, list_elem_of_fmap. by exists (id, slots').
  - intros l [Hne Hl]%list_elem_of_filter. destruct (Hall l Hl) as [slots' [[= ? _]|Hs]%elem_of_cons]; [done|by exists slots'].
  - intros r w2 (-> & Hs2 & HR2). split; [done|]. split; [|done]. etransitivity; [by apply (softened_frame _ _ _ HF1)|done].
Qed.

(** A volume gone, its legs not given back yet. *)
Lemma repr_forget w d v h g' owed : repr [] w d -> vols w !! v = Some h -> cold g' = ∅ ->
  (forall u, u <> v -> volumes g' !! u = volumes (gem w) !! u) -> (forall l, l ∈ owed -> exists y, holds w v y l) ->
  repr owed (set_gem g' (set_vols (delete v (vols w)) w)) d.
Proof using Type.
  intros HR Hv Hc Hg Hl. set (w' := set_gem g' _).
  assert (forall u y, mapped w' u y = if decide (u = v) then None else mapped w u y) as Hm.
  { intros u y. unfold mapped. cbn. case_decide as Hu; [subst u; by rewrite lookup_delete_eq|rewrite lookup_delete_ne by done].
    unfold ext_at. by rewrite Hg. }
  assert (forall u y loc, mapped w' u y = Some loc -> u <> v /\ mapped w u y = Some loc) as Hm2 by (intros u y loc; rewrite Hm; by case_decide).
  assert (forall u y l, holds w' u y l -> u <> v /\ holds w u y l) as Hh.
  { intros u y l (loc & E & Hin). apply Hm2 in E as [Hne E]. split; [done|by exists loc]. }
  assert (forall u hu, vols w' !! u = Some hu -> u <> v /\ vols w !! u = Some hu) as Hvs by (intros u hu; cbn; rewrite lookup_delete_Some; by intros [? ?]).
  constructor.
  - done.
  - apply (r_slabs _ _ _ HR).
  - intros u hu [_ E]%Hvs. by destruct (r_handle _ _ _ HR u hu E).
  - intros u hu y l [_ E]%Hvs [_ Hhl]%Hh. by apply (r_size _ _ _ HR u hu y l).
  - intros u hu y loc [_ E]%Hvs Hn [_ Em]%Hm2. by eapply (r_single _ _ _ HR).
  - intros u hu y [Hne E]%Hvs. cbn. unfold par_at. rewrite Hg by done. by apply (r_parity _ _ _ HR u hu).
  - intros u y loc [_ Em]%Hm2. by eapply (r_count _ _ _ HR).
  - intros u y loc [_ Em]%Hm2. by eapply (r_nodup _ _ _ HR).
  - intros u y loc l u2 y2 [_ Em]%Hm2 Hone Hin [_ Hh2]%Hh. by eapply (r_alone _ _ _ HR).
  - intros u y loc u2 y2 loc2 l [_ Em]%Hm2 [_ Em2]%Hm2. by eapply (r_same _ _ _ HR).
  - intros l Ha. destruct (r_held _ _ _ HR l Ha) as (L & HL & Hle). exists (filter (fun q => fst q <> v) L). split.
    + intros u y [Hne Hhl]%Hh. apply list_elem_of_filter. split; [done|by apply HL].
    + pose proof (length_filter (fun q => fst q <> v) L) as Hf. pose proof (owes_range [] l). change (refs w' l) with (refs w l). unfold zlen in *.
      destruct (decide (l ∈ owed)) as [Ho|Ho]; [|rewrite (owes_not owed) by done; lia]. rewrite (owes_in owed) by done.
      destruct (Hl l Ho) as [y Hy]. pose proof (length_filter_lt (fun q => fst q <> v) L (v, y) (HL _ _ Hy) ltac:(by intros Hn; apply Hn)). lia.
  - intros u hu y l p [_ E]%Hvs [_ Hhl]%Hh. by apply (r_data _ _ _ HR).
  - intros u hu y p [Hne E]%Hvs. rewrite Hm, decide_False by done. by apply (r_zero _ _ _ HR).
Qed.

Lemma delete_volume_spec load w d v h : repr [] w d -> vols w !! v = Some h ->
  wp (delete_volume load order v) (fun r w' => r = Ok () /\ repr [] w' d /\ vols w' !! v = None
    /\ forall u, u <> v -> option_Forall2 softer (vols w !! u) (vols w' !! u)) w.
Proof using Horder.
  intros HR Hv. unfold delete_volume. apply twp_gets. rewrite Hv. apply (wp_resident _ _ _ _ _ _ HR).
  apply twp_bind. unfold wp at 1, modify. cbn [fst snd]. unfold delete_snapshot_with. apply twp_bind. unfold wp at 1, on_gem, remove_volume.
  rewrite check_in_memory by apply (r_cold _ _ _ HR). cbn [rbind gem set_vols fst snd].
  destruct (touch_fields (MWhole v) (gem w)) as [E1 E2]. cbn [put_mark] in E1, E2.
  set (g' := with_volumes (delete v (volumes (touch_whole v (gem w)))) (touch_whole v (gem w))).
  assert (cold g' = ∅) as Hc by (cbn; rewrite E1; apply HR).
  assert (forall u, u <> v -> volumes g' !! u = volumes (gem w) !! u) as Hg by (intros u Hne; cbn; rewrite E2; by apply lookup_delete_ne).
  assert (forall w', softened (set_gem g' (set_vols (delete v (vols w)) w)) w' -> vols w' !! v = None
    /\ forall u, u <> v -> option_Forall2 softer (vols w !! u) (vols w' !! u)) as Hend.
  { intros w' Hs. split.
    - specialize (Hs v). cbn in Hs. rewrite lookup_delete_eq in Hs. by inversion Hs.
    - intros u Hne. specialize (Hs u). cbn in Hs. by rewrite lookup_delete_ne in Hs. }
  rewrite E2. destruct (volumes (gem w) !! v) as [m|] eqn:Em.
  - assert (forall y, parity m !! y = None) as Hpm.
    { intros y. pose proof (r_parity _ _ _ HR v h y Hv) as E. unfold par_at in E. by rewrite Em in E. }
    eapply twp_mono; [apply (lower_slabs_spec d (grouped order (all_legs m)) (all_legs m))|].
    + eapply repr_forget; [done..|]. intros l (y & loc & E & Hl)%(all_legs_plain _ _ Hpm). exists y, loc.
      by rewrite (volume_map w v h m Hv Em).
    + by apply grouped_nodup.
    + intros id slots i Hgr. rewrite (elem_of_grouped _ _ _ _ Horder Hgr), list_elem_of_fmap. split.
      * intros (l & -> & [<- Hl]%list_elem_of_filter). by rewrite leg_eta.
      * intros Hl. exists (mkLeg id i). split; [done|]. by apply list_elem_of_filter.
    + intros l Hl. by apply grouped_has.
    + intros r w' (-> & Hs & HR'). split; [done|]. split; [done|]. by apply Hend.
  - apply twp_ret. split; [done|]. split; [|by apply Hend]. eapply repr_forget; [done..|]. by intros l ?%elem_of_nil.
Qed.
End laws.
