(* ===== verification/Resync.v ===== *)
(** Resync of a volume, [volume/thin.rs]: the legs of its extents made what its policy asks
    for.  It runs as [resync] runs it, one extent at a time, with no throttle, cancel or
    checkpoint, every map in memory; a parity volume's half is a parameter.  A volume none
    of whose extents is shared keeps its bytes and, when the report has no error, has the
    legs its policy asks for, whatever fails. *)

From Stdlib Require Import String.
From stdpp Require Import strings.
From S2P Require Import Prelude SlabFormat GemData ExtMap Gem GemProofs Redundancy SlotStore Registry Thin ThinInv ThinAlloc ThinRepr ThinOps ThinDisks Volumes.
#[local] Open Scope Z_scope.

(** ** What a resync reports *)

Inductive ResyncError :=
| NoReadableLeg (vext : Z) | EveryLegFailed (vext : Z) | NoSlotFor (vext : Z) | LegNotWritten (vext : Z) | SchemeRefused.
(** A leg written and not mapped yet. *)
Record Deferred := mkDeferred {
  df_unit : Z; df_vext : Z; df_parity : bool; df_old : option Leg; df_beside : Leg; df_new : Leg }.
Record UnitOutcome := mkOutcome {
  uo_rebuilt : Z; uo_added : Z; uo_verified : Z; uo_unrecoverable : Z; uo_bytes : Z; uo_errors : list ResyncError;
  uo_owed : list Leg; uo_deferred : list Deferred }.
Record ResyncReport := mkReport {
  legs_rebuilt : Z; legs_added : Z; legs_dropped : Z; parity_verified : Z; unrecoverable : Z; slabs_cleared : list SlabId;
  rr_errors : list ResyncError; units_considered : Z; bytes_copied : Z; rr_owed : list Leg }.
Definition no_outcome : UnitOutcome := mkOutcome 0 0 0 0 0 [] [] [].
Definition no_report : ResyncReport := mkReport 0 0 0 0 0 [] [] 0 0 [].

Definition lost (e : ResyncError) : UnitOutcome := mkOutcome 0 0 0 1 0 [e] [] [].
Definition push_error (e : ResyncError) (o : UnitOutcome) : UnitOutcome :=
  mkOutcome (uo_rebuilt o) (uo_added o) (uo_verified o) (uo_unrecoverable o) (uo_bytes o) (uo_errors o ++ [e]) (uo_owed o) (uo_deferred o).
Definition push_bytes (n : Z) (o : UnitOutcome) : UnitOutcome :=
  mkOutcome (uo_rebuilt o) (uo_added o) (uo_verified o) (uo_unrecoverable o) (uo_bytes o + n) (uo_errors o) (uo_owed o) (uo_deferred o).
Definition push_deferred (d : Deferred) (o : UnitOutcome) : UnitOutcome :=
  mkOutcome (uo_rebuilt o) (uo_added o) (uo_verified o) (uo_unrecoverable o) (uo_bytes o) (uo_errors o) (uo_owed o) (uo_deferred o ++ [d]).
(** A leg mapped in place of [old], or beside the others. *)
Definition push_leg (old : option Leg) (o : UnitOutcome) : UnitOutcome :=
  match old with
  | Some l => mkOutcome (uo_rebuilt o + 1) (uo_added o) (uo_verified o) (uo_unrecoverable o) (uo_bytes o) (uo_errors o) (uo_owed o ++ [l])
                (uo_deferred o)
  | None => mkOutcome (uo_rebuilt o) (uo_added o + 1) (uo_verified o) (uo_unrecoverable o) (uo_bytes o) (uo_errors o) (uo_owed o) (uo_deferred o)
  end.
(** The first errors are kept, past sixty-four no more are taken. *)
Definition absorb (rr : ResyncReport) (o : UnitOutcome) : ResyncReport :=
  mkReport (legs_rebuilt rr + uo_rebuilt o) (legs_added rr + uo_added o) (legs_dropped rr) (parity_verified rr + uo_verified o)
    (unrecoverable rr + uo_unrecoverable o) (slabs_cleared rr)
    (if (length (rr_errors rr) <? 64)%nat then rr_errors rr ++ uo_errors o else rr_errors rr) (units_considered rr)
    (bytes_copied rr + uo_bytes o) (rr_owed rr ++ uo_owed o).

Section resync.
Context {S : Type} `{SlotStore S} (load : VolumeId -> option VolumeExtentMap).
Notation "'let!' x ':=' m 'in' k" := (bind m (fun x => k)) (at level 10, x name, m at level 200, k at level 200).
Notation "m ;; k" := (bind m (fun _ => k)) (at level 100, right associativity).

(** ** One extent *)

Definition trusted (h : Volume) (r : SlabRegistry S) (l : Leg) : bool :=
  bool_decide (is_Some (slabs r !! lg_slab l)) && negb (is_failed h (lg_slab l)).
Fixpoint read_any (ls : list Leg) (n : Z) : M S (option bytes) :=
  match ls with
  | [] => ret None
  | l :: r => let! x := attempt (read_leg l 0 n) in match x with Ok b => ret (Some b) | Err _ => read_any r n end
  end.
(** The share count is carried to the new slot. *)
Definition carry_shares (l : Leg) (n : Z) : M S () :=
  for_each (fun _ => let! _ := if_slab (lg_slab l) (ss_inc_ref (lg_slot l)) in ret ()) (zrange 1 n).

Fixpoint rebuild_legs (n : nat) (v : VolumeId) (vext : Z) (loc : ExtentLocation) (p : RedundancyPolicy) (beside : Leg) (data : bytes)
    (taken : list FailureDomain) (old : list Leg) (out : UnitOutcome) : M S UnitOutcome :=
  match n with
  | O => ret out
  | Datatypes.S n =>
      let! x := attempt (allocate_apart v vext taken (spread p) (generation loc)) in
      match x with
      | Err _ => ret (push_error (NoSlotFor vext) out)
      | Ok new =>
          let! r := gets registry in
          let again := rebuild_legs n v vext loc p beside data (taken ++ [domain_of r (lg_slab new)]) in
          let! x := attempt (write_leg new 0 data) in
          match x with
          | Err e => give_back [new] ;; mark_failed v (lg_slab new) e ;; again old (push_error (LegNotWritten vext) out)
          | Ok _ =>
              let out := push_bytes (zlen data) out in
              (if 1 <? ref_count loc then carry_shares new (ref_count loc) else ret ()) ;;
              let o := hd_error old in
              if 1 <? ref_count loc then again (tl old) (push_deferred (mkDeferred vext vext false o beside new) out)
              else
                let! published := on_gem (match o with Some o => replace_leg v vext o new | None => add_leg v vext new end) in
                if published : bool then commit_legs [new] ;; again (tl old) (push_leg o out)
                else give_back [new] ;; again (tl old) out
          end
      end
  end.

(** What was done, and the legs past what the policy asks for. *)
Definition mirror_extent (v : VolumeId) (vext : Z) (copies : Z) (p : RedundancyPolicy) : M S (UnitOutcome * list Leg) :=
  let! loc := fenced_lookup v vext in
  match loc with
  | None => ret (no_outcome, [])
  | Some loc =>
      let! h := handle v in
      let! r := gets registry in
      let healthy := filter (fun l => trusted h r l = true) (legs loc) in
      let missing := filter (fun l => trusted h r l = false) (legs loc) in
      match healthy with
      | [] => ret (lost (NoReadableLeg vext), [])
      | beside :: _ =>
          if copies <=? zlen healthy then ret (no_outcome, missing ++ rev (drop (Z.to_nat copies) healthy))
          else
            let! data := read_any healthy (vslot h) in
            match data with
            | None => ret (lost (EveryLegFailed vext), [])
            | Some data =>
                let! r := gets registry in
                let! out := rebuild_legs (Z.to_nat (copies - zlen healthy)) v vext loc p beside data
                              (map (fun l => domain_of r (lg_slab l)) healthy) missing no_outcome in
                ret (out, [])
            end
      end
  end.

(** ** Shared extents *)

(** Whether what a new leg was written for is still there, and still shared. *)
Definition still_shared (v : VolumeId) (d : Deferred) (g : GlobalExtentMap) : result Panic (option bool) :=
  if df_parity d then
    let? x := lookup_parity g v (df_vext d) in
    Ok ((fun p => (1 <? pg_refs p) && match df_old d with Some o => bool_decide (o ∈ pg_legs p) | None => false end) <$> x)
  else
    let? x := lookup g v (df_vext d) in
    Ok ((fun l => (1 <? ref_count l) && match df_old d with
                                        | Some o => bool_decide (o ∈ legs l)
                                        | None => bool_decide (df_beside d ∈ legs l) && negb (bool_decide (df_new d ∈ legs l))
                                        end) <$> x).
Record Sorted := mkSorted { st_moves : gmap Leg Leg; st_adds : list (Leg * Leg); st_back : list Leg; st_redo : list Z }.
Fixpoint sort_deferred (v : VolumeId) (ds : list Deferred) (s : Sorted) : M S Sorted :=
  match ds with
  | [] => ret s
  | d :: r =>
      let! x := of_gem (still_shared v d) in
      sort_deferred v r (match x with
        | Some true => match df_old d with
                       | Some o => mkSorted (<[o := df_new d]> (st_moves s)) (st_adds s) (st_back s) (st_redo s)
                       | None => mkSorted (st_moves s) (st_adds s ++ [(df_beside d, df_new d)]) (st_back s) (st_redo s)
                       end
        | Some false => mkSorted (st_moves s) (st_adds s) (st_back s ++ [df_new d]) (st_redo s ++ [df_unit d])
        | None => mkSorted (st_moves s) (st_adds s) (st_back s ++ [df_new d]) (st_redo s)
        end)
  end.
(** One sweep of every map; what is to be done again. *)
Definition publish_deferred (v : VolumeId) (ds : list Deferred) (rr : ResyncReport) : M S (list Z * ResyncReport) :=
  match ds with
  | [] => ret ([], rr)
  | _ =>
      let! s := sort_deferred v ds (mkSorted ∅ [] [] []) in
      let! _ := on_gem (rewrite_legs (st_moves s)) in
      for_each (fun bn => let! _ := on_gem (add_leg_beside (fst bn) (snd bn)) in ret ()) (st_adds s) ;;
      commit_legs (map snd (map_to_list (st_moves s)) ++ map snd (st_adds s)) ;;
      give_back (st_back s) ;;
      ret (sort_dedup (st_redo s),
           mkReport (legs_rebuilt rr + Z.of_nat (size (st_moves s))) (legs_added rr + zlen (st_adds s)) (legs_dropped rr) (parity_verified rr)
             (unrecoverable rr) (slabs_cleared rr) (rr_errors rr) (units_considered rr) (bytes_copied rr)
             (rr_owed rr ++ map fst (map_to_list (st_moves s))))
  end.

(** ** The volume *)

Fixpoint mirror_extents (v : VolumeId) (copies : Z) (p : RedundancyPolicy) (xs : list Z) (rr : ResyncReport) (ds : list Deferred) (drops : list Leg)
    : M S (ResyncReport * list Deferred * list Leg) :=
  match xs with
  | [] => ret (rr, ds, drops)
  | x :: xs =>
      let! od := mirror_extent v x copies p in
      mirror_extents v copies p xs (absorb rr (fst od)) (ds ++ uo_deferred (fst od)) (drops ++ snd od)
  end.
(** Extents that stopped being shared meanwhile; one that is again waits for the next resync. *)
Fixpoint redo_extents (v : VolumeId) (copies : Z) (p : RedundancyPolicy) (xs : list Z) (rr : ResyncReport) (drops : list Leg)
    : M S (ResyncReport * list Leg) :=
  match xs with
  | [] => ret (rr, drops)
  | x :: xs =>
      let! od := mirror_extent v x copies p in
      for_each (fun d => give_back [df_new d]) (uo_deferred (fst od)) ;;
      redo_extents v copies p xs (absorb rr (fst od)) (drops ++ snd od)
  end.
Definition count_dropped (n : Z) (rr : ResyncReport) : ResyncReport :=
  mkReport (legs_rebuilt rr) (legs_added rr) (legs_dropped rr + n) (parity_verified rr) (unrecoverable rr) (slabs_cleared rr) (rr_errors rr)
    (units_considered rr) (bytes_copied rr) (rr_owed rr).
Definition free_slot (l : Leg) : M S (option (result DriveError ())) := if_slab (lg_slab l) (ss_free (lg_slot l)).
Fixpoint free_dropped (ls : list Leg) (rr : ResyncReport) : M S ResyncReport :=
  match ls with
  | [] => ret rr
  | l :: ls =>
      let! x := free_slot l in
      free_dropped ls (match x with Some (Ok _) => count_dropped 1 rr | _ => rr end)
  end.

(** The extents with a leg off a trusted slab, or not as many as they should have. *)
Definition needs_work (h : Volume) (r : SlabRegistry S) (copies : Z) (l : ExtentLocation) : bool :=
  negb (leg_count l =? copies) || existsb (fun k => negb (trusted h r k)) (legs l).
Definition set_considered (n : Z) (rr : ResyncReport) : ResyncReport :=
  mkReport (legs_rebuilt rr) (legs_added rr) (legs_dropped rr) (parity_verified rr) (unrecoverable rr) (slabs_cleared rr) (rr_errors rr)
    (units_considered rr + n) (bytes_copied rr) (rr_owed rr).
Definition resync_mirror (v : VolumeId) (p : RedundancyPolicy) (rr : ResyncReport) : M S ResyncReport :=
  let copies := copies (scheme p) in
  let! r := gets registry in
  let! h := handle v in
  let! es := of_gem (fun g => volume_extents g v) in
  let todo := map fst (filter (fun xl => needs_work h r copies (snd xl) = true) (default [] es)) in
  let! a := mirror_extents v copies p todo (set_considered (zlen todo) rr) [] [] in
  let! b := publish_deferred v (snd (fst a)) (fst (fst a)) in
  let! c := redo_extents v copies p (fst b) (snd b) (snd a) in
  for_each (fun l => let! _ := on_gem (drop_leg_everywhere l) in ret ()) (snd c) ;;
  free_dropped (snd c) (fst c).

Definition set_cleared (l : list SlabId) (rr : ResyncReport) : ResyncReport :=
  mkReport (legs_rebuilt rr) (legs_added rr) (legs_dropped rr) (parity_verified rr) (unrecoverable rr) l (rr_errors rr) (units_considered rr)
    (bytes_copied rr) (rr_owed rr).
(** A failed slab that has nothing of the volume's any more is forgiven. *)
Definition forgive (v : VolumeId) (rr : ResyncReport) : M S ResyncReport :=
  let! used := gets (fun w => match volumes (gem w) !! v with Some m => list_to_set (map lg_slab (all_legs m)) | None => ∅ end : gset SlabId) in
  let! h := handle v in
  update v (fun h => set_failed (failed h ∩ used) h) ;;
  ret (set_cleared (elements (failed h ∖ used)) rr).

(** The parity half of [resync_with]. *)
Context (resync_parity : VolumeId -> RedundancyPolicy -> ResyncReport -> M S ResyncReport).
Definition resync_with (v : VolumeId) : M S ResyncReport :=
  let! h := handle v in
  if refused h then ret (mkReport 0 0 0 0 0 [] [SchemeRefused] 0 0 [])
  else
    let! _ := attempt (resident load v) in
    let! h := handle v in
    let p := policy h in
    let! rr := (if is_parity (scheme p) then resync_parity v p no_report else resync_mirror v p no_report) in
    forgive v rr.
Definition release_slots (v : VolumeId) (ls : list Leg) : M S () :=
  let! _ := attempt (resident load v) in for_each (fun l => let! _ := free_slot l in ret ()) ls.
(** [resync]: the slots replaced are freed at the end. *)
Definition take_owed (rr : ResyncReport) : ResyncReport :=
  mkReport (legs_rebuilt rr) (legs_added rr) (legs_dropped rr) (parity_verified rr) (unrecoverable rr) (slabs_cleared rr) (rr_errors rr)
    (units_considered rr) (bytes_copied rr) [].
Definition resync (v : VolumeId) : M S ResyncReport :=
  let! _ := attempt (resident load v) in
  let! rr := resync_with v in
  release_slots v (rr_owed rr) ;;
  ret (take_owed rr).
End resync.

(** ** The extent map changed in one place *)

Lemma update_extent_effect {R} g v x (f : ExtentLocation -> ExtentLocation * R) hit loc : ext_at (volumes g) v x = Some loc ->
  let r := update_extent v x f hit g in
  fst r = hit (Some (snd (f loc))) /\ cold (snd r) = cold g
  /\ (forall u y, ext_at (volumes (snd r)) u y = if decide (u = v /\ y = x) then Some (fst (f loc)) else ext_at (volumes g) u y)
  /\ forall u y, par_at (volumes (snd r)) u y = par_at (volumes g) u y.
Proof.
  unfold ext_at, par_at, update_extent, em_update. cbv zeta. destruct (volumes g !! v) as [m|] eqn:Em; [|done]. cbn. intros Ex. rewrite Ex.
  set (g1 := with_volumes _ g). assert (forall b : bool, cold (snd (if b then (true, touch v x g1) else (false, g1))) = cold g
    /\ volumes (snd (if b then (true, touch v x g1) else (false, g1))) = volumes g1) as Hf.
  { intros b. destruct (touch_fields (MExt v x) g1) as [E1 E2]. cbn in E1, E2. destruct b; cbn [snd]; [by rewrite E1, E2|done]. }
  split; [by destruct (hit _)|]. destruct (Hf (hit (Some (snd (f loc))))) as [-> ->]. split; [done|]. cbn. split; intros u y.
  - destruct (decide (u = v)) as [->|Hu]; [|by rewrite lookup_insert_ne, decide_False by (done || naive_solver)].
    rewrite lookup_insert_eq. cbn. destruct (decide (y = x)) as [->|Hy]; [by rewrite lookup_insert_eq, decide_True|].
    by rewrite lookup_insert_ne, decide_False, Em by (done || naive_solver).
  - destruct (decide (u = v)) as [->|Hu]; [by rewrite lookup_insert_eq, Em|by rewrite lookup_insert_ne].
Qed.

(** What becomes of a location's legs. *)
Lemma filter_but k (ls : list Leg) : k ∉ ls -> filter (fun m => m <> k) ls = ls.
Proof.
  induction ls as [|m ls IH]; [done|]. intros [Hne Hk]%not_elem_of_cons. rewrite filter_cons, decide_True by congruence. by rewrite IH.
Qed.
Lemma replace_first_perm old new ms : old ∈ ms -> exists ms' R, replace_first old new ms = Some ms' /\ ms ≡ₚ old :: R /\ ms' ≡ₚ new :: R.
Proof.
  induction ms as [|m ms IH]; [by intros ?%elem_of_nil|]. cbn. destruct (decide (m = old)) as [->|Hne]; [intros _; by exists (new :: ms), ms|].
  intros [->|Hin]%elem_of_cons; [done|]. destruct (IH Hin) as (ms' & R & -> & E1 & E2). exists (m :: ms'), (m :: R).
  split; [done|]. split; [rewrite E1|rewrite E2]; apply Permutation_swap.
Qed.
Lemma replace_leg_legs old new l : old ∈ legs l -> exists R, snd (replace_leg_in old new l) = true
  /\ ref_count (fst (replace_leg_in old new l)) = ref_count l /\ legs l ≡ₚ old :: R /\ legs (fst (replace_leg_in old new l)) ≡ₚ new :: R.
Proof.
  unfold replace_leg_in. destruct (decide (primary l = old)) as [<-|Hne]; intros Hin.
  - exists (mirrors l). split; [done|]. split; [done|]. split; [done|]. unfold legs, primary. cbn. by rewrite leg_eta.
  - apply elem_of_cons in Hin as [->|Hin]; [done|]. destruct (replace_first_perm old new _ Hin) as (ms' & R & -> & E1 & E2).
    exists (primary l :: R). split; [done|]. split; [done|]. unfold legs, primary. cbn. split; [rewrite E1|rewrite E2]; apply Permutation_swap.
Qed.
Lemma drop_leg_legs k l : NoDup (legs l) -> k ∈ legs l -> legs l <> [k] -> exists R, ref_count (fst (drop_leg_in k l)) = ref_count l
  /\ legs l ≡ₚ k :: R /\ legs (fst (drop_leg_in k l)) ≡ₚ R /\ snd (drop_leg_in k l) = true.
Proof.
  unfold drop_leg_in. intros Hn Hk Hl. destruct (decide (primary l = k)) as [<-|Hne].
  - destruct (mirrors l) as [|m ms] eqn:Em; [by unfold legs in Hl; rewrite Em in Hl|]. exists (m :: ms). split; [done|].
    unfold legs, primary. cbn. by rewrite Em, leg_eta.
  - apply elem_of_cons in Hk as [->|Hk]; [done|]. exists (primary l :: filter (fun m => m <> k) (mirrors l)).
    apply NoDup_cons in Hn as [_ Hn]. assert (mirrors l ≡ₚ k :: filter (fun m => m <> k) (mirrors l)) as E.
    { clear - Hn Hk. induction (mirrors l) as [|m ms IH]; [by apply elem_of_nil in Hk|]. rewrite filter_cons. apply NoDup_cons in Hn as [Hm Hn].
      destruct (decide (m = k)) as [->|Hne].
      - rewrite decide_False by (intros E; by apply E). by rewrite filter_but.
      - rewrite decide_True by done. apply elem_of_cons in Hk as [->|Hk]; [done|]. rewrite (IH Hn Hk) at 1. apply Permutation_swap. }
    pose proof (Permutation_length E) as El. cbn in El. destruct (Nat.eqb_spec (length (filter (fun m => m <> k) (mirrors l))) (length (mirrors l))); [lia|].
    split; [done|]. split; [|done]. unfold legs. rewrite E at 1. apply Permutation_swap.
Qed.
Lemma drop_leg_other k l : k ∉ legs l -> fst (drop_leg_in k l) = l.
Proof.
  unfold drop_leg_in, legs. intros [Hp Hm]%not_elem_of_cons. rewrite decide_False by congruence. by rewrite filter_but, Nat.eqb_refl by done.
Qed.

(** A sweep of every map: each location on its own. *)
Section sweep.
Context (f : ExtentLocation -> ExtentLocation * bool) (Hf : forall l, snd (f l) = false -> fst (f l) = l).
Let h (id : VolumeId) (m : VolumeExtentMap) (s : Z * list (VolumeId * Z)) : VolumeExtentMap * (Z * list (VolumeId * Z)) :=
  let '(e, s) := em_each (tally f id) (extents m) s in (mkVmap e (parity m), s).
Lemma tally_each id m s : fst (h id m s) = mkVmap (fst (em_each (tally f id) (extents m) s)) (parity m)
  /\ forall y, extents (fst (h id m s)) !! y = (fun l => fst (f l)) <$> extents m !! y.
Proof using Hf.
  unfold h. destruct (em_each _ _ s) as [e s'] eqn:E. split; [done|]. intros y. cbn.
  pose proof (each_lookup (tally f id) (fun _ l => fst (f l))) as Hl. specialize (Hl) with (m := extents m) (s := s) (v := y). rewrite E in Hl. apply Hl.
  intros v l s0. unfold tally. specialize (Hf l). destruct (f l) as [l' [|]]; cbn in *; [done|by rewrite Hf].
Qed.
Lemma sweep_tally_steps L : forall (vs : gmap VolumeId VolumeExtentMap) s, NoDup (map fst L) -> (forall v m, (v, m) ∈ L -> vs !! v = Some m) ->
  let r := fst (foldl (sweep_step h) (vs, s) L) in
  forall u, (u ∈ map fst L -> exists m m', vs !! u = Some m /\ r !! u = Some m' /\ parity m' = parity m
               /\ forall y, extents m' !! y = (fun l => fst (f l)) <$> extents m !! y) /\ (u ∉ map fst L -> r !! u = vs !! u).
Proof using Hf.
  induction L as [|[v m] L IH]; intros vs s Hnd Hin r u; [split; [by intros ?%elem_of_nil|done]|]. cbn [map fst] in Hnd. apply NoDup_cons in Hnd as [Hv Hnd].
  subst r. cbn [foldl]. unfold sweep_step at 2 4. cbn [fst snd]. destruct (tally_each v m s) as [E1 E2]. destruct (h v m s) as [m' s'] eqn:Eh. cbn [fst] in E1, E2.
  destruct (IH (<[v := m']> vs) s' Hnd) with (u := u) as [H1 H2].
  { intros w z Hw. rewrite lookup_insert_ne; [apply Hin; by right|]. intros ->. apply Hv, list_elem_of_fmap. by exists (w, z). }
  cbn [map fst]. split.
  - intros [->|Hu]%elem_of_cons.
    + exists m, m'. split; [apply Hin; by left|]. rewrite H2 by done. rewrite lookup_insert_eq. by subst m'.
    + assert (u <> v) as Hne by (intros ->; done). destruct (H1 Hu) as (m0 & m1 & E & ?). rewrite lookup_insert_ne in E by done. by exists m0, m1.
  - intros [Hne Hu]%not_elem_of_cons. rewrite H2 by done. by rewrite lookup_insert_ne.
Qed.
End sweep.
Lemma drop_everywhere_effect g k : cold g = ∅ -> exists n g', drop_leg_everywhere k g = Ok (n, g') /\ cold g' = ∅
  /\ (forall u y, ext_at (volumes g') u y = (fun l => fst (drop_leg_in k l)) <$> ext_at (volumes g) u y)
  /\ forall u y, par_at (volumes g') u y = par_at (volumes g) u y.
Proof.
  intros Hc. unfold drop_leg_everywhere, sweep_tally, check_all. rewrite Hc. cbn [rbind].
  rewrite decide_True by done. cbn [rbind]. unfold sweep_extents, sweep.
  pose proof (sweep_tally_steps (drop_leg_in k) (drop_leg_in_hit k) (map_to_list (volumes g)) (volumes g) (0, [])) as Hs.
  set (r := foldl _ _ _) in *. destruct r as [vs [n ts]]. eexists _, _. split; [reflexivity|]. rewrite touch_all_marks. cbn [fst snd].
  destruct (marks_fields (map (fun t => MExt (fst t) (snd t)) ts) (with_volumes vs g)) as (E1 & E2 & _). rewrite E1, E2.
  split; [done|]. cbn [fst] in Hs. specialize (Hs (NoDup_fst_map_to_list _) ltac:(by intros v m ?%elem_of_map_to_list)).
  assert (forall u, u ∈ map fst (map_to_list (volumes g)) <-> is_Some (volumes g !! u)) as Hk.
  { intros u. rewrite list_elem_of_fmap. split; [intros ([w m] & -> & Hm%elem_of_map_to_list); by exists m|].
    intros [m Hm]. exists (u, m). split; [done|by apply elem_of_map_to_list]. }
  split; intros u y; unfold ext_at, par_at; cbn; destruct (volumes g !! u) as [m|] eqn:Em.
  1, 3: destruct (proj1 (Hs u) ltac:(apply Hk; by eexists)) as (m0 & m' & E & -> & Ep & Ee); rewrite Em in E; injection E as <-; cbn; first [apply Ee|by rewrite Ep].
  all: rewrite (proj2 (Hs u)) by (rewrite Hk; intros [? ?]; congruence); by rewrite Em.
Qed.

(** ** Legs of one extent exchanged *)

Section proofs.
Context {S : Type} `{SlotStoreLaws S}.

#[local] Existing Instance softened_po.
Definition unheld (w : world S) (l : Leg) : Prop := forall v x, ~ holds w v x l.
(** A leg that may be mapped as one of extent [x]. *)
Record good_leg (owed : list Leg) (w : world S) (d : disks) (v : VolumeId) (h : Volume) (x : Z) (n : Leg) : Prop := {
  gl_refs : 1 <= refs w n;
  gl_owed : n ∉ owed;
  gl_size : size_at w n = vslot h;
  gl_unheld : unheld w n;
  gl_bytes p : lg_slab n ∉ failed h -> 0 <= p < vslot h -> byte w n p = d v (x * vslot h + p) }.

Section swap.
Context (owed : list Leg) (w : world S) (d : disks) (v : VolumeId) (h : Volume) (x : Z) (loc loc' : ExtentLocation) (g' : GlobalExtentMap)
  (rem add R : list Leg) (HR : repr owed w d) (Hv : vols w !! v = Some h) (Hm : mapped w v x = Some loc) (Hone : ref_count loc <= 1)
  (Hc : cold g' = ∅)
  (Hg : forall u y, mapped (set_gem g' w) u y = if decide (u = v /\ y = x) then Some loc' else mapped w u y)
  (Hpar : forall u y, par_at (volumes g') u y = par_at (volumes (gem w)) u y)
  (Hcount : ref_count loc' = ref_count loc) (E1 : legs loc ≡ₚ rem ++ R) (E2 : legs loc' ≡ₚ add ++ R) (Hnd : NoDup add)
  (Hadd : forall n, n ∈ add -> good_leg owed w d v h x n) (Hsingle : is_none (policy h) = true -> mirrors loc' = []).
Local Abbreviation w' := (set_gem g' w).

Lemma swap_cases u y k : mapped w' u y = Some k -> (u = v /\ y = x /\ k = loc') \/ (~ (u = v /\ y = x) /\ mapped w u y = Some k).
Proof using All. rewrite Hg. case_decide as Hd; [left|right]; naive_solver. Qed.
Lemma in_new l : l ∈ legs loc' -> (l ∈ add /\ good_leg owed w d v h x l) \/ (l ∈ R /\ l ∈ legs loc /\ holds w v x l).
Proof using All.
  rewrite E2. intros [Hl|Hl]%elem_of_app; [left; auto|right]. assert (l ∈ legs loc) by (rewrite E1; apply elem_of_app; by right).
  split; [done|]. split; [done|by exists loc].
Qed.
Lemma swap_holds u y l : holds w' u y l -> (u = v /\ y = x /\ l ∈ legs loc') \/ (~ (u = v /\ y = x) /\ holds w u y l).
Proof using All. intros (k & E & Hl). destruct (swap_cases _ _ _ E) as [(-> & -> & ->)|[Hn E']]; [by left|right]. split; [done|by exists k]. Qed.
(** Nobody else holds what the extent held. *)
Lemma swap_alone l u y : l ∈ legs loc -> holds w u y l -> u = v /\ y = x.
Proof using All. intros Hl Hh. by eapply (r_alone _ _ _ HR). Qed.
Lemma swap_apart l u y : l ∈ legs loc' -> ~ (u = v /\ y = x) -> ~ holds w u y l.
Proof using All.
  intros [[_ Hl]|(_ & Hl & _)]%in_new Hne Hh; [by eapply gl_unheld|]. by apply Hne, (swap_alone l).
Qed.
Lemma swap_held l : attached w l -> exists L : list (VolumeId * Z),
  (forall u y, holds w' u y l -> (u, y) ∈ L) /\ zlen L + owes (rem ++ owed) l <= refs w l.
Proof using All.
  intros Ha. destruct (r_held _ _ _ HR l Ha) as (L & HL & Hle). pose proof (r_nodup _ _ _ HR v x loc Hm) as Hn. rewrite E1 in Hn. apply NoDup_app in Hn as (_ & Hdis & _).
  destruct (decide (l ∈ rem)) as [Hr|Hr].
  - assert (l ∈ legs loc) as Hl by (rewrite E1; apply elem_of_app; by left). exists (filter (fun q => q <> (v, x)) L). split.
    + intros u y [(-> & -> & Hl')|[Hne Hh]]%swap_holds; [|by destruct Hne; apply (swap_alone l)].
      destruct (in_new _ Hl') as [[_ Hgl]|(HinR & _)]; [exfalso; apply (gl_unheld _ _ _ _ _ _ _ Hgl v x); by exists loc|by destruct (Hdis l)].
    + pose proof (length_filter_lt (fun q => q <> (v, x)) L (v, x) (HL v x ltac:(by exists loc)) ltac:(tauto)).
      pose proof (owes_range owed l). pose proof (owes_range (rem ++ owed) l). unfold zlen in *. lia.
  - assert (owes (rem ++ owed) l = owes owed l) as -> by (unfold owes; do 2 case_bool_decide; set_solver).
    destruct (decide (l ∈ legs loc')) as [Hl|Hl]; [destruct (in_new _ Hl) as [[Hin Hgl]|(_ & Hl' & Hh)]|].
    + exists [(v, x)]. split.
      * intros u y [(-> & -> & _)|[_ Hh]]%swap_holds; [by left|]. by apply (gl_unheld _ _ _ _ _ _ _ Hgl) in Hh.
      * rewrite owes_not by apply Hgl. pose proof (gl_refs _ _ _ _ _ _ _ Hgl). unfold zlen. cbn. lia.
    + exists L. split; [|done]. intros u y [(-> & -> & _)|[_ Hh2]]%swap_holds; by apply HL.
    + exists L. split; [|done]. intros u y [(-> & -> & ?)|[_ Hh2]]%swap_holds; [done|by apply HL].
Qed.
Lemma repr_swap : repr (rem ++ owed) w' d.
Proof using All.
  assert (forall l, l ∈ legs loc' -> lg_slab l ∉ failed h -> attached w l -> forall p, 0 <= p < vslot h -> byte w l p = d v (x * vslot h + p)) as Hb.
  { intros l [[_ Hgl]|(_ & _ & Hh)]%in_new Hf Ha p Hp; [by eapply gl_bytes|by apply (r_data _ _ _ HR)]. }
  constructor.
  - done.
  - apply (r_slabs _ _ _ HR).
  - intros u hu Hu. by destruct (r_handle _ _ _ HR u hu Hu).
  - intros u hu y l Hu [(-> & -> & Hl)|[_ Hh]]%swap_holds Ha; [|by apply (r_size _ _ _ HR u hu y l)].
    cbn in Hu. rewrite Hv in Hu. injection Hu as <-. destruct (in_new _ Hl) as [[_ Hgl]|(_ & _ & Hh)]; [exact (gl_size _ _ _ _ _ _ _ Hgl)|exact (r_size _ _ _ HR v h x l Hv Hh Ha)].
  - intros u hu y k Hu Hn [(-> & -> & ->)|[_ E]]%swap_cases; [|by eapply r_single]. cbn in Hu. rewrite Hv in Hu. injection Hu as <-. by apply Hsingle.
  - intros u hu y Hu. cbn. rewrite Hpar. by apply (r_parity _ _ _ HR u hu).
  - intros u y k [(_ & _ & ->)|[_ E]]%swap_cases; [rewrite Hcount|]; by eapply r_count.
  - intros u y k [(_ & _ & ->)|[_ E]]%swap_cases; [|by eapply r_nodup]. rewrite E2. pose proof (r_nodup _ _ _ HR v x loc Hm) as Hn. rewrite E1 in Hn.
    apply NoDup_app in Hn as (_ & _ & Hn). apply NoDup_app. split; [done|]. split; [|done]. intros l Hl HlR.
    apply (gl_unheld _ _ _ _ _ _ _ (Hadd l Hl) v x). exists loc. split; [done|]. rewrite E1. apply elem_of_app. by right.
  - intros u y k l u2 y2 [(-> & -> & ->)|[Hne E]]%swap_cases Hk Hl [(-> & -> & Hl2)|[Hne2 Hh]]%swap_holds; [done| | |by eapply (r_alone _ _ _ HR)].
    + by destruct (swap_apart l u2 y2).
    + destruct (swap_apart l u y); [done|done|by exists k].
  - intros u y k u2 y2 k2 l [(-> & -> & ->)|[Hne E]]%swap_cases [(-> & -> & ->)|[Hne2 E']]%swap_cases Hl Hl2 j; [done| | |by eapply (r_same _ _ _ HR)].
    + destruct (swap_apart l u2 y2); [done|done|by exists k2].
    + destruct (swap_apart l u y); [done|done|by exists k].
  - apply swap_held.
  - intros u hu y l p Hu [(-> & -> & Hl)|[Hne Hh]]%swap_holds Hf Ha Hp; [|by eapply (r_data _ _ _ HR)].
    cbn in Hu. rewrite Hv in Hu. injection Hu as <-. by apply Hb.
  - intros u hu y p Hu. rewrite Hg. case_decide; [done|]. by apply (r_zero _ _ _ HR u hu).
Qed.
End swap.

(** ** What leaves the handles alone, and fails only as a drive does *)

Definition plain {A} (m : M S A) : Prop := forall w, vols (snd (m w)) = vols w /\ forall f, fst (m w) = Err f -> failure f.
Lemma wp_plain {A} (m : M S A) (P : result fault A -> world S -> Prop) w : plain m -> wp m P w ->
  wp m (fun r w' => P r w' /\ vols w' = vols w /\ forall f, r = Err f -> failure f) w.
Proof. intros Hm HP. destruct (Hm w). by split. Qed.
Lemma kv_ret {A} (a : A) : plain (ret a).
Proof. by intros w. Qed.
Lemma kv_fail {A} e : plain (fail e : M S A).
Proof. intros w. split; [done|]. intros f [= <-]. by exists e. Qed.
Lemma kv_bind {A B} (m : M S A) (k : A -> M S B) : plain m -> (forall a, plain (k a)) -> plain (bind m k).
Proof.
  intros Hm Hk w. unfold bind. destruct (Hm w) as [Hv Hf]. destruct (m w) as [[a|f] w1]; cbn in *; [|by split; [|intros f' [= <-]; apply Hf]].
  destruct (Hk a w1) as [Hv1 Hf1]. by rewrite Hv1.
Qed.
Lemma kv_attempt {A} (m : M S A) : plain m -> plain (attempt m).
Proof.
  intros Hm w. unfold attempt. destruct (Hm w) as [Hv Hf]. destruct (m w) as [[a|f] w1]; cbn in *; [done|]. destruct (Hf f eq_refl) as [e ->]. done.
Qed.
Lemma kv_gets {A} (f : world S -> A) : plain (gets f).
Proof. by intros w. Qed.
Lemma kv_with_slab {A} id (f : S -> result DriveError A * S) : plain (with_slab id f).
Proof.
  intros w. unfold with_slab. destruct (slabs (registry w) !! id) as [s|]; [|split; [done|]; intros f' [= <-]; by eexists].
  destruct (f s) as [[a|e] s']; (split; [done|]); [done|]. intros f' [= <-]. by eexists.
Qed.
Lemma kv_if_slab {A} id (f : S -> A * S) : plain (if_slab id f).
Proof. intros w. unfold if_slab. destruct (slabs (registry w) !! id) as [s|]; [|done]. by destruct (f s). Qed.
Lemma kv_for_each {A} (f : A -> M S ()) l : (forall a, plain (f a)) -> plain (for_each f l).
Proof. intros Hf. induction l as [|a l IH]; [apply kv_ret|]. cbn. by apply kv_bind. Qed.
Lemma kv_handle v : plain (handle (S := S) v).
Proof. intros w. unfold handle. destruct (vols w !! v); [done|]. split; [done|]. intros f [= <-]. by eexists. Qed.
Lemma kv_registry (f : SlabRegistry S -> SlabRegistry S) : plain (modify (fun w => set_registry (f (registry w)) w)).
Proof. by intros w. Qed.
Ltac plainly := repeat first [progress intros | apply kv_ret | apply kv_fail | apply kv_attempt | apply kv_with_slab | apply kv_if_slab | apply kv_for_each
  | apply kv_gets | apply kv_registry | apply kv_bind | progress case_match].
Lemma kv_give_back ls : plain (give_back ls).
Proof. unfold give_back, free_leg, commit_leg. plainly. Qed.
Lemma kv_commit_legs ls : plain (commit_legs ls).
Proof. unfold commit_legs, commit_leg. plainly. Qed.
Lemma kv_write_leg l off b : plain (write_leg l off b).
Proof. unfold write_leg, write_some, confirm. plainly. Qed.
Lemma kv_read_leg l off n : plain (read_leg l off n).
Proof. unfold read_leg. plainly. Qed.
Lemma kv_allocate_on v x g id : plain (allocate_on v x g id).
Proof. unfold allocate_on, reserve_leg. plainly. Qed.
Lemma kv_try_candidates v x g cands : forall ns, plain (try_candidates v x g cands ns).
Proof.
  induction cands as [|[id n] cands IH]; intros ns; cbn [try_candidates]; [apply kv_fail|]. plainly; apply IH.
Qed.
Lemma kv_tier_loop v h fd apart rung x g tier : forall fuel tried ns, plain (tier_loop fuel v h fd apart rung x g tier tried ns).
Proof.
  induction fuel as [|fuel IH]; intros tried ns; cbn [tier_loop]; [apply kv_ret|]. plainly; apply IH.
Qed.
Lemma kv_tiers_loop v h fd apart rung x g tiers : forall ns, plain (tiers_loop v h fd apart rung x g tiers ns).
Proof. induction tiers as [|t ts IH]; intros ns; cbn [tiers_loop]; [apply kv_fail|].
  apply kv_bind; [apply kv_gets|intros r]. apply kv_bind; [apply kv_tier_loop|]. intros [[l|] ns']; [apply kv_ret|apply IH].
Qed.
Lemma kv_allocate_apart v x apart rung g : plain (allocate_apart v x apart rung g).
Proof.
  unfold allocate_apart. apply kv_bind; [apply kv_handle|intros h]. apply kv_bind; [apply kv_gets|intros w0].
  destruct (pinned (placement h)) as [pin|]; [destruct (is_failed h pin); [apply kv_fail|]; destruct (allocatable_pinned _ _); [apply kv_allocate_on|apply kv_fail]|].
  destruct (t ← targets w0 !! v; _) as [[to_ except]|]; [apply kv_try_candidates|apply kv_tiers_loop].
Qed.

(** ** Slots no map names any more *)

(** A disk for each volume, and [owed]: slots replaced, not freed yet. *)
Definition kept (owed : list Leg) (w : world S) (d : disks) : Prop :=
  repr owed w d /\ NoDup owed /\ forall l, l ∈ owed -> unheld w l.
Lemma repr_owed_same o o' w d : (forall l, l ∈ o <-> l ∈ o') -> repr o w d -> repr o' w d.
Proof.
  intros He []. constructor; try done. intros l Ha. destruct (r_held l Ha) as (L & HL & Hle). exists L. split; [done|].
  assert (owes o' l = owes o l) as ->; [|done]. unfold owes. by rewrite (bool_decide_ext _ _ (He l)).
Qed.
Lemma kept_perm o o' w d : o ≡ₚ o' -> kept o w d -> kept o' w d.
Proof.
  intros E (HR & Hn & Hu). split; [|split; [by rewrite <- E|intros l; rewrite <- E; apply Hu]].
  eapply repr_owed_same; [|exact HR]. intros l. by rewrite E.
Qed.
Lemma unheld_frame X w w' l : frame X w w' -> unheld w l -> unheld w' l.
Proof. intros HF Hu v x. rewrite (holds_frame _ _ _ _ _ _ HF). apply Hu. Qed.
Lemma kept_frame owed w w' d : kept owed w d -> frame (spare w) w w' -> kept owed w' d.
Proof. intros (HR & Hn & Hu) HF. split; [by eapply repr_frame|]. split; [done|]. intros l Hl. eapply unheld_frame; [exact HF|auto]. Qed.
Lemma spare_unheld owed w d l : repr owed w d -> refs w l = 0 -> attached w l -> unheld w l.
Proof. intros HR Hr Ha v x Hh. pose proof (repr_live _ _ _ _ _ _ HR Hh Ha). lia. Qed.

Lemma free_owed l owed w d : kept (l :: owed) w d ->
  wp (free_slot l) (fun r w' => (exists o, r = Ok o) /\ kept owed w' d /\ frame (just l) w w' /\ vols w' = vols w) w.
Proof.
  intros (HR & [Hn Hnd]%NoDup_cons & Hu). pose proof (Hu l ltac:(by left)) as Hul. unfold free_slot.
  assert (forall w', frame (just l) w w' -> repr owed w' d) as Hgo.
  { intros w' HF. apply (repr_steps _ _ _ _ _ d _ HR HF); [..|apply (r_zero _ _ _ HR)].
    - intros k Hk. destruct (decide (k = l)) as [->|Hne].
      + right. split; [done|]. rewrite owes_not by done. apply refs_nonneg_w, HF.
      + left. rewrite (f_refs _ _ _ HF) by done. unfold owes. do 2 case_bool_decide; try lia. set_solver.
    - intros v h h' x k p Hv Hv' Hso Hh Hf Ha Hp. assert (k <> l) as Hne by (intros ->; by apply (Hul v x)).
      rewrite (f_bytes _ _ _ HF); [by eapply repr_data|done|by eapply repr_live|by eapply repr_range]. }
  apply wp_if_slab.
  - intros Hs. split; [by eexists|]. pose proof (frame_refl (just l) w (r_slabs _ _ _ HR)) as HF. split; [|done]. split; [by apply Hgo|].
    split; [done|]. intros k Hk. apply Hu. by right.
  - intros s Hs. split; [by eexists|]. pose proof (repr_owed _ _ _ l HR ltac:(by left) ltac:(by exists s)) as Hr.
    pose proof (freed_frame l s w (r_slabs _ _ _ HR) Hs Hr) as HF.
    split; [|done]. split; [by apply Hgo|]. split; [done|]. intros k Hk. eapply unheld_frame; [exact HF|]. apply Hu. by right.
Qed.

(** ** A leg mapped *)

(** The legs of [ls] on slabs attached and trusted by [h]. *)
Definition healthy (h : Volume) (w : world S) (ls : list Leg) : Z := zlen (filter (fun l => trusted h (registry w) l = true) ls).
Lemma trusted_frame X h (w w' : world S) l : frame X w w' -> trusted h (registry w') l = trusted h (registry w) l.
Proof. intros HF. unfold trusted. by rewrite (bool_decide_ext _ _ (f_slabs _ _ _ HF (lg_slab l))). Qed.
Lemma healthy_same h (w w' : world S) ls : (forall l, trusted h (registry w') l = trusted h (registry w) l) -> healthy h w' ls = healthy h w ls.
Proof. intros He. unfold healthy. f_equal. apply list_filter_iff. intros l. by rewrite He. Qed.
Lemma healthy_perm h (w : world S) a b : a ≡ₚ b -> healthy h w a = healthy h w b.
Proof. intros E. unfold healthy, zlen. by rewrite E. Qed.
Lemma healthy_cons h (w : world S) l ls : healthy h w (l :: ls) = (if trusted h (registry w) l then 1 else 0) + healthy h w ls.
Proof. unfold healthy. rewrite filter_cons. destruct (trusted h (registry w) l); [rewrite decide_True by done|rewrite decide_False by done]; unfold zlen; cbn; lia. Qed.

Definition changed_at (v : VolumeId) (x : Z) (w w' : world S) : Prop := forall u y, ~ (u = v /\ y = x) -> mapped w' u y = mapped w u y.
Lemma publish_spec owed w d v h x loc n old : kept owed w d -> vols w !! v = Some h -> mapped w v x = Some loc -> ref_count loc <= 1 ->
  good_leg owed w d v h x n -> is_none (policy h) = false -> match old with Some o => o ∈ legs loc | None => True end ->
  wp (on_gem (match old with Some o => replace_leg v x o n | None => add_leg v x n end)) (fun r w' => r = Ok true
    /\ kept (option_list old ++ owed) w' d /\ registry w' = registry w /\ vols w' = vols w /\ changed_at v x w w'
    /\ exists loc' R, mapped w' v x = Some loc' /\ ref_count loc' = ref_count loc
       /\ legs loc ≡ₚ option_list old ++ R /\ legs loc' ≡ₚ n :: R) w.
Proof.
  intros (HR & Hnd & Hun) Hv Hm Hone Hgl Hnn Hold. pose proof Hm as Hx. rewrite (mapped_handle _ _ _ _ Hv) in Hx.
  assert (exists R g' loc', (match old with Some o => replace_leg v x o n | None => add_leg v x n end) (gem w) = Ok (true, g')
    /\ cold g' = ∅ /\ (forall u y, ext_at (volumes g') u y = if decide (u = v /\ y = x) then Some loc' else ext_at (volumes (gem w)) u y)
    /\ (forall u y, par_at (volumes g') u y = par_at (volumes (gem w)) u y)
    /\ ref_count loc' = ref_count loc /\ legs loc ≡ₚ option_list old ++ R /\ legs loc' ≡ₚ [n] ++ R) as (R & g' & loc' & E & Hc & Hg & Hp & Hcnt & E1 & E2).
  { destruct old as [o|].
    - destruct (replace_leg_legs o n loc Hold) as (R & Hhit & Hcnt & E1 & E2). unfold replace_leg. rewrite check_in_memory by apply HR. cbn [rbind].
      destruct (update_extent_effect (gem w) v x (replace_leg_in o n) said_yes loc Hx) as (Hf & Hc & He & Hp).
      destruct (update_extent _ _ _ _ _) as [b g']. cbn [fst snd] in *. exists R, g', (fst (replace_leg_in o n loc)).
      rewrite Hf, Hhit, Hc. split; [done|]. split; [apply HR|]. done.
    - unfold add_leg. rewrite check_in_memory by apply HR. cbn [rbind].
      destruct (update_extent_effect (gem w) v x (fun l => (if names n l then l else push_mirror n l, tt)) found loc Hx) as (Hf & Hc & He & Hp).
      destruct (update_extent _ _ _ _ _) as [b g']. cbn [fst snd] in *. exists (legs loc), g', (push_mirror n loc).
      assert (names n loc = false) as Hnn'. { unfold names. apply bool_decide_eq_false. intros Hin. apply (gl_unheld _ _ _ _ _ _ _ Hgl v x). by exists loc. }
      rewrite Hnn' in He. rewrite Hf, Hc. split; [done|]. split; [apply HR|]. split; [done|]. split; [done|]. split; [done|]. split; [done|].
      unfold push_mirror, legs, primary. cbn. rewrite (Permutation_app_comm (mirrors loc)). apply Permutation_swap. }
  unfold wp, on_gem. rewrite E. cbn [fst snd]. split; [done|].
  assert (forall u y, mapped (set_gem g' w) u y = if decide (u = v /\ y = x) then Some loc' else mapped w u y) as Hmap.
  { intros u y. unfold mapped. cbn. rewrite Hg. destruct (vols w !! u) eqn:Eu; [done|]. case_decide as Hd; [|done]. destruct Hd as [-> ->]. by rewrite Hv in Eu. }
  pose proof (repr_swap owed w d v h x loc loc' g' (option_list old) [n] R HR Hv Hm Hone Hc Hmap Hp Hcnt E1 E2 ltac:(apply NoDup_singleton)
    ltac:(by intros k ->%list_elem_of_singleton) ltac:(intros; congruence)) as HR'.
  assert (forall u y l, holds (set_gem g' w) u y l -> holds w u y l \/ l ∈ legs loc') as Hh.
  { intros u y l (k & Ek & Hk). rewrite Hmap in Ek. case_decide; [injection Ek as <-; by right|left; by exists k]. }
  split; [split; [done|split]|].
  - apply NoDup_app. split; [destruct old; [apply NoDup_singleton|apply NoDup_nil; done]|]. split; [|done].
    intros l Hl Ho. destruct old as [o|]; [|by apply elem_of_nil in Hl]. apply list_elem_of_singleton in Hl as ->. apply (Hun o Ho v x). by exists loc.
  - intros l Hl u y Hhl. assert (l ∉ legs loc') as Hnl.
    { rewrite E2. intros [->%list_elem_of_singleton|HlR]%elem_of_app.
      - apply elem_of_app in Hl as [Hl|Hl]; [|by apply Hgl in Hl]. apply (gl_unheld _ _ _ _ _ _ _ Hgl v x). exists loc. split; [done|].
        rewrite E1. apply elem_of_app. by left.
      - apply elem_of_app in Hl as [Hl|Hl].
        + pose proof (r_nodup _ _ _ HR v x loc Hm) as Hnl. rewrite E1 in Hnl. apply NoDup_app in Hnl as (_ & Hd & _). by apply (Hd l).
        + apply (Hun l Hl v x). exists loc. split; [done|]. rewrite E1. apply elem_of_app. by right. }
    destruct (Hh _ _ _ Hhl) as [Hhw|]; [|done]. apply elem_of_app in Hl as [Hl|Hl]; [|by apply (Hun l Hl u y)].
    assert (l ∈ legs loc) as Hll by (rewrite E1; apply elem_of_app; by left). destruct (r_alone _ _ _ HR v x loc l u y Hm Hone Hll Hhw) as [-> ->].
    destruct Hhl as (k & Ek & Hk). rewrite Hmap, decide_True in Ek by done. injection Ek as <-. done.
  - split; [done|]. split; [done|]. split; [intros u y Hne; by rewrite Hmap, decide_False|]. exists loc', R.
    split; [by rewrite Hmap, decide_True|]. done.
Qed.

(** ** The legs of an extent rebuilt *)

Definition same_slabs (w w' : world S) : Prop := forall id, is_Some (slabs (registry w') !! id) <-> is_Some (slabs (registry w) !! id).
Lemma trusted_same h w w' l : same_slabs w w' -> trusted h (registry w') l = trusted h (registry w) l.
Proof. intros HF. unfold trusted. by rewrite (bool_decide_ext _ _ (HF (lg_slab l))). Qed.
Lemma trusted_so h h' (r : SlabRegistry S) l : softer h h' -> trusted h' r l = true -> trusted h r l = true.
Proof.
  intros Hso [Ha Hf]%andb_true_iff. unfold trusted. rewrite Ha. apply negb_true_iff, bool_decide_eq_false in Hf. apply negb_true_iff, bool_decide_eq_false.
  intros Hin. by apply Hf, (so_failed _ _ Hso).
Qed.

(** A new leg, written or given back. *)
Lemma new_leg_spec owed w d v h0 h x taken rung g data : repr owed w d -> vols w !! v = Some h -> softer h0 h -> zlen data = vslot h0 ->
  shows (view d v (vslot h0) x) 0 data ->
  wp (attempt (allocate_apart v x taken rung g)) (fun r w1 => vols w1 = vols w /\ frame (spare w) w w1 /\ exists r', r = Ok r' /\
    match r' with
    | Err _ => True
    | Ok new => wp (attempt (write_leg new 0 data)) (fun r w2 => vols w2 = vols w /\ frame (spare w) w w2 /\ exists r', r = Ok r' /\
        match r' with
        | Err _ => wp (give_back [new]) (fun r w3 => r = Ok () /\ vols w3 = vols w /\ frame (spare w) w w3) w2
        | Ok _ => good_leg owed w2 d v h0 x new /\ trusted h (registry w2) new = true
        end) w1
    end) w.
Proof.
  intros HR Hv Hso Hz Hs. destruct (r_handle _ _ _ HR v h Hv) as [Hsl _ _ Hpin].
  apply wp_attempt. eapply twp_mono; [apply wp_plain; [apply kv_allocate_apart|by apply (allocate_apart_spec v x taken rung g h w (r_slabs _ _ _ HR) Hv Hsl Hpin)]|].
  intros [new|f] w1 (HG & Hv1 & Hf1).
  2: { destruct (Hf1 f eq_refl) as [e ->]. split; [done|]. split; [by apply frame_any|]. by exists (Err e). }
  destruct HG as (HF1 & Hr0 & Hr1 & [Hsz Htr _ _]). assert (forall w2, frame (just new) w w2 -> frame (spare w) w w2) as Hsp.
  { intros w2 HF. apply (frame_mono _ _ _ _ HF). unfold just, spare. by intros k ->. }
  split; [done|]. split; [by apply Hsp|]. exists (Ok new). split; [done|].
  assert (attached w1 new) as Ha1 by (apply refs_attached; lia). assert (attached w new) as Ha by by apply (attached_frame _ _ _ _ HF1).
  pose proof (spare_unheld _ _ _ _ HR Hr0 Ha) as Hun. assert (new ∉ owed) as Hno by (intros Ho; pose proof (repr_owed _ _ _ _ HR Ho Ha); lia).
  pose proof (so_slot _ _ Hso) as Esl. assert (usable w1 new 0 (zlen data)) as Hu.
  { split; [lia|]. split; [apply zlen_nonneg|]. intros _. rewrite (f_size _ _ _ HF1). lia. }
  apply wp_attempt. eapply twp_mono; [apply wp_plain; [apply kv_write_leg|by apply (write_leg_spec new 0 data w1 (f_wf _ _ _ HF1) Hu)]|].
  intros r w2 ((HW & Hr) & Hv2 & Hf2). pose proof (frame_trans _ _ _ _ HF1 (wt_frame _ _ _ _ _ HW)) as HF2. pose proof (wt_refs _ _ _ _ _ HW) as Hrefs.
  destruct r as [[]|f].
  - split; [congruence|]. split; [by apply Hsp|]. exists (Ok ()). split; [done|]. destruct Hr as [_ Hsh]. split.
    + constructor; [lia|done|rewrite (f_size _ _ _ HF2); lia|by eapply unheld_frame|]. intros p _ Hp.
      specialize (Hsh p ltac:(lia)). specialize (Hs p ltac:(lia)). by rewrite <- Hsh, Hs.
    + apply andb_true_iff. split; [apply bool_decide_eq_true, (attached_frame _ _ _ new HF2), Ha|]. by apply negb_true_iff, bool_decide_eq_false.
  - destruct (Hf2 f eq_refl) as [e ->]. split; [congruence|]. split; [by apply Hsp|]. exists (Err e). split; [done|].
    eapply twp_mono; [apply wp_plain; [apply kv_give_back|apply slots_given_back; [apply HF2|apply NoDup_singleton|]]|].
    + intros k ->%list_elem_of_singleton _. lia.
    + intros r w3 ((-> & HF3) & Hv3 & _). split; [done|]. split; [congruence|]. apply Hsp. eapply frame_trans; [exact HF2|].
      apply (frame_mono _ _ _ _ HF3). by intros k ->%list_elem_of_singleton.
Qed.

(** Extent [x] after a part of its rebuild. *)
Record remade (v : VolumeId) (x : Z) (h : Volume) (rest : list Leg) (d : disks) (n : Z) (w : world S) (lc : ExtentLocation) (out : UnitOutcome)
    (r : result fault UnitOutcome) (w' : world S) : Prop := {
  rm_out : exists out', r = Ok out' /\ kept (uo_owed out' ++ rest) w' d /\ uo_deferred out' = uo_deferred out
    /\ (uo_errors out <> [] -> uo_errors out' <> [])
    /\ exists lc', mapped w' v x = Some lc' /\ ref_count lc' = ref_count lc
       /\ (uo_errors out' = [] -> vols w' = vols w /\ healthy h w (legs lc) + n <= healthy h w' (legs lc'));
  rm_softened : softened w w';
  rm_slabs : same_slabs w w';
  rm_else : changed_at v x w w' }.
Lemma remade_after v x h rest d n n' w w1 lc lc1 out out1 r w' : remade v x h rest d n w1 lc1 out1 r w' ->
  uo_deferred out1 = uo_deferred out -> (uo_errors out <> [] -> uo_errors out1 <> []) -> ref_count lc1 = ref_count lc ->
  (uo_errors out1 = [] -> vols w1 = vols w /\ healthy h w (legs lc) + n' <= healthy h w1 (legs lc1) + n) ->
  softened w w1 -> same_slabs w w1 -> changed_at v x w w1 -> remade v x h rest d n' w lc out r w'.
Proof.
  intros [(out' & -> & HK & Hd & Hee & lc' & Hm & Hc & He) Hs Hsl Hel] Hd1 He1 Hc1 Hv1 Hs1 Hsl1 Hel1. constructor.
  - exists out'. split; [done|]. split; [done|]. split; [congruence|]. split; [auto|]. exists lc'. split; [done|]. split; [congruence|].
    intros E. destruct (He E) as [Ev Hn]. assert (uo_errors out1 = []) as E1 by (destruct (uo_errors out1); [done|exfalso; by apply Hee]).
    destruct (Hv1 E1) as [Ev1 Hn1]. split; [congruence|lia].
  - by etransitivity.
  - intros id. by rewrite (Hsl id), (Hsl1 id).
  - intros u y Hne. by rewrite Hel, Hel1.
Qed.

Lemma push_error_some e o : uo_errors (push_error e o) <> [].
Proof. by intros [_ ?]%app_eq_nil. Qed.
Lemma healthy_frame X h (w w' : world S) ls : frame X w w' -> healthy h w' ls = healthy h w ls.
Proof. intros HF. apply healthy_same. intros l. by eapply trusted_frame. Qed.
Lemma changed_frame X v x (w w' : world S) : frame X w w' -> changed_at v x w w'.
Proof. intros HF u y _. by eapply mapped_frame. Qed.
Lemma slabs_frame X (w w' : world S) : frame X w w' -> same_slabs w w'.
Proof. intros HF. exact (f_slabs _ _ _ HF). Qed.

Lemma rebuild_legs_spec v x p beside data h rest d loc : is_none (policy h) = false -> ref_count loc <= 1 -> zlen data = vslot h ->
  shows (view d v (vslot h) x) 0 data -> forall n taken old out w hw lc, kept (uo_owed out ++ rest) w d -> vols w !! v = Some hw -> softer h hw ->
  mapped w v x = Some lc -> ref_count lc = ref_count loc -> NoDup old -> (forall o, o ∈ old -> o ∈ legs lc /\ trusted h (registry w) o = false) ->
  wp (rebuild_legs n v x loc p beside data taken old out) (remade v x h rest d (Z.of_nat n) w lc out) w.
Proof.
  intros Hnn Hone Hz Hs. induction n as [|n IH]; intros taken old out w hw lc HK Hv Hso Hm Hc Hnd Hold.
  { apply twp_ret. constructor; [|done|done|done]. exists out. split; [done|]. split; [done|]. split; [done|]. split; [done|]. exists lc. auto with lia. }
  cbn [rebuild_legs]. pose proof HK as (HR & _). apply twp_bind.
  eapply twp_mono; [apply (new_leg_spec _ w d v h hw x taken (spread p) (generation loc) data HR Hv Hso Hz Hs)|].
  intros ? w1 (Hv1 & HF1 & r1 & -> & Hr1). destruct r1 as [new|e].
  2: { apply twp_ret. constructor; [|by eapply softened_frame|by eapply slabs_frame|by eapply changed_frame]. eexists. split; [done|].
    split; [by eapply kept_frame|]. split; [done|]. split; [intros _; apply push_error_some|]. exists lc. split; [by rewrite (mapped_frame _ _ _ _ _ HF1)|].
    split; [done|]. by intros ?%push_error_some. }
  apply twp_gets, twp_bind. eapply twp_mono; [exact Hr1|]. intros ? w2 (Hv2 & HF2 & r2 & -> & Hr2). clear Hr1. destruct r2 as [[]|e].
  - destruct Hr2 as [Hgl Htr]. pose proof (kept_frame _ _ _ _ HK HF2) as HK2. assert ((1 <? ref_count loc) = false) as -> by lia.
    apply twp_bind, twp_ret. rewrite <- Hv2 in Hv. rewrite <- (mapped_frame _ _ _ v x HF2) in Hm.
    assert (softer h hw) as Hso2 by done. apply twp_bind. assert (good_leg (uo_owed out ++ rest) w2 d v hw x new) as Hgl2.
    { destruct Hgl as [G1 G2 G3 G4 G5]. constructor; [done|done|by rewrite (so_slot _ _ Hso)|done|]. rewrite (so_slot _ _ Hso). intros q Hf. apply G5.
      intros Hin. by apply Hf, (so_failed _ _ Hso). }
    eapply twp_mono; [apply (publish_spec _ w2 d v hw x lc new (hd_error old) HK2 Hv Hm ltac:(lia) Hgl2)|].
    { by rewrite (so_policy _ _ Hso). }
    { destruct old as [|o old]; [done|]. apply Hold. by left. }
    intros ? w3 (-> & HK3 & Er3 & Ev3 & Hch3 & lc' & R & Hm3 & Hc3 & E1 & E2). apply twp_bind.
    assert (wf_slabs w3) as Hw3 by (intros i s; rewrite Er3; apply HK2).
    eapply twp_mono; [apply wp_plain; [apply kv_commit_legs|apply commit_legs_spec, Hw3]|]. intros ? w4 ((-> & HF4) & Hv4 & _).
    assert (forall l, trusted h (registry w4) l = trusted h (registry w) l) as Ht.
    { intros l. rewrite (trusted_frame _ _ _ _ _ HF4), Er3. by eapply trusted_frame. }
    assert (forall ls, healthy h w4 ls = healthy h w ls) as Hh by (intros; by apply healthy_same).
    eapply twp_mono; [apply (IH _ (tl old) (push_leg (hd_error old) (push_bytes (zlen data) out)) w4 hw lc')|].
    + eapply kept_frame; [|by apply frame_any]. eapply kept_perm; [|exact HK3]. destruct (hd_error old); cbn; [|done].
      rewrite <- app_assoc. apply Permutation_middle.
    + congruence.
    + done.
    + by rewrite (mapped_frame _ _ _ _ _ HF4).
    + congruence.
    + destruct old; [done|]. by apply NoDup_cons in Hnd as [_ ?].
    + intros o Ho. rewrite Ht. destruct old as [|o0 old]; [by apply elem_of_nil in Ho|]. cbn in Ho, E1. destruct (Hold o ltac:(by right)) as [Hin Hto].
      split; [|done]. rewrite E2. right. rewrite E1 in Hin. apply NoDup_cons in Hnd as [Hno _]. apply elem_of_cons in Hin as [->|]; done.
    + intros r w5 HRM. assert (uo_errors (push_leg (hd_error old) (push_bytes (zlen data) out)) = uo_errors out) as Ee by by destruct (hd_error old).
      eapply remade_after; [exact HRM|by destruct (hd_error old)|by rewrite Ee|done| | | |].
      * intros _. split; [congruence|]. rewrite Hh, (healthy_perm _ _ _ _ E1), (healthy_perm _ _ _ _ E2), healthy_cons.
        rewrite (trusted_frame _ _ _ _ _ HF2) in Htr. rewrite (trusted_so h hw _ _ Hso Htr). destruct old as [|o old]; cbn; [lia|].
        rewrite healthy_cons. destruct (Hold o ltac:(by left)) as [_ ->]. lia.
      * etransitivity; [by eapply softened_frame|]. etransitivity; [|by eapply softened_frame]. intros u. rewrite Ev3. by destruct (vols w2 !! u); constructor.
      * intros id. rewrite (slabs_frame _ _ _ HF4 id), Er3. by apply (slabs_frame _ _ _ HF2).
      * intros u y Hne. rewrite (mapped_frame _ _ _ _ _ HF4), Hch3 by done. by eapply mapped_frame.
  - apply twp_bind. eapply twp_mono; [exact Hr2|]. intros ? w3 (-> & Hv3 & HF3). apply twp_bind.
    eapply twp_mono; [apply mark_failed_spec, HF3|]. intros ? w4 (-> & HF4 & _).
    assert (frame (spare w) w w4) as HF by (eapply frame_trans; [exact HF3|by apply frame_any]).
    destruct (handle_frame _ _ _ _ _ HF Hv) as (hw4 & Hv4 & Hso4).
    eapply twp_mono; [apply (IH _ old (push_error (LegNotWritten x) out) w4 hw4 lc)|].
    + by eapply kept_frame.
    + done.
    + by etransitivity.
    + by rewrite (mapped_frame _ _ _ _ _ HF).
    + done.
    + done.
    + intros o Ho. rewrite (trusted_frame _ _ _ _ _ HF). by apply Hold.
    + intros r w5 HRM. eapply remade_after; [exact HRM|done|intros _; apply push_error_some|done|by intros ?%push_error_some|by eapply softened_frame|by eapply slabs_frame|by eapply changed_frame].
Qed.

(** ** One extent *)

Lemma read_any_spec rest w0 d v h x lc ls : repr rest w0 d -> vols w0 !! v = Some h -> mapped w0 v x = Some lc ->
  (forall l, l ∈ ls -> l ∈ legs lc /\ trusted h (registry w0) l = true) -> forall w, frame nothing w0 w ->
  wp (read_any ls (vslot h)) (fun r w' => vols w' = vols w /\ frame nothing w0 w' /\ exists o, r = Ok o
    /\ forall b, o = Some b -> zlen b = vslot h /\ shows (view d v (vslot h) x) 0 b) w.
Proof.
  intros HR Hv Hm. induction ls as [|l ls IH]; intros Hls w HF; [split; [done|]; split; [done|]; by exists None|]. cbn [read_any].
  destruct (Hls l ltac:(by left)) as [Hl [Ha Hf]%andb_true_iff]. apply bool_decide_eq_true in Ha. apply negb_true_iff, bool_decide_eq_false in Hf.
  pose proof (ho_slot _ _ (r_handle _ _ _ HR v h Hv)) as Hz. assert (holds w0 v x l) as Hh by by exists lc.
  pose proof (repr_live _ _ _ _ _ _ HR Hh Ha) as Hlive.
  assert (usable w l 0 (vslot h)) as Hu.
  { split; [lia|]. split; [lia|]. intros _. rewrite (frame_refs _ _ _ HF), (f_size _ _ _ HF), (r_size _ _ _ HR v h x l Hv Hh Ha). lia. }
  apply twp_bind, wp_attempt. eapply twp_mono; [apply wp_plain; [apply kv_read_leg|by apply (read_leg_spec l 0 (vslot h) w (f_wf _ _ _ HF) Hu)]|].
  intros r w1 ((HF1 & Hb) & Hv1 & Hf1). pose proof (frame_trans _ _ _ _ HF HF1) as HF01. destruct r as [b|f].
  - apply twp_ret. split; [done|]. split; [done|]. exists (Some b). split; [done|]. intros b' [= <-]. destruct (Hb b eq_refl) as (_ & Hzb & Hsh).
    split; [done|]. eapply shows_ext; [|exact Hsh]. intros q Hq. rewrite (frame_bytes _ _ _ _ HF) by (done || rewrite (r_size _ _ _ HR v h x l Hv Hh Ha); lia).
    apply (r_data _ _ _ HR); try done. lia.
  - destruct (Hf1 f eq_refl) as [e ->]. eapply twp_mono; [apply IH; [intros k Hk; apply Hls; by right|exact HF01]|].
    intros r w2 (Hv2 & HF2 & Ho). split; [congruence|by split].
Qed.

(** The legs past the policy, and what is left without them. *)
Lemma surplus_spec h (w : world S) lc c : NoDup (legs lc) ->
  let hs := filter (fun l => trusted h (registry w) l = true) (legs lc) in
  let dr := filter (fun l => trusted h (registry w) l = false) (legs lc) ++ rev (drop c hs) in
  (c <= length hs)%nat ->
  NoDup dr /\ (forall l, l ∈ dr -> l ∈ legs lc) /\ (forall k, k ∈ take c hs -> k ∈ legs lc /\ k ∉ dr)
  /\ Z.of_nat c <= healthy h w (filter (fun l => l ∉ dr) (legs lc)).
Proof.
  intros Hn hs dr Hc. assert (NoDup hs) as Hnh by by apply NoDup_filter. rewrite <- (take_drop c hs) in Hnh. apply NoDup_app in Hnh as (Hnt & Hdis & Hnd).
  assert (forall l, l ∈ dr <-> (trusted h (registry w) l = false /\ l ∈ legs lc) \/ l ∈ drop c hs) as Hdr.
  { intros l. unfold dr. by rewrite elem_of_app, list_elem_of_filter, <- (Permutation_rev (drop c hs)). }
  assert (forall l, l ∈ hs <-> trusted h (registry w) l = true /\ l ∈ legs lc) as Hhs by (intros l; unfold hs; by rewrite list_elem_of_filter).
  assert (forall l, l ∈ drop c hs -> l ∈ hs) as Hdh by (intros l Hl; rewrite <- (take_drop c hs); apply elem_of_app; by right).
  assert (forall l, l ∈ take c hs -> l ∈ hs) as Hth by (intros l Hl; rewrite <- (take_drop c hs); apply elem_of_app; by left).
  assert (forall k, k ∈ take c hs -> k ∈ legs lc /\ k ∉ dr) as Hk.
  { intros k Hk. destruct (proj1 (Hhs k) (Hth k Hk)) as [Ht Hl]. split; [done|]. rewrite Hdr. intros [[Hf _]|Hd]; [congruence|by apply (Hdis k)]. }
  split; [|split; [|split; [done|]]].
  - unfold dr. apply NoDup_app. split; [by apply NoDup_filter|]. split.
    + intros l [Hf _]%list_elem_of_filter. rewrite <- (Permutation_rev (drop c hs)). intros [Ht _]%Hdh%Hhs. congruence.
    + by rewrite <- (Permutation_rev (drop c hs)).
  - intros l [[_ ?]|Hl%Hdh%Hhs]%Hdr; [done|apply Hl].
  - unfold healthy, zlen. apply Nat2Z.inj_le. rewrite <- (length_take_le hs c) by done. apply submseteq_length, NoDup_submseteq; [done|].
    intros k Hkt. apply list_elem_of_filter. split; [by apply Hhs, Hth|]. apply list_elem_of_filter. destruct (Hk k Hkt). done.
Qed.

(** What became of extent [x]: its legs were rebuilt, or some are to be dropped and others stay. *)
Definition settled (v : VolumeId) (x c : Z) (hw : Volume) (w w' : world S) (out : UnitOutcome) (dr : list Leg) : Prop :=
  match mapped w v x with
  | None => w' = w /\ out = no_outcome /\ dr = []
  | Some lc => exists lc', mapped w' v x = Some lc' /\ ref_count lc' = ref_count lc
      /\ (dr = [] \/ lc' = lc /\ NoDup dr /\ (forall l, l ∈ dr -> l ∈ legs lc) /\ exists k, k ∈ legs lc /\ k ∉ dr)
      /\ (uo_errors out = [] -> vols w' = vols w /\ c <= healthy hw w' (filter (fun l => l ∉ dr) (legs lc')))
  end.
Lemma filter_all {A} (P : A -> Prop) `{!forall a, Decision (P a)} (l : list A) : (forall a, a ∈ l -> P a) -> filter P l = l.
Proof.
  induction l as [|a l IH]; intros Hl; [done|]. rewrite filter_cons, decide_True by (apply Hl; by left). f_equal. apply IH. intros b Hb. apply Hl. by right.
Qed.
Lemma mirror_extent_spec v x c p rest d w hw : kept rest w d -> vols w !! v = Some hw -> 1 <= c -> (is_none (policy hw) = true -> c <= 1) ->
  (forall lc, mapped w v x = Some lc -> ref_count lc <= 1) ->
  wp (mirror_extent v x c p) (fun r w' => exists out dr, r = Ok (out, dr) /\ kept (uo_owed out ++ rest) w' d /\ uo_deferred out = []
    /\ softened w w' /\ same_slabs w w' /\ changed_at v x w w' /\ settled v x c hw w w' out dr) w.
Proof.
  intros HK Hv Hc Hnone Hone. pose proof HK as (HR & _ & _). unfold mirror_extent, settled. apply (wp_lookup v hw); [apply HR|done|].
  destruct (mapped w v x) as [lc|] eqn:Hm; [|apply twp_ret; exists no_outcome, []; done].
  apply (wp_handle _ _ _ _ _ Hv), twp_gets. pose proof (r_nodup _ _ _ HR v x lc Hm) as Hnd. specialize (Hone lc eq_refl).
  pose proof (surplus_spec hw w lc (Z.to_nat c) Hnd) as Hsur. cbv zeta in Hsur.
  assert (forall l, l ∈ filter (fun l => trusted hw (registry w) l = true) (legs lc) <-> trusted hw (registry w) l = true /\ l ∈ legs lc) as Hin
    by (intros l; by rewrite list_elem_of_filter).
  assert (healthy hw w (legs lc) = zlen (filter (fun l => trusted hw (registry w) l = true) (legs lc))) as Hh by done.
  destruct (filter (fun l => trusted hw (registry w) l = true) (legs lc)) as [|beside hs'] eqn:Eh.
  { apply twp_ret. exists (lost (NoReadableLeg x)), []. split; [done|]. split; [done|]. split; [done|]. split; [done|]. split; [done|]. split; [done|].
    exists lc. split; [done|]. split; [done|]. split; [by left|done]. }
  set (hs := beside :: hs') in *. destruct (Z.leb_spec c (zlen hs)) as [Hle|Hlt].
  - destruct Hsur as (S1 & S2 & S3 & S4); [unfold zlen in Hle; lia|]. apply twp_ret. eexists no_outcome, _. split; [reflexivity|].
    split; [done|]. split; [done|]. split; [done|]. split; [done|]. split; [done|]. exists lc. split; [done|]. split; [done|]. split.
    + right. split; [done|]. split; [done|]. split; [done|]. exists beside. apply S3. unfold hs. destruct (Z.to_nat c) eqn:E; [lia|]. by left.
    + intros _. split; [done|]. rewrite Z2Nat.id in S4 by lia. exact S4.
  - clear Hsur. assert (is_none (policy hw) = false) as Hnn.
    { destruct (is_none _) eqn:E; [|done]. specialize (Hnone eq_refl). unfold hs, zlen in Hlt. cbn in Hlt. lia. }
    apply twp_bind. eapply twp_mono; [apply (read_any_spec rest w d v hw x lc hs HR Hv Hm); [|by apply frame_refl, HR]|].
    { intros l Hl%Hin. by destruct Hl. }
    intros ? w1 (Hv1 & HF1 & o & -> & Hb). pose proof (kept_frame _ _ _ _ HK (frame_any (spare w) _ _ HF1)) as HK1. destruct o as [data|].
    2: { apply twp_ret. exists (lost (EveryLegFailed x)), []. split; [done|]. split; [done|]. split; [done|]. split; [by eapply softened_frame|].
      split; [by eapply slabs_frame|]. split; [by eapply changed_frame|]. exists lc. split; [by rewrite (mapped_frame _ _ _ _ _ HF1)|].
      split; [done|]. split; [by left|done]. }
    destruct (Hb data eq_refl) as [Hz Hs]. apply twp_gets, twp_bind.
    eapply twp_mono; [refine (rebuild_legs_spec v x p beside data hw rest d lc Hnn Hone Hz Hs _ _ _ no_outcome w1 hw lc HK1 _ _ _ _ _ _)|].
    + by rewrite Hv1.
    + done.
    + by rewrite (mapped_frame _ _ _ _ _ HF1).
    + done.
    + by apply NoDup_filter.
    + intros o' [Ho1 Ho2]%list_elem_of_filter. by rewrite (trusted_frame _ _ _ _ _ HF1).
    + intros ? w2 [(out & -> & HK2 & Hd & _ & lc' & Hm' & Hc' & He) Hs2 Hsl2 Hch2]. apply twp_ret. exists out, []. split; [done|]. split; [done|].
      split; [done|]. split; [etransitivity; [by eapply softened_frame|done]|]. split; [intros id; rewrite (Hsl2 id); apply (slabs_frame _ _ _ HF1)|].
      split; [intros u y Hne; rewrite Hch2 by done; by eapply mapped_frame|]. exists lc'. split; [done|]. split; [done|]. split; [by left|].
      intros E. destruct (He E) as [Ev Hn]. split; [congruence|]. rewrite filter_all by (intros l _; apply not_elem_of_nil).
      rewrite (healthy_frame _ _ _ _ _ HF1), Hh, Z2Nat.id in Hn by lia. lia.
Qed.

(** ** All extents *)

(** Legs to be dropped: each of an extent that keeps another. *)
Record droppable (v : VolumeId) (drops : list Leg) (ok : Z -> Prop) (w : world S) : Prop := {
  dp_nodup : NoDup drops;
  dp_leg l : l ∈ drops -> exists y lc, ok y /\ mapped w v y = Some lc /\ l ∈ legs lc /\ exists k, k ∈ legs lc /\ k ∉ drops }.
(** The volume, the extents [xs] still to do, none of it shared; [more] was dropped, and not freed. *)
Record sweeping (v : VolumeId) (c : Z) (h : Volume) (xs : list Z) (rr : ResyncReport) (more drops : list Leg) (d : disks) (w : world S) : Prop := {
  sw_kept : kept (more ++ rr_owed rr) w d;
  sw_handle : exists hw, vols w !! v = Some hw /\ softer h hw;
  sw_alone y lc : mapped w v y = Some lc -> ref_count lc <= 1;
  sw_drops : droppable v drops (fun y => y ∉ xs) w;
  sw_whole : rr_errors rr = [] -> vols w !! v = Some h
    /\ forall y lc, y ∉ xs -> mapped w v y = Some lc -> c <= healthy h w (filter (fun l => l ∉ drops) (legs lc)) }.

Lemma filter_same {A} (P Q : A -> Prop) `{!forall a, Decision (P a), !forall a, Decision (Q a)} (l : list A) :
  (forall a, a ∈ l -> P a <-> Q a) -> filter P l = filter Q l.
Proof.
  induction l as [|a l IH]; intros Hl; [done|]. rewrite !filter_cons, IH by (intros b Hb; apply Hl; by right).
  destruct (decide (P a)) as [Hp|Hp], (decide (Q a)) as [Hq|Hq]; try done; exfalso; destruct (Hl a ltac:(by left)); auto.
Qed.
Lemma absorb_clean rr o : rr_errors (absorb rr o) = [] -> rr_errors rr = [] /\ uo_errors o = [].
Proof. unfold absorb. cbn [rr_errors]. destruct (Nat.ltb_spec (length (rr_errors rr)) 64) as [Hl|Hl]; [by intros ?%app_eq_nil|]. intros E. rewrite E in Hl. cbn in Hl. lia. Qed.

Lemma sweeping_step v c p h x xs rr drops d w : sweeping v c h (x :: xs) rr [] drops d w -> NoDup (x :: xs) -> 1 <= c ->
  (is_none (policy h) = true -> c <= 1) ->
  wp (mirror_extent v x c p) (fun r w' => exists out dr, r = Ok (out, dr) /\ uo_deferred out = [] /\ softened w w' /\ same_slabs w w'
    /\ sweeping v c h xs (absorb rr out) [] (drops ++ dr) d w') w.
Proof.
  intros [HK (hw & Hv & Hso) Hone [Dn Dl] Hwhole] [Hx Hnd]%NoDup_cons Hc Hnone. change (kept (rr_owed rr) w d) in HK.
  eapply twp_mono; [apply (mirror_extent_spec v x c p _ d w hw HK Hv Hc); [by rewrite (so_policy _ _ Hso)|by apply Hone]|].
  intros r w' (out & dr & -> & HK' & Hd & Hs & Hsl & Hch & Hset). exists out, dr. split; [done|]. split; [done|]. split; [done|]. split; [done|].
  pose proof (proj1 HK') as HR'. destruct (softened_handle _ _ _ _ Hs Hv) as (hw' & Hv' & Hso').
  assert (forall y, y <> x -> mapped w' v y = mapped w v y) as Hother by (intros y Hy; apply Hch; by intros [_ ?]).
  assert (forall y lc, mapped w' v y = Some lc -> ref_count lc <= 1) as Hone'.
  { intros y lc Hm. destruct (decide (y = x)) as [->|Hy]; [|by eapply Hone; rewrite <- Hother]. unfold settled in Hset. destruct (mapped w v x) as [l0|] eqn:E0.
    - destruct Hset as (lc' & Hm' & Hc' & _). rewrite Hm in Hm'. injection Hm' as <-. rewrite Hc'. by eapply Hone.
    - destruct Hset as (-> & _). congruence. }
  assert (NoDup dr /\ (forall l, l ∈ dr -> exists lc, mapped w' v x = Some lc /\ l ∈ legs lc /\ exists k, k ∈ legs lc /\ k ∉ dr)) as [Hdn Hdl].
  { unfold settled in Hset. destruct (mapped w v x) as [l0|]; [|destruct Hset as (_ & _ & ->); split; [by apply NoDup_nil|by intros l ?%elem_of_nil]].
    destruct Hset as (lc' & Hm' & _ & [->|(-> & Hn & Hl & Hk)] & _); [split; [by apply NoDup_nil|by intros l ?%elem_of_nil]|].
    split; [done|]. intros l Hin. exists l0. auto. }
  assert (forall l, l ∈ drops -> exists y lc, (y ∉ x :: xs) /\ mapped w' v y = Some lc /\ l ∈ legs lc /\ exists k, k ∈ legs lc /\ k ∉ drops) as Hdl0.
  { intros l Hl. destruct (Dl l Hl) as (y & lc & Hy & Hm & Hr). exists y, lc. split; [done|]. rewrite Hother by (intros ->; apply Hy; by left). done. }
  assert (forall y z lc lc2 l, mapped w' v y = Some lc -> mapped w' v z = Some lc2 -> l ∈ legs lc -> l ∈ legs lc2 -> z = y) as Hsame.
  { intros y z lc lc2 l Hy Hz' Hl Hl2. destruct (r_alone _ _ _ HR' v y lc l v z Hy (Hone' _ _ Hy) Hl ltac:(by exists lc2)) as [_ ?]. done. }
  assert (forall lc l, mapped w' v x = Some lc -> l ∈ legs lc -> l ∉ drops) as Hatx.
  { intros lc l Hm Hl Hin. destruct (Hdl0 l Hin) as (y & lc2 & Hy & Hm2 & Hl2 & _). apply Hy. rewrite (Hsame x y lc lc2 l) by done. by left. }
  assert (forall y lc l, y <> x -> mapped w' v y = Some lc -> l ∈ legs lc -> l ∉ dr) as Hoff.
  { intros y lc l Hy Hm Hl Hin. destruct (Hdl l Hin) as (lc2 & Hm2 & Hl2 & _). apply Hy. by apply (Hsame x y lc2 lc l). }
  constructor.
  - change (kept (rr_owed rr ++ uo_owed out) w' d). eapply kept_perm; [|exact HK']. apply Permutation_app_comm.
  - exists hw'. split; [done|by etransitivity].
  - exact Hone'.
  - constructor.
    + apply NoDup_app. split; [done|]. split; [|done]. intros l Hl Hin. destruct (Hdl l Hin) as (lc & Hm & Hlc & _). by apply (Hatx lc l).
    + intros l [Hl|Hl]%elem_of_app.
      * destruct (Hdl0 l Hl) as (y & lc & Hy & Hm & Hlc & k & Hk & Hkn). exists y, lc. apply not_elem_of_cons in Hy as [Hyx Hy].
        split; [done|]. split; [done|]. split; [done|]. exists k. split; [done|]. rewrite elem_of_app. intros [?|?]; [done|]. by apply (Hoff y lc k).
      * destruct (Hdl l Hl) as (lc & Hm & Hlc & k & Hk & Hkn). exists x, lc. split; [done|]. split; [done|]. split; [done|]. exists k.
        split; [done|]. rewrite elem_of_app. intros [?|?]; [|done]. by apply (Hatx lc k).
  - intros [E Eo]%absorb_clean. destruct (Hwhole E) as [Eh Hw]. rewrite Hv in Eh. injection Eh as ->. split.
    { unfold settled in Hset. destruct (mapped w v x) as [l0|]; [|destruct Hset as (-> & _); done].
      destruct Hset as (lc' & _ & _ & _ & He). destruct (He Eo) as [Ev _]. by rewrite Ev. }
    intros y lc Hy Hm. destruct (decide (y = x)) as [->|Hyx].
    + unfold settled in Hset. destruct (mapped w v x) as [l0|] eqn:E0; [|destruct Hset as (-> & _); congruence].
      destruct Hset as (lc' & Hm' & _ & _ & He). destruct (He Eo) as [_ Hn]. rewrite Hm in Hm'. injection Hm' as <-.
      rewrite (filter_same _ (fun l => l ∉ dr)); [exact Hn|]. intros l Hl. rewrite elem_of_app. pose proof (Hatx lc l Hm Hl). tauto.
    + rewrite (filter_same _ (fun l => l ∉ drops)) by (intros l Hl; rewrite elem_of_app; pose proof (Hoff y lc l Hyx Hm Hl); tauto).
      rewrite (healthy_same h w w') by (intros l; by apply trusted_same). rewrite Hother in Hm by done. apply (Hw y); [|done]. by apply not_elem_of_cons.
Qed.
Lemma mirror_extents_spec v c p h d : 1 <= c -> (is_none (policy h) = true -> c <= 1) -> forall xs rr drops w, NoDup xs ->
  sweeping v c h xs rr [] drops d w ->
  wp (mirror_extents v c p xs rr [] drops) (fun r w' => exists rr' drops', r = Ok (rr', [], drops') /\ softened w w' /\ same_slabs w w'
    /\ sweeping v c h [] rr' [] drops' d w') w.
Proof.
  intros Hc Hnone. induction xs as [|x xs IH]; intros rr drops w Hnd HS; [apply twp_ret; by exists rr, drops|].
  cbn [mirror_extents]. apply twp_bind. eapply twp_mono; [by apply (sweeping_step v c p h x xs rr drops d w HS)|].
  intros ? w1 (out & dr & -> & Hd & Hs & Hsl & HS1). cbn [fst snd]. rewrite Hd. apply NoDup_cons in Hnd as [_ Hnd].
  eapply twp_mono; [by apply IH|]. intros ? w2 (rr' & drops' & -> & Hs2 & Hsl2 & HS2). exists rr', drops'. split; [done|].
  split; [by etransitivity|]. split; [|done]. intros id. by rewrite (Hsl2 id), (Hsl id).
Qed.

(** ** Surplus legs dropped *)

Lemma drop_step v c h l ls rr more d w : sweeping v c h [] rr more (l :: ls) d w ->
  wp (on_gem (drop_leg_everywhere l)) (fun r w' => (exists n, r = Ok n) /\ vols w' = vols w /\ registry w' = registry w
    /\ sweeping v c h [] rr (l :: more) ls d w') w.
Proof.
  intros [HK (hw & Hv & Hso) Hone [[Hl Dn]%NoDup_cons Dl] Hwhole]. destruct HK as (HR & Hnd & Hun).
  destruct (drop_everywhere_effect (gem w) l (r_cold _ _ _ HR)) as (n & g' & E & Hc & Hg & Hp). unfold wp, on_gem. rewrite E. cbn [fst snd].
  split; [by eexists|]. split; [done|]. split; [done|]. destruct (Dl l ltac:(by left)) as (x & loc & _ & Hm & Hin & k & Hk & Hkn).
  pose proof (r_nodup _ _ _ HR v x loc Hm) as Hndl. apply not_elem_of_cons in Hkn as [Hkl Hkn].
  destruct (drop_leg_legs l loc Hndl Hin) as (R & Hcnt & E1 & E2 & _); [intros Ex; rewrite Ex in Hk; by apply list_elem_of_singleton in Hk|].
  set (loc' := fst (drop_leg_in l loc)) in *.
  assert (forall u y, mapped (set_gem g' w) u y = if decide (u = v /\ y = x) then Some loc' else mapped w u y) as Hmap.
  { intros u y. assert (mapped (set_gem g' w) u y = (fun l0 => fst (drop_leg_in l l0)) <$> mapped w u y) as ->.
    { unfold mapped. cbn. destruct (vols w !! u); [apply Hg|done]. }
    case_decide as Hd; [destruct Hd as [-> ->]; by rewrite Hm|]. destruct (mapped w u y) as [lc|] eqn:Em; [|done]. cbn. f_equal. apply drop_leg_other.
    intros Hlc. destruct (r_alone _ _ _ HR v x loc l u y Hm (Hone _ _ Hm) Hin ltac:(by exists lc)) as [-> ->]. by apply Hd. }
  assert (is_none (policy hw) = true -> mirrors loc' = []) as Hsingle.
  { intros Hn. pose proof (r_single _ _ _ HR v hw x loc Hv Hn Hm) as Hms. exfalso. apply Hkl. unfold legs in Hin, Hk. rewrite Hms in Hin, Hk.
    apply list_elem_of_singleton in Hin, Hk. congruence. }
  pose proof (repr_swap _ w d v hw x loc loc' g' [l] [] R HR Hv Hm (Hone _ _ Hm) Hc Hmap Hp Hcnt E1 E2 ltac:(by apply NoDup_nil)
    ltac:(by intros ? ?%elem_of_nil) Hsingle) as HR'.
  assert (forall u y j, holds (set_gem g' w) u y j -> holds w u y j /\ j <> l) as Hh.
  { intros u y j (lc & Em & Hj). rewrite Hmap in Em. case_decide as Hd.
    - destruct Hd as [-> ->]. injection Em as <-. rewrite E2 in Hj. split; [exists loc; split; [done|]; rewrite E1; by right|].
      intros ->. rewrite E1 in Hndl. by apply NoDup_cons in Hndl as [? _].
    - split; [by exists lc|]. intros ->. apply Hd. by apply (r_alone _ _ _ HR v x loc l u y Hm (Hone _ _ Hm) Hin ltac:(by exists lc)). }
  constructor.
  - split; [done|]. split.
    + apply NoDup_cons. split; [|done]. intros Ho. apply (Hun l Ho v x). by exists loc.
    + intros j [->|Hj]%elem_of_cons u y [Hw Hne]%Hh; [done|by apply (Hun j Hj u y)].
  - by exists hw.
  - intros y lc. rewrite Hmap. case_decide as Hd; [|apply Hone]. intros [= <-]. rewrite Hcnt. by eapply Hone.
  - constructor; [done|]. intros j Hj. destruct (Dl j ltac:(by right)) as (y & lc & _ & Em & Hjl & i & Hi & Hin').
    apply not_elem_of_cons in Hin' as [Hil Hin']. destruct (decide (y = x)) as [->|Hyx].
    + rewrite Hm in Em. injection Em as <-. exists x, loc'. split; [by apply not_elem_of_nil|]. split; [by rewrite Hmap, decide_True|].
      rewrite E1 in Hjl, Hi. apply elem_of_cons in Hjl as [->|Hjl]; [done|]. apply elem_of_cons in Hi as [->|Hi]; [done|].
      split; [by rewrite E2|]. exists i. by rewrite E2.
    + exists y, lc. split; [by apply not_elem_of_nil|]. split; [by rewrite Hmap, decide_False by (by intros [_ ?])|]. split; [done|]. by exists i.
  - intros Ee. destruct (Hwhole Ee) as [Eh Hw]. split; [done|]. intros y lc Hy. rewrite Hmap. case_decide as Hd.
    + destruct Hd as [_ ->]. intros [= <-]. specialize (Hw x loc ltac:(by apply not_elem_of_nil) Hm).
      rewrite (healthy_perm h w (filter _ (legs loc)) (filter (fun j => j ∉ l :: ls) (l :: R))) in Hw by (by rewrite E1).
      rewrite filter_cons, decide_False in Hw by (intros Hn; apply Hn; by left).
      rewrite (healthy_perm h _ (filter _ (legs loc')) (filter (fun j => j ∉ ls) R)) by (by rewrite E2).
      rewrite (filter_same _ (fun j => j ∉ l :: ls)); [exact Hw|]. intros j Hj. rewrite not_elem_of_cons.
      rewrite E1 in Hndl. apply NoDup_cons in Hndl as [HlR _]. split; [intros ?; split; [by intros ->|done]|tauto].
    + intros Em. specialize (Hw y lc Hy Em). rewrite (filter_same _ (fun j => j ∉ l :: ls)); [exact Hw|]. intros j Hj. rewrite not_elem_of_cons.
      split; [intros ?; split; [|done]|tauto]. intros ->.
      destruct (r_alone _ _ _ HR v x loc l v y Hm (Hone _ _ Hm) Hin ltac:(by exists lc)) as [_ ->]. by apply Hd.
Qed.

Lemma softened_vols (w w' : world S) : vols w' = vols w -> softened w w'.
Proof. intros E u. rewrite E. by destruct (vols w !! u); constructor. Qed.
Lemma drops_spec v c h rr d ls : forall more w, sweeping v c h [] rr more ls d w ->
  wp (for_each (fun l => bind (on_gem (drop_leg_everywhere l)) (fun _ => ret ())) ls) (fun r w' => r = Ok () /\ vols w' = vols w /\ registry w' = registry w
    /\ sweeping v c h [] rr (rev ls ++ more) [] d w') w.
Proof.
  induction ls as [|l ls IH]; intros more w HS; [by apply twp_ret|]. cbn [for_each]. apply twp_bind, twp_bind.
  eapply twp_mono; [by eapply drop_step|]. intros ? w1 ([n ->] & Hv1 & Hr1 & HS1). apply twp_ret.
  eapply twp_mono; [by apply IH|]. intros ? w2 (-> & Hv2 & Hr2 & HS2). split; [done|]. split; [congruence|]. split; [congruence|].
  cbn [rev]. by rewrite <- app_assoc.
Qed.

(** Slots nothing names, freed. *)
Definition freed_slots (owed : list Leg) (d : disks) (w w' : world S) : Prop :=
  kept owed w' d /\ gem w' = gem w /\ vols w' = vols w /\ same_slabs w w'.
Lemma freed_slots_trans o o' d w w1 w2 : freed_slots o' d w w1 -> freed_slots o d w1 w2 -> freed_slots o d w w2.
Proof. intros (_ & E1 & E2 & E3) (K & F1 & F2 & F3). split; [done|]. split; [congruence|]. split; [congruence|]. intros id. by rewrite (F3 id), (E3 id). Qed.
Lemma free_slot_spec l owed w d : kept (l :: owed) w d -> wp (free_slot l) (fun r w' => (exists o, r = Ok o) /\ freed_slots owed d w w') w.
Proof.
  intros HK. eapply twp_mono; [by apply free_owed|]. intros r w' (Ho & HK' & HF & Hv). split; [done|]. split; [done|].
  split; [apply HF|]. split; [done|by eapply slabs_frame].
Qed.
Lemma free_dropped_spec owed d ls : forall rr w, kept (ls ++ owed) w d ->
  wp (free_dropped ls rr) (fun r w' => exists rr', r = Ok rr' /\ rr_owed rr' = rr_owed rr /\ rr_errors rr' = rr_errors rr /\ freed_slots owed d w w') w.
Proof.
  induction ls as [|l ls IH]; intros rr w HK; [apply twp_ret; by exists rr|]. cbn [free_dropped]. apply twp_bind.
  eapply twp_mono; [by apply free_slot_spec|]. intros ? w1 ([o ->] & HF). eapply twp_mono; [by apply IH, HF|].
  intros ? w2 (rr' & -> & E1 & E2 & HF2). exists rr'. split; [done|]. rewrite E1, E2.
  split; [by destruct o as [[]|]|]. split; [by destruct o as [[]|]|]. by eapply freed_slots_trans.
Qed.
Lemma release_spec owed d ls : forall w, kept (ls ++ owed) w d ->
  wp (for_each (fun l => bind (free_slot l) (fun _ => ret ())) ls) (fun r w' => r = Ok () /\ freed_slots owed d w w') w.
Proof.
  induction ls as [|l ls IH]; intros w HK; [by apply twp_ret|]. cbn [for_each]. apply twp_bind, twp_bind.
  eapply twp_mono; [by apply free_slot_spec|]. intros ? w1 ([o ->] & HF). apply twp_ret. eapply twp_mono; [by apply IH, HF|].
  intros ? w2 (-> & HF2). split; [done|]. by eapply freed_slots_trans.
Qed.

(** ** The volume *)

(** Every extent has [c] legs that can be read. *)
Definition all_whole (v : VolumeId) (c : Z) (h : Volume) (w : world S) : Prop := forall y lc, mapped w v y = Some lc -> c <= healthy h w (legs lc).
Lemma all_whole_same v c h w w' : all_whole v c h w -> gem w' = gem w -> vols w' = vols w -> same_slabs w w' -> all_whole v c h w'.
Proof.
  intros Hw Eg Ev Hs y lc Hm. rewrite (healthy_same h w w') by (intros; by apply trusted_same). apply (Hw y).
  revert Hm. unfold mapped. by rewrite Eg, Ev.
Qed.
Lemma idle_whole h (w : world S) c lc : needs_work h (registry w) c lc = false -> c <= healthy h w (legs lc).
Proof.
  intros [Hc Ht]%orb_false_iff. apply negb_false_iff, Z.eqb_eq in Hc. unfold healthy. rewrite filter_all.
  - unfold leg_count in Hc. unfold legs, zlen in *. cbn. lia.
  - intros l Hl. destruct (trusted h (registry w) l) eqn:E; [done|]. rewrite <- not_true_iff_false in Ht. exfalso. apply Ht, existsb_exists.
    exists l. split; [by apply list_elem_of_In|]. by rewrite E.
Qed.
Lemma resync_mirror_spec v h p w d : repr [] w d -> vols w !! v = Some h -> p = policy h -> 1 <= copies (scheme p) ->
  (forall y lc, mapped w v y = Some lc -> ref_count lc <= 1) ->
  wp (resync_mirror v p no_report) (fun r w' => exists rr, r = Ok rr /\ kept (rr_owed rr) w' d /\ softened w w'
    /\ (rr_errors rr = [] -> vols w' !! v = Some h /\ all_whole v (copies (scheme p)) h w')) w.
Proof.
  intros HR Hv -> Hc Hone. unfold resync_mirror. set (c := copies (scheme (policy h))) in *. apply twp_gets, (wp_handle _ _ _ _ _ Hv), twp_bind.
  unfold wp at 1, of_gem, on_gem, volume_extents. rewrite check_in_memory by apply HR. cbn [rbind fst snd].
  assert (set_gem (gem w) w = w) as -> by by destruct w. set (es := default [] _). set (todo := map fst _).
  assert (is_none (policy h) = true -> c <= 1) as Hnone by (intros E%bool_decide_eq_true; unfold c; by rewrite E).
  assert (NoDup (map fst es)) as Hnd by (unfold es; destruct (volumes (gem w) !! v); [apply entries_NoDup|by apply NoDup_nil]).
  assert (NoDup todo) as Hnt by (eapply sublist_NoDup; [exact Hnd|]; apply fmap_sublist, sublist_filter).
  assert (sweeping v c h todo (set_considered (zlen todo) no_report) [] [] d w) as HS.
  { constructor.
    - split; [done|]. split; [by apply NoDup_nil|by intros l ?%elem_of_nil].
    - by exists h.
    - done.
    - constructor; [by apply NoDup_nil|by intros l ?%elem_of_nil].
    - intros _. split; [done|]. intros y lc Hy Hm. rewrite filter_all by (intros l _; apply not_elem_of_nil). apply idle_whole.
      destruct (needs_work h (registry w) c lc) eqn:E; [|done]. exfalso. apply Hy. apply list_elem_of_fmap. exists (y, lc). split; [done|].
      apply list_elem_of_filter. split; [done|]. rewrite (mapped_handle _ _ _ _ Hv) in Hm. unfold ext_at in Hm. unfold es.
      destruct (volumes (gem w) !! v) as [m|]; [|done]. by apply elem_of_entries. }
  apply twp_bind. eapply twp_mono; [by apply (mirror_extents_spec v c (policy h) h d Hc Hnone)|].
  intros ? w1 (rr & drops & -> & Hs1 & Hsl1 & HS1). cbn [fst snd]. apply twp_bind, twp_ret, twp_bind, twp_ret. cbn [fst snd]. apply twp_bind.
  eapply twp_mono; [by apply drops_spec|]. intros ? w2 (-> & Hv2 & Hr2 & [HK _ _ _ Hw]). rewrite app_nil_r in HK.
  eapply twp_mono; [apply (free_dropped_spec (rr_owed rr) d drops rr w2); eapply kept_perm; [|exact HK]; by rewrite <- Permutation_rev|].
  intros ? w3 (rr' & -> & Eo & Ee & HK3 & Eg3 & Ev3 & Hs3). exists rr'. rewrite Eo, Ee. split; [done|]. split; [done|].
  split; [etransitivity; [exact Hs1|]; apply softened_vols; congruence|]. intros E. destruct (Hw E) as [Hh Hwh]. split; [by rewrite Ev3|].
  eapply all_whole_same; [|done|done|done]. intros y lc Hm. specialize (Hwh y lc ltac:(by apply not_elem_of_nil) Hm).
  by rewrite filter_all in Hwh by (intros l _; apply not_elem_of_nil).
Qed.

Lemma forgive_spec v rr c h w d : kept (rr_owed rr) w d -> (exists hw, vols w !! v = Some hw /\ softer h hw) ->
  (rr_errors rr = [] -> vols w !! v = Some h /\ all_whole v c h w) ->
  wp (forgive v rr) (fun r w' => exists rr', r = Ok rr' /\ rr_owed rr' = rr_owed rr /\ kept (rr_owed rr) w' d /\ same_blocks w w'
    /\ gem w' = gem w /\ (rr_errors rr' = [] -> exists h', vols w' !! v = Some h' /\ policy h' = policy h /\ all_whole v c h' w')) w.
Proof.
  intros (HR & Hnd & Hun) (hw & Hv & Hso) Hwh. unfold forgive. apply twp_gets, (wp_handle _ _ _ _ _ Hv).
  set (used := match volumes (gem w) !! v with Some _ => _ | None => _ end).
  assert (forall x l, holds w v x l -> lg_slab l ∈ used) as Hused.
  { intros x l (lc & Hm & Hl). rewrite (mapped_handle _ _ _ _ Hv) in Hm. unfold ext_at in Hm. unfold used. destruct (volumes (gem w) !! v) as [m|] eqn:Em; [|done].
    apply elem_of_list_to_set, list_elem_of_fmap. exists l. split; [done|]. apply all_legs_plain; [|by exists x, lc].
    intros y. pose proof (r_parity _ _ _ HR v hw y Hv) as Hp. unfold par_at in Hp. by rewrite Em in Hp. }
  set (f := fun h0 => set_failed (failed h0 ∩ used) h0). apply twp_bind. change (wp (update v f) ?Q w) with (Q (Ok ()) (set_vols (alter f v (vols w)) w)).
  cbn beta iota. set (w' := set_vols _ w). apply twp_ret. eexists. split; [reflexivity|]. split; [done|].
  assert (forall y, mapped w' v y = mapped w v y) as Hm by (intros y; unfold mapped; cbn; rewrite lookup_alter_eq, Hv; done).
  assert (forall u y, mapped w' u y = mapped w u y) as Hm'.
  { intros u y. destruct (decide (u = v)) as [->|Hu]; [done|]. unfold mapped. cbn. by rewrite lookup_alter_ne. }
  split; [split; [|split; [done|]]|split; [|split; [done|]]].
  - apply alter_repr; [done|by intros h0 E; constructor|]. intros h0 x l E Hh Hin. cbn. apply elem_of_intersection. split; [done|by eapply Hused].
  - intros l Hl u y (lc & E & Hin). apply (Hun l Hl u y). exists lc. by rewrite <- Hm'.
  - by apply alter_same_blocks.
  - cbn [rr_errors set_cleared]. intros E. destruct (Hwh E) as [Eh Hw]. rewrite Hv in Eh. injection Eh as ->. exists (f h). split; [cbn; by rewrite lookup_alter_eq, Hv|]. split; [done|].
    intros y lc. rewrite Hm. intros Hy. etransitivity; [by apply (Hw y lc)|]. unfold healthy, zlen. apply Nat2Z.inj_le, submseteq_length, sublist_submseteq.
    change (registry w') with (registry w). clear. induction (legs lc) as [|l ls IH]; [done|]. rewrite !filter_cons.
    destruct (decide (trusted h (registry w) l = true)) as [Ht|Ht]; [|case_decide; [by constructor|done]]. rewrite decide_True; [by constructor|].
    apply andb_true_iff in Ht as [Ha Hf]. apply andb_true_iff. split; [done|]. apply negb_true_iff, bool_decide_eq_false. apply negb_true_iff, bool_decide_eq_false in Hf.
    cbn. set_solver.
Qed.

Section whole.
Context (load : VolumeId -> option VolumeExtentMap) (pr : VolumeId -> RedundancyPolicy -> ResyncReport -> M S ResyncReport).
(** None of the volume's extents is shared, and its policy is one of a copy or more. *)
Definition resyncs_alone (w : world S) (v : VolumeId) : Prop :=
  (forall h, vols w !! v = Some h -> 1 <= copies (scheme (policy h))) /\ forall x loc, mapped w v x = Some loc -> ref_count loc <= 1.
Lemma try_resident v w owed d {B} (k : result DriveError () -> M S B) Q : repr owed w d -> wp (k (Ok ())) Q w -> wp (bind (attempt (resident load v)) k) Q w.
Proof using Type.
  intros HR Hk. unfold wp, bind, attempt, resident, ensure_resident_plan, is_cold in *. by rewrite (r_cold _ _ _ HR), lookup_empty.
Qed.
Lemma resync_spec v h w d : repr [] w d -> vols w !! v = Some h -> resyncs_alone w v ->
  wp (resync load pr v) (fun r w' => exists rr, r = Ok rr /\ repr [] w' d /\ same_blocks w w'
    /\ (rr_errors rr = [] -> exists h', vols w' !! v = Some h' /\ policy h' = policy h /\ all_whole v (copies (scheme (policy h))) h' w')) w.
Proof using Type.
  intros HR Hv [Hc Hone]. unfold resync. apply (try_resident v w [] d); [done|]. apply twp_bind.
  assert (forall rr w1, kept (rr_owed rr) w1 d -> same_blocks w w1 ->
    (rr_errors rr = [] -> exists h', vols w1 !! v = Some h' /\ policy h' = policy h /\ all_whole v (copies (scheme (policy h))) h' w1) ->
    wp (bind (release_slots load v (rr_owed rr)) (fun _ => ret (take_owed rr))) (fun r w' => exists rr, r = Ok rr /\ repr [] w' d /\ same_blocks w w'
      /\ (rr_errors rr = [] -> exists h', vols w' !! v = Some h' /\ policy h' = policy h /\ all_whole v (copies (scheme (policy h))) h' w')) w1) as Hrel.
  { intros rr w1 HK Hb Hw. unfold release_slots. apply twp_bind. eapply try_resident; [apply HK|].
    eapply twp_mono; [apply (release_spec [] d); by rewrite app_nil_r|]. intros ? w2 (-> & (HR2 & _) & Eg & Ev & Hs2). apply twp_ret. eexists. split; [reflexivity|].
    split; [done|]. split; [intros u; by rewrite Ev, Hb|]. intros E. destruct (Hw E) as (h' & Hh' & Hp & Hwh). exists h'. split; [by rewrite Ev|]. split; [done|]. by eapply all_whole_same. }
  unfold resync_with. apply (wp_handle _ _ _ _ _ Hv). destruct (refused h).
  { apply twp_ret, Hrel; [split; [done|]; split; [by apply NoDup_nil|by intros l ?%elem_of_nil]|done|done]. }
  apply (try_resident v w [] d); [done|]. apply (wp_handle _ _ _ _ _ Hv). rewrite (ho_scheme _ _ (r_handle _ _ _ HR v h Hv)). apply twp_bind.
  eapply twp_mono; [apply (resync_mirror_spec v h (policy h) w d HR Hv eq_refl (Hc h Hv) Hone)|]. intros ? w1 (rr & -> & HK & Hs & Hw).
  eapply twp_mono; [apply (forgive_spec v rr (copies (scheme (policy h))) h w1 d HK); [by apply softened_handle with w|done]|].
  intros ? w2 (rr' & -> & Eo & HK2 & Hb2 & _ & Hw2). apply Hrel; [by rewrite Eo| |done]. intros u. by rewrite Hb2, (same_blocks_softened _ _ Hs).
Qed.
End whole.
End proofs.
