(* ===== verification/Health.v ===== *)
(** The health of a volume, [volume/thin.rs]: what is on slabs it trusts against what its
    policy asks for, of mirrors and of parity volumes.  The margin is a number of slabs
    that can be lost, and a resync that reports no error leaves a mirror healthy. *)

From Stdlib Require Import String.
From stdpp Require Import strings sorting.
From S2P Require Import Prelude SlabFormat GemData ExtMap Gem GemProofs Redundancy SlotStore Registry Thin ThinInv ThinAlloc ThinRepr ThinOps ThinDisks Volumes Resync.
#[local] Open Scope Z_scope.

Module HealthState.
Inductive t := Healthy | Degraded | Failed.
#[export] Instance t_eq : EqDecision t.
Proof. solve_decision. Defined.
End HealthState.
Record VolumeHealth := mkHealth {
  hs_state : HealthState.t; hs_redundancy : string; hs_extents : Z; legs_expected : Z; legs_missing : Z; unreadable : Z;
  failed_slabs : list SlabId; margin : Z }.
(** The counters of [health_resident]. *)
Record Tally := mkTally { ty_expected : Z; ty_missing : Z; ty_unreadable : Z; ty_margin : Z }.

(** ** What is counted *)

(** A mirror's extent: its legs that are [present] against [copies]. *)
Definition present_legs (present : Leg -> bool) (ls : list Leg) : Z := zlen (filter (fun l => present l = true) ls).
Definition mirror_step (present : Leg -> bool) (copies : Z) (t : Tally) (loc : ExtentLocation) : Tally :=
  let ok := present_legs present (legs loc) in
  mkTally (ty_expected t + copies) (ty_missing t + sat_sub copies ok) (if ok =? 0 then ty_unreadable t + 1 else ty_unreadable t)
    (Z.min (ty_margin t) (sat_sub ok 1)).
Definition mirror_tally (present : Leg -> bool) (copies : Z) (m : VolumeExtentMap) : Tally :=
  foldl (mirror_step present copies) (mkTally 0 0 0 (sat_sub copies 1)) (locations m).

(** The data of a parity volume's extents missing, by stripe. *)
Definition missing_step (present : Leg -> bool) (data : Z) (ms : Z * gmap Z Z) (xl : Z * ExtentLocation) : Z * gmap Z Z :=
  if existsb present (legs (snd xl)) then ms
  else let s := fst xl / data in (fst ms + 1, <[s := default 0 (snd ms !! s) + 1]> (snd ms)).
Definition missing_data (present : Leg -> bool) (data : Z) (m : VolumeExtentMap) : Z * gmap Z Z :=
  foldl (missing_step present data) (0, ∅) (entries (extents m)).
Definition missing_parity (present : Leg -> bool) (parity : Z) (g : ParityGroup) : Z := parity - Z.min (present_legs present (pg_legs g)) parity.
Definition group_step (present : Leg -> bool) (parity : Z) (stripes : gmap Z Z) (t : Tally) (sg : Z * ParityGroup) : Tally :=
  let mp := missing_parity present parity (snd sg) in
  let md := default 0 (stripes !! fst sg) in
  mkTally (ty_expected t + parity) (ty_missing t + mp) (if parity - mp <? md then ty_unreadable t + 1 else ty_unreadable t)
    (Z.min (ty_margin t) (sat_sub parity (mp + md))).
(** A stripe with no group has no parity to lose. *)
Definition bare_step (groups : gmap Z ParityGroup) (n : Z) (sm : Z * Z) : Z :=
  if bool_decide (is_Some (groups !! fst sm)) then n else if 0 <? snd sm then n + 1 else n.
Definition parity_tally (present : Leg -> bool) (data parity : Z) (m : VolumeExtentMap) : Tally :=
  let md := missing_data present data m in
  let t := foldl (group_step present parity (snd md)) (mkTally (zlen (entries (extents m))) (fst md) 0 parity) (entries (Gem.parity m)) in
  mkTally (ty_expected t) (ty_missing t) (foldl (bare_step (Gem.parity m)) (ty_unreadable t) (map_to_list (snd md)))
    (if existsb (fun xl => negb (bool_decide (is_Some (Gem.parity m !! (fst xl / data))))) (entries (extents m)) then 0 else ty_margin t).

Definition state_of (t : Tally) : HealthState.t :=
  if 0 <? ty_unreadable t then HealthState.Failed else if 0 <? ty_missing t then HealthState.Degraded else HealthState.Healthy.
Definition tally (present : Leg -> bool) (p : RedundancyPolicy) (m : VolumeExtentMap) : Tally :=
  match scheme p with
  | RParity data parity => parity_tally present data parity m
  | s => mirror_tally present (copies s) m
  end.
(** Ids are sixteen bytes, in their order. *)
Definition slab_id_le (a b : SlabId) : Prop := be_val a <= be_val b.
#[export] Instance slab_id_le_dec a b : Decision (slab_id_le a b).
Proof. unfold slab_id_le. apply _. Defined.
Definition health_of {S} (h : Volume) (r : SlabRegistry S) (om : option VolumeExtentMap) : VolumeHealth :=
  let fs := merge_sort slab_id_le (elements (failed h)) in
  match om with
  | None => mkHealth HealthState.Healthy (spelling (policy h)) 0 0 0 0 fs 0
  | Some m =>
      let t := tally (trusted h r) (policy h) m in
      mkHealth (state_of t) (spelling (policy h)) (vmap_len m) (ty_expected t) (ty_missing t) (ty_unreadable t) fs (ty_margin t)
  end.
Definition health_resident {S : Type} (load : VolumeId -> option VolumeExtentMap) (v : VolumeId) : M S VolumeHealth :=
  bind (attempt (resident load v)) (fun _ => bind (handle v) (fun h => bind (gets registry) (fun r =>
    bind (of_gem (fun g => get_volume_map g v)) (fun om => ret (health_of h r om))))).

(** ** What the counters say *)

Section counts.
Context (present : Leg -> bool).
Lemma present_nonneg ls : 0 <= present_legs present ls.
Proof. apply zlen_nonneg. Qed.
Definition lacks (copies : Z) (loc : ExtentLocation) : Prop := present_legs present (legs loc) < copies.
Definition gone (loc : ExtentLocation) : Prop := present_legs present (legs loc) = 0.
Lemma mirror_fold copies ls : forall t, 0 <= ty_missing t -> 0 <= ty_unreadable t ->
  let r := foldl (mirror_step present copies) t ls in
  (0 < ty_missing r <-> 0 < ty_missing t \/ Exists (lacks copies) ls) /\ (0 < ty_unreadable r <-> 0 < ty_unreadable t \/ Exists gone ls)
  /\ ty_margin r <= ty_margin t /\ Forall (fun loc => ty_margin r <= sat_sub (present_legs present (legs loc)) 1) ls
  /\ (ty_margin r = ty_margin t \/ Exists (fun loc => ty_margin r = sat_sub (present_legs present (legs loc)) 1) ls).
Proof.
  induction ls as [|loc ls IH]; intros t Hm Hu; cbn [foldl]; cbv zeta.
  - split; [|split; [|split; [done|split; [constructor|by left]]]]; (split; [by left|by intros [?|?%Exists_nil]]).
  - destruct (IH (mirror_step present copies t loc)) as (I1 & I2 & I3 & I4 & I5); [cbn; unfold sat_sub; lia|cbn; destruct (_ =? 0); lia|].
    cbv zeta in I1, I2, I3, I4, I5. set (r := foldl _ _ ls) in *. unfold mirror_step in I1, I2, I3, I5.
    cbn [ty_missing ty_unreadable ty_margin] in I1, I2, I3, I5. set (k := sat_sub (present_legs present (legs loc)) 1) in *.
    split; [|split; [|split; [lia|split]]].
    + rewrite I1, Exists_cons. unfold lacks at 2, sat_sub. split; [intros [?|?]; [|tauto]; destruct (decide (0 < ty_missing t)); [tauto|right; left; lia]|intros [?|[?|?]]; [left; lia|left; lia|tauto]].
    + rewrite I2, Exists_cons. unfold gone. destruct (Z.eqb_spec (present_legs present (legs loc)) 0) as [E|E];
        [split; [tauto|intros _; left; lia]|tauto].
    + constructor; [lia|done].
    + destruct I5 as [I5|I5]; [|right; by right]. destruct (Z.le_gt_cases (ty_margin t) k); [left; lia|right; left; fold k; lia].
Qed.

(** A stripe's extents, and those of them no leg of which is there. *)
Definition stripe_data (m : VolumeExtentMap) (data s : Z) : list (Z * ExtentLocation) := filter (fun xl => fst xl / data = s) (entries (extents m)).
Definition absent (xl : Z * ExtentLocation) : Prop := existsb present (legs (snd xl)) = false.
#[global] Instance absent_dec xl : Decision (absent xl).
Proof. unfold absent. apply _. Defined.
Definition missing_at (m : VolumeExtentMap) (data s : Z) : Z := zlen (filter absent (stripe_data m data s)).
Lemma missing_fold data xs : forall n st s, let r := foldl (missing_step present data) (n, st) xs in
  fst r = n + zlen (filter absent xs)
  /\ default 0 (snd r !! s) = default 0 (st !! s) + zlen (filter absent (filter (fun xl => fst xl / data = s) xs)).
Proof.
  induction xs as [|[x loc] xs IH]; intros n st s; cbv zeta; [cbn; unfold zlen; cbn; lia|]. cbn [foldl]. unfold missing_step at 2 4. cbn [fst snd].
  destruct (existsb present (legs loc)) eqn:E.
  - destruct (IH n st s) as [-> ->]. rewrite !filter_cons. split.
    + rewrite decide_False by (unfold absent; cbn [snd]; congruence). done.
    + case_decide; [|done]. rewrite filter_cons, decide_False by (unfold absent; cbn [snd]; congruence). done.
  - destruct (IH (n + 1) (<[x / data := default 0 (st !! (x / data)) + 1]> st) s) as [-> ->]. rewrite !filter_cons. split.
    + rewrite decide_True by done. rewrite zlen_cons. lia.
    + cbn [fst]. case_decide as Hs; [subst s; rewrite lookup_insert_eq, filter_cons, decide_True, zlen_cons by done; cbn; lia|].
      by rewrite lookup_insert_ne by done.
Qed.
Lemma missing_data_spec m data s : default 0 (snd (missing_data present data m) !! s) = missing_at m data s.
Proof. unfold missing_data. destruct (missing_fold data (entries (extents m)) 0 ∅ s) as [_ ->]. by rewrite lookup_empty. Qed.
Lemma missing_data_total m data : fst (missing_data present data m) = zlen (filter absent (entries (extents m))).
Proof. unfold missing_data. by destruct (missing_fold data (entries (extents m)) 0 ∅ 0) as [-> _]. Qed.

(** More of the stripe's data is missing than the parity there is of it covers. *)
Definition beyond (m : VolumeExtentMap) (data parity s : Z) : Prop :=
  match Gem.parity m !! s with
  | Some g => parity - missing_parity present parity g < missing_at m data s
  | None => 0 < missing_at m data s
  end.
Lemma group_fold parity st gs : forall t, 0 <= ty_unreadable t ->
  let r := foldl (group_step present parity st) t gs in
  0 <= ty_unreadable r
  /\ (0 < ty_unreadable r <-> 0 < ty_unreadable t \/ exists s g, (s, g) ∈ gs /\ parity - missing_parity present parity g < default 0 (st !! s))
  /\ ty_margin r <= ty_margin t
  /\ (forall s g, (s, g) ∈ gs -> ty_margin r <= sat_sub parity (missing_parity present parity g + default 0 (st !! s))).
Proof.
  induction gs as [|[s g] gs IH]; intros t Hu; cbn [foldl]; cbv zeta.
  - split; [done|]. split; [|split; [done|by intros s g ?%elem_of_nil]]. split; [by left|]. intros [?|(s & g & ?%elem_of_nil & _)]; done.
  - destruct (IH (group_step present parity st t (s, g))) as (I1 & I2 & I3 & I4); [cbn; destruct (_ <? _); lia|].
    cbv zeta in I1, I2, I3, I4. set (r := foldl _ _ gs) in *. cbn in I2, I3. split; [done|]. split; [|split; [lia|]].
    + rewrite I2. destruct (Z.ltb_spec (parity - missing_parity present parity g) (default 0 (st !! s))) as [Hl|Hl].
      * split; [|intros _; left; lia]. intros _. right. exists s, g. split; [by left|done].
      * split.
        -- intros [?|(s' & g' & Hin & Hlt)]; [by left|]. right. exists s', g'. split; [by right|done].
        -- intros [?|(s' & g' & [[= -> ->]|Hin]%elem_of_cons & Hlt)]; [by left|lia|]. right. by exists s', g'.
    + intros s' g' [[= -> ->]|Hin]%elem_of_cons; [lia|by apply I4].
Qed.
Lemma bare_fold (gm : gmap Z ParityGroup) sms : forall n, 0 <= n ->
  0 < foldl (bare_step gm) n sms <-> 0 < n \/ exists s k, (s, k) ∈ sms /\ gm !! s = None /\ 0 < k.
Proof.
  induction sms as [|[s k] sms IH]; intros n Hn; cbn [foldl].
  - split; [by left|]. intros [?|(s & k & ?%elem_of_nil & _)]; done.
  - unfold bare_step at 2. cbn [fst snd]. destruct (gm !! s) as [g|] eqn:Eg.
    + rewrite bool_decide_true by by eexists. rewrite IH by done. split.
      * intros [?|(s' & k' & Hin & Hr)]; [by left|]. right. exists s', k'. split; [by right|done].
      * intros [?|(s' & k' & [[= -> ->]|Hin]%elem_of_cons & En & Hk)]; [by left|congruence|]. right. by exists s', k'.
    + rewrite bool_decide_false by by intros [? ?]. destruct (Z.ltb_spec 0 k) as [Hk|Hk]; rewrite IH by lia.
      * split; [intros _|intros _; left; lia]. right. exists s, k. split; [by left|done].
      * split.
        -- intros [?|(s' & k' & Hin & Hr)]; [by left|]. right. exists s', k'. split; [by right|done].
        -- intros [?|(s' & k' & [[= -> ->]|Hin]%elem_of_cons & En & Hk')]; [by left|lia|]. right. by exists s', k'.
Qed.
Lemma parity_tally_spec data parity m : let t := parity_tally present data parity m in
  (0 < ty_unreadable t <-> exists s, beyond m data parity s)
  /\ ((exists x loc, extents m !! x = Some loc /\ Gem.parity m !! (x / data) = None) -> ty_margin t = 0)
  /\ (0 < ty_margin t -> forall s g, Gem.parity m !! s = Some g -> ty_margin t <= sat_sub parity (missing_parity present parity g + missing_at m data s)).
Proof.
  cbv zeta. unfold parity_tally. set (md := missing_data present data m). set (t0 := mkTally _ _ 0 parity).
  destruct (group_fold parity (snd md) (entries (Gem.parity m)) t0 ltac:(done)) as (G1 & G2 & G3 & G4). cbv zeta in G1, G2, G3, G4.
  set (t := foldl _ _ _) in *. cbn [ty_unreadable ty_margin ty_missing]. split; [|split].
  - rewrite (bare_fold (Gem.parity m) _ _ G1), G2. cbn [ty_unreadable t0]. split.
    + intros [[?|(s & g & Hg%elem_of_entries & Hlt)]|(s & k & Hk & En & Hpos)]; [lia| |].
      * exists s. unfold beyond. rewrite Hg, <- missing_data_spec. done.
      * exists s. unfold beyond. rewrite En, <- missing_data_spec. apply elem_of_map_to_list in Hk. unfold md in Hk. by rewrite Hk.
    + intros [s Hs]. unfold beyond in Hs. destruct (Gem.parity m !! s) as [g|] eqn:Eg; rewrite <- missing_data_spec in Hs.
      * left. right. exists s, g. by rewrite elem_of_entries.
      * right. fold md in Hs. destruct (snd md !! s) as [k|] eqn:Ek; [|cbn in Hs; lia]. exists s, k. by rewrite elem_of_map_to_list.
  - intros (x & loc & Hx & Hn). replace (existsb _ _) with true; [done|]. symmetry. apply existsb_exists. exists (x, loc).
    split; [by apply list_elem_of_In, elem_of_entries|]. cbn. rewrite Hn. rewrite bool_decide_false by by intros [? ?]. done.
  - destruct (existsb _ _); [lia|]. intros _ s g Hg. rewrite <- missing_data_spec. apply G4. by rewrite elem_of_entries.
Qed.
End counts.

(** ** Slabs lost *)

Definition without (X : gset SlabId) (present : Leg -> bool) (l : Leg) : bool := present l && negb (bool_decide (lg_slab l ∈ X)).
(** The units, lists of legs, that have a leg present. *)
Definition alive (present : Leg -> bool) (us : list (list Leg)) : Z := zlen (filter (fun u => existsb present u = true) us).
Lemma alive_cons present u us : alive present (u :: us) = (if existsb present u then 1 else 0) + alive present us.
Proof. unfold alive. rewrite filter_cons. destruct (existsb present u); [rewrite decide_True, zlen_cons by done; lia|by rewrite decide_False]. Qed.
Lemma alive_ext p q us : (forall l, l ∈ concat us -> p l = q l) -> alive p us = alive q us.
Proof.
  induction us as [|u us IH]; intros He; [done|]. rewrite !alive_cons. f_equal; [|apply IH; intros l Hl; apply He; cbn; apply elem_of_app; by right].
  replace (existsb p u) with (existsb q u); [done|]. assert (forall l, l ∈ u -> q l = p l) as Hu by (intros l Hl; symmetry; apply He; cbn; apply elem_of_app; by left).
  clear -Hu. induction u as [|l u IH]; [done|]. cbn. rewrite Hu by by left. f_equal. apply IH. intros k Hk. apply Hu. by right.
Qed.
Lemma alive_app p us vs : alive p (us ++ vs) = alive p us + alive p vs.
Proof. unfold alive. by rewrite filter_app, zlen_app. Qed.
(** On slabs apart, a slab lost is at most one unit lost. *)
Lemma alive_without present us : forall X, NoDup (map lg_slab (concat us)) -> alive present us <= alive (without X present) us + Z.of_nat (size X).
Proof.
  induction us as [|u us IH]; intros X Hnd; [cbn; unfold alive, zlen; cbn; lia|]. rewrite !alive_cons. cbn [concat] in Hnd. rewrite map_app in Hnd.
  apply NoDup_app in Hnd as (_ & Hd & Hnd). destruct (existsb present u) eqn:E; [|specialize (IH X Hnd); destruct (existsb (without X present) u); lia].
  destruct (existsb (without X present) u) eqn:E'; [specialize (IH X Hnd); lia|].
  apply existsb_exists in E as (l & Hl & Hp). assert (lg_slab l ∈ X) as Hx.
  { destruct (decide (lg_slab l ∈ X)) as [|Hn]; [done|]. rewrite <- not_true_iff_false in E'. exfalso. apply E', existsb_exists. exists l. split; [done|].
    unfold without. by rewrite Hp, bool_decide_false. }
  specialize (IH (X ∖ {[lg_slab l]}) Hnd). rewrite (alive_ext (without (X ∖ {[lg_slab l]}) present) (without X present)) in IH.
  - rewrite size_difference, size_singleton in IH by set_solver. assert (size X <> O) by (intros Hz%size_empty_inv; set_solver). lia.
  - intros k Hk. unfold without. do 2 f_equal. apply bool_decide_ext. rewrite elem_of_difference, elem_of_singleton. split; [tauto|].
    intros Hkx. split; [done|]. intros Es. apply (Hd (lg_slab l)); [apply list_elem_of_fmap; exists l; split; [done|by apply list_elem_of_In]|].
    rewrite <- Es. by apply list_elem_of_fmap_2.
Qed.
Lemma alive_single present ls : alive present (map (fun l => [l]) ls) = present_legs present ls.
Proof.
  induction ls as [|l ls IH]; [done|]. cbn [map]. rewrite alive_cons, IH. cbn. unfold present_legs. rewrite filter_cons, orb_false_r.
  destruct (present l); [rewrite decide_True, zlen_cons by done; lia|by rewrite decide_False].
Qed.
Lemma concat_single {A} (ls : list A) : concat (map (fun l => [l]) ls) = ls.
Proof. induction ls as [|l ls IH]; [done|]. cbn. by rewrite IH. Qed.
Lemma present_without X present ls : NoDup (map lg_slab ls) -> present_legs present ls <= present_legs (without X present) ls + Z.of_nat (size X).
Proof. intros Hnd. rewrite <- !alive_single. apply alive_without. by rewrite concat_single. Qed.
Lemma present_less X present ls : present_legs (without X present) ls <= present_legs present ls.
Proof.
  induction ls as [|l ls IH]; [done|]. unfold present_legs in *. rewrite !filter_cons.
  destruct (decide (without X present l = true)) as [Hw|_].
  - rewrite decide_True by by apply andb_true_iff in Hw as [? _]. rewrite !zlen_cons. lia.
  - case_decide; [rewrite zlen_cons|]; lia.
Qed.
Lemma alive_absent present (xs : list (Z * ExtentLocation)) : alive present (map (fun xl => legs (snd xl)) xs) = zlen xs - zlen (filter (absent present) xs).
Proof.
  induction xs as [|xl xs IH]; [done|]. cbn [map]. rewrite alive_cons, IH, filter_cons, !zlen_cons. destruct (decide (absent present xl)) as [Ha|Ha].
  - rewrite zlen_cons. unfold absent in Ha. rewrite Ha. lia.
  - unfold absent in Ha. rewrite not_false_iff_true in Ha. rewrite Ha. lia.
Qed.

(** The legs that have to survive one another are on slabs apart. *)
Definition spread_out (p : RedundancyPolicy) (m : VolumeExtentMap) : Prop :=
  match scheme p with
  | RParity data _ =>
      forall s, NoDup (map lg_slab (concat (map (fun xl => legs (snd xl)) (stripe_data m data s)) ++ from_option pg_legs [] (Gem.parity m !! s)))
  | _ => Forall (fun loc => NoDup (map lg_slab (legs loc))) (locations m)
  end.
Lemma failed_iff t : state_of t = HealthState.Failed <-> 0 < ty_unreadable t.
Proof. unfold state_of. destruct (Z.ltb_spec 0 (ty_unreadable t)); [done|]. split; [by destruct (_ <? _)|lia]. Qed.

Lemma mirror_survives present copies m X : Forall (fun loc => NoDup (map lg_slab (legs loc))) (locations m) ->
  ~ 0 < ty_unreadable (mirror_tally present copies m) -> Z.of_nat (size X) <= ty_margin (mirror_tally present copies m) ->
  ~ 0 < ty_unreadable (mirror_tally (without X present) copies m).
Proof.
  unfold mirror_tally. intros Hnd. set (t0 := mkTally _ _ _ _).
  destruct (mirror_fold present copies (locations m) t0 ltac:(done) ltac:(done)) as (_ & M2 & _ & M4 & _).
  destruct (mirror_fold (without X present) copies (locations m) t0 ltac:(done) ltac:(done)) as (_ & N2 & _).
  cbv zeta in M2, M4, N2. rewrite M2, N2. cbn [t0 ty_unreadable]. intros Hok Hle [?|Hg%Exists_exists]; [lia|]. destruct Hg as (loc & Hin & Hg).
  rewrite Forall_forall in M4, Hnd. specialize (M4 loc Hin). specialize (Hnd loc Hin). pose proof (present_without X present (legs loc) Hnd) as Hs. unfold gone in Hg.
  pose proof (present_nonneg present (legs loc)). destruct (Z.eq_dec (present_legs present (legs loc)) 0) as [Hz|Hz]; [apply Hok; right; apply Exists_exists; by exists loc|].
  unfold sat_sub in *. lia.
Qed.
Lemma without_none present l : without ∅ present l = present l.
Proof. unfold without. rewrite bool_decide_false by set_solver. apply andb_true_r. Qed.
Lemma parity_survives present data parity m X :
  (forall s, NoDup (map lg_slab (concat (map (fun xl => legs (snd xl)) (stripe_data m data s)) ++ from_option pg_legs [] (Gem.parity m !! s)))) ->
  ~ 0 < ty_unreadable (parity_tally present data parity m) -> Z.of_nat (size X) <= ty_margin (parity_tally present data parity m) ->
  ~ 0 < ty_unreadable (parity_tally (without X present) data parity m).
Proof.
  intros Hnd. destruct (parity_tally_spec present data parity m) as (P1 & P2 & P3).
  destruct (parity_tally_spec (without X present) data parity m) as (Q1 & _). cbv zeta in P1, P2, P3, Q1. rewrite P1, Q1.
  intros Hok Hle [s Hs]. destruct (decide (size X = O)) as [Hz%size_empty_inv|Hz].
  { apply Hok. exists s. apply leibniz_equiv in Hz. subst X. clear -Hs. revert Hs. unfold beyond, missing_at, missing_parity, present_legs, absent.
    assert (forall ls, existsb (without ∅ present) ls = existsb present ls) as E by (intros ls; induction ls as [|l ls IH]; [done|]; cbn; by rewrite without_none, IH).
    rewrite (list_filter_iff (fun xl => existsb (without ∅ present) _ = false) (fun xl => existsb present (legs (snd xl)) = false)) by (intros xl; by rewrite E).
    destruct (Gem.parity m !! s) as [g|]; [|done]. by rewrite (list_filter_iff (fun l => without ∅ present l = true) (fun l => present l = true)) by (intros l; by rewrite without_none). }
  specialize (Hnd s). destruct (Gem.parity m !! s) as [g|] eqn:Eg.
  - specialize (P3 ltac:(lia) s g Eg). assert (~ beyond present m data parity s) as Hb by (intros ?; apply Hok; by exists s).
    unfold beyond in Hb, Hs. rewrite Eg in Hb, Hs. cbn in Hnd.
    pose proof (alive_without present (map (fun xl => legs (snd xl)) (stripe_data m data s) ++ map (fun l => [l]) (pg_legs g)) X) as Ha.
    rewrite concat_app, concat_single in Ha. specialize (Ha Hnd). rewrite !alive_app, !alive_absent, !alive_single in Ha.
    pose proof (present_less X present (pg_legs g)). fold (missing_at present m data s) in Ha. fold (missing_at (without X present) m data s) in Ha. unfold missing_parity, sat_sub in *.
    lia.
  - unfold beyond in Hs. rewrite Eg in Hs. assert (exists xl, xl ∈ stripe_data m data s) as [[x loc] Hx].
    { unfold missing_at, zlen in Hs. destruct (stripe_data m data s) as [|xl r]; [cbn in Hs; lia|]. exists xl. by left. }
    apply list_elem_of_filter in Hx as [Ex Hx%elem_of_entries]. cbn in Ex. rewrite P2 in Hle by (exists x, loc; by rewrite Ex). lia.
Qed.

(** Legs judged alike are counted alike. *)
Lemma foldl_ext_in {A B} (f g : A -> B -> A) bs : forall a, (forall a b, f a b = g a b) -> foldl f a bs = foldl g a bs.
Proof. induction bs as [|b bs IH]; intros a He; [done|]. cbn. rewrite He. by apply IH. Qed.
Lemma tally_ext p q pol m : (forall l, p l = q l) -> tally p pol m = tally q pol m.
Proof.
  intros He. assert (forall ls, present_legs p ls = present_legs q ls) as Hp by (intros ls; unfold present_legs; f_equal; apply list_filter_iff; intros l; by rewrite He).
  assert (forall ls, existsb p ls = existsb q ls) as Hx by (intros ls; induction ls as [|l ls IH]; [done|]; cbn; by rewrite He, IH).
  assert (forall c, mirror_tally p c m = mirror_tally q c m) as Hm.
  { intros c. apply foldl_ext_in. intros t loc. unfold mirror_step. by rewrite Hp. }
  unfold tally. destruct (scheme pol) as [|c|d k]; [apply Hm|apply Hm|]. unfold parity_tally.
  assert (missing_data p d m = missing_data q d m) as -> by (apply foldl_ext_in; intros a xl; unfold missing_step; by rewrite Hx).
  set (t0 := mkTally _ _ 0 k). assert (foldl (group_step p k (snd (missing_data q d m))) t0 (entries (Gem.parity m))
    = foldl (group_step q k (snd (missing_data q d m))) t0 (entries (Gem.parity m))) as ->; [|done].
  apply foldl_ext_in. intros t sg. unfold group_step, missing_parity. by rewrite Hp.
Qed.
Definition distrust (X : gset SlabId) (h : Volume) : Volume := set_failed (failed h ∪ X) h.
Lemma trusted_distrust {S} X h (r : SlabRegistry S) l : trusted (distrust X h) r l = without X (trusted h r) l.
Proof.
  unfold without, trusted, is_failed, distrust. cbn. rewrite <- andb_assoc. f_equal. rewrite <- negb_orb. f_equal.
  rewrite <- bool_decide_or. apply bool_decide_ext. apply elem_of_union.
Qed.
Lemma tally_survives present p m X : spread_out p m -> ~ 0 < ty_unreadable (tally present p m) -> Z.of_nat (size X) <= ty_margin (tally present p m) ->
  ~ 0 < ty_unreadable (tally (without X present) p m).
Proof. unfold spread_out, tally. destruct (scheme p); [apply mirror_survives|apply mirror_survives|apply parity_survives]. Qed.
(** The slabs of an extent's legs that are there. *)
Definition slabs_of (present : Leg -> bool) (loc : ExtentLocation) : gset SlabId := list_to_set (map lg_slab (filter (fun l => present l = true) (legs loc))).
Lemma slabs_of_size present loc : NoDup (map lg_slab (legs loc)) -> Z.of_nat (size (slabs_of present loc)) = present_legs present (legs loc).
Proof.
  intros Hnd. unfold slabs_of, present_legs, zlen. rewrite size_list_to_set; [by rewrite length_map|].
  eapply sublist_NoDup; [exact Hnd|]. apply fmap_sublist, sublist_filter.
Qed.
Lemma slabs_of_gone present loc : gone (without (slabs_of present loc) present) loc.
Proof.
  unfold gone, present_legs, zlen. assert (forall l, l ∈ legs loc -> without (slabs_of present loc) present l <> true) as Hn.
  { intros l Hl [Hp Hx]%andb_true_iff. apply negb_true_iff, bool_decide_eq_false in Hx. apply Hx, elem_of_list_to_set, list_elem_of_fmap_2, list_elem_of_filter. done. }
  set (p := without _ _) in *. clearbody p. induction (legs loc) as [|l ls IH]; [done|]. rewrite filter_cons, decide_False by (apply Hn; by left).
  apply IH. intros k Hk. apply Hn. by right.
Qed.
Lemma mirror_tight present copies m : 1 <= copies -> Forall (fun loc => NoDup (map lg_slab (legs loc)) /\ present_legs present (legs loc) <= copies) (locations m) ->
  locations m <> [] -> ~ 0 < ty_unreadable (mirror_tally present copies m) ->
  exists X : gset SlabId, Z.of_nat (size X) = ty_margin (mirror_tally present copies m) + 1 /\ 0 < ty_unreadable (mirror_tally (without X present) copies m).
Proof.
  intros Hc Hall Hne. unfold mirror_tally. set (t0 := mkTally _ _ _ _).
  destruct (mirror_fold present copies (locations m) t0 ltac:(done) ltac:(done)) as (_ & M2 & _ & M4 & M5). cbv zeta in M2, M4, M5. rewrite M2. intros Hok.
  set (g := ty_margin (foldl _ _ _)) in *. rewrite Forall_forall in Hall, M4.
  assert (exists loc, loc ∈ locations m /\ g + 1 = present_legs present (legs loc)) as (loc & Hin & Hg).
  { assert (forall loc, loc ∈ locations m -> 1 <= present_legs present (legs loc)) as Hpos.
    { intros loc Hin. pose proof (present_nonneg present (legs loc)). destruct (Z.eq_dec (present_legs present (legs loc)) 0) as [Hz|]; [|lia].
      exfalso. apply Hok. right. apply Exists_exists. by exists loc. }
    destruct M5 as [M5|M5].
    - destruct (locations m) as [|loc ls] eqn:El; [done|]. exists loc. split; [by left|]. cbn [t0 ty_margin] in M5. unfold sat_sub in *.
      destruct (Hall loc ltac:(by left)) as [_ Hle]. specialize (M4 loc ltac:(by left)). specialize (Hpos loc ltac:(by left)). cbn in M4. lia.
    - apply Exists_exists in M5 as (loc & Hin & Em). exists loc. split; [done|]. specialize (Hpos loc Hin). unfold sat_sub in Em. lia. }
  exists (slabs_of present loc). split; [rewrite slabs_of_size by (by apply Hall); lia|].
  destruct (mirror_fold (without (slabs_of present loc) present) copies (locations m) t0 ltac:(done) ltac:(done)) as (_ & N2 & _). cbv zeta in N2.
  apply N2. right. apply Exists_exists. exists loc. split; [done|apply slabs_of_gone].
Qed.

(** ** What a volume's health promises *)

Section promises.
Context {S : Type} (r : SlabRegistry S).
(** C18. The margin can be lost.  A volume that can be read, mirrored or with parity, and
    whose legs that protect one another are on slabs apart ([spread_out]), can still be read
    when it stops trusting any number of slabs up to its margin.  And the margin of a mirror
    that has extents, none with more legs than its policy has copies (before a resync after
    the copies were lowered it may), is exact: there is one slab more it cannot lose. *)
Theorem health_margin_survives h m : spread_out (policy h) m -> hs_state (health_of h r (Some m)) <> HealthState.Failed ->
  (forall X : gset SlabId, Z.of_nat (size X) <= margin (health_of h r (Some m)) ->
     hs_state (health_of (distrust X h) r (Some m)) <> HealthState.Failed)
  /\ (is_parity (scheme (policy h)) = false -> 1 <= copies (scheme (policy h)) -> locations m <> [] ->
      Forall (fun loc => leg_count loc <= copies (scheme (policy h))) (locations m) ->
      exists X : gset SlabId, Z.of_nat (size X) = margin (health_of h r (Some m)) + 1
        /\ hs_state (health_of (distrust X h) r (Some m)) = HealthState.Failed).
Proof using Type.
  cbn. intros Hsp. assert (forall X, tally (trusted (distrust X h) r) (policy h) m = tally (without X (trusted h r)) (policy h) m) as Et
    by (intros X; apply tally_ext; intros l; apply trusted_distrust).
  rewrite failed_iff. intros Hok. split.
  - intros X Hle. rewrite failed_iff, Et. by apply tally_survives.
  - intros Hm Hc Hne Hall. assert (forall present, tally present (policy h) m = mirror_tally present (copies (scheme (policy h))) m) as Em
      by (intros present; unfold tally; by destruct (scheme (policy h))).
    assert (Forall (fun loc => NoDup (map lg_slab (legs loc))) (locations m)) as Hnd by (unfold spread_out in Hsp; by destruct (scheme (policy h))).
    destruct (mirror_tight (trusted h r) (copies (scheme (policy h))) m) as (X & Hx & Hf); [done| |done|by rewrite <- Em|].
    + apply Forall_forall. intros loc Hin. rewrite Forall_forall in Hnd, Hall. split; [by apply Hnd|]. etransitivity; [|by apply Hall].
      unfold present_legs, zlen, leg_count. etransitivity; [apply Nat2Z.inj_le, length_filter|]. unfold legs, zlen. cbn. lia.
    + exists X. rewrite Em. split; [done|]. apply failed_iff. by rewrite Et, Em.
Qed.
End promises.

(** ** After a resync *)

Section resynced.
Context {S : Type} `{SlotStoreLaws S} (load : VolumeId -> option VolumeExtentMap) (pr : VolumeId -> RedundancyPolicy -> ResyncReport -> M S ResyncReport).
Lemma health_spec v (w : world S) d h : repr [] w d -> vols w !! v = Some h ->
  health_resident load v w = (Ok (health_of h (registry w) (volumes (gem w) !! v)), w).
Proof using Type.
  intros HR Hv. unfold health_resident, bind at 1, attempt. rewrite (resident_spec load v w d HR). unfold bind at 1, handle. rewrite Hv.
  unfold bind, gets, of_gem, on_gem, get_volume_map. rewrite check_in_memory by apply HR. cbn. by destruct w.
Qed.
(** A mirror every extent of which has its legs is healthy. *)
Lemma whole_is_healthy v c h (w : world S) : is_parity (scheme (policy h)) = false -> c = copies (scheme (policy h)) -> 1 <= c ->
  vols w !! v = Some h -> all_whole v c h w -> hs_state (health_of h (registry w) (volumes (gem w) !! v)) = HealthState.Healthy.
Proof using Type.
  intros Hp Ec Hc Hv Hw. destruct (volumes (gem w) !! v) as [m|] eqn:Em; [|done]. cbn.
  replace (tally _ _ m) with (mirror_tally (trusted h (registry w)) c m) by (unfold tally; subst c; by destruct (scheme (policy h))).
  assert (Forall (fun loc => c <= present_legs (trusted h (registry w)) (legs loc)) (locations m)) as Hall.
  { apply Forall_forall. intros loc Hin. unfold locations in Hin. apply list_elem_of_fmap in Hin as ([x loc'] & -> & Hx%elem_of_entries). cbn.
    apply (Hw x). rewrite (mapped_handle _ _ _ _ Hv). unfold ext_at. by rewrite Em. }
  unfold mirror_tally. set (t0 := mkTally _ _ _ _). rewrite Forall_forall in Hall.
  destruct (mirror_fold (trusted h (registry w)) c (locations m) t0 ltac:(done) ltac:(done)) as (M1 & M2 & _). cbv zeta in M1, M2. unfold state_of.
  destruct (Z.ltb_spec 0 (ty_unreadable (foldl (mirror_step (trusted h (registry w)) c) t0 (locations m)))) as [Hu|_].
  { exfalso. apply M2 in Hu as [Hu|(loc & Hin & Hg)%Exists_exists]; [cbn in Hu; lia|]. specialize (Hall loc Hin). unfold gone in Hg. lia. }
  destruct (Z.ltb_spec 0 (ty_missing (foldl (mirror_step (trusted h (registry w)) c) t0 (locations m)))) as [Hu|_]; [|done].
  exfalso. apply M1 in Hu as [Hu|(loc & Hin & Hg)%Exists_exists]; [cbn in Hu; lia|]. specialize (Hall loc Hin). unfold lacks in Hg. lia.
Qed.
(** C17. Resync restores mirrors.  For a mirror or plain volume none of whose extents is
    shared, it always ends with a report, whatever fails meanwhile; every volume stands for
    the disk it stood for; and when the report has no error each extent of the volume has as
    many legs as its policy asks for on slabs that are attached and trusted, and the volume's
    health is healthy.  There is no parity volume in the world and every map is in memory
    ([repr]); storage keeps [SlotStoreLaws] (a write in range that fails fails as a medium or
    transport error). *)
Theorem resync_restores_mirrors v h w d : repr [] w d -> vols w !! v = Some h -> resyncs_alone w v ->
  exists rr w', resync load pr v w = (Ok rr, w') /\ repr [] w' d
  /\ (rr_errors rr = [] -> exists h' H', vols w' !! v = Some h'
      /\ (forall x loc, mapped w' v x = Some loc -> copies (scheme (policy h)) <= zlen (filter (fun l => trusted h' (registry w') l = true) (legs loc)))
      /\ health_resident load v w' = (Ok H', w') /\ hs_state H' = HealthState.Healthy).
Proof using Type.
  intros HR Hv Ha. destruct (resync_spec load pr v h w d HR Hv Ha) as (rr & Er & HR' & _ & Hw).
  exists rr, (snd (resync load pr v w)). split; [rewrite <- Er; apply surjective_pairing|]. split; [done|]. intros Ee.
  destruct (Hw Ee) as (h' & Hh' & Ep & Hall). eexists h', _. split; [done|]. split; [exact Hall|]. split; [by eapply health_spec|].
  eapply whole_is_healthy; [|symmetry; by rewrite Ep|by apply Ha|done|done]. apply (r_handle _ _ _ HR' v h' Hh').
Qed.
End resynced.
