(* ===== verification/ThinLaws.v ===== *)
(** Volumes stand for disks: each request, whatever fails, does to the disks what it was
    asked to and nothing else, and a snapshot is its source as it was. *)

From Stdlib Require Import String.
From stdpp Require Import strings.
From S2P Require Import Prelude SlabFormat GemData ExtMap Gem GemProofs Redundancy SlotStore SlabState SlotStoreSlab Registry Thin ThinInv ThinAlloc ThinRepr ThinOps ThinDisks Volumes Resync Health.
#[local] Open Scope Z_scope.

(** ** Requests *)

Inductive request :=
| Read (v : VolumeId) (off len : Z)
| Write (v : VolumeId) (off : Z) (buf : bytes)
| Discard (v : VolumeId) (off len : Z)
| WriteZeroes (v : VolumeId) (off len : Z)
| Resize (v : VolumeId) (size : Z)
| Redundant (v : VolumeId) (p : RedundancyPolicy)
| Relocate (v : VolumeId) (vext : Z) (dest : SlabId)
| Resync (v : VolumeId)
| Snapshot (v snap : VolumeId)
| Delete (v : VolumeId).
(** A read's bytes, a write's count, a resync's report. *)
Inductive answer := Bytes (b : bytes) | Count (n : Z) | Report (rr : ResyncReport) | Done.

Section machine.
Context {S : Type} `{SlotStore S} (load : VolumeId -> option VolumeExtentMap) (pp : ParityPath S)
  (pr : VolumeId -> RedundancyPolicy -> ResyncReport -> M S ResyncReport)
  (order : list (SlabId * list Z) -> list (SlabId * list Z)).
Definition serve (r : request) : M S answer :=
  match r with
  | Read v off len => bind (Thin.read load pp v off len) (fun b => ret (Bytes b))
  | Write v off buf => bind (Thin.write load pp v off buf) (fun n => ret (Count n))
  | Discard v off len => bind (discard load pp v off len) (fun _ => ret Done)
  | WriteZeroes v off len => bind (write_zeroes load pp v off len) (fun _ => ret Done)
  | Resize v size => bind (resize load pp v size) (fun _ => ret Done)
  | Redundant v p => bind (set_redundancy v p) (fun _ => ret Done)
  | Relocate v vext dest => bind (relocate_extent load v vext dest) (fun _ => ret Done)
  | Resync v => bind (resync load pr v) (fun rr => ret (Report rr))
  | Snapshot v snap => bind (create_snapshot load order v snap) (fun _ => ret Done)
  | Delete v => bind (delete_volume load order v) (fun _ => ret Done)
  end.
(** Offsets and lengths are unsigned, a snapshot's id is new, an extent moves to a slab of
    its volume's slot size, a volume is resynced when none of its extents is shared, and
    the policy of a mirror does not become none: its extents keep their legs until a resync,
    and one that missed a write on a network error is then still trusted. *)
Definition fits (w : world S) (r : request) : Prop :=
  match r with
  | Read _ off len | Discard _ off len | WriteZeroes _ off len => 0 <= off /\ 0 <= len
  | Write _ off _ => 0 <= off
  | Resize _ size => 0 <= size
  | Redundant v p => forall h, vols w !! v = Some h -> is_none p = true -> is_none (policy h) = true
  | Relocate v _ dest => forall h s, vols w !! v = Some h -> slabs (registry w) !! dest = Some s -> ss_slot_size s = vslot h
  | Resync v => resyncs_alone w v
  | Snapshot _ snap => vols w !! snap = None /\ volumes (gem w) !! snap = None
  | Delete _ => True
  end.
(** Requests served one after the other, with what they answered. *)
Inductive history : world S -> list (request * result fault answer) -> world S -> Prop :=
| history_nil w : history w [] w
| history_cons w r a w1 t w2 : fits w r -> serve r w = (a, w1) -> history w1 t w2 -> history w ((r, a) :: t) w2.
End machine.

(** ** Disks *)

(** What each volume's disk has, and the block size of each there is. *)
Record store := mkStore { contents : disks; block : VolumeId -> option Z }.
Definition unchanged (a a' : store) : Prop := (forall u q, contents a' u q = contents a u q) /\ forall u, block a' u = block a u.
(** What a request may do.  A write that fails leaves anything in the blocks around it. *)
Definition allowed (a : store) (r : request) (x : result fault answer) (a' : store) : Prop :=
  match r with
  | Read v off len =>
      unchanged a a' /\ forall b, x = Ok (Bytes b) -> zlen b = len /\ forall q, off <= q < off + len -> at_ b (q - off) = contents a v q
  | Write v off buf =>
      (forall u, block a' u = block a u)
      /\ match x with
         | Ok y => y = Count (zlen buf) /\ forall u q, contents a' u q = patch (contents a) v off buf u q
         | Err _ => let bs := default 1 (block a v) in outside v (block_first bs off) (block_end bs off (zlen buf)) (contents a) (contents a')
         end
  | WriteZeroes v off len =>
      (forall u, block a' u = block a u)
      /\ match x with
         | Ok _ => forall u q, contents a' u q = patch (contents a) v off (zeros len) u q
         | Err _ => let bs := default 1 (block a v) in outside v (block_first bs off) (block_end bs off len) (contents a) (contents a')
         end
  | Discard v off len => (forall u, block a' u = block a u) /\ cleared v off (off + len) (contents a) (contents a')
  | Resize v size => (forall u, block a' u = block a u) /\ resized v size (contents a) (contents a')
  | Relocate _ _ _ | Redundant _ _ | Resync _ => unchanged a a'
  | Snapshot v snap =>
      match x with
      | Ok _ => (forall u q, contents a' u q = copied_to (contents a) v snap u q) /\ forall u, block a' u = if decide (u = snap) then block a v else block a u
      | Err _ => unchanged a a'
      end
  | Delete v => (forall u q, contents a' u q = contents a u q) /\ forall u, block a' u = match x with Ok _ => if decide (u = v) then None else block a u | Err _ => block a u end
  end.

Section laws.
Context {S : Type} `{SlotStoreLaws S} (load : VolumeId -> option VolumeExtentMap) (pp : ParityPath S)
  (pr : VolumeId -> RedundancyPolicy -> ResyncReport -> M S ResyncReport)
  (order : list (SlabId * list Z) -> list (SlabId * list Z)) (Horder : forall l, order l ≡ₚ l).

Definition represents (w : world S) (a : store) : Prop := repr [] w (contents a) /\ forall u, block a u = lba <$> vols w !! u.

Lemma bind_ret {A B} (m : M S A) (f : A -> B) w r w' : bind m (fun x => ret (f x)) w = (r, w') ->
  exists r0, m w = (r0, w') /\ r = match r0 with Ok x => Ok (f x) | Err e => Err e end.
Proof using Type. unfold bind, ret. destruct (m w) as [[x|e] w1]; intros [= <- <-]; by eexists. Qed.
Lemma twp_run {A} (m : M S A) (Q : result fault A -> world S -> Prop) w r w' : wp m Q w -> m w = (r, w') -> Q r w'.
Proof using Type. unfold wp. by intros HQ E; rewrite E in HQ. Qed.

(** A world whose blocks are as before, on disk [d']. *)
Lemma represents_same w w' a d' : represents w a -> repr [] w' d' -> same_blocks w w' ->
  represents w' (mkStore d' (block a)).
Proof using Type. intros [_ Hb] HR Hs. split; [done|]. intros u. cbn. by rewrite Hb, Hs. Qed.
Lemma unchanged_refl a : unchanged a a.
Proof using Type. by split. Qed.

Lemma no_volume v (w : world S) : vols w !! v = None -> handle v w = (Err (Failed DOther), w).
Proof using Type. intros E. unfold handle. by rewrite E. Qed.
Lemma write_none w v off buf : vols w !! v = None -> exists e, Thin.write load pp v off buf w = (Err e, w).
Proof using Type. intros E. unfold Thin.write, refuse_if_unknown_scheme, bind at 1, bind at 1. rewrite no_volume by done. by eexists. Qed.
Lemma write_zeroes_none w v off len : vols w !! v = None -> exists e, write_zeroes load pp v off len w = (Err e, w).
Proof using Type. intros E. unfold write_zeroes, refuse_if_unknown_scheme, bind at 1, bind at 1. rewrite no_volume by done. by eexists. Qed.
Lemma relocate_none w d v x dest : repr [] w d -> vols w !! v = None -> snd (relocate_extent load v x dest w) = w.
Proof using Type.
  intros HR E. unfold relocate_extent, bind at 1. rewrite (resident_spec load v w d HR). unfold bind at 1, fenced_lookup, of_gem, on_gem.
  rewrite lookup_in_memory by apply (r_cold _ _ _ HR). cbn [rbind]. assert (set_gem (gem w) w = w) as -> by by destruct w.
  destruct (ext_at (volumes (gem w)) v x) as [loc|]; [|done]. destruct (forallb _ _); [done|]. destruct (1 <? leg_count loc); [done|].
  unfold bind at 1, read_full, bind at 1. by rewrite no_volume.
Qed.

(** ** Each request *)

Lemma serve_read w a v off len x w' : represents w a -> 0 <= off -> 0 <= len -> serve load pp pr order (Read v off len) w = (x, w') ->
  exists a', represents w' a' /\ allowed a (Read v off len) x a'.
Proof using Type.
  intros HA Ho Hl E. apply bind_ret in E as (r0 & E & ->). destruct HA as [HR Hb].
  destruct (twp_run _ _ _ _ _ (volume_read_spec load pp w (contents a) v off len HR Ho Hl) E) as [HF Hr]. exists a. split.
  - split; [eapply repr_frame; [done|by apply frame_any]|]. intros u. by rewrite Hb, (same_blocks_softened _ _ (softened_frame _ _ _ HF) u).
  - split; [apply unchanged_refl|]. intros b Eb. destruct r0 as [b'|]; [|done]. injection Eb as <-. destruct (Hr b' eq_refl) as [Hz Hs].
    split; [done|]. intros q Hq. apply Hs. lia.
Qed.
Lemma serve_leaves {A} (f : A -> answer) v lo hi P w a r0 w' : represents w a -> leaves v lo hi P w (contents a) r0 w' ->
  exists a', represents w' a' /\ (forall u, block a' u = block a u) /\ outside v lo hi (contents a) (contents a')
    /\ forall y : A, r0 = Ok y -> P y (contents a').
Proof using Type.
  intros HA (Hs & d' & HR & Ho & HP). exists (mkStore d' (block a)). split; [|done].
  eapply represents_same; [done|done|by apply same_blocks_softened].
Qed.
Lemma serve_write w a v off buf x w' : represents w a -> 0 <= off -> serve load pp pr order (Write v off buf) w = (x, w') ->
  exists a', represents w' a' /\ allowed a (Write v off buf) x a'.
Proof using Type.
  intros HA Ho E. apply bind_ret in E as (r0 & E & ->). destruct (vols w !! v) as [h|] eqn:Hv.
  - destruct (serve_leaves (fun n => Count n) _ _ _ _ _ _ _ _ HA (twp_run _ _ _ _ _ (volume_write_spec load pp w _ v h off buf (proj1 HA) Hv Ho) E))
      as (a' & HA' & Hbl & Hout & HP). exists a'. split; [done|]. split; [done|]. destruct r0 as [n|e].
    + by destruct (HP n eq_refl) as [-> Hp].
    + cbv zeta. by rewrite (proj2 HA v), Hv.
  - destruct (write_none w v off buf Hv) as [e Ee]. rewrite Ee in E. injection E as <- <-. exists a. split; [done|]. by split.
Qed.
Lemma serve_write_zeroes w a v off len x w' : represents w a -> 0 <= off -> 0 <= len -> serve load pp pr order (WriteZeroes v off len) w = (x, w') ->
  exists a', represents w' a' /\ allowed a (WriteZeroes v off len) x a'.
Proof using Type.
  intros HA Ho Hl E. apply bind_ret in E as (r0 & E & ->). destruct (vols w !! v) as [h|] eqn:Hv.
  - destruct (serve_leaves (fun _ => Done) _ _ _ _ _ _ _ _ HA (twp_run _ _ _ _ _ (write_zeroes_spec load pp w _ v h off len (proj1 HA) Hv Ho Hl) E))
      as (a' & HA' & Hbl & Hout & HP). exists a'. split; [done|]. split; [done|]. destruct r0 as [n|e].
    + by apply (HP n).
    + cbv zeta. by rewrite (proj2 HA v), Hv.
  - destruct (write_zeroes_none w v off len Hv) as [e Ee]. rewrite Ee in E. injection E as <- <-. exists a. split; [done|]. by split.
Qed.
Lemma serve_snapshot w a v u x w' : represents w a -> vols w !! u = None -> volumes (gem w) !! u = None ->
  serve load pp pr order (Snapshot v u) w = (x, w') -> exists a', represents w' a' /\ allowed a (Snapshot v u) x a'.
Proof using Horder.
  intros HA Hu Hg E. apply bind_ret in E as (r0 & E & ->). destruct (vols w !! v) as [h|] eqn:Hv.
  - pose proof (twp_run _ _ _ _ _ (create_snapshot_spec order Horder load w _ v u h (proj1 HA) Hv Hu Hg) E) as Hsn. destruct r0 as [[]|e].
    + destruct Hsn as (HR & Hl & Hs). exists (mkStore (copied_to (contents a) v u) (fun y => if decide (y = u) then block a v else block a y)).
      split; [|done]. split; [done|]. intros y. cbn. case_decide as Hy; [subst y; by rewrite Hl, (proj2 HA v), Hv|].
      rewrite (proj2 HA y). specialize (Hs y Hy). destruct Hs as [h0 h1 Hso|]; [|done]. cbn. pose proof (so_flags _ _ Hso) as Ef. injection Ef as _ _ _ ->. done.
    + destruct Hsn as [HR Hs]. exists (mkStore (contents a) (block a)). split; [by eapply represents_same, same_blocks_softened|by destruct a].
  - unfold create_snapshot in E. destruct (refuse_unknown_spec v w) as [r Er]. unfold bind at 1 in E. rewrite Er in E. destruct r as [[]|f].
    + unfold bind, gets in E. rewrite Hv in E. injection E as <- <-. by exists a.
    + injection E as <- <-. by exists a.
Qed.
Lemma serve_delete w a v x w' : represents w a -> serve load pp pr order (Delete v) w = (x, w') -> exists a', represents w' a' /\ allowed a (Delete v) x a'.
Proof using Horder.
  intros HA E. apply bind_ret in E as (r0 & E & ->). destruct (vols w !! v) as [h|] eqn:Hv.
  - destruct (twp_run _ _ _ _ _ (delete_volume_spec order Horder load w _ v h (proj1 HA) Hv) E) as (-> & HR & Hn & Hs).
    exists (mkStore (contents a) (fun y => if decide (y = v) then None else block a y)). split; [|done]. split; [done|].
    intros y. cbn. case_decide as Hy; [subst y; by rewrite Hn|]. rewrite (proj2 HA y). specialize (Hs y Hy). destruct Hs as [h0 h1 Hso|]; [|done].
    cbn. pose proof (so_flags _ _ Hso) as Ef. injection Ef as _ _ _ ->. done.
  - unfold delete_volume, bind, gets in E. rewrite Hv in E. injection E as <- <-. by exists a.
Qed.

Lemma serve_resync w a v x w' : represents w a -> resyncs_alone w v -> serve load pp pr order (Resync v) w = (x, w') ->
  exists a', represents w' a' /\ allowed a (Resync v) x a'.
Proof using Type.
  intros HA Ha E. apply bind_ret in E as (r0 & E & ->). destruct (vols w !! v) as [h|] eqn:Hv.
  - destruct (twp_run _ _ _ _ _ (resync_spec load pr v h w _ (proj1 HA) Hv Ha) E) as (rr & _ & HR & Hs & _).
    exists (mkStore (contents a) (block a)). split; [by eapply represents_same|by destruct a].
  - unfold resync, bind at 1, attempt in E. rewrite (resident_spec load v w _ (proj1 HA)) in E. unfold resync_with, bind at 1 2 in E.
    rewrite no_volume in E by done. injection E as <- <-. by exists a.
Qed.

Lemma serve_allowed w a r x w' : represents w a -> fits w r -> serve load pp pr order r w = (x, w') ->
  exists a', represents w' a' /\ allowed a r x a'.
Proof using Horder.
  intros HA Hfit E. destruct r as [v off len|v off buf|v off len|v off len|v n|v p|v y dest|v|v u|v].
  - destruct Hfit. by eapply serve_read.
  - by eapply serve_write.
  - destruct Hfit as [Ho Hl]. apply bind_ret in E as (r0 & E & ->).
    destruct (twp_run _ _ _ _ _ (discard_spec load pp w _ v off len (proj1 HA) Ho Hl) E) as (Hs & d' & HR & Hc).
    exists (mkStore d' (block a)). split; [by eapply represents_same, same_blocks_softened|done].
  - destruct Hfit. by eapply serve_write_zeroes.
  - apply bind_ret in E as (r0 & E & ->). destruct (twp_run _ _ _ _ _ (resize_spec load pp w _ v n (proj1 HA) Hfit) E) as (Hs & (d' & HR & Hc) & _).
    exists (mkStore d' (block a)). split; [by eapply represents_same|done].
  - apply bind_ret in E as (r0 & E & ->). destruct (twp_run _ _ _ _ _ (set_redundancy_spec w _ v p (proj1 HA) Hfit) E) as [HR Hs].
    exists (mkStore (contents a) (block a)). split; [by eapply represents_same|by destruct a].
  - apply bind_ret in E as (r0 & E & ->). destruct (vols w !! v) as [h|] eqn:Hv.
    + destruct (twp_run _ _ _ _ _ (relocate_extent_spec load w _ v h y dest (proj1 HA) Hv ltac:(intros s; by apply (Hfit h s))) E) as [HR Hs].
      exists (mkStore (contents a) (block a)). split; [by eapply represents_same, same_blocks_softened|by destruct a].
    + pose proof (relocate_none w _ v y dest (proj1 HA) Hv) as En. rewrite E in En. cbn in En. subst w'. by exists a.
  - by eapply serve_resync.
  - destruct Hfit. by eapply serve_snapshot.
  - by eapply serve_delete.
Qed.

(** ** Histories *)

(** What requests and their answers do to the disks, one after the other. *)
Inductive traced : store -> list (request * result fault answer) -> store -> Prop :=
| traced_nil a : traced a [] a
| traced_cons a r x a1 t a2 : allowed a r x a1 -> traced a1 t a2 -> traced a ((r, x) :: t) a2.
Lemma history_traced w t w' : history load pp pr order w t w' -> forall a, represents w a -> exists a', represents w' a' /\ traced a t a'.
Proof using Horder.
  induction 1 as [w|w r x w1 t w2 Hfit E _ IH]; intros a HA; [exists a; split; [done|constructor]|].
  destruct (serve_allowed _ _ _ _ _ HA Hfit E) as (a1 & HA1 & Hal). destruct (IH a1 HA1) as (a2 & HA2 & Ht).
  exists a2. split; [done|by econstructor].
Qed.

(** The volume whose disk a request may change. *)
Definition target (r : request) : option VolumeId :=
  match r with
  | Write v _ _ | Discard v _ _ | WriteZeroes v _ _ | Resize v _ | Snapshot _ v => Some v
  | Read _ _ _ | Redundant _ _ | Relocate _ _ _ | Resync _ | Delete _ => None
  end.
Lemma allowed_other a r x a' u : allowed a r x a' -> target r <> Some u -> forall q, contents a' u q = contents a u q.
Proof using Type.
  intros Hal Hne q. destruct r as [v off len|v off buf|v off len|v off len|v n|v p|v y dest|v|v s|v]; cbn in Hal, Hne.
  - by destruct Hal as [[He _] _].
  - destruct Hal as [_ Hal]. destruct x as [y|e].
    + destruct Hal as [_ He]. rewrite He. unfold patch. rewrite decide_False by (intros [-> _]; by apply Hne). done.
    + apply Hal. left. congruence.
  - destruct Hal as [_ [Ho _]]. apply Ho. left. congruence.
  - destruct Hal as [_ Hal]. destruct x as [y|e].
    + rewrite Hal. unfold patch. rewrite decide_False by (intros [-> _]; by apply Hne). done.
    + apply Hal. left. congruence.
  - destruct Hal as [_ [Ho _]]. apply Ho. left. congruence.
  - by destruct Hal.
  - by destruct Hal.
  - by destruct Hal.
  - destruct x as [y|e]; [|by destruct Hal]. destruct Hal as [He _]. rewrite He. unfold copied_to. rewrite decide_False by congruence. done.
  - by destruct Hal.
Qed.
Lemma traced_other a t a' u : traced a t a' -> (forall rx, rx ∈ t -> target (fst rx) <> Some u) -> forall q, contents a' u q = contents a u q.
Proof using Type.
  induction 1 as [a|a r x a1 t a2 Hal _ IH]; intros Hno q; [done|]. rewrite IH by (intros rx Hrx; apply Hno; by right).
  apply (allowed_other _ _ _ _ _ Hal). apply (Hno (r, x)). by left.
Qed.
Lemma shown_alike (f : Z -> Z) off len a b : zlen a = len /\ (forall q, off <= q < off + len -> at_ a (q - off) = f q) ->
  zlen b = len /\ (forall q, off <= q < off + len -> at_ b (q - off) = f q) -> a = b.
Proof using Type.
  intros [Ha1 Ha2] [Hb1 Hb2]. apply (disk_shown_unique f off); [intros q Hq; apply Ha2; lia|intros q Hq; apply Hb2; lia|congruence].
Qed.

(** ** What volumes promise *)

(** C3. Volumes stand for disks.  Whatever fitting requests are served, reads and writes of
    any range, discards, zeroes, resizes, extents moved, resyncs, snapshots and deletes, and
    whatever storage fails under them, there are disks the volumes stand for before and
    after, and each request did to them what it may: a write that is answered changes its
    range and nothing else, one that fails no byte outside the blocks around it, a snapshot
    makes one more disk like its source or none at all, and no request touches another's
    disk.  Mirror and plain volumes only, with every map in memory
    ([represents]: no parity volume is in the world); storage keeps [SlotStoreLaws], so a
    write in range that fails fails as a medium or transport error, the kinds that take the
    leg out of trust; and requests [fits]: no resync of a shared extent, no mirrored volume
    made one of no copies, no extent moved to another slot size, a new id for a snapshot. *)
Theorem volumes_stand_for_disks w t w' a : represents w a -> history load pp pr order w t w' ->
  exists a', represents w' a' /\ traced a t a'.
Proof using Horder. intros HA HH. by eapply history_traced. Qed.

(** C4. A snapshot is its source as it was: whatever fitting requests are served after it,
    writes to the source, its delete, other snapshots, and whatever fails, as long as nothing
    changes the snapshot itself, a read of it that is answered has the bytes a read of the
    source was answered just before.  Mirror and plain volumes only, with every map in memory
    ([represents]: no parity volume is in the world); storage keeps [SlotStoreLaws], so a
    write in range that fails fails as a medium or transport error, the kinds that take the
    leg out of trust; and requests [fits]: no resync of a shared extent, no mirrored volume
    made one of no copies, no extent moved to another slot size, a new id for a snapshot. *)
Theorem snapshot_reads_as_its_source w a v u off len b0 w0 w1 t w2 b w3 : represents w a -> 0 <= off -> 0 <= len ->
  serve load pp pr order (Read v off len) w = (Ok (Bytes b0), w0) -> fits w0 (Snapshot v u) ->
  serve load pp pr order (Snapshot v u) w0 = (Ok Done, w1) ->
  history load pp pr order w1 t w2 -> (forall rx, rx ∈ t -> target (fst rx) <> Some u) ->
  serve load pp pr order (Read u off len) w2 = (Ok (Bytes b), w3) -> b = b0.
Proof using Horder.
  intros HA Ho Hl E0 Hfit E1 HH Hno E3.
  destruct (serve_read _ _ _ _ _ _ _ HA Ho Hl E0) as (a0 & HA0 & [He0 _] & Hr0).
  destruct (serve_allowed _ _ _ _ _ HA0 Hfit E1) as (a1 & HA1 & He1 & _).
  destruct (history_traced _ _ _ HH a1 HA1) as (a2 & HA2 & Ht).
  destruct (serve_read _ _ _ _ _ _ _ HA2 Ho Hl E3) as (a3 & _ & _ & Hr3).
  apply (shown_alike (contents a v) off len); [|by apply Hr0]. destruct (Hr3 b eq_refl) as [Hz Hb]. split; [done|].
  intros q Hq. rewrite Hb by done. rewrite (traced_other _ _ _ _ Ht Hno), He1. unfold copied_to. by rewrite decide_True, He0.
Qed.

(** C16. What was written is read: after a write that was answered, and whatever fitting
    requests are served that do not change the volume, a read of the range that is answered
    has the bytes written, from whichever trusted legs and however the range falls on blocks
    and extents.  Mirror and plain volumes only, with every map in memory
    ([represents]: no parity volume is in the world); storage keeps [SlotStoreLaws], so a
    write in range that fails fails as a medium or transport error, the kinds that take the
    leg out of trust; and requests [fits]: no resync of a shared extent, no mirrored volume
    made one of no copies, no extent moved to another slot size, a new id for a snapshot. *)
Theorem written_is_read w a v off buf n w1 t w2 b w3 : represents w a -> 0 <= off ->
  serve load pp pr order (Write v off buf) w = (Ok (Count n), w1) ->
  history load pp pr order w1 t w2 -> (forall rx, rx ∈ t -> target (fst rx) <> Some v) ->
  serve load pp pr order (Read v off (zlen buf)) w2 = (Ok (Bytes b), w3) -> b = buf.
Proof using Horder.
  intros HA Ho E1 HH Hno E3. pose proof (zlen_nonneg buf) as Hl.
  destruct (serve_write _ _ _ _ _ _ _ HA Ho E1) as (a1 & HA1 & _ & _ & He1).
  destruct (history_traced _ _ _ HH a1 HA1) as (a2 & HA2 & Ht).
  destruct (serve_read _ _ _ _ _ _ _ HA2 Ho Hl E3) as (a3 & _ & _ & Hr3).
  apply (shown_alike (contents a2 v) off (zlen buf)); [by apply Hr3|]. split; [done|].
  intros q Hq. rewrite (traced_other _ _ _ _ Ht Hno), He1. unfold patch. by rewrite decide_True.
Qed.

(** C19. The legs of an extent are apart: as many slots as the policy asks for, each one
    nobody had, of the volume's slot size, on a slab the volume trusts and that is not
    being emptied, no two on slabs that share a failure domain at the policy's rung.  For a
    volume that is not pinned to a slab (a pinned one, which [set_redundancy] does not
    refuse, has all its legs on that slab), and of slabs whose domain is known: a slab with
    none named collides with no other. *)
Theorem legs_are_apart v x p g h (w : world S) ls w' : wf_slabs w -> vols w !! v = Some h -> 0 < vslot h -> pinned (placement h) = None ->
  allocate_legs v x p g w = (Ok ls, w') ->
  length ls = Z.to_nat (copies (scheme p))
  /\ (forall l, l ∈ ls -> refs w l = 0 /\ refs w' l = 1 /\ size_at w l = vslot h /\ (lg_slab l ∉ failed h) /\ (lg_slab l ∉ quarantined (registry w)))
  /\ forall i j k l, (i < j)%nat -> ls !! i = Some k -> ls !! j = Some l ->
       k <> l /\ (domain_of (registry w) (lg_slab k) = [] \/ same_at (domain_of (registry w) (lg_slab l)) (domain_of (registry w) (lg_slab k)) (spread p) = false).
Proof using Type.
  intros Hw Hh Hz Hpin E. assert (pin_ok w h) as Hpo by (intros pin s Ep; by rewrite Hpin in Ep).
  destruct (twp_run _ _ _ _ _ (allocate_legs_spec v x p g h w Hw Hh Hz Hpo) E) as [HP Hlen]. split; [done|]. split.
  - intros l Hl. split; [by eapply pl_was|]. split; [by eapply pl_now|]. split; [by eapply pl_size|]. split; [by eapply pl_trusted|by eapply pl_staying].
  - intros i j k l Hij Hk Hl. split.
    + intros ->. pose proof (NoDup_lookup _ _ _ _ (pl_nodup _ _ _ _ _ HP) Hk Hl). lia.
    + pose proof (pl_apart _ _ _ _ _ HP Hpin j l Hl) as Hc. unfold collides in Hc.
      destruct (decide (domain_of (registry w) (lg_slab k) = [])) as [|Hne]; [by left|right].
      destruct (same_at _ _ _) eqn:Es; [|done]. exfalso. rewrite <- not_true_iff_false in Hc. apply Hc, existsb_exists.
      exists (domain_of (registry w) (lg_slab k)). split; [|by rewrite bool_decide_false].
      apply list_elem_of_In, list_elem_of_fmap. exists k. split; [done|]. apply list_elem_of_lookup. exists i. by rewrite lookup_take_lt.
Qed.
End laws.

(** ** Two slabs and a mirror *)

Lemma repr_new {S} `{SlotStoreLaws S} r vs ts : wf_slabs (mkWorld new_gem r vs ts) -> (forall v h, vs !! v = Some h -> handle_ok (mkWorld new_gem r vs ts) h) ->
  repr [] (mkWorld new_gem r vs ts) (fun _ _ => 0).
Proof.
  intros Hw Hh. assert (forall v x, mapped (mkWorld new_gem r vs ts) v x = None) as Hm by (intros v x; unfold mapped; cbn; by destruct (vs !! v)).
  assert (forall v x l, ~ holds (mkWorld new_gem r vs ts) v x l) as Hn by (intros v x l (loc & E & _); by rewrite Hm in E).
  constructor; try done; try (by intros; exfalso; eapply Hn); try (by intros v x loc E; rewrite Hm in E).
  - by intros v h x loc _ _ E; rewrite Hm in E.
  - intros v x loc u y loc' l E. specialize (Hm v x). congruence.
  - intros l _. exists []. split; [by intros v x ?%Hn|]. rewrite owes_not by (by intros ?%elem_of_nil). by apply refs_nonneg_w.
Qed.

Section demo.
#[local] Instance demo_slab_store : SlotStore (slab mdev) := slab_store 0.
#[local] Instance demo_slab_laws : SlotStoreLaws (slab mdev) := slab_laws 0.
(** Four slots of eight bytes each. *)
Definition demo_slab_header : SlabHeader :=
  mkHeader (replicate 16 7) (replicate 16 9) 8 4 4 1048576 8192 0 0 Hot 0 Data 0 0 4 4 4 nil_uuid nil_uuid 0 SLAB_VERSION.
Definition demo_slab : slab mdev := slab_formatted md_empty demo_slab_header 4.
Definition slab_a : SlabId := [1].
Definition slab_b : SlabId := [2].
Definition vol_a : VolumeId := [10].
Definition vol_b : VolumeId := [11].
Definition demo_registry : SlabRegistry (slab mdev) :=
  mkRegistry {[slab_a := demo_slab; slab_b := demo_slab]} {[Hot := [slab_a; slab_b]]} ∅
    {[slab_a := [mkLabel "drive" "a"]; slab_b := [mkLabel "drive" "b"]]} ∅ [] ∅.
Definition demo_volume : Volume := mkVolume 32 8 (policy_mirror 2) (mkPlacement Hot [] Data None Affine) ∅ None false false false 4 1 0.
Definition demo_world : world (slab mdev) := mkWorld new_gem demo_registry {[vol_a := demo_volume]} ∅.
Definition no_load (v : VolumeId) : option VolumeExtentMap := None.
Definition no_parity_path : ParityPath (slab mdev) :=
  mkParityPath (fun _ _ _ _ => fail DOther) (fun _ _ _ _ => fail DOther) (fun _ _ _ _ => fail DOther) (fun _ _ => fail DOther).
Definition no_parity_resync (v : VolumeId) (p : RedundancyPolicy) (rr : ResyncReport) : M (slab mdev) ResyncReport := ret rr.
Definition demo_serve (r : request) : world (slab mdev) -> result fault answer * world (slab mdev) := serve no_load no_parity_path no_parity_resync id r.
Definition blank : store := mkStore (fun _ _ => 0) (fun v => if decide (v = vol_a) then Some 4 else None).

Lemma demo_wf : wf_slabs demo_world.
Proof.
  assert (slab_wf demo_slab) as Hs by (apply formatted_wf; try done; by cbn).
  intros i s E. cbn in E. apply lookup_insert_Some in E as [[_ <-]|[_ E]]; [exact Hs|].
  apply lookup_singleton_Some in E as [_ <-]. exact Hs.
Qed.
Lemma demo_represents : represents demo_world blank.
Proof.
  split.
  - apply repr_new; [exact demo_wf|]. intros v h E. apply lookup_singleton_Some in E as [_ <-]. by constructor.
  - intros u. unfold blank, demo_world. cbn [block vols]. case_decide as Hu; [subst u; by rewrite lookup_singleton_eq|by rewrite lookup_singleton_ne].
Qed.

(** A write, a snapshot, and a write to the source; what the snapshot reads then. *)
Definition after (r : request) (w : world (slab mdev)) : world (slab mdev) := snd (demo_serve r w).
Definition first_write : request := Write vol_a 3 [1; 2; 3; 4; 5; 6; 7].
Definition source_write : request := Write vol_a 0 [9; 9; 9; 9].
Definition demo_w1 : world (slab mdev) := after first_write demo_world.
Definition demo_w2 : world (slab mdev) := after (Read vol_a 0 12) demo_w1.
Definition demo_w3 : world (slab mdev) := after (Snapshot vol_a vol_b) demo_w2.
Definition demo_w4 : world (slab mdev) := after source_write demo_w3.
Lemma after_eq r w x : fst (demo_serve r w) = x -> demo_serve r w = (x, after r w).
Proof. intros <-. apply surjective_pairing. Qed.
Lemma demo_written : demo_serve first_write demo_world = (Ok (Count 7), demo_w1).
Proof. apply after_eq. vm_compute. reflexivity. Qed.
Lemma demo_read : demo_serve (Read vol_a 0 12) demo_w1 = (Ok (Bytes [0; 0; 0; 1; 2; 3; 4; 5; 6; 7; 0; 0]), demo_w2).
Proof. apply after_eq. vm_compute. reflexivity. Qed.
Lemma demo_fits : fits demo_w2 (Snapshot vol_a vol_b).
Proof. split; vm_compute; reflexivity. Qed.
Lemma demo_snapped : demo_serve (Snapshot vol_a vol_b) demo_w2 = (Ok Done, demo_w3).
Proof. apply after_eq. vm_compute. reflexivity. Qed.
Lemma demo_overwritten : demo_serve source_write demo_w3 = (Ok (Count 4), demo_w4).
Proof. apply after_eq. vm_compute. reflexivity. Qed.
Lemma demo_tail : history no_load no_parity_path no_parity_resync id demo_w3 [(source_write, Ok (Count 4))] demo_w4.
Proof. eapply history_cons; [|exact demo_overwritten|constructor]. by cbn. Qed.
Lemma demo_history : history no_load no_parity_path no_parity_resync id demo_w1
  [(Read vol_a 0 12, Ok (Bytes [0; 0; 0; 1; 2; 3; 4; 5; 6; 7; 0; 0])); (Snapshot vol_a vol_b, Ok Done); (source_write, Ok (Count 4))] demo_w4.
Proof.
  eapply history_cons; [|exact demo_read|]; [by cbn|]. eapply history_cons; [exact demo_fits|exact demo_snapped|exact demo_tail].
Qed.
Lemma demo_first : exists a, represents demo_w1 a.
Proof.
  destruct (serve_write no_load no_parity_path no_parity_resync id _ _ vol_a 3 _ _ _ demo_represents ltac:(done) demo_written) as (a & HA & _). by exists a.
Qed.

Lemma volumes_stand_for_disks_witness : exists a', represents demo_w1 a' /\ traced blank [(first_write, Ok (Count 7))] a'.
Proof.
  apply (volumes_stand_for_disks no_load no_parity_path no_parity_resync id (fun l => reflexivity l) demo_world _ demo_w1 blank demo_represents).
  eapply history_cons; [|exact demo_written|constructor]. by cbn.
Defined.
Lemma snapshot_reads_as_its_source_witness : exists w5, demo_serve (Read vol_b 0 12) demo_w4 = (Ok (Bytes [0; 0; 0; 1; 2; 3; 4; 5; 6; 7; 0; 0]), w5)
  /\ forall b w6, demo_serve (Read vol_b 0 12) demo_w4 = (Ok (Bytes b), w6) -> b = [0; 0; 0; 1; 2; 3; 4; 5; 6; 7; 0; 0].
Proof.
  exists (after (Read vol_b 0 12) demo_w4). split; [apply after_eq; vm_compute; reflexivity|]. intros b w6 E. destruct demo_first as [a HA].
  refine (snapshot_reads_as_its_source no_load no_parity_path no_parity_resync id (fun l => reflexivity l) demo_w1 a vol_a vol_b 0 12 _ demo_w2 demo_w3 _ demo_w4 b w6
    HA _ _ demo_read demo_fits demo_snapped demo_tail _ E); [by cbn|by cbn|].
  by intros rx ->%list_elem_of_singleton.
Defined.
Lemma written_is_read_witness : exists w5, demo_serve (Read vol_a 3 7) demo_w1 = (Ok (Bytes [1; 2; 3; 4; 5; 6; 7]), w5)
  /\ forall b w6, demo_serve (Read vol_a 3 7) demo_w1 = (Ok (Bytes b), w6) -> b = [1; 2; 3; 4; 5; 6; 7].
Proof.
  exists (after (Read vol_a 3 7) demo_w1). split; [apply after_eq; vm_compute; reflexivity|]. intros b w6 E.
  refine (written_is_read no_load no_parity_path no_parity_resync id (fun l => reflexivity l) demo_world blank vol_a 3 _ 7 demo_w1 [] demo_w1 b w6
    demo_represents _ demo_written _ _ E); [by cbn|apply history_nil|]. intros rx Hrx. apply elem_of_nil in Hrx. destruct Hrx.
Defined.
Definition demo_legs : list Leg := [mkLeg slab_b 0; mkLeg slab_a 0].
Lemma legs_are_apart_witness : allocate_legs vol_a 0 (policy_mirror 2) 1 demo_world = (Ok demo_legs, snd (allocate_legs vol_a 0 (policy_mirror 2) 1 demo_world))
  /\ length demo_legs = 2%nat.
Proof.
  assert (fst (allocate_legs vol_a 0 (policy_mirror 2) 1 demo_world) = Ok demo_legs) as E by (vm_compute; reflexivity).
  pose proof (surjective_pairing (allocate_legs vol_a 0 (policy_mirror 2) 1 demo_world)) as Er. rewrite E in Er. split; [exact Er|].
  refine (proj1 (legs_are_apart vol_a 0 (policy_mirror 2) 1 demo_volume demo_world demo_legs _ demo_wf _ _ _ Er)); [reflexivity|reflexivity|reflexivity].
Defined.

(** A third slab, a write, and three copies asked for: a resync adds the leg that is not there. *)
Definition slab_c : SlabId := [3].
Definition wide_registry : SlabRegistry (slab mdev) :=
  mkRegistry {[slab_a := demo_slab; slab_b := demo_slab; slab_c := demo_slab]} {[Hot := [slab_a; slab_b; slab_c]]} ∅
    {[slab_a := [mkLabel "drive" "a"]; slab_b := [mkLabel "drive" "b"]; slab_c := [mkLabel "drive" "c"]]} ∅ [] ∅.
Definition wide_world : world (slab mdev) := mkWorld new_gem wide_registry {[vol_a := demo_volume]} ∅.
Definition wide_w1 : world (slab mdev) := after first_write wide_world.
Definition wide_w2 : world (slab mdev) := after (Redundant vol_a (policy_mirror 3)) wide_w1.
Lemma wide_represents : represents wide_world blank.
Proof.
  split.
  - apply repr_new.
    + intros i s E. cbn in E. apply lookup_insert_Some in E as [[<- <-]|[_ E]]; [by apply (demo_wf slab_a)|]. apply lookup_insert_Some in E as [[<- <-]|[_ E]]; [by apply (demo_wf slab_a)|].
      apply lookup_singleton_Some in E as [_ <-]. by apply (demo_wf slab_a).
    + intros v h E. apply lookup_singleton_Some in E as [_ <-]. by constructor.
  - exact (proj2 demo_represents).
Qed.
Lemma wide_history : history no_load no_parity_path no_parity_resync id wide_world
  [(first_write, Ok (Count 7)); (Redundant vol_a (policy_mirror 3), Ok Done)] wide_w2.
Proof.
  eapply history_cons; [by cbn| |eapply history_cons; [| |constructor]].
  - apply after_eq. vm_compute. reflexivity.
  - intros h _ E. vm_compute in E. discriminate.
  - apply after_eq. vm_compute. reflexivity.
Qed.
Lemma wide_alone : resyncs_alone wide_w2 vol_a.
Proof.
  split.
  - intros h. assert ((copies ∘ scheme ∘ policy) <$> vols wide_w2 !! vol_a = Some 3) as E by (vm_compute; reflexivity).
    intros Eh. rewrite Eh in E. injection E as E. unfold compose in E. lia.
  - intros x loc E. unfold mapped, ext_at in E. destruct (vols wide_w2 !! vol_a) as [h|]; [|discriminate].
    assert (bool_decide (map_Forall (fun _ l => ref_count l <= 1) (default ∅ (extents <$> volumes (gem wide_w2) !! vol_a))) = true) as HF
      by (vm_compute; reflexivity).
    apply bool_decide_eq_true in HF. destruct (volumes (gem wide_w2) !! vol_a) as [m|]; [|discriminate]. exact (HF x loc E).
Qed.
Lemma wide_has : exists h, vols wide_w2 !! vol_a = Some h /\ copies (scheme (policy h)) = 3.
Proof.
  assert ((copies ∘ scheme ∘ policy) <$> vols wide_w2 !! vol_a = Some 3) as E by (vm_compute; reflexivity).
  destruct (vols wide_w2 !! vol_a) as [h|]; [|discriminate]. injection E as E. by exists h.
Qed.
Definition wide_resync : result fault ResyncReport * world (slab mdev) := resync no_load no_parity_resync vol_a wide_w2.
Lemma resync_restores_mirrors_witness : exists rr w', wide_resync = (Ok rr, w') /\ rr_errors rr = [] /\ legs_added rr = 2
  /\ (forall x loc, mapped w' vol_a x = Some loc -> 3 <= leg_count loc)
  /\ exists H', health_resident no_load vol_a w' = (Ok H', w') /\ hs_state H' = HealthState.Healthy.
Proof.
  destruct (history_traced no_load no_parity_path no_parity_resync id (fun l => reflexivity l) _ _ _ wide_history blank wide_represents) as (a & [HR _] & _).
  destruct wide_has as (h & Hh & Hc).
  destruct (resync_restores_mirrors no_load no_parity_resync vol_a h wide_w2 (contents a) HR Hh wide_alone) as (rr & w' & E & _ & Hw).
  exists rr, w'. split; [exact E|]. assert ((fun r => match r with Ok rr => Some (rr_errors rr, legs_added rr) | Err _ => None end) (fst wide_resync) = Some ([], 2)) as Er
    by (vm_compute; reflexivity).
  unfold wide_resync in Er. rewrite E in Er. injection Er as Ee El. split; [exact Ee|]. split; [exact El|].
  destruct (Hw Ee) as (h' & H' & _ & Hall & Eh & Es). split; [|exists H'; split; [exact Eh|exact Es]].
  intros x loc Hm. specialize (Hall x loc Hm). rewrite Hc in Hall.
  etransitivity; [exact Hall|]. unfold zlen, leg_count. etransitivity; [apply Nat2Z.inj_le, length_filter|]. unfold legs, zlen. cbn. lia.
Defined.

(** Two snapshots and a resync of the first: its map counts two holders of what three hold,
    and a slot it is given is free once two of them are gone. *)
Definition vol_c : VolumeId := [12].
Definition shared_run : world (slab mdev) :=
  fold_left (fun w r => after r w)
    [Snapshot vol_a vol_b; Snapshot vol_a vol_c; Redundant vol_b (policy_mirror 3); Resync vol_b; Delete vol_a; Delete vol_c] wide_w1.
Lemma resync_undercounts_shares : exists l, existsb (fun k => bool_decide (k = l)) (all_legs (default vmap0 (volumes (gem shared_run) !! vol_b))) = true
  /\ refs shared_run l = 0.
Proof. exists (mkLeg slab_a 1). split; vm_compute; reflexivity. Qed.

(** Two copies of a write: either slab can be lost, both cannot. *)
Definition wide_map : VolumeExtentMap := default vmap0 (volumes (gem wide_w1) !! vol_a).
Lemma health_margin_survives_witness : margin (health_of demo_volume wide_registry (Some wide_map)) = 1
  /\ hs_state (health_of (distrust {[slab_b]} demo_volume) wide_registry (Some wide_map)) <> HealthState.Failed
  /\ exists X : gset SlabId, size X = 2%nat /\ hs_state (health_of (distrust X demo_volume) wide_registry (Some wide_map)) = HealthState.Failed.
Proof.
  assert (margin (health_of demo_volume wide_registry (Some wide_map)) = 1) as Em by (vm_compute; reflexivity). split; [exact Em|].
  destruct (health_margin_survives wide_registry demo_volume wide_map) as [Hs Ht].
  - unfold spread_out. cbn [scheme policy demo_volume policy_mirror]. apply (bool_decide_eq_true _). vm_compute. reflexivity.
  - vm_compute. discriminate.
  - rewrite Em in Hs, Ht. split; [apply Hs; rewrite size_singleton; lia|].
    destruct Ht as (X & Hx & Hf); [reflexivity|cbn; lia|vm_compute; discriminate| |exists X; split; [lia|exact Hf]].
    apply (bool_decide_eq_true _). vm_compute. reflexivity.
Defined.
End demo.
